(* ===== verification/_CoqProject ===== *)
-Q . S2P
Prelude.v
BitSet.v
BitSetFacts.v
BitSetOps.v
BitSetProps.v
BitSetChoose.v
BitSetEnum.v
Leb128.v
HeapOrder.v
PriorityQueue.v
PriorityQueueProps.v
OmpSchedule.v
OmpStatic.v
OmpNext.v
OmpDynamic.v
OmpLoop.v
OmpOrdered.v
OmpEvents.v
OmpEventsInv.v
OmpTeam.v
OmpTeamInv.v
OmpTeamTurns.v
OmpTeamSingles.v
OmpTeamProps.v
OmpLock.v
OmpNestLock.v
OmpAcquire.v
ArData.v
ArInt.v
ArIntProps.v
ArMultiply.v
ArBits.v
ArBitsProps.v
ArDivide.v
ArDivideProps.v
ArFields.v
ArCount.v
ArTheorems.v
IeeeData.v
IeeeFields.v
IeeeOps.v
IeeeRound.v
IeeeNorm.v
IeeeResult.v
IeeeMul.v
IeeeAdd.v
IeeeDiv.v
IeeeCompare.v
IeeeTheorems.v
ArInt64.v
IeeeConvert.v
IeeeFix.v
IeeeFloat.v
IeeeFormats.v
IeeeConvertTheorems.v
IeeeTyped.v
ArConvert.v
ArConvertProps.v
IdSet.v
SiGen.v
TiSi.v
TiResRes.v
TiSample.v
TiResResProps.v
TiUsage.v
TiCycles.v
TiTops.v
TiQueries.v
MemHeap.v
MemLogic.v
MemPool.v
MemPoolRep.v
MemPoolAlloc.v
MemPoolLarge.v
MemPoolRealloc.v
MemPoolLevels.v
MemPoolSpec.v
MemPoolRefine.v
MemPoolClient.v
MemPoolTheorems.v
