(* ===== verification/Prelude.v ===== *)
(** Path64: verified models of parts of the compiler and its run-time.

    * The program

    Path64 is a C/C++/Fortran compiler (the PathScale/Open64 line) with its run-time
    libraries.  Most of the repository is a GCC front end, C++ optimisers and
    vendored libraries.  The development covers components that are written in
    C, have a state and an algorithm of their own, and that the rest of the
    compiler relies on.

    - Bit sets, [common/util/bitset.c] and [bitset.h]: the sets of the dataflow
      solvers, of register allocation and of scheduling.  [BitSet] is the model,
      every function with the representation in words and bytes; [BitSetFacts]
      and [BitSetOps] have the representation invariant [wf], the abstraction
      [to_set] to [gset Z] and the refinement of each operation; [BitSetProps]
      states the set algebra; [BitSetChoose] and [BitSetEnum] are about choosing,
      enumerating, counting and printing elements.
    - LEB128 numbers, [libelfutil/leb*.c], the variable-length integers of debug
      information and of the address translation tables: [Leb128] has the four
      encoders and the four unrolled decoders, their equivalence with a
      three-line reference decoder, the round trips, and what happens with short
      buffers and overlong encodings.
    - Priority queues, [common/util/priority_queue.c]: [HeapOrder] is about heap
      order in a vector, [PriorityQueue] the model with its callbacks,
      [PriorityQueueProps] the correctness against multisets, down to the theorem
      that removing the top until the queue is empty sorts it.
    - OpenMP work sharing, [libopenmp/schedule.c] and [loop.c]: [OmpSchedule] is
      the model.  [OmpStatic] and [OmpNext]: static schedules partition the
      iterations.  [OmpDynamic]: the dynamic and guided schedulers as a step
      relation, one step for each access to shared memory; every iteration is
      executed exactly once in every interleaving.  [OmpLoop]: the protocol by
      which the threads of a team share and reuse [PMP_MAX_LOOPS] loop
      structures.  [OmpOrdered]: ordered sections run in order and never
      deadlock.
    - OpenMP threads, [libopenmp/thread.c], [team.c] and [idstack.h]: [OmpTeam]
      is the model of fork, assignment, barriers, single constructs, join and
      release with the hand-shake by which threads wait and are woken, one step for
      each access to shared memory.  [OmpEvents] is its specification, in which a
      thread that waits is simply not scheduled, with its invariant in
      [OmpEventsInv]; [OmpTeamInv], [OmpTeamTurns] and [OmpTeamSingles] have
      the simulation and the measure that decreases, [OmpTeamProps] the theorems.
      [OmpLock] and [OmpNestLock] model the spin locks of [lock.h] with the critical
      sections of [lock.c], and nested locks; [OmpAcquire] how masters reserve and
      create threads concurrently ([thread.c] and [manager.c]).
    - Compile-time arithmetic, [arith/math.c], [bits.c] and [compare.c], with
      which the Fortran front end and the optimiser fold constants: [ArData] has
      the representation of an integer in 16-bit fields, [ArInt], [ArBits] and
      [ArDivide] the operations, [ArIntProps], [ArMultiply], [ArBitsProps],
      [ArDivideProps], [ArFields], [ArCount] and [ArTheorems] their correctness for
      all sizes and signs.
    - Compile-time IEEE arithmetic, [arith/ieee_norm.c], [ieee_fadd.c],
      [ieee_fmul.c], [ieee_fdiv.c] and [compare.c]: [IeeeData] has the three formats
      and the macros on coefficients, [IeeeOps] the operations, one definition
      for the three copies of each routine with the format as a parameter.
      [IeeeFields] proves that the macros compute with numbers, [IeeeRound] is
      the reference rounding, [IeeeNorm] and [IeeeResult] are about normalisation,
      rounding and packaging, [IeeeMul], [IeeeAdd], [IeeeDiv] and [IeeeCompare]
      about the operations, [IeeeTheorems] has the theorems and the operands for
      which the routines are wrong.
    - Compile-time conversions, [arith/convert.c], [cvt.c] and [int64.h]: [ArInt64]
      has the 64-bit macros, [IeeeConvert] the conversions between integers and
      numbers and between formats, [IeeeFix], [IeeeFloat] and [IeeeFormats] their
      correctness, [IeeeConvertTheorems] the theorems; [IeeeTyped] shows that
      the operations and conversions are total and typed for all operands.
      [ArConvert] is [ar_convert_to_integral], [ArConvertProps] its correctness.
    - Resource reservation, [targ_info/access/ti_res_res.c] with the tables of
      [ti_si.h] and their generator [targ_info/generate/si_gen.cxx], with which
      the scheduler and the software pipeliner keep track of functional units:
      [SiGen] and [TiSi] model the tables, [TiResRes] the operations; [TiUsage]
      proves that one addition and one mask on a word decide the availability of
      every resource, for every history of reservations; [TiResResProps],
      [TiCycles], [TiTops] and [TiQueries] are about the table's cells, the
      opcodes of a loop and the queries.

    - Memory pools, [common/util/memory.c], the allocator of the compiler with its
      levels ([MEM_POOL_Push], [MEM_POOL_Pop]): [MemHeap] is memory with raw pointers
      and the C library, [MemLogic] a separation logic for it (an instance of Iris's
      interface), [MemPool] the model of the code.  [MemPoolRep] describes the
      blocks, levels and lists of a pool in memory, [MemPoolAlloc], [MemPoolLarge],
      [MemPoolRealloc] and [MemPoolLevels] prove the functions; [MemPoolSpec] is the
      specification, [MemPoolRefine] and [MemPoolClient] that the functions implement it,
      [MemPoolTheorems] has the theorems, an allocator and a memory to which they
      apply, and the calls that fail.

    The components meet in several places.  Resource reservation keeps sets of
    scheduling identifiers and talks to bit sets only through the interface of
    [IdSet], a class of operations with their laws, of which bit sets are an
    instance.  The loop protocol of [OmpLoop] is what makes the schedulers of
    [OmpDynamic] and [OmpOrdered] operate on the loop structure of their own loop;
    the teams of [OmpTeam] are what they run in, and [OmpAcquire] is how a fork of
    [OmpTeam] gets its threads.  Every IEEE operation and conversion ends in
    [ar_inorm], and conversions between integer types use the fields of [ArData].

    * How the C code is modelled

    A function that returns is a Rocq function into [outcome]: [Ok] with the
    returned value and the new state, or [Err] with the way it fails: [Assertion]
    ([Is_True], [FmtAssert], [assert]), [Bounds] (an access outside the object),
    [Fatal] (a call that reports an internal error or that the memory has run out, and does
    not return).
    [let*] sequences such functions and [assert*] is an assertion.  Theorems are
    stated with [yields c P]: [c] returns, and what it returns satisfies [P]; they
    are thus statements of total correctness, and a failing function satisfies
    none of them.  Pointers to [NULL] are [option]s; objects that a function
    changes are arguments and results, and where two arguments may be the same
    object the model reads before it writes like the code.

    Machine integers are [Z] with the wrap-around written out ([uwrap w] and
    [swrap w] for the unsigned and signed integers of [w] bits, [in_u] and [in_s]
    for their ranges).  Arithmetic that is undefined in C when it overflows is
    modelled on [Z] where the theorem assumes that it does not, and wraps where
    the code relies on it.  Choices that C or the build leave open are
    parameters: the word size and the byte order of bit sets ([BSMachine]), the
    order of bit-fields in [arith] ([Host]), the generated tables ([target]), the
    client's comparison and callbacks of a priority queue.

    Loops with a known number of iterations are [for_] and [search_], which run
    over the range of the counter.  Other loops are recursions on fuel, where
    [Err Timeout] says that the fuel ran out: the heap loops use the length of
    the vector, the loops over bits of [ArBits] the 16 bits of a field, the
    LEB128 reference decoder the length of its input, the normalisation loops of
    [ar_inorm] the exponent, [div_normalize] the width of the coefficient and the
    shift of [ar_iflt32] the 32 bits that it removes.  The theorems show that this
    is enough, because [yields] and a result [Ok] exclude [Timeout].  Concurrent
    code is an inductive step relation on the shared and local state of all
    threads; theorems are about every reachable state, for any number of threads
    up to [PMP_MAX_IDS] in a team, and executions of a team are bounded by
    [team_bound].

    Only memory pools look below objects: there memory is a map of cells at addresses,
    functions are computations on it ([mem]), and an access to an address without a cell is
    [Bounds].  Their loops over levels, blocks and large objects get the number of operations
    the client has done before as fuel, since each adds at most one object.

    * What the theorems show

    - Refinement: the set operations compute the operations of [gset Z]; the
      reservation words count like an explicit count of every resource in every
      cycle, for every history; teams of threads behave as the specification with
      events; memory pools are stacks of levels of objects.
    - Correct rounding: sums, products, quotients and conversions of IEEE numbers
      return the reference rounding of the exact result, and to nearest and towards zero its
      status, where the code rounds correctly; the hypotheses say where: gradual underflow, no
      traps, no upward or downward rounding of exact results of the wrong sign, and for products
      and quotients conditions on denormal operands.  Products are those of 32 and 64 bits.
    - 8-bit integers are kept in a byte whose place depends on the order of
      bit-fields; division, rotation and conversions of them are right on big-endian
      hosts, which the theorems assume ([host_ok]).
    - Types: the IEEE operations and conversions end and return well-formed results
      for all operands, modes and states.
    - Functional correctness on all branches: choosing and enumerating, heap
      operations and sorting with a queue, static shares, computed in [int64_t] for loops that
      keep their distance from its limits, and the ranges of the schedulers, reservation
      cells, integer arithmetic, shifts, rotations and bit counts.
    - Invariants and liveness of concurrent protocols: exactly-once execution,
      reuse of loop structures, order of ordered sections, barriers, fork and join
      without lost wakeups, mutual exclusion, conservation of threads, progress.
    - Round trips: LEB128, reserving and unreserving, quotient and remainder,
      widening and narrowing of numbers, integers through numbers.
    - Errors and bounds: sizes and arguments for which operations fail or return
      an error status.  Where the code is wrong the theorem says so: unions of
      sets with different word counts read out of bounds, the size of
      [BS_Choose_Next] overflows at 2^31 bits, [TI_RES_RES_Resources_Grainy]
      reads past its table, [MEM_POOL_Realloc] never returns when a large object of a
      pool that clears its memory shrinks to another large size, the consistency check of fair static schedules fails
      for an idle thread, 8-bit division is wrong on little-endian hosts, and some
      IEEE results are rounded the wrong way (the end of [IeeeTheorems] and of
      [IeeeConvertTheorems]).

    * Not modelled

    Of the components above: printing for debugging, their use of memory pools
    (allocation succeeds), and the [PMP_CHECK] variant of the OpenMP library with its array of
    iteration counts.  Of [libopenmp]: nested teams, the creation of threads with
    their stacks and affinity, thread-private data and [copyprivate], the locks
    with [lock_spin = 0], which are pthread mutexes, and the test of a lock that is
    not nested.  Of [arith]: the Cray formats, the double-double format of MIPS hosts
    (the host's own arithmetic is a parameter), the square root, conversions from
    and to strings, the dispatch on the type of conversions to floating-point,
    complex and pointer types, and the external helper program for Fortran
    intrinsics; the correctness of [ar_ifix128] is limited to its type.
    Of memory pools: the purify mode, the statistics of the debugging build, the calls
    of Valgrind, the creation of the standard pools, and the wrappers of [realloc].
    [ti_res_count.c] counts with doubles.  The rest of the repository is C++
    (optimisers, [ipa], [wgen], [driver]), third-party (GCC, binutils-like
    libraries, the Fortran run-time) or generated. *)
From Stdlib Require Import ZArith Lia Bool.
From stdpp Require Import prelude list gmap.

#[global] Open Scope Z_scope.

(** * Outcomes of C code

    A C function of the sources either returns, or hits one of the failures
    below.  [Assertion] is a failed [Is_True], [FmtAssert] or [assert];
    [Bounds] is an access outside the object that is addressed; [Fatal] is a
    call of [__pmp_fatal] or [ar_internal_error], or [ErrMsg (EC_No_Mem)]; [Timeout] says that a fuelled loop ran out of fuel
    and is only ever used to be proved absent. *)
Inductive failure : Type := Assertion | Bounds | Fatal | Timeout.

Inductive outcome (A : Type) : Type :=
| Ok (a : A)
| Err (f : failure).
Arguments Ok {A} a.
Arguments Err {A} f.

#[export] Instance failure_eq_dec : EqDecision failure.
Proof. solve_decision. Defined.

#[export] Instance outcome_eq_dec {A} `{EqDecision A} : EqDecision (outcome A).
Proof. solve_decision. Defined.

Definition obind {A B} (c : outcome A) (k : A -> outcome B) : outcome B :=
  match c with Ok a => k a | Err f => Err f end.

Definition assert_ (b : bool) : outcome unit := if b then Ok tt else Err Assertion.

Declare Scope c_scope.
Delimit Scope c_scope with c.
#[global] Open Scope c_scope.
Notation "'let*' x ':=' c 'in' k" := (obind c (fun x => k))
  (at level 10, x name, c at level 100, k at level 200) : c_scope.
Notation "'let*' ' p ':=' c 'in' k" := (obind c (fun x => match x with p => k end))
  (at level 10, p pattern, c at level 100, k at level 200) : c_scope.
Notation "'assert*' b 'in' k" := (obind (assert_ b) (fun _ => k))
  (at level 10, b at level 100, k at level 200) : c_scope.

(** [of_option f o]: a lookup that fails with [f]. *)
Definition of_option {A} (f : failure) (o : option A) : outcome A :=
  match o with Some a => Ok a | None => Err f end.

Lemma obind_ok {A B} (a : A) (k : A -> outcome B) : obind (Ok a) k = k a.
Proof. reflexivity. Qed.

Lemma assert_true (b : bool) : b = true -> assert_ b = Ok tt.
Proof. by intros ->. Qed.

Lemma obind_inv {A B} (c : outcome A) (k : A -> outcome B) b :
  obind c k = Ok b -> exists a, c = Ok a /\ k a = Ok b.
Proof. destruct c; simpl; [eauto|discriminate]. Qed.

(** [yields c P]: [c] returns, and its value satisfies [P].  This is total
    correctness: a failing computation yields nothing. *)
Definition yields {A} (c : outcome A) (P : A -> Prop) : Prop :=
  match c with Ok a => P a | Err _ => False end.

Lemma yields_exists {A} (c : outcome A) (P : A -> Prop) :
  yields c P <-> exists a, c = Ok a /\ P a.
Proof.
  destruct c; simpl; split; [eauto|intros (x & [= ->] & H); exact H|done|by intros (x & ? & _)].
Qed.

Lemma yields_ok {A} (a : A) (P : A -> Prop) : P a -> yields (Ok a) P.
Proof. done. Qed.

Lemma yields_bind {A B} (c : outcome A) (k : A -> outcome B) (P : A -> Prop) (Q : B -> Prop) :
  yields c P -> (forall a, P a -> yields (k a) Q) -> yields (obind c k) Q.
Proof. destruct c; simpl; auto. Qed.

Lemma yields_mono {A} (c : outcome A) (P Q : A -> Prop) :
  yields c P -> (forall a, P a -> Q a) -> yields c Q.
Proof. destruct c; simpl; auto. Qed.

(** Cut a sequence after its third statement. *)
Lemma yields_bind3 {A B C D} (c1 : outcome A) (c2 : A -> outcome B) (c3 : B -> outcome C)
    (k : C -> outcome D) (P : C -> Prop) (Q : D -> Prop) :
  yields (obind c1 (fun a => obind (c2 a) (fun b => c3 b))) P ->
  (forall c, P c -> yields (k c) Q) ->
  yields (obind c1 (fun a => obind (c2 a) (fun b => obind (c3 b) k))) Q.
Proof.
  destruct c1 as [a|]; simpl; [|done]. destruct (c2 a) as [b|]; simpl; [|done].
  intros H. by apply yields_bind.
Qed.

Lemma yields_assert {B} (b : bool) (k : unit -> outcome B) (Q : B -> Prop) :
  b = true -> yields (k tt) Q -> yields (obind (assert_ b) k) Q.
Proof. by intros ->. Qed.

Lemma yields_eq {A} (c : outcome A) (a : A) : yields c (fun x => x = a) <-> c = Ok a.
Proof. destruct c; simpl; split; congruence || done. Qed.

#[export] Instance yields_proper {A} (c : outcome A) :
  Proper (pointwise_relation _ iff ==> iff) (yields c).
Proof. intros P Q H. destruct c; simpl; [apply H|done]. Qed.

Create HintDb path64.
Create Rewrite HintDb c_rw.
#[export] Hint Rewrite @obind_ok : c_rw.

(** * Counted loops

    [for_ lo hi body s] is [for (i = lo; i < hi; ++i) body]; the bound is a
    value that the body does not change.  [search_ lo hi body] is the same
    loop with a [return] in its body: it yields the first returned value. *)
Fixpoint for_nat {S} (n : nat) (i : Z) (body : Z -> S -> outcome S) (s : S) : outcome S :=
  match n with
  | O => Ok s
  | Datatypes.S n' => let* s' := body i s in for_nat n' (i + 1) body s'
  end.

Definition for_ {S} (lo hi : Z) (body : Z -> S -> outcome S) (s : S) : outcome S :=
  for_nat (Z.to_nat (hi - lo)) lo body s.

Fixpoint search_nat {R} (n : nat) (i : Z) (body : Z -> outcome (option R)) : outcome (option R) :=
  match n with
  | O => Ok None
  | Datatypes.S n' =>
      let* r := body i in
      match r with
      | Some v => Ok (Some v)
      | None => search_nat n' (i + 1) body
      end
  end.

Definition search_ {R} (lo hi : Z) (body : Z -> outcome (option R)) : outcome (option R) :=
  search_nat (Z.to_nat (hi - lo)) lo body.

(** Loop rule: an invariant indexed by the counter. *)
Lemma for_nat_inv {S} (I : Z -> S -> Prop) n lo body s :
  I lo s ->
  (forall i t, lo <= i < lo + Z.of_nat n -> I i t -> exists t', body i t = Ok t' /\ I (i + 1) t') ->
  exists s', for_nat n lo body s = Ok s' /\ I (lo + Z.of_nat n) s'.
Proof.
  revert lo s. induction n as [|n IH]; intros lo s H0 Hb; cbn [for_nat].
  - exists s. rewrite Z.add_0_r. auto.
  - destruct (Hb lo s) as (t & -> & Ht); [lia|done|]. rewrite obind_ok.
    destruct (IH (lo + 1) t Ht) as (s' & -> & Hs').
    { intros i u Hi Hu. apply Hb; [lia|done]. }
    exists s'. split; [done|]. by replace (lo + Z.of_nat (Datatypes.S n)) with (lo + 1 + Z.of_nat n) by lia.
Qed.

Lemma for_inv {S} (I : Z -> S -> Prop) lo hi body s :
  lo <= hi ->
  I lo s ->
  (forall i t, lo <= i < hi -> I i t -> exists t', body i t = Ok t' /\ I (i + 1) t') ->
  exists s', for_ lo hi body s = Ok s' /\ I hi s'.
Proof.
  intros Hle H0 Hb. unfold for_.
  destruct (for_nat_inv I (Z.to_nat (hi - lo)) lo body s H0) as (s' & He & Hi).
  { intros i t Hi. apply Hb. lia. }
  exists s'. split; [done|]. by replace hi with (lo + Z.of_nat (Z.to_nat (hi - lo))) by lia.
Qed.

Lemma yields_for {S} (I : Z -> S -> Prop) lo hi body s :
  lo <= hi ->
  I lo s ->
  (forall i t, lo <= i < hi -> I i t -> yields (body i t) (I (i + 1))) ->
  yields (for_ lo hi body s) (I hi).
Proof.
  intros Hle H0 Hb. apply yields_exists, for_inv; [done|done|].
  intros i t Hi Ht. apply yields_exists. by apply Hb.
Qed.

Lemma for_empty {S} lo hi body (s : S) : hi <= lo -> for_ lo hi body s = Ok s.
Proof. intros H. unfold for_. by replace (Z.to_nat (hi - lo)) with O by lia. Qed.

Lemma for_nat_split {S} n m lo body (s : S) :
  for_nat (n + m) lo body s =
  let* t := for_nat n lo body s in for_nat m (lo + Z.of_nat n) body t.
Proof.
  revert lo s. induction n as [|n IH]; intros lo s; cbn [for_nat Nat.add].
  - simpl. by rewrite Z.add_0_r.
  - destruct (body lo s) as [t|]; simpl; [|done]. rewrite IH.
    by replace (lo + 1 + Z.of_nat n) with (lo + Z.of_nat (Datatypes.S n)) by lia.
Qed.

Lemma for_split {S} lo k hi body (s : S) :
  lo <= k <= hi -> for_ lo hi body s = let* t := for_ lo k body s in for_ k hi body t.
Proof.
  intros H. unfold for_. replace (Z.to_nat (hi - lo)) with (Z.to_nat (k - lo) + Z.to_nat (hi - k))%nat by lia.
  rewrite for_nat_split. by replace (lo + Z.of_nat (Z.to_nat (k - lo))) with k by lia.
Qed.

Lemma for_cons {S} lo hi body (s : S) :
  lo < hi -> for_ lo hi body s = let* t := body lo s in for_ (lo + 1) hi body t.
Proof.
  intros H. unfold for_. replace (Z.to_nat (hi - lo)) with (Datatypes.S (Z.to_nat (hi - (lo + 1)))) by lia.
  done.
Qed.

(** A loop that fails at iteration [k]. *)
Lemma for_err {S} (I : Z -> S -> Prop) lo k hi body s f :
  lo <= k < hi -> I lo s ->
  (forall i t, lo <= i < k -> I i t -> yields (body i t) (I (i + 1))) ->
  (forall t, I k t -> body k t = Err f) ->
  for_ lo hi body s = Err f.
Proof.
  intros Hk H0 Hb Hf. rewrite (for_split lo k hi) by lia.
  pose proof (yields_for I lo k body s ltac:(lia) H0 Hb) as Hy.
  destruct (for_ lo k body s) as [t|]; simpl in *; [|done].
  rewrite for_cons by lia. by rewrite Hf.
Qed.

(** Search rule: the body either returns [v] or falls through; [P i] is what
    falling through at [i] shows, [Q i v] what returning [v] at [i] shows. *)
Lemma search_nat_inv {R} (P : Z -> Prop) (Q : Z -> R -> Prop) n lo body :
  (forall i, lo <= i < lo + Z.of_nat n ->
     exists r, body i = Ok r /\ match r with Some v => Q i v | None => P i end) ->
  exists r, search_nat n lo body = Ok r /\
    match r with
    | Some v => exists i, lo <= i < lo + Z.of_nat n /\ Q i v /\ (forall j, lo <= j < i -> P j)
    | None => forall j, lo <= j < lo + Z.of_nat n -> P j
    end.
Proof.
  revert lo. induction n as [|n IH]; intros lo Hb; cbn [search_nat].
  - exists None. split; [done|]. lia.
  - destruct (Hb lo) as (r & -> & Hr); [lia|]. rewrite obind_ok. destruct r as [v|].
    + exists (Some v). split; [done|]. exists lo. repeat split; [lia|lia|done|lia].
    + destruct (IH (lo + 1)) as (r & -> & Hr').
      { intros i Hi. apply Hb. lia. }
      exists r. split; [done|]. destruct r as [v|].
      * destruct Hr' as (i & Hi & HQ & HP). exists i. repeat split; [lia|lia|done|].
        intros j Hj. destruct (decide (j = lo)) as [->|]; [done|]. apply HP. lia.
      * intros j Hj. destruct (decide (j = lo)) as [->|]; [done|]. apply Hr'. lia.
Qed.

Lemma search_inv {R} (P : Z -> Prop) (Q : Z -> R -> Prop) lo hi body :
  (forall i, lo <= i < hi ->
     exists r, body i = Ok r /\ match r with Some v => Q i v | None => P i end) ->
  exists r, search_ lo hi body = Ok r /\
    match r with
    | Some v => exists i, lo <= i < hi /\ Q i v /\ (forall j, lo <= j < i -> P j)
    | None => forall j, lo <= j < hi -> P j
    end.
Proof.
  intros Hb. unfold search_.
  destruct (search_nat_inv P Q (Z.to_nat (hi - lo)) lo body) as (r & He & Hr).
  { intros i Hi. apply Hb. lia. }
  exists r. split; [done|]. destruct r as [v|].
  - destruct Hr as (i & Hi & HQ & HP). exists i. repeat split; [lia|lia|done|done].
  - intros j Hj. apply Hr. lia.
Qed.

Lemma yields_search {R} (P : Z -> Prop) (Q : Z -> R -> Prop) lo hi body :
  (forall i, lo <= i < hi ->
     yields (body i) (fun r => match r with Some v => Q i v | None => P i end)) ->
  yields (search_ lo hi body) (fun r =>
    match r with
    | Some v => exists i, lo <= i < hi /\ Q i v /\ (forall j, lo <= j < i -> P j)
    | None => forall j, lo <= j < hi -> P j
    end).
Proof.
  intros Hb. apply yields_exists, search_inv. intros i Hi. by apply yields_exists, Hb.
Qed.

(** * Arrays indexed by C integers

    [l !!! i] of the sources is [zlookup l i]: a negative or too large index is
    outside the array. *)
Definition zlookup {A} (l : list A) (i : Z) : option A :=
  if 0 <=? i then l !! Z.to_nat i else None.

Definition zinsert {A} (l : list A) (i : Z) (x : A) : list A :=
  if 0 <=? i then <[Z.to_nat i := x]> l else l.

Definition zlen {A} (l : list A) : Z := Z.of_nat (length l).

(** Read and write with the bounds check that C leaves out. *)
Definition rd {A} (l : list A) (i : Z) : outcome A := of_option Bounds (zlookup l i).

Definition wr {A} (l : list A) (i : Z) (x : A) : outcome (list A) :=
  if (0 <=? i) && (i <? zlen l) then Ok (zinsert l i x) else Err Bounds.

Section ZArrays.
Context {A : Type}.
Implicit Types (l : list A) (i j : Z) (x : A).

Lemma zlen_nonneg l : 0 <= zlen l.
Proof. unfold zlen. lia. Qed.

Lemma zlookup_Some_iff l i : (exists x, zlookup l i = Some x) <-> 0 <= i < zlen l.
Proof.
  unfold zlookup, zlen. destruct (Z.leb_spec 0 i); split; intros H'.
  - destruct H' as [x Hx%lookup_lt_Some]. lia.
  - apply lookup_lt_is_Some_2. lia.
  - by destruct H'.
  - lia.
Qed.

Lemma zlookup_lt l i x : zlookup l i = Some x -> 0 <= i < zlen l.
Proof. intros H. apply zlookup_Some_iff. eauto. Qed.

Lemma zlookup_is_Some l i : 0 <= i < zlen l -> exists x, zlookup l i = Some x.
Proof. apply zlookup_Some_iff. Qed.

Lemma zlookup_None l i : ~ (0 <= i < zlen l) -> zlookup l i = None.
Proof.
  intros H. destruct (zlookup l i) as [x|] eqn:E; [|done].
  exfalso. apply H, (zlookup_lt _ _ _ E).
Qed.

Lemma zlen_zinsert l i x : zlen (zinsert l i x) = zlen l.
Proof. unfold zlen, zinsert. destruct (0 <=? i); [|done]. by rewrite length_insert. Qed.

Lemma zlookup_zinsert_eq l i x : 0 <= i < zlen l -> zlookup (zinsert l i x) i = Some x.
Proof.
  unfold zlookup, zinsert, zlen. intros H. destruct (Z.leb_spec 0 i); [|lia].
  apply list_lookup_insert_eq. lia.
Qed.

Lemma zlookup_zinsert_ne l i j x : i <> j -> zlookup (zinsert l i x) j = zlookup l j.
Proof.
  unfold zlookup, zinsert. intros H. destruct (Z.leb_spec 0 i), (Z.leb_spec 0 j); try done.
  apply list_lookup_insert_ne. lia.
Qed.

Lemma zlookup_zinsert l i j x :
  zlookup (zinsert l i x) j =
  if (j =? i) && (0 <=? i) && (i <? zlen l) then Some x else zlookup l j.
Proof.
  destruct (Z.eqb_spec j i) as [->|Hne]; simpl.
  - destruct (Z.leb_spec 0 i), (Z.ltb_spec i (zlen l)); simpl.
    + apply zlookup_zinsert_eq. lia.
    + rewrite !zlookup_None; [done|lia|]. rewrite zlen_zinsert. lia.
    + unfold zlookup. by destruct (Z.leb_spec 0 i); [lia|].
    + unfold zlookup. by destruct (Z.leb_spec 0 i); [lia|].
  - apply zlookup_zinsert_ne. congruence.
Qed.

Lemma zlookup_zinsert_inv l i j x y :
  0 <= i < zlen l -> zlookup (zinsert l i x) j = Some y -> j = i /\ y = x \/ j <> i /\ zlookup l j = Some y.
Proof.
  intros Hi. destruct (decide (j = i)) as [->|Hne].
  - rewrite zlookup_zinsert_eq by done. intros [= ->]. by left.
  - rewrite zlookup_zinsert_ne by done. by right.
Qed.

Lemma zlist_eq l1 l2 :
  zlen l1 = zlen l2 ->
  (forall i, 0 <= i < zlen l1 -> zlookup l1 i = zlookup l2 i) -> l1 = l2.
Proof.
  intros Hl H. apply list_eq. intros n.
  destruct (decide (Z.of_nat n < zlen l1)) as [Hlt|Hge].
  - specialize (H (Z.of_nat n) ltac:(lia)). unfold zlookup in H.
    destruct (Z.leb_spec 0 (Z.of_nat n)); [|lia]. by rewrite Nat2Z.id in H.
  - unfold zlen in *. rewrite !lookup_ge_None_2 by lia. done.
Qed.

Lemma zinsert_id l i x : zlookup l i = Some x -> zinsert l i x = l.
Proof.
  intros H. apply zlist_eq; [apply zlen_zinsert|]. intros j _. rewrite zlookup_zinsert.
  destruct (Z.eqb_spec j i) as [->|]; simpl; [|done].
  by destruct ((0 <=? i) && (i <? zlen l)).
Qed.

Lemma zinsert_zinsert l i x y : zinsert (zinsert l i x) i y = zinsert l i y.
Proof. unfold zinsert. case_match; [by rewrite list_insert_insert_eq|done]. Qed.

Lemma rd_ok l i x : zlookup l i = Some x -> rd l i = Ok x.
Proof. unfold rd. by intros ->. Qed.

Lemma rd_inv l i x : rd l i = Ok x -> zlookup l i = Some x.
Proof. unfold rd. destruct (zlookup l i); simpl; congruence. Qed.

Lemma wr_ok l i x : 0 <= i < zlen l -> wr l i x = Ok (zinsert l i x).
Proof.
  unfold wr. intros H. destruct (Z.leb_spec 0 i), (Z.ltb_spec i (zlen l)); simpl; lia || done.
Qed.

Lemma rd_bounds l i : ~ (0 <= i < zlen l) -> rd l i = Err Bounds.
Proof. unfold rd. intros H. by rewrite zlookup_None. Qed.

Lemma wr_bounds l i x : ~ (0 <= i < zlen l) -> wr l i x = Err Bounds.
Proof.
  unfold wr. intros H. destruct (Z.leb_spec 0 i), (Z.ltb_spec i (zlen l)); simpl; done || lia.
Qed.

Lemma zlookup_app l1 l2 i :
  zlookup (l1 ++ l2) i = if i <? zlen l1 then zlookup l1 i else zlookup l2 (i - zlen l1).
Proof.
  unfold zlookup, zlen.
  destruct (Z.leb_spec 0 i), (Z.ltb_spec i (Z.of_nat (length l1))),
    (Z.leb_spec 0 (i - Z.of_nat (length l1))); try lia; try done.
  - by rewrite lookup_app_l by lia.
  - rewrite lookup_app_r by lia. f_equal. lia.
Qed.

Lemma zlen_app l1 l2 : zlen (l1 ++ l2) = zlen l1 + zlen l2.
Proof. unfold zlen. rewrite length_app. lia. Qed.
End ZArrays.

Lemma zlookup_fmap {A B} (f : A -> B) (l : list A) i : zlookup (f <$> l) i = f <$> zlookup l i.
Proof. unfold zlookup. destruct (0 <=? i); [apply list_lookup_fmap|done]. Qed.

Lemma zlen_fmap {A B} (f : A -> B) (l : list A) : zlen (f <$> l) = zlen l.
Proof. unfold zlen. by rewrite length_fmap. Qed.

Lemma zlen_seqZ lo n : zlen (seqZ lo n) = Z.max 0 n.
Proof. unfold zlen. rewrite length_seqZ. lia. Qed.

Lemma zlookup_seqZ lo n i : 0 <= i < n -> zlookup (seqZ lo n) i = Some (lo + i).
Proof.
  intros H. unfold zlookup. destruct (Z.leb_spec 0 i); [|lia].
  rewrite lookup_seqZ_lt by lia. f_equal. lia.
Qed.

#[export] Hint Rewrite @zlen_zinsert @zlen_app @zlen_fmap @zlen_seqZ : c_rw.
#[export] Hint Resolve zlen_nonneg : path64.

(** * Machine integers *)

(** Conversion to an unsigned type of [w] bits and to a signed one. *)
Definition uwrap (w z : Z) : Z := z mod 2 ^ w.
Definition swrap (w z : Z) : Z := (z + 2 ^ (w - 1)) mod 2 ^ w - 2 ^ (w - 1).

Definition in_u (w z : Z) : Prop := 0 <= z < 2 ^ w.
Definition in_s (w z : Z) : Prop := - 2 ^ (w - 1) <= z < 2 ^ (w - 1).

Definition INT32_MAX : Z := 2147483647.

Lemma uwrap_id w z : in_u w z -> uwrap w z = z.
Proof. intros H. apply Z.mod_small, H. Qed.

Lemma uwrap_range w z : 0 <= w -> in_u w (uwrap w z).
Proof. intros Hw. apply Z.mod_pos_bound. lia. Qed.

Lemma pow2_half w : 0 < w -> 2 ^ w = 2 * 2 ^ (w - 1).
Proof. intros Hw. replace w with (1 + (w - 1)) at 1 by lia. by rewrite Z.pow_add_r by lia. Qed.

Lemma swrap_id w z : 0 < w -> in_s w z -> swrap w z = z.
Proof.
  intros Hw H. unfold swrap, in_s in *. pose proof (pow2_half w Hw).
  rewrite Z.mod_small; lia.
Qed.

Lemma swrap_range w z : 0 < w -> in_s w (swrap w z).
Proof.
  intros Hw. unfold swrap, in_s. pose proof (pow2_half w Hw).
  pose proof (Z.mod_pos_bound (z + 2 ^ (w - 1)) (2 ^ w) ltac:(lia)). lia.
Qed.

(** * Bits *)
Lemma swrap_cong w v v' k : 0 < w -> v' = v + k * 2 ^ w -> swrap w v' = swrap w v.
Proof.
  intros Hw ->. unfold swrap. pose proof (Z.pow_pos_nonneg 2 w).
  replace (v + k * 2 ^ w + 2 ^ (w - 1)) with (v + 2 ^ (w - 1) + k * 2 ^ w) by lia. by rewrite Z.mod_add by lia.
Qed.

Lemma uwrap_cong w v v' k : 0 < w -> v' = v + k * 2 ^ w -> uwrap w v' = uwrap w v.
Proof. intros Hw ->. unfold uwrap. by rewrite Z.mod_add by lia. Qed.

Lemma testbit_high w z i : in_u w z -> 0 <= w <= i -> Z.testbit z i = false.
Proof.
  intros Hz Hi. destruct (decide (z = 0)) as [->|]; [apply Z.testbit_0_l|].
  apply Z.bits_above_log2; [unfold in_u in *; lia|].
  apply Z.log2_lt_pow2; [unfold in_u in *; lia|].
  pose proof (Z.pow_le_mono_r 2 w i ltac:(lia) ltac:(lia)). unfold in_u in *; lia.
Qed.

Lemma in_u_bits w z :
  0 <= w -> 0 <= z -> (forall i, w <= i -> Z.testbit z i = false) -> in_u w z.
Proof.
  intros Hw Hz H. split; [done|].
  assert (z = z mod 2 ^ w) as ->.
  { rewrite <- Z.land_ones by done. apply Z.bits_inj'. intros i Hi.
    rewrite Z.land_spec. destruct (Z.lt_ge_cases i w).
    - by rewrite Z.ones_spec_low, andb_true_r by lia.
    - by rewrite H by lia. }
  apply Z.mod_pos_bound. lia.
Qed.

Lemma bits_ext w a b :
  0 <= w -> in_u w a -> in_u w b ->
  (forall i, 0 <= i < w -> Z.testbit a i = Z.testbit b i) -> a = b.
Proof.
  intros Hw Ha Hb H. apply Z.bits_inj'. intros i Hi.
  destruct (Z.lt_ge_cases i w); [apply H; lia|].
  rewrite !(testbit_high w) by (done || lia). done.
Qed.

Lemma in_u_land_l w a b : 0 <= w -> in_u w a -> in_u w (Z.land a b).
Proof.
  intros Hw Ha. apply in_u_bits; [done|apply Z.land_nonneg; left; apply Ha|].
  intros i Hi. rewrite Z.land_spec, (testbit_high w a) by (done || lia). done.
Qed.

Lemma in_u_lor w a b : 0 <= w -> in_u w a -> in_u w b -> in_u w (Z.lor a b).
Proof.
  intros Hw Ha Hb. apply in_u_bits; [done|apply Z.lor_nonneg; split; [apply Ha|apply Hb]|].
  intros i Hi. rewrite Z.lor_spec, !(testbit_high w) by (done || lia). done.
Qed.

Lemma in_u_0 w : 0 <= w -> in_u w 0.
Proof. intros. split; lia. Qed.

Lemma in_u_ones w : 0 <= w -> in_u w (Z.ones w).
Proof. intros. rewrite Z.ones_equiv. split; lia. Qed.

Lemma ones_bit w i : 0 <= w -> Z.testbit (Z.ones w) i = (0 <=? i) && (i <? w).
Proof.
  intros Hw. destruct (Z.leb_spec 0 i), (Z.ltb_spec i w); simpl.
  - apply Z.ones_spec_low. lia.
  - apply Z.ones_spec_high. lia.
  - by apply Z.testbit_neg_r.
  - by apply Z.testbit_neg_r.
Qed.

#[export] Hint Resolve in_u_land_l in_u_lor in_u_0 in_u_ones uwrap_range swrap_range : path64.

(** * Sums and concatenations over a list *)
Definition total {A} (f : A -> Z) (xs : list A) : Z := foldr (fun x s => f x + s) 0 xs.

Lemma total_insert {A} (f : A -> Z) xs i x y :
  xs !! i = Some x -> total f (<[i := y]> xs) = total f xs - f x + f y.
Proof.
  revert i. induction xs as [|a xs IH]; intros [|i] H; simplify_eq/=; [lia|]. rewrite (IH i H). lia.
Qed.

Lemma total_bound {A} (f : A -> Z) xs b :
  (forall x, x ∈ xs -> f x <= b) -> total f xs <= b * Z.of_nat (length xs).
Proof.
  induction xs as [|a xs IH]; intros H; simpl; [lia|].
  pose proof (H a (list_elem_of_here _ _)). specialize (IH (fun x Hx => H x (list_elem_of_further _ _ _ Hx))). lia.
Qed.

Lemma total_nonneg {A} (f : A -> Z) xs : (forall x, 0 <= f x) -> 0 <= total f xs.
Proof. intros H. induction xs as [|a xs IH]; simpl; [lia|]. pose proof (H a). lia. Qed.

Lemma total_zero {A} (f : A -> Z) xs x : (forall x, 0 <= f x) -> total f xs = 0 -> x ∈ xs -> f x = 0.
Proof.
  intros H. induction xs as [|a xs IH]; simpl; intros H0 Hx; [by apply not_elem_of_nil in Hx|].
  pose proof (H a). pose proof (total_nonneg f xs H). apply elem_of_cons in Hx as [->|Hx]; [lia|].
  apply IH; [lia|done].
Qed.

Lemma total_member {A} (f : A -> Z) xs i x :
  (forall x, 0 <= f x) -> xs !! i = Some x -> f x <= total f xs.
Proof.
  intros H. revert i. induction xs as [|a xs IH]; intros [|i] Hi; simplify_eq/=.
  - pose proof (total_nonneg f xs H). lia.
  - specialize (IH i Hi). pose proof (H a). lia.
Qed.

Lemma total_two {A} (f : A -> Z) xs i j x y :
  (forall x, 0 <= f x) -> i <> j -> xs !! i = Some x -> xs !! j = Some y -> f x + f y <= total f xs.
Proof.
  intros H. revert i j. induction xs as [|a xs IH]; intros [|i] [|j] Hij Hi Hj; simplify_eq/=.
  - pose proof (total_member f xs j y H Hj). lia.
  - pose proof (total_member f xs i x H Hi). lia.
  - specialize (IH i j (fun E => Hij (f_equal S E)) Hi Hj). pose proof (H a). lia.
Qed.

Lemma total_pos {A} (f : A -> Z) xs :
  (forall x, 0 <= f x) -> 0 < total f xs -> exists i x, xs !! i = Some x /\ 0 < f x.
Proof.
  intros H. induction xs as [|a xs IH]; simpl; [lia|]. intros Hp. destruct (Z.lt_ge_cases 0 (f a)).
  - by exists 0%nat, a.
  - destruct IH as (i & x & Hi & Hx); [pose proof (H a); lia|]. by exists (S i), x.
Qed.

Lemma total_eq {A} (f : A -> Z) b xs :
  (forall i x, xs !! i = Some x -> f x = b) -> total f xs = b * Z.of_nat (length xs).
Proof.
  induction xs as [|a xs IH]; intros H; simpl; [lia|]. rewrite (H 0%nat a eq_refl).
  rewrite IH; [lia|]. intros i x Hi. by apply (H (S i)).
Qed.

Lemma concat_insert {A B} (g : A -> list B) xs i x y :
  xs !! i = Some x -> g x ++ concat (g <$> <[i := y]> xs) ≡ₚ g y ++ concat (g <$> xs).
Proof.
  revert i. induction xs as [|a xs IH]; intros [|i] H; simplify_eq/=.
  - by rewrite !(assoc_L (++)), (Permutation_app_comm (g x)).
  - specialize (IH i H). rewrite !(assoc_L (++)), (Permutation_app_comm (g x)), (Permutation_app_comm (g y)).
    by rewrite <- !(assoc_L (++)), IH.
Qed.

Lemma if_bool (c a b : bool) : (if c then a else b) = (c && a) || (negb c && b).
Proof. by destruct c, a, b. Qed.

Ltac ystep := first [apply yields_assert; [lia || done|] | eapply yields_bind; [|simpl]].
