(* ===== verification/BitSet.v ===== *)
(** Bit sets: the model of [common/util/bitset.c] and of the representation
    macros of [common/util/bitset.h].

    A [BS*] points at a word that holds the number of member words, followed
    by that many [BS_WORD]s.  [BS] below is that object; the words are [Z]s and
    the byte accesses of the code go through [word_byte]/[word_set_byte], which
    follow the byte order of the machine.  [BSMachine] leaves open the two
    choices of the header: 32 or 64 bit words, and the byte order.  A read or a
    write outside the allocated words is [Err Bounds]; [Is_True] is
    [assert*]. *)
From Stdlib Require Import ZArith Lia Bool.
From stdpp Require Import prelude list gmap strings pretty.
From S2P Require Import Prelude.

(** * Representation *)
Class BSMachine := {
  LOG2_BITS_PER_BS_WORD : Z;
  little_endian : bool;
  log2_bits_ok : LOG2_BITS_PER_BS_WORD = 5 \/ LOG2_BITS_PER_BS_WORD = 6
}.

(** The x86 build (32 bit words) and the two MIPS ISA 3 builds. *)
Program Definition x86_machine : BSMachine :=
  {| LOG2_BITS_PER_BS_WORD := 5; little_endian := true |}.
Next Obligation. auto. Qed.
Program Definition mips_machine (le : bool) : BSMachine :=
  {| LOG2_BITS_PER_BS_WORD := 6; little_endian := le |}.
Next Obligation. auto. Qed.

Record BS : Type := mkBS { BS_word_count : Z; BS_words : list Z }.

(** An allocation pool, as far as this package sees it: the designated bad
    pool, the zeroing flag, and what fresh memory holds if it is not zeroed. *)
Record MEM_POOL : Type := mkPool {
  mp_bad : bool;
  MEM_POOL_Zeroed : bool;
  mp_junk : Z -> Z
}.

Definition bad_pool : MEM_POOL := mkPool true false (fun _ => 0).

Section BitSet.
Context `{M : BSMachine}.

Definition BYTES_PER_BS_WORD : Z := 2 ^ (LOG2_BITS_PER_BS_WORD - 3).
Definition BITS_PER_BS_WORD : Z := BYTES_PER_BS_WORD * 8.

Definition bs_PBPW (x : Z) : Z := swrap 32 (Z.shiftl x LOG2_BITS_PER_BS_WORD).
Definition bs_QBPW (x : Z) : Z := swrap 32 (Z.shiftr x LOG2_BITS_PER_BS_WORD).
Definition bs_PBPB (x : Z) : Z := swrap 32 (Z.shiftl x 3).
Definition bs_QBPB (x : Z) : Z := swrap 32 (Z.shiftr x 3).
Definition bs_RBPB (x : Z) : Z := swrap 32 (Z.land x 7).
Definition bs_PBytesPW (x : Z) : Z := swrap 32 (x * BYTES_PER_BS_WORD).

Definition bs_ZEROS : Z := 0.
Definition bs_ONES : Z := Z.ones BITS_PER_BS_WORD.
Definition bs_ONE : Z := 1.
Definition BS_CHOOSE_FAILURE : Z := -1.

(** [BS_WORD] arithmetic: [~] and [<<] are truncated to the word. *)
Definition w_not (a : Z) : Z := Z.land (Z.lnot a) bs_ONES.
Definition w_shl (a n : Z) : Z := Z.land (Z.shiftl a n) bs_ONES.

Definition BS_word (set : BS) (i : Z) : outcome Z := rd (BS_words set) i.

Definition BS_set_word (set : BS) (i w : Z) : outcome BS :=
  let* ws := wr (BS_words set) i w in Ok (mkBS (BS_word_count set) ws).

(** Byte [j] of a word in memory order. *)
Definition byte_shift (j : Z) : Z :=
  8 * (if little_endian then j else BYTES_PER_BS_WORD - 1 - j).
Definition word_byte (w j : Z) : Z := Z.land (Z.shiftr w (byte_shift j)) 255.
Definition word_set_byte (w j b : Z) : Z :=
  Z.lor (Z.ldiff w (Z.shiftl 255 (byte_shift j))) (Z.shiftl (Z.land b 255) (byte_shift j)).

Definition BS_byte (set : BS) (i : Z) : outcome Z :=
  let* w := BS_word set (i / BYTES_PER_BS_WORD) in
  Ok (word_byte w (i mod BYTES_PER_BS_WORD)).

(** Assignment to [BS_byte(set,i)] of a [BS_WORD] value: the value is
    converted to [BS_BYTE]. *)
Definition BS_set_byte (set : BS) (i b : Z) : outcome BS :=
  let* w := BS_word set (i / BYTES_PER_BS_WORD) in
  BS_set_word set (i / BYTES_PER_BS_WORD) (word_set_byte w (i mod BYTES_PER_BS_WORD) b).

(** * Allocation *)
Definition pool_word (pool : MEM_POOL) (i : Z) : Z :=
  if MEM_POOL_Zeroed pool then 0 else uwrap BITS_PER_BS_WORD (mp_junk pool i).

Definition pool_words (pool : MEM_POOL) (from n : Z) : list Z :=
  pool_word pool <$> seqZ from n.

Definition bs_Malloc (length : Z) (pool : MEM_POOL) : outcome BS :=
  assert* negb (mp_bad pool) in
  Ok (mkBS length (pool_words pool 0 length)).

(** [for (new_length = 2; new_length < length; new_length <<= 1);] *)
Fixpoint pow2_loop (fuel : nat) (new_length length : Z) : outcome Z :=
  if new_length <? length then
    match fuel with
    | O => Err Timeout
    | S f => pow2_loop f (uwrap 64 (Z.shiftl new_length 1)) length
    end
  else Ok new_length.

Definition bs_Realloc (set : BS) (length : Z) (pool : MEM_POOL) : outcome BS :=
  let old_length := BS_word_count set in
  assert* negb (mp_bad pool) in
  if length <=? old_length then Ok set
  else
    let* new_length := pow2_loop 64 2 length in
    let new_set :=
      mkBS (BS_word_count set)
           (take (Z.to_nat old_length) (BS_words set) ++
            pool_words pool old_length (new_length - old_length)) in
    let* new_set :=
      (if negb (MEM_POOL_Zeroed pool)
       then for_ old_length new_length (fun i s => BS_set_word s i bs_ZEROS) new_set
       else Ok new_set) in
    Ok (mkBS new_length (BS_words new_set)).

Definition BS_Create (size : Z) (pool : MEM_POOL) : outcome BS :=
  assert* (0 <=? size) in
  bs_Malloc (bs_QBPW (uwrap 64 (size + (BITS_PER_BS_WORD - 1)))) pool.

Definition BS_Size_Alloc_Size (size : Z) : Z :=
  uwrap 64 ((1 + bs_QBPW (uwrap 64 (size + (BITS_PER_BS_WORD - 1)))) * BYTES_PER_BS_WORD).

Definition BS_Alloc_Size (set : BS) : Z :=
  uwrap 64 ((BS_word_count set + 1) * BYTES_PER_BS_WORD).

Definition BS_ClearD (set : BS) : outcome BS :=
  for_ 0 (BS_word_count set) (fun i s => BS_set_word s i bs_ZEROS) set.

Definition BS_Create_Empty (size : Z) (pool : MEM_POOL) : outcome BS :=
  let* set := BS_Create size pool in
  if negb (MEM_POOL_Zeroed pool) then BS_ClearD set else Ok set.

Definition BS_ResizeD (set : BS) (new_size : Z) (pool : MEM_POOL) : outcome BS :=
  let new_words := bs_QBPW (uwrap 64 (new_size + (BITS_PER_BS_WORD - 1))) in
  if BS_word_count set <? new_words then bs_Realloc set new_words pool else Ok set.

(** * Ranges and singletons *)
Definition BS_RangeD (set : BS) (low high : Z) (pool : MEM_POOL) : outcome BS :=
  assert* (0 <=? low) in
  assert* (0 <=? high - low + 1) in
  if high <? low then BS_ClearD set
  else
    let first_w := bs_QBPW low in
    let last_w := bs_QBPW high in
    let first_b := bs_QBPB low in
    let last_b := bs_QBPB high in
    let* set := (if BS_word_count set <=? last_w
                 then bs_Realloc set (last_w + 1) pool else Ok set) in
    let* set := BS_ClearD set in
    let* set := for_ (first_w + 1) last_w (fun i s => BS_set_word s i bs_ONES) set in
    let* set := for_ first_b (Z.min (bs_PBytesPW (first_w + 1)) (last_b + 1))
                  (fun i s => BS_set_byte s i bs_ONES) set in
    let* set := (if negb (first_w =? last_w)
                 then for_ (bs_PBytesPW last_w) (last_b + 1)
                        (fun i s => BS_set_byte s i bs_ONES) set
                 else Ok set) in
    let* set := BS_set_byte set first_b (w_shl bs_ONES (bs_RBPB low)) in
    let* b := BS_byte set last_b in
    BS_set_byte set last_b
      (Z.land b (Z.shiftr bs_ONES ((BITS_PER_BS_WORD - 1) - bs_RBPB high))).

Definition BS_Range (low high : Z) (pool : MEM_POOL) : outcome BS :=
  let* set := BS_Create (high + 1) pool in
  BS_RangeD set low high bad_pool.

Definition BS_SingletonD (set : BS) (element : Z) (pool : MEM_POOL) : outcome BS :=
  assert* (0 <=? element) in
  let word := bs_QBPW element in
  let* set := (if BS_word_count set <=? word
               then bs_Realloc set (word + 1) pool else Ok set) in
  let* set := BS_ClearD set in
  BS_set_byte set (bs_QBPB element) (w_shl bs_ONE (bs_RBPB element)).

Definition BS_Singleton (element : Z) (pool : MEM_POOL) : outcome BS :=
  let* set := BS_Create (element + 1) pool in
  BS_SingletonD set element bad_pool.

(** The pool argument is not used: growing is an assertion failure. *)
Definition BS_UniverseD (set : BS) (size : Z) (pool : MEM_POOL) : outcome BS :=
  BS_RangeD set 0 (size - 1) bad_pool.

Definition BS_Universe (size : Z) (pool : MEM_POOL) : outcome BS :=
  let* set := BS_Create size pool in
  BS_UniverseD set size bad_pool.

(** * Copying *)
Definition BS_Copy (set : BS) (pool : MEM_POOL) : outcome BS :=
  let size := BS_word_count set in
  let* newset := bs_Malloc size pool in
  for_ 0 size (fun i s => let* w := BS_word set i in BS_set_word s i w) newset.

Definition BS_CopyD (set1 set2 : BS) (pool : MEM_POOL) : outcome BS :=
  let size1 := BS_word_count set1 in
  let size2 := BS_word_count set2 in
  let* set1 := (if size1 <? size2 then bs_Realloc set1 size2 pool
                else for_ size2 size1 (fun i s => BS_set_word s i bs_ZEROS) set1) in
  for_ 0 size2 (fun i s => let* w := BS_word set2 i in BS_set_word s i w) set1.

Definition first_one : list Z :=
  [
   0; 0; 1; 0; 2; 0; 1; 0; 3; 0; 1; 0; 2; 0; 1; 0; 4; 0; 1; 0; 2; 0; 1; 0; 3; 0; 1; 0; 2; 0; 1; 0;
   5; 0; 1; 0; 2; 0; 1; 0; 3; 0; 1; 0; 2; 0; 1; 0; 4; 0; 1; 0; 2; 0; 1; 0; 3; 0; 1; 0; 2; 0; 1; 0;
   6; 0; 1; 0; 2; 0; 1; 0; 3; 0; 1; 0; 2; 0; 1; 0; 4; 0; 1; 0; 2; 0; 1; 0; 3; 0; 1; 0; 2; 0; 1; 0;
   5; 0; 1; 0; 2; 0; 1; 0; 3; 0; 1; 0; 2; 0; 1; 0; 4; 0; 1; 0; 2; 0; 1; 0; 3; 0; 1; 0; 2; 0; 1; 0;
   7; 0; 1; 0; 2; 0; 1; 0; 3; 0; 1; 0; 2; 0; 1; 0; 4; 0; 1; 0; 2; 0; 1; 0; 3; 0; 1; 0; 2; 0; 1; 0;
   5; 0; 1; 0; 2; 0; 1; 0; 3; 0; 1; 0; 2; 0; 1; 0; 4; 0; 1; 0; 2; 0; 1; 0; 3; 0; 1; 0; 2; 0; 1; 0;
   6; 0; 1; 0; 2; 0; 1; 0; 3; 0; 1; 0; 2; 0; 1; 0; 4; 0; 1; 0; 2; 0; 1; 0; 3; 0; 1; 0; 2; 0; 1; 0;
   5; 0; 1; 0; 2; 0; 1; 0; 3; 0; 1; 0; 2; 0; 1; 0; 4; 0; 1; 0; 2; 0; 1; 0; 3; 0; 1; 0; 2; 0; 1; 0].

(** * Choosing elements *)

(** [if (byte != 0) return first_one[byte] + base;] *)
Definition found_byte (byte base : Z) : outcome (option Z) :=
  if negb (byte =? bs_ZEROS)
  then let* f := rd first_one byte in Ok (Some (f + base))
  else Ok None.

Definition return_or {A} (r : option A) (k : outcome A) : outcome A :=
  match r with Some v => Ok v | None => k end.

(** The inner loop of the choosing functions: find the byte in a word that is
    known to be nonzero; [bytes] reads byte [j + first_byte]. *)
Definition choose_in_word (bytes : Z -> outcome Z) (i : Z) : outcome (option Z) :=
  let first_byte := bs_PBytesPW i in
  let* r := search_ 0 BYTES_PER_BS_WORD (fun j =>
              let* byte := bytes (j + first_byte) in
              found_byte byte (bs_PBPB (j + first_byte))) in
  match r with
  | Some v => Ok (Some v)
  | None => Err Assertion
  end.

Definition BS_Choose (set : BS) : outcome Z :=
  let* r := search_ 0 (BS_word_count set) (fun i =>
              let* w := BS_word set i in
              if negb (w =? bs_ZEROS) then choose_in_word (BS_byte set) i else Ok None) in
  return_or r (Ok BS_CHOOSE_FAILURE).

Definition BS_Choose_Range (set : BS) (low high : Z) : outcome Z :=
  assert* (0 <=? low) in
  assert* (-1 <=? high - low) in
  let last_elt_in_set := bs_PBPW (BS_word_count set) - 1 in
  let high := if last_elt_in_set <? high then last_elt_in_set else high in
  if high <? low then Ok BS_CHOOSE_FAILURE
  else
    let first_byte := bs_QBPB low in
    let last_byte := bs_QBPB high in
    let* b := BS_byte set first_byte in
    let byte := Z.land b (w_shl bs_ONES (bs_RBPB low)) in
    let byte := if first_byte =? last_byte
                then Z.land byte (Z.shiftr bs_ONES ((BITS_PER_BS_WORD - 1) - bs_RBPB high))
                else byte in
    let* r := found_byte byte (bs_PBPB first_byte) in
    return_or r (
    if first_byte =? last_byte then Ok BS_CHOOSE_FAILURE
    else
      let first_word := bs_QBPW low in
      let last_first_word_full_byte := (first_word + 1) * BYTES_PER_BS_WORD - 1 in
      let last_first_word_full_byte :=
        if last_byte <=? last_first_word_full_byte
        then last_byte - 1 else last_first_word_full_byte in
      let* r := search_ (first_byte + 1) (last_first_word_full_byte + 1) (fun i =>
                  let* byte := BS_byte set i in found_byte byte (bs_PBPB i)) in
      return_or r (
      let last_word := bs_QBPW high in
      let* r := search_ (first_word + 1) last_word (fun i =>
                  let* w := BS_word set i in
                  if negb (w =? bs_ZEROS)
                  then search_ 0 BYTES_PER_BS_WORD (fun j =>
                         let* byte := BS_byte set (j + i * BYTES_PER_BS_WORD) in
                         found_byte byte (bs_PBPB j + bs_PBPW i))
                  else Ok None) in
      return_or r (
      let i := Z.max (first_word + 1) last_word in
      let* r := search_ (i * BYTES_PER_BS_WORD) last_byte (fun i =>
                  let* byte := BS_byte set i in found_byte byte (8 * i)) in
      return_or r (
      let* b := BS_byte set last_byte in
      let byte := Z.land b (Z.shiftr bs_ONES ((BITS_PER_BS_WORD - 1) - bs_RBPB high)) in
      let* r := found_byte byte (bs_PBPB last_byte) in
      return_or r (Ok BS_CHOOSE_FAILURE))))).

(** [BS_Choose_Next] and [BS_Intersection_Choose_Next] are the same code up to
    the expressions that read a byte and a word; [choose_next] is that code. *)
Definition choose_next (word_count : Z) (word byte_at : Z -> outcome Z) (bound : Z) : outcome Z :=
  let bound := swrap 32 (bound + 1) in
  if bs_PBPW word_count <=? bound then Ok BS_CHOOSE_FAILURE
  else
    let inx_first_byte := bs_QBPB bound in
    let* b := byte_at inx_first_byte in
    let byte := Z.land b (w_shl bs_ONES (bs_RBPB bound)) in
    let* r := found_byte byte (bs_PBPB inx_first_byte) in
    return_or r (
    let inx_first_byte_second_word := (bs_QBPW bound + 1) * BYTES_PER_BS_WORD in
    let* r := search_ (inx_first_byte + 1) inx_first_byte_second_word (fun i =>
                let* byte := byte_at i in found_byte byte (bs_PBPB i)) in
    return_or r (
    let* r := search_ (bs_QBPW bound + 1) word_count (fun i =>
                let* w := word i in
                if negb (w =? bs_ZEROS) then choose_in_word byte_at i else Ok None) in
    return_or r (Ok BS_CHOOSE_FAILURE))).

Definition BS_Choose_Next (set : BS) (bound : Z) : outcome Z :=
  choose_next (BS_word_count set) (BS_word set) (BS_byte set) bound.

Definition word_and (set1 set2 : BS) (i : Z) : outcome Z :=
  let* a := BS_word set1 i in let* b := BS_word set2 i in Ok (Z.land a b).

Definition byte_and (set1 set2 : BS) (i : Z) : outcome Z :=
  let* a := BS_byte set1 i in let* b := BS_byte set2 i in Ok (Z.land a b).

Definition BS_Intersection_Choose (set1 set2 : BS) : outcome Z :=
  let last_word := if BS_word_count set1 <? BS_word_count set2
                   then BS_word_count set1 else BS_word_count set2 in
  let* r := search_ 0 last_word (fun i =>
              let* w := word_and set1 set2 i in
              if negb (w =? bs_ZEROS) then choose_in_word (byte_and set1 set2) i else Ok None) in
  return_or r (Ok BS_CHOOSE_FAILURE).

Definition BS_Intersection_Choose_Next (set1 set2 : BS) (bound : Z) : outcome Z :=
  let word_count := if BS_word_count set1 <? BS_word_count set2
                    then BS_word_count set1 else BS_word_count set2 in
  choose_next word_count (word_and set1 set2) (byte_and set1 set2) bound.

(** * Set operations *)

(** [for (i = lo; i < hi; ++i) BS_word(result,i) = e(i)] with [e] over words
    of sets that are not written. *)
Definition assign_words (lo hi : Z) (e : Z -> outcome Z) (result : BS) : outcome BS :=
  for_ lo hi (fun i s => let* w := e i in BS_set_word s i w) result.

(** [for (...) BS_word(set1,i) op= e(i)] *)
Definition update_words (lo hi : Z) (op : Z -> Z -> Z) (e : Z -> outcome Z) (set1 : BS) : outcome BS :=
  for_ lo hi (fun i s =>
    let* a := BS_word s i in let* b := e i in BS_set_word s i (op a b)) set1.

(** Grow to at least [n] words: [if (size < n) set = bs_Realloc(set,n,pool)] *)
Definition grow_to (set : BS) (n : Z) (pool : MEM_POOL) : outcome BS :=
  if BS_word_count set <? n then bs_Realloc set n pool else Ok set.

Definition BS_Difference (set1 set2 : BS) (pool : MEM_POOL) : outcome BS :=
  let size1 := BS_word_count set1 in
  let size2 := BS_word_count set2 in
  let minsize := Z.min size1 size2 in
  let* set := bs_Malloc size1 pool in
  let* set := assign_words 0 minsize (fun i =>
                let* a := BS_word set1 i in let* b := BS_word set2 i in
                Ok (Z.land a (w_not b))) set in
  assign_words minsize size1 (BS_word set1) set.

Definition BS_DifferenceD (set1 set2 : BS) : outcome BS :=
  let minsize := Z.min (BS_word_count set1) (BS_word_count set2) in
  update_words 0 minsize Z.land (fun i => let* b := BS_word set2 i in Ok (w_not b)) set1.

Definition BS_Difference1D (set : BS) (x : Z) : outcome BS :=
  assert* (0 <=? x) in
  if bs_QBPW x <? BS_word_count set then
    let* b := BS_byte set (bs_QBPB x) in
    BS_set_byte set (bs_QBPB x) (Z.land b (w_not (w_shl bs_ONE (bs_RBPB x))))
  else Ok set.

Definition BS_Difference1 (set : BS) (x : Z) (pool : MEM_POOL) : outcome BS :=
  let* set' := BS_Copy set pool in BS_Difference1D set' x.

Definition BS_Intersection (set1 set2 : BS) (pool : MEM_POOL) : outcome BS :=
  let size := if BS_word_count set1 <? BS_word_count set2
              then BS_word_count set1 else BS_word_count set2 in
  let* newset := bs_Malloc size pool in
  assign_words 0 size (fun i =>
    let* a := BS_word set1 i in let* b := BS_word set2 i in Ok (Z.land a b)) newset.

Definition BS_IntersectionD (set1 set2 : BS) : outcome BS :=
  let minsize := Z.min (BS_word_count set1) (BS_word_count set2) in
  let* set1 := update_words 0 minsize Z.land (BS_word set2) set1 in
  assign_words minsize (BS_word_count set1) (fun _ => Ok bs_ZEROS) set1.

Definition BS_IntersectionR (result set1 set2 : BS) : outcome BS :=
  let minsize := Z.min (BS_word_count set1) (BS_word_count set2) in
  let* result := assign_words 0 minsize (fun i =>
                   let* a := BS_word set1 i in let* b := BS_word set2 i in
                   Ok (Z.land a b)) result in
  assign_words minsize (BS_word_count result) (fun _ => Ok bs_ZEROS) result.

Definition bit_count : list Z :=
  [
   0; 1; 1; 2; 1; 2; 2; 3; 1; 2; 2; 3; 2; 3; 3; 4; 1; 2; 2; 3; 2; 3; 3; 4; 2; 3; 3; 4; 3; 4; 4; 5;
   1; 2; 2; 3; 2; 3; 3; 4; 2; 3; 3; 4; 3; 4; 4; 5; 2; 3; 3; 4; 3; 4; 4; 5; 3; 4; 4; 5; 4; 5; 5; 6;
   1; 2; 2; 3; 2; 3; 3; 4; 2; 3; 3; 4; 3; 4; 4; 5; 2; 3; 3; 4; 3; 4; 4; 5; 3; 4; 4; 5; 4; 5; 5; 6;
   2; 3; 3; 4; 3; 4; 4; 5; 3; 4; 4; 5; 4; 5; 5; 6; 3; 4; 4; 5; 4; 5; 5; 6; 4; 5; 5; 6; 5; 6; 6; 7;
   1; 2; 2; 3; 2; 3; 3; 4; 2; 3; 3; 4; 3; 4; 4; 5; 2; 3; 3; 4; 3; 4; 4; 5; 3; 4; 4; 5; 4; 5; 5; 6;
   2; 3; 3; 4; 3; 4; 4; 5; 3; 4; 4; 5; 4; 5; 5; 6; 3; 4; 4; 5; 4; 5; 5; 6; 4; 5; 5; 6; 5; 6; 6; 7;
   2; 3; 3; 4; 3; 4; 4; 5; 3; 4; 4; 5; 4; 5; 5; 6; 3; 4; 4; 5; 4; 5; 5; 6; 4; 5; 5; 6; 5; 6; 6; 7;
   3; 4; 4; 5; 4; 5; 5; 6; 4; 5; 5; 6; 5; 6; 6; 7; 4; 5; 5; 6; 5; 6; 6; 7; 5; 6; 6; 7; 6; 7; 7; 8].

Definition BS_Size (set : BS) : outcome Z :=
  let byte_count := swrap 32 (BS_word_count set * BYTES_PER_BS_WORD) in
  let* result := for_ 0 byte_count (fun i result =>
                   let* b := BS_byte set i in
                   let* c := rd bit_count b in
                   Ok (uwrap 64 (result + c))) 0 in
  Ok (swrap 32 result).

Definition BS_Union (set1 set2 : BS) (pool : MEM_POOL) : outcome BS :=
  let size1 := BS_word_count set1 in
  let size2 := BS_word_count set2 in
  let '(set1, set2, size1, size2) :=
    if size1 <? size2 then (set2, set1, size2, size1) else (set1, set2, size1, size2) in
  let* set := bs_Malloc size1 pool in
  let* set := assign_words 0 size2 (fun i =>
                let* a := BS_word set1 i in let* b := BS_word set2 i in Ok (Z.lor a b)) set in
  assign_words size2 size1 (BS_word set1) set.

Definition BS_UnionD (set1 set2 : BS) (pool : MEM_POOL) : outcome BS :=
  let size2 := BS_word_count set2 in
  let* set1 := grow_to set1 size2 pool in
  update_words 0 size2 Z.lor (BS_word set2) set1.

Definition BS_UnionR (result set1 set2 : BS) (pool : MEM_POOL) : outcome BS :=
  let size1 := BS_word_count set1 in
  let size2 := BS_word_count set2 in
  let maxsize := Z.max size1 size2 in
  let* result := grow_to result maxsize pool in
  assign_words 0 maxsize (fun i =>
    let* a := BS_word set1 i in let* b := BS_word set2 i in Ok (Z.lor a b)) result.

Definition BS_UnionD_Intersection (set1 set2 set3 : BS) (pool : MEM_POOL) : outcome BS :=
  let minsize := Z.min (BS_word_count set2) (BS_word_count set3) in
  let* set1 := grow_to set1 minsize pool in
  update_words 0 minsize Z.lor (fun i =>
    let* b := BS_word set2 i in let* c := BS_word set3 i in Ok (Z.land b c)) set1.

Definition BS_Union1D (set : BS) (x : Z) (pool : MEM_POOL) : outcome BS :=
  let minsize := bs_QBPW x + 1 in
  assert* (0 <=? x) in
  let* set := (if BS_word_count set <? minsize then bs_Realloc set minsize pool else Ok set) in
  let* b := BS_byte set (bs_QBPB x) in
  BS_set_byte set (bs_QBPB x) (Z.lor b (w_shl bs_ONE (bs_RBPB x))).

Definition BS_Union1 (set : BS) (x : Z) (pool : MEM_POOL) : outcome BS :=
  let newsize := if bs_QBPW x + 1 <? BS_word_count set
                 then bs_PBPW (BS_word_count set) else x + 1 in
  let* newset := BS_Create_Empty newsize pool in
  let* newset := BS_CopyD newset set bad_pool in
  BS_Union1D newset x bad_pool.

(** * Combined operations of the dataflow clients *)
Definition BS_2_1_Minus_3_Or_R (result set1 set2 set3 : BS) (pool : MEM_POOL) : outcome BS :=
  let size3 := BS_word_count set3 in
  assert* (BS_word_count set1 =? size3) in
  assert* (BS_word_count set2 =? size3) in
  let* result := grow_to result size3 pool in
  assign_words 0 size3 (fun i =>
    let* w1 := BS_word set1 i in let* w2 := BS_word set2 i in let* w3 := BS_word set3 i in
    Ok (Z.lor (Z.land (w_not w1) w2) w3)) result.

Definition BS_3_2_Minus_1_Or_D (set1 set2 set3 : BS) (pool : MEM_POOL) : outcome BS :=
  let size2 := BS_word_count set2 in
  let size3 := BS_word_count set3 in
  assert* (size2 =? size3) in
  let* set1 := grow_to set1 size3 pool in
  update_words 0 size3 Z.lor (fun i =>
    let* w2 := BS_word set2 i in let* w3 := BS_word set3 i in Ok (Z.land (w_not w2) w3)) set1.

Definition BS_3_2_Minus_4_Or_1_Or_D (set1 set2 set3 set4 : BS) (pool : MEM_POOL) : outcome BS :=
  let size2 := BS_word_count set2 in
  let size3 := BS_word_count set3 in
  let size4 := BS_word_count set4 in
  assert* ((size2 =? size3) && (size3 =? size4)) in
  let* set1 := grow_to set1 size2 pool in
  update_words 0 size2 Z.lor (fun i =>
    let* w2 := BS_word set2 i in let* w3 := BS_word set3 i in let* w4 := BS_word set4 i in
    Ok (Z.lor (Z.land (w_not w2) w3) w4)) set1.

Definition BS_3_2_Minus_4_Or_5_Or_1_Or_D (set1 set2 set3 set4 set5 : BS) (pool : MEM_POOL)
    : outcome BS :=
  let size5 := BS_word_count set5 in
  assert* (BS_word_count set2 =? size5) in
  assert* (BS_word_count set3 =? size5) in
  assert* (BS_word_count set4 =? size5) in
  let* set1 := grow_to set1 size5 pool in
  update_words 0 size5 Z.lor (fun i =>
    let* w2 := BS_word set2 i in let* w3 := BS_word set3 i in
    let* w4 := BS_word set4 i in let* w5 := BS_word set5 i in
    Ok (Z.lor (Z.lor (Z.land (w_not w2) w3) w4) w5)) set1.

Definition BS_2_1_Minus_3_Or_4_And_5_And_6_And_R
    (result set1 set2 set3 set4 set5 set6 : BS) (pool : MEM_POOL) : outcome BS :=
  let size3 := BS_word_count set3 in
  assert* (BS_word_count set1 =? size3) in
  assert* (BS_word_count set2 =? size3) in
  assert* (BS_word_count set4 =? size3) in
  assert* (BS_word_count set5 =? size3) in
  assert* (BS_word_count set6 =? size3) in
  let* result := grow_to result size3 pool in
  assign_words 0 size3 (fun i =>
    let* w1 := BS_word set1 i in let* w2 := BS_word set2 i in let* w3 := BS_word set3 i in
    let* w4 := BS_word set4 i in let* w5 := BS_word set5 i in let* w6 := BS_word set6 i in
    Ok (Z.land (Z.land (Z.land (Z.lor (Z.land (w_not w1) w2) w3) w4) w5) w6)) result.

Definition BS_2_1_Minus_3_Or_4_And_R (result set1 set2 set3 set4 : BS) (pool : MEM_POOL)
    : outcome BS :=
  let size3 := BS_word_count set3 in
  assert* (BS_word_count set1 =? size3) in
  assert* (BS_word_count set2 =? size3) in
  assert* (BS_word_count set4 =? size3) in
  let* result := grow_to result size3 pool in
  assign_words 0 size3 (fun i =>
    let* w1 := BS_word set1 i in let* w2 := BS_word set2 i in
    let* w3 := BS_word set3 i in let* w4 := BS_word set4 i in
    Ok (Z.land (Z.lor (Z.land (w_not w1) w2) w3) w4)) result.

Definition BS_1_Not_2_Or_3_Minus_4_And_R (result set1 set2 set3 set4 : BS) (pool : MEM_POOL)
    : outcome BS :=
  let size2 := BS_word_count set2 in
  assert* (BS_word_count set1 =? size2) in
  assert* (BS_word_count set3 =? size2) in
  assert* (BS_word_count set4 =? size2) in
  let* result := grow_to result size2 pool in
  assign_words 0 size2 (fun i =>
    let* w1 := BS_word set1 i in let* w2 := BS_word set2 i in
    let* w3 := BS_word set3 i in let* w4 := BS_word set4 i in
    Ok (Z.land (Z.land (Z.lor (w_not w1) w2) (w_not w3)) w4)) result.

Definition BS_2_3_Or_1_Or_D (set1 set2 set3 : BS) (pool : MEM_POOL) : outcome BS :=
  let size2 := BS_word_count set2 in
  let size3 := BS_word_count set3 in
  assert* (size2 =? size3) in
  let* set1 := grow_to set1 size2 pool in
  update_words 0 size2 Z.lor (fun i =>
    let* w2 := BS_word set2 i in let* w3 := BS_word set3 i in Ok (Z.lor w2 w3)) set1.

Definition BS_1_2_Or_3_And_R (result set1 set2 set3 : BS) (pool : MEM_POOL) : outcome BS :=
  let size1 := BS_word_count set1 in
  assert* (BS_word_count set2 =? size1) in
  assert* (BS_word_count set3 =? size1) in
  let* result := grow_to result size1 pool in
  assign_words 0 size1 (fun i =>
    let* w1 := BS_word set1 i in let* w2 := BS_word set2 i in let* w3 := BS_word set3 i in
    Ok (Z.land (Z.lor w1 w2) w3)) result.

Definition BS_2_3_And_1_Or_D (set1 set2 set3 : BS) (pool : MEM_POOL) : outcome BS :=
  let size := Z.min (BS_word_count set2) (BS_word_count set3) in
  let* set1 := grow_to set1 size pool in
  update_words 0 size Z.lor (fun i =>
    let* w2 := BS_word set2 i in let* w3 := BS_word set3 i in Ok (Z.land w2 w3)) set1.

Definition BS_3_Not_4_Or_2_And_1_Or_D (set1 set2 set3 set4 : BS) (pool : MEM_POOL) : outcome BS :=
  let size2 := BS_word_count set2 in
  assert* (BS_word_count set3 =? size2) in
  assert* (BS_word_count set4 =? size2) in
  let* set1 := grow_to set1 size2 pool in
  update_words 0 size2 Z.lor (fun i =>
    let* w2 := BS_word set2 i in let* w3 := BS_word set3 i in let* w4 := BS_word set4 i in
    Ok (Z.land w2 (Z.lor (w_not w3) w4))) set1.

Definition BS_4_3_Minus_2_Not_Or_1_And_D (set1 set2 set3 set4 : BS) (pool : MEM_POOL) : outcome BS :=
  let size2 := BS_word_count set2 in
  assert* (BS_word_count set3 =? size2) in
  assert* (BS_word_count set4 =? size2) in
  let* set1 := grow_to set1 size2 pool in
  update_words 0 size2 Z.land (fun i =>
    let* w2 := BS_word set2 i in let* w3 := BS_word set3 i in let* w4 := BS_word set4 i in
    Ok (Z.lor (w_not w2) (Z.land w4 (w_not w3)))) set1.

Definition BS_2_3_Minus_1_Or_D (set1 set2 set3 : BS) (pool : MEM_POOL) : outcome BS :=
  let size2 := BS_word_count set2 in
  let size3 := BS_word_count set3 in
  assert* (size2 =? size3) in
  let* set1 := grow_to set1 size2 pool in
  update_words 0 size2 Z.lor (fun i =>
    let* w2 := BS_word set2 i in let* w3 := BS_word set3 i in Ok (Z.land w2 (w_not w3))) set1.

Definition BS_2_3_Minus_4_Minus_1_Or_D (set1 set2 set3 set4 : BS) (pool : MEM_POOL) : outcome BS :=
  let size2 := BS_word_count set2 in
  let size3 := BS_word_count set3 in
  let size4 := BS_word_count set4 in
  assert* ((size2 =? size3) && (size3 =? size4)) in
  let* set1 := grow_to set1 size2 pool in
  update_words 0 size2 Z.lor (fun i =>
    let* w2 := BS_word set2 i in let* w3 := BS_word set3 i in let* w4 := BS_word set4 i in
    Ok (Z.land (Z.land w2 (w_not w3)) (w_not w4))) set1.

(** * Tests *)
Definition BS_ContainsP (set1 set2 : BS) : outcome bool :=
  let minsize := if BS_word_count set1 <? BS_word_count set2
                 then BS_word_count set1 else BS_word_count set2 in
  let* r := search_ 0 minsize (fun i =>
              let* a := BS_word set1 i in let* b := BS_word set2 i in
              if negb (a =? Z.lor a b) then Ok (Some false) else Ok None) in
  return_or r (
  let* r := search_ minsize (BS_word_count set2) (fun i =>
              let* b := BS_word set2 i in
              if negb (b =? bs_ZEROS) then Ok (Some false) else Ok None) in
  return_or r (Ok true)).

Definition BS_EmptyP (set : BS) : outcome bool :=
  let* r := search_ 0 (BS_word_count set) (fun i =>
              let* w := BS_word set i in
              if negb (w =? bs_ZEROS) then Ok (Some false) else Ok None) in
  return_or r (Ok true).

Definition BS_EqualP (set1 set2 : BS) : outcome bool :=
  let '(set1, set2) := if BS_word_count set2 <? BS_word_count set1
                       then (set2, set1) else (set1, set2) in
  let* r := search_ 0 (BS_word_count set1) (fun i =>
              let* a := BS_word set1 i in let* b := BS_word set2 i in
              if negb (a =? b) then Ok (Some false) else Ok None) in
  return_or r (
  let* r := search_ (BS_word_count set1) (BS_word_count set2) (fun i =>
              let* b := BS_word set2 i in
              if negb (b =? bs_ZEROS) then Ok (Some false) else Ok None) in
  return_or r (Ok true)).

Definition BS_IntersectsP (set1 set2 : BS) : outcome bool :=
  let minsize := if BS_word_count set1 <? BS_word_count set2
                 then BS_word_count set1 else BS_word_count set2 in
  let* r := search_ 0 minsize (fun i =>
              let* w := word_and set1 set2 i in
              if negb (w =? bs_ZEROS) then Ok (Some true) else Ok None) in
  return_or r (Ok false).

Definition BS_MemberP (set : BS) (x : Z) : outcome bool :=
  assert* (0 <=? x) in
  if BS_word_count set <=? bs_QBPW x then Ok false
  else
    let* b := BS_byte set (bs_QBPB x) in
    Ok (negb (Z.land b (w_shl bs_ONE (bs_RBPB x)) =? bs_ZEROS)).

Definition BS_Intersection_MemberP (set1 set2 : BS) (x : Z) : outcome bool :=
  assert* (0 <=? x) in
  if (BS_word_count set1 <=? bs_QBPW x) || (BS_word_count set2 <=? bs_QBPW x)
  then Ok false
  else
    let* b1 := BS_byte set1 (bs_QBPB x) in
    let* b2 := BS_byte set2 (bs_QBPB x) in
    Ok (negb (Z.land (Z.land b1 b2) (w_shl bs_ONE (bs_RBPB x)) =? bs_ZEROS)).

(** The fixed-size variants of checked builds. *)
Definition FBS_MemberP_Validate (set : BS) (x : Z) : outcome bool :=
  assert* (0 <=? x) in
  assert* (bs_QBPW x <? BS_word_count set) in
  let* b := BS_byte set (bs_QBPB x) in
  Ok (negb (Z.land b (w_shl bs_ONE (bs_RBPB x)) =? bs_ZEROS)).

Definition FBS_Union1D_Validate (set : BS) (x : Z) : outcome BS :=
  let minsize := bs_QBPW x + 1 in
  assert* (0 <=? x) in
  assert* (minsize <=? BS_word_count set) in
  let* b := BS_byte set (bs_QBPB x) in
  BS_set_byte set (bs_QBPB x) (Z.lor b (w_shl bs_ONE (bs_RBPB x))).

(** * Printing: the text written to the file *)
Definition PrintRange (out : string) (low high : Z) (first : bool) : string * bool :=
  let out := if first then out else (out +:+ ",")%string in
  ((out +:+ (if (low =? high)%Z then pretty low else pretty low +:+ "-" +:+ pretty high))%string,
   false).

Fixpoint print_loop (fuel : nat) (set : BS) (elt range_first last_elt : Z)
    (out : string) (first : bool) : outcome string :=
  match fuel with
  | O => Err Timeout
  | S fuel' =>
      let* elt := BS_Choose_Next set elt in
      if elt =? BS_CHOOSE_FAILURE then
        let '(out, _) := PrintRange out range_first last_elt first in
        Ok (out +:+ "}")%string
      else if negb (elt =? last_elt + 1) then
        let '(out, first) := PrintRange out range_first last_elt first in
        print_loop fuel' set elt elt elt out first
      else print_loop fuel' set elt range_first elt out first
  end.

Definition BS_Print (fuel : nat) (set : option BS) : outcome string :=
  match set with
  | None => Ok "<NULL>"%string
  | Some set =>
      let* elt := BS_Choose set in
      if elt =? BS_CHOOSE_FAILURE then Ok "{}"%string
      else print_loop fuel set elt elt elt "{"%string true
  end.
End BitSet.
