(* ===== verification/BitSetFacts.v ===== *)
(** Facts about the bit-set representation: the layout of bits in words, the
    well-formedness invariant, the set of integers that a [BS] stands for, and
    the rules for the accessors and word loops of [BitSet.v]. *)
From Stdlib Require Import ZArith Lia Bool Btauto.
From stdpp Require Import prelude list gmap.
From S2P Require Import Prelude BitSet.

Section Facts.
Context `{M : BSMachine}.

Abbreviation W := BITS_PER_BS_WORD.
Abbreviation B := BYTES_PER_BS_WORD.
Abbreviation L := LOG2_BITS_PER_BS_WORD.

(** * Sizes and representation macros *)
Lemma bytes_cases : (L = 5 /\ B = 4 /\ W = 32) \/ (L = 6 /\ B = 8 /\ W = 64).
Proof.
  unfold BITS_PER_BS_WORD, BYTES_PER_BS_WORD.
  destruct log2_bits_ok as [-> | ->]; [left|right]; repeat split; reflexivity.
Qed.

Lemma W_eq : W = 8 * B. Proof. unfold BITS_PER_BS_WORD. lia. Qed.

Lemma W_pow : W = 2 ^ L.
Proof. destruct bytes_cases as [(-> & _ & ->)|(-> & _ & ->)]; reflexivity. Qed.

Ltac sizes := pose proof bytes_cases.
Ltac div_solve := sizes; Z.div_mod_to_equations; nia.

Lemma in_s32 x : - 2147483648 <= x < 2147483648 -> in_s 32 x.
Proof. unfold in_s. simpl. lia. Qed.

Lemma QBPW_eq x : 0 <= x < 2 ^ 36 -> bs_QBPW x = x / W.
Proof.
  intros Hx. unfold bs_QBPW. rewrite Z.shiftr_div_pow2 by (sizes; lia). rewrite <- W_pow.
  apply swrap_id; [lia|]. apply in_s32. destruct bytes_cases as [(_ & _ & ->)|(_ & _ & ->)].
  all: split; [apply Z.le_trans with 0; [lia|apply Z.div_pos; lia]|apply Z.div_lt_upper_bound; lia].
Qed.

Lemma QBPB_eq x : 0 <= x < 2 ^ 31 -> bs_QBPB x = x / 8.
Proof.
  intros Hx. unfold bs_QBPB. rewrite Z.shiftr_div_pow2 by lia. change (2 ^ 3) with 8.
  apply swrap_id; [lia|]. apply in_s32. Z.div_mod_to_equations. lia.
Qed.

Lemma RBPB_eq x : bs_RBPB x = x mod 8.
Proof.
  unfold bs_RBPB. change 7 with (Z.ones 3). rewrite Z.land_ones by lia. change (2 ^ 3) with 8.
  apply swrap_id; [lia|]. apply in_s32. Z.div_mod_to_equations. lia.
Qed.

Lemma PBPB_eq x : 0 <= x < 2 ^ 28 -> bs_PBPB x = 8 * x.
Proof.
  intros Hx. unfold bs_PBPB. rewrite Z.shiftl_mul_pow2 by lia. change (2 ^ 3) with 8.
  rewrite swrap_id; [lia|lia|]. apply in_s32. lia.
Qed.

Lemma PBPW_eq x : 0 <= x -> x * W < 2 ^ 31 -> bs_PBPW x = x * W.
Proof.
  intros Hx Hw. unfold bs_PBPW. rewrite Z.shiftl_mul_pow2 by (sizes; lia). rewrite <- W_pow.
  apply swrap_id; [lia|]. apply in_s32. sizes. nia.
Qed.

Lemma PBytesPW_eq x : 0 <= x -> x * B < 2 ^ 31 -> bs_PBytesPW x = x * B.
Proof. intros Hx Hw. unfold bs_PBytesPW. apply swrap_id; [lia|]. apply in_s32. sizes. nia. Qed.

(** * Layout of elements in a word

    Element [x] is bit [x mod 8] of byte [x / 8]; [pos] is the significance in
    the word of the bit with offset [r] from the start of the word. *)
Definition pos (r : Z) : Z := byte_shift (r / 8) + r mod 8.

Lemma byte_shift_range j : 0 <= j < B -> 0 <= byte_shift j <= W - 8.
Proof. intros H. unfold byte_shift. rewrite W_eq. destruct little_endian; lia. Qed.

Lemma byte_shift_inj i j : byte_shift i = byte_shift j -> i = j.
Proof. unfold byte_shift. destruct little_endian; lia. Qed.

Lemma byte_shift_sep i j k l :
  0 <= k < 8 -> 0 <= l < 8 -> byte_shift i + k = byte_shift j + l -> i = j /\ k = l.
Proof. unfold byte_shift. destruct little_endian; lia. Qed.

Lemma pos_range r : 0 <= r < W -> 0 <= pos r < W.
Proof.
  intros H. unfold pos. assert (0 <= r / 8 < B) as Hj by (rewrite W_eq in H; Z.div_mod_to_equations; lia).
  pose proof (byte_shift_range _ Hj). Z.div_mod_to_equations; lia.
Qed.

Lemma pos_involutive r : 0 <= r < W -> pos (pos r) = r.
Proof.
  intros H. unfold pos, byte_shift. rewrite W_eq in H.
  destruct little_endian; Z.div_mod_to_equations; lia.
Qed.

(** The bit of element [x] in the word [w] that holds it. *)
Definition wbit (w x : Z) : bool := Z.testbit w (pos (x mod W)).

Lemma W_pos : 0 < W. Proof. sizes. lia. Qed.

Lemma mod_W_range x : 0 <= x mod W < W.
Proof. apply Z.mod_pos_bound, W_pos. Qed.

Lemma div_W_nonneg x : 0 <= x -> 0 <= x / W.
Proof. intros. apply Z.div_pos; [done|apply W_pos]. Qed.

Lemma wbit_land a b x : wbit (Z.land a b) x = wbit a x && wbit b x.
Proof. apply Z.land_spec. Qed.

Lemma wbit_lor a b x : wbit (Z.lor a b) x = wbit a x || wbit b x.
Proof. apply Z.lor_spec. Qed.

Lemma wbit_zeros x : wbit bs_ZEROS x = false.
Proof. apply Z.testbit_0_l. Qed.

Lemma wbit_ones x : wbit bs_ONES x = true.
Proof.
  unfold wbit, bs_ONES. apply Z.ones_spec_low, pos_range, mod_W_range.
Qed.

Lemma wbit_not a x : wbit (w_not a) x = negb (wbit a x).
Proof.
  unfold w_not. rewrite wbit_land, wbit_ones, andb_true_r. unfold wbit.
  apply Z.lnot_spec. pose proof (pos_range _ (mod_W_range x)). lia.
Qed.

Lemma in_u_w_not a : in_u W (w_not a).
Proof.
  unfold w_not. rewrite Z.land_comm. apply in_u_land_l; [sizes; lia|].
  apply in_u_ones. sizes; lia.
Qed.

(** [repw i w f]: [w] holds exactly the elements of word [i] that satisfy [f]. *)
Definition repw (i w : Z) (f : Z -> bool) : Prop :=
  in_u W w /\ forall x, 0 <= x -> x / W = i -> wbit w x = f x.

Lemma W_nonneg : 0 <= W. Proof. sizes. lia. Qed.

Lemma repw_zeros i : repw i bs_ZEROS (fun _ => false).
Proof. split; [apply in_u_0, W_nonneg|]. intros. apply wbit_zeros. Qed.

Lemma repw_ones i : repw i bs_ONES (fun _ => true).
Proof. split; [apply in_u_ones, W_nonneg|]. intros. apply wbit_ones. Qed.

Lemma repw_land i a b f g : repw i a f -> repw i b g -> repw i (Z.land a b) (fun x => f x && g x).
Proof.
  intros [Ha Hf] [Hb Hg]. split; [apply in_u_land_l; [apply W_nonneg|done]|].
  intros x Hx Hi. rewrite wbit_land, Hf, Hg by done. done.
Qed.

Lemma repw_lor i a b f g : repw i a f -> repw i b g -> repw i (Z.lor a b) (fun x => f x || g x).
Proof.
  intros [Ha Hf] [Hb Hg]. split; [apply in_u_lor; [apply W_nonneg|done|done]|].
  intros x Hx Hi. rewrite wbit_lor, Hf, Hg by done. done.
Qed.

Lemma repw_not i a f : repw i a f -> repw i (w_not a) (fun x => negb (f x)).
Proof.
  intros [Ha Hf]. split; [apply in_u_w_not|].
  intros x Hx Hi. rewrite wbit_not, Hf by done. done.
Qed.

Lemma repw_ext i w f g : repw i w f -> (forall x, 0 <= x -> x / W = i -> f x = g x) -> repw i w g.
Proof. intros [Hw Hf] H. split; [done|]. intros x Hx Hi. by rewrite Hf, H. Qed.

(** A word is determined by the elements it holds. *)
Lemma repw_inj i a b f g :
  0 <= i -> repw i a f -> repw i b g ->
  a = b <-> (forall x, 0 <= x -> x / W = i -> f x = g x).
Proof.
  intros Hi [Ha Hf] [Hb Hg]. pose proof W_pos. split.
  - intros -> x Hx Hxi. by rewrite <- Hf, <- Hg.
  - intros H1. apply (bits_ext W); [lia|done|done|]. intros n Hn.
    set (x := i * W + pos n). pose proof (pos_range n Hn).
    assert (x / W = i) as Hxi by (unfold x; rewrite Z.div_add_l, Z.div_small; lia).
    assert (x mod W = pos n) as Hxm.
    { unfold x. rewrite Z.add_comm, Z.mod_add by lia. apply Z.mod_small. lia. }
    assert (0 <= x) by (unfold x; nia).
    specialize (H1 x ltac:(done) Hxi). rewrite <- Hf, <- Hg in H1 by done.
    unfold wbit in H1. by rewrite Hxm, pos_involutive in H1 by done.
Qed.

Lemma repw_zero_iff i w f :
  0 <= i -> repw i w f -> w = bs_ZEROS <-> (forall x, 0 <= x -> x / W = i -> f x = false).
Proof. intros Hi Hw. apply (repw_inj i w bs_ZEROS f _ Hi Hw (repw_zeros i)). Qed.

(** * Bytes of words *)
Lemma word_byte_range w j : in_u 8 (word_byte w j).
Proof.
  unfold word_byte. change 255 with (Z.ones 8). rewrite Z.land_ones by lia.
  apply Z.mod_pos_bound. lia.
Qed.

Lemma word_byte_bit w j k :
  0 <= j < B -> 0 <= k < 8 -> Z.testbit (word_byte w j) k = Z.testbit w (byte_shift j + k).
Proof.
  intros Hj Hk. unfold word_byte. change 255 with (Z.ones 8).
  rewrite Z.land_spec, Z.shiftr_spec, Z.ones_spec_low, andb_true_r by lia. f_equal. lia.
Qed.

Lemma shifted_byte_bit b j n :
  0 <= j < B -> 0 <= n ->
  Z.testbit (Z.shiftl (Z.land b 255) (byte_shift j)) n =
  (byte_shift j <=? n) && (n <? byte_shift j + 8) && Z.testbit b (n - byte_shift j).
Proof.
  intros Hj Hn. pose proof (byte_shift_range j Hj).
  rewrite Z.shiftl_spec by lia. change 255 with (Z.ones 8). rewrite Z.land_spec.
  destruct (Z.leb_spec (byte_shift j) n); simpl.
  - destruct (Z.ltb_spec n (byte_shift j + 8)); simpl.
    + by rewrite Z.ones_spec_low, andb_true_r by lia.
    + by rewrite Z.ones_spec_high, andb_false_r by lia.
  - by rewrite !Z.testbit_neg_r by lia.
Qed.

Lemma word_set_byte_range w j b : 0 <= j < B -> in_u W w -> in_u W (word_set_byte w j b).
Proof.
  intros Hj Hw. pose proof (byte_shift_range j Hj). unfold word_set_byte.
  apply in_u_lor; [apply W_nonneg| |].
  - apply in_u_bits; [apply W_nonneg|apply Z.ldiff_nonneg; left; apply Hw|].
    intros n Hn. by rewrite Z.ldiff_spec, (testbit_high W w) by (done || pose proof W_nonneg; lia).
  - apply in_u_bits; [apply W_nonneg|apply Z.shiftl_nonneg, Z.land_nonneg; lia|].
    intros n Hn. rewrite shifted_byte_bit by (pose proof W_pos; lia).
    destruct (Z.ltb_spec n (byte_shift j + 8)); [lia|]. by rewrite andb_false_r.
Qed.

Lemma word_set_byte_bit w j b x :
  0 <= j < B ->
  wbit (word_set_byte w j b) x = if (x mod W) / 8 =? j then Z.testbit b (x mod 8) else wbit w x.
Proof.
  intros Hj. unfold wbit, word_set_byte. pose proof (mod_W_range x) as Hr.
  set (r := x mod W) in *.
  assert (x mod 8 = r mod 8) as ->.
  { unfold r. rewrite W_eq. rewrite Z.mul_comm. symmetry. apply Z.mod_mod_divide. by exists B; lia. }
  assert (0 <= r mod 8 < 8) as H8 by (apply Z.mod_pos_bound; lia).
  assert (0 <= r / 8 < B) as Hq by (rewrite W_eq in Hr; Z.div_mod_to_equations; lia).
  pose proof (pos_range r Hr) as Hp. pose proof (byte_shift_range j Hj) as Hs.
  replace (Z.shiftl 255 (byte_shift j)) with (Z.shiftl (Z.land (-1) 255) (byte_shift j)) by done.
  rewrite Z.lor_spec, Z.ldiff_spec, !shifted_byte_bit by lia.
  destruct (Z.leb_spec (byte_shift j) (pos r)) as [Hle|Hlt]; simpl.
  2: { destruct (Z.eqb_spec (r / 8) j) as [<-|]; [unfold pos in *; lia|].
       by rewrite andb_true_r, orb_false_r. }
  rewrite Z.bits_m1 by lia.
  unfold pos in *. destruct (Z.eqb_spec (r / 8) j) as [<-|Hne].
  - replace (byte_shift (r / 8) + r mod 8 - byte_shift (r / 8)) with (r mod 8) by lia.
    destruct (Z.ltb_spec (byte_shift (r / 8) + r mod 8) (byte_shift (r / 8) + 8)); [|lia].
    simpl. by rewrite andb_false_r.
  - destruct (Z.ltb_spec (byte_shift (r / 8) + r mod 8) (byte_shift j + 8)); simpl.
    + exfalso. destruct (byte_shift_sep (r / 8) j (r mod 8) (byte_shift (r / 8) + r mod 8 - byte_shift j)); lia.
    + by rewrite andb_true_r, orb_false_r.
Qed.

(** * The invariant and the abstraction *)

(** Elements below [BS_LIMIT] are the ones for which none of the [INT32]
    computations of the package overflows. *)
Definition BS_LIMIT : Z := 2 ^ 30.

Definition wf (s : BS) : Prop :=
  zlen (BS_words s) = BS_word_count s /\
  Forall (in_u W) (BS_words s) /\
  BS_word_count s * W <= BS_LIMIT.

Definition wd (s : BS) (i : Z) : Z := default 0 (zlookup (BS_words s) i).

(** Membership, as stated in [bitset.h]. *)
Definition mem (s : BS) (x : Z) : bool :=
  (0 <=? x) && (x / W <? BS_word_count s) && wbit (wd s (x / W)) x.

(** The set of integers that [s] represents. *)
Definition to_set (s : BS) : gset Z :=
  list_to_set (filter (fun x => mem s x = true) (seqZ 0 (BS_word_count s * W))).

Lemma wf_count s : wf s -> 0 <= BS_word_count s.
Proof. intros (<- & _ & _). apply zlen_nonneg. Qed.

Lemma mem_bounds s x : mem s x = true -> 0 <= x < BS_word_count s * W.
Proof.
  unfold mem. pose proof W_pos.
  destruct (Z.leb_spec 0 x), (Z.ltb_spec (x / W) (BS_word_count s)); try done. intros _.
  split; [done|]. pose proof (mod_W_range x).
  rewrite (Z.div_mod x W) by lia. nia.
Qed.

Lemma elem_of_to_set s x : x ∈ to_set s <-> mem s x = true.
Proof.
  unfold to_set. rewrite elem_of_list_to_set, list_elem_of_filter, elem_of_seqZ.
  split; [by intros []|]. intros H. split; [done|]. pose proof (mem_bounds s x H). lia.
Qed.

#[export] Instance set_unfold_to_set s x P :
  SetUnfold (mem s x = true) P -> SetUnfoldElemOf x (to_set s) P.
Proof. intros [H]. constructor. by rewrite elem_of_to_set, H. Qed.

Lemma to_set_ext s X : (forall x, mem s x = true <-> x ∈ X) -> to_set s = X.
Proof. intros H. apply set_eq. intros x. by rewrite elem_of_to_set. Qed.

Lemma mem_neg s x : x < 0 -> mem s x = false.
Proof. intros H. unfold mem. by destruct (Z.leb_spec 0 x); [lia|]. Qed.

Lemma mem_out s x : BS_word_count s <= x / W -> mem s x = false.
Proof.
  intros H. unfold mem. destruct (Z.ltb_spec (x / W) (BS_word_count s)); [lia|].
  by rewrite andb_false_r.
Qed.

Lemma repw_bit i w x (f : Z -> bool) : repw i w f -> 0 <= x -> x / W = i -> wbit w x = f x.
Proof. intros [_ H]. apply H. Qed.

(** ** Accessors *)
Lemma word_ok s i :
  wf s -> 0 <= i < BS_word_count s -> yields (BS_word s i) (fun w => repw i w (mem s)).
Proof.
  intros (Hl & Hr & Hc) Hi. unfold BS_word.
  destruct (zlookup_is_Some (BS_words s) i) as [w Hw]; [lia|].
  rewrite (rd_ok _ _ _ Hw). simpl. split.
  - unfold zlookup in Hw. destruct (0 <=? i); [|done].
    by apply (Forall_lookup_1 _ _ _ _ Hr Hw).
  - intros x Hx Hxi. unfold mem, wd. rewrite Hxi, Hw.
    destruct (Z.leb_spec 0 x), (Z.ltb_spec i (BS_word_count s)); try lia. done.
Qed.

Lemma wf_set_words s ws :
  wf s -> zlen ws = BS_word_count s -> Forall (in_u W) ws -> wf (mkBS (BS_word_count s) ws).
Proof. intros (_ & _ & Hc) Hl Hr. repeat split; done. Qed.

Lemma set_word_ok s i w f :
  wf s -> 0 <= i < BS_word_count s -> repw i w f ->
  yields (BS_set_word s i w) (fun s' =>
    wf s' /\ BS_word_count s' = BS_word_count s /\
    forall x, mem s' x = if (x / W =? i) && (0 <=? x) then f x else mem s x).
Proof.
  intros Hwf Hi [Hw Hf]. destruct (Hwf) as (Hl & Hr & Hc). unfold BS_set_word.
  rewrite wr_ok by lia. simpl. split; [|split; [done|]].
  - apply wf_set_words; [done|by rewrite zlen_zinsert|].
    unfold zinsert. destruct (0 <=? i); [by apply Forall_insert|done].
  - intros x. unfold mem at 1, wd. simpl. rewrite zlookup_zinsert, Hl.
    destruct (Z.leb_spec 0 x) as [Hx|Hx]; simpl.
    2: { rewrite andb_false_r. by rewrite mem_neg. }
    rewrite andb_true_r. destruct (Z.eqb_spec (x / W) i) as [Hxi|Hne]; simpl.
    + destruct (Z.leb_spec 0 i), (Z.ltb_spec i (BS_word_count s)); try lia. simpl.
      rewrite Hxi. destruct (Z.ltb_spec i (BS_word_count s)); [|lia]. simpl. by apply Hf.
    + unfold mem, wd. by destruct (Z.leb_spec 0 x); [|lia].
Qed.

Lemma div_W_B x : x / 8 / B = x / W.
Proof. rewrite W_eq, Z.div_div by (sizes; lia). done. Qed.

Lemma mod_W_div8 x : (x mod W) / 8 = (x / 8) mod B.
Proof.
  rewrite W_eq. sizes. rewrite Z.rem_mul_r by lia.
  rewrite Z.mul_comm, Z.div_add by lia. rewrite Z.div_small; [lia|]. apply Z.mod_pos_bound; lia.
Qed.

Lemma byte_word_index s i :
  0 <= i < BS_word_count s * B -> 0 <= i / B < BS_word_count s /\ 0 <= i mod B < B.
Proof.
  intros Hi. sizes. split; [|apply Z.mod_pos_bound; lia]. split; [apply Z.div_pos; lia|].
  apply Z.div_lt_upper_bound; lia.
Qed.

Lemma byte_ok s i :
  wf s -> 0 <= i < BS_word_count s * B ->
  yields (BS_byte s i) (fun b => in_u 8 b /\ forall k, 0 <= k < 8 -> Z.testbit b k = mem s (8 * i + k)).
Proof.
  intros Hwf Hi. destruct (byte_word_index s i Hi) as [Hq Hm]. unfold BS_byte.
  eapply yields_bind; [by apply word_ok|]. intros w Hw. simpl.
  split; [apply word_byte_range|]. intros k Hk.
  rewrite word_byte_bit by done.
  assert (8 * i + k >= 0) by lia.
  assert ((8 * i + k) / 8 = i) as Hd by (Z.div_mod_to_equations; lia).
  rewrite <- (repw_bit _ _ (8 * i + k) _ Hw); [|lia|by rewrite <- div_W_B, Hd].
  unfold wbit, pos. rewrite mod_W_div8, Hd. do 2 f_equal.
  rewrite W_eq, Z.mul_comm. rewrite Z.mod_mod_divide by (exists B; lia).
  Z.div_mod_to_equations; lia.
Qed.

Lemma set_byte_ok s i b :
  wf s -> 0 <= i < BS_word_count s * B ->
  yields (BS_set_byte s i b) (fun s' =>
    wf s' /\ BS_word_count s' = BS_word_count s /\
    forall x, mem s' x = if (x / 8 =? i) && (0 <=? x) then Z.testbit b (x mod 8) else mem s x).
Proof.
  intros Hwf Hi. destruct (byte_word_index s i Hi) as [Hq Hm]. unfold BS_set_byte.
  eapply yields_bind; [by apply word_ok|]. intros w Hw. simpl.
  eapply yields_mono.
  { apply (set_word_ok s (i / B) _ (fun x => if x / 8 =? i then Z.testbit b (x mod 8) else mem s x)); [done|done|].
    split; [apply word_set_byte_range; [done|apply Hw]|].
    intros x Hx Hxi. rewrite word_set_byte_bit, mod_W_div8 by done.
    rewrite <- div_W_B in Hxi.
    destruct (Z.eqb_spec (x / 8) i) as [->|Hne]; [by rewrite Z.eqb_refl|].
    destruct (Z.eqb_spec ((x / 8) mod B) (i mod B)) as [Heq|_].
    - exfalso. apply Hne. rewrite (Z.div_mod (x / 8) B), (Z.div_mod i B) by (sizes; lia). lia.
    - apply (repw_bit _ _ _ _ Hw); [done|by rewrite <- div_W_B]. }
  intros s' (Hwf' & Hc & Hmem). split; [done|]. split; [done|]. intros x. rewrite Hmem.
  destruct (Z.eqb_spec (x / 8) i) as [<-|Hne].
  - rewrite div_W_B, Z.eqb_refl. done.
  - simpl. by destruct ((x / W =? i / B) && (0 <=? x)).
Qed.

(** ** Word loops *)
Definition in_words (lo hi x : Z) : bool := (0 <=? x) && (lo <=? x / W) && (x / W <? hi).

Lemma assign_words_ok lo hi e f s :
  wf s -> 0 <= lo <= hi -> hi <= BS_word_count s ->
  (forall i, lo <= i < hi -> yields (e i) (fun w => repw i w f)) ->
  yields (assign_words lo hi e s) (fun s' =>
    wf s' /\ BS_word_count s' = BS_word_count s /\
    forall x, mem s' x = if in_words lo hi x then f x else mem s x).
Proof.
  intros Hwf Hlo Hhi He. unfold assign_words.
  eapply yields_mono; [apply (yields_for (fun i s' => wf s' /\ BS_word_count s' = BS_word_count s /\
    forall x, mem s' x = if in_words lo i x then f x else mem s x)); [lia| |]|done].
  - repeat split; [apply Hwf..|]. intros x. unfold in_words.
    destruct (Z.leb_spec lo (x / W)), (Z.ltb_spec (x / W) lo); try lia; by rewrite ?andb_false_r.
  - intros i t Hi (Hwt & Hct & Hmt). eapply yields_bind; [by apply He|]. intros w Hw.
    eapply yields_mono; [apply (set_word_ok t i w f); [done|lia|done]|].
    intros s' (Hw' & Hc' & Hm'). split; [done|]. split; [congruence|]. intros x.
    rewrite Hm', Hmt. unfold in_words.
    destruct (Z.leb_spec 0 x), (Z.leb_spec lo (x / W)), (Z.ltb_spec (x / W) i),
      (Z.ltb_spec (x / W) (i + 1)), (Z.eqb_spec (x / W) i); simpl; lia || done.
Qed.

Lemma update_words_ok lo hi op (opb : bool -> bool -> bool) e f s :
  (forall i a b fa fb, repw i a fa -> repw i b fb -> repw i (op a b) (fun x => opb (fa x) (fb x))) ->
  wf s -> 0 <= lo <= hi -> hi <= BS_word_count s ->
  (forall i, lo <= i < hi -> yields (e i) (fun w => repw i w f)) ->
  yields (update_words lo hi op e s) (fun s' =>
    wf s' /\ BS_word_count s' = BS_word_count s /\
    forall x, mem s' x = if in_words lo hi x then opb (mem s x) (f x) else mem s x).
Proof.
  intros Hop Hwf Hlo Hhi He. unfold update_words.
  eapply yields_mono; [apply (yields_for (fun i s' => wf s' /\ BS_word_count s' = BS_word_count s /\
    forall x, mem s' x = if in_words lo i x then opb (mem s x) (f x) else mem s x)); [lia| |]|done].
  - repeat split; [apply Hwf..|]. intros x. unfold in_words.
    destruct (Z.leb_spec lo (x / W)), (Z.ltb_spec (x / W) lo); try lia; by rewrite ?andb_false_r.
  - intros i t Hi (Hwt & Hct & Hmt).
    eapply yields_bind; [apply word_ok; [done|lia]|]. intros a Ha.
    eapply yields_bind; [by apply He|]. intros b Hb.
    eapply yields_mono; [apply (set_word_ok t i _ _ Hwt ltac:(lia) (Hop _ _ _ _ _ Ha Hb))|].
    intros s' (Hw' & Hc' & Hm'). split; [done|]. split; [congruence|]. intros x.
    rewrite Hm', Hmt. unfold in_words.
    destruct (Z.leb_spec 0 x), (Z.leb_spec lo (x / W)), (Z.ltb_spec (x / W) i),
      (Z.ltb_spec (x / W) (i + 1)), (Z.eqb_spec (x / W) i); simpl; lia || done.
Qed.

(** The members from word [n] on, which an operation on [n] words leaves. *)
Definition from_word (n : Z) (X : gset Z) : gset Z := filter (fun x => n * W <= x) X.

Lemma from_word_none n s : wf s -> BS_word_count s <= n -> from_word n (to_set s) = ∅.
Proof.
  intros Hwf Hn. apply set_eq. intros x. unfold from_word. rewrite elem_of_filter, elem_of_to_set.
  split; [|set_solver]. intros [Hx Hm%mem_bounds]. pose proof W_pos. nia.
Qed.

Lemma in_words_spec n x : 0 <= n -> in_words 0 n x = true <-> 0 <= x < n * W.
Proof.
  intros Hn. unfold in_words. pose proof W_pos.
  rewrite !andb_true_iff, !Z.leb_le, Z.ltb_lt. split.
  - intros [[Hx _] Hq]. split; [done|]. pose proof (mod_W_range x).
    pose proof (Z_div_mod_eq_full x W). nia.
  - intros [Hx Hlt]. repeat split; [done|by apply Z.div_pos|]. apply Z.div_lt_upper_bound; lia.
Qed.

Lemma mem_in_words n s x : BS_word_count s <= n -> mem s x = true -> in_words 0 n x = true.
Proof.
  intros Hn Hm. apply in_words_spec; pose proof (mem_bounds s x Hm); pose proof W_pos; nia.
Qed.

Lemma mem_not_in_words n s x : BS_word_count s <= n -> in_words 0 n x = false -> mem s x = false.
Proof.
  intros Hn E. destruct (mem s x) eqn:Em; [|done]. by rewrite (mem_in_words n s x) in E.
Qed.

End Facts.

(** * Automation *)

(** Closes [mem t x = formula] when [H] gives [mem t x] by words below [n] and
    the sets of the formula have no members from word [n] on. *)
Ltac by_words n x H :=
  rewrite H; destruct (in_words 0 n x) eqn:?;
  [btauto
  |repeat match goal with
     | E : in_words 0 n x = false |- context [mem ?s x] =>
         rewrite (mem_not_in_words n s x) by (lia || exact E)
     end; try btauto].

Ltac rep_words :=
  repeat (eapply yields_bind; [apply word_ok; [assumption|lia]|cbv beta; intros ? ?]);
  apply yields_ok; cbv beta; eauto 10 using repw_land, repw_lor, repw_not.

(** Case analysis on the members [x] of sets of different sizes: the formula
    is over [in_words] and [mem], and a member lies in the words of its set. *)
Ltac by_sizes x :=
  rewrite ?if_bool;
  repeat match goal with
  | |- context [mem ?s x] =>
      lazymatch goal with
      | _ : mem s x = true -> _ |- _ => fail
      | _ => pose proof (mem_in_words _ s x (Z.le_refl _))
      end
  end;
  unfold in_words in *;
  repeat match goal with
  | |- context [mem ?s x] => generalize dependent (mem s x); intros [] ?
  end; lia.
