(* ===== verification/BitSetOps.v ===== *)
(** Bit-set operations: allocation, copying, ranges, and the set algebra of
    [common/util/bitset.c], proved to implement operations on [gset Z]. *)
From Stdlib Require Import ZArith Lia Bool Btauto.
From stdpp Require Import prelude list gmap.
From S2P Require Import Prelude BitSet BitSetFacts.

Section Ops.
Context `{M : BSMachine}.

Abbreviation W := BITS_PER_BS_WORD.
Abbreviation B := BYTES_PER_BS_WORD.
Abbreviation L := LOG2_BITS_PER_BS_WORD.

Ltac sizes := pose proof bytes_cases.

(** * Allocation *)
Lemma pool_word_range pool i : in_u W (pool_word pool i).
Proof.
  unfold pool_word. destruct (MEM_POOL_Zeroed pool); [apply in_u_0, W_nonneg|].
  apply uwrap_range, W_nonneg.
Qed.

Lemma pool_words_range pool a n : Forall (in_u W) (pool_words pool a n).
Proof. unfold pool_words. apply Forall_fmap, Forall_forall. intros i _. apply pool_word_range. Qed.

Lemma zlen_pool_words pool a n : 0 <= n -> zlen (pool_words pool a n) = n.
Proof. intros Hn. unfold pool_words. rewrite zlen_fmap, zlen_seqZ. lia. Qed.

Lemma zlookup_pool_words pool a n i :
  0 <= i < n -> zlookup (pool_words pool a n) i = Some (pool_word pool (a + i)).
Proof. intros Hi. unfold pool_words. by rewrite zlookup_fmap, zlookup_seqZ. Qed.

Definition usable (pool : MEM_POOL) : Prop := mp_bad pool = false.

Lemma malloc_ok n pool :
  usable pool -> 0 <= n -> n * W <= BS_LIMIT ->
  yields (bs_Malloc n pool) (fun s => wf s /\ BS_word_count s = n).
Proof.
  intros Hp Hn Hl. unfold bs_Malloc. apply yields_assert; [by rewrite Hp|]. simpl.
  split; [|done]. repeat split; simpl; [by apply zlen_pool_words|apply pool_words_range|done].
Qed.

(** A pool that zeroes memory hands out empty sets. *)
Lemma malloc_zeroed_ok n pool :
  usable pool -> MEM_POOL_Zeroed pool = true -> 0 <= n -> n * W <= BS_LIMIT ->
  yields (bs_Malloc n pool) (fun s => wf s /\ BS_word_count s = n /\ forall x, mem s x = false).
Proof.
  intros Hp Hz Hn Hl. unfold bs_Malloc. apply yields_assert; [by rewrite Hp|]. simpl.
  split; [|split; [done|]].
  - repeat split; simpl; [by apply zlen_pool_words|apply pool_words_range|done].
  - intros x. unfold mem, wd. simpl.
    destruct (Z.leb_spec 0 x), (Z.ltb_spec (x / W) n); simpl; try done.
    rewrite zlookup_pool_words by (split; [apply Z.div_pos; [lia|apply W_pos]|done]).
    simpl. unfold pool_word. rewrite Hz. apply wbit_zeros.
Qed.

Lemma pow2_loop_ok fuel k m length :
  1 <= k -> 0 <= m <= Z.of_nat fuel -> k + m <= 63 -> length <= 2 ^ (k + m) ->
  yields (pow2_loop fuel (2 ^ k) length) (fun n =>
    exists j, n = 2 ^ j /\ k <= j /\ length <= n /\ (n = 2 ^ k \/ n < 2 * length)).
Proof.
  revert k m. induction fuel as [|fuel IH]; intros k m Hk Hm Hf Hl; cbn [pow2_loop].
  - replace m with 0 in Hl by lia. rewrite Z.add_0_r in Hl.
    destruct (Z.ltb_spec (2 ^ k) length); [lia|]. simpl. exists k. auto with lia.
  - destruct (Z.ltb_spec (2 ^ k) length) as [Hlt|Hge]; simpl.
    + assert (m <> 0) by (intros ->; rewrite Z.add_0_r in Hl; lia).
      assert (Z.shiftl (2 ^ k) 1 = 2 ^ (k + 1)) as ->.
      { rewrite Z.shiftl_mul_pow2, Z.pow_add_r by lia. done. }
      rewrite uwrap_id by (split; [lia|apply Z.pow_lt_mono_r; lia]).
      eapply yields_mono; [apply (IH (k + 1) (m - 1)); [lia|lia|lia|]|].
      { by replace (k + 1 + (m - 1)) with (k + m) by lia. }
      intros n (j & -> & Hj & Hn & Hor). exists j. split; [done|]. split; [lia|]. split; [done|].
      destruct Hor as [Hor|]; [|by right]. right. rewrite Hor, Z.pow_add_r by lia. lia.
    + exists k. auto with lia.
Qed.

Lemma grown_limit n length :
  0 < length -> length * W <= BS_LIMIT ->
  (exists j, n = 2 ^ j /\ 1 <= j /\ (n = 2 \/ n < 2 * length)) -> n * W <= BS_LIMIT.
Proof.
  unfold BS_LIMIT. intros Hl Hw (j & -> & Hj & Hor). sizes.
  destruct Hor as [->|Hlt]; [lia|]. rewrite W_pow in *.
  rewrite <- Z.pow_add_r by lia. apply Z.pow_le_mono_r; [lia|].
  assert (2 ^ (j + L) < 2 ^ 31) as Hlt'.
  { rewrite Z.pow_add_r by lia. change (2 ^ 31) with (2 * 2 ^ 30). nia. }
  apply Z.pow_lt_mono_r_iff in Hlt'; lia.
Qed.

(** Growing a set with zero words does not change what it stands for. *)
Lemma mem_extend s n ws :
  wf s -> zlen ws = n -> BS_word_count s <= n -> n * W <= BS_LIMIT ->
  (forall j, 0 <= j < BS_word_count s -> zlookup ws j = zlookup (BS_words s) j) ->
  (forall j, BS_word_count s <= j < n -> zlookup ws j = Some 0) ->
  wf (mkBS n ws) /\ forall x, mem (mkBS n ws) x = mem s x.
Proof.
  intros Hwf Hl Hn Hw Hold Hnew. pose proof (wf_count s Hwf) as Hc. split.
  - repeat split; simpl; [done| |done]. apply Forall_lookup. intros i w Hi.
    assert (zlookup ws (Z.of_nat i) = Some w) as Hz.
    { unfold zlookup. destruct (Z.leb_spec 0 (Z.of_nat i)); [|lia]. by rewrite Nat2Z.id. }
    pose proof (zlookup_lt _ _ _ Hz) as Hr.
    destruct (Z.lt_ge_cases (Z.of_nat i) (BS_word_count s)).
    + rewrite Hold in Hz by lia. destruct Hwf as (_ & Hf & _).
      unfold zlookup in Hz. destruct (0 <=? Z.of_nat i); [|done].
      by apply (Forall_lookup_1 _ _ _ _ Hf Hz).
    + rewrite Hnew in Hz by lia. injection Hz as <-. apply in_u_0, W_nonneg.
  - intros x. unfold mem, wd. simpl. destruct (Z.leb_spec 0 x) as [Hx|Hx]; simpl; [|done].
    assert (0 <= x / W) by (apply Z.div_pos; [done|apply W_pos]).
    destruct (Z.ltb_spec (x / W) n), (Z.ltb_spec (x / W) (BS_word_count s)); simpl; try lia; try done.
    + by rewrite Hold by lia.
    + rewrite Hnew by lia. apply wbit_zeros.
Qed.

Lemma zlookup_take {A} (l : list A) n i :
  0 <= n -> zlookup (take (Z.to_nat n) l) i = if i <? n then zlookup l i else None.
Proof.
  intros Hn. unfold zlookup. destruct (Z.leb_spec 0 i), (Z.ltb_spec i n); try done.
  - by rewrite lookup_take_lt by lia.
  - by rewrite lookup_take_ge by lia.
Qed.

Lemma zlen_take {A} (l : list A) n : 0 <= n <= zlen l -> zlen (take (Z.to_nat n) l) = n.
Proof. unfold zlen. intros H. rewrite length_take. lia. Qed.

(** The loop of [bs_Realloc] that clears the new words. *)
Lemma clear_tail_ok lo hi s :
  0 <= lo <= hi -> hi <= zlen (BS_words s) ->
  yields (for_ lo hi (fun i s => BS_set_word s i bs_ZEROS) s) (fun t =>
    BS_word_count t = BS_word_count s /\ zlen (BS_words t) = zlen (BS_words s) /\
    forall j, zlookup (BS_words t) j = if (lo <=? j) && (j <? hi) then Some 0 else zlookup (BS_words s) j).
Proof.
  intros Hlo Hhi. eapply yields_mono; [apply (yields_for (fun i t =>
    BS_word_count t = BS_word_count s /\ zlen (BS_words t) = zlen (BS_words s) /\
    forall j, zlookup (BS_words t) j = if (lo <=? j) && (j <? i) then Some 0 else zlookup (BS_words s) j));
    [lia| |]|done].
  - repeat split. intros j. destruct (Z.leb_spec lo j), (Z.ltb_spec j lo); simpl; lia || done.
  - intros i t Hi (Hc & Hl & Hj). unfold BS_set_word. rewrite wr_ok by lia. simpl.
    repeat split; [done|by rewrite zlen_zinsert|]. intros j. rewrite zlookup_zinsert, Hj, Hl.
    destruct (Z.eqb_spec j i), (Z.leb_spec 0 i), (Z.ltb_spec i (zlen (BS_words s))),
      (Z.leb_spec lo j), (Z.ltb_spec j i), (Z.ltb_spec j (i + 1)); simpl; lia || done.
Qed.

Lemma realloc_ok s length pool :
  wf s -> usable pool -> length * W <= BS_LIMIT ->
  yields (bs_Realloc s length pool) (fun s' =>
    wf s' /\ length <= BS_word_count s' /\ BS_word_count s <= BS_word_count s' /\
    forall x, mem s' x = mem s x).
Proof.
  intros Hwf Hp Hl. unfold bs_Realloc. apply yields_assert; [by rewrite Hp|].
  pose proof (wf_count s Hwf) as Hc.
  destruct (Z.leb_spec length (BS_word_count s)) as [Hle|Hgt]; [simpl; by auto with lia|].
  eapply yields_bind.
  { apply (pow2_loop_ok 64 1 62); [lia|lia|lia|]. simpl. unfold BS_LIMIT in Hl. sizes. nia. }
  simpl. intros n (j & Hn & Hj & Hge & Hor).
  assert (n * W <= BS_LIMIT) as Hnw.
  { apply (grown_limit n length); [lia|done|]. exists j. auto. }
  assert (n = BS_word_count s + (n - BS_word_count s)) as Hn2 by lia.
  set (ws := take (Z.to_nat (BS_word_count s)) (BS_words s) ++ _).
  destruct (Hwf) as (Hlen & _ & _).
  assert (zlen ws = n) as Hws.
  { unfold ws. rewrite zlen_app, zlen_take, zlen_pool_words by lia. lia. }
  assert (forall i, 0 <= i < BS_word_count s -> zlookup ws i = zlookup (BS_words s) i) as Hold.
  { intros i Hi. unfold ws. rewrite zlookup_app, zlookup_take, zlen_take by lia.
    by destruct (Z.ltb_spec i (BS_word_count s)); [|lia]. }
  destruct (MEM_POOL_Zeroed pool) eqn:Hz; simpl.
  - destruct (mem_extend s n ws) as [Hwf' Hmem]; [done|done|lia|done|done| |].
    { intros i Hi. unfold ws. rewrite zlookup_app, zlen_take by lia.
      destruct (Z.ltb_spec i (BS_word_count s)); [lia|].
      rewrite zlookup_pool_words by lia. unfold pool_word. by rewrite Hz. }
    split; [done|]. simpl. auto with lia.
  - eapply yields_bind; [apply clear_tail_ok; simpl; lia|]. simpl. intros t (_ & Hlt & Ht).
    destruct (mem_extend s n (BS_words t)) as [Hwf' Hmem]; [done|lia|lia|done| | |].
    + intros i Hi. rewrite Ht, <- Hold by done. by destruct (Z.leb_spec (BS_word_count s) i); [lia|].
    + intros i Hi. rewrite Ht. by destruct (Z.leb_spec (BS_word_count s) i), (Z.ltb_spec i n); try lia.
    + split; [done|]. simpl. auto with lia.
Qed.

(** * Creation and growth *)

(** [c] returns a well-formed set that represents [X]. *)
Definition yields_set (c : outcome BS) (X : gset Z) : Prop :=
  yields c (fun s => wf s /\ to_set s = X).

(** The common shape of the rules below: the result is well formed, keeps the
    word count [n], and its members are given by [f]. *)
Definition result_is (n : Z) (f : Z -> bool) (s : BS) : Prop :=
  wf s /\ BS_word_count s = n /\ forall x, mem s x = f x.

Lemma clear_ok s : wf s -> yields (BS_ClearD s) (result_is (BS_word_count s) (fun _ => false)).
Proof.
  intros Hwf. pose proof (wf_count s Hwf).
  change (BS_ClearD s) with (assign_words 0 (BS_word_count s) (fun _ => Ok bs_ZEROS) s).
  eapply yields_mono; [apply (assign_words_ok _ _ _ (fun _ => false)); [done|lia|lia|]|].
  - intros i _. apply repw_zeros.
  - intros t (Hw & Hc & Hm). split; [done|]. split; [done|]. intros x. rewrite Hm.
    destruct (in_words 0 (BS_word_count s) x) eqn:E; [done|].
    destruct (Z.lt_ge_cases x 0); [by apply mem_neg|].
    apply mem_out. unfold in_words in E.
    assert (0 <= x / W) by (apply Z.div_pos; [done|apply W_pos]). lia.
Qed.

Lemma words_for_eq size : 0 <= size <= BS_LIMIT ->
  bs_QBPW (uwrap 64 (size + (W - 1))) = (size + W - 1) / W.
Proof.
  unfold BS_LIMIT. intros H. sizes. rewrite uwrap_id by (split; lia).
  rewrite QBPW_eq by lia. f_equal. lia.
Qed.

Lemma words_for_bounds size : 0 <= size <= BS_LIMIT ->
  0 <= (size + W - 1) / W /\ size <= (size + W - 1) / W * W /\ (size + W - 1) / W * W <= BS_LIMIT.
Proof.
  unfold BS_LIMIT. intros H. destruct bytes_cases as [(_ & _ & ->)|(_ & _ & ->)];
    Z.div_mod_to_equations; lia.
Qed.

Lemma create_ok size pool :
  usable pool -> 0 <= size <= BS_LIMIT ->
  yields (BS_Create size pool) (fun s => wf s /\ BS_word_count s = (size + W - 1) / W).
Proof.
  intros Hp Hs. unfold BS_Create. apply yields_assert; [lia|].
  rewrite words_for_eq by done. destruct (words_for_bounds size Hs) as (? & ? & ?).
  by apply malloc_ok.
Qed.

Lemma create_empty_ok size pool :
  usable pool -> 0 <= size <= BS_LIMIT ->
  yields (BS_Create_Empty size pool) (result_is ((size + W - 1) / W) (fun _ => false)).
Proof.
  intros Hp Hs. unfold BS_Create_Empty.
  destruct (MEM_POOL_Zeroed pool) eqn:Hz; simpl.
  - unfold BS_Create. rewrite words_for_eq by done.
    destruct (words_for_bounds size Hs) as (? & ? & ?). rewrite assert_true by lia. simpl.
    eapply yields_bind; [by apply malloc_zeroed_ok|]. done.
  - eapply yields_bind; [by apply create_ok|]. intros s (Hw & Hc). rewrite <- Hc. by apply clear_ok.
Qed.

Lemma grow_ok s n pool :
  wf s -> (BS_word_count s < n -> usable pool) -> n * W <= BS_LIMIT ->
  yields (grow_to s n pool) (fun s' =>
    wf s' /\ n <= BS_word_count s' /\ BS_word_count s <= BS_word_count s' /\
    forall x, mem s' x = mem s x).
Proof.
  intros Hwf Hp Hn. unfold grow_to. destruct (Z.ltb_spec (BS_word_count s) n).
  - apply realloc_ok; auto.
  - simpl. repeat split; [apply Hwf..|lia|lia].
Qed.

Lemma resize_ok s new_size pool :
  wf s -> usable pool -> 0 <= new_size <= BS_LIMIT ->
  yields (BS_ResizeD s new_size pool) (fun s' =>
    wf s' /\ new_size <= BS_word_count s' * W /\ forall x, mem s' x = mem s x).
Proof.
  intros Hwf Hp Hn. unfold BS_ResizeD. rewrite words_for_eq by done.
  destruct (words_for_bounds _ Hn) as (? & ? & ?).
  change (if _ <? _ then _ else _) with (grow_to s ((new_size + W - 1) / W) pool).
  eapply yields_mono; [by apply grow_ok|]. intros s' (Hw & Hc & _ & Hm).
  split; [done|]. split; [|done]. pose proof W_pos. nia.
Qed.

(** * Byte loops *)
Lemma bytes_ones_ok lo hi s :
  wf s -> 0 <= lo -> hi <= BS_word_count s * B ->
  yields (for_ lo hi (fun i s => BS_set_byte s i bs_ONES) s)
    (result_is (BS_word_count s)
       (fun x => ((0 <=? x) && (lo <=? x / 8) && (x / 8 <? hi)) || mem s x)).
Proof.
  intros Hwf Hlo Hhi. destruct (Z.le_gt_cases hi lo) as [Hle|Hgt].
  { rewrite for_empty by done. simpl. split; [done|]. split; [done|]. intros x.
    destruct (Z.leb_spec lo (x / 8)), (Z.ltb_spec (x / 8) hi); try lia; by rewrite ?andb_false_r. }
  apply (yields_for (fun i => result_is (BS_word_count s)
       (fun x => ((0 <=? x) && (lo <=? x / 8) && (x / 8 <? i)) || mem s x))); [lia| |].
  - split; [done|]. split; [done|]. intros x.
    destruct (Z.leb_spec lo (x / 8)), (Z.ltb_spec (x / 8) lo); try lia; by rewrite ?andb_false_r.
  - intros i t Hi (Hw & Hc & Hm). eapply yields_mono; [apply set_byte_ok; [done|lia]|].
    intros t' (Hw' & Hc' & Hm'). split; [done|]. split; [lia|]. intros x. rewrite Hm', Hm.
    assert (Z.testbit bs_ONES (x mod 8) = true) as ->.
    { unfold bs_ONES. apply Z.ones_spec_low. pose proof (Z.mod_pos_bound x 8). sizes. lia. }
    destruct (Z.leb_spec 0 x), (Z.leb_spec lo (x / 8)), (Z.ltb_spec (x / 8) i),
      (Z.ltb_spec (x / 8) (i + 1)), (Z.eqb_spec (x / 8) i); simpl; lia || done.
Qed.

Lemma shl_ones_bit r k :
  0 <= r < 8 -> 0 <= k < 8 -> Z.testbit (w_shl bs_ONES r) k = (r <=? k).
Proof.
  intros Hr Hk. unfold w_shl, bs_ONES. sizes.
  rewrite Z.land_spec, Z.shiftl_spec, !ones_bit by lia.
  destruct (Z.leb_spec 0 (k - r)), (Z.ltb_spec (k - r) W), (Z.leb_spec 0 k), (Z.ltb_spec k W),
    (Z.leb_spec r k); simpl; lia || done.
Qed.

Lemma shr_ones_bit r k :
  0 <= r < 8 -> 0 <= k < 8 -> Z.testbit (Z.shiftr bs_ONES ((W - 1) - r)) k = (k <=? r).
Proof.
  intros Hr Hk. unfold bs_ONES. sizes. rewrite Z.shiftr_spec, ones_bit by lia.
  destruct (Z.leb_spec 0 (k + (W - 1 - r))), (Z.ltb_spec (k + (W - 1 - r)) W),
    (Z.leb_spec k r); simpl; lia || done.
Qed.

Lemma shl_one_bit r k :
  0 <= r < 8 -> 0 <= k < 8 -> Z.testbit (w_shl bs_ONE r) k = (k =? r).
Proof.
  intros Hr Hk. unfold w_shl, bs_ONES, bs_ONE. sizes.
  rewrite Z.land_spec, ones_bit, Z.shiftl_spec by lia.
  destruct (Z.leb_spec 0 k), (Z.ltb_spec k W); try lia. simpl. rewrite andb_true_r.
  destruct (Z.eqb_spec k r) as [->|]; [by rewrite Z.sub_diag|].
  destruct (Z.lt_ge_cases (k - r) 0); [by apply Z.testbit_neg_r|].
  change 1 with (2 ^ 0). rewrite Z.pow2_bits_eqb by lia.
  destruct (Z.eqb_spec 0 (k - r)); lia || done.
Qed.

Lemma mod8_range x : 0 <= x mod 8 < 8. Proof. apply Z.mod_pos_bound. lia. Qed.

(** Read-modify-write of a byte; [gb] is the effect on bit [k]. *)
Lemma modify_byte_ok s i (g : Z -> Z) (gb : bool -> Z -> bool) :
  wf s -> 0 <= i < BS_word_count s * B ->
  (forall b k, 0 <= k < 8 -> Z.testbit (g b) k = gb (Z.testbit b k) k) ->
  yields (let* b := BS_byte s i in BS_set_byte s i (g b))
    (result_is (BS_word_count s)
       (fun x => if (x / 8 =? i) && (0 <=? x) then gb (mem s x) (x mod 8) else mem s x)).
Proof.
  intros Hwf Hi Hg. eapply yields_bind; [by apply byte_ok|]. intros b (_ & Hb).
  eapply yields_mono; [by apply set_byte_ok|]. intros t (Hw & Hc & Hm).
  split; [done|]. split; [done|]. intros x. rewrite Hm.
  destruct (Z.eqb_spec (x / 8) i) as [<-|]; simpl; [|done].
  rewrite Hg, Hb by apply mod8_range. rewrite <- Z.div_mod by lia. done.
Qed.

(** * Ranges *)

(** The bytes that the filling loops of [BS_RangeD] set: the words strictly
    between, the tail of the first word, the head of the last word. *)
Definition range_bytes (lb hb xb : Z) : bool :=
  (negb (lb / B =? hb / B) && ((hb / B * B <=? xb) && (xb <? hb + 1))) ||
  (((lb <=? xb) && (xb <? Z.min ((lb / B + 1) * B) (hb + 1))) ||
   ((lb / B + 1 <=? xb / B) && (xb / B <? hb / B))).

Lemma range_bytes_eq lb hb xb :
  0 <= lb <= hb -> range_bytes lb hb xb = (lb <=? xb) && (xb <=? hb).
Proof.
  intros Hlh. unfold range_bytes.
  assert (0 < B) as HB by (sizes; lia). assert (B <> 0) as HB' by lia.
  pose proof (Z.mod_pos_bound lb B HB). pose proof (Z.div_mod lb B HB').
  pose proof (Z.mod_pos_bound hb B HB). pose proof (Z.div_mod hb B HB').
  pose proof (Z.mod_pos_bound xb B HB). pose proof (Z.div_mod xb B HB').
  generalize dependent (lb mod B). generalize dependent (hb mod B). generalize dependent (xb mod B).
  generalize dependent (lb / B). generalize dependent (hb / B). generalize dependent (xb / B).
  intros qx qh ql rx Hrx Hx rh Hrh Hh rl Hrl Hl.
  destruct bytes_cases as [(_ & EB & _)|(_ & EB & _)]; rewrite EB in *; clear EB HB HB';
  apply eq_true_iff_eq; rewrite ?orb_true_iff, ?andb_true_iff, ?negb_true_iff,
    ?Z.leb_le, ?Z.ltb_lt, ?Z.eqb_neq; lia.
Qed.

(** Fixing up the first and the last byte. *)
Lemma range_bits low high x :
  0 <= low <= high ->
  let body := if (x / 8 =? low / 8) && (0 <=? x) then low mod 8 <=? x mod 8
              else (0 <=? x) && ((low / 8 <=? x / 8) && (x / 8 <=? high / 8)) in
  (if (x / 8 =? high / 8) && (0 <=? x) then body && (x mod 8 <=? high mod 8) else body) =
  (low <=? x) && (x <=? high).
Proof.
  intros Hlh body. subst body.
  pose proof (mod8_range x). pose proof (mod8_range low). pose proof (mod8_range high).
  pose proof (Z_div_mod_eq_full x 8). pose proof (Z_div_mod_eq_full low 8).
  pose proof (Z_div_mod_eq_full high 8).
  destruct (Z.eqb_spec (x / 8) (low / 8)), (Z.eqb_spec (x / 8) (high / 8)),
    (Z.leb_spec 0 x); simpl; apply eq_true_iff_eq; rewrite ?andb_true_iff, ?Z.leb_le; lia.
Qed.

Lemma byte_in_words s x : wf s -> 0 <= x -> x / W < BS_word_count s -> 0 <= x / 8 < BS_word_count s * B.
Proof.
  intros Hwf Hx Hc. rewrite <- div_W_B in Hc. split; [apply Z.div_pos; lia|].
  assert (0 < B) as HB by (sizes; lia).
  pose proof (Z.mod_pos_bound (x / 8) B HB). rewrite (Z.div_mod (x / 8) B) by lia. nia.
Qed.

Lemma words_ones_ok lo hi s :
  wf s -> (forall x, mem s x = false) -> 0 <= lo -> hi <= BS_word_count s ->
  yields (for_ lo hi (fun i s => BS_set_word s i bs_ONES) s)
    (result_is (BS_word_count s) (fun x => (0 <=? x) && (lo <=? x / W) && (x / W <? hi))).
Proof.
  intros Hwf Hm Hlo Hhi. destruct (Z.le_gt_cases hi lo) as [Hle|Hgt].
  { rewrite for_empty by done. simpl. split; [done|]. split; [done|]. intros x. rewrite Hm. lia. }
  change (for_ _ _ _ s) with (assign_words lo hi (fun _ => Ok bs_ONES) s).
  eapply yields_mono; [apply (assign_words_ok _ _ _ (fun _ => true)); [done|lia|lia|]|].
  - intros i _. apply repw_ones.
  - intros t (Hw & Hc & Hmt). split; [done|]. split; [lia|]. intros x. rewrite Hmt, Hm.
    unfold in_words. by destruct (_ && _ && _).
Qed.

(** The filling loops of [BS_RangeD] on a cleared set. *)
Lemma range_fill_ok s low high :
  wf s -> (forall x, mem s x = false) -> 0 <= low <= high -> high / W < BS_word_count s ->
  yields
    (let* set := for_ (low / W + 1) (high / W) (fun i s => BS_set_word s i bs_ONES) s in
     let* set := for_ (low / 8) (Z.min (bs_PBytesPW (low / W + 1)) (high / 8 + 1))
                   (fun i s => BS_set_byte s i bs_ONES) set in
     if negb (low / W =? high / W)
     then for_ (bs_PBytesPW (high / W)) (high / 8 + 1) (fun i s => BS_set_byte s i bs_ONES) set
     else Ok set)
    (result_is (BS_word_count s) (fun x => (0 <=? x) && range_bytes (low / 8) (high / 8) (x / 8))).
Proof.
  intros Hwf Hm Hlh Hc. pose proof W_pos. destruct (Hwf) as (_ & _ & Hlim). unfold BS_LIMIT in Hlim.
  pose proof (byte_in_words s high Hwf ltac:(lia) Hc) as Hb.
  pose proof (Z.div_le_mono low high W). pose proof (Z.div_pos low W).
  pose proof (Z.div_pos low 8). sizes.
  eapply yields_bind; [apply words_ones_ok; [done|done|lia|lia]|]. intros s3 (Hw3 & Hc3 & Hm3).
  rewrite !PBytesPW_eq by nia.
  eapply yields_bind; [apply bytes_ones_ok; [done|lia|lia]|]. intros s4 (Hw4 & Hc4 & Hm4).
  assert (yields (if negb (low / W =? high / W)
     then for_ (high / W * B) (high / 8 + 1) (fun i s => BS_set_byte s i bs_ONES) s4
     else Ok s4) (result_is (BS_word_count s4) (fun x =>
       (negb (low / W =? high / W) && ((0 <=? x) && (high / W * B <=? x / 8) && (x / 8 <? high / 8 + 1)))
       || mem s4 x))) as H5.
  { destruct (Z.eqb_spec (low / W) (high / W)); simpl.
    - split; [done|]. split; [lia|done].
    - apply bytes_ones_ok; [done|nia|lia]. }
  eapply yields_mono; [exact H5|]. intros t (Hw & Hct & Hmt). split; [done|]. split; [lia|].
  intros x. rewrite Hmt, Hm4, Hm3, <- !div_W_B. unfold range_bytes. btauto.
Qed.

Lemma rangeD_ok s low high pool :
  wf s -> 0 <= low <= high + 1 -> high < BS_LIMIT ->
  (BS_word_count s * W <= high -> usable pool) ->
  yields (BS_RangeD s low high pool) (fun t =>
    wf t /\ BS_word_count s <= BS_word_count t /\
    forall x, mem t x = (low <=? x) && (x <=? high)).
Proof.
  intros Hwf Hlow Hhigh Hp. unfold BS_RangeD.
  apply yields_assert; [lia|]. apply yields_assert; [lia|].
  destruct (Z.ltb_spec high low) as [Hlt|Hge].
  { eapply yields_mono; [by apply clear_ok|]. intros t (Hw & Hc & Hm).
    split; [done|]. split; [lia|]. intros x. rewrite Hm. lia. }
  unfold BS_LIMIT in *. rewrite !QBPW_eq, !QBPB_eq, !RBPB_eq by lia.
  pose proof W_pos. pose proof (mod_W_range high). pose proof (Z_div_mod_eq_full high W).
  pose proof (Z.div_pos high W).
  assert (yields (if BS_word_count s <=? high / W then bs_Realloc s (high / W + 1) pool else Ok s)
    (fun t => wf t /\ high / W < BS_word_count t /\ BS_word_count s <= BS_word_count t)) as Hgrow.
  { destruct (Z.leb_spec (BS_word_count s) (high / W)).
    - eapply yields_mono; [apply realloc_ok; [done|apply Hp; nia|]|].
      + unfold BS_LIMIT. sizes. nia.
      + intros t (Hw & Hc & Hc' & _). auto with lia.
    - simpl. auto with lia. }
  eapply yields_bind; [exact Hgrow|]. intros s1 (Hw1 & Hc1 & Hc1').
  eapply yields_bind; [by apply clear_ok|]. intros s2 (Hw2 & Hc2 & Hm2).
  eapply yields_bind3; [apply (range_fill_ok s2 low high Hw2 Hm2); lia|].
  intros s5 (Hw5 & Hc5 & Hm5).
  pose proof (byte_in_words s5 high Hw5 ltac:(lia) ltac:(lia)).
  pose proof (Z.div_le_mono low high 8). pose proof (Z.div_pos low 8).
  eapply yields_bind; [apply set_byte_ok; [done|lia]|]. intros s6 (Hw6 & Hc6 & Hm6).
  eapply yields_mono.
  { apply (modify_byte_ok s6 (high / 8) _ (fun m k => m && (k <=? high mod 8))); [done|lia|].
    intros b k Hk. by rewrite Z.land_spec, shr_ones_bit by (done || apply mod8_range). }
  intros t (Hw & Hc & Hm). split; [done|]. split; [lia|]. intros x.
  rewrite Hm, Hm6, Hm5, shl_ones_bit, range_bytes_eq by (apply mod8_range || lia).
  apply range_bits. lia.
Qed.

(** * From members to sets *)

(** [{lo, ..., hi}] *)
Definition set_range (lo hi : Z) : gset Z := list_to_set (seqZ lo (hi - lo + 1)).

Lemma elem_of_set_range lo hi x : x ∈ set_range lo hi <-> lo <= x <= hi.
Proof. unfold set_range. rewrite elem_of_list_to_set, elem_of_seqZ. lia. Qed.

(** [BS_Copy], [BS_CopyD] *)
Lemma copy_ok s pool :
  wf s -> usable pool -> yields (BS_Copy s pool) (result_is (BS_word_count s) (mem s)).
Proof.
  intros Hwf Hp. pose proof (wf_count s Hwf). destruct (Hwf) as (_ & _ & Hl). unfold BS_Copy.
  eapply yields_bind; [by apply malloc_ok|]. intros t (Hw & Hc).
  eapply yields_mono; [apply (assign_words_ok 0 (BS_word_count s) (BS_word s) (mem s)); [done|lia|lia|]|].
  - intros i Hi. by apply word_ok.
  - intros u (Hwu & Hcu & Hmu). split; [done|]. split; [lia|]. intros x.
    by_words (BS_word_count s) x Hmu.
Qed.

Lemma copyD_ok s1 s2 pool :
  wf s1 -> wf s2 -> (BS_word_count s1 < BS_word_count s2 -> usable pool) ->
  yields (BS_CopyD s1 s2 pool) (fun t =>
    wf t /\ Z.max (BS_word_count s1) (BS_word_count s2) <= BS_word_count t /\
    (BS_word_count s2 <= BS_word_count s1 -> BS_word_count t = BS_word_count s1) /\
    forall x, mem t x = mem s2 x).
Proof.
  intros H1 H2 Hp. pose proof (wf_count _ H1). pose proof (wf_count _ H2).
  destruct (H2) as (_ & _ & Hl). unfold BS_CopyD.
  assert (yields (if BS_word_count s1 <? BS_word_count s2 then bs_Realloc s1 (BS_word_count s2) pool
                  else for_ (BS_word_count s2) (BS_word_count s1) (fun i s => BS_set_word s i bs_ZEROS) s1)
    (fun t => wf t /\ Z.max (BS_word_count s1) (BS_word_count s2) <= BS_word_count t /\
      (BS_word_count s2 <= BS_word_count s1 -> BS_word_count t = BS_word_count s1) /\
      forall x, in_words 0 (BS_word_count s2) x = false -> mem t x = false)) as Hg.
  { destruct (Z.ltb_spec (BS_word_count s1) (BS_word_count s2)).
    - eapply yields_mono; [apply realloc_ok; auto|]. intros t (Hw & Hc & Hc' & Hm).
      split; [done|]. split; [lia|]. split; [lia|]. intros x Hx. rewrite Hm.
      apply (mem_not_in_words (BS_word_count s2)); [lia|done].
    - change (for_ _ _ _ s1) with
        (assign_words (BS_word_count s2) (BS_word_count s1) (fun _ => Ok bs_ZEROS) s1).
      eapply yields_mono; [apply (assign_words_ok _ _ _ (fun _ => false)); [done|lia|lia|]|].
      + intros i _. apply repw_zeros.
      + intros t (Hw & Hc & Hm). split; [done|]. split; [lia|]. split; [done|]. intros x Hx. rewrite Hm.
        destruct (in_words (BS_word_count s2) (BS_word_count s1) x) eqn:E; [done|].
        destruct (mem s1 x) eqn:Em; [|done]. exfalso.
        pose proof (mem_in_words (BS_word_count s1) s1 x ltac:(lia) Em) as Hin.
        unfold in_words in *. lia. }
  eapply yields_bind; [exact Hg|]. intros t (Hw & Hc & Hc' & Hm).
  eapply yields_mono; [apply (assign_words_ok 0 (BS_word_count s2) (BS_word s2) (mem s2)); [done|lia|lia|]|].
  - intros i Hi. by apply word_ok.
  - intros u (Hwu & Hcu & Hmu). split; [done|]. split; [lia|]. split; [lia|]. intros x. rewrite Hmu.
    destruct (in_words 0 (BS_word_count s2) x) eqn:E; [done|].
    rewrite Hm, (mem_not_in_words (BS_word_count s2)); done.
Qed.

(** * Set algebra, by members *)
Lemma union_ok s1 s2 pool :
  wf s1 -> wf s2 -> usable pool ->
  yields (BS_Union s1 s2 pool)
    (result_is (Z.max (BS_word_count s1) (BS_word_count s2)) (fun x => mem s1 x || mem s2 x)).
Proof.
  intros H1 H2 Hp. unfold BS_Union.
  assert (forall a b, wf a -> wf b -> BS_word_count b <= BS_word_count a ->
    yields (let* set := bs_Malloc (BS_word_count a) pool in
            let* set := assign_words 0 (BS_word_count b) (fun i =>
                let* x := BS_word a i in let* y := BS_word b i in Ok (Z.lor x y)) set in
            assign_words (BS_word_count b) (BS_word_count a) (BS_word a) set)
      (result_is (BS_word_count a) (fun x => mem a x || mem b x))) as Hgen.
  { intros a b Ha Hb Hle. pose proof (wf_count _ Ha). pose proof (wf_count _ Hb).
    destruct (Ha) as (_ & _ & Hl).
    eapply yields_bind; [by apply malloc_ok|]. intros t (Hw & Hc).
    eapply yields_bind; [eapply assign_words_ok; [done|lia|lia|intros i Hi; rep_words]|].
    intros u (Hwu & Hcu & Hmu).
    eapply yields_mono; [apply (assign_words_ok _ _ (BS_word a) (mem a)); [done|lia|lia|]|].
    - intros i Hi. apply word_ok; [done|lia].
    - intros v (Hwv & Hcv & Hmv). split; [done|]. split; [lia|]. intros x. rewrite Hmv, Hmu. by_sizes x. }
  destruct (Z.ltb_spec (BS_word_count s1) (BS_word_count s2)); cbv beta iota.
  - eapply yields_mono; [apply Hgen; [done|done|lia]|]. intros t (Hw & Hc & Hm).
    split; [done|]. split; [lia|]. intros x. rewrite Hm. apply orb_comm.
  - eapply yields_mono; [apply Hgen; [done|done|lia]|]. intros t (Hw & Hc & Hm).
    split; [done|]. split; [lia|done].
Qed.

(** The two shapes of the operations that may grow their first argument. *)
Lemma grow_update_ok n op opb e f s pool :
  (forall i a b fa fb, repw i a fa -> repw i b fb -> repw i (op a b) (fun x => opb (fa x) (fb x))) ->
  wf s -> 0 <= n -> n * W <= BS_LIMIT -> (BS_word_count s < n -> usable pool) ->
  (forall i, 0 <= i < n -> yields (e i) (fun w => repw i w f)) ->
  yields (let* s' := grow_to s n pool in update_words 0 n op e s') (fun t =>
    wf t /\ BS_word_count s <= BS_word_count t /\
    forall x, mem t x = if in_words 0 n x then opb (mem s x) (f x) else mem s x).
Proof.
  intros Hop Hwf Hn Hl Hp He. eapply yields_bind; [by apply grow_ok|].
  intros s' (Hw & Hc & Hc' & Hm).
  eapply yields_mono; [apply (update_words_ok _ _ _ opb _ f); [done|done|lia|lia|done]|].
  intros t (Hwt & Hct & Hmt). split; [done|]. split; [lia|]. intros x. by rewrite Hmt, !Hm.
Qed.

Lemma grow_assign_ok n e f s pool :
  wf s -> 0 <= n -> n * W <= BS_LIMIT -> (BS_word_count s < n -> usable pool) ->
  (forall i, 0 <= i < n -> yields (e i) (fun w => repw i w f)) ->
  yields (let* s' := grow_to s n pool in assign_words 0 n e s') (fun t =>
    wf t /\ BS_word_count s <= BS_word_count t /\
    forall x, mem t x = if in_words 0 n x then f x else mem s x).
Proof.
  intros Hwf Hn Hl Hp He. eapply yields_bind; [by apply grow_ok|].
  intros s' (Hw & Hc & Hc' & Hm).
  eapply yields_mono; [apply (assign_words_ok _ _ _ f); [done|lia|lia|done]|].
  intros t (Hwt & Hct & Hmt). split; [done|]. split; [lia|]. intros x. by rewrite Hmt, !Hm.
Qed.

Lemma unionD_ok s1 s2 pool :
  wf s1 -> wf s2 -> (BS_word_count s1 < BS_word_count s2 -> usable pool) ->
  yields (BS_UnionD s1 s2 pool) (fun t => wf t /\ forall x, mem t x = mem s1 x || mem s2 x).
Proof.
  intros H1 H2 Hp. pose proof (wf_count _ H2). destruct (H2) as (_ & _ & Hl). unfold BS_UnionD.
  eapply yields_mono; [apply (grow_update_ok _ _ orb _ (mem s2));
    [by intros; apply repw_lor|done|lia|done|done|]|].
  - intros i Hi. by apply word_ok.
  - intros t (Hw & _ & Hm). split; [done|]. intros x. by_words (BS_word_count s2) x Hm.
Qed.

Lemma union1D_ok s x pool :
  wf s -> 0 <= x < BS_LIMIT -> (BS_word_count s * W <= x -> usable pool) ->
  yields (BS_Union1D s x pool) (fun t =>
    wf t /\ BS_word_count s <= BS_word_count t /\ (x < BS_word_count s * W -> BS_word_count t = BS_word_count s) /\
    forall y, mem t y = mem s y || (y =? x)).
Proof.
  intros Hwf Hx Hp. unfold BS_Union1D, BS_LIMIT in *. rewrite QBPW_eq, QBPB_eq, RBPB_eq by lia.
  apply yields_assert; [lia|]. pose proof W_pos. pose proof (mod_W_range x).
  pose proof (Z_div_mod_eq_full x W). pose proof (div_W_nonneg x ltac:(lia)).
  change (if _ <? _ then _ else _) with (grow_to s (x / W + 1) pool).
  assert (yields (grow_to s (x / W + 1) pool) (fun t => wf t /\ x / W < BS_word_count t /\
    BS_word_count s <= BS_word_count t /\ (x < BS_word_count s * W -> BS_word_count t = BS_word_count s) /\
    forall y, mem t y = mem s y)) as Hg.
  { unfold grow_to. destruct (Z.ltb_spec (BS_word_count s) (x / W + 1)).
    - eapply yields_mono; [apply realloc_ok; [done|apply Hp; nia|unfold BS_LIMIT; sizes; nia]|].
      intros t (Hw & Hc & Hc' & Hm). repeat split; [apply Hw..|lia|lia|nia|done].
    - simpl. repeat split; [apply Hwf..|lia|lia]. }
  eapply yields_bind; [exact Hg|]. intros t (Hw & Hc & Hc' & Hcs & Hm).
  eapply yields_mono.
  { apply (modify_byte_ok t (x / 8) _ (fun m k => m || (k =? x mod 8))); [done|apply byte_in_words; [done|lia|lia]|].
    intros b k Hk. by rewrite Z.lor_spec, shl_one_bit by (done || apply mod8_range). }
  intros u (Hwu & Hcu & Hmu). repeat split; [apply Hwu..|lia|lia|]. intros y. rewrite Hmu, Hm.
  pose proof (Z_div_mod_eq_full x 8). pose proof (Z_div_mod_eq_full y 8).
  pose proof (mod8_range x). pose proof (mod8_range y).
  destruct (Z.eqb_spec (y / 8) (x / 8)), (Z.leb_spec 0 y), (Z.eqb_spec (y mod 8) (x mod 8)),
    (Z.eqb_spec y x); simpl; try lia; by rewrite ?orb_false_r.
Qed.

Lemma difference1D_ok s x :
  wf s -> 0 <= x < BS_LIMIT ->
  yields (BS_Difference1D s x) (result_is (BS_word_count s) (fun y => mem s y && negb (y =? x))).
Proof.
  intros Hwf Hx. unfold BS_Difference1D, BS_LIMIT in *. rewrite QBPW_eq, QBPB_eq, RBPB_eq by lia.
  apply yields_assert; [lia|].
  destruct (Z.ltb_spec (x / W) (BS_word_count s)).
  - eapply yields_mono.
    { apply (modify_byte_ok s (x / 8) _ (fun m k => m && negb (k =? x mod 8)));
        [done|apply byte_in_words; [done|lia|lia]|].
      intros b k Hk. rewrite Z.land_spec. unfold w_not. rewrite Z.land_spec, Z.lnot_spec by lia.
      rewrite shl_one_bit by (done || apply mod8_range). unfold bs_ONES. sizes.
      by rewrite Z.ones_spec_low, andb_true_r by lia. }
    intros t (Hw & Hc & Hm). split; [done|]. split; [done|]. intros y. rewrite Hm.
    pose proof (Z_div_mod_eq_full x 8). pose proof (Z_div_mod_eq_full y 8).
  pose proof (mod8_range x). pose proof (mod8_range y).
    destruct (Z.eqb_spec (y / 8) (x / 8)), (Z.leb_spec 0 y), (Z.eqb_spec (y mod 8) (x mod 8)),
      (Z.eqb_spec y x); simpl; try lia; by rewrite ?andb_true_r, ?mem_neg by lia.
  - split; [done|]. split; [done|]. intros y.
    destruct (Z.eqb_spec y x) as [->|]; [by rewrite mem_out|by rewrite andb_true_r].
Qed.

Lemma difference_ok s1 s2 pool :
  wf s1 -> wf s2 -> usable pool ->
  yields (BS_Difference s1 s2 pool) (result_is (BS_word_count s1) (fun x => mem s1 x && negb (mem s2 x))).
Proof.
  intros H1 H2 Hp. pose proof (wf_count _ H1). pose proof (wf_count _ H2).
  destruct (H1) as (_ & _ & Hl). unfold BS_Difference.
  eapply yields_bind; [by apply malloc_ok|]. intros t (Hw & Hc).
  eapply yields_bind; [eapply assign_words_ok; [done|lia|lia|intros i Hi; rep_words]|].
  intros u (Hwu & Hcu & Hmu).
  eapply yields_mono; [apply (assign_words_ok _ _ (BS_word s1) (mem s1)); [done|lia|lia|]|].
  - intros i Hi. apply word_ok; [done|lia].
  - intros v (Hwv & Hcv & Hmv). split; [done|]. split; [lia|]. intros x. rewrite Hmv, Hmu. by_sizes x.
Qed.

Lemma differenceD_ok s1 s2 :
  wf s1 -> wf s2 ->
  yields (BS_DifferenceD s1 s2) (result_is (BS_word_count s1) (fun x => mem s1 x && negb (mem s2 x))).
Proof.
  intros H1 H2. pose proof (wf_count _ H1). pose proof (wf_count _ H2). unfold BS_DifferenceD.
  eapply yields_mono; [eapply (update_words_ok _ _ _ andb);
    [by intros; apply repw_land|done|lia|lia|intros i Hi; rep_words]|].
  intros t (Hw & Hc & Hm). split; [done|]. split; [done|]. intros x. rewrite Hm. by_sizes x.
Qed.

Lemma min_if a b : (if a <? b then a else b) = Z.min a b.
Proof. destruct (Z.ltb_spec a b); lia. Qed.

Lemma intersection_ok s1 s2 pool :
  wf s1 -> wf s2 -> usable pool ->
  yields (BS_Intersection s1 s2 pool)
    (result_is (Z.min (BS_word_count s1) (BS_word_count s2)) (fun x => mem s1 x && mem s2 x)).
Proof.
  intros H1 H2 Hp. pose proof (wf_count _ H1). pose proof (wf_count _ H2).
  destruct (H1) as (_ & _ & Hl). unfold BS_Intersection. rewrite min_if. pose proof W_pos.
  eapply yields_bind; [apply malloc_ok; [done|lia|nia]|]. intros t (Hw & Hc).
  eapply yields_mono; [eapply assign_words_ok; [done|lia|lia|intros i Hi; rep_words]|].
  intros u (Hwu & Hcu & Hmu). split; [done|]. split; [lia|]. intros x. rewrite Hmu. by_sizes x.
Qed.

(** Clearing the words from [n] on. *)
Lemma clear_from_ok n s :
  wf s -> 0 <= n <= BS_word_count s ->
  yields (assign_words n (BS_word_count s) (fun _ => Ok bs_ZEROS) s)
    (result_is (BS_word_count s) (fun x => in_words 0 n x && mem s x)).
Proof.
  intros Hwf Hn.
  eapply yields_mono; [apply (assign_words_ok _ _ _ (fun _ => false)); [done|lia|lia|]|].
  - intros i _. apply repw_zeros.
  - intros t (Hw & Hc & Hm). split; [done|]. split; [done|]. intros x. rewrite Hm. by_sizes x.
Qed.

Lemma intersectionD_ok s1 s2 :
  wf s1 -> wf s2 ->
  yields (BS_IntersectionD s1 s2) (result_is (BS_word_count s1) (fun x => mem s1 x && mem s2 x)).
Proof.
  intros H1 H2. pose proof (wf_count _ H1). pose proof (wf_count _ H2). unfold BS_IntersectionD.
  eapply yields_bind; [apply (update_words_ok _ _ _ andb _ (mem s2));
    [by intros; apply repw_land|done|lia|lia|]|].
  - intros i Hi. apply word_ok; [done|lia].
  - intros t (Hw & Hc & Hm).
    eapply yields_mono; [apply clear_from_ok; [done|lia]|].
    intros u (Hwu & Hcu & Hmu). split; [done|]. split; [lia|]. intros x. rewrite Hmu, Hm. by_sizes x.
Qed.

(** [BS_IntersectionR] needs a result that can hold the common words. *)
Lemma intersectionR_ok r s1 s2 :
  wf r -> wf s1 -> wf s2 -> Z.min (BS_word_count s1) (BS_word_count s2) <= BS_word_count r ->
  yields (BS_IntersectionR r s1 s2) (result_is (BS_word_count r) (fun x => mem s1 x && mem s2 x)).
Proof.
  intros Hr H1 H2 Hn. pose proof (wf_count _ H1). pose proof (wf_count _ H2). unfold BS_IntersectionR.
  eapply yields_bind; [eapply assign_words_ok; [done|lia|lia|intros i Hi; rep_words]|].
  intros t (Hw & Hc & Hm).
  eapply yields_mono; [apply clear_from_ok; [done|lia]|].
  intros u (Hwu & Hcu & Hmu). split; [done|]. split; [lia|]. intros x. rewrite Hmu, Hm. by_sizes x.
Qed.
End Ops.
