(* ===== verification/BitSetProps.v ===== *)
(** What the operations of [common/util/bitset.c] compute, stated against
    finite sets of integers ([gset Z]) through the abstraction [to_set].  Every
    statement is total: the operation returns, none of its [Is_True] checks
    fails and no access is out of bounds. *)
From Stdlib Require Import ZArith Lia Bool Btauto.
From stdpp Require Import prelude list gmap.
From S2P Require Import Prelude BitSet BitSetFacts BitSetOps.

Section Props.
Context `{M : BSMachine}.

Abbreviation W := BITS_PER_BS_WORD.

(** From a description of the members to the set. *)
Lemma yields_set_mem c f X :
  yields c (fun t => wf t /\ forall x, mem t x = f x) ->
  (forall x, f x = true <-> x ∈ X) -> yields_set c X.
Proof.
  intros Hc HX. eapply yields_mono; [exact Hc|]. intros t (Hw & Hm). split; [done|].
  apply to_set_ext. intros x. by rewrite Hm.
Qed.

Lemma result_is_mem c n f : yields c (result_is n f) -> yields c (fun t => wf t /\ forall x, mem t x = f x).
Proof. intros H. eapply yields_mono; [exact H|]. intros t (? & _ & ?). done. Qed.

Lemma union1_ok s x pool :
  wf s -> usable pool -> 0 <= x < BS_LIMIT ->
  yields (BS_Union1 s x pool) (fun t => wf t /\ forall y, mem t y = mem s y || (y =? x)).
Proof.
  intros Hwf Hp Hx. pose proof (wf_count s Hwf) as Hc. destruct (Hwf) as (_ & _ & Hl).
  unfold BS_Union1. pose proof W_pos as HW. pose proof (mod_W_range x).
  pose proof (Z_div_mod_eq_full x W). pose proof (div_W_nonneg x ltac:(lia)).
  unfold BS_LIMIT in *. rewrite QBPW_eq, PBPW_eq by lia.
  set (newsize := if _ <? _ then _ else _).
  assert (0 <= newsize <= 2 ^ 30 /\ x < newsize /\ BS_word_count s <= (newsize + W - 1) / W
          /\ newsize <= (newsize + W - 1) / W * W) as (Hn & Hxn & Hcn & Hnn).
  { assert (0 <= newsize <= 2 ^ 30 /\ x < newsize /\ BS_word_count s * W <= newsize + W - 1) as (? & ? & ?).
    { unfold newsize. destruct (Z.ltb_spec (x / W + 1) (BS_word_count s)); nia. }
    repeat split; [lia|lia|lia|apply Z.div_le_lower_bound; lia|].
    apply words_for_bounds. unfold BS_LIMIT. lia. }
  eapply yields_bind; [apply create_empty_ok; [done|unfold BS_LIMIT; lia]|]. intros t (Hw & Hct & Hm).
  eapply yields_bind; [apply copyD_ok; [done|done|lia]|]. intros u (Hwu & Hcu & Hcu' & Hmu).
  eapply yields_mono; [apply union1D_ok; [done|unfold BS_LIMIT; lia|nia]|].
  intros v (Hwv & _ & _ & Hmv). split; [done|]. intros y. by rewrite Hmv, Hmu.
Qed.

End Props.

(** Proves [f x = true <-> x ∈ X] for the formulas of this file. *)
Ltac solve_members :=
  intros ?x;
  rewrite ?elem_of_union, ?elem_of_difference, ?elem_of_intersection, ?elem_of_singleton,
    ?elem_of_to_set, ?elem_of_set_range, ?elem_of_empty, ?orb_true_iff, ?andb_true_iff, ?negb_true_iff,
    ?Z.eqb_eq, ?Z.eqb_neq, ?Z.leb_le, <- ?not_true_iff_false; tauto || intuition congruence.

Section Claims.
Context `{M : BSMachine}.
Abbreviation W := BITS_PER_BS_WORD.

Lemma union_intersection_ok s1 s2 s3 pool :
  wf s1 -> wf s2 -> wf s3 -> usable pool ->
  yields (BS_UnionD_Intersection s1 s2 s3 pool)
    (fun t => wf t /\ forall x, mem t x = mem s1 x || (mem s2 x && mem s3 x)).
Proof.
  intros H1 H2 H3 Hp. pose proof (wf_count _ H2). pose proof (wf_count _ H3). pose proof W_pos.
  destruct (H2) as (_ & _ & Hl2). unfold BS_UnionD_Intersection.
  eapply yields_mono; [eapply (grow_update_ok _ _ orb);
    [by intros; apply repw_lor|done|lia|nia|done|intros i Hi; rep_words]|].
  intros t (Hw & _ & Hm). split; [done|]. intros x. rewrite Hm. by_sizes x.
Qed.

(** C19. The union operations: [BS_Union], [BS_UnionD], [BS_UnionD_Intersection],
    [BS_2_3_And_1_Or_D], [BS_Union1] and [BS_Union1D] return a well-formed set that represents the
    union of the sets their arguments represent, whatever the word counts of
    the arguments, growing the storage where needed. *)
Theorem bs_unions_refine s1 s2 s3 pool (H1 : wf s1) (H2 : wf s2) (H3 : wf s3) (Hp : usable pool) :
  yields_set (BS_Union s1 s2 pool) (to_set s1 ∪ to_set s2) /\
  yields_set (BS_UnionD s1 s2 pool) (to_set s1 ∪ to_set s2) /\
  yields_set (BS_UnionD_Intersection s1 s2 s3 pool) (to_set s1 ∪ (to_set s2 ∩ to_set s3)) /\
  yields_set (BS_2_3_And_1_Or_D s1 s2 s3 pool) (to_set s1 ∪ (to_set s2 ∩ to_set s3)) /\
  forall x, 0 <= x < BS_LIMIT ->
    yields_set (BS_Union1 s1 x pool) (to_set s1 ∪ {[x]}) /\
    yields_set (BS_Union1D s1 x pool) (to_set s1 ∪ {[x]}).
Proof.
  split; [|split; [|split; [|split]]].
  - eapply yields_set_mem; [by eapply result_is_mem, union_ok|solve_members].
  - eapply yields_set_mem; [by apply unionD_ok|solve_members].
  - eapply yields_set_mem; [by apply union_intersection_ok|solve_members].
  - eapply yields_set_mem; [by apply union_intersection_ok|solve_members].
  - intros x Hx. split.
    + eapply yields_set_mem; [by apply union1_ok|solve_members].
    + apply (yields_set_mem _ (fun y => mem s1 y || (y =? x))); [|solve_members].
      eapply yields_mono; [by apply union1D_ok|]. intros t (? & _ & _ & ?). done.
Qed.

Lemma difference1_ok s x pool :
  wf s -> usable pool -> 0 <= x < BS_LIMIT ->
  yields (BS_Difference1 s x pool) (fun t => wf t /\ forall y, mem t y = mem s y && negb (y =? x)).
Proof.
  intros Hwf Hp Hx. unfold BS_Difference1.
  eapply yields_bind; [by apply copy_ok|]. intros t (Hw & _ & Hm).
  eapply yields_mono; [by apply difference1D_ok|]. intros u (Hwu & _ & Hmu).
  split; [done|]. intros y. by rewrite Hmu, Hm.
Qed.

(** The intersections and differences ([BS_Intersection], [BS_IntersectionD],
    [BS_IntersectionR] with a result that has room for the common words,
    [BS_Difference], [BS_DifferenceD], [BS_Difference1], [BS_Difference1D])
    return the intersection or the difference of the sets represented by their
    arguments, whatever the word counts, the result of [BS_IntersectionR]
    holding nothing of its former members. *)
Theorem bs_meets_refine r s1 s2 pool
    (Hr : wf r) (H1 : wf s1) (H2 : wf s2) (Hp : usable pool)
    (Hroom : Z.min (BS_word_count s1) (BS_word_count s2) <= BS_word_count r) :
  yields_set (BS_Intersection s1 s2 pool) (to_set s1 ∩ to_set s2) /\
  yields_set (BS_IntersectionD s1 s2) (to_set s1 ∩ to_set s2) /\
  yields_set (BS_IntersectionR r s1 s2) (to_set s1 ∩ to_set s2) /\
  yields_set (BS_Difference s1 s2 pool) (to_set s1 ∖ to_set s2) /\
  yields_set (BS_DifferenceD s1 s2) (to_set s1 ∖ to_set s2) /\
  forall x, 0 <= x < BS_LIMIT ->
    yields_set (BS_Difference1 s1 x pool) (to_set s1 ∖ {[x]}) /\
    yields_set (BS_Difference1D s1 x) (to_set s1 ∖ {[x]}).
Proof.
  repeat split; intros.
  - eapply yields_set_mem; [by eapply result_is_mem, intersection_ok|solve_members].
  - eapply yields_set_mem; [by eapply result_is_mem, intersectionD_ok|solve_members].
  - eapply yields_set_mem; [by eapply result_is_mem, intersectionR_ok|solve_members].
  - eapply yields_set_mem; [by eapply result_is_mem, difference_ok|solve_members].
  - eapply yields_set_mem; [by eapply result_is_mem, differenceD_ok|solve_members].
  - eapply yields_set_mem; [by apply difference1_ok|solve_members].
  - eapply yields_set_mem; [by eapply result_is_mem, difference1D_ok|solve_members].
Qed.

(** ** The combined operations *)

(** [s] is well formed and has [n] words. *)
Definition sized (n : Z) (s : BS) : Prop := wf s /\ BS_word_count s = n.

Lemma elem_of_from_word n s x :
  0 <= n -> x ∈ from_word n (to_set s) <-> in_words 0 n x = false /\ mem s x = true.
Proof.
  intros Hn. unfold from_word. rewrite elem_of_filter, elem_of_to_set. split.
  - intros [Hx Hm]. split; [|done]. apply not_true_iff_false. rewrite in_words_spec by done. lia.
  - intros [Hx Hm]. split; [|done]. apply not_true_iff_false in Hx.
    rewrite in_words_spec in Hx by done. pose proof (mem_bounds s x Hm). lia.
Qed.

Lemma update_set_ok n op opb e f X s pool :
  (forall i a b fa fb, repw i a fa -> repw i b fb -> repw i (op a b) (fun x => opb (fa x) (fb x))) ->
  wf s -> usable pool -> 0 <= n -> n * W <= BS_LIMIT ->
  (forall i, 0 <= i < n -> yields (e i) (fun w => repw i w f)) ->
  (forall x, (if in_words 0 n x then opb (mem s x) (f x) else mem s x) = true <-> x ∈ X) ->
  yields_set (let* s' := grow_to s n pool in update_words 0 n op e s') X.
Proof.
  intros Hop Hw Hp Hn Hl He HX. eapply yields_set_mem; [|exact HX].
  eapply yields_mono; [by eapply grow_update_ok|]. intros t (? & _ & ?). done.
Qed.

Lemma assign_set_ok n e f X r pool :
  wf r -> usable pool -> 0 <= n -> n * W <= BS_LIMIT ->
  (forall i, 0 <= i < n -> yields (e i) (fun w => repw i w f)) ->
  (forall x, (if in_words 0 n x then f x else false) = true <-> x ∈ X) ->
  yields_set (let* s' := grow_to r n pool in assign_words 0 n e s') (from_word n (to_set r) ∪ X).
Proof.
  intros Hw Hp Hn Hl He HX.
  apply (yields_set_mem _ (fun x => if in_words 0 n x then f x else mem r x)).
  - eapply yields_mono; [by eapply grow_assign_ok|]. intros t (? & _ & ?). done.
  - intros x. rewrite elem_of_union, elem_of_from_word, <- HX by done.
    destruct (in_words 0 n x); intuition congruence.
Qed.
End Claims.

(** Membership goals of the two lemmas above. *)
Ltac solve_members_words :=
  let x := fresh "x" in let E := fresh "E" in
  intros x;
  match goal with |- context [in_words 0 ?n x] =>
    destruct (in_words 0 n x) eqn:E;
    [clear E; repeat (progress rewrite ?elem_of_union, ?elem_of_difference, ?elem_of_intersection, ?elem_of_to_set);
     repeat match goal with
       | |- context [mem ?s x] => destruct (mem s x)
       end; clear; intuition (congruence || done)
    |repeat (progress rewrite ?elem_of_union, ?elem_of_difference, ?elem_of_intersection, ?elem_of_to_set);
     repeat match goal with
       | |- context [mem ?s x] => rewrite (mem_not_in_words n s x) by (lia || exact E)
       end; intuition congruence]
  end.

(** One combined operation whose operands have equal sizes. *)
Ltac combined_D := repeat (apply yields_assert; [lia|]);
  eapply (update_set_ok _ _ orb);
  [by intros; apply repw_lor|done|done|lia|lia|intros i Hi; rep_words|solve_members_words].
Ltac combined_and_D := repeat (apply yields_assert; [lia|]);
  eapply (update_set_ok _ _ andb);
  [by intros; apply repw_land|done|done|lia|lia|intros i Hi; rep_words|solve_members_words].
Ltac combined_R := repeat (apply yields_assert; [lia|]);
  eapply assign_set_ok; [done|done|lia|lia|intros i Hi; rep_words|solve_members_words].

Section Combined.
Context `{M : BSMachine}.

(** The operations of the dataflow solvers that combine several sets in one
    pass.  With operands of [n] words each, the destructive ones ([_D]) return
    the named combination of their arguments.  The ones with a separate result
    ([_R]) store the named combination in the words below [n] of [r] and keep
    the members of [r] from word [n] on, so they return exactly the combination
    when [r] is not longer than the operands ([from_word_none]). *)
Theorem bs_combined_refine n r s1 s2 s3 s4 s5 s6 pool
    (Hp : usable pool) (Hr : wf r) (H1 : sized n s1) (H2 : sized n s2) (H3 : sized n s3)
    (H4 : sized n s4) (H5 : sized n s5) (H6 : sized n s6) :
  let r' := to_set r in let r_tail := from_word n (to_set r) in
  let A := to_set s1 in let B := to_set s2 in let C := to_set s3 in
  let D := to_set s4 in let E := to_set s5 in let F := to_set s6 in
  yields_set (BS_3_2_Minus_1_Or_D r s2 s3 pool) (r' ∪ (C ∖ B)) /\
  yields_set (BS_3_2_Minus_4_Or_1_Or_D r s2 s3 s4 pool) (r' ∪ ((C ∖ B) ∪ D)) /\
  yields_set (BS_3_2_Minus_4_Or_5_Or_1_Or_D r s2 s3 s4 s5 pool) (r' ∪ ((C ∖ B) ∪ D ∪ E)) /\
  yields_set (BS_2_3_Or_1_Or_D r s2 s3 pool) (r' ∪ (B ∪ C)) /\
  yields_set (BS_3_Not_4_Or_2_And_1_Or_D r s2 s3 s4 pool) (r' ∪ (B ∖ (C ∖ D))) /\
  yields_set (BS_4_3_Minus_2_Not_Or_1_And_D r s2 s3 s4 pool) (r' ∖ (B ∖ (D ∖ C))) /\
  yields_set (BS_2_3_Minus_1_Or_D r s2 s3 pool) (r' ∪ (B ∖ C)) /\
  yields_set (BS_2_3_Minus_4_Minus_1_Or_D r s2 s3 s4 pool) (r' ∪ ((B ∖ C) ∖ D)) /\
  yields_set (BS_2_1_Minus_3_Or_R r s1 s2 s3 pool) (r_tail ∪ ((B ∖ A) ∪ C)) /\
  yields_set (BS_2_1_Minus_3_Or_4_And_R r s1 s2 s3 s4 pool) (r_tail ∪ (((B ∖ A) ∪ C) ∩ D)) /\
  yields_set (BS_2_1_Minus_3_Or_4_And_5_And_6_And_R r s1 s2 s3 s4 s5 s6 pool)
    (r_tail ∪ (((B ∖ A) ∪ C) ∩ D ∩ E ∩ F)) /\
  yields_set (BS_1_Not_2_Or_3_Minus_4_And_R r s1 s2 s3 s4 pool) (r_tail ∪ ((D ∖ C) ∖ (A ∖ B))) /\
  yields_set (BS_1_2_Or_3_And_R r s1 s2 s3 pool) (r_tail ∪ ((A ∪ B) ∩ C)) /\
  yields_set (BS_UnionR r s1 s2 pool) (r_tail ∪ (A ∪ B)).
Proof.
  destruct H1 as [H1 C1], H2 as [H2 C2], H3 as [H3 C3], H4 as [H4 C4], H5 as [H5 C5], H6 as [H6 C6].
  pose proof (wf_count _ H2). destruct (H2) as (_ & _ & Hl). cbv zeta. repeat apply conj.
  - unfold BS_3_2_Minus_1_Or_D. rewrite C2, C3. combined_D.
  - unfold BS_3_2_Minus_4_Or_1_Or_D. rewrite C2, C3, C4. combined_D.
  - unfold BS_3_2_Minus_4_Or_5_Or_1_Or_D. rewrite C2, C3, C4, C5. combined_D.
  - unfold BS_2_3_Or_1_Or_D. rewrite C2, C3. combined_D.
  - unfold BS_3_Not_4_Or_2_And_1_Or_D. rewrite C2, C3, C4. combined_D.
  - unfold BS_4_3_Minus_2_Not_Or_1_And_D. rewrite C2, C3, C4. combined_and_D.
  - unfold BS_2_3_Minus_1_Or_D. rewrite C2, C3. combined_D.
  - unfold BS_2_3_Minus_4_Minus_1_Or_D. rewrite C2, C3, C4. combined_D.
  - unfold BS_2_1_Minus_3_Or_R. rewrite C1, C2, C3. combined_R.
  - unfold BS_2_1_Minus_3_Or_4_And_R. rewrite C1, C2, C3, C4. combined_R.
  - unfold BS_2_1_Minus_3_Or_4_And_5_And_6_And_R. rewrite C1, C2, C3, C4, C5, C6. combined_R.
  - unfold BS_1_Not_2_Or_3_Minus_4_And_R. rewrite C1, C2, C3, C4. combined_R.
  - unfold BS_1_2_Or_3_And_R. rewrite C1, C2, C3. combined_R.
  - unfold BS_UnionR. rewrite C1, C2, Z.max_id. combined_R.
Qed.
End Combined.

Section Ranges.
Context `{M : BSMachine}.
Abbreviation W := BITS_PER_BS_WORD.

Lemma singletonD_ok s x pool :
  wf s -> 0 <= x < BS_LIMIT -> (BS_word_count s * W <= x -> usable pool) ->
  yields (BS_SingletonD s x pool) (fun t => wf t /\ forall y, mem t y = (y =? x)).
Proof.
  intros Hwf Hx Hp. unfold BS_SingletonD, BS_LIMIT in *. rewrite QBPW_eq, QBPB_eq, RBPB_eq by lia.
  apply yields_assert; [lia|]. pose proof W_pos. pose proof (mod_W_range x).
  pose proof (Z_div_mod_eq_full x W). pose proof (div_W_nonneg x ltac:(lia)).
  assert (yields (if BS_word_count s <=? x / W then bs_Realloc s (x / W + 1) pool else Ok s)
    (fun t => wf t /\ x / W < BS_word_count t)) as Hg.
  { destruct (Z.leb_spec (BS_word_count s) (x / W)); [|simpl; auto with lia].
    eapply yields_mono; [apply realloc_ok; [done|apply Hp; nia|]|].
    - unfold BS_LIMIT. pose proof bytes_cases. nia.
    - intros t (? & ? & _). auto with lia. }
  eapply yields_bind; [exact Hg|]. intros t (Hw & Hc).
  eapply yields_bind; [by apply clear_ok|]. intros u (Hwu & Hcu & Hmu).
  eapply yields_mono; [apply set_byte_ok; [done|apply byte_in_words; [done|lia|lia]]|].
  intros v (Hwv & _ & Hmv). split; [done|]. intros y. rewrite Hmv, Hmu.
  pose proof (mod8_range x). pose proof (mod8_range y). rewrite shl_one_bit by done.
  pose proof (Z_div_mod_eq_full x 8). pose proof (Z_div_mod_eq_full y 8).
  rewrite if_bool. lia.
Qed.

Lemma range_set_ok s low high pool :
  wf s -> 0 <= low <= high + 1 -> high < BS_LIMIT -> (BS_word_count s * W <= high -> usable pool) ->
  yields_set (BS_RangeD s low high pool) (set_range low high).
Proof.
  intros Hs Hl Hh Hp. apply (yields_set_mem _ (fun x => (low <=? x) && (x <=? high))); [|solve_members].
  eapply yields_mono; [by apply rangeD_ok|]. intros t (? & _ & ?). done.
Qed.

(** Intervals and singletons: [BS_Range] and [BS_RangeD] return exactly
    [low..high] (empty when [high = low - 1]), [BS_Singleton] and
    [BS_SingletonD] the one element, [BS_Universe] the elements below [size];
    the destructive forms replace whatever the set held.  [BS_UniverseD] does so
    for a set that already has room, since it cannot grow. *)
Theorem bs_ranges_refine s low high pool
    (Hs : wf s) (Hp : usable pool) (Hl : 0 <= low <= high + 1) (Hh : high < BS_LIMIT) :
  yields_set (BS_RangeD s low high pool) (set_range low high) /\
  yields_set (BS_Range low high pool) (set_range low high) /\
  yields_set (BS_Universe (high + 1) pool) (set_range 0 high) /\
  (high < BS_word_count s * W -> yields_set (BS_UniverseD s (high + 1) pool) (set_range 0 high)) /\
  forall x, 0 <= x < BS_LIMIT ->
    yields_set (BS_SingletonD s x pool) {[x]} /\ yields_set (BS_Singleton x pool) {[x]}.
Proof.
  assert (0 <= high + 1 <= BS_LIMIT) as Hsz by lia.
  split; [|split; [|split; [|split]]].
  - by apply range_set_ok.
  - eapply yields_bind; [by apply create_ok|]. intros t (Hw & Hc).
    pose proof (words_for_bounds _ Hsz). apply range_set_ok; [done|lia|lia|rewrite Hc; lia].
  - eapply yields_bind; [by apply create_ok|]. intros t (Hw & Hc).
    pose proof (words_for_bounds _ Hsz). unfold BS_UniverseD. rewrite Z.add_simpl_r.
    apply range_set_ok; [done|lia|lia|rewrite Hc; lia].
  - intros Hroom. unfold BS_UniverseD. rewrite Z.add_simpl_r. apply range_set_ok; [done|lia|lia|lia].
  - intros x Hx. split.
    + eapply yields_set_mem; [by apply singletonD_ok|solve_members].
    + eapply yields_bind; [apply create_ok; [done|lia]|]. intros t (Hw & Hc).
      pose proof (words_for_bounds (x + 1)).
      eapply yields_set_mem; [apply singletonD_ok; [done|done|rewrite Hc; lia]|solve_members].
Qed.

(** Creation, growth and copying: [BS_Create_Empty] returns the empty set
    with room for [size] elements; [BS_ResizeD] keeps the members and makes room
    for [size] elements; [BS_ClearD] empties the set; [BS_Copy] and [BS_CopyD] return the
    set that was copied, whatever the sizes and the contents of fresh memory;
    [BS_Size_Alloc_Size] and [BS_Alloc_Size] agree on what [BS_Create] allocates. *)
Theorem bs_storage_refines s1 s2 size pool
    (H1 : wf s1) (H2 : wf s2) (Hp : usable pool) (Hs : 0 <= size <= BS_LIMIT) :
  yields (BS_Create_Empty size pool) (fun t =>
    wf t /\ to_set t = ∅ /\ size <= BS_word_count t * W /\ BS_Alloc_Size t = BS_Size_Alloc_Size size) /\
  yields (BS_ResizeD s1 size pool) (fun t =>
    wf t /\ to_set t = to_set s1 /\ size <= BS_word_count t * W) /\
  yields_set (BS_ClearD s1) ∅ /\
  yields_set (BS_Copy s1 pool) (to_set s1) /\
  yields_set (BS_CopyD s1 s2 pool) (to_set s2).
Proof.
  pose proof (words_for_bounds _ Hs) as (Hb & Hb1 & Hb2).
  split; [|split; [|split; [|split]]].
  - eapply yields_mono; [by apply create_empty_ok|]. intros t (Hw & Hc & Hm).
    split; [done|]. split; [apply to_set_ext; intros x; rewrite Hm, elem_of_empty; done|].
    split; [lia|]. unfold BS_Alloc_Size, BS_Size_Alloc_Size. rewrite Hc, words_for_eq by done.
    f_equal. lia.
  - eapply yields_mono; [by apply resize_ok|]. intros t (Hw & Hc & Hm).
    split; [done|]. split; [|done]. apply to_set_ext. intros x. by rewrite Hm, elem_of_to_set.
  - eapply yields_set_mem; [by eapply result_is_mem, clear_ok|]. intros x. by rewrite elem_of_empty.
  - eapply yields_set_mem; [by eapply result_is_mem, copy_ok|solve_members].
  - eapply (yields_set_mem _ (mem s2)); [|solve_members].
    eapply yields_mono; [by apply copyD_ok|]. intros t (? & _ & _ & ?). done.
Qed.
End Ranges.

Section Tests.
Context `{M : BSMachine}.
Abbreviation W := BITS_PER_BS_WORD.

(** A loop over words that returns [v] at the first word where a test fails. *)
Lemma search_words_ok lo hi (body : Z -> outcome (option bool)) v (P : Z -> Prop) :
  (forall i, lo <= i < hi ->
     yields (body i) (fun r => (r = None /\ P i) \/ (r = Some v /\ ~ P i))) ->
  yields (search_ lo hi body) (fun r =>
    (r = None /\ (forall i, lo <= i < hi -> P i)) \/ (r = Some v /\ ~ (forall i, lo <= i < hi -> P i))).
Proof.
  intros Hb. eapply yields_mono;
    [apply (yields_search P (fun i w => w = v /\ ~ P i))|].
  - intros i Hi. eapply yields_mono; [by apply Hb|]. by intros r [[-> ?]|[-> ?]].
  - intros [w|]; simpl; [|by left]. intros (i & Hi & [-> HP] & _). right. split; [done|]. auto.
Qed.

(** What a word test says about the elements of the word. *)
Definition on_word (i : Z) (f : Z -> bool) : Prop := forall x, 0 <= x -> x / W = i -> f x = false.

Lemma test_word_ok i (c : outcome Z) f (v : bool) :
  0 <= i -> yields c (fun w => repw i w f) ->
  yields (let* w := c in if negb (w =? bs_ZEROS) then Ok (Some v) else Ok None)
    (fun r => (r = None /\ on_word i f) \/ (r = Some v /\ ~ on_word i f)).
Proof.
  intros Hi Hc. eapply yields_bind; [exact Hc|]. intros w Hw.
  pose proof (repw_zero_iff i w f Hi Hw) as Hz. fold (on_word i f) in Hz.
  destruct (Z.eqb_spec w bs_ZEROS); simpl; tauto.
Qed.

(** The words between [lo] and [hi] hold every element that [f] could accept. *)
Lemma on_words_all lo hi f :
  (forall x, f x = true -> 0 <= x /\ lo <= x / W < hi) ->
  (forall i, lo <= i < hi -> on_word i f) <-> forall x, f x = false.
Proof.
  intros Hf. split.
  - intros H x. destruct (f x) eqn:E; [|done]. destruct (Hf x E) as [Hx Hi].
    by rewrite (H (x / W) Hi x) in E.
  - intros H i _ x _ _. apply H.
Qed.

Lemma mem_word s x : mem s x = true -> 0 <= x /\ 0 <= x / W < BS_word_count s.
Proof. intros H. pose proof (mem_in_words _ s x (Z.le_refl _) H) as E. unfold in_words in E. lia. Qed.

Lemma yields_decide (c : outcome bool) (Q : Prop) `{!Decision Q} :
  yields c (fun b => b = true <-> Q) -> c = Ok (bool_decide Q).
Proof.
  destruct c as [b|]; simpl; [|done]. intros H. f_equal. destruct b.
  - symmetry. apply bool_decide_eq_true_2. tauto.
  - symmetry. apply bool_decide_eq_false_2. intros HQ. by apply H in HQ.
Qed.

Lemma and_word_ok s1 s2 i :
  wf s1 -> wf s2 -> 0 <= i < Z.min (BS_word_count s1) (BS_word_count s2) ->
  yields (word_and s1 s2 i) (fun w => repw i w (fun x => mem s1 x && mem s2 x)).
Proof. intros H1 H2 Hi. unfold word_and. rep_words. Qed.

Lemma empty_iff (X : gset Z) f : (forall x, x ∈ X <-> f x = true) -> X = ∅ <-> forall x, f x = false.
Proof.
  intros H. rewrite set_eq. split; intros He x; specialize (He x); specialize (H x).
  - apply not_true_iff_false. rewrite <- H, He. apply not_elem_of_empty.
  - rewrite H, He. split; [done|]. by intros ?%not_elem_of_empty.
Qed.

Lemma elem_of_both s1 s2 x : x ∈ to_set s1 ∩ to_set s2 <-> mem s1 x && mem s2 x = true.
Proof. by rewrite elem_of_intersection, !elem_of_to_set, andb_true_iff. Qed.

Lemma emptyP_ok s : wf s -> BS_EmptyP s = Ok (bool_decide (to_set s = ∅)).
Proof.
  intros Hw. apply yields_decide. unfold BS_EmptyP.
  eapply yields_bind; [apply (search_words_ok _ _ _ false (fun i => on_word i (mem s)))|].
  - intros i Hi. apply test_word_ok; [lia|]. by apply word_ok.
  - intros r Hr. cbv beta in Hr. rewrite on_words_all in Hr by apply mem_word.
    pose proof (empty_iff _ _ (elem_of_to_set s)) as Heq.
    destruct Hr as [[-> Ha]|[-> Ha]]; simpl; rewrite Heq; [done|]. by split.
Qed.

Lemma intersectsP_ok s1 s2 :
  wf s1 -> wf s2 -> BS_IntersectsP s1 s2 = Ok (bool_decide (to_set s1 ∩ to_set s2 <> ∅)).
Proof.
  intros H1 H2. apply yields_decide. unfold BS_IntersectsP. rewrite min_if.
  eapply yields_bind;
    [apply (search_words_ok _ _ _ true (fun i => on_word i (fun x => mem s1 x && mem s2 x)))|].
  - intros i Hi. apply test_word_ok; [lia|]. by apply and_word_ok.
  - intros r Hr. cbv beta in Hr. rewrite on_words_all in Hr.
    2: { intros x [Ha%mem_word Hb%mem_word]%andb_true_iff. lia. }
    pose proof (empty_iff _ _ (elem_of_both s1 s2)) as Heq.
    destruct Hr as [[-> Ha]|[-> Ha]]; simpl; rewrite Heq; [|done].
    split; [done|]. intros H. by destruct H.
Qed.
(** Two loops in sequence that return [false] at the first failing word. *)
Lemma search_words2_ok lo mid hi body1 body2 (P : Z -> Prop) :
  lo <= mid <= hi ->
  (forall i, lo <= i < mid -> yields (body1 i) (fun r => (r = None /\ P i) \/ (r = Some false /\ ~ P i))) ->
  (forall i, mid <= i < hi -> yields (body2 i) (fun r => (r = None /\ P i) \/ (r = Some false /\ ~ P i))) ->
  yields (let* r := search_ lo mid body1 in
          return_or r (let* r := search_ mid hi body2 in return_or r (Ok true)))
    (fun b => b = true <-> forall i, lo <= i < hi -> P i).
Proof.
  intros Hm H1 H2. eapply yields_bind; [by apply search_words_ok|].
  intros r [[-> Ha]|[-> Ha]]; simpl.
  - eapply yields_bind; [by apply search_words_ok|].
    intros r [[-> Hb]|[-> Hb]]; simpl.
    + split; [|done]. intros _ i Hi. destruct (Z.lt_ge_cases i mid); [apply Ha|apply Hb]; lia.
    + split; [done|]. intros H. destruct Hb. intros i Hi. apply H. lia.
  - split; [done|]. intros H. destruct Ha. intros i Hi. apply H. lia.
Qed.

(** Comparing two words. *)
Lemma compare_word_ok i a b f g :
  0 <= i -> repw i a f -> repw i b g ->
  yields (if negb (a =? b) then Ok (Some false) else Ok None)
    (fun r => (r = None /\ on_word i (fun x => xorb (f x) (g x))) \/
              (r = Some false /\ ~ on_word i (fun x => xorb (f x) (g x)))).
Proof.
  intros Hi Ha Hb. pose proof (repw_inj i a b f g Hi Ha Hb) as Heq.
  assert (on_word i (fun x => xorb (f x) (g x)) <-> a = b) as Hon.
  { rewrite Heq. unfold on_word. split; intros H x Hx Hd; specialize (H x Hx Hd);
      destruct (f x), (g x); done. }
  destruct (Z.eqb_spec a b); simpl; tauto.
Qed.

Lemma on_word_ext i f g : (forall x, 0 <= x -> x / W = i -> f x = g x) -> on_word i f <-> on_word i g.
Proof. intros H. split; intros Ho x Hx Hi; [rewrite <- H|rewrite H]; auto. Qed.

Lemma tested_ext (c : outcome (option bool)) v i f g :
  (forall x, 0 <= x -> x / W = i -> f x = g x) ->
  yields c (fun r => (r = None /\ on_word i f) \/ (r = Some v /\ ~ on_word i f)) ->
  yields c (fun r => (r = None /\ on_word i g) \/ (r = Some v /\ ~ on_word i g)).
Proof. intros H Hc. eapply yields_mono; [exact Hc|]. intros r. pose proof (on_word_ext i f g H). simpl. tauto. Qed.

Lemma equalP_ok s1 s2 : wf s1 -> wf s2 -> BS_EqualP s1 s2 = Ok (bool_decide (to_set s1 = to_set s2)).
Proof.
  assert (forall a b, wf a -> wf b -> BS_word_count a <= BS_word_count b ->
    yields (let* r := search_ 0 (BS_word_count a) (fun i =>
              let* x := BS_word a i in let* y := BS_word b i in
              if negb (x =? y) then Ok (Some false) else Ok None) in
            return_or r (let* r := search_ (BS_word_count a) (BS_word_count b) (fun i =>
              let* y := BS_word b i in if negb (y =? bs_ZEROS) then Ok (Some false) else Ok None) in
            return_or r (Ok true))) (fun v => v = true <-> to_set a = to_set b)) as Hgen.
  { intros a b Ha Hb Hle. pose proof (wf_count _ Ha).
    eapply yields_mono;
      [apply (search_words2_ok _ _ _ _ _ (fun i => on_word i (fun x => xorb (mem a x) (mem b x))));
        [lia| |]|].
    - intros i Hi. eapply yields_bind; [by apply word_ok|]. intros x Hx.
      eapply yields_bind; [apply word_ok; [done|lia]|]. intros y Hy.
      apply compare_word_ok; [lia|done|done].
    - intros i Hi. apply (tested_ext _ _ _ (mem b)).
      + intros x Hx Hd. rewrite (mem_out a) by lia. by destruct (mem b x).
      + apply test_word_ok; [lia|]. apply word_ok; [done|lia].
    - intros v ->. rewrite on_words_all.
      + rewrite set_eq. split; intros Hx x; specialize (Hx x); [rewrite !elem_of_to_set|rewrite !elem_of_to_set in Hx];
          destruct (mem a x), (mem b x); simpl in *; intuition congruence.
      + intros x Hx. destruct (mem a x) eqn:Ea, (mem b x) eqn:Eb; try done;
          [apply mem_word in Ea; lia|apply mem_word in Eb; lia]. }
  intros H1 H2. apply yields_decide. unfold BS_EqualP.
  destruct (Z.ltb_spec (BS_word_count s2) (BS_word_count s1)); cbv beta iota.
  - eapply yields_mono; [apply Hgen; [done|done|lia]|]. intros v ->. done.
  - apply Hgen; [done|done|lia].
Qed.

Lemma containsP_ok s1 s2 : wf s1 -> wf s2 -> BS_ContainsP s1 s2 = Ok (bool_decide (to_set s2 ⊆ to_set s1)).
Proof.
  intros H1 H2. pose proof (wf_count _ H1). pose proof (wf_count _ H2).
  apply yields_decide. unfold BS_ContainsP. rewrite min_if.
  eapply yields_mono;
    [apply (search_words2_ok _ _ _ _ _ (fun i => on_word i (fun x => mem s2 x && negb (mem s1 x))));
      [lia| |]|].
  - intros i Hi. eapply yields_bind; [apply word_ok; [done|lia]|]. intros x Hx.
    eapply yields_bind; [apply word_ok; [done|lia]|]. intros y Hy.
    eapply tested_ext; [|apply (compare_word_ok i); [lia|exact Hx|exact (repw_lor _ _ _ _ _ Hx Hy)]].
    intros z _ _. simpl. btauto.
  - intros i Hi. apply (tested_ext _ _ _ (mem s2)).
    + intros x Hx Hd. rewrite (mem_out s1) by lia. by rewrite andb_true_r.
    + apply test_word_ok; [lia|]. apply word_ok; [done|lia].
  - intros v ->. rewrite on_words_all.
    + rewrite elem_of_subseteq. split; intros Hx x; specialize (Hx x);
        [rewrite !elem_of_to_set|rewrite !elem_of_to_set in Hx];
        destruct (mem s1 x), (mem s2 x); simpl in *; intuition congruence.
    + intros x [Hx%mem_word _]%andb_true_iff. lia.
Qed.

(** The mask of one element. *)
Lemma mask_bit v r : 0 <= r < 8 -> negb (Z.land v (w_shl bs_ONE r) =? bs_ZEROS) = Z.testbit v r.
Proof.
  intros Hr. assert (w_shl bs_ONE r = 2 ^ r) as ->.
  { unfold w_shl, bs_ONE, bs_ONES. rewrite Z.shiftl_1_l, Z.land_ones by apply W_nonneg.
    apply Z.mod_small. split; [lia|]. apply Z.pow_lt_mono_r; pose proof bytes_cases; lia. }
  unfold bs_ZEROS. destruct (Z.testbit v r) eqn:E, (Z.eqb_spec (Z.land v (2 ^ r)) 0) as [Hz|Hz]; try done.
  - apply (f_equal (fun a => Z.testbit a r)) in Hz.
    by rewrite Z.land_spec, E, Z.pow2_bits_true, Z.testbit_0_l in Hz by lia.
  - destruct Hz. apply Z.bits_inj'. intros n Hn.
    rewrite Z.land_spec, Z.pow2_bits_eqb, Z.testbit_0_l by lia.
    destruct (Z.eqb_spec r n) as [<-|]; [by rewrite E|apply andb_false_r].
Qed.

Lemma byte_of_elem s x :
  wf s -> 0 <= x < BS_LIMIT -> x / W < BS_word_count s ->
  yields (BS_byte s (bs_QBPB x)) (fun b => Z.testbit b (bs_RBPB x) = mem s x).
Proof.
  intros Hw Hx Hc. unfold BS_LIMIT in *. rewrite QBPB_eq, RBPB_eq by lia.
  eapply yields_mono; [apply byte_ok; [done|apply byte_in_words; [done|lia|done]]|].
  intros b (_ & Hb). rewrite Hb by apply mod8_range. f_equal. pose proof (Z_div_mod_eq_full x 8). lia.
Qed.

Lemma RBPB_range x : 0 <= bs_RBPB x < 8.
Proof. rewrite RBPB_eq. apply mod8_range. Qed.

Lemma memberP_ok s x :
  wf s -> 0 <= x < BS_LIMIT -> BS_MemberP s x = Ok (bool_decide (x ∈ to_set s)).
Proof.
  intros Hw Hx. apply yields_decide. unfold BS_MemberP.
  rewrite QBPW_eq by (unfold BS_LIMIT in Hx; lia). apply yields_assert; [lia|].
  destruct (Z.leb_spec (BS_word_count s) (x / W)).
  - simpl. rewrite elem_of_to_set, mem_out by done. done.
  - eapply yields_bind; [by apply byte_of_elem|]. intros b Hb.
    simpl. by rewrite mask_bit, Hb, elem_of_to_set by apply RBPB_range.
Qed.

(** The tests of [bitset.c] decide what they name: membership (plain, in an
    intersection, and in the checked fixed-size variant), emptiness, inclusion,
    equality and intersection of the represented sets, for sets of any two
    sizes; the checked [FBS_Union1D] adds the element in place. *)
Theorem bs_tests_decide s1 s2 x (H1 : wf s1) (H2 : wf s2) (Hx : 0 <= x < BS_LIMIT) :
  BS_MemberP s1 x = Ok (bool_decide (x ∈ to_set s1)) /\
  BS_Intersection_MemberP s1 s2 x = Ok (bool_decide (x ∈ to_set s1 ∩ to_set s2)) /\
  BS_EmptyP s1 = Ok (bool_decide (to_set s1 = ∅)) /\
  BS_ContainsP s1 s2 = Ok (bool_decide (to_set s2 ⊆ to_set s1)) /\
  BS_EqualP s1 s2 = Ok (bool_decide (to_set s1 = to_set s2)) /\
  BS_IntersectsP s1 s2 = Ok (bool_decide (to_set s1 ∩ to_set s2 <> ∅)) /\
  (x < BS_word_count s1 * W ->
     FBS_MemberP_Validate s1 x = Ok (bool_decide (x ∈ to_set s1)) /\
     yields_set (FBS_Union1D_Validate s1 x) (to_set s1 ∪ {[x]})).
Proof.
  pose proof W_pos. pose proof (mod_W_range x). pose proof (Z_div_mod_eq_full x W).
  assert (bs_QBPW x = x / W) as Hq by (apply QBPW_eq; unfold BS_LIMIT in Hx; lia).
  split; [|split; [|repeat split; auto using emptyP_ok, containsP_ok, equalP_ok, intersectsP_ok]].
  - by apply memberP_ok.
  - apply yields_decide. unfold BS_Intersection_MemberP. rewrite Hq. apply yields_assert; [lia|].
    pose proof (elem_of_both s1 s2 x) as He.
    destruct (Z.leb_spec (BS_word_count s1) (x / W)); simpl.
    { rewrite He, (mem_out s1) by done. done. }
    destruct (Z.leb_spec (BS_word_count s2) (x / W)); simpl.
    { rewrite He, (mem_out s2), andb_false_r by done. done. }
    eapply yields_bind; [by apply byte_of_elem|]. intros b1 Hb1.
    eapply yields_bind; [by apply byte_of_elem|]. intros b2 Hb2.
    simpl. by rewrite mask_bit, Z.land_spec, Hb1, Hb2, He by apply RBPB_range.
  - apply yields_decide. unfold FBS_MemberP_Validate. rewrite Hq.
    apply yields_assert; [lia|]. apply yields_assert; [nia|].
    eapply yields_bind; [apply byte_of_elem; [done|done|nia]|]. intros b Hb.
    simpl. by rewrite mask_bit, Hb, elem_of_to_set by apply RBPB_range.
  - assert (FBS_Union1D_Validate s1 x = BS_Union1D s1 x bad_pool) as ->.
    { unfold FBS_Union1D_Validate, BS_Union1D. rewrite Hq, !assert_true by nia. simpl.
      destruct (Z.ltb_spec (BS_word_count s1) (x / W + 1)); [nia|done]. }
    apply (yields_set_mem _ (fun y => mem s1 y || (y =? x))); [|solve_members].
    eapply yields_mono; [apply union1D_ok; [done|done|lia]|]. intros t (? & _ & _ & ?). done.
Qed.
End Tests.

Section Errors.
Context `{M : BSMachine}.
Abbreviation W := BITS_PER_BS_WORD.

(** An assignment loop whose right-hand side or target leaves the words. *)
Lemma assign_words_err lo hi k e s :
  wf s -> 0 <= lo <= k -> k < hi ->
  (forall i, lo <= i < k -> i < BS_word_count s /\ exists w f, e i = Ok w /\ repw i w f) ->
  (e k = Err Bounds \/ (exists w, e k = Ok w) /\ BS_word_count s <= k) ->
  assign_words lo hi e s = Err Bounds.
Proof.
  intros Hs Hlo Hk He Hf. unfold assign_words.
  apply (for_err (fun _ t => wf t /\ BS_word_count t = BS_word_count s) lo k hi); [lia|done| |].
  - intros i t Hi (Hw & Hc). destruct (He i Hi) as (Hi' & w & f & -> & Hr). simpl.
    eapply yields_mono; [apply (set_word_ok _ _ _ f); [done|lia|done]|].
    intros u (? & ? & _). split; [done|lia].
  - intros t ((Hl & _ & _) & Hc). destruct Hf as [->|[[w ->] Hf]]; simpl; [done|].
    unfold BS_set_word. by rewrite wr_bounds by lia.
Qed.

Lemma word_total s i : wf s -> 0 <= i < BS_word_count s -> exists w, BS_word s i = Ok w /\ repw i w (mem s).
Proof. intros Hs Hi. pose proof (word_ok s i Hs Hi) as H. by apply yields_exists in H. Qed.

Lemma word_err s i : wf s -> BS_word_count s <= i -> BS_word s i = Err Bounds.
Proof. intros (Hl & _) Hi. unfold BS_word. apply rd_bounds. lia. Qed.

(** Sizes the code does not check.  [BS_UnionR] reads outside the shorter
    operand whenever the operands differ in size; [BS_IntersectionR] writes
    outside a result that is shorter than both operands; [BS_UniverseD] hits
    the allocator's assertion when it would have to grow, whatever pool it was
    given.  The combined operations check their sizes and stop at the assertion. *)
Theorem bs_size_errors r s1 s2 s3 pool (Hr : wf r) (H1 : wf s1) (H2 : wf s2) (Hp : usable pool) :
  (BS_word_count s1 <> BS_word_count s2 -> BS_UnionR r s1 s2 pool = Err Bounds) /\
  (BS_word_count r < Z.min (BS_word_count s1) (BS_word_count s2) ->
     BS_IntersectionR r s1 s2 = Err Bounds) /\
  (forall size, BS_word_count s1 * W < size <= BS_LIMIT -> BS_UniverseD s1 size pool = Err Assertion) /\
  (BS_word_count s2 <> BS_word_count s3 ->
     BS_3_2_Minus_1_Or_D s1 s2 s3 pool = Err Assertion /\
     BS_2_3_Or_1_Or_D s1 s2 s3 pool = Err Assertion /\
     BS_2_3_Minus_1_Or_D s1 s2 s3 pool = Err Assertion /\
     BS_1_2_Or_3_And_R r s1 s2 s3 pool = Err Assertion /\
     BS_2_1_Minus_3_Or_R r s1 s2 s3 pool = Err Assertion).
Proof.
  pose proof (wf_count _ H1). pose proof (wf_count _ H2). pose proof (wf_count _ Hr). pose proof W_pos.
  split; [|split; [|split]].
  - intros Hne. destruct (H1) as (_ & _ & L1), (H2) as (_ & _ & L2). unfold BS_UnionR.
    pose proof (grow_ok r (Z.max (BS_word_count s1) (BS_word_count s2)) pool Hr ltac:(done) ltac:(nia)) as Hg.
    destruct (grow_to r _ pool) as [t|]; simpl in *; [|done]. destruct Hg as (Hw & Hc & _ & _).
    apply (assign_words_err _ _ (Z.min (BS_word_count s1) (BS_word_count s2))); [done|lia|lia| |].
    + intros i Hi. split; [lia|].
      destruct (word_total s1 i H1) as (a & -> & Ha); [lia|].
      destruct (word_total s2 i H2) as (b & -> & Hb); [lia|]. simpl. eauto using repw_lor.
    + left. destruct (Z.lt_ge_cases (BS_word_count s1) (BS_word_count s2)).
      * by rewrite word_err by (done || lia).
      * destruct (word_total s1 (Z.min (BS_word_count s1) (BS_word_count s2)) H1) as (a & -> & _); [lia|].
        simpl. by rewrite word_err by (done || lia).
  - intros Hlt. unfold BS_IntersectionR. erewrite (assign_words_err _ _ (BS_word_count r)); [done|done|lia|lia| |].
    + intros i Hi. split; [lia|].
      destruct (word_total s1 i H1) as (a & -> & Ha); [lia|].
      destruct (word_total s2 i H2) as (b & -> & Hb); [lia|]. simpl. eauto using repw_land.
    + right. destruct (word_total s1 (BS_word_count r) H1) as (a & -> & Ha); [lia|].
      destruct (word_total s2 (BS_word_count r) H2) as (b & -> & Hb); [lia|]. simpl. eauto with lia.
  - intros size [Hlt Hle]. unfold BS_UniverseD, BS_RangeD, BS_LIMIT in *.
    rewrite !assert_true by lia. simpl. destruct (Z.ltb_spec (size - 1) 0); [nia|].
    rewrite (QBPW_eq (size - 1)) by lia.
    assert (BS_word_count s1 <= (size - 1) / W) by (apply Z.div_le_lower_bound; lia).
    destruct (Z.leb_spec (BS_word_count s1) ((size - 1) / W)); [done|lia].
  - intros Hne. apply Z.eqb_neq in Hne. repeat split.
    + unfold BS_3_2_Minus_1_Or_D. by rewrite Hne.
    + unfold BS_2_3_Or_1_Or_D. by rewrite Hne.
    + unfold BS_2_3_Minus_1_Or_D. by rewrite Hne.
    + unfold BS_1_2_Or_3_And_R. destruct (BS_word_count s2 =? BS_word_count s1) eqn:E; [|done]. simpl.
      destruct (BS_word_count s3 =? BS_word_count s1) eqn:E3; [lia|done].
    + unfold BS_2_1_Minus_3_Or_R. destruct (BS_word_count s1 =? BS_word_count s3); [|done]. simpl. by rewrite Hne.
Qed.

(** ** The 32 bit size computation *)
Lemma word_set_byte_get w j b k :
  0 <= j < BYTES_PER_BS_WORD -> 0 <= k < 8 ->
  Z.testbit (word_byte (word_set_byte w j b) j) k = Z.testbit b k.
Proof.
  intros Hj Hk. rewrite word_byte_bit by done.
  pose proof (word_set_byte_bit w j b (8 * j + k) Hj) as H. unfold wbit, pos in H.
  pose proof W_eq as HW. rewrite (Z.mod_small (8 * j + k) W) in H by lia.
  assert ((8 * j + k) / 8 = j) as E by (Z.div_mod_to_equations; lia).
  assert ((8 * j + k) mod 8 = k) as E' by (Z.div_mod_to_equations; lia).
  by rewrite E, E', Z.eqb_refl in H.
Qed.

(** Reading back a byte that was written. *)
Lemma set_get_byte s i b :
  0 <= i -> i / BYTES_PER_BS_WORD < zlen (BS_words s) ->
  yields (BS_set_byte s i b) (fun t =>
    BS_word_count t = BS_word_count s /\
    yields (BS_byte t i) (fun b' => forall k, 0 <= k < 8 -> Z.testbit b' k = Z.testbit b k)).
Proof.
  intros Hi Hlen. assert (0 < BYTES_PER_BS_WORD) as HB by (pose proof bytes_cases; lia).
  pose proof (Z.div_pos i _ Hi HB) as Hq. pose proof (Z.mod_pos_bound i _ HB) as Hm.
  unfold BS_set_byte, BS_word.
  destruct (zlookup_is_Some (BS_words s) (i / BYTES_PER_BS_WORD)) as [w Hw]; [lia|].
  rewrite (rd_ok _ _ w) by done. simpl. unfold BS_set_word. rewrite wr_ok by lia. simpl. split; [done|].
  unfold BS_byte, BS_word. simpl. rewrite (rd_ok _ _ _ (zlookup_zinsert_eq _ _ _ (conj Hq Hlen))). simpl.
  intros k Hk. by apply word_set_byte_get.
Qed.

Lemma pow2_loop_limit : pow2_loop 64 2 (2 ^ 30 / W + 1) = Ok (2 ^ 31 / W).
Proof. destruct bytes_cases as [(_ & _ & ->)|(_ & _ & ->)]; vm_compute; reflexivity. Qed.

Lemma realloc_limit s pool :
  wf s -> usable pool ->
  yields (bs_Realloc s (2 ^ 30 / W + 1) pool) (fun t =>
    BS_word_count t = 2 ^ 31 / W /\ zlen (BS_words t) = 2 ^ 31 / W).
Proof.
  intros Hs Hp. pose proof (wf_count s Hs) as Hc. destruct (Hs) as (Hl & _ & Hlim).
  assert (BS_word_count s <= 2 ^ 30 / W) as Hle
    by (apply Z.div_le_lower_bound; [apply W_pos|unfold BS_LIMIT in Hlim; lia]).
  assert (2 ^ 30 / W < 2 ^ 31 / W) by (destruct bytes_cases as [(_ & _ & ->)|(_ & _ & ->)]; done).
  unfold bs_Realloc. rewrite assert_true by (by rewrite Hp). rewrite obind_ok.
  destruct (Z.leb_spec (2 ^ 30 / W + 1) (BS_word_count s)); [lia|].
  rewrite pow2_loop_limit, obind_ok.
  set (ws := take _ _ ++ _). assert (zlen ws = 2 ^ 31 / W) as Hws.
  { unfold ws. rewrite zlen_app, zlen_take, zlen_pool_words by lia. lia. }
  destruct (negb (MEM_POOL_Zeroed pool)); [|done].
  eapply yields_bind; [apply clear_tail_ok; [lia|cbn [BS_words]; lia]|].
  intros t (_ & Ht & _). split; [done|]. cbn [BS_words] in *. lia.
Qed.

(** Adding the element [2^30], which [bitset.h] allows, grows the storage to
    [2^31] bits; the element is then a member, but [BS_Choose_Next], whose
    size in bits is computed in 32 bits, reports that there is no element
    after any bound. *)
Theorem bs_choose_next_limit s pool (Hs : wf s) (Hp : usable pool) :
  yields (BS_Union1D s (2 ^ 30) pool) (fun t =>
    BS_MemberP t (2 ^ 30) = Ok true /\
    forall bound, -1 <= bound < INT32_MAX -> BS_Choose_Next t bound = Ok BS_CHOOSE_FAILURE).
Proof.
  destruct (Hs) as (_ & _ & Hlim). unfold BS_LIMIT in Hlim.
  assert (BS_word_count s <= 2 ^ 30 / W) as Hle by (apply Z.div_le_lower_bound; [apply W_pos|lia]).
  assert (2 ^ 30 / 8 / BYTES_PER_BS_WORD < 2 ^ 31 / W /\ 2 ^ 30 / W < 2 ^ 31 / W) as [Hlt Hlt']
    by (destruct bytes_cases as [(_ & -> & ->)|(_ & -> & ->)]; done).
  unfold BS_Union1D. rewrite QBPW_eq, QBPB_eq by lia. rewrite assert_true by done. rewrite obind_ok.
  destruct (Z.ltb_spec (BS_word_count s) (2 ^ 30 / W + 1)); [|lia].
  eapply yields_bind; [by apply realloc_limit|]. intros t (Hc & Hl).
  assert (yields (BS_byte t (2 ^ 30 / 8)) (fun _ => True)) as Hrd.
  { unfold BS_byte, BS_word. destruct (zlookup_is_Some (BS_words t) (2 ^ 30 / 8 / BYTES_PER_BS_WORD)) as [w Hw].
    - rewrite Hl. split; [apply Z.div_pos; [done|pose proof bytes_cases; lia]|done].
    - by rewrite (rd_ok _ _ w). }
  eapply yields_bind; [exact Hrd|]. intros b _.
  eapply yields_mono; [apply set_get_byte; [done|by rewrite Hl]|]. intros u (Hcu & Hbu). split.
  - unfold BS_MemberP. rewrite assert_true by done. rewrite obind_ok, QBPW_eq, QBPB_eq, Hcu, Hc by lia.
    destruct (Z.leb_spec (2 ^ 31 / W) (2 ^ 30 / W)); [lia|].
    destruct (BS_byte u (2 ^ 30 / 8)) as [b'|]; simpl in Hbu; [|done]. rewrite obind_ok. f_equal.
    rewrite mask_bit, Hbu, Z.lor_spec, shl_one_bit, Z.eqb_refl by apply RBPB_range. apply orb_true_r.
  - intros bound Hb. unfold BS_Choose_Next, choose_next, INT32_MAX in *. rewrite Hcu, Hc.
    assert (bs_PBPW (2 ^ 31 / W) = - 2 ^ 31) as ->.
    { unfold bs_PBPW. destruct bytes_cases as [(-> & _ & ->)|(-> & _ & ->)]; reflexivity. }
    rewrite swrap_id by (lia || apply in_s32; lia).
    by destruct (Z.leb_spec (- 2 ^ 31) (bound + 1)); [|lia].
Qed.
End Errors.

(** * Witnesses *)

(** Concrete 32 bit sets: [{2,3,32}], [{1,3}] and [{1,2,32,33}]. *)
#[local] Existing Instance x86_machine.

Ltac solve_wf :=
  split; [reflexivity|split; [repeat constructor; by vm_compute|by vm_compute]].

Definition sample_pool : MEM_POOL := mkPool false false (fun i => 7 + 1000 * i).
Definition sample1 : BS := mkBS 2 [12; 1].
Definition sample2 : BS := mkBS 1 [10].
Definition sample3 : BS := mkBS 2 [6; 3].

Lemma bs_unions_refine_witness :
  yields_set (BS_Union sample1 sample2 sample_pool) (to_set sample1 ∪ to_set sample2) /\
  yields_set (BS_Union1 sample1 70 sample_pool) (to_set sample1 ∪ {[70]}).
Proof.
  destruct (bs_unions_refine sample1 sample2 sample3 sample_pool) as (Hu & _ & _ & _ & H1);
    [solve_wf|solve_wf|solve_wf|reflexivity|].
  destruct (H1 70) as [Hx _]; [split; by vm_compute|]. exact (conj Hu Hx).
Defined.

Lemma bs_meets_refine_witness :
  yields_set (BS_IntersectionR sample3 sample1 sample2) (to_set sample1 ∩ to_set sample2) /\
  to_set sample1 ∩ to_set sample2 = {[3]}.
Proof.
  split; [|by vm_compute].
  destruct (bs_meets_refine sample3 sample1 sample2 sample_pool) as (_ & _ & Hi & _);
    [solve_wf|solve_wf|solve_wf|reflexivity|by vm_compute|exact Hi].
Defined.

Lemma bs_combined_refine_witness :
  yields_set (BS_1_2_Or_3_And_R sample2 sample1 sample3 sample1 sample_pool)
    (from_word 2 (to_set sample2) ∪ ((to_set sample1 ∪ to_set sample3) ∩ to_set sample1)).
Proof.
  destruct (bs_combined_refine 2 sample2 sample1 sample3 sample1 sample1 sample1 sample1 sample_pool)
    as (_ & _ & _ & _ & _ & _ & _ & _ & _ & _ & _ & _ & Hi & _);
    [reflexivity|solve_wf|split; [solve_wf|reflexivity]..|exact Hi].
Defined.

Lemma bs_ranges_refine_witness :
  yields_set (BS_RangeD sample2 5 40 sample_pool) (set_range 5 40).
Proof.
  destruct (bs_ranges_refine sample2 5 40 sample_pool) as (Hi & _);
    [solve_wf|reflexivity|lia|by vm_compute|exact Hi].
Defined.

Lemma bs_storage_refines_witness :
  yields_set (BS_CopyD sample2 sample1 sample_pool) (to_set sample1) /\ to_set sample1 = {[2; 3; 32]}.
Proof.
  split; [|by vm_compute].
  destruct (bs_storage_refines sample2 sample1 65 sample_pool) as (_ & _ & _ & _ & Hi);
    [solve_wf|solve_wf|reflexivity|split; by vm_compute|exact Hi].
Defined.

Lemma bs_tests_decide_witness :
  BS_ContainsP sample1 sample2 = Ok (bool_decide (to_set sample2 ⊆ to_set sample1)) /\
  BS_ContainsP sample1 sample2 = Ok false.
Proof.
  split; [|by vm_compute].
  destruct (bs_tests_decide sample1 sample2 3) as (_ & _ & _ & Hi & _);
    [solve_wf|solve_wf|split; by vm_compute|exact Hi].
Defined.

Lemma bs_size_errors_witness :
  BS_UnionR sample3 sample1 sample2 sample_pool = Err Bounds.
Proof.
  destruct (bs_size_errors sample3 sample1 sample2 sample3 sample_pool) as (Hi & _);
    [solve_wf|solve_wf|solve_wf|reflexivity|apply Hi; by vm_compute].
Defined.

Lemma bs_choose_next_limit_witness :
  yields (BS_Union1D sample2 (2 ^ 30) sample_pool) (fun t =>
    BS_MemberP t (2 ^ 30) = Ok true /\
    forall bound, -1 <= bound < INT32_MAX -> BS_Choose_Next t bound = Ok BS_CHOOSE_FAILURE).
Proof. apply (bs_choose_next_limit sample2 sample_pool); [solve_wf|reflexivity]. Defined.
