(* ===== verification/BitSetChoose.v ===== *)
(** Choosing, enumerating, counting and printing the elements of bit sets:
    the byte-table searches of [common/util/bitset.c] find least elements. *)
From Stdlib Require Import ZArith Lia Bool Btauto.
From stdpp Require Import prelude list gmap strings pretty.
From S2P Require Import Prelude BitSet BitSetFacts BitSetOps.

(** [first_in g lo hi r]: [r] is the least element of [g] in [lo..hi-1]. *)
Definition first_in (g : Z -> bool) (lo hi : Z) (r : option Z) : Prop :=
  match r with
  | Some v => lo <= v < hi /\ g v = true /\ forall x, lo <= x < v -> g x = false
  | None => forall x, lo <= x < hi -> g x = false
  end.

(** The same for a C result, where failure is [BS_CHOOSE_FAILURE]. *)
Definition choice (g : Z -> bool) (lo hi v : Z) : Prop :=
  exists r, first_in g lo hi r /\ v = default BS_CHOOSE_FAILURE r.

Lemma first_in_skip g lo mid hi r :
  lo <= mid -> first_in g lo mid None -> first_in g mid hi r -> first_in g lo hi r.
Proof.
  intros Hm H1 H2. destruct r as [v|]; simpl in *.
  - destruct H2 as (Hv & Hg & H2). repeat split; [lia|lia|done|]. intros x Hx.
    destruct (Z.lt_ge_cases x mid); [apply H1|apply H2]; lia.
  - intros x Hx. destruct (Z.lt_ge_cases x mid); [apply H1|apply H2]; lia.
Qed.

Lemma first_in_widen g lo mid hi v : mid <= hi -> first_in g lo mid (Some v) -> first_in g lo hi (Some v).
Proof. simpl. intros Hm (Hv & Hg & H). repeat split; [lia|lia|done|done]. Qed.

Lemma first_in_ext g g' lo hi r :
  (forall x, lo <= x < hi -> g x = g' x) -> first_in g lo hi r -> first_in g' lo hi r.
Proof.
  intros He. destruct r as [v|]; simpl.
  - intros (Hv & Hg & H). repeat split; [lia|lia|by rewrite <- He by lia|].
    intros x Hx. rewrite <- He by lia. auto.
  - intros H x Hx. rewrite <- He by lia. auto.
Qed.

Lemma first_in_det g lo hi r r' : first_in g lo hi r -> first_in g lo hi r' -> r = r'.
Proof.
  destruct r as [v|], r' as [v'|]; simpl; try done.
  - intros (Hv & Hg & H) (Hv' & Hg' & H'). f_equal.
    destruct (Z.lt_trichotomy v v') as [Hlt|[->|Hlt]]; [|done|].
    + by rewrite H' in Hg by lia.
    + by rewrite H in Hg' by lia.
  - intros (Hv & Hg & _) H. by rewrite H in Hg by lia.
  - intros H (Hv & Hg & _). by rewrite H in Hg by lia.
Qed.

(** A search followed by the rest of the function. *)
Lemma seq_choice g lo mid hi (c : outcome (option Z)) k :
  lo <= mid <= hi -> yields c (first_in g lo mid) -> yields k (choice g mid hi) ->
  yields (let* r := c in return_or r k) (choice g lo hi).
Proof.
  intros Hm Hc Hk. eapply yields_bind; [exact Hc|]. intros [v|] Hv; simpl.
  - exists (Some v). split; [|done]. apply (first_in_widen _ _ mid); [lia|done].
  - eapply yields_mono; [exact Hk|]. intros v (r & Hr & ->). exists r. split; [|done].
    apply (first_in_skip _ _ mid); [lia|done|done].
Qed.

(** The same when the search begins by reading a byte. *)
Lemma seq_choice2 {A} g lo mid hi (c : outcome A) f k :
  lo <= mid <= hi -> yields (let* b := c in f b) (first_in g lo mid) -> yields k (choice g mid hi) ->
  yields (let* b := c in let* r := f b in return_or r k) (choice g lo hi).
Proof.
  intros Hm Hc Hk. destruct c as [b|]; simpl in *; [|done]. by apply (seq_choice _ _ mid).
Qed.

Lemma choice_none g lo hi : hi <= lo -> choice g lo hi BS_CHOOSE_FAILURE.
Proof. intros H. exists None. split; [|done]. simpl. lia. Qed.

Lemma choice_from g lo low hi v :
  lo <= low -> choice (fun x => g x && (low <=? x)) lo hi v -> choice g low hi v.
Proof.
  intros Hl (r & Hr & ->). exists r. split; [|done]. destruct r as [v|]; simpl in *.
  - destruct Hr as (Hv & Hg & H). rewrite andb_true_iff in Hg. repeat split; [lia|lia|tauto|].
    intros x Hx. specialize (H x ltac:(lia)). rewrite andb_false_iff in H. destruct H; [done|lia].
  - intros x Hx. specialize (Hr x ltac:(lia)). rewrite andb_false_iff in Hr. destruct Hr; [done|lia].
Qed.

Lemma choice_upto g low h hi high v :
  h < hi -> h <= high -> (forall x, h < x <= high -> g x = false) ->
  choice (fun x => g x && (x <=? h)) low hi v -> choice g low (high + 1) v.
Proof.
  intros Hh Hhigh Hout (r & Hr & ->). exists r. split; [|done].
  assert (forall x, x <= high -> g x && (x <=? h) = false -> g x = false) as Hf.
  { intros x Hx Hg. destruct (Z.leb_spec x h); [by rewrite andb_true_r in Hg|apply Hout; lia]. }
  destruct r as [v|]; simpl in *.
  - destruct Hr as (Hv & [Hg Hvh]%andb_true_iff & H). repeat split; [lia|lia|done|].
    intros x Hx. apply Hf, H; lia.
  - intros x Hx. destruct (Z.lt_ge_cases x hi); [apply Hf, Hr; lia|apply Hout; lia].
Qed.

(** A loop over blocks of [k] elements, the first one at [c]. *)
Lemma search_blocks_at g c k lo hi body :
  0 < k -> (forall i, lo <= i < hi -> yields (body i) (first_in g (c + i * k) (c + i * k + k))) ->
  yields (search_ lo hi body) (first_in g (c + lo * k) (c + hi * k)).
Proof.
  intros Hk Hb. eapply yields_mono;
    [apply (yields_search (fun i => first_in g (c + i * k) (c + i * k + k) None)
              (fun i v => first_in g (c + i * k) (c + i * k + k) (Some v)))|].
  - intros i Hi. eapply yields_mono; [by apply Hb|]. by intros [v|].
  - assert (forall m, (forall j, lo <= j < m -> first_in g (c + j * k) (c + j * k + k) None) ->
      forall x, c + lo * k <= x < c + m * k -> g x = false) as Hlow.
    { intros m HP x Hx. assert (lo <= (x - c) / k < m) as Hq.
      { split; [apply Z.div_le_lower_bound; lia|apply Z.div_lt_upper_bound; lia]. }
      apply (HP _ Hq). pose proof (Z_div_mod_eq_full (x - c) k). pose proof (Z.mod_pos_bound (x - c) k). lia. }
    intros [v|]; simpl; [|intros HP; by apply Hlow].
    intros (i & Hi & (Hv & Hg & Hl) & HP). repeat split; [nia|nia|done|]. intros x Hx.
    destruct (Z.lt_ge_cases x (c + i * k)); [apply (Hlow i)|apply Hl]; done || lia.
Qed.

Lemma search_blocks g k lo hi body :
  0 < k -> (forall i, lo <= i < hi -> yields (body i) (first_in g (i * k) (i * k + k))) ->
  yields (search_ lo hi body) (first_in g (lo * k) (hi * k)).
Proof. intros Hk Hb. by apply (search_blocks_at g 0 k lo hi body). Qed.

Lemma search_empty {R} lo hi (body : Z -> outcome (option R)) : hi <= lo -> search_ lo hi body = Ok None.
Proof. intros H. unfold search_. by replace (Z.to_nat (hi - lo)) with O by lia. Qed.

(** * The byte tables *)
Definition low_bit_ok (b : Z) : bool :=
  match rd first_one b with
  | Ok f => (0 <=? f) && (f <? 8) && Z.testbit b f && forallb (fun k => negb (Z.testbit b k)) (seqZ 0 f)
  | Err _ => false
  end.

Lemma first_one_ok b : 0 < b < 256 -> yields (rd first_one b) (fun f => first_in (Z.testbit b) 0 8 (Some f)).
Proof.
  intros Hb. assert (forallb low_bit_ok (seqZ 1 255) = true) as H by (vm_compute; reflexivity).
  rewrite forallb_forall in H. specialize (H b). rewrite <- list_elem_of_In, elem_of_seqZ in H.
  specialize (H ltac:(lia)). unfold low_bit_ok in H. destruct (rd first_one b) as [f|]; simpl; [|done].
  rewrite !andb_true_iff, forallb_forall in H. destruct H as [[[H1 H2] H3] H4].
  repeat split; [lia|lia|done|]. intros x Hx. specialize (H4 x).
  rewrite <- list_elem_of_In, elem_of_seqZ in H4. apply negb_true_iff, H4. lia.
Qed.

Lemma found_byte_ok g byte base :
  in_u 8 byte -> (forall k, 0 <= k < 8 -> Z.testbit byte k = g (base + k)) ->
  yields (found_byte byte base) (first_in g base (base + 8)).
Proof.
  intros Hb Hg. unfold found_byte, in_u in *. change (2 ^ 8) with 256 in Hb.
  destruct (Z.eqb_spec byte bs_ZEROS) as [->|Hne]; simpl.
  - intros x Hx. specialize (Hg (x - base) ltac:(lia)). rewrite Z.testbit_0_l in Hg.
    by replace (base + (x - base)) with x in Hg by lia.
  - unfold bs_ZEROS in Hne. eapply yields_bind; [apply first_one_ok; lia|].
    intros f (Hf & Ht & Hl). simpl. repeat split; [lia|lia| |].
    + by rewrite Z.add_comm, <- Hg by lia.
    + intros x Hx. specialize (Hl (x - base) ltac:(lia)). rewrite Hg in Hl by lia.
      by replace (base + (x - base)) with x in Hl by lia.
Qed.

(** * Searching words and bytes *)
Section Choose.
Context `{M : BSMachine}.
Abbreviation W := BITS_PER_BS_WORD.
Abbreviation B := BYTES_PER_BS_WORD.
Ltac sizes := pose proof bytes_cases.

(** A source of words and bytes that present the elements of [g] below [n]
    words: one set, or the intersection of two. *)
Class Readable (n : Z) (word byte_at : Z -> outcome Z) (g : Z -> bool) : Prop := {
  readable_bound : 0 <= n /\ n * W <= BS_LIMIT;
  readable_word : forall i, 0 <= i < n -> yields (word i) (fun w => repw i w g);
  readable_byte : forall i, 0 <= i < n * B ->
    yields (byte_at i) (fun b => in_u 8 b /\ forall k, 0 <= k < 8 -> Z.testbit b k = g (8 * i + k))
}.

Lemma readable_set s : wf s -> Readable (BS_word_count s) (BS_word s) (BS_byte s) (mem s).
Proof.
  intros Hs. pose proof (wf_count s Hs). destruct (Hs) as (_ & _ & Hl).
  split; [done| |]; intros i Hi; [by apply word_ok|by apply byte_ok].
Qed.

Lemma readable_and s1 s2 :
  wf s1 -> wf s2 ->
  Readable (Z.min (BS_word_count s1) (BS_word_count s2)) (word_and s1 s2) (byte_and s1 s2)
    (fun x => mem s1 x && mem s2 x).
Proof.
  intros H1 H2. pose proof (wf_count _ H1). pose proof (wf_count _ H2).
  destruct (H1) as (_ & _ & Hl). pose proof W_pos. assert (0 < B) by (sizes; lia). split.
  - split; [lia|nia].
  - intros i Hi. unfold word_and. rep_words.
  - intros i Hi. unfold byte_and.
    eapply yields_bind; [apply byte_ok; [done|nia]|]. intros a (Ha & Hga).
    eapply yields_bind; [apply byte_ok; [done|nia]|]. intros b (Hb & Hgb).
    simpl. split; [apply in_u_land_l; [lia|done]|]. intros k Hk.
    by rewrite Z.land_spec, Hga, Hgb.
Qed.

Section Searching.
Context (n : Z) (word byte_at : Z -> outcome Z) (g : Z -> bool) {RD : Readable n word byte_at g}.

Lemma index_bounds i : 0 <= i < n -> i * B < 2 ^ 27 /\ n * B <= 2 ^ 27 /\ n * W < 2 ^ 31.
Proof. intros Hi. destruct readable_bound as [_ Hb]. unfold BS_LIMIT in Hb. sizes. nia. Qed.

(** One byte, under any base expression that denotes its first element. *)
Lemma search_byte_ok i base :
  0 <= i < n * B -> base = i * 8 ->
  yields (let* byte := byte_at i in found_byte byte base) (first_in g (i * 8) (i * 8 + 8)).
Proof.
  intros Hi ->. eapply yields_bind; [by apply readable_byte|]. intros b (Hb & Hg).
  apply found_byte_ok; [done|]. intros k Hk. rewrite Hg by done. f_equal. lia.
Qed.

Lemma search_word_bytes_ok i base :
  0 <= i < n -> (forall j, 0 <= j < B -> base j = (j + i * B) * 8) ->
  yields (search_ 0 B (fun j => let* byte := byte_at (j + i * B) in found_byte byte (base j)))
    (first_in g (i * W) (i * W + W)).
Proof.
  intros Hi Hbase. assert (0 < B) by (sizes; lia). pose proof W_eq as HW.
  pose proof (search_blocks_at g (i * W) 8 0 B
    (fun j => let* byte := byte_at (j + i * B) in found_byte byte (base j))) as Hs.
  replace (i * W + 0 * 8) with (i * W) in Hs by lia. replace (i * W + B * 8) with (i * W + W) in Hs by lia.
  apply Hs; [lia|]. intros j Hj. replace (i * W + j * 8) with ((j + i * B) * 8) by lia.
  apply search_byte_ok; [nia|by apply Hbase].
Qed.

Lemma choose_in_word_ok i x :
  0 <= i < n -> 0 <= x -> x / W = i -> g x = true ->
  yields (choose_in_word byte_at i) (first_in g (i * W) (i * W + W)).
Proof.
  intros Hi Hx Hd Hg. unfold choose_in_word. destruct (index_bounds i Hi) as (? & ? & ?).
  assert (0 < B) by (sizes; lia). rewrite PBytesPW_eq by lia.
  eapply yields_bind; [apply search_word_bytes_ok; [done|]|].
  - intros j Hj. rewrite PBPB_eq by nia. lia.
  - intros [v|] Hv; [done|]. simpl in Hv. rewrite Hv in Hg; [done|].
    pose proof (Z_div_mod_eq_full x W). pose proof (mod_W_range x). nia.
Qed.

(** The loop over words of [BS_Choose] and its variants. *)
Lemma choose_words_ok lo :
  0 <= lo ->
  yields (search_ lo n (fun i =>
            let* w := word i in
            if negb (w =? bs_ZEROS) then choose_in_word byte_at i else Ok None))
    (first_in g (lo * W) (n * W)).
Proof.
  intros Hlo. apply search_blocks; [apply W_pos|]. intros i Hi.
  eapply yields_bind; [apply readable_word; lia|]. intros w Hw.
  pose proof (repw_zero_iff i w g ltac:(lia) Hw) as Hz.
  pose proof (search_word_bytes_ok i (fun j => (j + i * B) * 8) ltac:(lia) ltac:(done)) as Hs.
  destruct (Z.eqb_spec w bs_ZEROS) as [E|E]; simpl.
  - intros x Hx. apply Hz; [done|pose proof W_pos; nia|].
    symmetry. apply (Z.div_unique x W i (x - i * W)); lia.
  - destruct (search_ 0 B _) as [[v|]|] eqn:Es; simpl in Hs; [|exfalso|done].
    + destruct Hs as (Hv & Hg & _). apply (choose_in_word_ok i v); [lia|pose proof W_pos; nia| |done].
      symmetry. apply (Z.div_unique v W i (v - i * W)); lia.
    + apply E, Hz. intros x Hx Hd. apply Hs.
      pose proof (Z_div_mod_eq_full x W). pose proof (mod_W_range x). nia.
Qed.

Lemma choose_first_ok :
  yields (let* r := search_ 0 n (fun i =>
            let* w := word i in
            if negb (w =? bs_ZEROS) then choose_in_word byte_at i else Ok None) in
          return_or r (Ok BS_CHOOSE_FAILURE)) (choice g 0 (n * W)).
Proof.
  destruct readable_bound. pose proof W_pos.
  eapply (seq_choice _ _ (n * W)); [nia|by apply choose_words_ok|].
  exists None. split; [|done]. simpl. lia.
Qed.

(** The masks of the first and the last byte. *)
Lemma masked_byte_ok i m (g' : Z -> bool) base :
  0 <= i < n * B -> base = i * 8 ->
  (forall k, 0 <= k < 8 -> Z.testbit m k && g (8 * i + k) = g' (8 * i + k)) ->
  yields (let* b := byte_at i in found_byte (Z.land b m) base) (first_in g' (i * 8) (i * 8 + 8)).
Proof.
  intros Hi -> Hm. eapply yields_bind; [by apply readable_byte|]. intros b (Hb & Hg).
  apply found_byte_ok; [apply in_u_land_l; [lia|done]|]. intros k Hk.
  rewrite Z.land_spec, Hg, andb_comm, Hm by done. f_equal. lia.
Qed.
Lemma masked_byte2_ok i m m' (g' : Z -> bool) base :
  0 <= i < n * B -> base = i * 8 ->
  (forall k, 0 <= k < 8 -> Z.testbit (Z.land m m') k && g (8 * i + k) = g' (8 * i + k)) ->
  yields (let* b := byte_at i in found_byte (Z.land (Z.land b m) m') base)
    (first_in g' (i * 8) (i * 8 + 8)).
Proof.
  intros Hi Hb Hm. pose proof (masked_byte_ok i (Z.land m m') g' base Hi Hb Hm) as H.
  destruct (byte_at i) as [b|]; simpl in *; [|done]. by rewrite <- Z.land_assoc.
Qed.

Lemma elem_bytes x :
  0 <= x < n * W -> 0 <= x / 8 < n * B /\ 0 <= x / W < n /\ (x / 8 + 1) * 8 <= (x / W + 1) * W <= n * W /\
    x / 8 * 8 <= x < x / 8 * 8 + 8 /\ (x / W + 1) * W = (x / W + 1) * B * 8.
Proof.
  intros Hx. pose proof W_eq as HW. assert (0 < B) by (sizes; lia).
  rewrite <- (div_W_B x), HW in *. pose proof (Z_div_mod_eq_full x 8). pose proof (mod8_range x).
  pose proof (Z_div_mod_eq_full (x / 8) B). pose proof (Z.mod_pos_bound (x / 8) B ltac:(done)).
  assert (0 <= x / 8 < n * B) by lia. assert (0 <= x / 8 / B) by (apply Z.div_pos; lia).
  assert (x / 8 / B < n) by (apply Z.div_lt_upper_bound; lia).
  repeat split; try lia; nia.
Qed.

Lemma search_bytes_ok lo hi base (g' : Z -> bool) :
  0 <= lo -> hi <= n * B -> (forall i, lo <= i < hi -> base i = i * 8) ->
  (forall x, lo * 8 <= x < hi * 8 -> g x = g' x) ->
  yields (search_ lo hi (fun i => let* byte := byte_at i in found_byte byte (base i)))
    (first_in g' (lo * 8) (hi * 8)).
Proof.
  intros Hlo Hhi Hb He. eapply yields_mono; [apply (search_blocks g 8); [lia|]|].
  - intros i Hi. apply search_byte_ok; [lia|by apply Hb].
  - intros r. by apply first_in_ext.
Qed.

(** [choose_next] finds the least element after [bound]. *)
Lemma choose_next_ok bound :
  -1 <= bound < INT32_MAX -> yields (choose_next n word byte_at bound) (choice g (bound + 1) (n * W)).
Proof.
  intros Hb. unfold choose_next, INT32_MAX in *.
  destruct readable_bound as [Hn HnW]. unfold BS_LIMIT in HnW.
  rewrite swrap_id by (lia || apply in_s32; lia). rewrite (PBPW_eq n) by lia.
  destruct (Z.leb_spec (n * W) (bound + 1)); [by apply choice_none|].
  set (low := bound + 1) in *. destruct (elem_bytes low) as (Hq8 & HqW & Hm & Hr & HB); [lia|].
  assert (n * B <= 2 ^ 27) by (apply (index_bounds (low / W)); lia).
  rewrite QBPB_eq, QBPW_eq, RBPB_eq by lia.
  eapply yields_mono; [|intros v; apply (choice_from g (low / 8 * 8)); lia].
  apply (seq_choice2 _ _ (low / 8 * 8 + 8)); [lia| |].
  { apply masked_byte_ok; [lia|rewrite PBPB_eq; lia|]. intros k Hk.
    rewrite shl_ones_bit by (done || apply mod8_range). rewrite andb_comm. f_equal.
    pose proof (Z_div_mod_eq_full low 8). lia. }
  apply (seq_choice _ _ ((low / W + 1) * B * 8)); [lia| |].
  { replace (low / 8 * 8 + 8) with ((low / 8 + 1) * 8) by lia. apply search_bytes_ok; [lia|nia| |].
    - intros i Hi. rewrite PBPB_eq by nia. lia.
    - intros x Hx. replace (low <=? x) with true by lia. by rewrite andb_true_r. }
  rewrite <- HB. apply (seq_choice _ _ (n * W)); [lia| |].
  { eapply yields_mono; [apply choose_words_ok; lia|]. intros r. apply first_in_ext.
    intros x Hx. replace (low <=? x) with true by lia. by rewrite andb_true_r. }
  apply choice_none. lia.
Qed.
End Searching.

Lemma block_between a b i : a / W < i -> i < b / W -> a < i * W /\ i * W + W <= b.
Proof.
  intros Ha Hb. pose proof (Z_div_mod_eq_full a W). pose proof (mod_W_range a).
  pose proof (Z_div_mod_eq_full b W). pose proof (mod_W_range b). nia.
Qed.

Lemma block_order a b : a / W < b / W -> (a / W + 1) * W <= b / W * W.
Proof. intros H. pose proof W_pos. nia. Qed.

Lemma word_start_byte a : a / W * W = a / W * B * 8 /\ a / W * B <= a / 8 < (a / W + 1) * B.
Proof.
  pose proof W_eq. assert (0 < B) by (sizes; lia). split; [lia|]. rewrite <- div_W_B.
  pose proof (Z_div_mod_eq_full (a / 8) B). pose proof (Z.mod_pos_bound (a / 8) B ltac:(done)). lia.
Qed.

Section Range.
Context (s : BS) (low high : Z) (Hs : wf s) (Hl : 0 <= low <= high) (Hh : high < BS_word_count s * W).
Abbreviation n := (BS_word_count s).

(** The elements that [BS_Choose_Range] may return. *)
Definition in_range_of (x : Z) : bool := mem s x && (x <=? high) && (low <=? x).

Ltac range_facts :=
  pose proof (readable_set s Hs) as RD;
  destruct (readable_bound (Readable := RD)) as [Hn HnW]; unfold BS_LIMIT in HnW;
  destruct (elem_bytes n low ltac:(lia)) as (Hl8 & HlW & Hlm & Hlr & HlB);
  destruct (elem_bytes n high ltac:(lia)) as (Hh8 & HhW & Hhm & Hhr & HhB);
  assert (n * B <= 2 ^ 27) as HnB by (apply (index_bounds n _ _ _ (low / W)); lia);
  pose proof (Z_div_mod_eq_full low 8) as El; pose proof (Z_div_mod_eq_full high 8) as Eh;
  pose proof (Z.div_le_mono low high 8 ltac:(lia) ltac:(lia)) as Hle8;
  pose proof (Z.div_le_mono low high W W_pos ltac:(lia)) as HleW;
  pose proof (mod8_range low) as Ml; pose proof (mod8_range high) as Mh.

(** Between the first and the last byte every element counts. *)
Lemma in_range_inner x : low <= x <= high -> mem s x = in_range_of x.
Proof. intros Hx. unfold in_range_of. replace (x <=? high) with true by lia. replace (low <=? x) with true by lia. by rewrite !andb_true_r. Qed.

Lemma choose_range_last :
  low / 8 < high / 8 ->
  yields (let* b := BS_byte s (high / 8) in
          let* r := found_byte (Z.land b (Z.shiftr bs_ONES ((W - 1) - high mod 8))) (bs_PBPB (high / 8)) in
          return_or r (Ok BS_CHOOSE_FAILURE)) (choice in_range_of (high / 8 * 8) (high / 8 * 8 + 8)).
Proof.
  intros Hlt. range_facts. apply (seq_choice2 _ _ (high / 8 * 8 + 8)); [lia| |apply choice_none; lia].
  eapply masked_byte_ok; [exact RD|lia|rewrite PBPB_eq; lia|]. intros k Hk.
  rewrite shr_ones_bit by done. unfold in_range_of. replace (low <=? 8 * (high / 8) + k) with true by lia.
  rewrite andb_true_r, andb_comm. f_equal. lia.
Qed.

(** The words between, and the bytes of the last word before the last byte. *)
Lemma choose_range_middle k :
  low / W < high / W ->
  yields k (choice in_range_of (high / 8 * 8) (high / 8 * 8 + 8)) ->
  yields (let* r := search_ (low / W + 1) (high / W) (fun i =>
                  let* w := BS_word s i in
                  if negb (w =? bs_ZEROS)
                  then search_ 0 BYTES_PER_BS_WORD (fun j =>
                         let* byte := BS_byte s (j + i * BYTES_PER_BS_WORD) in
                         found_byte byte (bs_PBPB j + bs_PBPW i))
                  else Ok None) in
          return_or r (
          let* r := search_ (high / W * B) (high / 8) (fun i =>
                  let* byte := BS_byte s i in found_byte byte (8 * i)) in
          return_or r k)) (choice in_range_of ((low / W + 1) * W) (high / 8 * 8 + 8)).
Proof.
  intros Hlt Hk. range_facts. pose proof (block_order _ _ Hlt) as Hord.
  destruct (word_start_byte high) as [Hst Hsb]. pose proof W_pos as HW0.
  apply (seq_choice _ _ (high / W * W)); [lia| |].
  - apply search_blocks; [apply W_pos|]. intros i Hi.
    assert (forall x, i * W <= x < i * W + W -> mem s x = in_range_of x) as Hin.
    { intros x Hx. apply in_range_inner. pose proof (block_between low high i). lia. }
    assert (0 <= i) by lia.
    eapply yields_bind; [apply word_ok; [done|lia]|]. intros w Hw.
    pose proof (repw_zero_iff i w (mem s) ltac:(lia) Hw) as Hz.
    destruct (Z.eqb_spec w bs_ZEROS) as [E|E]; simpl.
    + intros x Hx. rewrite <- Hin by done. pose proof (Z.mul_nonneg_nonneg i W).
      apply Hz; [done|lia|]. symmetry. apply (Z.div_unique x W i (x - i * W)); lia.
    + eapply yields_mono; [eapply search_word_bytes_ok; [exact RD|lia|]|].
      * intros j Hj. pose proof (block_between low high i). pose proof W_eq. sizes.
        rewrite PBPB_eq, PBPW_eq by lia. lia.
      * intros r. by apply first_in_ext.
  - rewrite Hst in *. apply (seq_choice _ _ (high / 8 * 8)); [lia| |done].
    eapply search_bytes_ok; [exact RD|lia|lia|lia|].
    intros x Hx. apply in_range_inner. lia.
Qed.

Lemma choose_range_bytes_ok :
  yields (BS_Choose_Range s low high) (choice in_range_of (low / 8 * 8) (high / 8 * 8 + 8)).
Proof.
  range_facts.
  unfold BS_Choose_Range. rewrite !assert_true by lia. simpl obind. rewrite (PBPW_eq n) by lia.
  destruct (Z.ltb_spec (n * W - 1) high); [lia|]. destruct (Z.ltb_spec high low); [lia|].
  rewrite !QBPB_eq, !QBPW_eq, !RBPB_eq by lia.
  destruct (Z.eqb_spec (low / 8) (high / 8)) as [Heq|Hne].
  - apply (seq_choice2 _ _ (low / 8 * 8 + 8)); [lia| |apply choice_none; lia].
    eapply masked_byte2_ok; [exact RD|lia|rewrite PBPB_eq; lia|]. intros k Hk.
    rewrite Z.land_spec, shl_ones_bit, shr_ones_bit by done. unfold in_range_of.
    rewrite (andb_comm _ (mem s _)), <- andb_assoc. f_equal. lia.
  - apply (seq_choice2 _ _ (low / 8 * 8 + 8)); [lia| |].
    { eapply masked_byte_ok; [exact RD|lia|rewrite PBPB_eq; lia|]. intros k Hk.
      rewrite shl_ones_bit by done. unfold in_range_of.
      replace (8 * (low / 8) + k <=? high) with true by lia. rewrite andb_true_r, andb_comm. f_equal. lia. }
    set (E1 := if high / 8 <=? _ then _ else _).
    pose proof (choose_range_last ltac:(lia)) as Hlast.
    destruct (word_start_byte low) as [_ Hsl], (word_start_byte high) as [_ Hsh].
    destruct (Z.eq_dec (low / W) (high / W)) as [HW|HW].
    + assert (E1 + 1 = high / 8) as -> by (unfold E1; rewrite HW; destruct (Z.leb_spec (high / 8) ((high / W + 1) * B - 1)); lia).
      apply (seq_choice _ _ (high / 8 * 8)); [lia| |].
      * replace (low / 8 * 8 + 8) with ((low / 8 + 1) * 8) by lia.
        eapply search_bytes_ok; [exact RD|lia|lia| |].
        -- intros i Hi. rewrite PBPB_eq; lia.
        -- intros x Hx. apply in_range_inner. lia.
      * rewrite (search_empty (low / W + 1)) by lia. simpl return_or.
        rewrite Z.max_l, HW, search_empty by lia. exact Hlast.
    + pose proof (block_order low high ltac:(lia)) as Hord.
      destruct (word_start_byte high) as [Hst _].
      assert (E1 + 1 = (low / W + 1) * B) as ->
        by (unfold E1; destruct (Z.leb_spec (high / 8) ((low / W + 1) * B - 1)); lia).
      apply (seq_choice _ _ ((low / W + 1) * B * 8)); [lia| |].
      * replace (low / 8 * 8 + 8) with ((low / 8 + 1) * 8) by lia.
        eapply search_bytes_ok; [exact RD|lia|lia| |].
        -- intros i Hi. rewrite PBPB_eq; lia.
        -- intros x Hx. apply in_range_inner. lia.
      * rewrite <- HlB, Z.max_r by lia. apply choose_range_middle; [lia|exact Hlast].
Qed.
End Range.
End Choose.
