(* ===== verification/BitSetEnum.v ===== *)
(** What the choosing functions of [common/util/bitset.c] promise: least
    elements, enumeration in ascending order, cardinality, the printed form,
    and the limit of the 32 bit size computation. *)
From Stdlib Require Import ZArith Lia Bool Btauto.
From stdpp Require Import prelude list gmap strings pretty sorting.
From S2P Require Import Prelude BitSet BitSetFacts BitSetOps BitSetChoose.

(** [v] is the least element of [X], or the failure value if [X] is empty. *)
Definition is_least (X : gset Z) (v : Z) : Prop :=
  (X = ∅ /\ v = BS_CHOOSE_FAILURE) \/ (v ∈ X /\ forall x, x ∈ X -> v <= x).

Lemma choice_is_least g lo hi X v :
  (forall x, x ∈ X <-> lo <= x < hi /\ g x = true) -> choice g lo hi v -> is_least X v.
Proof.
  intros HX (r & Hr & ->). destruct r as [v|]; simpl in *.
  - right. destruct Hr as (Hv & Hg & Hl). split; [by apply HX|]. intros x [Hx Hgx]%HX.
    destruct (Z.le_gt_cases v x); [done|]. by rewrite Hl in Hgx by lia.
  - left. split; [|done]. apply set_eq. intros x. rewrite HX. split.
    + intros [Hx Hg]. by rewrite Hr in Hg.
    + by intros ?%not_elem_of_empty.
Qed.

(** The loop that [bitset.h] documents for visiting the elements of a set:
    [for (elt = BS_Choose(set); elt != BS_CHOOSE_FAILURE; elt =
    BS_Choose_Next(set, elt))], collecting what the body sees. *)
Fixpoint visit `{BSMachine} (fuel : nat) (set : BS) (elt : Z) : outcome (list Z) :=
  if elt =? BS_CHOOSE_FAILURE then Ok []
  else match fuel with
       | O => Err Timeout
       | S f =>
           let* next := BS_Choose_Next set elt in
           let* rest := visit f set next in
           Ok (elt :: rest)
       end.

Definition visit_all `{BSMachine} (fuel : nat) (set : BS) : outcome (list Z) :=
  let* elt := BS_Choose set in visit fuel set elt.

(** * Elements as sorted lists *)
Definition members_in (g : Z -> bool) (lo hi : Z) : list Z := filter (fun x => g x = true) (seqZ lo (hi - lo)).

Lemma elem_of_members_in g lo hi x : x ∈ members_in g lo hi <-> lo <= x < hi /\ g x = true.
Proof. unfold members_in. rewrite list_elem_of_filter, elem_of_seqZ. intuition lia. Qed.

Lemma members_in_split g lo mid hi :
  lo <= mid <= hi -> members_in g lo hi = members_in g lo mid ++ members_in g mid hi.
Proof.
  intros H. unfold members_in. rewrite <- filter_app. f_equal.
  replace (hi - lo) with ((mid - lo) + (hi - mid)) by lia. rewrite seqZ_app by lia.
  by replace (lo + (mid - lo)) with mid by lia.
Qed.

Lemma members_in_none g lo hi : (forall x, lo <= x < hi -> g x = false) -> members_in g lo hi = [].
Proof.
  intros H. destruct (members_in g lo hi) as [|x l] eqn:E; [done|].
  assert (x ∈ members_in g lo hi) as [Hx Hg]%elem_of_members_in by (rewrite E; left).
  by rewrite H in Hg.
Qed.

Lemma members_in_cons g lo hi : lo < hi ->
  members_in g lo hi = (if g lo then [lo] else []) ++ members_in g (lo + 1) hi.
Proof.
  intros H. rewrite (members_in_split g lo (lo + 1) hi) by lia. f_equal. unfold members_in.
  replace (lo + 1 - lo) with 1 by lia. rewrite seqZ_cons by lia. simpl. rewrite filter_cons.
  destruct (g lo); [by rewrite decide_True|by rewrite decide_False].
Qed.

Lemma first_in_members g lo hi r :
  first_in g lo hi r ->
  match r with
  | Some v => lo <= v < hi /\ members_in g lo hi = v :: members_in g (v + 1) hi
  | None => members_in g lo hi = []
  end.
Proof.
  destruct r as [v|]; simpl; [|apply members_in_none].
  intros (Hv & Hg & Hl). split; [done|]. rewrite (members_in_split g lo v hi) by lia.
  rewrite (members_in_none g lo v) by done. rewrite members_in_cons by lia. by rewrite Hg.
Qed.

Lemma members_in_sorted g lo hi : StronglySorted Z.lt (members_in g lo hi).
Proof.
  remember (Z.to_nat (hi - lo)) as n eqn:Hn. revert lo Hn.
  induction n as [|n IH]; intros lo Hn.
  - rewrite members_in_none by lia. constructor.
  - rewrite members_in_cons by lia. destruct (g lo); simpl; [|apply IH; lia].
    constructor; [apply IH; lia|]. apply Forall_forall. intros x [Hx _]%elem_of_members_in. lia.
Qed.

Lemma members_in_NoDup g lo hi : NoDup (members_in g lo hi).
Proof. apply NoDup_filter, NoDup_seqZ. Qed.

Section Enum.
Context `{M : BSMachine}.
Abbreviation W := BITS_PER_BS_WORD.
Abbreviation B := BYTES_PER_BS_WORD.

(** The elements of [s] in ascending order. *)
Definition members (s : BS) : list Z := members_in (mem s) 0 (BS_word_count s * W).

Lemma choose_ok s : wf s -> yields (BS_Choose s) (choice (mem s) 0 (BS_word_count s * W)).
Proof. intros Hs. eapply choose_first_ok, readable_set, Hs. Qed.

Lemma choose_next_set_ok s bound :
  wf s -> -1 <= bound < INT32_MAX ->
  yields (BS_Choose_Next s bound) (choice (mem s) (bound + 1) (BS_word_count s * W)).
Proof. intros Hs Hb. eapply choose_next_ok; [by apply readable_set|done]. Qed.

Lemma choose_range_ok s low high :
  wf s -> 0 <= low <= high + 1 -> high <= INT32_MAX ->
  yields (BS_Choose_Range s low high) (choice (mem s) low (high + 1)).
Proof.
  intros Hs Hl Hh. pose proof (wf_count s Hs). destruct (Hs) as (_ & _ & Hlim). unfold BS_LIMIT in Hlim.
  assert (forall x, BS_word_count s * W - 1 < x -> mem s x = false) as Hout.
  { intros x Hx. destruct (mem s x) eqn:E; [|done]. pose proof (mem_bounds s x E). lia. }
  set (h := Z.min high (BS_word_count s * W - 1)).
  assert ((if BS_word_count s * W - 1 <? high then BS_word_count s * W - 1 else high) = h) as Hclip.
  { unfold h. destruct (Z.ltb_spec (BS_word_count s * W - 1) high); lia. }
  destruct (Z.lt_ge_cases h low) as [Hlt|Hge].
  - unfold BS_Choose_Range. rewrite !assert_true by lia. simpl obind. rewrite PBPW_eq, Hclip by lia.
    destruct (Z.ltb_spec h low); [|lia]. exists None. split; [|done]. intros x Hx. apply Hout. lia.
  - assert (BS_Choose_Range s low high = BS_Choose_Range s low h) as ->.
    { unfold BS_Choose_Range. rewrite !assert_true by lia. simpl obind. rewrite PBPW_eq, Hclip by lia.
      by destruct (Z.ltb_spec (BS_word_count s * W - 1) h); [lia|]. }
    eapply yields_mono; [apply choose_range_bytes_ok; [done|lia|lia]|].
    pose proof (Z_div_mod_eq_full low 8). pose proof (mod8_range low).
    pose proof (Z_div_mod_eq_full h 8). pose proof (mod8_range h).
    intros v Hv. apply (choice_from _ _ low) in Hv; [|lia].
    apply (choice_upto _ _ h (h / 8 * 8 + 8)); [lia|lia| |done].
    intros x Hx. apply Hout. lia.
Qed.

(** [BS_Choose], [BS_Choose_Range] and [BS_Choose_Next] return the least
    element of the set, of the set within [low..high], and of the set above
    [bound], and [BS_CHOOSE_FAILURE] exactly when there is none. *)
Theorem bs_choose_least s low high bound
    (Hs : wf s) (Hl : 0 <= low <= high + 1) (Hh : high <= INT32_MAX) (Hb : -1 <= bound < INT32_MAX) :
  yields (BS_Choose s) (is_least (to_set s)) /\
  yields (BS_Choose_Range s low high) (is_least (filter (fun x => low <= x <= high) (to_set s))) /\
  yields (BS_Choose_Next s bound) (is_least (filter (fun x => bound < x) (to_set s))).
Proof.
  split; [|split].
  - eapply yields_mono; [by apply choose_ok|]. intros v. apply choice_is_least. intros x.
    rewrite elem_of_to_set. pose proof (mem_bounds s x). tauto.
  - eapply yields_mono; [by apply choose_range_ok|]. intros v. apply choice_is_least. intros x.
    rewrite elem_of_filter, elem_of_to_set. intuition lia.
  - eapply yields_mono; [by apply choose_next_set_ok|]. intros v. apply choice_is_least. intros x.
    rewrite elem_of_filter, elem_of_to_set. pose proof (mem_bounds s x). intuition lia.
Qed.

(** [BS_Intersection_Choose] and [BS_Intersection_Choose_Next] do the same
    for the intersection of two sets of any sizes, without building it. *)
Theorem bs_intersection_choose_least s1 s2 bound
    (H1 : wf s1) (H2 : wf s2) (Hb : -1 <= bound < INT32_MAX) :
  yields (BS_Intersection_Choose s1 s2) (is_least (to_set s1 ∩ to_set s2)) /\
  yields (BS_Intersection_Choose_Next s1 s2 bound)
    (is_least (filter (fun x => bound < x) (to_set s1 ∩ to_set s2))).
Proof.
  pose proof (readable_and s1 s2 H1 H2) as RD.
  assert (forall x, mem s1 x && mem s2 x = true ->
    0 <= x < Z.min (BS_word_count s1) (BS_word_count s2) * W) as Hbd.
  { intros x [Ha%mem_bounds Hb']%andb_true_iff. apply mem_bounds in Hb'. pose proof W_pos. nia. }
  split.
  - unfold BS_Intersection_Choose. rewrite min_if. eapply yields_mono; [by eapply choose_first_ok|].
    intros v. apply choice_is_least. intros x. specialize (Hbd x).
    rewrite elem_of_intersection, !elem_of_to_set, <- andb_true_iff. tauto.
  - unfold BS_Intersection_Choose_Next. rewrite min_if.
    eapply yields_mono; [by eapply choose_next_ok|].
    intros v. apply choice_is_least. intros x. specialize (Hbd x).
    rewrite elem_of_filter, elem_of_intersection, !elem_of_to_set, <- andb_true_iff. intuition lia.
Qed.

(** * Enumeration *)
(** One step of a client loop: what [v] tells about the elements from [lo] on. *)
Lemma choice_step s lo v :
  wf s -> 0 <= lo -> choice (mem s) lo (BS_word_count s * W) v ->
  (v = BS_CHOOSE_FAILURE /\ members_in (mem s) lo (BS_word_count s * W) = []) \/
  (lo <= v < 2 ^ 30 /\ members_in (mem s) lo (BS_word_count s * W) =
     v :: members_in (mem s) (v + 1) (BS_word_count s * W)).
Proof.
  intros (_ & _ & Hlim) Hlo (r & Hr & ->). unfold BS_LIMIT in Hlim.
  apply first_in_members in Hr. destruct r as [v|]; [right|by left].
  destruct Hr as [Hv Heq]. split; [simpl; lia|done].
Qed.

Lemma visit_ok fuel s lo v :
  wf s -> 0 <= lo -> choice (mem s) lo (BS_word_count s * W) v ->
  (length (members_in (mem s) lo (BS_word_count s * W)) <= fuel)%nat ->
  visit fuel s v = Ok (members_in (mem s) lo (BS_word_count s * W)).
Proof.
  intros Hs. revert lo v. induction fuel as [|fuel IH]; intros lo v Hlo Hc;
    destruct (choice_step s lo v Hs Hlo Hc) as [[-> ->]|[Hv ->]]; intros Hf.
  - done.
  - simpl in Hf. lia.
  - done.
  - cbn [visit]. unfold BS_CHOOSE_FAILURE. destruct (Z.eqb_spec v (-1)); [lia|].
    pose proof (choose_next_set_ok s v Hs ltac:(unfold INT32_MAX; lia)) as Hn.
    destruct (BS_Choose_Next s v) as [w|]; simpl in *; [|done].
    rewrite (IH (v + 1) w); [done|lia|done|lia].
Qed.

Lemma members_to_set s : list_to_set (members s) = to_set s.
Proof.
  apply set_eq. intros x. unfold members. rewrite elem_of_list_to_set, elem_of_members_in, elem_of_to_set.
  pose proof (mem_bounds s x). tauto.
Qed.

(** C20. The documented loop visits every element of the set exactly once, in
    ascending order, and stops: with as many iterations allowed as the set has
    elements it returns the sorted list of the elements.  The representation invariant [wf]
    keeps the capacity within 2^30 bits, beyond which [BS_Choose_Next] fails
    ([bs_choose_next_limit]). *)
Theorem bs_visit_enumerates s fuel (Hs : wf s) (Hf : (size (to_set s) <= fuel)%nat) :
  exists l, visit_all fuel s = Ok l /\ StronglySorted Z.lt l /\ list_to_set l = to_set s.
Proof.
  exists (members s). pose proof (members_to_set s) as Hset.
  split; [|split; [apply members_in_sorted|done]]. unfold visit_all.
  pose proof (choose_ok s Hs) as Hc. destruct (BS_Choose s) as [v|]; simpl in *; [|done].
  apply visit_ok; [done|lia|done|].
  rewrite <- Hset, size_list_to_set in Hf; [done|]. apply members_in_NoDup.
Qed.

(** * Counting *)
Definition byte_ones (b : Z) : Z := Z.of_nat (length (filter (fun k => Z.testbit b k = true) (seqZ 0 8))).

Lemma bit_count_ok b : in_u 8 b -> rd bit_count b = Ok (byte_ones b).
Proof.
  intros Hb. unfold in_u in Hb. change (2 ^ 8) with 256 in Hb.
  assert (forallb (fun b => bool_decide (rd bit_count b = Ok (byte_ones b))) (seqZ 0 256) = true) as H
    by (vm_compute; reflexivity).
  rewrite forallb_forall in H. specialize (H b). rewrite <- list_elem_of_In, elem_of_seqZ in H.
  specialize (H ltac:(lia)). by apply bool_decide_eq_true in H.
Qed.

Definition count_in (g : Z -> bool) (lo hi : Z) : Z := Z.of_nat (length (members_in g lo hi)).

Lemma count_in_bounds g lo hi : lo <= hi -> 0 <= count_in g lo hi <= hi - lo.
Proof.
  intros H. unfold count_in, members_in. pose proof (length_filter (fun x => g x = true) (seqZ lo (hi - lo))) as Hl.
  rewrite length_seqZ in Hl. lia.
Qed.

Lemma count_in_cons g lo hi : lo < hi -> count_in g lo hi = (if g lo then 1 else 0) + count_in g (lo + 1) hi.
Proof. intros H. unfold count_in. rewrite members_in_cons by done. destruct (g lo); simpl; lia. Qed.

Lemma count_in_split g lo mid hi :
  lo <= mid <= hi -> count_in g lo hi = count_in g lo mid + count_in g mid hi.
Proof. intros H. unfold count_in. rewrite (members_in_split g lo mid hi), length_app by done. lia. Qed.

Lemma count_in_shift f g c n (i : nat) :
  (forall k, 0 <= k < n -> f k = g (c + k)) -> Z.of_nat i <= n ->
  count_in f (n - Z.of_nat i) n = count_in g (c + (n - Z.of_nat i)) (c + n).
Proof.
  intros H. induction i as [|i IH]; intros Hi.
  - unfold count_in. by rewrite !members_in_none by lia.
  - rewrite (count_in_cons f), (count_in_cons g), H by lia. f_equal.
    replace (n - Z.of_nat (S i) + 1) with (n - Z.of_nat i) by lia.
    replace (c + (n - Z.of_nat (S i)) + 1) with (c + (n - Z.of_nat i)) by lia. apply IH. lia.
Qed.

(** A byte holds the elements of [g] among eight consecutive ones. *)
Lemma byte_ones_count g b c :
  (forall k, 0 <= k < 8 -> Z.testbit b k = g (c + k)) -> byte_ones b = count_in g c (c + 8).
Proof.
  intros H. pose proof (count_in_shift (Z.testbit b) g c 8 8 H ltac:(lia)) as E.
  replace (c + (8 - Z.of_nat 8)) with c in E by lia. exact E.
Qed.

(** [BS_Size], the sum of a byte table, is the number of elements. *)
Theorem bs_size_cardinality s (Hs : wf s) : BS_Size s = Ok (Z.of_nat (size (to_set s))).
Proof.
  pose proof (wf_count s Hs). destruct (Hs) as (_ & _ & Hlim). unfold BS_LIMIT in Hlim.
  pose proof W_eq as HW. pose proof bytes_cases.
  assert (0 <= BS_word_count s * B < 2 ^ 28) as HB by nia.
  unfold BS_Size. rewrite swrap_id by (lia || apply in_s32; lia).
  apply yields_eq.
  eapply yields_bind; [apply (yields_for (fun i n => n = count_in (mem s) 0 (i * 8))); [lia| |]|].
  - unfold count_in. by rewrite members_in_none by lia.
  - intros i n Hi ->. eapply yields_bind; [by apply byte_ok|]. intros b (Hb & Hg).
    rewrite bit_count_ok by done. simpl.
    rewrite (byte_ones_count (mem s) b (8 * i)) by done.
    replace ((i + 1) * 8) with (8 * i + 8) by lia. replace (i * 8) with (8 * i) by lia.
    rewrite (count_in_split _ 0 (8 * i) (8 * i + 8)) by lia.
    pose proof (count_in_bounds (mem s) 0 (8 * i)). pose proof (count_in_bounds (mem s) (8 * i) (8 * i + 8)).
    apply uwrap_id. split; lia.
  - intros n ->. simpl. replace (BS_word_count s * B * 8) with (BS_word_count s * W) by lia.
    pose proof (count_in_bounds (mem s) 0 (BS_word_count s * W)).
    rewrite swrap_id by (lia || apply in_s32; lia).
    rewrite <- members_to_set, size_list_to_set by apply members_in_NoDup. done.
Qed.

(** * Printing *)

(** The text of a range, and of a list of ranges. *)
Definition show_range (r : Z * Z) : string :=
  if (fst r =? snd r)%Z then pretty (fst r) else (pretty (fst r) +:+ "-" +:+ pretty (snd r))%string.

Fixpoint show_ranges (rs : list (Z * Z)) : string :=
  match rs with
  | [] => ""
  | [r] => show_range r
  | r :: rs' => (show_range r +:+ "," +:+ show_ranges rs')%string
  end.

(** [rs] are the maximal intervals of the ascending list [l]. *)
Definition covers (rs : list (Z * Z)) (l : list Z) : Prop :=
  concat ((fun r => seqZ (fst r) (snd r - fst r + 1)) <$> rs) = l.
Fixpoint maximal (rs : list (Z * Z)) : Prop :=
  match rs with
  | r1 :: (r2 :: _) as rs' => fst r1 <= snd r1 /\ snd r1 + 1 < fst r2 /\ maximal rs'
  | [r1] => fst r1 <= snd r1
  | [] => True
  end.

Lemma string_app_assoc (a b c : string) : ((a +:+ b) +:+ c = a +:+ (b +:+ c))%string.
Proof. induction a as [|x a IH]; [done|]. exact (f_equal (String x) IH). Qed.

Lemma seqZ_1 x : seqZ x 1 = [x].
Proof. by rewrite seqZ_cons by lia. Qed.

Lemma PrintRange_eq out low high first :
  PrintRange out low high first =
  (((if first then out else (out +:+ ",")%string) +:+ show_range (low, high))%string, false).
Proof. by destruct first. Qed.

Lemma covers_cons r rs l l' : covers rs l -> l = l' -> covers (r :: rs) (seqZ r.1 (r.2 - r.1 + 1) ++ l').
Proof. intros H <-. unfold covers in *. rewrite fmap_cons. cbn [concat]. by rewrite H. Qed.

(** The state of the printing loop: the open range is [rf..elt], the ranges
    before it are in [out]. *)
Lemma print_loop_ok fuel s elt rf out first :
  wf s -> 0 <= rf <= elt -> elt < 2 ^ 30 ->
  (length (members_in (mem s) (elt + 1) (BS_word_count s * W)) < fuel)%nat ->
  exists rs, print_loop fuel s elt rf elt out first =
      Ok ((if first then out else (out +:+ ",")) +:+ show_ranges rs +:+ "}")%string /\
    covers rs (seqZ rf (elt - rf + 1) ++ members_in (mem s) (elt + 1) (BS_word_count s * W)) /\
    maximal rs /\ exists r rs', rs = r :: rs' /\ fst r = rf.
Proof.
  intros Hs. revert elt rf out first.
  induction fuel as [|fuel IH]; intros elt rf out first Hrf Helt Hf; [lia|].
  cbn [print_loop]. pose proof (choose_next_set_ok s elt Hs ltac:(unfold INT32_MAX; lia)) as Hn.
  destruct (BS_Choose_Next s elt) as [v|]; [|done]. rewrite obind_ok. simpl in Hn.
  destruct (choice_step s (elt + 1) v Hs ltac:(lia) Hn) as [[-> E]|[Hv E]]; rewrite E in *.
  - rewrite Z.eqb_refl, PrintRange_eq. exists [(rf, elt)]. split; [|split; [|split]].
    + simpl. by rewrite string_app_assoc.
    + unfold covers. simpl. done.
    + simpl. lia.
    + by eexists _, _.
  - unfold BS_CHOOSE_FAILURE. destruct (Z.eqb_spec v (-1)); [lia|]. simpl in Hf.
    destruct (Z.eqb_spec v (elt + 1)) as [->|Hne]; simpl negb; cbv iota.
    + destruct (IH (elt + 1) rf out first) as (rs & -> & Hc & Hm & Hhd); [lia|lia|lia|].
      exists rs. split; [done|split; [|done]]. unfold covers in *. rewrite Hc.
      replace (elt + 1 - rf + 1) with ((elt - rf + 1) + 1) by lia. rewrite seqZ_app by lia.
      rewrite <- app_assoc. f_equal. rewrite seqZ_1.
      by replace (rf + (elt - rf + 1)) with (elt + 1) by lia.
    + rewrite PrintRange_eq.
      destruct (IH v v ((if first then out else (out +:+ ",")%string) +:+ show_range (rf, elt))%string false)
        as (rs & -> & Hc & Hm & r & rs' & -> & Hfst); [lia|lia|lia|].
      exists ((rf, elt) :: r :: rs'). split; [|split; [|split]].
      * simpl. rewrite !string_app_assoc. done.
      * eapply (covers_cons (rf, elt)); [exact Hc|]. replace (v - v + 1) with 1 by lia. by rewrite seqZ_1.
      * split; [simpl; lia|split; [simpl; lia|exact Hm]].
      * by eexists _, _.
Qed.

(** [BS_Print] writes ["<NULL>"] for a null pointer, and otherwise, between
    braces and separated by commas, the maximal intervals of the set in
    ascending order, one number for an interval of one element. *)
Theorem bs_print_intervals s fuel (Hs : wf s) (Hf : (size (to_set s) <= fuel)%nat) :
  BS_Print fuel None = Ok "<NULL>"%string /\
  exists rs, BS_Print fuel (Some s) = Ok ("{" +:+ show_ranges rs +:+ "}")%string /\
    covers rs (members s) /\ maximal rs.
Proof.
  split; [done|]. unfold BS_Print.
  rewrite <- members_to_set, size_list_to_set in Hf by apply members_in_NoDup.
  pose proof (choose_ok s Hs) as Hc. destruct (BS_Choose s) as [v|]; [|done]. simpl in Hc. rewrite obind_ok.
  unfold members in *. destruct (choice_step s 0 v Hs ltac:(lia) Hc) as [[-> E]|[Hv E]]; rewrite E in *.
  - exists []. done.
  - unfold BS_CHOOSE_FAILURE. destruct (Z.eqb_spec v (-1)); [lia|]. simpl in Hf.
    destruct (print_loop_ok fuel s v v "{"%string true Hs) as (rs & -> & Hcov & Hm & _); [lia|lia|lia|].
    exists rs. split; [done|split; [|done]]. unfold covers in *. rewrite Hcov.
    replace (v - v + 1) with 1 by lia. by rewrite seqZ_1.
Qed.
End Enum.

(** * Witnesses: [{2,3,32}] and [{1,3}] in 32 bit words *)
#[local] Existing Instance x86_machine.

Ltac solve_wf :=
  split; [reflexivity|split; [repeat constructor; by vm_compute|by vm_compute]].

Definition set_a : BS := mkBS 2 [12; 1].
Definition set_b : BS := mkBS 1 [10].

Lemma bs_choose_least_witness :
  yields (BS_Choose_Range set_a 4 40) (is_least (filter (fun x => 4 <= x <= 40) (to_set set_a))) /\
  BS_Choose_Range set_a 4 40 = Ok 32.
Proof.
  split; [|by vm_compute].
  destruct (bs_choose_least set_a 4 40 3) as (_ & Hr & _);
    [solve_wf|lia|by vm_compute|split; by vm_compute|exact Hr].
Defined.

Lemma bs_intersection_choose_least_witness :
  yields (BS_Intersection_Choose_Next set_a set_b 1)
    (is_least (filter (fun x => 1 < x) (to_set set_a ∩ to_set set_b))) /\
  BS_Intersection_Choose_Next set_a set_b 1 = Ok 3.
Proof.
  split; [|by vm_compute].
  destruct (bs_intersection_choose_least set_a set_b 1) as (_ & Hr);
    [solve_wf|solve_wf|split; by vm_compute|exact Hr].
Defined.

Lemma bs_visit_enumerates_witness :
  (exists l, visit_all 3 set_a = Ok l /\ StronglySorted Z.lt l /\ list_to_set l = to_set set_a) /\
  visit_all 3 set_a = Ok [2; 3; 32].
Proof.
  split; [|by vm_compute]. apply (bs_visit_enumerates set_a 3); [solve_wf|].
  apply Nat.leb_le. by vm_compute.
Defined.

Lemma bs_size_cardinality_witness : BS_Size set_a = Ok 3.
Proof. rewrite (bs_size_cardinality set_a) by solve_wf. by vm_compute. Defined.

Lemma bs_print_intervals_witness :
  (exists rs, BS_Print 3 (Some set_a) = Ok ("{" +:+ show_ranges rs +:+ "}")%string /\
    covers rs (members set_a) /\ maximal rs) /\ BS_Print 3 (Some set_a) = Ok "{2-3,32}"%string.
Proof.
  split; [|by vm_compute]. destruct (bs_print_intervals set_a 3) as [_ H]; [solve_wf| |exact H].
  apply Nat.leb_le. by vm_compute.
Defined.
