(* ===== verification/Leb128.v ===== *)
(** LEB128: the model of the eight files [libelfutil/leb{en,de}code{s,u}{32,64}.c].

    A buffer is a list of bytes ([0..255]); the encoders write into the
    caller's buffer, and a write outside it is [Err Bounds].  The decoders
    return the value that the code stores through its second argument,
    together with the length it returns.  They are unrolled in the code and
    are written out the same way here. *)
From Stdlib Require Import ZArith Lia Bool.
From stdpp Require Import prelude list.
From S2P Require Import Prelude.

(** * Encoders

    The 32 and the 64 bit encoders have the same text; the machine type of
    [number] shows in the range of the argument. *)
Fixpoint unsigned_encode_loop (fuel : nat) (number : Z) (buffer : list Z) (bufPtr : Z)
    : outcome (Z * list Z) :=
  match fuel with
  | O => Err Timeout
  | S f =>
      let byte := Z.land number 0x7f in
      let number := Z.shiftr number 7 in
      if negb (number =? 0) then
        let byte := Z.lor byte 0x80 in
        let* buffer := wr buffer bufPtr byte in
        unsigned_encode_loop f number buffer (bufPtr + 1)
      else
        let* buffer := wr buffer bufPtr byte in
        Ok (bufPtr + 1, buffer)
  end.

Fixpoint signed_encode_loop (fuel : nat) (sign number : Z) (buffer : list Z) (bufPtr : Z)
    : outcome (Z * list Z) :=
  match fuel with
  | O => Err Timeout
  | S f =>
      let byte := Z.land number 0x7f in
      let number := Z.shiftr number 7 in
      if (number =? sign) && (Z.land byte 0x40 =? Z.land sign 0x40) then
        let* buffer := wr buffer bufPtr byte in
        Ok (bufPtr + 1, buffer)
      else
        let byte := Z.lor byte 0x80 in
        let* buffer := wr buffer bufPtr byte in
        signed_encode_loop f sign number buffer (bufPtr + 1)
  end.

(** The loops have no bound in the code; the encodings are never longer than
    [leb_fuel] bytes. *)
Definition leb_fuel : nat := 10.

Definition _leb128_unsigned_encode32 (number : Z) (buffer : list Z) : outcome (Z * list Z) :=
  unsigned_encode_loop leb_fuel number buffer 0.
Definition _leb128_unsigned_encode64 (number : Z) (buffer : list Z) : outcome (Z * list Z) :=
  unsigned_encode_loop leb_fuel number buffer 0.
Definition _leb128_signed_encode32 (number : Z) (buffer : list Z) : outcome (Z * list Z) :=
  let sign := if number <? 0 then -1 else 0 in
  signed_encode_loop leb_fuel sign number buffer 0.
Definition _leb128_signed_encode64 (number : Z) (buffer : list Z) : outcome (Z * list Z) :=
  let sign := if number <? 0 then -1 else 0 in
  signed_encode_loop leb_fuel sign number buffer 0.

(** * Decoders *)

(** [byte & 0x80] is set *)
Definition more (byte : Z) : bool := negb (Z.land byte 0x80 =? 0).

(** [*(data + i) & 0x7f] *)
Definition get7 (data : list Z) (i : Z) : outcome Z :=
  let* b := rd data i in Ok (Z.land b 0x7f).

(** [lvalue |= ( *(data + i) & 0x7f) << shift], converted by [cast] to the type
    of [lvalue] *)
Definition or7 (cast : Z -> Z) (data : list Z) (i shift lvalue : Z) : outcome Z :=
  let* b := get7 data i in Ok (cast (Z.lor lvalue (Z.shiftl b shift))).

(** [if (byte & 0x40) lvalue |= - (1 << bits)] *)
Definition sign_extend (cast : Z -> Z) (byte bits lvalue : Z) : Z :=
  if negb (Z.land byte 0x40 =? 0) then cast (Z.lor lvalue (- Z.shiftl 1 bits)) else lvalue.

Definition _leb128_unsigned_decode32 (data : list Z) : outcome (Z * Z) :=
  let* byte := rd data 0 in
  if negb (more byte) then Ok (byte, 1)
  else
  let* next := rd data 1 in
  if negb (more next) then
    let* lvalue := get7 data 0 in
    let* lvalue := or7 (uwrap 32) data 1 7 lvalue in
    Ok (lvalue, 2)
  else
  let* next := rd data 2 in
  if negb (more next) then
    let* lvalue := get7 data 0 in
    let* lvalue := or7 (uwrap 32) data 1 7 lvalue in
    let* lvalue := or7 (uwrap 32) data 2 14 lvalue in
    Ok (lvalue, 3)
  else
  let* next := rd data 3 in
  if negb (more next) then
    let* lvalue := get7 data 0 in
    let* lvalue := or7 (uwrap 32) data 1 7 lvalue in
    let* lvalue := or7 (uwrap 32) data 2 14 lvalue in
    let* lvalue := or7 (uwrap 32) data 3 21 lvalue in
    Ok (lvalue, 4)
  else
  let* lvalue := get7 data 0 in
  let* lvalue := or7 (uwrap 32) data 1 7 lvalue in
  let* lvalue := or7 (uwrap 32) data 2 14 lvalue in
  let* lvalue := or7 (uwrap 32) data 3 21 lvalue in
  let* lvalue := or7 (uwrap 32) data 4 28 lvalue in
  Ok (lvalue, 5).

Definition _leb128_unsigned_decode64 (data : list Z) : outcome (Z * Z) :=
  let* byte := rd data 0 in
  if negb (more byte) then Ok (byte, 1)
  else
  let* next := rd data 1 in
  if negb (more next) then
    let* lvalue := get7 data 0 in
    let* lvalue := or7 (uwrap 64) data 1 7 lvalue in
    Ok (lvalue, 2)
  else
  let* next := rd data 2 in
  if negb (more next) then
    let* lvalue := get7 data 0 in
    let* lvalue := or7 (uwrap 64) data 1 7 lvalue in
    let* lvalue := or7 (uwrap 64) data 2 14 lvalue in
    Ok (lvalue, 3)
  else
  let* next := rd data 3 in
  if negb (more next) then
    let* lvalue := get7 data 0 in
    let* lvalue := or7 (uwrap 64) data 1 7 lvalue in
    let* lvalue := or7 (uwrap 64) data 2 14 lvalue in
    let* lvalue := or7 (uwrap 64) data 3 21 lvalue in
    Ok (lvalue, 4)
  else
  let* next := rd data 4 in
  if negb (more next) then
    let* lvalue := get7 data 0 in
    let* lvalue := or7 (uwrap 64) data 1 7 lvalue in
    let* lvalue := or7 (uwrap 64) data 2 14 lvalue in
    let* lvalue := or7 (uwrap 64) data 3 21 lvalue in
    let* lvalue := or7 (uwrap 64) data 4 28 lvalue in
    Ok (lvalue, 5)
  else
  let* next := rd data 5 in
  if negb (more next) then
    let* lvalue := get7 data 0 in
    let* lvalue := or7 (uwrap 64) data 1 7 lvalue in
    let* lvalue := or7 (uwrap 64) data 2 14 lvalue in
    let* lvalue := or7 (uwrap 64) data 3 21 lvalue in
    let* lvalue := or7 (uwrap 64) data 4 28 lvalue in
    let* lvalue := or7 (uwrap 64) data 5 35 lvalue in
    Ok (lvalue, 6)
  else
  let* next := rd data 6 in
  if negb (more next) then
    let* lvalue := get7 data 0 in
    let* lvalue := or7 (uwrap 64) data 1 7 lvalue in
    let* lvalue := or7 (uwrap 64) data 2 14 lvalue in
    let* lvalue := or7 (uwrap 64) data 3 21 lvalue in
    let* lvalue := or7 (uwrap 64) data 4 28 lvalue in
    let* lvalue := or7 (uwrap 64) data 5 35 lvalue in
    let* lvalue := or7 (uwrap 64) data 6 42 lvalue in
    Ok (lvalue, 7)
  else
  let* next := rd data 7 in
  if negb (more next) then
    let* lvalue := get7 data 0 in
    let* lvalue := or7 (uwrap 64) data 1 7 lvalue in
    let* lvalue := or7 (uwrap 64) data 2 14 lvalue in
    let* lvalue := or7 (uwrap 64) data 3 21 lvalue in
    let* lvalue := or7 (uwrap 64) data 4 28 lvalue in
    let* lvalue := or7 (uwrap 64) data 5 35 lvalue in
    let* lvalue := or7 (uwrap 64) data 6 42 lvalue in
    let* lvalue := or7 (uwrap 64) data 7 49 lvalue in
    Ok (lvalue, 8)
  else
  let* next := rd data 8 in
  if negb (more next) then
    let* lvalue := get7 data 0 in
    let* lvalue := or7 (uwrap 64) data 1 7 lvalue in
    let* lvalue := or7 (uwrap 64) data 2 14 lvalue in
    let* lvalue := or7 (uwrap 64) data 3 21 lvalue in
    let* lvalue := or7 (uwrap 64) data 4 28 lvalue in
    let* lvalue := or7 (uwrap 64) data 5 35 lvalue in
    let* lvalue := or7 (uwrap 64) data 6 42 lvalue in
    let* lvalue := or7 (uwrap 64) data 7 49 lvalue in
    let* lvalue := or7 (uwrap 64) data 8 56 lvalue in
    Ok (lvalue, 9)
  else
  let* lvalue := get7 data 0 in
  let* lvalue := or7 (uwrap 64) data 1 7 lvalue in
  let* lvalue := or7 (uwrap 64) data 2 14 lvalue in
  let* lvalue := or7 (uwrap 64) data 3 21 lvalue in
  let* lvalue := or7 (uwrap 64) data 4 28 lvalue in
  let* lvalue := or7 (uwrap 64) data 5 35 lvalue in
  let* lvalue := or7 (uwrap 64) data 6 42 lvalue in
  let* lvalue := or7 (uwrap 64) data 7 49 lvalue in
  let* lvalue := or7 (uwrap 64) data 8 56 lvalue in
  let* lvalue := or7 (uwrap 64) data 9 63 lvalue in
  Ok (lvalue, 10).

Definition _leb128_signed_decode32 (data : list Z) : outcome (Z * Z) :=
  let* byte := rd data 0 in
  if negb (more byte) then Ok (sign_extend (swrap 32) byte 7 byte, 1)
  else
  let* next := rd data 1 in
  if negb (more next) then
    let* lvalue := get7 data 0 in
    let* byte := rd data 1 in
    let* lvalue := or7 (swrap 32) data 1 7 lvalue in
    Ok (sign_extend (swrap 32) byte 14 lvalue, 2)
  else
  let* next := rd data 2 in
  if negb (more next) then
    let* lvalue := get7 data 0 in
    let* lvalue := or7 (swrap 32) data 1 7 lvalue in
    let* byte := rd data 2 in
    let* lvalue := or7 (swrap 32) data 2 14 lvalue in
    Ok (sign_extend (swrap 32) byte 21 lvalue, 3)
  else
  let* next := rd data 3 in
  if negb (more next) then
    let* lvalue := get7 data 0 in
    let* lvalue := or7 (swrap 32) data 1 7 lvalue in
    let* lvalue := or7 (swrap 32) data 2 14 lvalue in
    let* byte := rd data 3 in
    let* lvalue := or7 (swrap 32) data 3 21 lvalue in
    Ok (sign_extend (swrap 32) byte 28 lvalue, 4)
  else
  let* lvalue := get7 data 0 in
  let* lvalue := or7 (swrap 32) data 1 7 lvalue in
  let* lvalue := or7 (swrap 32) data 2 14 lvalue in
  let* lvalue := or7 (swrap 32) data 3 21 lvalue in
  let* lvalue := or7 (swrap 32) data 4 28 lvalue in
  Ok (lvalue, 5).

Definition _leb128_signed_decode64 (data : list Z) : outcome (Z * Z) :=
  let* byte := rd data 0 in
  if negb (more byte) then Ok (sign_extend (swrap 64) byte 7 byte, 1)
  else
  let* next := rd data 1 in
  if negb (more next) then
    let* lvalue := get7 data 0 in
    let* byte := rd data 1 in
    let* lvalue := or7 (swrap 64) data 1 7 lvalue in
    Ok (sign_extend (swrap 64) byte 14 lvalue, 2)
  else
  let* next := rd data 2 in
  if negb (more next) then
    let* lvalue := get7 data 0 in
    let* lvalue := or7 (swrap 64) data 1 7 lvalue in
    let* byte := rd data 2 in
    let* lvalue := or7 (swrap 64) data 2 14 lvalue in
    Ok (sign_extend (swrap 64) byte 21 lvalue, 3)
  else
  let* next := rd data 3 in
  if negb (more next) then
    let* lvalue := get7 data 0 in
    let* lvalue := or7 (swrap 64) data 1 7 lvalue in
    let* lvalue := or7 (swrap 64) data 2 14 lvalue in
    let* byte := rd data 3 in
    let* lvalue := or7 (swrap 64) data 3 21 lvalue in
    Ok (sign_extend (swrap 64) byte 28 lvalue, 4)
  else
  let* next := rd data 4 in
  if negb (more next) then
    let* lvalue := get7 data 0 in
    let* lvalue := or7 (swrap 64) data 1 7 lvalue in
    let* lvalue := or7 (swrap 64) data 2 14 lvalue in
    let* lvalue := or7 (swrap 64) data 3 21 lvalue in
    let* byte := rd data 4 in
    let* lvalue := or7 (swrap 64) data 4 28 lvalue in
    Ok (sign_extend (swrap 64) byte 35 lvalue, 5)
  else
  let* next := rd data 5 in
  if negb (more next) then
    let* lvalue := get7 data 0 in
    let* lvalue := or7 (swrap 64) data 1 7 lvalue in
    let* lvalue := or7 (swrap 64) data 2 14 lvalue in
    let* lvalue := or7 (swrap 64) data 3 21 lvalue in
    let* lvalue := or7 (swrap 64) data 4 28 lvalue in
    let* byte := rd data 5 in
    let* lvalue := or7 (swrap 64) data 5 35 lvalue in
    Ok (sign_extend (swrap 64) byte 42 lvalue, 6)
  else
  let* next := rd data 6 in
  if negb (more next) then
    let* lvalue := get7 data 0 in
    let* lvalue := or7 (swrap 64) data 1 7 lvalue in
    let* lvalue := or7 (swrap 64) data 2 14 lvalue in
    let* lvalue := or7 (swrap 64) data 3 21 lvalue in
    let* lvalue := or7 (swrap 64) data 4 28 lvalue in
    let* lvalue := or7 (swrap 64) data 5 35 lvalue in
    let* byte := rd data 6 in
    let* lvalue := or7 (swrap 64) data 6 42 lvalue in
    Ok (sign_extend (swrap 64) byte 49 lvalue, 7)
  else
  let* next := rd data 7 in
  if negb (more next) then
    let* lvalue := get7 data 0 in
    let* lvalue := or7 (swrap 64) data 1 7 lvalue in
    let* lvalue := or7 (swrap 64) data 2 14 lvalue in
    let* lvalue := or7 (swrap 64) data 3 21 lvalue in
    let* lvalue := or7 (swrap 64) data 4 28 lvalue in
    let* lvalue := or7 (swrap 64) data 5 35 lvalue in
    let* lvalue := or7 (swrap 64) data 6 42 lvalue in
    let* byte := rd data 7 in
    let* lvalue := or7 (swrap 64) data 7 49 lvalue in
    Ok (sign_extend (swrap 64) byte 56 lvalue, 8)
  else
  let* next := rd data 8 in
  if negb (more next) then
    let* lvalue := get7 data 0 in
    let* lvalue := or7 (swrap 64) data 1 7 lvalue in
    let* lvalue := or7 (swrap 64) data 2 14 lvalue in
    let* lvalue := or7 (swrap 64) data 3 21 lvalue in
    let* lvalue := or7 (swrap 64) data 4 28 lvalue in
    let* lvalue := or7 (swrap 64) data 5 35 lvalue in
    let* lvalue := or7 (swrap 64) data 6 42 lvalue in
    let* lvalue := or7 (swrap 64) data 7 49 lvalue in
    let* byte := rd data 8 in
    let* lvalue := or7 (swrap 64) data 8 56 lvalue in
    Ok (if negb (Z.land byte 64 =? 0) then swrap 64 (Z.lor lvalue (Z.shiftl 1 63)) else lvalue, 9)
  else
  let* lvalue := get7 data 0 in
  let* lvalue := or7 (swrap 64) data 1 7 lvalue in
  let* lvalue := or7 (swrap 64) data 2 14 lvalue in
  let* lvalue := or7 (swrap 64) data 3 21 lvalue in
  let* lvalue := or7 (swrap 64) data 4 28 lvalue in
  let* lvalue := or7 (swrap 64) data 5 35 lvalue in
  let* lvalue := or7 (swrap 64) data 6 42 lvalue in
  let* lvalue := or7 (swrap 64) data 7 49 lvalue in
  let* lvalue := or7 (swrap 64) data 8 56 lvalue in
  let* lvalue := or7 (swrap 64) data 9 63 lvalue in
  Ok (lvalue, 10).

(** * Reference semantics *)

(** The number that a list of septets stands for. *)
Fixpoint leb_value (l : list Z) : Z :=
  match l with
  | [] => 0
  | b :: l' => b mod 128 + 128 * leb_value l'
  end.

Definition leb_signed_value (l : list Z) : Z :=
  leb_value l - (if Z.testbit (List.last l 0) 6 then 2 ^ (7 * zlen l) else 0).

Definition bytes_ok (data : list Z) : Prop := Forall (in_u 8) data.

(** The bytes of the first number in [data], at most [max] of them: bytes that
    say that more follows, and one that does not. *)
Fixpoint leb_prefix (max : nat) (data : list Z) : list Z :=
  match max, data with
  | O, _ | _, [] => []
  | S m, b :: d => if more b then b :: leb_prefix m d else [b]
  end.

(** [data] holds a whole number, or [max] bytes. *)
Fixpoint leb_complete (max : nat) (data : list Z) : bool :=
  match max, data with
  | O, _ => true
  | S _, [] => false
  | S m, b :: d => if more b then leb_complete m d else true
  end.

(** * The decoders compute the reference *)
Lemma land_127 b : Z.land b 127 = b mod 128.
Proof. change 127 with (Z.ones 7). by rewrite Z.land_ones. Qed.

Lemma lor_add v t : Z.land v t = 0 -> Z.lor v t = v + t.
Proof. intros H. pose proof (Z.add_lor_land v t). lia. Qed.

Lemma land_shift_0 v s t : 0 <= s -> 0 <= v < 2 ^ s -> Z.land v (Z.shiftl t s) = 0.
Proof.
  intros Hs Hv. apply Z.bits_inj'. intros n Hn. rewrite Z.land_spec, Z.testbit_0_l.
  destruct (Z.lt_ge_cases n s).
  - by rewrite Z.shiftl_spec_low, andb_false_r.
  - by rewrite (testbit_high s v) by (done || lia).
Qed.

Lemma lor_add_shift v s t : 0 <= s -> 0 <= v < 2 ^ s -> Z.lor v (Z.shiftl t s) = v + 2 ^ s * t.
Proof.
  intros Hs Hv. rewrite lor_add by (by apply land_shift_0).
  rewrite Z.shiftl_mul_pow2 by done. lia.
Qed.

(** The single-bit tests. *)
Lemma land_bit_0 b k : 0 <= k -> (Z.land b (2 ^ k) =? 0) = negb (Z.testbit b k).
Proof.
  intros Hk. destruct (Z.testbit b k) eqn:E; simpl.
  - apply Z.eqb_neq. intros H. apply (f_equal (fun x => Z.testbit x k)) in H.
    by rewrite Z.land_spec, E, Z.pow2_bits_true, Z.testbit_0_l in H by done.
  - apply Z.eqb_eq, Z.bits_inj'. intros n Hn. rewrite Z.land_spec, Z.pow2_bits_eqb, Z.testbit_0_l by done.
    destruct (Z.eqb_spec k n) as [<-|]; [by rewrite E|apply andb_false_r].
Qed.

Lemma more_testbit b : more b = Z.testbit b 7.
Proof. unfold more. change 128 with (2 ^ 7). rewrite land_bit_0 by lia. apply negb_involutive. Qed.

Lemma more_false b : in_u 8 b -> more b = false -> b = b mod 128.
Proof.
  rewrite more_testbit. unfold in_u. intros Hb H. rewrite Z.testbit_false in H by lia.
  change (2 ^ 8) with 256 in Hb. change (2 ^ 7) with 128 in H. Z.div_mod_to_equations. lia.
Qed.

(** One unrolled step. *)
Lemma or7_step cast data i s v b :
  rd data i = Ok b -> 0 <= s -> 0 <= v < 2 ^ s -> or7 cast data i s v = Ok (cast (v + 2 ^ s * (b mod 128))).
Proof.
  intros Hb Hs Hv. unfold or7, get7. rewrite Hb. simpl. by rewrite land_127, lor_add_shift.
Qed.

Lemma sign_extend_eq cast byte bits v :
  0 <= bits -> 0 <= v < 2 ^ bits ->
  sign_extend cast byte bits v = if Z.testbit byte 6 then cast (v - 2 ^ bits) else v.
Proof.
  intros Hb Hv. unfold sign_extend. change 64 with (2 ^ 6). rewrite land_bit_0, negb_involutive by lia.
  destruct (Z.testbit byte 6); [|done]. f_equal.
  replace (- Z.shiftl 1 bits) with (Z.shiftl (-1) bits) by (rewrite !Z.shiftl_mul_pow2 by done; lia).
  rewrite lor_add_shift by done. lia.
Qed.

Lemma mod128_range b : 0 <= b mod 128 < 128.
Proof. apply Z.mod_pos_bound. lia. Qed.

Lemma swrap_add_multiple w x k : 0 < w -> swrap w (x + k * 2 ^ w) = swrap w x.
Proof.
  intros Hw. unfold swrap. replace (x + k * 2 ^ w + 2 ^ (w - 1)) with (x + 2 ^ (w - 1) + k * 2 ^ w) by lia.
  by rewrite Z.mod_add by lia.
Qed.

(** * Evaluating the unrolled code *)

Lemma leb_complete_cons m b d :
  leb_complete (S m) (b :: d) = if more b then leb_complete m d else true.
Proof. done. Qed.

Lemma leb_prefix_cons m b d : leb_prefix (S m) (b :: d) = if more b then b :: leb_prefix m d else [b].
Proof. done. Qed.

Lemma leb_prefix_1 b d : leb_prefix 1 (b :: d) = [b].
Proof. simpl. by destruct (more b). Qed.

Ltac rd_eval := match goal with
  | |- context [obind (rd ?l ?i) ?k] =>
      let v := eval vm_compute in (rd l i) in
      change (obind (rd l i) k) with (obind v k); rewrite obind_ok; cbv beta
  end.

(** One [lvalue |= ...]. *)
Ltac or7_eval := match goal with
  | |- context [or7 ?c ?l ?i ?s ?v] =>
      let b := eval vm_compute in (rd l i) in
      match b with Ok ?x =>
        rewrite (or7_step c l i s v x eq_refl) by (simpl; lia); rewrite obind_ok; cbv beta;
        try (rewrite (uwrap_id 32 (v + 2 ^ s * (x mod 128))) by (unfold in_u; simpl; lia));
        try (rewrite (uwrap_id 64 (v + 2 ^ s * (x mod 128))) by (unfold in_u; simpl; lia));
        try (rewrite (swrap_id 32 (v + 2 ^ s * (x mod 128))) by (unfold in_s; simpl; lia));
        try (rewrite (swrap_id 64 (v + 2 ^ s * (x mod 128))) by (unfold in_s; simpl; lia))
      end
  end.

Ltac get7_eval := unfold get7; rd_eval; rewrite land_127, obind_ok; cbv beta.

(** Follows the code's test of the next byte. *)
Ltac leb_byte :=
  match goal with
  | H : leb_complete _ ?d = true |- _ =>
      let b := fresh "b" in let d' := fresh "d" in let M := fresh "M" in
      destruct d as [|b d']; [discriminate H|]; pose proof (mod128_range b);
      rewrite leb_complete_cons in H; rewrite leb_prefix_cons; rd_eval;
      destruct (more b) eqn:M; simpl negb; cbv iota in *
  end.

(** The last byte, which the code does not test. *)
Ltac leb_last :=
  match goal with
  | H : leb_complete 1 ?d = true |- _ =>
      let b := fresh "b" in let d' := fresh "d" in
      destruct d as [|b d']; [discriminate H|]; pose proof (mod128_range b); rewrite leb_prefix_1
  end.

Ltac leb_run close :=
  first [ leb_byte; [leb_run close | first [get7_eval; repeat first [or7_eval | rd_eval] | idtac]; close]
        | leb_last; get7_eval; repeat first [or7_eval | rd_eval]; close ].

(** Closing a branch: both sides are the same polynomial in the septets. *)
Lemma Ok_pair_eq {A B} (a a' : A) (b b' : B) : a = a' -> b = b' -> Ok (a, b) = Ok (a', b').
Proof. by intros -> ->. Qed.

Ltac close_unsigned w :=
  apply Ok_pair_eq; [|reflexivity]; cbn [leb_value];
  first [ f_equal; lia
        | rewrite (uwrap_id w) by (unfold in_u; simpl; lia); simpl; lia
        | rewrite (uwrap_id w) by (unfold in_u; simpl; lia);
          match goal with Hb : bytes_ok (?b :: _), M : more ?b = false |- _ =>
            rewrite (more_false b (Forall_inv Hb) M) at 1; simpl; lia end ].

Lemma unsigned_decode32_ok data :
  bytes_ok data -> leb_complete 5 data = true ->
  _leb128_unsigned_decode32 data = Ok (uwrap 32 (leb_value (leb_prefix 5 data)), zlen (leb_prefix 5 data)).
Proof. intros Hb H. unfold _leb128_unsigned_decode32. leb_run ltac:(close_unsigned 32). Qed.

Lemma unsigned_decode64_ok data :
  bytes_ok data -> leb_complete 10 data = true ->
  _leb128_unsigned_decode64 data = Ok (uwrap 64 (leb_value (leb_prefix 10 data)), zlen (leb_prefix 10 data)).
Proof. intros Hb H. unfold _leb128_unsigned_decode64. leb_run ltac:(close_unsigned 64). Qed.

(** The signed decoders differ from the unsigned ones in the sign extension of
    the last byte, which the modular conversion absorbs in the longest form. *)
Lemma sign_extend_swrap w byte bits v :
  0 < w -> 0 <= bits < w -> 0 <= v < 2 ^ bits ->
  sign_extend (swrap w) byte bits v = swrap w (v - if Z.testbit byte 6 then 2 ^ bits else 0).
Proof.
  intros Hw Hb Hv. rewrite sign_extend_eq by lia. destruct (Z.testbit byte 6); [done|].
  rewrite Z.sub_0_r, swrap_id; [done|done|]. split; [lia|].
  apply Z.lt_le_trans with (2 ^ bits); [lia|]. apply Z.pow_le_mono_r; lia.
Qed.

Lemma sign_bit_swrap byte v :
  0 <= v < 2 ^ 63 ->
  (if negb (Z.land byte 64 =? 0) then swrap 64 (Z.lor v (Z.shiftl 1 63)) else v) =
  swrap 64 (v - if Z.testbit byte 6 then 2 ^ 63 else 0).
Proof.
  intros Hv. change 64 with (2 ^ 6) at 1. rewrite land_bit_0, negb_involutive by lia.
  destruct (Z.testbit byte 6).
  - rewrite lor_add_shift by lia. rewrite <- (swrap_add_multiple 64 _ (-1)) by lia. f_equal. lia.
  - rewrite Z.sub_0_r, swrap_id; [done|lia|]. unfold in_s. simpl. lia.
Qed.

Lemma swrap_drop w k v (c : bool) : 0 < w -> 0 <= k -> swrap w v = swrap w (v - if c then 2 ^ (w + k) else 0).
Proof.
  intros Hw Hk. destruct c; [|by rewrite Z.sub_0_r].
  rewrite <- (swrap_add_multiple w (v - 2 ^ (w + k)) (2 ^ k)) by done. f_equal. rewrite Z.pow_add_r by lia. lia.
Qed.

Ltac close_signed w k :=
  apply Ok_pair_eq; [|reflexivity]; unfold leb_signed_value; cbn [leb_value List.last];
  first [ rewrite sign_extend_swrap by (simpl; lia)
        | rewrite sign_bit_swrap by (simpl; lia)
        | match goal with Hb : bytes_ok (?b :: _), M : more ?b = false |- _ =>
            rewrite (more_false b (Forall_inv Hb) M) at 2; rewrite sign_extend_swrap by (simpl; lia) end
        | match goal with |- swrap w ?v = swrap w (_ - if Z.testbit ?b 6 then _ else _) =>
            rewrite (swrap_drop w k v (Z.testbit b 6)) by lia end ];
  f_equal; unfold zlen; cbn [length];
  match goal with |- context [Z.testbit ?b 6] => destruct (Z.testbit b 6) end; simpl; lia.

Lemma signed_decode32_ok data :
  bytes_ok data -> leb_complete 5 data = true ->
  _leb128_signed_decode32 data = Ok (swrap 32 (leb_signed_value (leb_prefix 5 data)), zlen (leb_prefix 5 data)).
Proof. intros Hb H. unfold _leb128_signed_decode32. leb_run ltac:(close_signed 32 3). Qed.

Lemma signed_decode64_ok data :
  bytes_ok data -> leb_complete 10 data = true ->
  _leb128_signed_decode64 data = Ok (swrap 64 (leb_signed_value (leb_prefix 10 data)), zlen (leb_prefix 10 data)).
Proof. intros Hb H. unfold _leb128_signed_decode64. leb_run ltac:(close_signed 64 6). Qed.

(** * The encoders compute the reference *)

(** Reference encodings: as few septets as hold the number. *)
Fixpoint uleb (fuel : nat) (n : Z) : list Z :=
  match fuel with
  | O => []
  | S f => if n <? 128 then [n] else (n mod 128 + 128) :: uleb f (n / 128)
  end.

Fixpoint sleb (fuel : nat) (n : Z) : list Z :=
  match fuel with
  | O => []
  | S f => if (-64 <=? n) && (n <? 64) then [n mod 128] else (n mod 128 + 128) :: sleb f (n / 128)
  end.

(** Writing a list of bytes from position [p] on. *)
Fixpoint write_bytes (buffer : list Z) (p : Z) (l : list Z) : outcome (list Z) :=
  match l with
  | [] => Ok buffer
  | b :: l' => let* buffer := wr buffer p b in write_bytes buffer (p + 1) l'
  end.

Definition put (buffer : list Z) (p : Z) (l : list Z) : outcome (Z * list Z) :=
  let* buffer := write_bytes buffer p l in Ok (p + zlen l, buffer).

Lemma put_cons buffer p b l :
  put buffer p (b :: l) = let* buffer := wr buffer p b in put buffer (p + 1) l.
Proof.
  unfold put. cbn [write_bytes]. destruct (wr buffer p b) as [buf|]; simpl; [|done].
  destruct (write_bytes buf (p + 1) l); simpl; [|done]. f_equal. f_equal. unfold zlen. simpl. lia.
Qed.

Lemma put_nil buffer p : put buffer p [] = Ok (p, buffer).
Proof. unfold put. simpl. f_equal. f_equal. unfold zlen. simpl. lia. Qed.

Lemma lor_128 n : Z.lor (Z.land n 127) 128 = n mod 128 + 128.
Proof.
  rewrite land_127. change 128 with (Z.shiftl 1 7) at 2. rewrite lor_add_shift; [done|lia|].
  apply mod128_range.
Qed.

Lemma shiftr_7 n : Z.shiftr n 7 = n / 128.
Proof. by rewrite Z.shiftr_div_pow2 by lia. Qed.

Lemma pow7_S f : 2 ^ (7 * Z.of_nat (S f)) = 128 * 2 ^ (7 * Z.of_nat f).
Proof. rewrite Nat2Z.inj_succ, Z.mul_succ_r, Z.pow_add_r by lia. lia. Qed.

Lemma unsigned_encode_loop_eq fuel n buffer p :
  0 <= n < 2 ^ (7 * Z.of_nat fuel) -> fuel <> O ->
  unsigned_encode_loop fuel n buffer p = put buffer p (uleb fuel n).
Proof.
  revert n buffer p. induction fuel as [|f IH]; intros n buffer p Hn Hf; [done|].
  cbn [unsigned_encode_loop uleb]. rewrite shiftr_7, lor_128, land_127. rewrite pow7_S in Hn.
  destruct (Z.ltb_spec n 128).
  - rewrite (Z.div_small n 128), (Z.mod_small n 128) by lia. simpl.
    rewrite put_cons. destruct (wr buffer p n); simpl; [by rewrite put_nil|done].
  - assert (1 <= n / 128) by (apply Z.div_le_lower_bound; lia).
    destruct (Z.eqb_spec (n / 128) 0); [lia|]. simpl negb. cbv iota. rewrite put_cons.
    destruct (wr buffer p _) as [buf|]; simpl; [|done]. apply IH.
    + split; [lia|]. apply Z.div_lt_upper_bound; lia.
    + destruct f; [|done]. simpl in Hn. lia.
Qed.

Lemma bit6_mod n : Z.testbit n 6 = (64 <=? n mod 128).
Proof.
  rewrite Z.testbit_eqb by lia. change (2 ^ 6) with 64.
  destruct (Z.leb_spec 64 (n mod 128)); [apply Z.eqb_eq|apply Z.eqb_neq]; Z.div_mod_to_equations; lia.
Qed.

Lemma land_64 m : 0 <= m < 128 -> Z.land m 64 = if 64 <=? m then 64 else 0.
Proof.
  intros Hm. assert (forallb (fun m => Z.land m 64 =? if 64 <=? m then 64 else 0) (seqZ 0 128) = true) as H
    by (vm_compute; reflexivity).
  rewrite forallb_forall in H. apply Z.eqb_eq, H. rewrite <- list_elem_of_In, elem_of_seqZ. lia.
Qed.

(** The exit test of the signed loop. *)
Lemma signed_exit n :
  let sign := if n <? 0 then -1 else 0 in
  (n / 128 =? sign) && (Z.land (n mod 128) 64 =? Z.land sign 64) = (-64 <=? n) && (n <? 64).
Proof.
  cbv zeta. rewrite land_64 by apply mod128_range.
  pose proof (mod128_range n). pose proof (Z_div_mod_eq_full n 128).
  destruct (Z.ltb_spec n 0), (Z.leb_spec 64 (n mod 128)); simpl Z.land;
    destruct (Z.leb_spec (-64) n), (Z.ltb_spec n 64); simpl; lia.
Qed.

Lemma signed_encode_loop_eq fuel n buffer p :
  in_s (7 * Z.of_nat fuel) n -> fuel <> O ->
  signed_encode_loop fuel (if n <? 0 then -1 else 0) n buffer p = put buffer p (sleb fuel n).
Proof.
  revert n buffer p. induction fuel as [|f IH]; intros n buffer p Hn Hf; [done|].
  cbn [signed_encode_loop sleb]. rewrite shiftr_7, lor_128, land_127.
  pose proof (signed_exit n) as He. cbv zeta in He. rewrite He.
  destruct ((-64 <=? n) && (n <? 64)) eqn:E.
  - rewrite put_cons. destruct (wr buffer p _); simpl; [by rewrite put_nil|done].
  - rewrite put_cons. destruct (wr buffer p _) as [buf|]; simpl; [|done].
    assert ((if n <? 0 then -1 else 0) = (if n / 128 <? 0 then -1 else 0)) as ->.
    { destruct (Z.ltb_spec n 0), (Z.ltb_spec (n / 128) 0); Z.div_mod_to_equations; lia. }
    destruct f as [|f]; [unfold in_s in Hn; simpl in Hn; lia|].
    apply IH; [|done]. unfold in_s in *. replace (7 * Z.of_nat (S (S f)) - 1) with (7 + (7 * Z.of_nat (S f) - 1)) in Hn by lia.
    rewrite Z.pow_add_r in Hn by lia. change (2 ^ 7) with 128 in Hn.
    split; [apply Z.div_le_lower_bound; lia|apply Z.div_lt_upper_bound; lia].
Qed.

(** What the reference encodings satisfy. *)
Fixpoint terminated (l : list Z) : Prop :=
  match l with
  | [] => False
  | [b] => more b = false
  | b :: l' => more b = true /\ terminated l'
  end.

Lemma terminated_prefix max l rest :
  terminated l -> (length l <= max)%nat ->
  leb_prefix max (l ++ rest) = l /\ leb_complete max (l ++ rest) = true.
Proof.
  revert max. induction l as [|b l IH]; intros max Ht Hl; [done|].
  destruct max as [|max]; [simpl in Hl; lia|].
  rewrite <- app_comm_cons, leb_prefix_cons, leb_complete_cons.
  destruct l as [|b' l]; [simpl in Ht; by rewrite Ht|]. destruct Ht as [-> Ht].
  destruct (IH max Ht) as [-> ->]; [simpl in *; lia|done].
Qed.

Lemma septet_more n : more (n mod 128 + 128) = true /\ in_u 8 (n mod 128 + 128) /\ (n mod 128 + 128) mod 128 = n mod 128.
Proof.
  pose proof (mod128_range n). split; [|split].
  - rewrite more_testbit, Z.testbit_eqb by lia. change (2 ^ 7) with 128. apply Z.eqb_eq.
    Z.div_mod_to_equations. lia.
  - unfold in_u. simpl. lia.
  - rewrite <- (Z.mod_mod n 128) at 2 by lia. change 128 with (1 * 128) at 2. by rewrite Z.mod_add by lia.
Qed.

Lemma septet_last b : 0 <= b < 128 -> more b = false /\ in_u 8 b /\ b mod 128 = b.
Proof.
  intros Hb. split; [|split; [unfold in_u; simpl; lia|by apply Z.mod_small]].
  rewrite more_testbit, Z.testbit_eqb by lia. change (2 ^ 7) with 128. apply Z.eqb_neq.
  Z.div_mod_to_equations. lia.
Qed.

Lemma uleb_spec fuel n :
  0 <= n < 2 ^ (7 * Z.of_nat fuel) -> fuel <> O ->
  let l := uleb fuel n in
  terminated l /\ bytes_ok l /\ leb_value l = n /\ (1 <= length l)%nat /\
  n < 2 ^ (7 * zlen l) /\ (zlen l = 1 \/ 2 ^ (7 * (zlen l - 1)) <= n).
Proof.
  revert n. induction fuel as [|f IH]; intros n Hn Hf; [done|]. cbv zeta. cbn [uleb].
  rewrite pow7_S in Hn. destruct (Z.ltb_spec n 128) as [Hlt|Hge].
  - destruct (septet_last n) as (Hm & Hu & Hmod); [lia|].
    split; [done|]. split; [constructor; [done|constructor]|]. simpl. rewrite Hmod. unfold zlen. simpl. lia.
  - assert (1 <= n / 128) by (apply Z.div_le_lower_bound; lia).
    destruct (septet_more n) as (Hm & Hu & Hmod).
    destruct (IH (n / 128)) as (Ht & Hb & Hv & Hl & Hlt & Hmin).
    { split; [lia|]. apply Z.div_lt_upper_bound; lia. }
    { destruct f; [|done]. simpl in Hn. lia. }
    set (l := uleb f (n / 128)) in *. pose proof (Z_div_mod_eq_full n 128). pose proof (mod128_range n).
    assert (zlen ((n mod 128 + 128) :: l) = zlen l + 1) as Hz by (unfold zlen; simpl; lia).
    split; [destruct l; [done|split; done]|]. split; [by constructor|].
    split; [cbn [leb_value]; rewrite Hmod, Hv; lia|]. split; [simpl; lia|]. rewrite Hz.
    assert (1 <= zlen l) by (unfold zlen; lia).
    rewrite Z.mul_add_distr_l, Z.pow_add_r by lia. change (2 ^ (7 * 1)) with 128. split; [lia|]. right.
    replace (zlen l + 1 - 1) with (zlen l - 1 + 1) by lia. rewrite Z.mul_add_distr_l, Z.pow_add_r by lia.
    change (2 ^ (7 * 1)) with 128. destruct Hmin as [->|Hmin]; [simpl; lia|]. lia.
Qed.

Lemma leb_signed_cons b l : l <> [] -> leb_signed_value (b :: l) = b mod 128 + 128 * leb_signed_value l.
Proof.
  intros Hl. unfold leb_signed_value. cbn [leb_value]. replace (List.last (b :: l) 0) with (List.last l 0) by (by destruct l).
  assert (7 * zlen (b :: l) = 7 + 7 * zlen l) as -> by (unfold zlen; simpl; lia).
  rewrite Z.pow_add_r by (unfold zlen; lia). change (2 ^ 7) with 128.
  destruct (Z.testbit _ _); lia.
Qed.

Lemma sleb_spec fuel n :
  in_s (7 * Z.of_nat fuel) n -> fuel <> O ->
  let l := sleb fuel n in
  terminated l /\ bytes_ok l /\ leb_signed_value l = n /\ (1 <= length l)%nat /\
  in_s (7 * zlen l) n /\ (zlen l = 1 \/ ~ in_s (7 * (zlen l - 1)) n).
Proof.
  revert n. induction fuel as [|f IH]; intros n Hn Hf; [done|]. cbv zeta. cbn [sleb].
  pose proof (mod128_range n) as Hr. pose proof (Z_div_mod_eq_full n 128) as Hdm.
  destruct ((-64 <=? n) && (n <? 64)) eqn:E.
  - destruct (septet_last (n mod 128) Hr) as (Hm & Hu & Hmod).
    split; [done|]. split; [constructor; [done|constructor]|].
    unfold leb_signed_value, in_s, zlen. cbn [leb_value List.last length]. rewrite bit6_mod, !Hmod.
    split; [destruct (Z.leb_spec 64 (n mod 128)); simpl; lia|]. simpl. lia.
  - destruct (septet_more n) as (Hm & Hu & Hmod).
    destruct f as [|f']; [unfold in_s in Hn; simpl in Hn; lia|]. set (f := S f') in *.
    assert (in_s (7 * Z.of_nat f) (n / 128)) as Hq.
    { unfold in_s in *. replace (7 * Z.of_nat (S f) - 1) with (7 + (7 * Z.of_nat f - 1)) in Hn by lia.
      rewrite Z.pow_add_r in Hn by lia. change (2 ^ 7) with 128 in Hn.
      split; [apply Z.div_le_lower_bound; lia|apply Z.div_lt_upper_bound; lia]. }
    destruct (IH (n / 128) Hq ltac:(done)) as (Ht & Hb & Hv & Hl & Hlt & Hmin).
    set (l := sleb f (n / 128)) in *.
    assert (zlen ((n mod 128 + 128) :: l) = zlen l + 1) as Hz by (unfold zlen; simpl; lia).
    assert (1 <= zlen l) by (unfold zlen; lia).
    split; [destruct l; [done|split; done]|]. split; [by constructor|].
    split; [rewrite leb_signed_cons, Hmod, Hv by (by destruct l); lia|]. split; [simpl; lia|]. rewrite Hz.
    unfold in_s in *. replace (7 * (zlen l + 1) - 1) with (7 + (7 * zlen l - 1)) by lia.
    rewrite Z.pow_add_r by lia. change (2 ^ 7) with 128. split; [lia|]. right.
    replace (zlen l + 1 - 1) with (zlen l) by lia. destruct Hmin as [->|Hmin]; [simpl; lia|].
    intros Hin. apply Hmin. destruct (decide (zlen l = 1)) as [E1|]; [rewrite E1 in Hin; simpl in Hin; lia|].
    replace (7 * zlen l - 1) with (7 + (7 * (zlen l - 1) - 1)) in Hin by lia.
    rewrite Z.pow_add_r in Hin by lia. change (2 ^ 7) with 128 in Hin.
    split; [apply Z.div_le_lower_bound; lia|apply Z.div_lt_upper_bound; lia].
Qed.

(** * Round trips *)
Lemma write_bytes_ok l buffer p :
  0 <= p -> p + zlen l <= zlen buffer ->
  write_bytes buffer p l = Ok (take (Z.to_nat p) buffer ++ l ++ drop (Z.to_nat p + length l) buffer).
Proof.
  revert buffer p. induction l as [|b l IH]; intros buffer p Hp Hl.
  - simpl. by rewrite Nat.add_0_r, take_drop.
  - cbn [write_bytes]. unfold zlen in Hl. simpl in Hl. rewrite wr_ok by (unfold zlen; lia). rewrite obind_ok.
    rewrite IH by (rewrite ?zlen_zinsert; unfold zlen in *; lia). f_equal.
    unfold zinsert. destruct (Z.leb_spec 0 p); [|lia].
    replace (Z.to_nat (p + 1)) with (S (Z.to_nat p)) by lia.
    rewrite (take_S_r _ _ b) by (apply list_lookup_insert_eq; unfold zlen in *; lia).
    rewrite take_insert_ge by lia. rewrite <- app_assoc. simpl.
    rewrite drop_insert_lt by lia. by replace (S (Z.to_nat p + length l)) with (Z.to_nat p + S (length l))%nat by lia.
Qed.

Lemma put_ok l buffer :
  zlen l <= zlen buffer -> put buffer 0 l = Ok (zlen l, l ++ drop (length l) buffer).
Proof. intros H. unfold put. rewrite write_bytes_ok by lia. done. Qed.

(** What an encoder promises: with a buffer of [max] bytes it writes [k <= max]
    bytes at the front, the least number that holds [n], leaves the rest of
    the buffer as it was, and the decoder reads [n] and [k] back. *)
Definition encodes (encode : Z -> list Z -> outcome (Z * list Z)) (decode : list Z -> outcome (Z * Z))
    (fits : Z -> Z -> Prop) (max n : Z) (buffer : list Z) : Prop :=
  yields (encode n buffer) (fun '(k, buffer') =>
    1 <= k <= max /\ fits (7 * k) n /\ (k = 1 \/ ~ fits (7 * (k - 1)) n) /\
    zlen buffer' = zlen buffer /\ drop (Z.to_nat k) buffer' = drop (Z.to_nat k) buffer /\
    decode buffer' = Ok (n, k)).

(** A minimal encoding of a [w] bit number has at most [max] septets. *)
Lemma minimal_length (fits : Z -> Z -> Prop) w max k n :
  (forall a b, 0 <= a <= b -> fits a n -> fits b n) ->
  fits w n -> 0 <= w <= 7 * max -> 1 <= max -> (k = 1 \/ ~ fits (7 * (k - 1)) n) -> k <= max.
Proof.
  intros Hmono Hw Hmax H1 [->|Hk]; [done|]. destruct (Z.le_gt_cases k max); [done|].
  destruct Hk. apply (Hmono w); [lia|done].
Qed.

Lemma in_u_mono n a b : 0 <= a <= b -> in_u a n -> in_u b n.
Proof. unfold in_u. intros H Hn. pose proof (Z.pow_le_mono_r 2 a b). lia. Qed.

Lemma in_s_mono n a b : 0 <= a <= b -> in_s a n -> in_s b n.
Proof. unfold in_s. intros H Hn. pose proof (Z.pow_le_mono_r 2 (a - 1) (b - 1)). lia. Qed.

Lemma roundtrip_of_list encode decode (fits : Z -> Z -> Prop) w max n l buffer value :
  (forall a b, 0 <= a <= b -> fits a n -> fits b n) ->
  0 <= w <= 7 * Z.of_nat max -> (1 <= max)%nat -> fits w n ->
  bytes_ok buffer -> Z.of_nat max <= zlen buffer ->
  encode n buffer = put buffer 0 l ->
  (forall data, bytes_ok data -> leb_complete max data = true ->
     decode data = Ok (value (leb_prefix max data), zlen (leb_prefix max data))) ->
  terminated l -> bytes_ok l -> value l = n -> (1 <= length l)%nat ->
  fits (7 * zlen l) n -> (zlen l = 1 \/ ~ fits (7 * (zlen l - 1)) n) ->
  encodes encode decode fits (Z.of_nat max) n buffer.
Proof.
  intros Hmono Hw Hmax Hfit Hbuf Hlen He Hd Ht Hb Hv H1 Hf Hmin.
  assert (zlen l <= Z.of_nat max) as Hl by (apply (minimal_length fits w _ _ n); [done|done|lia|lia|done]).
  unfold encodes. rewrite He, put_ok by lia. simpl.
  destruct (terminated_prefix max l (drop (length l) buffer) Ht) as [Hp Hc]; [unfold zlen in Hl; lia|].
  assert (length l <= length buffer)%nat by (unfold zlen in *; lia).
  split; [unfold zlen in *; lia|]. split; [done|]. split; [done|]. split.
  { rewrite zlen_app. unfold zlen. rewrite length_drop. lia. }
  split.
  { unfold zlen. rewrite Nat2Z.id, drop_app_length. done. }
  rewrite Hd; [by rewrite Hp, Hv| |done].
  apply Forall_app. split; [done|]. by apply Forall_drop.
Qed.

Lemma fuel_u w n : 0 <= w <= 64 -> in_u w n -> 0 <= n < 2 ^ (7 * Z.of_nat leb_fuel).
Proof. intros Hw H. apply (in_u_mono n w 70); [lia|done]. Qed.

Lemma fuel_s w n : 0 <= w <= 64 -> in_s w n -> in_s (7 * Z.of_nat leb_fuel) n.
Proof. intros Hw H. apply (in_s_mono n w 70); [lia|done]. Qed.

Lemma unsigned_roundtrip encode decode w max n buffer :
  0 <= w <= 64 -> w <= 7 * Z.of_nat max -> (1 <= max)%nat -> in_u w n -> bytes_ok buffer ->
  Z.of_nat max <= zlen buffer ->
  encode n buffer = unsigned_encode_loop leb_fuel n buffer 0 ->
  (forall data, bytes_ok data -> leb_complete max data = true ->
     decode data = Ok (uwrap w (leb_value (leb_prefix max data)), zlen (leb_prefix max data))) ->
  encodes encode decode in_u (Z.of_nat max) n buffer.
Proof.
  intros Hw Hm H1 Hn Hb Hlen He Hd. pose proof (fuel_u w n Hw Hn) as Hfuel.
  destruct (uleb_spec leb_fuel n Hfuel ltac:(done)) as (Ht & Hbl & Hv & Hl & Hlt & Hmin).
  eapply (roundtrip_of_list _ _ in_u w max n (uleb leb_fuel n) buffer (fun p => uwrap w (leb_value p))); try done.
  - apply in_u_mono.
  - lia.
  - rewrite He. by apply unsigned_encode_loop_eq.
  - rewrite Hv. by apply uwrap_id.
  - unfold in_u. lia.
  - destruct Hmin; [by left|right]. unfold in_u. lia.
Qed.

Lemma signed_roundtrip encode decode w max n buffer :
  0 < w <= 64 -> w <= 7 * Z.of_nat max -> (1 <= max)%nat -> in_s w n -> bytes_ok buffer ->
  Z.of_nat max <= zlen buffer ->
  encode n buffer = signed_encode_loop leb_fuel (if n <? 0 then -1 else 0) n buffer 0 ->
  (forall data, bytes_ok data -> leb_complete max data = true ->
     decode data = Ok (swrap w (leb_signed_value (leb_prefix max data)), zlen (leb_prefix max data))) ->
  encodes encode decode in_s (Z.of_nat max) n buffer.
Proof.
  intros Hw Hm H1 Hn Hb Hlen He Hd. pose proof (fuel_s w n ltac:(lia) Hn) as Hfuel.
  destruct (sleb_spec leb_fuel n Hfuel ltac:(done)) as (Ht & Hbl & Hv & Hl & Hlt & Hmin).
  eapply (roundtrip_of_list _ _ in_s w max n (sleb leb_fuel n) buffer (fun p => swrap w (leb_signed_value p))); try done.
  - apply in_s_mono.
  - lia.
  - rewrite He. by apply signed_encode_loop_eq.
  - rewrite Hv. apply swrap_id; [lia|done].
Qed.

(** Unsigned LEB128, 32 and 64 bits: with the 5 or 10 byte buffer that the
    comments ask for, encoding ends, writes the shortest encoding and nothing
    behind it, and decoding gives back the number and the length. *)
Theorem leb_unsigned_roundtrip n buffer (Hb : bytes_ok buffer) :
  (in_u 32 n -> 5 <= zlen buffer ->
     encodes _leb128_unsigned_encode32 _leb128_unsigned_decode32 in_u 5 n buffer) /\
  (in_u 64 n -> 10 <= zlen buffer ->
     encodes _leb128_unsigned_encode64 _leb128_unsigned_decode64 in_u 10 n buffer).
Proof.
  split; intros Hn Hl.
  - apply (unsigned_roundtrip _ _ 32 5); try done; try lia. apply unsigned_decode32_ok.
  - apply (unsigned_roundtrip _ _ 64 10); try done; try lia. apply unsigned_decode64_ok.
Qed.

(** C22. Signed LEB128, 32 and 64 bits: the same, for negative numbers too. *)
Theorem leb_signed_roundtrip n buffer (Hb : bytes_ok buffer) :
  (in_s 32 n -> 5 <= zlen buffer ->
     encodes _leb128_signed_encode32 _leb128_signed_decode32 in_s 5 n buffer) /\
  (in_s 64 n -> 10 <= zlen buffer ->
     encodes _leb128_signed_encode64 _leb128_signed_decode64 in_s 10 n buffer).
Proof.
  split; intros Hn Hl.
  - apply (signed_roundtrip _ _ 32 5); try done; try lia. apply signed_decode32_ok.
  - apply (signed_roundtrip _ _ 64 10); try done; try lia. apply signed_decode64_ok.
Qed.

(** C35. The unrolled decoders are equivalent to the definition of LEB128: on any
    bytes that hold a whole number, or as many bytes as the decoder looks at,
    they read only those, and return their value in the machine type (with
    the sign extension of the signed forms) and their number. *)
Theorem leb_decoders_reference data (Hb : bytes_ok data) :
  (leb_complete 5 data = true ->
     let p := leb_prefix 5 data in
     _leb128_unsigned_decode32 data = Ok (uwrap 32 (leb_value p), zlen p) /\
     _leb128_signed_decode32 data = Ok (swrap 32 (leb_signed_value p), zlen p)) /\
  (leb_complete 10 data = true ->
     let p := leb_prefix 10 data in
     _leb128_unsigned_decode64 data = Ok (uwrap 64 (leb_value p), zlen p) /\
     _leb128_signed_decode64 data = Ok (swrap 64 (leb_signed_value p), zlen p)).
Proof.
  split; intros Hc; cbv zeta; split.
  - apply unsigned_decode32_ok; assumption.
  - apply signed_decode32_ok; assumption.
  - apply unsigned_decode64_ok; assumption.
  - apply signed_decode64_ok; assumption.
Qed.

(** An encoding that is longer than the decoder looks. *)
Lemma overlong_prefix max l rest :
  terminated l -> (max < length l)%nat ->
  leb_prefix max (l ++ rest) = take max l /\ leb_complete max (l ++ rest) = true.
Proof.
  revert max. induction l as [|b l IH]; intros max Ht Hl; [done|].
  destruct max as [|max]; [done|]. rewrite <- app_comm_cons, leb_prefix_cons, leb_complete_cons.
  destruct l as [|b' l]; [simpl in Hl; lia|]. destruct Ht as [-> Ht].
  destruct (IH max Ht) as [-> ->]; [simpl in *; lia|done].
Qed.

(** Where the decoders and their comments part: for an encoding padded to
    more than 5 (32 bit) or 10 (64 bit) bytes they return 5 or 10, not the
    length of the encoding. *)
Theorem leb_decoders_overlong l rest (Ht : terminated l) (Hl : bytes_ok l) (Hr : bytes_ok rest) :
  ((5 < length l)%nat ->
     yields (_leb128_unsigned_decode32 (l ++ rest)) (fun '(v, k) => k = 5 /\ k <> zlen l) /\
     yields (_leb128_signed_decode32 (l ++ rest)) (fun '(v, k) => k = 5 /\ k <> zlen l)) /\
  ((10 < length l)%nat ->
     yields (_leb128_unsigned_decode64 (l ++ rest)) (fun '(v, k) => k = 10 /\ k <> zlen l) /\
     yields (_leb128_signed_decode64 (l ++ rest)) (fun '(v, k) => k = 10 /\ k <> zlen l)).
Proof.
  assert (bytes_ok (l ++ rest)) as Hb by (by apply Forall_app).
  assert (forall max, (max < length l)%nat -> zlen (take max l) = Z.of_nat max /\ Z.of_nat max <> zlen l) as Hz.
  { intros max H. unfold zlen. rewrite length_take. lia. }
  split; intros H; destruct (overlong_prefix _ l rest Ht H) as [Hp Hc]; destruct (Hz _ H) as [Hk Hne].
  - rewrite unsigned_decode32_ok, signed_decode32_ok, Hp, Hk by assumption. cbn [yields].
    repeat split; exact Hne.
  - rewrite unsigned_decode64_ok, signed_decode64_ok, Hp, Hk by assumption. cbn [yields].
    repeat split; exact Hne.
Qed.

Lemma write_bytes_short l buffer p :
  0 <= p <= zlen buffer -> zlen buffer < p + zlen l -> write_bytes buffer p l = Err Bounds.
Proof.
  revert buffer p. induction l as [|b l IH]; intros buffer p Hp Hl; [unfold zlen in *; simpl in Hl; lia|].
  cbn [write_bytes]. destruct (Z.lt_ge_cases p (zlen buffer)).
  - rewrite wr_ok by lia. rewrite obind_ok. apply IH; rewrite zlen_zinsert; [lia|].
    unfold zlen in *. simpl in Hl. lia.
  - by rewrite wr_bounds by lia.
Qed.

(** A buffer that the number does not fit into. *)
Definition too_short (fits : Z -> Z -> Prop) (n : Z) (buffer : list Z) : Prop :=
  buffer = [] \/ ~ fits (7 * zlen buffer) n.

Lemma put_short (fits : Z -> Z -> Prop) n l buffer :
  (forall a b, 0 <= a <= b -> fits a n -> fits b n) ->
  (1 <= length l)%nat -> fits (7 * zlen l) n -> too_short fits n buffer -> put buffer 0 l = Err Bounds.
Proof.
  intros Hmono H1 Hf Hs. unfold put. rewrite write_bytes_short; [done|pose proof (zlen_nonneg buffer); lia|].
  destruct Hs as [->|Hs]; [unfold zlen; simpl; lia|].
  destruct (Z.lt_ge_cases (zlen buffer) (0 + zlen l)); [done|]. destruct Hs.
  apply (Hmono (7 * zlen l)); [unfold zlen in *; lia|done].
Qed.

(** The encoders trust their caller's buffer: a number that needs more
    septets than the buffer has bytes is written past its end. *)
Theorem leb_encoders_short_buffer n buffer :
  (in_u 32 n -> too_short in_u n buffer -> _leb128_unsigned_encode32 n buffer = Err Bounds) /\
  (in_u 64 n -> too_short in_u n buffer -> _leb128_unsigned_encode64 n buffer = Err Bounds) /\
  (in_s 32 n -> too_short in_s n buffer -> _leb128_signed_encode32 n buffer = Err Bounds) /\
  (in_s 64 n -> too_short in_s n buffer -> _leb128_signed_encode64 n buffer = Err Bounds).
Proof.
  assert (forall w, 0 <= w <= 64 -> in_u w n -> too_short in_u n buffer ->
    unsigned_encode_loop leb_fuel n buffer 0 = Err Bounds) as Hu.
  { intros w Hw Hn Hs. pose proof (fuel_u w n Hw Hn) as Hf.
    destruct (uleb_spec leb_fuel n Hf ltac:(done)) as (_ & _ & _ & Hl & Hlt & _).
    rewrite unsigned_encode_loop_eq by done. apply (put_short in_u n); [apply in_u_mono|done| |done].
    unfold in_u in *. lia. }
  assert (forall w, 0 <= w <= 64 -> in_s w n -> too_short in_s n buffer ->
    signed_encode_loop leb_fuel (if n <? 0 then -1 else 0) n buffer 0 = Err Bounds) as Hs.
  { intros w Hw Hn Hs. pose proof (fuel_s w n Hw Hn) as Hf.
    destruct (sleb_spec leb_fuel n Hf ltac:(done)) as (_ & _ & _ & Hl & Hfit & _).
    rewrite signed_encode_loop_eq by done. apply (put_short in_s n); [apply in_s_mono|done|done|done]. }
  repeat split; intros Hn Hsh; [apply (Hu 32)|apply (Hu 64)|apply (Hs 32)|apply (Hs 64)]; done || lia.
Qed.

(** * Witnesses *)
Definition buf10 : list Z := replicate 10 255.

Lemma buf10_ok : bytes_ok buf10.
Proof. unfold buf10, bytes_ok. apply Forall_replicate. by vm_compute. Qed.

Lemma leb_unsigned_roundtrip_witness :
  encodes _leb128_unsigned_encode32 _leb128_unsigned_decode32 in_u 5 624485 buf10 /\
  _leb128_unsigned_encode32 624485 buf10 = Ok (3, [229; 142; 38; 255; 255; 255; 255; 255; 255; 255]).
Proof.
  split; [|by vm_compute]. destruct (leb_unsigned_roundtrip 624485 buf10 buf10_ok) as [H _].
  apply H; by vm_compute.
Defined.

Lemma leb_signed_roundtrip_witness :
  encodes _leb128_signed_encode64 _leb128_signed_decode64 in_s 10 (- 2 ^ 63) buf10 /\
  encodes _leb128_signed_encode32 _leb128_signed_decode32 in_s 5 (-123456) buf10.
Proof.
  destruct (leb_signed_roundtrip (- 2 ^ 63) buf10 buf10_ok) as [_ H].
  destruct (leb_signed_roundtrip (-123456) buf10 buf10_ok) as [H' _].
  split; [apply H; by vm_compute|apply H'; by vm_compute].
Defined.

Lemma leb_decoders_reference_witness :
  _leb128_signed_decode32 [192; 187; 120] = Ok (-123456, 3).
Proof.
  destruct (leb_decoders_reference [192; 187; 120]) as [H _].
  { repeat (constructor; [by vm_compute|]). constructor. }
  destruct (H ltac:(by vm_compute)) as [_ H']. rewrite H'. by vm_compute.
Defined.

Lemma leb_decoders_overlong_witness :
  yields (_leb128_unsigned_decode32 ([129; 128; 128; 128; 128; 0] ++ [])) (fun '(v, k) => k = 5 /\ k <> 6).
Proof.
  destruct (leb_decoders_overlong [129; 128; 128; 128; 128; 0] []) as [H _].
  - repeat split; by vm_compute.
  - repeat (constructor; [by vm_compute|]). constructor.
  - constructor.
  - apply H. apply Nat.ltb_lt. by vm_compute.
Defined.

Lemma leb_encoders_short_buffer_witness : _leb128_unsigned_encode32 624485 [0; 0] = Err Bounds.
Proof.
  apply (leb_encoders_short_buffer 624485 [0; 0]); [by vm_compute|]. right. intros H. by destruct H as [_ H].
Defined.
