(* ===== verification/HeapOrder.v ===== *)
(** Heap order in a list with 1-based positions, and what the two sifting
    steps of [common/util/priority_queue.c] do to it.  The parent of position
    [i] is [i / 2]. *)
From Stdlib Require Import ZArith Lia Bool Permutation.
From stdpp Require Import prelude list.
From S2P Require Import Prelude.

Section HeapOrder.
Context {A : Type} (le : A -> A -> Prop).
Context (le_trans : forall a b c, le a b -> le b c -> le a c).
Implicit Types (l : list A) (i j k c : Z).

Definition at_ (l : list A) (i : Z) : option A := zlookup l (i - 1).

(** The element at [i] does not come before its parent. *)
Definition edge l i : Prop := forall a b, at_ l (i / 2) = Some a -> at_ l i = Some b -> le a b.

Definition heap l : Prop := forall i, 2 <= i -> edge l i.

(** The children of [k] do not come before the parent of [k]. *)
Definition grand l k : Prop :=
  forall c a b, 2 <= k -> c / 2 = k -> at_ l (k / 2) = Some a -> at_ l c = Some b -> le a b.

(** Heap order except around [k], except above [k], and except below [k]. *)
Definition heap_but l k : Prop := (forall i, 2 <= i -> i <> k -> i / 2 <> k -> edge l i) /\ grand l k.
Definition heap_up l k : Prop := (forall i, 2 <= i -> i <> k -> edge l i) /\ grand l k.
Definition heap_down l k : Prop := (forall i, 2 <= i -> i / 2 <> k -> edge l i) /\ grand l k.

Lemma heap_up_but l k : heap_up l k -> heap_but l k.
Proof. intros [H G]. split; [|done]. auto. Qed.

Lemma heap_down_of_but l k : heap_but l k -> (2 <= k -> edge l k) -> heap_down l k.
Proof.
  intros [H G] He. split; [|done]. intros i Hi Hne.
  destruct (decide (i = k)) as [->|]; auto.
Qed.

Lemma heap_of_up l k : heap_up l k -> (2 <= k -> edge l k) -> heap l.
Proof. intros [H G] He i Hi. destruct (decide (i = k)) as [->|]; auto. Qed.

Lemma heap_of_down l k : heap_down l k -> (forall i, 2 <= i -> i / 2 = k -> edge l i) -> heap l.
Proof. intros [H G] He i Hi. destruct (decide (i / 2 = k)); auto. Qed.

Lemma heap_but_of l k : heap l -> heap_but l k.
Proof.
  intros H. split; [auto|]. intros c a b Hk Hc Ha Hb.
  destruct (at_ l k) as [m|] eqn:Em.
  - apply (le_trans _ m); [by apply (H k)|]. apply (H c); [Z.div_mod_to_equations; lia| |done]. by rewrite Hc.
  - unfold at_ in *. apply zlookup_lt in Hb. destruct (zlookup_is_Some l (k - 1)) as [x Hx].
    + Z.div_mod_to_equations; lia.
    + by rewrite Hx in Em.
Qed.

(** * Exchanging two positions *)
Definition exchange l i j (a b : A) : list A := zinsert (zinsert l (i - 1) b) (j - 1) a.

Lemma at_insert l i x m :
  1 <= i <= zlen l -> at_ (zinsert l (i - 1) x) m = if m =? i then Some x else at_ l m.
Proof.
  intros Hi. unfold at_. destruct (Z.eqb_spec m i) as [->|].
  - apply zlookup_zinsert_eq. lia.
  - apply zlookup_zinsert_ne. lia.
Qed.

Lemma at_bounds l i x : at_ l i = Some x -> 1 <= i <= zlen l.
Proof. intros H%zlookup_lt. lia. Qed.

Lemma at_exchange l i j a b m :
  1 <= i <= zlen l -> 1 <= j <= zlen l ->
  at_ (exchange l i j a b) m = if m =? j then Some a else if m =? i then Some b else at_ l m.
Proof. intros Hi Hj. unfold exchange. by rewrite !at_insert by (rewrite ?zlen_zinsert; lia). Qed.

Lemma insert_perm l n a b : l !! n = Some a -> b :: l ≡ₚ a :: <[n := b]> l.
Proof.
  revert n. induction l as [|x l IH]; intros [|n] H; simplify_eq/=; [by constructor|].
  rewrite (Permutation_swap x b l), (IH n) by done. apply Permutation_swap.
Qed.

Lemma zinsert_perm l i a b : at_ l i = Some a -> b :: l ≡ₚ a :: zinsert l (i - 1) b.
Proof.
  unfold at_, zlookup, zinsert. destruct (0 <=? i - 1); [|done]. apply insert_perm.
Qed.

Lemma exchange_perm l i j a b : i <> j -> at_ l i = Some a -> at_ l j = Some b -> exchange l i j a b ≡ₚ l.
Proof.
  intros Hij Ha Hb. pose proof (at_bounds _ _ _ Ha). pose proof (at_bounds _ _ _ Hb).
  apply (Permutation_cons_inv (a := b)). symmetry. unfold exchange.
  rewrite (zinsert_perm l i a b) by done. apply zinsert_perm.
  rewrite at_insert by done. by destruct (Z.eqb_spec j i); [lia|].
Qed.

Lemma zlen_exchange l i j a b : zlen (exchange l i j a b) = zlen l.
Proof. unfold exchange. by rewrite !zlen_zinsert. Qed.

(** Case analysis on whether positions are the exchanged ones. *)
Ltac at_cases :=
  repeat match goal with
  | H : context [?x =? ?y] |- _ => destruct (Z.eqb_spec x y); simplify_eq
  end.

(** Moving an element that comes before its parent one step up. *)
Lemma up_step l k e p :
  2 <= k -> heap_but l k -> at_ l k = Some e -> at_ l (k / 2) = Some p -> le e p ->
  heap_up (exchange l k (k / 2) e p) (k / 2).
Proof.
  intros Hk [H G] He Hp Hle. pose proof (at_bounds _ _ _ He). pose proof (at_bounds _ _ _ Hp).
  assert (k / 2 <> k /\ k / 2 < k) as [Hne Hlt] by (Z.div_mod_to_equations; lia).
  split.
  - intros i Hi Hik a b Ha Hb. rewrite at_exchange in Ha, Hb by lia. at_cases.
    + done.
    + apply (le_trans _ p); [done|]. apply (H i); [lia|done|congruence|congruence|done].
    + apply (G i); [lia|done|done|done].
    + apply (H i); [lia|done|done|done|done].
  - assert (k / 2 / 2 <> k) by (Z.div_mod_to_equations; lia).
    intros c a b Hk2 Hc Ha Hb. rewrite at_exchange in Ha, Hb by lia.
    destruct (Z.eqb_spec (k / 2 / 2) (k / 2)); [Z.div_mod_to_equations; lia|].
    destruct (Z.eqb_spec (k / 2 / 2) k); [done|].
    assert (le a p) by (apply (H (k / 2)); [lia|lia|done|done|done]).
    destruct (Z.eqb_spec c (k / 2)); [Z.div_mod_to_equations; lia|].
    destruct (Z.eqb_spec c k); simplify_eq; [done|].
    apply (le_trans _ p); [done|]. apply (H c); [Z.div_mod_to_equations; lia|done|congruence|congruence|done].
Qed.

(** Moving an element one step down, below the child [m] that comes first. *)
Lemma down_step l k m e x :
  1 <= k -> m / 2 = k -> heap_down l k -> at_ l k = Some e -> at_ l m = Some x -> le x e ->
  (forall c y, c / 2 = k -> at_ l c = Some y -> le x y) ->
  heap_down (exchange l k m e x) m.
Proof.
  intros Hk Hm [H G] He Hx Hle Hmin. pose proof (at_bounds _ _ _ He). pose proof (at_bounds _ _ _ Hx).
  assert (k < m) as Hlt by (Z.div_mod_to_equations; lia).
  split.
  - intros i Hi Him a b Ha Hb. rewrite at_exchange in Ha, Hb by lia.
    destruct (Z.eqb_spec (i / 2) m); [done|].
    destruct (Z.eqb_spec i m) as [->|].
    { destruct (Z.eqb_spec (m / 2) k); [by simplify_eq|done]. }
    destruct (Z.eqb_spec i k) as [->|].
    { destruct (Z.eqb_spec (k / 2) k); [Z.div_mod_to_equations; lia|]. simplify_eq. by apply (G m). }
    destruct (Z.eqb_spec (i / 2) k); simplify_eq; [by apply (Hmin i)|].
    apply (H i); done.
  - intros c a b Hk2 Hc Ha Hb. rewrite at_exchange in Ha, Hb by lia.
    destruct (Z.eqb_spec (m / 2) m); [lia|]. destruct (Z.eqb_spec (m / 2) k); [|done].
    destruct (Z.eqb_spec c m); [Z.div_mod_to_equations; lia|].
    destruct (Z.eqb_spec c k); [Z.div_mod_to_equations; lia|].
    apply (H c); [Z.div_mod_to_equations; lia|lia|congruence|done].
Qed.

(** The root of a heap comes first. *)
Lemma heap_root l r i x :
  (forall a, le a a) -> heap l -> at_ l 1 = Some r -> at_ l i = Some x -> le r x.
Proof.
  intros Hrefl H Hr. remember (Z.to_nat i) as n eqn:Hn. revert i x Hn.
  induction n as [n IH] using (well_founded_induction lt_wf). intros i x Hn Hx.
  pose proof (at_bounds _ _ _ Hx). destruct (decide (i = 1)) as [->|]; [simplify_eq; apply Hrefl|].
  assert (1 <= i / 2 < i) as Hd by (Z.div_mod_to_equations; lia).
  destruct (zlookup_is_Some l (i / 2 - 1)) as [p Hp]; [lia|].
  apply (le_trans _ p); [|by apply (H i); [lia| |]].
  apply (IH (Z.to_nat (i / 2)) ltac:(lia) (i / 2)); done.
Qed.

(** Dropping the last element keeps heap order. *)
Lemma heap_take l l' :
  (forall i, at_ l' i = at_ l i \/ at_ l' i = None) -> heap l -> heap l'.
Proof.
  intros Hp H i Hi a b Ha Hb. destruct (Hp i), (Hp (i / 2)); try congruence.
  apply (H i); congruence.
Qed.
End HeapOrder.
