(* ===== verification/PriorityQueue.v ===== *)
(** Priority queues: the model of [common/util/priority_queue.c].

    A queue is a heap in a vector with 1-based positions.  [A] stands for the
    client's element pointers; [C] for the memory of the elements, in which
    the optional callbacks keep the position of an element.  A slot of the
    vector that was never written is [None], and reading it is [Err Bounds],
    like reading outside the vector. *)
From Stdlib Require Import ZArith Lia Bool Permutation.
From stdpp Require Import prelude list sorting.
From S2P Require Import Prelude.

Section PRQ.
Context {A C : Type} `{EqDecision A}.

Record PRQ : Type := mkPRQ {
  comparison_fn : A -> A -> bool;
  size : Z;
  allocated_size : Z;
  expansion_factor : Z;
  get_index_fn : option (C -> A -> Z);
  set_index_fn : option (C -> A -> Z -> C);
  heap_vector : list (option A);
  elements : C
}.

Definition with_size (p : PRQ) (n : Z) : PRQ :=
  mkPRQ (comparison_fn p) n (allocated_size p) (expansion_factor p)
    (get_index_fn p) (set_index_fn p) (heap_vector p) (elements p).
Definition with_vector (p : PRQ) (v : list (option A)) (c : C) : PRQ :=
  mkPRQ (comparison_fn p) (size p) (allocated_size p) (expansion_factor p)
    (get_index_fn p) (set_index_fn p) v c.

Definition UNDEFINED : Z := -1.

Definition PRQ_Ith (prq : PRQ) (i : Z) : outcome A :=
  let* slot := rd (heap_vector prq) (i - 1) in of_option Bounds slot.

Definition PRQ_Size (prq : PRQ) : Z := size prq.

Definition PRQ_Set_Ith (prq : PRQ) (i : Z) (element : A) : outcome PRQ :=
  let c := match set_index_fn prq with
           | Some set => set (elements prq) element i
           | None => elements prq
           end in
  let* v := wr (heap_vector prq) (i - 1) (Some element) in
  Ok (with_vector prq v c).

(** * Sifting *)
Fixpoint upheap_loop (fuel : nat) (prq : PRQ) (index : Z) (element : A) : outcome (PRQ * Z) :=
  if 1 <? index then
    match fuel with
    | O => Err Timeout
    | S f =>
        let parent_index := Z.quot index 2 in
        let* parent := PRQ_Ith prq parent_index in
        if negb (comparison_fn prq element parent) then Ok (prq, index)
        else
          let* prq := PRQ_Set_Ith prq index parent in
          upheap_loop f prq parent_index element
    end
  else Ok (prq, index).

Definition PRQ_Upheap (prq : PRQ) (index : Z) : outcome (PRQ * Z) :=
  assert* ((index <=? size prq) && (0 <? index)) in
  let* element := PRQ_Ith prq index in
  let* ' (prq, index) := upheap_loop (Z.to_nat index) prq index element in
  let* prq := PRQ_Set_Ith prq index element in
  Ok (prq, index).

Fixpoint downheap_loop (fuel : nat) (prq : PRQ) (index : Z) (element : A) : outcome (PRQ * Z) :=
  match fuel with
  | O => Err Timeout
  | S f =>
      let left_child_index := swrap 32 (index * 2) in
      let right_child_index := swrap 32 (left_child_index + 1) in
      if size prq <? left_child_index then Ok (prq, index)
      else
        let* left_child := PRQ_Ith prq left_child_index in
        let* right_first :=
          (if right_child_index <=? size prq
           then let* r := PRQ_Ith prq right_child_index in Ok (comparison_fn prq r left_child)
           else Ok false) in
        if right_first then
          let* right_child := PRQ_Ith prq right_child_index in
          if comparison_fn prq right_child element then
            let* prq := PRQ_Set_Ith prq index right_child in
            downheap_loop f prq right_child_index element
          else Ok (prq, index)
        else if comparison_fn prq left_child element then
          let* prq := PRQ_Set_Ith prq index left_child in
          downheap_loop f prq left_child_index element
        else Ok (prq, index)
  end.

Definition PRQ_Downheap (prq : PRQ) (index : Z) : outcome (PRQ * Z) :=
  assert* ((index <=? size prq) && (0 <? index)) in
  let* element := PRQ_Ith prq index in
  let* ' (prq, index) := downheap_loop (S (Z.to_nat (size prq))) prq index element in
  let* prq := PRQ_Set_Ith prq index element in
  Ok (prq, index).

(** * Interface *)
Definition PRQ_Initialize (cmp : A -> A -> bool) (get_fn : option (C -> A -> Z))
    (set_fn : option (C -> A -> Z -> C)) (initial_size expansion : Z) (c : C) : PRQ :=
  let initial_size := if initial_size <=? 0 then 200 else initial_size in
  let expansion := if expansion <=? 100 then 200 else expansion in
  mkPRQ cmp 0 initial_size expansion get_fn set_fn (replicate (Z.to_nat initial_size) None) c.

Definition PRQ_Delete_Top (prq : PRQ) : outcome (PRQ * A) :=
  assert* (0 <? size prq) in
  let* top_element := PRQ_Ith prq 1 in
  if size prq =? 1 then Ok (with_size prq 0, top_element)
  else
    let* bottom_element := PRQ_Ith prq (size prq) in
    let prq := with_size prq (size prq - 1) in
    let* prq := PRQ_Set_Ith prq 1 bottom_element in
    let* ' (prq, _) := PRQ_Downheap prq 1 in
    Ok (prq, top_element).

Definition PRQ_Top (prq : PRQ) : outcome A :=
  assert* (0 <? size prq) in PRQ_Ith prq 1.

(** [TYPE_MEM_POOL_REALLOC_N] keeps the old entries. *)
Definition grow_vector (prq : PRQ) : PRQ :=
  if size prq =? allocated_size prq then
    let new_size := Z.quot (swrap 32 (size prq * expansion_factor prq)) 100 in
    let new_size := if new_size <=? size prq then size prq + 10 else new_size in
    mkPRQ (comparison_fn prq) (size prq) new_size (expansion_factor prq)
      (get_index_fn prq) (set_index_fn prq)
      (take (Z.to_nat (allocated_size prq)) (heap_vector prq) ++
       replicate (Z.to_nat (new_size - allocated_size prq)) None) (elements prq)
  else prq.

Definition PRQ_Insert (prq : PRQ) (element : A) : outcome PRQ :=
  let prq := grow_vector prq in
  let prq := with_size prq (size prq + 1) in
  let* prq := PRQ_Set_Ith prq (size prq) element in
  let* ' (prq, _) := PRQ_Upheap prq (size prq) in
  Ok prq.

Definition find_index (prq : PRQ) (element : A) : outcome Z :=
  match get_index_fn prq with
  | Some get =>
      let index := get (elements prq) element in
      let* x := PRQ_Ith prq index in
      assert* bool_decide (element = x) in Ok index
  | None =>
      let* r := search_ 1 (size prq + 1) (fun i =>
                  let* x := PRQ_Ith prq i in
                  Ok (if bool_decide (x = element) then Some i else None)) in
      Ok (default UNDEFINED r)
  end.

Definition PRQ_Remove (prq : PRQ) (element : A) : outcome PRQ :=
  assert* (0 <? size prq) in
  let* index := find_index prq element in
  assert* negb (index =? UNDEFINED) in
  if index =? size prq then Ok (with_size prq (size prq - 1))
  else
    let* bottom_element := PRQ_Ith prq (size prq) in
    let prq := with_size prq (size prq - 1) in
    let* prq := PRQ_Set_Ith prq index bottom_element in
    let* ' (prq, index') := PRQ_Upheap prq index in
    if index =? index' then
      let* ' (prq, _) := PRQ_Downheap prq index in Ok prq
    else Ok prq.

Definition PRQ_Reset (prq : PRQ) : PRQ := with_size prq 0.
End PRQ.
Arguments PRQ : clear implicits.
