(* ===== verification/PriorityQueueProps.v ===== *)
(** Correctness of [common/util/priority_queue.c]: the vector stays a heap, the
    operations act on the multiset of queued elements, the top comes first, and
    the positions kept in the elements stay right. *)
From Stdlib Require Import ZArith Lia Bool Permutation.
From stdpp Require Import prelude list sorting.
From S2P Require Import Prelude HeapOrder PriorityQueue.

(** What [priority_queue.h] asks of a comparison function: it is true when the
    first argument precedes the second, false when they have the same
    precedence. *)
Class Precedence {A} (cmp : A -> A -> bool) : Prop := {
  cmp_asym : forall a b, cmp a b = true -> cmp b a = false;
  cmp_negtrans : forall a b c, cmp a b = false -> cmp b c = false -> cmp a c = false
}.

Section Props.
Context {A C : Type} `{EqDecision A} (cmp : A -> A -> bool) {PREC : Precedence cmp}.
Implicit Types (p : PRQ A C) (l : list A).

(** [a] may come before [b] *)
Definition le (a b : A) : Prop := cmp b a = false.

Lemma le_trans a b c : le a b -> le b c -> le a c.
Proof. unfold le. intros H1 H2. by apply (cmp_negtrans c b a). Qed.

Lemma le_refl a : le a a.
Proof. unfold le. destruct (cmp a a) eqn:E; [|done]. by rewrite (cmp_asym a a E) in E. Qed.

Lemma cmp_le a b : cmp a b = true -> le a b.
Proof. apply cmp_asym. Qed.

(** The largest queue for which child positions fit in an [INT32]. *)
Definition PRQ_LIMIT : Z := 2 ^ 30 - 1.

(** Reading back what was set. *)
Definition index_laws p : Prop :=
  match get_index_fn p, set_index_fn p with
  | Some g, Some s => forall c x i y, g (s c x i) y = if decide (x = y) then i else g c y
  | Some _, None => False
  | None, _ => True
  end.

(** The vector holds [l], except at position [hole] (none if [hole] is 0). *)
Definition stored p (hole : Z) l : Prop :=
  zlen l = size p /\ zlen (heap_vector p) = allocated_size p /\ size p <= allocated_size p /\
  forall i, 1 <= i <= size p -> i <> hole -> zlookup (heap_vector p) (i - 1) = Some (at_ l i).

Definition indexed p (hole : Z) l : Prop :=
  match get_index_fn p with
  | Some g => NoDup l /\ forall i x, at_ l i = Some x -> i <> hole -> g (elements p) x = i
  | None => True
  end.

Definition holed p (hole : Z) l : Prop :=
  comparison_fn p = cmp /\ size p <= PRQ_LIMIT /\ 100 < expansion_factor p /\ index_laws p /\
  stored p hole l /\ indexed p hole l.

(** The invariant of a queue with elements [l], in heap order. *)
Definition queue p l : Prop := holed p 0 l /\ heap le l /\ 0 < allocated_size p.

(** The fields that sifting does not change. *)
Definition keeps p p' : Prop :=
  comparison_fn p' = comparison_fn p /\ size p' = size p /\ allocated_size p' = allocated_size p /\
  expansion_factor p' = expansion_factor p /\ get_index_fn p' = get_index_fn p /\
  set_index_fn p' = set_index_fn p.

Lemma keeps_trans p1 p2 p3 : keeps p1 p2 -> keeps p2 p3 -> keeps p1 p3.
Proof. unfold keeps. intuition congruence. Qed.

Lemma ith_ok p hole l i x :
  holed p hole l -> at_ l i = Some x -> i <> hole -> PRQ_Ith p i = Ok x.
Proof.
  intros (_ & _ & _ & _ & (Hl & _ & _ & Hs) & _) Hx Hne. pose proof (at_bounds _ _ _ Hx).
  unfold PRQ_Ith, rd. rewrite Hs by lia. simpl. by rewrite Hx.
Qed.

Lemma at_exists l i : 1 <= i <= zlen l -> exists x, at_ l i = Some x.
Proof. intros H. apply zlookup_is_Some. lia. Qed.

Lemma at_NoDup l i j x : NoDup l -> at_ l i = Some x -> at_ l j = Some x -> i = j.
Proof.
  unfold at_, zlookup. intros Hn. destruct (Z.leb_spec 0 (i - 1)), (Z.leb_spec 0 (j - 1)); try done.
  intros Hi Hj. pose proof (NoDup_lookup _ _ _ _ Hn Hi Hj). lia.
Qed.

(** Writing [y] at the hole [k], which moves the hole to [h] (or closes it). *)
Lemma set_ith_ok p k y l l' h :
  holed p k l -> 1 <= k <= size p -> zlen l' = zlen l -> at_ l' k = Some y ->
  (forall i, i <> k -> i <> h -> at_ l' i = at_ l i) -> (NoDup l -> NoDup l') ->
  yields (PRQ_Set_Ith p k y) (fun p' => keeps p p' /\ holed p' h l').
Proof.
  intros (Hcmp & Hlim & Hexp & Hlaws & (Hl & Hv & Hle & Hs) & Hidx) Hk Hlen Hy Hrest Hnd.
  unfold PRQ_Set_Ith. rewrite wr_ok by lia. rewrite obind_ok. simpl. split; [done|].
  split; [done|]. split; [done|]. split; [done|]. split; [done|]. split.
  - repeat split; simpl; [lia|by rewrite zlen_zinsert|lia|]. intros i Hi Hne.
    destruct (decide (i = k)) as [->|]; [rewrite zlookup_zinsert_eq by lia; by rewrite Hy|].
    rewrite zlookup_zinsert_ne by lia. rewrite Hs, Hrest by done. done.
  - unfold indexed, index_laws in *. simpl.
    destruct (get_index_fn p) as [g|]; [|done]. destruct (set_index_fn p) as [s|]; [|done].
    destruct Hidx as [Hn Hi]. specialize (Hnd Hn). split; [done|]. intros i x Hx Hne. rewrite Hlaws.
    destruct (decide (y = x)) as [->|Hxy]; [by apply (at_NoDup l' k i x)|].
    assert (i <> k) by congruence. apply Hi; [by rewrite <- Hrest|done].
Qed.

(** Moving the element at [j] into the hole [k]. *)
Lemma move_ok p k j e y l :
  holed p k l -> k <> j -> at_ l k = Some e -> at_ l j = Some y ->
  yields (PRQ_Set_Ith p k y) (fun p' => keeps p p' /\ holed p' j (exchange l k j e y)).
Proof.
  intros Hh Hne He Hy. pose proof (at_bounds _ _ _ He). pose proof (at_bounds _ _ _ Hy).
  assert (zlen l = size p) by apply Hh.
  apply (set_ith_ok p k y l); [done|lia|apply zlen_exchange| | |].
  - rewrite at_exchange by lia. destruct (Z.eqb_spec k j); [done|]. by rewrite Z.eqb_refl.
  - intros i Hk Hj. rewrite at_exchange by lia.
    by destruct (Z.eqb_spec i j), (Z.eqb_spec i k); try lia.
  - intros Hn. by rewrite (exchange_perm l k j e y).
Qed.

Lemma quot_2 k : 0 <= k -> Z.quot k 2 = k / 2.
Proof. intros H. apply Z.quot_div_nonneg; lia. Qed.

(** What one run of a sifting loop establishes. *)
Definition sifted p l e p' k' l' : Prop :=
  keeps p p' /\ 1 <= k' <= size p /\ holed p' k' l' /\ at_ l' k' = Some e /\ l' ≡ₚ l.

Lemma sifted_step p p1 l l1 e p' k' l' :
  keeps p p1 -> l1 ≡ₚ l -> sifted p1 l1 e p' k' l' -> sifted p l e p' k' l'.
Proof.
  intros Hk Hp (Hk' & Hb & Hh & He & Hp'). split; [by apply (keeps_trans _ p1)|].
  destruct Hk as (_ & Hs & _). rewrite Hs in Hb. repeat (split; [done|]). by rewrite Hp'.
Qed.

Lemma upheap_loop_ok fuel p k e l :
  (Z.to_nat k <= fuel)%nat -> 1 <= k <= size p -> holed p k l -> at_ l k = Some e -> heap_but le l k ->
  yields (upheap_loop fuel p k e) (fun '(p', k') => exists l', sifted p l e p' k' l' /\
    ((k' = k /\ l' = l /\ (2 <= k -> edge le l k)) \/ (k' < k /\ heap le l'))).
Proof.
  revert p k l. induction fuel as [|fuel IH]; intros p k l Hf Hk Hh He Hb; [lia|].
  cbn [upheap_loop]. destruct (Z.ltb_spec 1 k) as [Hlt|Hge].
  2: { exists l. split; [repeat (split; [done|]); done|]. left. repeat split; lia. }
  rewrite quot_2 by lia. assert (1 <= k / 2 < k) as Hd by (Z.div_mod_to_equations; lia).
  assert (zlen l = size p) as Hlen by apply Hh. assert (comparison_fn p = cmp) as Hcmp by apply Hh.
  destruct (at_exists l (k / 2)) as [y Hy]; [lia|].
  rewrite (ith_ok p k l (k / 2) y), obind_ok, Hcmp by (done || lia).
  destruct (cmp e y) eqn:Ecmp; simpl negb; cbv iota.
  - eapply yields_bind; [apply (move_ok p k (k / 2) e y l); [done|lia|done|done]|]. intros p1 (Hk1 & Hh1).
    assert (size p1 = size p) as Hs1 by apply Hk1.
    pose proof (up_step le le_trans l k e y ltac:(lia) Hb He Hy (cmp_le _ _ Ecmp)) as Hup.
    eapply yields_mono; [apply (IH p1 (k / 2) (exchange l k (k / 2) e y)); [lia|lia|done| |by apply heap_up_but]|].
    { rewrite at_exchange by lia. by rewrite Z.eqb_refl. }
    intros [p' k'] (l' & Hsift & Hres). exists l'. split.
    { apply (sifted_step p p1 l (exchange l k (k / 2) e y)); [done| |done]. apply exchange_perm; [lia|done|done]. }
    right. destruct Hres as [(-> & -> & Hedge)|[Hlt' Hheap]]; [|split; [lia|done]].
    split; [lia|]. by apply (heap_of_up le _ (k / 2)).
  - exists l. split; [repeat (split; [done|]); done|]. left. split; [done|]. split; [done|].
    intros _ a b Ha Hb'. simplify_eq. done.
Qed.

Lemma heap_down_done p k l e :
  holed p k l -> at_ l k = Some e -> heap_down le l k ->
  (forall c y, c / 2 = k -> at_ l c = Some y -> le e y) -> heap le l.
Proof.
  intros Hh He Hd Hc. apply (heap_of_down le l k Hd). intros i Hi Hik a b Ha Hb.
  rewrite Hik in Ha. simplify_eq. by apply (Hc i).
Qed.

(** The children of a position. *)
Lemma child_cases c k : 1 <= k -> c / 2 = k -> c = 2 * k \/ c = 2 * k + 1.
Proof. intros Hk Hc. Z.div_mod_to_equations; lia. Qed.

Lemma downheap_loop_ok fuel p k e l :
  (Z.to_nat (size p - k) < fuel)%nat -> 1 <= k <= size p -> holed p k l -> at_ l k = Some e ->
  heap_down le l k ->
  yields (downheap_loop fuel p k e) (fun '(p', k') => exists l', sifted p l e p' k' l' /\ heap le l').
Proof.
  revert p k l. induction fuel as [|fuel IH]; intros p k l Hf Hk Hh He Hd; [lia|].
  assert (zlen l = size p) as Hlen by apply Hh. assert (comparison_fn p = cmp) as Hcmp by apply Hh.
  assert (size p <= PRQ_LIMIT) as Hlim by apply Hh. unfold PRQ_LIMIT in Hlim.
  cbn [downheap_loop].
  rewrite (swrap_id 32 (k * 2)) by (unfold in_s; simpl; lia).
  rewrite (swrap_id 32 (k * 2 + 1)) by (unfold in_s; simpl; lia). rewrite Hcmp.
  assert ((forall c y, c / 2 = k -> at_ l c = Some y -> le e y) ->
    yields (Ok (p, k)) (fun '(p', k') => exists l', sifted p l e p' k' l' /\ heap le l')) as Hstop.
  { intros Hc. exists l. split; [repeat (split; [done|]); done|]. by apply (heap_down_done p k l e). }
  assert (forall m x, k < m -> m / 2 = k -> at_ l m = Some x -> cmp x e = true ->
    (forall c y, c / 2 = k -> at_ l c = Some y -> le x y) ->
    yields (let* prq := PRQ_Set_Ith p k x in downheap_loop fuel prq m e)
      (fun '(p', k') => exists l', sifted p l e p' k' l' /\ heap le l')) as Hmove.
  { intros m x Hm Hmk Hx Hc Hmin. pose proof (at_bounds _ _ _ Hx).
    eapply yields_bind; [apply (move_ok p k m e x l); [done|lia|done|done]|]. intros p1 (Hk1 & Hh1).
    assert (size p1 = size p) as Hs1 by apply Hk1.
    eapply yields_mono; [apply (IH p1 m (exchange l k m e x)); [lia|lia|done| |]|].
    - rewrite at_exchange by lia. by rewrite Z.eqb_refl.
    - apply (down_step le); [lia|done|done|done|done|by apply cmp_le|done].
    - intros [p' k'] (l' & Hsift & Hheap). exists l'. split; [|done].
      apply (sifted_step p p1 l (exchange l k m e x)); [done| |done]. apply exchange_perm; [lia|done|done]. }
  clear IH. destruct (Z.ltb_spec (size p) (k * 2)) as [Hnone|Hleft].
  { apply Hstop. intros c y Hc Hy. pose proof (at_bounds _ _ _ Hy). destruct (child_cases c k); [lia|done|lia|lia]. }
  destruct (at_exists l (k * 2)) as [x Hx]; [lia|].
  rewrite (ith_ok p k l (k * 2) x), obind_ok by (done || lia).
  assert ((k * 2) / 2 = k /\ (k * 2 + 1) / 2 = k) as [Hq1 Hq2] by (Z.div_mod_to_equations; lia).
  destruct (Z.leb_spec (k * 2 + 1) (size p)) as [Hright|Hnoright].
  - destruct (at_exists l (k * 2 + 1)) as [r Hr]; [lia|].
    rewrite (ith_ok p k l (k * 2 + 1) r) by (done || lia). rewrite !obind_ok.
    assert (forall z, le z x -> le z r -> forall c y, c / 2 = k -> at_ l c = Some y -> le z y) as Hboth.
    { intros z Hzx Hzr c y Hc Hy. destruct (child_cases c k) as [->| ->]; [lia|done| |];
        rewrite Z.mul_comm in Hy; simplify_eq; done. }
    destruct (cmp r x) eqn:Erx; cbv iota.
    + destruct (cmp r e) eqn:Ere.
      * apply Hmove; [lia|done|done|done|]. apply Hboth; [by apply cmp_le|apply le_refl].
      * apply Hstop, Hboth; [|done]. apply (le_trans _ r); [done|by apply cmp_le].
    + destruct (cmp x e) eqn:Exe.
      * apply Hmove; [lia|done|done|done|]. apply Hboth; [apply le_refl|done].
      * apply Hstop, Hboth; [done|]. by apply (le_trans _ x).
  - rewrite obind_ok. cbv iota.
    assert (forall z, le z x -> forall c y, c / 2 = k -> at_ l c = Some y -> le z y) as Hone.
    { intros z Hzx c y Hc Hy. pose proof (at_bounds _ _ _ Hy). destruct (child_cases c k) as [->| ->]; [lia|done| |lia].
      rewrite Z.mul_comm in Hy. simplify_eq. done. }
    destruct (cmp x e) eqn:Exe.
    + apply Hmove; [lia|done|done|done|]. apply Hone, le_refl.
    + by apply Hstop, Hone.
Qed.

(** ** [PRQ_Upheap] and [PRQ_Downheap] *)
Lemma holed_weaken p k l : holed p 0 l -> holed p k l.
Proof.
  intros (H1 & H2 & H3 & H4 & (H5 & H6 & H7 & Hs) & Hi). repeat (split; [done|]). split.
  - repeat (split; [done|]). intros i Hi' _. apply Hs; lia.
  - unfold indexed in *. destruct (get_index_fn p); [|done]. destruct Hi as [Hn Hi]. split; [done|].
    intros i x Hx _. pose proof (at_bounds _ _ _ Hx). apply Hi; [done|lia].
Qed.

Lemma close_ok p k e l :
  holed p k l -> at_ l k = Some e ->
  yields (PRQ_Set_Ith p k e) (fun p' => keeps p p' /\ holed p' 0 l).
Proof.
  intros Hh He. pose proof (at_bounds _ _ _ He). assert (zlen l = size p) by apply Hh.
  by apply (set_ith_ok p k e l); [|lia|..].
Qed.

Lemma upheap_ok p k l :
  holed p 0 l -> 1 <= k <= size p -> heap_but le l k ->
  yields (PRQ_Upheap p k) (fun '(p', k') => exists l', keeps p p' /\ holed p' 0 l' /\ l' ≡ₚ l /\
    ((k' = k /\ l' = l /\ (2 <= k -> edge le l k)) \/ (k' < k /\ heap le l'))).
Proof.
  intros Hh Hk Hb. assert (zlen l = size p) as Hlen by apply Hh.
  destruct (at_exists l k) as [e He]; [lia|]. unfold PRQ_Upheap.
  rewrite assert_true by lia. rewrite obind_ok, (ith_ok p 0 l k e), obind_ok by (done || lia).
  eapply yields_bind; [apply (upheap_loop_ok _ p k e l); [lia|done|by apply holed_weaken|done|done]|].
  intros [p1 k1] (l1 & (Hk1 & Hb1 & Hh1 & He1 & Hp1) & Hres).
  eapply yields_bind; [by apply (close_ok p1 k1 e l1)|]. intros p2 (Hk2 & Hh2).
  exists l1. split; [by apply (keeps_trans _ p1)|]. done.
Qed.

Lemma downheap_ok p k l :
  holed p 0 l -> 1 <= k <= size p -> heap_down le l k ->
  yields (PRQ_Downheap p k) (fun '(p', k') => exists l', keeps p p' /\ holed p' 0 l' /\ l' ≡ₚ l /\ heap le l').
Proof.
  intros Hh Hk Hb. assert (zlen l = size p) as Hlen by apply Hh.
  destruct (at_exists l k) as [e He]; [lia|]. unfold PRQ_Downheap.
  rewrite assert_true by lia. rewrite obind_ok, (ith_ok p 0 l k e), obind_ok by (done || lia).
  eapply yields_bind; [apply (downheap_loop_ok _ p k e l); [lia|done|by apply holed_weaken|done|done]|].
  intros [p1 k1] (l1 & (Hk1 & Hb1 & Hh1 & He1 & Hp1) & Hres).
  eapply yields_bind; [by apply (close_ok p1 k1 e l1)|]. intros p2 (Hk2 & Hh2).
  exists l1. split; [by apply (keeps_trans _ p1)|]. done.
Qed.

(** ** Insertion *)
Lemma grow_vector_ok p l :
  queue p l -> queue (grow_vector p) l /\ size (grow_vector p) = size p /\
    size p < allocated_size (grow_vector p) /\ get_index_fn (grow_vector p) = get_index_fn p.
Proof.
  intros ((H1 & H2 & H3 & H4 & (Hl & Hv & Hle & Hs) & Hi) & Hheap & Ha). unfold grow_vector.
  destruct (Z.eqb_spec (size p) (allocated_size p)) as [Heq|Hne].
  2: { split; [|split; [done|split; [lia|done]]]. repeat (split; [done|]). done. }
  set (n := if _ <=? _ then _ else _).
  assert (size p < n) as Hn by (unfold n; destruct (Z.leb_spec (Z.quot (swrap 32 (size p * expansion_factor p)) 100) (size p)); lia).
  assert (length (heap_vector p) = Z.to_nat (allocated_size p)) as Hlen by (unfold zlen in Hv; lia).
  split; [|split; [done|split; [simpl; lia|done]]].
  split; [|split; [done|simpl; lia]]. repeat (split; [done|]). split; [|done].
  split; [done|]. rewrite take_ge by lia. split.
  { simpl. rewrite zlen_app, Hv. unfold zlen. rewrite length_replicate. lia. }
  split; [simpl; lia|]. simpl. intros i Hi' Hne. rewrite zlookup_app, Hv.
  destruct (Z.ltb_spec (i - 1) (allocated_size p)); [by apply Hs|lia].
Qed.

Lemma at_app_l l x i : i <= zlen l -> at_ (l ++ [x]) i = at_ l i.
Proof. intros Hi. unfold at_. rewrite zlookup_app. by destruct (Z.ltb_spec (i - 1) (zlen l)); [|lia]. Qed.

Lemma at_app_r l x : at_ (l ++ [x]) (zlen l + 1) = Some x.
Proof.
  unfold at_. rewrite zlookup_app. destruct (Z.ltb_spec (zlen l + 1 - 1) (zlen l)); [lia|].
  by replace (zlen l + 1 - 1 - zlen l) with 0 by lia.
Qed.

Lemma at_none l i : zlen l < i -> at_ l i = None.
Proof. intros H. apply zlookup_None. lia. Qed.

Lemma zlen_snoc l x : zlen (l ++ [x]) = zlen l + 1.
Proof. by rewrite zlen_app. Qed.

Lemma snoc_heap_but l x : heap le l -> heap_but le (l ++ [x]) (zlen l + 1).
Proof.
  intros H. pose proof (zlen_nonneg l). split.
  - intros i Hi Hne _ a b Ha Hb. pose proof (at_bounds _ _ _ Hb) as Hb'. rewrite zlen_snoc in Hb'.
    assert (i / 2 <= i) by (Z.div_mod_to_equations; lia). rewrite at_app_l in Ha, Hb by lia. by apply (H i).
  - intros c a b Hk Hc _ Hb. rewrite at_none in Hb; [done|]. rewrite zlen_snoc. Z.div_mod_to_equations; lia.
Qed.

(** A distinct element, as far as the callbacks need it. *)
Definition insertable p l (x : A) : Prop := get_index_fn p <> None -> x ∉ l.

Lemma snoc_holed p l x :
  queue p l -> size p < allocated_size p -> size p < PRQ_LIMIT -> insertable p l x ->
  holed (with_size p (size p + 1)) (size p + 1) (l ++ [x]).
Proof.
  intros ((H1 & H2 & H3 & H4 & (Hl & Hv & Hle & Hs) & Hi) & Hheap & Ha) Hlt Hlim Hx.
  split; [done|]. split; [simpl; lia|]. split; [done|]. split; [done|]. split.
  - split; [rewrite zlen_snoc; simpl; lia|]. split; [done|]. split; [simpl; lia|].
    simpl. intros i Hi' Hne. rewrite at_app_l by lia. apply Hs; lia.
  - unfold indexed, insertable in *. simpl. destruct (get_index_fn p) as [g|]; [|done].
    destruct Hi as [Hn Hi]. split.
    + apply NoDup_app. split; [done|]. split; [|apply NoDup_singleton].
      intros y Hy ->%list_elem_of_singleton. by apply Hx.
    + intros i y Hy Hne. pose proof (at_bounds _ _ _ Hy) as Hb. rewrite zlen_snoc in Hb.
      rewrite at_app_l in Hy by lia. apply Hi; [done|lia].
Qed.

Lemma queue_of_holed p p' l :
  keeps p p' -> 0 < allocated_size p -> holed p' 0 l -> heap le l -> queue p' l.
Proof. intros (_ & _ & Ha & _) H0 Hh Hl. split; [done|]. split; [done|]. lia. Qed.

Lemma insert_ok p l x :
  queue p l -> size p < PRQ_LIMIT -> insertable p l x ->
  yields (PRQ_Insert p x) (fun p' => exists l', queue p' l' /\ l' ≡ₚ x :: l /\ size p' = size p + 1 /\
    get_index_fn p' = get_index_fn p).
Proof.
  intros Hq Hlim Hx. destruct (grow_vector_ok p l Hq) as (Hq1 & Hs1 & Ha1 & Hg1). unfold PRQ_Insert.
  set (p1 := grow_vector p) in *. rewrite <- Hs1 in Hlim, Ha1.
  assert (insertable p1 l x) as Hx1 by (unfold insertable in *; by rewrite Hg1).
  pose proof (snoc_holed p1 l x Hq1 Ha1 Hlim Hx1) as Hh.
  assert (zlen l = size p1) as Hlen by apply Hq1. simpl size at 1.
  assert (0 <= size p1) by (rewrite <- Hlen; apply zlen_nonneg).
  eapply yields_bind; [apply (close_ok _ (size p1 + 1) x (l ++ [x])); [done|rewrite <- Hlen; apply at_app_r]|].
  intros p2 (Hk2 & Hh2). assert (size p2 = size p1 + 1) as -> by apply Hk2.
  assert (0 < allocated_size p1) by apply Hq1.
  assert (size p2 = size p1 + 1 /\ allocated_size p2 = allocated_size p1 /\ get_index_fn p2 = get_index_fn p1)
    as (Hs2 & Hal2 & Hg2) by (split; [apply Hk2|split; apply Hk2]).
  eapply yields_bind; [apply (upheap_ok p2 (size p1 + 1) (l ++ [x])); [done|lia|]|].
  { rewrite <- Hlen. apply snoc_heap_but, Hq1. }
  intros [p3 k3] (l3 & Hk3 & Hh3 & Hp3 & Hres). simpl. exists l3.
  split; [|split; [rewrite Hp3; symmetry; apply Permutation_cons_append|split; [|destruct Hk3 as (_ & _ & _ & _ & -> & _); congruence]]].
  2: { destruct Hk3 as (_ & -> & _). lia. }
  apply (queue_of_holed p2); [done|lia|done|].
  destruct Hres as [(-> & -> & Hedge)|[_ Hheap]]; [|done].
  apply (heap_of_down le _ (size p1 + 1)).
  { apply heap_down_of_but; [|done]. rewrite <- Hlen. apply snoc_heap_but, Hq1. }
  intros i Hi Hd a b _ Hb. rewrite at_none in Hb; [done|]. rewrite zlen_snoc. Z.div_mod_to_equations; lia.
Qed.

(** ** Removal *)

(** The list without its last element. *)
Definition front l : list A := take (Z.to_nat (zlen l - 1)) l.

Lemma front_snoc l b : at_ l (zlen l) = Some b -> l = front l ++ [b].
Proof.
  intros Hb. pose proof (at_bounds _ _ _ Hb). unfold front, at_, zlookup, zlen in *.
  destruct (Z.leb_spec 0 (Z.of_nat (length l) - 1)); [|lia].
  rewrite <- (take_drop (Z.to_nat (Z.of_nat (length l) - 1)) l) at 1. f_equal.
  apply list_eq. intros [|n].
  - rewrite lookup_drop, Nat.add_0_r. done.
  - rewrite lookup_drop, lookup_ge_None_2 by lia. done.
Qed.

Lemma zlen_front l : 1 <= zlen l -> zlen (front l) = zlen l - 1.
Proof. unfold front, zlen. intros H. rewrite length_take. lia. Qed.

Lemma at_front l i : i < zlen l -> at_ (front l) i = at_ l i.
Proof.
  intros Hi. unfold front, at_, zlookup, zlen in *. destruct (Z.leb_spec 0 (i - 1)); [|done].
  by rewrite lookup_take_lt by lia.
Qed.

Lemma front_at l i : at_ (front l) i = at_ l i \/ at_ (front l) i = None.
Proof.
  destruct (Z.lt_ge_cases i (zlen l)); [left; by apply at_front|]. right.
  apply zlookup_None. unfold front, zlen in *. rewrite length_take. lia.
Qed.

(** Forgetting the last element. *)
Lemma front_queue p l b :
  queue p l -> at_ l (size p) = Some b ->
  queue (with_size p (size p - 1)) (front l) /\ l ≡ₚ b :: front l.
Proof.
  intros ((H1 & H2 & H3 & H4 & (Hl & Hv & Hle & Hs) & Hi) & Hheap & Ha) Hb.
  pose proof (at_bounds _ _ _ Hb). rewrite <- Hl in Hb.
  pose proof (front_snoc l b Hb) as Hsnoc. split.
  2: { rewrite Hsnoc at 1. symmetry. apply Permutation_cons_append. }
  split; [|split; [|done]].
  - split; [done|]. split; [simpl; lia|]. split; [done|]. split; [done|]. split.
    + split; [simpl; rewrite zlen_front; lia|]. split; [done|]. split; [simpl; lia|].
      simpl. intros i Hi' _. rewrite at_front by lia. apply Hs; lia.
    + unfold indexed in *. simpl. destruct (get_index_fn p); [|done]. destruct Hi as [Hn Hi].
      split; [rewrite Hsnoc in Hn; by apply NoDup_app in Hn as [Hn _]|]. intros i x Hx Hne.
      destruct (front_at l i) as [E|E]; [|congruence]. apply Hi; [congruence|done].
  - apply (heap_take le l); [apply front_at|done].
Qed.

(** Putting the last element in the place of the one at [k]. *)
Lemma replace_holed p l k e b :
  queue p l -> 1 <= k < size p -> at_ l k = Some e -> at_ l (size p) = Some b ->
  let l1 := zinsert (front l) (k - 1) b in
  l ≡ₚ e :: l1 /\ holed (with_size p (size p - 1)) k l1 /\ heap_but le l1 k /\ at_ l1 k = Some b.
Proof.
  intros Hq Hk He Hb. destruct (front_queue p l b Hq Hb) as [((H1 & H2 & H3 & H4 & (Hl & Hv & Hle & Hs) & Hi) & Hheap & Ha) Hperm].
  assert (zlen l = size p) as Hlen by apply Hq. simpl in Hl, Hs.
  assert (at_ (front l) k = Some e) as He1 by (by rewrite at_front by lia). cbv zeta.
  set (l1 := zinsert (front l) (k - 1) b).
  assert (forall i, i <> k -> at_ l1 i = at_ (front l) i) as Hat.
  { intros i Hne. unfold l1. rewrite at_insert by lia. by destruct (Z.eqb_spec i k). }
  assert (l ≡ₚ e :: l1) as Hp1 by (rewrite Hperm; apply zinsert_perm, He1).
  split; [done|]. split; [|split].
  - split; [done|]. split; [done|]. split; [done|]. split; [done|]. split.
    + split; [unfold l1; by rewrite zlen_zinsert|]. split; [done|]. split; [done|].
      simpl. intros i Hi' Hne. rewrite Hat by done. apply Hs; lia.
    + destruct Hq as ((_ & _ & _ & _ & _ & Hidx) & _). unfold indexed in *. simpl in *.
      destruct (get_index_fn p); [|done]. destruct Hi as [_ Hi], Hidx as [Hn _]. split.
      * rewrite Hp1 in Hn. by apply NoDup_cons in Hn as [_ Hn].
      * intros i x Hx Hne. rewrite Hat in Hx by done. pose proof (at_bounds _ _ _ Hx). apply Hi; [done|lia].
  - destruct (heap_but_of le le_trans (front l) k Hheap) as [HE HG]. split.
    + intros i Hi' Hne Hd a c Ha' Hc. rewrite Hat in Ha', Hc by done. by apply (HE i).
    + intros c x y Hk2 Hc Hx Hy. rewrite Hat in Hx, Hy by (Z.div_mod_to_equations; lia). by apply (HG c).
  - unfold l1. rewrite at_insert by lia. by rewrite Z.eqb_refl.
Qed.

(** After a removal: [x] is gone, the rest is there. *)
Definition removed p l (x : A) (p' : PRQ A C) : Prop :=
  exists l', queue p' l' /\ l ≡ₚ x :: l' /\ size p' = size p - 1.

Lemma delete_top_ok p l r :
  queue p l -> at_ l 1 = Some r ->
  yields (PRQ_Delete_Top p) (fun '(p', x) => x = r /\ removed p l x p').
Proof.
  intros Hq Hr. pose proof (at_bounds _ _ _ Hr). assert (zlen l = size p) as Hlen by apply Hq.
  unfold PRQ_Delete_Top. rewrite assert_true by lia. rewrite obind_ok.
  rewrite (ith_ok p 0 l 1 r), obind_ok by (apply Hq || done).
  destruct (Z.eqb_spec (size p) 1) as [E|Hne].
  - split; [done|]. exists (front l). rewrite <- E in Hr. destruct (front_queue p l r Hq Hr) as [Hf Hp].
    rewrite E in *. done.
  - destruct (at_exists l (size p)) as [b Hb]; [lia|].
    rewrite (ith_ok p 0 l (size p) b), obind_ok by (apply Hq || done || lia).
    destruct (replace_holed p l 1 r b Hq ltac:(lia) Hr Hb) as (Hperm & Hh & Hbut & Hat).
    eapply yields_bind; [by apply (close_ok _ 1 b _ Hh Hat)|]. intros p2 (Hk2 & Hh2).
    assert (size p2 = size p - 1 /\ 0 < allocated_size p2) as (Hs2 & Ha2).
    { destruct Hk2 as (_ & -> & -> & _). split; [done|]. apply Hq. }
    eapply yields_bind; [apply (downheap_ok p2 1); [exact Hh2|lia|apply heap_down_of_but; [done|lia]]|].
    intros [p3 k3] (l3 & Hk3 & Hh3 & Hp3 & Hheap). simpl. split; [done|]. exists l3.
    split; [by apply (queue_of_holed p2)|]. split; [by rewrite Hp3|].
    destruct Hk3 as (_ & -> & _). done.
Qed.

Lemma remove_at_ok p l k x :
  queue p l -> at_ l k = Some x -> find_index p x = Ok k ->
  yields (PRQ_Remove p x) (removed p l x).
Proof.
  intros Hq Hx Hfind. pose proof (at_bounds _ _ _ Hx). assert (zlen l = size p) as Hlen by apply Hq.
  unfold PRQ_Remove. rewrite assert_true by lia. rewrite obind_ok, Hfind, obind_ok. unfold UNDEFINED.
  rewrite assert_true by lia. rewrite obind_ok. destruct (Z.eqb_spec k (size p)) as [->|Hne].
  - exists (front l). destruct (front_queue p l x Hq Hx) as [Hf Hp]. done.
  - destruct (at_exists l (size p)) as [b Hb]; [lia|].
    rewrite (ith_ok p 0 l (size p) b), obind_ok by (apply Hq || done || lia).
    destruct (replace_holed p l k x b Hq ltac:(lia) Hx Hb) as (Hperm & Hh & Hbut & Hat).
    eapply yields_bind; [by apply (close_ok _ k b _ Hh Hat)|]. intros p2 (Hk2 & Hh2).
    assert (size p2 = size p - 1 /\ 0 < allocated_size p2) as (Hs2 & Ha2).
    { destruct Hk2 as (_ & -> & -> & _). split; [done|]. apply Hq. }
    eapply yields_bind; [apply (upheap_ok p2 k); [exact Hh2|lia|done]|].
    intros [p3 k3] (l3 & Hk3 & Hh3 & Hp3 & Hres). cbv iota beta.
    assert (size p3 = size p - 1 /\ 0 < allocated_size p3) as (Hs3 & Ha3).
    { destruct Hk3 as (_ & -> & -> & _). done. }
    destruct Hres as [(-> & -> & Hedge)|[Hlt Hheap]].
    + rewrite Z.eqb_refl.
      eapply yields_bind; [apply (downheap_ok p3 k); [exact Hh3|lia|by apply heap_down_of_but]|].
      intros [p4 k4] (l4 & Hk4 & Hh4 & Hp4 & Hheap). exists l4.
      split; [by apply (queue_of_holed p3)|]. split; [by rewrite Hp4|]. destruct Hk4 as (_ & -> & _). done.
    + destruct (Z.eqb_spec k k3); [lia|]. exists l3.
      split; [by apply (queue_of_holed p2)|]. split; [by rewrite Hp3|done].
Qed.

(** ** Finding an element *)
Lemma elem_at l x : x ∈ l <-> exists i, at_ l i = Some x.
Proof.
  split.
  - intros [n Hn]%list_elem_of_lookup. exists (Z.of_nat n + 1). unfold at_, zlookup.
    destruct (Z.leb_spec 0 (Z.of_nat n + 1 - 1)); [|lia].
    by replace (Z.to_nat (Z.of_nat n + 1 - 1)) with n by lia.
  - intros [i Hi]. unfold at_, zlookup in Hi. destruct (0 <=? i - 1); [|done].
    by eapply list_elem_of_lookup_2.
Qed.

Lemma search_index_ok p l x :
  queue p l ->
  yields (search_ 1 (size p + 1) (fun i =>
     let* y := PRQ_Ith p i in Ok (if bool_decide (y = x) then Some i else None)))
    (fun r => match r with Some k => at_ l k = Some x | None => x ∉ l end).
Proof.
  intros Hq. assert (zlen l = size p) as Hlen by apply Hq.
  eapply yields_mono; [apply (yields_search (fun i => at_ l i <> Some x) (fun i k => k = i /\ at_ l i = Some x))|].
  - intros i Hi. destruct (at_exists l i) as [y Hy]; [lia|].
    rewrite (ith_ok p 0 l i y) by (apply Hq || done || lia). rewrite obind_ok. simpl.
    case_bool_decide; [by subst|]. congruence.
  - intros [k|]; simpl; [by intros (i & _ & [-> ?] & _)|].
    intros Hno [i Hi]%elem_at. pose proof (at_bounds _ _ _ Hi). by apply (Hno i); [lia|].
Qed.

Lemma find_index_ok p l x :
  queue p l -> x ∈ l -> exists k, find_index p x = Ok k /\ at_ l k = Some x.
Proof.
  intros Hq Hx. unfold find_index. pose proof Hq as ((_ & _ & _ & _ & _ & Hidx) & _). unfold indexed in Hidx.
  destruct (get_index_fn p) as [g|] eqn:Eg.
  - destruct Hidx as [_ Hi]. apply elem_at in Hx as [k Hk]. pose proof (at_bounds _ _ _ Hk).
    exists k. split; [|done]. rewrite (Hi k x) by (done || lia).
    rewrite (ith_ok p 0 l k x) by (apply Hq || done || lia). rewrite obind_ok.
    by rewrite bool_decide_eq_true_2 by done.
  - pose proof (search_index_ok p l x Hq) as Hs. destruct (search_ _ _ _) as [[k|]|]; simpl in *; [|done|done].
    exists k. done.
Qed.

Lemma prq_initialize_ok get_fn set_fn c n f :
  index_laws (PRQ_Initialize cmp get_fn set_fn n f c) -> queue (PRQ_Initialize cmp get_fn set_fn n f c) [].
Proof.
  intros Hlaw. unfold PRQ_Initialize in *. set (n' := if n <=? 0 then 200 else n).
  assert (0 < n') by (unfold n'; destruct (Z.leb_spec n 0); lia).
  split; [|split; [intros i Hi2 a b Ha Hb; by rewrite at_none in Hb by (unfold zlen; simpl; lia)|done]].
  split; [done|]. split; [done|]. split; [simpl; destruct (Z.leb_spec f 100); lia|]. split; [done|]. split.
  - split; [done|]. split; [simpl; unfold zlen; rewrite length_replicate; lia|]. split; [simpl; lia|].
    simpl. lia.
  - unfold indexed. simpl. destruct get_fn; [|done]. split; [constructor|].
    intros i y Hy. apply at_bounds in Hy. unfold zlen in Hy. simpl in Hy. lia.
Qed.

(** [PRQ_Initialize] gives an empty queue and [PRQ_Insert] adds one element:
    the heap, the vector and the positions stored in the elements stay
    consistent, whether or not the vector has to grow, and the elements
    are those from before and the new one. *)
Theorem prq_insert_adds p l x get_fn set_fn c n f
    (Hq : queue p l) (Hs : size p < PRQ_LIMIT) (Hx : insertable p l x)
    (Hlaw : index_laws (PRQ_Initialize cmp get_fn set_fn n f c)) :
  queue (PRQ_Initialize cmp get_fn set_fn n f c) [] /\
  yields (PRQ_Insert p x) (fun p' => exists l', queue p' l' /\ l' ≡ₚ x :: l /\ PRQ_Size p' = PRQ_Size p + 1).
Proof.
  split; [by apply prq_initialize_ok|].
  eapply yields_mono; [by apply insert_ok|]. intros p' (l' & Hq' & Hp & Hsz & _). exists l'. done.
Qed.

(** [PRQ_Top] and [PRQ_Delete_Top] return an element that none of the queue
    precedes; [PRQ_Delete_Top] removes exactly that element and keeps the
    invariant. *)
Theorem prq_top_first p l (Hq : queue p l) (Hne : l <> []) :
  yields (PRQ_Top p) (fun x => x ∈ l /\ forall y, y ∈ l -> cmp y x = false) /\
  yields (PRQ_Delete_Top p) (fun '(p', x) => PRQ_Top p = Ok x /\ removed p l x p').
Proof.
  assert (zlen l = size p) as Hlen by apply Hq.
  assert (0 < size p) as Hpos by (rewrite <- Hlen; unfold zlen; destruct l; [done|simpl; lia]).
  destruct (at_exists l 1) as [r Hr]; [lia|].
  assert (PRQ_Top p = Ok r) as Htop.
  { unfold PRQ_Top. rewrite assert_true by lia. apply (ith_ok p 0 l 1 r); [apply Hq|done|done]. }
  split.
  - rewrite Htop. split; [apply elem_at; eauto|]. intros y [i Hi]%elem_at.
    apply (heap_root le le_trans l r i y le_refl); [apply Hq|done|done].
  - eapply yields_mono; [by apply delete_top_ok|]. intros [p' x] [-> Hrem]. done.
Qed.

(** [PRQ_Remove] takes an element of the queue out, wherever it is in the
    heap and whether it is found by its stored position or by search, and
    keeps the invariant; [PRQ_Reset] empties the queue. *)
Theorem prq_remove_removes p l x (Hq : queue p l) (Hx : x ∈ l) :
  yields (PRQ_Remove p x) (removed p l x) /\ queue (PRQ_Reset p) [].
Proof.
  split.
  - destruct (find_index_ok p l x Hq Hx) as (k & Hf & Hk). by apply (remove_at_ok p l k x).
  - destruct Hq as ((H1 & H2 & H3 & H4 & (Hl & Hv & Hle & Hs) & Hi) & Hheap & Ha).
    split; [|split; [intros i Hi2 a b _ Hb; by rewrite at_none in Hb by (unfold zlen; simpl; lia)|done]].
    repeat (split; [done|]). split.
    + split; [done|]. split; [done|]. split; [simpl; lia|]. simpl. lia.
    + unfold indexed in *. simpl. destruct (get_index_fn p); [|done]. split; [constructor|].
      intros i y Hy. apply at_bounds in Hy. unfold zlen in Hy. simpl in Hy. lia.
Qed.

(** ** Errors *)
Lemma upheap_out p k : size p < k -> PRQ_Upheap p k = Err Assertion.
Proof. intros H. unfold PRQ_Upheap. by destruct (Z.leb_spec k (size p)); [lia|]. Qed.

Lemma set_ith_size p k y p' : PRQ_Set_Ith p k y = Ok p' -> size p' = size p.
Proof. unfold PRQ_Set_Ith. intros (v & _ & [= <-])%obind_inv. done. Qed.

(** A position that holds [x] although [x] is not queued is behind the heap. *)
Lemma stale_position p l k x :
  queue p l -> PRQ_Ith p k = Ok x -> x ∉ l -> size p < k.
Proof.
  intros Hq Hk Hx. destruct (Z.lt_ge_cases (size p) k); [done|]. destruct Hx. apply elem_at. exists k.
  unfold PRQ_Ith in Hk. apply obind_inv in Hk as (slot & Hrd & Hslot). apply rd_inv in Hrd.
  pose proof (zlookup_lt _ _ _ Hrd). destruct Hq as ((_ & _ & _ & _ & (_ & _ & _ & Hs) & _) & _).
  rewrite Hs in Hrd by lia. destruct slot as [y|]; simplify_eq/=. by rewrite Hrd.
Qed.

Lemma remove_absent p l x : queue p l -> x ∉ l -> exists f, PRQ_Remove p x = Err f.
Proof.
  intros Hq Hx. unfold PRQ_Remove. destruct (0 <? size p) eqn:Es; [|by eexists].
  simpl assert_. rewrite obind_ok. unfold find_index. destruct (get_index_fn p) as [g|].
  - set (k := g (elements p) x). destruct (PRQ_Ith p k) as [y|f] eqn:Ek; [|by eexists].
    rewrite obind_ok. case_bool_decide as Exy; [|by eexists]. subst y. simpl assert_. rewrite !obind_ok.
    pose proof (stale_position p l k x Hq Ek Hx) as Hk. unfold UNDEFINED.
    rewrite assert_true by lia. rewrite obind_ok. destruct (Z.eqb_spec k (size p)); [lia|].
    destruct (PRQ_Ith p (size p)) as [b|f]; [|by eexists]. rewrite obind_ok.
    destruct (PRQ_Set_Ith _ k b) as [p'|f] eqn:Ep; [|by eexists]. rewrite obind_ok.
    apply set_ith_size in Ep. simpl in Ep. rewrite upheap_out by lia. by eexists.
  - pose proof (search_index_ok p l x Hq) as Hs.
    destruct (search_ _ _ _) as [[k|]|f]; simpl in Hs; [|by eexists|done].
    destruct Hx. apply elem_at. eauto.
Qed.

(** Errors: on an empty queue [PRQ_Top], [PRQ_Delete_Top] and [PRQ_Remove]
    stop at their assertion; [PRQ_Remove] of an element that is not queued
    never returns, even when a position from earlier is still stored in the
    element and its slot still holds it; and position 0, at which the loop in
    the comment of [priority_queue.h] starts, is outside the vector. *)
Theorem prq_errors p l x (Hq : queue p l) :
  (l = [] -> PRQ_Top p = Err Assertion /\ PRQ_Delete_Top p = Err Assertion /\ PRQ_Remove p x = Err Assertion) /\
  (x ∉ l -> exists f, PRQ_Remove p x = Err f) /\
  PRQ_Ith p 0 = Err Bounds.
Proof.
  split; [|split].
  - intros ->. assert (size p = 0) as Hs by (symmetry; apply Hq).
    unfold PRQ_Top, PRQ_Delete_Top, PRQ_Remove. by rewrite Hs.
  - by apply remove_absent.
  - unfold PRQ_Ith. by rewrite rd_bounds by lia.
Qed.

(** Taking everything out. *)
Fixpoint drain (n : nat) (p : PRQ A C) : outcome (list A) :=
  match n with
  | O => Ok []
  | S n' =>
      let* ' (p, x) := PRQ_Delete_Top p in
      let* rest := drain n' p in
      Ok (x :: rest)
  end.

Lemma drain_ok n p l :
  queue p l -> length l = n -> yields (drain n p) (fun r => r ≡ₚ l /\ StronglySorted le r).
Proof.
  revert p l. induction n as [|n IH]; intros p l Hq Hl; cbn [drain].
  - apply nil_length_inv in Hl as ->. split; [done|constructor].
  - assert (zlen l = size p) as Hlen by apply Hq. destruct (at_exists l 1) as [r Hr]; [unfold zlen; lia|].
    eapply yields_bind; [by apply (delete_top_ok p l r)|]. intros [p' x] [-> (l' & Hq' & Hp & _)].
    assert (length l = S (length l')) as Hlen' by (by rewrite Hp).
    eapply yields_bind; [apply (IH p' l' Hq'); lia|]. intros rest [Hpr Hsort]. simpl.
    split; [by rewrite Hp, Hpr|]. constructor; [done|]. apply Forall_forall. intros y Hy.
    rewrite Hpr in Hy. assert (y ∈ l) as [i Hi]%elem_at by (rewrite Hp; by right).
    apply (heap_root le le_trans l r i y le_refl); [apply Hq|done|done].
Qed.

(** Putting elements in, one after the other. *)
Fixpoint insert_all (l : list A) (p : PRQ A C) : outcome (PRQ A C) :=
  match l with
  | [] => Ok p
  | x :: l' => let* p := PRQ_Insert p x in insert_all l' p
  end.

Lemma insert_all_ok l p l0 :
  queue p l0 -> zlen l0 + zlen l <= PRQ_LIMIT -> (get_index_fn p <> None -> NoDup (l ++ l0)) ->
  yields (insert_all l p) (fun p' => exists l', queue p' l' /\ l' ≡ₚ l ++ l0).
Proof.
  revert p l0. induction l as [|x l IH]; intros p l0 Hq Hlim Hd; cbn [insert_all]; [by exists l0|].
  assert (zlen l0 = size p) as Hsz by apply Hq. pose proof (zlen_nonneg l).
  assert (zlen (x :: l) = zlen l + 1) by (unfold zlen; cbn [length]; lia).
  eapply yields_bind; [apply (insert_ok p l0 x Hq); [lia|]|].
  { intros Hg Hx. specialize (Hd Hg). apply NoDup_cons in Hd as [Hd _]. apply Hd, elem_of_app. by right. }
  intros p1 (l1 & Hq1 & Hp1 & Hs1 & Hg1).
  assert (zlen l1 = zlen l0 + 1) by (unfold zlen in *; rewrite Hp1; cbn [length]; lia).
  eapply yields_mono; [apply (IH p1 l1 Hq1); [lia|]|].
  - rewrite Hg1, Hp1. intros Hg. rewrite <- Permutation_middle. by apply Hd.
  - intros p' (l' & Hq' & Hp'). exists l'. split; [done|]. rewrite Hp', Hp1. symmetry. apply Permutation_middle.
Qed.

(** C21. A queue sorts.  After [PRQ_Initialize] and one [PRQ_Insert] for each element of any
    list, [PRQ_Size] is the length of the list, and [PRQ_Delete_Top] as often
    returns all of its elements in the order of the comparison function.  The list has
    at most [PRQ_LIMIT] = 2^30 - 1 elements, so that child positions fit in an [INT32];
    the comparison function is a strict weak order ([Precedence]);
    when the client keeps the positions in its elements, they are distinct and its
    callbacks return what they stored. *)
Theorem prq_drain_sorted l get_fn set_fn c n f
    (Hlen : zlen l <= PRQ_LIMIT) (Hdistinct : get_fn <> None -> NoDup l)
    (Hlaw : index_laws (PRQ_Initialize cmp get_fn set_fn n f c)) :
  yields (let* p := insert_all l (PRQ_Initialize cmp get_fn set_fn n f c) in
          let* r := drain (Z.to_nat (PRQ_Size p)) p in
          Ok (PRQ_Size p, r))
    (fun '(s, r) => s = zlen l /\ r ≡ₚ l /\ StronglySorted (fun a b => cmp b a = false) r).
Proof.
  eapply yields_bind; [apply (insert_all_ok l _ []); [by apply prq_initialize_ok|done|by rewrite app_nil_r]|].
  intros p (l' & Hq & Hp). rewrite app_nil_r in Hp. unfold PRQ_Size. assert (size p = zlen l') as -> by (symmetry; apply Hq).
  eapply yields_bind; [apply (drain_ok _ p l' Hq); unfold zlen; lia|]. intros r [Hr Hs]. simpl.
  split; [unfold zlen; by rewrite Hp|]. split; [by rewrite Hr|done].
Qed.
End Props.

(** * Witnesses: a queue of integers that keep their position in a table *)
Lemma Z_ltb_precedence : Precedence Z.ltb.
Proof. split; intros *; lia. Qed.

Definition table := list (Z * Z).
Definition get_position (c : table) (x : Z) : Z :=
  match list_find (fun e => fst e = x) c with Some (_, e) => snd e | None => 0 end.
Definition set_position (c : table) (x i : Z) : table := (x, i) :: c.

Lemma position_law c x i y :
  get_position (set_position c x i) y = if decide (x = y) then i else get_position c y.
Proof.
  unfold get_position, set_position. simpl. destruct (decide (x = y)); [done|].
  by destruct (list_find _ c) as [[]|].
Qed.

Definition empty_queue : PRQ Z table :=
  PRQ_Initialize Z.ltb (Some get_position) (Some set_position) 2 150 [].

Lemma empty_queue_laws : index_laws empty_queue.
Proof. exact position_law. Qed.

Lemma empty_queue_ok : queue Z.ltb empty_queue [].
Proof.
  split; [|split; [intros i Hi a b _ Hb; by rewrite at_none in Hb by (unfold zlen; simpl; lia)|done]].
  repeat (split; [done|]). split; [exact position_law|]. split.
  - repeat (split; [done|]). simpl. lia.
  - split; [constructor|]. intros i y Hy. apply at_bounds in Hy. unfold zlen in Hy. simpl in Hy. lia.
Qed.

(** Three elements, no positions kept. *)
Definition queue3 : PRQ Z unit :=
  mkPRQ Z.ltb 3 4 200 None None [Some 1; Some 3; Some 8; None] ().

Lemma queue3_ok : queue Z.ltb queue3 [1; 3; 8].
Proof.
  split; [|split; [|done]].
  - repeat (split; [done|]). split; [|done]. repeat (split; [done|]). simpl.
    intros i Hi _. assert (i = 1 \/ i = 2 \/ i = 3) as [->|[->| ->]] by lia; done.
  - intros i Hi a b Ha Hb. pose proof (at_bounds _ _ _ Hb) as Hi'. unfold zlen in Hi'. simpl in Hi'.
    assert (i = 2 \/ i = 3) as [->| ->] by lia; injection Ha as <-; injection Hb as <-; done.
Qed.

Lemma prq_insert_adds_witness :
  yields (PRQ_Insert empty_queue 5) (fun p' => exists l', queue Z.ltb p' l' /\ l' ≡ₚ [5] /\
    PRQ_Size p' = 1).
Proof.
  destruct (prq_insert_adds (PREC := Z_ltb_precedence) Z.ltb empty_queue [] 5 (Some get_position)
    (Some set_position) [] 2 150) as [_ H]; [exact empty_queue_ok|done|by intros _ ?%not_elem_of_nil|
    exact empty_queue_laws|exact H].
Defined.

Lemma prq_top_first_witness :
  yields (PRQ_Delete_Top queue3) (fun '(p', x) => PRQ_Top queue3 = Ok x /\ removed Z.ltb queue3 [1; 3; 8] x p') /\
  PRQ_Top queue3 = Ok 1.
Proof.
  split; [|by vm_compute].
  destruct (prq_top_first (PREC := Z_ltb_precedence) Z.ltb queue3 [1; 3; 8]) as [_ H];
    [exact queue3_ok|done|exact H].
Defined.

Lemma prq_remove_removes_witness :
  yields (PRQ_Remove queue3 3) (removed Z.ltb queue3 [1; 3; 8] 3).
Proof.
  destruct (prq_remove_removes (PREC := Z_ltb_precedence) Z.ltb queue3 [1; 3; 8] 3) as [H _];
    [exact queue3_ok|right; left|exact H].
Defined.

Lemma prq_errors_witness : exists f, PRQ_Remove queue3 7 = Err f.
Proof.
  destruct (prq_errors Z.ltb queue3 [1; 3; 8] 7) as (_ & H & _);
    [exact queue3_ok|]. apply H. intros Hin. apply list_elem_of_In in Hin. simpl in Hin. lia.
Defined.

Lemma prq_drain_sorted_witness :
  yields (let* p := insert_all [8; 3; 5; 1] empty_queue in let* r := drain (Z.to_nat (PRQ_Size p)) p in Ok (PRQ_Size p, r))
    (fun '(s, r) => s = 4 /\ r ≡ₚ [8; 3; 5; 1] /\ StronglySorted (fun a b => (b <? a) = false) r) /\
  (let* p := insert_all [8; 3; 5; 1] empty_queue in drain 4 p) = Ok [1; 3; 5; 8].
Proof.
  split; [|by vm_compute].
  apply (prq_drain_sorted (PREC := Z_ltb_precedence) Z.ltb [8; 3; 5; 1] (Some get_position) (Some set_position) [] 2 150);
    [by vm_compute|intros _; by apply (bool_decide_unpack _)|exact empty_queue_laws].
Defined.
