(* ===== verification/OmpSchedule.v ===== *)
(** OpenMP work-sharing loops: the model of [libopenmp/schedule.c].

    A loop runs over [lower], [lower + inc], ... up to [upper] (down to it when
    [inc] is negative).  [__pmp_static_init] is a function of the thread's
    number; [__pmp_schedule_next] is split at its accesses to the loop
    structure that the threads of a team share, so that the steps of several
    threads can be interleaved.  The [int64_t] expressions of
    [__pmp_static_init] and the additions of [__pmp_loop_analyser] wrap around, and so
    do the atomic additions and the conversions to [int]; other arithmetic on loop
    values is on [Z] (its overflow is undefined in C), where the theorems assume that
    the loop ends far enough from the limits of [int64_t]. *)
From Stdlib Require Import ZArith Lia Bool.
From stdpp Require Import prelude list.
From S2P Require Import Prelude.

Definition PMP_SCHED_STATIC : Z := 1.
Definition PMP_SCHED_STATIC_EVEN : Z := 2.
Definition PMP_SCHED_DYNAMIC : Z := 3.
Definition PMP_SCHED_GUIDED : Z := 4.
Definition PMP_SCHED_RUNTIME : Z := 5.
Definition PMP_SCHED_ORDERED_STATIC : Z := 33.
Definition PMP_SCHED_ORDERED_STATIC_EVEN : Z := 34.
Definition PMP_SCHED_ORDERED_DYNAMIC : Z := 35.
Definition PMP_SCHED_ORDERED_GUIDED : Z := 36.
Definition PMP_SCHED_ORDERED_RUNTIME : Z := 37.
Definition PMP_SCHED_ORDERED_OFFSET : Z := PMP_SCHED_ORDERED_STATIC - PMP_SCHED_STATIC.

(** The fields of [pmp_param_t] that scheduling reads; [analyse] is
    [__pmp_profile.enabled || param->check]. *)
Record pmp_param : Type := mkParam {
  static_fair : bool;
  runtime_schedule : Z;
  runtime_chunk : Z;
  guided_chunk_divisor : Z;
  guided_chunk_max : Z;
  analyse : bool
}.

(** [MIN]/[MAX] in the direction of the loop, and [a] not past [b]. *)
Definition LOOPMIN (i a b : Z) : Z := if 0 <=? i then Z.min a b else Z.max a b.
Definition LOOPMAX (i a b : Z) : Z := if 0 <=? i then Z.max a b else Z.min a b.
Definition loop_le (inc a b : Z) : bool := if 0 <=? inc then a <=? b else b <=? a.

(** The value of an [int64_t] expression. *)
Abbreviation i64 := (swrap 64).

(** * The analyser: the iterations that the compiled loop executes

    The analyser has two copies of its loops, for increasing and for decreasing
    loops, which differ in the direction of the comparisons. *)

(** [for (i = 0; i < chunk && inner <= my_upper; i++)]: the checked values and
    the final [inner] *)
Fixpoint inner_visits (n : nat) (inc inner my_upper : Z) : list Z * Z :=
  match n with
  | O => ([], inner)
  | S n' =>
      if loop_le inc inner my_upper then
        let '(l, e) := inner_visits n' inc (i64 (inner + inc)) my_upper in (inner :: l, e)
      else ([], inner)
  end.

(** The outer loop: the checked values and the number of [__pmp_last_check]s *)
Fixpoint outer_visits (fuel : nat) (inc chunk stride outer my_upper loop_upper : Z)
    : outcome (list Z * Z) :=
  if loop_le inc outer loop_upper then
    match fuel with
    | O => Err Timeout
    | S f =>
        let '(l, inner) := inner_visits (Z.to_nat chunk) inc outer my_upper in
        let last := if negb (loop_le inc inner loop_upper) then 1 else 0 in
        if stride =? 0 then Ok (l, last)
        else
          let* ' (l', n) := outer_visits f inc chunk stride (i64 (outer + stride))
                              (LOOPMIN inc (i64 (my_upper + stride)) loop_upper) loop_upper in
          Ok (l ++ l', last + n)
    end
  else Ok ([], 0).

(** One outer iteration per value of the loop is more than enough. *)
Definition visit_fuel (lower upper : Z) : nat := S (Z.to_nat (Z.abs (upper - lower))).

Definition __pmp_loop_analyser (loop_lower loop_upper my_lower my_upper inc chunk stride : Z)
    : outcome (list Z * Z) :=
  let chunk := if (chunk =? 0) && (stride =? 0)
               then Z.quot (my_upper - my_lower) inc + 1 else chunk in
  assert* (negb (inc =? 0) && negb (chunk =? 0)) in
  assert* (((0 <? inc) && (0 <=? stride)) || ((inc <? 0) && (stride <=? 0))) in
  if loop_le inc my_lower my_upper then
    assert* (loop_le inc loop_lower my_lower && loop_le inc my_lower my_upper &&
             loop_le inc my_upper loop_upper) in
    outer_visits (visit_fuel loop_lower loop_upper) inc chunk stride my_lower my_upper loop_upper
  else Ok ([], 0).

Definition run_analyser (p : pmp_param) (loop_lower loop_upper my_lower my_upper inc chunk stride : Z)
    : outcome unit :=
  if analyse p
  then let* ' _ := __pmp_loop_analyser loop_lower loop_upper my_lower my_upper inc chunk stride in Ok tt
  else Ok tt.

(** * Static schedules *)

(** The first iteration and the number of iterations of a thread under a fair
    division. *)
Definition fair_division (size team_size local_id : Z) : Z * Z :=
  let chunk := Z.quot size team_size in
  let remainder := i64 (size - i64 (chunk * team_size)) in
  let index := i64 (Z.min local_id remainder * i64 (chunk + 1)) in
  let index := if remainder <? local_id
               then i64 (index + i64 (i64 (local_id - remainder) * chunk)) else index in
  (index, i64 (chunk + (if local_id <? remainder then 1 else 0))).

(** The thread's bounds when its share starts at [lower]: the share, or a loop
    that does not iterate if [lower] is past the end. *)
Definition clip_share (loop_lower loop_upper lower inc chunk stride : Z) : Z * Z * Z :=
  if loop_le inc lower loop_upper
  then (lower, LOOPMIN inc (i64 (lower + i64 (i64 (chunk - 1) * inc))) loop_upper, stride)
  else (i64 (loop_lower - inc), i64 (i64 (loop_lower - inc) - inc), inc).

Definition __pmp_static_init (p : pmp_param) (team_size local_id sched loop_lower loop_upper inc chunk : Z)
    : outcome (Z * Z * Z) :=
  assert* (0 <? team_size) in
  if team_size =? 1 then
    Ok (loop_lower, loop_upper,
        if 0 <? inc then i64 (i64 (loop_upper - loop_lower) + 1) else i64 (i64 (loop_upper - loop_lower) - 1))
  else if sched =? PMP_SCHED_STATIC_EVEN then
    let size := i64 (Z.quot (i64 (loop_upper - loop_lower)) inc + 1) in
    assert* (0 <=? size) in
    let '(lower, chunk) :=
      if negb (static_fair p) then
        let chunk := Z.quot (i64 (i64 (size + team_size) - 1)) team_size in
        (i64 (loop_lower + i64 (i64 (local_id * chunk) * inc)), chunk)
      else
        let '(index, chunk) := fair_division size team_size local_id in
        (i64 (loop_lower + i64 (index * inc)), chunk) in
    let '(lower, upper, stride) := clip_share loop_lower loop_upper lower inc chunk (i64 (size * inc)) in
    let* _ := run_analyser p loop_lower loop_upper lower upper inc chunk stride in
    Ok (lower, upper, stride)
  else if sched =? PMP_SCHED_STATIC then
    let stride := i64 (chunk * inc) in
    let lower := i64 (loop_lower + i64 (local_id * stride)) in
    let '(lower, upper, stride) := clip_share loop_lower loop_upper lower inc chunk (i64 (stride * team_size)) in
    let* _ := run_analyser p loop_lower loop_upper lower upper inc chunk stride in
    Ok (lower, upper, stride)
  else Err Fatal.

Definition __ompc_static_init_8 := __pmp_static_init.

Definition __ompc_static_init_4 (p : pmp_param) (team_size local_id sched lower upper inc chunk : Z)
    : outcome (Z * Z * Z) :=
  let* ' (l, u, s) := __pmp_static_init p team_size local_id sched lower upper inc chunk in
  Ok (swrap 32 l, swrap 32 u, swrap 32 s).

(** * Loops that are shared by the threads of a team *)
Definition PMP_LOOP_UNUSED : Z := -1.

Record pmp_loop : Type := mkLoop {
  loop_id : Z;
  looping_threads : Z;
  now_serving : Z;
  sched : Z;
  lower : Z;
  upper : Z;
  inc : Z;
  chunk : Z;
  current : Z;
  min_chunk : Z
}.

Definition with_current (l : pmp_loop) (c : Z) : pmp_loop :=
  mkLoop (loop_id l) (looping_threads l) (now_serving l) (sched l) (lower l) (upper l) (inc l)
    (chunk l) c (min_chunk l).
Definition with_chunk (l : pmp_loop) (c : Z) : pmp_loop :=
  mkLoop (loop_id l) (looping_threads l) (now_serving l) (sched l) (lower l) (upper l) (inc l)
    c (current l) (min_chunk l).
Definition with_serving (l : pmp_loop) (v : Z) : pmp_loop :=
  mkLoop (loop_id l) (looping_threads l) v (sched l) (lower l) (upper l) (inc l)
    (chunk l) (current l) (min_chunk l).
Definition with_threads (l : pmp_loop) (n id : Z) : pmp_loop :=
  mkLoop id n (now_serving l) (sched l) (lower l) (upper l) (inc l)
    (chunk l) (current l) (min_chunk l).

(** The schedule, chunk and least chunk that [__pmp_scheduler_init] settles on. *)
Definition scheduler_choice (p : pmp_param) (team_size sched lower upper inc chunk : Z)
    : outcome (Z * Z * Z) :=
  let min_chunk := Z.max 1 chunk in
  let '(sched, chunk) :=
    if (sched =? PMP_SCHED_RUNTIME) || (sched =? PMP_SCHED_ORDERED_RUNTIME) then
      (if sched =? PMP_SCHED_ORDERED_RUNTIME
       then runtime_schedule p + PMP_SCHED_ORDERED_OFFSET else runtime_schedule p,
       runtime_chunk p)
    else (sched, chunk) in
  let chunk :=
    if (sched =? PMP_SCHED_GUIDED) || (sched =? PMP_SCHED_ORDERED_GUIDED) then
      let divisor := team_size * guided_chunk_divisor p in
      let chunk := Z.quot (upper - lower + divisor) divisor in
      let chunk := Z.min (guided_chunk_max p) chunk in
      Z.max min_chunk chunk
    else chunk in
  assert* (negb (inc =? 0) && negb (chunk =? 0) && negb (min_chunk =? 0)) in
  Ok (sched, chunk, min_chunk).

(** The assignments of [__pmp_loop_alloc] by the first thread. *)
Definition loop_setup (id team_size sched lower upper inc chunk min_chunk : Z) : pmp_loop :=
  mkLoop id team_size lower sched lower upper inc chunk lower min_chunk.

(** The fields of [pmp_thread_t]; [attached] is [thread->loop != NULL]. *)
Record pmp_thread : Type := mkThread {
  local_id : Z;
  iteration : Z;
  ticket_number : Z;
  loop_count : Z;
  attached : bool
}.

Definition PMP_MASK_LOOP_ID : Z := 2147483647.

(** The loop that a thread is in, by its own count of loops. *)
Definition my_loop_id (t : pmp_thread) : Z := Z.land (loop_count t - 1) PMP_MASK_LOOP_ID.

Definition detach (t : pmp_thread) : pmp_thread :=
  mkThread (local_id t) (iteration t) (ticket_number t) (loop_count t) false.

(** The last thread to leave marks the structure unused. *)
Definition __pmp_loop_free (l : pmp_loop) (t : pmp_thread) : outcome (pmp_loop * pmp_thread) :=
  assert* (loop_id l =? my_loop_id t) in
  let count := looping_threads l in
  assert* (1 <=? count) in
  Ok (with_threads l (swrap 32 (count - 1)) (if count =? 1 then PMP_LOOP_UNUSED else loop_id l),
      detach t).

(** ** The cases of [__pmp_schedule_next]

    [Some (lower, upper)] is the range stored through the pointers with result
    1, [None] is result 0. *)
Definition next_single (l : pmp_loop) (iteration : Z) : outcome (option (Z * Z)) :=
  if iteration =? 0 then Ok (Some (lower l, upper l))
  else assert* (iteration =? 1) in Ok None.

Definition next_static (l : pmp_loop) (team_size local_id iteration : Z) : option (Z * Z) :=
  let size := Z.quot (upper l - lower l) (inc l) + 1 in
  let size_per_thread := (Z.quot (size - 1) team_size + 1) * inc l in
  let thread_lower := lower l + local_id * size_per_thread in
  let thread_upper := thread_lower + size_per_thread - inc l in
  let this_lower := thread_lower + iteration * chunk l * inc l in
  let this_upper := this_lower + (chunk l - 1) * inc l in
  let thread_upper := LOOPMIN (inc l) thread_upper (upper l) in
  let this_upper := LOOPMIN (inc l) this_upper thread_upper in
  if negb (loop_le (inc l) this_lower thread_upper) then None else Some (this_lower, this_upper).

Definition next_static_even (p : pmp_param) (l : pmp_loop) (team_size local_id iteration : Z)
    : outcome (option (Z * Z)) :=
  if iteration =? 0 then
    let size := Z.quot (upper l - lower l) (inc l) + 1 in
    let '(thread_lower, thread_upper) :=
      if negb (static_fair p) then
        let size_per_thread := (Z.quot (size - 1) team_size + 1) * inc l in
        let thread_lower := lower l + local_id * size_per_thread in
        (thread_lower, thread_lower + size_per_thread - inc l)
      else
        let '(index, chunk) := fair_division size team_size local_id in
        let thread_lower := lower l + index * inc l in
        (thread_lower, thread_lower + (chunk - 1) * inc l) in
    let thread_upper := LOOPMIN (inc l) thread_upper (upper l) in
    if negb (loop_le (inc l) thread_lower thread_upper) then Ok None
    else Ok (Some (thread_lower, thread_upper))
  else assert* (iteration =? 1) in Ok None.

(** [__pmp_atomic_xadd64(&loop->current, stride)] *)
Definition xadd_current (l : pmp_loop) (stride : Z) : Z * pmp_loop :=
  (current l, with_current l (swrap 64 (current l + stride))).

(** What a thread gets that claimed [current .. current + stride - inc]. *)
Definition claimed_range (l : pmp_loop) (current stride : Z) : option (Z * Z) :=
  if negb (loop_le (inc l) current (upper l)) then None
  else Some (current, LOOPMIN (inc l) (upper l) (current + stride - inc l)).

Definition guided_estimate (l : pmp_loop) (chunk current_estimate : Z) : Z :=
  let remaining := upper l - current_estimate + 1 in
  Z.max (min_chunk l) (Z.min chunk remaining).

Definition guided_new_chunk (p : pmp_param) (l : pmp_loop) (team_size my_upper : Z) : Z :=
  let remaining := upper l - my_upper in
  let divisor := team_size * guided_chunk_divisor p in
  let new_chunk := Z.quot (remaining + divisor - 1) divisor in
  let new_chunk := Z.min (guided_chunk_max p) new_chunk in
  Z.max (min_chunk l) new_chunk.

(** [__pmp_atomic_cmpxchg64(&loop->chunk, chunk, new_chunk)] *)
Definition cmpxchg_chunk (l : pmp_loop) (old new : Z) : pmp_loop :=
  if chunk l =? old then with_chunk l new else l.

(** ** [__pmp_schedule_next] run without interruption *)
Definition is_static (s : Z) : bool := (s =? PMP_SCHED_STATIC) || (s =? PMP_SCHED_ORDERED_STATIC).
Definition is_even (s : Z) : bool := (s =? PMP_SCHED_STATIC_EVEN) || (s =? PMP_SCHED_ORDERED_STATIC_EVEN).
Definition is_dynamic (s : Z) : bool := (s =? PMP_SCHED_DYNAMIC) || (s =? PMP_SCHED_ORDERED_DYNAMIC).
Definition is_guided (s : Z) : bool := (s =? PMP_SCHED_GUIDED) || (s =? PMP_SCHED_ORDERED_GUIDED).

(** The common tail: hand out a range, or leave the loop. *)
Definition finish_next (p : pmp_param) (l : pmp_loop) (t : pmp_thread) (r : option (Z * Z))
    : outcome (pmp_loop * pmp_thread * option (Z * Z)) :=
  match r with
  | None => let* ' (l, t) := __pmp_loop_free l t in Ok (l, t, None)
  | Some (lo, hi) =>
      let t := mkThread (local_id t) (iteration t + 1) lo (loop_count t) (attached t) in
      let* _ := run_analyser p (lower l) (upper l) lo hi (inc l) 0 0 in
      Ok (l, t, Some (lo, hi))
  end.

Definition __pmp_schedule_next (p : pmp_param) (team_size : Z) (l : pmp_loop) (t : pmp_thread)
    : outcome (pmp_loop * pmp_thread * option (Z * Z)) :=
  assert* (attached t) in
  assert* (local_id t <? team_size) in
  if team_size =? 1 then
    let* r := next_single l (iteration t) in finish_next p l t r
  else if is_static (sched l) then
    finish_next p l t (next_static l team_size (local_id t) (iteration t))
  else if is_even (sched l) then
    let* r := next_static_even p l team_size (local_id t) (iteration t) in finish_next p l t r
  else if is_dynamic (sched l) then
    let stride := inc l * chunk l in
    let '(current, l) := xadd_current l stride in
    finish_next p l t (claimed_range l current stride)
  else if is_guided (sched l) then
    let chunk0 := chunk l in
    let my_chunk := guided_estimate l chunk0 (current l) in
    let stride := inc l * my_chunk in
    let '(current, l) := xadd_current l stride in
    assert* negb (stride =? 0) in
    let r := claimed_range l current stride in
    let l := match r with
             | Some (_, my_upper) => cmpxchg_chunk l chunk0 (guided_new_chunk p l team_size my_upper)
             | None => l
             end in
    finish_next p l t r
  else Err Fatal.

Definition __ompc_schedule_next_8 := __pmp_schedule_next.

Definition __ompc_schedule_next_4 (p : pmp_param) (team_size : Z) (l : pmp_loop) (t : pmp_thread)
    : outcome (pmp_loop * pmp_thread * option (Z * Z)) :=
  let* ' (l, t, r) := __pmp_schedule_next p team_size l t in
  Ok (l, t, match r with Some (lo, hi) => Some (swrap 32 lo, swrap 32 hi) | None => None end).

(** ** Ordered sections

    The spin loop of [__ompc_ordered] is a guard: [None] means that the thread
    has to wait. *)
Definition __ompc_ordered (team_size : Z) (l : pmp_loop) (t : pmp_thread) : option unit :=
  if 1 <? team_size then
    if negb (attached t) || (sched l <=? PMP_SCHED_ORDERED_OFFSET) then Some tt
    else if now_serving l =? ticket_number t then Some tt else None
  else Some tt.

Definition __ompc_end_ordered (team_size : Z) (l : pmp_loop) (t : pmp_thread)
    : outcome (pmp_loop * pmp_thread) :=
  if 1 <? team_size then
    if negb (attached t) || (sched l <=? PMP_SCHED_ORDERED_OFFSET) then Ok (l, t)
    else
      assert* (now_serving l =? ticket_number t) in
      Ok (with_serving l (now_serving l + inc l),
          mkThread (local_id t) (iteration t) (ticket_number t + inc l) (loop_count t) (attached t))
  else Ok (l, t).
