(* ===== verification/OmpStatic.v ===== *)
(** Static schedules of [libopenmp/schedule.c]: the shares that
    [__pmp_static_init] gives the threads of a team partition the iterations
    of the loop. *)
From Stdlib Require Import ZArith Lia Bool.
From stdpp Require Import prelude list.
From S2P Require Import Prelude OmpSchedule.

Section Loop.
Context (lo up step : Z) (Hstep : step <> 0) (Hne : loop_le step lo up = true).

(** Iteration [k] of the loop, and the number of iterations. *)
Definition val (k : Z) : Z := lo + k * step.
Definition size : Z := Z.quot (up - lo) step + 1.

Definition iterations : list Z := val <$> seqZ 0 size.

Lemma val_add a b : val (a + b) = val a + b * step.
Proof. unfold val. lia. Qed.

Lemma val_inj a b : val a = val b -> a = b.
Proof. unfold val. nia. Qed.

Lemma size_pos : 1 <= size.
Proof.
  unfold size, loop_le in *. assert (0 <= Z.quot (up - lo) step); [|lia].
  destruct (Z.leb_spec 0 step).
  - apply Z.quot_pos; lia.
  - rewrite <- Z.quot_opp_opp by done. apply Z.quot_pos; lia.
Qed.

Lemma loop_le_val a b : loop_le step (val a) (val b) = (a <=? b).
Proof.
  unfold loop_le, val. destruct (Z.leb_spec 0 step), (Z.leb_spec a b);
    [apply Z.leb_le|apply Z.leb_gt|apply Z.leb_le|apply Z.leb_gt]; nia.
Qed.

Lemma loop_le_min x a b : loop_le step x (LOOPMIN step a b) = loop_le step x a && loop_le step x b.
Proof. unfold loop_le, LOOPMIN. destruct (0 <=? step); lia. Qed.

(** An iteration is within the loop iff its number is below [size]. *)
Lemma loop_le_up k : loop_le step (val k) up = (k <? size).
Proof.
  unfold loop_le, val, size in *. destruct (Z.leb_spec 0 step).
  - rewrite Z.quot_div_nonneg by lia. pose proof (Z_div_mod_eq_full (up - lo) step).
    pose proof (Z.mod_pos_bound (up - lo) step ltac:(lia)).
    destruct (Z.ltb_spec k ((up - lo) / step + 1)); [apply Z.leb_le|apply Z.leb_gt]; nia.
  - rewrite <- Z.quot_opp_opp, Z.quot_div_nonneg by lia. pose proof (Z_div_mod_eq_full (- (up - lo)) (- step)).
    pose proof (Z.mod_pos_bound (- (up - lo)) (- step) ltac:(lia)).
    destruct (Z.ltb_spec k (- (up - lo) / - step + 1)); [apply Z.leb_le|apply Z.leb_gt]; nia.
Qed.

(** Loops that keep their distance from the limits of [int64_t]: the values of twice the
    loop's iterations, and [r] more, are [int64_t]s, and so are the differences. *)
Definition room (r : Z) : Prop := Z.abs lo + 2 * Z.abs (up - lo) + r * Z.abs step < 2 ^ 63.

(** The values up to the first one past the loop are [int64_t]s. *)
Definition fits : Prop := forall k, 0 <= k <= size -> i64 (val k) = val k.

Lemma i64_id z : Z.abs z < 2 ^ 63 -> i64 z = z.
Proof. intros H. apply swrap_id; [done|]. unfold in_s. change (2 ^ (64 - 1)) with (2 ^ 63). lia. Qed.

(** The end of a block: inside the loop, and cut at its end. *)
Lemma end_inside k : k < size -> LOOPMIN step (val k) up = val k.
Proof.
  intros Hk. pose proof (loop_le_up k) as Hle. destruct (Z.ltb_spec k size); [|lia].
  unfold loop_le, LOOPMIN in *. destruct (0 <=? step); lia.
Qed.

Lemma end_cut k : size <= k -> LOOPMIN step (val k) up = up.
Proof.
  intros Hk. pose proof (loop_le_up k) as Hle. destruct (Z.ltb_spec k size); [lia|].
  unfold loop_le, LOOPMIN in *. destruct (0 <=? step); lia.
Qed.

Lemma last_distance : (size - 1) * Z.abs step <= Z.abs (up - lo).
Proof.
  pose proof (loop_le_up (size - 1)) as Hle. pose proof size_pos. destruct (Z.ltb_spec (size - 1) size); [|lia].
  unfold loop_le, val in *. destruct (Z.leb_spec 0 step); nia.
Qed.

Section Room.
Context (r : Z) (Hr : 2 <= r) (Hroom : room r).

Lemma room_mul k : Z.abs k <= 2 * (size - 1) + r -> Z.abs (k * step) <= 2 * Z.abs (up - lo) + r * Z.abs step.
Proof. intros Hk. rewrite Z.abs_mul. pose proof last_distance. nia. Qed.

Lemma i64_mul k : Z.abs k <= 2 * (size - 1) + r -> i64 (k * step) = k * step.
Proof. intros Hk. apply i64_id. pose proof (room_mul k Hk). unfold room in Hroom. lia. Qed.

Lemma i64_num k : Z.abs k <= 2 * (size - 1) + r -> i64 k = k.
Proof. intros Hk. apply i64_id. pose proof (room_mul k Hk) as H. rewrite Z.abs_mul in H. unfold room in Hroom. nia. Qed.

Lemma i64_val k : Z.abs k <= 2 * (size - 1) + r -> i64 (val k) = val k.
Proof. intros Hk. apply i64_id. pose proof (room_mul k Hk). unfold room, val in *. lia. Qed.

Lemma i64_up k : Z.abs k <= size - 1 + r -> i64 (up + k * step) = up + k * step.
Proof.
  intros Hk. apply i64_id. pose proof last_distance. unfold room in Hroom.
  assert (Z.abs (k * step) <= Z.abs (up - lo) + r * Z.abs step) by (rewrite Z.abs_mul; nia). lia.
Qed.

Lemma room_team T : 1 <= T -> T + 2 <= r -> size + T < 2 ^ 63.
Proof. intros HT HTr. pose proof last_distance. pose proof size_pos. unfold room in Hroom. nia. Qed.

Lemma room_fits : fits.
Proof. intros k Hk. apply i64_val. pose proof size_pos. lia. Qed.
End Room.

Lemma elem_of_iterations v : v ∈ iterations <-> exists k, v = val k /\ 0 <= k < size.
Proof.
  unfold iterations. rewrite list_elem_of_fmap. split; intros (k & -> & Hk); exists k;
    rewrite elem_of_seqZ in *; split; done || lia.
Qed.

(** * The loops of the compiled code *)

(** [u] bounds the iterations below [e]. *)
Definition bounds (u e : Z) : Prop := forall k, loop_le step (val k) u = (k <? e).

Lemma bounds_share a c : bounds (LOOPMIN step (val (a + c - 1)) up) (Z.min (a + c) size).
Proof. intros k. rewrite loop_le_min, loop_le_val, loop_le_up. lia. Qed.

Lemma inner_visits_ok (n : nat) a u e :
  bounds u e -> (forall k, a <= k <= e -> i64 (val k) = val k) ->
  inner_visits n step (val a) u =
    (val <$> seqZ a (Z.min (Z.of_nat n) (e - a)), val (a + Z.max 0 (Z.min (Z.of_nat n) (e - a)))).
Proof.
  intros Hu. revert a. induction n as [|n IH]; intros a Hfit.
  - simpl. rewrite seqZ_nil by lia. simpl. f_equal. f_equal. lia.
  - cbn [inner_visits]. rewrite Hu. destruct (Z.ltb_spec a e).
    + replace (val a + step) with (val (a + 1)) by (unfold val; lia).
      rewrite Hfit, IH by (lia || (intros; apply Hfit; lia)).
      rewrite (seqZ_cons a) by lia. rewrite fmap_cons. f_equal; [f_equal|].
      * f_equal. f_equal; lia.
      * f_equal. lia.
    + rewrite seqZ_nil by lia. simpl. f_equal. f_equal. lia.
Qed.

(** What a thread executes: the iterations whose number satisfies [P], without
    repetition; [n] counts the visits of the end of the loop. *)
Definition executes (P : Z -> Prop) (r : list Z * Z) : Prop :=
  (forall v, v ∈ fst r <-> exists k, v = val k /\ 0 <= k < size /\ P k) /\ NoDup (fst r) /\
  (P (size - 1) -> snd r = 1) /\ (~ P (size - 1) -> snd r = 0).

Lemma NoDup_val l : NoDup l -> NoDup (val <$> l).
Proof. intros H. apply NoDup_fmap_2; [|done]. intros a b. apply val_inj. Qed.

(** One block of iterations, after which [stride] leaves the loop. *)
Lemma outer_single fuel n a c stride :
  fits -> (1 <= fuel)%nat -> 0 <= a < size -> 1 <= c -> Z.min c (size - a) <= n <= c ->
  (stride = 0 \/ loop_le step (i64 (val a + stride)) up = false) ->
  yields (outer_visits fuel step n stride (val a) (LOOPMIN step (val (a + c - 1)) up) up)
    (executes (fun k => a <= k < a + c)).
Proof.
  intros Hfit Hf Ha Hc Hn Hs. destruct fuel as [|fuel]; [lia|]. cbn [outer_visits].
  rewrite loop_le_up by done. destruct (Z.ltb_spec a size); [|lia].
  rewrite (inner_visits_ok _ _ _ (Z.min (a + c) size)) by (apply bounds_share || (intros; apply Hfit; lia)).
  set (m := Z.min (Z.of_nat (Z.to_nat n)) _). assert (m = Z.min c (size - a)) as -> by lia.
  rewrite loop_le_up by done.
  assert (executes (fun k => a <= k < a + c)
    (val <$> seqZ a (Z.min c (size - a)),
     if negb (a + Z.max 0 (Z.min c (size - a)) <? size) then 1 else 0)) as Hex.
  { split; [|split; [apply NoDup_val, NoDup_seqZ|]].
    - intros v. simpl. rewrite list_elem_of_fmap. split; intros (k & -> & Hk); exists k;
        rewrite elem_of_seqZ in *; (split; [done|lia]).
    - simpl. split; intros HP; destruct (Z.ltb_spec (a + Z.max 0 (Z.min c (size - a))) size); simpl; lia. }
  destruct (Z.eqb_spec stride 0); [done|]. destruct Hs as [|Hs]; [done|].
  assert (outer_visits fuel step n stride (i64 (val a + stride))
    (LOOPMIN step (i64 (LOOPMIN step (val (a + c - 1)) up + stride)) up) up = Ok ([], 0)) as ->
    by (destruct fuel; cbn [outer_visits]; by rewrite Hs).
  simpl. rewrite app_nil_r, Z.add_0_r. done.
Qed.

Lemma LOOPMIN_shift x d :
  loop_le step 0 d = true -> LOOPMIN step (LOOPMIN step x up + d) up = LOOPMIN step (x + d) up.
Proof. unfold loop_le, LOOPMIN. destruct (0 <=? step); lia. Qed.

Lemma mod_shift k a s : 0 < s -> (k - (a + s)) mod s = (k - a) mod s.
Proof. intros Hs. replace (k - (a + s)) with (k - a + (-1) * s) by lia. by rewrite Z.mod_add by lia. Qed.

Lemma loop_le_stride s : 0 <= s -> loop_le step 0 (s * step) = true.
Proof. intros Hs. unfold loop_le. destruct (Z.leb_spec 0 step); nia. Qed.

(** The bound of the next block. *)
Lemma i64_bound r s a c :
  2 <= r -> room r -> 0 <= s <= r -> 0 <= a < size -> 1 <= c <= s ->
  i64 (LOOPMIN step (val (a + c - 1)) up + s * step) = LOOPMIN step (val (a + c - 1)) up + s * step.
Proof.
  intros Hr Hroom Hs Ha Hc. destruct (Z.lt_ge_cases (a + c - 1) size) as [Hlt|Hge].
  - rewrite end_inside by done.
    rewrite <- val_add. apply (i64_val r); [done|done|lia].
  - rewrite end_cut by lia.
    apply (i64_up r); [done|done|lia].
Qed.

(** Blocks of [c] iterations, every [s] iterations. *)
Lemma outer_blocks r fuel n a c s :
  2 <= r -> room r -> s <= r -> 1 <= c <= s -> 0 <= a < size -> (n = c \/ size - a <= n <= c) -> size - a <= Z.of_nat fuel ->
  yields (outer_visits fuel step n (s * step) (val a) (LOOPMIN step (val (a + c - 1)) up) up)
    (executes (fun k => a <= k /\ (k - a) mod s < c)).
Proof.
  intros Hr Hroom Hsr Hc. pose proof (room_fits r Hr Hroom) as Hfit.
  revert a. induction fuel as [|fuel IH]; intros a Ha Hn Hf; [lia|].
  destruct (Z.lt_ge_cases (a + s) size) as [Hlt|Hge].
  2: { eapply yields_mono; [apply (outer_single (S fuel) n a c (s * step)); [done|lia|lia|lia|lia|]|].
    - right. rewrite <- val_add, (i64_val r Hr Hroom), loop_le_up by lia. by apply Z.ltb_ge.
    - assert (forall k, 0 <= k < size -> a <= k < a + c <-> a <= k /\ (k - a) mod s < c) as Heq.
      { intros k Hk. destruct (Z.lt_ge_cases k a); [lia|]. rewrite Z.mod_small by lia. lia. }
      intros [l m] (H1 & H2 & H3 & H4). pose proof (Heq (size - 1) ltac:(pose proof size_pos; lia)).
      split; [|split; [done|split; [tauto|tauto]]]. intros v. rewrite H1.
      split; intros (k & Hv & Hk & HP); exists k; (split; [done|split; [done|]]); by apply Heq. }
  destruct Hn as [->|Hn]; [|lia]. cbn [outer_visits]. rewrite loop_le_up by done.
  destruct (Z.ltb_spec a size); [|lia].
  rewrite (inner_visits_ok _ _ _ (Z.min (a + c) size)) by (apply bounds_share || (intros; apply Hfit; lia)).
  set (m := Z.min (Z.of_nat (Z.to_nat c)) _). assert (m = c) as -> by lia.
  rewrite loop_le_up by done. replace (Z.max 0 c) with c by lia.
  destruct (Z.ltb_spec (a + c) size); [|lia]. simpl negb. cbv iota zeta.
  destruct (Z.eqb_spec (s * step) 0); [nia|].
  rewrite (i64_bound r s a c Hr Hroom) by lia.
  rewrite LOOPMIN_shift by (apply loop_le_stride; lia). rewrite <- !val_add, (i64_val r Hr Hroom (a + s)) by lia.
  replace (a + c - 1 + s) with (a + s + c - 1) by lia.
  eapply yields_bind; [apply (IH (a + s)); [lia|by left|lia]|].
  intros [l m] (H1 & H2 & H3 & H4). rewrite Z.add_0_l.
  assert (forall k, a + s <= k -> (k - (a + s)) mod s = (k - a) mod s) as Hmod by (intros; apply mod_shift; lia).
  assert (forall k, a <= k < a + s -> (k - a) mod s = k - a) as Hsmall by (intros; apply Z.mod_small; lia).
  split; [|split].
  - intros v. simpl in *. rewrite elem_of_app, H1, list_elem_of_fmap. split.
    + intros [(k & -> & Hk%elem_of_seqZ)|(k & -> & Hk & HP)]; exists k; (split; [done|split; [lia|]]).
      * rewrite Hsmall; lia.
      * rewrite <- Hmod; lia.
    + intros (k & -> & Hk & Hak & HP). destruct (Z.lt_ge_cases k (a + s)).
      * left. exists k. split; [done|]. apply elem_of_seqZ. rewrite Hsmall in HP; lia.
      * right. exists k. rewrite Hmod; [done|lia].
  - simpl in *. apply NoDup_app. split; [apply NoDup_val, NoDup_seqZ|]. split; [|done].
    intros v (k & -> & Hk%elem_of_seqZ)%list_elem_of_fmap (k' & Hv%val_inj & _ & Hk' & _)%H1. lia.
  - simpl in *. rewrite <- (Hmod (size - 1)) by lia. split; intros HP; [apply H3|apply H4; intros [_ ?]; apply HP]; lia.
Qed.

Lemma quot_up a : a < size -> 0 <= a -> Z.quot (up - val a) step = size - 1 - a.
Proof.
  intros Ha H0. pose proof (loop_le_up a) as Hle. destruct (Z.ltb_spec a size); [|lia].
  unfold size, val, loop_le in *. replace (up - (lo + a * step)) with ((up - lo) + (- a) * step) by lia.
  destruct (Z.leb_spec 0 step).
  - rewrite !Z.quot_div_nonneg by lia. rewrite Z.div_add by done. lia.
  - rewrite <- (Z.quot_opp_opp (up - lo + - a * step)), <- (Z.quot_opp_opp (up - lo)) by done.
    rewrite !Z.quot_div_nonneg by lia.
    replace (- (up - lo + - a * step)) with (- (up - lo) + (- a) * (- step)) by lia.
    rewrite Z.div_add by lia. lia.
Qed.

(** The number of iterations in a share. *)
Lemma share_count a c :
  0 <= a < size -> 1 <= c ->
  Z.quot (LOOPMIN step (val (a + c - 1)) up - val a) step + 1 = Z.min c (size - a).
Proof.
  intros Ha Hc. destruct (Z.lt_ge_cases (a + c - 1) size).
  - rewrite end_inside by done.
    replace (val (a + c - 1) - val a) with ((c - 1) * step) by (unfold val; lia).
    rewrite Z.quot_mul by done. lia.
  - rewrite end_cut by lia.
    rewrite quot_up by lia. lia.
Qed.

Lemma share_nonempty a c :
  0 <= a < size -> 1 <= c -> loop_le step (val a) (LOOPMIN step (val (a + c - 1)) up) = true.
Proof. intros Ha Hc. rewrite loop_le_min, loop_le_val, loop_le_up by done. lia. Qed.

Lemma fuel_enough : size <= Z.of_nat (visit_fuel lo up).
Proof.
  unfold visit_fuel. pose proof (loop_le_up (size - 1)) as Hle. pose proof size_pos.
  destruct (Z.ltb_spec (size - 1) size); [|lia]. unfold loop_le, val in Hle.
  destruct (Z.leb_spec 0 step); nia.
Qed.

(** * The compiled loop

    The code that the compiler generates around [__ompc_static_init]: an inner
    loop over the thread's bounds, and an outer one by the stride.  The
    analyser describes it. *)
Definition compiled_loop (b : Z * Z * Z) : outcome (list Z * Z) :=
  let '(l, u, stride) := b in
  if loop_le step l u
  then outer_visits (visit_fuel lo up) step (Z.quot (u - l) step + 1) stride l u up
  else Ok ([], 0).

Lemma executes_none P : (forall k, 0 <= k < size -> ~ P k) -> executes P ([], 0).
Proof.
  intros HP. pose proof size_pos. split; [|split; [constructor|split; [|done]]].
  - intros v. simpl. split; [by intros ?%not_elem_of_nil|]. intros (k & _ & Hk & H'). by destruct (HP k).
  - intros H'. destruct (HP (size - 1)); [lia|done].
Qed.

Section Clip.
Context (r : Z) (Hr : 2 <= r) (Hroom : room r).

(** The bounds that [clip_share] cuts out of the loop: a block of [c] iterations from
    iteration [a] on, or bounds between which there is no iteration. *)
Lemma clip_share_eq a c stride :
  0 <= a -> 0 <= c -> a + c - 1 <= 2 * (size - 1) + r ->
  clip_share lo up (val a) step c stride =
    if a <? size then (val a, LOOPMIN step (val (a + c - 1)) up, stride) else (val (-1), val (-2), step).
Proof.
  intros Ha Hc Hac. pose proof size_pos. unfold clip_share. rewrite loop_le_up by done.
  rewrite (i64_num r Hroom (c - 1)), (i64_mul r Hr Hroom (c - 1)) by lia.
  replace (val a + (c - 1) * step) with (val (a + c - 1)) by (unfold val; lia).
  replace (lo - step) with (val (-1)) by (unfold val; lia).
  rewrite (i64_val r Hr Hroom (-1)), (i64_val r Hr Hroom (a + c - 1)) by lia.
  replace (val (-1) - step) with (val (-2)) by (unfold val; lia). by rewrite (i64_val r Hr Hroom (-2)) by lia.
Qed.

(** What is executed with one block of iterations, and with blocks at a distance. *)
Lemma clip_single a c stride :
  0 <= a -> 0 <= c -> (a < size -> 1 <= c) -> a + c - 1 <= 2 * (size - 1) + r ->
  (stride = 0 \/ forall k, 0 <= k < size -> loop_le step (i64 (val k + stride)) up = false) ->
  yields (compiled_loop (clip_share lo up (val a) step c stride)) (executes (fun k => a <= k < a + c)).
Proof.
  intros Ha Hc Hc1 Hac Hs. rewrite clip_share_eq by done. unfold compiled_loop. destruct (Z.ltb_spec a size).
  - rewrite share_nonempty, share_count by lia. pose proof fuel_enough.
    apply outer_single; [by apply (room_fits r)|lia|lia|lia|lia|]. destruct Hs as [->|Hs]; [by left|right; apply Hs; lia].
  - rewrite loop_le_val. apply executes_none. lia.
Qed.

Lemma clip_blocks a c s :
  0 <= a -> 1 <= c <= s -> s <= r -> a + c - 1 <= 2 * (size - 1) + r ->
  yields (compiled_loop (clip_share lo up (val a) step c (s * step)))
    (executes (fun k => a <= k /\ (k - a) mod s < c)).
Proof.
  intros Ha Hc Hs Hac. rewrite clip_share_eq by lia. unfold compiled_loop. destruct (Z.ltb_spec a size).
  - rewrite share_nonempty, share_count by lia. pose proof fuel_enough.
    apply (outer_blocks r); [done|done|done|lia|lia|lia|lia].
  - rewrite loop_le_val. apply executes_none. lia.
Qed.

(** * The analyser accepts the shares *)
Lemma stride_sign s : 0 <= s -> ((0 <? step) && (0 <=? s * step)) || ((step <? 0) && (s * step <=? 0)) = true.
Proof. intros Hs. destruct (Z.ltb_spec 0 step); [destruct (Z.leb_spec 0 (s * step)); simpl; nia|].
  destruct (Z.ltb_spec step 0), (Z.leb_spec (s * step) 0); simpl; nia. Qed.

Lemma analyser_share p a c s :
  0 <= a -> 1 <= c -> 0 <= s -> a + c - 1 <= 2 * (size - 1) + r ->
  (a < size -> yields (outer_visits (visit_fuel lo up) step c (s * step) (val a)
                 (LOOPMIN step (val (a + c - 1)) up) up) (fun _ => True)) ->
  let '(l, u, stride) := clip_share lo up (val a) step c (s * step) in
  run_analyser p lo up l u step c stride = Ok tt.
Proof.
  intros Ha Hc Hs Hac Hv. rewrite clip_share_eq by lia. unfold run_analyser.
  destruct (analyse p); [|by destruct (a <? size)].
  destruct (Z.ltb_spec a size); unfold __pmp_loop_analyser.
  - replace ((c =? 0) && _) with false by lia. rewrite assert_true by lia. rewrite obind_ok.
    rewrite assert_true, obind_ok by (by apply stride_sign). rewrite share_nonempty by lia.
    rewrite assert_true.
    2: { rewrite andb_true_r. apply andb_true_iff. split.
         - replace lo with (val 0) at 1 by (unfold val; lia). rewrite loop_le_val. lia.
         - unfold loop_le, LOOPMIN. destruct (0 <=? step); lia. }
    rewrite obind_ok. specialize (Hv ltac:(lia)). by destruct (outer_visits _ _ _ _ _ _ _) as [[]|].
  - replace ((c =? 0) && _) with false by lia. rewrite assert_true by lia. rewrite obind_ok.
    rewrite assert_true by lia. rewrite obind_ok.
    by rewrite loop_le_val.
Qed.
End Clip.

(** * The shares of a team *)
Section Team.
Context (p : pmp_param) (T : Z) (HT : 1 <= T) (HsT : size + T < 2 ^ 63).

(** Intervals between the values of a monotone function cover every number once. *)
Lemma interval_owner (f : Z -> Z) (n : nat) k :
  (forall i, 0 <= i < Z.of_nat n -> f i <= f (i + 1)) -> f 0 <= k < f (Z.of_nat n) ->
  exists id, 0 <= id < Z.of_nat n /\ f id <= k < f (id + 1).
Proof.
  induction n as [|n IH]; intros Hf Hk; [change (Z.of_nat 0) with 0 in Hk; lia|].
  destruct (Z.lt_ge_cases k (f (Z.of_nat n))).
  - destruct IH as (id & Hid & Hk'); [intros i Hi; apply Hf; lia|lia|]. exists id. split; [lia|done].
  - exists (Z.of_nat n). replace (Z.of_nat n + 1) with (Z.of_nat (S n)) by lia. split; lia.
Qed.

Lemma monotone_le (f : Z -> Z) i (d : nat) :
  (forall j, i <= j < i + Z.of_nat d -> f j <= f (j + 1)) -> f i <= f (i + Z.of_nat d).
Proof.
  induction d as [|d IH]; intros H; [by rewrite Z.add_0_r|].
  transitivity (f (i + Z.of_nat d)); [apply IH; intros; apply H; lia|].
  replace (i + Z.of_nat (S d)) with (i + Z.of_nat d + 1) by lia. apply H. lia.
Qed.

Lemma interval_owner_unique (f : Z -> Z) k i j :
  (forall i, 0 <= i < T -> f i <= f (i + 1)) -> 0 <= i < T -> 0 <= j < T ->
  f i <= k < f (i + 1) -> f j <= k < f (j + 1) -> i = j.
Proof.
  intros Hf Hi Hj Hki Hkj.
  assert (forall a b, 0 <= a -> a < b -> b < T -> f (a + 1) <= f b) as Hmono.
  { intros a b Ha Hab Hb. replace b with (a + 1 + Z.of_nat (Z.to_nat (b - a - 1))) by lia.
    apply monotone_le. intros m Hm. apply Hf. lia. }
  destruct (Z.lt_trichotomy i j) as [H|[H|H]]; [|done|].
  - pose proof (Hmono i j). lia.
  - pose proof (Hmono j i). lia.
Qed.

(** The three divisions of the iterations. *)
Definition even_start (id : Z) : Z := id * Z.quot (size + T - 1) T.
Definition fair_start (id : Z) : Z := fst (fair_division size T id).

Lemma fair_division_eq id :
  0 <= id <= T ->
  let q := size / T in let r := size mod T in
  fair_division size T id = (id * q + Z.min id r, q + if id <? r then 1 else 0).
Proof.
  intros Hid. cbv zeta. unfold fair_division. pose proof size_pos. rewrite Z.quot_div_nonneg by lia.
  pose proof (Z_div_mod_eq_full size T). pose proof (Z.mod_pos_bound size T ltac:(lia)).
  pose proof (Z.div_pos size T ltac:(lia) ltac:(lia)). set (q := size / T) in *. set (m := size mod T) in *.
  assert (q * T <= size /\ q <= size /\ 0 <= id * q <= T * q) as (Hq & Hq1 & Hq2) by nia.
  assert (0 <= Z.min id m * (q + 1) <= T * q + T) as Hm by nia.
  rewrite (i64_id (q * T)) by lia. replace (size - q * T) with m by lia.
  rewrite (i64_id m), (i64_id (q + 1)), (i64_id (Z.min id m * (q + 1))) by lia.
  rewrite (i64_id (q + _)) by (destruct (id <? m); lia). f_equal.
  destruct (Z.ltb_spec m id); [|rewrite !Z.min_l by lia; lia]. rewrite !Z.min_r in * by lia.
  rewrite (i64_id (id - m)) by lia. assert (0 <= (id - m) * q <= T * q) by nia.
  rewrite (i64_id ((id - m) * q)), i64_id by lia. lia.
Qed.

Lemma fair_next id : 0 <= id < T -> fair_start (id + 1) = fair_start id + snd (fair_division size T id).
Proof.
  intros Hid. unfold fair_start. rewrite !fair_division_eq by lia. simpl.
  destruct (Z.ltb_spec id (size mod T)); lia.
Qed.

Lemma fair_bounds :
  fair_start 0 = 0 /\ fair_start T = size /\ forall id, 0 <= id <= T -> 0 <= snd (fair_division size T id).
Proof.
  unfold fair_start. pose proof size_pos. pose proof (Z_div_mod_eq_full size T).
  pose proof (Z.mod_pos_bound size T ltac:(lia)). pose proof (Z.div_pos size T ltac:(lia) ltac:(lia)).
  split; [|split].
  - rewrite fair_division_eq by lia. simpl. lia.
  - rewrite fair_division_eq by lia. simpl. lia.
  - intros id Hid. rewrite fair_division_eq by lia. simpl. destruct (id <? size mod T); lia.
Qed.

Lemma even_chunk_bounds :
  1 <= Z.quot (size + T - 1) T /\ size <= T * Z.quot (size + T - 1) T /\ T * Z.quot (size + T - 1) T <= size + T - 1.
Proof.
  pose proof size_pos. rewrite Z.quot_div_nonneg by lia.
  pose proof (Z_div_mod_eq_full (size + T - 1) T). pose proof (Z.mod_pos_bound (size + T - 1) T ltac:(lia)).
  split; [|lia]. apply Z.div_le_lower_bound; lia.
Qed.

(** What thread [id] executes under [__ompc_static_init]. *)
Definition executed (sched chunk id : Z) : outcome (list Z * Z) :=
  let* b := __pmp_static_init p T id sched lo up step chunk in compiled_loop b.

(** Every iteration is executed by exactly one thread, once, and nothing else
    is executed; the end of the loop, where [lastprivate] values are taken, is
    seen once, by the thread that executes the last iteration. *)
Definition partitions (ex : Z -> outcome (list Z * Z)) : Prop :=
  exists share : Z -> list Z,
    (forall id, 0 <= id < T -> NoDup (share id) /\ (forall v, v ∈ share id -> v ∈ iterations) /\
       ex id = Ok (share id, if bool_decide (val (size - 1) ∈ share id) then 1 else 0)) /\
    (forall v, v ∈ iterations -> exists id, (0 <= id < T /\ v ∈ share id) /\
       forall id', 0 <= id' < T -> v ∈ share id' -> id' = id).

Lemma partition_of_owners ex (own : Z -> Z -> Prop) :
  (forall id, 0 <= id < T -> yields (ex id) (executes (own id))) ->
  (forall k, 0 <= k < size -> exists id, 0 <= id < T /\ own id k) ->
  (forall k i j, 0 <= k < size -> 0 <= i < T -> 0 <= j < T -> own i k -> own j k -> i = j) ->
  partitions ex.
Proof.
  intros Hex Hown Huniq. exists (fun id => match ex id with Ok (l, _) => l | Err _ => [] end).
  pose proof size_pos. split.
  - intros id Hid. specialize (Hex id Hid). destruct (ex id) as [[l n]|]; simpl in *; [|done].
    destruct Hex as (Hl & Hnd & H1 & H0). simpl in *. split; [done|]. split.
    { intros v Hv. apply Hl in Hv as (k & -> & Hk & _). apply elem_of_iterations. eauto. }
    f_equal. f_equal. case_bool_decide as Hin.
    + apply Hl in Hin as (k & Hk%val_inj & _ & HP). subst k. auto.
    + apply H0. intros HP. apply Hin, Hl. exists (size - 1). split; [done|]. split; [lia|done].
  - intros v (k & -> & Hk)%elem_of_iterations. destruct (Hown k Hk) as (id & Hid & Ho).
    assert (forall i, 0 <= i < T -> val k ∈ match ex i with Ok (l, _) => l | Err _ => [] end <-> own i k) as Hiff.
    { intros i Hi. specialize (Hex i Hi). destruct (ex i) as [[l n]|]; simpl in Hex; [|done].
      destruct Hex as (Hl & _). simpl in Hl. rewrite Hl. split.
      - by intros (k' & ->%val_inj & _ & HP).
      - intros HP. by exists k. }
    exists id. split; [split; [done|by apply Hiff]|]. intros id' Hid' Hv. apply (Huniq k); [done|done|done| |done].
    by apply Hiff.
Qed.

Section Init.
Context (r : Z) (Hr : T + 2 <= r) (Hroom : room r).

Lemma room_2 : 2 <= r.
Proof. lia. Qed.

Lemma room_distance : Z.abs lo + Z.abs (up - lo) + 2 < 2 ^ 63.
Proof. unfold room in Hroom. nia. Qed.

Lemma single_ok :
  yields (let* b := Ok (lo, up, if 0 <? step then i64 (i64 (up - lo) + 1) else i64 (i64 (up - lo) - 1)) in compiled_loop b)
    (executes (fun k => 0 <= k < 0 + (size + 1))).
Proof.
  pose proof room_distance as Hd. rewrite (i64_id (up - lo)), !i64_id by lia.
  rewrite obind_ok. unfold compiled_loop. rewrite Hne. pose proof size_pos. pose proof fuel_enough.
  pose proof (end_cut (0 + (size + 1) - 1) ltac:(lia)) as Hmin.
  pose proof (outer_single (visit_fuel lo up) (Z.quot (up - lo) step + 1) 0 (size + 1)
    (if 0 <? step then up - lo + 1 else up - lo - 1)) as Hs.
  rewrite Hmin in Hs. replace (val 0) with lo in Hs by (unfold val; lia).
  apply Hs; [apply (room_fits r room_2 Hroom)|lia|lia|lia|unfold size; lia|].
  right. rewrite i64_id by (destruct (0 <? step); lia). unfold loop_le.
  destruct (Z.ltb_spec 0 step), (Z.leb_spec 0 step); lia.
Qed.

Lemma past_end k : 0 <= k < size -> loop_le step (i64 (val k + size * step)) up = false.
Proof.
  intros Hk. rewrite <- val_add, (i64_val r room_2 Hroom), loop_le_up by (pose proof room_2; lia). lia.
Qed.

(** A share with one block of iterations, as [__pmp_static_init] returns it. *)
Lemma even_share a c :
  0 <= a -> 0 <= c -> (a < size -> 1 <= c) -> (analyse p = true -> 1 <= c) -> a + c <= size + T ->
  yields (let* b := (let '(l, u, stride) := clip_share lo up (i64 (lo + i64 (a * step))) step c (i64 (size * step)) in
                     let* _ := run_analyser p lo up l u step c stride in Ok (l, u, stride)) in
          compiled_loop b) (executes (fun k => a <= k < a + c)).
Proof.
  intros Ha Hc Hc1 Hc2 Hac. pose proof size_pos.
  rewrite (i64_mul r room_2 Hroom a), (i64_mul r room_2 Hroom size) by lia. fold (val a).
  rewrite (i64_val r room_2 Hroom a) by lia.
  assert (let '(l, u, stride) := clip_share lo up (val a) step c (size * step) in
          run_analyser p lo up l u step c stride = Ok tt) as Hrun.
  { destruct (analyse p) eqn:Ea.
    - apply (analyser_share r room_2 Hroom); [done|auto|lia|lia|]. intros Hlt. eapply yields_mono; [|done].
      pose proof fuel_enough. apply outer_single; [by apply (room_fits r room_2)|lia|lia|auto|split; [lia|lia]|].
      right. apply past_end. lia.
    - destruct (clip_share _ _ _ _ _ _) as [[l u] st]. unfold run_analyser. by rewrite Ea. }
  pose proof (clip_single r room_2 Hroom a c (size * step) Ha Hc Hc1 ltac:(lia) (or_intror past_end)) as Hc'.
  destruct (clip_share lo up (val a) step c (size * step)) as [[l u] st].
  rewrite Hrun, !obind_ok. exact Hc'.
Qed.

(** The [size] of the code. *)
Lemma i64_size : i64 (Z.quot (i64 (up - lo)) step + 1) = size.
Proof.
  pose proof room_distance. pose proof size_pos. rewrite (i64_id (up - lo)) by lia. fold size.
  apply (i64_num r Hroom). lia.
Qed.

Lemma static_init_even id chunk :
  T <> 1 -> 0 <= id < T -> (analyse p = true -> static_fair p = true -> T <= size) ->
  yields (executed PMP_SCHED_STATIC_EVEN chunk id)
    (executes (fun k => if static_fair p then fair_start id <= k < fair_start (id + 1)
                        else even_start id <= k < even_start (id + 1))).
Proof.
  intros HT1 Hid Han. unfold executed, __pmp_static_init. rewrite assert_true by lia. rewrite obind_ok.
  destruct (Z.eqb_spec T 1); [done|]. rewrite Z.eqb_refl, i64_size. pose proof size_pos.
  rewrite assert_true by lia. rewrite obind_ok.
  pose proof even_chunk_bounds as (Hch & Hcov & Hend). destruct (static_fair p) eqn:Ef; simpl negb; cbv iota.
  - pose proof fair_bounds as (_ & HfT & Hcnt). pose proof (fair_next id ltac:(lia)) as Hnext. specialize (Hcnt id ltac:(lia)).
    unfold fair_start in *. pose proof (fair_division_eq id ltac:(lia)) as Heq. cbv zeta in Heq.
    pose proof (Z_div_mod_eq_full size T). pose proof (Z.mod_pos_bound size T ltac:(lia)).
    pose proof (Z.div_pos size T ltac:(lia) ltac:(lia)).
    destruct (fair_division size T id) as [a c]. simpl in *. rewrite Hnext. injection Heq as -> ->.
    apply even_share; [nia|lia| | |destruct (id <? size mod T); nia].
    + intros Hlt. destruct (Z.ltb_spec id (size mod T)); [lia|]. destruct (decide (size / T = 0)); [|lia].
      exfalso. nia.
    + intros Ea. specialize (Han Ea eq_refl). assert (1 <= size / T) by (apply Z.div_le_lower_bound; lia).
      destruct (id <? size mod T); lia.
  - rewrite (i64_id (size + T)), (i64_id (size + T - 1)) by lia.
    unfold even_start. rewrite Z.mul_add_distr_r, Z.mul_1_l. set (c := Z.quot (size + T - 1) T) in *.
    assert (0 <= id * c <= T * c - c) by nia.
    rewrite (i64_id (id * c)) by lia. apply even_share; [lia|lia|lia|lia|lia].
Qed.

Context (chunk : Z) (Hchunk : 1 <= chunk) (Hrc : T * chunk + 2 <= r).

Lemma static_init_chunked id :
  T <> 1 -> 0 <= id < T ->
  yields (executed PMP_SCHED_STATIC chunk id)
    (executes (fun k => id * chunk <= k /\ (k - id * chunk) mod (chunk * T) < chunk)).
Proof.
  intros HT1 Hid. unfold executed, __pmp_static_init. rewrite assert_true by lia. rewrite obind_ok.
  destruct (Z.eqb_spec T 1); [done|]. change (PMP_SCHED_STATIC =? PMP_SCHED_STATIC_EVEN) with false.
  rewrite Z.eqb_refl. cbv iota. pose proof size_pos. assert (0 <= id * chunk <= T * chunk - chunk) by nia.
  rewrite (i64_mul r room_2 Hroom chunk) by nia. rewrite (Z.mul_assoc id), (i64_mul r room_2 Hroom (id * chunk)) by lia.
  fold (val (id * chunk)). rewrite (i64_val r room_2 Hroom (id * chunk)) by lia.
  replace (chunk * step * T) with (chunk * T * step) by lia. rewrite (i64_mul r room_2 Hroom (chunk * T)) by lia.
  assert (let '(l, u, stride) := clip_share lo up (val (id * chunk)) step chunk (chunk * T * step) in
          run_analyser p lo up l u step chunk stride = Ok tt) as Hrun.
  { apply (analyser_share r room_2 Hroom); [lia|lia|nia|lia|]. intros Hlt. eapply yields_mono; [|done].
    pose proof fuel_enough. apply (outer_blocks r); [apply room_2|done|lia|nia|lia|by left|lia]. }
  pose proof (clip_blocks r room_2 Hroom (id * chunk) chunk (chunk * T) ltac:(lia) ltac:(nia) ltac:(lia) ltac:(lia)) as Hc'.
  destruct (clip_share lo up (val (id * chunk)) step chunk (chunk * T * step)) as [[l u] st].
  rewrite Hrun, !obind_ok. exact Hc'.
Qed.
End Init.

(** Thread [id] owns the blocks whose number is [id] modulo the team size. *)
Lemma block_owner c k id :
  1 <= c -> 0 <= k -> 0 <= id < T ->
  (id * c <= k /\ (k - id * c) mod (c * T) < c) <-> (k / c) mod T = id.
Proof.
  intros Hc Hk Hid. pose proof (Z_div_mod_eq_full k c). pose proof (Z.mod_pos_bound k c ltac:(lia)).
  pose proof (Z_div_mod_eq_full (k / c) T). pose proof (Z.mod_pos_bound (k / c) T ltac:(lia)).
  pose proof (Z.div_pos k c ltac:(lia) ltac:(lia)). pose proof (Z.div_pos (k / c) T ltac:(lia) ltac:(lia)).
  set (b := (k / c) mod T) in *. set (j := k / c / T) in *. set (x := k mod c) in *.
  assert (k - id * c = (b - id) * c + x + j * (c * T)) as E by nia. split.
  - intros [Hle Hmod]. rewrite E, Z.mod_add in Hmod by nia.
    destruct (Z.lt_trichotomy b id) as [Hlt|[Heq|Hgt]]; [|done|].
    + replace ((b - id) * c + x) with ((b - id + T) * c + x + (-1) * (c * T)) in Hmod by lia.
      rewrite Z.mod_add, Z.mod_small in Hmod by nia. nia.
    + rewrite Z.mod_small in Hmod by nia. nia.
  - intros <-. split; [nia|]. rewrite E, Z.mod_add by nia. rewrite Z.mod_small by nia. nia.
Qed.
End Team.

(** The room that the expressions of [__pmp_static_init] and the loops need: the distance
    between the bounds twice, and a block of [chunk] iterations (of one, in even
    schedules) for every thread. *)
Definition static_room (T sched chunk : Z) : Prop :=
  room (T * (if sched =? PMP_SCHED_STATIC_EVEN then 1 else chunk) + 2).

(** C23. [__ompc_static_init] partitions the loop: for every team size, loop
    direction and stride, with even, fair and chunked static scheduling, each
    iteration is executed by exactly one thread, exactly once, no thread
    leaves the loop, and exactly one thread sees the end of it.  The code computes with
    [int64_t], and the loop has to keep its distance from the limits of the type:
    [static_room] says |lower| + 2 |upper - lower| + (T c + 2) |inc| < 2^63, where [c] is the
    chunk, or 1 in even schedules.  The loop is not empty and a chunk is at least
    1.  When the checking code is on it accepts every share; a fair division then has to
    have an iteration for every thread. *)
Theorem omp_static_partition p T sched chunk
    (HT : 1 <= T)
    (Hsched : sched = PMP_SCHED_STATIC_EVEN \/ sched = PMP_SCHED_STATIC /\ 1 <= chunk)
    (Hroom : static_room T sched chunk)
    (Han : analyse p = true -> static_fair p = true -> T <= size) :
  partitions T (executed p T sched chunk).
Proof.
  unfold static_room in Hroom. set (r := T * _ + 2) in Hroom.
  assert (T + 2 <= r) as Hr by (destruct Hsched as [->|[-> Hc]]; unfold r; cbn; nia).
  pose proof (room_team r ltac:(lia) Hroom T HT Hr) as HsT. pose proof size_pos as Hsz. destruct (decide (T = 1)) as [->|HT1].
  { apply (partition_of_owners _ _ (fun _ k => 0 <= k < 0 + (size + 1))); [|intros; exists 0; lia|lia].
    intros id Hid. unfold executed, __pmp_static_init. rewrite assert_true by done. rewrite obind_ok.
    by apply (single_ok 1 ltac:(lia) r). }
  destruct Hsched as [->|[-> Hc]].
  - destruct (fair_bounds T HT HsT) as (Hf0 & HfT & Hcnt). destruct (even_chunk_bounds T HT) as (Hch & Hcov & _).
    set (f := if static_fair p then fair_start T else even_start T).
    apply (partition_of_owners _ _ (fun id k => f id <= k < f (id + 1))).
    + intros id Hid. eapply yields_mono; [by apply (static_init_even p T HT HsT r)|]. intros x. unfold f.
      by destruct (static_fair p).
    + intros k Hk. destruct (interval_owner f (Z.to_nat T) k) as (id & Hid & Hk').
      * intros i Hi. unfold f. destruct (static_fair p); [rewrite fair_next by lia; specialize (Hcnt i); lia|].
        unfold even_start. nia.
      * unfold f. rewrite Z2Nat.id by lia. destruct (static_fair p); [lia|]. unfold even_start. nia.
      * exists id. split; [lia|done].
    + intros k i j Hk Hi Hj. apply (interval_owner_unique T f); [|done|done].
      intros m Hm. unfold f. destruct (static_fair p); [rewrite fair_next by lia; specialize (Hcnt m); lia|].
      unfold even_start. nia.
  - apply (partition_of_owners _ _ (fun id k => id * chunk <= k /\ (k - id * chunk) mod (chunk * T) < chunk)).
    + intros id Hid. by apply (static_init_chunked p T HT r).
    + intros k Hk. exists ((k / chunk) mod T). pose proof (Z.mod_pos_bound (k / chunk) T ltac:(lia)).
      split; [done|]. apply block_owner; [done|done|lia|done|done].
    + intros k i j Hk Hi Hj Hki Hkj. rewrite block_owner in Hki, Hkj by (done || lia). congruence.
Qed.
End Loop.

(** The defect of the checking code: with fair division and fewer iterations
    than threads, a thread without iterations calls the analyser with an empty
    chunk, and its assertion stops the program when profiling or checking is
    on. *)
Theorem omp_fair_check_fails p lo up step T id
    (Hstep : step <> 0) (Hne : loop_le step lo up = true) (Hroom : room lo up step (T + 2))
    (Hfair : static_fair p = true) (Han : analyse p = true) (Hid : size lo up step <= id < T) :
  __pmp_static_init p T id PMP_SCHED_STATIC_EVEN lo up step 1 = Err Assertion.
Proof.
  pose proof (size_pos lo up step Hstep Hne). unfold __pmp_static_init. rewrite assert_true by lia. rewrite obind_ok.
  assert (2 <= T + 2) as Hr by lia. pose proof (room_team lo up step Hstep Hne (T + 2) Hr Hroom T ltac:(lia) ltac:(lia)) as HsT.
  destruct (Z.eqb_spec T 1); [lia|]. rewrite Z.eqb_refl, (i64_size lo up step Hstep Hne T ltac:(lia) (T + 2)) by (done || lia).
  rewrite assert_true by lia.
  rewrite obind_ok, Hfair. simpl negb. cbv iota.
  rewrite (fair_division_eq lo up step Hstep Hne T ltac:(lia) HsT) by lia.
  rewrite (Z.div_small (size lo up step) T), (Z.mod_small (size lo up step) T) by lia.
  destruct (Z.ltb_spec id (size lo up step)); [lia|]. rewrite Z.mul_0_r, !Z.add_0_l, Z.min_r by lia.
  rewrite (i64_mul lo up step Hstep Hne (T + 2) Hr Hroom (size lo up step)) by lia. fold (val lo step (size lo up step)).
  rewrite (i64_val lo up step Hstep Hne (T + 2) Hr Hroom (size lo up step)) by lia.
  rewrite (clip_share_eq lo up step Hstep Hne (T + 2)) by (done || lia). rewrite Z.ltb_irrefl. unfold run_analyser. rewrite Han.
  unfold __pmp_loop_analyser. destruct (Z.eqb_spec step 0); [done|]. done.
Qed.

(** The loop [for (i = 10; i >= 1; i -= 2)] on three threads, with fair division
    and checking: five iterations. *)
Lemma omp_static_partition_witness :
  size 10 1 (-2) = 5 /\ partitions 10 1 (-2) 3 (executed 10 1 (-2) (mkParam true 1 1 2 100 true) 3 PMP_SCHED_STATIC 2) /\
  executed 10 1 (-2) (mkParam true 1 1 2 100 true) 3 PMP_SCHED_STATIC 2 0 = Ok ([10; 8], 0).
Proof.
  split; [done|]. split; [|by vm_compute].
  apply omp_static_partition; [done|done|lia|right; split; [done|lia]|by vm_compute|].
  intros _ _. apply Z.leb_le. by vm_compute.
Defined.

Lemma omp_fair_check_fails_witness :
  __pmp_static_init (mkParam true 1 1 2 100 true) 4 3 PMP_SCHED_STATIC_EVEN 1 2 1 1 = Err Assertion.
Proof. apply omp_fair_check_fails; [done|done|by vm_compute|done|done|]. split; [apply Z.leb_le|]; by vm_compute. Defined.
