(* ===== verification/OmpNext.v ===== *)
(** The ranges that [__pmp_schedule_next] hands out, and the loops that a
    thread executes when the schedule is static. *)
From Stdlib Require Import ZArith Lia Bool.
From stdpp Require Import prelude list.
From S2P Require Import Prelude OmpSchedule OmpStatic.

Section Ranges.
Context (l : pmp_loop) (Hstep : inc l <> 0) (Hne : loop_le (inc l) (lower l) (upper l) = true).
Abbreviation v := (val (lower l) (inc l)).
Abbreviation n := (size (lower l) (upper l) (inc l)).

(** The range of [c] iterations from iteration [a] on, cut at the end of the
    loop; [None] if it is empty. *)
Definition range_of (a c : Z) : option (Z * Z) :=
  if (a <? n) && (1 <=? c) then Some (v a, LOOPMIN (inc l) (v (a + c - 1)) (upper l)) else None.

Lemma LOOPMIN_val x y b : LOOPMIN (inc l) (v x) (LOOPMIN (inc l) (v y) b) = LOOPMIN (inc l) (v (Z.min x y)) b.
Proof. unfold LOOPMIN, val. destruct (Z.leb_spec 0 (inc l)); destruct (Z.min_spec x y) as [[? ->]|[? ->]]; nia. Qed.

(** Iterations per thread, rounded up. *)
Definition per_thread (T : Z) : Z := Z.quot (n - 1) T + 1.

Lemma per_thread_bounds T : 1 <= T -> 1 <= per_thread T /\ n <= T * per_thread T.
Proof.
  intros HT. pose proof (size_pos _ _ _ Hstep Hne). unfold per_thread. rewrite Z.quot_div_nonneg by lia.
  pose proof (Z_div_mod_eq_full (n - 1) T). pose proof (Z.mod_pos_bound (n - 1) T ltac:(lia)).
  pose proof (Z.div_pos (n - 1) T ltac:(lia) ltac:(lia)). lia.
Qed.

Lemma loop_le_range a b : loop_le (inc l) (v a) (LOOPMIN (inc l) (v b) (upper l)) = (a <=? b) && (a <? n).
Proof. by rewrite loop_le_min, loop_le_val, loop_le_up. Qed.

Lemma next_static_eq T id it :
  1 <= chunk l ->
  next_static l T id it =
    range_of (id * per_thread T + it * chunk l) (Z.min (chunk l) (per_thread T - it * chunk l)).
Proof.
  intros Hc. unfold next_static. fold n. fold (per_thread T). set (P := per_thread T).
  replace (lower l + id * (P * inc l)) with (v (id * P)) by (unfold val; lia).
  replace (v (id * P) + P * inc l - inc l) with (v (id * P + P - 1)) by (unfold val; lia).
  replace (v (id * P) + it * chunk l * inc l) with (v (id * P + it * chunk l)) by (unfold val; lia).
  replace (v (id * P + it * chunk l) + (chunk l - 1) * inc l)
    with (v (id * P + it * chunk l + chunk l - 1)) by (unfold val; lia).
  rewrite loop_le_range, LOOPMIN_val. unfold range_of.
  replace ((id * P + it * chunk l <? n) && _)
    with ((id * P + it * chunk l <=? id * P + P - 1) && (id * P + it * chunk l <? n)) by lia.
  destruct (_ && _); [|done]. simpl. f_equal. f_equal. f_equal. f_equal. lia.
Qed.

(** The first iteration and the number of iterations of a thread under a static
    even schedule. *)
Definition even_range (p : pmp_param) (T id : Z) : Z * Z :=
  if static_fair p then fair_division n T id else (id * per_thread T, per_thread T).

Lemma next_even_first p T id :
  next_static_even p l T id 0 = Ok (range_of (fst (even_range p T id)) (snd (even_range p T id))).
Proof.
  unfold next_static_even. rewrite Z.eqb_refl. fold n. fold (per_thread T). unfold even_range.
  assert (forall a c, (if negb (loop_le (inc l) (v a) (LOOPMIN (inc l) (v (a + c - 1)) (upper l))) then Ok None
             else Ok (Some (v a, LOOPMIN (inc l) (v (a + c - 1)) (upper l)))) = Ok (range_of a c)) as Hr.
  { intros a c. rewrite loop_le_range. unfold range_of.
    replace ((a <? n) && (1 <=? c)) with ((a <=? a + c - 1) && (a <? n)) by lia. by destruct (_ && _). }
  destruct (static_fair p); cbn [negb fst snd].
  - destruct (fair_division n T id) as [a c]. cbn [fst snd]. rewrite <- Hr.
    change (lower l + a * inc l) with (v a).
    replace (v a + (c - 1) * inc l) with (v (a + c - 1)) by (unfold val; lia). reflexivity.
  - rewrite <- Hr. replace (lower l + id * (per_thread T * inc l)) with (v (id * per_thread T)) by (unfold val; lia).
    replace (v (id * per_thread T) + per_thread T * inc l - inc l)
      with (v (id * per_thread T + per_thread T - 1)) by (unfold val; lia). reflexivity.
Qed.

Lemma claimed_range_eq a c : 1 <= c -> claimed_range l (v a) (inc l * c) = range_of a c.
Proof.
  intros Hc. unfold claimed_range, range_of. rewrite loop_le_up by done.
  replace ((a <? n) && (1 <=? c)) with (a <? n) by lia. destruct (a <? n); [|done]. simpl.
  replace (v a + inc l * c - inc l) with (v (a + c - 1)) by (unfold val; lia).
  do 2 f_equal. unfold LOOPMIN. destruct (0 <=? inc l); lia.
Qed.

(** The whole loop, as a team of one thread gets it. *)
Lemma whole_range : Some (lower l, upper l) = range_of 0 (n + 1).
Proof.
  pose proof (size_pos _ _ _ Hstep Hne). unfold range_of. replace ((0 <? n) && _) with true by lia.
  replace (v 0) with (lower l) by (unfold val; lia). do 2 f_equal.
  pose proof (loop_le_up (lower l) (upper l) (inc l) Hstep Hne (0 + (n + 1) - 1)) as Hle.
  destruct (Z.ltb_spec (0 + (n + 1) - 1) n); [lia|].
  unfold loop_le, LOOPMIN in *. destruct (0 <=? inc l); lia.
Qed.

(** What the compiled inner loop does with a range. *)
Definition range_loop (r : Z * Z) : outcome (list Z * Z) :=
  let '(a, b) := r in outer_visits 1 (inc l) (Z.quot (b - a) (inc l) + 1) 0 a b (upper l).

Lemma range_of_Some a c r : range_of a c = Some r -> a < n /\ 1 <= c /\ r = (v a, LOOPMIN (inc l) (v (a + c - 1)) (upper l)).
Proof. unfold range_of. destruct (Z.ltb_spec a n), (Z.leb_spec 1 c); simpl; intros [= <-]; auto with lia. Qed.

Context (Hfits : fits (lower l) (upper l) (inc l)).

Lemma range_loop_executes a c r :
  0 <= a -> range_of a c = Some r ->
  yields (range_loop r) (executes (lower l) (upper l) (inc l) (fun k => a <= k < a + c)).
Proof.
  intros Ha (Hlt & Hc & ->)%range_of_Some. unfold range_loop. rewrite share_count by (done || lia).
  apply outer_single; [done|done|done|lia|lia|lia|lia|by left].
Qed.

(** The checking code accepts every range. *)
Lemma range_analysed p a c r :
  0 <= a -> range_of a c = Some r ->
  run_analyser p (lower l) (upper l) (fst r) (snd r) (inc l) 0 0 = Ok tt.
Proof.
  intros Ha Hr. pose proof (range_of_Some _ _ _ Hr) as (Hlt & Hc & ->). simpl. unfold run_analyser.
  destruct (analyse p); [|done]. unfold __pmp_loop_analyser. rewrite !Z.eqb_refl. cbn [andb]. rewrite share_count by (done || lia).
  rewrite assert_true by lia. rewrite obind_ok. rewrite assert_true by lia. rewrite obind_ok, loop_le_range.
  replace (_ && _) with true by lia. rewrite assert_true.
  2: { rewrite andb_true_r. apply andb_true_iff. split.
       - replace (lower l) with (v 0) at 1 by (unfold val; lia). rewrite loop_le_val; [lia|done].
       - unfold loop_le, LOOPMIN. destruct (0 <=? inc l); lia. }
  rewrite obind_ok.
  assert (1 <= visit_fuel (lower l) (upper l))%nat by (unfold visit_fuel; lia).
  pose proof (outer_single _ _ _ Hstep Hne (visit_fuel (lower l) (upper l)) (Z.min c (n - a)) a c 0 Hfits) as Hs.
  specialize (Hs ltac:(lia) ltac:(lia) ltac:(lia) ltac:(lia) (or_introl eq_refl)).
  by destruct (outer_visits _ _ _ _ _ _ _) as [[]|].
Qed.
End Ranges.

(** * What a thread executes when the schedule is static *)

(** The loop that the compiler generates around [__ompc_schedule_next]. *)
Fixpoint drive (fuel : nat) (p : pmp_param) (T : Z) (l : pmp_loop) (t : pmp_thread) : outcome (list Z * Z) :=
  match fuel with
  | O => Err Timeout
  | S f =>
      let* ' (l, t, r) := __ompc_schedule_next_8 p T l t in
      match r with
      | None => Ok ([], 0)
      | Some r =>
          let* e := range_loop l r in
          let* e' := drive f p T l t in
          Ok (fst e ++ fst e', snd e + snd e')
      end
  end.

Lemma executes_app lo up step P Q r1 r2 :
  step <> 0 -> executes lo up step P r1 -> executes lo up step Q r2 -> (forall k, P k -> Q k -> False) ->
  executes lo up step (fun k => P k \/ Q k) (fst r1 ++ fst r2, snd r1 + snd r2).
Proof.
  intros Hs (H1 & H2 & H3 & H4) (G1 & G2 & G3 & G4) Hd. split; [|split; [|split]].
  - intros v. simpl. rewrite elem_of_app, H1, G1. split.
    + intros [(k & ? & ? & ?)|(k & ? & ? & ?)]; eauto 6.
    + intros (k & ? & ? & [|]); eauto 6.
  - simpl. apply NoDup_app. split; [done|]. split; [|done].
    intros x (k & -> & Hk & HP)%H1 (k' & Hv & Hk' & HQ)%G1. apply (Hd k HP).
    by apply val_inj in Hv as ->.
  - simpl. intros [HP|HQ]; [rewrite H3 by done; rewrite G4; [done|eauto]|].
    rewrite G3 by done. rewrite H4; [done|]. eauto.
  - simpl. intros HN. rewrite H4, G4 by tauto. done.
Qed.

Lemma executes_iff lo up step P Q r :
  step <> 0 -> loop_le step lo up = true ->
  (forall k, 0 <= k < size lo up step -> P k <-> Q k) -> executes lo up step P r -> executes lo up step Q r.
Proof.
  intros Hs Hn Heq (H1 & H2 & H3 & H4). pose proof (size_pos _ _ _ Hs Hn).
  specialize (Heq (size lo up step - 1)) as Hl. split; [|split; [done|split; intros; [apply H3|apply H4]]].
  - intros x. rewrite H1. split; intros (k & Hx & Hk & HP); exists k; (split; [done|split; [done|]]); by apply (Heq k).
  - apply Hl; [lia|done].
  - rewrite Hl; [done|lia].
Qed.

Lemma even_not_static s : is_even s = true -> is_static s = false.
Proof.
  unfold is_even, is_static, PMP_SCHED_STATIC_EVEN, PMP_SCHED_ORDERED_STATIC_EVEN, PMP_SCHED_STATIC,
    PMP_SCHED_ORDERED_STATIC. lia.
Qed.

Section Drive.
Context (p : pmp_param) (l : pmp_loop) (T : Z).
Context (Hstep : inc l <> 0) (Hne : loop_le (inc l) (lower l) (upper l) = true).
Context (Hcount : 1 <= looping_threads l) (Hfits : fits (lower l) (upper l) (inc l)).
Abbreviation v := (val (lower l) (inc l)).
Abbreviation n := (size (lower l) (upper l) (inc l)).
Abbreviation executes := (executes (lower l) (upper l) (inc l)).

(** A thread of the team that is attached to this loop. *)
Definition member (t : pmp_thread) : Prop :=
  attached t = true /\ 0 <= local_id t < T /\ my_loop_id t = loop_id l.

Lemma drive_step f t a c P :
  member t -> 0 <= a ->
  __ompc_schedule_next_8 p T l t = finish_next p l t (range_of l a c) ->
  (a < n -> 1 <= c -> forall t', member t' -> local_id t' = local_id t -> iteration t' = iteration t + 1 ->
     yields (drive f p T l t') (executes P)) ->
  (forall k, P k -> ~ (a <= k < a + c)) -> (n <= a \/ c < 1 -> forall k, 0 <= k < n -> ~ P k) ->
  yields (drive (S f) p T l t) (executes (fun k => a <= k < a + c \/ P k)).
Proof.
  intros (Hat & Hid & Hl) Ha Heq Hrest Hdis Hempty. cbn [drive]. rewrite Heq. destruct (range_of l a c) as [[x y]|] eqn:Er; unfold finish_next.
  - pose proof (range_analysed l Hstep Hne Hfits p a c (x, y) Ha Er) as Hrun. cbn [fst snd] in Hrun.
    rewrite Hrun, !obind_ok.
    pose proof (range_of_Some _ _ _ _ Er) as (Hlt & Hc & _).
    eapply yields_bind; [by apply (range_loop_executes l Hstep Hne Hfits a c)|]. intros e He.
    eapply yields_bind; [apply Hrest; try done; by split|]. intros e' He'.
    apply executes_app; [done|done|done|]. intros k Hk HP. by apply (Hdis k).
  - unfold __pmp_loop_free. rewrite assert_true by lia. rewrite obind_ok, assert_true by lia. simpl.
    apply executes_none; [done|done|]. intros k Hk. unfold range_of in Er.
    destruct (Z.ltb_spec a n), (Z.leb_spec 1 c); try done; (intros [?|HP]; [lia|]); apply (Hempty ltac:(lia) k Hk HP).
Qed.

(** Everything is handed out: the next call leaves the loop. *)
Lemma drive_leave f t :
  member t -> __ompc_schedule_next_8 p T l t = finish_next p l t None ->
  yields (drive (S f) p T l t) (executes (fun _ => False)).
Proof.
  intros (Hat & Hid & Hl) Heq. cbn [drive]. rewrite Heq. unfold finish_next, __pmp_loop_free.
  rewrite assert_true by lia. rewrite obind_ok, assert_true by lia. rewrite !obind_ok.
  apply executes_none; [done|done|tauto].
Qed.

Lemma next_8_static t :
  member t -> T <> 1 -> is_static (sched l) = true -> 1 <= chunk l ->
  __ompc_schedule_next_8 p T l t =
    finish_next p l t (range_of l (local_id t * per_thread l T + iteration t * chunk l)
                         (Z.min (chunk l) (per_thread l T - iteration t * chunk l))).
Proof.
  intros (Hat & Hid & _) HT Hs Hc. unfold __ompc_schedule_next_8, __pmp_schedule_next.
  rewrite Hat, (assert_true (_ <? _)) by lia. simpl obind. destruct (Z.eqb_spec T 1); [done|].
  by rewrite Hs, next_static_eq.
Qed.

Lemma next_8_even t :
  member t -> T <> 1 -> is_even (sched l) = true -> iteration t = 0 ->
  __ompc_schedule_next_8 p T l t =
    finish_next p l t (range_of l (fst (even_range l p T (local_id t))) (snd (even_range l p T (local_id t)))).
Proof.
  intros (Hat & Hid & _) HT Hs Hi. unfold __ompc_schedule_next_8, __pmp_schedule_next.
  rewrite Hat, (assert_true (_ <? _)) by lia. simpl obind. destruct (Z.eqb_spec T 1); [done|].
  by rewrite (even_not_static _ Hs), Hs, Hi, next_even_first.
Qed.

(** The second call under an even schedule, or in a team of one thread. *)
Lemma next_8_second t :
  member t -> T = 1 \/ is_even (sched l) = true -> iteration t = 1 ->
  __ompc_schedule_next_8 p T l t = finish_next p l t None.
Proof.
  intros (Hat & Hid & _) Hs Hi. unfold __ompc_schedule_next_8, __pmp_schedule_next.
  rewrite Hat, (assert_true (_ <? _)) by lia. simpl obind. unfold next_single, next_static_even. rewrite Hi.
  destruct (Z.eqb_spec T 1); [done|]. destruct Hs as [|Hs]; [done|].
  by rewrite (even_not_static _ Hs), Hs.
Qed.

Lemma drive_static f t :
  member t -> T <> 1 -> is_static (sched l) = true -> 1 <= chunk l -> 0 <= iteration t ->
  Z.max 0 (per_thread l T - iteration t * chunk l) < Z.of_nat f ->
  yields (drive f p T l t) (executes (fun k =>
    local_id t * per_thread l T + iteration t * chunk l <= k < local_id t * per_thread l T + per_thread l T)).
Proof.
  intros Hm HT Hs Hc. revert t Hm. induction f as [|f IH]; intros t Hm Hi Hf; [lia|].
  set (a := local_id t * per_thread l T + iteration t * chunk l).
  eapply yields_mono.
  - apply (drive_step f t a (Z.min (chunk l) (per_thread l T - iteration t * chunk l))
      (fun k => a + chunk l <= k < local_id t * per_thread l T + per_thread l T)).
    + done.
    + destruct Hm as (_ & Hid & _). pose proof (per_thread_bounds l Hstep Hne T ltac:(lia)). unfold a. nia.
    + by apply next_8_static.
    + intros Ha H1 t' Hm' Hid' Hit'. specialize (IH t' Hm' ltac:(lia)). rewrite Hid', Hit', Z.mul_add_distr_r in IH.
      eapply yields_mono; [apply IH; lia|]. intros r. apply executes_iff; [done|done|]. intros k Hk. unfold a. lia.
    + intros k Hk. lia.
    + intros Hk k Hk'. unfold a in *. lia.
  - intros r. apply executes_iff; [done|done|]. intros k Hk. unfold a. lia.
Qed.

(** One range, and then nothing. *)
Lemma drive_once f t a c :
  member t -> T = 1 \/ is_even (sched l) = true -> iteration t = 0 -> 0 <= a ->
  __ompc_schedule_next_8 p T l t = finish_next p l t (range_of l a c) ->
  yields (drive (S (S f)) p T l t) (executes (fun k => a <= k < a + c)).
Proof.
  intros Hm Hs Hi Ha Heq. eapply yields_mono.
  - apply (drive_step (S f) t a c (fun _ => False)); [done|done|done| |done|tauto].
    intros _ _ t' Hm' _ Hi'. apply drive_leave; [done|]. apply next_8_second; [done|done|lia].
  - intros r. apply executes_iff; [done|done|tauto].
Qed.
End Drive.

(** The first iteration of a thread under the static schedules of
    [__pmp_schedule_next]; it owns the iterations before its successor's. *)
Definition next_start (p : pmp_param) (l : pmp_loop) (T id : Z) : Z :=
  if is_static (sched l) then id * per_thread l T else fst (even_range l p T id).

Section Owners.
Context (p : pmp_param) (l : pmp_loop) (T : Z) (HT : 1 <= T).
Context (Hstep : inc l <> 0) (Hne : loop_le (inc l) (lower l) (upper l) = true).
Abbreviation n := (size (lower l) (upper l) (inc l)).
Context (Hfits : fits (lower l) (upper l) (inc l)) (HsT : n + T < 2 ^ 63).

Lemma even_range_next id :
  0 <= id < T ->
  0 <= fst (even_range l p T id) /\ 0 <= snd (even_range l p T id) /\
  fst (even_range l p T (id + 1)) = fst (even_range l p T id) + snd (even_range l p T id).
Proof.
  intros Hid. unfold even_range. pose proof (per_thread_bounds l Hstep Hne T HT).
  pose proof (size_pos _ _ _ Hstep Hne). destruct (static_fair p); cbn [fst snd].
  - destruct (fair_bounds _ _ _ Hstep Hne T HT HsT) as (_ & _ & Hc).
    pose proof (fair_next _ _ _ Hstep Hne T HT HsT id Hid) as Hn. unfold fair_start in Hn. rewrite Hn.
    specialize (Hc id ltac:(lia)). split; [|by auto]. rewrite fair_division_eq by (done || lia). simpl.
    pose proof (Z.div_pos n T ltac:(lia) ltac:(lia)). pose proof (Z.mod_pos_bound n T ltac:(lia)). nia.
  - nia.
Qed.

Lemma next_start_mono id : 0 <= id < T -> next_start p l T id <= next_start p l T (id + 1).
Proof.
  intros Hid. unfold next_start. pose proof (per_thread_bounds l Hstep Hne T HT).
  pose proof (even_range_next id Hid). destruct (is_static (sched l)); lia.
Qed.

Lemma next_start_covers : next_start p l T 0 = 0 /\ n <= next_start p l T T.
Proof.
  unfold next_start, even_range. pose proof (per_thread_bounds l Hstep Hne T HT).
  destruct (fair_bounds _ _ _ Hstep Hne T HT HsT) as (H0 & HT' & _). unfold fair_start in *.
  destruct (is_static (sched l)), (static_fair p); cbn [fst]; lia.
Qed.

Lemma drive_owner t :
  T <> 1 -> 1 <= looping_threads l -> is_even (sched l) = true \/ is_static (sched l) = true /\ 1 <= chunk l ->
  member l T t -> iteration t = 0 ->
  yields (drive (S (S (Z.to_nat n))) p T l t)
    (executes (lower l) (upper l) (inc l)
       (fun k => next_start p l T (local_id t) <= k < next_start p l T (local_id t + 1))).
Proof.
  intros HT1 Hc Hs Hm Hi. pose proof (per_thread_bounds l Hstep Hne T HT).
  assert (0 <= local_id t < T) as Hid by apply Hm. pose proof (size_pos _ _ _ Hstep Hne).
  assert (per_thread l T <= n).
  { unfold per_thread. rewrite Z.quot_div_nonneg by lia. pose proof (Z.div_le_upper_bound (n - 1) T (n - 1)). nia. }
  unfold next_start. destruct (is_static (sched l)) eqn:Es.
  - assert (1 <= chunk l) as Hch by (destruct Hs as [Hs%even_not_static|[_ Hs]]; [congruence|done]).
    eapply yields_mono; [apply (drive_static p l T); (done || lia)|].
    intros r. apply executes_iff; [done|done|]. intros k Hk. lia.
  - destruct Hs as [Hs|[Hs _]]; [|done]. destruct (even_range_next (local_id t) Hid) as (Hfst & Hsnd & ->).
    apply drive_once; [done|done|done|done|done|by right|done|done|]. by apply next_8_even.
Qed.
End Owners.

(** Static schedules through [__ompc_schedule_next]: when every thread of a
    team calls it until it returns 0 and executes the ranges it gets, each
    iteration is executed exactly once by exactly one thread and nothing else
    is; every thread leaves the loop, no assertion fails, and the end of the
    loop is seen once.  The loop keeps its distance from the limits of [int64_t]. *)
Theorem omp_next_static_partition p l T (t : Z -> pmp_thread)
    (Hstep : inc l <> 0) (Hne : loop_le (inc l) (lower l) (upper l) = true)
    (HT : 1 <= T) (Hcount : 1 <= looping_threads l)
    (Hsched : is_even (sched l) = true \/ is_static (sched l) = true /\ 1 <= chunk l)
    (Hroom : room (lower l) (upper l) (inc l) (T + 2 * Z.abs (chunk l) + 2))
    (Ht : forall id, 0 <= id < T -> member l T (t id) /\ local_id (t id) = id /\ iteration (t id) = 0) :
  let fuel := S (S (Z.to_nat (size (lower l) (upper l) (inc l)))) in
  partitions (lower l) (upper l) (inc l) T (fun id => drive fuel p T l (t id)).
Proof.
  intros fuel. set (r := T + 2 * Z.abs (chunk l) + 2) in Hroom. assert (T + 2 <= r) as Hr by lia.
  assert (2 <= r) as Hr2 by lia. pose proof (room_fits _ _ _ Hstep Hne r Hr2 Hroom) as Hfits.
  pose proof (room_team _ _ _ Hstep Hne r Hr2 Hroom T HT Hr) as HsT. destruct (decide (T = 1)) as [->|HT1].
  - apply (partition_of_owners _ _ _ Hstep Hne _ _ (fun _ k => 0 <= k < 0 + (size (lower l) (upper l) (inc l) + 1)));
      [|intros; exists 0; lia|lia].
    intros id Hid. destruct (Ht id Hid) as (Hm & Hid' & Hi). apply drive_once; [done|done|done|done|done|by left|done|lia|].
    destruct Hm as (Hat & Hlt & _). unfold __ompc_schedule_next_8, __pmp_schedule_next.
    rewrite Hat, (assert_true (_ <? _)), Hi by lia. simpl obind. unfold next_single.
    by rewrite <- (whole_range l Hstep Hne).
  - destruct (next_start_covers p l T HT Hstep Hne HsT) as [H0 Hn].
    apply (partition_of_owners _ _ _ Hstep Hne _ _ (fun id k => next_start p l T id <= k < next_start p l T (id + 1))).
    + intros id Hid. destruct (Ht id Hid) as (Hm & Hid' & Hi).
      pose proof (drive_owner p l T HT Hstep Hne Hfits HsT (t id) HT1 Hcount Hsched Hm Hi) as Hd. by rewrite Hid' in Hd.
    + intros k Hk. destruct (interval_owner (next_start p l T) (Z.to_nat T) k) as (id & Hid & Hk').
      * intros i Hi. apply next_start_mono; (done || lia).
      * rewrite Z2Nat.id by lia. lia.
      * exists id. split; [lia|done].
    + intros k i j Hk Hi Hj. apply (interval_owner_unique T); [|done|done].
      intros m Hm. apply next_start_mono; (done || lia).
Qed.

Lemma omp_next_static_partition_witness :
  partitions 1 10 3 2 (fun id => drive 6 (mkParam true 1 1 2 100 true) 2
      (mkLoop 4 2 1 PMP_SCHED_ORDERED_STATIC 1 10 3 1 1 1) (mkThread id 0 0 5 true)) /\
  drive 6 (mkParam true 1 1 2 100 true) 2
      (mkLoop 4 2 1 PMP_SCHED_ORDERED_STATIC 1 10 3 1 1 1) (mkThread 1 0 0 5 true) = Ok ([7; 10], 1).
Proof.
  split; [|by vm_compute].
  apply (omp_next_static_partition (mkParam true 1 1 2 100 true)
    (mkLoop 4 2 1 PMP_SCHED_ORDERED_STATIC 1 10 3 1 1 1) 2 (fun id => mkThread id 0 0 5 true));
    [done|done|lia|simpl; lia|right; split; [done|simpl; lia]|by vm_compute|].
  intros id Hid. split; [split; [done|split; [done|by vm_compute]]|done].
Defined.
