(* ===== verification/OmpDynamic.v ===== *)
(** Dynamic and guided schedules: the threads of a team call
    [__pmp_schedule_next] concurrently.

    A call is a sequence of steps, one for each access to the shared
    [pmp_loop]: the read of [chunk], the (unprotected) read of [current] by
    guided scheduling, the atomic addition to [current], and the atomic
    exchange of [chunk] or the release of the loop.  Steps of different
    threads interleave arbitrarily. *)
From Stdlib Require Import ZArith Lia Bool.
From stdpp Require Import prelude list relations.
From S2P Require Import Prelude OmpSchedule OmpStatic OmpNext.

(** Where a thread is in [__pmp_schedule_next]; [Left] is outside the loop. *)
Inductive pc : Type :=
| Ready
| Read (chunk : Z)
| Estimated (chunk my_chunk : Z)
| Claimed (chunk current stride : Z)
| Left.

#[export] Instance pc_eq_dec : EqDecision pc.
Proof. solve_decision. Defined.

(** [__pmp_schedule_next] from one access to the shared structure to the next, for the dynamic
    and guided schedules of a team of several threads.  A team of one takes the branch
    [next_single] of [__pmp_schedule_next] instead, which does not touch the shared fields. *)
Definition thread_step (p : pmp_param) (T : Z) (l : pmp_loop) (t : pmp_thread) (q : pc)
    : outcome (pmp_loop * pmp_thread * pc * option (Z * Z)) :=
  match q with
  | Ready =>
      assert* (attached t) in
      assert* (local_id t <? T) in
      Ok (l, t, Read (chunk l), None)
  | Read c =>
      if is_dynamic (sched l) then
        let stride := inc l * c in
        let '(current, l) := xadd_current l stride in
        Ok (l, t, Claimed c current stride, None)
      else if is_guided (sched l) then
        Ok (l, t, Estimated c (guided_estimate l c (current l)), None)
      else Err Fatal
  | Estimated c my_chunk =>
      let stride := inc l * my_chunk in
      let '(current, l) := xadd_current l stride in
      assert* negb (stride =? 0) in
      Ok (l, t, Claimed c current stride, None)
  | Claimed c current stride =>
      let r := claimed_range l current stride in
      let l := match r with
               | Some (_, my_upper) =>
                   if is_guided (sched l) then cmpxchg_chunk l c (guided_new_chunk p l T my_upper) else l
               | None => l
               end in
      let* ' (l, t, r) := finish_next p l t r in
      Ok (l, t, match r with Some _ => Ready | None => Left end, r)
  | Left => Err Fatal
  end.

(** A call without interruption. *)
Fixpoint run_steps (fuel : nat) (p : pmp_param) (T : Z) (l : pmp_loop) (t : pmp_thread) (q : pc)
    : outcome (pmp_loop * pmp_thread * option (Z * Z)) :=
  match fuel with
  | O => Err Timeout
  | S f =>
      let* ' (l, t, q, r) := thread_step p T l t q in
      match q with
      | Ready | Left => Ok (l, t, r)
      | _ => run_steps f p T l t q
      end
  end.

(** The team: the loop structure, the threads, and the ranges handed out so far,
    with the thread that got each. *)
Record team : Type := mkTeam {
  shared : pmp_loop;
  threads : list (pmp_thread * pc);
  handed : list (nat * (Z * Z))
}.

Definition put (s : team) (i : nat) (x : pmp_loop * pmp_thread * pc * option (Z * Z)) : team :=
  let '(l, t, q, r) := x in
  mkTeam l (<[i := (t, q)]> (threads s))
    (handed s ++ match r with Some r => [(i, r)] | None => [] end).

Inductive step (p : pmp_param) (T : Z) (s : team) : team -> Prop :=
| step_thread i t q x :
    threads s !! i = Some (t, q) -> thread_step p T (shared s) t q = Ok x ->
    step p T s (put s i x).

(** The values of [for (i = a; i <= b; i += inc)]. *)
Definition range_values (inc : Z) (r : Z * Z) : list Z :=
  fst (inner_visits (Z.to_nat (Z.quot (snd r - fst r) inc + 1)) inc (fst r) (snd r)).

Section Team.
Context (p : pmp_param) (l0 : pmp_loop) (T M : Z).
Context (Hstep : inc l0 <> 0) (Hne : loop_le (inc l0) (lower l0) (upper l0) = true).
Abbreviation v := (val (lower l0) (inc l0)).
Abbreviation n := (size (lower l0) (upper l0) (inc l0)).

(** [l0] is a loop as [__pmp_scheduler_init] leaves it, for a dynamic or a
    guided schedule with chunks of at most [M] iterations; the end of the loop
    is far enough from the limits of [int64_t] for the additions of all
    threads that run past it. *)
Record loop_start : Prop := {
  start_sched : is_dynamic (sched l0) = true \/ is_guided (sched l0) = true;
  start_threads : looping_threads l0 = T;
  start_T : 1 <= T < 2 ^ 31;
  start_current : current l0 = lower l0;
  start_id : 0 <= loop_id l0;
  start_chunk : 1 <= chunk l0 <= M;
  start_min : 1 <= min_chunk l0 <= M;
  start_max : is_guided (sched l0) = true -> guided_chunk_max p <= M;
  start_lower : in_s 64 (lower l0);
  start_room : in_s 64 (v (n + M * (T + 1)))
}.

Context (Hstart : loop_start).

Lemma room k : 0 <= k <= n + M * (T + 1) -> swrap 64 (v k) = v k.
Proof.
  intros Hk. apply swrap_id; [lia|]. pose proof (start_lower Hstart). pose proof (start_room Hstart).
  unfold in_s, val in *. destruct (Z.leb_spec 0 (inc l0)); nia.
Qed.

Lemma start_fits : fits (lower l0) (upper l0) (inc l0).
Proof.
  intros k Hk. apply room. pose proof (start_T Hstart). pose proof (start_chunk Hstart).
  assert (0 <= M * (T + 1)) by nia. lia.
Qed.

Lemma range_values_eq a c r :
  0 <= a -> range_of l0 a c = Some r -> range_values (inc l0) r = v <$> seqZ a (Z.min c (n - a)).
Proof.
  intros Ha (Hlt & Hc & ->)%range_of_Some. unfold range_values. cbn [fst snd].
  rewrite share_count by (done || lia).
  rewrite (inner_visits_ok _ _ _ _ _ (Z.min (a + c) n)) by ((by apply bounds_share) || (intros; apply start_fits; lia)).
  cbn [fst]. f_equal. f_equal. lia.
Qed.

(** What a thread at [q] has claimed and not yet returned; whether it has claimed
    past the end; whether it is in the loop. *)
Definition pending (q : pc) : list Z :=
  match q with
  | Claimed _ cur stride => match claimed_range l0 cur stride with Some r => range_values (inc l0) r | None => [] end
  | _ => []
  end.
Definition past (q : pc) : Z :=
  match q with
  | Claimed _ cur _ => if loop_le (inc l0) cur (upper l0) then 0 else 1
  | Left => 1
  | _ => 0
  end.
Definition inside (q : pc) : Z := match q with Left => 0 | _ => 1 end.

(** [K] iterations are claimed. *)
Record loop_ok (K : Z) (l : pmp_loop) : Prop := {
  ok_static : lower l = lower l0 /\ upper l = upper l0 /\ inc l = inc l0 /\ sched l = sched l0 /\ min_chunk l = min_chunk l0;
  ok_current : current l = v K;
  ok_chunk : 1 <= chunk l <= M;
  ok_id : loop_id l = if looping_threads l =? 0 then PMP_LOOP_UNUSED else loop_id l0
}.

Record thread_ok (K : Z) (x : pmp_thread * pc) : Prop := {
  ok_member : snd x <> Left -> attached (fst x) = true;
  ok_local : 0 <= local_id (fst x) < T;
  ok_loop : my_loop_id (fst x) = loop_id l0;
  ok_pc : match snd x with
          | Ready => True
          | Read c => 1 <= c <= M
          | Estimated c m => 1 <= m <= M
          | Claimed c cur stride => exists a m, 0 <= a /\ 1 <= m <= M /\ cur = v a /\ stride = inc l0 * m /\ a + m <= K
          | Left => n <= K
          end
}.

Definition first (K : Z) : list Z := v <$> seqZ 0 (Z.min K n).

Definition handed_values (s : team) : list Z := concat ((fun x => range_values (inc l0) (snd x)) <$> handed s).
Definition pending_values (s : team) : list Z := concat ((fun x => pending (snd x)) <$> threads s).

Record inv (K : Z) (s : team) : Prop := {
  inv_pos : 0 <= K;
  inv_loop : loop_ok K (shared s);
  inv_len : Z.of_nat (length (threads s)) = T;
  inv_threads : forall i x, threads s !! i = Some x -> thread_ok K x;
  inv_count : looping_threads (shared s) = total (fun x => inside (snd x)) (threads s);
  inv_bound : K <= n - 1 + M + M * total (fun x => past (snd x)) (threads s);
  inv_values : handed_values s ++ pending_values s ≡ₚ first K
}.

Lemma thread_ok_mono K K' x : K <= K' -> thread_ok K x -> thread_ok K' x.
Proof.
  intros HK [H1 H2 H3 H4]. split; [done|done|done|]. destruct (snd x); try done; [|lia].
  destruct H4 as (a & m & ? & ? & ? & ? & ?). exists a, m. repeat split; try done; lia.
Qed.

(** Thread [i] moves from [q] to [q']. *)
Lemma inv_update K K' s i t q l t' q' r :
  inv K s -> threads s !! i = Some (t, q) -> K <= K' -> loop_ok K' l -> thread_ok K' (t', q') ->
  looping_threads l = looping_threads (shared s) - inside q + inside q' ->
  K' <= n - 1 + M + M * (total (fun x => past (snd x)) (threads s) - past q + past q') ->
  match r with Some r => range_values (inc l0) r | None => [] end ++ pending q' ++ first K ≡ₚ pending q ++ first K' ->
  inv K' (put s i (l, t', q', r)).
Proof.
  intros [H0 Hl Hlen Hth Hc Hb Hv] Hi HK Hl' Ht' Hc' Hb' Hv'. unfold put. split; cbn [shared threads handed].
  - lia.
  - done.
  - by rewrite length_insert.
  - intros j x Hx. destruct (decide (j = i)) as [->|Hne'].
    + rewrite list_lookup_insert_eq in Hx by (by eapply lookup_lt_Some). by injection Hx as <-.
    + rewrite list_lookup_insert_ne in Hx by done. eapply thread_ok_mono; [done|]. by eapply Hth.
  - rewrite (total_insert _ _ _ _ _ Hi). cbn [snd]. lia.
  - rewrite (total_insert _ _ _ _ _ Hi). cbn [snd]. lia.
  - pose proof (concat_insert (fun x => pending (snd x)) _ _ _ (t', q') Hi) as Hp. cbn [snd] in Hp.
    apply (Permutation_app_inv_l (pending q)). rewrite <- Hv', <- Hv.
    unfold handed_values, pending_values in *. cbn [handed threads]. rewrite fmap_app, concat_app.
    set (A := concat ((fun x => range_values (inc l0) (snd x)) <$> handed s)).
    set (R := match r with Some r => range_values (inc l0) r | None => [] end).
    replace (concat ((fun x => range_values (inc l0) (snd x)) <$> match r with Some r => [(i, r)] | None => [] end)) with R
      by (destruct r; simpl; by rewrite ?app_nil_r).
    rewrite (assoc_L (++) (pending q)), (Permutation_app_comm (pending q)), <- (assoc_L (++)), Hp.
    solve_Permutation.
Qed.

Lemma claimed_range_static K l cur stride : loop_ok K l -> claimed_range l cur stride = claimed_range l0 cur stride.
Proof. intros [(_ & Hu & Hi & _) _ _ _]. unfold claimed_range. by rewrite Hu, Hi. Qed.

Lemma first_add K m : 0 <= K -> 0 <= m -> first (K + m) = first K ++ (v <$> seqZ K (Z.min m (n - K))).
Proof.
  intros HK Hm. pose proof (size_pos _ _ _ Hstep Hne). unfold first. rewrite <- fmap_app. f_equal.
  destruct (Z.lt_ge_cases K n).
  - replace (Z.min (K + m) n) with (K + Z.min m (n - K)) by lia. rewrite seqZ_app by lia.
    by rewrite (Z.min_l K n), Z.add_0_l by lia.
  - rewrite (seqZ_nil K) by lia. rewrite app_nil_r. f_equal. lia.
Qed.

Lemma pending_claim c K m :
  0 <= K -> 1 <= m -> pending (Claimed c (v K) (inc l0 * m)) = v <$> seqZ K (Z.min m (n - K)).
Proof.
  intros HK Hm. cbn [pending]. rewrite claimed_range_eq by done. destruct (range_of l0 K m) as [r|] eqn:Er.
  - by apply range_values_eq.
  - unfold range_of in Er. destruct (Z.ltb_spec K n), (Z.leb_spec 1 m); try done; try lia.
    by rewrite seqZ_nil by lia.
Qed.

Lemma past_range q : 0 <= past q <= 1.
Proof. destruct q; cbn [past]; [lia|lia|lia| |lia]. case_match; lia. Qed.

Lemma inside_range q : 0 <= inside q <= 1.
Proof. destruct q; simpl; lia. Qed.

Lemma past_total s i t q K :
  inv K s -> threads s !! i = Some (t, q) -> past q = 0 -> total (fun x => past (snd x)) (threads s) <= T - 1.
Proof.
  intros HI Hi Hq. pose proof (total_insert (fun x => past (snd x)) _ _ _ (t, Left) Hi) as Ht. cbn [snd past] in Ht.
  pose proof (total_bound (fun x => past (snd x)) (<[i := (t, Left)]> (threads s)) 1) as Hb.
  rewrite length_insert, (inv_len _ _ HI) in Hb. specialize (Hb (fun x _ => proj2 (past_range _))). lia.
Qed.

Lemma xadd_ok K s i t q m :
  inv K s -> threads s !! i = Some (t, q) -> past q = 0 -> 1 <= m <= M ->
  xadd_current (shared s) (inc l0 * m) = (v K, with_current (shared s) (v (K + m))).
Proof.
  intros HI Hi Hq Hm. unfold xadd_current. rewrite (ok_current _ _ (inv_loop _ _ HI)). f_equal. f_equal.
  replace (v K + inc l0 * m) with (v (K + m)) by (unfold val; lia). apply room.
  pose proof (past_total s i t q K HI Hi Hq). pose proof (inv_bound _ _ HI). pose proof (inv_pos _ _ HI). nia.
Qed.

(** The atomic addition. *)
Lemma inv_claim K s i t q c m :
  inv K s -> threads s !! i = Some (t, q) -> past q = 0 -> inside q = 1 -> pending q = [] -> 1 <= m <= M ->
  inv (K + m) (put s i (with_current (shared s) (v (K + m)), t, Claimed c (v K) (inc l0 * m), None)).
Proof.
  intros HI Hi Hq Hin Hpe Hm. pose proof (inv_pos _ _ HI). pose proof (inv_bound _ _ HI) as Hb.
  destruct (inv_loop _ _ HI) as [Hs Hc Hch Hid]. pose proof (inv_threads _ _ HI i _ Hi) as [Hm1 Hm2 Hm3 _].
  assert (0 <= total (fun x => past (snd x)) (threads s)) by (apply total_nonneg; intros x; apply past_range).
  apply (inv_update K (K + m) s i t q); [done|done|lia|by split| | | |].
  - split; [|done|done|]; cbn [fst snd]; [intros _; apply Hm1; by destruct q|].
    exists K, m. repeat split; try done; lia.
  - simpl. lia.
  - cbn [past]. rewrite loop_le_up by done. destruct (Z.ltb_spec K n); nia.
  - rewrite Hpe, pending_claim, first_add by lia. simpl. by rewrite Permutation_app_comm.
Qed.

(** The new chunk of guided scheduling. *)
Lemma loop_ok_cmpxchg K l c u : loop_ok K l -> is_guided (sched l) = true ->
  loop_ok K (cmpxchg_chunk l c (guided_new_chunk p l T u)).
Proof.
  intros [Hs Hc Hch Hid] Hg. unfold cmpxchg_chunk. destruct (chunk l =? c); [|by split]. split; try done.
  destruct Hs as (_ & _ & _ & Hsch & Hmin). rewrite Hsch in Hg. pose proof (start_max Hstart Hg).
  pose proof (start_min Hstart). simpl. unfold guided_new_chunk. rewrite Hmin. lia.
Qed.

Lemma finish_range K l t a m r :
  loop_ok K l -> 0 <= a -> range_of l0 a m = Some r ->
  finish_next p l t (Some r) =
    Ok (l, mkThread (local_id t) (iteration t + 1) (fst r) (loop_count t) (attached t), Some r).
Proof.
  intros [(El & Eu & Ei & _) _ _ _] Ha Hr. unfold finish_next. rewrite El, Eu, Ei. destruct r as [x y].
  pose proof (range_analysed l0 Hstep Hne start_fits p a m (x, y) Ha Hr) as Hrun. cbn [fst snd] in Hrun. by rewrite Hrun.
Qed.

(** The potential: an upper bound on the number of steps that are left. *)
Definition rank (q : pc) : Z :=
  match q with
  | Ready => 4 | Read _ => 3 | Estimated _ _ => 2
  | Claimed _ cur _ => if loop_le (inc l0) cur (upper l0) then 5 else 1
  | Left => 0
  end.
Definition potential (K : Z) (s : team) : Z := 8 * Z.max 0 (n - K) + total (fun x => rank (snd x)) (threads s).

(** A step of a thread: it succeeds, keeps the invariant and uses up potential. *)
Definition good_step (K : Z) (s : team) (i : nat) (t : pmp_thread) (q : pc) : Prop :=
  yields (thread_step p T (shared s) t q) (fun x =>
    exists K', inv K' (put s i x) /\ potential K' (put s i x) < potential K s).

Lemma potential_put K K' s i t q l t' q' r :
  threads s !! i = Some (t, q) -> K <= K' ->
  rank q' < rank q \/ rank q' < 8 + rank q /\ K < K' /\ K < n ->
  potential K' (put s i (l, t', q', r)) < potential K s.
Proof.
  intros Hi HK Hr. unfold potential, put. cbn [threads]. rewrite (total_insert _ _ _ _ _ Hi). cbn [snd]. lia.
Qed.

Lemma step_claim K s i t q c m :
  inv K s -> threads s !! i = Some (t, q) -> past q = 0 -> inside q = 1 -> pending q = [] -> 1 <= m <= M ->
  2 <= rank q ->
  exists K', inv K' (put s i (with_current (shared s) (v (K + m)), t, Claimed c (v K) (inc l0 * m), None)) /\
    potential K' (put s i (with_current (shared s) (v (K + m)), t, Claimed c (v K) (inc l0 * m), None)) < potential K s.
Proof.
  intros HI Hi Hq Hin Hpe Hm Hrk. exists (K + m). split; [by apply (inv_claim K s i t q)|].
  apply (potential_put _ _ _ _ _ _ _ _ _ _ Hi); [lia|]. cbn [rank]. rewrite loop_le_up by done.
  destruct (Z.ltb_spec K n); lia.
Qed.

Lemma step_ready K s i t : inv K s -> threads s !! i = Some (t, Ready) -> good_step K s i t Ready.
Proof.
  intros HI Hi. destruct (inv_threads _ _ HI i _ Hi) as [H1 H2 H3 _]. cbn [fst snd] in *. unfold good_step. cbn [thread_step].
  rewrite H1 by done. rewrite assert_true by done. rewrite obind_ok, assert_true by lia. rewrite obind_ok. exists K.
  split; [|by apply (potential_put _ _ _ _ _ _ _ _ _ _ Hi); [lia|left; simpl; lia]].
  apply (inv_update K K s i t Ready); [done|done|lia|apply HI| |simpl; lia| |done].
  - split; try done; cbn [fst snd]; [by rewrite H1|]. apply (ok_chunk _ _ (inv_loop _ _ HI)).
  - pose proof (inv_bound _ _ HI). cbn [past]. lia.
Qed.

Lemma sched_shared K s : inv K s -> sched (shared s) = sched l0 /\ inc (shared s) = inc l0.
Proof. intros HI. destruct (inv_loop _ _ HI) as [(_ & _ & ? & ? & _) _ _ _]. done. Qed.

Lemma step_read K s i t c : inv K s -> threads s !! i = Some (t, Read c) -> good_step K s i t (Read c).
Proof.
  intros HI Hi. destruct (inv_threads _ _ HI i _ Hi) as [H1 H2 H3 H4]. cbn [fst snd] in *. unfold good_step. cbn [thread_step].
  destruct (sched_shared K s HI) as [-> ->]. destruct (is_dynamic (sched l0)) eqn:Ed.
  - rewrite (xadd_ok K s i t (Read c)) by done. by apply (step_claim K s i t (Read c)).
  - destruct (start_sched Hstart) as [|Hg]; [congruence|]. rewrite Hg. apply yields_ok. exists K.
    split; [|by apply (potential_put _ _ _ _ _ _ _ _ _ _ Hi); [lia|left; simpl; lia]].
    apply (inv_update K K s i t (Read c)); [done|done|lia|apply HI| |simpl; lia| |done].
    + split; try done; cbn [fst snd]; [by rewrite H1|]. pose proof (start_min Hstart).
      destruct (inv_loop _ _ HI) as [(_ & _ & _ & _ & Em) _ _ _]. unfold guided_estimate. rewrite Em. lia.
    + pose proof (inv_bound _ _ HI). cbn [past]. lia.
Qed.

Lemma step_estimated K s i t c m :
  inv K s -> threads s !! i = Some (t, Estimated c m) -> good_step K s i t (Estimated c m).
Proof.
  intros HI Hi. destruct (inv_threads _ _ HI i _ Hi) as [H1 H2 H3 H4]. cbn [fst snd] in *. unfold good_step. cbn [thread_step].
  destruct (sched_shared K s HI) as [_ ->]. rewrite (xadd_ok K s i t (Estimated c m)) by done.
  rewrite assert_true by (destruct (Z.eqb_spec (inc l0 * m) 0); [nia|done]). rewrite obind_ok.
  by apply (step_claim K s i t (Estimated c m)).
Qed.

(** [__pmp_schedule_next] returns 1. *)
Lemma step_return K s i t c a m r :
  inv K s -> threads s !! i = Some (t, Claimed c (v a) (inc l0 * m)) ->
  0 <= a -> 1 <= m -> range_of l0 a m = Some r -> good_step K s i t (Claimed c (v a) (inc l0 * m)).
Proof.
  intros HI Hi Ha Hm Hr. destruct (inv_threads _ _ HI i _ Hi) as [H1 H2 H3 _]. cbn [fst snd] in *.
  unfold good_step. cbn [thread_step]. rewrite (claimed_range_static K) by apply HI.
  rewrite claimed_range_eq, Hr by done. destruct r as [x y].
  set (l := if is_guided (sched (shared s)) then _ else _).
  assert (loop_ok K l /\ looping_threads l = looping_threads (shared s)) as [Hl Hn].
  { unfold l. destruct (is_guided _) eqn:Eg; [|split; [apply HI|done]].
    split; [apply loop_ok_cmpxchg; [apply HI|done]|]. unfold cmpxchg_chunk. by destruct (_ =? _). }
  rewrite (finish_range K l t a m (x, y)) by done. rewrite obind_ok. apply yields_ok. exists K.
  pose proof (range_of_Some _ _ _ _ Hr) as (Hlt & _).
  assert (past (Claimed c (v a) (inc l0 * m)) = 0 /\ rank (Claimed c (v a) (inc l0 * m)) = 5) as [Hpast Hrank].
  { cbn [past rank]. rewrite loop_le_up by done. by destruct (Z.ltb_spec a n); [|lia]. }
  split; [|apply (potential_put _ _ _ _ _ _ _ _ _ _ Hi); [lia|left; cbn [rank] in *; lia]].
  apply (inv_update K K s i t (Claimed c (v a) (inc l0 * m))); [done|done|lia|done| |simpl; lia| |].
  - split; try done. cbn [fst snd]. intros _. simpl. by apply H1.
  - pose proof (inv_bound _ _ HI). cbn [past] in *. lia.
  - rewrite pending_claim by done. by rewrite (range_values_eq a m) by done.
Qed.

(** [__pmp_schedule_next] returns 0. *)
Lemma step_leave K s i t c a m :
  inv K s -> threads s !! i = Some (t, Claimed c (v a) (inc l0 * m)) ->
  n <= a -> 0 <= a -> 1 <= m -> a + m <= K -> good_step K s i t (Claimed c (v a) (inc l0 * m)).
Proof.
  intros HI Hi Hna Ha Hm HK. destruct (inv_threads _ _ HI i _ Hi) as [H1 H2 H3 _]. cbn [fst snd] in *.
  unfold good_step. cbn [thread_step]. rewrite (claimed_range_static K) by apply HI.
  rewrite claimed_range_eq by done.
  assert (range_of l0 a m = None) as Hr by (unfold range_of; by replace (a <? n) with false by lia).
  rewrite Hr. pose proof (inv_count _ _ HI) as Hc. pose proof (start_T Hstart) as HT.
  pose proof (total_insert (fun x => inside (snd x)) _ _ _ (t, Left) Hi) as Hins. cbn [snd inside] in Hins.
  assert (0 <= total (fun x => inside (snd x)) (<[i := (t, Left)]> (threads s))) by (apply total_nonneg; intros x; apply inside_range).
  pose proof (total_bound (fun x => inside (snd x)) (threads s) 1 (fun x _ => proj2 (inside_range _))) as Hbd.
  rewrite (inv_len _ _ HI) in Hbd. destruct (inv_loop _ _ HI) as [Hs Hcur Hch Hid].
  set (N := looping_threads (shared s)) in *. assert (1 <= N) by lia.
  unfold finish_next, __pmp_loop_free. fold N. rewrite Hid. replace (N =? 0) with false by lia.
  rewrite assert_true by lia. rewrite obind_ok, assert_true by lia. rewrite !obind_ok.
  rewrite swrap_id by (unfold in_s; lia). apply yields_ok. exists K.
  assert (past (Claimed c (v a) (inc l0 * m)) = 1 /\ rank (Claimed c (v a) (inc l0 * m)) = 1) as [Hpast Hrank].
  { cbn [past rank]. rewrite loop_le_up by done. by destruct (Z.ltb_spec a n); [lia|]. }
  split; [|apply (potential_put _ _ _ _ _ _ _ _ _ _ Hi); [lia|left; cbn [rank] in *; lia]].
  apply (inv_update K K s i t (Claimed c (v a) (inc l0 * m))); [done|done|lia| | |simpl; lia| |].
  - split; [done|done|done|]. simpl. fold N. destruct (Z.eqb_spec N 1), (Z.eqb_spec (N - 1) 0); try done; lia.
  - split; try done. cbn [fst snd]. lia.
  - pose proof (inv_bound _ _ HI). cbn [past] in *. lia.
  - cbn [pending]. rewrite claimed_range_eq, Hr by done. done.
Qed.

Lemma thread_progress K s i t q : inv K s -> threads s !! i = Some (t, q) -> q <> Left -> good_step K s i t q.
Proof.
  intros HI Hi Hq. destruct q as [|c|c m|c cur stride|]; [by apply step_ready|by apply step_read|by apply step_estimated| |done].
  destruct (inv_threads _ _ HI i _ Hi) as [_ _ _ (a & m & Ha & Hm & -> & -> & HK)].
  destruct (range_of l0 a m) as [r|] eqn:Er; [apply (step_return K s i t c a m r); done || lia|].
  apply step_leave; try done; try lia. unfold range_of in Er.
  destruct (Z.ltb_spec a n), (Z.leb_spec 1 m); try done; lia.
Qed.

(** All threads are attached to the loop and about to call. *)
Record team_start (s : team) : Prop := {
  init_shared : shared s = l0;
  init_len : Z.of_nat (length (threads s)) = T;
  init_threads : forall i x, threads s !! i = Some x -> member l0 T (fst x) /\ snd x = Ready;
  init_handed : handed s = []
}.

Lemma total_start {s} (f : pc -> Z) b : team_start s -> f Ready = b -> total (fun x => f (snd x)) (threads s) = b * T.
Proof.
  intros [_ Hlen Hth _] Hb. rewrite <- Hlen. apply total_eq. intros i x Hi. by destruct (Hth i x Hi) as [_ ->].
Qed.

Lemma inv_start s : team_start s -> inv 0 s.
Proof.
  intros Hs. pose proof (total_start past 0 Hs eq_refl) as Hp. pose proof (total_start inside 1 Hs eq_refl) as Hin.
  destruct Hs as [Hsh Hlen Hth Hh]. pose proof (size_pos _ _ _ Hstep Hne). pose proof (start_chunk Hstart).
  pose proof (start_T Hstart). split; [lia| |done| | |rewrite Hp; lia|].
  - rewrite Hsh. split; [done| |done|].
    + rewrite (start_current Hstart). unfold val. lia.
    + rewrite (start_threads Hstart). by replace (T =? 0) with false by lia.
  - intros i x Hi. destruct (Hth i x Hi) as [(Ha & Hb & Hc) Hr]. split; try done. by rewrite Hr.
  - rewrite Hsh, Hin, (start_threads Hstart). lia.
  - unfold handed_values, pending_values, first. rewrite Hh, seqZ_nil by lia. simpl.
    clear Hp Hin Hlen Hsh. induction (threads s) as [|x xs IH]; [done|]. simpl.
    destruct (Hth 0%nat x eq_refl) as [_ ->]. apply IH. intros i y Hy. by apply (Hth (S i)).
Qed.

Lemma step_inv K s s' : inv K s -> step p T s s' -> exists K', inv K' s' /\ potential K' s' < potential K s.
Proof.
  intros HI [i t q x Hi Hx]. assert (q <> Left) as Hq by (intros ->; done).
  pose proof (thread_progress K s i t q HI Hi Hq) as Hg. unfold good_step in Hg. by rewrite Hx in Hg.
Qed.

Lemma nsteps_inv k K s s' :
  inv K s -> nsteps (step p T) k s s' -> exists K', inv K' s' /\ potential K' s' + Z.of_nat k <= potential K s.
Proof.
  intros HI Hn. revert K HI. induction Hn as [s|k s s1 s2 H1 _ IH]; intros K HI.
  - exists K. split; [done|lia].
  - destruct (step_inv K s s1 HI H1) as (K1 & HI1 & Hp1). destruct (IH K1 HI1) as (K2 & HI2 & Hp2).
    exists K2. split; [done|lia].
Qed.

Lemma rank_nonneg q : 0 <= rank q.
Proof. destruct q; cbn [rank]; [lia|lia|lia| |lia]. case_match; lia. Qed.

Lemma first_all K : n <= K -> first K = iterations (lower l0) (upper l0) (inc l0).
Proof. intros HK. unfold first, iterations. by rewrite Z.min_r. Qed.

Lemma first_prefix K : 0 <= K -> exists rest, first K ++ rest = iterations (lower l0) (upper l0) (inc l0).
Proof.
  intros HK. exists (v <$> seqZ (Z.min K n) (n - Z.min K n)). pose proof (size_pos _ _ _ Hstep Hne).
  unfold first, iterations. rewrite <- fmap_app. f_equal. rewrite <- (Z.add_0_l (Z.min K n)) at 2.
  rewrite <- seqZ_app by lia. f_equal. lia.
Qed.

Lemma all_left K s :
  inv K s -> (forall i x, threads s !! i = Some x -> snd x = Left) ->
  pending_values s = [] /\ looping_threads (shared s) = 0 /\ n <= K.
Proof.
  intros HI Hall. pose proof (start_T Hstart). split; [|split].
  - unfold pending_values. clear HI. induction (threads s) as [|x xs IH]; [done|]. simpl.
    rewrite (Hall 0%nat x eq_refl). apply IH. intros i y Hy. by apply (Hall (S i)).
  - rewrite (inv_count _ _ HI). rewrite (total_eq _ 0); [lia|]. intros i x Hi. by rewrite (Hall i x Hi).
  - destruct (threads s) as [|x xs] eqn:E; [pose proof (inv_len _ _ HI) as Hl; rewrite E in Hl; simpl in Hl; lia|].
    pose proof (inv_threads _ _ HI 0%nat x) as [_ _ _ Hpc]; [by rewrite E|]. by rewrite (Hall 0%nat x eq_refl) in Hpc.
Qed.
End Team.

(** An executable interleaving: the threads that move, in order. *)
Fixpoint run_trace (p : pmp_param) (T : Z) (trace : list nat) (s : team) : option team :=
  match trace with
  | [] => Some s
  | i :: trace =>
      match threads s !! i with
      | Some (t, q) =>
          match thread_step p T (shared s) t q with
          | Ok x => run_trace p T trace (put s i x)
          | Err _ => None
          end
      | None => None
      end
  end.

Lemma run_trace_steps p T trace s s' : run_trace p T trace s = Some s' -> rtc (step p T) s s'.
Proof.
  revert s. induction trace as [|i trace IH]; intros s; simpl; [by intros [= ->]|].
  destruct (threads s !! i) as [[t q]|] eqn:Ei; [|done].
  destruct (thread_step p T (shared s) t q) as [x|] eqn:Ex; [|done]. intros H.
  eapply rtc_l; [by econstructor|]. by apply IH.
Qed.

(** C4. Dynamic and guided schedules hand out every iteration exactly once: in
    every state that a team can reach, in any interleaving, the values handed
    out are distinct iterations of the loop; as soon as one thread has been
    told that nothing is left, every iteration is handed out or about to be
    returned to the thread that claimed it; and when all threads have left,
    exactly the iterations of the loop have been executed, once each, and the
    loop structure is free.  The loop ends far enough from the limits of [int64_t] for the
    additions of all threads that run past its end ([start_room]). *)
Theorem omp_dynamic_exactly_once p l0 T M s0 s
    (Hstep : inc l0 <> 0) (Hne : loop_le (inc l0) (lower l0) (upper l0) = true)
    (Hstart : loop_start p l0 T M) (Hs0 : team_start l0 T s0) (Hs : rtc (step p T) s0 s) :
  let its := iterations (lower l0) (upper l0) (inc l0) in
  (exists rest, handed_values l0 s ++ rest ≡ₚ its) /\
  (forall i t, threads s !! i = Some (t, Left) -> handed_values l0 s ++ pending_values l0 s ≡ₚ its) /\
  ((forall i x, threads s !! i = Some x -> snd x = Left) ->
     handed_values l0 s ≡ₚ its /\ looping_threads (shared s) = 0 /\ loop_id (shared s) = PMP_LOOP_UNUSED).
Proof.
  intros its. apply rtc_nsteps in Hs as [k Hk].
  destruct (nsteps_inv p l0 T M Hstep Hne Hstart k 0 s0 s (inv_start p l0 T M Hstep Hne Hstart s0 Hs0) Hk) as (K & HI & _).
  pose proof (inv_values _ _ _ _ _ HI) as Hv. split; [|split].
  - destruct (first_prefix l0 Hstep Hne K (inv_pos _ _ _ _ _ HI)) as [rest Hr].
    exists (pending_values l0 s ++ rest). by rewrite (assoc_L (++)), Hv, Hr.
  - intros i t Hi. destruct (inv_threads _ _ _ _ _ HI i _ Hi) as [_ _ _ HK]. by rewrite Hv, first_all.
  - intros Hall. destruct (all_left p l0 T M Hstart K s HI Hall) as (Hp & Hc & HK).
    rewrite Hp, app_nil_r, first_all in Hv by done. split; [done|]. split; [done|].
    by rewrite (ok_id _ _ _ _ (inv_loop _ _ _ _ _ HI)), Hc.
Qed.

(** Two threads interleave a guided loop over 1, 3, 5, 7, 9, 11, 13. *)
Definition demo_param : pmp_param := mkParam false PMP_SCHED_STATIC 1 2 3 true.
Definition demo_loop : pmp_loop := loop_setup 6 2 PMP_SCHED_GUIDED 1 13 2 3 1.
Definition demo_team : team :=
  mkTeam demo_loop [(mkThread 0 0 0 7 true, Ready); (mkThread 1 0 0 7 true, Ready)] [].
Definition demo_trace : list nat := [0; 1; 0; 1; 1; 0; 1; 0; 0; 1; 0; 1; 1; 0; 1; 0; 1; 1; 1; 1]%nat.
Definition demo_end : team :=
  match run_trace demo_param 2 demo_trace demo_team with Some s => s | None => demo_team end.

Lemma demo_run : rtc (step demo_param 2) demo_team demo_end.
Proof. apply (run_trace_steps _ _ demo_trace). by vm_compute. Qed.

Lemma demo_start : loop_start demo_param demo_loop 2 3 /\ team_start demo_loop 2 demo_team.
Proof.
  assert (size 1 13 2 = 7) as Hsize by done. split.
  - split; unfold demo_loop, loop_setup; simpl; rewrite ?Hsize; unfold in_s, val; try lia; try done. by right.
  - split; [done|done| |done]. intros i x Hi.
    destruct i as [|[|i]]; simplify_eq/=; (split; [|done]); (split; [done|]); (split; [simpl; lia|done]).
Qed.


Lemma omp_dynamic_exactly_once_witness :
  handed demo_end = [(1%nat, (1, 5)); (0%nat, (7, 11)); (1%nat, (13, 13))] /\
  handed_values demo_loop demo_end ≡ₚ iterations 1 13 2 /\ loop_id (shared demo_end) = PMP_LOOP_UNUSED.
Proof.
  split; [by vm_compute|]. destruct demo_start as [Hl Ht].
  destruct (omp_dynamic_exactly_once demo_param demo_loop 2 3 demo_team demo_end) as (_ & _ & H);
    [done|done|exact Hl|exact Ht|exact demo_run|].
  destruct H as (H1 & _ & H2); [|by split].
  intros i x Hi. destruct i as [|[|i]]; vm_compute in Hi; [by injection Hi as <-|by injection Hi as <-|done].
Defined.

(** Dynamic and guided schedules terminate: in every reachable state, every
    thread that has not left can take its next step (no assertion fails and
    nothing blocks), and no execution has more than eight steps per iteration
    and four per thread. *)
Theorem omp_dynamic_terminates p l0 T M s0
    (Hstep : inc l0 <> 0) (Hne : loop_le (inc l0) (lower l0) (upper l0) = true)
    (Hstart : loop_start p l0 T M) (Hs0 : team_start l0 T s0) :
  (forall s i t q, rtc (step p T) s0 s -> threads s !! i = Some (t, q) -> q <> Left ->
     exists x, thread_step p T (shared s) t q = Ok x) /\
  (forall s k, nsteps (step p T) k s0 s -> Z.of_nat k <= 8 * size (lower l0) (upper l0) (inc l0) + 4 * T).
Proof.
  pose proof (inv_start p l0 T M Hstep Hne Hstart s0 Hs0) as H0. split.
  - intros s i t q [k Hk]%rtc_nsteps Hi Hq.
    destruct (nsteps_inv p l0 T M Hstep Hne Hstart k 0 s0 s H0 Hk) as (K & HI & _).
    pose proof (thread_progress p l0 T M Hstep Hne Hstart K s i t q HI Hi Hq) as Hg. unfold good_step in Hg.
    apply yields_exists in Hg as (x & Hx & _). eauto.
  - intros s k Hk. destruct (nsteps_inv p l0 T M Hstep Hne Hstart k 0 s0 s H0 Hk) as (K & _ & Hp).
    unfold potential in Hp. rewrite (total_start l0 T (rank l0) 4 Hs0 eq_refl) in Hp.
    pose proof (size_pos _ _ _ Hstep Hne).
    assert (0 <= total (fun x => rank l0 (snd x)) (threads s)) by (apply total_nonneg; intros x; apply rank_nonneg). lia.
Qed.

Lemma omp_dynamic_terminates_witness :
  exists k, nsteps (step demo_param 2) k demo_team demo_end /\ Z.of_nat k <= 8 * size 1 13 2 + 4 * 2.
Proof.
  destruct demo_start as [Hl Ht]. destruct (proj1 (rtc_nsteps _ _) demo_run) as [k Hk]. exists k. split; [exact Hk|].
  apply (proj2 (omp_dynamic_terminates demo_param demo_loop 2 3 demo_team ltac:(done) ltac:(done) Hl Ht) demo_end k Hk).
Defined.

Lemma sched_cases s :
  is_dynamic s = true \/ is_guided s = true ->
  is_static s = false /\ is_even s = false /\ is_guided s = negb (is_dynamic s).
Proof.
  unfold is_static, is_even, is_dynamic, is_guided, PMP_SCHED_STATIC, PMP_SCHED_STATIC_EVEN, PMP_SCHED_DYNAMIC,
    PMP_SCHED_GUIDED, PMP_SCHED_ORDERED_STATIC, PMP_SCHED_ORDERED_STATIC_EVEN, PMP_SCHED_ORDERED_DYNAMIC,
    PMP_SCHED_ORDERED_GUIDED. lia.
Qed.

Lemma run_next f p T l t q :
  run_steps (S f) p T l t q =
  let* ' (l, t, q, r) := thread_step p T l t q in
  match q with Ready | Left => Ok (l, t, r) | _ => run_steps f p T l t q end.
Proof. done. Qed.

(** The last step of a call. *)
Lemma run_claimed f p T l t c cur stride :
  run_steps (S f) p T l t (Claimed c cur stride) =
  let r := claimed_range l cur stride in
  finish_next p (match r with
                 | Some (_, u) => if is_guided (sched l) then cmpxchg_chunk l c (guided_new_chunk p l T u) else l
                 | None => l
                 end) t r.
Proof.
  cbn [run_steps thread_step]. cbv zeta. destruct (finish_next _ _ _ _) as [[[l' t'] [r|]]|]; done.
Qed.

(** The steps compose to the function of the sources: a call whose steps are
    not interrupted is [__pmp_schedule_next], for every state of the loop and
    of the thread, failures included. *)
Theorem omp_steps_compose p T l t
    (HT : T <> 1) (Hsched : is_dynamic (sched l) = true \/ is_guided (sched l) = true) :
  run_steps 4 p T l t Ready = __pmp_schedule_next p T l t.
Proof.
  unfold __pmp_schedule_next. destruct (sched_cases _ Hsched) as (-> & -> & Hg).
  rewrite run_next. cbn [thread_step].
  destruct (assert_ (attached t)); [|done]. rewrite !obind_ok. destruct (assert_ (local_id t <? T)); [|done]. rewrite !obind_ok.
  destruct (Z.eqb_spec T 1); [done|]. rewrite run_next. cbn [thread_step]. rewrite Hg.
  destruct (is_dynamic (sched l)); cbn [negb]; unfold xadd_current; rewrite obind_ok.
  - rewrite run_claimed. cbn [sched with_current]. rewrite Hg. cbn [negb]. cbv zeta.
    by destruct (claimed_range _ _ _) as [[]|].
  - rewrite run_next. cbn [thread_step]. unfold xadd_current. destruct (assert_ _); [|done]. rewrite !obind_ok.
    rewrite run_claimed. cbn [sched with_current]. rewrite Hg. done.
Qed.

Lemma omp_steps_compose_witness :
  run_steps 4 demo_param 2 demo_loop (mkThread 0 0 0 7 true) Ready =
    __pmp_schedule_next demo_param 2 demo_loop (mkThread 0 0 0 7 true).
Proof. apply omp_steps_compose; [lia|by right]. Defined.

(** [__pmp_scheduler_init] sets up what the dynamic schedules rely on: a
    runtime schedule is replaced by the one of the environment (the ordered
    variant for an ordered loop), the least chunk is at least 1, the first
    guided chunk lies between the least chunk and the configured maximum, and
    a loop whose end keeps its distance from the limits of [int64_t] starts in
    the state that the schedules need. *)
Theorem omp_scheduler_init_starts p T sched lo up i chunk s c m id
    (Hchoice : scheduler_choice p T sched lo up i chunk = Ok (s, c, m))
    (Hs : is_dynamic s = true /\ 1 <= c \/ is_guided s = true)
    (HT : 1 <= T < 2 ^ 31) (Hid : 0 <= id) (Hlo : in_s 64 lo)
    (Hroom : in_s 64 (val lo i (size lo up i + Z.max c (Z.max m (guided_chunk_max p)) * (T + 1)))) :
  s = (if sched =? PMP_SCHED_RUNTIME then runtime_schedule p
       else if sched =? PMP_SCHED_ORDERED_RUNTIME then runtime_schedule p + PMP_SCHED_ORDERED_OFFSET else sched) /\
  i <> 0 /\ m = Z.max 1 chunk /\ (is_guided s = true -> m <= c <= Z.max m (guided_chunk_max p)) /\
  loop_start p (loop_setup id T s lo up i c m) T (Z.max c (Z.max m (guided_chunk_max p))).
Proof.
  unfold scheduler_choice in Hchoice.
  set (sc := if _ || _ then _ else _) in Hchoice.
  assert (fst sc = if sched =? PMP_SCHED_RUNTIME then runtime_schedule p
       else if sched =? PMP_SCHED_ORDERED_RUNTIME then runtime_schedule p + PMP_SCHED_ORDERED_OFFSET else sched) as Hsc.
  { unfold sc. destruct (Z.eqb_spec sched PMP_SCHED_RUNTIME) as [->|]; [done|]. cbn [orb].
    by destruct (sched =? PMP_SCHED_ORDERED_RUNTIME). }
  destruct sc as [s0 c0]. cbn [fst] in Hsc. rewrite <- Hsc. clear Hsc.
  destruct (assert_ _) as [[]|] eqn:Ea; [|done]. rewrite obind_ok in Hchoice. injection Hchoice as -> <- <-.
  unfold assert_ in Ea. destruct (negb (i =? 0) && _ && _) eqn:Eb; [|done]. clear Ea.
  fold (is_guided s) in *. set (c := if is_guided s then _ else c0) in *.
  assert (is_guided s = true -> Z.max 1 chunk <= c <= Z.max (Z.max 1 chunk) (guided_chunk_max p)) as Hg.
  { intros Hg. unfold c. rewrite Hg. lia. }
  assert (1 <= c) as Hc by (destruct Hs as [[_ H]|H]; [done|specialize (Hg H); lia]).
  split; [done|]. split; [lia|]. split; [done|]. split; [done|].
  split; cbn; try done; try lia. by destruct Hs as [[H _]|H]; [left|right].
Qed.

Lemma omp_scheduler_init_starts_witness :
  scheduler_choice demo_param 2 PMP_SCHED_GUIDED 1 13 2 1 = Ok (PMP_SCHED_GUIDED, 3, 1) /\
  loop_start demo_param (loop_setup 6 2 PMP_SCHED_GUIDED 1 13 2 3 1) 2 3.
Proof.
  split; [by vm_compute|].
  refine (proj2 (proj2 (proj2 (proj2 (omp_scheduler_init_starts demo_param 2 PMP_SCHED_GUIDED 1 13 2 1
    PMP_SCHED_GUIDED 3 1 6 _ _ _ _ _ _))))); [by vm_compute|by right|lia|lia|unfold in_s; lia|].
  unfold in_s. by vm_compute.
Defined.
