(* ===== verification/OmpLoop.v ===== *)
(** The loop structures of a team: the model of [libopenmp/loop.c].

    A team has [PMP_MAX_LOOPS] loop structures.  The threads run through the
    same sequence of work-sharing loops, each at its own pace (a loop need not
    end with a barrier); loop number [k] uses structure [k mod PMP_MAX_LOOPS].
    The thread that raises the team's loop count waits until the structure is
    unused and fills it in, the others wait until it has the number of their
    loop, and the last thread to leave marks it unused.  A call of
    [__pmp_loop_alloc] or [__pmp_loop_free] is a sequence of steps, one for each
    access to shared data, and the steps of the threads interleave. *)
From Stdlib Require Import ZArith Lia Bool.
From stdpp Require Import prelude list relations.
From S2P Require Import Prelude OmpSchedule.

Definition PMP_LOG2_LOOPS : Z := 4.
Definition PMP_MAX_LOOPS : Z := Z.shiftl 1 PMP_LOG2_LOOPS.
Definition PMP_MASK_LOOP_INDEX : Z := PMP_MAX_LOOPS - 1.

(** The arguments of [__pmp_loop_alloc]. *)
Record loop_args : Type := mkArgs {
  a_sched : Z; a_lower : Z; a_upper : Z; a_inc : Z; a_chunk : Z; a_min_chunk : Z
}.

(** The team's [loop_count] and [loops]. *)
Record pmp_team : Type := mkTeamLoops {
  team_loop_count : Z;
  loops : list pmp_loop
}.

(** Where a thread is in [__pmp_loop_alloc] ([First] to [Acquire]), in the loop, or
    in [__pmp_loop_free] ([Releasing], [Last]). *)
Inductive phase : Type :=
| Outside | First | FirstWait | Assign | Filled | Acquire | Looping | Releasing | Last.

#[export] Instance phase_eq_dec : EqDecision phase.
Proof. solve_decision. Defined.

Definition set_count (t : pmp_thread) (n : Z) : pmp_thread :=
  mkThread (local_id t) (iteration t) (ticket_number t) n (attached t).
Definition set_attached (t : pmp_thread) : pmp_thread :=
  mkThread (local_id t) (iteration t) (ticket_number t) (loop_count t) true.
Definition my_index (t : pmp_thread) : Z := Z.land (loop_count t - 1) PMP_MASK_LOOP_INDEX.

Definition with_id (l : pmp_loop) (id : Z) : pmp_loop := with_threads l (looping_threads l) id.

Definition __pmp_loop_init (l : pmp_loop) : pmp_loop := with_id l PMP_LOOP_UNUSED.

(** The assignments of the first thread to the fields other than [loop_id]. *)
Definition assign_fields (l : pmp_loop) (team_size : Z) (a : loop_args) : pmp_loop :=
  loop_setup (loop_id l) team_size (a_sched a) (a_lower a) (a_upper a) (a_inc a) (a_chunk a) (a_min_chunk a).

(** A step of a thread; [None] is another turn of a spin loop. *)
Definition alloc_step (T : Z) (a : loop_args) (m : pmp_team) (t : pmp_thread) (q : phase)
    : outcome (option (pmp_team * pmp_thread * phase)) :=
  match q with
  | Outside =>
      let thread_count := loop_count t in
      assert* negb (attached t) in
      let team_count := team_loop_count m in
      let m := if team_count =? thread_count
               then mkTeamLoops (swrap 32 (thread_count + 1)) (loops m) else m in
      Ok (Some (m, set_count t (swrap 32 (thread_count + 1)),
                if thread_count =? team_count then First else Acquire))
  | First =>
      let* l := rd (loops m) (my_index t) in
      assert* negb (loop_id l =? my_loop_id t) in
      Ok (Some (m, t, FirstWait))
  | FirstWait =>
      let* l := rd (loops m) (my_index t) in
      if negb (loop_id l =? PMP_LOOP_UNUSED) then Ok None else Ok (Some (m, t, Assign))
  | Assign =>
      let* l := rd (loops m) (my_index t) in
      let* ls := wr (loops m) (my_index t) (assign_fields l T a) in
      Ok (Some (mkTeamLoops (team_loop_count m) ls, t, Filled))
  | Filled =>
      let* l := rd (loops m) (my_index t) in
      let old_loop_id := loop_id l in
      let* ls := wr (loops m) (my_index t)
                   (if old_loop_id =? PMP_LOOP_UNUSED then with_id l (my_loop_id t) else l) in
      assert* (old_loop_id =? PMP_LOOP_UNUSED) in
      Ok (Some (mkTeamLoops (team_loop_count m) ls, set_attached t, Looping))
  | Acquire =>
      let* l := rd (loops m) (my_index t) in
      if negb (loop_id l =? my_loop_id t) then Ok None else Ok (Some (m, set_attached t, Looping))
  | Looping =>
      let* l := rd (loops m) (my_index t) in
      assert* (loop_id l =? my_loop_id t) in
      Ok (Some (m, t, Releasing))
  | Releasing =>
      let* l := rd (loops m) (my_index t) in
      let count := looping_threads l in
      let* ls := wr (loops m) (my_index t) (with_threads l (swrap 32 (count - 1)) (loop_id l)) in
      assert* (1 <=? count) in
      let m := mkTeamLoops (team_loop_count m) ls in
      if count =? 1 then Ok (Some (m, t, Last)) else Ok (Some (m, detach t, Outside))
  | Last =>
      let* l := rd (loops m) (my_index t) in
      let* ls := wr (loops m) (my_index t) (with_id l PMP_LOOP_UNUSED) in
      Ok (Some (mkTeamLoops (team_loop_count m) ls, detach t, Outside))
  end.

(** What [__pmp_schedule_next] and [__ompc_end_ordered] can do to the structure
    while a thread is in the loop. *)
Definition worked (l : pmp_loop) (current chunk serving : Z) : pmp_loop :=
  with_serving (with_chunk (with_current l current) chunk) serving.

Record crew_state : Type := mkCrew {
  mem : pmp_team;
  crew : list (pmp_thread * phase)
}.

(** The threads run through the loops [0 .. N - 1], loop [k] with the arguments
    [args k]. *)
Inductive loop_step (T N : Z) (args : Z -> loop_args) (s : crew_state) : crew_state -> Prop :=
| step_alloc i t q m' t' q' :
    crew s !! i = Some (t, q) -> (q = Outside -> loop_count t < N) ->
    alloc_step T (args (loop_count t - 1)) (mem s) t q = Ok (Some (m', t', q')) ->
    loop_step T N args s (mkCrew m' (<[i := (t', q')]> (crew s)))
| step_work i t l current chunk serving :
    crew s !! i = Some (t, Looping) -> zlookup (loops (mem s)) (my_index t) = Some l ->
    loop_step T N args s
      (mkCrew (mkTeamLoops (team_loop_count (mem s))
                 (zinsert (loops (mem s)) (my_index t) (worked l current chunk serving))) (crew s)).

(** Uninterrupted, the last steps are [__pmp_loop_free]. *)
Lemma release_steps T a m t l :
  zlookup (loops m) (my_index t) = Some l ->
  yields (__pmp_loop_free l t) (fun '(l', t') =>
    let m1 := mkTeamLoops (team_loop_count m) (zinsert (loops m) (my_index t)
                (with_threads l (looping_threads l') (loop_id l))) in
    let m' := mkTeamLoops (team_loop_count m) (zinsert (loops m) (my_index t) l') in
    alloc_step T a m t Looping = Ok (Some (m, t, Releasing)) /\
    if looping_threads l =? 1
    then alloc_step T a m t Releasing = Ok (Some (m1, t, Last)) /\
         alloc_step T a m1 t Last = Ok (Some (m', t', Outside))
    else alloc_step T a m t Releasing = Ok (Some (m', t', Outside))) \/
  exists f, __pmp_loop_free l t = Err f.
Proof.
  intros Hl. pose proof (zlookup_lt _ _ _ Hl). unfold __pmp_loop_free.
  destruct (loop_id l =? my_loop_id t) eqn:Eid; [|by right; eexists]. rewrite assert_true, obind_ok by done.
  destruct (1 <=? looping_threads l) eqn:Ec; [|by right; eexists]. rewrite assert_true, obind_ok by done.
  left. apply yields_ok. cbn [alloc_step]. rewrite (rd_ok _ _ _ Hl), !obind_ok, Eid, Ec, wr_ok by done.
  rewrite !obind_ok, !assert_true, !obind_ok by done. split; [done|]. cbn [looping_threads with_threads].
  destruct (looping_threads l =? 1); [|done]. split; [done|]. cbn [alloc_step loops].
  rewrite (rd_ok _ _ (with_threads l (swrap 32 (looping_threads l - 1)) (loop_id l))) by (by rewrite zlookup_zinsert_eq).
  rewrite obind_ok, wr_ok by (by rewrite zlen_zinsert). rewrite obind_ok. do 4 f_equal.
  by rewrite zinsert_zinsert.
Qed.

(** The structure of loop [k]. *)
Definition slot (k : Z) : Z := k mod PMP_MAX_LOOPS.

Lemma slot_range k : 0 <= slot k < PMP_MAX_LOOPS.
Proof. by apply Z.mod_pos_bound. Qed.

Lemma index_slot t : my_index t = slot (loop_count t - 1).
Proof. unfold my_index, slot. apply (Z.land_ones _ 4). lia. Qed.

Lemma loop_id_small t : 1 <= loop_count t <= 2 ^ 31 -> my_loop_id t = loop_count t - 1.
Proof.
  intros H. unfold my_loop_id. change PMP_MASK_LOOP_ID with (Z.ones 31).
  rewrite Z.land_ones by lia. apply Z.mod_small. lia.
Qed.

(** Which thread is [__pmp_loop_alloc]'s first; which threads are not through with
    loop [k]; which thread is about to mark its structure unused. *)
Definition count (x : pmp_thread * phase) : Z := loop_count (fst x).
Definition is_first (x : pmp_thread * phase) : Z :=
  match snd x with First | FirstWait | Assign | Filled => 1 | _ => 0 end.
Definition remaining (k : Z) (x : pmp_thread * phase) : Z :=
  if count x <=? k then 1
  else if count x =? k + 1 then match snd x with Outside | Last => 0 | _ => 1 end else 0.
Definition leaving (k : Z) (x : pmp_thread * phase) : Z :=
  if count x =? k + 1 then match snd x with Last => 1 | _ => 0 end else 0.

Section Crew.
Context (T N : Z) (args : Z -> loop_args).
Context (HT : 1 <= T < 2 ^ 31) (HN : 0 <= N < 2 ^ 31).

(** [l] is set up for loop [k], with [R] threads to come or in the loop. *)
Record published (k R : Z) (l : pmp_loop) : Prop := {
  pub_id : loop_id l = k;
  pub_threads : looping_threads l = R;
  pub_args : sched l = a_sched (args k) /\ lower l = a_lower (args k) /\ upper l = a_upper (args k) /\
             inc l = a_inc (args k) /\ min_chunk l = a_min_chunk (args k)
}.

(** The structures when the loops below [D] are published; [R k] threads are not
    through with loop [k] and [L k] threads are about to mark it unused. *)
Record loops_inv (D : Z) (R L : Z -> Z) (ls : list pmp_loop) : Prop := {
  li_len : zlen ls = PMP_MAX_LOOPS;
  li_pub : forall k, 0 <= k < D -> 0 < R k + L k ->
           exists l, zlookup ls (slot k) = Some l /\ published k (R k) l;
  li_id : forall j l, zlookup ls j = Some l ->
          loop_id l = PMP_LOOP_UNUSED \/
          exists k, 0 <= k < D /\ slot k = j /\ loop_id l = k /\ 0 < R k + L k;
  li_last : forall k, L k = 0 \/ L k = 1 /\ R k = 0
}.

Definition filled (k : Z) : pmp_loop :=
  assign_fields (mkLoop PMP_LOOP_UNUSED 0 0 0 0 0 0 0 0 0) T (args k).

Record thread_inv (D C : Z) (ls : list pmp_loop) (x : pmp_thread * phase) : Prop := {
  ti_count : 0 <= count x <= C;
  ti_attached : attached (fst x) = match snd x with Looping | Releasing | Last => true | _ => false end;
  ti_phase : match snd x with
             | Outside => count x <= D
             | First | FirstWait => count x = D + 1
             | Assign => count x = D + 1 /\ exists l, zlookup ls (slot D) = Some l /\ loop_id l = PMP_LOOP_UNUSED
             | Filled => count x = D + 1 /\ zlookup ls (slot D) = Some (filled D)
             | Acquire => 1 <= count x
             | Looping | Releasing | Last => 1 <= count x <= D
             end
}.

Record crew_inv (D : Z) (s : crew_state) : Prop := {
  ci_len : Z.of_nat (length (crew s)) = T;
  ci_count : 0 <= D <= team_loop_count (mem s) /\ team_loop_count (mem s) <= D + 1 /\ team_loop_count (mem s) <= N;
  ci_first : total is_first (crew s) = team_loop_count (mem s) - D;
  ci_threads : forall i x, crew s !! i = Some x -> thread_inv D (team_loop_count (mem s)) (loops (mem s)) x;
  ci_loops : loops_inv D (fun k => total (remaining k) (crew s)) (fun k => total (leaving k) (crew s)) (loops (mem s))
}.

(** ** The structures *)
Lemma loops_ext D R L R' L' ls :
  (forall k, R' k = R k) -> (forall k, L' k = L k) -> loops_inv D R L ls -> loops_inv D R' L' ls.
Proof.
  intros HR HL [H1 H2 H3 H4]. split; [done| | |].
  - intros k Hk Hu. rewrite HR in *. rewrite HL in *. by apply H2.
  - intros j l Hl. destruct (H3 j l Hl) as [|(k & Hk & Hj & Hi & Hu)]; [by left|right]. exists k. by rewrite HR, HL.
  - intros k. rewrite HR, HL. apply H4.
Qed.

(** Another loop that is in use has another structure. *)
Lemma other_slot D R L ls k k' l :
  loops_inv D R L ls -> zlookup ls (slot k) = Some l -> loop_id l <> k' -> 0 <= k' < D -> 0 < R k' + L k' ->
  slot k <> slot k'.
Proof. intros HI Hl Hid Hk' Hu E. destruct (li_pub _ _ _ _ HI k' Hk' Hu) as (l' & Hl' & [? _ _]). rewrite E in Hl. congruence. Qed.

(** Writing structure [slot k] while [loop_id] stays the same. *)
Lemma loops_write D R L ls k l l' :
  loops_inv D R L ls -> zlookup ls (slot k) = Some l -> loop_id l' = loop_id l ->
  (forall j, 0 <= j < D -> 0 < R j + L j -> loop_id l = j -> published j (R j) l -> published j (R j) l') ->
  loops_inv D R L (zinsert ls (slot k) l').
Proof.
  intros HI Hl Hid Hp. pose proof (zlookup_lt _ _ _ Hl). split; [by rewrite zlen_zinsert; apply HI| | |apply HI].
  - intros j Hj Hu. destruct (li_pub _ _ _ _ HI j Hj Hu) as (lj & Hlj & Hpub).
    destruct (decide (slot k = slot j)) as [E|E].
    + exists l'. rewrite <- E in *. rewrite zlookup_zinsert_eq by done. split; [done|].
      assert (lj = l) as -> by congruence. apply Hp; try done. apply Hpub.
    + exists lj. by rewrite zlookup_zinsert_ne.
  - intros j lj Hlj. apply zlookup_zinsert_inv in Hlj as [[-> ->]|[_ Hlj]]; [|by apply HI|done].
    rewrite Hid. by apply HI.
Qed.

(** [R'] and [L'] differ from [R] and [L] for loop [k] only. *)
Definition changes (k : Z) (R R' L L' : Z -> Z) : Prop := forall j, j <> k -> R' j = R j /\ L' j = L j.

(** The first thread publishes loop [D]. *)
Lemma loops_publish D R L ls l :
  loops_inv D R L ls -> 0 <= D -> zlookup ls (slot D) = Some l -> loop_id l = PMP_LOOP_UNUSED ->
  published D (R D) (with_id l D) -> 0 < R D + L D ->
  loops_inv (D + 1) R L (zinsert ls (slot D) (with_id l D)).
Proof.
  intros HI HD Hl Hid Hp Hu. pose proof (zlookup_lt _ _ _ Hl). split; [by rewrite zlen_zinsert; apply HI| | |apply HI].
  - intros j Hj Hj'. destruct (decide (j = D)) as [->|Hne]; [exists (with_id l D); by rewrite zlookup_zinsert_eq|].
    rewrite zlookup_zinsert_ne; [apply HI; [lia|done]|].
    apply (other_slot D R L ls D j l); [done|done|rewrite Hid; unfold PMP_LOOP_UNUSED; lia|lia|done].
  - intros j lj Hlj. apply zlookup_zinsert_inv in Hlj as [[-> ->]|[_ Hlj]]; [| |done].
    + right. exists D. repeat split; try done; lia.
    + destruct (li_id _ _ _ _ HI j lj Hlj) as [|(k & ? & ? & ? & ?)]; [by left|right]. exists k. repeat split; try done; lia.
Qed.

(** A thread leaves loop [k]; or the last one marks the structure unused. *)
Lemma loops_leave D R L R' L' ls k l l' :
  loops_inv D R L ls -> 0 <= k < D -> zlookup ls (slot k) = Some l -> published k (R k) l -> 0 < R k + L k ->
  changes k R R' L L' -> L' k = 0 \/ L' k = 1 /\ R' k = 0 ->
  (if 0 <? R' k + L' k then published k (R' k) l' else R' k + L' k = 0 /\ loop_id l' = PMP_LOOP_UNUSED) ->
  loops_inv D R' L' (zinsert ls (slot k) l').
Proof.
  intros HI HD Hl Hp Hu Hch HL Hl'. pose proof (zlookup_lt _ _ _ Hl). split; [by rewrite zlen_zinsert; apply HI| | |].
  - intros j Hj Hj'. destruct (decide (j = k)) as [->|Hne].
    + rewrite zlookup_zinsert_eq by done. exists l'. split; [done|]. by rewrite (proj2 (Z.ltb_lt _ _) Hj') in Hl'.
    + destruct (Hch j Hne) as [ER EL]. rewrite ER, EL in *. rewrite zlookup_zinsert_ne; [by apply HI|].
      apply (other_slot D R L ls k j l); try done. rewrite (pub_id _ _ _ Hp). done.
  - intros j lj Hlj. apply zlookup_zinsert_inv in Hlj as [[-> ->]|[Hne Hlj]]; [| |done].
    + revert Hl'. destruct (Z.ltb_spec 0 (R' k + L' k)); intros Hl'; [right; exists k|by left; apply Hl'].
      by repeat split; try lia; apply Hl'.
    + destruct (li_id _ _ _ _ HI j lj Hlj) as [|(k' & ? & Hj & ? & ?)]; [by left|right]. exists k'.
      destruct (Hch k') as [-> ->]; [intros ->; by apply Hne|]. done.
  - intros j. destruct (decide (j = k)) as [->|Hne]; [done|]. destruct (Hch j Hne) as [-> ->]. apply HI.
Qed.

(** ** The threads *)
Lemma first_range x : 0 <= is_first x <= 1.
Proof. unfold is_first. case_match; lia. Qed.
Lemma remaining_range k x : 0 <= remaining k x <= 1.
Proof. unfold remaining. repeat case_match; lia. Qed.
Lemma leaving_range k x : 0 <= leaving k x <= 1.
Proof. unfold leaving. repeat case_match; lia. Qed.

Lemma crew_put D D' s i x x' C' ls' :
  crew_inv D s -> crew s !! i = Some x -> 0 <= D' <= C' -> C' <= D' + 1 -> C' <= N ->
  is_first x' - is_first x = (C' - D') - (team_loop_count (mem s) - D) ->
  thread_inv D' C' ls' x' ->
  (forall j y, j <> i -> crew s !! j = Some y ->
     thread_inv D (team_loop_count (mem s)) (loops (mem s)) y -> thread_inv D' C' ls' y) ->
  loops_inv D' (fun k => total (remaining k) (crew s) - remaining k x + remaining k x')
               (fun k => total (leaving k) (crew s) - leaving k x + leaving k x') ls' ->
  crew_inv D' (mkCrew (mkTeamLoops C' ls') (<[i := x']> (crew s))).
Proof.
  intros [H1 H2 H3 H4 H5] Hi HD HC HCN Hf Hx Hy Hl. split; cbn [mem crew team_loop_count loops].
  - by rewrite length_insert.
  - lia.
  - rewrite (total_insert _ _ _ _ _ Hi). lia.
  - intros j y Hj. destruct (decide (j = i)) as [->|Hne].
    + rewrite list_lookup_insert_eq in Hj by (by eapply lookup_lt_Some). by injection Hj as <-.
    + rewrite list_lookup_insert_ne in Hj by done. by eapply Hy, H4.
  - eapply loops_ext; [| |exact Hl]; intros k; by rewrite (total_insert _ _ _ _ _ Hi).
Qed.

(** A move that concerns neither the structures nor the other threads. *)
Lemma crew_quiet D s i x x' C' :
  crew_inv D s -> crew s !! i = Some x -> team_loop_count (mem s) <= C' -> C' <= D + 1 -> C' <= N ->
  is_first x' - is_first x = C' - team_loop_count (mem s) ->
  thread_inv D C' (loops (mem s)) x' ->
  (forall k, remaining k x' = remaining k x) -> (forall k, leaving k x' = leaving k x) ->
  crew_inv D (mkCrew (mkTeamLoops C' (loops (mem s))) (<[i := x']> (crew s))).
Proof.
  intros HI Hi HC HD HCN Hf Hx HR HL. pose proof (ci_count _ _ HI).
  apply (crew_put D D s i x); [done|done|lia|lia|done|lia|done| |].
  - intros j y _ _ [Hc Ha Hp]. split; [lia|done|done].
  - eapply loops_ext; [| |apply HI]; intros k; cbv beta; rewrite ?HR, ?HL; lia.
Qed.

Lemma crew_stay D s i x x' :
  crew_inv D s -> crew s !! i = Some x -> is_first x' = is_first x ->
  thread_inv D (team_loop_count (mem s)) (loops (mem s)) x' ->
  (forall k, remaining k x' = remaining k x) -> (forall k, leaving k x' = leaving k x) ->
  crew_inv D (mkCrew (mem s) (<[i := x']> (crew s))).
Proof.
  intros HI Hi Hf Hx HR HL. pose proof (ci_count _ _ HI).
  assert (mem s = mkTeamLoops (team_loop_count (mem s)) (loops (mem s))) as -> by (by destruct (mem s)).
  by apply (crew_quiet D s i x); try done; lia.
Qed.

(** Another thread does not see a write to [slot k]. *)
Lemma thread_frame D C ls k l' y :
  thread_inv D C ls y -> (is_first y = 1 -> slot k <> slot D) -> thread_inv D C (zinsert ls (slot k) l') y.
Proof.
  intros [Hc Ha Hp] Hne. split; [done|done|]. unfold is_first in Hne.
  destruct (snd y); try done; by rewrite zlookup_zinsert_ne by (by apply Hne).
Qed.

(** There is one first thread. *)
Lemma first_unique D s i j x y :
  crew_inv D s -> i <> j -> crew s !! i = Some x -> crew s !! j = Some y -> is_first x = 1 -> is_first y = 0.
Proof.
  intros HI Hne Hi Hj Hx. pose proof (total_two is_first (crew s) i j x y (fun x => proj1 (first_range x)) Hne Hi Hj).
  rewrite (ci_first _ _ HI) in *. pose proof (ci_count _ _ HI). pose proof (first_range y). lia.
Qed.

(** ** The steps *)
Definition waits (m : pmp_team) (t : pmp_thread) (q : phase) : Prop :=
  exists l, zlookup (loops m) (slot (loop_count t - 1)) = Some l /\
    (q = FirstWait /\ loop_id l <> PMP_LOOP_UNUSED \/ q = Acquire /\ loop_id l <> loop_count t - 1).

Definition good_move (s : crew_state) (i : nat) (t : pmp_thread) (q : phase) : Prop :=
  yields (alloc_step T (args (loop_count t - 1)) (mem s) t q) (fun o =>
    match o with
    | Some (m', t', q') => exists D', crew_inv D' (mkCrew m' (<[i := (t', q')]> (crew s)))
    | None => waits (mem s) t q
    end).

Ltac counts :=
  intros; unfold remaining, leaving, is_first, count;
  cbn [fst snd loop_count attached set_count set_attached detach]; repeat case_match; lia.

Lemma crew_slot D s k : crew_inv D s -> exists l, zlookup (loops (mem s)) (slot k) = Some l.
Proof. intros HI. apply zlookup_is_Some. rewrite (li_len _ _ _ _ (ci_loops _ _ HI)). apply slot_range. Qed.

Lemma thread_at D s i t q :
  crew_inv D s -> crew s !! i = Some (t, q) -> q <> Outside ->
  1 <= loop_count t <= N /\ my_index t = slot (loop_count t - 1) /\ my_loop_id t = loop_count t - 1.
Proof.
  intros HI Hi Hq. destruct (ci_threads _ _ HI i _ Hi) as [Hc _ Hp]. pose proof (ci_count _ _ HI).
  unfold count in *. cbn [fst snd] in *. assert (1 <= loop_count t <= N) as Hr by (destruct q; try done; lia).
  split; [done|]. split; [apply index_slot|apply loop_id_small; lia].
Qed.

(** A thread that is not through with a published loop finds its structure. *)
Lemma find_loop D s i x k :
  crew_inv D s -> crew s !! i = Some x -> 0 <= k < D -> remaining k x + leaving k x = 1 ->
  exists l, zlookup (loops (mem s)) (slot k) = Some l /\ published k (total (remaining k) (crew s)) l /\
    remaining k x <= total (remaining k) (crew s) <= T /\ leaving k x <= total (leaving k) (crew s).
Proof.
  intros HI Hi Hk Hx.
  pose proof (total_member (remaining k) _ _ _ (fun x => proj1 (remaining_range k x)) Hi) as Hr.
  pose proof (total_member (leaving k) _ _ _ (fun x => proj1 (leaving_range k x)) Hi) as Hl.
  pose proof (total_bound (remaining k) (crew s) 1 (fun x _ => proj2 (remaining_range k x))) as Hb.
  pose proof (remaining_range k x). pose proof (leaving_range k x). rewrite (ci_len _ _ HI) in Hb.
  destruct (li_pub _ _ _ _ (ci_loops _ _ HI) k Hk) as (l & Hll & Hp); [lia|]. exists l.
  split; [done|]. split; [done|]. lia.
Qed.

Lemma move_outside D s i t :
  crew_inv D s -> crew s !! i = Some (t, Outside) -> loop_count t < N -> good_move s i t Outside.
Proof.
  intros HI Hi HcN. destruct (ci_threads _ _ HI i _ Hi) as [Hc Ha Hp]. pose proof (ci_count _ _ HI) as HC.
  unfold count in *. cbn [fst snd] in *. unfold good_move. cbn [alloc_step]. rewrite Ha. cbn [negb].
  rewrite assert_true, obind_ok by done. rewrite swrap_id by (unfold in_s; lia). apply yields_ok. exists D.
  rewrite (Z.eqb_sym (loop_count t)). destruct (Z.eqb_spec (team_loop_count (mem s)) (loop_count t)) as [E|E].
  - apply (crew_quiet D s i (t, Outside)); [done|done|lia|lia|lia|counts| |counts|counts].
    split; unfold count; cbn; [lia|done|lia].
  - apply (crew_stay D s i (t, Outside)); [done|done|done| |counts|counts].
    split; unfold count; cbn; [lia|done|lia].
Qed.

Lemma move_first D s i t : crew_inv D s -> crew s !! i = Some (t, First) -> good_move s i t First.
Proof.
  intros HI Hi. destruct (thread_at D s i t First HI Hi) as (Hr & Ex & Ed); [done|].
  destruct (ci_threads _ _ HI i _ Hi) as [Hc Ha Hp]. unfold count in *. cbn [fst snd] in *.
  unfold good_move. cbn [alloc_step]. rewrite Ex, Ed. destruct (crew_slot D s (loop_count t - 1) HI) as [l Hl].
  rewrite (rd_ok _ _ _ Hl), obind_ok. rewrite assert_true, obind_ok.
  - apply yields_ok. exists D. by apply (crew_stay D s i (t, First)).
  - destruct (li_id _ _ _ _ (ci_loops _ _ HI) _ _ Hl) as [->|(k & Hk & _ & -> & _)]; unfold PMP_LOOP_UNUSED; lia.
Qed.

Lemma move_first_wait D s i t : crew_inv D s -> crew s !! i = Some (t, FirstWait) -> good_move s i t FirstWait.
Proof.
  intros HI Hi. destruct (thread_at D s i t FirstWait HI Hi) as (Hr & Ex & Ed); [done|].
  destruct (ci_threads _ _ HI i _ Hi) as [Hc Ha Hp]. unfold count in *. cbn [fst snd] in *.
  unfold good_move. cbn [alloc_step]. rewrite Ex. destruct (crew_slot D s (loop_count t - 1) HI) as [l Hl].
  rewrite (rd_ok _ _ _ Hl), obind_ok. destruct (Z.eqb_spec (loop_id l) PMP_LOOP_UNUSED) as [E|E].
  - apply yields_ok. exists D. apply (crew_stay D s i (t, FirstWait)); try done. split; try done. cbn [snd].
    split; [done|]. exists l. replace D with (loop_count t - 1) by lia. done.
  - apply yields_ok. exists l. split; [done|]. by left.
Qed.

Lemma move_acquire D s i t : crew_inv D s -> crew s !! i = Some (t, Acquire) -> good_move s i t Acquire.
Proof.
  intros HI Hi. destruct (thread_at D s i t Acquire HI Hi) as (Hr & Ex & Ed); [done|].
  destruct (ci_threads _ _ HI i _ Hi) as [Hc Ha Hp]. unfold count in *. cbn [fst snd] in *.
  unfold good_move. cbn [alloc_step]. rewrite Ex, Ed. destruct (crew_slot D s (loop_count t - 1) HI) as [l Hl].
  rewrite (rd_ok _ _ _ Hl), obind_ok. destruct (Z.eqb_spec (loop_id l) (loop_count t - 1)) as [E|E].
  - apply yields_ok. exists D. apply (crew_stay D s i (t, Acquire)); try done. split; try done. cbn [snd].
    destruct (li_id _ _ _ _ (ci_loops _ _ HI) _ _ Hl) as [E'|(k & Hk & _ & E' & _)]; unfold PMP_LOOP_UNUSED, count in *; cbn; lia.
  - apply yields_ok. exists l. split; [done|]. by right.
Qed.

Lemma move_looping D s i t : crew_inv D s -> crew s !! i = Some (t, Looping) -> good_move s i t Looping.
Proof.
  intros HI Hi. destruct (thread_at D s i t Looping HI Hi) as (Hr & Ex & Ed); [done|].
  destruct (ci_threads _ _ HI i _ Hi) as [Hc Ha Hp]. unfold count in *. cbn [fst snd] in *.
  destruct (find_loop D s i (t, Looping) (loop_count t - 1) HI Hi) as (l & Hl & Hpub & _); [lia|counts|].
  unfold good_move. cbn [alloc_step]. rewrite Ex, Ed, (rd_ok _ _ _ Hl), obind_ok, (pub_id _ _ _ Hpub).
  rewrite assert_true, obind_ok by lia. apply yields_ok. exists D. by apply (crew_stay D s i (t, Looping)).
Qed.

Lemma move_assign D s i t : crew_inv D s -> crew s !! i = Some (t, Assign) -> good_move s i t Assign.
Proof.
  intros HI Hi. destruct (thread_at D s i t Assign HI Hi) as (Hr & Ex & Ed); [done|].
  destruct (ci_threads _ _ HI i _ Hi) as [Hc Ha (Hp & l & Hl & Hid)]. unfold count in *. cbn [fst snd] in *.
  pose proof (ci_count _ _ HI). pose proof (zlookup_lt _ _ _ Hl) as Hlen.
  unfold good_move. cbn [alloc_step]. rewrite Ex. replace (loop_count t - 1) with D by lia.
  rewrite (rd_ok _ _ _ Hl), obind_ok, wr_ok, obind_ok by done. apply yields_ok. exists D.
  assert (assign_fields l T (args D) = filled D) as -> by (unfold filled, assign_fields; by rewrite Hid).
  apply (crew_put D D s i (t, Assign)); [done|done|lia|lia|lia|counts| | |].
  - split; [done|done|]. cbn [snd]. by rewrite zlookup_zinsert_eq.
  - intros j y Hj Hy Hty. apply thread_frame; [done|]. intros Hf.
    by rewrite (first_unique D s i j (t, Assign) y) in Hf.
  - eapply loops_ext; [| |apply (loops_write _ _ _ _ D l); [apply HI|done|done|]].
    + counts.
    + counts.
    + intros k Hk _ Hk'. unfold PMP_LOOP_UNUSED in *. lia.
Qed.

(** No thread is through with the loop that is being set up. *)
Lemma nobody_left D s :
  crew_inv D s -> team_loop_count (mem s) = D + 1 -> total (remaining D) (crew s) = T.
Proof.
  intros HI HC. rewrite (total_eq _ 1); [rewrite (ci_len _ _ HI); lia|]. intros j [ty qy] Hj.
  destruct (ci_threads _ _ HI j _ Hj) as [Hc _ Hp]. unfold remaining, count in *. cbn [fst snd] in *.
  destruct (Z.leb_spec (loop_count ty) D); [done|]. replace (loop_count ty =? D + 1) with true by lia.
  destruct qy; try done; lia.
Qed.

Lemma move_filled D s i t : crew_inv D s -> crew s !! i = Some (t, Filled) -> good_move s i t Filled.
Proof.
  intros HI Hi. destruct (thread_at D s i t Filled HI Hi) as (Hr & Ex & Ed); [done|].
  destruct (ci_threads _ _ HI i _ Hi) as [Hc Ha (Hp & Hl)]. unfold count in *. cbn [fst snd] in *.
  pose proof (ci_count _ _ HI). pose proof (zlookup_lt _ _ _ Hl) as Hlen.
  unfold good_move. cbn [alloc_step]. rewrite Ex, Ed. replace (loop_count t - 1) with D by lia.
  rewrite (rd_ok _ _ _ Hl), obind_ok. rewrite wr_ok, obind_ok by done. cbn [loop_id filled assign_fields loop_setup].
  rewrite assert_true, obind_ok by done. apply yields_ok. exists (D + 1). cbn [Z.eqb].
  apply (crew_put D (D + 1) s i (t, Filled)); [done|done|lia|lia|lia|counts| | |].
  - split; [done|done|]. unfold count. cbn. lia.
  - intros j y Hj Hy Hty. pose proof (first_unique D s i j (t, Filled) y HI (not_eq_sym Hj) Hi Hy eq_refl) as Hf.
    destruct Hty as [Hcy Hay Hpy]. split; [done|done|]. unfold is_first in Hf. destruct (snd y); try done; lia.
  - pose proof (nobody_left D s HI ltac:(lia)) as HR.
    assert (0 <= total (leaving D) (crew s)) by (apply total_nonneg; intros; apply leaving_range).
    eapply loops_ext; [| |apply loops_publish; [apply HI|lia|exact Hl|done| |lia]]; [counts|counts|].
    by split; cbn; rewrite ?HR.
Qed.

(** The structure of a thread in a loop is not the one that a first thread fills
    in. *)
Lemma thread_frame_loop D C ls k l l' y :
  thread_inv D C ls y -> zlookup ls (slot k) = Some l -> loop_id l <> PMP_LOOP_UNUSED ->
  thread_inv D C (zinsert ls (slot k) l') y.
Proof.
  intros [Hc Ha Hp] Hl Hid. split; [done|done|]. destruct (snd y); try done.
  - destruct Hp as (Hp & l2 & Hl2 & Hid2). split; [done|]. exists l2. rewrite zlookup_zinsert_ne; [done|congruence].
  - destruct Hp as (Hp & Hl2). split; [done|]. rewrite zlookup_zinsert_ne; [done|]. intros E.
    rewrite E, Hl2 in Hl. by injection Hl as <-.
Qed.

(** A thread changes the structure of the loop [k] that it is in and moves to [x']. *)
Lemma crew_leave D s i x x' k l l' :
  crew_inv D s -> crew s !! i = Some x -> 0 <= k < D -> count x = k + 1 -> remaining k x + leaving k x = 1 ->
  zlookup (loops (mem s)) (slot k) = Some l -> published k (total (remaining k) (crew s)) l ->
  is_first x' = is_first x -> count x' = k + 1 -> thread_inv D (team_loop_count (mem s)) (loops (mem s)) x' ->
  snd x' <> Assign -> snd x' <> Filled ->
  (let R' := total (remaining k) (crew s) - remaining k x + remaining k x' in
   let L' := total (leaving k) (crew s) - leaving k x + leaving k x' in
   (L' = 0 \/ L' = 1 /\ R' = 0) /\
   if 0 <? R' + L' then published k R' l' else R' + L' = 0 /\ loop_id l' = PMP_LOOP_UNUSED) ->
  crew_inv D (mkCrew (mkTeamLoops (team_loop_count (mem s)) (zinsert (loops (mem s)) (slot k) l'))
                (<[i := x']> (crew s))).
Proof.
  intros HI Hi Hk Hx Hu Hl Hp Hf Hx' Ht' HA HF [HL Hl']. pose proof (ci_count _ _ HI).
  destruct (find_loop D s i x k HI Hi Hk Hu) as (_ & _ & _ & Hr & Hv).
  assert (loop_id l <> PMP_LOOP_UNUSED) by (rewrite (pub_id _ _ _ Hp); unfold PMP_LOOP_UNUSED; lia).
  apply (crew_put D D s i x); [done|done|lia|lia|lia|lia| | |].
  - by eapply thread_frame_loop.
  - intros j y _ _ Hy. by eapply thread_frame_loop.
  - eapply (loops_leave D _ _ _ _ _ k l); [apply HI|done|done|done|lia| |exact HL|exact Hl'].
    intros j Hj. unfold remaining, leaving. rewrite Hx, Hx'. repeat case_match; lia.
Qed.

Lemma move_releasing D s i t : crew_inv D s -> crew s !! i = Some (t, Releasing) -> good_move s i t Releasing.
Proof.
  intros HI Hi. destruct (thread_at D s i t Releasing HI Hi) as (Hr & Ex & Ed); [done|].
  destruct (ci_threads _ _ HI i _ Hi) as [Hc Ha Hp]. unfold count in *. cbn [fst snd] in *.
  set (k := loop_count t - 1) in *.
  assert (remaining k (t, Releasing) = 1 /\ leaving k (t, Releasing) = 0) as [Er El] by (unfold k; split; counts).
  destruct (find_loop D s i (t, Releasing) k HI Hi) as (l & Hl & Hpub & HR & _); [lia|lia|].
  pose proof (zlookup_lt _ _ _ Hl) as Hlen. destruct Hpub as [Hid Hn Hargs].
  pose proof (li_last _ _ _ _ (ci_loops _ _ HI) k) as HL. cbv beta in HL. set (R := total (remaining k) (crew s)) in *.
  unfold good_move. cbn [alloc_step]. fold k. rewrite Ex, (rd_ok _ _ _ Hl), obind_ok, wr_ok, obind_ok, Hn by done.
  rewrite assert_true, obind_ok by lia. rewrite swrap_id by (unfold in_s; lia).
  destruct (Z.eqb_spec R 1) as [E|E]; apply yields_ok; exists D;
    apply (crew_leave D s i (t, Releasing) _ k l); try done; try (unfold count; cbn; lia).
  - cbv zeta. rewrite Er, El. fold R. assert (remaining k (t, Last) = 0 /\ leaving k (t, Last) = 1) as [-> ->] by (unfold k; split; counts).
    split; [lia|]. replace (0 <? _) with true by lia. by split; cbn; try lia.
  - split; [done|done|]. unfold count. cbn. lia.
  - cbv zeta. rewrite Er, El. fold R.
    assert (remaining k (detach t, Outside) = 0 /\ leaving k (detach t, Outside) = 0) as [-> ->] by (unfold k; split; counts).
    split; [lia|]. replace (0 <? _) with true by lia. by split; cbn; try lia.
Qed.

Lemma move_last D s i t : crew_inv D s -> crew s !! i = Some (t, Last) -> good_move s i t Last.
Proof.
  intros HI Hi. destruct (thread_at D s i t Last HI Hi) as (Hr & Ex & Ed); [done|].
  destruct (ci_threads _ _ HI i _ Hi) as [Hc Ha Hp]. unfold count in *. cbn [fst snd] in *.
  set (k := loop_count t - 1) in *.
  assert (remaining k (t, Last) = 0 /\ leaving k (t, Last) = 1) as [Er El] by (unfold k; split; counts).
  destruct (find_loop D s i (t, Last) k HI Hi) as (l & Hl & Hpub & HR & HL1); [lia|lia|].
  pose proof (zlookup_lt _ _ _ Hl) as Hlen.
  pose proof (li_last _ _ _ _ (ci_loops _ _ HI) k) as HL. cbv beta in HL.
  unfold good_move. cbn [alloc_step]. fold k. rewrite Ex, (rd_ok _ _ _ Hl), obind_ok, wr_ok, obind_ok by done.
  apply yields_ok. exists D. apply (crew_leave D s i (t, Last) _ k l); try done; try (unfold count; cbn; lia).
  - split; [done|done|]. unfold count. cbn. lia.
  - assert (remaining k (detach t, Outside) = 0 /\ leaving k (detach t, Outside) = 0) as [-> ->] by (unfold k; split; counts).
    cbv zeta. rewrite Er, El. split; [lia|]. replace (0 <? _) with false by lia. split; [lia|done].
Qed.

Lemma crew_work D s i t l c ch sv :
  crew_inv D s -> crew s !! i = Some (t, Looping) -> zlookup (loops (mem s)) (my_index t) = Some l ->
  crew_inv D (mkCrew (mkTeamLoops (team_loop_count (mem s))
                        (zinsert (loops (mem s)) (my_index t) (worked l c ch sv))) (crew s)).
Proof.
  intros HI Hi Hl. destruct (thread_at D s i t Looping HI Hi) as (Hr & Ex & Ed); [done|]. rewrite Ex in *.
  destruct (ci_threads _ _ HI i _ Hi) as [Hc Ha Hp]. unfold count in *. cbn [fst snd] in *.
  destruct (find_loop D s i (t, Looping) (loop_count t - 1) HI Hi) as (l1 & Hl1 & Hpub & _); [lia|counts|].
  rewrite Hl in Hl1. injection Hl1 as <-.
  assert (loop_id l <> PMP_LOOP_UNUSED) by (rewrite (pub_id _ _ _ Hpub); unfold PMP_LOOP_UNUSED; lia).
  destruct HI as [H1 H2 H3 H4 H5]. split; cbn [mem crew team_loop_count loops]; try done.
  - intros j y Hy. eapply thread_frame_loop; [by eapply H4|done|done].
  - eapply loops_write; [done|done|done|]. intros j _ _ _ [Q1 Q2 Q3]. by split.
Qed.

Lemma thread_moves D s i t q :
  crew_inv D s -> crew s !! i = Some (t, q) -> (q = Outside -> loop_count t < N) -> good_move s i t q.
Proof.
  intros HI Hi HN'. destruct q; [eapply move_outside|eapply move_first|eapply move_first_wait|eapply move_assign|
    eapply move_filled|eapply move_acquire|eapply move_looping|eapply move_releasing|eapply move_last]; eauto.
Qed.

Lemma loop_step_inv D s s' : crew_inv D s -> loop_step T N args s s' -> exists D', crew_inv D' s'.
Proof.
  intros HI [i t q m' t' q' Hi HN' Hs|i t l c ch sv Hi Hl].
  - pose proof (thread_moves D s i t q HI Hi HN') as Hg. unfold good_move in Hg. by rewrite Hs in Hg.
  - exists D. by eapply crew_work.
Qed.

Lemma loop_steps_inv D s s' : crew_inv D s -> rtc (loop_step T N args) s s' -> exists D', crew_inv D' s'.
Proof.
  intros HI Hs. revert D HI. induction Hs as [s|s s1 s2 H1 _ IH]; intros D HI; [by exists D|].
  destruct (loop_step_inv D s s1 HI H1) as [D1 HI1]. by eapply IH.
Qed.

(** ** Progress *)
Definition can_move (s : crew_state) (i : nat) : Prop :=
  exists t q x, crew s !! i = Some (t, q) /\ (q = Outside -> loop_count t < N) /\
    alloc_step T (args (loop_count t - 1)) (mem s) t q = Ok (Some x).

Lemma move_or_wait D s i t q :
  crew_inv D s -> crew s !! i = Some (t, q) -> (q = Outside -> loop_count t < N) ->
  can_move s i \/ waits (mem s) t q.
Proof.
  intros HI Hi Hq. pose proof (thread_moves D s i t q HI Hi Hq) as Hg. unfold good_move in Hg.
  apply yields_exists in Hg as ([[[m' t'] q']|] & Hs & Hg); [left|by right]. by exists t, q, (m', t', q').
Qed.

(** A thread that waits for a published loop finds it. *)
Lemma acquire_moves D s i t :
  crew_inv D s -> crew s !! i = Some (t, Acquire) -> loop_count t <= D -> can_move s i.
Proof.
  intros HI Hi Hc. destruct (thread_at D s i t Acquire HI Hi) as (Hr & _); [done|].
  destruct (move_or_wait D s i t Acquire HI Hi) as [|(l & Hl & [[]|[_ Hw]])]; [done|done|done|].
  destruct (find_loop D s i (t, Acquire) (loop_count t - 1) HI Hi) as (l' & Hl' & Hp & _); [lia|counts|].
  rewrite Hl in Hl'. injection Hl' as <-. by rewrite (pub_id _ _ _ Hp) in Hw.
Qed.

(** A thread that is not through with a published loop can move. *)
Lemma behind_moves D s i t q k :
  crew_inv D s -> crew s !! i = Some (t, q) -> 0 <= k < D -> 0 < remaining k (t, q) + leaving k (t, q) ->
  can_move s i.
Proof.
  intros HI Hi Hk Hu. destruct (ci_threads _ _ HI i _ Hi) as [Hc _ Hp]. pose proof (ci_count _ _ HI).
  assert (loop_count t <= k + 1) as Hle by (revert Hu; unfold remaining, leaving, count; cbn; repeat case_match; lia).
  assert (q = Outside -> loop_count t < N) as Hout.
  { intros ->. revert Hu. unfold remaining, leaving, count. cbn. repeat case_match; lia. }
  unfold count in *. cbn [fst snd] in *.
  destruct (move_or_wait D s i t q HI Hi Hout) as [|(l & _ & [[-> _]|[-> _]])]; [done|lia|].
  eapply acquire_moves; [done|done|lia].
Qed.

(** If the first thread waits for its structure, a thread that uses it can move. *)
Lemma first_or_other_moves D s i t q :
  crew_inv D s -> crew s !! i = Some (t, q) -> is_first (t, q) = 1 -> exists j, can_move s j.
Proof.
  intros HI Hi Hf. assert (q = Outside -> loop_count t < N) as Hout by (by intros ->).
  destruct (move_or_wait D s i t q HI Hi Hout) as [|(l & Hl & [[-> Hid]|[-> _]])]; [by exists i| |done].
  destruct (li_id _ _ _ _ (ci_loops _ _ HI) _ _ Hl) as [|(k & Hk & _ & _ & Hu)]; [done|].
  destruct (Z.lt_ge_cases 0 (total (remaining k) (crew s))) as [Hr|Hr].
  - apply total_pos in Hr as (j & [tj qj] & Hj & Hr); [|intros; apply remaining_range]. exists j.
    pose proof (leaving_range k (tj, qj)). eapply (behind_moves D); [done|done|done|lia].
  - assert (0 < total (leaving k) (crew s)) as Hl' by lia.
    apply total_pos in Hl' as (j & [tj qj] & Hj & Hr'); [|intros; apply leaving_range]. exists j.
    pose proof (remaining_range k (tj, qj)). eapply (behind_moves D); [done|done|done|lia].
Qed.

Lemma crew_progress D s i t q :
  crew_inv D s -> crew s !! i = Some (t, q) -> (q = Outside -> loop_count t < N) -> exists j, can_move s j.
Proof.
  intros HI Hi Hq. destruct (move_or_wait D s i t q HI Hi Hq) as [|(l & _ & [[-> _]|[-> _]])]; [by exists i| |].
  - by eapply first_or_other_moves.
  - destruct (Z.le_gt_cases (loop_count t) D) as [|Hgt]; [exists i; by eapply acquire_moves|].
    destruct (ci_threads _ _ HI i _ Hi) as [Hc _ _]. unfold count in Hc. cbn [fst] in Hc.
    pose proof (ci_count _ _ HI). pose proof (ci_first _ _ HI) as Hf.
    destruct (total_pos is_first (crew s)) as (j & [tj qj] & Hj & Hfj); [intros; apply first_range|lia|].
    eapply first_or_other_moves; [done|done|]. pose proof (first_range (tj, qj)). lia.
Qed.

(** When every thread is through with every loop, all structures are unused. *)
Lemma all_unused D s :
  crew_inv D s -> (forall i t q, crew s !! i = Some (t, q) -> q = Outside /\ loop_count t = N) ->
  forall j l, zlookup (loops (mem s)) j = Some l -> loop_id l = PMP_LOOP_UNUSED.
Proof.
  intros HI Hall j l Hl. destruct (li_id _ _ _ _ (ci_loops _ _ HI) j l Hl) as [|(k & Hk & _ & _ & Hu)]; [done|exfalso].
  pose proof (ci_count _ _ HI).
  rewrite !(total_eq _ 0) in Hu; [lia| |]; intros i [t q] Hi; destruct (Hall i t q Hi) as [-> Hn]; revert Hn; counts.
Qed.

(** A team that has not met a loop yet. *)
Record crew_start (s : crew_state) : Prop := {
  cs_len : Z.of_nat (length (crew s)) = T;
  cs_count : team_loop_count (mem s) = 0;
  cs_loops : exists ls, loops (mem s) = __pmp_loop_init <$> ls /\ zlen ls = PMP_MAX_LOOPS;
  cs_threads : forall i t q, crew s !! i = Some (t, q) -> q = Outside /\ loop_count t = 0 /\ attached t = false
}.

Lemma crew_start_inv s : crew_start s -> crew_inv 0 s.
Proof.
  intros [H1 H2 (ls & H3 & Hls) H4].
  assert (forall i x, crew s !! i = Some x -> snd x = Outside /\ count x = 0) as H5.
  { intros i [t q] Hi. by destruct (H4 i t q Hi) as (-> & ? & _). }
  split; [done|lia| | |].
  - rewrite H2, (total_eq _ 0); [lia|]. intros i x Hi. unfold is_first. by destruct (H5 i x Hi) as [-> _].
  - intros i [t q] Hi. destruct (H4 i t q Hi) as (-> & Hc & Ha). split; unfold count; cbn; rewrite ?Hc; [lia|done|lia].
  - split; [by rewrite H3, zlen_fmap|lia| |].
    + intros j l Hl. left. rewrite H3, zlookup_fmap in Hl. by destruct (zlookup ls j); simplify_eq/=.
    + intros k. left. rewrite (total_eq _ 0); [lia|]. intros i x Hi. unfold leaving. destruct (H5 i x Hi) as [-> _]. by case_match.
Qed.
End Crew.

(** An executable interleaving: the threads that move, in order; a thread that
    waits or is through stays where it is. *)
Fixpoint run_crew (T N : Z) (args : Z -> loop_args) (trace : list nat) (s : crew_state) : option crew_state :=
  match trace with
  | [] => Some s
  | i :: trace =>
      match crew s !! i with
      | Some (t, q) =>
          if bool_decide (q = Outside) && (N <=? loop_count t) then run_crew T N args trace s
          else match alloc_step T (args (loop_count t - 1)) (mem s) t q with
               | Ok (Some (m', t', q')) => run_crew T N args trace (mkCrew m' (<[i := (t', q')]> (crew s)))
               | Ok None => run_crew T N args trace s
               | Err _ => None
               end
      | None => None
      end
  end.

Lemma run_crew_steps T N args trace s s' :
  run_crew T N args trace s = Some s' -> rtc (loop_step T N args) s s'.
Proof.
  revert s. induction trace as [|i trace IH]; intros s; simpl; [by intros [= ->]|].
  destruct (crew s !! i) as [[t q]|] eqn:Ei; [|done].
  destruct (bool_decide (q = Outside) && (N <=? loop_count t)) eqn:Eb; [by apply IH|].
  destruct (alloc_step T _ (mem s) t q) as [[[[m' t'] q']|]|] eqn:Ex; [|by apply IH|done]. intros H.
  eapply rtc_l; [|by apply IH]. eapply step_alloc; [done| |done]. intros ->.
  rewrite bool_decide_eq_true_2 in Eb by done. cbn [andb] in Eb. lia.
Qed.

(** C8. The loop structures of a team are reused safely and without deadlock.  In
    every state that the threads can reach, in any interleaving: a thread that is
    in a loop finds, in its structure, the number and the arguments of that loop
    and the number of threads that have not left it; no assertion fails and no
    access is outside the array; as long as a thread is not through with all
    loops, some thread can move although first threads wait for structures that
    other threads still use; and at the end all structures are unused. *)
Theorem omp_loop_reuse T N args s0 s
    (HT : 1 <= T < 2 ^ 31) (HN : 0 <= N < 2 ^ 31) (Hs0 : crew_start T s0)
    (Hs : rtc (loop_step T N args) s0 s) :
  (forall i t, crew s !! i = Some (t, Looping) ->
     exists l, zlookup (loops (mem s)) (my_index t) = Some l /\ loop_id l = my_loop_id t /\
       published args (loop_count t - 1) (total (remaining (loop_count t - 1)) (crew s)) l) /\
  (forall i t q, crew s !! i = Some (t, q) -> (q = Outside -> loop_count t < N) ->
     exists o, alloc_step T (args (loop_count t - 1)) (mem s) t q = Ok o) /\
  (forall i t q, crew s !! i = Some (t, q) -> (q = Outside -> loop_count t < N) ->
     exists j, can_move T N args s j) /\
  ((forall i t q, crew s !! i = Some (t, q) -> q = Outside /\ loop_count t = N) ->
     forall j l, zlookup (loops (mem s)) j = Some l -> loop_id l = PMP_LOOP_UNUSED).
Proof.
  destruct (loop_steps_inv T N args HT HN 0 s0 s (crew_start_inv T N args HT HN s0 Hs0) Hs) as [D HI].
  split; [|split; [|split]].
  - intros i t Hi. destruct (thread_at T N args HN D s i t Looping HI Hi) as (Hr & -> & ->); [done|].
    destruct (ci_threads _ _ _ _ _ HI i _ Hi) as [Hc _ Hp]. unfold count in *. cbn [fst snd] in *.
    destruct (find_loop T N args D s i (t, Looping) (loop_count t - 1) HI Hi) as (l & Hl & Hpub & _);
      [lia|unfold remaining, leaving, count; cbn; repeat case_match; lia|].
    exists l. split; [done|]. split; [apply Hpub|done].
  - intros i t q Hi Hq. pose proof (thread_moves T N args HT HN D s i t q HI Hi Hq) as Hg.
    apply yields_exists in Hg as (o & Ho & _). by exists o.
  - intros i t q. by apply (crew_progress T N args HT HN D).
  - by apply (all_unused T N args D).
Qed.

(** Two threads run through 18 loops, so that two structures are used twice. *)
Definition demo_args (k : Z) : loop_args := mkArgs PMP_SCHED_DYNAMIC k (k + 9) 1 2 1.
Definition blank_loop : pmp_loop := mkLoop 0 0 0 0 0 0 0 0 0 0.
Definition demo_crew : crew_state :=
  mkCrew (mkTeamLoops 0 (__pmp_loop_init <$> replicate 16 blank_loop))
    [(mkThread 0 0 0 0 false, Outside); (mkThread 1 0 0 0 false, Outside)].
Definition demo_turns (n : nat) : list nat := concat (replicate n [0%nat; 1%nat; 1%nat]).
Definition demo_after (n : nat) : crew_state := default demo_crew (run_crew 2 18 demo_args (demo_turns n) demo_crew).

Lemma demo_crew_start : crew_start 2 demo_crew.
Proof.
  split; [done|done|by exists (replicate 16 blank_loop)|].
  intros i t q Hi. destruct i as [|[|i]]; simplify_eq/=; done.
Qed.

Lemma omp_loop_reuse_witness :
  (crew (demo_after 10) !! 0%nat = Some (mkThread 0 0 0 2 true, Looping) /\
   exists l, zlookup (loops (mem (demo_after 10))) 1 = Some l /\ loop_id l = 1 /\ lower l = 1 /\ upper l = 10) /\
  (forall j l, zlookup (loops (mem (demo_after 200))) j = Some l -> loop_id l = PMP_LOOP_UNUSED).
Proof.
  assert (forall n, is_Some (run_crew 2 18 demo_args (demo_turns n) demo_crew) ->
    rtc (loop_step 2 18 demo_args) demo_crew (demo_after n)) as Hrun.
  { intros n [s Hs]. unfold demo_after. rewrite Hs. by eapply run_crew_steps. }
  split; [split; [by vm_compute|]|].
  - destruct (omp_loop_reuse 2 18 demo_args demo_crew (demo_after 10)) as (H & _);
      [lia|lia|exact demo_crew_start|apply Hrun; vm_compute; by eexists|].
    destruct (H 0%nat (mkThread 0 0 0 2 true)) as (l & Hl & Hid & Hp); [by vm_compute|].
    exists l. split; [exact Hl|]. split; [exact Hid|]. destruct Hp as [_ _ (_ & H1 & H2 & _)]. by split.
  - destruct (omp_loop_reuse 2 18 demo_args demo_crew (demo_after 200)) as (_ & _ & _ & H);
      [lia|lia|exact demo_crew_start|apply Hrun; vm_compute; by eexists|].
    apply H. intros i t q Hi. destruct i as [|[|i]]; vm_compute in Hi; [| |done]; by injection Hi as <- <-.
Defined.
