(* ===== verification/OmpOrdered.v ===== *)
(** Ordered sections: [__ompc_ordered] and [__ompc_end_ordered] of
    [libopenmp/schedule.c] in loops with a dynamic or guided ordered schedule.

    A thread that has got a range from [__pmp_schedule_next] runs its iterations
    one after the other; each of them has one ordered section.  The steps of the
    scheduler, the entries into sections (which wait for the thread's ticket)
    and the exits interleave arbitrarily. *)
From Stdlib Require Import ZArith Lia Bool.
From stdpp Require Import prelude list relations.
From S2P Require Import Prelude OmpSchedule OmpStatic OmpNext OmpDynamic.

(** The thread's part of the loop: nothing, or the iteration [i] whose section is
    ahead or under way, and the end of the range. *)
Inductive work : Type :=
| Idle
| Waiting (i hi : Z)
| Inside (i hi : Z).

#[export] Instance work_eq_dec : EqDecision work.
Proof. solve_decision. Defined.

(** [for (...; i <= hi; i += inc)] *)
Definition next_work (inc i hi : Z) : work := if loop_le inc i hi then Waiting i hi else Idle.

Record ordered_team : Type := mkOrdered {
  base : team;
  works : list work;
  log : list Z  (* the iterations whose sections have been entered *)
}.

Inductive ordered_step (p : pmp_param) (T : Z) (s : ordered_team) : ordered_team -> Prop :=
| ord_schedule i t q l' t' q' r :
    threads (base s) !! i = Some (t, q) -> works s !! i = Some Idle ->
    thread_step p T (shared (base s)) t q = Ok (l', t', q', r) ->
    ordered_step p T s
      (mkOrdered (put (base s) i (l', t', q', r))
         (<[i := match r with Some (lo, hi) => next_work (inc (shared (base s))) lo hi | None => Idle end]> (works s))
         (log s))
| ord_enter i t q v hi :
    threads (base s) !! i = Some (t, q) -> works s !! i = Some (Waiting v hi) ->
    __ompc_ordered T (shared (base s)) t = Some tt ->
    ordered_step p T s (mkOrdered (base s) (<[i := Inside v hi]> (works s)) (log s ++ [v]))
| ord_exit i t q v hi l' t' :
    threads (base s) !! i = Some (t, q) -> works s !! i = Some (Inside v hi) ->
    __ompc_end_ordered T (shared (base s)) t = Ok (l', t') ->
    ordered_step p T s
      (mkOrdered (put (base s) i (l', t', q, None))
         (<[i := next_work (inc (shared (base s))) (v + inc (shared (base s))) hi]> (works s)) (log s)).

(** * No element twice *)
Lemma elem_of_concat_index {A B} (f : A -> list B) xs b :
  b ∈ concat (f <$> xs) <-> exists i x, xs !! i = Some x /\ b ∈ f x.
Proof.
  induction xs as [|a xs IH]; cbn.
  - split; [by intros ?%not_elem_of_nil|]. by intros (i & x & Hi & _).
  - rewrite elem_of_app, IH. split.
    + intros [Hb|(i & x & Hi & Hb)]; [by exists 0%nat, a|by exists (S i), x].
    + intros ([|i] & x & Hi & Hb); simplify_eq/=; [by left|right; by exists i, x].
Qed.

Lemma NoDup_concat_index {A B} (f : A -> list B) xs i j x y b :
  NoDup (concat (f <$> xs)) -> xs !! i = Some x -> xs !! j = Some y -> b ∈ f x -> b ∈ f y -> i = j.
Proof.
  revert i j. induction xs as [|a xs IH]; intros i j Hnd Hi Hj Hx Hy; [done|].
  cbn in Hnd. apply NoDup_app in Hnd as (_ & Hdis & Hnd).
  assert (forall k z, xs !! k = Some z -> b ∈ f z -> b ∈ concat (f <$> xs)) as Hin
    by (intros k z Hk Hz; apply elem_of_concat_index; by exists k, z).
  destruct i as [|i], j as [|j]; simplify_eq/=; [done| | |].
  - exfalso. eapply (Hdis b); [done|by eapply Hin].
  - exfalso. eapply (Hdis b); [done|by eapply Hin].
  - f_equal. by eapply IH.
Qed.

Section Ordered.
Context (p : pmp_param) (l0 : pmp_loop) (T M : Z).
Context (Hstep : inc l0 <> 0) (Hne : loop_le (inc l0) (lower l0) (upper l0) = true).
Context (Hstart : loop_start p l0 T M) (HT : 1 < T) (Hord : PMP_SCHED_ORDERED_OFFSET < sched l0).
Abbreviation v := (val (lower l0) (inc l0)).
Abbreviation n := (size (lower l0) (upper l0) (inc l0)).

Definition work_values (w : work) : list Z :=
  match w with Idle => [] | Waiting i hi | Inside i hi => range_values (inc l0) (i, hi) end.
Definition is_inside (w : work) : Z := match w with Inside _ _ => 1 | _ => 0 end.
Definition works_values (s : ordered_team) : list Z := concat (work_values <$> works s).

(** The iterations [i ..] of the thread are [a ..], and it holds their ticket. *)
Definition work_ok (E : Z) (x : pmp_thread * pc) (w : work) : Prop :=
  match w with
  | Idle => True
  | Waiting i hi => snd x = Ready /\ ticket_number (fst x) = i /\ exists a c, 0 <= a /\ range_of l0 a c = Some (i, hi)
  | Inside i hi => snd x = Ready /\ ticket_number (fst x) = i /\ i = v E /\ exists c, range_of l0 E c = Some (i, hi)
  end.

(** [E] sections have been left. *)
Record ord_inv (K E : Z) (s : ordered_team) : Prop := {
  oi_base : inv l0 T M K (base s);
  oi_pos : 0 <= E;
  oi_len : length (works s) = length (threads (base s));
  oi_serving : now_serving (shared (base s)) = v E;
  oi_works : forall i x w, threads (base s) !! i = Some x -> works s !! i = Some w -> work_ok E x w;
  oi_values : handed_values l0 (base s) ≡ₚ (v <$> seqZ 0 E) ++ works_values s;
  oi_inside : total is_inside (works s) <= 1;
  oi_log : log s = v <$> seqZ 0 (E + total is_inside (works s))
}.

(** ** Facts *)
Lemma range_head a c i hi :
  0 <= a -> range_of l0 a c = Some (i, hi) ->
  i = v a /\ a < n /\ work_values (Waiting i hi) = v a :: work_values (next_work (inc l0) (v a + inc l0) hi) /\
  (next_work (inc l0) (v a + inc l0) hi = Idle \/
   next_work (inc l0) (v a + inc l0) hi = Waiting (v (a + 1)) hi /\ range_of l0 (a + 1) (c - 1) = Some (v (a + 1), hi)).
Proof.
  intros Ha Hr. pose proof (range_of_Some _ _ _ _ Hr) as (Hlt & Hc & [= -> Hhi]).
  replace (v a + inc l0) with (v (a + 1)) by (unfold val; lia). cbn [work_values].
  rewrite (range_values_eq p l0 T M Hstep Hne Hstart a c) by done. unfold next_work.
  assert (loop_le (inc l0) (v (a + 1)) hi = (a + 1 <=? a + c - 1) && (a + 1 <? n)) as ->
    by (subst hi; apply (loop_le_range l0 Hstep Hne)). split; [done|]. split; [done|]. rewrite seqZ_cons by lia. cbn [fmap list_fmap].
  destruct ((a + 1 <=? a + c - 1) && (a + 1 <? n)) eqn:Eb.
  - assert (range_of l0 (a + 1) (c - 1) = Some (v (a + 1), hi)) as Hr'.
    { unfold range_of. replace (_ && _) with true by lia. subst hi. do 4 f_equal. lia. }
    split; [|right; by split]. f_equal. cbn [work_values].
    rewrite (range_values_eq p l0 T M Hstep Hne Hstart (a + 1) (c - 1)) by (done || lia). f_equal. f_equal; lia.
  - split; [|by left]. f_equal. cbn [work_values]. by rewrite seqZ_nil by lia.
Qed.

Lemma NoDup_vals a m : NoDup (v <$> seqZ a m).
Proof.
  apply NoDup_fmap_2_strong; [|apply NoDup_seqZ]. intros x y _ _. apply val_inj. done.
Qed.

Lemma ord_nodup K E s : ord_inv K E s -> NoDup ((v <$> seqZ 0 E) ++ works_values s).
Proof.
  intros HI. pose proof (inv_values _ _ _ _ _ (oi_base _ _ _ HI)) as Hv. rewrite <- (oi_values _ _ _ HI).
  assert (NoDup (handed_values l0 (base s) ++ pending_values l0 (base s))) as Hnd by (rewrite Hv; apply NoDup_vals).
  by apply NoDup_app in Hnd as (? & _).
Qed.

(** The iterations that the threads hold are not yet done. *)
Lemma works_ahead K E s x : ord_inv K E s -> x ∈ works_values s -> exists k, E <= k < n /\ x = v k.
Proof.
  intros HI Hx. pose proof (inv_values _ _ _ _ _ (oi_base _ _ _ HI)) as Hv.
  assert (x ∈ first l0 K) as Hf by (rewrite <- Hv, (oi_values _ _ _ HI), !elem_of_app; auto).
  unfold first in Hf. apply list_elem_of_fmap in Hf as (k & -> & Hk%elem_of_seqZ). exists k. split; [|done].
  split; [|lia]. destruct (Z.le_gt_cases E k); [done|]. exfalso.
  pose proof (ord_nodup K E s HI) as (_ & Hdis & _)%NoDup_app. apply (Hdis (v k)); [|done].
  apply list_elem_of_fmap. exists k. split; [done|]. apply elem_of_seqZ. lia.
Qed.

Lemma head_ahead K E s i a c x hi w :
  ord_inv K E s -> works s !! i = Some w -> 0 <= a -> range_of l0 a c = Some (x, hi) ->
  work_values w = work_values (Waiting x hi) -> E <= a < n /\ v a ∈ work_values w.
Proof.
  intros HI Hi Ha Hr Hw. destruct (range_head a c x hi Ha Hr) as (_ & Hlt & Hv & _).
  assert (v a ∈ work_values w) as Hin by (rewrite Hw, Hv; apply list_elem_of_here).
  split; [|done]. destruct (works_ahead K E s (v a) HI) as (k & Hk & Ek).
  - apply elem_of_concat_index. by exists i, w.
  - apply val_inj in Ek; [lia|done].
Qed.

Lemma inside_range' w : 0 <= is_inside w <= 1.
Proof. destruct w; simpl; lia. Qed.

(** What a step of the scheduler returns. *)
Lemma schedule_result K s i t q l' t' q' r :
  inv l0 T M K s -> threads s !! i = Some (t, q) -> thread_step p T (shared s) t q = Ok (l', t', q', r) ->
  now_serving l' = now_serving (shared s) /\
  match r with
  | Some (lo, hi) => q' = Ready /\ ticket_number t' = lo /\ exists a c, 0 <= a /\ range_of l0 a c = Some (lo, hi)
  | None => True
  end.
Proof.
  intros HI Hi. destruct q as [|c|c m|c cur stride|]; cbn [thread_step].
  - intros (_ & _ & (_ & _ & H)%obind_inv)%obind_inv. by simplify_eq/=.
  - destruct (is_dynamic _); [intros H; by simplify_eq/=|]. destruct (is_guided _); intros H; by simplify_eq/=.
  - intros (_ & _ & H)%obind_inv. by simplify_eq/=.
  - destruct (inv_threads _ _ _ _ _ HI i _ Hi) as [_ _ _ (a & m & Ha & Hm & -> & -> & HK)]. cbv zeta.
    rewrite (claimed_range_static l0 M K) by apply HI. rewrite (claimed_range_eq l0 Hstep Hne) by lia.
    intros ([[l1 t1] r1] & Hf & H)%obind_inv. injection H as -> -> <- <-.
    destruct (range_of l0 a m) as [[lo hi]|] eqn:Er.
    + unfold finish_next in Hf. apply obind_inv in Hf as (_ & _ & Hf). injection Hf as <- <- <-.
      split; [destruct (is_guided _); [unfold cmpxchg_chunk; by case_match|done]|]. split; [done|]. split; [done|]. by exists a, m.
    + unfold finish_next, __pmp_loop_free in Hf. apply obind_inv in Hf as ([l2 t2] & Hf & H). injection H as -> -> <-.
      apply obind_inv in Hf as (_ & _ & (_ & _ & Hf)%obind_inv). injection Hf as <- <-. done.
  - done.
Qed.

(** ** Steps *)
Lemma ord_update K K' E E' s i x x' w w' b' log' :
  ord_inv K E s -> threads (base s) !! i = Some x -> works s !! i = Some w ->
  inv l0 T M K' b' -> threads b' = <[i := x']> (threads (base s)) -> 0 <= E' ->
  now_serving (shared b') = v E' -> work_ok E' x' w' ->
  (forall j y wj, j <> i -> works s !! j = Some wj -> work_ok E y wj -> work_ok E' y wj) ->
  handed_values l0 b' ++ work_values w ++ (v <$> seqZ 0 E) ≡ₚ
    handed_values l0 (base s) ++ work_values w' ++ (v <$> seqZ 0 E') ->
  total is_inside (works s) - is_inside w + is_inside w' <= 1 ->
  log' = v <$> seqZ 0 (E' + (total is_inside (works s) - is_inside w + is_inside w')) ->
  ord_inv K' E' (mkOrdered b' (<[i := w']> (works s)) log').
Proof.
  intros [H1 H2 H3 H4 H5 H6 H7 H8] Hi Hw Hb Hth HE Hs Hwok Hother Hval Hin Hlog.
  split; cbn [base works log]; try done; rewrite ?(total_insert _ _ _ _ _ Hw); try done.
  - by rewrite length_insert, H3, Hth, length_insert.
  - intros j y wj Hy Hwj. rewrite Hth in Hy. destruct (decide (j = i)) as [->|Hne'].
    + rewrite list_lookup_insert_eq in Hy by (by eapply lookup_lt_Some).
      rewrite list_lookup_insert_eq in Hwj by (by eapply lookup_lt_Some). by simplify_eq.
    + rewrite list_lookup_insert_ne in Hy by done. rewrite list_lookup_insert_ne in Hwj by done.
      eapply Hother; [done|done|]. by eapply H5.
  - pose proof (concat_insert work_values _ _ _ w' Hw) as Hc. unfold works_values in *. cbn [works].
    apply (Permutation_app_inv_l (work_values w ++ (v <$> seqZ 0 E))).
    rewrite (Permutation_app_comm _ (handed_values l0 b')), Hval, H6.
    set (A := v <$> seqZ 0 E). set (B := v <$> seqZ 0 E'). set (C := concat (work_values <$> works s)) in *.
    set (C' := concat (work_values <$> <[i := w']> (works s))) in *.
    transitivity (A ++ B ++ (work_values w' ++ C)); [solve_Permutation|]. rewrite <- Hc. solve_Permutation.
Qed.

Lemma handed_put s i l' t' q' r :
  handed_values l0 (put s i (l', t', q', r)) =
  handed_values l0 s ++ match r with Some r => range_values (inc l0) r | None => [] end.
Proof.
  unfold handed_values, put. cbn [handed]. rewrite fmap_app, concat_app. f_equal. destruct r; [|done]. cbn. apply app_nil_r.
Qed.

Definition ord_potential (K E : Z) (s : ordered_team) : Z :=
  potential l0 K (base s) + 2 * (n - E) - total is_inside (works s).

Lemma inv_inc K s : inv l0 T M K s -> inc (shared s) = inc l0.
Proof. intros HI. by destruct (inv_loop _ _ _ _ _ HI) as [(_ & _ & -> & _) _ _ _]. Qed.

Lemma enter_work w i hi : w = next_work (inc l0) i hi -> is_inside w = 0.
Proof. intros ->. unfold next_work. by case_match. Qed.

Lemma schedule_keeps K E s i t q l' t' q' r :
  ord_inv K E s -> threads (base s) !! i = Some (t, q) -> works s !! i = Some Idle ->
  thread_step p T (shared (base s)) t q = Ok (l', t', q', r) ->
  exists K', let s' := mkOrdered (put (base s) i (l', t', q', r))
         (<[i := match r with Some (lo, hi) => next_work (inc (shared (base s))) lo hi | None => Idle end]> (works s))
         (log s) in
    ord_inv K' E s' /\ ord_potential K' E s' < ord_potential K E s.
Proof.
  intros HI Hi Hw Hs. pose proof (oi_base _ _ _ HI) as HB. assert (q <> Left) as Hq by (by intros ->).
  pose proof (thread_progress p l0 T M Hstep Hne Hstart K (base s) i t q HB Hi Hq) as Hg.
  unfold good_step in Hg. rewrite Hs in Hg. destruct Hg as (K' & HB' & Hpot). exists K'. cbv zeta.
  destruct (schedule_result K (base s) i t q l' t' q' r HB Hi Hs) as [Hserv Hr]. rewrite (inv_inc K) by done.
  set (w' := match r with Some (lo, hi) => _ | None => _ end).
  assert (is_inside w' = 0) as Hin by (unfold w'; destruct r as [[lo hi]|]; [by eapply enter_work|done]).
  assert (work_ok E (t', q') w' /\ work_values w' = match r with Some r => range_values (inc l0) r | None => [] end) as [Hok Hwv].
  { unfold w'. destruct r as [[lo hi]|]; [|done]. destruct Hr as (-> & Htk & a & c & Ha & Hr).
    unfold next_work. pose proof (range_of_Some _ _ _ _ Hr) as (Hlt & Hc & [= -> ->]).
    rewrite (loop_le_range l0 Hstep Hne). replace (_ && _) with true by lia. split; [|done]. split; [done|]. split; [done|]. by exists a, c. }
  split.
  - apply (ord_update K K' E E s i (t, q) (t', q') Idle w'); try done.
    + apply (oi_pos _ _ _ HI).
    + cbn [shared put]. by rewrite Hserv, (oi_serving _ _ _ HI).
    + rewrite handed_put, Hwv. cbn [work_values]. solve_Permutation.
    + rewrite Hin. pose proof (oi_inside _ _ _ HI). simpl. lia.
    + rewrite Hin, (oi_log _ _ _ HI). f_equal. f_equal. simpl. lia.
  - unfold ord_potential. cbn [base works]. rewrite (total_insert _ _ _ _ _ Hw), Hin. simpl is_inside. lia.
Qed.

(** In an ordered loop, the section is entered when the ticket is served. *)
Lemma ordered_guard K s i t :
  inv l0 T M K s -> threads s !! i = Some (t, Ready) ->
  __ompc_ordered T (shared s) t = (if now_serving (shared s) =? ticket_number t then Some tt else None) /\
  (now_serving (shared s) = ticket_number t ->
   __ompc_end_ordered T (shared s) t =
     Ok (with_serving (shared s) (now_serving (shared s) + inc l0),
         mkThread (local_id t) (iteration t) (ticket_number t + inc l0) (loop_count t) (attached t))).
Proof.
  intros HI Hi. destruct (inv_threads _ _ _ _ _ HI i _ Hi) as [Ha _ _ _]. cbn [fst snd] in Ha.
  destruct (inv_loop _ _ _ _ _ HI) as [(_ & _ & Ei & Es & _) _ _ _].
  unfold __ompc_ordered, __ompc_end_ordered. rewrite Ha, Es, Ei by done. replace (1 <? T) with true by lia.
  replace (sched l0 <=? PMP_SCHED_ORDERED_OFFSET) with false by lia. cbn [negb orb]. split; [done|].
  intros ->. by rewrite assert_true, obind_ok by lia.
Qed.

(** While a thread that holds iteration [E] has not entered, nobody is inside. *)
Lemma nobody_inside K E s i x w :
  ord_inv K E s -> threads (base s) !! i = Some x -> works s !! i = Some w -> v E ∈ work_values w ->
  is_inside w = 0 -> total is_inside (works s) = 0.
Proof.
  intros HI Hi Hw Hv Hin. destruct (Z.lt_ge_cases 0 (total is_inside (works s))) as [Hp|Hp].
  - exfalso. apply total_pos in Hp as (j & wj & Hj & Hp); [|intros; apply inside_range'].
    destruct wj as [| |y hi]; simpl in Hp; try lia.
    destruct (lookup_lt_is_Some_2 (threads (base s)) j) as [xj Hxj];
      [rewrite <- (oi_len _ _ _ HI); by eapply lookup_lt_Some|].
    destruct (oi_works _ _ _ HI j xj _ Hxj Hj) as (_ & _ & -> & c & Hr).
    destruct (head_ahead K E s j E c (v E) hi _ HI Hj (oi_pos _ _ _ HI) Hr eq_refl) as [_ Hvj].
    pose proof (ord_nodup K E s HI) as (_ & _ & Hnd)%NoDup_app.
    rewrite (NoDup_concat_index _ _ _ _ _ _ _ Hnd Hw Hj Hv Hvj) in Hw. rewrite Hj in Hw. by injection Hw as <-.
  - pose proof (total_nonneg is_inside (works s) (fun w => proj1 (inside_range' w))). lia.
Qed.

Lemma enter_keeps K E s i t q x hi :
  ord_inv K E s -> threads (base s) !! i = Some (t, q) -> works s !! i = Some (Waiting x hi) ->
  __ompc_ordered T (shared (base s)) t = Some tt ->
  let s' := mkOrdered (base s) (<[i := Inside x hi]> (works s)) (log s ++ [x]) in
  ord_inv K E s' /\ ord_potential K E s' < ord_potential K E s.
Proof.
  intros HI Hi Hw Hgo. pose proof (oi_base _ _ _ HI) as HB. pose proof (oi_pos _ _ _ HI).
  destruct (oi_works _ _ _ HI i _ _ Hi Hw) as (Hq & Htk & a & c & Ha & Hr). cbn [fst snd] in *. subst q.
  rewrite (proj1 (ordered_guard K _ i t HB Hi)), (oi_serving _ _ _ HI), Htk in Hgo.
  destruct (Z.eqb_spec (v E) x) as [<-|]; [|done].
  destruct (range_head a c (v E) hi Ha Hr) as (Ea & _). apply val_inj in Ea; [subst a|done].
  destruct (head_ahead K E s i E c (v E) hi _ HI Hw Ha Hr eq_refl) as [_ Hv].
  pose proof (nobody_inside K E s i _ _ HI Hi Hw Hv eq_refl) as HJ. split.
  - apply (ord_update K K E E s i (t, Ready) (t, Ready) (Waiting (v E) hi)); try done.
    + by rewrite list_insert_id.
    + apply (oi_serving _ _ _ HI).
    + split; [done|]. split; [done|]. split; [done|]. by exists c.
    + rewrite HJ. simpl. lia.
    + rewrite (oi_log _ _ _ HI), HJ. cbn [is_inside]. replace (E + (0 - 0 + 1)) with (E + 1) by lia.
      rewrite Z.add_0_r, seqZ_app, fmap_app by lia. done.
  - unfold ord_potential. cbn [base works]. rewrite (total_insert _ _ _ _ _ Hw). cbn [is_inside]. lia.
Qed.

(** Leaving a section does not concern the scheduler. *)
Lemma exit_base K s i t :
  inv l0 T M K s -> threads s !! i = Some (t, Ready) ->
  let b := put s i (with_serving (shared s) (now_serving (shared s) + inc l0),
             mkThread (local_id t) (iteration t) (ticket_number t + inc l0) (loop_count t) (attached t), Ready, None) in
  inv l0 T M K b /\ potential l0 K b = potential l0 K s.
Proof.
  intros HB Hi. split.
  - apply (inv_update l0 T M K K s i t Ready); [done|done|lia| | |simpl; lia| |done].
    + by destruct (inv_loop _ _ _ _ _ HB) as [? ? ? ?].
    + by destruct (inv_threads _ _ _ _ _ HB i _ Hi) as [? ? ? ?].
    + pose proof (inv_bound _ _ _ _ _ HB). cbn [past]. lia.
  - unfold potential, put. cbn [threads]. rewrite (total_insert _ _ _ _ _ Hi). cbn [snd]. lia.
Qed.

Lemma exit_keeps K E s i t q x hi l' t' :
  ord_inv K E s -> threads (base s) !! i = Some (t, q) -> works s !! i = Some (Inside x hi) ->
  __ompc_end_ordered T (shared (base s)) t = Ok (l', t') ->
  let s' := mkOrdered (put (base s) i (l', t', q, None))
              (<[i := next_work (inc (shared (base s))) (x + inc (shared (base s))) hi]> (works s)) (log s) in
  ord_inv K (E + 1) s' /\ ord_potential K (E + 1) s' < ord_potential K E s.
Proof.
  intros HI Hi Hw Hgo. pose proof (oi_base _ _ _ HI) as HB. pose proof (oi_pos _ _ _ HI) as HE.
  destruct (oi_works _ _ _ HI i _ _ Hi Hw) as (Hq & Htk & -> & c & Hr). cbn [fst snd] in *. subst q.
  rewrite (inv_inc K) by done. pose proof (oi_serving _ _ _ HI) as Hs.
  rewrite (proj2 (ordered_guard K _ i t HB Hi)) in Hgo by congruence. injection Hgo as <- <-.
  destruct (range_head E c (v E) hi HE Hr) as (_ & _ & Hv & Hnext).
  set (w' := next_work (inc l0) (v E + inc l0) hi) in *.
  assert (is_inside w' = 0) as Hin by (by eapply enter_work).
  pose proof (total_member is_inside _ _ _ (fun w => proj1 (inside_range' w)) Hw) as HJ1. cbn [is_inside] in HJ1.
  pose proof (oi_inside _ _ _ HI) as HJ2. assert (v E + inc l0 = v (E + 1)) as Hsucc by (unfold val; lia).
  set (b' := put _ _ _).
  destruct (exit_base K (base s) i t HB Hi) as [HB' Hpot]. fold b' in HB', Hpot.
  split.
  - apply (ord_update K K E (E + 1) s i (t, Ready)
      (mkThread (local_id t) (iteration t) (ticket_number t + inc l0) (loop_count t) (attached t), Ready)
      (Inside (v E) hi)); try done.
    + lia.
    + cbn. by rewrite Hs.
    + destruct Hnext as [->|[-> Hr']]; [done|]. split; [done|]. split; [cbn; congruence|]. exists (E + 1), (c - 1). split; [lia|done].
    + intros j y wj Hj Hwj. destruct wj as [| |y' hi']; try done.
      pose proof (total_two is_inside _ _ _ _ _ (fun w => proj1 (inside_range' w)) Hj Hwj Hw). cbn [is_inside] in *. lia.
    + unfold b'. rewrite handed_put, app_nil_r. change (work_values (Inside (v E) hi)) with (work_values (Waiting (v E) hi)).
      rewrite Hv, seqZ_app, fmap_app by lia. cbn [seqZ fmap]. change (v <$> seqZ (0 + E) 1) with [v (0 + E)].
      rewrite Z.add_0_l. solve_Permutation.
    + rewrite Hin. cbn [is_inside]. lia.
    + rewrite Hin, (oi_log _ _ _ HI). f_equal. f_equal. cbn [is_inside]. lia.
  - unfold ord_potential. cbn [base works]. rewrite (total_insert _ _ _ _ _ Hw), Hin, Hpot. cbn [is_inside]. lia.
Qed.

Lemma ordered_steps_inv k K E s s' :
  ord_inv K E s -> nsteps (ordered_step p T) k s s' ->
  exists K' E', ord_inv K' E' s' /\ ord_potential K' E' s' + Z.of_nat k <= ord_potential K E s.
Proof.
  intros HI Hn. revert K E HI. induction Hn as [s|k s s1 s2 H1 _ IH]; intros K E HI; [exists K, E; split; [done|lia]|].
  assert (exists K1 E1, ord_inv K1 E1 s1 /\ ord_potential K1 E1 s1 < ord_potential K E s) as (K1 & E1 & HI1 & Hp1).
  { destruct H1 as [i t q l' t' q' r Hi Hw Hs|i t q x hi Hi Hw Hs|i t q x hi l' t' Hi Hw Hs].
    - destruct (schedule_keeps K E s i t q l' t' q' r HI Hi Hw Hs) as (K' & H). by exists K', E.
    - exists K, E. by apply (enter_keeps K E s i t q).
    - exists K, (E + 1). by apply (exit_keeps K E s i t q). }
  destruct (IH K1 E1 HI1) as (K2 & E2 & HI2 & Hp2). exists K2, E2. split; [done|lia].
Qed.

(** ** Progress *)
Definition finished (x : pmp_thread * pc) (w : work) : Prop := snd x = Left /\ w = Idle.

Definition can_step (s : ordered_team) : Prop := exists s', ordered_step p T s s'.

Lemma idle_steps K E s i t q :
  ord_inv K E s -> threads (base s) !! i = Some (t, q) -> works s !! i = Some Idle -> q <> Left -> can_step s.
Proof.
  intros HI Hi Hw Hq. pose proof (oi_base _ _ _ HI) as HB.
  pose proof (thread_progress p l0 T M Hstep Hne Hstart K (base s) i t q HB Hi Hq) as Hg.
  apply yields_exists in Hg as ([[[l' t'] q'] r] & Hs & _). eexists. by eapply ord_schedule.
Qed.

Lemma inside_steps K E s i t q x hi :
  ord_inv K E s -> threads (base s) !! i = Some (t, q) -> works s !! i = Some (Inside x hi) ->
  exists y, __ompc_end_ordered T (shared (base s)) t = Ok y.
Proof.
  intros HI Hi Hw. pose proof (oi_base _ _ _ HI) as HB.
  destruct (oi_works _ _ _ HI i _ _ Hi Hw) as (Hq & Htk & -> & _). cbn [fst snd] in *. subst q. eexists.
  apply (ordered_guard K _ i t HB Hi). by rewrite (oi_serving _ _ _ HI).
Qed.

(** A list either has an element that satisfies [f] or has none. *)
Lemma find_index {A} (f : A -> bool) (xs : list A) :
  (exists i x, xs !! i = Some x /\ f x = true) \/ (forall i x, xs !! i = Some x -> f x = false).
Proof.
  induction xs as [|a xs [(i & x & Hi & Hx)|IH]]; [by right|left; by exists (S i), x|].
  destruct (f a) eqn:Ea; [left; by exists 0%nat, a|right]. intros [|i] x Hi; simplify_eq/=; [done|by eapply IH].
Qed.

Lemma works_thread K E s i w : ord_inv K E s -> works s !! i = Some w -> exists x, threads (base s) !! i = Some x.
Proof. intros HI Hw. apply lookup_lt_is_Some_2. rewrite <- (oi_len _ _ _ HI). by eapply lookup_lt_Some. Qed.

(** If no thread is in the scheduler, what it claimed has been handed out. *)
Lemma no_pending K s :
  inv l0 T M K s -> (forall i t q, threads s !! i = Some (t, q) -> q = Ready \/ q = Left) -> pending_values l0 s = [].
Proof.
  intros _. unfold pending_values. induction (threads s) as [|[t q] xs IH]; intros Hq; [done|]. cbn.
  rewrite IH by (intros i t' q' Hi; by apply (Hq (S i) t')). by destruct (Hq 0%nat t q eq_refl) as [-> | ->].
Qed.

(** If all threads that are not finished wait, one of them has the ticket. *)
Lemma ticket_holder K E s i x hi :
  ord_inv K E s -> works s !! i = Some (Waiting x hi) ->
  (forall i t q, threads (base s) !! i = Some (t, q) -> q = Ready \/ q = Left) ->
  exists j w, works s !! j = Some w /\ v E ∈ work_values w.
Proof.
  intros HI Hw Hq. pose proof (oi_base _ _ _ HI) as HB. pose proof (oi_pos _ _ _ HI).
  destruct (works_thread K E s i _ HI Hw) as [xi Hi].
  destruct (oi_works _ _ _ HI i _ _ Hi Hw) as (_ & _ & a & c & Ha & Hr).
  destruct (head_ahead K E s i a c x hi _ HI Hw Ha Hr eq_refl) as [Hlt Hin].
  pose proof (inv_values _ _ _ _ _ HB) as Hv. rewrite (no_pending K) in Hv by done.
  rewrite app_nil_r, (oi_values _ _ _ HI) in Hv.
  assert (v a ∈ first l0 K) as HaK by (rewrite <- Hv, elem_of_app; right; apply elem_of_concat_index; by exists i, (Waiting x hi)).
  apply list_elem_of_fmap in HaK as (k & Ek%val_inj & Hk%elem_of_seqZ); [subst k|done].
  assert (v E ∈ first l0 K) as HEK by (apply list_elem_of_fmap; exists E; split; [done|]; apply elem_of_seqZ; lia).
  rewrite <- Hv, elem_of_app in HEK. destruct HEK as [(k & Ek%val_inj & Hk'%elem_of_seqZ)%list_elem_of_fmap|HEK]; [lia|done|].
  by apply elem_of_concat_index in HEK.
Qed.

Lemma holder_steps K E s j x hi :
  ord_inv K E s -> works s !! j = Some (Waiting x hi) -> v E ∈ work_values (Waiting x hi) -> can_step s.
Proof.
  intros HI Hw Hin. destruct (works_thread K E s j _ HI Hw) as [[t q] Hi].
  destruct (oi_works _ _ _ HI j _ _ Hi Hw) as (Hq & Htk & a & c & Ha & Hr). cbn [fst snd] in *. subst q.
  destruct (head_ahead K E s j a c x hi _ HI Hw Ha Hr eq_refl) as [Hlt _].
  cbn [work_values] in Hin. rewrite (range_values_eq p l0 T M Hstep Hne Hstart a c) in Hin by done.
  apply list_elem_of_fmap in Hin as (k & Ek%val_inj & Hk%elem_of_seqZ); [|done]. assert (a = E) as -> by lia.
  pose proof (range_of_Some _ _ _ _ Hr) as (_ & _ & [= -> _]).
  eexists. eapply ord_enter; [done|done|]. rewrite (proj1 (ordered_guard K _ j t (oi_base _ _ _ HI) Hi)).
  by rewrite (oi_serving _ _ _ HI), Htk, Z.eqb_refl.
Qed.

Definition wants_range (y : pmp_thread * pc * work) : bool :=
  bool_decide (snd y = Idle) && negb (bool_decide (snd (fst y) = Left)).

Lemma ordered_progress K E s i x w :
  ord_inv K E s -> threads (base s) !! i = Some x -> works s !! i = Some w -> ~ finished x w -> can_step s.
Proof.
  intros HI Hi Hw Hnf.
  destruct (find_index (fun w => is_inside w =? 1) (works s)) as [(j & wj & Hj & Hin)|Hout].
  { destruct wj as [| |y hi]; try done. destruct (works_thread K E s j _ HI Hj) as [[t q] Hxj].
    destruct (inside_steps K E s j t q y hi HI Hxj Hj) as [[l' t'] Hs]. eexists. by eapply ord_exit. }
  destruct (find_index wants_range (zip (threads (base s)) (works s)))
    as [(j & [[t q] wj] & Hj & Hwant)|Hnone].
  { apply lookup_zip_with_Some in Hj as (x1 & w1 & [= <- <-] & Hxj & Hwj).
    unfold wants_range in Hwant. cbn [fst snd] in Hwant.
    apply andb_true_iff in Hwant as [->%bool_decide_eq_true Hq%negb_true_iff%bool_decide_eq_false]. by eapply idle_steps. }
  assert (forall j t q wj, threads (base s) !! j = Some (t, q) -> works s !! j = Some wj -> wj = Idle -> q = Left) as Hidle.
  { intros j t q wj Hxj Hwj ->. specialize (Hnone j ((t, q), Idle)). unfold wants_range in Hnone. cbn [fst snd] in Hnone.
    rewrite bool_decide_eq_true_2 in Hnone by done. destruct (bool_decide_reflect (q = Left)); [done|].
    discriminate Hnone. apply lookup_zip_with_Some. by exists (t, q), Idle. }
  assert (forall j t q, threads (base s) !! j = Some (t, q) -> q = Ready \/ q = Left) as Hq.
  { intros j t q Hxj. destruct (lookup_lt_is_Some_2 (works s) j) as [wj Hwj];
      [rewrite (oi_len _ _ _ HI); by eapply lookup_lt_Some|].
    destruct wj as [|y hi|y hi]; [right; by eapply Hidle| |by specialize (Hout j _ Hwj)].
    left. apply (oi_works _ _ _ HI j _ _ Hxj Hwj). }
  destruct x as [t q]. destruct w as [|y hi|y hi]; [destruct Hnf; split; [by eapply Hidle|done]| |by specialize (Hout i _ Hw)].
  destruct (ticket_holder K E s i y hi HI Hw Hq) as (j & wj & Hj & Hin).
  destruct wj as [|z hz|z hz]; [by apply not_elem_of_nil in Hin|by eapply holder_steps|by specialize (Hout j _ Hj)].
Qed.

(** All threads are about to ask for their first range. *)
Record ordered_start (s : ordered_team) : Prop := {
  os_team : team_start l0 T (base s);
  os_serving : now_serving l0 = lower l0;
  os_works : works s = replicate (length (threads (base s))) Idle;
  os_log : log s = []
}.

Lemma total_replicate {A} (f : A -> Z) m a : f a = 0 -> total f (replicate m a) = 0.
Proof. intros Ha. rewrite (total_eq f 0); [lia|]. by intros i x [-> _]%lookup_replicate. Qed.

Lemma ordered_start_inv s : ordered_start s -> ord_inv 0 0 s.
Proof.
  intros [Ht Hsv Hw Hlog]. pose proof (inv_start p l0 T M Hstep Hne Hstart (base s) Ht) as HB.
  assert (forall m, concat (work_values <$> replicate m Idle) = []) as Hrep by (induction m; [done|by cbn]).
  split; [done|lia| | | | | |]; rewrite ?Hw, ?total_replicate by done; try done.
  - by rewrite length_replicate.
  - rewrite (init_shared _ _ _ Ht), Hsv. unfold val. lia.
  - by intros i x w _ [-> _]%lookup_replicate.
  - unfold works_values. rewrite Hw, Hrep. unfold handed_values. by rewrite (init_handed _ _ _ Ht).
Qed.

Lemma ord_potential_nonneg K E s : ord_inv K E s -> 0 <= ord_potential K E s /\ E <= n.
Proof.
  intros HI. pose proof (size_pos _ _ _ Hstep Hne). pose proof (oi_inside _ _ _ HI).
  assert (0 <= total (fun x => rank l0 (snd x)) (threads (base s))) by (apply total_nonneg; intros x; apply rank_nonneg).
  destruct (first_prefix l0 Hstep Hne K (inv_pos _ _ _ _ _ (oi_base _ _ _ HI))) as [rest Hrest].
  pose proof (inv_values _ _ _ _ _ (oi_base _ _ _ HI)) as Hv. rewrite (oi_values _ _ _ HI) in Hv.
  apply (f_equal length) in Hrest. apply Permutation_length in Hv. revert Hrest Hv. unfold iterations.
  rewrite !length_app, !length_fmap, !length_seqZ. pose proof (oi_pos _ _ _ HI). intros Hrest Hv.
  split; [|lia]. unfold ord_potential, potential. destruct (Z.eq_dec E n) as [->|]; [|lia].
  assert (total is_inside (works s) <= 0); [|lia]. destruct (Z.lt_ge_cases 0 (total is_inside (works s))) as [Hp|]; [|lia].
  exfalso. apply total_pos in Hp as (j & wj & Hj & Hp); [|intros; apply inside_range'].
  destruct wj as [| |y hi]; simpl in Hp; try lia. destruct (works_thread K n s j _ HI Hj) as [xj Hxj].
  destruct (oi_works _ _ _ HI j _ _ Hxj Hj) as (_ & _ & _ & c & (Hlt & _)%range_of_Some). lia.
Qed.

Lemma ordered_prefix K E s :
  ord_inv K E s ->
  exists rest, (v <$> seqZ 0 (E + total is_inside (works s))) ++ rest = iterations (lower l0) (upper l0) (inc l0).
Proof.
  intros HI. destruct (ord_potential_nonneg K E s HI) as [_ HE]. pose proof (oi_pos _ _ _ HI) as HE0.
  assert (0 <= total is_inside (works s)) as HJ0 by (apply total_nonneg; intros; apply inside_range').
  set (J := total is_inside (works s)) in *.
  assert (E + J <= n).
  { destruct (Z.lt_ge_cases 0 J) as [Hp|]; [|lia]. pose proof (oi_inside _ _ _ HI).
    unfold J in *. apply total_pos in Hp as (j & wj & Hj & Hp); [|intros; apply inside_range'].
    destruct wj as [| |y hi]; simpl in Hp; try lia. destruct (works_thread K E s j _ HI Hj) as [xj Hxj].
    destruct (oi_works _ _ _ HI j _ _ Hxj Hj) as (_ & _ & _ & c & (Hlt & _)%range_of_Some). lia. }
  exists (v <$> seqZ (E + J) (n - (E + J))). unfold iterations. rewrite <- fmap_app. f_equal.
  rewrite <- (Z.add_0_l (E + J)) at 2. rewrite <- seqZ_app by lia. f_equal. lia.
Qed.

Lemma ordered_complete K E s :
  ord_inv K E s -> (forall i x w, threads (base s) !! i = Some x -> works s !! i = Some w -> finished x w) ->
  v <$> seqZ 0 (E + total is_inside (works s)) = iterations (lower l0) (upper l0) (inc l0).
Proof.
  intros HI Hall. pose proof (oi_base _ _ _ HI) as HB. pose proof (oi_pos _ _ _ HI) as HE0.
  assert (forall i w, works s !! i = Some w -> w = Idle) as Hidle.
  { intros i w Hw. destruct (works_thread K E s i w HI Hw) as [x Hx]. by destruct (Hall i x w Hx Hw). }
  assert (forall i x, threads (base s) !! i = Some x -> snd x = Left) as Hleft.
  { intros i x Hx. destruct (lookup_lt_is_Some_2 (works s) i) as [w Hw];
      [rewrite (oi_len _ _ _ HI); by eapply lookup_lt_Some|]. by destruct (Hall i x w Hx Hw). }
  rewrite (total_eq is_inside 0) by (intros i w Hw; by rewrite (Hidle i w Hw)).
  destruct (all_left p l0 T M Hstart K (base s) HB Hleft) as (Hp & _ & HK).
  pose proof (inv_values _ _ _ _ _ HB) as Hv. rewrite Hp, app_nil_r, (oi_values _ _ _ HI), (first_all l0) in Hv by done.
  assert (works_values s = []) as Hwv.
  { unfold works_values. clear - Hidle. induction (works s) as [|w ws IH]; [done|]. cbn.
    rewrite (Hidle 0%nat w eq_refl), IH; [done|]. intros i w' Hw. by apply (Hidle (S i)). }
  rewrite Hwv, app_nil_r in Hv. apply Permutation_length in Hv. revert Hv. unfold iterations.
  rewrite !length_fmap, !length_seqZ. pose proof (size_pos _ _ _ Hstep Hne). intros Hv. f_equal. f_equal. lia.
Qed.

Lemma start_potential s : ordered_start s -> ord_potential 0 0 s <= 10 * n + 4 * T.
Proof.
  intros [Ht _ Hw _]. pose proof (size_pos _ _ _ Hstep Hne). unfold ord_potential, potential.
  rewrite (total_start l0 T (rank l0) 4 Ht eq_refl), Hw, total_replicate by done. lia.
Qed.
End Ordered.

(** C9. Ordered sections run in the order of the iterations, one at a time,
    without deadlock.  For a dynamic or guided ordered schedule whose iterations
    have one ordered section each, in every interleaving: the sections entered so
    far are those of the first iterations, in their order; at most one thread is
    inside a section, and it leaves it without failing an assertion; as long as
    a thread is not finished, some thread can take a step although others wait
    for their ticket; an execution has at most ten steps per iteration and four
    per thread; and when all threads are finished, the sections have run in
    exactly the order of the sequential loop. *)
Theorem omp_ordered_sections p l0 T M s0 s k
    (Hstep : inc l0 <> 0) (Hne : loop_le (inc l0) (lower l0) (upper l0) = true)
    (Hstart : loop_start p l0 T M) (HT : 1 < T) (Hord : PMP_SCHED_ORDERED_OFFSET < sched l0)
    (Hs0 : ordered_start l0 T s0) (Hs : nsteps (ordered_step p T) k s0 s) :
  let its := iterations (lower l0) (upper l0) (inc l0) in
  (exists rest, log s ++ rest = its) /\
  (forall i j x y hx hy, works s !! i = Some (Inside x hx) -> works s !! j = Some (Inside y hy) -> i = j) /\
  (forall i t q x hi, threads (base s) !! i = Some (t, q) -> works s !! i = Some (Inside x hi) ->
     exists r, __ompc_end_ordered T (shared (base s)) t = Ok r) /\
  (forall i x w, threads (base s) !! i = Some x -> works s !! i = Some w -> ~ finished x w -> can_step p T s) /\
  Z.of_nat k <= 10 * size (lower l0) (upper l0) (inc l0) + 4 * T /\
  ((forall i x w, threads (base s) !! i = Some x -> works s !! i = Some w -> finished x w) -> log s = its).
Proof.
  intros its. pose proof (size_pos _ _ _ Hstep Hne) as Hn.
  pose proof (ordered_start_inv p l0 T M Hstep Hne Hstart s0 Hs0) as H0.
  destruct (ordered_steps_inv p l0 T M Hstep Hne Hstart HT Hord k 0 0 s0 s H0 Hs) as (K & E & HI & Hp).
  destruct (ord_potential_nonneg l0 T M Hstep Hne K E s HI) as [Hpos HE].
  pose proof (oi_log _ _ _ _ _ _ HI) as Hlog.
  pose proof (oi_inside _ _ _ _ _ _ HI) as HJ.
  split; [|split; [|split; [|split; [|split]]]].
  - rewrite Hlog. apply (ordered_prefix l0 T M Hstep Hne K E s HI).
  - intros i j x y hx hy Hi Hj. destruct (decide (i = j)) as [|Hij]; [done|].
    pose proof (total_two is_inside _ i j _ _ (fun w => proj1 (inside_range' w)) Hij Hi Hj). cbn [is_inside] in *. lia.
  - intros i t q x hi. by apply (inside_steps l0 T M HT Hord K E).
  - intros i x w. by apply (ordered_progress p l0 T M Hstep Hne Hstart HT Hord K E).
  - pose proof (start_potential l0 T Hstep Hne s0 Hs0). lia.
  - intros Hall. rewrite Hlog. by apply (ordered_complete p l0 T M Hstep Hne Hstart K E s HI).
Qed.

(** An executable interleaving: the threads that move, in order; a thread that
    waits for its ticket or is finished stays where it is. *)
Definition ordered_move (p : pmp_param) (T : Z) (i : nat) (s : ordered_team) : option ordered_team :=
  match threads (base s) !! i, works s !! i with
  | Some (t, q), Some Idle =>
      match thread_step p T (shared (base s)) t q with
      | Ok (l', t', q', r) =>
          Some (mkOrdered (put (base s) i (l', t', q', r))
            (<[i := match r with Some (lo, hi) => next_work (inc (shared (base s))) lo hi | None => Idle end]> (works s))
            (log s))
      | Err _ => None
      end
  | Some (t, _), Some (Waiting v hi) =>
      match __ompc_ordered T (shared (base s)) t with
      | Some _ => Some (mkOrdered (base s) (<[i := Inside v hi]> (works s)) (log s ++ [v]))
      | None => None
      end
  | Some (t, q), Some (Inside v hi) =>
      match __ompc_end_ordered T (shared (base s)) t with
      | Ok (l', t') =>
          Some (mkOrdered (put (base s) i (l', t', q, None))
            (<[i := next_work (inc (shared (base s))) (v + inc (shared (base s))) hi]> (works s)) (log s))
      | Err _ => None
      end
  | _, _ => None
  end.

Definition run_ordered (p : pmp_param) (T : Z) (trace : list nat) (s : ordered_team) : ordered_team :=
  foldl (fun s i => default s (ordered_move p T i s)) s trace.

Lemma ordered_move_step p T i s s' : ordered_move p T i s = Some s' -> ordered_step p T s s'.
Proof.
  unfold ordered_move. destruct (threads (base s) !! i) as [[t q]|] eqn:Ei; [|done].
  destruct (works s !! i) as [[|v hi|v hi]|] eqn:Ew; [| | |done].
  - destruct (thread_step _ _ _ _ _) as [[[[l' t'] q'] r]|] eqn:Es; [|done]. intros [= <-]. by eapply ord_schedule.
  - destruct (__ompc_ordered _ _ _) as [[]|] eqn:Es; [|done]. intros [= <-]. by eapply ord_enter.
  - destruct (__ompc_end_ordered _ _ _) as [[l' t']|] eqn:Es; [|done]. intros [= <-]. by eapply ord_exit.
Qed.

Lemma run_ordered_steps p T trace s : rtc (ordered_step p T) s (run_ordered p T trace s).
Proof.
  revert s. induction trace as [|i trace IH]; intros s; [done|]. cbn.
  destruct (ordered_move p T i s) as [s'|] eqn:Es; cbn; [|by apply IH].
  eapply rtc_l; [by eapply ordered_move_step|]. apply IH.
Qed.

(** Two threads run an ordered guided loop over 1, 3, 5, 7, 9, 11, 13; the second
    one claims the later range first and has to wait. *)
Definition ordered_loop : pmp_loop := loop_setup 6 2 PMP_SCHED_ORDERED_GUIDED 1 13 2 3 1.
Definition ordered_demo : ordered_team :=
  mkOrdered (mkTeam ordered_loop [(mkThread 0 0 0 7 true, Ready); (mkThread 1 0 0 7 true, Ready)] []) [Idle; Idle] [].
Definition ordered_trace : list nat := concat (replicate 25 [0; 1; 1]%nat).
Definition ordered_end : ordered_team := run_ordered demo_param 2 ordered_trace ordered_demo.

Lemma ordered_demo_start :
  loop_start demo_param ordered_loop 2 3 /\ ordered_start ordered_loop 2 ordered_demo.
Proof.
  assert (size 1 13 2 = 7) as Hsize by done. split.
  - split; unfold ordered_loop, loop_setup; simpl; rewrite ?Hsize; unfold in_s, val; try lia; try done. by right.
  - split; [|done|done|done]. split; [done|done| |done]. intros i x Hi.
    destruct i as [|[|i]]; simplify_eq/=; (split; [|done]); (split; [done|]); (split; [simpl; lia|done]).
Qed.

Lemma omp_ordered_sections_witness :
  handed (base ordered_end) = [(1%nat, (1, 5)); (0%nat, (7, 11)); (1%nat, (13, 13))] /\
  log ordered_end = [1; 3; 5; 7; 9; 11; 13].
Proof.
  split; [by vm_compute|]. destruct ordered_demo_start as [Hl Ht].
  destruct (proj1 (rtc_nsteps _ _) (run_ordered_steps demo_param 2 ordered_trace ordered_demo)) as [k Hk].
  destruct (omp_ordered_sections demo_param ordered_loop 2 3 ordered_demo ordered_end k) as (_ & _ & _ & _ & _ & H);
    [done|done|exact Hl|lia|done|exact Ht|exact Hk|].
  rewrite H; [by vm_compute|].
  clear. intros i x w Hi Hw. destruct i as [|[|i]]; vm_compute in Hi, Hw; [| |discriminate Hi];
    injection Hi as <-; injection Hw as <-; split; reflexivity.
Defined.
