(* ===== verification/OmpEvents.v ===== *)
(** Teams of OpenMP threads with events: the specification of [libopenmp/thread.c].

    A team runs [R] parallel regions.  In each of them the master forks, every
    thread executes the constructs [prog], and the workers join the master.  In
    [libopenmp] a thread waits for another one with the hand-shake of
    [__pmp_thread_wait] and [__pmp_thread_wake] on a status word and a signal; here
    each thread has an event, a flag that is raised for it and that it takes
    down when it goes on.  [OmpTeam] has the code, [OmpTeamInv] shows that its
    steps are steps of this system. *)
From Stdlib Require Import ZArith Lia Bool.
From stdpp Require Import prelude list relations.
From S2P Require Import Prelude.

(** What the threads of a team do together: [__ompc_barrier], or a
    [__ompc_single] without a barrier. *)
Inductive construct : Type := Barrier | Single.

#[export] Instance construct_eq_dec : EqDecision construct.
Proof. solve_decision. Defined.

(** Where a thread is.  Workers: [Ready] between regions, [WakesMaster] when it was
    the last to join.  Master: [Serial] between regions, [Forks k] when the
    workers below [k] are awake, [Joins] and [AtJoin] at the join, [Joined] behind
    it.  Both: [Run] at the next construct, [AtBarrier] waiting, [Resets] and
    [Releases k] the last thread at a barrier. *)
Inductive place : Type :=
| Ready | WakesMaster | Run | AtBarrier | Resets | Releases (k : nat)
| Serial | Forks (k : nat) | Joins | AtJoin | Joined.

#[export] Instance place_eq_dec : EqDecision place.
Proof. solve_decision. Defined.

(** [flag]: the thread's event is raised; [region]: the regions it has finished;
    [done]: the constructs of this region it has finished. *)
Record ethread : Type := mkE { at_ : place; flag : bool; region : nat; done : nat }.

Record estate : Type := mkES { e_working : Z; e_barrier : Z; e_threads : list ethread }.

Definition raise_flag (x : ethread) : ethread := mkE (at_ x) true (region x) (done x).

Section Events.
Context (T : nat) (prog : list construct) (R : nat).

(** A step of thread [i]; the last argument is the state after it. *)
Inductive estep (s : estate) (i : nat) : estate -> Prop :=
| e_fork r :
    i = 0%nat -> e_threads s !! i = Some (mkE Serial false r 0) -> (r < R)%nat ->
    estep s i (mkES (Z.of_nat T) (Z.of_nat T) (<[i := mkE (Forks 1) false r 0]> (e_threads s)))
| e_fork_wake k f r d x :
    e_threads s !! i = Some (mkE (Forks k) f r d) -> e_threads s !! k = Some x -> (k < T)%nat ->
    estep s i (mkES (e_working s) (e_barrier s)
                 (<[i := mkE (Forks (S k)) f r d]> (<[k := raise_flag x]> (e_threads s))))
| e_fork_done f r d :
    e_threads s !! i = Some (mkE (Forks T) f r d) ->
    estep s i (mkES (e_working s) (e_barrier s) (<[i := mkE Run f r d]> (e_threads s)))
| e_start r d :
    e_threads s !! i = Some (mkE Ready true r d) ->
    estep s i (mkES (e_working s) (e_barrier s) (<[i := mkE Run false r d]> (e_threads s)))
| e_arrive f r d :
    e_threads s !! i = Some (mkE Run f r d) -> prog !! d = Some Barrier -> (1 < T)%nat -> 1 < e_barrier s ->
    estep s i (mkES (e_working s) (e_barrier s - 1) (<[i := mkE AtBarrier f r d]> (e_threads s)))
| e_last f r d :
    e_threads s !! i = Some (mkE Run f r d) -> prog !! d = Some Barrier -> (1 < T)%nat -> e_barrier s = 1 ->
    estep s i (mkES (e_working s) 0 (<[i := mkE Resets f r d]> (e_threads s)))
| e_reset f r d :
    e_threads s !! i = Some (mkE Resets f r d) ->
    estep s i (mkES (e_working s) (Z.of_nat T) (<[i := mkE (Releases 0) f r d]> (e_threads s)))
| e_release k f r d x :
    e_threads s !! i = Some (mkE (Releases k) f r d) -> e_threads s !! k = Some x -> (k < T)%nat -> k <> i ->
    estep s i (mkES (e_working s) (e_barrier s)
                 (<[i := mkE (Releases (S k)) f r d]> (<[k := raise_flag x]> (e_threads s))))
| e_release_skip f r d :
    e_threads s !! i = Some (mkE (Releases i) f r d) ->
    estep s i (mkES (e_working s) (e_barrier s) (<[i := mkE (Releases (S i)) f r d]> (e_threads s)))
| e_released f r d :
    e_threads s !! i = Some (mkE (Releases T) f r d) ->
    estep s i (mkES (e_working s) (e_barrier s) (<[i := mkE Run f r (S d)]> (e_threads s)))
| e_leave r d :
    e_threads s !! i = Some (mkE AtBarrier true r d) ->
    estep s i (mkES (e_working s) (e_barrier s) (<[i := mkE Run false r (S d)]> (e_threads s)))
| e_pass c f r d :
    e_threads s !! i = Some (mkE Run f r d) -> prog !! d = Some c -> c = Single \/ T = 1%nat ->
    estep s i (mkES (e_working s) (e_barrier s) (<[i := mkE Run f r (S d)]> (e_threads s)))
| e_join f r :
    i <> 0%nat -> e_threads s !! i = Some (mkE Run f r (length prog)) -> 1 < e_working s ->
    estep s i (mkES (e_working s - 1) (e_barrier s) (<[i := mkE Ready f (S r) 0]> (e_threads s)))
| e_join_last f r :
    i <> 0%nat -> e_threads s !! i = Some (mkE Run f r (length prog)) -> e_working s = 1 ->
    estep s i (mkES 0 (e_barrier s) (<[i := mkE WakesMaster f (S r) 0]> (e_threads s)))
| e_wake_master f r d x :
    i <> 0%nat -> e_threads s !! i = Some (mkE WakesMaster f r d) -> e_threads s !! 0%nat = Some x ->
    estep s i (mkES (e_working s) (e_barrier s)
                 (<[i := mkE Ready f r d]> (<[0%nat := raise_flag x]> (e_threads s))))
| e_master_end f r :
    i = 0%nat -> e_threads s !! i = Some (mkE Run f r (length prog)) ->
    estep s i (mkES (e_working s) (e_barrier s) (<[i := mkE Joins f r (length prog)]> (e_threads s)))
| e_master_last f r d :
    e_threads s !! i = Some (mkE Joins f r d) -> e_working s = 1 ->
    estep s i (mkES 0 (e_barrier s) (<[i := mkE Joined f r d]> (e_threads s)))
| e_master_wait f r d :
    e_threads s !! i = Some (mkE Joins f r d) -> 1 < e_working s ->
    estep s i (mkES (e_working s - 1) (e_barrier s) (<[i := mkE AtJoin f r d]> (e_threads s)))
| e_joined r d :
    e_threads s !! i = Some (mkE AtJoin true r d) ->
    estep s i (mkES (e_working s) (e_barrier s) (<[i := mkE Joined false r d]> (e_threads s)))
| e_end f r d :
    e_threads s !! i = Some (mkE Joined f r d) ->
    estep s i (mkES (e_working s) (e_barrier s) (<[i := mkE Serial f (S r) 0]> (e_threads s))).

Definition e_start_state : estate :=
  mkES 0 0 (mkE Serial false 0 0 :: replicate (T - 1) (mkE Ready false 0 0)).

Definition ereach (s s' : estate) : Prop := exists i, estep s i s'.
End Events.
