(* ===== verification/OmpEventsInv.v ===== *)
(** The invariant of a team of threads with events ([OmpEvents]).

    All threads of a region have arrived at [m] barriers, or at [m] and are on
    their way through the next; the gate of a barrier is open, or the last thread
    to arrive opens it for one thread after the other; [working] counts the
    threads that are not through with the region. *)
From Stdlib Require Import ZArith Lia Bool.
From stdpp Require Import prelude list relations.
From S2P Require Import Prelude OmpEvents.

Section Events.
Context (T : nat) (prog : list construct) (R : nat).

(** ** The invariant *)

(** The barriers among the first [c] constructs. *)
Definition bars (c : nat) : nat := length (filter (eq Barrier) (take c prog)).

(** At how many barriers of region [r] a thread has arrived, and which it has left. *)
Definition at_barrier (p : place) : nat :=
  match p with AtBarrier | Resets | Releases _ => 1 | _ => 0 end.
Definition arrived (r : nat) (x : ethread) : nat :=
  if decide (region x = r) then (bars (done x) + at_barrier (at_ x))%nat else bars (length prog).
Definition passed (r : nat) (x : ethread) : nat :=
  if decide (region x = r) then bars (done x) else bars (length prog).

(** The last thread at a barrier, until it has released the others. *)
Inductive gate : Type := Open | Resetting (l : nat) | Releasing (l k : nat).

Definition held (g : gate) (j : nat) : bool :=
  match g with
  | Open => false
  | Resetting l => negb (l =? j)%nat
  | Releasing l k => negb (l =? j)%nat && (k <=? j)%nat
  end.

(** Thread [j] takes part in the region when the master is at [p]. *)
Definition started (p : place) (j : nat) : bool :=
  match p with Serial => false | Forks k => (j <? k)%nat | _ => true end.

(** What holds of thread [j] when [m] is the number of barriers that all threads have
    arrived at and the master is at [p], in region [r]. *)
Definition place_ok (m : nat) (g : gate) (r : nat) (p : place) (j : nat) (x : ethread) : Prop :=
  match at_ x with
  | Ready => j <> 0%nat /\ held g j = false /\ done x = 0%nat /\
      (region x = r /\ flag x = started p j \/ region x = S r /\ flag x = false /\ started p j = true)
  | WakesMaster => j <> 0%nat /\ held g j = false /\ done x = 0%nat /\ region x = S r /\ flag x = false /\ p = AtJoin
  | Run => held g j = false /\ flag x = false /\ region x = r /\ (done x <= length prog)%nat /\ started p j = true
  | AtBarrier => region x = r /\ started p j = true /\ prog !! done x = Some Barrier /\
      (flag x = true -> held g j = false)
  | Resets => g = Resetting j /\ flag x = false /\ region x = r /\ started p j = true /\ prog !! done x = Some Barrier
  | Releases k => g = Releasing j k /\ (k <= T)%nat /\ flag x = false /\ region x = r /\ started p j = true /\
      prog !! done x = Some Barrier
  | Serial => j = 0%nat /\ held g j = false /\ flag x = false /\ done x = 0%nat
  | Forks k => j = 0%nat /\ held g j = false /\ flag x = false /\ done x = 0%nat /\ (1 <= k <= T)%nat
  | Joins | Joined => j = 0%nat /\ held g j = false /\ flag x = false /\ done x = length prog
  | AtJoin => j = 0%nat /\ held g j = false /\ done x = length prog
  end.

Definition level (m : nat) (g : gate) (j : nat) (x : ethread) : nat :=
  match at_ x with
  | AtBarrier => if flag x || held g j then m else S m
  | _ => m
  end.

Record thread_ok (m : nat) (g : gate) (r : nat) (p : place) (j : nat) (x : ethread) : Prop := {
  ok_place : place_ok m g r p j x;
  ok_level : arrived r x = level m g j x
}.

Definition waiting_for (m r : nat) (x : ethread) : Z := if decide (arrived r x = m) then 1 else 0.
Definition unjoined (r : nat) (x : ethread) : Z :=
  if decide (region x = r) then match at_ x with AtJoin | Joined | Serial => 0 | _ => 1 end else 0.
Definition wakes_master (x : ethread) : Z := match at_ x with WakesMaster => 1 | _ => 0 end.

Definition gate_ok (g : gate) (ths : list ethread) : Prop :=
  match g with
  | Open => True
  | Resetting l => exists x, ths !! l = Some x /\ at_ x = Resets
  | Releasing l k => exists x, ths !! l = Some x /\ at_ x = Releases k
  end.

Definition barrier_count_of (m : nat) (g : gate) (r : nat) (ths : list ethread) : Z :=
  match g with Resetting _ => 0 | _ => total (waiting_for m r) ths end.

Record einv (m : nat) (g : gate) (x0 : ethread) (s : estate) : Prop := {
  ei_length : length (e_threads s) = T;
  ei_master : e_threads s !! 0%nat = Some x0;
  ei_threads : forall j x, e_threads s !! j = Some x -> thread_ok m g (region x0) (at_ x0) j x;
  ei_gate : gate_ok g (e_threads s);
  ei_barrier : at_ x0 = Serial \/ e_barrier s = barrier_count_of m g (region x0) (e_threads s);
  ei_least : 0 < total (waiting_for m (region x0)) (e_threads s);
  ei_working : e_working s = if decide (at_ x0 = Serial) then 0 else total (unjoined (region x0)) (e_threads s);
  ei_wakers : total wakes_master (e_threads s) =
              if decide (at_ x0 = AtJoin /\ e_working s = 0 /\ flag x0 = false) then 1 else 0;
  ei_woken : at_ x0 = Joined \/ at_ x0 = AtJoin /\ flag x0 = true -> e_working s = 0;
  ei_region : (region x0 <= R)%nat /\ (at_ x0 = Serial \/ (region x0 < R)%nat)
}.

Context (HT : (1 <= T)%nat).

Lemma bars_S c k : prog !! c = Some k -> bars (S c) = (bars c + if decide (k = Barrier) then 1 else 0)%nat.
Proof.
  intros H. unfold bars. rewrite (take_S_r _ _ _ H), filter_app, length_app, filter_cons, filter_nil.
  by repeat case_decide; subst.
Qed.

Lemma waiting_range m r x : 0 <= waiting_for m r x <= 1.
Proof. unfold waiting_for. case_decide; lia. Qed.
Lemma unjoined_range r x : 0 <= unjoined r x <= 1.
Proof. unfold unjoined. repeat case_match; lia. Qed.
Lemma wakes_range x : 0 <= wakes_master x <= 1.
Proof. unfold wakes_master. case_match; lia. Qed.

Lemma barrier_insert m g r ths i x x' :
  ths !! i = Some x ->
  barrier_count_of m g r (<[i := x']> ths) =
  match g with Resetting _ => 0 | _ => total (waiting_for m r) ths - waiting_for m r x + waiting_for m r x' end.
Proof. intros Hi. unfold barrier_count_of. by rewrite (total_insert _ _ _ _ _ Hi). Qed.

Lemma arrived_in r x : region x = r -> arrived r x = (bars (done x) + at_barrier (at_ x))%nat.
Proof. intros H. unfold arrived. by rewrite decide_True. Qed.
Lemma arrived_out r x : region x <> r -> arrived r x = bars (length prog).
Proof. intros H. unfold arrived. by rewrite decide_False. Qed.
Lemma waiting_eq m r x : arrived r x = m -> waiting_for m r x = 1.
Proof. intros H. unfold waiting_for. by rewrite decide_True. Qed.
Lemma waiting_ne m r x : arrived r x <> m -> waiting_for m r x = 0.
Proof. intros H. unfold waiting_for. by rewrite decide_False. Qed.

Lemma einv_insert m g x0 s i x x' m' g' x0' w' b' :
  einv m g x0 s -> e_threads s !! i = Some x ->
  x0' = (if decide (i = 0%nat) then x' else x0) -> region x0' = region x0 ->
  thread_ok m' g' (region x0) (at_ x0') i x' ->
  (forall j y, j <> i -> e_threads s !! j = Some y ->
     thread_ok m g (region x0) (at_ x0) j y -> thread_ok m' g' (region x0) (at_ x0') j y) ->
  gate_ok g' (<[i := x']> (e_threads s)) ->
  at_ x0' = Serial \/ b' = barrier_count_of m' g' (region x0) (<[i := x']> (e_threads s)) ->
  0 < total (waiting_for m' (region x0)) (<[i := x']> (e_threads s)) ->
  w' = (if decide (at_ x0' = Serial) then 0
        else total (unjoined (region x0)) (e_threads s) - unjoined (region x0) x + unjoined (region x0) x') ->
  total wakes_master (e_threads s) - wakes_master x + wakes_master x' =
    (if decide (at_ x0' = AtJoin /\ w' = 0 /\ flag x0' = false) then 1 else 0) ->
  (at_ x0' = Joined \/ at_ x0' = AtJoin /\ flag x0' = true -> w' = 0) ->
  at_ x0' = Serial \/ (region x0 < R)%nat ->
  einv m' g' x0' (mkES w' b' (<[i := x']> (e_threads s))).
Proof.
  intros HI Hi Hx0 Hr Hx Hy Hg Hb Hl Hw Hk Hf HR. pose proof (lookup_lt_Some _ _ _ Hi) as Hlt.
  split; cbn [e_working e_barrier e_threads]; rewrite ?Hr; try done.
  - rewrite length_insert. apply HI.
  - destruct (decide (i = 0%nat)) as [E|E]; subst x0'; [subst i; by rewrite list_lookup_insert_eq|].
    rewrite list_lookup_insert_ne by done. apply HI.
  - intros j y Hj. destruct (decide (j = i)) as [->|Hne].
    + rewrite list_lookup_insert_eq in Hj by done. by injection Hj as <-.
    + rewrite list_lookup_insert_ne in Hj by done. apply Hy; [done|done|]. by apply HI.
  - by rewrite (total_insert _ _ _ _ _ Hi).
  - by rewrite (total_insert _ _ _ _ _ Hi).
  - split; [apply HI|done].
Qed.

Definition gate_place (p : place) : bool :=
  match p with Resets | Releases _ => true | _ => false end.

Lemma gate_ok_insert g ths i x x' :
  ths !! i = Some x -> gate_place (at_ x) = false -> gate_ok g ths -> gate_ok g (<[i := x']> ths).
Proof.
  intros Hi Hx. destruct g as [|l|l k]; [done| |]; intros (y & Hl & Hy); exists y;
    (rewrite list_lookup_insert_ne; [done|]; intros ->; rewrite Hi in Hl; injection Hl as ->; by rewrite Hy in Hx).
Qed.

Lemma thread_ok_master m g r p p' j y :
  started p j = started p' j -> (at_ y = WakesMaster -> p' = AtJoin) ->
  thread_ok m g r p j y -> thread_ok m g r p' j y.
Proof.
  intros Hs Hw [Hp Hl]. split; [|done]. unfold place_ok in *. rewrite Hs in Hp. destruct (at_ y); try done.
  destruct Hp as (?&?&?&?&?&?). split_and!; try done. by apply Hw.
Qed.

(** Thread [i] moves, and the barrier's level and gate stay. *)
Lemma einv_move m g x0 s i x x' x0' w' b' :
  einv m g x0 s -> e_threads s !! i = Some x ->
  x0' = (if decide (i = 0%nat) then x' else x0) -> region x0' = region x0 ->
  thread_ok m g (region x0) (at_ x0') i x' ->
  (forall j, j <> i -> (j < T)%nat -> started (at_ x0) j = started (at_ x0') j) ->
  (at_ x0' <> AtJoin -> total wakes_master (e_threads s) = 0 \/ at_ x0 <> AtJoin) ->
  gate_place (at_ x) = false -> at_ x0 <> Serial -> at_ x0' <> Serial ->
  b' = e_barrier s - waiting_for m (region x0) x + waiting_for m (region x0) x' ->
  waiting_for m (region x0) x = waiting_for m (region x0) x' \/
    (forall l, g <> Resetting l) /\ 0 < total (waiting_for m (region x0)) (e_threads s) - 1 ->
  w' = e_working s - unjoined (region x0) x + unjoined (region x0) x' ->
  total wakes_master (e_threads s) - wakes_master x + wakes_master x' =
    (if decide (at_ x0' = AtJoin /\ w' = 0 /\ flag x0' = false) then 1 else 0) ->
  (at_ x0' = Joined \/ at_ x0' = AtJoin /\ flag x0' = true -> w' = 0) ->
  einv m g x0' (mkES w' b' (<[i := x']> (e_threads s))).
Proof.
  intros HI Hi Hx0 Hr Hx Hs Hk Hgx Hse Hse' Hb Hl Hw HK Hf.
  pose proof (waiting_range m (region x0) x). pose proof (waiting_range m (region x0) x').
  eapply (einv_insert m g x0 s i x x'); try done.
  - intros j y Hj Hy Hok. eapply thread_ok_master; [apply Hs; [done|]| |done].
    { rewrite <- (ei_length _ _ _ _ HI). by eapply lookup_lt_Some. } intros Hyw.
    destruct (decide (at_ x0' = AtJoin)) as [|Hne]; [done|]. destruct (Hk Hne) as [Hz|Hz].
    + pose proof (total_member wakes_master _ _ _ (fun x => proj1 (wakes_range x)) Hy) as Hm.
      unfold wakes_master at 1 in Hm. rewrite Hyw in Hm. lia.
    + destruct Hok as [Hp _]. unfold place_ok in Hp. rewrite Hyw in Hp. by destruct Hp as (_&_&_&_&_&?).
  - apply (gate_ok_insert g _ i x); [done|done|]. apply HI.
  - right. rewrite (barrier_insert _ _ _ _ _ _ _ Hi). destruct (ei_barrier _ _ _ _ HI) as [|Hb0]; [done|].
    rewrite Hb, Hb0. unfold barrier_count_of. destruct g as [|l|]; [lia| |lia]. destruct Hl as [|[Hl _]]; [lia|by destruct (Hl l)].
  - rewrite (total_insert _ _ _ _ _ Hi). pose proof (ei_least _ _ _ _ HI). destruct Hl as [|[_ Hl]]; lia.
  - rewrite decide_False by done. rewrite Hw, (ei_working _ _ _ _ HI). by rewrite decide_False by done.
  - right. by destruct (proj2 (ei_region _ _ _ _ HI)).
Qed.

Definition in_region (p : place) : bool :=
  match p with Run | AtBarrier | Resets | Releases _ => true | _ => false end.

Lemma in_region_ok m g r p j x :
  thread_ok m g r p j x -> in_region (at_ x) = true -> region x = r /\ started p j = true.
Proof.
  intros [Hp _] Hx. unfold place_ok in Hp. destruct (at_ x); try done; destruct_and?; by split.
Qed.

Lemma in_region_counts r x : in_region (at_ x) = true -> region x = r -> unjoined r x = 1 /\ wakes_master x = 0.
Proof. intros Hx Hr. unfold unjoined, wakes_master. rewrite decide_True by done. by destruct (at_ x). Qed.

Lemma master_is m g x0 s i x : einv m g x0 s -> e_threads s !! i = Some x -> i = 0%nat -> x = x0.
Proof. intros HI Hi ->. pose proof (ei_master _ _ _ _ HI). congruence. Qed.

(** Thread [i] makes a step within the region: to [x'], which is right for a master at
    [Run], as the master is in the region too. *)
Lemma einv_in_region m g x0 s i x x' m' g' b' :
  einv m g x0 s -> e_threads s !! i = Some x ->
  in_region (at_ x) = true -> in_region (at_ x') = true -> region x' = region x ->
  thread_ok m' g' (region x0) Run i x' ->
  (forall j y p, j <> i -> e_threads s !! j = Some y ->
     thread_ok m g (region x0) p j y -> thread_ok m' g' (region x0) p j y) ->
  gate_ok g' (<[i := x']> (e_threads s)) ->
  b' = barrier_count_of m' g' (region x0) (<[i := x']> (e_threads s)) ->
  0 < total (waiting_for m' (region x0)) (<[i := x']> (e_threads s)) ->
  einv m' g' (if decide (i = 0%nat) then x' else x0) (mkES (e_working s) b' (<[i := x']> (e_threads s))).
Proof.
  intros HI Hi Hx Hx' Hr Hok Hy Hg Hb Hl. pose proof (ei_threads _ _ _ _ HI _ _ Hi) as Hix.
  destruct (in_region_ok _ _ _ _ _ _ Hix Hx) as [Hrx Hs].
  destruct (in_region_counts (region x0) x Hx Hrx) as [Hu Hw].
  destruct (in_region_counts (region x0) x' Hx' ltac:(congruence)) as [Hu' Hw'].
  assert (at_ x0 <> Serial) as Hse by (intros E; by rewrite E in Hs).
  assert (in_region (at_ x0) = true \/ i <> 0%nat) as Hm.
  { destruct (decide (i = 0%nat)) as [E|E]; [left|by right]. by rewrite <- (master_is _ _ _ _ _ _ HI Hi E). }
  set (x0' := if decide (i = 0%nat) then x' else x0).
  assert (forall j, started (at_ x0) j = started (at_ x0') j) as Hst.
  { intros j. subst x0'. case_decide; [|done]. destruct Hm as [Hm|]; [|done]. destruct (at_ x0), (at_ x'); done. }
  assert (x0' = x0 \/ at_ x0 <> AtJoin /\ at_ x0' <> AtJoin /\ at_ x0' <> Joined /\ at_ x0' <> Serial) as Hx0.
  { subst x0'. case_decide; [right|by left]. destruct Hm as [Hm|]; [|done].
    split_and!; intros E; first [by rewrite E in Hx'|by rewrite E in Hm]. }
  apply (einv_insert m g x0 s i x x'); try done.
  - subst x0'. case_decide; [congruence|done].
  - apply (thread_ok_master m' g' _ Run); [by rewrite <- Hst| |done]. intros E. by rewrite E in Hx'.
  - intros j y Hne Hjy Hjok. apply (thread_ok_master m' g' _ (at_ x0)); [by rewrite Hst| |by eapply Hy].
    intros E. destruct Hx0 as [->|[Hx0 _]].
    + pose proof (ok_place _ _ _ _ _ _ Hjok) as Hp. unfold place_ok in Hp. rewrite E in Hp. by destruct Hp as (_&_&_&_&_&?).
    + destruct Hjok as [Hp _]. unfold place_ok in Hp. rewrite E in Hp. by destruct Hp as (_&_&_&_&_&?).
  - by right.
  - rewrite Hu, Hu', Z.sub_add, decide_False by (destruct Hx0 as [->|(_&_&_&?)]; done).
    rewrite (ei_working _ _ _ _ HI). by rewrite decide_False.
  - rewrite Hw, Hw', Z.sub_0_r, Z.add_0_r, (ei_wakers _ _ _ _ HI). destruct Hx0 as [->|(?&?&_)]; [done|].
    by rewrite !decide_False by tauto.
  - intros E. destruct Hx0 as [Ej|(_&?&?&_)]; [|tauto]. rewrite Ej in E. exact (ei_woken _ _ _ _ HI E).
  - right. by destruct (proj2 (ei_region _ _ _ _ HI)).
Qed.

Lemma einv_region m g x0 s i x x' b' :
  einv m g x0 s -> e_threads s !! i = Some x ->
  in_region (at_ x) = true -> in_region (at_ x') = true -> gate_place (at_ x) = false ->
  region x' = region x -> thread_ok m g (region x0) Run i x' ->
  b' = e_barrier s - waiting_for m (region x0) x + waiting_for m (region x0) x' ->
  waiting_for m (region x0) x = waiting_for m (region x0) x' \/
    (forall l, g <> Resetting l) /\ 0 < total (waiting_for m (region x0)) (e_threads s) - 1 ->
  einv m g (if decide (i = 0%nat) then x' else x0) (mkES (e_working s) b' (<[i := x']> (e_threads s))).
Proof.
  intros HI Hi Hx Hx' Hgx Hr Hok Hb Hl.
  pose proof (waiting_range m (region x0) x). pose proof (waiting_range m (region x0) x').
  apply (einv_in_region m g x0 s i x x'); try done.
  - apply (gate_ok_insert g _ i x); [done|done|]. apply HI.
  - rewrite (barrier_insert _ _ _ _ _ _ _ Hi). destruct (in_region_ok _ _ _ _ _ _ (ei_threads _ _ _ _ HI _ _ Hi) Hx) as [_ Hs].
    destruct (ei_barrier _ _ _ _ HI) as [E|Hb0]; [by rewrite E in Hs|].
    rewrite Hb, Hb0. unfold barrier_count_of. destruct g as [|l|]; [lia| |lia]. destruct Hl as [|[Hl _]]; [lia|by destruct (Hl l)].
  - rewrite (total_insert _ _ _ _ _ Hi). pose proof (ei_least _ _ _ _ HI). destruct Hl as [|[_ Hl]]; lia.
Qed.

Ltac place_at HI Hi :=
  let Hok := fresh "Hok" in let Hp := fresh "Hp" in let Hl := fresh "Hl" in
  pose proof (ei_threads _ _ _ _ HI _ _ Hi) as Hok;
  pose proof (ok_place _ _ _ _ _ _ Hok) as Hp; pose proof (ok_level _ _ _ _ _ _ Hok) as Hl;
  unfold place_ok in Hp; unfold level in Hl; cbn [at_ flag region done orb] in Hp, Hl.

Ltac arrivals := rewrite arrived_in by done; cbn [at_ done at_barrier]; try lia.

Lemma step_arrive m g x0 s i f r d :
  einv m g x0 s -> e_threads s !! i = Some (mkE Run f r d) -> prog !! d = Some Barrier -> 1 < e_barrier s ->
  exists x0', einv m g x0' (mkES (e_working s) (e_barrier s - 1) (<[i := mkE AtBarrier f r d]> (e_threads s))).
Proof.
  intros HI Hi Hd Hb. place_at HI Hi. destruct Hp as (Hh & -> & -> & _ & Hs). pose proof Hl as Hl'.
  rewrite arrived_in in Hl' by done. cbn [done at_ at_barrier] in Hl'.
  assert (arrived (region x0) (mkE AtBarrier false (region x0) d) = S m) as Ha by arrivals.
  assert (at_ x0 <> Serial) as Hse by (intros E; by rewrite E in Hs).
  destruct (ei_barrier _ _ _ _ HI) as [|Hb0]; [done|].
  eexists. apply (einv_region m g x0 s i _ _ _ HI Hi); try done.
  - split; [done|]. unfold level. cbn [at_ flag orb]. by rewrite Hh.
  - rewrite (waiting_eq _ _ _ Hl), waiting_ne by lia. lia.
  - right. unfold barrier_count_of in Hb0. destruct g; [|lia|]; (split; [done|lia]).
Qed.

Lemma step_leave_barrier m g x0 s i r d :
  einv m g x0 s -> e_threads s !! i = Some (mkE AtBarrier true r d) ->
  exists x0', einv m g x0' (mkES (e_working s) (e_barrier s) (<[i := mkE Run false r (S d)]> (e_threads s))).
Proof.
  intros HI Hi. place_at HI Hi. destruct Hp as (-> & Hs & Hd & Hh). specialize (Hh eq_refl). pose proof Hl as Hl'.
  rewrite arrived_in in Hl' by done. cbn [done at_ at_barrier] in Hl'.
  pose proof (bars_S d _ Hd) as HS. rewrite decide_True in HS by done. pose proof (lookup_lt_Some _ _ _ Hd).
  assert (arrived (region x0) (mkE Run false (region x0) (S d)) = m) as Ha by arrivals.
  eexists. apply (einv_region m g x0 s i _ _ _ HI Hi); try done.
  - rewrite !waiting_eq by done. lia.
  - left. by rewrite !waiting_eq by done.
Qed.

Lemma step_pass_single m g x0 s i f r d :
  einv m g x0 s -> e_threads s !! i = Some (mkE Run f r d) -> prog !! d = Some Single ->
  exists x0', einv m g x0' (mkES (e_working s) (e_barrier s) (<[i := mkE Run f r (S d)]> (e_threads s))).
Proof.
  intros HI Hi Hd. place_at HI Hi. destruct Hp as (Hh & -> & -> & _ & Hs). pose proof Hl as Hl'.
  rewrite arrived_in in Hl' by done. cbn [done at_ at_barrier] in Hl'.
  pose proof (bars_S d _ Hd) as HS. rewrite decide_False in HS by done. pose proof (lookup_lt_Some _ _ _ Hd).
  assert (arrived (region x0) (mkE Run false (region x0) (S d)) = m) as Ha by arrivals.
  eexists. apply (einv_region m g x0 s i _ _ _ HI Hi); try done.
  - rewrite !waiting_eq by done. lia.
  - left. by rewrite !waiting_eq by done.
Qed.

Lemma worker_master i (x x0 : ethread) : i <> 0%nat -> x0 = (if decide (i = 0%nat) then x else x0).
Proof. intros H. by rewrite decide_False. Qed.

Lemma step_start m g x0 s i r d :
  einv m g x0 s -> e_threads s !! i = Some (mkE Ready true r d) ->
  einv m g x0 (mkES (e_working s) (e_barrier s) (<[i := mkE Run false r d]> (e_threads s))).
Proof.
  intros HI Hi. place_at HI Hi. destruct Hp as (H0 & Hh & -> & [[-> Hs]|(_ & ? & _)]); [|done].
  assert (at_ x0 <> Serial) as Hse by (intros E; by rewrite E in Hs).
  apply (einv_move m g x0 s i (mkE Ready true (region x0) 0) (mkE Run false (region x0) 0)); try done.
  - by apply worker_master.
  - split; [cbn; split_and!; done || lia|done].
  - by right.
  - rewrite <- (Z.sub_add (waiting_for m (region x0) (mkE Ready true (region x0) 0)) (e_barrier s)) at 1. done.
  - by left.
  - unfold unjoined. cbn [at_ region]. rewrite decide_True by done. lia.
  - rewrite (ei_wakers _ _ _ _ HI). cbn [wakes_master at_]. lia.
  - apply HI.
Qed.

Lemma step_join m g x0 s i f r :
  einv m g x0 s -> i <> 0%nat -> e_threads s !! i = Some (mkE Run f r (length prog)) -> 1 < e_working s ->
  einv m g x0 (mkES (e_working s - 1) (e_barrier s) (<[i := mkE Ready f (S r) 0]> (e_threads s))).
Proof.
  intros HI H0 Hi Hw. place_at HI Hi. destruct Hp as (Hh & -> & -> & _ & Hs). pose proof Hl as Hl'.
  rewrite arrived_in in Hl' by done. cbn [done at_ at_barrier] in Hl'.
  assert (arrived (region x0) (mkE Ready false (S (region x0)) 0) = m) as Ha.
  { rewrite arrived_out by (cbn; lia). lia. }
  assert (at_ x0 <> Serial) as Hse by (intros E; by rewrite E in Hs).
  apply (einv_move m g x0 s i (mkE Run false (region x0) (length prog)) (mkE Ready false (S (region x0)) 0)); try done.
  - by apply worker_master.
  - split; [cbn; split_and!; try done; by right|done].
  - by right.
  - rewrite !waiting_eq by done. lia.
  - left. by rewrite !waiting_eq by done.
  - unfold unjoined. cbn [at_ region]. rewrite decide_True, decide_False by (done || lia). lia.
  - rewrite (ei_wakers _ _ _ _ HI). cbn [wakes_master at_]. rewrite !decide_False by lia. lia.
  - intros E. pose proof (ei_woken _ _ _ _ HI E). lia.
Qed.

(** The last worker to join finds the master waiting. *)
Lemma last_worker m g x0 s i x :
  einv m g x0 s -> i <> 0%nat -> e_threads s !! i = Some x -> unjoined (region x0) x = 1 ->
  at_ x0 <> Serial -> e_working s = 1 -> at_ x0 = AtJoin /\ flag x0 = false.
Proof.
  intros HI H0 Hi Hu Hse Hw. pose proof (ei_working _ _ _ _ HI) as Hw'. rewrite decide_False in Hw' by done.
  pose proof (total_two (unjoined (region x0)) _ _ _ _ _ (fun x => proj1 (unjoined_range _ x)) H0 Hi (ei_master _ _ _ _ HI)) as H2.
  assert (unjoined (region x0) x0 = 0) as Hz by (pose proof (unjoined_range (region x0) x0); lia).
  pose proof (ei_woken _ _ _ _ HI) as Hk. unfold unjoined in Hz. rewrite decide_True in Hz by done.
  destruct (at_ x0); try done; [|rewrite Hk in Hw; [done|by left]].
  split; [done|]. destruct (flag x0); [|done]. rewrite Hk in Hw; [done|by right].
Qed.

Lemma step_join_last m g x0 s i f r :
  einv m g x0 s -> i <> 0%nat -> e_threads s !! i = Some (mkE Run f r (length prog)) -> e_working s = 1 ->
  einv m g x0 (mkES 0 (e_barrier s) (<[i := mkE WakesMaster f (S r) 0]> (e_threads s))).
Proof.
  intros HI H0 Hi Hw. place_at HI Hi. destruct Hp as (Hh & -> & -> & _ & Hs). pose proof Hl as Hl'.
  rewrite arrived_in in Hl' by done. cbn [done at_ at_barrier] in Hl'.
  assert (arrived (region x0) (mkE WakesMaster false (S (region x0)) 0) = m) as Ha.
  { rewrite arrived_out by (cbn; lia). lia. }
  assert (at_ x0 <> Serial) as Hse by (intros E; by rewrite E in Hs).
  assert (unjoined (region x0) (mkE Run false (region x0) (length prog)) = 1) as Hu.
  { unfold unjoined. by rewrite decide_True. }
  destruct (last_worker _ _ _ _ _ _ HI H0 Hi Hu Hse Hw) as [Hj Hf].
  apply (einv_move m g x0 s i (mkE Run false (region x0) (length prog)) (mkE WakesMaster false (S (region x0)) 0)); try done.
  - by apply worker_master.
  - rewrite !waiting_eq by done. lia.
  - left. by rewrite !waiting_eq by done.
  - rewrite Hu, Hw. unfold unjoined. cbn [at_ region]. by rewrite decide_False by lia.
  - rewrite (ei_wakers _ _ _ _ HI). cbn [wakes_master at_]. rewrite decide_False, decide_True by (done || lia). lia.
Qed.

Lemma step_fork_done m g x0 s i f r d :
  einv m g x0 s -> e_threads s !! i = Some (mkE (Forks T) f r d) ->
  exists x0', einv m g x0' (mkES (e_working s) (e_barrier s) (<[i := mkE Run f r d]> (e_threads s))).
Proof.
  intros HI Hi. place_at HI Hi. destruct Hp as (-> & Hh & -> & -> & _).
  pose proof (master_is _ _ _ _ _ _ HI Hi eq_refl) as <-. cbn [region] in *.
  exists (mkE Run false r 0). apply (einv_move m g _ s 0%nat _ (mkE Run false r 0) _ _ _ HI Hi); try done.
  - split; [cbn; split_and!; done || lia|done].
  - intros j _ Hj. cbn. by apply Nat.ltb_lt.
  - by right.
  - rewrite <- (Z.sub_add (waiting_for m r (mkE (Forks T) false r 0)) (e_barrier s)) at 1. done.
  - by left.
  - unfold unjoined. cbn [at_ region]. rewrite decide_True by done. lia.
  - rewrite (ei_wakers _ _ _ _ HI). cbn [wakes_master at_]. by rewrite !decide_False by (by intros (? & _)).
  - by intros [?|(? & _)].
Qed.

Lemma step_master_end m g x0 s i f r :
  einv m g x0 s -> i = 0%nat -> e_threads s !! i = Some (mkE Run f r (length prog)) ->
  exists x0', einv m g x0' (mkES (e_working s) (e_barrier s) (<[i := mkE Joins f r (length prog)]> (e_threads s))).
Proof.
  intros HI -> Hi. place_at HI Hi. destruct Hp as (Hh & -> & _ & _ & _).
  pose proof (master_is _ _ _ _ _ _ HI Hi eq_refl) as <-. cbn [region] in *.
  exists (mkE Joins false r (length prog)). apply (einv_move m g _ s 0%nat _ (mkE Joins false r (length prog)) _ _ _ HI Hi); try done.
  - by right.
  - rewrite <- (Z.sub_add (waiting_for m r (mkE Run false r (length prog))) (e_barrier s)) at 1. done.
  - by left.
  - unfold unjoined. cbn [at_ region]. rewrite decide_True by done. lia.
  - rewrite (ei_wakers _ _ _ _ HI). cbn [wakes_master at_]. by rewrite !decide_False by (by intros (? & _)).
  - by intros [?|(? & _)].
Qed.

(** The master at the join: [w'] workers are still to come. *)
Lemma step_master_join m g x0 s i f r d p :
  einv m g x0 s -> e_threads s !! i = Some (mkE Joins f r d) ->
  p = Joined /\ e_working s = 1 \/ p = AtJoin /\ 1 < e_working s ->
  exists x0', einv m g x0' (mkES (e_working s - 1) (e_barrier s) (<[i := mkE p f r d]> (e_threads s))).
Proof.
  intros HI Hi Hp'. place_at HI Hi. destruct Hp as (-> & Hh & -> & ->).
  pose proof (master_is _ _ _ _ _ _ HI Hi eq_refl) as <-. cbn [region at_] in *.
  assert (waiting_for m r (mkE p false r (length prog)) = waiting_for m r (mkE Joins false r (length prog))) as Hw.
  { by destruct Hp' as [[-> _]|[-> _]]. }
  exists (mkE p false r (length prog)). apply (einv_move m g _ s 0%nat _ (mkE p false r (length prog)) _ _ _ HI Hi); try done;
    cbn [region at_ flag] in *.
  - destruct Hp' as [[-> _]|[-> _]]; done.
  - destruct Hp' as [[-> _]|[-> _]]; done.
  - by right.
  - destruct Hp' as [[-> _]|[-> _]]; done.
  - lia.
  - by left.
  - unfold unjoined. cbn [at_ region]. rewrite !decide_True by done. destruct Hp' as [[-> _]|[-> _]]; lia.
  - rewrite (ei_wakers _ _ _ _ HI). unfold wakes_master. cbn [at_].
    rewrite (decide_False (P := Joins = AtJoin /\ _)) by (by intros (? & _)).
    rewrite decide_False by (intros (? & ? & _); destruct Hp' as [[-> _]|[_ ?]]; [done|lia]).
    destruct Hp' as [[-> _]|[-> _]]; lia.
  - intros [->|(_ & ?)]; [|done]. destruct Hp' as [[_ ?]|[? _]]; [lia|done].
Qed.

Lemma step_joined m g x0 s i r d :
  einv m g x0 s -> e_threads s !! i = Some (mkE AtJoin true r d) ->
  exists x0', einv m g x0' (mkES (e_working s) (e_barrier s) (<[i := mkE Joined false r d]> (e_threads s))).
Proof.
  intros HI Hi. place_at HI Hi. destruct Hp as (-> & Hh & ->).
  pose proof (master_is _ _ _ _ _ _ HI Hi eq_refl) as <-. cbn [region at_] in *.
  pose proof (ei_wakers _ _ _ _ HI) as HK. rewrite decide_False in HK by (by intros (_ & _ & ?)).
  exists (mkE Joined false r (length prog)). apply (einv_move m g _ s 0%nat _ (mkE Joined false r (length prog)) _ _ _ HI Hi); try done.
  - by left.
  - rewrite <- (Z.sub_add (waiting_for m r (mkE AtJoin true r (length prog))) (e_barrier s)) at 1. done.
  - by left.
  - unfold unjoined. cbn [at_ region]. rewrite !decide_True by done. lia.
  - rewrite HK. cbn [wakes_master at_]. by rewrite decide_False by (by intros (? & _)).
  - intros _. apply (ei_woken _ _ _ _ HI). by right.
Qed.

(** ** The gate *)
Lemma gate_thread m g r p j y :
  thread_ok m g r p j y -> gate_place (at_ y) = true -> g = Resetting j \/ exists k, g = Releasing j k.
Proof.
  intros [Hp _] Hy. unfold place_ok in Hp. destruct (at_ y); try done; destruct Hp as [-> _]; [by left|right; eauto].
Qed.

Lemma thread_ok_gate m g g' r p j y :
  held g j = held g' j -> gate_place (at_ y) = false -> thread_ok m g r p j y -> thread_ok m g' r p j y.
Proof.
  intros Hh Hy [Hp Hl]. split.
  - unfold place_ok in *. rewrite <- Hh. by destruct (at_ y).
  - unfold level in *. by rewrite <- Hh.
Qed.

(** Behind a closed gate a thread waits for it. *)
Lemma held_waits m g r p j y :
  thread_ok m g r p j y -> held g j = true -> at_ y = AtBarrier /\ flag y = false /\ arrived r y = m.
Proof.
  intros [Hp Hl] Hh. unfold place_ok in Hp. unfold level in Hl. rewrite Hh, orb_true_r in *.
  destruct (at_ y); try (by destruct_and?).
  - split; [done|]. destruct Hp as (_ & _ & _ & Hf). split; [|done]. destruct (flag y); [by discriminate Hf|done].
  - destruct Hp as [-> _]. cbn in Hh. by rewrite Nat.eqb_refl in Hh.
  - destruct Hp as [-> _]. cbn in Hh. by rewrite Nat.eqb_refl in Hh.
Qed.

(** The thread at the gate moves on, and the gate with it. *)
Lemma einv_gate m g x0 s i x x' g' b' :
  einv m g x0 s -> e_threads s !! i = Some x -> gate_place (at_ x) = true ->
  in_region (at_ x') = true -> region x' = region x -> thread_ok m g' (region x0) Run i x' ->
  arrived (region x0) x' = m ->
  (forall j, j <> i -> (j < T)%nat -> held g j = held g' j) -> gate_ok g' (<[i := x']> (e_threads s)) ->
  b' = barrier_count_of m g' (region x0) (<[i := x']> (e_threads s)) ->
  einv m g' (if decide (i = 0%nat) then x' else x0) (mkES (e_working s) b' (<[i := x']> (e_threads s))).
Proof.
  intros HI Hi Hx Hx' Hr Hok Ha Hh Hg Hb. pose proof (ei_threads _ _ _ _ HI _ _ Hi) as Hix.
  pose proof (gate_thread _ _ _ _ _ _ Hix Hx) as Hgi. pose proof (lookup_lt_Some _ _ _ Hi).
  apply (einv_in_region m g x0 s i x x'); try done.
  - by destruct (at_ x).
  - intros j y p Hne Hj. apply thread_ok_gate.
    + apply Hh; [done|]. rewrite <- (ei_length _ _ _ _ HI). by eapply lookup_lt_Some.
    + destruct (gate_place (at_ y)) eqn:Hy; [|done].
      pose proof (gate_thread _ _ _ _ _ _ (ei_threads _ _ _ _ HI _ _ Hj) Hy) as Hgj.
      destruct Hgi as [->|[? ->]], Hgj as [?|[? ?]]; by simplify_eq.
  - pose proof (total_member (waiting_for m (region x0)) (<[i := x']> (e_threads s)) i x'
      (fun x => proj1 (waiting_range _ _ x)) ltac:(by apply list_lookup_insert_eq)) as Hm.
    rewrite (waiting_eq _ _ _ Ha) in Hm. lia.
Qed.

Lemma step_reset m g x0 s i f r d :
  einv m g x0 s -> e_threads s !! i = Some (mkE Resets f r d) ->
  exists g' x0', einv m g' x0' (mkES (e_working s) (Z.of_nat T) (<[i := mkE (Releases 0) f r d]> (e_threads s))).
Proof.
  intros HI Hi. place_at HI Hi. destruct Hp as (-> & -> & -> & Hs & Hd). pose proof Hl as Hl'.
  rewrite arrived_in in Hl' by done. cbn [done at_ at_barrier] in Hl'. pose proof (lookup_lt_Some _ _ _ Hi) as Hlt.
  assert (arrived (region x0) (mkE (Releases 0) false (region x0) d) = m) as Ha by arrivals.
  eexists (Releasing i 0), _. apply (einv_gate m _ x0 s i _ _ _ _ HI Hi); try done.
  - split; [cbn; split_and!; done || lia|done].
  - intros j Hne _. cbn. by rewrite andb_true_r.
  - eexists. split; [by apply list_lookup_insert_eq|done].
  - unfold barrier_count_of. rewrite (total_eq _ 1), length_insert, (ei_length _ _ _ _ HI); [lia|].
    intros j y Hj. apply waiting_eq. destruct (decide (j = i)) as [->|Hne].
    + rewrite list_lookup_insert_eq in Hj by done. by injection Hj as <-.
    + rewrite list_lookup_insert_ne in Hj by done.
      apply (held_waits _ _ _ _ _ _ (ei_threads _ _ _ _ HI _ _ Hj)). cbn. by apply negb_true_iff, Nat.eqb_neq.
Qed.

Lemma step_release_skip m g x0 s i f r d :
  einv m g x0 s -> e_threads s !! i = Some (mkE (Releases i) f r d) ->
  exists g' x0', einv m g' x0' (mkES (e_working s) (e_barrier s) (<[i := mkE (Releases (S i)) f r d]> (e_threads s))).
Proof.
  intros HI Hi. place_at HI Hi. destruct Hp as (-> & Hk & -> & -> & Hs & Hd). pose proof Hl as Hl'.
  rewrite arrived_in in Hl' by done. cbn [done at_ at_barrier] in Hl'. pose proof (lookup_lt_Some _ _ _ Hi) as Hlt.
  rewrite (ei_length _ _ _ _ HI) in Hlt.
  assert (arrived (region x0) (mkE (Releases (S i)) false (region x0) d) = m) as Ha by arrivals.
  eexists (Releasing i (S i)), _. apply (einv_gate m _ x0 s i _ _ _ _ HI Hi); try done.
  - intros j Hne _. cbn [held]. destruct (Nat.eqb_spec i j); [done|]. cbn [negb andb].
    destruct (Nat.leb_spec i j), (Nat.leb_spec (S i) j); try done; lia.
  - eexists. split; [apply list_lookup_insert_eq; by eapply lookup_lt_Some|done].
  - destruct (ei_barrier _ _ _ _ HI) as [E|Hb0]; [by rewrite E in Hs|]. rewrite Hb0, (barrier_insert _ _ _ _ _ _ _ Hi).
    unfold barrier_count_of. rewrite !waiting_eq by done. lia.
Qed.

Lemma step_released m g x0 s i f r d :
  einv m g x0 s -> e_threads s !! i = Some (mkE (Releases T) f r d) ->
  exists g' x0', einv m g' x0' (mkES (e_working s) (e_barrier s) (<[i := mkE Run f r (S d)]> (e_threads s))).
Proof.
  intros HI Hi. place_at HI Hi. destruct Hp as (-> & Hk & -> & -> & Hs & Hd). pose proof Hl as Hl'.
  rewrite arrived_in in Hl' by done. cbn [done at_ at_barrier] in Hl'. pose proof (lookup_lt_Some _ _ _ Hd).
  pose proof (bars_S d _ Hd) as HS. rewrite decide_True in HS by done.
  assert (arrived (region x0) (mkE Run false (region x0) (S d)) = m) as Ha by arrivals.
  eexists Open, _. apply (einv_gate m _ x0 s i _ _ _ _ HI Hi); try done.
  - intros j Hne Hj. cbn. destruct (Nat.leb_spec T j); [lia|]. by rewrite andb_false_r.
  - destruct (ei_barrier _ _ _ _ HI) as [E|Hb0]; [by rewrite E in Hs|]. rewrite Hb0, (barrier_insert _ _ _ _ _ _ _ Hi).
    unfold barrier_count_of. rewrite !waiting_eq by done. lia.
Qed.

(** When one thread is still to come, the gate is open and the others wait. *)
Lemma others_wait m g x0 s i x :
  einv m g x0 s -> e_threads s !! i = Some x -> at_ x = Run -> e_barrier s = 1 ->
  g = Open /\ (forall j y, j <> i -> e_threads s !! j = Some y ->
    at_ y = AtBarrier /\ flag y = false /\ arrived (region x0) y = S m).
Proof.
  intros HI Hi Hx Hb. pose proof (ei_threads _ _ _ _ HI _ _ Hi) as Hix.
  destruct (in_region_ok _ _ _ _ _ _ Hix) as [Hrx Hs]; [by rewrite Hx|].
  destruct (ei_barrier _ _ _ _ HI) as [E|Hb0]; [by rewrite E in Hs|].
  pose proof (ok_level _ _ _ _ _ _ Hix) as Hl. unfold level in Hl. rewrite Hx in Hl.
  assert (forall j y, j <> i -> e_threads s !! j = Some y -> arrived (region x0) y <> m) as Hy.
  { intros j y Hne Hj Hm. unfold barrier_count_of in Hb0. destruct g; [|lia|];
    pose proof (total_two (waiting_for m (region x0)) _ _ _ _ _ (fun x => proj1 (waiting_range _ _ x)) Hne Hj Hi) as H2;
    rewrite !waiting_eq in H2 by done; lia. }
  assert (g = Open) as ->.
  { destruct g as [|l|l k]; [done|cbn in Hb0; lia|]. destruct (ei_gate _ _ _ _ HI) as (y & Hy' & Hyk).
    destruct (Hy l y); [intros ->; congruence|done|].
    pose proof (ok_level _ _ _ _ _ _ (ei_threads _ _ _ _ HI _ _ Hy')) as Hl'. unfold level in Hl'. by rewrite Hyk in Hl'. }
  split; [done|]. intros j y Hne Hj. pose proof (ei_threads _ _ _ _ HI _ _ Hj) as [_ Hl'].
  pose proof (Hy j y Hne Hj). unfold level in Hl'. cbn [held] in Hl'. rewrite orb_false_r in Hl'.
  destruct (at_ y); try done. by destruct (flag y).
Qed.

Lemma step_last m g x0 s i f r d :
  einv m g x0 s -> e_threads s !! i = Some (mkE Run f r d) -> prog !! d = Some Barrier -> e_barrier s = 1 ->
  exists m' g' x0', einv m' g' x0' (mkES (e_working s) 0 (<[i := mkE Resets f r d]> (e_threads s))).
Proof.
  intros HI Hi Hd Hb. destruct (others_wait _ _ _ _ _ _ HI Hi eq_refl Hb) as [-> Hy].
  place_at HI Hi. destruct Hp as (Hh & -> & -> & _ & Hs). pose proof Hl as Hl'.
  rewrite arrived_in in Hl' by done. cbn [done at_ at_barrier] in Hl'. pose proof (lookup_lt_Some _ _ _ Hi) as Hlt.
  assert (arrived (region x0) (mkE Resets false (region x0) d) = S m) as Ha by arrivals.
  eexists (S m), (Resetting i), _. apply (einv_in_region m Open x0 s i _ _ _ _ _ HI Hi); try done.
  - intros j y p Hne Hj [Hpy Hly]. destruct (Hy j y Hne Hj) as (Hyp & Hyf & Hya).
    unfold place_ok in Hpy. rewrite Hyp, Hyf in Hpy. split.
    + unfold place_ok. rewrite Hyp, Hyf. by destruct_and?.
    + unfold level. rewrite Hyp, Hyf, Hya. cbn [held]. by rewrite (proj2 (Nat.eqb_neq i j)).
  - eexists. split; [by apply list_lookup_insert_eq|done].
  - pose proof (total_member (waiting_for (S m) (region x0)) (<[i := mkE Resets false (region x0) d]> (e_threads s)) i _
      (fun x => proj1 (waiting_range _ _ x)) ltac:(by apply list_lookup_insert_eq)) as Hm.
    rewrite (waiting_eq _ _ _ Ha) in Hm. lia.
Qed.

(** A team of one passes a barrier. *)
Lemma step_pass_alone m g x0 s i f r d :
  einv m g x0 s -> T = 1%nat -> e_threads s !! i = Some (mkE Run f r d) -> prog !! d = Some Barrier ->
  exists m' g' x0', einv m' g' x0' (mkES (e_working s) (e_barrier s) (<[i := mkE Run f r (S d)]> (e_threads s))).
Proof.
  intros HI HT1 Hi Hd. place_at HI Hi. destruct Hp as (Hh & -> & -> & _ & Hs). pose proof Hl as Hl'.
  rewrite arrived_in in Hl' by done. cbn [done at_ at_barrier] in Hl'. pose proof (lookup_lt_Some _ _ _ Hi) as Hlt.
  pose proof (bars_S d _ Hd) as HS. rewrite decide_True in HS by done. pose proof (lookup_lt_Some _ _ _ Hd).
  rewrite (ei_length _ _ _ _ HI), HT1 in Hlt. assert (i = 0%nat) as -> by lia.
  assert (g = Open) as ->.
  { pose proof (ei_gate _ _ _ _ HI) as Hg. destruct g as [|l|l k]; [done| |]; destruct Hg as (y & Hy & Hyp);
    pose proof (lookup_lt_Some _ _ _ Hy) as Hlt'; rewrite (ei_length _ _ _ _ HI), HT1 in Hlt';
    (assert (l = 0%nat) as -> by lia); rewrite Hi in Hy; injection Hy as <-; done. }
  destruct (e_threads s) as [|x [|x1 ths]] eqn:Eths; [done| |].
  2: { pose proof (ei_length _ _ _ _ HI) as Hlen. rewrite Eths in Hlen. cbn in Hlen. lia. }
  rewrite <- Eths in *. assert (arrived (region x0) (mkE Run false (region x0) (S d)) = S m) as Ha by arrivals.
  rewrite Eths in Hi. injection Hi as ->.
  assert (e_threads s !! 0%nat = Some (mkE Run false (region x0) d)) as Hi by (by rewrite Eths).
  eexists (S m), Open, _. apply (einv_in_region m Open x0 s 0%nat _ _ _ _ _ HI Hi); try done.
  - intros j y p Hne Hj. rewrite Eths in Hj. destruct j; done.
  - destruct (ei_barrier _ _ _ _ HI) as [E|Hb0]; [by rewrite E in Hs|]. rewrite Hb0. unfold barrier_count_of. rewrite Eths. cbn.
    by rewrite !waiting_eq by done.
  - rewrite Eths. cbn. by rewrite waiting_eq by done.
Qed.

(** ** Forking *)

(** Before the fork all workers are ready. *)
Lemma serial_ready m g x0 s j y :
  einv m g x0 s -> at_ x0 = Serial -> j <> 0%nat -> e_threads s !! j = Some y ->
  at_ y = Ready /\ region y = region x0 /\ flag y = false /\ done y = 0%nat /\ held g j = false /\
  arrived (region x0) y = m.
Proof.
  intros HI Hse Hne Hj. destruct (ei_threads _ _ _ _ HI _ _ Hj) as [Hp Hl].
  unfold place_ok in Hp. unfold level in Hl. rewrite Hse in Hp.
  destruct (at_ y); cbn [started] in Hp; destruct_and?; try done.
  destruct_or?; destruct_and?; by split_and!.
Qed.

Lemma serial_open m g x0 s : einv m g x0 s -> at_ x0 = Serial -> g = Open.
Proof.
  intros HI Hse. pose proof (ei_gate _ _ _ _ HI) as Hg. destruct g as [|l|l k]; [done| |];
    destruct Hg as (y & Hy & Hyp); pose proof (ei_threads _ _ _ _ HI _ _ Hy) as [Hp _];
    unfold place_ok in Hp; rewrite Hyp, Hse in Hp; destruct_and?; done.
Qed.

Lemma step_fork m g x0 s i r :
  einv m g x0 s -> i = 0%nat -> e_threads s !! i = Some (mkE Serial false r 0) -> (r < R)%nat ->
  exists x0', einv m g x0' (mkES (Z.of_nat T) (Z.of_nat T) (<[i := mkE (Forks 1) false r 0]> (e_threads s))).
Proof.
  intros HI -> Hi Hr. place_at HI Hi. pose proof (master_is _ _ _ _ _ _ HI Hi eq_refl) as <-. cbn [region at_ flag] in *.
  pose proof (serial_open _ _ _ _ HI eq_refl) as ->. pose proof (lookup_lt_Some _ _ _ Hi) as Hlt.
  exists (mkE (Forks 1) false r 0).
  assert (forall j y, <[0%nat := mkE (Forks 1) false r 0]> (e_threads s) !! j = Some y ->
    arrived r y = m /\ unjoined r y = 1) as Hall.
  { intros j y Hj. destruct (decide (j = 0%nat)) as [->|Hne].
    - rewrite list_lookup_insert_eq in Hj by done. injection Hj as <-. split; [done|]. unfold unjoined. by rewrite decide_True.
    - rewrite list_lookup_insert_ne in Hj by done. destruct (serial_ready _ _ _ _ _ _ HI eq_refl Hne Hj) as (Hy&Hyr&_&_&_&?).
      split; [done|]. unfold unjoined. rewrite Hyr, Hy. by rewrite decide_True. }
  assert (total (waiting_for m r) (<[0%nat := mkE (Forks 1) false r 0]> (e_threads s)) = Z.of_nat T) as Hw.
  { rewrite (total_eq _ 1), length_insert, (ei_length _ _ _ _ HI); [lia|]. intros j y Hj. apply waiting_eq. by eapply Hall. }
  assert (total (unjoined r) (<[0%nat := mkE (Forks 1) false r 0]> (e_threads s)) = Z.of_nat T) as Hu.
  { rewrite (total_eq _ 1), length_insert, (ei_length _ _ _ _ HI); [lia|]. intros j y Hj. by eapply Hall. }
  rewrite (total_insert _ _ _ _ _ Hi) in Hu.
  apply (einv_insert m Open (mkE Serial false r 0) s 0%nat _ _ _ _ _ _ _ HI Hi); cbn [region at_ flag] in *; try done; try lia.
  - intros j y Hne Hj _. destruct (serial_ready _ _ _ _ _ _ HI eq_refl Hne Hj) as (Hy&Hyr&Hyf&Hyd&Hyh&Hya). cbn [region] in *.
    split; [|by unfold level; rewrite Hy]. unfold place_ok. rewrite Hy. split_and!; try done. left. split; [done|].
    rewrite Hyf. by destruct j.
  - by right.
  - rewrite (ei_wakers _ _ _ _ HI). cbn [wakes_master at_]. by rewrite !decide_False by (by intros (? & _)).
  - by intros [?|(? & _)].
Qed.

(** Behind the join all workers are ready for the next region. *)
Lemma joined_ready m g x0 s j y :
  einv m g x0 s -> at_ x0 = Joined -> j <> 0%nat -> e_threads s !! j = Some y ->
  at_ y = Ready /\ region y = S (region x0) /\ flag y = false /\ done y = 0%nat.
Proof.
  intros HI Hx0 Hne Hj. pose proof (ei_working _ _ _ _ HI) as Hw. rewrite decide_False in Hw by (by rewrite Hx0).
  rewrite (ei_woken _ _ _ _ HI) in Hw by (by left).
  pose proof (total_zero _ _ _ (fun x => proj1 (unjoined_range (region x0) x)) (eq_sym Hw) (list_elem_of_lookup_2 _ _ _ Hj)) as Hu.
  destruct (ei_threads _ _ _ _ HI _ _ Hj) as [Hp _]. unfold place_ok in Hp. unfold unjoined in Hu. rewrite Hx0 in *.
  destruct (at_ y); destruct_and?; try done; try (rewrite decide_True in Hu by done; lia).
  destruct_or?; destruct_and?; [|done]. rewrite decide_True in Hu by done. lia.
Qed.

Lemma step_end m g x0 s i f r d :
  einv m g x0 s -> e_threads s !! i = Some (mkE Joined f r d) ->
  einv 0 Open (mkE Serial f (S r) 0)
    (mkES (e_working s) (e_barrier s) (<[i := mkE Serial f (S r) 0]> (e_threads s))).
Proof.
  intros HI Hi. place_at HI Hi. destruct Hp as (-> & _ & -> & ->). pose proof (lookup_lt_Some _ _ _ Hi) as Hlt.
  pose proof (master_is _ _ _ _ _ _ HI Hi eq_refl) as <-.
  pose proof (ei_region _ _ _ _ HI) as [_ [?|HR]]; [done|]. cbn [region] in HR.
  split; cbn [e_working e_barrier e_threads region at_ flag]; try done.
  - rewrite length_insert. apply HI.
  - by rewrite list_lookup_insert_eq.
  - intros j y Hj. destruct (decide (j = 0%nat)) as [->|Hne].
    + rewrite list_lookup_insert_eq in Hj by done. injection Hj as <-. split; [done|by rewrite arrived_in].
    + rewrite list_lookup_insert_ne in Hj by done. destruct (joined_ready _ _ _ _ _ _ HI eq_refl Hne Hj) as (Hy&Hyr&Hyf&Hyd).
      cbn [region] in Hyr. split; [unfold place_ok; rewrite Hy; split_and!; try done; by left|].
      unfold level. by rewrite arrived_in, Hy, Hyd.
  - by left.
  - pose proof (total_member (waiting_for 0 (S r)) (<[0%nat := mkE Serial false (S r) 0]> (e_threads s)) 0%nat _
      (fun x => proj1 (waiting_range _ _ x)) ltac:(by apply list_lookup_insert_eq)) as Hm.
    rewrite waiting_eq in Hm; [lia|]. by rewrite arrived_in.
  - apply (ei_woken _ _ _ _ HI). by left.
  - rewrite (total_insert _ _ _ _ _ Hi), (ei_wakers _ _ _ _ HI). cbn [wakes_master at_]. by rewrite !decide_False by (by intros (? & _)).
  - by intros [?|(? & _)].
  - split; [lia|by left].
Qed.

(** ** Raising an event *)
Definition raised (s : estate) (k : nat) (y : ethread) : estate :=
  mkES (e_working s) (e_barrier s) (<[k := raise_flag y]> (e_threads s)).

Lemma raise_counts m r ths k y :
  ths !! k = Some y ->
  total (waiting_for m r) (<[k := raise_flag y]> ths) = total (waiting_for m r) ths /\
  total (unjoined r) (<[k := raise_flag y]> ths) = total (unjoined r) ths /\
  total wakes_master (<[k := raise_flag y]> ths) = total wakes_master ths.
Proof.
  intros Hk. rewrite !(total_insert _ _ _ _ _ Hk).
  replace (waiting_for m r (raise_flag y)) with (waiting_for m r y) by done.
  replace (unjoined r (raise_flag y)) with (unjoined r y) by done.
  replace (wakes_master (raise_flag y)) with (wakes_master y) by done. lia.
Qed.

(** Thread [i] raises the event of thread [k], and moves from [x] to [x']. *)
Lemma einv_raise m g x0 s i x x' k y g' x0' :
  einv m g x0 s -> e_threads s !! i = Some x -> e_threads s !! k = Some y -> i <> k ->
  x0' = (if decide (i = 0%nat) then x' else if decide (k = 0%nat) then raise_flag x0 else x0) ->
  region x' = region x -> arrived (region x0) x' = arrived (region x0) x -> unjoined (region x0) x' = unjoined (region x0) x ->
  (forall l, g <> Resetting l) -> (forall l, g' <> Resetting l) ->
  thread_ok m g' (region x0) (at_ x0') i x' -> thread_ok m g' (region x0) (at_ x0') k (raise_flag y) ->
  (forall j z, j <> i -> j <> k -> e_threads s !! j = Some z ->
     thread_ok m g (region x0) (at_ x0) j z -> thread_ok m g' (region x0) (at_ x0') j z) ->
  gate_ok g' (<[i := x']> (<[k := raise_flag y]> (e_threads s))) ->
  at_ x0 <> Serial -> at_ x0' <> Serial ->
  total wakes_master (e_threads s) - wakes_master x + wakes_master x' =
    (if decide (at_ x0' = AtJoin /\ e_working s = 0 /\ flag x0' = false) then 1 else 0) ->
  (at_ x0' = Joined \/ at_ x0' = AtJoin /\ flag x0' = true -> e_working s = 0) ->
  einv m g' x0' (mkES (e_working s) (e_barrier s) (<[i := x']> (<[k := raise_flag y]> (e_threads s)))).
Proof.
  intros HI Hi Hk Hne Hx0 Hr Ha Hu Hg Hg' Hokx Hoky Hok Hgok Hse Hse' HK Hf.
  destruct (raise_counts m (region x0) _ _ _ Hk) as (HA & HU & HW).
  assert (<[k := raise_flag y]> (e_threads s) !! i = Some x) as Hi' by (by rewrite list_lookup_insert_ne).
  pose proof (lookup_lt_Some _ _ _ Hi). pose proof (lookup_lt_Some _ _ _ Hk).
  assert (region x0' = region x0) as Hrx.
  { subst x0'. case_decide as E; [|by case_decide]. rewrite Hr. by rewrite (master_is _ _ _ _ _ _ HI Hi E). }
  assert (waiting_for m (region x0) x' = waiting_for m (region x0) x) as Hwx by (unfold waiting_for; by rewrite Ha).
  split; cbn [e_working e_barrier e_threads]; rewrite ?Hrx; try done.
  - rewrite !length_insert. apply HI.
  - subst x0'. destruct (decide (i = 0%nat)) as [->|Hi0]; [by rewrite list_lookup_insert_eq by (by rewrite length_insert)|].
    rewrite list_lookup_insert_ne by done. destruct (decide (k = 0%nat)) as [->|Hk0].
    + rewrite list_lookup_insert_eq by done. by rewrite (master_is _ _ _ _ _ _ HI Hk eq_refl).
    + rewrite list_lookup_insert_ne by done. apply HI.
  - intros j z Hj. destruct (decide (j = i)) as [->|Hji].
    { rewrite list_lookup_insert_eq in Hj by (by rewrite length_insert). by injection Hj as <-. }
    rewrite list_lookup_insert_ne in Hj by done. destruct (decide (j = k)) as [->|Hjk].
    { rewrite list_lookup_insert_eq in Hj by done. by injection Hj as <-. }
    rewrite list_lookup_insert_ne in Hj by done. apply Hok; try done. by apply HI.
  - right. destruct (ei_barrier _ _ _ _ HI) as [|Hb]; [done|]. rewrite Hb. unfold barrier_count_of.
    rewrite (total_insert _ _ _ _ _ Hi'), HA, Hwx. destruct g as [|l|], g' as [|l'|];
      try lia; first [by destruct (Hg l)|by destruct (Hg' l')].
  - rewrite (total_insert _ _ _ _ _ Hi'), HA, Hwx. pose proof (ei_least _ _ _ _ HI). lia.
  - rewrite decide_False, (total_insert _ _ _ _ _ Hi'), HU, Hu by done. rewrite (ei_working _ _ _ _ HI), decide_False by done. lia.
  - by rewrite (total_insert _ _ _ _ _ Hi'), HW.
  - split; [apply HI|right]. by destruct (proj2 (ei_region _ _ _ _ HI)).
Qed.

Lemma step_wake_master m g x0 s i f r d x :
  einv m g x0 s -> i <> 0%nat -> e_threads s !! i = Some (mkE WakesMaster f r d) -> e_threads s !! 0%nat = Some x ->
  exists x0', einv m g x0' (mkES (e_working s) (e_barrier s)
                 (<[i := mkE Ready f r d]> (<[0%nat := raise_flag x]> (e_threads s)))).
Proof.
  intros HI H0 Hi Hx. pose proof (master_is _ _ _ _ _ _ HI Hx eq_refl) as ->. place_at HI Hi.
  destruct Hp as (_ & Hh & -> & -> & -> & Hj). pose proof (ei_threads _ _ _ _ HI _ _ Hx) as [Hp0 Hl0].
  unfold place_ok in Hp0. rewrite Hj in Hp0. destruct Hp0 as (_ & Hh0 & Hd0). unfold level in Hl0. rewrite Hj in Hl0.
  pose proof (total_member wakes_master _ _ _ (fun x => proj1 (wakes_range x)) Hi) as HK.
  rewrite (ei_wakers _ _ _ _ HI) in HK. cbn [wakes_master at_] in HK. case_decide as Hd; [|lia]. destruct Hd as (_ & Hw & Hf).
  assert (forall l k, g = Resetting l \/ g = Releasing l k -> False) as Hgate.
  { intros l k Hg. pose proof (ei_working _ _ _ _ HI) as Hwu. rewrite decide_False, Hw in Hwu by (by rewrite Hj).
    pose proof (ei_gate _ _ _ _ HI) as Hgk. assert (exists y, e_threads s !! l = Some y /\ gate_place (at_ y) = true) as (y & Hy & Hyp).
    { destruct Hg as [-> | ->]; destruct Hgk as (y & ? & Hyp); exists y; by rewrite Hyp. }
    assert (in_region (at_ y) = true) as Hyr by (by destruct (at_ y)).
    destruct (in_region_ok _ _ _ _ _ _ (ei_threads _ _ _ _ HI _ _ Hy) Hyr) as [Hr _].
    destruct (in_region_counts _ _ Hyr Hr) as [Hu _].
    pose proof (total_zero _ _ _ (fun x => proj1 (unjoined_range (region x0) x)) (eq_sym Hwu) (list_elem_of_lookup_2 _ _ _ Hy)). lia. }
  exists (raise_flag x0). eapply (einv_raise m g x0 s i _ _ 0%nat x0); try done; cbn [at_ flag region raise_flag].
  - by rewrite decide_False.
  - intros l ->. by apply (Hgate l 0%nat); left.
  - intros l ->. by apply (Hgate l 0%nat); left.
  - rewrite Hj. split; [cbn; split_and!; try done; by right|done].
  - rewrite Hj. split; [unfold place_ok; cbn [at_ raise_flag]; by rewrite Hj|]. unfold level. cbn [at_ raise_flag]. by rewrite Hj.
  - assert (g = Open) as ->; [|done]. destruct g as [|l|l k]; [done| |]; exfalso; [apply (Hgate l 0%nat)|apply (Hgate l k)]; auto.
  - by rewrite Hj.
  - by rewrite Hj.
  - rewrite (ei_wakers _ _ _ _ HI). cbn [wakes_master at_]. rewrite decide_True, decide_False by (done || by intros (_ & _ & ?)). lia.
Qed.

Lemma step_release m g x0 s i k f r d x :
  einv m g x0 s -> e_threads s !! i = Some (mkE (Releases k) f r d) -> e_threads s !! k = Some x ->
  (k < T)%nat -> k <> i ->
  exists g' x0', einv m g' x0' (mkES (e_working s) (e_barrier s)
    (<[i := mkE (Releases (S k)) f r d]> (<[k := raise_flag x]> (e_threads s)))).
Proof.
  intros HI Hi Hk HkT Hne. place_at HI Hi. destruct Hp as (-> & _ & -> & -> & Hs & Hd). pose proof Hl as Hl'.
  rewrite arrived_in in Hl' by done. cbn [done at_ at_barrier] in Hl'. pose proof (lookup_lt_Some _ _ _ Hi) as Hlt.
  assert (arrived (region x0) (mkE (Releases (S k)) false (region x0) d) = m) as Ha by arrivals.
  pose proof (ei_threads _ _ _ _ HI _ _ Hk) as Hokk.
  destruct (held_waits _ _ _ _ _ _ Hokk) as (Hkp & Hkf & Hka).
  { cbn. by rewrite (proj2 (Nat.eqb_neq i k)), Nat.leb_refl by done. }
  set (x0' := if decide (i = 0%nat) then mkE (Releases (S k)) false (region x0) d
              else if decide (k = 0%nat) then raise_flag x0 else x0).
  assert (at_ x0 <> Serial) as Hse by (intros E; by rewrite E in Hs).
  assert (x0' = x0 \/ in_region (at_ x0) = true /\ in_region (at_ x0') = true) as Hx0.
  { subst x0'. case_decide as E; [right; by rewrite <- (master_is _ _ _ _ _ _ HI Hi E)|].
    case_decide as E'; [right|by left]. rewrite <- (master_is _ _ _ _ _ _ HI Hk E'). cbn [at_ raise_flag]. by rewrite Hkp. }
  assert (forall j, started (at_ x0) j = started (at_ x0') j) as Hst.
  { intros j. destruct Hx0 as [->|[??]]; [done|]. by destruct (at_ x0), (at_ x0'). }
  assert (forall p, in_region p = true -> p <> AtJoin /\ p <> Joined /\ p <> Serial) as Hin by (by intros []).
  exists (Releasing i (S k)), x0'. eapply (einv_raise m _ x0 s i _ _ k x); try done.
  - apply (thread_ok_master m _ _ Run); [by rewrite <- Hst| |]; [done|]. split; [|done]. cbn. split_and!; done || lia.
  - destruct Hokk as [Hpk Hlk]. unfold place_ok in Hpk. rewrite Hkp in Hpk. split.
    + unfold place_ok. cbn [at_ raise_flag region done]. rewrite Hkp, <- Hst. destruct Hpk as (?&?&?&_). split_and!; try done.
      intros _. cbn [held]. by rewrite (proj2 (Nat.leb_gt (S k) k)), andb_false_r by lia.
    + unfold level. cbn [at_ raise_flag flag]. by rewrite Hkp.
  - intros j z Hji Hjk Hj Hz. apply (thread_ok_gate _ (Releasing i k)).
    + cbn [held]. f_equal. destruct (Nat.leb_spec k j), (Nat.leb_spec (S k) j); try done; lia.
    + destruct (gate_place (at_ z)) eqn:Hy; [|done].
      destruct (gate_thread _ _ _ _ _ _ Hz Hy) as [[=]|[? [= ]]]. congruence.
    + apply (thread_ok_master _ _ _ (at_ x0)); [apply Hst| |done]. intros E.
      destruct Hx0 as [->|[Hx0 _]]; destruct Hz as [Hz _]; unfold place_ok in Hz; rewrite E in Hz; destruct_and?; [done|].
      by destruct (Hin _ Hx0) as (?&_).
  - eexists. split; [apply list_lookup_insert_eq; by rewrite length_insert|done].
  - destruct Hx0 as [->|[_ Hx0]]; [done|]. by apply Hin.
  - rewrite (ei_wakers _ _ _ _ HI). cbn [wakes_master at_]. rewrite Z.sub_0_r, Z.add_0_r.
    destruct Hx0 as [->|[H1 H2]]; [done|]. destruct (Hin _ H1) as (?&_), (Hin _ H2) as (?&_). by rewrite !decide_False by tauto.
  - destruct Hx0 as [->|[_ Hx0]]; [by apply HI|]. destruct (Hin _ Hx0) as (?&?&_). tauto.
Qed.

Lemma step_fork_wake m g x0 s i k f r d x :
  einv m g x0 s -> e_threads s !! i = Some (mkE (Forks k) f r d) -> e_threads s !! k = Some x -> (k < T)%nat ->
  exists x0', einv m g x0' (mkES (e_working s) (e_barrier s)
    (<[i := mkE (Forks (S k)) f r d]> (<[k := raise_flag x]> (e_threads s)))).
Proof.
  intros HI Hi Hk HkT. place_at HI Hi. destruct Hp as (-> & Hh & -> & -> & Hk1 & _).
  pose proof (master_is _ _ _ _ _ _ HI Hi eq_refl) as <-. cbn [region at_] in *.
  assert (at_ x = Ready /\ region x = r /\ done x = 0%nat /\ held g k = false /\ arrived r x = m) as (Hx & Hxr & Hxd & Hxh & Hxa).
  { destruct (ei_threads _ _ _ _ HI _ _ Hk) as [Hpk Hlk]. cbn [region at_] in *. unfold place_ok in Hpk. unfold level in Hlk.
    cbn [started] in Hpk. rewrite (proj2 (Nat.ltb_ge k k)) in Hpk by lia.
    destruct (at_ x); destruct_and?; try done; try lia. destruct_or?; destruct_and?; by split_and!. }
  assert (forall l, g <> Resetting l) as Hg.
  { intros l ->. cbn in Hh, Hxh. apply negb_false_iff, Nat.eqb_eq in Hh, Hxh. lia. }
  exists (mkE (Forks (S k)) false r 0). eapply (einv_raise m g _ s 0%nat _ _ k x); try done; cbn [region at_ flag] in *.
  - lia.
  - split; [|done]. cbn. split_and!; done || lia.
  - split; [|unfold level; cbn [at_ raise_flag]; by rewrite Hx]. unfold place_ok. cbn [at_ raise_flag region done flag]. rewrite Hx.
    split_and!; try done; [lia|]. left. split; [done|]. cbn [started]. symmetry. apply Nat.ltb_lt. lia.
  - intros j z Hj0 Hjk Hj. apply thread_ok_master.
    + cbn [started]. destruct (Nat.ltb_spec j k), (Nat.ltb_spec j (S k)); try done; lia.
    + intros E. destruct (ei_threads _ _ _ _ HI _ _ Hj) as [Hz _]. unfold place_ok in Hz. rewrite E in Hz. cbn in Hz. by destruct_and?.
  - apply (gate_ok_insert g _ 0%nat (mkE (Forks k) false r 0)); [rewrite list_lookup_insert_ne by lia; done|done|].
    apply (gate_ok_insert g _ k x); [done|by rewrite Hx|apply HI].
  - rewrite (ei_wakers _ _ _ _ HI). cbn [wakes_master at_]. by rewrite !decide_False by (by intros (? & _)).
  - by intros [?|(? & _)].
Qed.

(** The invariant holds in every reachable state. *)
Lemma estep_inv m g x0 s i s' : einv m g x0 s -> estep T prog R s i s' -> exists m' g' x0', einv m' g' x0' s'.
Proof.
  intros HI [].
  - edestruct (step_fork m g x0 s i r) as [? ?]; eauto.
  - edestruct step_fork_wake as [? ?]; eauto.
  - edestruct step_fork_done as [? ?]; eauto.
  - eexists _, _, _. by eapply step_start.
  - edestruct step_arrive as [? ?]; eauto.
  - by eapply step_last.
  - edestruct step_reset as (? & ? & ?); eauto.
  - edestruct step_release as (? & ? & ?); eauto.
  - edestruct step_release_skip as (? & ? & ?); eauto.
  - edestruct step_released as (? & ? & ?); eauto.
  - edestruct step_leave_barrier as [? ?]; eauto.
  - destruct c; [|edestruct step_pass_single as [? ?]; eauto]. destruct_or?; [done|]. by eapply step_pass_alone.
  - eexists _, _, _. by eapply step_join.
  - eexists _, _, _. by eapply step_join_last.
  - edestruct step_wake_master as [? ?]; eauto.
  - edestruct step_master_end as [? ?]; eauto.
  - match goal with H : e_working s = 1 |- _ =>
      destruct (step_master_join m g x0 s i f r d Joined) as [? Hj]; [done|done|by left|];
      rewrite H, Z.sub_diag in Hj end. eauto.
  - destruct (step_master_join m g x0 s i f r d AtJoin) as [? ?]; eauto.
  - edestruct step_joined as [? ?]; eauto.
  - eexists _, _, _. by eapply step_end.
Qed.

Lemma estart_inv : einv 0 Open (mkE Serial false 0 0) (e_start_state T).
Proof.
  assert (forall j y, e_threads (e_start_state T) !! j = Some y ->
    j = 0%nat /\ y = mkE Serial false 0 0 \/ j <> 0%nat /\ y = mkE Ready false 0 0) as Hall.
  { intros [|j] y Hj; cbn in Hj; [left; by simplify_eq|right]. apply lookup_replicate in Hj as [-> _]. done. }
  split; cbn [region at_ flag]; try done.
  - cbn. rewrite length_replicate. lia.
  - intros j y Hj. destruct (Hall j y Hj) as [[-> ->]|[Hne ->]]; (split; [|by rewrite arrived_in]); [done|].
    cbn. split_and!; try done. by left.
  - by left.
  - pose proof (total_member (waiting_for 0 0) (e_threads (e_start_state T)) 0%nat _ (fun x => proj1 (waiting_range _ _ x)) eq_refl) as Hm.
    rewrite waiting_eq in Hm; [lia|]. by rewrite arrived_in.
  - rewrite decide_False by (by intros (? & _)). rewrite (total_eq _ 0); [lia|].
    intros j y Hj. by destruct (Hall j y Hj) as [[-> ->]|[Hne ->]].
  - split; [lia|by left].
Qed.

Lemma ereach_inv s : rtc (ereach T prog R) (e_start_state T) s -> exists m g x0, einv m g x0 s.
Proof.
  intros H. remember (e_start_state T) as s0 eqn:E. assert (exists m g x0, einv m g x0 s0) as HI.
  { subst s0. eexists _, _, _. apply estart_inv. }
  clear E. induction H as [|s1 s2 s3 [i Hs] _ IH]; [done|]. apply IH. destruct HI as (?&?&?&HI). by eapply estep_inv.
Qed.

(** ** What the invariant says *)
Lemma bars_le c c' : (c <= c')%nat -> (bars c <= bars c')%nat.
Proof.
  intros H. unfold bars. rewrite <- (take_drop c (take c' prog)), take_take, Nat.min_l by done.
  rewrite filter_app, length_app. lia.
Qed.

(** No thread has left a barrier that another one has not arrived at. *)
Lemma einv_barrier m g x0 s i j x y :
  einv m g x0 s -> e_threads s !! i = Some x -> e_threads s !! j = Some y ->
  (passed (region x0) x <= arrived (region x0) y)%nat.
Proof.
  intros HI Hi Hj. destruct (ei_threads _ _ _ _ HI _ _ Hi) as [Hp Hl], (ei_threads _ _ _ _ HI _ _ Hj) as [_ Hl'].
  assert (m <= arrived (region x0) y)%nat by (rewrite Hl'; unfold level; destruct (at_ y); try lia; case_match; lia).
  enough (passed (region x0) x <= m)%nat by lia. destruct (decide (region x = region x0)) as [E|E].
  - rewrite arrived_in in Hl by done. unfold passed. rewrite decide_True by done. unfold level in Hl.
    destruct (at_ x); cbn [at_barrier] in Hl; try lia. case_match; lia.
  - rewrite arrived_out in Hl by done. unfold passed. rewrite decide_False by done. rewrite Hl. unfold level, place_ok in *.
    destruct (at_ x); destruct_and?; done.
Qed.

(** A thread that waits for its event. *)
Definition event_waiting (x : ethread) : Prop :=
  flag x = false /\ (at_ x = Ready \/ at_ x = AtBarrier \/ at_ x = AtJoin).

Lemma waiting_open m g x0 s :
  einv m g x0 s -> (forall j y, e_threads s !! j = Some y -> event_waiting y) -> g = Open.
Proof.
  intros HI Hall. pose proof (ei_gate _ _ _ _ HI) as Hg. destruct g as [|l|l k]; [done| |];
    destruct Hg as (y & Hy & Hyp); destruct (Hall _ _ Hy) as [_ Hw]; rewrite Hyp in Hw; by destruct_or?.
Qed.

(** A thread that waits in the region waits at a barrier, where others are to come. *)
Lemma waiting_at_barrier m x0 s j y :
  einv m Open x0 s -> at_ x0 <> Serial -> (forall k, at_ x0 <> Forks k) -> e_threads s !! j = Some y ->
  event_waiting y -> region y = region x0 -> at_ y <> AtJoin ->
  at_ y = AtBarrier /\ arrived (region x0) y = S m /\ (S m <= bars (length prog))%nat.
Proof.
  intros HI Hse Hfk Hj [Hf Hw] Hr Hj0. destruct (ei_threads _ _ _ _ HI _ _ Hj) as [Hp Hl].
  unfold place_ok in Hp. unfold level in Hl. destruct Hw as [Hw|[Hw|Hw]]; [| |done].
  - rewrite Hw in Hp. destruct Hp as (_ & _ & _ & [[_ Hs]|[? _]]); [|lia]. rewrite Hf in Hs.
    destruct (at_ x0); try done. by destruct (Hfk k).
  - rewrite Hw, Hf in Hl. cbn [orb held] in Hl. split_and!; [done|done|]. rewrite <- Hl, arrived_in, Hw by done. cbn [at_barrier].
    rewrite Hw in Hp. destruct Hp as (_ & _ & Hd & _). pose proof (bars_S _ _ Hd) as HS. rewrite decide_True in HS by done.
    rewrite <- HS. apply bars_le. apply lookup_lt_Some in Hd. lia.
Qed.

Lemma einv_not_all_waiting m g x0 s :
  einv m g x0 s -> (forall j y, e_threads s !! j = Some y -> event_waiting y) -> False.
Proof.
  intros HI Hall. pose proof (waiting_open _ _ _ _ HI Hall) as ->. pose proof (Hall _ _ (ei_master _ _ _ _ HI)) as Hw0.
  pose proof (ei_threads _ _ _ _ HI _ _ (ei_master _ _ _ _ HI)) as [Hp0 Hl0]. unfold place_ok in Hp0. unfold level in Hl0.
  assert (at_ x0 <> Serial) as Hse by (intros E; destruct Hw0 as [_ Hw0]; rewrite E in Hw0; by destruct_or?).
  assert (forall k, at_ x0 <> Forks k) as Hfk by (intros k E; destruct Hw0 as [_ Hw0]; rewrite E in Hw0; by destruct_or?).
  destruct Hw0 as [Hf0 [Hw0|[Hw0|Hw0]]].
  - rewrite Hw0 in Hp0. by destruct Hp0.
  - destruct (waiting_at_barrier m x0 s 0 x0 HI Hse Hfk (ei_master _ _ _ _ HI)) as (_ & Ha0 & Hm); [by apply (Hall 0%nat), HI|done|by rewrite Hw0|].
    destruct (total_pos _ _ (fun x => proj1 (waiting_range m (region x0) x)) (ei_least _ _ _ _ HI)) as (j & y & Hj & Hy).
    assert (arrived (region x0) y = m) as Hya by (unfold waiting_for in Hy; case_decide; [done|lia]).
    destruct (decide (region y = region x0)) as [Hr|Hr]; [|rewrite arrived_out in Hya by done; lia].
    destruct (decide (at_ y = AtJoin)) as [E|E].
    + destruct (ei_threads _ _ _ _ HI _ _ Hj) as [Hpy _]. unfold place_ok in Hpy. rewrite E in Hpy. destruct Hpy as [-> _].
      rewrite (master_is _ _ _ _ _ _ HI Hj eq_refl) in E. congruence.
    + destruct (waiting_at_barrier _ _ _ _ _ HI Hse Hfk Hj (Hall _ _ Hj) Hr E) as (_ & ? & _). lia.
  - rewrite Hw0 in Hp0, Hl0. destruct Hp0 as (_ & _ & Hd). rewrite arrived_in, Hd, Hw0 in Hl0 by done. cbn in Hl0.
    pose proof (ei_working _ _ _ _ HI) as Hwk. rewrite decide_False in Hwk by done.
    pose proof (total_nonneg (unjoined (region x0)) (e_threads s) (fun x => proj1 (unjoined_range _ x))).
    destruct (decide (e_working s = 0)) as [Ez|Ez].
    + pose proof (ei_wakers _ _ _ _ HI) as HK. rewrite decide_True in HK by done.
      destruct (total_pos wakes_master (e_threads s) (fun x => proj1 (wakes_range x)) ltac:(lia)) as (j & y & Hj & Hy).
      destruct (Hall _ _ Hj) as [_ Hyw]. unfold wakes_master in Hy. destruct (at_ y); try lia; by destruct_or?.
    + destruct (total_pos (unjoined (region x0)) (e_threads s) (fun x => proj1 (unjoined_range _ x)) ltac:(lia)) as (j & y & Hj & Hy).
      unfold unjoined in Hy. case_decide as Hr; [|lia].
      destruct (waiting_at_barrier _ _ _ _ _ HI Hse Hfk Hj (Hall _ _ Hj) Hr) as (_ & ? & ?); [intros E; by rewrite E in Hy|lia].
Qed.

(** When every thread waits or the master has run all regions, all are through. *)
Lemma einv_end m g x0 s :
  einv m g x0 s ->
  (forall j y, e_threads s !! j = Some y -> event_waiting y \/ at_ y = Serial /\ region y = R) ->
  x0 = mkE Serial false R 0 /\ forall j y, j <> 0%nat -> e_threads s !! j = Some y -> y = mkE Ready false R 0.
Proof.
  intros HI Hall. destruct (Hall _ _ (ei_master _ _ _ _ HI)) as [Hw|[Hse Hr]].
  - exfalso. apply (einv_not_all_waiting _ _ _ _ HI). intros j y Hj. destruct (Hall j y Hj) as [|[Hse _]]; [done|].
    destruct (ei_threads _ _ _ _ HI _ _ Hj) as [Hp _]. unfold place_ok in Hp. rewrite Hse in Hp. destruct Hp as [-> _].
    by rewrite (master_is _ _ _ _ _ _ HI Hj eq_refl).
  - split.
    + pose proof (ei_threads _ _ _ _ HI _ _ (ei_master _ _ _ _ HI)) as [Hp0 _]. unfold place_ok in Hp0. rewrite Hse in Hp0.
      destruct Hp0 as (_ & _ & Hf & Hd), x0. cbn in *. by subst.
    + intros j y Hne Hj. destruct (serial_ready _ _ _ _ _ _ HI Hse Hne Hj) as (?&?&?&?&_), y. cbn in *. subst. by rewrite Hr.
Qed.

(** ** Bounds of the counters *)
Lemma run_barrier_count m g x0 s i x :
  einv m g x0 s -> e_threads s !! i = Some x -> at_ x = Run -> 1 <= e_barrier s <= Z.of_nat T.
Proof.
  intros HI Hi Hx. destruct (ei_threads _ _ _ _ HI _ _ Hi) as [Hp Hl]. unfold place_ok in Hp. unfold level in Hl. rewrite Hx in Hp, Hl.
  destruct Hp as (Hh & _ & _ & _ & Hs). destruct (ei_barrier _ _ _ _ HI) as [E|Hb]; [by rewrite E in Hs|].
  assert (e_barrier s = total (waiting_for m (region x0)) (e_threads s)) as ->.
  { rewrite Hb. unfold barrier_count_of. destruct g as [|l|]; [done| |done]. cbn in Hh. apply negb_false_iff, Nat.eqb_eq in Hh. subst l.
    destruct (ei_gate _ _ _ _ HI) as (y & Hy & Hyp). congruence. }
  pose proof (ei_least _ _ _ _ HI).
  pose proof (total_bound (waiting_for m (region x0)) (e_threads s) 1 (fun x _ => proj2 (waiting_range _ _ x))) as H1.
  rewrite (ei_length _ _ _ _ HI) in H1. lia.
Qed.

Lemma working_count m g x0 s i x :
  einv m g x0 s -> e_threads s !! i = Some x -> at_ x0 <> Serial -> unjoined (region x0) x = 1 ->
  1 <= e_working s <= Z.of_nat T.
Proof.
  intros HI Hi Hse Hu. rewrite (ei_working _ _ _ _ HI), decide_False by done.
  pose proof (total_member (unjoined (region x0)) _ _ _ (fun x => proj1 (unjoined_range _ x)) Hi).
  pose proof (total_bound (unjoined (region x0)) (e_threads s) 1 (fun x _ => proj2 (unjoined_range _ x))) as H1.
  rewrite (ei_length _ _ _ _ HI) in H1. lia.
Qed.

(** A worker that is not through keeps the master from being the last. *)
Lemma working_two m g x0 s i x :
  einv m g x0 s -> e_threads s !! i = Some x -> i <> 0%nat -> at_ x0 = Joins -> unjoined (region x0) x = 1 ->
  2 <= e_working s.
Proof.
  intros HI Hi Hne Hx0 Hu. rewrite (ei_working _ _ _ _ HI), decide_False by (by rewrite Hx0).
  pose proof (total_two (unjoined (region x0)) _ _ _ _ _ (fun x => proj1 (unjoined_range _ x)) Hne Hi (ei_master _ _ _ _ HI)) as H2.
  assert (unjoined (region x0) x0 = 1) by (unfold unjoined; rewrite decide_True, Hx0 by done; done). lia.
Qed.

(** ** The thread that is to be woken waits, and its event is not raised *)
Lemma fork_target m g x0 s i k x y :
  einv m g x0 s -> e_threads s !! i = Some x -> at_ x = Forks k -> e_threads s !! k = Some y ->
  at_ y = Ready /\ flag y = false.
Proof.
  intros HI Hi Hx Hk. destruct (ei_threads _ _ _ _ HI _ _ Hi) as [Hp _], (ei_threads _ _ _ _ HI _ _ Hk) as [Hpk _].
  unfold place_ok in Hp. rewrite Hx in Hp. destruct Hp as (-> & Hh & _ & _ & Hk1 & _).
  rewrite (master_is _ _ _ _ _ _ HI Hi eq_refl) in Hx. unfold place_ok in Hpk. rewrite Hx in Hpk.
  cbn [started] in Hpk. rewrite (proj2 (Nat.ltb_ge k k)) in Hpk by lia.
  destruct (at_ y); destruct_and?; try done; try lia. destruct_or?; destruct_and?; done.
Qed.

Lemma barrier_target m g x0 s i k x y :
  einv m g x0 s -> e_threads s !! i = Some x -> at_ x = Releases k -> i <> k -> e_threads s !! k = Some y ->
  at_ y = AtBarrier /\ flag y = false.
Proof.
  intros HI Hi Hx Hne Hk. destruct (ei_threads _ _ _ _ HI _ _ Hi) as [Hp _].
  unfold place_ok in Hp. rewrite Hx in Hp. destruct Hp as (-> & _).
  destruct (held_waits _ _ _ _ _ _ (ei_threads _ _ _ _ HI _ _ Hk)) as (? & ? & _); [|done].
  cbn [held]. by rewrite (proj2 (Nat.eqb_neq i k)), Nat.leb_refl by done.
Qed.

Lemma join_target m g x0 s i x y :
  einv m g x0 s -> e_threads s !! i = Some x -> at_ x = WakesMaster -> e_threads s !! 0%nat = Some y ->
  at_ y = AtJoin /\ flag y = false.
Proof.
  intros HI Hi Hx Hy. rewrite (master_is _ _ _ _ _ _ HI Hy eq_refl).
  pose proof (total_member wakes_master _ _ _ (fun x => proj1 (wakes_range x)) Hi) as HK.
  rewrite (ei_wakers _ _ _ _ HI) in HK. unfold wakes_master in HK. rewrite Hx in HK. case_decide as Hd; [|lia]. tauto.
Qed.
End Events.
