(* ===== verification/OmpTeam.v ===== *)
(** A team of OpenMP threads: the model of [libopenmp/thread.c], [team.c] and [idstack.h].

    The main thread runs one parallel region after the other with a team of [T]
    threads.  Every thread is a sequence of steps, one for each access to memory
    that other threads access too; the steps of the threads interleave.  The
    threads execute the constructs [prog] in every region.  [__pmp_thread_wait]
    and [__pmp_thread_wake] are the hand-shake on [thread->sync] and the signal
    SIGPMP, which [sigwait] accepts and which stays pending until then. *)
From Stdlib Require Import ZArith Lia Bool.
From stdpp Require Import prelude list relations.
From S2P Require Import Prelude OmpEvents.

Definition PMP_SYNC_IDLE : Z := 0.
Definition PMP_SYNC_BLOCKED : Z := 1.
Definition PMP_SYNC_UNBLOCKED : Z := 2.
Definition PMP_MAX_IDS : nat := 256.

(** Where a thread is in [__pmp_thread_wait], and in [__pmp_thread_wake]. *)
Inductive wait_at : Type := Wait_first | Wait_spin (i : Z) | Wait_swap | Wait_suspend | Wait_reset.
Inductive wake_at : Type := Wake_swap | Wake_idle | Wake_kill.

(** What a thread waits for ([__pmp_thread_run], [__pmp_thread_barrier],
    [__pmp_thread_master_join]), and why it wakes others ([__pmp_thread_assign],
    [__pmp_thread_barrier], [__pmp_thread_worker_join]). *)
Inductive wait_for : Type := For_assignment | For_barrier | For_join.
Inductive wake_for : Type := At_fork | At_barrier | At_join.

Inductive omp_pc : Type :=
| Starting | Waiting (p : wait_for) (w : wait_at) | Waking (e : wake_for) (k g : nat) (w : wake_at)
| Entering | Working | Barrier_reset | Barrier_wakes (k : nat) | Join_wakes | Idling
| Outside | Forking (k : nat) | Fork_wakes (k : nat)
| Master_spin (i : Z) | Master_zero | Master_join | Releases_ids (k : nat).

(** The fields of [pmp_thread_t] that matter, [signal]: SIGPMP is pending,
    [has_tid]: [tid != -1], [has_team]: [team != NULL]; and the control state: the
    place, the regions and the constructs that the thread has finished, and the
    [single] constructs [(region, construct)] for which it got 1. *)
Record omp_thread : Type := mkOT {
  sync : Z; signal : bool; has_tid : bool;
  my_single_count : Z; my_local_id : Z; has_team : bool; nesting_depth : Z;
  pc : omp_pc; regions : nat; constructs : nat; won : list (nat * nat)
}.

Definition set_sync (t : omp_thread) (v : Z) : omp_thread :=
  mkOT v (signal t) (has_tid t) (my_single_count t) (my_local_id t) (has_team t) (nesting_depth t)
    (pc t) (regions t) (constructs t) (won t).
Definition set_signal (t : omp_thread) (b : bool) : omp_thread :=
  mkOT (sync t) b (has_tid t) (my_single_count t) (my_local_id t) (has_team t) (nesting_depth t)
    (pc t) (regions t) (constructs t) (won t).
Definition set_tid (t : omp_thread) : omp_thread :=
  mkOT (sync t) (signal t) true (my_single_count t) (my_local_id t) (has_team t) (nesting_depth t)
    (pc t) (regions t) (constructs t) (won t).
Definition set_pc (t : omp_thread) (p : omp_pc) : omp_thread :=
  mkOT (sync t) (signal t) (has_tid t) (my_single_count t) (my_local_id t) (has_team t) (nesting_depth t)
    p (regions t) (constructs t) (won t).
Definition next_construct (t : omp_thread) : omp_thread :=
  mkOT (sync t) (signal t) (has_tid t) (my_single_count t) (my_local_id t) (has_team t) (nesting_depth t)
    Working (regions t) (S (constructs t)) (won t).
Definition end_region (t : omp_thread) (p : omp_pc) : omp_thread :=
  mkOT (sync t) (signal t) (has_tid t) (my_single_count t) (my_local_id t) (has_team t) (nesting_depth t)
    p (S (regions t)) 0 (won t).
Definition set_team (t : omp_thread) (id : Z) (b : bool) (depth : Z) : omp_thread :=
  mkOT (sync t) (signal t) (has_tid t) (my_single_count t) id b depth
    (pc t) (regions t) (constructs t) (won t).
Definition set_single (t : omp_thread) (c : Z) (w : list (nat * nat)) : omp_thread :=
  mkOT (sync t) (signal t) (has_tid t) c (my_local_id t) (has_team t) (nesting_depth t)
    (pc t) (regions t) (constructs t) w.

(** The fields of [pmp_team_t]; a member is a global thread id, [None] is [NULL]. *)
Record omp_team : Type := mkOTeam {
  team_size : Z; members : list (option nat); working_threads : Z; barrier_count : Z; single_count : Z
}.

Record pmp_idstack : Type := mkIds { num_ids : nat; stack : list nat }.

(** Threads are listed by their global id. *)
Record omp_state : Type := mkOmp { team : omp_team; idstack : pmp_idstack; threads : list omp_thread }.

Definition set_working (m : omp_team) (v : Z) : omp_team :=
  mkOTeam (team_size m) (members m) v (barrier_count m) (single_count m).
Definition set_barrier (m : omp_team) (v : Z) : omp_team :=
  mkOTeam (team_size m) (members m) (working_threads m) v (single_count m).
Definition set_team_single (m : omp_team) (v : Z) : omp_team :=
  mkOTeam (team_size m) (members m) (working_threads m) (barrier_count m) v.
Definition set_member (m : omp_team) (k : nat) (g : nat) : omp_team :=
  mkOTeam (team_size m) (<[k := Some g]> (members m)) (working_threads m) (barrier_count m) (single_count m).

Definition __pmp_idstack_init : pmp_idstack := mkIds PMP_MAX_IDS (rev (seq 0 PMP_MAX_IDS)).

Definition __pmp_idstack_pop (st : pmp_idstack) : outcome (pmp_idstack * nat) :=
  assert* (0 <? num_ids st)%nat in
  let* id := of_option Bounds (stack st !! (num_ids st - 1)%nat) in
  Ok (mkIds (num_ids st - 1) (stack st), id).

Definition __pmp_idstack_push (st : pmp_idstack) (id : nat) : outcome pmp_idstack :=
  assert* (num_ids st <? PMP_MAX_IDS)%nat in
  Ok (mkIds (num_ids st + 1) (<[num_ids st := id]> (stack st))).

(** ** Waiting and waking *)
Inductive wait_result : Type := Waits (t : omp_thread) (w : wait_at) | Returns (t : omp_thread) | Blocks.

Definition __pmp_thread_wait (thread_spin : Z) (t : omp_thread) (w : wait_at) : wait_result :=
  match w with
  | Wait_first => Waits t (if sync t =? PMP_SYNC_UNBLOCKED then Wait_reset else Wait_spin 0)
  | Wait_spin i =>
      Waits t (if i <? thread_spin
               then if sync t =? PMP_SYNC_UNBLOCKED then Wait_reset else Wait_spin (i + 1)
               else Wait_swap)
  | Wait_swap =>
      if sync t =? PMP_SYNC_IDLE then Waits (set_sync t PMP_SYNC_BLOCKED) Wait_suspend else Waits t Wait_reset
  | Wait_suspend => if signal t then Returns (set_signal t false) else Blocks
  | Wait_reset => Returns (set_sync t PMP_SYNC_IDLE)
  end.

(** [thread] is the thread that is woken; [None]: the call returns. *)
Definition __pmp_thread_wake (thread : omp_thread) (w : wake_at) : outcome (omp_thread * option wake_at) :=
  match w with
  | Wake_swap =>
      let old := sync thread in
      let thread := if old =? PMP_SYNC_IDLE then set_sync thread PMP_SYNC_UNBLOCKED else thread in
      assert* negb (old =? PMP_SYNC_UNBLOCKED) in
      Ok (thread, if old =? PMP_SYNC_BLOCKED then Some Wake_idle else None)
  | Wake_idle => Ok (set_sync thread PMP_SYNC_IDLE, Some Wake_kill)
  | Wake_kill => assert* has_tid thread in Ok (set_signal thread true, None)
  end.

Section Team.
Context (T : nat) (thread_spin : Z) (prog : list construct) (R : nat).

Definition put (s : omp_state) (i : nat) (t : omp_thread) : omp_state :=
  mkOmp (team s) (idstack s) (<[i := t]> (threads s)).
Definition with_team (s : omp_state) (m : omp_team) : omp_state := mkOmp m (idstack s) (threads s).

Definition thread_of (s : omp_state) (g : nat) : outcome omp_thread := of_option Bounds (threads s !! g).
Definition team_member (s : omp_state) (k : nat) : outcome nat :=
  match members (team s) !! k with Some (Some g) => Ok g | _ => Err Bounds end.

(** What follows a call of [__pmp_thread_wait], and of [__pmp_thread_wake]. *)
Definition after_wait (p : wait_for) (s : omp_state) (t : omp_thread) : omp_thread :=
  match p with
  | For_assignment => set_pc t Entering
  | For_barrier => next_construct t
  | For_join => set_pc t (Releases_ids (Z.to_nat (team_size (team s) - 1)))
  end.
Definition after_wake (e : wake_for) (k : nat) : omp_pc :=
  match e with At_fork => Fork_wakes (S k) | At_barrier => Barrier_wakes (S k) | At_join => Idling end.

Definition some (s : omp_state) : outcome (option omp_state) := Ok (Some s).

(** [__pmp_thread_barrier] up to the decrement of [barrier_count]. *)
Definition barrier_step (s : omp_state) (i : nat) (t : omp_thread) : outcome (option omp_state) :=
  if 1 <? team_size (team s) then
    let count := barrier_count (team s) in
    let s := with_team s (set_barrier (team s) (swrap 32 (count - 1))) in
    assert* 0 <? count in
    some (put s i (set_pc t (if 1 <? count then Waiting For_barrier Wait_first else Barrier_reset)))
  else some (put s i (next_construct t)).

(** [__pmp_thread_single]. *)
Definition single_step (s : omp_state) (i : nat) (t : omp_thread) : outcome (option omp_state) :=
  let this := (regions t, constructs t) in
  if team_size (team s) =? 1 then some (put s i (next_construct (set_single t (my_single_count t) (this :: won t))))
  else
    let thread_count := my_single_count t in
    let team_count := single_count (team s) in
    let s := if team_count =? thread_count
             then with_team s (set_team_single (team s) (swrap 32 (thread_count + 1))) else s in
    some (put s i (next_construct (set_single t (swrap 32 (thread_count + 1))
                                     (if thread_count =? team_count then this :: won t else won t)))).

(** [__pmp_thread_worker_join] up to the decrement of [working_threads]. *)
Definition worker_join_step (s : omp_state) (i : nat) (t : omp_thread) : outcome (option omp_state) :=
  let count := working_threads (team s) in
  let s := with_team s (set_working (team s) (swrap 32 (count - 1))) in
  assert* 1 <=? count in
  some (put s i (end_region t (if count =? 1 then Join_wakes else Idling))).

(** [__pmp_thread_fork] up to the call of [__pmp_thread_assign] in [__pmp_team_alloc];
    [__pmp_thread_acquire] has reserved [T - 1] threads. *)
Definition fork_step (s : omp_state) (i : nat) (t : omp_thread) : outcome (option omp_state) :=
  if (regions t <? R)%nat then
    let nthreads := Z.of_nat T in
    let t := set_single (set_team t 0 (has_team t) (nesting_depth t + 1)) 0 (won t) in
    assert* 0 <? nthreads in
    assert* team_size (team s) =? 0 in
    let m := set_member (mkOTeam nthreads (members (team s)) nthreads nthreads 0) 0 i in
    some (put (with_team s m) i (set_pc t (Forking 1)))
  else Ok None.

(** A turn of the loop of [__pmp_thread_assign] that holds the lock. *)
Definition assign_step (s : omp_state) (i : nat) (t : omp_thread) (k : nat) : outcome (option omp_state) :=
  if (k <? T)%nat then
    let* r := __pmp_idstack_pop (idstack s) in
    let* thread := thread_of s (snd r) in
    assert* my_local_id thread =? -1 in
    assert* negb (has_team thread) in
    let s := mkOmp (set_member (team s) k (snd r)) (fst r)
               (<[snd r := set_team thread (Z.of_nat k) true (nesting_depth thread)]> (threads s)) in
    some (put s i (set_pc t (Forking (S k))))
  else some (put s i (set_pc t (Fork_wakes 1))).

(** A turn of the loop of [__pmp_thread_release]; in the end [__pmp_team_free] and the
    rest of [__pmp_thread_fork]. *)
Definition release_step (s : omp_state) (i : nat) (t : omp_thread) (k : nat) : outcome (option omp_state) :=
  if (1 <=? k)%nat then
    let* g := team_member s k in
    let* thread := thread_of s g in
    assert* negb (g =? i)%nat in
    let* ids := __pmp_idstack_push (idstack s) g in
    let s := mkOmp (team s) ids (<[g := set_team thread (-1) false (nesting_depth thread)]> (threads s)) in
    some (put s i (set_pc t (Releases_ids (k - 1))))
  else
    let m := team s in
    assert* working_threads m =? 0 in
    assert* 0 <? nesting_depth t in
    let s := with_team s (mkOTeam 0 (members m) (working_threads m) (barrier_count m) (single_count m)) in
    some (put s i (end_region (set_team t 0 false (nesting_depth t - 1)) Outside)).

(** A step of thread [i]; [None]: the thread waits for a signal, or is through. *)
Definition omp_step (s : omp_state) (i : nat) : outcome (option omp_state) :=
  let* t := thread_of s i in
  match pc t with
  | Starting => some (put s i (set_pc (set_tid t) (Waiting For_assignment Wait_first)))
  | Waiting p w =>
      match __pmp_thread_wait thread_spin t w with
      | Waits t w => some (put s i (set_pc t (Waiting p w)))
      | Returns t => some (put s i (after_wait p s t))
      | Blocks => Ok None
      end
  | Waking e k g w =>
      let* thread := thread_of s g in
      let* r := __pmp_thread_wake thread w in
      some (put (put s g (fst r)) i
              (set_pc t (match snd r with Some w => Waking e k g w | None => after_wake e k end)))
  | Entering => assert* has_team t in some (put s i (set_pc t Working))
  | Working =>
      match prog !! constructs t with
      | Some Barrier => barrier_step s i t
      | Some Single => single_step s i t
      | None => if (i =? 0)%nat then some (put s i (set_pc t (Master_spin 0))) else worker_join_step s i t
      end
  | Barrier_reset =>
      some (put (with_team s (set_barrier (team s) (team_size (team s)))) i (set_pc t (Barrier_wakes 0)))
  | Barrier_wakes k =>
      if Z.of_nat k <? team_size (team s) then
        let* g := team_member s k in
        some (put s i (set_pc t (if negb (Z.of_nat k =? my_local_id t) then Waking At_barrier k g Wake_swap
                                 else Barrier_wakes (S k))))
      else some (put s i (next_construct t))
  | Join_wakes => let* g := team_member s 0 in some (put s i (set_pc t (Waking At_join 0 g Wake_swap)))
  | Idling => some (put s i (set_pc (set_single (set_team t (my_local_id t) (has_team t) 0) 0 (won t))
                               (Waiting For_assignment Wait_first)))
  | Outside => fork_step s i t
  | Forking k => assign_step s i t k
  | Fork_wakes k =>
      if (k <? T)%nat then let* g := team_member s k in some (put s i (set_pc t (Waking At_fork k g Wake_swap)))
      else some (put s i (set_pc (set_team t (my_local_id t) true (nesting_depth t)) Entering))
  | Master_spin n =>
      some (put s i (set_pc t (if n <? thread_spin
                               then if working_threads (team s) =? 1 then Master_zero else Master_spin (n + 1)
                               else Master_join)))
  | Master_zero =>
      some (put (with_team s (set_working (team s) 0)) i (set_pc t (Releases_ids (Z.to_nat (team_size (team s) - 1)))))
  | Master_join =>
      let count := working_threads (team s) in
      let s := with_team s (set_working (team s) (swrap 32 (count - 1))) in
      assert* 1 <=? count in
      some (put s i (set_pc t (if 1 <? count then Waiting For_join Wait_first
                               else Releases_ids (Z.to_nat (team_size (team s) - 1)))))
  | Releases_ids k => release_step s i t k
  end.

Definition tstep (s s' : omp_state) : Prop := exists i, (i < length (threads s))%nat /\ omp_step s i = Ok (Some s').

(** The main thread has been created and has taken its id; the others have just been
    created. *)
Definition main_thread : omp_thread := mkOT PMP_SYNC_IDLE false true 0 0 false 0 Outside 0 0 [].
Definition new_thread : omp_thread := mkOT PMP_SYNC_IDLE false false 0 (-1) false 0 Starting 0 0 [].
Definition start_state : omp_state :=
  mkOmp (mkOTeam 0 (replicate PMP_MAX_IDS None) 0 0 0) (mkIds (PMP_MAX_IDS - 1) (stack __pmp_idstack_init))
    (main_thread :: replicate (T - 1) new_thread).

(** Run the threads in the order of a schedule; a thread that waits is skipped. *)
Fixpoint run (schedule : list nat) (s : omp_state) : outcome omp_state :=
  match schedule with
  | [] => Ok s
  | i :: rest => let* o := omp_step s i in run rest (default s o)
  end.
End Team.
