(* ===== verification/OmpTeamInv.v ===== *)
(** The threads of [OmpTeam] implement the events of [OmpEvents].

    [abs] is the state with events that a state of the threads stands for: an event
    is raised from the compare-and-swap of [__pmp_thread_wake] until the thread
    that waits for it returns from [__pmp_thread_wait].  Every step of a thread is a
    step with events, or is not visible, and never fails. *)
From Stdlib Require Import ZArith Lia Bool.
From stdpp Require Import prelude list relations.
From S2P Require Import Prelude OmpEvents OmpEventsInv OmpTeam.

Definition place_of (p : omp_pc) : place :=
  match p with
  | Starting | Idling | Waiting For_assignment _ => Ready
  | Waiting For_barrier _ => AtBarrier
  | Waiting For_join _ => AtJoin
  | Waking At_fork k _ Wake_swap => Forks k
  | Waking At_fork k _ _ => Forks (S k)
  | Waking At_barrier k _ Wake_swap => OmpEvents.Releases k
  | Waking At_barrier k _ _ => OmpEvents.Releases (S k)
  | Waking At_join _ _ Wake_swap | Join_wakes => WakesMaster
  | Waking At_join _ _ _ => Ready
  | Entering | Working => Run
  | Barrier_reset => Resets
  | Barrier_wakes k => OmpEvents.Releases k
  | Outside => Serial
  | Forking _ => Forks 1
  | Fork_wakes k => Forks k
  | Master_spin _ | Master_zero | Master_join => Joins
  | Releases_ids _ => Joined
  end.

(** Thread [x] is about to put thread [j] back to [PMP_SYNC_IDLE], to signal it. *)
Definition idles (j : nat) (x : omp_thread) : Z :=
  match pc x with Waking _ _ g Wake_idle => if decide (g = j) then 1 else 0 | _ => 0 end.
Definition kills (j : nat) (x : omp_thread) : Z :=
  match pc x with Waking _ _ g Wake_kill => if decide (g = j) then 1 else 0 | _ => 0 end.

Definition flag_of (ths : list omp_thread) (j : nat) (x : omp_thread) : bool :=
  (sync x =? PMP_SYNC_UNBLOCKED) || signal x || (0 <? total (idles j) ths + total (kills j) ths).
Definition event_of (ths : list omp_thread) (j : nat) (x : omp_thread) : ethread :=
  mkE (place_of (pc x)) (flag_of ths j x) (regions x) (constructs x).
Definition abs (s : omp_state) : estate :=
  mkES (working_threads (team s)) (barrier_count (team s)) (imap (event_of (threads s)) (threads s)).

(** The hand-shake: what [I] threads about to make thread [x] idle and [K] threads about
    to signal it say about [sync] and the signal. *)
Definition wait_ok (I K : Z) (x : omp_thread) (w : wait_at) : Prop :=
  match w with
  | Wait_suspend =>
      sync x = PMP_SYNC_BLOCKED /\ signal x = false /\ 0 <= I <= 1 /\ K = 0 \/
      sync x = PMP_SYNC_IDLE /\ signal x = false /\ I = 0 /\ K = 1 \/
      sync x = PMP_SYNC_IDLE /\ signal x = true /\ I = 0 /\ K = 0
  | Wait_reset => sync x = PMP_SYNC_UNBLOCKED /\ signal x = false /\ I = 0 /\ K = 0
  | _ => (sync x = PMP_SYNC_IDLE \/ sync x = PMP_SYNC_UNBLOCKED) /\ signal x = false /\ I = 0 /\ K = 0
  end.

Definition hand_ok (I K : Z) (x : omp_thread) : Prop :=
  (pc x = Starting \/ has_tid x = true) /\
  match pc x with
  | Waiting _ w => wait_ok I K x w
  | Idling | Starting => wait_ok I K x Wait_first
  | _ => sync x = PMP_SYNC_IDLE /\ signal x = false /\ I = 0 /\ K = 0
  end.

(** The members that the master has: by where it is. *)
Definition assigned (T : nat) (p : omp_pc) : nat :=
  match p with Outside => 1 | Forking k => k | Releases_ids k => S k | _ => T end.
Definition is_outside (p : omp_pc) : bool := match p with Outside => true | _ => false end.
Definition master_has_team (p : omp_pc) : bool :=
  match p with Outside | Forking _ | Fork_wakes _ | Waking At_fork _ _ _ => false | _ => true end.
Definition stage_ok (T : nat) (p : omp_pc) : Prop :=
  match p with Forking k => (1 <= k <= T)%nat | Releases_ids k => (k < T)%nat | _ => True end.

Record ids_ok (T : nat) (p : omp_pc) (s : omp_state) : Prop := {
  io_stage : stage_ok T p;
  io_size : team_size (team s) = if is_outside p then 0 else Z.of_nat T;
  io_ids : num_ids (idstack s) = (PMP_MAX_IDS - assigned T p)%nat;
  io_stack : stack (idstack s) = stack __pmp_idstack_init;
  io_length : length (members (team s)) = PMP_MAX_IDS;
  io_members : is_outside p = false ->
    forall j, (j < assigned T p)%nat -> members (team s) !! j = Some (Some j);
  io_threads : forall j x, threads s !! j = Some x ->
    my_local_id x = (if decide (j < assigned T p)%nat then Z.of_nat j else -1) /\
    has_team x = if decide (j = 0%nat) then master_has_team p else bool_decide (j < assigned T p)%nat;
  io_nesting : forall x, threads s !! 0%nat = Some x -> nesting_depth x = if is_outside p then 0 else 1
}.

Definition waking_ok (T : nat) (j : nat) (p : omp_pc) : Prop :=
  match p with
  | Waking e k g _ => g = k /\ (k < T)%nat /\ k <> j /\
      match e with At_join => k = 0%nat | At_fork => j = 0%nat | At_barrier => True end
  | _ => True
  end.

(** [w] is [working_threads]. *)
Record hinv (T : nat) (w : Z) (ths : list omp_thread) : Prop := {
  hi_hand : forall j x, ths !! j = Some x -> hand_ok (total (idles j) ths) (total (kills j) ths) x;
  hi_waking : forall j x, ths !! j = Some x -> waking_ok T j (pc x);
  hi_zero : forall x, ths !! 0%nat = Some x -> pc x = Master_zero -> w = 1
}.

Record cinv (T : nat) (s : omp_state) : Prop := {
  ci_h : hinv T (working_threads (team s)) (threads s);
  ci_ids : forall x, threads s !! 0%nat = Some x -> ids_ok T (pc x) s
}.

Lemma ci_hand T s : cinv T s -> forall j x, threads s !! j = Some x ->
  hand_ok (total (idles j) (threads s)) (total (kills j) (threads s)) x.
Proof. intros HC. apply HC. Qed.
Lemma ci_waking T s : cinv T s -> forall j x, threads s !! j = Some x -> waking_ok T j (pc x).
Proof. intros HC. apply HC. Qed.
Lemma ci_zero T s : cinv T s -> forall x, threads s !! 0%nat = Some x -> pc x = Master_zero -> working_threads (team s) = 1.
Proof. intros HC. apply HC. Qed.

(** ** The abstraction *)
Lemma idles_range j x : 0 <= idles j x <= 1.
Proof. unfold idles. repeat case_match; lia. Qed.
Lemma kills_range j x : 0 <= kills j x <= 1.
Proof. unfold kills. repeat case_match; lia. Qed.

Definition owes (x : omp_thread) : bool :=
  match pc x with Waking _ _ _ (Wake_idle | Wake_kill) => true | _ => false end.

Lemma owes_nothing j x : owes x = false -> idles j x = 0 /\ kills j x = 0.
Proof. unfold owes, idles, kills. intros H. by repeat case_match. Qed.

Lemma abs_lookup s j : e_threads (abs s) !! j = event_of (threads s) j <$> threads s !! j.
Proof. apply list_lookup_imap. Qed.

Lemma abs_lookup_Some s j x : threads s !! j = Some x -> e_threads (abs s) !! j = Some (event_of (threads s) j x).
Proof. intros H. by rewrite abs_lookup, H. Qed.

Lemma event_of_ext ths ths' j x :
  total (idles j) ths' = total (idles j) ths -> total (kills j) ths' = total (kills j) ths ->
  event_of ths' j x = event_of ths j x.
Proof. intros HI HK. unfold event_of, flag_of. by rewrite HI, HK. Qed.

Definition same_debts (x x' : omp_thread) : Prop :=
  forall j, idles j x' = idles j x /\ kills j x' = kills j x.

(** A thread moves that neither was about to wake nor is about to wake. *)
Lemma owes_same x x' : owes x = false -> owes x' = false -> same_debts x x'.
Proof.
  intros Hx Hx' j. destruct (owes_nothing j x Hx) as [-> ->]. apply (owes_nothing j x' Hx').
Qed.

Lemma debts_totals ths i x x' j :
  ths !! i = Some x -> same_debts x x' ->
  total (idles j) (<[i := x']> ths) = total (idles j) ths /\ total (kills j) (<[i := x']> ths) = total (kills j) ths.
Proof. intros Hi Hx. rewrite !(total_insert _ _ _ _ _ Hi). destruct (Hx j) as [-> ->]. lia. Qed.

Lemma imap_event ths i x x' :
  ths !! i = Some x -> same_debts x x' ->
  imap (event_of (<[i := x']> ths)) (<[i := x']> ths) = <[i := event_of ths i x']> (imap (event_of ths) ths).
Proof.
  intros Hi Hx. apply list_eq. intros j. rewrite list_lookup_imap. destruct (decide (j = i)) as [->|Hne].
  - pose proof (lookup_lt_Some _ _ _ Hi). rewrite !list_lookup_insert_eq by (by rewrite ?length_imap). cbn. f_equal.
    by apply event_of_ext; eapply debts_totals.
  - rewrite !list_lookup_insert_ne, list_lookup_imap by done. destruct (ths !! j) as [y|]; [cbn; f_equal|done].
    by apply event_of_ext; eapply debts_totals.
Qed.

Lemma abs_put s i x x' m :
  threads s !! i = Some x -> same_debts x x' ->
  abs (put (with_team s m) i x') =
  mkES (working_threads m) (barrier_count m) (<[i := event_of (threads s) i x']> (e_threads (abs s))).
Proof. intros Hi Hx. unfold abs, put, with_team. cbn [team threads e_threads]. f_equal. by eapply imap_event. Qed.

(** ** Preservation *)
Definition same_stage (T : nat) (p p' : omp_pc) : Prop :=
  assigned T p' = assigned T p /\ is_outside p' = is_outside p /\ master_has_team p' = master_has_team p /\ stage_ok T p'.

Definition same_fields (x x' : omp_thread) : Prop :=
  my_local_id x' = my_local_id x /\ has_team x' = has_team x.

Lemma ids_put T p p' s i x x' m :
  ids_ok T p s -> threads s !! i = Some x -> same_stage T p p' -> same_fields x x' ->
  (i = 0%nat -> nesting_depth x' = nesting_depth x) ->
  team_size m = team_size (team s) -> members m = members (team s) -> ids_ok T p' (put (with_team s m) i x').
Proof.
  intros [H1 H2 H3 H4 H5 H6 H7 H8] Hi (Ha & Ho & Ht & Hs) [Hl Hh] Hn Hsz Hm.
  split; cbn [team idstack threads put with_team]; rewrite ?Ha, ?Ho, ?Ht, ?Hsz, ?Hm; try done.
  - intros j y Hj. destruct (decide (j = i)) as [->|Hne].
    + rewrite list_lookup_insert_eq in Hj by (by eapply lookup_lt_Some). injection Hj as <-. rewrite Hl, Hh. by apply H7.
    + rewrite list_lookup_insert_ne in Hj by done. by apply H7.
  - intros y Hj. destruct (decide (i = 0%nat)) as [->|Hne].
    + rewrite list_lookup_insert_eq in Hj by (by eapply lookup_lt_Some). injection Hj as <-. rewrite Hn by done. by apply H8.
    + rewrite list_lookup_insert_ne in Hj by done. by apply H8.
Qed.

(** The master's [team] changes. *)
Lemma ids_master T p p' s x x' :
  ids_ok T p s -> threads s !! 0%nat = Some x -> assigned T p' = assigned T p -> is_outside p' = is_outside p ->
  stage_ok T p' -> my_local_id x' = my_local_id x -> has_team x' = master_has_team p' ->
  nesting_depth x' = nesting_depth x -> ids_ok T p' (put (with_team s (team s)) 0 x').
Proof.
  intros [H1 H2 H3 H4 H5 H6 H7 H8] Hi Ha Ho Hs Hl Hh Hn. pose proof (lookup_lt_Some _ _ _ Hi) as Hlt.
  split; cbn [team idstack threads put with_team]; rewrite ?Ha, ?Ho; try done.
  - intros j y Hj. destruct (decide (j = 0%nat)) as [->|Hne].
    + rewrite list_lookup_insert_eq in Hj by done. injection Hj as <-. rewrite Hl. split; [by apply H7|done].
    + rewrite list_lookup_insert_ne in Hj by done. destruct (H7 j y Hj) as [? Hy]. rewrite decide_False in Hy by done. done.
  - intros y Hj. rewrite list_lookup_insert_eq in Hj by done. injection Hj as <-. rewrite Hn. by apply H8.
Qed.

Lemma hinv_put T w w' ths i x x' :
  hinv T w ths -> ths !! i = Some x -> same_debts x x' ->
  hand_ok (total (idles i) ths) (total (kills i) ths) x' -> waking_ok T i (pc x') ->
  (forall y, (i = 0%nat /\ y = x' \/ i <> 0%nat /\ ths !! 0%nat = Some y) -> pc y = Master_zero -> w' = 1) ->
  hinv T w' (<[i := x']> ths).
Proof.
  intros [H1 H2 H3] Hi Hx Hh Hw Hz. pose proof (lookup_lt_Some _ _ _ Hi) as Hlt.
  assert (forall j y, <[i := x']> ths !! j = Some y -> j = i /\ y = x' \/ j <> i /\ ths !! j = Some y) as Hin.
  { intros j y Hj. destruct (decide (j = i)) as [->|Hne].
    - rewrite list_lookup_insert_eq in Hj by done. injection Hj as <-. by left.
    - rewrite list_lookup_insert_ne in Hj by done. by right. }
  split.
  - intros j y Hj. destruct (debts_totals _ i x x' j Hi Hx) as [-> ->]. destruct (Hin j y Hj) as [[-> ->]|[_ ?]]; [done|by apply H1].
  - intros j y Hj. destruct (Hin j y Hj) as [[-> ->]|[_ ?]]; [done|by apply H2].
  - intros y Hj. destruct (Hin _ y Hj) as [[? ->]|[? ?]]; apply Hz; [by left|right; by split].
Qed.

Lemma cinv_put T s i x x' m :
  cinv T s -> threads s !! i = Some x -> owes x = false -> owes x' = false ->
  hand_ok (total (idles i) (threads s)) (total (kills i) (threads s)) x' -> waking_ok T i (pc x') ->
  (forall y, (i = 0%nat /\ y = x' \/ i <> 0%nat /\ threads s !! 0%nat = Some y) -> pc y = Master_zero -> working_threads m = 1) ->
  same_fields x x' -> (i = 0%nat -> nesting_depth x' = nesting_depth x /\ same_stage T (pc x) (pc x')) ->
  team_size m = team_size (team s) -> members m = members (team s) -> cinv T (put (with_team s m) i x').
Proof.
  intros [Hh4 H4] Hi Hx Hx' Hh Hw Hz Hf Hn Hsz Hm. pose proof (lookup_lt_Some _ _ _ Hi) as Hlt.
  split; cbn [team idstack threads put with_team].
  - eapply hinv_put; try done. by apply owes_same.
  - intros y Hj. destruct (decide (i = 0%nat)) as [->|Hne].
    + rewrite list_lookup_insert_eq in Hj by done. injection Hj as <-. destruct (Hn eq_refl) as [Hn1 Hn2].
      apply (ids_put T (pc x) _ s 0%nat x); try done. by apply H4.
    + rewrite list_lookup_insert_ne in Hj by done.
      pose proof (H4 y Hj) as Hids. assert (same_stage T (pc y) (pc y)) by (split_and!; try done; by apply Hids).
      apply (ids_put T (pc y) _ s i x); try done; congruence.
Qed.

Section Steps.
Context (T : nat) (thread_spin : Z) (prog : list construct) (R : nat).
Context (HT : (1 <= T <= PMP_MAX_IDS)%nat).

Definition tinv (s : omp_state) : Prop := cinv T s /\ exists m g x0, einv T prog R m g x0 (abs s).

(** Thread [x] waits for a signal, or is the master behind the last region. *)
Definition idle_thread (x : omp_thread) : Prop :=
  signal x = false /\ (exists p, pc x = Waiting p Wait_suspend) \/ pc x = Outside /\ (R <= regions x)%nat.

Definition good_step (s : omp_state) (i : nat) : Prop :=
  yields (omp_step T thread_spin prog R s i) (fun o =>
    match o with
    | None => forall x, threads s !! i = Some x -> idle_thread x
    | Some s' => cinv T s' /\ (abs s' = abs s \/ estep T prog R (abs s) i (abs s'))
    end).

Lemma good_some s i x s' :
  threads s !! i = Some x -> omp_step T thread_spin prog R s i = Ok (Some s') ->
  cinv T s' -> abs s' = abs s \/ estep T prog R (abs s) i (abs s') -> good_step s i.
Proof. intros Hi Hs HC HA. unfold good_step. by rewrite Hs. Qed.

(** Everything that is known about a thread. *)
Lemma thread_known m g x0 s i x :
  cinv T s -> einv T prog R m g x0 (abs s) -> threads s !! i = Some x ->
  hand_ok (total (idles i) (threads s)) (total (kills i) (threads s)) x /\
  waking_ok T i (pc x) /\
  place_ok T prog m g (region x0) (at_ x0) i (event_of (threads s) i x).
Proof.
  intros HC HI Hi. split_and!; [by apply HC|by eapply HC|].
  apply (ok_place _ _ _ _ _ _ _ _ (ei_threads _ _ _ _ _ _ _ HI _ _ (abs_lookup_Some _ _ _ Hi))).
Qed.

(** The master among the threads. *)
Lemma master_thread m g x0 s :
  einv T prog R m g x0 (abs s) -> exists t0, threads s !! 0%nat = Some t0 /\ x0 = event_of (threads s) 0 t0.
Proof.
  intros HI. pose proof (ei_master _ _ _ _ _ _ _ HI) as H0. rewrite abs_lookup in H0.
  destruct (threads s !! 0%nat) as [t0|]; [|done]. exists t0. by injection H0 as <-.
Qed.

Lemma not_zone_flag I K x ths j :
  hand_ok I K x -> I = total (idles j) ths -> K = total (kills j) ths ->
  match pc x with Waiting _ _ | Idling | Starting => False | _ => True end -> flag_of ths j x = false.
Proof.
  intros [_ Hh] HI HK Hp. unfold flag_of. rewrite <- HI, <- HK.
  destruct (pc x); try done; destruct Hh as (-> & -> & -> & ->); done.
Qed.

(** A step that writes fields of thread [i] and counters of the team. *)
Lemma good_put s i x x' m :
  cinv T s -> threads s !! i = Some x -> owes x = false -> owes x' = false ->
  omp_step T thread_spin prog R s i = Ok (Some (put (with_team s m) i x')) ->
  hand_ok (total (idles i) (threads s)) (total (kills i) (threads s)) x' -> waking_ok T i (pc x') ->
  (forall y, (i = 0%nat /\ y = x' \/ i <> 0%nat /\ threads s !! 0%nat = Some y) -> pc y = Master_zero -> working_threads m = 1) ->
  same_fields x x' -> (i = 0%nat -> nesting_depth x' = nesting_depth x /\ same_stage T (pc x) (pc x')) ->
  team_size m = team_size (team s) -> members m = members (team s) ->
  (let s' := mkES (working_threads m) (barrier_count m) (<[i := event_of (threads s) i x']> (e_threads (abs s))) in
   s' = abs s \/ estep T prog R (abs s) i s') -> good_step s i.
Proof.
  intros HC Hi Hx Hx' Hs Hh Hw Hz Hf Hn Hsz Hm He. apply (good_some s i x (put (with_team s m) i x')); try done.
  - by apply (cinv_put T s i x).
  - by rewrite (abs_put s i x) by (done || by apply owes_same).
Qed.

(** A step that the events do not show. *)
Lemma good_quiet s i x x' :
  cinv T s -> threads s !! i = Some x -> owes x = false -> owes x' = false ->
  omp_step T thread_spin prog R s i = Ok (Some (put s i x')) ->
  hand_ok (total (idles i) (threads s)) (total (kills i) (threads s)) x' -> waking_ok T i (pc x') ->
  (pc x' = Master_zero -> working_threads (team s) = 1) ->
  same_fields x x' -> (i = 0%nat -> nesting_depth x' = nesting_depth x /\ same_stage T (pc x) (pc x')) ->
  event_of (threads s) i x' = event_of (threads s) i x -> good_step s i.
Proof.
  intros HC Hi Hx Hx' Hs Hh Hw Hz Hf Hn He. apply (good_put s i x x' (team s)); try done.
  - intros y [[_ ->]|[_ Hy]] Hp; [by apply Hz|by eapply HC].
  - left. rewrite He, (list_insert_id (e_threads (abs s)) i); [done|by apply abs_lookup_Some].
Qed.

Ltac step_is Hi Hpc := unfold omp_step, thread_of; rewrite Hi; cbn [of_option]; rewrite obind_ok, Hpc.

Lemma good_starting m g x0 s i x :
  cinv T s -> einv T prog R m g x0 (abs s) -> threads s !! i = Some x -> pc x = Starting -> good_step s i.
Proof.
  intros HC HI Hi Hpc. destruct (thread_known _ _ _ _ _ _ HC HI Hi) as ([_ Hh] & _ & Hp).
  rewrite Hpc in Hh. unfold place_ok in Hp. cbn [at_ event_of] in Hp. rewrite Hpc in Hp. destruct Hp as [Hi0 _].
  eapply (good_quiet s i x (set_pc (set_tid x) (Waiting For_assignment Wait_first))); try done.
  - unfold owes. by rewrite Hpc.
  - by step_is Hi Hpc.
  - split; [by right|done].
  - unfold event_of, flag_of. cbn. by rewrite Hpc.
Qed.

Lemma good_idling m g x0 s i x :
  cinv T s -> einv T prog R m g x0 (abs s) -> threads s !! i = Some x -> pc x = Idling -> good_step s i.
Proof.
  intros HC HI Hi Hpc. destruct (thread_known _ _ _ _ _ _ HC HI Hi) as ([Ht Hh] & _ & Hp).
  rewrite Hpc in Hh, Ht. unfold place_ok in Hp. cbn [at_ event_of] in Hp. rewrite Hpc in Hp. destruct Hp as [Hi0 _].
  eapply (good_quiet s i x (set_pc (set_single (set_team x (my_local_id x) (has_team x) 0) 0 (won x))
    (Waiting For_assignment Wait_first))); try done.
  - unfold owes. by rewrite Hpc.
  - by step_is Hi Hpc.
  - split; [right; cbn; by destruct Ht|done].
  - unfold event_of, flag_of. cbn. by rewrite Hpc.
Qed.

Lemma hand_wait I K x p w : pc x = Waiting p w -> hand_ok I K x -> has_tid x = true /\ wait_ok I K x w.
Proof. intros H [[Ht|Ht] Hw]; rewrite H in *; done. Qed.

(** Going on waiting. *)
Lemma waits_ok I K x w x' w' :
  wait_ok I K x w -> __pmp_thread_wait thread_spin x w = Waits x' w' ->
  exists v, x' = set_sync x v /\ wait_ok I K x' w' /\ (v =? PMP_SYNC_UNBLOCKED) = (sync x =? PMP_SYNC_UNBLOCKED).
Proof.
  intros Hx Hw. assert (x = set_sync x (sync x)) as Hid by (by destruct x).
  assert (forall w', wait_ok I K x w' -> exists v, x = set_sync x v /\ wait_ok I K x w' /\
    (v =? PMP_SYNC_UNBLOCKED) = (sync x =? PMP_SYNC_UNBLOCKED)) as Hsame by (intros w1 H1; by exists (sync x)).
  assert (wait_ok I K x Wait_first -> sync x = PMP_SYNC_UNBLOCKED -> wait_ok I K x Wait_reset) as Hreset.
  { intros (_ & ?) ?. by split. }
  destruct w as [|n| | |]; cbn [__pmp_thread_wait] in Hw.
  - injection Hw as <- <-. apply Hsame. destruct (Z.eqb_spec (sync x) PMP_SYNC_UNBLOCKED); [by apply Hreset|exact Hx].
  - injection Hw as <- <-. apply Hsame. destruct (n <? thread_spin); [|exact Hx].
    destruct (Z.eqb_spec (sync x) PMP_SYNC_UNBLOCKED); [by apply Hreset|exact Hx].
  - destruct (Z.eqb_spec (sync x) PMP_SYNC_IDLE) as [Hs|Hs]; injection Hw as <- <-.
    + exists PMP_SYNC_BLOCKED. destruct Hx as (_ & Hsg & -> & ->). split; [done|]. split; [|by rewrite Hs].
      left. split; [done|]. split; [done|]. lia.
    + apply Hsame. apply Hreset; [exact Hx|]. destruct Hx as ([?|?] & _); done.
  - by destruct (signal x).
  - done.
Qed.

Lemma good_waits s i x p w x' w' :
  cinv T s -> threads s !! i = Some x -> pc x = Waiting p w ->
  __pmp_thread_wait thread_spin x w = Waits x' w' -> good_step s i.
Proof.
  intros HC Hi Hpc Hw. destruct (hand_wait _ _ _ _ _ Hpc (ci_hand _ _ HC _ _ Hi)) as [Ht Hh].
  destruct (waits_ok _ _ _ _ _ _ Hh Hw) as (v & -> & Hh' & Hs).
  eapply (good_quiet s i x (set_pc (set_sync x v) (Waiting p w'))); try done.
  - unfold owes. by rewrite Hpc.
  - step_is Hi Hpc. by rewrite Hw.
  - split; [by right|exact Hh'].
  - intros ->. split; [done|]. by rewrite Hpc.
  - unfold event_of, flag_of. cbn. by rewrite Hpc, Hs.
Qed.

(** Returning from [__pmp_thread_wait]: the event was raised, and is taken down. *)
Lemma returns_ok I K x w x' :
  wait_ok I K x w -> __pmp_thread_wait thread_spin x w = Returns x' ->
  (exists v b, x' = set_signal (set_sync x v) b) /\ sync x' = PMP_SYNC_IDLE /\ signal x' = false /\ I = 0 /\ K = 0 /\
  (sync x =? PMP_SYNC_UNBLOCKED) || signal x = true.
Proof.
  intros Hx Hw. assert (x = set_sync x (sync x)) as Hid by (by destruct x).
  destruct w as [|n| | |]; cbn [__pmp_thread_wait] in Hw; try done.
  - by destruct (sync x =? PMP_SYNC_IDLE).
  - destruct (signal x) eqn:Hs; [|done]. injection Hw as <-. cbn [wait_ok] in Hx. rewrite Hs in Hx.
    destruct Hx as [(_ & ? & _)|[(_ & ? & _)|(Hsy & _ & -> & ->)]]; try done. rewrite orb_true_r. cbn.
    split_and!; try done. exists (sync x), false. by destruct x.
  - injection Hw as <-. destruct Hx as (Hs & Hsg & -> & ->). rewrite Hs. cbn. split_and!; try done.
    exists PMP_SYNC_IDLE, (signal x). by destruct x.
Qed.

(** The master's team while a thread is in the region, or wakes the master. *)
Lemma team_complete m g x0 s i x :
  cinv T s -> einv T prog R m g x0 (abs s) -> threads s !! i = Some x ->
  in_region (place_of (pc x)) = true \/ place_of (pc x) = WakesMaster \/ place_of (pc x) = AtJoin \/ place_of (pc x) = Joins ->
  team_size (team s) = Z.of_nat T /\ has_team x = true /\ my_local_id x = Z.of_nat i /\
  (forall j, (j < T)%nat -> members (team s) !! j = Some (Some j)).
Proof.
  intros HC HI Hi Hx. destruct (master_thread _ _ _ _ HI) as (t0 & H0 & Ex0). pose proof (ci_ids _ _ HC _ H0) as Hids.
  pose proof (abs_lookup_Some _ _ _ Hi) as Hi'. destruct (ei_threads _ _ _ _ _ _ _ HI _ _ Hi') as [Hp _].
  pose proof (lookup_lt_Some _ _ _ Hi) as Hlt. pose proof (ei_length _ _ _ _ _ _ _ HI) as Hlen.
  unfold abs in Hlen. cbn [e_threads] in Hlen. rewrite length_imap in Hlen.
  assert (assigned T (pc t0) = T /\ is_outside (pc t0) = false /\ (i = 0%nat -> master_has_team (pc t0) = true)) as (HA & Ho & Ht).
  { destruct (decide (i = 0%nat)) as [E|Hne].
    - assert (t0 = x) as -> by congruence. destruct (pc x) as [|[]| [] ? ? []| | | | | | | | | | | | |]; cbn in *; try done; by destruct_or?.
    - assert (started (place_of (pc t0)) i = true) as Hs.
      { destruct Hx as [Hx|[Hx|Hx]].
        - by destruct (in_region_ok _ _ _ _ _ _ _ _ (ei_threads _ _ _ _ _ _ _ HI _ _ Hi') Hx) as [_ Hs]; rewrite Ex0 in Hs.
        - unfold place_ok in Hp. cbn [at_ event_of] in Hp. rewrite Hx, Ex0 in Hp. destruct Hp as (_&_&_&_&_&Hj). cbn in Hj. by rewrite Hj.
        - unfold place_ok in Hp. cbn [at_ event_of] in Hp. by destruct Hx as [Hx|Hx]; rewrite Hx in Hp; destruct Hp. }
      assert (place_of (pc t0) <> Joined) as Hj.
      { intros Hj. assert (at_ x0 = Joined) as Hj0 by (by rewrite Ex0).
        destruct (joined_ready _ _ _ (proj1 HT) _ _ _ _ _ _ HI Hj0 Hne Hi') as [Hr _]. cbn in Hr. rewrite Hr in Hx. by destruct_or?. }
      destruct (pc t0) as [|[]| [] ? ? []| | | | | | | | | | | | |]; cbn in Hs, Hj |- *; try done. by destruct i. }
  destruct Hids as [_ Hsz _ _ _ Hm Hth _]. destruct (Hth i x Hi) as [Hl Hh]. rewrite Ho in Hsz. rewrite HA in *.
  rewrite decide_True in Hl by lia. split_and!; try done.
  - rewrite Hh. case_decide; [by apply Ht|]. apply bool_decide_true. lia.
  - by apply Hm.
Qed.

(** Places outside [__pmp_thread_wait]. *)
Definition plain (p : omp_pc) : bool :=
  match p with Waiting _ _ | Idling | Starting => false | _ => true end.

Definition same_hand (x x' : omp_thread) : Prop :=
  sync x' = sync x /\ signal x' = signal x /\ has_tid x' = has_tid x.

Lemma hand_plain I K x :
  plain (pc x) = true -> hand_ok I K x ->
  has_tid x = true /\ sync x = PMP_SYNC_IDLE /\ signal x = false /\ I = 0 /\ K = 0.
Proof. intros Hx [[Ht|Ht] Hh]; destruct (pc x); done. Qed.

Lemma hand_move I K x x' :
  plain (pc x) = true -> hand_ok I K x -> same_hand x x' ->
  plain (pc x') = true \/ pc x' = Idling \/ (exists p, pc x' = Waiting p Wait_first) -> hand_ok I K x'.
Proof.
  intros Hx Hh (Hs & Hsg & Ht) Hx'. destruct (hand_plain _ _ _ Hx Hh) as (Htid & Hs0 & Hsg0 & -> & ->). split; [right; congruence|].
  destruct Hx' as [Hx'|[->|[p ->]]].
  - destruct (pc x'); try done; by rewrite Hs, Hsg.
  - rewrite <- Hs, <- Hsg in *. by split; [left|].
  - rewrite <- Hs, <- Hsg in *. by split; [left|].
Qed.

Lemma flag_plain s i x :
  cinv T s -> threads s !! i = Some x -> plain (pc x) = true -> flag_of (threads s) i x = false.
Proof.
  intros HC Hi Hx. destruct (hand_plain _ _ _ Hx (ci_hand _ _ HC _ _ Hi)) as (_ & Hs & Hsg & HI & HK).
  unfold flag_of. by rewrite Hs, Hsg, HI, HK.
Qed.

Lemma flag_same ths i x x' : same_hand x x' -> flag_of ths i x' = flag_of ths i x.
Proof. intros (Hs & Hsg & _). unfold flag_of. by rewrite Hs, Hsg. Qed.

(** A step from outside of [__pmp_thread_wait] that leaves [sync] and the signal alone. *)
Lemma good_plain s i x x' m :
  cinv T s -> threads s !! i = Some x -> plain (pc x) = true -> owes x = false -> owes x' = false ->
  omp_step T thread_spin prog R s i = Ok (Some (put (with_team s m) i x')) ->
  same_hand x x' -> plain (pc x') = true \/ pc x' = Idling \/ (exists p, pc x' = Waiting p Wait_first) ->
  waking_ok T i (pc x') ->
  (forall y, (i = 0%nat /\ y = x' \/ i <> 0%nat /\ threads s !! 0%nat = Some y) -> pc y = Master_zero -> working_threads m = 1) ->
  same_fields x x' -> (i = 0%nat -> nesting_depth x' = nesting_depth x /\ same_stage T (pc x) (pc x')) ->
  team_size m = team_size (team s) -> members m = members (team s) ->
  (e_threads (abs s) !! i = Some (mkE (place_of (pc x)) false (regions x) (constructs x)) ->
   let s' := mkES (working_threads m) (barrier_count m)
               (<[i := mkE (place_of (pc x')) false (regions x') (constructs x')]> (e_threads (abs s))) in
   s' = abs s \/ estep T prog R (abs s) i s') -> good_step s i.
Proof.
  intros HC Hi Hx Hox Hox' Hs Hh Hx' Hw Hz Hf Hn Hsz Hm He. pose proof (flag_plain _ _ _ HC Hi Hx) as Hfl.
  apply (good_put s i x x' m); try done.
  - by apply (hand_move _ _ x x'); [|apply HC| |].
  - unfold event_of. rewrite (flag_same _ _ _ _ Hh), Hfl. apply He. rewrite (abs_lookup_Some _ _ _ Hi). unfold event_of. by rewrite Hfl.
Qed.

(** ... that moreover the events do not show. *)
Lemma good_plain_quiet s i x x' :
  cinv T s -> threads s !! i = Some x -> plain (pc x) = true -> owes x = false -> owes x' = false ->
  omp_step T thread_spin prog R s i = Ok (Some (put s i x')) ->
  same_hand x x' -> plain (pc x') = true \/ pc x' = Idling \/ (exists p, pc x' = Waiting p Wait_first) ->
  waking_ok T i (pc x') -> (pc x' = Master_zero -> working_threads (team s) = 1) ->
  same_fields x x' -> (i = 0%nat -> nesting_depth x' = nesting_depth x /\ same_stage T (pc x) (pc x')) ->
  place_of (pc x') = place_of (pc x) -> regions x' = regions x -> constructs x' = constructs x -> good_step s i.
Proof.
  intros HC Hi Hx Hox Hox' Hs Hh Hx' Hw Hz Hf Hn Hp Hr Hc. apply (good_quiet s i x x'); try done.
  - by apply (hand_move _ _ x x'); [|apply HC| |].
  - unfold event_of. by rewrite (flag_same _ _ _ _ Hh), Hp, Hr, Hc.
Qed.

Lemma good_returns m g x0 s i x p w x' :
  cinv T s -> einv T prog R m g x0 (abs s) -> threads s !! i = Some x -> pc x = Waiting p w ->
  __pmp_thread_wait thread_spin x w = Returns x' -> good_step s i.
Proof.
  intros HC HI Hi Hpc Hw. destruct (hand_wait _ _ _ _ _ Hpc (ci_hand _ _ HC _ _ Hi)) as [Ht Hh].
  destruct (returns_ok _ _ _ _ _ Hh Hw) as ((v & b & Ex) & Hs & Hsg & HIz & HKz & Hfl).
  pose proof (abs_lookup_Some _ _ _ Hi) as Hi'. assert (flag_of (threads s) i x = true) as Hfl' by (unfold flag_of; by rewrite Hfl).
  unfold event_of in Hi'. rewrite Hfl', Hpc in Hi'. destruct (thread_known _ _ _ _ _ _ HC HI Hi) as (_ & _ & Hp).
  unfold place_ok in Hp. cbn [at_ event_of] in Hp. rewrite Hpc in Hp.
  assert (forall q, flag_of (threads s) i (after_wait q s x') = false) as Hfn.
  { intros q. unfold flag_of. rewrite HIz, HKz. destruct q; cbn; by rewrite Hs, Hsg. }
  assert (regions x' = regions x /\ constructs x' = constructs x /\ has_tid x' = has_tid x /\ same_fields x x' /\
    nesting_depth x' = nesting_depth x) as (Hr & Hc & Htid & Hf & Hn) by (by subst x').
  apply (good_put s i x (after_wait p s x') (team s)); try done.
  - unfold owes. by rewrite Hpc.
  - by destruct p.
  - step_is Hi Hpc. by rewrite Hw.
  - split; [right; destruct p; cbn; congruence|]. destruct p; cbn; rewrite Hs, Hsg; done.
  - by destruct p.
  - intros y [[_ ->]|[_ Hy]]; [by destruct p|]. by eapply HC.
  - by destruct p.
  - intros E. split; [by destruct p|]. rewrite Hpc. destruct p; cbn in Hp |- *.
    + by destruct Hp.
    + done.
    + destruct (team_complete _ _ _ _ _ _ HC HI Hi) as (Hsz & _); [rewrite Hpc; auto|]. rewrite Hsz. split_and!; try done; cbn; lia.
  - right. unfold event_of. rewrite Hfn. destruct p; cbn; rewrite Hr, Hc.
    + by apply e_start.
    + by apply e_leave.
    + by apply e_joined.
Qed.

Lemma good_waiting m g x0 s i x p w :
  cinv T s -> einv T prog R m g x0 (abs s) -> threads s !! i = Some x -> pc x = Waiting p w -> good_step s i.
Proof.
  intros HC HI Hi Hpc. destruct (__pmp_thread_wait thread_spin x w) as [x' w'|x'|] eqn:Hw.
  - by eapply good_waits.
  - by eapply good_returns.
  - unfold good_step. step_is Hi Hpc. rewrite Hw. cbn. intros y Hy. assert (y = x) as -> by congruence. left.
    destruct w; cbn in Hw; try done; [by destruct (sync x =? PMP_SYNC_IDLE)|]. destruct (signal x) eqn:E; [done|].
    split; [done|]. eauto.
Qed.

(** A step of the master that changes its stage. *)
Lemma good_master s x x' m :
  cinv T s -> threads s !! 0%nat = Some x -> plain (pc x) = true -> owes x = false -> owes x' = false ->
  omp_step T thread_spin prog R s 0 = Ok (Some (put (with_team s m) 0 x')) ->
  same_hand x x' -> plain (pc x') = true -> waking_ok T 0 (pc x') ->
  (pc x' = Master_zero -> working_threads m = 1) -> ids_ok T (pc x') (put (with_team s m) 0 x') ->
  (e_threads (abs s) !! 0%nat = Some (mkE (place_of (pc x)) false (regions x) (constructs x)) ->
   let s' := mkES (working_threads m) (barrier_count m)
               (<[0%nat := mkE (place_of (pc x')) false (regions x') (constructs x')]> (e_threads (abs s))) in
   s' = abs s \/ estep T prog R (abs s) 0 s') -> good_step s 0.
Proof.
  intros HC Hi Hx Hox Hox' Hs Hh Hx' Hw Hz Hids He. pose proof (flag_plain _ _ _ HC Hi Hx) as Hfl.
  pose proof (lookup_lt_Some _ _ _ Hi) as Hlt.
  apply (good_some s 0 x (put (with_team s m) 0 x')); try done.
  - split; cbn [team threads put with_team].
    + eapply hinv_put; [apply HC|done|by apply owes_same| |done|].
      * apply (hand_move _ _ x x'); [done|by apply HC|done|by left].
      * intros y [[_ ->]|[? _]]; done.
    + intros y Hy. rewrite list_lookup_insert_eq in Hy by done. by injection Hy as <-.
  - rewrite (abs_put s 0%nat x) by (done || by apply owes_same). unfold event_of. rewrite (flag_same _ _ _ _ Hh), Hfl.
    apply He. rewrite (abs_lookup_Some _ _ _ Hi). unfold event_of. by rewrite Hfl.
Qed.

(** ** In the region *)
Lemma swrap_count z : - 1 <= z <= 256 -> swrap 32 z = z.
Proof. intros H. apply swrap_id; [lia|]. unfold in_s. change (2 ^ (32 - 1)) with 2147483648. lia. Qed.

Lemma zero_kept s i x y :
  cinv T s -> threads s !! i = Some x -> pc x <> Master_zero ->
  (i = 0%nat /\ y = x \/ i <> 0%nat /\ threads s !! 0%nat = Some y) -> pc y = Master_zero -> working_threads (team s) = 1.
Proof. intros HC Hi Hx [[_ ->]|[_ Hy]] Hp; [done|]. by eapply HC. Qed.

Lemma zero_elsewhere s i x' y :
  cinv T s -> pc x' <> Master_zero ->
  (i = 0%nat /\ y = x' \/ i <> 0%nat /\ threads s !! 0%nat = Some y) -> pc y = Master_zero -> working_threads (team s) = 1.
Proof. intros HC Hx [[_ ->]|[_ Hy]] Hp; [done|]. by eapply HC. Qed.

Ltac stage := intros _; split; [done|]; split_and!; try done; cbn; try lia.

Lemma good_entering m g x0 s i x :
  cinv T s -> einv T prog R m g x0 (abs s) -> threads s !! i = Some x -> pc x = Entering -> good_step s i.
Proof.
  intros HC HI Hi Hpc. destruct (team_complete _ _ _ _ _ _ HC HI Hi) as (_ & Ht & _); [left; by rewrite Hpc|].
  apply (good_plain_quiet s i x (set_pc x Working)); try done; rewrite ?Hpc; try done.
  - unfold owes. by rewrite Hpc.
  - step_is Hi Hpc. by rewrite Ht.
  - by left.
Qed.

Lemma good_barrier m g x0 s i x :
  cinv T s -> einv T prog R m g x0 (abs s) -> threads s !! i = Some x -> pc x = Working ->
  prog !! constructs x = Some Barrier -> good_step s i.
Proof.
  intros HC HI Hi Hpc Hb. destruct (team_complete _ _ _ _ _ _ HC HI Hi) as (Hsz & _); [left; by rewrite Hpc|].
  assert (at_ (event_of (threads s) i x) = Run) as Hrun by (cbn; by rewrite Hpc).
  pose proof (run_barrier_count _ _ _ (proj1 HT) _ _ _ _ _ _ HI (abs_lookup_Some _ _ _ Hi) Hrun) as Hbc. cbn [abs e_barrier] in Hbc.
  unfold PMP_MAX_IDS in HT. assert (owes x = false) as Hox by (unfold owes; by rewrite Hpc).
  assert (omp_step T thread_spin prog R s i = barrier_step s i x) as Hst by (step_is Hi Hpc; by rewrite Hb).
  unfold barrier_step in Hst. rewrite Hsz in Hst. destruct (Z.ltb_spec 1 (Z.of_nat T)) as [HT1|HT1].
  - rewrite swrap_count in Hst by lia. rewrite assert_true, obind_ok in Hst by (apply Z.ltb_lt; lia).
    destruct (Z.ltb_spec 1 (barrier_count (team s))) as [H1|H1].
    + eapply (good_plain s i x _ (set_barrier (team s) (barrier_count (team s) - 1)) HC Hi); try exact Hst; try done; rewrite ?Hpc; try done.
      * right; right; eauto.
      * intros y. by apply zero_elsewhere.
      * intros He. right. cbn. apply e_arrive; [done|done|lia|done].
    + assert (barrier_count (team s) = 1) as E1 by lia.
      eapply (good_plain s i x _ (set_barrier (team s) (barrier_count (team s) - 1)) HC Hi); try exact Hst; try done; rewrite ?Hpc; try done.
      * by left.
      * intros y. by apply zero_elsewhere.
      * intros He. right. cbn. rewrite E1. apply e_last; [done|done|lia|done].
  - eapply (good_plain s i x _ (team s) HC Hi); try exact Hst; try done; rewrite ?Hpc; try done.
    + by left.
    + intros y. by apply zero_elsewhere.
    + intros He. right. cbn. eapply e_pass; [done|done|right; lia].
Qed.

Lemma good_single m g x0 s i x :
  cinv T s -> einv T prog R m g x0 (abs s) -> threads s !! i = Some x -> pc x = Working ->
  prog !! constructs x = Some Single -> good_step s i.
Proof.
  intros HC HI Hi Hpc Hb. assert (owes x = false) as Hox by (unfold owes; by rewrite Hpc).
  assert (omp_step T thread_spin prog R s i = single_step s i x) as Hst by (step_is Hi Hpc; by rewrite Hb).
  assert (forall m' x', omp_step T thread_spin prog R s i = Ok (Some (put (with_team s m') i (next_construct x'))) ->
    same_hand x x' -> same_fields x x' -> nesting_depth x' = nesting_depth x -> regions x' = regions x -> constructs x' = constructs x ->
    team_size m' = team_size (team s) -> members m' = members (team s) -> working_threads m' = working_threads (team s) ->
    barrier_count m' = barrier_count (team s) -> good_step s i) as Hgo.
  { intros m' x' Hs' Hh Hf Hn Hr Hc Hsz Hm Hw Hbc.
    apply (good_plain s i x (next_construct x') m' HC Hi); try done; rewrite ?Hpc; try done.
    - by left.
    - intros y. rewrite Hw. by apply zero_elsewhere.
    - intros He. right. cbn. rewrite Hw, Hbc, Hr, Hc. eapply e_pass; [exact He|done|by left]. }
  unfold single_step in Hst. destruct (team_size (team s) =? 1).
  - by apply (Hgo (team s) _ Hst).
  - destruct (single_count (team s) =? my_single_count x).
    + by apply (Hgo (set_team_single (team s) (swrap 32 (my_single_count x + 1))) _ Hst).
    + by apply (Hgo (team s) _ Hst).
Qed.

Lemma good_region_end m g x0 s i x :
  cinv T s -> einv T prog R m g x0 (abs s) -> threads s !! i = Some x -> pc x = Working ->
  prog !! constructs x = None -> good_step s i.
Proof.
  intros HC HI Hi Hpc Hb. assert (owes x = false) as Hox by (unfold owes; by rewrite Hpc).
  destruct (thread_known _ _ _ _ _ _ HC HI Hi) as (_ & _ & Hp). unfold place_ok in Hp. cbn [at_ event_of done region] in Hp.
  rewrite Hpc in Hp. cbn in Hp. destruct Hp as (_ & _ & Hr & Hd & Hs). apply lookup_ge_None in Hb as Hd'.
  assert (constructs x = length prog) as Hc by lia.
  assert (omp_step T thread_spin prog R s i =
    if (i =? 0)%nat then some (put s i (set_pc x (Master_spin 0))) else worker_join_step s i x) as Hst.
  { step_is Hi Hpc. by rewrite Hb. }
  destruct (Nat.eqb_spec i 0) as [E|Hne].
  - eapply (good_plain s i x _ (team s) HC Hi); try exact Hst; try done; rewrite ?Hpc; try done.
    + by left.
    + intros y. by apply zero_elsewhere.
    + cbn. rewrite Hc. intros He. right. by apply e_master_end.
  - assert (at_ x0 <> Serial) as Hse by (intros E; by rewrite E in Hs).
    assert (unjoined (region x0) (event_of (threads s) i x) = 1) as Hu.
    { unfold unjoined. cbn [region event_of at_]. rewrite Hpc. by rewrite decide_True. }
    pose proof (working_count _ _ _ (proj1 HT) _ _ _ _ _ _ HI (abs_lookup_Some _ _ _ Hi) Hse Hu) as Hw. cbn [abs e_working] in Hw.
    unfold PMP_MAX_IDS in HT. unfold worker_join_step in Hst. rewrite swrap_count in Hst by lia.
    rewrite assert_true, obind_ok in Hst by (apply Z.leb_le; lia).
    assert (forall y, threads s !! 0%nat = Some y -> pc y = Master_zero -> False) as Hz.
    { intros y Hy Hyz. destruct (master_thread _ _ _ _ HI) as (t0 & H0 & Ex0). assert (y = t0) as -> by congruence.
      assert (at_ x0 = Joins) as Hj by (rewrite Ex0; cbn; by rewrite Hyz).
      pose proof (working_two _ _ _ (proj1 HT) _ _ _ _ _ _ HI (abs_lookup_Some _ _ _ Hi) Hne Hj Hu) as H2. cbn [abs e_working] in H2.
      pose proof (ci_zero _ _ HC _ H0 Hyz). lia. }
    destruct (Z.eqb_spec (working_threads (team s)) 1) as [E1|E1].
    + eapply (good_plain s i x _ (set_working (team s) (working_threads (team s) - 1)) HC Hi); try exact Hst; try done; rewrite ?Hpc; try done.
      * by left.
      * intros y [[_ ->]|[_ Hy]] Hyz; [done|]. exfalso. by eapply Hz.
      * rewrite Hc. intros He. right. cbn. rewrite E1. by apply e_join_last.
    + eapply (good_plain s i x _ (set_working (team s) (working_threads (team s) - 1)) HC Hi); try exact Hst; try done; rewrite ?Hpc; try done.
      * right. by left.
      * intros y [[_ ->]|[_ Hy]] Hyz; [done|]. exfalso. by eapply Hz.
      * rewrite Hc. intros He. right. cbn. apply e_join; [done|done|cbn; lia].
Qed.

Ltac plain_goals Hpc Hst := try exact Hst; try done; rewrite ?Hpc; try done; try (by left);
  try (by intros ?; apply zero_elsewhere).

(** Apply [good_plain] or [good_plain_quiet] to the step that [Hst] computes. *)
Ltac plain_step HC Hi Hpc Hst m :=
  lazymatch type of Hst with
  | _ = Ok (Some (put _ _ ?x')) => apply (good_plain _ _ _ x' m HC Hi)
  | _ = some (put _ _ ?x') => apply (good_plain _ _ _ x' m HC Hi)
  end; plain_goals Hpc Hst.
Ltac quiet_step HC Hi Hpc Hst :=
  lazymatch type of Hst with
  | _ = Ok (Some (put _ _ ?x')) => apply (good_plain_quiet _ _ _ x' HC Hi)
  | _ = some (put _ _ ?x') => apply (good_plain_quiet _ _ _ x' HC Hi)
  end; plain_goals Hpc Hst.

Lemma good_barrier_reset m g x0 s i x :
  cinv T s -> einv T prog R m g x0 (abs s) -> threads s !! i = Some x -> pc x = Barrier_reset -> good_step s i.
Proof.
  intros HC HI Hi Hpc. destruct (team_complete _ _ _ _ _ _ HC HI Hi) as (Hsz & _); [left; by rewrite Hpc|].
  assert (owes x = false) as Hox by (unfold owes; by rewrite Hpc).
  eassert (omp_step T thread_spin prog R s i = _) as Hst by (by step_is Hi Hpc). rewrite Hsz in Hst.
  plain_step HC Hi Hpc Hst (set_barrier (team s) (Z.of_nat T)).
  intros He. right. cbn. by apply e_reset.
Qed.

Lemma good_barrier_wakes m g x0 s i x k :
  cinv T s -> einv T prog R m g x0 (abs s) -> threads s !! i = Some x -> pc x = Barrier_wakes k -> good_step s i.
Proof.
  intros HC HI Hi Hpc. destruct (team_complete _ _ _ _ _ _ HC HI Hi) as (Hsz & _ & Hid & Hm); [left; by rewrite Hpc|].
  assert (owes x = false) as Hox by (unfold owes; by rewrite Hpc).
  destruct (thread_known _ _ _ _ _ _ HC HI Hi) as (_ & _ & Hp). unfold place_ok in Hp. cbn [at_ event_of] in Hp.
  rewrite Hpc in Hp. cbn in Hp. destruct Hp as (_ & HkT & _).
  destruct (decide (k < T)%nat) as [Hk|Hk].
  - eassert (omp_step T thread_spin prog R s i = _) as Hst.
    { step_is Hi Hpc. rewrite Hsz, (proj2 (Z.ltb_lt _ _)) by lia. unfold team_member. rewrite Hm by done. cbn. rewrite Hid. reflexivity. }
    destruct (Z.eqb_spec (Z.of_nat k) (Z.of_nat i)) as [E|E]; cbn in Hst.
    + assert (k = i) as -> by lia. plain_step HC Hi Hpc Hst (team s).
      intros He. right. by apply e_release_skip.
    + quiet_step HC Hi Hpc Hst. cbn. split_and!; try done. lia.
  - assert (k = T) as -> by lia. eassert (omp_step T thread_spin prog R s i = _) as Hst.
    { step_is Hi Hpc. rewrite Hsz, (proj2 (Z.ltb_ge _ _)) by lia. reflexivity. }
    plain_step HC Hi Hpc Hst (team s).
    intros He. right. by apply e_released.
Qed.

Lemma good_join_wakes m g x0 s i x :
  cinv T s -> einv T prog R m g x0 (abs s) -> threads s !! i = Some x -> pc x = Join_wakes -> good_step s i.
Proof.
  intros HC HI Hi Hpc. destruct (team_complete _ _ _ _ _ _ HC HI Hi) as (Hsz & _ & Hid & Hm); [right; left; by rewrite Hpc|].
  assert (owes x = false) as Hox by (unfold owes; by rewrite Hpc).
  destruct (thread_known _ _ _ _ _ _ HC HI Hi) as (_ & _ & Hp). unfold place_ok in Hp. cbn [at_ event_of] in Hp.
  rewrite Hpc in Hp. cbn in Hp. destruct Hp as (Hne & _).
  eassert (omp_step T thread_spin prog R s i = _) as Hst.
  { step_is Hi Hpc. unfold team_member. rewrite Hm, obind_ok by lia. reflexivity. }
  quiet_step HC Hi Hpc Hst. cbn. split_and!; try done. lia.
Qed.

Lemma good_fork_wakes m g x0 s i x k :
  cinv T s -> einv T prog R m g x0 (abs s) -> threads s !! i = Some x -> pc x = Fork_wakes k -> good_step s i.
Proof.
  intros HC HI Hi Hpc. assert (owes x = false) as Hox by (unfold owes; by rewrite Hpc).
  destruct (thread_known _ _ _ _ _ _ HC HI Hi) as (_ & _ & Hp). unfold place_ok in Hp. cbn [at_ event_of] in Hp.
  rewrite Hpc in Hp. cbn in Hp. destruct Hp as (-> & _ & _ & _ & Hk1 & HkT).
  pose proof (ci_ids _ _ HC _ Hi) as Hids. rewrite Hpc in Hids.
  destruct (decide (k < T)%nat) as [Hk|Hk].
  - eassert (omp_step T thread_spin prog R s 0 = _) as Hst.
    { step_is Hi Hpc. rewrite (proj2 (Nat.ltb_lt _ _)) by lia. unfold team_member.
      rewrite (io_members _ _ _ Hids eq_refl k), obind_ok by done. reflexivity. }
    quiet_step HC Hi Hpc Hst. cbn. split_and!; try done. lia.
  - assert (k = T) as -> by lia.
    set (x' := set_pc (set_team x (my_local_id x) true (nesting_depth x)) Entering).
    assert (omp_step T thread_spin prog R s 0 = Ok (Some (put s 0 x'))) as Hst.
    { step_is Hi Hpc. by rewrite (proj2 (Nat.ltb_ge _ _)) by lia. }
    apply (good_master s x x' (team s) HC Hi); try done; rewrite ?Hpc; try done.
    + by apply (ids_master T (Fork_wakes T) _ s x).
    + intros He. right. by apply e_fork_done.
Qed.

(** ** The master's part *)
Lemma master_place m g x0 s i x :
  cinv T s -> einv T prog R m g x0 (abs s) -> threads s !! i = Some x ->
  match pc x with
  | Outside | Forking _ | Master_spin _ | Master_zero | Master_join | Releases_ids _ => i = 0%nat /\ x0 = event_of (threads s) 0 x
  | _ => True
  end.
Proof.
  intros HC HI Hi. destruct (thread_known _ _ _ _ _ _ HC HI Hi) as (_ & _ & Hp). unfold place_ok in Hp. cbn [at_ event_of] in Hp.
  destruct (master_thread _ _ _ _ HI) as (t0 & H0 & Ex0).
  destruct (pc x) eqn:Hpc; try done; cbn in Hp; destruct Hp as [-> _]; (split; [done|]); congruence.
Qed.

Lemma good_master_spin m g x0 s i x n :
  cinv T s -> einv T prog R m g x0 (abs s) -> threads s !! i = Some x -> pc x = Master_spin n -> good_step s i.
Proof.
  intros HC HI Hi Hpc. assert (owes x = false) as Hox by (unfold owes; by rewrite Hpc).
  eassert (omp_step T thread_spin prog R s i = _) as Hst by (by step_is Hi Hpc).
  destruct (n <? thread_spin); [destruct (Z.eqb_spec (working_threads (team s)) 1)|]; quiet_step HC Hi Hpc Hst.
Qed.

Lemma joins_working m g x0 s x :
  cinv T s -> einv T prog R m g x0 (abs s) -> threads s !! 0%nat = Some x -> place_of (pc x) = Joins ->
  1 <= working_threads (team s) <= Z.of_nat T.
Proof.
  intros HC HI Hi Hp. destruct (master_thread _ _ _ _ HI) as (t0 & H0 & Ex0). assert (t0 = x) as -> by congruence.
  assert (at_ x0 = Joins) as Hj by (by rewrite Ex0).
  assert (unjoined (region x0) (event_of (threads s) 0 x) = 1) as Hu.
  { unfold unjoined. rewrite <- Ex0, Hj. by rewrite decide_True. }
  assert (at_ x0 <> Serial) as Hse by (by rewrite Hj).
  apply (working_count _ _ _ (proj1 HT) _ _ _ _ _ _ HI (abs_lookup_Some _ _ _ Hi) Hse Hu).
Qed.

Lemma good_master_zero m g x0 s i x :
  cinv T s -> einv T prog R m g x0 (abs s) -> threads s !! i = Some x -> pc x = Master_zero -> good_step s i.
Proof.
  intros HC HI Hi Hpc. destruct (team_complete _ _ _ _ _ _ HC HI Hi) as (Hsz & _); [rewrite Hpc; auto|].
  assert (owes x = false) as Hox by (unfold owes; by rewrite Hpc).
  pose proof (master_place _ _ _ _ _ _ HC HI Hi) as Hm. rewrite Hpc in Hm. destruct Hm as [-> _].
  pose proof (ci_zero _ _ HC _ Hi Hpc) as Hw.
  eassert (omp_step T thread_spin prog R s 0 = _) as Hst by (by step_is Hi Hpc). rewrite Hsz in Hst.
  plain_step HC Hi Hpc Hst (set_working (team s) 0).
  - intros y [[_ ->]|[? _]]; done.
  - intros _. split; [done|]. split_and!; try done; cbn; lia.
  - intros He. right. cbn. by apply e_master_last.
Qed.

Lemma good_master_join m g x0 s i x :
  cinv T s -> einv T prog R m g x0 (abs s) -> threads s !! i = Some x -> pc x = Master_join -> good_step s i.
Proof.
  intros HC HI Hi Hpc. destruct (team_complete _ _ _ _ _ _ HC HI Hi) as (Hsz & _); [rewrite Hpc; auto|].
  assert (owes x = false) as Hox by (unfold owes; by rewrite Hpc).
  pose proof (master_place _ _ _ _ _ _ HC HI Hi) as Hm. rewrite Hpc in Hm. destruct Hm as [-> _].
  pose proof (joins_working _ _ _ _ _ HC HI Hi) as Hw. rewrite Hpc in Hw. specialize (Hw eq_refl).
  unfold PMP_MAX_IDS in HT.
  eassert (omp_step T thread_spin prog R s 0 = _) as Hst.
  { step_is Hi Hpc. rewrite swrap_count by lia. cbv zeta. rewrite assert_true, obind_ok by (apply Z.leb_le; lia). reflexivity. }
  cbn [with_team team team_size set_working] in Hst. rewrite Hsz in Hst.
  destruct (Z.ltb_spec 1 (working_threads (team s))) as [H1|H1].
  - plain_step HC Hi Hpc Hst (set_working (team s) (working_threads (team s) - 1)).
    + right; right; eauto.
    + intros y [[_ ->]|[? _]]; done.
    + intros He. right. cbn. by apply e_master_wait.
  - plain_step HC Hi Hpc Hst (set_working (team s) (working_threads (team s) - 1)).
    + intros y [[_ ->]|[? _]]; done.
    + intros _. split; [done|]. split_and!; try done; cbn; lia.
    + intros He. right. cbn. assert (working_threads (team s) = 1) as E by lia. rewrite E. by apply e_master_last.
Qed.

Lemma init_stack j : (j < PMP_MAX_IDS)%nat -> stack __pmp_idstack_init !! (PMP_MAX_IDS - S j)%nat = Some j.
Proof.
  intros Hj. assert (forallb (fun j => bool_decide (stack __pmp_idstack_init !! (PMP_MAX_IDS - S j)%nat = Some j))
    (seq 0 PMP_MAX_IDS) = true) as H by (vm_compute; reflexivity).
  rewrite forallb_forall in H. assert (In j (seq 0 PMP_MAX_IDS)) as Hin by (apply List.in_seq; lia).
  exact (bool_decide_eq_true_1 _ (H j Hin)).
Qed.

Lemma imap_quiet ths i x x' :
  ths !! i = Some x -> same_debts x x' -> event_of ths i x' = event_of ths i x ->
  imap (event_of (<[i := x']> ths)) (<[i := x']> ths) = imap (event_of ths) ths.
Proof.
  intros Hi Hx He. rewrite (imap_event _ _ _ _ Hi Hx), He. apply list_insert_id. by rewrite list_lookup_imap, Hi.
Qed.

(** The master gives thread [k] its place in the team, or takes it back. *)
Lemma team_hand I K x id b : hand_ok I K x -> hand_ok I K (set_team x id b (nesting_depth x)).
Proof. intros [Ht Hh]. by split. Qed.

Lemma good_assignment s x x' k y id b m ids :
  cinv T s -> threads s !! 0%nat = Some x -> threads s !! k = Some y -> k <> 0%nat ->
  owes x = false -> owes x' = false -> plain (pc x) = true -> plain (pc x') = true -> pc x' <> Master_zero ->
  same_hand x x' -> waking_ok T 0 (pc x') ->
  place_of (pc x') = place_of (pc x) -> regions x' = regions x -> constructs x' = constructs x ->
  working_threads m = working_threads (team s) -> barrier_count m = barrier_count (team s) ->
  let s' := mkOmp m ids (<[0%nat := x']> (<[k := set_team y id b (nesting_depth y)]> (threads s))) in
  omp_step T thread_spin prog R s 0 = Ok (Some s') -> ids_ok T (pc x') s' -> good_step s 0.
Proof.
  intros HC Hi Hk Hne Hox Hox' Hx Hx' Hxz Hh Hw Hp Hr Hc Hwm Hbm s' Hst Hids.
  set (y' := set_team y id b (nesting_depth y)) in *. set (ths := <[k := y']> (threads s)).
  assert (same_debts y y') as Hdy by done.
  assert (ths !! 0%nat = Some x) as Hi' by (subst ths; by rewrite list_lookup_insert_ne).
  pose proof (lookup_lt_Some _ _ _ Hi').
  assert (hinv T (working_threads (team s)) ths) as Hh1.
  { eapply hinv_put; [apply HC|done|done| | |].
    - apply team_hand. by apply (ci_hand _ _ HC).
    - by apply (ci_waking _ _ HC k y).
    - intros z [[? _]|[_ Hz]]; [done|]. by apply (ci_zero _ _ HC). }
  apply (good_some s 0 x s'); try done.
  - split; cbn [team threads s'].
    + eapply hinv_put; [exact Hh1|done|by apply owes_same| |done|].
      * apply (hand_move _ _ x x'); [done| |done|by left]. by apply Hh1.
      * intros z [[_ ->]|[? _]]; done.
    + intros z Hz. rewrite list_lookup_insert_eq in Hz by done. by injection Hz as <-.
  - left. unfold abs, s'. cbn [team threads]. rewrite Hwm, Hbm. f_equal.
    change (<[k := y']> (threads s)) with ths. rewrite (imap_quiet ths 0 x x').
    { subst ths. by rewrite (imap_quiet (threads s) k y y'). }
    all: try done.
    + by apply owes_same.
    + unfold event_of. by rewrite (flag_same _ _ _ _ Hh), Hp, Hr, Hc.
Qed.

Lemma two_inserts (ths : list omp_thread) k x' y' j z :
  (0 < length ths)%nat -> (k < length ths)%nat -> k <> 0%nat -> <[0%nat := x']> (<[k := y']> ths) !! j = Some z ->
  j = 0%nat /\ z = x' \/ j = k /\ z = y' \/ j <> 0%nat /\ j <> k /\ ths !! j = Some z.
Proof.
  intros H0 Hk Hne Hj. destruct (decide (j = 0%nat)) as [->|Hj0].
  - rewrite list_lookup_insert_eq in Hj by (by rewrite length_insert). injection Hj as <-. by left.
  - rewrite list_lookup_insert_ne in Hj by done. right. destruct (decide (j = k)) as [->|Hjk].
    + rewrite list_lookup_insert_eq in Hj by done. injection Hj as <-. by left.
    + rewrite list_lookup_insert_ne in Hj by done. by right.
Qed.

Lemma threads_length m g x0 s : einv T prog R m g x0 (abs s) -> length (threads s) = T.
Proof. intros HI. pose proof (ei_length _ _ _ _ _ _ _ HI) as H. unfold abs in H. cbn [e_threads] in H. by rewrite length_imap in H. Qed.

Lemma good_forking m g x0 s i x k :
  cinv T s -> einv T prog R m g x0 (abs s) -> threads s !! i = Some x -> pc x = Forking k -> good_step s i.
Proof.
  intros HC HI Hi Hpc. assert (owes x = false) as Hox by (unfold owes; by rewrite Hpc).
  pose proof (master_place _ _ _ _ _ _ HC HI Hi) as Hm. rewrite Hpc in Hm. destruct Hm as [-> _].
  pose proof (ci_ids _ _ HC _ Hi) as Hids. rewrite Hpc in Hids. pose proof (threads_length _ _ _ _ HI) as Hlen.
  destruct (io_stage _ _ _ Hids) as [Hk1 HkT]. destruct (decide (k < T)%nat) as [Hk|Hk].
  - destruct (lookup_lt_is_Some_2 (threads s) k ltac:(lia)) as [y Hy].
    pose proof (io_ids _ _ _ Hids) as Hn. pose proof (io_stack _ _ _ Hids) as Hstk. cbn [assigned] in Hn.
    destruct (io_threads _ _ _ Hids k y Hy) as [Hyl Hyt]. cbn [assigned] in Hyl, Hyt.
    rewrite decide_False in Hyl by lia. rewrite decide_False, bool_decide_false in Hyt by lia.
    assert (omp_step T thread_spin prog R s 0 = Ok (Some (mkOmp (set_member (team s) k k)
      (mkIds (num_ids (idstack s) - 1) (stack (idstack s)))
      (<[0%nat := set_pc x (Forking (S k))]> (<[k := set_team y (Z.of_nat k) true (nesting_depth y)]> (threads s)))))) as Hst.
    { step_is Hi Hpc. unfold assign_step. rewrite (proj2 (Nat.ltb_lt _ _)) by lia. unfold __pmp_idstack_pop.
      rewrite assert_true, obind_ok by (apply Nat.ltb_lt; lia).
      replace (stack (idstack s) !! (num_ids (idstack s) - 1)%nat) with (Some k).
      2: { rewrite Hn, Hstk. replace (PMP_MAX_IDS - k - 1)%nat with (PMP_MAX_IDS - S k)%nat by lia. by rewrite init_stack by lia. }
      cbn [of_option]. rewrite !obind_ok. cbn [snd fst]. unfold thread_of. rewrite Hy. cbn [of_option]. rewrite obind_ok, Hyl, Hyt. done. }
    apply (good_assignment s x (set_pc x (Forking (S k))) k y (Z.of_nat k) true (set_member (team s) k k)
      (mkIds (num_ids (idstack s) - 1) (stack (idstack s))) HC Hi Hy); try exact Hst; rewrite ?Hpc; try done; [lia|].
    destruct Hids as [H1 H2 H3 H4 H5 H6 H7 H8]. split; cbn [team threads idstack set_member members team_size pc set_pc num_ids stack assigned].
    + cbn. lia.
    + exact H2.
    + unfold PMP_MAX_IDS in *. lia.
    + done.
    + by rewrite length_insert.
    + intros _ j Hj. destruct (decide (j = k)) as [->|Hne]; [apply list_lookup_insert_eq; unfold PMP_MAX_IDS in *; lia|].
      rewrite list_lookup_insert_ne by done. apply H6; [done|]. cbn. lia.
    + intros j z Hj. apply two_inserts in Hj as [[-> ->]|[[-> ->]|(Hj0 & Hjk & Hj)]]; try lia; cbn.
      * rewrite decide_True by lia. specialize (H7 _ _ Hi). cbn [assigned] in H7. by rewrite decide_True in H7 by lia.
      * rewrite decide_True by lia. rewrite decide_False, bool_decide_true by lia. done.
      * specialize (H7 _ _ Hj). cbn [assigned master_has_team] in H7. rewrite (decide_False (P := j = 0%nat)) in H7 |- * by done. destruct H7 as [-> ->].
        split; [by repeat case_decide; try lia|]. apply bool_decide_ext. lia.
    + intros z Hz. rewrite list_lookup_insert_eq in Hz by (rewrite length_insert; lia). injection Hz as <-. exact (H8 _ Hi).
  - assert (k = T) as -> by lia.
    assert (omp_step T thread_spin prog R s 0 = some (put s 0 (set_pc x (Fork_wakes 1)))) as Hst.
    { step_is Hi Hpc. unfold assign_step. by rewrite (proj2 (Nat.ltb_ge _ _)) by lia. }
    quiet_step HC Hi Hpc Hst.
Qed.

Lemma good_releases m g x0 s i x k :
  cinv T s -> einv T prog R m g x0 (abs s) -> threads s !! i = Some x -> pc x = Releases_ids (S k) -> good_step s i.
Proof.
  intros HC HI Hi Hpc. assert (owes x = false) as Hox by (unfold owes; by rewrite Hpc).
  pose proof (master_place _ _ _ _ _ _ HC HI Hi) as Hm. rewrite Hpc in Hm. destruct Hm as [-> _].
  pose proof (ci_ids _ _ HC _ Hi) as Hids. rewrite Hpc in Hids. pose proof (threads_length _ _ _ _ HI) as Hlen.
  pose proof (io_stage _ _ _ Hids) as HkT. cbn in HkT.
  destruct (lookup_lt_is_Some_2 (threads s) (S k) ltac:(lia)) as [y Hy].
  pose proof (io_ids _ _ _ Hids) as Hn. pose proof (io_stack _ _ _ Hids) as Hstk. cbn [assigned] in Hn.
  assert (<[num_ids (idstack s) := S k]> (stack (idstack s)) = stack (idstack s)) as Hpush.
  { apply list_insert_id. rewrite Hn, Hstk. apply init_stack. lia. }
  assert (omp_step T thread_spin prog R s 0 = Ok (Some (mkOmp (team s)
    (mkIds (num_ids (idstack s) + 1) (stack (idstack s)))
    (<[0%nat := set_pc x (Releases_ids k)]> (<[S k := set_team y (-1) false (nesting_depth y)]> (threads s)))))) as Hst.
  { step_is Hi Hpc. unfold release_step. rewrite (proj2 (Nat.leb_le _ _)) by lia. unfold team_member.
    rewrite (io_members _ _ _ Hids eq_refl (S k)) by (cbn; lia). rewrite obind_ok. unfold thread_of. rewrite Hy. cbn [of_option].
    rewrite obind_ok. rewrite assert_true, obind_ok by done. unfold __pmp_idstack_push.
    rewrite assert_true, !obind_ok by (apply Nat.ltb_lt; unfold PMP_MAX_IDS in *; lia). rewrite Hpush. by rewrite Nat.sub_1_r. }
  apply (good_assignment s x (set_pc x (Releases_ids k)) (S k) y (-1) false (team s)
    (mkIds (num_ids (idstack s) + 1) (stack (idstack s))) HC Hi Hy); try exact Hst; rewrite ?Hpc; try done.
  destruct Hids as [H1 H2 H3 H4 H5 H6 H7 H8]. split; cbn [team threads idstack members team_size pc set_pc num_ids stack assigned]; try done.
  - cbn. lia.
  - unfold PMP_MAX_IDS in *. lia.
  - intros _ j Hj. apply H6; [done|]. cbn. lia.
  - intros j z Hj. apply two_inserts in Hj as [[-> ->]|[[-> ->]|(Hj0 & Hjk & Hj)]]; try lia; cbn.
    + specialize (H7 _ _ Hi). cbn [assigned] in H7. rewrite decide_True in H7 by lia. by rewrite decide_True by lia.
    + rewrite decide_False by lia. rewrite bool_decide_false by lia. done.
    + specialize (H7 _ _ Hj). cbn [assigned] in H7. rewrite (decide_False (P := j = 0%nat)) in H7 |- * by done. destruct H7 as [-> ->].
      split; [by repeat case_decide; try lia|]. apply bool_decide_ext. lia.
  - intros z Hz. rewrite list_lookup_insert_eq in Hz by (rewrite length_insert; lia). injection Hz as <-. exact (H8 _ Hi).
Qed.

(** [__pmp_team_free], and back in the serial part. *)
Lemma good_team_free m g x0 s i x :
  cinv T s -> einv T prog R m g x0 (abs s) -> threads s !! i = Some x -> pc x = Releases_ids 0 -> good_step s i.
Proof.
  intros HC HI Hi Hpc. assert (owes x = false) as Hox by (unfold owes; by rewrite Hpc).
  pose proof (master_place _ _ _ _ _ _ HC HI Hi) as Hm. rewrite Hpc in Hm. destruct Hm as [-> Ex0].
  pose proof (ci_ids _ _ HC _ Hi) as Hids. rewrite Hpc in Hids.
  assert (working_threads (team s) = 0) as Hw.
  { apply (ei_woken _ _ _ _ _ _ _ HI). left. rewrite Ex0. cbn. by rewrite Hpc. }
  pose proof (io_nesting _ _ _ Hids _ Hi) as Hn. cbn in Hn.
  set (m' := mkOTeam 0 (members (team s)) (working_threads (team s)) (barrier_count (team s)) (single_count (team s))).
  set (x' := end_region (set_team x 0 false (nesting_depth x - 1)) Outside).
  assert (omp_step T thread_spin prog R s 0 = Ok (Some (put (with_team s m') 0 x'))) as Hst.
  { step_is Hi Hpc. unfold release_step. cbn [Nat.leb]. rewrite Hw, Hn. cbn. subst m' x'. by rewrite Hw, Hn. }
  apply (good_master s x x' m' HC Hi); try exact Hst; try done; rewrite ?Hpc; try done.
  - destruct Hids as [H1 H2 H3 H4 H5 H6 H7 H8]. split; cbn [team threads idstack members team_size put with_team]; try done.
    + intros j z Hj. cbn [assigned]. destruct (decide (j = 0%nat)) as [->|Hj0].
      * rewrite list_lookup_insert_eq in Hj by (by eapply lookup_lt_Some). by injection Hj as <-.
      * rewrite list_lookup_insert_ne in Hj by done. specialize (H7 _ _ Hj). rewrite (decide_False (P := j = 0%nat)) in H7 by done. exact H7.
    + intros z Hz. rewrite list_lookup_insert_eq in Hz by (by eapply lookup_lt_Some). injection Hz as <-. cbn. lia.
  - intros He. right. cbn. by eapply e_end.
Qed.

Lemma good_outside m g x0 s i x :
  cinv T s -> einv T prog R m g x0 (abs s) -> threads s !! i = Some x -> pc x = Outside -> good_step s i.
Proof.
  intros HC HI Hi Hpc. assert (owes x = false) as Hox by (unfold owes; by rewrite Hpc).
  pose proof (master_place _ _ _ _ _ _ HC HI Hi) as Hm. rewrite Hpc in Hm. destruct Hm as [-> Ex0].
  pose proof (ci_ids _ _ HC _ Hi) as Hids. rewrite Hpc in Hids. pose proof (io_size _ _ _ Hids) as Hsz. cbn in Hsz.
  pose proof (io_nesting _ _ _ Hids _ Hi) as Hn. cbn in Hn.
  destruct (decide (regions x < R)%nat) as [Hr|Hr].
  2: { unfold good_step. step_is Hi Hpc. unfold fork_step. rewrite (proj2 (Nat.ltb_ge _ _)) by lia. cbn.
       intros y Hy. assert (y = x) as -> by congruence. right. split; [done|lia]. }
  set (m' := set_member (mkOTeam (Z.of_nat T) (members (team s)) (Z.of_nat T) (Z.of_nat T) 0) 0 0).
  set (x' := set_pc (set_single (set_team x 0 (has_team x) (nesting_depth x + 1)) 0 (won x)) (Forking 1)).
  assert (omp_step T thread_spin prog R s 0 = Ok (Some (put (with_team s m') 0 x'))) as Hst.
  { step_is Hi Hpc. unfold fork_step. rewrite (proj2 (Nat.ltb_lt _ _)) by lia. cbv zeta.
    rewrite assert_true, obind_ok by (apply Z.ltb_lt; lia). by rewrite Hsz. }
  destruct (thread_known _ _ _ _ _ _ HC HI Hi) as (_ & _ & Hp). unfold place_ok in Hp. cbn [at_ event_of done] in Hp.
  rewrite Hpc in Hp. cbn in Hp. destruct Hp as (_ & _ & _ & Hc).
  apply (good_master s x x' m' HC Hi); try exact Hst; try done; rewrite ?Hpc; try done.
  - destruct Hids as [H1 H2 H3 H4 H5 H6 H7 H8]. split; cbn [team threads idstack members team_size put with_team m' set_member pc set_pc x']; try done.
    + cbn. lia.
    + by rewrite length_insert.
    + intros _ j Hj. cbn in Hj. assert (j = 0%nat) as -> by lia. apply list_lookup_insert_eq. unfold PMP_MAX_IDS in *. lia.
    + intros j z Hj. cbn [assigned]. destruct (decide (j = 0%nat)) as [->|Hj0].
      * rewrite list_lookup_insert_eq in Hj by (by eapply lookup_lt_Some). injection Hj as <-. cbn.
        by destruct (H7 _ _ Hi) as [_ ?].
      * rewrite list_lookup_insert_ne in Hj by done. specialize (H7 _ _ Hj). rewrite (decide_False (P := j = 0%nat)) in H7 by done. exact H7.
    + intros z Hz. rewrite list_lookup_insert_eq in Hz by (by eapply lookup_lt_Some). injection Hz as <-. cbn. lia.
  - cbn. rewrite Hc. intros He. right. apply e_fork; done.
Qed.

(** ** Waking *)
Lemma wake_totals (f : omp_thread -> Z) ths i k x x' y y' :
  ths !! i = Some x -> ths !! k = Some y -> i <> k -> f y' = f y ->
  total f (<[i := x']> (<[k := y']> ths)) = total f ths - f x + f x'.
Proof.
  intros Hi Hk Hne Hy. rewrite (total_insert _ _ i x), (total_insert _ _ _ _ _ Hk); [lia|]. by rewrite list_lookup_insert_ne.
Qed.

Lemma debts_pc j y y' : pc y' = pc y -> idles j y' = idles j y /\ kills j y' = kills j y.
Proof. intros E. unfold idles, kills. by rewrite E. Qed.

(** The debts of [x] and [x'] are to thread [k]. *)
Definition debts_to (k : nat) (x x' : omp_thread) : Prop :=
  forall j, j <> k -> idles j x' = idles j x /\ kills j x' = kills j x.

Lemma good_wake s i k x x' y y' :
  cinv T s -> threads s !! i = Some x -> threads s !! k = Some y -> i <> k ->
  plain (pc x) = true -> plain (pc x') = true \/ pc x' = Idling -> same_hand x x' -> debts_to k x x' ->
  pc x' <> Master_zero -> waking_ok T i (pc x') -> same_fields x x' -> nesting_depth x' = nesting_depth x ->
  same_stage T (pc x) (pc x') -> regions x' = regions x -> constructs x' = constructs x ->
  pc y' = pc y -> same_fields y y' -> nesting_depth y' = nesting_depth y -> regions y' = regions y -> constructs y' = constructs y ->
  let I := total (idles k) (threads s) - idles k x + idles k x' in
  let K := total (kills k) (threads s) - kills k x + kills k x' in
  hand_ok I K y' -> (sync y' =? PMP_SYNC_UNBLOCKED) || signal y' || (0 <? I + K) = true ->
  omp_step T thread_spin prog R s i = Ok (Some (put (put s k y') i x')) ->
  (e_threads (abs s) !! i = Some (mkE (place_of (pc x)) false (regions x) (constructs x)) ->
   e_threads (abs s) !! k = Some (event_of (threads s) k y) ->
   let s' := mkES (e_working (abs s)) (e_barrier (abs s))
               (<[i := mkE (place_of (pc x')) false (regions x) (constructs x)]>
                 (<[k := raise_flag (event_of (threads s) k y)]> (e_threads (abs s)))) in
   s' = abs s \/ estep T prog R (abs s) i s') -> good_step s i.
Proof.
  intros HC Hi Hk Hne Hx Hx' Hhx Hd Hxz Hwx Hfx Hnx Hsx Hrx Hcx Hpy Hfy Hny Hry Hcy I K Hhy Hfl Hst He.
  set (ths := <[i := x']> (<[k := y']> (threads s))).
  assert (forall j, total (idles j) ths = total (idles j) (threads s) - idles j x + idles j x') as HtI.
  { intros j. by apply (wake_totals _ _ i k x x' y y'); [| | |apply debts_pc]. }
  assert (forall j, total (kills j) ths = total (kills j) (threads s) - kills j x + kills j x') as HtK.
  { intros j. by apply (wake_totals _ _ i k x x' y y'); [| | |apply debts_pc]. }
  assert (forall j, j <> k -> total (idles j) ths = total (idles j) (threads s) /\ total (kills j) ths = total (kills j) (threads s)) as Hoth.
  { intros j Hj. rewrite HtI, HtK. destruct (Hd j Hj) as [-> ->]. lia. }
  pose proof (lookup_lt_Some _ _ _ Hi). pose proof (lookup_lt_Some _ _ _ Hk).
  assert (forall j z, ths !! j = Some z -> j = i /\ z = x' \/ j = k /\ z = y' \/ j <> i /\ j <> k /\ threads s !! j = Some z) as Hin.
  { intros j z Hj. subst ths. destruct (decide (j = i)) as [->|Hji].
    { rewrite list_lookup_insert_eq in Hj by (by rewrite length_insert). injection Hj as <-. by left. }
    rewrite list_lookup_insert_ne in Hj by done. right. destruct (decide (j = k)) as [->|Hjk].
    { rewrite list_lookup_insert_eq in Hj by done. injection Hj as <-. by left. }
    rewrite list_lookup_insert_ne in Hj by done. by right. }
  apply (good_some s i x (put (put s k y') i x')); try done.
  - split; cbn [team threads put]; change (<[i := x']> (<[k := y']> (threads s))) with ths.
    + split.
      * intros j z Hj. destruct (Hin j z Hj) as [[-> ->]|[[-> ->]|(Hji & Hjk & Hz)]].
        -- destruct (Hoth i Hne) as [-> ->]. apply (hand_move _ _ x x'); [done|by apply (ci_hand _ _ HC)|done|tauto].
        -- by rewrite HtI, HtK.
        -- destruct (Hoth j Hjk) as [-> ->]. by apply (ci_hand _ _ HC).
      * intros j z Hj. destruct (Hin j z Hj) as [[-> ->]|[[-> ->]|(Hji & Hjk & Hz)]]; [done| |by apply (ci_waking _ _ HC)].
        rewrite Hpy. by apply (ci_waking _ _ HC).
      * intros z Hj Hz. destruct (Hin 0%nat z Hj) as [[_ ->]|[[E ->]|(_ & _ & Hz')]]; [done| |by apply (ci_zero _ _ HC _ Hz')].
        subst k. apply (ci_zero _ _ HC _ Hk). congruence.
    + intros z Hj.
      assert (exists t0, threads s !! 0%nat = Some t0 /\ same_stage T (pc t0) (pc z)) as (t0 & Ht0 & Hs0).
      { destruct (Hin 0%nat z Hj) as [[E ->]|[[E ->]|(_ & _ & Hz)]]; subst.
        - by exists x.
        - exists y. split; [done|]. rewrite Hpy. split_and!; try done. by apply (ci_ids _ _ HC _ Hk).
        - exists z. split; [done|]. split_and!; try done. by apply (ci_ids _ _ HC _ Hz). }
      pose proof (ci_ids _ _ HC _ Ht0) as Hids.
      assert (ids_ok T (pc t0) (put (with_team s (team s)) k y')) as Hids1.
      { apply (ids_put T (pc t0) _ s k y); try done. split_and!; try done. by apply Hids. }
      by apply (ids_put T (pc t0) _ (put s k y') i x _ (team s) Hids1); try done; cbn [threads put]; rewrite ?list_lookup_insert_ne by done.
  - assert (abs (put (put s k y') i x') = mkES (e_working (abs s)) (e_barrier (abs s))
      (<[i := mkE (place_of (pc x')) false (regions x) (constructs x)]>
        (<[k := raise_flag (event_of (threads s) k y)]> (e_threads (abs s))))) as ->.
    + unfold abs. cbn [team threads put e_working e_barrier e_threads]. f_equal. change (<[i := x']> (<[k := y']> (threads s))) with ths.
      apply list_eq. intros j. rewrite list_lookup_imap. destruct (decide (j = i)) as [->|Hji].
      { rewrite (list_lookup_insert_eq (<[k := _]> (imap _ _))) by (by rewrite length_insert, length_imap).
        assert (ths !! i = Some x') as -> by (subst ths; rewrite list_lookup_insert_eq; [done|by rewrite length_insert]). cbn. f_equal.
        unfold event_of. rewrite Hrx, Hcx. f_equal. unfold flag_of. destruct (Hoth i Hne) as [-> ->].
        destruct Hhx as (-> & -> & _). exact (flag_plain _ _ _ HC Hi Hx). }
      rewrite (list_lookup_insert_ne (<[k := _]> (imap _ _))) by done.
      assert (ths !! j = <[k := y']> (threads s) !! j) as -> by (subst ths; by rewrite list_lookup_insert_ne).
      destruct (decide (j = k)) as [->|Hjk].
      { rewrite !list_lookup_insert_eq by (by rewrite ?length_imap). cbn. f_equal. unfold event_of, raise_flag. cbn.
        rewrite Hpy, Hry, Hcy. f_equal. unfold flag_of. by rewrite HtI, HtK. }
      rewrite !list_lookup_insert_ne, list_lookup_imap by done. destruct (threads s !! j) as [z|]; [cbn; f_equal|done].
      by apply event_of_ext; apply Hoth.
    + apply He; [|by apply abs_lookup_Some]. rewrite (abs_lookup_Some _ _ _ Hi). unfold event_of. by rewrite (flag_plain _ _ _ HC Hi Hx).
Qed.

Lemma total_at (f : omp_thread -> Z) ths i x : (forall x, 0 <= f x) -> ths !! i = Some x -> f x <= total f ths.
Proof. apply total_member. Qed.

(** The stage of the master does not change while it wakes. *)
Lemma waking_stage T' e k g w p :
  p = after_wake e k \/ (exists w', p = Waking e k g w') -> e <> At_join -> same_stage T' (Waking e k g w) p.
Proof. intros [->|[w' ->]] He; destruct e; done. Qed.

Lemma suspended_thread I K x :
  hand_ok I K x -> 0 < I + K -> 0 <= I -> 0 <= K ->
  (exists p, pc x = Waiting p Wait_suspend) /\ has_tid x = true /\ signal x = false /\
  (sync x = PMP_SYNC_BLOCKED /\ I = 1 /\ K = 0 \/ sync x = PMP_SYNC_IDLE /\ I = 0 /\ K = 1).
Proof.
  intros [Ht Hh] Hp HI HK. destruct (pc x) as [|p w| | | | | | | | | | | | | |] eqn:Hpc;
    try (destruct Hh as (_ & _ & -> & ->); lia).
  destruct w; try (destruct Hh as (_ & _ & -> & ->); lia). destruct Ht as [|Ht]; [done|].
  split; [eauto|]. split; [done|]. destruct Hh as [(Hs & Hsg & HI' & ->)|[(Hs & Hsg & -> & ->)|(_ & _ & -> & ->)]]; [| |lia].
  - split; [done|]. left. split_and!; try done. lia.
  - split; [done|]. right. done.
Qed.

(** [__pmp_thread_wake] after the compare-and-swap: not visible. *)
Lemma good_waking_on m g x0 s i x e k w :
  cinv T s -> einv T prog R m g x0 (abs s) -> threads s !! i = Some x -> pc x = Waking e k k w -> k <> i -> (k < T)%nat ->
  (e = At_join -> i <> 0%nat) -> w <> Wake_swap -> good_step s i.
Proof.
  intros HC HI Hi Hpc Hki HkT He Hw. destruct (lookup_lt_is_Some_2 (threads s) k) as [y Hy].
  { by rewrite (threads_length _ _ _ _ HI). }
  assert (plain (pc x) = true) as Hpl by (by rewrite Hpc).
  pose proof (total_at (idles k) _ _ _ (fun x => proj1 (idles_range k x)) Hi) as HxI.
  pose proof (total_at (kills k) _ _ _ (fun x => proj1 (kills_range k x)) Hi) as HxK.
  pose proof (idles_range k x). pose proof (kills_range k x).
  assert (idles k x + kills k x = 1) as Hd1.
  { unfold idles, kills. rewrite Hpc. rewrite !decide_True by done. by destruct w. }
  destruct (suspended_thread _ _ _ (ci_hand _ _ HC _ _ Hy)) as ((p & Hyp) & Htid & Hsg & Hcase); [lia..|].
  assert (forall j, j <> k -> idles j x = 0 /\ kills j x = 0) as Hoth.
  { intros j Hj. unfold idles, kills. rewrite Hpc. rewrite !decide_False by done. by destruct w. }
  assert (flag_of (threads s) k y = true) as Hfl.
  { unfold flag_of. rewrite (proj2 (Z.ltb_lt 0 _)) by lia. by rewrite orb_true_r. }
  assert (e_threads (abs s) !! k = Some (event_of (threads s) k y) ->
    <[k := raise_flag (event_of (threads s) k y)]> (e_threads (abs s)) = e_threads (abs s)) as Hsame.
  { intros Hk. apply list_insert_id. rewrite Hk. unfold event_of, raise_flag. cbn. by rewrite Hfl. }
  destruct w; [done| |].
  - assert (idles k x = 1 /\ kills k x = 0) as [EI EK] by (unfold idles, kills; rewrite Hpc, decide_True by done; done).
    assert (idles k (set_pc x (Waking e k k Wake_kill)) = 0 /\ kills k (set_pc x (Waking e k k Wake_kill)) = 1) as [EI' EK'].
    { unfold idles, kills. cbn. by rewrite decide_True. }
    destruct Hcase as [(Hs & HI1 & HK0)|(_ & HI0 & _)]; [|lia].
    apply (good_wake s i k x (set_pc x (Waking e k k Wake_kill)) y (set_sync y PMP_SYNC_IDLE)); try done; rewrite ?Hpc; try done.
    + by left.
    + intros j Hj. destruct (Hoth j Hj) as [-> ->]. unfold idles, kills. cbn. by rewrite decide_False.
    + cbn. split_and!; try done. pose proof (ci_waking _ _ HC _ _ Hi) as Hwk. rewrite Hpc in Hwk. by destruct Hwk as (_ & _ & _ & ?).
    + rewrite EI, EK, EI', EK', HI1, HK0. split; [by right|]. cbn. rewrite Hyp. right. left. done.
    + rewrite EI, EK, EI', EK', HI1, HK0. by rewrite orb_true_r.
    + step_is Hi Hpc. unfold thread_of. rewrite Hy. cbn. done.
    + cbn zeta. intros Hi' Hk'. left. rewrite (Hsame Hk'). cbn [pc set_pc].
      rewrite (list_insert_id (e_threads (abs s)) i); [done|]. rewrite Hi'. by destruct e.
  - assert (idles k x = 0 /\ kills k x = 1) as [EI EK] by (unfold idles, kills; rewrite Hpc, decide_True by done; done).
    assert (forall j, idles j (set_pc x (after_wake e k)) = 0 /\ kills j (set_pc x (after_wake e k)) = 0) as Ez.
    { intros j. unfold idles, kills. by destruct e. }
    destruct Hcase as [(_ & _ & HK0)|(Hs & HI0 & HK1)]; [lia|].
    assert (waking_ok T i (pc x)) as Hwk by (by apply (ci_waking _ _ HC)). rewrite Hpc in Hwk.
    apply (good_wake s i k x (set_pc x (after_wake e k)) y (set_signal y true)); try done; rewrite ?Hpc; try done.
    + destruct e; [by left|by left|by right].
    + intros j Hj. destruct (Hoth j Hj) as [-> ->]. apply Ez.
    + by destruct e.
    + by destruct e.
    + by destruct e.
    + destruct (Ez k) as [-> ->]. rewrite EI, EK, HI0, HK1. split; [by right|]. cbn. rewrite Hyp. right. right. done.
    + by rewrite orb_true_r.
    + step_is Hi Hpc. unfold thread_of. rewrite Hy. cbn. by rewrite Htid.
    + cbn zeta. intros Hi' Hk'. left. rewrite (Hsame Hk'). cbn [pc set_pc].
      rewrite (list_insert_id (e_threads (abs s)) i); [done|]. rewrite Hi'. by destruct e.
Qed.

(** The thread that is to be woken: not yet at the wait, waiting, or suspended. *)
Lemma wake_target m g x0 s i x e k :
  cinv T s -> einv T prog R m g x0 (abs s) -> threads s !! i = Some x -> pc x = Waking e k k Wake_swap -> k <> i ->
  (e = At_join -> k = 0%nat) -> forall y, threads s !! k = Some y ->
  (place_of (pc y) = Ready \/ place_of (pc y) = AtBarrier \/ place_of (pc y) = AtJoin) /\ owes y = false /\
  flag_of (threads s) k y = false.
Proof.
  intros HC HI Hi Hpc Hki He y Hy. pose proof (abs_lookup_Some _ _ _ Hi) as Hi'. pose proof (abs_lookup_Some _ _ _ Hy) as Hy'.
  assert (at_ (event_of (threads s) i x) = match e with At_fork => Forks k | At_barrier => OmpEvents.Releases k | At_join => WakesMaster end) as Hx.
  { cbn. rewrite Hpc. by destruct e. }
  destruct e.
  - destruct (fork_target _ _ _ (proj1 HT) _ _ _ _ _ _ _ _ HI Hi' Hx Hy') as [Hpl Hfl]. cbn in Hpl, Hfl.
    split; [auto|]. split; [|done].
    unfold owes. destruct (pc y) as [|[]|[] q gq []| | | | | | | | | | | | |] eqn:Hpcy; try done.
    all: exfalso; pose proof (ci_waking _ _ HC _ _ Hy) as Hwk; rewrite Hpcy in Hwk; destruct Hwk as (Eg & _ & _ & Eq); subst q gq.
    all: pose proof (ci_waking _ _ HC _ _ Hi) as Hwk; rewrite Hpc in Hwk; destruct Hwk as (_ & _ & _ & ->).
    all: destruct (hand_plain _ _ _ ltac:(by rewrite Hpc) (ci_hand _ _ HC _ _ Hi)) as (_ & _ & _ & HI0 & HK0).
    + pose proof (total_at (idles 0) _ _ _ (fun x => proj1 (idles_range 0 x)) Hy) as Hd.
      unfold idles at 1 in Hd. rewrite Hpcy, decide_True in Hd by done. lia.
    + pose proof (total_at (kills 0) _ _ _ (fun x => proj1 (kills_range 0 x)) Hy) as Hd.
      unfold kills at 1 in Hd. rewrite Hpcy, decide_True in Hd by done. lia.
  - destruct (barrier_target _ _ _ _ _ _ _ _ _ _ _ HI Hi' Hx ltac:(done) Hy') as [Hpl Hfl]. cbn in Hpl, Hfl.
    split; [auto|]. split; [|done]. unfold owes. by destruct (pc y) as [|[]|[] q gq []| | | | | | | | | | | | |].
  - rewrite He in * by done. destruct (join_target _ _ _ (proj1 HT) _ _ _ _ _ _ _ HI Hi' Hx Hy') as [Hpl Hfl]. cbn in Hpl, Hfl.
    split; [auto|]. split; [|done]. unfold owes. by destruct (pc y) as [|[]|[] q gq []| | | | | | | | | | | | |].
Qed.

(** What [sync] of that thread can be. *)
Lemma target_sync s k y :
  cinv T s -> threads s !! k = Some y -> flag_of (threads s) k y = false -> owes y = false ->
  place_of (pc y) = Ready \/ place_of (pc y) = AtBarrier \/ place_of (pc y) = AtJoin ->
  signal y = false /\ total (idles k) (threads s) = 0 /\ total (kills k) (threads s) = 0 /\
  (sync y = PMP_SYNC_BLOCKED /\ (exists p, pc y = Waiting p Wait_suspend) /\ has_tid y = true \/
   sync y = PMP_SYNC_IDLE /\ hand_ok 0 0 (set_sync y PMP_SYNC_UNBLOCKED)).
Proof.
  intros HC Hy Hfl Ho Hpl. unfold flag_of in Hfl. apply orb_false_iff in Hfl as [Hfl Hd]. apply orb_false_iff in Hfl as [Hs Hsg].
  apply Z.eqb_neq in Hs. apply Z.ltb_ge in Hd. destruct (ci_hand _ _ HC _ _ Hy) as [Ht Hh].
  pose proof (total_nonneg (idles k) (threads s) (fun x => proj1 (idles_range k x))).
  pose proof (total_nonneg (kills k) (threads s) (fun x => proj1 (kills_range k x))).
  assert (total (idles k) (threads s) = 0) as EI by lia. assert (total (kills k) (threads s) = 0) as EK by lia.
  rewrite EI, EK in *. split_and!; try done.
  assert (forall w, wait_ok 0 0 y w -> (w = Wait_suspend \/ w = Wait_reset \/ wait_ok 0 0 y Wait_first)) as Hw by (intros []; auto).
  assert (wait_ok 0 0 y Wait_first -> sync y = PMP_SYNC_IDLE /\ wait_ok 0 0 (set_sync y PMP_SYNC_UNBLOCKED) Wait_first) as Hgo.
  { intros ([?|?] & _); [|done]. split; [done|]. by split; [right|]. }
  unfold hand_ok. cbn [pc set_sync has_tid]. unfold owes in Ho.
  destruct (pc y) as [|p w|[] q gq []| | | | | | | | | | | | |] eqn:Hpc; cbn in Hpl; try (by destruct_or?).
  - right. destruct (Hgo Hh). done.
  - destruct w; try (right; by destruct (Hgo Hh)).
    + destruct Ht as [|Ht]; [done|]. destruct Hh as [(? & _)|[(_ & _ & _ & ?)|(_ & ? & _)]]; [left; eauto|done|congruence].
    + by destruct Hh.
  - right. by destruct (Hgo Hh).
Qed.

Lemma good_waking_swap m g x0 s i x e k :
  cinv T s -> einv T prog R m g x0 (abs s) -> threads s !! i = Some x -> pc x = Waking e k k Wake_swap -> k <> i -> (k < T)%nat ->
  match e with At_join => k = 0%nat | At_fork => i = 0%nat | At_barrier => True end -> good_step s i.
Proof.
  intros HC HI Hi Hpc Hki HkT He. destruct (lookup_lt_is_Some_2 (threads s) k) as [y Hy].
  { by rewrite (threads_length _ _ _ _ HI). }
  destruct (wake_target _ _ _ _ _ _ _ _ HC HI Hi Hpc Hki) with (y := y) as (Hpl & Ho & Hfl); [by intros ->|done|].
  destruct (target_sync _ _ _ HC Hy Hfl Ho Hpl) as (Hsg & EI & EK & Hcase).
  assert (forall j, idles j x = 0 /\ kills j x = 0) as Hx0 by (intros j; unfold idles, kills; by rewrite Hpc).
  assert (forall p, place_of p = match e with At_fork => Forks (S k) | At_barrier => OmpEvents.Releases (S k) | At_join => Ready end ->
    e_threads (abs s) !! i = Some (mkE (place_of (pc x)) false (regions x) (constructs x)) ->
    e_threads (abs s) !! k = Some (event_of (threads s) k y) ->
    estep T prog R (abs s) i (mkES (e_working (abs s)) (e_barrier (abs s))
      (<[i := mkE (place_of p) false (regions x) (constructs x)]>
        (<[k := raise_flag (event_of (threads s) k y)]> (e_threads (abs s)))))) as Hev.
  { intros p Hp Hi' Hk'. rewrite Hpc in Hi'. rewrite Hp. destruct e.
    - by apply e_fork_wake.
    - by apply e_release.
    - rewrite He in *. by apply e_wake_master. }
  assert (plain (pc x) = true) as Hplx by (by rewrite Hpc).
  assert (e = At_join -> i <> 0%nat) as Hej by (intros ->; congruence).
  destruct Hcase as [(Hs & (p & Hyp) & Htid)|(Hs & Hh)].
  - assert (idles k (set_pc x (Waking e k k Wake_idle)) = 1 /\ kills k (set_pc x (Waking e k k Wake_idle)) = 0) as [EI' EK'].
    { unfold idles, kills. cbn. by rewrite decide_True. }
    apply (good_wake s i k x (set_pc x (Waking e k k Wake_idle)) y y); try done; rewrite ?Hpc; try done.
    + by left.
    + intros j Hj. destruct (Hx0 j) as [-> ->]. unfold idles, kills. cbn. by rewrite decide_False.
    + rewrite (proj1 (Hx0 k)), (proj2 (Hx0 k)), EI, EK, EI', EK'. split; [by right|]. rewrite Hyp. left. split_and!; done || lia.
    + rewrite (proj1 (Hx0 k)), (proj2 (Hx0 k)), EI, EK, EI', EK'. by rewrite orb_true_r.
    + step_is Hi Hpc. unfold thread_of. rewrite Hy. cbn [of_option]. rewrite obind_ok. unfold __pmp_thread_wake. rewrite Hs. done.
    + rewrite <- Hpc. intros Hi' Hk'. right. apply Hev; [by destruct e|done|done].
  - assert (forall j, idles j (set_pc x (after_wake e k)) = 0 /\ kills j (set_pc x (after_wake e k)) = 0) as Ez.
    { intros j. unfold idles, kills. by destruct e. }
    apply (good_wake s i k x (set_pc x (after_wake e k)) y (set_sync y PMP_SYNC_UNBLOCKED)); try done; rewrite ?Hpc; try done.
    + destruct e; [by left|by left|by right].
    + intros j Hj. destruct (Hx0 j) as [-> ->]. apply Ez.
    + by destruct e.
    + by destruct e.
    + by destruct e.
    + by rewrite (proj1 (Hx0 k)), (proj2 (Hx0 k)), EI, EK, (proj1 (Ez k)), (proj2 (Ez k)).
    + step_is Hi Hpc. unfold thread_of. rewrite Hy. cbn [of_option]. rewrite obind_ok. unfold __pmp_thread_wake. rewrite Hs. done.
    + rewrite <- Hpc. intros Hi' Hk'. right. apply Hev; [by destruct e|done|done].
Qed.

Lemma good_waking m g x0 s i x e k g' w :
  cinv T s -> einv T prog R m g x0 (abs s) -> threads s !! i = Some x -> pc x = Waking e k g' w -> good_step s i.
Proof.
  intros HC HI Hi Hpc. pose proof (ci_waking _ _ HC _ _ Hi) as Hwk. rewrite Hpc in Hwk. destruct Hwk as (-> & HkT & Hki & He).
  assert (e = At_join -> i <> 0%nat) by (intros ->; congruence).
  destruct w; [by eapply good_waking_swap|by eapply good_waking_on|by eapply good_waking_on].
Qed.

(** Every step of every thread, in a state that satisfies the invariant. *)
Lemma good_steps m g x0 s i x :
  cinv T s -> einv T prog R m g x0 (abs s) -> threads s !! i = Some x -> good_step s i.
Proof.
  intros HC HI Hi. destruct (pc x) as [|p w|e k g' w| | | |k| | | |k|k|n| | |[|k]] eqn:Hpc.
  - by eapply good_starting.
  - by eapply good_waiting.
  - by eapply good_waking.
  - by eapply good_entering.
  - destruct (prog !! constructs x) as [[]|] eqn:Hc; [by eapply good_barrier|by eapply good_single|by eapply good_region_end].
  - by eapply good_barrier_reset.
  - by eapply good_barrier_wakes.
  - by eapply good_join_wakes.
  - by eapply good_idling.
  - by eapply good_outside.
  - by eapply good_forking.
  - by eapply good_fork_wakes.
  - by eapply good_master_spin.
  - by eapply good_master_zero.
  - by eapply good_master_join.
  - by eapply good_team_free.
  - by eapply good_releases.
Qed.

(** ** Reachable states *)
Lemma tstep_inv s s' :
  tinv s -> tstep T thread_spin prog R s s' -> tinv s' /\ (abs s' = abs s \/ ereach T prog R (abs s) (abs s')).
Proof.
  intros (HC & m & g & x0 & HI) (i & Hlt & Hs). destruct (lookup_lt_is_Some_2 _ _ Hlt) as [x Hi].
  pose proof (good_steps _ _ _ _ _ _ HC HI Hi) as Hg. unfold good_step in Hg. rewrite Hs in Hg. destruct Hg as [HC' [E|He]].
  - split; [|by left]. split; [done|]. rewrite E. eauto.
  - split; [|right; by exists i]. split; [done|]. by eapply (estep_inv _ _ _ (proj1 HT)).
Qed.

Lemma start_threads j x : threads (start_state T) !! j = Some x -> j = 0%nat /\ x = main_thread \/ j <> 0%nat /\ x = new_thread.
Proof. cbn [threads start_state]. destruct j as [|n]; intros Hj; [left; by simplify_eq/=|right]. cbn in Hj. by apply lookup_replicate in Hj as [-> _]. Qed.

Lemma start_total (f : omp_thread -> Z) : f main_thread = 0 -> f new_thread = 0 -> total f (threads (start_state T)) = 0.
Proof.
  intros H1 H2. rewrite (total_eq _ 0); [lia|]. intros j y Hy. by destruct (start_threads _ _ Hy) as [[_ ->]|[_ ->]].
Qed.

Lemma start_abs : abs (start_state T) = e_start_state T.
Proof.
  assert (forall j x, threads (start_state T) !! j = Some x -> event_of (threads (start_state T)) j x =
    if decide (j = 0%nat) then mkE Serial false 0 0 else mkE Ready false 0 0) as He.
  { intros j x Hj. unfold event_of, flag_of. rewrite !start_total by done.
    destruct (start_threads _ _ Hj) as [[-> ->]|[Hne ->]]; [done|]. by rewrite decide_False. }
  unfold abs, e_start_state. f_equal. apply list_eq. intros j. rewrite list_lookup_imap.
  destruct (threads (start_state T) !! j) as [x|] eqn:Hj; cbn [fmap option_fmap option_map].
  - rewrite (He _ _ Hj). cbn [threads start_state] in Hj. destruct j as [|n]; [done|]. cbn in Hj.
    apply lookup_replicate in Hj as [_ Hn]. symmetry. rewrite decide_False by done. by apply lookup_replicate.
  - cbn [threads start_state] in Hj. destruct j as [|n]; [done|]. cbn in Hj. symmetry. cbn.
    apply lookup_replicate_None in Hj. by apply lookup_replicate_None.
Qed.

Lemma start_cinv : cinv T (start_state T).
Proof.
  split; [split|].
  - intros j x Hj. rewrite !start_total by done. destruct (start_threads _ _ Hj) as [[_ ->]|[_ ->]].
    + split; [by right|done].
    + split; [by left|]. split; [by left|done].
  - intros j x Hj. by destruct (start_threads _ _ Hj) as [[_ ->]|[_ ->]].
  - intros x Hj. by destruct (start_threads _ _ Hj) as [[_ ->]|[? _]].
  - intros x Hj. destruct (start_threads _ _ Hj) as [[_ ->]|[? _]]; [|done]. split; try done.
    + intros j y Hy. cbn [pc main_thread assigned]. destruct (start_threads _ _ Hy) as [[-> ->]|[Hne ->]]; [done|].
      rewrite decide_False, decide_False, bool_decide_false by lia. done.
    + intros y Hy. by destruct (start_threads _ _ Hy) as [[_ ->]|[? _]].
Qed.

Lemma start_tinv : tinv (start_state T).
Proof. split; [apply start_cinv|]. rewrite start_abs. eexists _, _, _. by apply (estart_inv _ _ _ (proj1 HT)). Qed.

Lemma reach_tinv s : rtc (tstep T thread_spin prog R) (start_state T) s -> tinv s /\ rtc (ereach T prog R) (e_start_state T) (abs s).
Proof.
  intros Hs. assert (forall s0, tinv s0 -> rtc (ereach T prog R) (e_start_state T) (abs s0) -> rtc (tstep T thread_spin prog R) s0 s ->
    tinv s /\ rtc (ereach T prog R) (e_start_state T) (abs s)) as H.
  { intros s0 H0 Ha Hr. induction Hr as [|s1 s2 s3 H12 _ IH]; [done|]. destruct (tstep_inv _ _ H0 H12) as [H2 [E|He]]; apply IH; try done.
    - by rewrite E.
    - by eapply rtc_r. }
  apply (H (start_state T)); [apply start_tinv| |done]. by rewrite start_abs.
Qed.
End Steps.
