(* ===== verification/OmpTeamTurns.v ===== *)
(** What a step of a thread of [OmpTeam] changes, and how many steps there are.

    [turn] sorts the steps by what they do to the thread's own progress: the
    quiet ones go on to a later place of the same construct ([rank] decreases), the
    others begin a region, finish a construct or finish a region.  The other
    threads do not progress.  So [effort], a bound of the steps that are left,
    decreases with every step: no team runs, or spins, for ever. *)
From Stdlib Require Import ZArith Lia Bool.
From stdpp Require Import prelude list relations.
From S2P Require Import Prelude OmpEvents OmpEventsInv OmpTeam OmpTeamInv.

(** The part of a thread that other threads never change. *)
Definition view (x : omp_thread) : omp_pc * Z * nat * nat * list (nat * nat) :=
  (pc x, my_single_count x, regions x, constructs x, won x).

Lemma total_view (f : omp_thread -> Z) ths ths' i x x' :
  (forall y y', view y' = view y -> f y' = f y) ->
  ths !! i = Some x -> ths' !! i = Some x' -> (forall j, j <> i -> view <$> ths' !! j = view <$> ths !! j) ->
  total f ths' = total f ths - f x + f x'.
Proof.
  intros Hf. revert ths ths'. induction i as [|i IH]; intros [|y ths] [|y' ths'] Hi Hi' Hv; simplify_eq/=.
  - assert (total f ths' = total f ths) as ->; [|lia].
    assert (forall j, view <$> ths' !! j = view <$> ths !! j) as Hv' by (intros j; apply (Hv (S j)); lia). clear Hv.
    revert ths Hv'. induction ths' as [|z' ths' IH']; intros [|z ths] Hv'.
    + done.
    + by pose proof (Hv' 0%nat).
    + by pose proof (Hv' 0%nat).
    + cbn [total foldr]. change (f z' + total f ths' = f z + total f ths). rewrite (IH' ths) by (intros j; apply (Hv' (S j))). rewrite (Hf z z'); [done|]. pose proof (Hv' 0%nat) as E. cbn in E. congruence.
  - rewrite (IH ths ths'); [| |done|intros j Hj; apply (Hv (S j)); lia]; [|done].
    rewrite (Hf y y'); [lia|]. pose proof (Hv 0%nat ltac:(lia)) as E. cbn in E. congruence.
Qed.

Section Turns.
Context (T : nat) (thread_spin : Z) (prog : list construct) (R : nat).

(** ** The rank of a place *)
Definition spins : Z := Z.max 0 thread_spin.
Definition wait_rank (w : wait_at) : Z :=
  match w with
  | Wait_first => 4 + spins
  | Wait_spin i => 3 + Z.max 0 (thread_spin - i)
  | Wait_swap => 2
  | Wait_suspend | Wait_reset => 1
  end.
Definition wake_rank (w : wake_at) : Z := match w with Wake_swap => 3 | Wake_idle => 2 | Wake_kill => 1 end.
Definition still (k : nat) : Z := 5 * Z.of_nat (T - k).

Definition work_rank : Z := 7 * Z.of_nat T + 2 * spins + 20.
Definition rank (p : omp_pc) : Z :=
  match p with
  | Waiting For_barrier w => wait_rank w
  | Waking At_barrier k _ w => still (S k) + wake_rank w
  | Barrier_wakes k => still k
  | Barrier_reset => still 0 + 1
  | Releases_ids k => Z.of_nat k + 1
  | Waiting For_join w => Z.of_nat T + 1 + wait_rank w
  | Master_zero => Z.of_nat T + 2
  | Master_join => Z.of_nat T + 6 + spins
  | Master_spin n => Z.of_nat T + 7 + spins + Z.max 0 (thread_spin - n)
  | Working => work_rank
  | Entering => work_rank + 1
  | Fork_wakes k => work_rank + 2 + still k
  | Waking At_fork k _ w => work_rank + 2 + still (S k) + wake_rank w
  | Forking k => work_rank + 3 + still 0 + Z.of_nat (T - k)
  | Outside => work_rank + 4 + 6 * Z.of_nat T
  | Waiting For_assignment w => work_rank + 2 + wait_rank w
  | Idling | Starting => work_rank + 7 + spins
  | Waking At_join _ _ w => work_rank + 8 + spins + wake_rank w
  | Join_wakes => work_rank + 12 + spins
  end.

Lemma wait_rank_pos w : 0 < wait_rank w.
Proof. unfold wait_rank, spins. destruct w; lia. Qed.
Lemma wake_rank_pos w : 0 < wake_rank w.
Proof. destruct w; cbn; lia. Qed.
Lemma place_rank_nonneg p : 0 <= rank p.
Proof.
  unfold rank, still, work_rank, spins. destruct p as [|[] w| [] k g w| | | | | | | | | | | | |];
    try pose proof (wait_rank_pos w); try pose proof (wake_rank_pos w); lia.
Qed.

(** ** Turns *)
Definition first_pc (i : nat) (p : omp_pc) : Prop :=
  match p with Outside => i = 0%nat | Join_wakes | Idling => i <> 0%nat | _ => False end.

(** Behind a region, until the thread sets its own count of [single] constructs to 0. *)
Definition resets (p : omp_pc) : bool :=
  match p with Outside | Join_wakes | Idling | Waking At_join _ _ _ => true | _ => false end.

(** A thread changes from [x] to [x'], and [single_count] from [c] to [c']. *)
Inductive turn (i : nat) (x : omp_thread) (c : Z) (x' : omp_thread) (c' : Z) : Prop :=
| turn_quiet :
    rank (pc x') < rank (pc x) -> regions x' = regions x -> constructs x' = constructs x -> won x' = won x ->
    my_single_count x' = my_single_count x -> c' = c -> resets (pc x') = resets (pc x) -> pc x <> Outside /\ pc x' <> Outside -> turn i x c x' c'
| turn_idle :
    pc x = Idling -> pc x' = Waiting For_assignment Wait_first -> regions x' = regions x ->
    constructs x' = constructs x -> won x' = won x -> my_single_count x' = 0 -> c' = c -> turn i x c x' c'
| turn_fork :
    pc x = Outside -> pc x' = Forking 1 -> (regions x < R)%nat -> regions x' = regions x ->
    constructs x' = constructs x -> won x' = won x -> my_single_count x' = 0 -> c' = 0 -> turn i x c x' c'
| turn_barrier :
    at_barrier (place_of (pc x)) = 1%nat \/ pc x = Working /\ prog !! constructs x = Some Barrier ->
    pc x' = Working -> regions x' = regions x -> constructs x' = S (constructs x) -> won x' = won x ->
    my_single_count x' = my_single_count x -> c' = c -> turn i x c x' c'
| turn_single (wins : bool) :
    pc x = Working -> prog !! constructs x = Some Single ->
    pc x' = Working -> regions x' = regions x -> constructs x' = S (constructs x) ->
    won x' = (if wins then (regions x, constructs x) :: won x else won x) ->
    T = 1%nat /\ wins = true /\ my_single_count x' = my_single_count x /\ c' = c \/
    T <> 1%nat /\ wins = (my_single_count x =? c) /\ my_single_count x' = swrap 32 (my_single_count x + 1) /\
      c' = (if wins then swrap 32 (c + 1) else c) ->
    turn i x c x' c'
| turn_end :
    place_of (pc x) = Joined \/ i <> 0%nat /\ pc x = Working /\ prog !! constructs x = None ->
    first_pc i (pc x') -> regions x' = S (regions x) -> constructs x' = 0%nat -> won x' = won x ->
    my_single_count x' = my_single_count x -> c' = c -> turn i x c x' c'.

(** A step of thread [i] from [s] to [s']: a turn of [i], and nobody else moves. *)
Definition turns (s : omp_state) (i : nat) (x : omp_thread) (s' : omp_state) : Prop :=
  (exists x', threads s' !! i = Some x' /\ turn i x (single_count (team s)) x' (single_count (team s'))) /\
  forall j, j <> i -> view <$> threads s' !! j = view <$> threads s !! j.

Lemma turns_put s i x x' m :
  threads s !! i = Some x -> turn i x (single_count (team s)) x' (single_count m) ->
  turns s i x (put (with_team s m) i x').
Proof.
  intros Hi Ht. pose proof (lookup_lt_Some _ _ _ Hi). split; cbn [threads team put with_team].
  - exists x'. by rewrite list_lookup_insert_eq.
  - intros j Hj. by rewrite list_lookup_insert_ne.
Qed.

(** The thread also changes thread [g], which does not move. *)
Lemma turns_other s i g x y x' y' m ids :
  threads s !! i = Some x -> threads s !! g = Some y -> view y' = view y ->
  turn i x (single_count (team s)) x' (single_count m) ->
  turns s i x (mkOmp m ids (<[i := x']> (<[g := y']> (threads s)))).
Proof.
  intros Hi Hg Hv Ht. pose proof (lookup_lt_Some _ _ _ Hi). split; cbn [threads team].
  - exists x'. by rewrite list_lookup_insert_eq by (by rewrite length_insert).
  - intros j Hj. rewrite list_lookup_insert_ne by done. destruct (decide (j = g)) as [->|Hne].
    + rewrite list_lookup_insert_eq, Hg by (by eapply lookup_lt_Some). cbn. by rewrite Hv.
    + by rewrite list_lookup_insert_ne.
Qed.

(** ** Every step is a turn *)
Context (HT : (1 <= T <= PMP_MAX_IDS)%nat).

Definition in_team (p : omp_pc) : bool :=
  match p with
  | Starting | Idling | Waiting For_assignment _ | Outside | Forking _ | Fork_wakes _ | Waking At_fork _ _ _ => false
  | _ => true
  end.

Lemma tinv_size s i x :
  tinv T prog R s -> threads s !! i = Some x ->
  in_region (place_of (pc x)) = true \/ place_of (pc x) = WakesMaster \/ place_of (pc x) = AtJoin \/ place_of (pc x) = Joins ->
  team_size (team s) = Z.of_nat T.
Proof. intros (HC & m & g & x0 & HI) Hi Hx. by destruct (team_complete _ _ _ HT _ _ _ _ _ _ HC HI Hi Hx). Qed.

Lemma master_only s i x :
  tinv T prog R s -> threads s !! i = Some x -> first_pc i (pc x) \/ ~ (pc x = Outside \/ pc x = Join_wakes \/ pc x = Idling).
Proof.
  intros (HC & m & g & x0 & HI) Hi. destruct (ei_threads _ _ _ _ _ _ _ HI _ _ (abs_lookup_Some _ _ _ Hi)) as [Hp _].
  unfold place_ok in Hp. cbn [at_ event_of] in Hp.
  destruct (pc x); cbn in Hp |- *; try (left; tauto); right; intros [?|[?|?]]; done.
Qed.

Ltac take H Hi Hpc :=
  unfold omp_step, thread_of in H; rewrite Hi in H; cbn [of_option] in H; rewrite obind_ok, Hpc in H;
  cbv zeta in H.
Ltac bind H := apply obind_inv in H as (? & ? & H).
Ltac quiet Hpc := constructor 1; cbn; rewrite ?Hpc; try done; cbn; unfold work_rank, still, spins in *; try lia.

Lemma turns_wait s i x p w s' :
  tinv T prog R s -> threads s !! i = Some x -> pc x = Waiting p w ->
  omp_step T thread_spin prog R s i = Ok (Some s') -> turns s i x s'.
Proof.
  intros HI Hi Hpc H. take H Hi Hpc.
  destruct (__pmp_thread_wait thread_spin x w) as [y w'|y|] eqn:Hw; [| |done]; injection H as <-;
    apply turns_put; try done.
  - assert (view y = view x /\ wait_rank w' < wait_rank w) as [Hv Hr].
    { destruct w; cbn in Hw; repeat case_match; simplify_eq; split; try done; cbn; unfold spins; rewrite ?Z.ltb_lt, ?Z.ltb_ge in *; lia. }
    injection Hv as ?????. constructor 1; cbn; rewrite ?Hpc; try done. destruct p; cbn; lia.
  - assert (view y = view x) as Hv by (destruct w; cbn in Hw; repeat case_match; simplify_eq; done). injection Hv as ?????.
    pose proof (wait_rank_pos w). destruct p.
    + quiet Hpc. 
    + constructor 4; cbn; rewrite ?Hpc; try done; try congruence. by left.
    + constructor 1; cbn; rewrite ?Hpc; try done. cbn. rewrite (tinv_size _ _ _ HI Hi); [lia|]. rewrite Hpc. cbn. tauto.
Qed.

Lemma turns_waking s i x e k g w s' :
  tinv T prog R s -> threads s !! i = Some x -> pc x = Waking e k g w ->
  omp_step T thread_spin prog R s i = Ok (Some s') -> turns s i x s'.
Proof.
  intros (HC & _) Hi Hpc H. take H Hi Hpc. pose proof (ci_waking _ _ HC _ _ Hi) as Hw. rewrite Hpc in Hw. destruct Hw as (-> & Hk & _).
  apply obind_inv in H as (y & Hy & H). destruct (threads s !! k) as [z|] eqn:Hz; [|done]. injection Hy as <-.
  apply obind_inv in H as ([y w'] & Hy & H). injection H as <-. cbn [fst snd].
  assert (view y = view z /\ match w' with Some v => wake_rank v < wake_rank w | None => True end) as [Hv Hr].
  { destruct w; cbn in Hy; apply obind_inv in Hy as (? & _ & Hy) || idtac; repeat case_match; simplify_eq; split; try done; cbn; lia. }
  eapply (turns_other s i k x z _ y (team s) (idstack s)); try done.
  destruct w' as [v|]; constructor 1; cbn; rewrite ?Hpc; try done; pose proof (wake_rank_pos w); destruct e; cbn; first [done|lia].
Qed.

Lemma turns_working s i x s' :
  tinv T prog R s -> threads s !! i = Some x -> pc x = Working ->
  omp_step T thread_spin prog R s i = Ok (Some s') -> turns s i x s'.
Proof.
  intros HI Hi Hpc H. take H Hi Hpc.
  assert (team_size (team s) = Z.of_nat T) as HS by (eapply tinv_size; [done..|]; rewrite Hpc; by left).
  destruct (prog !! constructs x) as [[]|] eqn:Hc.
  - unfold barrier_step, some in H. rewrite HS in H. destruct (Z.ltb_spec 1 (Z.of_nat T)).
    + bind H. injection H as <-. apply turns_put; [done|]. destruct (1 <? barrier_count (team s)); quiet Hpc.
    + injection H as <-. apply (turns_put s i x _ (team s)); [done|]. constructor 4; try done. by right.
  - unfold single_step, some in H. rewrite HS in H. destruct (Z.eqb_spec (Z.of_nat T) 1).
    + injection H as <-. apply (turns_put s i x _ (team s)); [done|]. apply (turn_single _ _ _ _ _ true); try done. left. split_and!; try done. lia.
    + injection H as <-. rewrite (Z.eqb_sym (single_count _)). destruct (Z.eqb_spec (my_single_count x) (single_count (team s))) as [E|E].
      * apply turns_put; [done|]. apply (turn_single _ _ _ _ _ true); try done. right. rewrite <- E. split_and!; try done; [lia|by rewrite Z.eqb_refl].
      * apply (turns_put s i x _ (team s)); [done|]. apply (turn_single _ _ _ _ _ false); try done. right. split_and!; try done; [lia|].
        symmetry. by apply Z.eqb_neq.
  - destruct (Nat.eqb_spec i 0).
    + injection H as <-. apply (turns_put s i x _ (team s)); [done|]. quiet Hpc.
    + unfold worker_join_step, some in H. bind H. injection H as <-. apply turns_put; [done|]. constructor 6; try done; [by right|].
      destruct (working_threads (team s) =? 1); done.
Qed.

Lemma turns_forking s i x k s' :
  tinv T prog R s -> threads s !! i = Some x -> pc x = Forking k ->
  omp_step T thread_spin prog R s i = Ok (Some s') -> turns s i x s'.
Proof.
  intros HI Hi Hpc H. take H Hi Hpc. unfold assign_step, some in H. destruct (Nat.ltb_spec k T).
  - bind H. bind H. do 2 bind H. injection H as <-. destruct x0 as [ids g]. cbn [fst snd] in *.
    destruct (threads s !! g) as [z|] eqn:Hz; [|unfold thread_of in *; by rewrite Hz in *].
    unfold thread_of in *. rewrite Hz in *. cbn in *. simplify_eq.
    apply (turns_other s i g x x1); try done. quiet Hpc.
  - injection H as <-. apply (turns_put s i x _ (team s)); [done|]. quiet Hpc.
Qed.

Lemma turns_releases s i x k s' :
  tinv T prog R s -> threads s !! i = Some x -> pc x = Releases_ids k ->
  omp_step T thread_spin prog R s i = Ok (Some s') -> turns s i x s'.
Proof.
  intros HI Hi Hpc H. take H Hi Hpc. unfold release_step, some in H. destruct (Nat.leb_spec 1 k).
  - bind H. bind H. bind H. bind H. injection H as <-.
    destruct (threads s !! x0) as [z|] eqn:Hz; unfold thread_of in *; rewrite Hz in *; cbn in *; simplify_eq.
    apply (turns_other s i x0 x x1); try done. quiet Hpc.
  - bind H. bind H. injection H as <-. apply turns_put; [done|]. constructor 6; try done; [left; by rewrite Hpc|].
    cbn. destruct HI as (HC & m & g & y0 & HI). destruct (ei_threads _ _ _ _ _ _ _ HI _ _ (abs_lookup_Some _ _ _ Hi)) as [Hp _].
    unfold place_ok in Hp. cbn [at_ event_of] in Hp. rewrite Hpc in Hp. apply Hp.
Qed.

Lemma step_turns s i x s' :
  tinv T prog R s -> threads s !! i = Some x -> omp_step T thread_spin prog R s i = Ok (Some s') -> turns s i x s'.
Proof.
  intros HI Hi H. destruct (pc x) as [|p w|e k g w| | | |k| | | |k|k|n| | |k] eqn:Hpc;
    [|by eapply turns_wait|by eapply turns_waking| |by eapply turns_working| | | | | |by eapply turns_forking| | | | |by eapply turns_releases];
    take H Hi Hpc; unfold some in H; repeat bind H.
  - injection H as <-. apply (turns_put s i x _ (team s)); [done|]. quiet Hpc.
  - injection H as <-. apply (turns_put s i x _ (team s)); [done|]. quiet Hpc.
  - injection H as <-. apply turns_put; [done|]. quiet Hpc.
  - rewrite (tinv_size _ _ _ HI Hi) in H by (rewrite Hpc; by left). destruct (Z.ltb_spec (Z.of_nat k) (Z.of_nat T)).
    + bind H. injection H as <-. apply (turns_put s i x _ (team s)); [done|]. destruct (negb _); quiet Hpc.
    + injection H as <-. apply (turns_put s i x _ (team s)); [done|]. constructor 4; try done. left. by rewrite Hpc.
  - injection H as <-. apply (turns_put s i x _ (team s)); [done|]. quiet Hpc.
  - injection H as <-. apply (turns_put s i x _ (team s)); [done|]. by constructor 2.
  - unfold fork_step, some in H. destruct (Nat.ltb_spec (regions x) R); [|done]. do 2 bind H. injection H as <-.
    apply turns_put; [done|]. by constructor 3.
  - destruct (Nat.ltb_spec k T).
    + bind H. injection H as <-. apply (turns_put s i x _ (team s)); [done|]. quiet Hpc.
    + injection H as <-. apply (turns_put s i x _ (team s)); [done|]. quiet Hpc.
  - injection H as <-. apply (turns_put s i x _ (team s)); [done|].
    destruct (Z.ltb_spec n thread_spin); [destruct (working_threads (team s) =? 1)|]; quiet Hpc.
  - injection H as <-. apply turns_put; [done|].
    rewrite (tinv_size _ _ _ HI Hi) by (rewrite Hpc; cbn; tauto). quiet Hpc.
  - injection H as <-. apply turns_put; [done|].
    cbn [team with_team team_size set_working]. rewrite (tinv_size _ _ _ HI Hi) by (rewrite Hpc; cbn; tauto).
    destruct (1 <? working_threads (team s)); quiet Hpc.
Qed.

(** ** The steps that are left *)
Definition construct_effort : Z := work_rank + 13 + spins + 6 * Z.of_nat T.
Definition region_effort : Z := (Z.of_nat (length prog) + 1) * construct_effort.
Definition effort (x : omp_thread) : Z :=
  (Z.of_nat R - Z.of_nat (regions x)) * region_effort +
  (Z.of_nat (length prog) - Z.of_nat (constructs x)) * construct_effort + rank (pc x).

(** The threads do [steps] steps. *)
Definition steps_left (s : omp_state) : Z := total effort (threads s).

Lemma view_effort x y : view y = view x -> effort y = effort x.
Proof. intros H. unfold effort. unfold view in H. by injection H as -> _ -> -> _. Qed.

(** What the invariant says about the progress of a thread. *)
Lemma place_progress m g r p j e :
  place_ok T prog m g r p j e -> (r <= R)%nat -> p = Serial \/ (r < R)%nat -> (j = 0%nat -> region e = r) ->
  (region e <= R)%nat /\ (done e <= length prog)%nat.
Proof.
  intros Hp Hr Hs Hj. unfold place_ok in Hp.
  assert (forall d, prog !! d = Some Barrier -> (d <= length prog)%nat) as Hd.
  { intros d Hd. apply lookup_lt_Some in Hd. lia. }
  assert (started p j = true -> (r < R)%nat) as Hst by (intros H; destruct Hs as [->|]; done).
  destruct (at_ e).
  - destruct Hp as (_ & _ & -> & [[-> _]|(-> & _ & H)]); [lia|]. specialize (Hst H). lia.
  - destruct Hp as (_ & _ & -> & -> & _ & ->). destruct Hs; [done|lia].
  - destruct Hp as (_ & _ & -> & ? & _). lia.
  - destruct Hp as (-> & _ & H & _). split; [done|by apply Hd].
  - destruct Hp as (_ & _ & -> & _ & H). split; [done|by apply Hd].
  - destruct Hp as (_ & _ & _ & -> & _ & H). split; [done|by apply Hd].
  - destruct Hp as (Hj0 & _ & _ & ->). rewrite (Hj Hj0). lia.
  - destruct Hp as (Hj0 & _ & _ & -> & _). rewrite (Hj Hj0). lia.
  - destruct Hp as (Hj0 & _ & _ & ->). rewrite (Hj Hj0). lia.
  - destruct Hp as (Hj0 & _ & ->). rewrite (Hj Hj0). lia.
  - destruct Hp as (Hj0 & _ & _ & ->). rewrite (Hj Hj0). lia.
Qed.

Lemma tinv_progress s i x :
  tinv T prog R s -> threads s !! i = Some x -> (regions x <= R)%nat /\ (constructs x <= length prog)%nat.
Proof.
  intros (HC & m & g & x0 & HI) Hi. destruct (ei_threads _ _ _ _ _ _ _ HI _ _ (abs_lookup_Some _ _ _ Hi)) as [Hp _].
  destruct (ei_region _ _ _ _ _ _ _ HI) as [HR HR']. apply (place_progress _ _ _ _ _ _ Hp HR HR').
  intros ->. destruct (master_thread _ _ _ _ _ _ _ HI) as (t0 & H0 & ->). cbn. by simplify_eq.
Qed.

Lemma turn_effort i x c x' c' :
  turn i x c x' c' -> (constructs x <= length prog)%nat -> (constructs x' <= length prog)%nat -> effort x' < effort x.
Proof.
  intros Ht Hc Hc'. unfold effort. pose proof (place_rank_nonneg (pc x)) as Hr.
  assert (rank Working < construct_effort /\ forall p, first_pc i p -> rank p < construct_effort) as [Hw Hf].
  { unfold construct_effort. pose proof (Z.le_max_l 0 thread_spin) as Hs. fold spins in Hs. split; [cbn; lia|]. intros []; try done; cbn; unfold work_rank; lia. }
  destruct Ht as [? -> -> _ _ _ _ _|Hp Hp' -> -> _ _ _|Hp Hp' _ -> -> _ _ _|_ -> -> -> _ _ _|w _ _ -> -> -> _ _|_ Hp' -> -> _ _ _].
  - lia.
  - rewrite Hp, Hp'. cbn. lia.
  - rewrite Hp, Hp'. cbn. unfold still. lia.
  - lia.
  - lia.
  - specialize (Hf _ Hp'). unfold region_effort. pose proof (place_rank_nonneg (pc x')). generalize dependent construct_effort. intros B Hw Hf.
    assert (0 <= (Z.of_nat (length prog) - Z.of_nat (constructs x)) * B) by nia.
    replace ((Z.of_nat R - Z.of_nat (S (regions x))) * ((Z.of_nat (length prog) + 1) * B))
      with ((Z.of_nat R - Z.of_nat (regions x)) * ((Z.of_nat (length prog) + 1) * B) - (Z.of_nat (length prog) * B + B)) by lia.
    lia.
Qed.

Lemma effort_nonneg x : (regions x <= R)%nat -> (constructs x <= length prog)%nat -> 0 <= effort x.
Proof.
  intros H1 H2. unfold effort. pose proof (place_rank_nonneg (pc x)). pose proof (place_rank_nonneg Working) as Hw. cbn in Hw.
  assert (0 < construct_effort) by (unfold construct_effort, spins in *; lia). unfold region_effort. assert (0 <= (Z.of_nat (length prog) + 1) * construct_effort) by nia. nia.
Qed.

Lemma step_effort s s' :
  tinv T prog R s -> tstep T thread_spin prog R s s' -> steps_left s' < steps_left s.
Proof.
  intros HI (i & Hlt & Hs). destruct (lookup_lt_is_Some_2 _ _ Hlt) as [x Hi].
  destruct (tstep_inv T thread_spin prog R HT s s' HI) as [HI' _]; [by exists i|].
  destruct (step_turns _ _ _ _ HI Hi Hs) as [(x' & Hi' & Ht) Hv]. unfold steps_left.
  rewrite (total_view effort _ _ _ _ _ (fun y y' => view_effort y y') Hi Hi' Hv).
  pose proof (turn_effort _ _ _ _ _ Ht (proj2 (tinv_progress _ _ _ HI Hi)) (proj2 (tinv_progress _ _ _ HI' Hi'))). lia.
Qed.

Lemma steps_left_nonneg s : tinv T prog R s -> 0 <= steps_left s.
Proof.
  intros HI. unfold steps_left. assert (forall x, x ∈ threads s -> 0 <= effort x) as H.
  { intros x Hx. apply list_elem_of_lookup_1 in Hx as [i Hi]. apply effort_nonneg; by eapply tinv_progress. }
  induction (threads s) as [|x xs IH]; [done|]. change (0 <= effort x + total effort xs).
  pose proof (H x (list_elem_of_here _ _)). specialize (IH (fun y Hy => H y (list_elem_of_further _ _ _ Hy))). lia.
Qed.
End Turns.
