(* ===== verification/OmpTeamSingles.v ===== *)
(** Who executes a [single] construct of [OmpTeam].

    [__pmp_thread_single] counts the constructs that the thread has passed and
    those that some thread of the team has passed; a thread for which the two agree
    is the first to pass this one, and executes it.  [sinv] says so for every
    construct of every region. *)
From Stdlib Require Import ZArith Lia Bool.
From stdpp Require Import prelude list relations.
From S2P Require Import Prelude OmpEvents OmpEventsInv OmpTeam OmpTeamInv OmpTeamTurns.

(** How often thread [x] got 1 from [__ompc_single] at the construct [q]. *)
Definition wins (q : nat * nat) (x : omp_thread) : Z := Z.of_nat (length (filter (eq q) (won x))).

(** Thread [x] is behind construct [k] of region [r]. *)
Definition beyond (r k : nat) (x : omp_thread) : Prop :=
  (r < regions x)%nat \/ regions x = r /\ (k < constructs x)%nat.

Section Singles.
Context (T : nat) (thread_spin : Z) (prog : list construct) (R : nat).

Definition singles (c : nat) : nat := length (filter (eq Single) (take c prog)).
Definition singles_of (r : nat) (x : omp_thread) : nat :=
  if decide (regions x = r) then singles (constructs x) else singles (length prog).

Definition counted (s : omp_state) (r : nat) : Prop :=
  (forall j x, threads s !! j = Some x -> Z.of_nat (singles_of r x) <= single_count (team s)) /\
  exists j x, threads s !! j = Some x /\ single_count (team s) = Z.of_nat (singles_of r x).

Definition won_once (s : omp_state) (r k : nat) : Prop :=
  (exists j x, threads s !! j = Some x /\ beyond r k x) /\ total (wins (r, k)) (threads s) = 1 \/
  (forall j x, threads s !! j = Some x -> ~ beyond r k x) /\ total (wins (r, k)) (threads s) = 0.

Record sinv (s : omp_state) : Prop := {
  si_once : forall r k, prog !! k = Some Single -> won_once s r k;
  si_count : T <> 1%nat -> forall x0, threads s !! 0%nat = Some x0 -> pc x0 <> Outside -> counted s (regions x0);
  si_mine : T <> 1%nat -> forall j x, threads s !! j = Some x -> resets (pc x) = false ->
            my_single_count x = Z.of_nat (singles (constructs x))
}.

Context (HT : (1 <= T <= PMP_MAX_IDS)%nat).
Context (Hprog : Z.of_nat (length prog) < 2 ^ 31).

Lemma singles_S c k : prog !! c = Some k -> singles (S c) = (singles c + if decide (k = Single) then 1 else 0)%nat.
Proof.
  intros H. unfold singles. rewrite (take_S_r _ _ _ H), filter_app, length_app, filter_cons, filter_nil.
  by repeat case_decide; subst.
Qed.
Lemma singles_le c c' : (c <= c')%nat -> (singles c <= singles c')%nat.
Proof.
  intros H. unfold singles. rewrite <- (take_drop c (take c' prog)), filter_app, length_app, take_take, Nat.min_l by done. lia.
Qed.
Lemma singles_bound c : (singles c <= length prog)%nat.
Proof. unfold singles. pose proof (length_filter (eq Single) (take c prog)) as H. rewrite length_take in H. lia. Qed.

Lemma single_swrap n : 0 <= n < Z.of_nat (length prog) -> swrap 32 (n + 1) = n + 1.
Proof. intros H. apply swrap_id; [lia|]. unfold in_s. change (2 ^ (32 - 1)) with (2 ^ 31). lia. Qed.

(** What is known about a thread at a construct. *)
Lemma at_construct s i x :
  tinv T prog R s -> threads s !! i = Some x -> in_region (place_of (pc x)) = true ->
  (exists x0, threads s !! 0%nat = Some x0 /\ pc x0 <> Outside /\ regions x = regions x0) /\
  (at_barrier (place_of (pc x)) = 1%nat -> prog !! constructs x = Some Barrier).
Proof.
  intros (HC & m & g & e0 & HI) Hi Hx. destruct (master_thread _ _ _ _ _ _ _ HI) as (x0 & H0 & ->).
  pose proof (ei_threads _ _ _ _ _ _ _ HI _ _ (abs_lookup_Some _ _ _ Hi)) as Ht.
  destruct (in_region_ok _ _ _ _ _ _ _ _ Ht Hx) as [Hr Hs]. split.
  - exists x0. split_and!; [done| |done]. intros E. cbn in Hs. by rewrite E in Hs.
  - destruct Ht as [Hp _]. unfold place_ok in Hp. cbn [at_ event_of done] in Hp. intros Hb.
    destruct (place_of (pc x)); try discriminate Hb; clear -Hp; tauto.
Qed.

Lemma not_started s i x :
  tinv T prog R s -> threads s !! i = Some x -> place_of (pc x) = Ready -> constructs x = 0%nat.
Proof.
  intros (HC & m & g & e0 & HI) Hi Hx. destruct (ei_threads _ _ _ _ _ _ _ HI _ _ (abs_lookup_Some _ _ _ Hi)) as [Hp _].
  unfold place_ok in Hp. cbn [at_ event_of done] in Hp. rewrite Hx in Hp. apply Hp.
Qed.

Lemma all_not_started s i x :
  tinv T prog R s -> threads s !! i = Some x -> pc x = Outside ->
  i = 0%nat /\ forall j y, threads s !! j = Some y -> constructs y = 0%nat /\ regions y = regions x.
Proof.
  intros (HC & m & g & e0 & HI) Hi Hx. destruct (ei_threads _ _ _ _ _ _ _ HI _ _ (abs_lookup_Some _ _ _ Hi)) as [Hp _].
  unfold place_ok in Hp. cbn [at_ event_of done flag] in Hp. rewrite Hx in Hp. destruct Hp as (-> & _ & _ & Hd). split; [done|].
  destruct (master_thread _ _ _ _ _ _ _ HI) as (x0 & H0 & ->). assert (x0 = x) as -> by congruence.
  intros j y Hj. destruct (decide (j = 0%nat)) as [->|Hne]; [by simplify_eq|].
  assert (at_ (event_of (threads s) 0 x) = Serial) as Hse by (cbn; by rewrite Hx).
  destruct (serial_ready _ _ _ _ _ _ _ _ _ HI Hse Hne (abs_lookup_Some _ _ _ Hj)) as (_ & Hr & _ & Hd' & _). done.
Qed.

(** ** One turn *)
Definition others (s : omp_state) (i : nat) (s' : omp_state) : Prop :=
  forall j, j <> i -> view <$> threads s' !! j = view <$> threads s !! j.

Lemma others_back s i s' j y' :
  others s i s' -> j <> i -> threads s' !! j = Some y' -> exists y, threads s !! j = Some y /\ view y' = view y.
Proof. intros Ho Hj Hy. specialize (Ho j Hj). rewrite Hy in Ho. destruct (threads s !! j) as [y|]; [|done]. exists y. split; [done|]. apply Some_inj, Ho. Qed.
Lemma others_on s i s' j y :
  others s i s' -> j <> i -> threads s !! j = Some y -> exists y', threads s' !! j = Some y' /\ view y' = view y.
Proof. intros Ho Hj Hy. specialize (Ho j Hj). rewrite Hy in Ho. destruct (threads s' !! j) as [y'|]; [|done]. exists y'. split; [done|]. apply Some_inj, Ho. Qed.

Lemma view_beyond r k x y : view y = view x -> beyond r k y <-> beyond r k x.
Proof. unfold view, beyond. by intros [= _ _ -> -> _]. Qed.
Lemma view_wins q x y : view y = view x -> wins q y = wins q x.
Proof. unfold view, wins. by intros [= _ _ _ _ ->]. Qed.
Lemma view_singles r x y : view y = view x -> singles_of r y = singles_of r x.
Proof. unfold view, singles_of. by intros [= _ _ -> -> _]. Qed.

Lemma once_kept s i x s' x' r k :
  threads s !! i = Some x -> threads s' !! i = Some x' -> others s i s' ->
  (beyond r k x' <-> beyond r k x) -> wins (r, k) x' = wins (r, k) x -> won_once s r k -> won_once s' r k.
Proof.
  intros Hi Hi' Ho Hb Hw Hs. unfold won_once.
  rewrite (total_view (wins (r, k)) _ _ _ _ _ (fun y y' => view_wins (r, k) y y') Hi Hi' Ho), Hw.
  destruct Hs as [[(j & y & Hj & Hy) Ht]|[Hn Ht]]; [left|right]; (split; [|lia]).
  - destruct (decide (j = i)) as [->|Hne].
    + exists i, x'. assert (y = x) as -> by congruence. by rewrite Hb.
    + destruct (others_on _ _ _ _ _ Ho Hne Hj) as (y' & Hj' & Hv). exists j, y'. by rewrite (view_beyond _ _ _ _ Hv).
  - intros j y' Hj. destruct (decide (j = i)) as [->|Hne].
    + assert (y' = x') as -> by congruence. rewrite Hb. by eapply Hn.
    + destruct (others_back _ _ _ _ _ Ho Hne Hj) as (y & Hy & Hv). rewrite (view_beyond _ _ _ _ Hv). by eapply Hn.
Qed.

Lemma counted_kept s i x s' x' r :
  threads s !! i = Some x -> threads s' !! i = Some x' -> others s i s' ->
  singles_of r x' = singles_of r x -> single_count (team s') = single_count (team s) -> counted s r -> counted s' r.
Proof.
  intros Hi Hi' Ho Hx Hc [Hall (j & y & Hj & Hy)]. unfold counted. rewrite Hc. split.
  - intros l z' Hl. destruct (decide (l = i)) as [->|Hne].
    + assert (z' = x') as -> by congruence. rewrite Hx. by eapply Hall.
    + destruct (others_back _ _ _ _ _ Ho Hne Hl) as (z & Hz & Hv). rewrite (view_singles _ _ _ Hv). by eapply Hall.
  - destruct (decide (j = i)) as [->|Hne].
    + exists i, x'. assert (y = x) as -> by congruence. by rewrite Hx.
    + destruct (others_on _ _ _ _ _ Ho Hne Hj) as (y' & Hj' & Hv). exists j, y'. by rewrite (view_singles _ _ _ Hv).
Qed.

(** Thread [i] passes a construct first: the count goes up to what it has passed. *)
Lemma counted_first s i x s' x' r :
  threads s !! i = Some x -> threads s' !! i = Some x' -> others s i s' ->
  single_count (team s) = Z.of_nat (singles_of r x) ->
  singles_of r x' = S (singles_of r x) -> single_count (team s') = single_count (team s) + 1 -> counted s r -> counted s' r.
Proof.
  intros Hi Hi' Ho HS Hx Hc [Hall _]. unfold counted. rewrite Hc. split.
  - intros l z' Hl. destruct (decide (l = i)) as [->|Hne].
    + assert (z' = x') as -> by congruence. lia.
    + destruct (others_back _ _ _ _ _ Ho Hne Hl) as (z & Hz & Hv). rewrite (view_singles _ _ _ Hv). specialize (Hall _ _ Hz). lia.
  - exists i, x'. split; [done|]. lia.
Qed.

(** ... or not first. *)
Lemma counted_later s i x s' x' r :
  threads s !! i = Some x -> threads s' !! i = Some x' -> others s i s' ->
  single_count (team s) <> Z.of_nat (singles_of r x) ->
  singles_of r x' = S (singles_of r x) -> single_count (team s') = single_count (team s) -> counted s r -> counted s' r.
Proof.
  intros Hi Hi' Ho HS Hx Hc [Hall (j & y & Hj & Hy)]. unfold counted. rewrite Hc. split.
  - intros l z' Hl. destruct (decide (l = i)) as [->|Hne].
    + assert (z' = x') as -> by congruence. specialize (Hall _ _ Hi). lia.
    + destruct (others_back _ _ _ _ _ Ho Hne Hl) as (z & Hz & Hv). rewrite (view_singles _ _ _ Hv). specialize (Hall _ _ Hz). lia.
  - destruct (decide (j = i)) as [->|Hne]; [congruence|].
    destruct (others_on _ _ _ _ _ Ho Hne Hj) as (y' & Hj' & Hv). exists j, y'. by rewrite (view_singles _ _ _ Hv).
Qed.

Lemma mine_kept s i s' x' :
  threads s' !! i = Some x' -> others s i s' ->
  (resets (pc x') = false -> my_single_count x' = Z.of_nat (singles (constructs x'))) ->
  (forall j x, threads s !! j = Some x -> resets (pc x) = false -> my_single_count x = Z.of_nat (singles (constructs x))) ->
  forall j x, threads s' !! j = Some x -> resets (pc x) = false -> my_single_count x = Z.of_nat (singles (constructs x)).
Proof.
  intros Hi' Ho Hx Hall j y' Hj. destruct (decide (j = i)) as [->|Hne].
  - assert (y' = x') as -> by congruence. done.
  - destruct (others_back _ _ _ _ _ Ho Hne Hj) as (y & Hy & Hv). specialize (Hall _ _ Hy). unfold view in Hv. by injection Hv as -> -> _ -> _.
Qed.

(** The master is still in the region, and its region is the same. *)
Lemma master_kept s i x s' x' :
  threads s !! i = Some x -> threads s' !! i = Some x' -> others s i s' ->
  (i = 0%nat -> pc x <> Outside /\ regions x' = regions x) ->
  forall y', threads s' !! 0%nat = Some y' -> pc y' <> Outside ->
  exists y, threads s !! 0%nat = Some y /\ pc y <> Outside /\ regions y' = regions y.
Proof.
  intros Hi Hi' Ho Hx y' Hy Hp. destruct (decide (i = 0%nat)) as [->|Hne].
  - destruct (Hx eq_refl) as [? ?]. exists x. assert (y' = x') as -> by congruence. done.
  - destruct (others_back _ _ _ _ _ Ho (not_eq_sym Hne) Hy) as (y & H0 & Hv). exists y. unfold view in Hv. injection Hv as Hp' _ Hr _ _.
    split_and!; [done|congruence|done].
Qed.

(** A turn that passes no [single] construct. *)
Lemma sinv_plain s i x s' x' :
  sinv s -> threads s !! i = Some x -> threads s' !! i = Some x' -> others s i s' ->
  won x' = won x -> (forall r k, prog !! k = Some Single -> beyond r k x' <-> beyond r k x) ->
  single_count (team s') = single_count (team s) ->
  (forall x0, threads s !! 0%nat = Some x0 -> pc x0 <> Outside -> pc x' <> Outside ->
     singles_of (regions x0) x' = singles_of (regions x0) x) ->
  pc x' = Outside /\ i = 0%nat \/ (i = 0%nat -> pc x <> Outside /\ regions x' = regions x) /\ pc x' <> Outside ->
  (T <> 1%nat -> resets (pc x') = false -> my_single_count x' = Z.of_nat (singles (constructs x'))) -> sinv s'.
Proof.
  intros [H1 H2 H3] Hi Hi' Ho Hw Hb Hc Hs Hm Hmy. split.
  - intros r k Hk. apply (once_kept s i x s' x'); try done; [by apply Hb|unfold wins; by rewrite Hw|by apply H1].
  - intros HT1 y' Hy Hp. destruct Hm as [[Hm ->]|[Hm Hm']]; [congruence|].
    destruct (master_kept _ _ _ _ _ Hi Hi' Ho Hm _ Hy Hp) as (y & H0 & Hpy & ->).
    apply (counted_kept s i x s' x'); try done; [by apply Hs|by apply H2].
  - intros HT1. apply (mine_kept s i s' x'); try done; [by apply Hmy|by apply H3].
Qed.

Lemma beyond_barrier r k x x' :
  regions x' = regions x -> constructs x' = S (constructs x) -> prog !! constructs x = Some Barrier ->
  prog !! k = Some Single -> beyond r k x' <-> beyond r k x.
Proof.
  intros Hr Hc Hb Hk. unfold beyond. rewrite Hr, Hc. assert (k <> constructs x) by (intros ->; congruence). lia.
Qed.

Lemma beyond_end r k x x' :
  regions x' = S (regions x) -> constructs x' = 0%nat -> constructs x = length prog ->
  prog !! k = Some Single -> beyond r k x' <-> beyond r k x.
Proof. intros Hr Hc HL Hk. unfold beyond. apply lookup_lt_Some in Hk. lia. Qed.

Lemma sinv_fork s i x s' x' :
  tinv T prog R s -> sinv s -> threads s !! i = Some x -> threads s' !! i = Some x' -> others s i s' ->
  pc x = Outside -> regions x' = regions x -> constructs x' = constructs x -> won x' = won x ->
  my_single_count x' = 0 -> single_count (team s') = 0 -> sinv s'.
Proof.
  intros HI [H1 H2 H3] Hi Hi' Ho Hp Hr Hc Hw Hmy HS. destruct (all_not_started _ _ _ HI Hi Hp) as [-> Hall].
  assert (forall r k, beyond r k x' <-> beyond r k x) as Hb by (intros r k; unfold beyond; by rewrite Hr, Hc).
  split.
  - intros r k Hk. apply (once_kept s 0 x s' x'); try done; [unfold wins; by rewrite Hw|by apply H1].
  - intros HT1 y Hy _. assert (y = x') as -> by congruence. unfold counted. rewrite HS.
    assert (singles 0 = 0%nat) as H0 by done.
    assert (forall j z, threads s' !! j = Some z -> singles_of (regions x') z = 0%nat) as Hz.
    { intros j z Hj. destruct (decide (j = 0%nat)) as [->|Hne].
      - assert (z = x') as -> by congruence. unfold singles_of. rewrite decide_True, Hc by done. by rewrite (proj1 (Hall _ _ Hi)).
      - destruct (others_back _ _ _ _ _ Ho Hne Hj) as (w & Hw' & Hv). rewrite (view_singles _ _ _ Hv).
        destruct (Hall _ _ Hw') as [Hc0 Hr0]. unfold singles_of. by rewrite decide_True, Hc0 by congruence. }
    split; [intros j z Hj; by rewrite (Hz _ _ Hj)|]. exists 0%nat, x'. by rewrite (Hz _ _ Hy).
  - intros HT1. apply (mine_kept s 0 s' x'); try done; [|by apply H3]. intros _. rewrite Hmy, Hc. by rewrite (proj1 (Hall _ _ Hi)).
Qed.

Lemma region_least s i x x0 :
  tinv T prog R s -> threads s !! i = Some x -> threads s !! 0%nat = Some x0 -> (regions x0 <= regions x)%nat.
Proof.
  intros (HC & m & g & e0 & HI) Hi H0. destruct (master_thread _ _ _ _ _ _ _ HI) as (y & Hy & ->). assert (y = x0) as -> by congruence.
  destruct (decide (i = 0%nat)) as [->|Hne]; [by simplify_eq|].
  destruct (ei_threads _ _ _ _ _ _ _ HI _ _ (abs_lookup_Some _ _ _ Hi)) as [Hp _]. unfold place_ok in Hp. cbn [at_ event_of region flag done] in Hp.
  destruct (place_of (pc x)); try (destruct Hp; done).
  - destruct Hp as (_ & _ & _ & [[H _]|[H _]]); lia.
  - destruct Hp as (_ & _ & _ & H & _). lia.
  - destruct Hp as (_ & _ & H & _). lia.
  - destruct Hp as (H & _). lia.
  - destruct Hp as (_ & _ & H & _). lia.
  - destruct Hp as (_ & _ & _ & H & _). lia.
Qed.

(** Thread [x] at a [single] construct is the first if and only if no thread is behind it. *)
Lemma first_iff s x x0 i :
  tinv T prog R s -> sinv s -> T <> 1%nat -> threads s !! 0%nat = Some x0 -> pc x0 <> Outside -> threads s !! i = Some x ->
  resets (pc x) = false -> regions x = regions x0 -> prog !! constructs x = Some Single ->
  Z.of_nat (singles_of (regions x0) x) = my_single_count x /\
  (my_single_count x = single_count (team s) <->
   forall j y, threads s !! j = Some y -> ~ beyond (regions x) (constructs x) y).
Proof.
  intros HI [H1 H2 H3] HT1 H0 Hp0 Hi Hp Hr Hd.
  assert (singles_of (regions x0) x = singles (constructs x)) as Hsx by (unfold singles_of; by rewrite decide_True).
  assert (Z.of_nat (singles_of (regions x0) x) = my_single_count x) as Hx by (rewrite Hsx; symmetry; by eapply H3).
  split; [done|]. destruct (H2 HT1 _ H0 Hp0) as [Hall (l & w & Hl & Hw)].
  pose proof (singles_S _ _ Hd) as HS. rewrite decide_True in HS by done.
  pose proof (singles_le (S (constructs x)) (length prog) (lookup_lt_Some _ _ _ Hd)). split.
  - intros HE j y Hj Hb. specialize (Hall _ _ Hj). unfold singles_of in Hall. destruct Hb as [Hb|[Hb Hc]].
    + rewrite decide_False in Hall by lia. lia.
    + rewrite decide_True in Hall by congruence. pose proof (singles_le (S (constructs x)) (constructs y)). lia.
  - intros Hn. specialize (Hn _ _ Hl). pose proof (Hall _ _ Hi). unfold singles_of in Hw. case_decide as Hrw.
    + pose proof (singles_le (constructs w) (constructs x)). unfold beyond in Hn. lia.
    + pose proof (region_least _ _ _ _ HI Hl H0). unfold beyond in Hn. lia.
Qed.

(** The construct [(regions x, constructs x)] is now behind thread [i]. *)
Lemma once_passed s i x s' x' (wins : bool) :
  sinv s -> threads s !! i = Some x -> threads s' !! i = Some x' -> others s i s' ->
  prog !! constructs x = Some Single -> regions x' = regions x -> constructs x' = S (constructs x) ->
  won x' = (if wins then (regions x, constructs x) :: won x else won x) ->
  (wins = true <-> forall j y, threads s !! j = Some y -> ~ beyond (regions x) (constructs x) y) ->
  forall r k, prog !! k = Some Single -> won_once s' r k.
Proof.
  intros [H1 _ _] Hi Hi' Ho Hd Hr Hc Hw Hf r k Hk. destruct (decide ((r, k) = (regions x, constructs x))) as [E|Hne].
  - injection E as -> ->. left. split; [exists i, x'; split; [done|right; lia]|].
    rewrite (total_view (OmpTeamSingles.wins (regions x, constructs x)) _ _ _ _ _ (fun y y' => view_wins (regions x, constructs x) y y') Hi Hi' Ho).
    unfold OmpTeamSingles.wins at 2 3. rewrite Hw. destruct (H1 (regions x) _ Hd) as [[(j & y & Hj & Hy) Ht]|[Hn Ht]].
    + destruct wins; [by destruct (proj1 Hf eq_refl _ _ Hj)|lia].
    + destruct wins; [|by discriminate (proj2 Hf Hn)]. rewrite filter_cons_True by done. cbn [length]. lia.
  - apply (once_kept s i x s' x'); try done; [| |by apply H1].
    + unfold beyond. rewrite Hr, Hc. assert (~ (r = regions x /\ k = constructs x)) by (intros [-> ->]; done). lia.
    + unfold OmpTeamSingles.wins. rewrite Hw. destruct wins; [|done]. by rewrite filter_cons_False.
Qed.

Lemma sinv_single s i x s' x' (wins : bool) :
  tinv T prog R s -> sinv s -> threads s !! i = Some x -> threads s' !! i = Some x' -> others s i s' ->
  pc x = Working -> prog !! constructs x = Some Single -> pc x' = Working -> regions x' = regions x ->
  constructs x' = S (constructs x) -> won x' = (if wins then (regions x, constructs x) :: won x else won x) ->
  T = 1%nat /\ wins = true \/
  T <> 1%nat /\ wins = (my_single_count x =? single_count (team s)) /\ my_single_count x' = swrap 32 (my_single_count x + 1) /\
    single_count (team s') = (if wins then swrap 32 (single_count (team s) + 1) else single_count (team s)) -> sinv s'.
Proof.
  intros HI HS Hi Hi' Ho Hp Hd Hp' Hr Hc Hw Hcase.
  destruct (at_construct _ _ _ HI Hi) as [(x0 & H0 & Hp0 & Hr0) _]; [by rewrite Hp|].
  destruct Hcase as [[HT1 ->]|(HT1 & -> & Hmy & HC)].
  - split; [|done|done]. apply (once_passed s i x s' x' true); try done. split; [intros _|done].
    intros j y Hj. destruct HI as (_ & m & g & e0 & HI). pose proof (threads_length _ _ _ _ _ _ _ HI) as HL.
    pose proof (lookup_lt_Some _ _ _ Hj). pose proof (lookup_lt_Some _ _ _ Hi). assert (j = i) as -> by lia.
    assert (y = x) as -> by congruence. unfold beyond. lia.
  - destruct (first_iff _ _ _ _ HI HS HT1 H0 Hp0 Hi) as [Hx Hf]; try done; [by rewrite Hp|].
    assert (Z.of_nat (S (singles (constructs x))) <= Z.of_nat (length prog)) as Hlt.
    { pose proof (singles_S _ _ Hd) as HE. rewrite decide_True in HE by done. pose proof (singles_bound (S (constructs x))). lia. }
    assert (singles_of (regions x0) x = singles (constructs x)) as Hsx by (unfold singles_of; by rewrite decide_True).
    assert (singles_of (regions x0) x' = S (singles_of (regions x0) x)) as Hsx'.
    { rewrite Hsx. unfold singles_of. rewrite decide_True, Hc, (singles_S _ _ Hd), decide_True by congruence. lia. }
    assert (T <> 1%nat -> counted s (regions x0)) as Hcount by (intros; by eapply si_count).
    split.
    + apply (once_passed s i x s' x' (my_single_count x =? single_count (team s))); try done. by rewrite Z.eqb_eq.
    + intros _ y' Hy Hpy. destruct (master_kept s i x s' x' Hi Hi' Ho) with (y' := y') as (y & Hy0 & _ & ->); try done; [by rewrite Hp|].
      assert (y = x0) as -> by congruence. destruct (Z.eqb_spec (my_single_count x) (single_count (team s))) as [E|E].
      * apply (counted_first s i x s' x'); try done; [congruence| |by apply Hcount]. rewrite HC, <- E. apply single_swrap. lia.
      * apply (counted_later s i x s' x'); try done; [congruence|by apply Hcount].
    + intros _. apply (mine_kept s i s' x'); try done; [|by eapply si_mine]. intros _.
      rewrite Hmy, <- Hx, Hsx, Hc, (singles_S _ _ Hd), decide_True by done. rewrite single_swrap by lia. lia.
Qed.

Lemma sinv_step s s' :
  tinv T prog R s -> sinv s -> tstep T thread_spin prog R s s' -> sinv s'.
Proof.
  intros HI HS (i & Hlt & Hs). destruct (lookup_lt_is_Some_2 _ _ Hlt) as [x Hi].
  destruct (step_turns T thread_spin prog R HT _ _ _ _ HI Hi Hs) as [(x' & Hi' & Ht) Ho]. fold (others s i s') in Ho.
  destruct Ht as [_ Hr Hc Hw Hm HC Hre [Hp Hp']|Hp Hp' Hr Hc Hw Hm HC|Hp _ _ Hr Hc Hw Hm HC|Hb Hp' Hr Hc Hw Hm HC|
                  wins Hp Hd Hp' Hr Hc Hw Hcase|Hend Hf Hr Hc Hw Hm HC].
  - apply (sinv_plain s i x s' x'); try done.
    + intros r k _. unfold beyond. by rewrite Hr, Hc.
    + intros x0 _ _ _. unfold singles_of. by rewrite Hr, Hc.
    + by right.
    + intros HT1. rewrite Hre, Hm, Hc. by apply (si_mine _ HS HT1 i).
  - apply (sinv_plain s i x s' x'); try done.
    + intros r k _. unfold beyond. by rewrite Hr, Hc.
    + intros x0 _ _ _. unfold singles_of. by rewrite Hr, Hc.
    + right. split; [|by rewrite Hp']. by rewrite Hp.
    + intros _ _. rewrite Hm, Hc, (not_started _ _ _ HI Hi); [done|]. by rewrite Hp.
  - by apply (sinv_fork s i x s' x').
  - assert (prog !! constructs x = Some Barrier /\ pc x <> Outside /\ resets (pc x) = false) as (Hd & Hpx & Hre).
    { destruct Hb as [Hb|[Hp Hd]].
      - split_and!; [|by intros E; rewrite E in Hb|by destruct (pc x) as [|[]|[] ? ? []| | | | | | | | | | | | |]].
        apply (at_construct _ _ _ HI Hi); [|done]. by destruct (place_of (pc x)).
      - by rewrite Hp. }
    assert (singles (S (constructs x)) = singles (constructs x)) as HE.
    { rewrite (singles_S _ _ Hd), decide_False by done. lia. }
    apply (sinv_plain s i x s' x'); try done.
    + intros r k Hk. by apply (beyond_barrier r k x x').
    + intros x0 _ _ _. unfold singles_of. by rewrite Hr, Hc, HE.
    + right. by rewrite Hp'.
    + intros HT1 _. rewrite Hm, Hc, HE. by apply (si_mine _ HS HT1 i).
  - apply (sinv_single s i x s' x' wins); try done. destruct Hcase as [(?&?&_)|(?&?&?&?)]; [by left|by right].
  - assert (constructs x = length prog /\ (i = 0%nat -> place_of (pc x) = Joined) /\ (i <> 0%nat -> pc x = Working)) as (HL & Hj0 & Hj1).
    { destruct HI as (HC0 & m & g & e0 & HI). destruct (ei_threads _ _ _ _ _ _ _ HI _ _ (abs_lookup_Some _ _ _ Hi)) as [Hpl _].
      destruct Hend as [Hj|(Hne & Hp & Hd)].
      - unfold place_ok in Hpl. cbn [at_ event_of done flag] in Hpl. rewrite Hj in Hpl. destruct Hpl as (-> & _ & _ & HL). done.
      - unfold place_ok in Hpl. cbn [at_ event_of done flag] in Hpl. rewrite Hp in Hpl. cbn in Hpl. destruct Hpl as (_ & _ & _ & HL & _).
        apply lookup_ge_None in Hd. split_and!; [lia|done|done]. }
    apply (sinv_plain s i x s' x'); try done.
    + intros r k Hk. by apply (beyond_end r k x x').
    + intros x0 H0 Hp0 Hpx'. destruct (decide (i = 0%nat)) as [->|Hne]; [by destruct (pc x')|].
      destruct (at_construct _ _ _ HI Hi) as [(y & Hy & _ & Hry) _]; [by rewrite (Hj1 Hne)|].
      unfold singles_of. rewrite decide_False, decide_True, HL by (simplify_eq; lia). done.
    + destruct (decide (i = 0%nat)) as [->|Hne]; [left|right]; destruct (pc x'); done.
    + intros _ Hre. by destruct (pc x').
Qed.

Lemma start_sinv : sinv (start_state T).
Proof.
  assert (forall j x, threads (start_state T) !! j = Some x -> x = main_thread \/ x = new_thread) as Hall.
  { intros j x Hj. destruct (start_threads _ _ _ Hj) as [[_ ->]|[_ ->]]; tauto. }
  split.
  - intros r k _. right. split; [|by apply start_total].
    intros j x Hj. destruct (Hall _ _ Hj) as [-> | ->]; unfold beyond; cbn; lia.
  - intros _ x Hx Hp. cbn in Hx. by injection Hx as <-.
  - intros _ j x Hj. by destruct (Hall _ _ Hj) as [-> | ->].
Qed.

Lemma reach_sinv s : rtc (tstep T thread_spin prog R) (start_state T) s -> tinv T prog R s /\ sinv s.
Proof.
  intros Hs. assert (forall s0, tinv T prog R s0 -> sinv s0 -> rtc (tstep T thread_spin prog R) s0 s -> tinv T prog R s /\ sinv s) as H.
  { clear Hs. intros s0 H0 Ha Hr. induction Hr as [|s1 s2 s3 H12 _ IH]; [done|].
    destruct (tstep_inv T thread_spin prog R HT _ _ H0 H12) as [H2 _]. apply IH; [done|]. by apply (sinv_step s1). }
  apply (H (start_state T)); [by apply start_tinv|apply start_sinv|done].
Qed.
End Singles.
