(* ===== verification/OmpTeamProps.v ===== *)
(** Correctness of teams of OpenMP threads.

    Theorems about every state that the threads of [OmpTeam] reach, in every
    interleaving of their accesses to memory: no assertion fails and every step is
    one of the specification with events; barriers separate; forking and joining
    begin and end regions; [single] constructs are executed once; no wakeup is
    lost, and the team terminates. *)
From Stdlib Require Import ZArith Lia Bool.
From stdpp Require Import prelude list relations.
From S2P Require Import Prelude OmpEvents OmpEventsInv OmpTeam OmpTeamInv OmpTeamTurns OmpTeamSingles.

Section Props.
Context (T : nat) (thread_spin : Z) (prog : list construct) (R : nat).

(** All regions have been executed: the master is behind them, the workers are blocked. *)
Definition finished (s : omp_state) : Prop :=
  forall i x, threads s !! i = Some x -> regions x = R /\ constructs x = 0%nat /\
    if decide (i = 0%nat) then pc x = Outside
    else pc x = Waiting For_assignment Wait_suspend /\ sync x = PMP_SYNC_BLOCKED /\ signal x = false.

(** More than the steps of one thread between two constructs, and in one region. *)
Definition team_bound : Z :=
  Z.of_nat T * (Z.of_nat R + 1) * (Z.of_nat (length prog) + 1) * (3 * Z.max 0 thread_spin + 13 * Z.of_nat T + 33).

Lemma run_reach schedule s s' :
  run T thread_spin prog R schedule s = Ok s' -> rtc (tstep T thread_spin prog R) s s'.
Proof.
  revert s. induction schedule as [|i rest IH]; cbn [run]; intros s Hs; [by simplify_eq|].
  apply obind_inv in Hs as (o & Ho & Hs). destruct o as [s1|]; [|by apply IH].
  eapply rtc_l; [|by apply IH]. exists i. split; [|done]. unfold omp_step, thread_of in Ho.
  destruct (threads s !! i) eqn:E; [by eapply lookup_lt_Some|done].
Qed.

Context (HT : (1 <= T <= PMP_MAX_IDS)%nat).

(** ** Places in a reachable state *)
Lemma region_cases s i x x0 :
  tinv T prog R s -> threads s !! i = Some x -> threads s !! 0%nat = Some x0 ->
  regions x = regions x0 \/ regions x = S (regions x0) /\ constructs x = 0%nat.
Proof.
  intros (HC & m & g & e0 & HI) Hi H0. destruct (master_thread _ _ _ _ _ _ _ HI) as (y & Hy & ->). assert (y = x0) as -> by congruence.
  destruct (decide (i = 0%nat)) as [->|Hne]; [left; by simplify_eq|].
  destruct (ei_threads _ _ _ _ _ _ _ HI _ _ (abs_lookup_Some _ _ _ Hi)) as [Hp _]. unfold place_ok in Hp. cbn [at_ event_of region flag done] in Hp.
  destruct (place_of (pc x)); try (destruct Hp; done); clear - Hp; tauto.
Qed.

Lemma passed_place s i x r :
  tinv T prog R s -> threads s !! i = Some x -> regions x = r -> at_barrier (place_of (pc x)) = 1%nat ->
  prog !! constructs x = Some Barrier.
Proof.
  intros HI Hi _ Hb. apply (at_construct T prog R s i x HI Hi); [by destruct (place_of (pc x))|done].
Qed.

(** A thread of region [r] that has arrived at more barriers than there are before construct [k]. *)
Lemma arrived_place s i x k :
  tinv T prog R s -> threads s !! i = Some x -> prog !! k = Some Barrier ->
  (bars prog k < bars prog (constructs x) + at_barrier (place_of (pc x)))%nat ->
  (k < constructs x)%nat \/ constructs x = k /\ at_barrier (place_of (pc x)) = 1%nat.
Proof.
  intros HI Hi Hk Hb. destruct (Nat.lt_trichotomy k (constructs x)) as [|[E|Hlt]]; [by left|right|exfalso].
  - split; [done|]. subst k. destruct (place_of (pc x)); cbn in Hb |- *; lia.
  - pose proof (bars_le T prog (proj1 HT) (constructs x) k) as H1. pose proof (bars_le T prog (proj1 HT) (S (constructs x)) k) as H2.
    destruct (decide (at_barrier (place_of (pc x)) = 1%nat)) as [E|E].
    + pose proof (bars_S prog _ _ (passed_place _ _ _ _ HI Hi eq_refl E)) as HS. rewrite decide_True in HS by done. lia.
    + assert (at_barrier (place_of (pc x)) = 0%nat) by (by destruct (place_of (pc x))). lia.
Qed.

Lemma barrier_order s i j x y r k :
  tinv T prog R s -> prog !! k = Some Barrier -> threads s !! i = Some x -> threads s !! j = Some y -> beyond r k x ->
  beyond r k y \/ regions y = r /\ constructs y = k /\ at_barrier (place_of (pc y)) = 1%nat.
Proof.
  intros HI Hk Hi Hj Hx. pose proof HI as (HC & m & g & e0 & HE). destruct (master_thread _ _ _ _ _ _ _ HE) as (x0 & H0 & ->).
  pose proof (einv_barrier _ _ _ (proj1 HT) _ _ _ _ _ _ _ _ HE (abs_lookup_Some _ _ _ Hi) (abs_lookup_Some _ _ _ Hj)) as Hb.
  unfold passed, arrived in Hb. cbn [region event_of done at_] in Hb.
  pose proof (bars_S prog _ _ Hk) as HS. rewrite decide_True in HS by done.
  pose proof (bars_le T prog (proj1 HT) (S k) (length prog) (lookup_lt_Some _ _ _ Hk)) as HL.
  unfold beyond in *. destruct (region_cases _ _ _ _ HI Hi H0) as [Ex|[Ex Cx]], (region_cases _ _ _ _ HI Hj H0) as [Ey|[Ey Cy]].
  - rewrite !decide_True in Hb by done. destruct Hx as [Hx|[Hx Hc]]; [lia|]. pose proof (bars_le T prog (proj1 HT) (S k) (constructs x) Hc).
    destruct (arrived_place _ _ _ _ HI Hj Hk) as [|[? ?]]; lia.
  - lia.
  - rewrite decide_False, decide_True in Hb by lia. destruct (decide (r = regions x0)) as [->|]; [|lia].
    destruct (arrived_place _ _ _ _ HI Hj Hk) as [|[? ?]]; lia.
  - lia.
Qed.

(** ** Stuck states *)
Lemma stuck_idle s :
  tinv T prog R s -> ~ (exists s', tstep T thread_spin prog R s s') ->
  forall i x, threads s !! i = Some x -> idle_thread R x.
Proof.
  intros (HC & m & g & x0 & HI) Hn i x Hi. pose proof (good_steps T thread_spin prog R HT _ _ _ _ _ _ HC HI Hi) as Hg.
  unfold good_step in Hg. destruct (omp_step T thread_spin prog R s i) as [[s'|]|] eqn:E; [|by apply Hg|done].
  destruct Hn. exists s', i. split; [by eapply lookup_lt_Some|done].
Qed.

Lemma idle_quiet x : idle_thread R x -> forall j, idles j x = 0 /\ kills j x = 0.
Proof. intros [[_ [p Hp]]|[Hp _]] j; unfold idles, kills; by rewrite Hp. Qed.

Lemma stuck_waits s i x :
  tinv T prog R s -> (forall i x, threads s !! i = Some x -> idle_thread R x) -> threads s !! i = Some x ->
  (exists p, pc x = Waiting p Wait_suspend /\ sync x = PMP_SYNC_BLOCKED /\ signal x = false /\
     event_waiting (event_of (threads s) i x)) \/
  i = 0%nat /\ pc x = Outside /\ regions x = R.
Proof.
  intros HI Hall Hi. pose proof HI as (HC & m & g & x0 & HE).
  assert (total (idles i) (threads s) = 0 /\ total (kills i) (threads s) = 0) as [HK1 HK2].
  { split; rewrite (total_eq _ 0); try lia; intros j y Hj; by apply (idle_quiet y (Hall _ _ Hj)). }
  destruct (Hall _ _ Hi) as [[Hs [p Hp]]|[Hp HR]].
  - left. exists p. destruct (hand_wait _ _ _ _ _ Hp (ci_hand _ _ HC _ _ Hi)) as [_ Hw]. cbn in Hw. rewrite HK1, HK2 in Hw.
    assert (sync x = PMP_SYNC_BLOCKED) as Hb by (destruct Hw as [Hw|[Hw|Hw]]; destruct Hw as (?&?&?&?); [done|lia|congruence]).
    do 3 (split; [done|]). split; unfold event_of, flag_of.
    + cbn [flag]. by rewrite HK1, HK2, Hs, Hb.
    + cbn [at_]. rewrite Hp. destruct p; cbn; tauto.
  - right. pose proof (tinv_progress T prog R HT _ _ _ HI Hi) as [? _]. split_and!; [|done|lia].
    by apply (all_not_started T prog R s i x HI Hi).
Qed.

Lemma stuck_finished s :
  tinv T prog R s -> ~ (exists s', tstep T thread_spin prog R s s') -> finished s.
Proof.
  intros HI Hn. pose proof (stuck_idle _ HI Hn) as Hall. pose proof HI as (HC & m & g & x0 & HE).
  destruct (einv_end _ _ _ (proj1 HT) _ _ _ _ HE) as [E0 Ej].
  { intros j e Hj. rewrite abs_lookup in Hj. destruct (threads s !! j) as [y|] eqn:Hy; [|done]. injection Hj as <-.
    destruct (stuck_waits _ _ _ HI Hall Hy) as [(p & _ & _ & _ & ?)|(-> & Hp & HR)]; [by left|right]. cbn. by rewrite Hp. }
  destruct (master_thread _ _ _ _ _ _ _ HE) as (t0 & H0 & Ex). intros i x Hi.
  assert (event_of (threads s) i x = if decide (i = 0%nat) then mkE Serial false R 0 else mkE Ready false R 0) as He.
  { destruct (decide (i = 0%nat)) as [->|E]; [congruence|]. by apply (Ej i), abs_lookup_Some. }
  pose proof (stuck_waits _ _ _ HI Hall Hi) as Hw. unfold event_of in He. destruct (decide (i = 0%nat)) as [E|E]; injection He as Hp _ Hr Hc; (do 2 (split; [done|])).
  - destruct Hw as [(p & Hw & _)|(_ & Hw & _)]; [|done]. rewrite Hw in Hp. by destruct p.
  - destruct Hw as [(p & Hw & ? & ? & _)|[? _]]; [|done]. rewrite Hw in Hp |- *. by destruct p.
Qed.

Lemma start_effort : steps_left T thread_spin prog R (start_state T) <= team_bound.
Proof.
  unfold steps_left. assert (forall i x, threads (start_state T) !! i = Some x ->
    effort T thread_spin prog R x <= (Z.of_nat R + 1) * (Z.of_nat (length prog) + 1) * (3 * Z.max 0 thread_spin + 13 * Z.of_nat T + 33)) as He.
  { intros i x Hi. unfold effort, region_effort, construct_effort, work_rank.
    assert (rank T thread_spin (pc x) <= 3 * spins thread_spin + 13 * Z.of_nat T + 33 /\ regions x = 0%nat /\ constructs x = 0%nat) as (Hr & -> & ->).
    { destruct (start_threads _ _ _ Hi) as [[_ ->]|[_ ->]]; (split; [|done]); cbn; unfold work_rank, spins; lia. }
    unfold spins in *. nia. }
  etrans; [apply (total_bound _ _ _ (fun x Hx => let (i, Hi) := list_elem_of_lookup_1 _ _ Hx in He i x Hi))|].
  cbn [start_state threads length]. rewrite length_replicate. unfold team_bound. nia.
Qed.

Lemma steps_bounded n s s' :
  tinv T prog R s -> nsteps (tstep T thread_spin prog R) n s s' -> Z.of_nat n <= steps_left T thread_spin prog R s.
Proof.
  intros HI Hs. induction Hs as [s|n s1 s2 s3 H12 _ IH]; [by apply (steps_left_nonneg T thread_spin prog R HT)|].
  pose proof (step_effort _ _ _ _ HT _ _ HI H12). destruct (tstep_inv _ _ _ _ HT _ _ HI H12) as [H2 _]. specialize (IH H2). lia.
Qed.
End Props.

(** ** The theorems *)

(** C3. Teams implement their specification, and never fail.  For every team of at
    most [PMP_MAX_IDS] threads, every program of constructs and every value of
    [thread_spin], in every state that the threads reach in any interleaving:
    the state with events that it stands for is reachable in [OmpEvents], and the
    next step of every thread returns - no assertion of [thread.c], [team.c] or
    [idstack.h] fails and no array is read out of bounds - and is invisible, or is a
    step of the specification by the same thread; a thread without a next step
    waits for a signal, or is the master behind the last region. *)
Theorem omp_team_refines (T : nat) (thread_spin : Z) (prog : list construct) (R : nat) (s : omp_state) :
  (1 <= T <= PMP_MAX_IDS)%nat -> rtc (tstep T thread_spin prog R) (start_state T) s ->
  rtc (ereach T prog R) (e_start_state T) (abs s) /\
  forall i, (i < T)%nat -> yields (omp_step T thread_spin prog R s i) (fun o =>
    match o with
    | None => forall x, threads s !! i = Some x -> idle_thread R x
    | Some s' => abs s' = abs s \/ estep T prog R (abs s) i (abs s')
    end).
Proof.
  intros HT Hs. destruct (reach_tinv T thread_spin prog R HT s Hs) as [(HC & m & g & x0 & HI) Ha]. split; [done|].
  intros i Hi. rewrite <- (threads_length T prog R _ _ _ _ HI) in Hi. destruct (lookup_lt_is_Some_2 _ _ Hi) as [x Hx].
  apply (yields_mono _ _ _ (good_steps T thread_spin prog R HT _ _ _ _ _ _ HC HI Hx)). by intros [s'|] H; [apply H|].
Qed.

(** C6. Barriers separate.  When a thread has left a barrier of a region, every thread
    of the team has arrived at it: it waits there, or it has left the barrier
    or the region too. *)
Theorem omp_barrier_separates (T : nat) (thread_spin : Z) (prog : list construct) (R : nat) (s : omp_state) (r k i j : nat) (x y : omp_thread) :
  (1 <= T <= PMP_MAX_IDS)%nat -> rtc (tstep T thread_spin prog R) (start_state T) s ->
  prog !! k = Some Barrier -> threads s !! i = Some x -> threads s !! j = Some y -> beyond r k x ->
  beyond r k y \/ regions y = r /\ constructs y = k /\ at_barrier (place_of (pc y)) = 1%nat.
Proof.
  intros HT Hs Hk Hi Hj Hx. destruct (reach_tinv T thread_spin prog R HT s Hs) as [HI _].
  by apply (barrier_order T prog R HT s i j x y).
Qed.

(** C11. Fork and join.  While the master is outside of a parallel region, every other
    thread has finished as many regions as the master, executes nothing and is in
    no team, and all ids but the master's are back in the stack.  While a thread
    executes a region, the master is in the same region, [team_size] is the number of
    threads, the members of the team are the threads in order, and
    the local id of the thread is its index. *)
Theorem omp_fork_join (T : nat) (thread_spin : Z) (prog : list construct) (R : nat) (s : omp_state) (x0 : omp_thread) :
  (1 <= T <= PMP_MAX_IDS)%nat -> rtc (tstep T thread_spin prog R) (start_state T) s -> threads s !! 0%nat = Some x0 ->
  (pc x0 = Outside ->
     team_size (team s) = 0 /\ num_ids (idstack s) = (PMP_MAX_IDS - 1)%nat /\ nesting_depth x0 = 0 /\
     forall j y, j <> 0%nat -> threads s !! j = Some y ->
       place_of (pc y) = Ready /\ regions y = regions x0 /\ constructs y = 0%nat /\ my_local_id y = -1 /\ has_team y = false) /\
  (forall i x, threads s !! i = Some x -> in_region (place_of (pc x)) = true ->
     pc x0 <> Outside /\ regions x = regions x0 /\ team_size (team s) = Z.of_nat T /\ has_team x = true /\
     my_local_id x = Z.of_nat i /\ forall j, (j < T)%nat -> members (team s) !! j = Some (Some j)).
Proof.
  intros HT Hs H0. destruct (reach_tinv T thread_spin prog R HT s Hs) as [HI _].
  pose proof HI as (HC & m & g & e0 & HE). destruct (master_thread _ _ _ _ _ _ _ HE) as (t0 & H0' & Ex). assert (t0 = x0) as -> by congruence.
  split.
  - intros Hp. pose proof (ci_ids _ _ HC _ H0) as Hids. rewrite Hp in Hids. destruct Hids as [_ Hsz Hn _ _ _ Hth Hd].
    split_and!; [done|done|by apply Hd|]. intros j y Hne Hj. assert (at_ e0 = Serial) as Hse by (rewrite Ex; cbn; by rewrite Hp).
    destruct (serial_ready _ _ _ _ _ _ _ _ _ HE Hse Hne (abs_lookup_Some _ _ _ Hj)) as (Hpl & Hr & _ & Hc & _).
    destruct (Hth _ _ Hj) as [Hl Hh]. cbn [assigned] in Hl, Hh. rewrite decide_False in Hl by lia. rewrite decide_False, bool_decide_false in Hh by lia.
    rewrite Ex in Hr. done.
  - intros i x Hi Hx. destruct (at_construct _ _ _ _ _ _ HI Hi Hx) as [(y & Hy & Hpy & Hr) _]. assert (y = x0) as -> by congruence.
    destruct (team_complete T prog R HT _ _ _ _ _ _ HC HE Hi) as (?&?&?&?); [by left|]. done.
Qed.

(** C10. Every [single] construct is executed by exactly one thread.  For every
    reachable state and every [single] construct of every region: if some thread is
    behind it, then one call of [__ompc_single] for it has returned 1, and if no thread
    is behind it yet, none has. *)
Theorem omp_single_once (T : nat) (thread_spin : Z) (prog : list construct) (R : nat) (s : omp_state) (r k : nat) :
  (1 <= T <= PMP_MAX_IDS)%nat -> Z.of_nat (length prog) < 2 ^ 31 ->
  rtc (tstep T thread_spin prog R) (start_state T) s -> prog !! k = Some Single ->
  (exists j x, threads s !! j = Some x /\ beyond r k x) /\ total (wins (r, k)) (threads s) = 1 \/
  (forall j x, threads s !! j = Some x -> ~ beyond r k x) /\ total (wins (r, k)) (threads s) = 0.
Proof.
  intros HT HL Hs Hk. destruct (reach_sinv T thread_spin prog R HT HL s Hs) as [_ HS]. by apply HS.
Qed.

(** C5. Teams terminate.  There is no execution of more than [team_bound] steps, spinning
    included, and a state without a next step is one in which all threads have
    executed all regions, the master is behind them and the workers are blocked
    waiting for the next one: no wakeup is lost and no thread deadlocks. *)
Theorem omp_team_terminates (T : nat) (thread_spin : Z) (prog : list construct) (R : nat) :
  (1 <= T <= PMP_MAX_IDS)%nat ->
  (forall n s, nsteps (tstep T thread_spin prog R) n (start_state T) s -> Z.of_nat n <= team_bound T thread_spin prog R) /\
  (forall s, rtc (tstep T thread_spin prog R) (start_state T) s ->
     ~ (exists s', tstep T thread_spin prog R s s') -> finished R s).
Proof.
  intros HT. split.
  - intros n s Hs. pose proof (steps_bounded T thread_spin prog R HT _ _ _ (start_tinv T prog R HT) Hs).
    pose proof (start_effort T thread_spin prog R HT). lia.
  - intros s Hs Hn. apply (stuck_finished T thread_spin prog R HT); [|done]. by apply (reach_tinv T thread_spin prog R HT).
Qed.

(** ** Examples *)

(** Three threads that take turns: two regions with a [single] and a barrier. *)
Definition demo_prog : list construct := [Single; Barrier; Single].
Definition demo_state (n : nat) : omp_state :=
  match run 3 1 demo_prog 2 (concat (replicate n [0%nat; 1%nat; 2%nat])) (start_state 3) with Ok s => s | Err _ => start_state 3 end.

Definition returns {A} (o : outcome A) : bool := match o with Ok _ => true | Err _ => false end.

Lemma demo_reach n :
  returns (run 3 1 demo_prog 2 (concat (replicate n [0%nat; 1%nat; 2%nat])) (start_state 3)) = true ->
  rtc (tstep 3 1 demo_prog 2) (start_state 3) (demo_state n).
Proof.
  intros H. apply (run_reach 3 1 demo_prog 2 (concat (replicate n [0%nat; 1%nat; 2%nat]))). unfold demo_state.
  by destruct (run _ _ _ _ _ _).
Qed.

Lemma demo_team : (1 <= 3 <= PMP_MAX_IDS)%nat.
Proof. unfold PMP_MAX_IDS. lia. Qed.

(** The thread at a place of the example. *)
Definition demo_thread (n i : nat) : omp_thread := nth i (threads (demo_state n)) new_thread.

Lemma omp_team_refines_witness :
  rtc (ereach 3 demo_prog 2) (e_start_state 3) (abs (demo_state 25)) /\
  yields (omp_step 3 1 demo_prog 2 (demo_state 25) 0) (fun o =>
    match o with
    | None => forall x, threads (demo_state 25) !! 0%nat = Some x -> idle_thread 2 x
    | Some s' => abs s' = abs (demo_state 25) \/ estep 3 demo_prog 2 (abs (demo_state 25)) 0 (abs s')
    end).
Proof.
  destruct (omp_team_refines 3 1 demo_prog 2 (demo_state 25) demo_team (demo_reach 25 ltac:(by vm_compute))) as [H1 H2].
  split; [exact H1|]. apply H2. lia.
Defined.

(** Thread 1 has left the region while the master still releases thread 2. *)
Lemma omp_barrier_separates_witness :
  pc (demo_thread 25 0) = Waking At_barrier 2 2 Wake_kill /\ regions (demo_thread 25 1) = 1%nat /\
  (beyond 0 1 (demo_thread 25 2) \/ regions (demo_thread 25 2) = 0%nat /\ constructs (demo_thread 25 2) = 1%nat /\
     at_barrier (place_of (pc (demo_thread 25 2))) = 1%nat).
Proof.
  do 2 (split; [by vm_compute|]).
  apply (omp_barrier_separates 3 1 demo_prog 2 (demo_state 25) 0 1 1 2 (demo_thread 25 1) (demo_thread 25 2) demo_team (demo_reach 25 ltac:(by vm_compute)));
    try by vm_compute. left. by apply Nat.ltb_lt.
Defined.

Lemma omp_fork_join_witness :
  pc (demo_thread 200 0) = Outside /\ team_size (team (demo_state 200)) = 0 /\
  num_ids (idstack (demo_state 200)) = (PMP_MAX_IDS - 1)%nat /\
  team_size (team (demo_state 20)) = 3 /\ my_local_id (demo_thread 20 2) = 2.
Proof.
  assert (pc (demo_thread 200 0) = Outside) as Hp by by vm_compute.
  assert (Hi : threads (demo_state 20) !! 2%nat = Some (demo_thread 20 2)) by by vm_compute.
  destruct (omp_fork_join 3 1 demo_prog 2 (demo_state 200) (demo_thread 200 0) demo_team (demo_reach 200 ltac:(by vm_compute)) ltac:(by vm_compute)) as [H1 _].
  destruct (omp_fork_join 3 1 demo_prog 2 (demo_state 20) (demo_thread 20 0) demo_team (demo_reach 20 ltac:(by vm_compute)) ltac:(by vm_compute)) as [_ H2].
  destruct (H1 Hp) as (Ha & Hb & _). destruct (H2 2%nat _ Hi ltac:(by vm_compute)) as (_ & _ & Hc & _ & Hd & _).
  split; [exact Hp|]. split; [exact Ha|]. split; [exact Hb|]. split; [exact Hc|exact Hd].
Defined.

(** Behind the last [single] of the first region. *)
Lemma omp_single_once_witness : total (wins (0%nat, 2%nat)) (threads (demo_state 25)) = 1.
Proof.
  assert (Hi : threads (demo_state 25) !! 1%nat = Some (demo_thread 25 1)) by by vm_compute.
  assert (Hr : regions (demo_thread 25 1) = 1%nat) by by vm_compute.
  destruct (omp_single_once 3 1 demo_prog 2 (demo_state 25) 0 2 demo_team ltac:(by vm_compute) (demo_reach 25 ltac:(by vm_compute)) eq_refl) as [[_ H]|[H _]]; [exact H|].
  destruct (H _ _ Hi). left. rewrite Hr. lia.
Defined.

Lemma omp_team_terminates_witness :
  team_bound 3 1 demo_prog 2 = 2700 /\ finished 2 (demo_state 200).
Proof.
  split; [by vm_compute|]. apply (omp_team_terminates 3 1 demo_prog 2 demo_team); [exact (demo_reach 200 ltac:(by vm_compute))|].
  intros (s' & i & Hi & Hs). assert (Hall : forall i, (i < 3)%nat -> omp_step 3 1 demo_prog 2 (demo_state 200) i = Ok None).
  { intros [|[|[|j]]] Hj; [by vm_compute..|lia]. }
  rewrite Hall in Hs; [discriminate Hs|exact Hi].
Defined.
