(* ===== verification/OmpLock.v ===== *)
(** Locks and critical sections: the spin locks of [libopenmp/lock.h], and
    [__ompc_critical] and [__ompc_end_critical] of [lock.c].

    The lock of a critical section is allocated by the first thread that comes to
    it; threads that come at the same time allocate one each and agree on one by a
    compare-and-swap.  Threads execute the section [S] times each, one step for each
    access to memory that they share; in the section they increment a counter with
    a read and a write.  Memory that [posix_memalign] returns has not been in use
    before; an access to memory that has been freed fails.  [lock_spin] is not 0: the
    other path calls [pthread_mutex_lock]. *)
From Stdlib Require Import ZArith Lia Bool.
From stdpp Require Import prelude list relations.
From S2P Require Import Prelude.

Definition PMP_SYNC_UNLOCKED : Z := -1.

(** [__pmp_atomic_cmpxchg32] of a memory cell that holds [v]: what it returns, and the
    cell after it. *)
Definition __pmp_atomic_cmpxchg32 (v old new : Z) : Z * Z := (v, if v =? old then new else v).

Definition __pmp_lock_init : Z := PMP_SYNC_UNLOCKED.

(** Where a thread is in [__pmp_lock]: before the first compare-and-swap, at the plain
    read, before the compare-and-swap of the loop. *)
Inductive lock_at : Type := Lock_first | Lock_read | Lock_swap.

(** A step of [__pmp_lock] on a lock with [sync]: the lock after it and where the thread
    is; [None]: the call has returned. *)
Definition __pmp_lock (global_id sync : Z) (w : lock_at) : outcome (Z * option lock_at) :=
  match w with
  | Lock_first | Lock_swap =>
      let (old, sync) := __pmp_atomic_cmpxchg32 sync PMP_SYNC_UNLOCKED global_id in
      assert* negb (old =? global_id) in
      Ok (sync, if old =? PMP_SYNC_UNLOCKED then None else Some Lock_read)
  | Lock_read =>
      assert* negb (sync =? global_id) in
      Ok (sync, Some (if sync =? PMP_SYNC_UNLOCKED then Lock_swap else Lock_read))
  end.

Definition __pmp_unlock (global_id sync : Z) : outcome Z :=
  let (old, sync) := __pmp_atomic_cmpxchg32 sync global_id PMP_SYNC_UNLOCKED in
  assert* old =? global_id in Ok sync.

(** Where a thread is: [Begins] before [__ompc_critical]; [Allocates], [Publishes] with its
    new lock, [Discards] it because there is one; [Locks]; [Enters] the section, [Section v]
    has read the counter; [Leaves] before [__ompc_end_critical], [Unlocks]. *)
Inductive crit_pc : Type :=
| Begins | Allocates | Publishes (l : nat) | Discards (l l_old : nat) | Locks (l : nat) (w : lock_at)
| Enters | Section_ (v : Z) | Leaves | Unlocks (l : nat).

(** [sections]: how often the thread has executed the section. *)
Record crit_thread : Type := mkCT { crit_at : crit_pc; sections : nat }.

(** [heap]: the [sync] fields of the locks that were allocated, [None] for a lock that has
    been freed; [lock_ptr]: the pointer [*lock], [None] for [NULL]. *)
Record crit_state : Type := mkCS {
  lock_ptr : option nat; heap : list (option Z); counter : Z; crew_ : list crit_thread
}.

Definition load_sync (h : list (option Z)) (l : nat) : outcome Z :=
  match h !! l with Some (Some v) => Ok v | _ => Err Bounds end.

Section Critical.
Context (N S_ : nat).

Definition go (s : crit_state) (i : nat) (t : crit_thread) (p : crit_pc) : crit_state :=
  mkCS (lock_ptr s) (heap s) (counter s) (<[i := mkCT p (sections t)]> (crew_ s)).
Definition with_heap (s : crit_state) (h : list (option Z)) : crit_state :=
  mkCS (lock_ptr s) h (counter s) (crew_ s).

(** [__ompc_critical] up to the call of [__pmp_lock]. *)
Definition critical_step (s : crit_state) (i : nat) (t : crit_thread) : outcome crit_state :=
  match crit_at t with
  | Begins => Ok (go s i t (match lock_ptr s with None => Allocates | Some l => Locks l Lock_first end))
  | Allocates => Ok (go (with_heap s (heap s ++ [Some __pmp_lock_init])) i t (Publishes (length (heap s))))
  | Publishes l =>
      match lock_ptr s with
      | None => Ok (go (mkCS (Some l) (heap s) (counter s) (crew_ s)) i t (Locks l Lock_first))
      | Some l_old => Ok (go s i t (Discards l l_old))
      end
  | Discards l l_old => Ok (go (with_heap s (<[l := None]> (heap s))) i t (Locks l_old Lock_first))
  | _ => Ok s
  end.

(** A step of thread [i]; [None]: it has executed all its sections. *)
Definition crit_step (s : crit_state) (i : nat) : outcome (option crit_state) :=
  let* t := of_option Bounds (crew_ s !! i) in
  match crit_at t with
  | Begins =>
      if (sections t <? S_)%nat then let* s := critical_step s i t in Ok (Some s) else Ok None
  | Allocates | Publishes _ | Discards _ _ => let* s := critical_step s i t in Ok (Some s)
  | Locks l w =>
      let* sync := load_sync (heap s) l in
      let* r := __pmp_lock (Z.of_nat i) sync w in
      Ok (Some (go (with_heap s (<[l := Some (fst r)]> (heap s))) i t
                  (match snd r with Some w => Locks l w | None => Enters end)))
  | Enters => Ok (Some (go s i t (Section_ (counter s))))
  | Section_ v => Ok (Some (go (mkCS (lock_ptr s) (heap s) (v + 1) (crew_ s)) i t Leaves))
  | Leaves =>
      match lock_ptr s with
      | None => Err Assertion
      | Some l => Ok (Some (go s i t (Unlocks l)))
      end
  | Unlocks l =>
      let* sync := load_sync (heap s) l in
      let* sync := __pmp_unlock (Z.of_nat i) sync in
      Ok (Some (mkCS (lock_ptr s) (<[l := Some sync]> (heap s)) (counter s) (<[i := mkCT Begins (S (sections t))]> (crew_ s))))
  end.

Definition crit_start : crit_state := mkCS None [] 0 (replicate N (mkCT Begins 0)).
Definition cstep (s s' : crit_state) : Prop := exists i, crit_step s i = Ok (Some s').

(** ** The invariant *)

(** A thread between [__pmp_lock] and [__pmp_unlock]. *)
Definition holds_lock (x : crit_thread) : bool :=
  match crit_at x with Enters | Section_ _ | Leaves | Unlocks _ => true | _ => false end.

(** The lock that only this thread knows. *)
Definition private (x : crit_thread) : option nat :=
  match crit_at x with Publishes l | Discards l _ => Some l | _ => None end.

(** The sections whose increment a thread has written. *)
Definition increments (x : crit_thread) : Z :=
  Z.of_nat (sections x) + match crit_at x with Leaves | Unlocks _ => 1 | _ => 0 end.

Definition crit_pc_ok (s : crit_state) (i : nat) (x : crit_thread) : Prop :=
  match crit_at x with
  | Begins | Allocates => True
  | Publishes l => heap s !! l = Some (Some PMP_SYNC_UNLOCKED)
  | Discards l l_old => heap s !! l = Some (Some PMP_SYNC_UNLOCKED) /\ lock_ptr s = Some l_old
  | Locks l _ => lock_ptr s = Some l
  | Enters | Leaves => exists l, lock_ptr s = Some l /\ heap s !! l = Some (Some (Z.of_nat i))
  | Section_ v => v = counter s /\ exists l, lock_ptr s = Some l /\ heap s !! l = Some (Some (Z.of_nat i))
  | Unlocks l => lock_ptr s = Some l /\ heap s !! l = Some (Some (Z.of_nat i))
  end.

Record crit_inv (s : crit_state) : Prop := {
  cr_length : length (crew_ s) = N;
  cr_pc : forall i x, crew_ s !! i = Some x -> crit_pc_ok s i x;
  cr_sections : forall i x, crew_ s !! i = Some x ->
    (sections x + match crit_at x with Begins => 0 | _ => 1 end <= S_)%nat;
  cr_lock : forall l, lock_ptr s = Some l -> exists v, heap s !! l = Some (Some v) /\
    (v = PMP_SYNC_UNLOCKED \/ exists i x, v = Z.of_nat i /\ crew_ s !! i = Some x /\ holds_lock x = true);
  cr_private : forall i x l, crew_ s !! i = Some x -> private x = Some l -> lock_ptr s <> Some l;
  cr_distinct : forall i j x y l, crew_ s !! i = Some x -> crew_ s !! j = Some y -> private x = Some l -> private y = Some l -> i = j;
  cr_counter : counter s = total increments (crew_ s)
}.

Lemma holder_sync s i x :
  crit_pc_ok s i x -> holds_lock x = true -> exists l, lock_ptr s = Some l /\ heap s !! l = Some (Some (Z.of_nat i)).
Proof. unfold crit_pc_ok, holds_lock. destruct (crit_at x); try done; intros H _; [by apply H|by eexists]. Qed.

Lemma one_holder s i j x y :
  crit_inv s -> crew_ s !! i = Some x -> crew_ s !! j = Some y -> holds_lock x = true -> holds_lock y = true -> i = j.
Proof.
  intros HI Hi Hj Hx Hy. destruct (holder_sync _ _ _ (cr_pc _ HI _ _ Hi) Hx) as (l & Hl & Hh).
  destruct (holder_sync _ _ _ (cr_pc _ HI _ _ Hj) Hy) as (l' & Hl' & Hh'). assert (l' = l) as -> by congruence.
  assert (Z.of_nat i = Z.of_nat j) by congruence. lia.
Qed.

(** A thread that does not hold the lock finds another id in it. *)
Lemma not_my_sync s i x l v :
  crit_inv s -> crew_ s !! i = Some x -> holds_lock x = false -> lock_ptr s = Some l -> heap s !! l = Some (Some v) -> v <> Z.of_nat i.
Proof.
  intros HI Hi Hx Hl Hh ->. destruct (cr_lock _ HI _ Hl) as (v & Hv & [Hu|(j & y & Hvj & Hj & Hy)]).
  - assert (v = Z.of_nat i) as -> by congruence. unfold PMP_SYNC_UNLOCKED in Hu. lia.
  - assert (j = i) as -> by (apply Nat2Z.inj; congruence). congruence.
Qed.

(** The threads after a step of thread [i]. *)
Lemma crew_insert (ths : list crit_thread) (i : nat) (x x' : crit_thread) j y :
  ths !! i = Some x -> <[i := x']> ths !! j = Some y -> j = i /\ y = x' \/ j <> i /\ ths !! j = Some y.
Proof.
  intros Hi Hj. destruct (decide (j = i)) as [->|Hne].
  - rewrite list_lookup_insert_eq in Hj by (by eapply lookup_lt_Some). injection Hj as <-. by left.
  - rewrite list_lookup_insert_ne in Hj by done. by right.
Qed.

(** A step of thread [i], from [x] to [x']. *)
Lemma crit_put s i x x' p h c :
  let s' := mkCS p h c (<[i := x']> (crew_ s)) in
  crit_inv s -> crew_ s !! i = Some x ->
  crit_pc_ok s' i x' ->
  (forall j y, j <> i -> crew_ s !! j = Some y -> crit_pc_ok s j y -> crit_pc_ok s' j y) ->
  (sections x' + match crit_at x' with Begins => 0 | _ => 1 end <= S_)%nat ->
  (forall l, p = Some l -> exists v, h !! l = Some (Some v) /\
     (v = PMP_SYNC_UNLOCKED \/ (v = Z.of_nat i /\ holds_lock x' = true) \/
      lock_ptr s = Some l /\ heap s !! l = Some (Some v) /\ holds_lock x = false)) ->
  (forall l, private x' = Some l -> p <> Some l) ->
  (forall l, p = Some l -> lock_ptr s = Some l \/ private x = Some l) ->
  (forall l, private x' = Some l -> private x = Some l \/ heap s !! l = None) ->
  c = counter s - increments x + increments x' -> crit_inv s'.
Proof.
  intros s' HI Hi Hx Hy HS Hl Hp Hpp Hnew Hc. pose proof (lookup_lt_Some _ _ _ Hi) as Hlt.
  assert (forall j y l, crew_ s !! j = Some y -> private y = Some l -> is_Some (heap s !! l)) as Hlive.
  { intros j y l Hj Hpy. pose proof (cr_pc _ HI _ _ Hj) as Hpc. unfold private, crit_pc_ok in *.
    destruct (crit_at y); try done; injection Hpy as <-; [|destruct Hpc as [Hpc _]]; rewrite Hpc; by eexists. }
  assert (forall j y l, j <> i -> crew_ s !! j = Some y -> private y = Some l -> private x' <> Some l) as Hdis.
  { intros j y l Hne Hj Hpy Hpx. destruct (Hnew _ Hpx) as [Hpx0|Hn].
    - by destruct (Hne (cr_distinct _ HI _ _ _ _ _ Hj Hi Hpy Hpx0)).
    - destruct (Hlive _ _ _ Hj Hpy) as [? ?]. congruence. }
  split; unfold s'; cbn [lock_ptr heap counter crew_].
  - rewrite length_insert. apply HI.
  - intros j y Hj. destruct (crew_insert _ _ _ _ _ _ Hi Hj) as [[-> ->]|[Hne Hj']]; [done|]. by apply Hy, HI.
  - intros j y Hj. destruct (crew_insert _ _ _ _ _ _ Hi Hj) as [[-> ->]|[Hne Hj']]; [done|]. by apply (cr_sections _ HI j).
  - intros l Hpl. destruct (Hl _ Hpl) as (v & Hv & [Hu|[[Hvi Hh]|(Hl0 & Hv0 & Hh)]]); exists v; (split; [done|]).
    + by left.
    + right. exists i, x'. by rewrite list_lookup_insert_eq.
    + destruct (cr_lock _ HI _ Hl0) as (v' & Hv' & Hcase). assert (v' = v) as -> by congruence.
      destruct Hcase as [Hu|(j & y & Hvj & Hj & Hhy)]; [by left|right]. exists j, y. split; [done|]. split; [|done].
      rewrite list_lookup_insert_ne; [done|]. intros <-. congruence.
  - intros j y l Hj Hpy. destruct (crew_insert _ _ _ _ _ _ Hi Hj) as [[-> ->]|[Hne Hj']]; [by apply Hp|].
    intros Hpl. destruct (Hpp _ Hpl) as [Hl0|Hpx].
    + by apply (cr_private _ HI _ _ _ Hj' Hpy).
    + apply Hne. by apply (cr_distinct _ HI _ _ _ _ _ Hj' Hi Hpy Hpx).
  - intros j k y z l Hj Hk Hpy Hpz.
    destruct (crew_insert _ _ _ _ _ _ Hi Hj) as [[-> ->]|[Hne Hj']], (crew_insert _ _ _ _ _ _ Hi Hk) as [[-> ->]|[Hne' Hk']]; try done.
    + by destruct (Hdis _ _ _ Hne' Hk' Hpz).
    + by destruct (Hdis _ _ _ Hne Hj' Hpy).
    + by apply (cr_distinct _ HI _ _ _ _ _ Hj' Hk' Hpy Hpz).
  - rewrite (total_insert _ _ _ _ _ Hi), <- (cr_counter _ HI). lia.
Qed.

Definition is_through (x : crit_thread) : Prop := crit_at x = Begins /\ sections x = S_.

Definition good_crit (s : crit_state) (i : nat) (x : crit_thread) : Prop :=
  yields (crit_step s i) (fun o => match o with None => is_through x | Some s' => crit_inv s' end).

Ltac crit_is Hi Hpc :=
  unfold good_crit, crit_step; rewrite Hi; cbn [of_option]; rewrite obind_ok, Hpc; unfold critical_step; rewrite ?Hpc.
Ltac pc_fact HI Hi Hpc H := pose proof (cr_pc _ HI _ _ Hi) as H; unfold crit_pc_ok in H; rewrite Hpc in H.

(** The state is the same but for the place of thread [i], which keeps its hold. *)
Lemma crit_moves s i x p :
  crit_inv s -> crew_ s !! i = Some x -> crit_pc_ok (go s i x p) i (mkCT p (sections x)) ->
  (sections x + match p with Begins => 0 | _ => 1 end <= S_)%nat ->
  holds_lock (mkCT p (sections x)) = holds_lock x ->
  (forall l, private (mkCT p (sections x)) = Some l -> private x = Some l) ->
  increments (mkCT p (sections x)) = increments x -> crit_inv (go s i x p).
Proof.
  intros HI Hi Hp HS Hh Hpr Hc. apply (crit_put s i x); try done.
  - intros l Hl. destruct (cr_lock _ HI _ Hl) as (v & Hv & Hcase). exists v. split; [done|].
    destruct (holds_lock x) eqn:Hx; [|by right; right].
    destruct (holder_sync _ _ _ (cr_pc _ HI _ _ Hi) Hx) as (l' & Hl' & Hs). right. left. split; [congruence|congruence].
  - intros l Hpl. apply (cr_private _ HI i x); [done|]. by apply Hpr.
  - intros l Hpl. by left.
  - intros l Hpl. left. by apply Hpr.
  - lia.
Qed.

Lemma good_begins s i x : crit_inv s -> crew_ s !! i = Some x -> crit_at x = Begins -> good_crit s i x.
Proof.
  intros HI Hi Hpc. crit_is Hi Hpc. pose proof (cr_sections _ HI _ _ Hi) as HS. rewrite Hpc in HS.
  destruct (Nat.ltb_spec (sections x) S_); [|apply yields_ok; split; [done|lia]].
  rewrite obind_ok. apply yields_ok. apply crit_moves; try done.
  - unfold crit_pc_ok. by destruct (lock_ptr s) as [l|] eqn:E; cbn; rewrite ?E.
  - destruct (lock_ptr s); lia.
  - unfold holds_lock. rewrite Hpc. by destruct (lock_ptr s).
  - unfold private. rewrite Hpc. by destruct (lock_ptr s).
  - unfold increments. rewrite Hpc. by destruct (lock_ptr s).
Qed.

(** Another thread's facts survive when the cells that they mention keep their values. *)
Lemma pc_ok_frame s s' j y :
  lock_ptr s' = lock_ptr s -> (forall l v, heap s !! l = Some (Some v) -> private y = Some l \/ holds_lock y = true /\ lock_ptr s = Some l ->
    heap s' !! l = Some (Some v)) ->
  (holds_lock y = true -> counter s' = counter s) -> crit_pc_ok s j y -> crit_pc_ok s' j y.
Proof.
  unfold crit_pc_ok, private, holds_lock. intros Hp Hh Hc. rewrite Hp. destruct (crit_at y); try done.
  - intros H. apply Hh; [done|by left].
  - intros [H1 H2]. split; [|done]. apply Hh; [done|by left].
  - intros (l & H1 & H2). exists l. split; [done|]. apply Hh; [done|right; by rewrite ?Hp in *].
  - intros (Hv & l & H1 & H2). split; [by rewrite Hc|]. exists l. split; [done|]. apply Hh; [done|right; by rewrite ?Hp in *].
  - intros (l & H1 & H2). exists l. split; [done|]. apply Hh; [done|right; by rewrite ?Hp in *].
  - intros (H1 & H2). split; [done|]. apply Hh; [done|by right].
Qed.

Lemma good_allocates s i x : crit_inv s -> crew_ s !! i = Some x -> crit_at x = Allocates -> good_crit s i x.
Proof.
  intros HI Hi Hpc. crit_is Hi Hpc. rewrite obind_ok. apply yields_ok. pose proof (cr_sections _ HI _ _ Hi) as HS. rewrite Hpc in HS.
  assert (heap s !! length (heap s) = None) as Hn by (by apply lookup_ge_None).
  assert (forall l v, heap s !! l = Some (Some v) -> (heap s ++ [Some __pmp_lock_init]) !! l = Some (Some v)) as Hold.
  { intros l v Hl. by apply lookup_app_l_Some. }
  apply (crit_put s i x); try done; cbn [crit_at sections].
  - cbn. rewrite lookup_app_r, Nat.sub_diag by done. done.
  - intros j y Hne Hj. apply pc_ok_frame; [done|intros l v Hl _; by apply Hold|done].
  - intros l Hl. destruct (cr_lock _ HI _ Hl) as (v & Hv & _). exists v. split; [by apply Hold|]. right. right.
    unfold holds_lock. by rewrite Hpc.
  - cbn. intros l [= <-] Hl. destruct (cr_lock _ HI _ Hl) as (v & Hv & _). congruence.
  - intros l Hl. by left.
  - cbn. intros l [= <-]. by right.
  - unfold increments. rewrite Hpc. cbn. lia.
Qed.

Lemma good_publishes s i x l : crit_inv s -> crew_ s !! i = Some x -> crit_at x = Publishes l -> good_crit s i x.
Proof.
  intros HI Hi Hpc. crit_is Hi Hpc. pc_fact HI Hi Hpc Hl. pose proof (cr_sections _ HI _ _ Hi) as HS. rewrite Hpc in HS.
  destruct (lock_ptr s) as [l_old|] eqn:Hp; rewrite obind_ok; apply yields_ok.
  - apply crit_moves; try done; unfold holds_lock, private, increments; by rewrite Hpc.
  - apply (crit_put s i x); try done; cbn [crit_at sections lock_ptr heap counter with_heap].
    + intros j y Hne Hj. unfold crit_pc_ok. cbn [lock_ptr heap counter]. rewrite Hp.
      destruct (crit_at y); try done; [by intros [_ [=]]|by intros (? & [=] & _)|by intros (_ & ? & [=] & _)|by intros (? & [=] & _)|by intros [[=] _]].
    + intros l0 [= <-]. exists PMP_SYNC_UNLOCKED. split; [done|]. by left.
    + intros l0 [= <-]. right. unfold private. by rewrite Hpc.
    + unfold increments. rewrite Hpc. cbn. lia.
Qed.

Lemma good_discards s i x l l_old : crit_inv s -> crew_ s !! i = Some x -> crit_at x = Discards l l_old -> good_crit s i x.
Proof.
  intros HI Hi Hpc. crit_is Hi Hpc. pc_fact HI Hi Hpc Hl. destruct Hl as [Hl Hp]. rewrite obind_ok. apply yields_ok.
  pose proof (cr_sections _ HI _ _ Hi) as HS. rewrite Hpc in HS.
  assert (private x = Some l) as Hpx by (unfold private; by rewrite Hpc).
  assert (l_old <> l) as Hne0 by (intros ->; by apply (cr_private _ HI _ _ _ Hi Hpx)).
  assert (forall l0 v, l0 <> l -> heap s !! l0 = Some (Some v) -> (<[l := None]> (heap s)) !! l0 = Some (Some v)) as Hkeep.
  { intros l0 v Hl0 Hv. by rewrite list_lookup_insert_ne. }
  apply (crit_put s i x); try done; cbn [crit_at sections lock_ptr heap counter with_heap].
  - intros j y Hne Hj. apply pc_ok_frame; [done| |done]. intros l0 v Hl0 Hcase. apply Hkeep; [|done]. intros ->.
    destruct Hcase as [Hpy|[_ Hcase]]; [|congruence]. apply Hne. by apply (cr_distinct _ HI _ _ _ _ _ Hj Hi Hpy Hpx).
  - intros l0 Hl0. destruct (cr_lock _ HI _ Hl0) as (v & Hv & _). exists v. split; [apply Hkeep; [congruence|done]|].
    right. right. unfold holds_lock. by rewrite Hpc.
  - intros l0 Hl0. by left.
  - unfold increments. rewrite Hpc. cbn. lia.
Qed.

(** A step of a thread on the lock, while no other thread holds it. *)
Lemma lock_put s i x l v x' :
  crit_inv s -> crew_ s !! i = Some x -> lock_ptr s = Some l ->
  (forall j y, j <> i -> crew_ s !! j = Some y -> holds_lock y = false) ->
  (v = PMP_SYNC_UNLOCKED \/ v = Z.of_nat i /\ holds_lock x' = true) ->
  crit_pc_ok (mkCS (lock_ptr s) (<[l := Some v]> (heap s)) (counter s) (<[i := x']> (crew_ s))) i x' ->
  (sections x' + match crit_at x' with Begins => 0 | _ => 1 end <= S_)%nat ->
  private x' = None -> increments x' = increments x ->
  crit_inv (mkCS (lock_ptr s) (<[l := Some v]> (heap s)) (counter s) (<[i := x']> (crew_ s))).
Proof.
  intros HI Hi Hl Hoth Hv Hx HS Hpr Hc. destruct (cr_lock _ HI _ Hl) as (v0 & Hv0 & _). pose proof (lookup_lt_Some _ _ _ Hv0) as Hlt.
  apply (crit_put s i x); try done; cbn [lock_ptr heap counter crew_].
  - intros j y Hne Hj. apply pc_ok_frame; [done| |done]. cbn [heap]. intros l0 v1 Hl0 Hcase.
    rewrite list_lookup_insert_ne; [done|]. intros <-. destruct Hcase as [Hpy|[Hcase _]].
    + by apply (cr_private _ HI _ _ _ Hj Hpy).
    + by rewrite (Hoth _ _ Hne Hj) in Hcase.
  - intros l0 Hl0. assert (l0 = l) as -> by congruence. exists v. rewrite list_lookup_insert_eq by done. split; [done|].
    destruct Hv as [?|?]; [by left|right; by left].
  - intros l0 Hpl. congruence.
  - intros l0 Hl0. by left.
  - intros l0 Hpl. congruence.
  - lia.
Qed.

Lemma good_locks s i x l w : crit_inv s -> crew_ s !! i = Some x -> crit_at x = Locks l w -> good_crit s i x.
Proof.
  intros HI Hi Hpc. crit_is Hi Hpc. pc_fact HI Hi Hpc Hl. pose proof (cr_sections _ HI _ _ Hi) as HS. rewrite Hpc in HS.
  assert (holds_lock x = false) as Hx by (unfold holds_lock; by rewrite Hpc).
  destruct (cr_lock _ HI _ Hl) as (v & Hv & Hcase). unfold load_sync. rewrite Hv, obind_ok.
  pose proof (not_my_sync _ _ _ _ _ HI Hi Hx Hl Hv) as Hne.
  assert (with_heap s (<[l := Some v]> (heap s)) = s) as Hsame.
  { unfold with_heap. rewrite list_insert_id by done. by destruct s. }
  assert (forall w', crit_inv (go (with_heap s (<[l := Some v]> (heap s))) i x (Locks l w'))) as Hmove.
  { intros w'. rewrite Hsame. apply crit_moves; try done; unfold holds_lock, private, increments; by rewrite Hpc. }
  assert (v = PMP_SYNC_UNLOCKED -> crit_inv (go (with_heap s (<[l := Some (Z.of_nat i)]> (heap s))) i x Enters)) as Henter.
  { intros Hu. apply (lock_put s i x); try done.
    - intros j y _ Hj. destruct (holds_lock y) eqn:Hy; [|done].
      destruct (holder_sync _ _ _ (cr_pc _ HI _ _ Hj) Hy) as (l' & Hl' & Hs). unfold PMP_SYNC_UNLOCKED in Hu. assert (l' = l) as -> by congruence.
      assert (v = Z.of_nat j) by congruence. lia.
    - by right.
    - exists l. split; [done|]. cbn. apply list_lookup_insert_eq. by eapply lookup_lt_Some.
    - unfold increments. by rewrite Hpc. }
  destruct w; unfold __pmp_lock, __pmp_atomic_cmpxchg32; rewrite (proj2 (Z.eqb_neq _ _) Hne); cbn [negb assert_]; rewrite !obind_ok; cbn [fst snd]; apply yields_ok.
  - destruct (Z.eqb_spec v PMP_SYNC_UNLOCKED); [by apply Henter|apply Hmove].
  - destruct (v =? PMP_SYNC_UNLOCKED); apply Hmove.
  - destruct (Z.eqb_spec v PMP_SYNC_UNLOCKED); [by apply Henter|apply Hmove].
Qed.

Lemma alone s i x j y :
  crit_inv s -> crew_ s !! i = Some x -> holds_lock x = true -> j <> i -> crew_ s !! j = Some y -> holds_lock y = false.
Proof.
  intros HI Hi Hx Hne Hj. destruct (holds_lock y) eqn:Hy; [|done]. by destruct (Hne (one_holder _ _ _ _ _ HI Hj Hi Hy Hx)).
Qed.

Lemma good_section s i x : crit_inv s -> crew_ s !! i = Some x -> crit_at x = Enters -> good_crit s i x.
Proof.
  intros HI Hi Hpc. crit_is Hi Hpc. pc_fact HI Hi Hpc Hl. pose proof (cr_sections _ HI _ _ Hi) as HS. rewrite Hpc in HS.
  apply yields_ok. apply crit_moves; try done; unfold holds_lock, private, increments; by rewrite Hpc.
Qed.

Lemma good_increment s i x v : crit_inv s -> crew_ s !! i = Some x -> crit_at x = Section_ v -> good_crit s i x.
Proof.
  intros HI Hi Hpc. crit_is Hi Hpc. pc_fact HI Hi Hpc Hl. destruct Hl as [-> Hl]. pose proof (cr_sections _ HI _ _ Hi) as HS. rewrite Hpc in HS.
  assert (holds_lock x = true) as Hx by (unfold holds_lock; by rewrite Hpc).
  apply yields_ok. apply (crit_put s i x); try done; cbn [crit_at sections lock_ptr heap counter].
  - intros j y Hne Hj. apply pc_ok_frame; [done|done|]. intros Hy. by rewrite (alone _ _ _ _ _ HI Hi Hx Hne Hj) in Hy.
  - intros l0 Hl0. destruct Hl as (l & Hl & Hh). exists (Z.of_nat i). split; [congruence|]. right. by left.
  - intros l0 Hl0. by left.
  - unfold increments. rewrite Hpc. cbn. lia.
Qed.

Lemma good_leaves s i x : crit_inv s -> crew_ s !! i = Some x -> crit_at x = Leaves -> good_crit s i x.
Proof.
  intros HI Hi Hpc. crit_is Hi Hpc. pc_fact HI Hi Hpc Hl. destruct Hl as (l & Hl & Hh). rewrite Hl. pose proof (cr_sections _ HI _ _ Hi) as HS. rewrite Hpc in HS.
  apply yields_ok. apply crit_moves; try done; unfold holds_lock, private, increments; by rewrite Hpc.
Qed.

Lemma good_unlocks s i x l : crit_inv s -> crew_ s !! i = Some x -> crit_at x = Unlocks l -> good_crit s i x.
Proof.
  intros HI Hi Hpc. crit_is Hi Hpc. pc_fact HI Hi Hpc Hl. destruct Hl as (Hl & Hh). pose proof (cr_sections _ HI _ _ Hi) as HS. rewrite Hpc in HS.
  assert (holds_lock x = true) as Hx by (unfold holds_lock; by rewrite Hpc).
  unfold load_sync. rewrite Hh, obind_ok. unfold __pmp_unlock, __pmp_atomic_cmpxchg32. rewrite Z.eqb_refl. cbn [assert_]. rewrite !obind_ok.
  apply yields_ok. apply (lock_put s i x); try done.
  - intros j y Hne Hj. by apply (alone s i x j y).
  - by left.
  - cbn. lia.
  - unfold increments. rewrite Hpc. cbn. lia.
Qed.

Lemma crit_steps s i x : crit_inv s -> crew_ s !! i = Some x -> good_crit s i x.
Proof.
  intros HI Hi. destruct (crit_at x) eqn:Hpc.
  - by apply good_begins.
  - by apply good_allocates.
  - by eapply good_publishes.
  - by eapply good_discards.
  - by eapply good_locks.
  - by apply good_section.
  - by eapply good_increment.
  - by apply good_leaves.
  - by eapply good_unlocks.
Qed.

Lemma cstep_inv s s' : crit_inv s -> cstep s s' -> crit_inv s'.
Proof.
  intros HI [i Hs]. destruct (crew_ s !! i) as [x|] eqn:Hi.
  - pose proof (crit_steps _ _ _ HI Hi) as Hg. unfold good_crit in Hg. by rewrite Hs in Hg.
  - unfold crit_step in Hs. by rewrite Hi in Hs.
Qed.

Lemma crit_start_inv : crit_inv crit_start.
Proof.
  split; cbn [lock_ptr heap counter crew_ crit_start]; try done.
  - by rewrite length_replicate.
  - intros i x Hx. by apply lookup_replicate in Hx as [-> _].
  - intros i x Hx. apply lookup_replicate in Hx as [-> _]. cbn. lia.
  - intros i j x y l Hx _. by apply lookup_replicate in Hx as [-> _].
  - rewrite (total_eq _ 0); [lia|]. intros i x Hx. by apply lookup_replicate in Hx as [-> _].
Qed.

Lemma crit_reach s : rtc cstep crit_start s -> crit_inv s.
Proof. intros Hs. pose proof crit_start_inv as H0. induction Hs as [|s1 s2 s3 H12 _ IH]; [done|]. by apply IH, (cstep_inv s1). Qed.

(** ** Progress *)
Definition crit_rank (p : crit_pc) : Z :=
  match p with
  | Begins => 10 | Allocates => 9 | Publishes _ => 8 | Discards _ _ => 7 | Locks _ Lock_first => 6 | Locks _ Lock_read => 5
  | Locks _ Lock_swap => 4 | Enters => 3 | Section_ _ => 2 | Leaves => 1 | Unlocks _ => 0
  end.
Definition crit_effort (x : crit_thread) : Z := (Z.of_nat S_ - Z.of_nat (sections x)) * 11 + crit_rank (crit_at x).

Definition all_through (s : crit_state) : Prop := forall i x, crew_ s !! i = Some x -> is_through x.

(** A thread that holds the lock, or any other when no thread does, makes progress. *)
Definition may_go (s : crit_state) (x : crit_thread) : Prop :=
  holds_lock x = true \/ forall l, lock_ptr s = Some l -> heap s !! l = Some (Some PMP_SYNC_UNLOCKED).

Lemma crit_progress s i x :
  crit_inv s -> crew_ s !! i = Some x -> ~ is_through x -> may_go s x ->
  exists s' x', crit_step s i = Ok (Some s') /\ crew_ s' = <[i := x']> (crew_ s) /\ crit_effort x' < crit_effort x.
Proof.
  intros HI Hi Hn Hgo. pose proof (crit_steps _ _ _ HI Hi) as Hg. unfold good_crit in Hg.
  destruct (crit_step s i) as [[s'|]|] eqn:Hs; [|by destruct (Hn Hg)|done]. clear Hg. exists s'.
  unfold crit_step in Hs. rewrite Hi in Hs. cbn [of_option] in Hs. rewrite obind_ok in Hs. unfold critical_step in Hs.
  unfold crit_effort. destruct (crit_at x) eqn:Hpc.
  - destruct (sections x <? S_)%nat; [|done]. injection Hs as <-. eexists. do 2 (split; [done|]). cbn. destruct (lock_ptr s); cbn; lia.
  - injection Hs as <-. eexists. do 2 (split; [done|]). cbn. lia.
  - destruct (lock_ptr s); injection Hs as <-; eexists; (do 2 (split; [done|])); cbn; lia.
  - injection Hs as <-. eexists. do 2 (split; [done|]). cbn. lia.
  - pc_fact HI Hi Hpc Hl. assert (heap s !! l = Some (Some PMP_SYNC_UNLOCKED)) as Hu.
    { destruct Hgo as [Hgo|Hgo]; [|by apply Hgo]. unfold holds_lock in Hgo. by rewrite Hpc in Hgo. }
    unfold load_sync in Hs. rewrite Hu, obind_ok in Hs.
    destruct w; cbn in Hs; apply obind_inv in Hs as (r & Hr & Hs); injection Hs as <-;
      apply obind_inv in Hr as (? & _ & Hr); injection Hr as <-; eexists; (do 2 (split; [done|])); cbn; lia.
  - injection Hs as <-. eexists. do 2 (split; [done|]). cbn. lia.
  - injection Hs as <-. eexists. do 2 (split; [done|]). cbn. lia.
  - destruct (lock_ptr s); [|done]. injection Hs as <-. eexists. do 2 (split; [done|]). cbn. lia.
  - apply obind_inv in Hs as (? & _ & Hs). apply obind_inv in Hs as (? & _ & Hs). injection Hs as <-.
    eexists. do 2 (split; [done|]). cbn. lia.
Qed.

Lemma someone_goes s :
  crit_inv s -> all_through s \/ exists i x, crew_ s !! i = Some x /\ ~ is_through x /\ may_go s x.
Proof.
  intros HI. destruct (decide (Exists (fun x => holds_lock x = true) (crew_ s))) as [Hh|Hh].
  - right. apply Exists_exists in Hh as (x & Hx & Hh). apply list_elem_of_lookup_1 in Hx as [i Hi]. exists i, x. split; [done|].
    split; [|by left]. intros [Hp _]. unfold holds_lock in Hh. by rewrite Hp in Hh.
  - assert (forall i x, crew_ s !! i = Some x -> holds_lock x = false) as Hno.
    { intros i x Hi. destruct (holds_lock x) eqn:E; [|done]. destruct Hh. apply Exists_exists. exists x. split; [by eapply list_elem_of_lookup_2|done]. }
    assert (forall x, may_go s x) as Hgo.
    { intros x. right. intros l Hl. destruct (cr_lock _ HI _ Hl) as (v & Hv & [->|(j & y & _ & Hj & Hy)]); [done|].
      by rewrite (Hno _ _ Hj) in Hy. }
    destruct (decide (Exists (fun x => negb (match crit_at x with Begins => (sections x =? S_)%nat | _ => false end) = true) (crew_ s))) as [Ht|Ht].
    + right. apply Exists_exists in Ht as (x & Hx & Ht). apply list_elem_of_lookup_1 in Hx as [i Hi]. exists i, x. split; [done|].
      split; [|done]. intros [Hp Hs]. by rewrite Hp, Hs, Nat.eqb_refl in Ht.
    + left. intros i x Hi. destruct (match crit_at x with Begins => (sections x =? S_)%nat | _ => false end) eqn:E.
      * destruct (crit_at x) eqn:Hp; try done. split; [done|by apply Nat.eqb_eq].
      * destruct Ht. apply Exists_exists. exists x. split; [by eapply list_elem_of_lookup_2|by rewrite E].
Qed.

Lemma crit_effort_nonneg s : crit_inv s -> 0 <= total crit_effort (crew_ s).
Proof.
  intros HI. pose proof (cr_sections _ HI) as HS. revert HS. induction (crew_ s) as [|x xs IH]; intros HS; [done|].
  change (0 <= crit_effort x + total crit_effort xs). specialize (IH (fun i => HS (S i))). specialize (HS 0%nat x eq_refl).
  assert (0 <= crit_rank (crit_at x)) by (by destruct (crit_at x) as [| | | |? []| | | |]). unfold crit_effort at 1. lia.
Qed.

Lemma can_complete s : crit_inv s -> exists s', rtc cstep s s' /\ all_through s' /\ crit_inv s'.
Proof.
  intros HI. remember (Z.to_nat (total crit_effort (crew_ s))) as n eqn:Hn. revert s HI Hn.
  induction (lt_wf n) as [n _ IH]. intros s HI Hn. destruct (someone_goes s HI) as [Hall|(i & x & Hi & Ht & Hgo)]; [by exists s|].
  destruct (crit_progress _ _ _ HI Hi Ht Hgo) as (s1 & x' & Hs & Hc & He). assert (cstep s s1) as H1 by (by exists i).
  pose proof (cstep_inv _ _ HI H1) as HI1. pose proof (crit_effort_nonneg _ HI1) as H0.
  rewrite Hc, (total_insert _ _ _ _ _ Hi) in H0.
  destruct (IH (Z.to_nat (total crit_effort (crew_ s1)))) with (s := s1) as (s2 & Hr & Hs2 & HI2); try done.
  { rewrite Hc, (total_insert _ _ _ _ _ Hi). lia. }
  exists s2. split; [by eapply rtc_l|done].
Qed.
End Critical.

(** C12. Critical sections exclude each other.  For every number of threads and of
    executions, in every state that they reach in any interleaving: no step fails
    (no assertion of [lock.h], and no access to a lock that has been freed), all threads
    lock the same lock, at most one is in the section, and the counter that they
    increment there with a read and a write has lost no increment. *)
Theorem omp_critical_excludes (N S_ : nat) (s : crit_state) :
  rtc (cstep S_) (crit_start N) s ->
  (forall i, (i < N)%nat -> yields (crit_step S_ s i) (fun _ => True)) /\
  (forall i x l w, crew_ s !! i = Some x -> crit_at x = Locks l w -> lock_ptr s = Some l) /\
  (forall i j x y, crew_ s !! i = Some x -> crew_ s !! j = Some y -> holds_lock x = true -> holds_lock y = true -> i = j) /\
  counter s = total increments (crew_ s).
Proof.
  intros Hs. pose proof (crit_reach N S_ s Hs) as HI. split_and!.
  - intros i Hi. rewrite <- (cr_length _ _ _ HI) in Hi. destruct (lookup_lt_is_Some_2 _ _ Hi) as [x Hx].
    by apply (yields_mono _ _ _ (crit_steps N S_ s i x HI Hx)).
  - intros i x l w Hi Hp. pose proof (cr_pc _ _ _ HI _ _ Hi) as H. unfold crit_pc_ok in H. by rewrite Hp in H.
  - intros i j x y Hi Hj Hx Hy. by apply (one_holder N S_ s i j x y).
  - apply HI.
Qed.

(** C40. Critical sections never deadlock.  From every state that the threads reach, a
    state can be reached in which every thread has executed the section [S_] times;
    the counter is then the number of threads times [S_]. *)
Theorem omp_critical_completes (N S_ : nat) (s : crit_state) :
  rtc (cstep S_) (crit_start N) s ->
  exists s', rtc (cstep S_) s s' /\ all_through S_ s' /\ counter s' = Z.of_nat N * Z.of_nat S_.
Proof.
  intros Hs. destruct (can_complete N S_ s (crit_reach N S_ s Hs)) as (s' & Hr & Hall & HI). exists s'. split; [done|]. split; [done|].
  rewrite (cr_counter _ _ _ HI), (total_eq _ (Z.of_nat S_)), (cr_length _ _ _ HI); [lia|].
  intros i x Hi. destruct (Hall i x Hi) as [Hp HS]. unfold increments. rewrite Hp, HS. lia.
Qed.

(** ** Examples *)
Fixpoint crit_run (S_ : nat) (schedule : list nat) (s : crit_state) : outcome crit_state :=
  match schedule with
  | [] => Ok s
  | i :: rest => let* o := crit_step S_ s i in crit_run S_ rest (default s o)
  end.

Lemma crit_run_reach S_ schedule s s' : crit_run S_ schedule s = Ok s' -> rtc (cstep S_) s s'.
Proof.
  revert s. induction schedule as [|i rest IH]; cbn [crit_run]; intros s Hs; [by simplify_eq|].
  apply obind_inv in Hs as (o & Ho & Hs). destruct o as [s1|]; [|by apply IH].
  eapply rtc_l; [|by apply IH]. by exists i.
Qed.

(** Both threads allocate a lock, thread 0 publishes its own, thread 1 waits for it. *)
Definition demo_race : crit_state :=
  mkCS (Some 0%nat) [Some 0; None] 0 [mkCT (Section_ 0) 0; mkCT (Locks 0 Lock_read) 0].

Lemma demo_race_reach : rtc (cstep 1) (crit_start 2) demo_race.
Proof. apply (crit_run_reach 1 [0; 1; 0; 1; 0; 1; 0; 1; 1; 0]%nat). vm_compute. reflexivity. Qed.

Lemma omp_critical_excludes_witness :
  yields (crit_step 1 demo_race 1) (fun _ => True) /\ counter demo_race = total increments (crew_ demo_race).
Proof.
  destruct (omp_critical_excludes 2 1 demo_race demo_race_reach) as (H1 & _ & _ & H2).
  split; [apply H1; lia|exact H2].
Defined.

Lemma omp_critical_completes_witness :
  exists s', rtc (cstep 1) demo_race s' /\ all_through 1 s' /\ counter s' = 2.
Proof. exact (omp_critical_completes 2 1 demo_race demo_race_reach). Defined.
