(* ===== verification/OmpNestLock.v ===== *)
(** Nested locks: [__pmp_nest_lock], [__pmp_nest_trylock] and [__pmp_nest_unlock] of
    [libopenmp/lock.h], one step for each access to the lock.

    Threads set, test and unset one lock in any order; a thread unsets the lock only
    when it has set it, and sets it fewer than 2^31 times without unsetting it.
    [lock->nest] is not protected by an atomic operation: that only the thread in
    [lock->sync] uses it is what the invariant shows. *)
From Stdlib Require Import ZArith Lia Bool.
From stdpp Require Import prelude list relations.
From S2P Require Import Prelude OmpLock.

(** Where a thread is.  [N_set], [N_read], [N_swap]: at the compare-and-swap, the read and the
    compare-and-swap of the loop of [__pmp_nest_lock]; [N_try]: at the one of
    [__pmp_nest_trylock].  [N_count], [N_load], [N_store]: at the assertion, the read and the
    write of [lock->nest++], in [__pmp_nest_trylock] if [ret]; [N_result]: at its
    [return lock->nest].  [N_unset], [N_owner]: at the two reads of the assertion
    of [__pmp_nest_unlock]; [N_down_load], [N_down_store]: [lock->nest--]; [N_check]: at
    [lock->nest == 0]; [N_free]: at its compare-and-swap. *)
Inductive nest_pc : Type :=
| N_idle | N_set | N_read | N_swap | N_try
| N_count (ret : bool) (sync : Z) | N_load (ret : bool) | N_store (ret : bool) (v : Z) | N_result
| N_unset | N_owner | N_down_load | N_down_store (v : Z) | N_check | N_free.

(** [depth]: how often the thread has set the lock and not unset it; [answer]: what its last
    [__pmp_nest_trylock] returned. *)
Record nest_thread : Type := mkNT { nest_at : nest_pc; depth : Z; answer : Z }.

(** [pmp_nest_lock_t] and the threads that use it. *)
Record nest_state : Type := mkNS { nsync : Z; nest : Z; users : list nest_thread }.

Inductive nest_op : Type := Set_nest | Test_nest | Unset_nest.

Definition __pmp_nest_lock_init : Z * Z := (PMP_SYNC_UNLOCKED, 0).

Definition moved (s : nest_state) (i : nat) (t : nest_thread) (p : nest_pc) : nest_state :=
  mkNS (nsync s) (nest s) (<[i := mkNT p (depth t) (answer t)]> (users s)).
Definition with_sync (s : nest_state) (v : Z) : nest_state := mkNS v (nest s) (users s).
Definition with_nest (s : nest_state) (v : Z) : nest_state := mkNS (nsync s) v (users s).

(** The steps of [__pmp_nest_lock] up to [lock->nest++]. *)
Definition nest_lock_step (s : nest_state) (i : nat) (t : nest_thread) : outcome nest_state :=
  let global_id := Z.of_nat i in
  match nest_at t with
  | N_set =>
      let (old, sync) := __pmp_atomic_cmpxchg32 (nsync s) PMP_SYNC_UNLOCKED global_id in
      Ok (moved (with_sync s sync) i t
            (if (old =? global_id) || (old =? PMP_SYNC_UNLOCKED) then N_count false old else N_read))
  | N_read =>
      assert* negb (nsync s =? global_id) in
      Ok (moved s i t (if nsync s =? PMP_SYNC_UNLOCKED then N_swap else N_read))
  | N_swap =>
      let (old, sync) := __pmp_atomic_cmpxchg32 (nsync s) PMP_SYNC_UNLOCKED global_id in
      assert* negb (old =? global_id) in
      Ok (moved (with_sync s sync) i t (if old =? PMP_SYNC_UNLOCKED then N_count false old else N_read))
  | _ => Ok s
  end.

(** The compare-and-swap of [__pmp_nest_trylock]. *)
Definition nest_trylock_step (s : nest_state) (i : nat) (t : nest_thread) : outcome nest_state :=
  let global_id := Z.of_nat i in
  let (old, sync) := __pmp_atomic_cmpxchg32 (nsync s) PMP_SYNC_UNLOCKED global_id in
  let s := with_sync s sync in
  Ok (if (old =? PMP_SYNC_UNLOCKED) || (old =? global_id) then moved s i t (N_count true old)
      else moved s i (mkNT N_try (depth t) 0) N_idle).

(** [assert(lock->nest == 0 || sync == global_id); lock->nest++;] and what is returned. *)
Definition nest_count_step (s : nest_state) (i : nat) (t : nest_thread) : outcome nest_state :=
  match nest_at t with
  | N_count ret sync => assert* (nest s =? 0) || (sync =? Z.of_nat i) in Ok (moved s i t (N_load ret))
  | N_load ret => Ok (moved s i t (N_store ret (nest s)))
  | N_store ret v =>
      Ok (moved (with_nest s (swrap 32 (v + 1))) i (mkNT (nest_at t) (depth t + 1) (answer t)) (if ret then N_result else N_idle))
  | N_result => Ok (moved s i (mkNT (nest_at t) (depth t) (nest s)) N_idle)
  | _ => Ok s
  end.

Definition nest_unlock_step (s : nest_state) (i : nat) (t : nest_thread) : outcome nest_state :=
  let global_id := Z.of_nat i in
  match nest_at t with
  | N_unset => assert* 0 <? nest s in Ok (moved s i t N_owner)
  | N_owner => assert* nsync s =? global_id in Ok (moved s i t N_down_load)
  | N_down_load => Ok (moved s i t (N_down_store (nest s)))
  | N_down_store v => Ok (moved (with_nest s (swrap 32 (v - 1))) i (mkNT (nest_at t) (depth t - 1) (answer t)) N_check)
  | N_check => Ok (moved s i t (if nest s =? 0 then N_free else N_idle))
  | N_free =>
      let (old, sync) := __pmp_atomic_cmpxchg32 (nsync s) global_id PMP_SYNC_UNLOCKED in
      assert* old =? global_id in Ok (moved (with_sync s sync) i t N_idle)
  | _ => Ok s
  end.

(** A step of thread [i], which calls [op] next when it is idle; [None]: it may not. *)
Definition nest_step (s : nest_state) (i : nat) (op : nest_op) : outcome (option nest_state) :=
  let* t := of_option Bounds (users s !! i) in
  let some (c : outcome nest_state) := let* s := c in Ok (Some s) in
  match nest_at t with
  | N_idle =>
      match op with
      | Set_nest => if depth t <? 2 ^ 31 - 1 then Ok (Some (moved s i t N_set)) else Ok None
      | Test_nest => if depth t <? 2 ^ 31 - 1 then Ok (Some (moved s i t N_try)) else Ok None
      | Unset_nest => if 0 <? depth t then Ok (Some (moved s i t N_unset)) else Ok None
      end
  | N_set | N_read | N_swap => some (nest_lock_step s i t)
  | N_try => some (nest_trylock_step s i t)
  | N_count _ _ | N_load _ | N_store _ _ | N_result => some (nest_count_step s i t)
  | N_unset | N_owner | N_down_load | N_down_store _ | N_check | N_free => some (nest_unlock_step s i t)
  end.

Definition nest_start (n : nat) : nest_state :=
  mkNS (fst __pmp_nest_lock_init) (snd __pmp_nest_lock_init) (replicate n (mkNT N_idle 0 0)).
Definition nstep (s s' : nest_state) : Prop := exists i op, nest_step s i op = Ok (Some s').

(** ** The invariant *)

(** Thread [x] is the one in [lock->sync]. *)
Definition owns (x : nest_thread) : bool :=
  (0 <? depth x) ||
  match nest_at x with N_count _ _ | N_load _ | N_store _ _ | N_check | N_free => true | _ => false end.

Definition nest_pc_ok (i : nat) (x : nest_thread) : Prop :=
  0 <= depth x < 2 ^ 31 /\
  match nest_at x with
  | N_set | N_try | N_load _ => depth x < 2 ^ 31 - 1
  | N_count _ sync => depth x < 2 ^ 31 - 1 /\ (depth x = 0 \/ sync = Z.of_nat i)
  | N_read | N_swap => depth x = 0
  | N_store _ v => v = depth x /\ depth x < 2 ^ 31 - 1
  | N_result | N_unset | N_owner | N_down_load => 0 < depth x
  | N_down_store v => v = depth x /\ 0 < depth x
  | N_free => depth x = 0
  | _ => True
  end.

Record nest_inv (n : nat) (s : nest_state) : Prop := {
  ni_length : length (users s) = n;
  ni_pc : forall i x, users s !! i = Some x -> nest_pc_ok i x;
  ni_owner : forall i x, users s !! i = Some x -> owns x = true -> nsync s = Z.of_nat i /\ nest s = depth x;
  ni_free : nsync s = PMP_SYNC_UNLOCKED /\ nest s = 0 \/
            exists i x, users s !! i = Some x /\ owns x = true
}.

Lemma one_owner n s i j x y :
  nest_inv n s -> users s !! i = Some x -> users s !! j = Some y -> owns x = true -> owns y = true -> i = j.
Proof.
  intros HI Hi Hj Hx Hy. destruct (ni_owner _ _ HI _ _ Hi Hx), (ni_owner _ _ HI _ _ Hj Hy). lia.
Qed.

(** Only the owner finds its id in the lock. *)
Lemma owner_sync n s i x : nest_inv n s -> users s !! i = Some x -> nsync s = Z.of_nat i -> owns x = true.
Proof.
  intros HI Hi Hs. destruct (ni_free _ _ HI) as [[Hu _]|(j & y & Hj & Hy)]; [unfold PMP_SYNC_UNLOCKED in Hu; lia|].
  destruct (ni_owner _ _ HI _ _ Hj Hy) as [Hj' _]. assert (j = i) as -> by lia. by simplify_eq.
Qed.

Lemma owns_sync n s i x : nest_inv n s -> users s !! i = Some x -> owns x = (nsync s =? Z.of_nat i).
Proof.
  intros HI Hi. destruct (Z.eqb_spec (nsync s) (Z.of_nat i)) as [E|E]; [by apply (owner_sync n s i)|].
  destruct (owns x) eqn:Hx; [|done]. by destruct (ni_owner _ _ HI _ _ Hi Hx).
Qed.

Lemma free_owner n s i x : nest_inv n s -> users s !! i = Some x -> nsync s = PMP_SYNC_UNLOCKED -> nest s = 0 /\ depth x = 0.
Proof.
  intros HI Hi Hu. assert (owns x = false) as Hx.
  { rewrite (owns_sync n s i x HI Hi). apply Z.eqb_neq. unfold PMP_SYNC_UNLOCKED in Hu. lia. }
  split.
  - destruct (ni_free _ _ HI) as [[_ ?]|(j & y & Hj & Hy)]; [done|]. destruct (ni_owner _ _ HI _ _ Hj Hy). unfold PMP_SYNC_UNLOCKED in Hu. lia.
  - unfold owns in Hx. apply orb_false_iff in Hx as [Hx _]. destruct (ni_pc _ _ HI _ _ Hi) as [? _]. lia.
Qed.

(** A step of thread [i], from [x] to [x'], that leaves [v] in [sync] and [k] in [nest]. *)
Lemma nest_put n s i x x' v k :
  nest_inv n s -> users s !! i = Some x -> nest_pc_ok i x' ->
  (if owns x' then v = Z.of_nat i /\ k = depth x' /\ (owns x = true \/ nsync s = PMP_SYNC_UNLOCKED)
   else owns x = true /\ v = PMP_SYNC_UNLOCKED /\ k = 0 \/ owns x = false /\ v = nsync s /\ k = nest s) ->
  nest_inv n (mkNS v k (<[i := x']> (users s))).
Proof.
  intros HI Hi Hx Ho. pose proof (lookup_lt_Some _ _ _ Hi) as Hlt.
  assert (forall j y, <[i := x']> (users s) !! j = Some y -> j = i /\ y = x' \/ j <> i /\ users s !! j = Some y) as Hin.
  { intros j y Hj. destruct (decide (j = i)) as [->|Hne].
    - rewrite list_lookup_insert_eq in Hj by done. injection Hj as <-. by left.
    - rewrite list_lookup_insert_ne in Hj by done. by right. }
  assert (forall j y, j <> i -> users s !! j = Some y -> owns x = true \/ nsync s = PMP_SYNC_UNLOCKED -> owns y = false) as Hno.
  { intros j y Hne Hj Hc. destruct (owns y) eqn:Hy; [|done]. destruct Hc as [Hc|Hc].
    - by destruct (Hne (one_owner _ _ _ _ _ _ HI Hj Hi Hy Hc)).
    - destruct (ni_owner _ _ HI _ _ Hj Hy). unfold PMP_SYNC_UNLOCKED in Hc. lia. }
  split; cbn [nsync nest users].
  - rewrite length_insert. apply HI.
  - intros j y Hj. destruct (Hin _ _ Hj) as [[-> ->]|[_ Hj']]; [done|by apply (ni_pc n s)].
  - intros j y Hj Hy. destruct (Hin _ _ Hj) as [[-> ->]|[Hne Hj']]; [rewrite Hy in Ho; tauto|].
    destruct (owns x') eqn:Hx'; [destruct Ho as (_ & _ & Hc); by rewrite (Hno _ _ Hne Hj' Hc) in Hy|].
    destruct Ho as [[Hc _]|(_ & -> & ->)]; [by rewrite (Hno _ _ Hne Hj' (or_introl Hc)) in Hy|]. by apply (ni_owner n s HI j y).
  - destruct (owns x') eqn:Hx'.
    + right. exists i, x'. by rewrite list_lookup_insert_eq.
    + destruct Ho as [(_ & -> & ->)|(Hox & -> & ->)]; [by left|]. destruct (ni_free _ _ HI) as [|(j & y & Hj & Hy)]; [by left|right].
      exists j, y. rewrite list_lookup_insert_ne; [done|]. intros <-. congruence.
Qed.

Definition good_nest (n : nat) (s : nest_state) (i : nat) (op : nest_op) : Prop :=
  yields (nest_step s i op) (fun o => match o with None => True | Some s' => nest_inv n s' end).

Ltac nest_is Hi Hpc :=
  unfold good_nest, nest_step; rewrite Hi; cbn [of_option]; rewrite obind_ok, Hpc; cbv zeta;
  unfold nest_lock_step, nest_trylock_step, nest_count_step, nest_unlock_step; rewrite ?Hpc; unfold __pmp_atomic_cmpxchg32.

(** The thread moves without touching the lock. *)
Lemma nest_moves n s i x p a :
  nest_inv n s -> users s !! i = Some x -> nest_pc_ok i (mkNT p (depth x) a) -> owns (mkNT p (depth x) a) = owns x ->
  nest_inv n (mkNS (nsync s) (nest s) (<[i := mkNT p (depth x) a]> (users s))).
Proof.
  intros HI Hi Hp Ho. apply (nest_put n s i x); [done..|]. rewrite Ho. destruct (owns x) eqn:Hx; [|by right].
  destruct (ni_owner _ _ HI _ _ Hi Hx). split; [done|]. split; [done|by left].
Qed.

Lemma good_nest_idle n s i x op : nest_inv n s -> users s !! i = Some x -> nest_at x = N_idle -> good_nest n s i op.
Proof.
  intros HI Hi Hpc. destruct (ni_pc _ _ HI _ _ Hi) as [Hd _]. nest_is Hi Hpc.
  assert (owns x = (0 <? depth x)) as Ho by (unfold owns; rewrite Hpc; by rewrite orb_false_r).
  destruct op.
  - destruct (Z.ltb_spec (depth x) (2 ^ 31 - 1)); [|done]. apply nest_moves; [done|done|split; [done|cbn; lia]|].
    rewrite Ho. unfold owns. cbn [nest_at depth]. by rewrite orb_false_r.
  - destruct (Z.ltb_spec (depth x) (2 ^ 31 - 1)); [|done]. apply nest_moves; [done|done|split; [done|cbn; lia]|].
    rewrite Ho. unfold owns. cbn [nest_at depth]. by rewrite orb_false_r.
  - destruct (Z.ltb_spec 0 (depth x)); [|done]. apply nest_moves; [done|done|split; [done|cbn; lia]|].
    rewrite Ho. unfold owns. cbn [nest_at depth]. rewrite orb_false_r. by apply Z.ltb_lt.
Qed.

(** The compare-and-swaps by which a thread takes the lock. *)
Lemma nest_taken n s i x ret :
  nest_inv n s -> users s !! i = Some x -> depth x < 2 ^ 31 - 1 -> nsync s = PMP_SYNC_UNLOCKED \/ nsync s = Z.of_nat i ->
  nest_inv n (mkNS (if nsync s =? PMP_SYNC_UNLOCKED then Z.of_nat i else nsync s) (nest s)
                (<[i := mkNT (N_count ret (nsync s)) (depth x) (answer x)]> (users s))).
Proof.
  intros HI Hi Hd Hs. destruct (ni_pc _ _ HI _ _ Hi) as [Hr _]. apply (nest_put n s i x); [done..| |].
  - split; [done|]. cbn [nest_at depth]. split; [done|]. destruct Hs as [Hu|]; [left|by right]. by apply (free_owner n s i x HI Hi Hu).
  - assert (owns (mkNT (N_count ret (nsync s)) (depth x) (answer x)) = true) as -> by (unfold owns; cbn [nest_at depth]; apply orb_true_r).
    cbn [depth]. destruct Hs as [Hu|Hs].
    + rewrite (proj2 (Z.eqb_eq _ _) Hu). destruct (free_owner n s i x HI Hi Hu) as [-> ->]. split; [done|]. split; [done|by right].
    + pose proof (owner_sync n s i x HI Hi Hs) as Ho. destruct (ni_owner _ _ HI _ _ Hi Ho). rewrite (proj2 (Z.eqb_neq _ _)) by (unfold PMP_SYNC_UNLOCKED; lia).
      split; [done|]. split; [done|by left].
Qed.

Lemma owns_down x p a : owns x = (0 <? depth x) -> match p with N_count _ _ | N_load _ | N_store _ _ | N_check | N_free => False | _ => True end ->
  owns (mkNT p (depth x) a) = owns x.
Proof. intros -> Hp. unfold owns. cbn [nest_at depth]. by destruct p; rewrite ?orb_false_r. Qed.

Lemma owns_at x : match nest_at x with N_count _ _ | N_load _ | N_store _ _ | N_check | N_free => owns x = true | _ => owns x = (0 <? depth x) end.
Proof. unfold owns. destruct (nest_at x); rewrite ?orb_false_r, ?orb_true_r; done. Qed.

Lemma good_nest_lock n s i x op :
  nest_inv n s -> users s !! i = Some x -> nest_at x = N_set \/ nest_at x = N_read \/ nest_at x = N_swap -> good_nest n s i op.
Proof.
  intros HI Hi Hat. destruct (ni_pc _ _ HI _ _ Hi) as [Hd Hp]. pose proof (owns_at x) as Ho. pose proof (owns_sync n s i x HI Hi) as Hos.
  assert (forall p, match p with N_read | N_swap => depth x = 0 | _ => False end -> owns x = (0 <? depth x) ->
    nest_inv n (mkNS (nsync s) (nest s) (<[i := mkNT p (depth x) (answer x)]> (users s)))) as Hmove.
  { intros p Hd0 Ho'. apply nest_moves; [done|done| |].
    - split; [done|]. by destruct p.
    - apply owns_down; [done|]. by destruct p. }
  destruct Hat as [Hpc|[Hpc|Hpc]]; rewrite Hpc in Hp, Ho; nest_is Hi Hpc.
  - rewrite !obind_ok. apply yields_ok. destruct ((nsync s =? Z.of_nat i) || (nsync s =? PMP_SYNC_UNLOCKED)) eqn:E.
    + apply (nest_taken n s i x false HI Hi Hp). apply orb_true_iff in E as [E|E]; apply Z.eqb_eq in E; [by right|by left].
    + apply orb_false_iff in E as [E1 E2]. unfold moved, with_sync. cbn [nsync nest users]. rewrite E2. apply Hmove; [|done].
      rewrite Hos, E1 in Ho. symmetry in Ho. apply Z.ltb_ge in Ho. lia.
  - assert (owns x = false) as Hx by (rewrite Ho, Hp; done). rewrite Hx in Hos. rewrite <- Hos. cbn [negb assert_]. rewrite !obind_ok.
    apply yields_ok. apply Hmove; [by destruct (nsync s =? PMP_SYNC_UNLOCKED)|done].
  - assert (owns x = false) as Hx by (rewrite Ho, Hp; done). rewrite Hx in Hos. rewrite <- Hos. cbn [negb assert_]. rewrite !obind_ok.
    apply yields_ok. destruct (Z.eqb_spec (nsync s) PMP_SYNC_UNLOCKED) as [E|E].
    + pose proof (nest_taken n s i x false HI Hi ltac:(rewrite Hp; lia) (or_introl E)) as H. by rewrite (proj2 (Z.eqb_eq _ _) E) in H.
    + by apply Hmove.
Qed.

Lemma good_nest_try n s i x op : nest_inv n s -> users s !! i = Some x -> nest_at x = N_try -> good_nest n s i op.
Proof.
  intros HI Hi Hpc. destruct (ni_pc _ _ HI _ _ Hi) as [Hd Hp]. pose proof (owns_at x) as Ho. rewrite Hpc in Hp, Ho.
  nest_is Hi Hpc. rewrite !obind_ok. apply yields_ok. destruct ((nsync s =? PMP_SYNC_UNLOCKED) || (nsync s =? Z.of_nat i)) eqn:E.
  - apply (nest_taken n s i x true HI Hi Hp). apply orb_true_iff in E as [E|E]; apply Z.eqb_eq in E; [by left|by right].
  - apply orb_false_iff in E as [E1 E2]. unfold moved, with_sync. cbn [nsync nest users depth answer]. rewrite E1. apply nest_moves; [done..|].
    by apply owns_down.
Qed.

Lemma nest_swrap v : 0 <= v < 2 ^ 31 -> swrap 32 v = v.
Proof. intros H. apply swrap_id; [lia|]. unfold in_s. change (2 ^ (32 - 1)) with (2 ^ 31). lia. Qed.

(** A step of the owner, to [x']. *)
Lemma nest_owner n s i x x' k :
  nest_inv n s -> users s !! i = Some x -> owns x = true -> nest_pc_ok i x' -> owns x' = true -> k = depth x' ->
  nest_inv n (mkNS (nsync s) k (<[i := x']> (users s))).
Proof.
  intros HI Hi Ho Hx' Ho' ->. apply (nest_put n s i x); [done..|]. rewrite Ho'. destruct (ni_owner _ _ HI _ _ Hi Ho).
  split; [done|]. split; [done|by left].
Qed.

Lemma good_nest_count n s i x op :
  nest_inv n s -> users s !! i = Some x ->
  match nest_at x with N_count _ _ | N_load _ | N_store _ _ | N_result => True | _ => False end -> good_nest n s i op.
Proof.
  intros HI Hi Hat. destruct (ni_pc _ _ HI _ _ Hi) as [Hd Hp]. pose proof (owns_at x) as Ho.
  destruct (nest_at x) as [| | | | |ret sync|ret|ret v| | | | | | |] eqn:Hpc; try done; nest_is Hi Hpc.
  - destruct (ni_owner _ _ HI _ _ Hi Ho) as [_ Hn]. destruct Hp as [Hb Hp]. rewrite obind_ok || idtac.
    assert ((nest s =? 0) || (sync =? Z.of_nat i) = true) as ->.
    { apply orb_true_iff. rewrite !Z.eqb_eq. destruct Hp; [left; lia|by right]. }
    cbn [assert_]. rewrite !obind_ok. apply yields_ok. apply (nest_owner n s i x); try done. by apply orb_true_r.
  - destruct (ni_owner _ _ HI _ _ Hi Ho) as [_ Hn]. rewrite obind_ok. apply yields_ok. apply (nest_owner n s i x); [done|done|done|split; [done|by split]|by apply orb_true_r|done].
  - destruct (ni_owner _ _ HI _ _ Hi Ho) as [_ Hn]. destruct Hp as [-> Hb]. rewrite obind_ok. apply yields_ok. unfold moved, with_nest. cbn [nsync nest users depth answer].
    rewrite nest_swrap by lia. apply (nest_owner n s i x); try done.
    + split; [cbn; lia|]. cbn [nest_at depth]. destruct ret; [lia|done].
    + unfold owns. cbn [depth]. rewrite (proj2 (Z.ltb_lt _ _)) by lia. done.
  - assert (owns x = true) as Hx by (rewrite Ho; by apply Z.ltb_lt). destruct (ni_owner _ _ HI _ _ Hi Hx) as [_ Hn].
    rewrite obind_ok. apply yields_ok. unfold moved. cbn [nsync nest users depth answer]. apply nest_moves; [done..|]. by apply owns_down.
Qed.

Lemma good_nest_unlock n s i x op :
  nest_inv n s -> users s !! i = Some x ->
  match nest_at x with N_unset | N_owner | N_down_load | N_down_store _ | N_check | N_free => True | _ => False end -> good_nest n s i op.
Proof.
  intros HI Hi Hat. destruct (ni_pc _ _ HI _ _ Hi) as [Hd Hp]. pose proof (owns_at x) as Ho.
  assert (owns x = true) as Hx.
  { destruct (nest_at x); try done; rewrite Ho; apply Z.ltb_lt; lia. }
  destruct (ni_owner _ _ HI _ _ Hi Hx) as [Hs Hn].
  destruct (nest_at x) as [| | | | |ret sync|ret|ret v| | | | |v| |] eqn:Hpc; try done; nest_is Hi Hpc.
  - rewrite Hn, (proj2 (Z.ltb_lt _ _)) by done. cbn [assert_]. rewrite !obind_ok. apply yields_ok. apply nest_moves; [done..|]. by apply owns_down.
  - rewrite Hs, Z.eqb_refl. cbn [assert_]. rewrite !obind_ok. apply yields_ok. apply nest_moves; [done..|]. by apply owns_down.
  - rewrite !obind_ok. apply yields_ok. apply nest_moves; [done|done|split; [done|by split]|]. by apply owns_down.
  - destruct Hp as [-> Hp]. rewrite !obind_ok. apply yields_ok. unfold moved, with_nest. cbn [nsync nest users depth answer].
    rewrite nest_swrap by lia. apply (nest_owner n s i x); [done|done|done|split; [cbn; lia|done]|by apply orb_true_r|done].
  - rewrite !obind_ok. apply yields_ok. rewrite Hn. destruct (Z.eqb_spec (depth x) 0) as [E|E].
    + apply nest_moves; [done|done|by split|]. rewrite Hx. by apply orb_true_r.
    + apply nest_moves; [done|done|by split|]. rewrite Hx. unfold owns. cbn [depth]. by rewrite (proj2 (Z.ltb_lt _ _)) by lia.
  - rewrite Hs, Z.eqb_refl. cbn [assert_]. rewrite !obind_ok. apply yields_ok. unfold moved, with_sync. cbn [nsync nest users depth answer].
    apply (nest_put n s i x); [done|done|by split|].
    assert (owns (mkNT N_idle (depth x) (answer x)) = false) as -> by (unfold owns; cbn [nest_at depth]; by rewrite Hp).
    left. split; [done|]. split; [done|lia].
Qed.

Lemma nest_steps n s i x op : nest_inv n s -> users s !! i = Some x -> good_nest n s i op.
Proof.
  intros HI Hi. destruct (nest_at x) eqn:Hpc;
    [by eapply good_nest_idle| | | |by eapply good_nest_try|..];
    [eapply good_nest_lock; eauto..| | | | | | | | | |];
    first [by eapply good_nest_count; [..|by rewrite Hpc] | by eapply good_nest_unlock; [..|by rewrite Hpc]].
Qed.

Lemma nest_start_inv n : nest_inv n (nest_start n).
Proof.
  split; cbn [nsync nest users nest_start].
  - by rewrite length_replicate.
  - intros i x Hx. apply lookup_replicate in Hx as [-> _]. split; [cbn; lia|done].
  - intros i x Hx. by apply lookup_replicate in Hx as [-> _].
  - by left.
Qed.

Lemma nest_reach n s : rtc nstep (nest_start n) s -> nest_inv n s.
Proof.
  intros Hs. pose proof (nest_start_inv n) as H0. induction Hs as [|s1 s2 s3 (i & op & H12) _ IH]; [done|]. apply IH.
  destruct (users s1 !! i) as [x|] eqn:Hi; [|unfold nest_step in H12; by rewrite Hi in H12].
  pose proof (nest_steps _ _ _ _ op H0 Hi) as Hg. unfold good_nest in Hg. by rewrite H12 in Hg.
Qed.

(** C14. Nested locks exclude each other and count.  In every state that threads reach
    by setting, testing and unsetting the lock in any interleaving: no assertion of
    [lock.h] fails; at most one thread has set the lock; while a thread has set it,
    [lock->sync] is its id, and between two of its calls [lock->nest] is how often it has set the
    lock; otherwise the lock is free and [lock->nest] is 0 as soon as no call of
    [__pmp_nest_lock] or [__pmp_nest_unlock] is under way; and a test that has got the lock
    returns how often the thread has set it then. *)
Theorem omp_nest_lock_excludes (n : nat) (s : nest_state) :
  rtc nstep (nest_start n) s ->
  (forall i op, (i < n)%nat -> yields (nest_step s i op) (fun _ => True)) /\
  (forall i j x y, users s !! i = Some x -> users s !! j = Some y -> 0 < depth x -> 0 < depth y -> i = j) /\
  (forall i x, users s !! i = Some x -> 0 < depth x -> nsync s = Z.of_nat i /\ nest s = depth x) /\
  ((forall i x, users s !! i = Some x -> nest_at x = N_idle /\ depth x = 0) -> nsync s = PMP_SYNC_UNLOCKED /\ nest s = 0) /\
  (forall i x op, users s !! i = Some x -> nest_at x = N_result ->
     yields (nest_step s i op) (fun o => exists s', o = Some s' /\ users s' !! i = Some (mkNT N_idle (depth x) (depth x)))).
Proof.
  intros Hs. pose proof (nest_reach n s Hs) as HI.
  assert (forall x, 0 < depth x -> owns x = true) as Ho.
  { intros x Hd. unfold owns. by rewrite (proj2 (Z.ltb_lt _ _)) by done. }
  split_and!.
  - intros i op Hi. rewrite <- (ni_length _ _ HI) in Hi. destruct (lookup_lt_is_Some_2 _ _ Hi) as [x Hx].
    by apply (yields_mono _ _ _ (nest_steps n s i x op HI Hx)).
  - intros i j x y Hi Hj Hx Hy. apply (one_owner n s i j x y); auto.
  - intros i x Hi Hx. apply (ni_owner n s HI i x); auto.
  - intros Hall. destruct (ni_free _ _ HI) as [|(i & x & Hi & Hx)]; [done|]. destruct (Hall _ _ Hi) as [Hp Hd].
    unfold owns in Hx. by rewrite Hp, Hd in Hx.
  - intros i x op Hi Hpc. destruct (ni_pc _ _ HI _ _ Hi) as [_ Hp]. rewrite Hpc in Hp.
    destruct (ni_owner _ _ HI _ _ Hi (Ho _ Hp)) as [_ Hn]. nest_is Hi Hpc. rewrite obind_ok. apply yields_ok.
    eexists. split; [done|]. unfold moved. cbn [users depth answer]. rewrite list_lookup_insert_eq by (by eapply lookup_lt_Some). by rewrite Hn.
Qed.

(** ** Example *)
Fixpoint nest_run (schedule : list (nat * nest_op)) (s : nest_state) : outcome nest_state :=
  match schedule with
  | [] => Ok s
  | (i, op) :: rest => let* o := nest_step s i op in nest_run rest (default s o)
  end.

Lemma nest_run_reach schedule s s' : nest_run schedule s = Ok s' -> rtc nstep s s'.
Proof.
  revert s. induction schedule as [|[i op] rest IH]; cbn [nest_run]; intros s Hs; [by simplify_eq|].
  apply obind_inv in Hs as (o & Ho & Hs). destruct o as [s1|]; [|by apply IH].
  eapply rtc_l; [|by apply IH]. by exists i, op.
Qed.

(** Thread 1 sets the lock and tests it; thread 0 waits. *)
Definition demo_nest : nest_state := mkNS 1 2 [mkNT N_read 0 0; mkNT N_result 2 0].

Lemma omp_nest_lock_excludes_witness :
  nest_at (mkNT N_result 2 0) = N_result /\
  yields (nest_step demo_nest 1 Set_nest) (fun o => exists s', o = Some s' /\ users s' !! 1%nat = Some (mkNT N_idle 2 2)).
Proof.
  split; [reflexivity|].
  assert (Hr : rtc nstep (nest_start 2) demo_nest).
  { apply (nest_run_reach (replicate 5 (1%nat, Set_nest) ++ replicate 5 (1%nat, Test_nest) ++ replicate 2 (0%nat, Set_nest))). vm_compute. reflexivity. }
  destruct (omp_nest_lock_excludes 2 demo_nest Hr) as (_ & _ & _ & _ & H). exact (H 1%nat (mkNT N_result 2 0) Set_nest eq_refl eq_refl).
Defined.
