(* ===== verification/OmpAcquire.v ===== *)
(** Reserving threads for teams: [__pmp_thread_acquire] and the end of
    [__pmp_thread_release] of [libopenmp/thread.c], and
    [__pmp_manager_create_more_threads] of [manager.c].

    Masters, for instance of nested regions, reserve threads from the counter
    [waiting_threads] and create more when it is too low, each at its own pace; a step
    is one access to [waiting_threads] or [allocated_threads]. *)
From Stdlib Require Import ZArith Lia Bool.
From stdpp Require Import prelude list relations.
From S2P Require Import Prelude.

Definition PMP_MAX_THREADS : Z := 256.

(** Where a master is.  [A_loop]: before the loop's decrement of [waiting_threads], with
    [nthreads] and [count]; [A_back]: before it adds back [required]; [A_more]: in
    [__pmp_manager_create_more_threads], which has created [k] of [required] threads; [A_new]: it
    creates one; [A_undo]: it takes back the increment of [allocated_threads]; [A_got]: at
    the assertion of [__pmp_team_alloc]; [A_team]: in the region, with a team of [count].
    [nthreads] is the argument of the call, also where the code no longer reads it. *)
Inductive acquire_pc : Type :=
| A_idle | A_loop (nthreads count : Z) | A_back (nthreads count required : Z)
| A_more (nthreads count required k : Z) | A_new (nthreads count required k : Z) | A_undo (nthreads count k : Z)
| A_got (nthreads count : Z) | A_team (nthreads count : Z).

(** [created]: the ids for which [__pmp_thread_create] was called, the last one first. *)
Record acquire_state : Type := mkAS {
  waiting_threads : Z; allocated_threads : Z; created : list Z; masters : list acquire_pc
}.

(** [__pmp_atomic_xadd32]: the old value, and the cell after it. *)
Definition __pmp_atomic_xadd32 (v d : Z) : Z * Z := (v, swrap 32 (v + d)).

Definition at_pc (s : acquire_state) (i : nat) (p : acquire_pc) : acquire_state :=
  mkAS (waiting_threads s) (allocated_threads s) (created s) (<[i := p]> (masters s)).
Definition set_waiting (s : acquire_state) (v : Z) : acquire_state :=
  mkAS v (allocated_threads s) (created s) (masters s).
Definition set_allocated (s : acquire_state) (v : Z) : acquire_state :=
  mkAS (waiting_threads s) v (created s) (masters s).

(** [__pmp_manager_create_more_threads] returns [k]. *)
Definition more_returns (nthreads count k : Z) : acquire_pc :=
  if k =? 0 then A_got nthreads count else A_loop nthreads count.

(** A step of master [i], which calls [__pmp_thread_acquire nthreads] when it is idle. *)
Definition acquire_step (s : acquire_state) (i : nat) (nthreads : Z) : outcome acquire_state :=
  let* p := of_option Bounds (masters s !! i) in
  match p with
  | A_idle => Ok (at_pc s i (A_loop nthreads 1))
  | A_loop n count =>
      if count <? n then
        let required := n - count in
        let (waiting, w) := __pmp_atomic_xadd32 (waiting_threads s) (- required) in
        let s := set_waiting s w in
        Ok (at_pc s i (if required <=? waiting then A_got n (count + required)
                       else A_back n (count + waiting) (required - waiting)))
      else Ok (at_pc s i (A_got n count))
  | A_back n count required =>
      Ok (at_pc (set_waiting s (snd (__pmp_atomic_xadd32 (waiting_threads s) required))) i (A_more n count required 0))
  | A_more n count required k =>
      if k <? required then
        let (global_id, a) := __pmp_atomic_xadd32 (allocated_threads s) 1 in
        assert* negb (global_id =? 0) in
        let s := set_allocated s a in
        Ok (if PMP_MAX_THREADS <=? global_id then at_pc s i (A_undo n count k)
            else at_pc (mkAS (waiting_threads s) (allocated_threads s) (global_id :: created s) (masters s)) i (A_new n count required k))
      else Ok (at_pc s i (more_returns n count k))
  | A_new n count required k =>
      Ok (at_pc (set_waiting s (snd (__pmp_atomic_xadd32 (waiting_threads s) 1))) i (A_more n count required (k + 1)))
  | A_undo n count k =>
      Ok (at_pc (set_allocated s (snd (__pmp_atomic_xadd32 (allocated_threads s) (-1)))) i (more_returns n count k))
  | A_got n count => assert* 0 <? count in Ok (at_pc s i (A_team n count))
  | A_team _ count => Ok (at_pc (set_waiting s (snd (__pmp_atomic_xadd32 (waiting_threads s) (count - 1)))) i A_idle)
  end.

(** The main thread exists, and has allocated id 0. *)
Definition acquire_start (n : nat) : acquire_state := mkAS 0 1 [] (replicate n A_idle).

(** Masters ask for teams of 1 to [PMP_MAX_THREADS] threads. *)
Definition astep (s s' : acquire_state) : Prop :=
  exists i nthreads, 1 <= nthreads <= PMP_MAX_THREADS /\ acquire_step s i nthreads = Ok s'.

(** ** The invariant *)

(** The threads that a master has taken from [waiting_threads]. *)
Definition taken (p : acquire_pc) : Z :=
  match p with
  | A_idle => 0
  | A_loop _ c | A_more _ c _ _ | A_new _ c _ _ | A_undo _ c _ | A_got _ c | A_team _ c => c - 1
  | A_back _ c r => c - 1 + r
  end.
(** The team size that a master asked for in its current call, and after its next step. *)
Definition requested (p : acquire_pc) : option Z :=
  match p with
  | A_idle => None
  | A_loop n _ | A_back n _ _ | A_more n _ _ _ | A_new n _ _ _ | A_undo n _ _ | A_got n _ | A_team n _ => Some n
  end.
Definition requested_next (p : acquire_pc) (nthreads : Z) : option Z :=
  match p with A_idle => Some nthreads | A_team _ _ => None | _ => requested p end.

Definition creating (p : acquire_pc) : Z := match p with A_new _ _ _ _ => 1 | _ => 0 end.
Definition undoing (p : acquire_pc) : Z := match p with A_undo _ _ _ => 1 | _ => 0 end.

Definition acquire_pc_ok (debt : Z) (p : acquire_pc) : Prop :=
  match p with
  | A_idle => True
  | A_loop n c => - debt <= c - 1 /\ c <= n /\ 1 <= n <= 256
  | A_back n c r => - debt <= c - 1 /\ c + r = n /\ 0 < r /\ 1 <= n <= 256
  | A_more n c r k => - debt <= c - 1 /\ c <= n /\ 1 <= n <= 256 /\ 0 < r /\ 0 <= k <= r
  | A_new n c r k => - debt <= c - 1 /\ c <= n /\ 1 <= n <= 256 /\ 0 <= k < r
  | A_undo n c k => - debt <= c - 1 /\ c <= n /\ 1 <= n <= 256 /\ 0 <= k
  | A_got n c => - debt <= c - 1 /\ c <= n /\ 1 <= n <= 256
  | A_team n c => 1 <= c <= n /\ n <= 256
  end.

Section Acquire.
Context (N : nat).

(** The least that a master can have taken. *)
Definition debt : Z := 256 * Z.of_nat N.

Record acquire_inv (s : acquire_state) : Prop := {
  ai_length : length (masters s) = N;
  ai_pc : forall i p, masters s !! i = Some p -> acquire_pc_ok debt p;
  ai_waiting : waiting_threads s + total taken (masters s) + total creating (masters s) = Z.of_nat (length (created s));
  ai_created : created s = rev (seqZ 1 (Z.of_nat (length (created s)))) /\ Z.of_nat (length (created s)) < PMP_MAX_THREADS;
  ai_allocated : allocated_threads s = 1 + Z.of_nat (length (created s)) + total undoing (masters s);
  ai_full : 0 < total undoing (masters s) -> Z.of_nat (length (created s)) = PMP_MAX_THREADS - 1
}.

Context (HN : Z.of_nat N <= PMP_MAX_THREADS).

Lemma creating_range p : 0 <= creating p <= 1.
Proof. destruct p; cbn; lia. Qed.
Lemma undoing_range p : 0 <= undoing p <= 1.
Proof. destruct p; cbn; lia. Qed.
Lemma taken_range p : acquire_pc_ok debt p -> - debt <= taken p <= 255.
Proof. unfold debt. destruct p; cbn; lia. Qed.

(** No master has taken more threads than it asked for, itself not counted. *)
Lemma taken_requested p n : acquire_pc_ok debt p -> requested p = Some n -> taken p <= n - 1 /\ 1 <= n <= PMP_MAX_THREADS.
Proof. unfold debt, PMP_MAX_THREADS. destruct p; cbn; intros H [= ->]; lia. Qed.

Lemma total_bounds (f : acquire_pc -> Z) ths lo hi :
  (forall i p, ths !! i = Some p -> lo <= f p <= hi) ->
  lo * Z.of_nat (length ths) <= total f ths <= hi * Z.of_nat (length ths).
Proof.
  induction ths as [|p ps IH]; intros H; [cbn; lia|]. pose proof (H 0%nat p eq_refl). specialize (IH (fun i => H (S i))).
  change (total f (p :: ps)) with (f p + total f ps). cbn [length]. lia.
Qed.

Lemma acquire_bounds s :
  acquire_inv s ->
  - (255 * Z.of_nat N) - Z.of_nat N <= waiting_threads s <= 255 + debt * Z.of_nat N /\
  0 <= total undoing (masters s) <= Z.of_nat N /\ 1 <= allocated_threads s <= 256 + Z.of_nat N.
Proof.
  intros HI. pose proof (ai_length _ HI) as HL. destruct (ai_created _ HI) as [_ Hc]. unfold PMP_MAX_THREADS in Hc.
  pose proof (total_bounds taken (masters s) (- debt) 255 (fun i p Hi => taken_range p (ai_pc _ HI _ _ Hi))) as Ht.
  pose proof (total_bounds creating (masters s) 0 1 (fun i p _ => creating_range p)) as Hcr.
  pose proof (total_bounds undoing (masters s) 0 1 (fun i p _ => undoing_range p)) as Hun. rewrite HL in Ht, Hcr, Hun.
  pose proof (ai_waiting _ HI). pose proof (ai_allocated _ HI). lia.
Qed.

Lemma small_swrap v : - 2 ^ 30 <= v <= 2 ^ 30 -> swrap 32 v = v.
Proof. intros H. apply swrap_id; [lia|]. unfold in_s. change (2 ^ (32 - 1)) with 2147483648. change (2 ^ 30) with 1073741824 in H. lia. Qed.

(** A step of master [i], from [p] to [p']. *)
Lemma acquire_put s i p p' w a cr :
  acquire_inv s -> masters s !! i = Some p -> acquire_pc_ok debt p' ->
  cr = created s \/ total undoing (masters s) = 0 /\ cr = allocated_threads s :: created s /\ allocated_threads s < PMP_MAX_THREADS ->
  w = waiting_threads s + taken p - taken p' + creating p - creating p' + (Z.of_nat (length cr) - Z.of_nat (length (created s))) ->
  a = allocated_threads s + undoing p' - undoing p + (Z.of_nat (length cr) - Z.of_nat (length (created s))) ->
  (0 < undoing p' -> undoing p = 0 -> Z.of_nat (length (created s)) = PMP_MAX_THREADS - 1 /\ cr = created s) ->
  (undoing p' = 0 \/ cr = created s) ->
  acquire_inv (mkAS w a cr (<[i := p']> (masters s))).
Proof.
  intros HI Hi Hp Hcr Hw Ha Hf Hu. pose proof (undoing_range p). pose proof (undoing_range p').
  pose proof (ai_waiting _ HI). pose proof (ai_allocated _ HI) as Hal. pose proof (ai_full _ HI) as Hfull.
  pose proof (total_bounds undoing (masters s) 0 1 (fun i p _ => undoing_range p)) as Hun.
  split; cbn [waiting_threads allocated_threads created masters].
  - rewrite length_insert. apply HI.
  - intros j q Hj. destruct (decide (j = i)) as [->|Hne].
    + rewrite list_lookup_insert_eq in Hj by (by eapply lookup_lt_Some). by injection Hj as <-.
    + rewrite list_lookup_insert_ne in Hj by done. by apply (ai_pc _ HI j).
  - rewrite !(total_insert _ _ _ _ _ Hi). lia.
  - destruct Hcr as [->|(Hz & -> & Hlt)]; [apply HI|]. destruct (ai_created _ HI) as [Hc Hlen]. cbn [length]. split; [|lia]. 
    rewrite Nat2Z.inj_succ, <- Z.add_1_r, seqZ_app, rev_app_distr, <- Hc by lia.
    replace (allocated_threads s) with (1 + Z.of_nat (length (created s))) by lia. done.
  - rewrite (total_insert _ _ _ _ _ Hi). lia.
  - rewrite (total_insert _ _ _ _ _ Hi). destruct Hcr as [->|(Hz & -> & Hlt)]; [lia|].
    destruct Hu as [Hu|Hu]; [|apply (f_equal length) in Hu; cbn in Hu; lia]. lia.
Qed.

(** The step of a master returns, but for the assertion that it has got a thread. *)
Definition good_acquire (s : acquire_state) (i : nat) (nthreads : Z) (p : acquire_pc) : Prop :=
  match acquire_step s i nthreads with
  | Ok s' => acquire_inv s' /\ requested <$> masters s' !! i = Some (requested_next p nthreads)
  | Err f => f = Assertion /\ exists n c, p = A_got n c /\ c <= 0
  end.

Lemma acquire_xadd s i p d :
  acquire_inv s -> masters s !! i = Some p -> - 512 - debt <= d <= 512 + debt ->
  __pmp_atomic_xadd32 (waiting_threads s) d = (waiting_threads s, waiting_threads s + d).
Proof.
  intros HI Hi Hd. destruct (acquire_bounds _ HI) as (Hb & _ & _). unfold __pmp_atomic_xadd32, debt, PMP_MAX_THREADS in *.
  assert (256 * Z.of_nat N * Z.of_nat N <= 256 * 256 * 256) by nia. rewrite small_swrap by (change (2 ^ 30) with 1073741824; lia). done.
Qed.

Lemma allocated_xadd s d :
  acquire_inv s -> -1 <= d <= 1 -> __pmp_atomic_xadd32 (allocated_threads s) d = (allocated_threads s, allocated_threads s + d).
Proof.
  intros HI Hd. destruct (acquire_bounds _ HI) as (_ & _ & Hb). unfold __pmp_atomic_xadd32, PMP_MAX_THREADS in *.
  rewrite small_swrap by (change (2 ^ 30) with 1073741824; lia). done.
Qed.

Ltac acquire_from s i p :=
  unfold at_pc, set_waiting, set_allocated; cbn [fst snd waiting_threads allocated_threads created masters];
  split;
  [ apply (acquire_put s i p); cbn [acquire_pc_ok taken creating undoing length]; try done; try lia; try (by left)
  | by rewrite list_lookup_insert_eq by (by eapply lookup_lt_Some) ].

Lemma acquire_steps s i p nthreads :
  acquire_inv s -> masters s !! i = Some p -> 1 <= nthreads <= PMP_MAX_THREADS -> good_acquire s i nthreads p.
Proof.
  intros HI Hi Hn. unfold good_acquire, acquire_step. rewrite Hi. cbn [of_option]. rewrite obind_ok. unfold PMP_MAX_THREADS in Hn.
  pose proof (ai_pc _ HI _ _ Hi) as Hp. pose proof (acquire_bounds _ HI) as (Hb & Hu & Hal).
  assert (0 <= debt) by (unfold debt; lia).
  destruct p as [|n c|n c r|n c r k|n c r k|n c k|n c|n c]; cbn [acquire_pc_ok] in Hp; cbn [at_pc set_waiting set_allocated waiting_threads allocated_threads created masters].
  - acquire_from s i A_idle.
  - destruct (Z.ltb_spec c n).
    + rewrite (acquire_xadd s i _ (- (n - c)) HI Hi) by lia. cbn [fst snd]. 
      assert (- debt <= c + waiting_threads s - 1) as Hlow.
      { pose proof (ai_waiting _ HI) as HW. pose proof (total_bounds creating (masters s) 0 1 (fun i p _ => creating_range p)) as Hcr. rewrite (ai_length _ HI) in Hcr.
        assert (total taken (masters s) - (c - 1) <= 255 * Z.of_nat N) as Ho; [|unfold debt; lia].
        pose proof (total_insert taken _ _ _ A_idle Hi) as Hins. cbn [taken] in Hins.
        pose proof (total_bounds taken (<[i := A_idle]> (masters s)) (- debt) 255) as Hob. rewrite length_insert, (ai_length _ HI) in Hob.
        enough (total taken (<[i := A_idle]> (masters s)) <= 255 * Z.of_nat N) by lia. apply Hob.
        intros j q Hj. destruct (decide (j = i)) as [->|Hne].
        - rewrite list_lookup_insert_eq in Hj by (by eapply lookup_lt_Some). injection Hj as <-. cbn. lia.
        - rewrite list_lookup_insert_ne in Hj by done. apply taken_range. by apply (ai_pc _ HI j). }
      destruct (Z.leb_spec (n - c) (waiting_threads s)); acquire_from s i (A_loop n c).
    + acquire_from s i (A_loop n c).
  - rewrite (acquire_xadd s i _ r HI Hi) by lia. acquire_from s i (A_back n c r).
  - destruct (Z.ltb_spec k r).
    + rewrite allocated_xadd by (done || lia). cbn [fst snd]. rewrite (proj2 (Z.eqb_neq _ _)) by lia. cbn [negb assert_]. rewrite obind_ok.
      unfold PMP_MAX_THREADS. destruct (Z.leb_spec 256 (allocated_threads s)).
      * acquire_from s i (A_more n c r k); [|by right].
        intros _ _. split; [|done]. pose proof (ai_allocated _ HI). pose proof (ai_full _ HI). pose proof (proj2 (ai_created _ HI)). unfold PMP_MAX_THREADS in *. lia.
      * acquire_from s i (A_more n c r k).
        right. unfold PMP_MAX_THREADS. split; [|done]. pose proof (ai_allocated _ HI). pose proof (ai_full _ HI). unfold PMP_MAX_THREADS in *. lia.
    + unfold more_returns. destruct (Z.eqb_spec k 0); acquire_from s i (A_more n c r k).
  - rewrite (acquire_xadd s i _ 1 HI Hi) by lia. acquire_from s i (A_new n c r k).
  - rewrite allocated_xadd by (done || lia). unfold more_returns. destruct (Z.eqb_spec k 0); acquire_from s i (A_undo n c k).
  - destruct (Z.ltb_spec 0 c); cbn [assert_].
    + rewrite obind_ok. acquire_from s i (A_got n c).
    + split; [done|]. by exists n, c.
  - rewrite (acquire_xadd s i _ (c - 1) HI Hi) by lia. acquire_from s i (A_team n c).
Qed.

Lemma acquire_start_inv : acquire_inv (acquire_start N).
Proof.
  assert (forall f : acquire_pc -> Z, f A_idle = 0 -> total f (replicate N A_idle) = 0) as H0.
  { intros f Hf. rewrite (total_eq _ 0); [lia|]. intros i p Hi. by apply lookup_replicate in Hi as [-> _]. }
  split; cbn [waiting_threads allocated_threads created masters acquire_start]; rewrite ?H0 by done; try done.
  - by rewrite length_replicate.
  - intros i p Hi. by apply lookup_replicate in Hi as [-> _].
Qed.

Lemma acquire_reach s : rtc astep (acquire_start N) s -> acquire_inv s.
Proof.
  intros Hs. pose proof acquire_start_inv as H0. induction Hs as [|s1 s2 s3 (i & n & Hn & H12) _ IH]; [done|]. apply IH.
  destruct (masters s1 !! i) as [p|] eqn:Hi; [|unfold acquire_step in H12; by rewrite Hi in H12].
  pose proof (acquire_steps _ _ _ n H0 Hi Hn) as Hg. unfold good_acquire in Hg. rewrite H12 in Hg. by destruct Hg.
Qed.
End Acquire.

(** C13. Reserving threads conserves them.  In every state that at most [PMP_MAX_THREADS]
    masters reach, each asking for a team of 1 to [PMP_MAX_THREADS] threads, in any
    interleaving: [waiting_threads] and what the masters have taken add up to the
    threads that exist; the created threads have the ids 1, 2, ... without gaps or repetitions
    and are fewer than [PMP_MAX_THREADS]; the counters have not wrapped around.  A master
    whose call asked for [n] threads has taken at most [n - 1], the master itself being one of
    the [n], and [n] stays the argument of that call until its team ends; the
    only step that can fail is the assertion of [__pmp_team_alloc] that the master has got a
    thread. *)
Theorem omp_acquire_conserves (N : nat) (s : acquire_state) :
  Z.of_nat N <= PMP_MAX_THREADS -> rtc astep (acquire_start N) s ->
  waiting_threads s + total taken (masters s) + total creating (masters s) = Z.of_nat (length (created s)) /\
  created s = rev (seqZ 1 (Z.of_nat (length (created s)))) /\ Z.of_nat (length (created s)) < PMP_MAX_THREADS /\
  in_s 32 (waiting_threads s) /\ in_s 32 (allocated_threads s) /\
  (forall i p n, masters s !! i = Some p -> requested p = Some n -> taken p <= n - 1 /\ 1 <= n <= PMP_MAX_THREADS) /\
  forall i p nthreads, masters s !! i = Some p -> 1 <= nthreads <= PMP_MAX_THREADS ->
    match acquire_step s i nthreads with
    | Ok s' => requested <$> masters s' !! i = Some (requested_next p nthreads)
    | Err f => f = Assertion /\ exists n count, p = A_got n count /\ count <= 0
    end.
Proof.
  intros HN Hs. pose proof (acquire_reach N HN s Hs) as HI. destruct (acquire_bounds N s HI) as (Hb & _ & Hal).
  destruct (ai_created _ _ HI). unfold in_s, debt, PMP_MAX_THREADS in *.
  assert (256 * Z.of_nat N * Z.of_nat N <= 256 * 256 * 256) by nia. change (2 ^ (32 - 1)) with 2147483648.
  split; [apply HI|]. split; [done|]. split; [done|]. split; [lia|]. split; [lia|]. split.
  - intros i p n Hi. apply (taken_requested N), (ai_pc _ _ HI i p Hi).
  - intros i p n Hi Hn. pose proof (acquire_steps N HN s i p n HI Hi Hn) as Hg. unfold good_acquire in Hg.
    destruct (acquire_step s i n); [by destruct Hg|done].
Qed.

(** ** Examples *)
Fixpoint acquire_run (schedule : list (nat * Z)) (s : acquire_state) : outcome acquire_state :=
  match schedule with
  | [] => Ok s
  | (i, n) :: rest => let* s := acquire_step s i n in acquire_run rest s
  end.

Lemma acquire_run_reach schedule s s' :
  acquire_run schedule s = Ok s' -> Forall (fun '(i, n) => 1 <= n <= PMP_MAX_THREADS) schedule -> rtc astep s s'.
Proof.
  revert s. induction schedule as [|[i n] rest IH]; cbn [acquire_run]; intros s Hs Hall; [by simplify_eq|].
  apply obind_inv in Hs as (s1 & Ho & Hs). apply Forall_cons in Hall as [Hn Hall]. eapply rtc_l; [|by apply IH]. by exists i, n.
Qed.

(** Master 0 creates a thread for its team of two. *)
Definition demo_acquire : acquire_state := mkAS 0 2 [1] [A_team 2 2; A_idle].

Lemma omp_acquire_conserves_witness :
  waiting_threads demo_acquire + total taken (masters demo_acquire) + total creating (masters demo_acquire) = 1 /\
  created demo_acquire = rev (seqZ 1 1) /\ taken (A_team 2 2) <= 1.
Proof.
  assert (Hr : rtc astep (acquire_start 2) demo_acquire).
  { apply (acquire_run_reach (replicate 8 (0%nat, 2))); [vm_compute; reflexivity|]. apply Forall_replicate. unfold PMP_MAX_THREADS. lia. }
  destruct (omp_acquire_conserves 2 demo_acquire ltac:(unfold PMP_MAX_THREADS; lia) Hr) as (H1 & H2 & _ & _ & _ & H3 & _).
  split; [exact H1|]. split; [exact H2|]. exact (proj1 (H3 0%nat (A_team 2 2) 2 eq_refl eq_refl)).
Defined.

(** Master 2 takes all threads that can exist.  Then master 0 asks for 6 threads and
    decrements the counter; master 1 asks for 4 and finds the counter at -5: it counts the
    deficit as threads of its own, creates none, and the assertion of [__pmp_team_alloc]
    that it has got a thread fails. *)
Definition exhausting : list (nat * Z) :=
  replicate 516 (2%nat, 256) ++ [(0%nat, 6); (0%nat, 6)] ++ replicate 5 (1%nat, 4).

Lemma omp_acquire_negative :
  exists s, rtc astep (acquire_start 3) s /\ masters s = [A_back 6 1 5; A_got 4 (-4); A_team 256 256] /\ acquire_step s 1 4 = Err Assertion.
Proof.
  exists (mkAS 0 PMP_MAX_THREADS (rev (seqZ 1 255)) [A_back 6 1 5; A_got 4 (-4); A_team 256 256]). split; [|by split].
  apply (acquire_run_reach exhausting); [vm_compute; reflexivity|]. unfold exhausting, PMP_MAX_THREADS.
  apply Forall_app. split; [apply Forall_replicate; lia|]. apply Forall_app. split; [|apply Forall_replicate; lia].
  repeat constructor; lia.
Qed.
