(* ===== verification/ArData.v ===== *)
(** Compile-time arithmetic: the integers of [arith/], the library with which the
    compiler folds constants.

    A value is an [ar_data], a union.  Of it the model keeps the four 16-bit
    fields of [ar_i64] and the view [ar_i8] of the same bits, in which the last
    16 bits are two fields of 8 bits; which of them comes first depends on the
    host ([big_endian] below), because C leaves the order of bit-fields to the
    implementation.  Types are the bit patterns of [AR_TYPE]. *)
From Stdlib Require Import ZArith Lia Bool.
From stdpp Require Import prelude list.
From S2P Require Import Prelude.

(** The order in which the host's compiler allocates bit-fields: from the most
    significant bit (as on the big-endian hosts that the library was written
    for) or from the least significant bit (as on x86). *)
Class Host : Type := big_endian : bool.
Definition little_endian_host : Host := false.
Definition big_endian_host : Host := true.

(** * Types *)
Abbreviation AR_TYPE := Z (only parsing).

Definition AR_CLASS (t : AR_TYPE) : Z := Z.land t 0x1c0.
Definition AR_INT_SIZE (t : AR_TYPE) : Z := Z.land t 0x3c.
Definition AR_SIGNEDNESS (t : AR_TYPE) : Z := Z.land t 0x1.

Definition AR_CLASS_INT : Z := Z.shiftl 0 6.
Definition AR_CLASS_FLOAT : Z := Z.shiftl 1 6.
Definition AR_CLASS_POINTER : Z := Z.shiftl 2 6.

Definition AR_INT_SIZE_8 : Z := Z.shiftl 0 2.
Definition AR_INT_SIZE_24 : Z := Z.shiftl 1 2.
Definition AR_INT_SIZE_32 : Z := Z.shiftl 2 2.
Definition AR_INT_SIZE_46 : Z := Z.shiftl 3 2.
Definition AR_INT_SIZE_64 : Z := Z.shiftl 4 2.
Definition AR_INT_SIZE_128 : Z := Z.shiftl 5 2.
Definition AR_INT_SIZE_16 : Z := Z.shiftl 6 2.

Definition AR_SIGNED : Z := 0.
Definition AR_UNSIGNED : Z := 1.

Definition AR_Int_8_S : AR_TYPE := Z.lor (Z.lor AR_CLASS_INT AR_INT_SIZE_8) AR_SIGNED.
Definition AR_Int_8_U : AR_TYPE := Z.lor (Z.lor AR_CLASS_INT AR_INT_SIZE_8) AR_UNSIGNED.
Definition AR_Int_16_S : AR_TYPE := Z.lor (Z.lor AR_CLASS_INT AR_INT_SIZE_16) AR_SIGNED.
Definition AR_Int_16_U : AR_TYPE := Z.lor (Z.lor AR_CLASS_INT AR_INT_SIZE_16) AR_UNSIGNED.
Definition AR_Int_32_S : AR_TYPE := Z.lor (Z.lor AR_CLASS_INT AR_INT_SIZE_32) AR_SIGNED.
Definition AR_Int_32_U : AR_TYPE := Z.lor (Z.lor AR_CLASS_INT AR_INT_SIZE_32) AR_UNSIGNED.
Definition AR_Int_46_S : AR_TYPE := Z.lor (Z.lor AR_CLASS_INT AR_INT_SIZE_46) AR_SIGNED.
Definition AR_Int_46_U : AR_TYPE := Z.lor (Z.lor AR_CLASS_INT AR_INT_SIZE_46) AR_UNSIGNED.
Definition AR_Int_64_S : AR_TYPE := Z.lor (Z.lor AR_CLASS_INT AR_INT_SIZE_64) AR_SIGNED.
Definition AR_Int_64_U : AR_TYPE := Z.lor (Z.lor AR_CLASS_INT AR_INT_SIZE_64) AR_UNSIGNED.

Definition is_signed (t : AR_TYPE) : bool := AR_SIGNEDNESS t =? AR_SIGNED.

(** The cases of [switch (AR_INT_SIZE (type))] in the integer routines; 46-bit
    integers are kept in 64 bits. *)
Inductive int_size : Type := Int8 | Int16 | Int32 | Int64.

#[export] Instance int_size_eq_dec : EqDecision int_size.
Proof. solve_decision. Defined.

Definition int_case (t : AR_TYPE) : option int_size :=
  let s := AR_INT_SIZE t in
  if s =? AR_INT_SIZE_8 then Some Int8
  else if s =? AR_INT_SIZE_16 then Some Int16
  else if s =? AR_INT_SIZE_32 then Some Int32
  else if (s =? AR_INT_SIZE_46) || (s =? AR_INT_SIZE_64) then Some Int64
  else None.

(** * Status *)
Definition AR_STAT_OK : Z := 0.
Definition AR_STAT_OVERFLOW : Z := 1.
Definition AR_STAT_UNDERFLOW : Z := 2.
Definition AR_STAT_UNDEFINED : Z := 4.
Definition AR_STAT_INEXACT : Z := 8.
Definition AR_STAT_ZERO : Z := 16.
Definition AR_STAT_NEGATIVE : Z := 32.
Definition AR_STAT_INVALID_TYPE : Z := 64.
Definition AR_STAT_SEMIVALID : Z := 128.

(** * Data *)
Record ar_data : Type := mkData { part1 : Z; part2 : Z; part3 : Z; part4 : Z }.

#[export] Instance ar_data_eq_dec : EqDecision ar_data.
Proof. solve_decision. Defined.

Definition zero_data : ar_data := mkData 0 0 0 0.

Section View.
Context `{Host}.

(** [ar_i8.part5] *)
Definition part5 (d : ar_data) : Z :=
  if big_endian then Z.land (part4 d) 0xFF else Z.shiftr (part4 d) 8.

(** [ar_i64.part4] when [ar_i8.part4] is 0 and [ar_i8.part5] is [x] *)
Definition with_part5 (x : Z) : Z := if big_endian then x else Z.shiftl x 8.

(** The fields that an integer of the given size occupies, least significant
    first, their width, and the number of bits of the integer. *)
Definition int_parts (s : int_size) (d : ar_data) : list Z :=
  match s with
  | Int8 => [part5 d]
  | Int16 => [part4 d]
  | Int32 => [part4 d; part3 d]
  | Int64 => [part4 d; part3 d; part2 d; part1 d]
  end.

Definition part_bits (s : int_size) : Z := match s with Int8 => 8 | _ => 16 end.
Definition part_count (s : int_size) : Z := match s with Int8 | Int16 => 1 | Int32 => 2 | Int64 => 4 end.
Definition int_bits (s : int_size) : Z := part_bits s * part_count s.

(** Store the fields of an integer and clear the others ([ZERO_INTn_UPPER]). *)
Definition put_parts (s : int_size) (l : list Z) : ar_data :=
  let p i := default 0 (l !! i) in
  match s with
  | Int8 => mkData 0 0 0 (with_part5 (p 0%nat))
  | Int16 => mkData 0 0 0 (p 0%nat)
  | Int32 => mkData 0 0 (p 1%nat) (p 0%nat)
  | Int64 => mkData (p 3%nat) (p 2%nat) (p 1%nat) (p 0%nat)
  end.

(** [INTn_SIGN(d) != 0] and [IS_INTn_ZERO(d)] *)
Definition int_sign (s : int_size) (d : ar_data) : bool :=
  negb (Z.land (default 0 (last (int_parts s d))) (Z.shiftl 1 (part_bits s - 1)) =? 0).
Definition int_zero (s : int_size) (d : ar_data) : bool := forallb (Z.eqb 0) (int_parts s d).

(** [AR_status] of an integer; the other routines also inline it. *)
Definition int_status (s : int_size) (t : AR_TYPE) (d : ar_data) : Z :=
  if int_zero s d then AR_STAT_ZERO
  else if is_signed t && int_sign s d then AR_STAT_NEGATIVE else AR_STAT_OK.

Definition AR_status_int (d : ar_data) (t : AR_TYPE) : Z :=
  match int_case t with
  | Some s => int_status s t d
  | None =>
      if AR_INT_SIZE t =? AR_INT_SIZE_24 then
        if (Z.land (part3 d) 0xFF =? 0) && (part4 d =? 0) then AR_STAT_ZERO
        else if is_signed t && negb (Z.land (part3 d) 0x80 =? 0) then AR_STAT_NEGATIVE else AR_STAT_OK
      else AR_STAT_INVALID_TYPE
  end.
End View.

(** * Values *)

(** The number that fields of [b] bits stand for. *)
Definition digits_value (b : Z) (l : list Z) : Z := foldr (fun p v => p + 2 ^ b * v) 0 l.

Definition well_formed (d : ar_data) : Prop :=
  in_u 16 (part1 d) /\ in_u 16 (part2 d) /\ in_u 16 (part3 d) /\ in_u 16 (part4 d).

Section Values.
Context `{Host}.

Definition uval (s : int_size) (d : ar_data) : Z := digits_value (part_bits s) (int_parts s d).
Definition sval (s : int_size) (d : ar_data) : Z := swrap (int_bits s) (uval s d).

(** The value that a type gives to the bits. *)
Definition ival (s : int_size) (t : AR_TYPE) (d : ar_data) : Z := if is_signed t then sval s d else uval s d.
Definition in_range (s : int_size) (t : AR_TYPE) (v : Z) : Prop :=
  if is_signed t then in_s (int_bits s) v else in_u (int_bits s) v.

(** All fields outside the integer are clear. *)
Definition canonical (s : int_size) (d : ar_data) : Prop := put_parts s (int_parts s d) = d.
End Values.

(** * Facts about fields *)
Lemma wf_data d :
  forallb (fun p => (0 <=? p) && (p <? 2 ^ 16)) [part1 d; part2 d; part3 d; part4 d] = true -> well_formed d.
Proof.
  cbn [forallb]. rewrite !andb_true_iff. unfold well_formed, in_u. rewrite !Z.leb_le, !Z.ltb_lt. tauto.
Qed.

Lemma digits_value_cons b p l : digits_value b (p :: l) = p + 2 ^ b * digits_value b l.
Proof. done. Qed.

Lemma pow_length {A} b (x : A) l :
  0 <= b -> 2 ^ (b * Z.of_nat (length (x :: l))) = 2 ^ b * 2 ^ (b * Z.of_nat (length l)).
Proof. intros Hb. rewrite <- Z.pow_add_r by lia. f_equal. cbn [length]. lia. Qed.

Lemma digits_value_range b l :
  0 <= b -> Forall (in_u b) l -> 0 <= digits_value b l < 2 ^ (b * Z.of_nat (length l)).
Proof.
  intros Hb. induction 1 as [|p l Hp Hl IH].
  - cbn [length]. rewrite Z.mul_0_r, Z.pow_0_r. cbn. lia.
  - rewrite digits_value_cons, pow_length by done. unfold in_u in Hp. nia.
Qed.

Lemma digits_value_app b l1 l2 :
  0 <= b -> digits_value b (l1 ++ l2) = digits_value b l1 + 2 ^ (b * Z.of_nat (length l1)) * digits_value b l2.
Proof.
  intros Hb. induction l1 as [|p l1 IH].
  - cbn [length app]. rewrite Z.mul_0_r, Z.pow_0_r. change (digits_value b []) with 0. lia.
  - rewrite <- app_comm_cons, !digits_value_cons, IH, pow_length by done. ring.
Qed.

Lemma digits_value_inj b l1 l2 :
  0 <= b -> Forall (in_u b) l1 -> Forall (in_u b) l2 -> length l1 = length l2 ->
  digits_value b l1 = digits_value b l2 -> l1 = l2.
Proof.
  intros Hb H1. revert l2. induction H1 as [|p1 l1 Hp1 H1 IH]; intros [|p2 l2] H2 Hlen Hv; try done.
  apply Forall_cons in H2 as [Hp2 H2]. rewrite !digits_value_cons in Hv. unfold in_u in *.
  destruct (Z.div_mod_unique (2 ^ b) (digits_value b l1) (digits_value b l2) p1 p2) as [Hv' ->];
    [lia|lia|lia|]. f_equal. apply IH; [done|by injection Hlen|done].
Qed.

Lemma forallb_zero b l : 0 <= b -> Forall (in_u b) l -> forallb (Z.eqb 0) l = (digits_value b l =? 0).
Proof.
  intros Hb. induction 1 as [|p l Hp Hr IH]; [done|]. cbn [forallb]. rewrite IH, digits_value_cons.
  pose proof (digits_value_range b l Hb Hr). unfold in_u in Hp. nia.
Qed.

Section Facts.
Context `{Host}.

Lemma part_bits_pos s : 8 <= part_bits s <= 16.
Proof. destruct s; simpl; lia. Qed.

Lemma int_bits_pos s : 8 <= int_bits s <= 64.
Proof. destruct s; unfold int_bits; simpl; lia. Qed.

Lemma part5_range d : in_u 16 (part4 d) -> in_u 8 (part5 d).
Proof.
  unfold in_u, part5. intros Hd. destruct big_endian.
  - change 0xFF with (Z.ones 8). rewrite Z.land_ones by lia. by apply Z.mod_pos_bound.
  - rewrite Z.shiftr_div_pow2 by lia. split; [apply Z.div_pos; lia|]. apply Z.div_lt_upper_bound; lia.
Qed.

Lemma part5_with x : in_u 8 x -> part5 (mkData 0 0 0 (with_part5 x)) = x /\ in_u 16 (with_part5 x).
Proof.
  unfold in_u, part5, with_part5. cbn [part4]. intros Hx. destruct big_endian.
  - change 0xFF with (Z.ones 8). rewrite Z.land_ones, Z.mod_small by lia. lia.
  - rewrite Z.shiftr_div_pow2, Z.shiftl_mul_pow2, Z.div_mul by lia. lia.
Qed.

Lemma int_parts_length s d : Z.of_nat (length (int_parts s d)) = part_count s.
Proof. by destruct s. Qed.

Lemma int_parts_range s d : well_formed d -> Forall (in_u (part_bits s)) (int_parts s d).
Proof.
  intros (H1 & H2 & H3 & H4). pose proof (part5_range d H4). destruct s; simpl; repeat (apply Forall_cons; split; [done|]); apply Forall_nil_2.
Qed.

Lemma uval_range s d : well_formed d -> in_u (int_bits s) (uval s d).
Proof.
  intros Hd. unfold in_u, uval, int_bits. pose proof (part_bits_pos s).
  rewrite <- (int_parts_length s d). apply digits_value_range; [lia|by apply int_parts_range].
Qed.

Lemma put_parts_ok s l :
  Forall (in_u (part_bits s)) l -> Z.of_nat (length l) = part_count s ->
  int_parts s (put_parts s l) = l /\ well_formed (put_parts s l) /\ canonical s (put_parts s l).
Proof.
  intros Hl Hlen. unfold canonical.
  assert (int_parts s (put_parts s l) = l /\ well_formed (put_parts s l)) as [-> Hwf]; [|done].
  assert (in_u 16 0) as H0 by done. unfold well_formed.
  destruct s; cbn [part_count part_bits] in *.
  - destruct l as [|x [|]]; try done; [|cbn in Hlen; lia]. apply Forall_cons in Hl as [Hx _]. cbn.
    destruct (part5_with x Hx) as [-> ?]. auto.
  - destruct l as [|x [|]]; try done; [|cbn in Hlen; lia]. apply Forall_cons in Hl as [Hx _]. cbn. auto.
  - destruct l as [|x [|y [|]]]; try done; [|cbn in Hlen; lia].
    apply Forall_cons in Hl as [Hx [Hy _]%Forall_cons]. cbn. auto.
  - destruct l as [|x [|y [|z [|u [|]]]]]; try done; [|cbn in Hlen; lia].
    apply Forall_cons in Hl as [Hx [Hy [Hz [Hu _]%Forall_cons]%Forall_cons]%Forall_cons]. cbn. auto.
Qed.

Lemma int_zero_uval s d : well_formed d -> int_zero s d = (uval s d =? 0).
Proof.
  intros Hd. pose proof (part_bits_pos s). apply forallb_zero; [lia|by apply int_parts_range].
Qed.

Lemma land_top_bit w x : 0 < w -> in_u w x -> negb (Z.land x (Z.shiftl 1 (w - 1)) =? 0) = (2 ^ (w - 1) <=? x).
Proof.
  intros Hw Hx. rewrite Z.shiftl_1_l. unfold in_u in Hx. pose proof (pow2_half w Hw).
  assert (Z.land x (2 ^ (w - 1)) = if 2 ^ (w - 1) <=? x then 2 ^ (w - 1) else 0) as ->.
  { apply Z.bits_inj'. intros i Hi. rewrite Z.land_spec, Z.pow2_bits_eqb by lia.
    destruct (Z.eqb_spec (w - 1) i) as [<-|Hne]; rewrite ?andb_true_r, ?andb_false_r.
    - rewrite Z.testbit_eqb by lia. destruct (Z.leb_spec (2 ^ (w - 1)) x).
      + rewrite Z.pow2_bits_eqb, Z.eqb_refl by lia. assert (x / 2 ^ (w - 1) = 1) as ->; [|done].
        symmetry. apply (Z.div_unique_pos _ _ _ (x - 2 ^ (w - 1))); lia.
      + rewrite Z.div_small by lia. by rewrite Z.bits_0.
    - destruct (2 ^ (w - 1) <=? x); [|by rewrite Z.bits_0]. rewrite Z.pow2_bits_eqb by lia. lia. }
  pose proof (Z.pow_pos_nonneg 2 (w - 1)). destruct (2 ^ (w - 1) <=? x) eqn:E; [|done].
  destruct (Z.eqb_spec (2 ^ (w - 1)) 0); [lia|done].
Qed.

Lemma int_sign_uval s d : well_formed d -> int_sign s d = (2 ^ (int_bits s - 1) <=? uval s d).
Proof.
  intros Hd. unfold int_sign, uval. pose proof (int_parts_range s d Hd) as Hr. pose proof (part_bits_pos s).
  destruct (int_parts s d) as [|p l _] eqn:E using rev_ind; [by destruct s|].
  apply Forall_app in Hr as [Hr [Hp _]%Forall_cons]. rewrite last_snoc. change (default 0 (Some p)) with p.
  pose proof (f_equal length E) as Hlen. rewrite length_app in Hlen. cbn [length] in Hlen.
  pose proof (int_parts_length s d) as Hc. rewrite digits_value_app, digits_value_cons by lia. change (digits_value (part_bits s) []) with 0.
  pose proof (digits_value_range (part_bits s) l ltac:(lia) Hr) as Hl.
  rewrite (land_top_bit (part_bits s)) by (lia || done). unfold int_bits.
  set (k := Z.of_nat (length l)) in *. replace (part_count s) with (k + 1) by lia.
  replace (part_bits s * (k + 1) - 1) with (part_bits s * k + (part_bits s - 1)) by lia.
  rewrite Z.pow_add_r by lia. set (A := 2 ^ (part_bits s * k)) in *. set (B := 2 ^ (part_bits s - 1)).
  destruct (Z.leb_spec B p); [symmetry; apply Z.leb_le; nia|symmetry; apply Z.leb_gt; nia].
Qed.

Definition value_status (v : Z) : Z :=
  if v =? 0 then AR_STAT_ZERO else if v <? 0 then AR_STAT_NEGATIVE else AR_STAT_OK.

Lemma swrap_uval w u : 0 < w -> in_u w u -> swrap w u = if 2 ^ (w - 1) <=? u then u - 2 ^ w else u.
Proof.
  intros Hw Hu. unfold swrap, in_u in *. pose proof (pow2_half w Hw). destruct (Z.leb_spec (2 ^ (w - 1)) u).
  - assert ((u + 2 ^ (w - 1)) mod 2 ^ w = u - 2 ^ (w - 1)) as ->; [|lia]. symmetry. apply (Z.mod_unique_pos _ _ 1); lia.
  - rewrite Z.mod_small by lia. lia.
Qed.

Lemma sval_uval s d :
  well_formed d -> sval s d = if int_sign s d then uval s d - 2 ^ int_bits s else uval s d.
Proof.
  intros Hd. pose proof (int_bits_pos s). unfold sval. rewrite int_sign_uval by done.
  apply swrap_uval; [lia|by apply uval_range].
Qed.

Lemma int_status_value s t d : well_formed d -> int_status s t d = value_status (ival s t d).
Proof.
  intros Hd. unfold int_status, value_status, ival. rewrite int_zero_uval by done.
  pose proof (uval_range s d Hd) as Hu. unfold in_u in Hu. pose proof (int_bits_pos s).
  pose proof (pow2_half (int_bits s) ltac:(lia)).
  destruct (is_signed t); cbn [andb].
  - rewrite sval_uval by done. rewrite int_sign_uval by done.
    destruct (Z.leb_spec (2 ^ (int_bits s - 1)) (uval s d)), (Z.eqb_spec (uval s d) 0); try lia.
    + rewrite (proj2 (Z.eqb_neq (uval s d - _) 0)) by lia. by rewrite (proj2 (Z.ltb_lt _ 0)) by lia.
    + by rewrite (proj2 (Z.ltb_ge _ 0)) by lia.
  - destruct (Z.eqb_spec (uval s d) 0); [done|]. by rewrite (proj2 (Z.ltb_ge _ 0)) by lia.
Qed.

Lemma AR_status_int_case s t d : int_case t = Some s -> AR_status_int d t = int_status s t d.
Proof. unfold AR_status_int. by intros ->. Qed.
End Facts.
