(* ===== verification/ArInt.v ===== *)
(** Integer addition, subtraction, negation, multiplication and comparison: the
    model of the integer routines of [arith/math.c] and [arith/compare.c].

    A routine takes the old contents of [*result] and returns the new ones and
    the status.  The cases of its [switch] differ in the fields that an integer
    occupies: a case that handles them one after the other, from the least
    significant one, is a recursion over the list of the fields.  Local
    variables that the C code leaves uninitialised start as zero; the fields
    concerned are not read. *)
From Stdlib Require Import ZArith Lia Bool.
From stdpp Require Import prelude list.
From S2P Require Import Prelude ArData.

Section Ops.
Context `{Host}.

(** [partialsum = a + b + carry; result = partialsum & mask; carry = partialsum >> bits] *)
Fixpoint add_parts (b : Z) (xs ys : list Z) (carry : Z) : list Z * Z :=
  match xs, ys with
  | x :: xs, y :: ys =>
      let partialsum := x + y + carry in
      let '(l, carry) := add_parts b xs ys (Z.shiftr partialsum b) in
      (Z.land partialsum (Z.ones b) :: l, carry)
  | _, _ => ([], carry)
  end.

Definition ar_add_integer (result : ar_data) (resulttype : AR_TYPE) (opnd1 : ar_data) (opnd1type : AR_TYPE)
    (opnd2 : ar_data) (opnd2type : AR_TYPE) : ar_data * Z :=
  match int_case opnd1type with
  | None => (result, AR_STAT_INVALID_TYPE)
  | Some s =>
      let opnd1sign := int_sign s opnd1 in
      let opnd2sign := int_sign s opnd2 in
      let '(l, carry) := add_parts (part_bits s) (int_parts s opnd1) (int_parts s opnd2) 0 in
      let result := put_parts s l in
      let status :=
        if negb (is_signed opnd1type) then (if negb (carry =? 0) then AR_STAT_OVERFLOW else AR_STAT_OK)
        else if eqb opnd1sign opnd2sign && negb (eqb opnd1sign (int_sign s result))
        then AR_STAT_OVERFLOW else AR_STAT_OK in
      (result, Z.lor status (int_status s resulttype result))
  end.

(** [partialdiff = a - b - carry; result = partialdiff & mask; carry = partialdiff < 0] *)
Fixpoint sub_parts (b : Z) (xs ys : list Z) (carry : Z) : list Z * Z :=
  match xs, ys with
  | x :: xs, y :: ys =>
      let partialdiff := x - y - carry in
      let '(l, carry) := sub_parts b xs ys (Z.b2z (partialdiff <? 0)) in
      (Z.land partialdiff (Z.ones b) :: l, carry)
  | _, _ => ([], carry)
  end.

(** The second component is what is stored through [flags], if anything. *)
Definition ar_subtract_integer (result : ar_data) (resulttype : AR_TYPE) (opnd1 : ar_data) (opnd1type : AR_TYPE)
    (opnd2 : ar_data) (opnd2type : AR_TYPE) : ar_data * option Z * Z :=
  if negb (resulttype =? opnd1type) || negb (resulttype =? opnd2type) || negb (AR_CLASS resulttype =? AR_CLASS_INT)
  then (result, None, AR_STAT_INVALID_TYPE)
  else
    match int_case opnd1type with
    | None => (result, None, AR_STAT_INVALID_TYPE)
    | Some s =>
        let opnd1sign := int_sign s opnd1 in
        let opnd2sign := int_sign s opnd2 in
        let '(l, carry) := sub_parts (part_bits s) (int_parts s opnd1) (int_parts s opnd2) 0 in
        let result := put_parts s l in
        let overflow := negb (eqb opnd1sign opnd2sign) && negb (eqb opnd1sign (int_sign s result)) in
        let zero := int_zero s result in
        let sign := int_sign s result in
        let flags := Z.lor (Z.lor (Z.lor (Z.shiftl (Z.b2z sign) 3) (Z.shiftl (Z.b2z zero) 2))
                                  (Z.shiftl (Z.b2z overflow) 1)) carry in
        let status :=
          if is_signed resulttype then (if overflow then AR_STAT_OVERFLOW else AR_STAT_OK)
          else (if negb (carry =? 0) then AR_STAT_OVERFLOW else AR_STAT_OK) in
        (result, Some flags, Z.lor status (AR_status_int result resulttype))
    end.

(** The least integer: only the sign bit is set. *)
Definition is_least (s : int_size) (d : ar_data) : bool :=
  forallb (Z.eqb 0) (removelast (int_parts s d)) &&
  (default 0 (last (int_parts s d)) =? Z.shiftl 1 (part_bits s - 1)).

Definition ar_negate_integer (result : ar_data) (resulttype : AR_TYPE) (opnd : ar_data) (opndtype : AR_TYPE)
    : ar_data * Z :=
  if negb (AR_CLASS opndtype =? AR_CLASS_INT) then (result, AR_STAT_INVALID_TYPE)
  else
    match int_case opndtype with
    | None => (result, AR_STAT_INVALID_TYPE)
    | Some s =>
        let temp := put_parts s (Z.lxor (Z.ones (part_bits s)) <$> int_parts s opnd) in
        let temp1 := put_parts s [1; 0; 0; 0] in
        let '(result, status) := ar_add_integer result resulttype temp opndtype temp1 opndtype in
        if negb (is_signed resulttype) then (result, Z.land status (Z.lnot AR_STAT_OVERFLOW))
        else if negb (Z.land status AR_STAT_OVERFLOW =? 0) && negb (Z.land status AR_STAT_NEGATIVE =? 0) then
          match int_case resulttype with
          | None => (result, AR_STAT_INVALID_TYPE)
          | Some s =>
              if is_least s result
              then (result, Z.lor (Z.lxor status AR_STAT_OVERFLOW) AR_STAT_SEMIVALID)
              else (result, status)
          end
        else (result, status)
    end.

(** * Multiplication *)

(** [partialmult = a * b], an [unsigned long] assigned from a product of [int]s *)
Definition partial_mult (a b : Z) : Z := uwrap 64 (swrap 32 (a * b)).

(** [(opnd1.part1 & 0xffff) != 0xffff || ...] *)
Definition INT_OVERFLOWS_46_BITS (d : ar_data) : bool :=
  (negb (Z.land (part1 d) 0xffff =? 0xffff) || negb (Z.land (part2 d) 0xe000 =? 0xe000)) &&
  (negb (Z.land (part1 d) 0xffff =? 0) || negb (Z.land (part2 d) 0xe000 =? 0)).

(** [if (part) ...] with a partial product that is added to the accumulator; the
    state is the accumulator and the status. *)
Definition accumulate (t : AR_TYPE) (temp : ar_data) (st : ar_data * Z) : ar_data * Z :=
  let '(accum, status) := st in
  let '(accum, s) := ar_add_integer zero_data t accum t temp t in
  (accum, Z.lor status s).
Definition overflow_if (b : bool) (st : ar_data * Z) : ar_data * Z :=
  if b then (fst st, Z.lor (snd st) AR_STAT_OVERFLOW) else st.
Definition when_part (p : Z) (f : ar_data * Z -> ar_data * Z) (st : ar_data * Z) : ar_data * Z :=
  if negb (p =? 0) then f st else st.

(** The magnitudes of the operands and the sign of the product. *)
Definition magnitude (s : int_size) (t : AR_TYPE) (d : ar_data) : ar_data :=
  if is_signed t && int_sign s d then fst (ar_negate_integer zero_data t d t) else d.

(** The product of integers of one field. *)
Definition multiply_single (s : int_size) (multiplicand multiplier : ar_data) (status : Z) : ar_data * Z :=
  let part_a := default 0 (head (int_parts s multiplicand)) in
  let part_b := default 0 (head (int_parts s multiplier)) in
  let partialmult := partial_mult part_a part_b in
  overflow_if (negb (Z.shiftr partialmult (part_bits s) =? 0))
    (put_parts s [uwrap (part_bits s) partialmult], status).

Definition multiply32 (multiplicand multiplier : ar_data) (status : Z) : ar_data * Z :=
  let part_a := part3 multiplicand in
  let part_b := part4 multiplicand in
  let part_c := part3 multiplier in
  let part_d := part4 multiplier in
  let partialmult := partial_mult part_b part_d in
  let accum := mkData 0 0 (Z.shiftr (Z.land partialmult 0xFFFF0000) 16) (Z.land partialmult 0xFFFF) in
  let high a b st :=
    let partialmult := partial_mult a b in
    accumulate AR_Int_32_U (mkData 0 0 (uwrap 16 partialmult) 0)
      (overflow_if (negb (Z.shiftr partialmult 16 =? 0)) st) in
  let st := (accum, status) in
  let st := when_part part_d (when_part part_a (high part_a part_d)) st in
  when_part part_c (fun st =>
    let st := when_part part_b (high part_b part_c) st in
    when_part part_a (overflow_if true) st) st.

Definition multiply64 (multiplicand multiplier : ar_data) (status : Z) : ar_data * Z :=
  let part_a := part1 multiplicand in
  let part_b := part2 multiplicand in
  let part_c := part3 multiplicand in
  let part_d := part4 multiplicand in
  let part_e := part1 multiplier in
  let part_f := part2 multiplier in
  let part_g := part3 multiplier in
  let part_h := part4 multiplier in
  let partialmult := partial_mult part_d part_h in
  let accum := mkData 0 0 (Z.shiftr (Z.land partialmult 0xFFFF0000) 16) (Z.land partialmult 0xFFFF) in
  let low a b st :=
    let partialmult := partial_mult a b in
    accumulate AR_Int_64_U (mkData 0 (uwrap 16 (Z.shiftr partialmult 16)) (uwrap 16 partialmult) 0) st in
  let mid a b st :=
    let partialmult := partial_mult a b in
    accumulate AR_Int_64_U (mkData (uwrap 16 (Z.shiftr partialmult 16)) (uwrap 16 partialmult) 0 0) st in
  let high a b st :=
    let partialmult := partial_mult a b in
    accumulate AR_Int_64_U (mkData (uwrap 16 partialmult) 0 0 0)
      (overflow_if (negb (Z.shiftr partialmult 16 =? 0)) st) in
  let st := (accum, status) in
  let st := when_part part_h (fun st =>
    let st := when_part part_c (low part_c part_h) st in
    let st := when_part part_b (mid part_b part_h) st in
    when_part part_a (high part_a part_h) st) st in
  let st := when_part part_g (fun st =>
    let st := when_part part_d (low part_d part_g) st in
    let st := when_part part_c (mid part_c part_g) st in
    let st := when_part part_b (high part_b part_g) st in
    when_part part_a (overflow_if true) st) st in
  let st := when_part part_f (fun st =>
    let st := when_part part_d (mid part_d part_f) st in
    let st := when_part part_c (high part_c part_f) st in
    when_part (Z.lor part_a part_b) (overflow_if true) st) st in
  when_part part_e (fun st =>
    let st := when_part part_d (high part_d part_e) st in
    when_part (Z.lor (Z.lor part_a part_b) part_c) (overflow_if true) st) st.

Definition ar_multiply_integer (result : ar_data) (resulttype : AR_TYPE) (opnd1 : ar_data) (opnd1type : AR_TYPE)
    (opnd2 : ar_data) (opnd2type : AR_TYPE) : ar_data * Z :=
  match int_case opnd1type with
  | None => (result, AR_STAT_INVALID_TYPE)
  | Some s =>
      let status := AR_STAT_OK in
      let '(_, status) := overflow_if ((opnd1type =? AR_Int_46_S) && INT_OVERFLOWS_46_BITS opnd1) (result, status) in
      let '(_, status) := overflow_if ((opnd2type =? AR_Int_46_S) && INT_OVERFLOWS_46_BITS opnd2) (result, status) in
      let result_negative :=
        xorb (is_signed opnd1type && int_sign s opnd1) (is_signed opnd2type && int_sign s opnd2) in
      let multiplicand := magnitude s opnd1type opnd1 in
      let multiplier := magnitude s opnd2type opnd2 in
      let '(accum, status) :=
        match s with
        | Int8 | Int16 => multiply_single s multiplicand multiplier status
        | Int32 => multiply32 multiplicand multiplier status
        | Int64 => multiply64 multiplicand multiplier status
        end in
      let '(result, status) :=
        if result_negative then
          let '(result, _) := ar_negate_integer result resulttype accum resulttype in
          overflow_if (negb (int_sign s result) && negb (int_zero s result)) (result, status)
        else overflow_if (int_sign s accum && is_signed resulttype) (accum, status) in
      let '(result, status) :=
        overflow_if ((resulttype =? AR_Int_46_S) && INT_OVERFLOWS_46_BITS result) (result, status) in
      (result, Z.lor (Z.land status AR_STAT_OVERFLOW) (int_status s resulttype result))
  end.

(** * Comparison *)
Inductive AR_COMPARE_TYPE : Type :=
| AR_Compare_LT | AR_Compare_EQ | AR_Compare_GT | AR_Compare_Unord | AR_Compare_NE | AR_Compare_Invalid.

Definition ar_compare_integer (opnd1 : ar_data) (opnd1type : AR_TYPE) (opnd2 : ar_data) (opnd2type : AR_TYPE)
    : AR_COMPARE_TYPE :=
  let '(_, flags, _) := ar_subtract_integer zero_data opnd1type opnd1 opnd1type opnd2 opnd2type in
  let subtractflags := default 0 flags in
  if is_signed opnd1type then
    if negb (Z.land (Z.lxor subtractflags (Z.shiftr subtractflags 2)) 0x2 =? 0) then AR_Compare_LT
    else if negb (Z.land subtractflags 0x4 =? 0) then AR_Compare_EQ
    else AR_Compare_GT
  else
    if negb (Z.land subtractflags 0x1 =? 0) then AR_Compare_LT
    else if negb (Z.land subtractflags 0x4 =? 0) then AR_Compare_EQ
    else AR_Compare_GT.
End Ops.
