(* ===== verification/ArIntProps.v ===== *)
(** Integer arithmetic is exact: the results are those of the mathematical
    operations, wrapped to the type, and the status tells when they did not fit. *)
From Stdlib Require Import ZArith Lia Bool.
From stdpp Require Import prelude list.
From S2P Require Import Prelude ArData ArInt.

(** * Sequences of fields *)
Lemma ones_land b x : 0 <= b -> in_u b (Z.land x (Z.ones b)) /\ Z.land x (Z.ones b) = x mod 2 ^ b.
Proof.
  intros Hb. rewrite Z.land_ones by done. split; [|done]. apply Z.mod_pos_bound. lia.
Qed.

Lemma add_parts_value b xs ys c :
  0 < b -> Forall (in_u b) xs -> Forall (in_u b) ys -> length xs = length ys -> 0 <= c <= 1 ->
  let '(l, c') := add_parts b xs ys c in
  Forall (in_u b) l /\ length l = length xs /\ 0 <= c' <= 1 /\
  digits_value b l + 2 ^ (b * Z.of_nat (length xs)) * c' = digits_value b xs + digits_value b ys + c.
Proof.
  intros Hb Hx. revert ys c. induction Hx as [|x xs Hx Hxs IH]; intros [|y ys] c Hy Hlen Hc; try done.
  - cbn. rewrite Z.mul_0_r, Z.pow_0_r. repeat split; [constructor|lia|lia|lia].
  - apply Forall_cons in Hy as [Hy Hys]. injection Hlen as Hlen. cbn [add_parts].
    set (s := x + y + c). unfold in_u in *. pose proof (Z.pow_pos_nonneg 2 b).
    assert (0 <= Z.shiftr s b <= 1) as Hc'.
    { rewrite Z.shiftr_div_pow2 by lia. split; [apply Z.div_pos; lia|].
      apply Z.lt_succ_r, Z.div_lt_upper_bound; lia. }
    specialize (IH ys (Z.shiftr s b) Hys Hlen Hc'). destruct (add_parts b xs ys (Z.shiftr s b)) as [l c'].
    destruct IH as (Hl & Hll & Hc1 & Hv). destruct (ones_land b s ltac:(lia)) as [Hr Em].
    split; [by apply Forall_cons|]. split; [cbn; by rewrite Hll|]. split; [done|].
    rewrite !digits_value_cons, pow_length, Em by lia. pose proof (Z_div_mod_eq_full s (2 ^ b)).
    rewrite Z.shiftr_div_pow2 in Hv by lia. nia.
Qed.

Lemma sub_parts_value b xs ys c :
  0 < b -> Forall (in_u b) xs -> Forall (in_u b) ys -> length xs = length ys -> 0 <= c <= 1 ->
  let '(l, c') := sub_parts b xs ys c in
  Forall (in_u b) l /\ length l = length xs /\ 0 <= c' <= 1 /\
  digits_value b l - 2 ^ (b * Z.of_nat (length xs)) * c' = digits_value b xs - digits_value b ys - c.
Proof.
  intros Hb Hx. revert ys c. induction Hx as [|x xs Hx Hxs IH]; intros [|y ys] c Hy Hlen Hc; try done.
  - cbn. rewrite Z.mul_0_r, Z.pow_0_r. repeat split; [constructor|lia|lia|lia].
  - apply Forall_cons in Hy as [Hy Hys]. injection Hlen as Hlen. cbn [sub_parts].
    set (s := x - y - c). unfold in_u in *. pose proof (Z.pow_pos_nonneg 2 b).
    assert (0 <= Z.b2z (s <? 0) <= 1) as Hc' by (destruct (s <? 0); simpl; lia).
    specialize (IH ys (Z.b2z (s <? 0)) Hys Hlen Hc'). destruct (sub_parts b xs ys _) as [l c'].
    destruct IH as (Hl & Hll & Hc1 & Hv). destruct (ones_land b s ltac:(lia)) as [Hr Em].
    split; [by apply Forall_cons|]. split; [cbn; by rewrite Hll|]. split; [done|].
    assert (s mod 2 ^ b = s + 2 ^ b * Z.b2z (s <? 0)) as Es.
    { symmetry. destruct (Z.ltb_spec s 0); cbn [Z.b2z].
      - apply (Z.mod_unique_pos _ _ (-1)); lia.
      - apply (Z.mod_unique_pos _ _ 0); lia. }
    rewrite !digits_value_cons, pow_length, Em, Es by lia. nia.
Qed.

Lemma complement_value b xs :
  0 <= b -> Forall (in_u b) xs ->
  Forall (in_u b) (Z.lxor (Z.ones b) <$> xs) /\
  digits_value b (Z.lxor (Z.ones b) <$> xs) = 2 ^ (b * Z.of_nat (length xs)) - 1 - digits_value b xs.
Proof.
  intros Hb. induction 1 as [|x xs Hx Hxs [IH1 IH2]].
  - cbn. rewrite Z.mul_0_r, Z.pow_0_r. split; [constructor|lia].
  - rewrite fmap_cons, !digits_value_cons, IH2, pow_length by done.
    assert (Z.lxor (Z.ones b) x = 2 ^ b - 1 - x) as Ex.
    { assert (Z.lxor (Z.ones b) x + x = Z.ones b) as E; [|rewrite Z.ones_equiv in *; unfold Z.pred in *; lia].
      rewrite Z.add_nocarry_lxor, Z.lxor_assoc, Z.lxor_nilpotent, Z.lxor_0_r; [done|].
      apply Z.bits_inj'. intros i Hi. rewrite Z.land_spec, Z.lxor_spec, Z.bits_0, ones_bit by lia.
      destruct (Z.ltb_spec i b); [|by rewrite (testbit_high b x) by (lia || done); rewrite andb_false_r].
      replace (0 <=? i) with true by lia. by destruct (Z.testbit x i). }
    split; [|rewrite Ex; lia]. apply Forall_cons. split; [|done]. unfold in_u in *. rewrite Ex. lia.
Qed.

(** * Wrapping to a type *)

(** The powers of two that bound an integer. *)
Ltac bits_facts s :=
  pose proof (int_bits_pos s) as HB; pose proof (pow2_half (int_bits s) ltac:(lia)) as HW;
  assert (0 < 2 ^ (int_bits s - 1)) as HP by (apply Z.pow_pos_nonneg; lia).

Section Wrap.
Context `{Host}.

(** The value of type [t] that is congruent to [v]. *)
Definition wrap (s : int_size) (t : AR_TYPE) (v : Z) : Z :=
  if is_signed t then swrap (int_bits s) v else uwrap (int_bits s) v.

(** What [v] wraps to is [v] itself: [v] fits the type. *)
Definition fits (s : int_size) (t : AR_TYPE) (v : Z) : bool := wrap s t v =? v.
Definition overflow_status (b : bool) : Z := if b then AR_STAT_OVERFLOW else AR_STAT_OK.

Lemma fits_range s t v : fits s t v = true <-> in_range s t v.
Proof.
  unfold fits, wrap, in_range. rewrite Z.eqb_eq. pose proof (int_bits_pos s). destruct (is_signed t).
  - split; [intros <-; apply swrap_range; lia|intros Hv; apply swrap_id; [lia|done]].
  - split; [intros <-; apply uwrap_range; lia|intros Hv; by apply uwrap_id].
Qed.

Lemma wrap_cong s t v v' k : v' = v + k * 2 ^ int_bits s -> wrap s t v' = wrap s t v.
Proof.
  intros E. pose proof (int_bits_pos s). unfold wrap. destruct (is_signed t); [apply (swrap_cong _ _ _ k)|apply (uwrap_cong _ _ _ k)]; lia.
Qed.

Lemma ival_cases s t d :
  well_formed d ->
  0 <= uval s d < 2 ^ int_bits s /\
  ival s t d = uval s d - (if is_signed t && (2 ^ (int_bits s - 1) <=? uval s d) then 2 ^ int_bits s else 0).
Proof.
  intros Hd. pose proof (uval_range s d Hd). split; [done|]. unfold ival. destruct (is_signed t); cbn [andb]; [|lia].
  rewrite sval_uval, int_sign_uval by done. by case_match; lia.
Qed.

Lemma ival_wrap s t d v k :
  well_formed d -> uval s d = v + k * 2 ^ int_bits s -> ival s t d = wrap s t v.
Proof.
  intros Hd Hv. rewrite <- (wrap_cong s t v (uval s d) k Hv). unfold ival, wrap.
  destruct (is_signed t); [done|]. symmetry. by apply uwrap_id, uval_range.
Qed.

Lemma ival_fits s t d : well_formed d -> fits s t (ival s t d) = true.
Proof.
  intros Hd. apply fits_range. unfold in_range, ival. pose proof (int_bits_pos s). destruct (is_signed t).
  - apply swrap_range. lia.
  - by apply uval_range.
Qed.

(** [r] is the result of type [t] for the exact value [v]. *)
Record exact (s : int_size) (t : AR_TYPE) (v : Z) (r : ar_data) : Prop := {
  exact_wf : well_formed r;
  exact_canonical : canonical s r;
  exact_value : ival s t r = wrap s t v
}.

Lemma put_exact s t l v k :
  Forall (in_u (part_bits s)) l -> Z.of_nat (length l) = part_count s ->
  digits_value (part_bits s) l = v + k * 2 ^ int_bits s ->
  exact s t v (put_parts s l) /\ uval s (put_parts s l) = v + k * 2 ^ int_bits s.
Proof.
  intros Hl Hlen Hv. destruct (put_parts_ok s l Hl Hlen) as (Hp & Hwf & Hc).
  assert (uval s (put_parts s l) = v + k * 2 ^ int_bits s) as Hu by (unfold uval; by rewrite Hp).
  split; [|done]. split; [done|done|]. by apply (ival_wrap s t _ v k).
Qed.

Lemma value_wrap_status s t v r : exact s t v r -> int_status s t r = value_status (wrap s t v).
Proof. intros [Hwf _ <-]. by apply int_status_value. Qed.

Lemma wrap_signed s t v r :
  is_signed t = true -> exact s t v r -> wrap s t v = uval s r - (if int_sign s r then 2 ^ int_bits s else 0).
Proof.
  intros Ht [Hwf _ <-]. destruct (ival_cases s t r Hwf) as [_ ->]. rewrite Ht, int_sign_uval by done. done.
Qed.

Lemma wrap_unsigned s t v r :
  is_signed t = false -> exact s t v r -> wrap s t v = uval s r.
Proof. intros Ht [Hwf _ <-]. unfold ival. by rewrite Ht. Qed.

(** * Addition *)
Lemma add_exact result s rt t t2 o1 o2 :
  int_case t = Some s -> is_signed rt = is_signed t -> well_formed o1 -> well_formed o2 ->
  let '(r, st) := ar_add_integer result rt o1 t o2 t2 in
  let v := ival s t o1 + ival s t o2 in
  exact s t v r /\ st = Z.lor (overflow_status (negb (fits s t v))) (value_status (wrap s t v)) /\
  (exists k, uval s r = uval s o1 + uval s o2 + k * 2 ^ int_bits s).
Proof.
  intros Hs Hrt H1 H2. unfold ar_add_integer. rewrite Hs. pose proof (part_bits_pos s).
  pose proof (add_parts_value (part_bits s) (int_parts s o1) (int_parts s o2) 0 ltac:(lia)
    (int_parts_range s o1 H1) (int_parts_range s o2 H2) ltac:(by destruct s) ltac:(lia)) as Ha.
  destruct (add_parts _ _ _ _) as [l c]. destruct Ha as (Hl & Hlen & Hc & Hv).
  rewrite int_parts_length in Hv. fold (int_bits s) (uval s o1) (uval s o2) in Hv.
  destruct (ival_cases s t o1 H1) as [Hu1 E1]. destruct (ival_cases s t o2 H2) as [Hu2 E2].
  set (v := ival s t o1 + ival s t o2).
  destruct (put_exact s t l v
    (Z.b2z (is_signed t && (2 ^ (int_bits s - 1) <=? uval s o1)) + Z.b2z (is_signed t && (2 ^ (int_bits s - 1) <=? uval s o2)) - c))
    as [Hex Hu]; [done|by rewrite Hlen, int_parts_length| |].
  { unfold v. rewrite E1, E2. do 2 case_match; cbn [Z.b2z]; lia. }
  assert (forall t', is_signed t' = is_signed t -> int_status s t' (put_parts s l) = value_status (wrap s t v)) as Hst.
  { intros t' Ht'. rewrite <- (value_wrap_status s t v _ Hex). unfold int_status. by rewrite Ht'. }
  assert (uval s (put_parts s l) = uval s o1 + uval s o2 - 2 ^ int_bits s * c) as Hur.
  { unfold uval at 1. destruct (put_parts_ok s l Hl) as (-> & _); [by rewrite Hlen, int_parts_length|]. lia. }
  split; [done|]. rewrite Hst by done. split; [|exists (- c); lia]. f_equal. unfold fits; bits_facts s.
  rewrite !int_sign_uval by (done || apply Hex).
  assert (c = 0 \/ c = 1) as Hc01 by lia. unfold overflow_status. destruct (is_signed t) eqn:Es; cbn [negb andb] in *.
  - rewrite (wrap_signed s t v _ Es Hex), int_sign_uval by apply Hex.
    pose proof (uval_range s _ (exact_wf _ _ _ _ Hex)) as Hr. unfold in_u in Hr. unfold v. rewrite E1, E2.
    clear - Hr Hur Hc01 Hu1 Hu2 HW HP.
    destruct (Z.leb_spec (2 ^ (int_bits s - 1)) (uval s o1)), (Z.leb_spec (2 ^ (int_bits s - 1)) (uval s o2)),
      (Z.leb_spec (2 ^ (int_bits s - 1)) (uval s (put_parts s l))); cbn [eqb andb negb];
      match goal with |- context [?a =? ?b] => destruct (Z.eqb_spec a b) end; cbn [negb]; try done;
      destruct Hc01 as [-> | ->]; lia.
  - rewrite (wrap_unsigned s t v _ Es Hex). unfold v. rewrite E1, E2.
    destruct (Z.eqb_spec c 0), (Z.eqb_spec (uval s (put_parts s l)) (uval s o1 - 0 + (uval s o2 - 0))); cbn; try done;
      destruct Hc01 as [-> | ->]; lia.
Qed.

(** * Subtraction *)
Definition int_type (s : int_size) (t : AR_TYPE) : Prop := AR_CLASS t = AR_CLASS_INT /\ int_case t = Some s.

(** The flags: sign, zero, signed overflow and borrow. *)
Definition szvc (s : int_size) (o1 o2 r : ar_data) : Z :=
  8 * Z.b2z (int_sign s r) + 4 * Z.b2z (int_zero s r) +
  2 * Z.b2z (negb (swrap (int_bits s) (sval s o1 - sval s o2) =? sval s o1 - sval s o2)) +
  Z.b2z (uval s o1 <? uval s o2).

Lemma flags_value (a b c d : bool) :
  Z.lor (Z.lor (Z.lor (Z.shiftl (Z.b2z a) 3) (Z.shiftl (Z.b2z b) 2)) (Z.shiftl (Z.b2z c) 1)) (Z.b2z d) =
  8 * Z.b2z a + 4 * Z.b2z b + 2 * Z.b2z c + Z.b2z d.
Proof. by destruct a, b, c, d. Qed.

Lemma sub_exact result s t o1 o2 :
  int_type s t -> well_formed o1 -> well_formed o2 ->
  let '(r, flags, st) := ar_subtract_integer result t o1 t o2 t in
  let v := ival s t o1 - ival s t o2 in
  exact s t v r /\ st = Z.lor (overflow_status (negb (fits s t v))) (value_status (wrap s t v)) /\
  flags = Some (szvc s o1 o2 r) /\ uval s r = (uval s o1 - uval s o2) mod 2 ^ int_bits s.
Proof.
  intros [Hcls Hs] H1 H2. unfold ar_subtract_integer. rewrite !Z.eqb_refl, Hcls, Hs. cbn [negb orb Z.eqb].
  rewrite Z.eqb_refl. cbn [negb]. pose proof (part_bits_pos s).
  pose proof (sub_parts_value (part_bits s) (int_parts s o1) (int_parts s o2) 0 ltac:(lia)
    (int_parts_range s o1 H1) (int_parts_range s o2 H2) ltac:(by destruct s) ltac:(lia)) as Ha.
  destruct (sub_parts _ _ _ _) as [l c]. destruct Ha as (Hl & Hlen & Hc & Hv).
  rewrite int_parts_length in Hv. fold (int_bits s) (uval s o1) (uval s o2) in Hv.
  destruct (ival_cases s t o1 H1) as [Hu1 E1]. destruct (ival_cases s t o2 H2) as [Hu2 E2].
  set (v := ival s t o1 - ival s t o2).
  destruct (put_exact s t l v
    (Z.b2z (is_signed t && (2 ^ (int_bits s - 1) <=? uval s o1)) - Z.b2z (is_signed t && (2 ^ (int_bits s - 1) <=? uval s o2)) + c))
    as [Hex Hu]; [done|by rewrite Hlen, int_parts_length| |].
  { unfold v. rewrite E1, E2. do 2 case_match; cbn [Z.b2z]; lia. }
  assert (uval s (put_parts s l) = uval s o1 - uval s o2 + 2 ^ int_bits s * c) as Hur.
  { unfold uval at 1. destruct (put_parts_ok s l Hl) as (-> & _); [by rewrite Hlen, int_parts_length|]. lia. }
  pose proof (uval_range s _ (exact_wf _ _ _ _ Hex)) as Hr. unfold in_u in Hr.
  assert (c = Z.b2z (uval s o1 <? uval s o2)) as ->.
  { destruct (Z.ltb_spec (uval s o1) (uval s o2)); cbn; nia. }
  assert (negb (eqb (int_sign s o1) (int_sign s o2)) && negb (eqb (int_sign s o1) (int_sign s (put_parts s l))) =
          negb (swrap (int_bits s) (sval s o1 - sval s o2) =? sval s o1 - sval s o2)) as Hov.
  { unfold fits; bits_facts s. rewrite !sval_uval by done.
    assert (swrap (int_bits s) ((if int_sign s o1 then uval s o1 - 2 ^ int_bits s else uval s o1) -
                   (if int_sign s o2 then uval s o2 - 2 ^ int_bits s else uval s o2)) = sval s (put_parts s l)) as ->.
    { unfold sval. rewrite Hur. rewrite (swrap_cong _ (uval s o1 - uval s o2) _ (Z.b2z (int_sign s o2) - Z.b2z (int_sign s o1)));
        [|lia|destruct (int_sign s o1), (int_sign s o2); cbn; lia].
      symmetry. apply (swrap_cong _ _ _ (Z.b2z (uval s o1 <? uval s o2))); lia. }
    rewrite sval_uval by apply Hex. rewrite !int_sign_uval by (done || apply Hex).
    clear - Hr Hur Hu1 Hu2 HW HP.
    destruct (Z.leb_spec (2 ^ (int_bits s - 1)) (uval s o1)), (Z.leb_spec (2 ^ (int_bits s - 1)) (uval s o2)),
      (Z.leb_spec (2 ^ (int_bits s - 1)) (uval s (put_parts s l))); cbn [eqb andb negb];
      match goal with |- context [?a =? ?b] => destruct (Z.eqb_spec a b) end; cbn [negb]; try done;
      destruct (Z.ltb_spec (uval s o1) (uval s o2)); cbn [Z.b2z] in *; lia. }
  split; [done|]. split; [|split].
  - rewrite (AR_status_int_case s) by done. rewrite (value_wrap_status s t v) by done. f_equal.
    rewrite Hov. unfold overflow_status, fits. destruct (is_signed t) eqn:Es.
    + unfold v, ival, wrap. rewrite Es. done.
    + rewrite (wrap_unsigned s t v _ Es Hex). unfold v. rewrite E1, E2. cbn [andb].
      destruct (Z.ltb_spec (uval s o1) (uval s o2)); cbn [Z.b2z Z.eqb negb] in *;
        match goal with |- context [?a =? ?b] => destruct (Z.eqb_spec a b) end; cbn [negb]; try done; lia.
  - f_equal. rewrite Hov, flags_value. done.
  - apply (Z.mod_unique_pos _ _ (- Z.b2z (uval s o1 <? uval s o2))); lia.
Qed.

Lemma swrap_lt w v :
  0 < w -> - 2 ^ w < v < 2 ^ w -> xorb (swrap w v <? 0) (negb (swrap w v =? v)) = (v <? 0).
Proof.
  intros Hw Hv. pose proof (pow2_half w Hw). pose proof (swrap_range w v Hw) as Hr. unfold in_s in Hr.
  assert (exists k, swrap w v = v + k * 2 ^ w) as [k Hk].
  { exists (- ((v + 2 ^ (w - 1)) / 2 ^ w)). unfold swrap. rewrite Z.mod_eq by lia. lia. }
  assert (k = -1 \/ k = 0 \/ k = 1) as Hk1 by nia. rewrite Hk in *.
  destruct Hk1 as [-> | [-> | ->]];
    match goal with |- context [?a =? ?b] => destruct (Z.eqb_spec a b) end; try lia; cbn [negb];
    destruct (Z.ltb_spec v 0); try done; repeat match goal with |- context [?a <? ?b] => destruct (Z.ltb_spec a b) end;
    try done; lia.
Qed.

Lemma sval_range s d : well_formed d -> in_s (int_bits s) (sval s d).
Proof. intros Hd. apply swrap_range. pose proof (int_bits_pos s). lia. Qed.

Lemma int_sign_sval s d : well_formed d -> int_sign s d = (sval s d <? 0).
Proof.
  intros Hd. rewrite sval_uval, int_sign_uval by done. pose proof (uval_range s d Hd) as Hr. unfold in_u in Hr.
  unfold fits; bits_facts s. destruct (Z.leb_spec (2 ^ (int_bits s - 1)) (uval s d)); symmetry; [apply Z.ltb_lt|apply Z.ltb_ge]; lia.
Qed.

(** Comparison decides the order of the values. *)
Lemma compare_exact s t o1 o2 :
  int_type s t -> well_formed o1 -> well_formed o2 ->
  ar_compare_integer o1 t o2 t =
  if ival s t o1 <? ival s t o2 then AR_Compare_LT
  else if ival s t o1 =? ival s t o2 then AR_Compare_EQ else AR_Compare_GT.
Proof.
  intros Ht H1 H2. unfold ar_compare_integer. pose proof (sub_exact zero_data s t o1 o2 Ht H1 H2) as Hsub.
  destruct (ar_subtract_integer _ _ _ _ _ _) as [[r flags] st]. destruct Hsub as (Hex & _ & -> & Hur).
  change (default 0 (Some (szvc s o1 o2 r))) with (szvc s o1 o2 r).
  destruct (ival_cases s t o1 H1) as [Hu1 E1]. destruct (ival_cases s t o2 H2) as [Hu2 E2].
  assert (int_zero s r = (ival s t o1 =? ival s t o2)) as Hz.
  { rewrite int_zero_uval by apply Hex. pose proof (Z.div_mod (uval s o1 - uval s o2) (2 ^ int_bits s)) as Hdm. unfold fits; bits_facts s.
    rewrite Hur. destruct (Z.eqb_spec (ival s t o1) (ival s t o2)) as [E|E].
    - assert (uval s o1 = uval s o2) as ->; [|by rewrite Z.sub_diag, Z.mod_0_l by lia].
      revert E. rewrite E1, E2. repeat case_match; lia.
    - apply Z.eqb_neq. intros Hm. rewrite Z.mod_divide in Hm by lia. destruct Hm as [k Hk]. apply E. rewrite E1, E2.
      assert (k = 0) as -> by nia. replace (uval s o1) with (uval s o2) by lia. done. }
  unfold szvc. rewrite Hz. destruct (is_signed t) eqn:Es.
  - assert (ival s t o1 = sval s o1 /\ ival s t o2 = sval s o2) as [Hi1 Hi2] by (unfold ival; by rewrite Es).
    rewrite Hi1, Hi2 in *.
    assert (xorb (int_sign s r) (negb (swrap (int_bits s) (sval s o1 - sval s o2) =? sval s o1 - sval s o2)) =
            (sval s o1 <? sval s o2)) as Hlt.
    { pose proof (exact_value _ _ _ _ Hex) as Hv. unfold ival, wrap in Hv. rewrite Es in Hv.
      rewrite int_sign_sval by apply Hex. rewrite Hv, swrap_lt.
      - destruct (Z.ltb_spec (sval s o1 - sval s o2) 0), (Z.ltb_spec (sval s o1) (sval s o2)); (done || lia).
      - pose proof (int_bits_pos s). lia.
      - clear E1 E2. pose proof (sval_range s o1 H1) as B1. pose proof (sval_range s o2 H2) as B2. unfold fits; bits_facts s.
        unfold in_s in *. lia. }
    rewrite <- Hlt. clear. destruct (int_sign s r), (sval s o1 =? sval s o2),
      (swrap (int_bits s) (sval s o1 - sval s o2) =? sval s o1 - sval s o2), (uval s o1 <? uval s o2); reflexivity.
  - assert (ival s t o1 = uval s o1 /\ ival s t o2 = uval s o2) as [Hi1 Hi2] by (unfold ival; by rewrite Es).
    rewrite Hi1, Hi2 in *. clear. destruct (int_sign s r), (uval s o1 =? uval s o2),
      (swrap (int_bits s) (sval s o1 - sval s o2) =? sval s o1 - sval s o2), (uval s o1 <? uval s o2); reflexivity.
Qed.

(** * Negation *)
Lemma is_least_uval s d : well_formed d -> is_least s d = (uval s d =? 2 ^ (int_bits s - 1)).
Proof.
  intros Hd. unfold is_least, uval, int_bits. pose proof (int_parts_range s d Hd) as Hr. pose proof (part_bits_pos s).
  destruct (int_parts s d) as [|p l _] eqn:E using rev_ind; [by destruct s|].
  apply Forall_app in Hr as [Hr [Hp _]%Forall_cons]. rewrite removelast_last, last_snoc. change (default 0 (Some p)) with p.
  pose proof (f_equal length E) as Hlen. rewrite length_app in Hlen. cbn [length] in Hlen.
  pose proof (int_parts_length s d) as Hc. rewrite digits_value_app, digits_value_cons by lia.
  change (digits_value (part_bits s) []) with 0. rewrite Z.shiftl_1_l.
  pose proof (digits_value_range (part_bits s) l ltac:(lia) Hr) as Hl.
  assert (forallb (Z.eqb 0) l = (digits_value (part_bits s) l =? 0)) as -> by (apply forallb_zero; [lia|done]).
  set (k := Z.of_nat (length l)) in *. replace (part_count s) with (k + 1) by lia.
  replace (part_bits s * (k + 1) - 1) with (part_bits s * k + (part_bits s - 1)) by lia.
  rewrite Z.pow_add_r by lia. set (A := 2 ^ (part_bits s * k)) in *. set (B := 2 ^ (part_bits s - 1)).
  destruct (Z.eqb_spec (digits_value (part_bits s) l) 0) as [->|]; cbn [andb].
  - destruct (Z.eqb_spec p B) as [->|Hne]; symmetry; [apply Z.eqb_eq; lia|apply Z.eqb_neq].
    intros Heq. apply Hne, (Z.mul_reg_l _ _ A); lia.
  - symmetry. apply Z.eqb_neq. intros Heq.
    destruct (Z.le_gt_cases B p); [|assert (A * 1 <= A * (B - p)) by (apply Z.mul_le_mono_nonneg_l; lia); lia].
    assert (A * 0 <= A * (p - B)) by (apply Z.mul_le_mono_nonneg_l; lia). lia.
Qed.

Lemma put_one s : let d := put_parts s [1; 0; 0; 0] in well_formed d /\ uval s d = 1 /\ forall t, ival s t d = 1.
Proof.
  assert (put_parts s [1; 0; 0; 0] = put_parts s (take (Z.to_nat (part_count s)) [1; 0; 0; 0])) as -> by by destruct s.
  assert (Forall (in_u (part_bits s)) (take (Z.to_nat (part_count s)) [1; 0; 0; 0])) as Hf.
  { destruct s; cbn; repeat (apply Forall_cons; split; [done|]); done. }
  destruct (put_exact s 0 (take (Z.to_nat (part_count s)) [1; 0; 0; 0]) 1 0) as [Hex Hu]; [done|by destruct s|by destruct s|].
  cbn zeta. destruct Hex as [Hwf _ _]. rewrite Hu. split; [done|]. split; [done|]. intros t.
  destruct (ival_cases s t _ Hwf) as [_ ->]. rewrite Hu.
  destruct (is_signed t); [|done]. by destruct s.
Qed.

Definition semivalid_status (b : bool) : Z := if b then AR_STAT_SEMIVALID else AR_STAT_OK.

Lemma negate_signed s t o :
  well_formed o -> is_signed t = true ->
  let v := - ival s t o in
  fits s t v = true /\ wrap s t (v - 1) + 1 = v \/
  fits s t v = false /\ wrap s t v = - 2 ^ (int_bits s - 1) /\ wrap s t (v - 1) + 1 = 2 ^ (int_bits s - 1).
Proof.
  intros Ho Es. cbn zeta. unfold wrap, ival. pose proof (sval_range s o Ho) as Hr. pose proof (int_bits_pos s).
  rewrite <- not_true_iff_false, fits_range. unfold in_range. rewrite Es. unfold in_s in *. pose proof (pow2_half (int_bits s) ltac:(lia)).
  destruct (Z.eq_dec (sval s o) (- 2 ^ (int_bits s - 1))) as [E|E]; [right|left]; rewrite ?E.
  - split; [lia|]. split.
    + rewrite <- (swrap_cong (int_bits s) (- - 2 ^ (int_bits s - 1)) (- 2 ^ (int_bits s - 1)) (-1)) by lia.
      apply swrap_id; [lia|]. unfold in_s. lia.
    + rewrite swrap_id; [lia|lia|unfold in_s; lia].
  - split; [lia|]. rewrite swrap_id; [lia|lia|unfold in_s; lia].
Qed.

Lemma status_overflow_semivalid b x :
  let st := Z.lor (overflow_status b) (value_status x) in
  Z.land st (Z.lnot AR_STAT_OVERFLOW) = value_status x /\
  negb (Z.land st AR_STAT_OVERFLOW =? 0) = b /\ negb (Z.land st AR_STAT_NEGATIVE =? 0) = (x <? 0) /\
  (b = true -> Z.lxor st AR_STAT_OVERFLOW = value_status x).
Proof.
  unfold value_status. destruct (Z.eqb_spec x 0) as [->|]; [by destruct b|]. by destruct (x <? 0), b.
Qed.

Lemma negate_exact result s t o :
  int_type s t -> well_formed o ->
  let '(r, st) := ar_negate_integer result t o t in
  let v := - ival s t o in
  exact s t v r /\ st = Z.lor (semivalid_status (is_signed t && negb (fits s t v))) (value_status (wrap s t v)) /\
  (exists k, uval s r = - uval s o + k * 2 ^ int_bits s).
Proof.
  intros [Hcls Hs] Ho. unfold ar_negate_integer. rewrite Hcls, Hs. cbn [negb Z.eqb].
  rewrite Z.eqb_refl. cbn [negb]. pose proof (part_bits_pos s).
  destruct (complement_value (part_bits s) (int_parts s o) ltac:(lia) (int_parts_range s o Ho)) as [Hl Hv].
  rewrite int_parts_length in Hv. fold (int_bits s) (uval s o) in Hv.
  set (l := Z.lxor (Z.ones (part_bits s)) <$> int_parts s o) in *.
  destruct (put_exact s t l (- ival s t o - 1)
     (1 - Z.b2z (is_signed t && (2 ^ (int_bits s - 1) <=? uval s o)))) as [Hex Hu].
  { done. } { unfold l. by rewrite length_fmap, int_parts_length. }
  { destruct (ival_cases s t o Ho) as [_ ->]. rewrite Hv. case_match; cbn [Z.b2z]; lia. }
  destruct (put_one s) as (Hwf1 & Hu1 & Hi1).
  pose proof (add_exact result s t t t (put_parts s l) (put_parts s [1; 0; 0; 0]) Hs eq_refl (exact_wf _ _ _ _ Hex) Hwf1) as Hadd.
  destruct (ar_add_integer _ _ _ _ _ _) as [r st]. rewrite Hi1, Hu1 in Hadd.
  rewrite (exact_value _ _ _ _ Hex) in Hadd. destruct Hadd as ([Hwf Hcan Hval] & Hst & k & Hur).
  set (v := - ival s t o) in *.
  assert (exists j, wrap s t (v - 1) + 1 = v + j * 2 ^ int_bits s) as [j Hj].
  { unfold wrap, swrap, uwrap. pose proof (int_bits_pos s). destruct (is_signed t).
    - exists (- ((v - 1 + 2 ^ (int_bits s - 1)) / 2 ^ int_bits s)). rewrite Z.mod_eq by lia. lia.
    - exists (- ((v - 1) / 2 ^ int_bits s)). rewrite Z.mod_eq by lia. lia. }
  rewrite (wrap_cong s t v _ j Hj) in Hval, Hst.
  assert (exact s t v r) as Hr by done.
  assert (exists k, uval s r = - uval s o + k * 2 ^ int_bits s) as Hk.
  { exists (k + 1 + - Z.b2z (is_signed t && (2 ^ (int_bits s - 1) <=? uval s o)) +
      Z.b2z (is_signed t && (2 ^ (int_bits s - 1) <=? uval s o))). rewrite Hur.
    unfold uval at 1. destruct (put_parts_ok s l Hl) as (-> & _); [unfold l; by rewrite length_fmap, int_parts_length|].
    rewrite Hv. lia. }
  cbn zeta. destruct (is_signed t) eqn:Es; cbn [negb andb].
  - rewrite Hst. destruct (status_overflow_semivalid (negb (fits s t (wrap s t (v - 1) + 1))) (wrap s t v)) as (_ & Hov & Hneg & Hx).
    cbn zeta in *. rewrite Hov, Hneg.
    assert (fits s t (wrap s t (v - 1) + 1) = (wrap s t v =? wrap s t (v - 1) + 1)) as Ef
      by (unfold fits; by rewrite (wrap_cong s t v _ j Hj)).
    destruct (negate_signed s t o Ho Es) as [[Hf Hw]|(Hf & Hw & Hw1)]; fold v in Hf, Hw.
    + rewrite Ef, Hw, Hf. unfold fits in Hf. rewrite Hf. done.
    + fold v in Hw1. rewrite Ef, Hw1, Hf, Hw in *. unfold fits; bits_facts s.
      destruct (Z.eqb_spec (- 2 ^ (int_bits s - 1)) (2 ^ (int_bits s - 1))) as [E|_]; [lia|].
      rewrite (proj2 (Z.ltb_lt (- 2 ^ (int_bits s - 1)) 0)) by lia. cbn [negb andb].
      rewrite is_least_uval by done. destruct (ival_cases s t r Hwf) as [Hru Hri].
      rewrite Es, Hval in Hri. cbn [andb] in Hri.
      destruct (Z.leb_spec (2 ^ (int_bits s - 1)) (uval s r)); [|lia].
      rewrite (proj2 (Z.eqb_eq (uval s r) _)) by lia. cbn [negb] in Hx. rewrite Hx by done.
      split; [done|]. split; [|done]. apply Z.lor_comm.
  - rewrite Hst. destruct (status_overflow_semivalid (negb (fits s t (wrap s t (v - 1) + 1))) (wrap s t v)) as (-> & _). done.
Qed.
End Wrap.
