(* ===== verification/ArMultiply.v ===== *)
(** Integer multiplication is exact: the sum of the partial products, each with
    its overflow, is the product of the magnitudes. *)
From Stdlib Require Import ZArith Lia Bool.
From stdpp Require Import prelude list.
From S2P Require Import Prelude ArData ArInt ArIntProps.

(** * Partial products *)
Lemma partial_mult_value a b :
  in_u 16 a -> in_u 16 b ->
  exists k, 0 <= k < 2 ^ 32 /\ partial_mult a b = a * b + k * 2 ^ 32 /\ 0 <= a * b < 2 ^ 32.
Proof.
  unfold in_u. intros Ha Hb. assert (0 <= a * b <= (2 ^ 16 - 1) * (2 ^ 16 - 1)) as Hp by nia.
  unfold partial_mult, swrap, uwrap. destruct (Z.ltb_spec (a * b) (2 ^ 31)).
  - exists 0. rewrite (Z.mod_small (a * b + _)) by lia. rewrite Z.mod_small by lia. lia.
  - exists (2 ^ 32 - 1). assert ((a * b + 2 ^ (32 - 1)) mod 2 ^ 32 = a * b - 2 ^ 31) as ->.
    { symmetry. apply (Z.mod_unique_pos _ _ 1); lia. }
    assert ((a * b - 2 ^ 31 - 2 ^ (32 - 1)) mod 2 ^ 64 = a * b + (2 ^ 32 - 1) * 2 ^ 32) as ->.
    { symmetry. apply (Z.mod_unique_pos _ _ (-1)); lia. }
    lia.
Qed.

(** What the routines read of a partial product. *)
Lemma partial_mult_facts a b :
  in_u 16 a -> in_u 16 b ->
  let p := partial_mult a b in
  (forall w, 0 <= w <= 16 -> uwrap w p = (a * b) mod 2 ^ w) /\
  uwrap 16 (Z.shiftr p 16) = a * b / 2 ^ 16 /\
  (forall w, 0 <= w <= 16 -> (Z.shiftr p w =? 0) = (a * b <? 2 ^ w)) /\
  Z.land p 0xFFFF = (a * b) mod 2 ^ 16 /\ Z.shiftr (Z.land p 0xFFFF0000) 16 = a * b / 2 ^ 16.
Proof.
  intros Ha Hb. destruct (partial_mult_value a b Ha Hb) as (k & Hk & Hp & Hab). cbn zeta. rewrite Hp.
  assert (forall w, 0 <= w <= 16 -> exists c, 2 ^ 32 = c * 2 ^ w) as Hw.
  { intros w Hw. exists (2 ^ (32 - w)). rewrite <- Z.pow_add_r by lia. f_equal. lia. }
  assert (Z.shiftr (a * b + k * 2 ^ 32) 16 = a * b / 2 ^ 16 + k * 2 ^ 16) as Hs.
  { rewrite Z.shiftr_div_pow2 by lia. change (2 ^ 32) with (2 ^ 16 * 2 ^ 16).
    rewrite Z.mul_assoc, Z.div_add by done. done. }
  assert (0 <= a * b / 2 ^ 16 < 2 ^ 16) as Hq.
  { split; [apply Z.div_pos; lia|apply Z.div_lt_upper_bound; lia]. }
  split; [|split; [|split; [|split]]].
  - intros w Hww. destruct (Hw w Hww) as [c ->]. unfold uwrap. rewrite Z.mul_assoc, Z.mod_add by lia. done.
  - rewrite Hs. unfold uwrap. rewrite Z.mod_add, Z.mod_small by lia. done.
  - intros w Hww. rewrite Z.shiftr_div_pow2 by lia. destruct (Z.ltb_spec (a * b) (2 ^ w)) as [Hlt|Hge].
    + assert (k = 0 \/ 0 < k) as [-> | Hk0] by lia; [by rewrite Z.add_0_r, Z.div_small by lia|].
      exfalso. pose proof (Z.pow_le_mono_r 2 w 16 ltac:(lia) ltac:(lia)).
      destruct (partial_mult_value a b Ha Hb) as (k' & _ & Hp' & _).
      assert (partial_mult a b = a * b) as Hsm; [|lia].
      unfold partial_mult, swrap, uwrap. rewrite (Z.mod_small (a * b + _)) by lia. rewrite Z.mod_small by lia. lia.
    + apply Z.eqb_neq. assert (1 <= (a * b + k * 2 ^ 32) / 2 ^ w); [|lia]. apply Z.div_le_lower_bound; lia.
  - change 0xFFFF with (Z.ones 16). rewrite Z.land_ones by lia. destruct (Hw 16) as [c ->]; [lia|].
    rewrite Z.mul_assoc, Z.mod_add by lia. done.
  - rewrite Z.shiftr_land. change (Z.shiftr 0xFFFF0000 16) with (Z.ones 16). rewrite Z.land_ones, Hs by lia.
    rewrite Z.mod_add, Z.mod_small by lia. done.
Qed.

(** * Accumulating partial products *)
Section Accumulate.
Context `{Host}.

Lemma uval32 d : uval Int32 d = part4 d + 2 ^ 16 * part3 d.
Proof. unfold uval, digits_value. cbn [int_parts foldr part_bits]. lia. Qed.
Lemma uval64 d : uval Int64 d = part4 d + 2 ^ 16 * part3 d + 2 ^ 32 * part2 d + 2 ^ 48 * part1 d.
Proof. unfold uval, digits_value. cbn [int_parts foldr part_bits]. lia. Qed.

(** The accumulator holds [P] modulo the size, and the overflow bit says whether
    [P] is too large (or the bit was set at the start). *)
Definition accumulated (s : int_size) (ov : bool) (P : Z) (st : ar_data * Z) : Prop :=
  0 <= P /\ well_formed (fst st) /\ canonical s (fst st) /\
  uval s (fst st) = P mod 2 ^ int_bits s /\ Z.odd (snd st) = ov || (2 ^ int_bits s <=? P).

(** [f] adds [Q] to the accumulator. *)
Definition adds (s : int_size) (Q : Z) (f : ar_data * Z -> ar_data * Z) : Prop :=
  forall ov P st, accumulated s ov P st -> accumulated s ov (P + Q) (f st).

Lemma adds_zero s : adds s 0 id.
Proof. intros ov P st. by rewrite Z.add_0_r. Qed.

Lemma adds_compose s Q1 Q2 f g : adds s Q1 f -> adds s Q2 g -> adds s (Q1 + Q2) (fun st => g (f st)).
Proof. intros Hf Hg ov P st Hst. rewrite Z.add_assoc. by apply Hg, Hf. Qed.

Lemma adds_when s Q p f : (p = 0 -> Q = 0) -> (p <> 0 -> adds s Q f) -> adds s Q (when_part p f).
Proof.
  intros H0 Hf ov P st Hst. unfold when_part. destruct (Z.eqb_spec p 0) as [E|E]; cbn [negb]; [|by apply Hf].
  by rewrite (H0 E), Z.add_0_r.
Qed.

Lemma odd_lor a b : Z.odd (Z.lor a b) = Z.odd a || Z.odd b.
Proof. by rewrite <- !Z.bit0_odd, Z.lor_spec. Qed.

Lemma odd_overflow st : Z.odd (Z.lor st AR_STAT_OVERFLOW) = true.
Proof. rewrite odd_lor. apply orb_true_r. Qed.

Lemma odd_status b x : Z.odd (Z.lor (overflow_status b) (value_status x)) = b.
Proof. rewrite odd_lor. unfold value_status. destruct (x =? 0), (x <? 0), b; done. Qed.

(** A multiple of the modulus only overflows. *)
Lemma adds_overflow s Q c : 0 < c -> Q = c * 2 ^ int_bits s -> adds s Q (overflow_if true).
Proof.
  intros Hc -> ov P [a st] (HP & Hwf & Hcan & Hu & Ho). pose proof (int_bits_pos s).
  unfold overflow_if, accumulated. cbn [fst snd] in *. split; [nia|]. split; [done|]. split; [done|].
  split; [by rewrite Z.mod_add by lia|]. rewrite odd_overflow.
  rewrite (proj2 (Z.leb_le _ _)) by nia. by rewrite orb_true_r.
Qed.

Lemma add_overflows W P Q : 0 < W -> 0 <= P -> 0 <= Q -> (W <=? P) || (W <=? Q) || (W <=? P mod W + Q mod W) = (W <=? P + Q).
Proof.
  intros HW HP HQ. destruct (Z.leb_spec W P), (Z.leb_spec W Q); cbn [orb]; try (symmetry; apply Z.leb_le; lia).
  by rewrite !Z.mod_small by lia.
Qed.

Lemma adds_accumulate s t temp Q b :
  int_case t = Some s -> is_signed t = false -> well_formed temp -> 0 <= Q ->
  uval s temp = Q mod 2 ^ int_bits s -> b = (2 ^ int_bits s <=? Q) ->
  adds s Q (fun st => accumulate t temp (overflow_if b st)).
Proof.
  intros Hs Ht Htemp HQ Htu -> ov P [a st] (HP & Hwf & Hcan & Hu & Ho). cbn [fst snd] in *.
  unfold accumulate.
  assert (exists st', overflow_if (2 ^ int_bits s <=? Q) (a, st) = (a, st') /\
    Z.odd st' = ov || (2 ^ int_bits s <=? P) || (2 ^ int_bits s <=? Q)) as (st' & -> & Ho').
  { unfold overflow_if. cbn [fst snd]. destruct (2 ^ int_bits s <=? Q); [exists (Z.lor st AR_STAT_OVERFLOW)|exists st].
    - by rewrite odd_overflow, orb_true_r.
    - by rewrite orb_false_r. }
  pose proof (add_exact zero_data s t t t a temp Hs eq_refl Hwf Htemp) as Hadd.
  destruct (ar_add_integer _ _ _ _ _ _) as [r st2]. destruct Hadd as (Hex & -> & _).
  assert (forall d, ival s t d = uval s d) as Hi by (intros d; unfold ival; by rewrite Ht).
  destruct Hex as [Hrwf Hrc Hrv]. unfold accumulated. cbn [fst snd]. pose proof (int_bits_pos s).
  assert (0 < 2 ^ int_bits s) as HW by (apply Z.pow_pos_nonneg; lia).
  rewrite !Hi in *. rewrite Hrv, Hu, Htu. unfold fits, wrap. rewrite Ht. unfold uwrap. rewrite <- Z.add_mod by lia.
  split; [lia|]. split; [done|]. split; [done|]. split; [done|].
  rewrite odd_lor, Ho', odd_status, <- (add_overflows (2 ^ int_bits s) P Q), !orb_assoc by lia. f_equal.
  pose proof (Z.mod_pos_bound P (2 ^ int_bits s) HW). pose proof (Z.mod_pos_bound Q (2 ^ int_bits s) HW).
  destruct (Z.leb_spec (2 ^ int_bits s) (P mod 2 ^ int_bits s + Q mod 2 ^ int_bits s)).
  - apply negb_true_iff, Z.eqb_neq. pose proof (Z.mod_pos_bound (P + Q) (2 ^ int_bits s) HW). lia.
  - rewrite Z.add_mod, Z.mod_small by lia. by rewrite Z.eqb_refl.
Qed.

(** The accumulated terms: a partial product, shifted by whole fields. *)
Section Terms.
Variables a b : Z.
Hypotheses (Ha : in_u 16 a) (Hb : in_u 16 b).
Let p := partial_mult a b.

Lemma product_bounds : 0 <= a * b < 2 ^ 32.
Proof. by destruct (partial_mult_value a b Ha Hb) as (_ & _ & _ & ?). Qed.

Lemma product_fields :
  in_u 16 (uwrap 16 p) /\ in_u 16 (uwrap 16 (Z.shiftr p 16)) /\
  a * b = uwrap 16 p + 2 ^ 16 * uwrap 16 (Z.shiftr p 16).
Proof.
  split; [by apply uwrap_range|]. split; [by apply uwrap_range|].
  destruct (partial_mult_facts a b Ha Hb) as (H1 & H2 & _). unfold p. rewrite H1, H2 by lia.
  pose proof (Z.div_mod (a * b) (2 ^ 16)). lia.
Qed.

Lemma adds_high32 :
  adds Int32 (2 ^ 16 * (a * b)) (fun st =>
    accumulate AR_Int_32_U (mkData 0 0 (uwrap 16 p) 0) (overflow_if (negb (Z.shiftr p 16 =? 0)) st)).
Proof.
  pose proof product_bounds. destruct product_fields as (Hr & _ & _).
  destruct (partial_mult_facts a b Ha Hb) as (H1 & _ & H3 & _).
  apply adds_accumulate; [done|done|done|lia| |].
  - rewrite uval32. cbn [part3 part4]. unfold p. rewrite H1 by lia. change (2 ^ int_bits Int32) with (2 ^ 16 * 2 ^ 16).
    rewrite Z.mul_mod_distr_l by done. lia.
  - unfold p. rewrite H3 by lia. change (2 ^ int_bits Int32) with (2 ^ 16 * 2 ^ 16).
    destruct (Z.ltb_spec (a * b) (2 ^ 16)); symmetry; [apply Z.leb_gt|apply Z.leb_le]; lia.
Qed.

Lemma adds_high64 :
  adds Int64 (2 ^ 48 * (a * b)) (fun st =>
    accumulate AR_Int_64_U (mkData (uwrap 16 p) 0 0 0) (overflow_if (negb (Z.shiftr p 16 =? 0)) st)).
Proof.
  pose proof product_bounds. destruct product_fields as (Hr & _ & _).
  destruct (partial_mult_facts a b Ha Hb) as (H1 & _ & H3 & _).
  apply adds_accumulate; [done|done|done|lia| |].
  - rewrite uval64. cbn [part1 part2 part3 part4]. unfold p. rewrite H1 by lia.
    change (2 ^ int_bits Int64) with (2 ^ 48 * 2 ^ 16). rewrite Z.mul_mod_distr_l by done. lia.
  - unfold p. rewrite H3 by lia. change (2 ^ int_bits Int64) with (2 ^ 48 * 2 ^ 16).
    destruct (Z.ltb_spec (a * b) (2 ^ 16)); symmetry; [apply Z.leb_gt|apply Z.leb_le]; lia.
Qed.

Lemma adds_mid64 :
  adds Int64 (2 ^ 32 * (a * b)) (accumulate AR_Int_64_U (mkData (uwrap 16 (Z.shiftr p 16)) (uwrap 16 p) 0 0)).
Proof.
  pose proof product_bounds. destruct product_fields as (Hr & Hr' & Hs).
  apply (adds_accumulate Int64 AR_Int_64_U _ _ false); [done|done|done|lia| |].
  - rewrite uval64. cbn [part1 part2 part3 part4]. unfold int_bits. cbn [part_bits part_count]. rewrite Z.mod_small by lia. lia.
  - symmetry. apply Z.leb_gt. unfold int_bits. cbn [part_bits part_count]. lia.
Qed.

Lemma adds_low64 :
  adds Int64 (2 ^ 16 * (a * b)) (accumulate AR_Int_64_U (mkData 0 (uwrap 16 (Z.shiftr p 16)) (uwrap 16 p) 0)).
Proof.
  pose proof product_bounds. destruct product_fields as (Hr & Hr' & Hs).
  apply (adds_accumulate Int64 AR_Int_64_U _ _ false); [done|done|done|lia| |].
  - rewrite uval64. cbn [part1 part2 part3 part4]. unfold int_bits. cbn [part_bits part_count]. rewrite Z.mod_small by lia. lia.
  - symmetry. apply Z.leb_gt. unfold int_bits. cbn [part_bits part_count]. lia.
Qed.
End Terms.

Lemma accumulated_first s status a b :
  s = Int32 \/ s = Int64 -> in_u 16 a -> in_u 16 b ->
  let p := partial_mult a b in
  accumulated s (Z.odd status) (a * b) (mkData 0 0 (Z.shiftr (Z.land p 0xFFFF0000) 16) (Z.land p 0xFFFF), status).
Proof.
  intros Hs Ha Hb. cbn zeta. pose proof (product_bounds a b Ha Hb).
  destruct (partial_mult_facts a b Ha Hb) as (_ & _ & _ & -> & ->).
  assert (0 <= a * b / 2 ^ 16 < 2 ^ 16) by (split; [apply Z.div_pos; lia|apply Z.div_lt_upper_bound; lia]).
  pose proof (Z.mod_pos_bound (a * b) (2 ^ 16) ltac:(lia)). pose proof (Z.div_mod (a * b) (2 ^ 16)).
  assert (in_u 16 0) by done. unfold accumulated. cbn [fst snd].
  split; [lia|]. split; [unfold well_formed, in_u; cbn [part1 part2 part3 part4]; lia|]. split; [by destruct Hs as [-> | ->]|].
  assert (2 ^ 32 <= 2 ^ int_bits s) as HW by (by destruct Hs as [-> | ->]).
  rewrite (Z.mod_small (a * b) (2 ^ int_bits s)), (proj2 (Z.leb_gt (2 ^ int_bits s) (a * b))), orb_false_r by lia.
  split; [|done]. destruct Hs as [-> | ->]; rewrite ?uval32, ?uval64; cbn [part1 part2 part3 part4]; lia.
Qed.

Lemma accumulated_apply s ov P Q P' f st :
  adds s Q f -> accumulated s ov P st -> P' = P + Q -> accumulated s ov P' (f st).
Proof. intros Hf Hst ->. by apply Hf. Qed.

Lemma multiply32_value m1 m2 status :
  well_formed m1 -> well_formed m2 ->
  accumulated Int32 (Z.odd status) (uval Int32 m1 * uval Int32 m2) (multiply32 m1 m2 status).
Proof.
  intros (_ & _ & Ha & Hb) (_ & _ & Hc & Hd). unfold multiply32. cbv zeta. rewrite !uval32.
  set (a := part3 m1) in *. set (b := part4 m1) in *. set (c := part3 m2) in *. set (d := part4 m2) in *.
  eapply (accumulated_apply _ _ _ (2 ^ 16 * (b * c) + (a * c) * 2 ^ int_bits Int32)).
  { apply adds_when; [intros ->; lia|intros Hc0]. apply (adds_compose Int32 (2 ^ 16 * (b * c)) _ (when_part b _) (when_part a _)).
    - apply adds_when; [intros ->; lia|intros _]. by apply adds_high32.
    - apply adds_when; [intros ->; lia|intros Ha0]. apply (adds_overflow _ _ (a * c)); [|done]. unfold in_u in *. nia. }
  { eapply (accumulated_apply _ _ _ (2 ^ 16 * (a * d))); [|apply accumulated_first; auto|reflexivity].
    apply adds_when; [intros ->; lia|intros Hd0]. apply adds_when; [intros ->; lia|intros _]. by apply adds_high32. }
  change (2 ^ int_bits Int32) with (2 ^ 16 * 2 ^ 16). ring.
Qed.

Lemma adds_compose2 s Q1 Q2 Q3 f g h :
  adds s Q1 f -> adds s Q2 g -> adds s Q3 h -> adds s (Q1 + Q2 + Q3) (fun st => h (g (f st))).
Proof. intros Hf Hg Hh. apply (adds_compose s _ _ (fun st => g (f st)) h); [by apply adds_compose|done]. Qed.

Lemma adds_compose3 s Q1 Q2 Q3 Q4 f g h k :
  adds s Q1 f -> adds s Q2 g -> adds s Q3 h -> adds s Q4 k -> adds s (Q1 + Q2 + Q3 + Q4) (fun st => k (h (g (f st)))).
Proof. intros Hf Hg Hh Hk. apply (adds_compose s _ _ (fun st => h (g (f st))) k); [by apply adds_compose2|done]. Qed.

Create HintDb adds.
#[local] Hint Resolve adds_low64 adds_mid64 adds_high64 : adds.
#[local] Hint Extern 1 (_ = 0 -> _ = 0) => intros ->; lia : adds.
#[local] Hint Extern 2 (adds _ _ (when_part _ _)) => apply adds_when; [|intros _] : adds.

Lemma multiply64_value m1 m2 status :
  well_formed m1 -> well_formed m2 ->
  accumulated Int64 (Z.odd status) (uval Int64 m1 * uval Int64 m2) (multiply64 m1 m2 status).
Proof.
  intros (Ha & Hb & Hc & Hd) (He & Hf & Hg & Hh). unfold multiply64. cbv zeta. rewrite !uval64.
  set (a := part1 m1) in *. set (b := part2 m1) in *. set (c := part3 m1) in *. set (d := part4 m1) in *.
  set (e := part1 m2) in *. set (f := part2 m2) in *. set (g := part3 m2) in *. set (h := part4 m2) in *.
  assert (forall x y z, Z.lor (Z.lor x y) z = 0 -> x = 0 /\ y = 0 /\ z = 0) as Hlor3.
  { intros x y z. rewrite !Z.lor_eq_0_iff. tauto. }
  eapply (accumulated_apply _ _ _ (2 ^ 48 * (d * e) + (c * e + 2 ^ 16 * (b * e) + 2 ^ 32 * (a * e)) * 2 ^ int_bits Int64)).
  { apply adds_when; [intros ->; lia|intros He0].
    apply (adds_compose Int64 (2 ^ 48 * (d * e)) _ (when_part d _) (when_part (Z.lor (Z.lor a b) c) _)); [auto with adds|].
    apply adds_when; [intros (-> & -> & ->)%Hlor3; lia|].
    intros Hn. eapply adds_overflow; [|reflexivity]. unfold in_u in *.
    assert (a <> 0 \/ b <> 0 \/ c <> 0) as Hor by (rewrite !Z.lor_eq_0_iff in Hn; lia). nia. }
  { eapply (accumulated_apply _ _ _ (2 ^ 32 * (d * f) + 2 ^ 48 * (c * f) + (b * f + 2 ^ 16 * (a * f)) * 2 ^ int_bits Int64)).
    { apply adds_when; [intros ->; lia|intros Hf0].
      apply (adds_compose2 Int64 (2 ^ 32 * (d * f)) (2 ^ 48 * (c * f)) _ (when_part d _) (when_part c _) (when_part (Z.lor a b) _));
        [auto with adds|auto with adds|].
      apply adds_when; [intros (-> & ->)%Z.lor_eq_0_iff; lia|].
      intros Hn. eapply adds_overflow; [|reflexivity]. unfold in_u in *.
      assert (a <> 0 \/ b <> 0) as Hor by (rewrite !Z.lor_eq_0_iff in Hn; lia). nia. }
    { eapply (accumulated_apply _ _ _ (2 ^ 16 * (d * g) + 2 ^ 32 * (c * g) + 2 ^ 48 * (b * g) + (a * g) * 2 ^ int_bits Int64)).
      { apply adds_when; [intros ->; lia|intros Hg0].
        apply (adds_compose3 Int64 _ _ _ _ (when_part d _) (when_part c _) (when_part b _) (when_part a _));
          [auto with adds|auto with adds|auto with adds|].
        apply adds_when; [intros ->; lia|]. intros Hn. eapply adds_overflow; [|reflexivity]. unfold in_u in *. nia. }
      { eapply (accumulated_apply _ _ _ (2 ^ 16 * (c * h) + 2 ^ 32 * (b * h) + 2 ^ 48 * (a * h)));
          [|apply accumulated_first; auto|reflexivity].
        apply adds_when; [intros ->; lia|intros Hh0].
        apply (adds_compose2 Int64 _ _ _ (when_part c _) (when_part b _) (when_part a _)); auto with adds. }
      reflexivity. }
    reflexivity. }
  change (2 ^ int_bits Int64) with (2 ^ 48 * 2 ^ 16). ring.
Qed.

Lemma multiply_single_value s m1 m2 status :
  s = Int8 \/ s = Int16 -> well_formed m1 -> well_formed m2 ->
  accumulated s (Z.odd status) (uval s m1 * uval s m2) (multiply_single s m1 m2 status).
Proof.
  intros Hs H1 H2. unfold multiply_single.
  assert (forall d, well_formed d -> int_parts s d = [uval s d] /\ in_u (part_bits s) (uval s d) /\ in_u 16 (uval s d)) as Hp.
  { intros d Hd. pose proof (int_parts_range s d Hd) as Hr. pose proof (part_bits_pos s).
    assert (exists x, int_parts s d = [x]) as [x Hx] by (destruct Hs as [-> | ->]; eexists; reflexivity).
    assert (uval s d = x) as -> by (unfold uval; rewrite Hx, digits_value_cons; cbn; lia).
    rewrite Hx in *. apply Forall_cons in Hr as [Hr _]. split; [done|]. split; [done|]. unfold in_u in *.
    pose proof (Z.pow_le_mono_r 2 (part_bits s) 16). lia. }
  destruct (Hp m1 H1) as (-> & Ha & Ha'). destruct (Hp m2 H2) as (-> & Hb & Hb'). cbn [head].
  change (default 0 (Some (uval s m1))) with (uval s m1). change (default 0 (Some (uval s m2))) with (uval s m2).
  set (a := uval s m1) in *. set (b := uval s m2) in *.
  destruct (partial_mult_facts a b Ha' Hb') as (Hr & _ & Hz & _). pose proof (part_bits_pos s).
  pose proof (product_bounds a b Ha' Hb').
  assert (int_bits s = part_bits s) as Hib by (by destruct Hs as [-> | ->]).
  assert (part_count s = 1) as Hpc by (by destruct Hs as [-> | ->]).
  rewrite Hr, Hz by lia. pose proof (uwrap_range (part_bits s) (a * b) ltac:(lia)) as Hu. unfold uwrap in Hu.
  destruct (put_exact s 0 [(a * b) mod 2 ^ part_bits s] ((a * b) mod 2 ^ part_bits s) 0) as [[Hwf Hcan _] Huv];
    [by apply Forall_cons|by rewrite Hpc|rewrite digits_value_cons; cbn; lia|].
  rewrite Z.mul_0_l, Z.add_0_r in Huv. unfold accumulated, overflow_if. rewrite Hib.
  destruct (Z.ltb_spec (a * b) (2 ^ part_bits s)) as [Hlt|Hge]; cbn [negb fst snd].
  - rewrite (proj2 (Z.leb_gt _ _)), orb_false_r by done. split; [lia|]. auto.
  - rewrite (proj2 (Z.leb_le _ _)), orb_true_r, odd_overflow by done. split; [lia|]. auto.
Qed.

Definition multiply (s : int_size) : ar_data -> ar_data -> Z -> ar_data * Z :=
  match s with Int8 | Int16 => multiply_single s | Int32 => multiply32 | Int64 => multiply64 end.

Lemma multiply_value s m1 m2 status :
  well_formed m1 -> well_formed m2 ->
  accumulated s (Z.odd status) (uval s m1 * uval s m2) (multiply s m1 m2 status).
Proof.
  destruct s; cbn [multiply]; auto using multiply_single_value, multiply32_value, multiply64_value.
Qed.

Lemma magnitude_value s t d :
  int_type s t -> well_formed d -> well_formed (magnitude s t d) /\ uval s (magnitude s t d) = Z.abs (ival s t d).
Proof.
  intros Ht Hd. unfold magnitude. destruct (ival_cases s t d Hd) as [Hu Hi]. rewrite <- int_sign_uval in Hi by done.
  destruct (is_signed t && int_sign s d) eqn:E; [|split; [done|lia]].
  apply andb_true_iff in E as [Es E]. rewrite int_sign_uval in E by done. apply Z.leb_le in E.
  pose proof (negate_exact zero_data s t d Ht Hd) as Hn. destruct (ar_negate_integer _ _ _ _) as [r st].
  destruct Hn as ([Hwf _ _] & _ & k & Hk). cbn [fst]. split; [done|]. pose proof (uval_range s r Hwf) as Hr.
  unfold in_u in Hr. rewrite Hi. bits_facts s. assert (k = 1) as -> by nia. lia.
Qed.

(** ** 46-bit integers *)
Lemma land_high p : in_u 16 p -> Z.land p 0xe000 = p / 2 ^ 13 * 2 ^ 13.
Proof.
  intros Hp. unfold in_u in Hp. rewrite <- Z.shiftr_div_pow2, <- Z.shiftl_mul_pow2 by lia.
  change 0xe000 with (Z.shiftl (Z.ones 3) 13). apply Z.bits_inj'. intros i Hi.
  rewrite Z.land_spec. destruct (Z.ltb_spec i 13).
  - rewrite !Z.shiftl_spec_low by lia. apply andb_false_r.
  - rewrite !Z.shiftl_spec, Z.shiftr_spec by lia. replace (i - 13 + 13) with i by lia.
    destruct (Z.ltb_spec i 16); [rewrite Z.ones_spec_low by lia; apply andb_true_r|].
    by rewrite (testbit_high 16 p) by (lia || done).
Qed.

Definition fits46 (v : Z) : bool := (- 2 ^ 45 <=? v) && (v <? 2 ^ 45).

Lemma overflows_46 d : well_formed d -> INT_OVERFLOWS_46_BITS d = negb (fits46 (sval Int64 d)).
Proof.
  intros Hd. pose proof Hd as (H1 & H2 & H3 & H4). unfold INT_OVERFLOWS_46_BITS, fits46.
  rewrite land_high by done. change 0xffff with (Z.ones 16). rewrite Z.land_ones, Z.mod_small by (done || lia).
  rewrite sval_uval, int_sign_uval, uval64 by done. unfold int_bits. cbn [part_bits part_count]. unfold in_u in *.
  pose proof (Z.div_mod (part2 d) (2 ^ 13)). pose proof (Z.mod_pos_bound (part2 d) (2 ^ 13)).
  set (q := part2 d / 2 ^ 13) in *. set (r := part2 d mod 2 ^ 13) in *. assert (0 <= q < 8) by lia.
  change (Z.ones 16) with 65535.
  destruct (Z.leb_spec (2 ^ (16 * 4 - 1)) (part4 d + 2 ^ 16 * part3 d + 2 ^ 32 * part2 d + 2 ^ 48 * part1 d)).
  - rewrite (proj2 (Z.eqb_neq (part1 d) 0)) by lia. cbn [negb orb]. rewrite andb_true_r.
    rewrite (proj2 (Z.ltb_lt _ (2 ^ 45))), andb_true_r by lia. rewrite <- negb_andb. f_equal.
    apply eq_true_iff_eq. rewrite andb_true_iff, !Z.eqb_eq, Z.leb_le. lia.
  - rewrite (proj2 (Z.eqb_neq (part1 d) 65535)) by lia. cbn [negb orb andb].
    rewrite (proj2 (Z.leb_le (- 2 ^ 45) _)) by lia. cbn [andb]. rewrite <- negb_andb. f_equal.
    apply eq_true_iff_eq. rewrite andb_true_iff, !Z.eqb_eq, Z.ltb_lt. lia.
Qed.

Lemma overflow_if_split b (d : ar_data) st :
  overflow_if b (d, st) = (d, snd (overflow_if b (d, st))) /\ Z.odd (snd (overflow_if b (d, st))) = Z.odd st || b.
Proof. destruct b; unfold overflow_if; cbn [snd fst]; rewrite ?odd_overflow, ?orb_true_r, ?orb_false_r; done. Qed.

Lemma land_overflow st : Z.land st AR_STAT_OVERFLOW = overflow_status (Z.odd st).
Proof.
  change AR_STAT_OVERFLOW with (Z.ones 1) at 1. rewrite Z.land_ones by lia. change (2 ^ 1) with 2.
  rewrite Zmod_odd. by destruct (Z.odd st).
Qed.

Lemma overflows_46_type s t d :
  int_type s t -> well_formed d ->
  (t =? AR_Int_46_S) && INT_OVERFLOWS_46_BITS d = (t =? AR_Int_46_S) && negb (fits46 (ival s t d)).
Proof.
  intros [_ Hs] Hd. destruct (Z.eqb_spec t AR_Int_46_S) as [->|]; [|done]. cbn [andb].
  injection Hs as <-. by apply overflows_46.
Qed.

(** Give the sign back to the product of the magnitudes: the result is exact, and
    a wrong sign is how the routine sees that the product does not fit. *)
Lemma signed_product old s t P st accum ov v (neg : bool) :
  int_type s t -> accumulated s ov P (accum, st) -> (neg = true -> is_signed t = true) ->
  v = (if neg then - P else P) ->
  let '(r, st') :=
    if neg then
      let '(r, _) := ar_negate_integer old t accum t in
      overflow_if (negb (int_sign s r) && negb (int_zero s r)) (r, st)
    else overflow_if (int_sign s accum && is_signed t) (accum, st) in
  exact s t v r /\ Z.odd st' = ov || negb (fits s t v).
Proof.
  intros Ht (HPn & Hwf & Hcan & Hu & Ho) Hneg ->. cbn [fst snd] in *. bits_facts s.
  pose proof (Z.div_mod P (2 ^ int_bits s) ltac:(lia)) as Hdm. pose proof (Z.mod_pos_bound P (2 ^ int_bits s) ltac:(lia)) as Hm.
  destruct neg.
  - specialize (Hneg eq_refl). pose proof (negate_exact old s t accum Ht Hwf) as Hn.
    destruct (ar_negate_integer _ _ _ _) as [r st0]. destruct Hn as ([Hrwf Hrc Hrv] & _ & k & Hk).
    destruct (overflow_if_split (negb (int_sign s r) && negb (int_zero s r)) r st) as [-> Hodd]. cbn [snd] in *.
    assert (exact s t (- P) r) as Hex.
    { split; [done|done|]. apply (ival_wrap s t r (- P) (k + P / 2 ^ int_bits s)); [done|]. rewrite Hk, Hu. lia. }
    split; [done|]. rewrite Hodd, Ho, <- orb_assoc. f_equal. pose proof (uval_range s r Hrwf) as Hr. unfold in_u in Hr.
    unfold fits. rewrite (wrap_signed s t _ r Hneg Hex), int_zero_uval, int_sign_uval by done. rewrite Hu in Hk.
    destruct (Z.leb_spec (2 ^ int_bits s) P); cbn [orb].
    { symmetry. apply negb_true_iff, Z.eqb_neq. case_match; lia. }
    rewrite Z.mod_small in Hk by lia. assert (P = 0 /\ k = 0 \/ 0 < P /\ k = 1) as [[-> ->]|[HP0 ->]] by nia.
    + assert (uval s r = 0) as -> by lia. rewrite (proj2 (Z.leb_gt _ 0)) by lia. done.
    + destruct (Z.eqb_spec (uval s r) 0); [lia|]. cbn [negb]. rewrite andb_true_r.
      destruct (Z.leb_spec (2 ^ (int_bits s - 1)) (uval s r)); cbn [negb]; symmetry;
        [apply negb_false_iff, Z.eqb_eq|apply negb_true_iff, Z.eqb_neq]; lia.
  - destruct (overflow_if_split (int_sign s accum && is_signed t) accum st) as [-> Hodd]. cbn [snd] in *.
    assert (exact s t P accum) as Hex.
    { split; [done|done|]. apply (ival_wrap s t accum P (- (P / 2 ^ int_bits s))); [done|]. rewrite Hu. lia. }
    split; [done|]. rewrite Hodd, Ho, <- orb_assoc. f_equal. unfold fits. rewrite int_sign_uval by done.
    destruct (is_signed t) eqn:Es; rewrite ?andb_true_r, ?andb_false_r, ?orb_false_r.
    + rewrite (wrap_signed s t _ accum Es Hex), int_sign_uval, Hu by done. destruct (Z.leb_spec (2 ^ int_bits s) P); cbn [orb].
      * symmetry. apply negb_true_iff, Z.eqb_neq. case_match; lia.
      * rewrite Z.mod_small by lia. destruct (Z.leb_spec (2 ^ (int_bits s - 1)) P); symmetry;
          [apply negb_true_iff, Z.eqb_neq|apply negb_false_iff, Z.eqb_eq]; lia.
    + rewrite (wrap_unsigned s t _ accum Es Hex), Hu. destruct (Z.leb_spec (2 ^ int_bits s) P); symmetry.
      * apply negb_true_iff, Z.eqb_neq. lia.
      * apply negb_false_iff, Z.eqb_eq. rewrite Z.mod_small; lia.
Qed.

Lemma sign_ival s t d : well_formed d -> is_signed t && int_sign s d = (ival s t d <? 0).
Proof.
  intros Hd. unfold ival. destruct (is_signed t); cbn [andb]; [by apply int_sign_sval|].
  pose proof (uval_range s d Hd) as Hu. unfold in_u in Hu. symmetry. apply Z.ltb_ge. lia.
Qed.

Lemma multiply_exact result s t o1 o2 :
  int_type s t -> well_formed o1 -> well_formed o2 ->
  let '(r, st) := ar_multiply_integer result t o1 t o2 t in
  let x := ival s t o1 in
  let y := ival s t o2 in
  let v := x * y in
  exact s t v r /\
  st = Z.lor (overflow_status (negb (fits s t v) ||
                (t =? AR_Int_46_S) && negb (fits46 x && fits46 y && fits46 (wrap s t v))))
             (value_status (wrap s t v)).
Proof.
  intros Ht H1 H2. pose proof (proj2 Ht) as Hs. unfold ar_multiply_integer. rewrite Hs.
  rewrite !(overflows_46_type s t) by done.
  set (b1 := (t =? AR_Int_46_S) && negb (fits46 (ival s t o1))). set (b2 := (t =? AR_Int_46_S) && negb (fits46 (ival s t o2))).
  destruct (overflow_if_split b1 result AR_STAT_OK) as [-> Hodd1]. cbn [snd] in Hodd1.
  set (st1 := snd (overflow_if b1 _)) in *. destruct (overflow_if_split b2 result st1) as [-> Hodd2]. cbn [snd] in Hodd2.
  set (st2 := snd (overflow_if b2 _)) in *.
  destruct (magnitude_value s t o1 Ht H1) as [Hm1 Hv1]. destruct (magnitude_value s t o2 Ht H2) as [Hm2 Hv2].
  pose proof (multiply_value s _ _ st2 Hm1 Hm2) as Hmul. rewrite Hv1, Hv2 in Hmul.
  replace (match s with Int8 | Int16 => multiply_single s (magnitude s t o1) (magnitude s t o2) st2
     | Int32 => multiply32 (magnitude s t o1) (magnitude s t o2) st2
     | Int64 => multiply64 (magnitude s t o1) (magnitude s t o2) st2 end)
    with (multiply s (magnitude s t o1) (magnitude s t o2) st2) by (by destruct s).
  destruct (multiply s _ _ st2) as [accum st3]. rewrite !(sign_ival s t) by done.
  set (x := ival s t o1) in *. set (y := ival s t o2) in *.
  assert (xorb (x <? 0) (y <? 0) = true -> is_signed t = true) as Hneg.
  { intros Hx. destruct (is_signed t) eqn:Es; [done|]. exfalso. revert Hx. unfold x, y, ival. rewrite Es.
    pose proof (uval_range s o1 H1). pose proof (uval_range s o2 H2). unfold in_u in *.
    by rewrite !(proj2 (Z.ltb_ge _ 0)) by lia. }
  assert (x * y = if xorb (x <? 0) (y <? 0) then - (Z.abs x * Z.abs y) else Z.abs x * Z.abs y) as Hv.
  { destruct (Z.ltb_spec x 0), (Z.ltb_spec y 0); cbn [xorb]; nia. }
  pose proof (signed_product result s t _ st3 accum _ (x * y) (xorb (x <? 0) (y <? 0)) Ht Hmul Hneg Hv) as Hsp.
  clear Hv. destruct (if xorb (x <? 0) (y <? 0) then _ else _) as [r st4]. destruct Hsp as [Hex Ho4].
  rewrite (overflows_46_type s t r Ht (exact_wf _ _ _ _ Hex)), (exact_value _ _ _ _ Hex).
  set (b3 := (t =? AR_Int_46_S) && negb (fits46 (wrap s t (x * y)))).
  destruct (overflow_if_split b3 r st4) as [-> Hodd3]. cbn [snd] in *. cbn zeta. split; [done|].
  rewrite land_overflow, Hodd3, Ho4, Hodd2, Hodd1, (value_wrap_status s t _ r Hex). f_equal. f_equal.
  unfold b1, b2, b3. fold x y. destruct (t =? AR_Int_46_S), (fits s t (x * y)), (fits46 x), (fits46 y),
    (fits46 (wrap s t (x * y))); reflexivity.
Qed.
End Accumulate.
