(* ===== verification/ArBits.v ===== *)
(** Bitwise operations, shifts and bit counts on integers: the model of
    [arith/bits.c].

    As in [ArInt], a [switch] whose cases differ in the fields that an integer
    occupies is one definition over the list of the fields.  The result never
    overlaps an operand; where the sources pass the same object twice, the
    operand is read before the result is written.  A call of [ar_internal_error],
    which does not return, is [Err Fatal]. *)
From Stdlib Require Import ZArith Lia Bool.
From stdpp Require Import prelude list.
From S2P Require Import Prelude ArData ArInt.

Definition AR_FLOAT_SIZE (t : AR_TYPE) : Z := Z.land t 0x6.
Definition AR_FLOAT_IS_COMPLEX (t : AR_TYPE) : Z := Z.land t 0x1.
Definition AR_FLOAT_SIMPLE : Z := 0.
Definition AR_FLOAT_32 : Z := Z.shiftl 0 1.
Definition AR_FLOAT_64 : Z := Z.shiftl 1 1.

Section Bits.
Context `{Host}.

(** [ZERO_INTn(d)]: only the fields of the integer. *)
Definition clear_int (s : int_size) (d : ar_data) : ar_data :=
  match s with
  | Int8 => mkData (part1 d) (part2 d) (part3 d) (Z.land (part4 d) (if big_endian then 0xFF00 else 0xFF))
  | Int16 => mkData (part1 d) (part2 d) (part3 d) 0
  | Int32 => mkData (part1 d) (part2 d) 0 0
  | Int64 => zero_data
  end.

(** [AR_bitor], [AR_bitand] and [AR_bitxor], the instances of the macro [bitoper] *)
Definition bitoper (opr : Z -> Z -> Z) (result : ar_data) (resulttype : AR_TYPE) (opnd1 : ar_data)
    (opnd1type : AR_TYPE) (opnd2 : ar_data) (opnd2type : AR_TYPE) : ar_data * Z :=
  if negb (opnd1type =? resulttype) || negb (opnd2type =? resulttype) || negb (AR_CLASS resulttype =? AR_CLASS_INT)
  then (result, AR_STAT_INVALID_TYPE)
  else
    match int_case opnd1type with
    | None => (result, AR_STAT_INVALID_TYPE)
    | Some s =>
        let result := put_parts s (zip_with opr (int_parts s opnd1) (int_parts s opnd2)) in
        (result, AR_status_int result resulttype)
    end.
Definition AR_bitor := bitoper Z.lor.
Definition AR_bitand := bitoper Z.land.
Definition AR_bitxor := bitoper Z.lxor.

(** The fields outside the integer keep what they were. *)
Definition AR_bitcomplement (result : ar_data) (resulttype : AR_TYPE) (opnd1 : ar_data) (opnd1type : AR_TYPE)
    : ar_data * Z :=
  if negb (resulttype =? opnd1type) || negb (AR_CLASS resulttype =? AR_CLASS_INT)
  then (result, AR_STAT_INVALID_TYPE)
  else
    let compl b x := Z.land (Z.lnot x) (Z.ones b) in
    match int_case opnd1type with
    | None => (result, AR_STAT_INVALID_TYPE)
    | Some s =>
        let result :=
          match s with
          | Int8 => mkData (part1 result) (part2 result) (part3 result)
                      (Z.lor (part4 (clear_int Int8 result)) (with_part5 (compl 8 (part5 opnd1))))
          | Int16 => mkData (part1 result) (part2 result) (part3 result) (compl 16 (part4 opnd1))
          | Int32 => mkData (part1 result) (part2 result) (compl 16 (part3 opnd1)) (compl 16 (part4 opnd1))
          | Int64 => mkData (compl 16 (part1 opnd1)) (compl 16 (part2 opnd1)) (compl 16 (part3 opnd1)) (compl 16 (part4 opnd1))
          end in
        (result, AR_status_int result resulttype)
    end.

(** * Shifts *)

(** [chunk [i]] of the fields [ms] of both operands, most significant first: the
    field shifted right, with the bits that fall out of the field before it. *)
Definition chunk (b : Z) (ms : list Z) (sc : Z) (i : Z) : Z :=
  let lsc := b - sc in
  let at_ j := default 0 (zlookup ms (j mod zlen ms)) in
  uwrap 32 (Z.lor (Z.shiftr (at_ i) sc) (Z.shiftl (at_ (i - 1)) lsc)).

(** A right circular shift of the two operands; the result is its least
    significant half. *)
Definition ar_dblshift (result : ar_data) (resulttype : AR_TYPE) (opnd1 opnd2 : ar_data) (shiftcount : Z)
    : outcome ar_data :=
  match int_case resulttype with
  | None => Ok result
  | Some s =>
      if (shiftcount <? 0) || (2 * int_bits s <? shiftcount) then Err Fatal
      else
        let b := part_bits s in
        let n := part_count s in
        let ms := rev (int_parts s opnd1) ++ rev (int_parts s opnd2) in
        let sc := (2 * n - shiftcount / b) + n in
        let chunks := (fun j => Z.land (chunk b ms (shiftcount mod b) (sc + Z.of_nat j)) (Z.ones b)) <$> seq 0 (Z.to_nat n) in
        Ok (put_parts s (rev chunks))
  end.

(** The integer [count] is larger than [max], a number that fits the least
    significant field. *)
Definition count_above (s : int_size) (max : Z) (count : ar_data) : bool :=
  let l := int_parts s count in
  negb (forallb (Z.eqb 0) (tail l)) || (max <? default 0 (head l)).
Definition count_low (s : int_size) (count : ar_data) : Z := default 0 (head (int_parts s count)).

Definition AR_dshiftl (result : ar_data) (resulttype : AR_TYPE) (opnd1 : ar_data) (opnd1type : AR_TYPE)
    (opnd2 : ar_data) (opnd2type : AR_TYPE) (count : ar_data) (counttype : AR_TYPE) : outcome (ar_data * Z) :=
  if negb (resulttype =? opnd1type) || negb (resulttype =? opnd2type) ||
     negb (AR_CLASS resulttype =? AR_CLASS_INT) || negb (AR_CLASS counttype =? AR_CLASS_INT)
  then Ok (result, AR_STAT_INVALID_TYPE)
  else
    match int_case resulttype with
    | None => Ok (result, AR_STAT_INVALID_TYPE)
    | Some s =>
        if count_above s (int_bits s) count then Ok (clear_int s result, AR_STAT_UNDEFINED)
        else
          let* result := ar_dblshift result resulttype opnd2 opnd1 (2 * int_bits s - count_low s count) in
          Ok (result, AR_status_int result resulttype)
    end.

Definition AR_dshiftr (result : ar_data) (resulttype : AR_TYPE) (opnd1 : ar_data) (opnd1type : AR_TYPE)
    (opnd2 : ar_data) (opnd2type : AR_TYPE) (count : ar_data) (counttype : AR_TYPE) : outcome (ar_data * Z) :=
  if negb (resulttype =? opnd1type) || negb (resulttype =? opnd2type) ||
     negb (AR_CLASS resulttype =? AR_CLASS_INT) || negb (AR_CLASS counttype =? AR_CLASS_INT)
  then Ok (result, AR_STAT_INVALID_TYPE)
  else
    match int_case resulttype with
    | None => Ok (result, AR_STAT_INVALID_TYPE)
    | Some s =>
        if count_above s (int_bits s) count then Ok (clear_int s result, AR_STAT_UNDEFINED)
        else
          let* result := ar_dblshift result resulttype opnd1 opnd2 (count_low s count) in
          Ok (result, AR_status_int result resulttype)
    end.

Definition AR_shiftl (result : ar_data) (resulttype : AR_TYPE) (opnd : ar_data) (opndtype : AR_TYPE)
    (count : ar_data) (counttype : AR_TYPE) : outcome (ar_data * Z) :=
  if negb (resulttype =? opndtype) || negb (AR_CLASS resulttype =? AR_CLASS_INT) ||
     negb (AR_CLASS counttype =? AR_CLASS_INT)
  then Ok (result, AR_STAT_INVALID_TYPE)
  else
    match int_case opndtype with
    | None => Ok (result, AR_STAT_INVALID_TYPE)
    | Some s =>
        if count_above s (int_bits s - 1) count then Ok (clear_int s result, AR_STAT_UNDEFINED)
        else
          let signextend := zero_data in
          let* result := ar_dblshift result resulttype signextend opnd (2 * int_bits s - count_low s count) in
          Ok (result, AR_status_int result resulttype)
    end.

Definition AR_shiftr (result : ar_data) (resulttype : AR_TYPE) (opnd : ar_data) (opndtype : AR_TYPE)
    (count : ar_data) (counttype : AR_TYPE) : outcome (ar_data * Z) :=
  if negb (resulttype =? opndtype) || negb (AR_CLASS resulttype =? AR_CLASS_INT) ||
     negb (AR_CLASS counttype =? AR_CLASS_INT)
  then Ok (result, AR_STAT_INVALID_TYPE)
  else
    match int_case opndtype with
    | None => Ok (result, AR_STAT_INVALID_TYPE)
    | Some s =>
        if count_above s (int_bits s - 1) count then Ok (clear_int s result, AR_STAT_UNDEFINED)
        else
          let signextend :=
            if negb (is_signed resulttype) then zero_data
            else
              let neg := Z.shiftr (default 0 (last (int_parts s opnd))) (part_bits s - 1) in
              put_parts s (repeat (Z.land (Z.ones (part_bits s)) (- neg)) (Z.to_nat (part_count s))) in
          let* result := ar_dblshift result resulttype signextend opnd (count_low s count) in
          Ok (result, AR_status_int result resulttype)
    end.

(** [INTn_TO_HOST_SINT64] *)
Definition HOST_SINT64 (s : int_size) (a : ar_data) : Z :=
  let x := digits_value (part_bits s) (int_parts s a) in
  match s with
  | Int64 => swrap 64 x
  | _ => if int_sign s a then - Z.land (Z.lnot x + 1) (Z.lnot (Z.shiftl (-1) (int_bits s))) else x
  end.

Definition AR_ishft (result : ar_data) (resulttype : AR_TYPE) (opnd : ar_data) (opndtype : AR_TYPE)
    (shift : ar_data) (shifttype : AR_TYPE) : outcome (ar_data * Z) :=
  if negb (resulttype =? opndtype) || negb (AR_CLASS resulttype =? AR_CLASS_INT) ||
     negb (AR_CLASS shifttype =? AR_CLASS_INT) || (AR_INT_SIZE opndtype =? AR_INT_SIZE_24) ||
     (AR_INT_SIZE shifttype =? AR_INT_SIZE_24)
  then Ok (result, AR_STAT_INVALID_TYPE)
  else
    let zeros := zero_data in
    let result := zero_data in
    match int_case opndtype with
    | None => Ok (result, AR_STAT_INVALID_TYPE)
    | Some s =>
        let shift_count := HOST_SINT64 s shift in
        let is_right_shift := shift_count <? 0 in
        let shift_count := if is_right_shift then swrap 64 (- shift_count) else shift_count in
        if (shift_count <? 0) || (int_bits s <? shift_count) then Ok (result, AR_STAT_UNDEFINED)
        else
          let* result := ar_dblshift result resulttype zeros opnd
            (if is_right_shift then shift_count else 2 * int_bits s - shift_count) in
          Ok (result, AR_status_int result resulttype)
    end.

(** The initialisers [ones8] ... [ones64] are in terms of the fields of [ar_i64]. *)
Definition ones_data (s : int_size) : ar_data :=
  match s with
  | Int8 => mkData 0 0 0 0xFF
  | Int16 => mkData 0 0 0 0xFFFF
  | Int32 => mkData 0 0 0xFFFF 0xFFFF
  | Int64 => mkData 0xFFFF 0xFFFF 0xFFFF 0xFFFF
  end.

Definition AR_ishftc (result : ar_data) (resulttype : AR_TYPE) (opnd : ar_data) (opndtype : AR_TYPE)
    (shift : ar_data) (shifttype : AR_TYPE) (size : ar_data) (sizetype : AR_TYPE) : outcome (ar_data * Z) :=
  if negb (resulttype =? opndtype) || negb (AR_CLASS resulttype =? AR_CLASS_INT) ||
     negb (AR_CLASS shifttype =? AR_CLASS_INT) || negb (AR_CLASS sizetype =? AR_CLASS_INT) ||
     (AR_INT_SIZE opndtype =? AR_INT_SIZE_24) || (AR_INT_SIZE shifttype =? AR_INT_SIZE_24) ||
     (AR_INT_SIZE sizetype =? AR_INT_SIZE_24)
  then Ok (result, AR_STAT_INVALID_TYPE)
  else
    match int_case opndtype with
    | None => Ok (result, AR_STAT_INVALID_TYPE)
    | Some s =>
        let zeros := zero_data in
        let shift_count := HOST_SINT64 s shift in
        let shift_size := HOST_SINT64 s size in
        let type_size := int_bits s in
        let ones := ones_data s in
        let shift_count := if shift_count <? 0 then swrap 64 (shift_size + shift_count) else shift_count in
        if (shift_size <? 1) || (type_size <? shift_size) || (shift_count <? 0) || (shift_size <? shift_count)
        then Ok (result, AR_STAT_UNDEFINED)
        else
          let* mask := ar_dblshift zero_data resulttype ones zeros (type_size - shift_size) in
          let '(result, _) := AR_bitand result resulttype opnd resulttype mask resulttype in
          let '(result, _) := AR_bitand result resulttype result resulttype ones resulttype in
          let* mask := ar_dblshift mask resulttype zeros ones (type_size - shift_size) in
          let '(rotatee, _) := AR_bitand zero_data resulttype opnd resulttype mask resulttype in
          let* temp := ar_dblshift zero_data resulttype zeros rotatee (shift_size - shift_count) in
          let '(result, _) := AR_bitor result resulttype result resulttype temp resulttype in
          let* temp := ar_dblshift temp resulttype rotatee zeros (shift_size - shift_count) in
          let* temp := ar_dblshift temp resulttype zeros temp (type_size - shift_size) in
          let '(result, _) := AR_bitor result resulttype result resulttype temp resulttype in
          Ok (result, AR_status_int result resulttype)
    end.

Definition AR_ibits (result : ar_data) (resulttype : AR_TYPE) (opnd : ar_data) (opndtype : AR_TYPE)
    (shift : ar_data) (shifttype : AR_TYPE) (size : ar_data) (sizetype : AR_TYPE) : outcome (ar_data * Z) :=
  if negb (resulttype =? opndtype) || negb (AR_CLASS resulttype =? AR_CLASS_INT) ||
     negb (AR_CLASS shifttype =? AR_CLASS_INT) || negb (AR_CLASS sizetype =? AR_CLASS_INT) ||
     (AR_INT_SIZE opndtype =? AR_INT_SIZE_24) || (AR_INT_SIZE shifttype =? AR_INT_SIZE_24) ||
     (AR_INT_SIZE sizetype =? AR_INT_SIZE_24)
  then Ok (result, AR_STAT_INVALID_TYPE)
  else
    match int_case opndtype with
    | None => Ok (result, AR_STAT_INVALID_TYPE)
    | Some s =>
        let zeros := zero_data in
        let shift_count := HOST_SINT64 s shift in
        let shift_size := HOST_SINT64 s size in
        let type_size := int_bits s in
        if (shift_size <? 0) || (shift_count <? 0) || (swrap 64 (type_size - shift_size) <? shift_count)
        then Ok (result, AR_STAT_UNDEFINED)
        else
          let* temp := ar_dblshift zero_data resulttype opnd zeros (swrap 32 shift_count + swrap 32 shift_size) in
          let* result := ar_dblshift result resulttype zeros temp (type_size - swrap 32 shift_size) in
          Ok (result, AR_status_int result resulttype)
    end.

Definition AR_mask (result : ar_data) (resulttype : AR_TYPE) (count : ar_data) (counttype : AR_TYPE)
    : outcome (ar_data * Z) :=
  if negb (resulttype =? counttype) || negb (AR_CLASS resulttype =? AR_CLASS_INT) ||
     negb (AR_CLASS counttype =? AR_CLASS_INT)
  then Ok (result, AR_STAT_INVALID_TYPE)
  else
    match int_case resulttype with
    | None => Ok (result, AR_STAT_INVALID_TYPE)
    | Some s =>
        if count_above s (2 * int_bits s) count then Ok (clear_int s result, AR_STAT_UNDEFINED)
        else
          let* result := ar_dblshift result resulttype (ones_data s) zero_data (count_low s count) in
          Ok (result, AR_status_int result resulttype)
    end.

(** * Counting bits *)

(** The fields that the counting routines look at, most significant first, with
    their width; a real number is counted as the integer of its size. *)
Definition counted_case (t : AR_TYPE) : option int_size :=
  if AR_CLASS t =? AR_CLASS_INT then int_case t
  else if (AR_CLASS t =? AR_CLASS_FLOAT) && (AR_FLOAT_IS_COMPLEX t =? AR_FLOAT_SIMPLE) then
    if AR_FLOAT_SIZE t =? AR_FLOAT_32 then Some Int32
    else if AR_FLOAT_SIZE t =? AR_FLOAT_64 then Some Int64 else None
  else None.

Definition valid_count_result (t : AR_TYPE) : bool :=
  (AR_CLASS t =? AR_CLASS_INT) && match int_case t with Some _ => true | None => false end.

(** [for (leadz = n; !(mask & x); mask >>= 1) leadz++]; [fuel] bounds the steps. *)
Fixpoint leadz_loop (fuel : nat) (mask x leadz : Z) : outcome Z :=
  match fuel with
  | O => Err Timeout
  | S fuel => if negb (Z.land mask x =? 0) then Ok leadz else leadz_loop fuel (Z.shiftr mask 1) x (leadz + 1)
  end.

(** The first field that is not zero is searched; [n] bits are before [ms]. *)
Fixpoint leadz_parts (b : Z) (ms : list Z) (n : Z) : outcome Z :=
  match ms with
  | [] => Ok n
  | x :: ms => if negb (x =? 0) then leadz_loop 16 (Z.shiftl 1 (b - 1)) x n else leadz_parts b ms (n + b)
  end.

Definition AR_leadz (result : ar_data) (resulttype : AR_TYPE) (opnd : ar_data) (opndtype : AR_TYPE)
    : outcome (ar_data * Z) :=
  if negb (valid_count_result resulttype) then Ok (result, AR_STAT_INVALID_TYPE)
  else
    match counted_case opndtype with
    | None => Ok (result, AR_STAT_INVALID_TYPE)
    | Some s =>
        let* leadz := leadz_parts (part_bits s) (rev (int_parts s opnd)) 0 in
        let result := mkData 0 0 0 leadz in
        Ok (result, AR_status_int result resulttype)
    end.

(** [for (i = x; i; i >>= 1) popcnt += i & 1] *)
Fixpoint popcnt_loop (fuel : nat) (i popcnt : Z) : outcome Z :=
  if i =? 0 then Ok popcnt
  else match fuel with
       | O => Err Timeout
       | S fuel => popcnt_loop fuel (Z.shiftr i 1) (popcnt + Z.land i 1)
       end.

Fixpoint popcnt_parts (ms : list Z) (popcnt : Z) : outcome Z :=
  match ms with
  | [] => Ok popcnt
  | x :: ms => let* popcnt := popcnt_loop 16 x popcnt in popcnt_parts ms popcnt
  end.

Definition AR_popcnt (result : ar_data) (resulttype : AR_TYPE) (opnd : ar_data) (opndtype : AR_TYPE)
    : outcome (ar_data * Z) :=
  if negb (valid_count_result resulttype) then Ok (result, AR_STAT_INVALID_TYPE)
  else
    match counted_case opndtype with
    | None => Ok (result, AR_STAT_INVALID_TYPE)
    | Some s =>
        let* popcnt := popcnt_parts (rev (int_parts s opnd)) 0 in
        let result := mkData 0 0 0 popcnt in
        Ok (result, AR_status_int result resulttype)
    end.

Definition AR_poppar (result : ar_data) (resulttype : AR_TYPE) (opnd : ar_data) (opndtype : AR_TYPE)
    : ar_data * Z :=
  if negb (valid_count_result resulttype) then (result, AR_STAT_INVALID_TYPE)
  else
    match counted_case opndtype with
    | None => (result, AR_STAT_INVALID_TYPE)
    | Some s =>
        let poppar := foldr Z.lxor 0 (int_parts s opnd) in
        let poppar := Z.lxor (Z.land poppar 0xFF) (Z.shiftr poppar 8) in
        let poppar := Z.lxor (Z.land poppar 0x0F) (Z.shiftr poppar 4) in
        let poppar := Z.lxor (Z.land poppar 0x03) (Z.shiftr poppar 2) in
        let poppar := Z.lxor (Z.land poppar 0x01) (Z.shiftr poppar 1) in
        let result := mkData 0 0 0 poppar in
        (result, AR_status_int result resulttype)
    end.
End Bits.
