(* ===== verification/ArBitsProps.v ===== *)
(** Shifts and bit counts compute what they should: a double shift is a rotation
    of the pair of operands, the shifts are multiplications and divisions by
    powers of two, and the leading zeros are those of the value. *)
From Stdlib Require Import ZArith Lia Bool.
From stdpp Require Import prelude list.
From S2P Require Import Prelude ArData ArInt ArIntProps ArBits.

(** * Bits of a sequence of fields *)
Lemma concat_testbit b p q i :
  0 <= b -> in_u b p -> 0 <= i ->
  Z.testbit (p + 2 ^ b * q) i = if i <? b then Z.testbit p i else Z.testbit q (i - b).
Proof.
  intros Hb Hp Hi. rewrite Z.mul_comm, <- Z.shiftl_mul_pow2 by lia. rewrite Z.add_nocarry_lxor.
  - rewrite Z.lxor_spec. destruct (Z.ltb_spec i b).
    + rewrite Z.shiftl_spec_low by lia. apply xorb_false_r.
    + rewrite (testbit_high b p) by (done || lia). rewrite xorb_false_l. by apply Z.shiftl_spec.
  - apply Z.bits_inj'. intros j Hj. rewrite Z.land_spec, Z.bits_0. destruct (Z.ltb_spec j b).
    + rewrite Z.shiftl_spec_low by lia. apply andb_false_r.
    + by rewrite (testbit_high b p) by (done || lia).
Qed.

Lemma digits_testbit b l i :
  0 < b -> Forall (in_u b) l -> 0 <= i ->
  Z.testbit (digits_value b l) i = Z.testbit (default 0 (zlookup l (i / b))) (i mod b).
Proof.
  intros Hb Hl. revert i. induction Hl as [|p l Hp Hl IH]; intros i Hi.
  - change (digits_value b []) with 0. rewrite Z.bits_0. unfold zlookup. case_match; by rewrite Z.bits_0.
  - rewrite digits_value_cons. pose proof (Z.div_pos i b). pose proof (Z.mod_pos_bound i b Hb).
    rewrite concat_testbit by (done || lia).
    destruct (Z.ltb_spec i b).
    + rewrite Z.div_small, Z.mod_small by lia. done.
    + rewrite IH by lia. pose proof (Z.div_pos (i - b) b).
      assert (i / b = (i - b) / b + 1) as ->.
      { rewrite <- (Z.div_add (i - b) 1 b) by lia. f_equal. lia. }
      assert (i mod b = (i - b) mod b) as ->.
      { rewrite <- (Z.mod_add (i - b) 1 b) by lia. f_equal. lia. }
      f_equal. unfold zlookup. rewrite !(proj2 (Z.leb_le 0 _)) by lia.
      by replace (Z.to_nat ((i - b) / b + 1)) with (S (Z.to_nat ((i - b) / b))) by lia.
Qed.

(** * Rotation *)
Section Rotation.
Context `{Host}.

(** The pair of operands as one number. *)
Definition double_value (s : int_size) (o1 o2 : ar_data) : Z := uval s o1 * 2 ^ int_bits s + uval s o2.

Definition ring_ (s : int_size) (o1 o2 : ar_data) (i : Z) : Z :=
  default 0 (zlookup (int_parts s o2 ++ int_parts s o1) (i mod (2 * part_count s))).

(** The fields of the result, least significant first. *)
Definition rotated (s : int_size) (o1 o2 : ar_data) (k : Z) : list Z :=
  let sc := k mod part_bits s in
  (fun q =>
     let i := Z.of_nat q + k / part_bits s in
     Z.land (uwrap 32 (Z.lor (Z.shiftr (ring_ s o1 o2 i) sc) (Z.shiftl (ring_ s o1 o2 (i + 1)) (part_bits s - sc))))
       (Z.ones (part_bits s))) <$> seq 0 (Z.to_nat (part_count s)).

Lemma zlookup_rev {A} (l : list A) i : 0 <= i < zlen l -> zlookup (rev l) i = zlookup l (zlen l - 1 - i).
Proof.
  unfold zlen, zlookup. intros Hi. rewrite !(proj2 (Z.leb_le 0 _)) by lia.
  rewrite rev_alt. fold (reverse l). rewrite reverse_lookup by lia. f_equal. lia.
Qed.

Lemma ring_rev s o1 o2 i :
  let ms := rev (int_parts s o1) ++ rev (int_parts s o2) in
  default 0 (zlookup ms (i mod zlen ms)) = ring_ s o1 o2 (2 * part_count s - 1 - i).
Proof.
  cbn zeta. unfold ring_. rewrite <- rev_app_distr.
  assert (zlen (int_parts s o2 ++ int_parts s o1) = 2 * part_count s) as Hlen by (by destruct s).
  assert (zlen (rev (int_parts s o2 ++ int_parts s o1)) = 2 * part_count s) as -> by (by destruct s).
  assert (0 < 2 * part_count s) as Hpos by (by destruct s).
  pose proof (Z.mod_pos_bound i _ Hpos). rewrite zlookup_rev, Hlen by lia. do 2 f_equal.
  apply (Z.mod_unique_pos _ _ (- (i / (2 * part_count s)))); [lia|].
  pose proof (Z.div_mod i (2 * part_count s) ltac:(lia)). lia.
Qed.

Lemma rev_seq_fmap s (f : nat -> Z) :
  rev (f <$> seq 0 (Z.to_nat (part_count s))) =
  (fun q => f (Z.to_nat (part_count s) - 1 - q)%nat) <$> seq 0 (Z.to_nat (part_count s)).
Proof. by destruct s. Qed.

Lemma dblshift_rotated result s t o1 o2 k :
  int_case t = Some s -> 0 <= k <= 2 * int_bits s ->
  ar_dblshift result t o1 o2 k = Ok (put_parts s (rotated s o1 o2 k)).
Proof.
  intros Hs Hk. unfold ar_dblshift. rewrite Hs.
  rewrite (proj2 (Z.ltb_ge k 0)), (proj2 (Z.ltb_ge (2 * int_bits s) k)) by lia. cbn [orb]. do 2 f_equal.
  rewrite rev_seq_fmap. unfold rotated, chunk. apply list_fmap_ext. intros j q Hj.
  apply lookup_seq in Hj as [-> Hj]. rewrite !ring_rev. cbn [Nat.add].
  assert (forall i i', i' mod (2 * part_count s) = i mod (2 * part_count s) -> ring_ s o1 o2 i = ring_ s o1 o2 i') as Hring.
  { intros i i' E. unfold ring_. by rewrite E. }
  assert (0 < 2 * part_count s) as Hpos by (by destruct s).
  assert (Z.of_nat (Z.to_nat (part_count s) - 1 - j) = part_count s - 1 - Z.of_nat j) as Hq by lia.
  f_equal. f_equal. f_equal; f_equal; apply Hring; symmetry; rewrite Hq, <- (Z.mod_add _ 1) by lia; f_equal; lia.
Qed.

Lemma ring_range s o1 o2 i : well_formed o1 -> well_formed o2 -> in_u (part_bits s) (ring_ s o1 o2 i).
Proof.
  intros H1 H2. unfold ring_.
  assert (Forall (in_u (part_bits s)) (int_parts s o2 ++ int_parts s o1)) as Hf.
  { apply Forall_app. split; by apply int_parts_range. }
  unfold zlookup. pose proof (part_bits_pos s). assert (in_u (part_bits s) 0) as Hz by (split; [done|apply Z.pow_pos_nonneg; lia]).
  case_match; [|done]. destruct (_ !! _) eqn:E; [|done]. eapply Forall_lookup_1 in Hf; [|done]. done.
Qed.

Lemma ring_testbit s o1 o2 i :
  well_formed o1 -> well_formed o2 -> 0 <= i ->
  Z.testbit (ring_ s o1 o2 (i / part_bits s)) (i mod part_bits s) =
  Z.testbit (double_value s o1 o2) (i mod (2 * int_bits s)).
Proof.
  intros H1 H2 Hi. pose proof (part_bits_pos s). pose proof (int_bits_pos s).
  assert (double_value s o1 o2 = digits_value (part_bits s) (int_parts s o2 ++ int_parts s o1)) as ->.
  { rewrite digits_value_app by lia. rewrite int_parts_length. unfold double_value, uval, int_bits. lia. }
  assert (0 < part_count s) as Hc by (by destruct s). unfold int_bits.
  replace (2 * (part_bits s * part_count s)) with (part_bits s * (2 * part_count s)) by lia.
  assert (0 < part_bits s * (2 * part_count s)) as Hpos by lia.
  pose proof (Z.mod_pos_bound i _ Hpos). rewrite digits_testbit; [|lia| |lia].
  - unfold ring_. rewrite (Z.rem_mul_r i (part_bits s) (2 * part_count s)) by lia.
    rewrite (Z.add_comm (i mod part_bits s)), (Z.mul_comm (part_bits s)), Z.div_add_l by lia.
    rewrite (Z.add_comm (_ * _)), Z.mod_add by lia.
    rewrite (Z.mod_mod i) by lia. rewrite (Z.div_small (i mod part_bits s)) by (apply Z.mod_pos_bound; lia). by rewrite Z.add_0_r.
  - apply Forall_app. split; by apply int_parts_range.
Qed.

Lemma field_testbit b A B sc j :
  0 < b <= 16 -> in_u b A -> in_u b B -> 0 <= sc < b -> 0 <= j < b ->
  Z.testbit (Z.land (uwrap 32 (Z.lor (Z.shiftr A sc) (Z.shiftl B (b - sc)))) (Z.ones b)) j =
  if j + sc <? b then Z.testbit A (j + sc) else Z.testbit B (j + sc - b).
Proof.
  intros Hb HA HB Hsc Hj. rewrite Z.land_spec, Z.ones_spec_low, andb_true_r by lia. unfold uwrap.
  rewrite Z.mod_pow2_bits_low, Z.lor_spec, Z.shiftr_spec by lia. destruct (Z.ltb_spec (j + sc) b).
  - rewrite Z.shiftl_spec_low by lia. apply orb_false_r.
  - rewrite (testbit_high b A) by (done || lia). rewrite Z.shiftl_spec by lia. cbn [orb]. f_equal. lia.
Qed.

Lemma div_mod_sum i k b :
  0 < b ->
  (i + k) / b = i / b + k / b + (if i mod b + k mod b <? b then 0 else 1) /\
  (i + k) mod b = (if i mod b + k mod b <? b then i mod b + k mod b else i mod b + k mod b - b).
Proof.
  intros Hb. pose proof (Z.div_mod i b ltac:(lia)). pose proof (Z.div_mod k b ltac:(lia)).
  pose proof (Z.mod_pos_bound i b Hb). pose proof (Z.mod_pos_bound k b Hb). destruct (Z.ltb_spec (i mod b + k mod b) b).
  - split; symmetry; [apply (Z.div_unique_pos _ _ _ (i mod b + k mod b))|apply (Z.mod_unique_pos _ _ (i / b + k / b))]; lia.
  - split; symmetry; [apply (Z.div_unique_pos _ _ _ (i mod b + k mod b - b))|apply (Z.mod_unique_pos _ _ (i / b + k / b + 1))]; lia.
Qed.

(** A double shift by [k] is a rotation by [k] to the right, of which the lower
    half is kept. *)
Lemma dblshift_testbit result s t o1 o2 k i :
  int_case t = Some s -> well_formed o1 -> well_formed o2 -> 0 <= k <= 2 * int_bits s -> 0 <= i < int_bits s ->
  yields (ar_dblshift result t o1 o2 k) (fun r => well_formed r /\ canonical s r /\
    Z.testbit (uval s r) i = Z.testbit (double_value s o1 o2) ((i + k) mod (2 * int_bits s))).
Proof.
  intros Hs H1 H2 Hk Hi. rewrite (dblshift_rotated _ s) by done. cbn [yields].
  pose proof (part_bits_pos s) as Hb. set (b := part_bits s) in *.
  assert (Forall (in_u b) (rotated s o1 o2 k)) as Hr.
  { unfold rotated. apply Forall_fmap, Forall_forall. intros q _. cbn. apply (ones_land b). lia. }
  assert (Z.of_nat (length (rotated s o1 o2 k)) = part_count s) as Hlen.
  { unfold rotated. rewrite length_fmap, length_seq. destruct s; cbn; lia. }
  destruct (put_parts_ok s (rotated s o1 o2 k) Hr Hlen) as (Hp & Hwf & Hcan). split; [done|]. split; [done|].
  unfold uval. rewrite Hp. fold b. rewrite digits_testbit by (done || lia).
  pose proof (Z.div_pos i b ltac:(lia) ltac:(lia)) as Hib. pose proof (Z.mod_pos_bound i b ltac:(lia)).
  assert (i / b < part_count s) as Hq by (apply Z.div_lt_upper_bound; unfold int_bits in Hi; lia).
  assert (default 0 (zlookup (rotated s o1 o2 k) (i / b)) =
    Z.land (uwrap 32 (Z.lor (Z.shiftr (ring_ s o1 o2 (i / b + k / b)) (k mod b))
      (Z.shiftl (ring_ s o1 o2 (i / b + k / b + 1)) (b - k mod b)))) (Z.ones b)) as ->.
  { unfold zlookup. rewrite (proj2 (Z.leb_le 0 _) Hib). unfold rotated. rewrite list_lookup_fmap, lookup_seq_lt by lia.
    cbn [Nat.add fmap option_fmap option_map default]. fold b. by rewrite Z2Nat.id by lia. }
  pose proof (ring_range s o1 o2 (i / b + k / b) H1 H2) as HA. pose proof (ring_range s o1 o2 (i / b + k / b + 1) H1 H2) as HB.
  rewrite field_testbit by (done || lia || (apply Z.mod_pos_bound; lia)).
  rewrite <- ring_testbit by (done || lia). fold b. pose proof (div_mod_sum i k b ltac:(lia)) as [Hd Hm].
  rewrite Hd, Hm. destruct (i mod b + k mod b <? b); [by rewrite Z.add_0_r|done].
Qed.

Lemma double_value_range s o1 o2 :
  well_formed o1 -> well_formed o2 -> 0 <= double_value s o1 o2 < 2 ^ (2 * int_bits s).
Proof.
  intros H1 H2. pose proof (uval_range s o1 H1) as B1. pose proof (uval_range s o2 H2) as B2. unfold double_value, in_u in *.
  bits_facts s. replace (2 * int_bits s) with (int_bits s + int_bits s) by lia. rewrite Z.pow_add_r by lia. nia.
Qed.

Lemma dblshift_value result s t o1 o2 k :
  int_case t = Some s -> well_formed o1 -> well_formed o2 -> 0 <= k <= 2 * int_bits s ->
  let V := double_value s o1 o2 in
  yields (ar_dblshift result t o1 o2 k) (fun r => well_formed r /\ canonical s r /\
    uval s r = (V / 2 ^ k + 2 ^ (2 * int_bits s - k) * V) mod 2 ^ int_bits s).
Proof.
  intros Hs H1 H2 Hk V. pose proof (fun i => dblshift_testbit result s t o1 o2 k i Hs H1 H2 Hk) as Hbits.
  pose proof (int_bits_pos s) as HB. destruct (ar_dblshift result t o1 o2 k) as [r|f]; [|by destruct (Hbits 0 ltac:(lia))].
  cbn [yields] in *. destruct (Hbits 0 ltac:(lia)) as (Hwf & Hcan & _). split; [done|]. split; [done|].
  pose proof (double_value_range s o1 o2 H1 H2) as HV. fold V in HV. pose proof (uval_range s r Hwf) as Hr.
  assert (in_u (2 * int_bits s - k) (V / 2 ^ k)) as Hq.
  { unfold in_u. split; [apply Z.div_pos; [lia|apply Z.pow_pos_nonneg; lia]|].
    apply Z.div_lt_upper_bound; [apply Z.pow_pos_nonneg; lia|]. rewrite <- Z.pow_add_r by lia.
    replace (k + (2 * int_bits s - k)) with (2 * int_bits s) by lia. lia. }
  apply Z.bits_inj'. intros i Hi. destruct (Z.ltb_spec i (int_bits s)).
  - destruct (Hbits i ltac:(lia)) as (_ & _ & ->). rewrite Z.mod_pow2_bits_low by lia.
    rewrite (concat_testbit (2 * int_bits s - k) (V / 2 ^ k)) by (done || lia).
    fold V. destruct (Z.ltb_spec i (2 * int_bits s - k)).
    + rewrite Z.div_pow2_bits, Z.mod_small by lia. done.
    + f_equal. symmetry. apply (Z.mod_unique_pos _ _ 1); lia.
  - rewrite (testbit_high (int_bits s) (uval s r)) by (done || lia). symmetry.
    apply (testbit_high (int_bits s)); [apply uwrap_range; lia|lia].
Qed.

(** * Shifts *)
Lemma count_above_value s max count :
  well_formed count -> 0 <= max < 2 ^ part_bits s ->
  count_above s max count = (max <? uval s count) /\ (uval s count <= max -> count_low s count = uval s count).
Proof.
  intros Hc Hmax. unfold count_above, count_low, uval. pose proof (int_parts_range s count Hc) as Hr. pose proof (part_bits_pos s).
  destruct (int_parts s count) as [|x l] eqn:E; [by destruct s|]. apply Forall_cons in Hr as [Hx Hr].
  cbn [tail head]. change (default 0 (Some x)) with x. rewrite (forallb_zero (part_bits s)), digits_value_cons by (done || lia).
  pose proof (digits_value_range (part_bits s) l ltac:(lia) Hr). unfold in_u in Hx.
  destruct (Z.eqb_spec (digits_value (part_bits s) l) 0) as [->|Hne]; cbn [negb orb].
  - rewrite Z.mul_0_r, Z.add_0_r. done.
  - assert (2 ^ part_bits s * 1 <= 2 ^ part_bits s * digits_value (part_bits s) l) by (apply Z.mul_le_mono_nonneg_l; lia).
    split; [symmetry; apply Z.ltb_lt|]; lia.
Qed.

Lemma shift_bound s : int_bits s - 1 < 2 ^ part_bits s /\ 2 * int_bits s < 2 ^ part_bits s.
Proof. by destruct s. Qed.

(** The value of a left shift and of a right shift that fills with copies of a bit. *)
Lemma left_rotation W u c :
  0 <= c <= W -> 0 <= u < 2 ^ W ->
  (u / 2 ^ (2 * W - c) + 2 ^ (2 * W - (2 * W - c)) * u) mod 2 ^ W = (u * 2 ^ c) mod 2 ^ W.
Proof.
  intros Hc Hu. rewrite Z.div_small.
  - replace (2 * W - (2 * W - c)) with c by lia. f_equal. lia.
  - pose proof (Z.pow_le_mono_r 2 W (2 * W - c)). lia.
Qed.

Lemma right_rotation W u c (neg : Z) :
  0 <= c < W -> 0 <= neg <= 1 ->
  exists j, ((neg * (2 ^ W - 1) * 2 ^ W + u) / 2 ^ c + 2 ^ (2 * W - c) * (neg * (2 ^ W - 1) * 2 ^ W + u)) mod 2 ^ W =
  (u - neg * 2 ^ W) / 2 ^ c + j * 2 ^ W.
Proof.
  intros Hc Hneg. set (X := neg * (2 ^ W - 1) * 2 ^ W + u).
  assert (0 < 2 ^ W) by (apply Z.pow_pos_nonneg; lia). assert (0 < 2 ^ c) by (apply Z.pow_pos_nonneg; lia).
  assert (2 ^ (2 * W - c) = 2 ^ (W - c) * 2 ^ W) as ->.
  { rewrite <- Z.pow_add_r by lia. f_equal. lia. }
  assert (X / 2 ^ c = (u - neg * 2 ^ W) / 2 ^ c + neg * 2 ^ (W - c) * 2 ^ W) as ->.
  { rewrite <- Z.div_add by lia. f_equal. unfold X.
    replace (neg * 2 ^ (W - c) * 2 ^ W * 2 ^ c) with (neg * (2 ^ (W - c) * 2 ^ c) * 2 ^ W) by ring.
    rewrite <- Z.pow_add_r by lia. replace (W - c + c) with W by lia. ring. }
  rewrite Z.mod_eq by lia. set (Q := _ / 2 ^ W). exists (neg * 2 ^ (W - c) + 2 ^ (W - c) * X - Q). ring.
Qed.

Lemma shiftl_exact result s t o count ct :
  int_type s t -> AR_CLASS ct = AR_CLASS_INT -> well_formed o -> well_formed count ->
  if uval s count <? int_bits s then
    yields (AR_shiftl result t o t count ct) (fun '(r, st) =>
      let v := ival s t o * 2 ^ uval s count in exact s t v r /\ st = value_status (wrap s t v))
  else AR_shiftl result t o t count ct = Ok (clear_int s result, AR_STAT_UNDEFINED).
Proof.
  intros [Hcls Hs] Hct Ho Hc. unfold AR_shiftl. rewrite Z.eqb_refl, Hcls, Hct, Hs, Z.eqb_refl. cbn [negb orb].
  pose proof (int_bits_pos s) as HB. pose proof (shift_bound s).
  destruct (count_above_value s (int_bits s - 1) count Hc ltac:(lia)) as [-> Hlow].
  pose proof (uval_range s count Hc) as Hcr. unfold in_u in Hcr.
  destruct (Z.ltb_spec (uval s count) (int_bits s)) as [Hlt|Hge]; destruct (Z.ltb_spec (int_bits s - 1) (uval s count)); try lia; [|done].
  rewrite Hlow by lia. set (c := uval s count) in *.
  eapply yields_bind; [apply (dblshift_value _ s); [done|done|done|lia]|].
  intros r (Hwf & Hcan & Hu). cbn [yields]. assert (uval s zero_data = 0) as Hz by (by destruct s, H).
  unfold double_value in Hu. rewrite Hz, Z.mul_0_l, Z.add_0_l in Hu.
  rewrite left_rotation in Hu by (lia || (by apply uval_range)).
  assert (exact s t (ival s t o * 2 ^ c) r) as Hex.
  { split; [done|done|]. destruct (ival_cases s t o Ho) as [_ Hi].
    set (n := Z.b2z (is_signed t && (2 ^ (int_bits s - 1) <=? uval s o))).
    apply (ival_wrap s t r _ (n * 2 ^ c - (uval s o * 2 ^ c) / 2 ^ int_bits s)); [done|].
    rewrite Hu, Hi, Z.mod_eq by (apply Z.pow_nonzero; lia). unfold n. destruct (is_signed t && _); cbn [Z.b2z]; lia. }
  split; [done|]. rewrite (AR_status_int_case s) by done. by apply value_wrap_status.
Qed.

(** The operand of a right shift, extended to the left. *)
Lemma sign_extension s t o :
  well_formed o ->
  let ext := if negb (is_signed t) then zero_data
    else put_parts s (repeat (Z.land (Z.ones (part_bits s)) (- Z.shiftr (default 0 (last (int_parts s o))) (part_bits s - 1)))
                        (Z.to_nat (part_count s))) in
  let neg := Z.b2z (is_signed t && int_sign s o) in
  well_formed ext /\ uval s ext = neg * (2 ^ int_bits s - 1) /\ ival s t o = uval s o - neg * 2 ^ int_bits s.
Proof.
  intros Ho. cbn zeta. destruct (ival_cases s t o Ho) as [_ Hi]. rewrite int_sign_uval by done.
  assert (uval s zero_data = 0) as Hz by (by destruct s, H).
  destruct (is_signed t); cbn [negb andb] in *.
  - pose proof (int_parts_range s o Ho) as Hr. pose proof (part_bits_pos s) as Hb.
    pose proof (int_sign_uval s o Ho) as Hsign. unfold int_sign in Hsign.
    set (p := default 0 (last (int_parts s o))) in *.
    assert (in_u (part_bits s) p) as Hp.
    { unfold p. destruct (last (int_parts s o)) as [x|] eqn:E.
      - eapply Forall_lookup_1 in Hr; [exact Hr|]. rewrite last_lookup in E. done.
      - split; [done|apply Z.pow_pos_nonneg; lia]. }
    rewrite (land_top_bit (part_bits s) p) in Hsign by (lia || done). rewrite <- Hsign.
    assert (Z.shiftr p (part_bits s - 1) = Z.b2z (2 ^ (part_bits s - 1) <=? p)) as ->.
    { rewrite Z.shiftr_div_pow2 by lia. unfold in_u in Hp. pose proof (pow2_half (part_bits s) ltac:(lia)).
      destruct (Z.leb_spec (2 ^ (part_bits s - 1)) p); cbn [Z.b2z].
      - symmetry. apply (Z.div_unique_pos _ _ _ (p - 2 ^ (part_bits s - 1))); lia.
      - apply Z.div_small. lia. }
    rewrite <- Hsign in Hi. destruct (2 ^ (part_bits s - 1) <=? p); cbv iota in Hi; cbn [Z.b2z].
    + rewrite Z.mul_1_l. split; [by destruct s, H|]. split; [by destruct s, H|lia].
    + split; [by destruct s, H|]. split; [by destruct s, H|lia].
  - cbn [Z.b2z] in *. rewrite !Z.mul_0_l. split; [done|]. split; [done|lia].
Qed.

Lemma shiftr_exact result s t o count ct :
  int_type s t -> AR_CLASS ct = AR_CLASS_INT -> well_formed o -> well_formed count ->
  if uval s count <? int_bits s then
    yields (AR_shiftr result t o t count ct) (fun '(r, st) =>
      let v := ival s t o / 2 ^ uval s count in exact s t v r /\ st = value_status (wrap s t v))
  else AR_shiftr result t o t count ct = Ok (clear_int s result, AR_STAT_UNDEFINED).
Proof.
  intros [Hcls Hs] Hct Ho Hc. unfold AR_shiftr. rewrite Z.eqb_refl, Hcls, Hct, Hs, Z.eqb_refl. cbn [negb orb].
  pose proof (int_bits_pos s) as HB. pose proof (shift_bound s).
  destruct (count_above_value s (int_bits s - 1) count Hc ltac:(lia)) as [-> Hlow].
  pose proof (uval_range s count Hc) as Hcr. unfold in_u in Hcr.
  destruct (Z.ltb_spec (uval s count) (int_bits s)) as [Hlt|Hge]; destruct (Z.ltb_spec (int_bits s - 1) (uval s count)); try lia; [|done].
  rewrite Hlow by lia. set (c := uval s count) in *. cbv zeta.
  destruct (sign_extension s t o Ho) as (Hext & Hextu & Hi). set (ext := if negb (is_signed t) then _ else _) in *.
  eapply yields_bind; [apply (dblshift_value _ s); [done|done|done|lia]|].
  intros r (Hwf & Hcan & Hu). cbn [yields].
  unfold double_value in Hu. rewrite Hextu in Hu.
  destruct (right_rotation (int_bits s) (uval s o) c (Z.b2z (is_signed t && int_sign s o))) as [j Hj]; [lia|by destruct (is_signed t && int_sign s o)|].
  rewrite Hj, <- Hi in Hu.
  assert (exact s t (ival s t o / 2 ^ c) r) as Hex by (split; [done|done|by apply (ival_wrap s t r _ j)]).
  split; [done|]. rewrite (AR_status_int_case s) by done. by apply value_wrap_status.
Qed.
End Rotation.

(** * Counting bits *)

(** The number of bits up to the most significant one that is set. *)
Definition bit_length (u : Z) : Z := if u =? 0 then 0 else Z.log2 u + 1.

Lemma leadz_loop_ok fuel m x n :
  0 < x -> Z.log2 x <= m < Z.of_nat fuel -> leadz_loop fuel (2 ^ m) x n = Ok (n + m - Z.log2 x).
Proof.
  intros Hx. pose proof (Z.log2_nonneg x). revert m n. induction fuel as [|fuel IH]; intros m n Hm; [lia|]. cbn [leadz_loop].
  assert ((Z.land (2 ^ m) x =? 0) = negb (Z.testbit x m)) as ->.
  { rewrite Z.land_comm. destruct (Z.testbit x m) eqn:E; cbn [negb].
    - apply Z.eqb_neq. intros H0. apply (f_equal (fun z => Z.testbit z m)) in H0.
      by rewrite Z.land_spec, E, Z.pow2_bits_true, Z.bits_0 in H0 by lia.
    - apply Z.eqb_eq, Z.bits_inj'. intros i Hi. rewrite Z.land_spec, Z.pow2_bits_eqb, Z.bits_0 by lia.
      destruct (Z.eqb_spec m i) as [<-|]; [by rewrite E|apply andb_false_r]. }
  rewrite negb_involutive. destruct (Z.testbit x m) eqn:E.
  - f_equal. assert (~ Z.log2 x < m); [|lia]. intros Hlt. by rewrite Z.bits_above_log2 in E by lia.
  - assert (Z.log2 x <> m) as Hne by (intros <-; by rewrite Z.bit_log2 in E by lia).
    rewrite Z.shiftr_div_pow2 by lia. replace (2 ^ m / 2 ^ 1) with (2 ^ (m - 1)) by (by rewrite Z.pow_sub_r by lia).
    rewrite IH by lia. f_equal. lia.
Qed.

Lemma log2_concat p q k : 0 <= p < 2 ^ k -> 0 <= k -> 0 < q -> Z.log2 (p + 2 ^ k * q) = k + Z.log2 q.
Proof.
  intros Hp Hk Hq. destruct (Z.log2_spec q Hq) as [H1 H2]. pose proof (Z.log2_nonneg q). apply Z.log2_unique; [lia|].
  unfold Z.succ in *. rewrite <- Z.add_assoc, !Z.pow_add_r in * by lia. nia.
Qed.

Lemma leadz_parts_ok b ms n :
  0 < b <= 16 -> Forall (in_u b) ms ->
  leadz_parts b ms n = Ok (n + b * zlen ms - bit_length (digits_value b (rev ms))).
Proof.
  intros Hb Hms. revert n. induction Hms as [|x ms Hx Hms IH]; intros n; cbn [leadz_parts].
  - unfold zlen, bit_length. cbn. f_equal. lia.
  - cbn [rev]. assert (Forall (in_u b) (rev ms)) as Hrev by (by apply Forall_rev).
    pose proof (digits_value_range b (rev ms) ltac:(lia) Hrev) as Hr. rewrite length_rev in Hr.
    rewrite digits_value_app, length_rev, digits_value_cons by lia. change (digits_value b []) with 0.
    rewrite Z.mul_0_r, Z.add_0_r. unfold zlen in *. cbn [length]. rewrite Nat2Z.inj_succ.
    set (k := Z.of_nat (length ms)) in *. unfold in_u in Hx. destruct (Z.eqb_spec x 0) as [->|Hne]; cbn [negb].
    + rewrite IH, Z.mul_0_r, Z.add_0_r. f_equal. lia.
    + assert (0 < 2 ^ (b * k)) by (apply Z.pow_pos_nonneg; lia).
      assert (Z.log2 x <= b - 1) by (assert (Z.log2 x < b); [apply Z.log2_lt_pow2; lia|lia]).
      rewrite Z.shiftl_1_l, leadz_loop_ok by lia. unfold bit_length.
      rewrite (proj2 (Z.eqb_neq _ 0)), log2_concat by (done || nia). f_equal. lia.
Qed.

Section Counts.
Context `{Host}.

Lemma leadz_value result rt t s o :
  valid_count_result rt = true -> AR_CLASS t = AR_CLASS_INT -> int_case t = Some s -> well_formed o ->
  let r := mkData 0 0 0 (int_bits s - bit_length (uval s o)) in
  AR_leadz result rt o t = Ok (r, AR_status_int r rt).
Proof.
  intros Hrt Hcls Hs Ho. unfold AR_leadz, counted_case. rewrite Hrt, Hcls, Hs, Z.eqb_refl. cbn [negb].
  pose proof (part_bits_pos s). rewrite leadz_parts_ok; [|lia|apply Forall_rev, int_parts_range; done].
  rewrite rev_involutive. unfold zlen. rewrite length_rev, int_parts_length. cbn [obind]. done.
Qed.

Lemma bit_length_bounds u : 0 <= u -> 0 <= bit_length u /\ u < 2 ^ bit_length u /\ (u <> 0 -> 2 ^ (bit_length u - 1) <= u).
Proof.
  intros Hu. unfold bit_length. destruct (Z.eqb_spec u 0) as [->|]; [by repeat split|].
  destruct (Z.log2_spec u ltac:(lia)). pose proof (Z.log2_nonneg u). split; [lia|]. split; [done|].
  intros _. by replace (Z.log2 u + 1 - 1) with (Z.log2 u) by lia.
Qed.

Lemma bit_length_le u w : in_u w u -> 0 <= w -> bit_length u <= w.
Proof.
  intros Hu Hw. unfold bit_length, in_u in *. destruct (Z.eqb_spec u 0); [done|].
  assert (Z.log2 u < w); [apply Z.log2_lt_pow2; lia|lia].
Qed.
End Counts.
