(* ===== verification/ArDivide.v ===== *)
(** Integer division: the model of [ar_divide_integer], [AR_divide] and [AR_mod]
    of [arith/math.c], and of the dispatch of the other integer operations. *)
From Stdlib Require Import ZArith Lia Bool.
From stdpp Require Import prelude list.
From S2P Require Import Prelude ArData ArInt ArBits.

Section Divide.
Context `{Host}.

(** [type8], [type16], [type32], [type64] *)
Definition unsigned_type (s : int_size) : AR_TYPE :=
  match s with Int8 => AR_Int_8_U | Int16 => AR_Int_16_U | Int32 => AR_Int_32_U | Int64 => AR_Int_64_U end.

(** [ZERO_INTn_UPPER(d)] *)
Definition zero_upper (s : int_size) (d : ar_data) : ar_data := put_parts s (int_parts s d).

(** The least significant field of [d], with its lowest bit set. *)
Definition set_low_bit (s : int_size) (d : ar_data) : ar_data :=
  mkData (part1 d) (part2 d) (part3 d) (Z.lor (part4 d) (match s with Int8 => with_part5 1 | _ => 1 end)).

(** [if (shiftcount & ~(bits - 1)) ar_internal_error (2001, ...)] *)
Definition shiftcount_invalid (s : int_size) (d : ar_data) : bool :=
  let l := int_parts s d in
  negb (forallb (Z.eqb 0) (tail l)) ||
  negb (Z.land (default 0 (head l)) (Z.ones (part_bits s) - (int_bits s - 1)) =? 0).

(** The locals of the loop. *)
Record divide_state : Type := mkDivide { accum : ar_data; dividend : ar_data; divisor : ar_data }.

(** The body of the loop; [shiftcount] is 1. *)
Definition divide_step (s : int_size) (shiftcount : ar_data) (st : divide_state) : outcome divide_state :=
  let t := unsigned_type s in
  let* '(temp, _) := AR_shiftl zero_data t (accum st) t shiftcount t in
  let accum := temp in
  let '(temp, _, _) := ar_subtract_integer temp t (dividend st) t (divisor st) t in
  let '(accum, dividend) :=
    if negb (int_sign s temp) then (set_low_bit s accum, temp) else (accum, dividend st) in
  let* '(temp, _) := AR_shiftr temp t (divisor st) t shiftcount t in
  let divisor := temp in
  Ok (mkDivide accum dividend divisor).

(** [do { ... } while (--seqcount > 0)], with [seqcount > 0] *)
Fixpoint divide_loop (s : int_size) (shiftcount : ar_data) (seqcount : nat) (st : divide_state)
    : outcome divide_state :=
  match seqcount with
  | O => Ok st
  | S seqcount =>
      let* st := divide_step s shiftcount st in
      divide_loop s shiftcount seqcount st
  end.

(** Divide the magnitudes: the loop leaves the quotient in [accum] and the
    remainder in [dividend]. *)
Definition divide_magnitudes (s : int_size) (dividend divisor : ar_data) : outcome divide_state :=
  let t := unsigned_type s in
  let* '(lzdividend, _) := AR_leadz zero_data t dividend t in
  let* '(lzdivisor, _) := AR_leadz zero_data t divisor t in
  let '(shiftcount, _, _) := ar_subtract_integer zero_data t lzdivisor t lzdividend t in
  if negb (int_sign s shiftcount) then
    if shiftcount_invalid s shiftcount then Err Fatal
    else
      let seqcount := count_low s shiftcount + 1 in
      let* '(temp, _) := AR_shiftl zero_data t divisor t shiftcount t in
      let divisor := temp in
      let shiftcount := put_parts s [1; 0; 0; 0] in
      divide_loop s shiftcount (Z.to_nat seqcount) (mkDivide zero_data dividend divisor)
  else Ok (mkDivide zero_data dividend divisor).

(** The results are the two results and the status. *)
Definition ar_divide_integer (result1 : ar_data) (result1type : AR_TYPE) (result2 : ar_data) (result2type : AR_TYPE)
    (opnd1 : ar_data) (opnd1type : AR_TYPE) (opnd2 : ar_data) (opnd2type : AR_TYPE)
    : outcome (ar_data * ar_data * Z) :=
  match int_case opnd1type with
  | None => Ok (result1, result2, AR_STAT_INVALID_TYPE)
  | Some s =>
      if int_zero s opnd2 then Ok (zero_data, zero_data, AR_STAT_OVERFLOW)
      else if int_zero s opnd1 then Ok (zero_data, zero_data, AR_STAT_ZERO)
      else
        let opnd1sign := int_sign s opnd1 in
        let opnd2sign := int_sign s opnd2 in
        let dividend :=
          if is_signed opnd1type && opnd1sign then fst (ar_negate_integer zero_data opnd1type opnd1 opnd1type) else opnd1 in
        let divisor :=
          if is_signed opnd2type && opnd2sign then fst (ar_negate_integer zero_data opnd2type opnd2 opnd2type) else opnd2 in
        let* '(mkDivide accum dividend _) := divide_magnitudes s (zero_upper s dividend) (zero_upper s divisor) in
        let result1 :=
          if is_signed opnd1type && negb (eqb opnd1sign opnd2sign)
          then fst (ar_negate_integer result1 result1type accum (unsigned_type s)) else accum in
        let result2 :=
          if is_signed opnd1type && opnd1sign
          then fst (ar_negate_integer result2 result2type dividend (unsigned_type s)) else dividend in
        Ok (result1, result2, AR_STAT_OK)
  end.

(** * Dispatch

    What the general routines do with operands of class [AR_CLASS_INT]; the
    other classes are not modelled. *)
Definition AR_add_int (result : ar_data) (resulttype : AR_TYPE) (opnd1 : ar_data) (opnd1type : AR_TYPE)
    (opnd2 : ar_data) (opnd2type : AR_TYPE) : ar_data * Z :=
  if negb (resulttype =? opnd1type) || negb (resulttype =? opnd2type) then (result, AR_STAT_INVALID_TYPE)
  else
    match int_case resulttype with
    | None => (result, AR_STAT_INVALID_TYPE)
    | Some _ =>
        let '(result, status) := ar_add_integer result resulttype opnd1 opnd1type opnd2 opnd2type in
        (result, if negb (is_signed resulttype) then Z.land status (Z.lnot AR_STAT_OVERFLOW) else status)
    end.

Definition AR_subtract_int (result : ar_data) (resulttype : AR_TYPE) (opnd1 : ar_data) (opnd1type : AR_TYPE)
    (opnd2 : ar_data) (opnd2type : AR_TYPE) : ar_data * Z :=
  let '(result, _, status) := ar_subtract_integer result resulttype opnd1 opnd1type opnd2 opnd2type in
  (result, if negb (is_signed resulttype) then Z.land status (Z.lnot AR_STAT_OVERFLOW) else status).

Definition AR_negate_int (result : ar_data) (resulttype : AR_TYPE) (opnd : ar_data) (opndtype : AR_TYPE)
    : ar_data * Z :=
  if negb (resulttype =? opndtype) then (result, AR_STAT_INVALID_TYPE)
  else ar_negate_integer result resulttype opnd opndtype.

Definition AR_multiply_int (result : ar_data) (resulttype : AR_TYPE) (opnd1 : ar_data) (opnd1type : AR_TYPE)
    (opnd2 : ar_data) (opnd2type : AR_TYPE) : ar_data * Z :=
  if negb (resulttype =? opnd1type) || negb (resulttype =? opnd2type) then (result, AR_STAT_INVALID_TYPE)
  else
    match int_case resulttype with
    | None => (result, AR_STAT_INVALID_TYPE)
    | Some _ =>
        let '(result, status) := ar_multiply_integer result resulttype opnd1 opnd1type opnd2 opnd2type in
        (result, if negb (is_signed resulttype) then Z.land status (Z.lnot AR_STAT_OVERFLOW) else status)
    end.

Definition AR_compare_int (opnd1 : ar_data) (opnd1type : AR_TYPE) (opnd2 : ar_data) (opnd2type : AR_TYPE)
    : AR_COMPARE_TYPE :=
  if negb (opnd1type =? opnd2type) then AR_Compare_Invalid
  else
    match int_case opnd1type with
    | None => AR_Compare_Invalid
    | Some _ => ar_compare_integer opnd1 opnd1type opnd2 opnd2type
    end.

Definition AR_divide_int (result : ar_data) (resulttype : AR_TYPE) (opnd1 : ar_data) (opnd1type : AR_TYPE)
    (opnd2 : ar_data) (opnd2type : AR_TYPE) : outcome (ar_data * Z) :=
  if negb (resulttype =? opnd1type) || negb (resulttype =? opnd2type)
  then Ok (result, AR_STAT_INVALID_TYPE)
  else
    match int_case opnd1type with
    | None => Ok (result, AR_STAT_INVALID_TYPE)
    | Some s =>
        let* '(result, modresult, status) :=
          ar_divide_integer result resulttype zero_data resulttype opnd1 opnd1type opnd2 opnd2type in
        let status :=
          if is_signed opnd1type then
            let status :=
              if (opnd1type =? AR_Int_46_S) && INT_OVERFLOWS_46_BITS opnd1 ||
                 (opnd2type =? AR_Int_46_S) && INT_OVERFLOWS_46_BITS opnd2 ||
                 (resulttype =? AR_Int_46_S) && INT_OVERFLOWS_46_BITS result
              then Z.lor status AR_STAT_OVERFLOW else status in
            if negb (int_zero s result) && xorb (xorb (int_sign s opnd1) (int_sign s opnd2)) (int_sign s result)
            then Z.lor status AR_STAT_OVERFLOW else status
          else status in
        Ok (result, Z.lor status (AR_status_int result resulttype))
    end.

Definition AR_mod (result : ar_data) (resulttype : AR_TYPE) (opnd1 : ar_data) (opnd1type : AR_TYPE)
    (opnd2 : ar_data) (opnd2type : AR_TYPE) : outcome (ar_data * Z) :=
  if negb (resulttype =? opnd1type) || negb (resulttype =? opnd2type) || negb (AR_CLASS resulttype =? AR_CLASS_INT)
  then Ok (result, AR_STAT_INVALID_TYPE)
  else
    match int_case resulttype with
    | None => Ok (result, AR_STAT_INVALID_TYPE)
    | Some s =>
        let* '(divresult, result, status) :=
          ar_divide_integer zero_data resulttype result resulttype opnd1 opnd1type opnd2 opnd2type in
        let status := Z.lor status (AR_status_int result resulttype) in
        let status :=
          if is_signed resulttype && (Z.land status AR_STAT_ZERO =? 0) then
            if xorb (int_sign s result) (int_sign s opnd1) then Z.lor status AR_STAT_OVERFLOW else status
          else status in
        Ok (result, status)
    end.

Definition AR_modulo := AR_mod.
End Divide.
