(* ===== verification/ArDivideProps.v ===== *)
(** Integer division is truncated division. *)
From Stdlib Require Import ZArith Lia Bool.
From stdpp Require Import prelude list.
From S2P Require Import Prelude ArData ArInt ArIntProps ArMultiply ArBits ArBitsProps ArDivide.

Section Props.
Context `{Host}.

(** The count of leading zeros is stored in [ar_i64.part4]; an 8-bit integer is
    read from [ar_i8.part5], which is the same bits only on a big-endian host. *)
Definition host_ok (s : int_size) : bool := match s with Int8 => big_endian | _ => true end.

Lemma uval_count s n : host_ok s = true -> 0 <= n <= 64 -> uval s (mkData 0 0 0 n) = n /\ well_formed (mkData 0 0 0 n).
Proof.
  intros Hok Hn. split; [|unfold well_formed, in_u; cbn [part1 part2 part3 part4]; lia].
  unfold uval, digits_value. destruct s; cbn [int_parts foldr part_bits part4 part3 part2 part1]; try lia.
  unfold part5. cbn [host_ok] in Hok. rewrite Hok. cbn [part4]. change 0xFF with (Z.ones 8).
  rewrite Z.land_ones, Z.mod_small by lia. lia.
Qed.

Lemma unsigned_type_ok s : int_type s (unsigned_type s) /\ is_signed (unsigned_type s) = false.
Proof. by destruct s. Qed.

Lemma unsigned_ival s d : ival s (unsigned_type s) d = uval s d.
Proof. unfold ival. by rewrite (proj2 (unsigned_type_ok s)). Qed.

(** An unsigned integer with the fields outside it clear. *)
Record holds (s : int_size) (d : ar_data) (v : Z) : Prop := {
  holds_wf : well_formed d; holds_canonical : canonical s d; holds_value : uval s d = v
}.

Lemma holds_exact s v d : exact s (unsigned_type s) v d -> holds s d (v mod 2 ^ int_bits s).
Proof.
  intros [Hwf Hcan Hv]. split; [done|done|]. rewrite unsigned_ival in Hv. rewrite Hv. unfold wrap.
  by rewrite (proj2 (unsigned_type_ok s)).
Qed.

Lemma ushiftl result s o v count c :
  holds s o v -> well_formed count -> uval s count = c -> c < int_bits s ->
  yields (AR_shiftl result (unsigned_type s) o (unsigned_type s) count (unsigned_type s))
    (fun '(r, _) => holds s r ((v * 2 ^ c) mod 2 ^ int_bits s)).
Proof.
  intros [Hwf _ <-] Hc <- Hlt. pose proof (unsigned_type_ok s) as [[Hcls Hs] _].
  pose proof (shiftl_exact result s (unsigned_type s) o count (unsigned_type s) (conj Hcls Hs) Hcls Hwf Hc) as Hsh.
  rewrite (proj2 (Z.ltb_lt _ _) Hlt) in Hsh. eapply yields_mono; [exact Hsh|]. intros [r st] [Hex _].
  apply holds_exact. by rewrite unsigned_ival in Hex.
Qed.

Lemma ushiftr result s o v count c :
  holds s o v -> well_formed count -> uval s count = c -> c < int_bits s ->
  yields (AR_shiftr result (unsigned_type s) o (unsigned_type s) count (unsigned_type s))
    (fun '(r, _) => holds s r (v / 2 ^ c)).
Proof.
  intros [Hwf _ <-] Hc <- Hlt. pose proof (unsigned_type_ok s) as [[Hcls Hs] _].
  pose proof (shiftr_exact result s (unsigned_type s) o count (unsigned_type s) (conj Hcls Hs) Hcls Hwf Hc) as Hsh.
  rewrite (proj2 (Z.ltb_lt _ _) Hlt) in Hsh. eapply yields_mono; [exact Hsh|]. intros [r st] [Hex _].
  rewrite unsigned_ival in Hex. pose proof (uval_range s o Hwf) as Hu. pose proof (uval_range s count Hc) as Hcu. unfold in_u in *.
  assert (0 < 2 ^ uval s count) by (apply Z.pow_pos_nonneg; lia).
  rewrite <- (Z.mod_small (uval s o / 2 ^ uval s count) (2 ^ int_bits s)); [by apply holds_exact|].
  split; [apply Z.div_pos; lia|]. apply Z.div_lt_upper_bound; nia.
Qed.

Lemma usub result s o1 o2 v1 v2 :
  holds s o1 v1 -> holds s o2 v2 ->
  let '(r, _, _) := ar_subtract_integer result (unsigned_type s) o1 (unsigned_type s) o2 (unsigned_type s) in
  holds s r ((v1 - v2) mod 2 ^ int_bits s).
Proof.
  intros [H1 _ <-] [H2 _ <-]. pose proof (unsigned_type_ok s) as [Ht _].
  pose proof (sub_exact result s (unsigned_type s) o1 o2 Ht H1 H2) as Hsub.
  destruct (ar_subtract_integer _ _ _ _ _ _) as [[r fl] st]. destruct Hsub as (Hex & _).
  rewrite !unsigned_ival in Hex. by apply holds_exact.
Qed.

(** * The loop *)
Lemma lor_one x : Z.even x = true -> Z.lor x 1 = x + 1.
Proof.
  intros Hx. apply Zeven_bool_iff, Zeven_div2 in Hx. rewrite Hx. rewrite Z.add_nocarry_lxor.
  - apply Z.bits_inj'. intros i Hi. rewrite Z.lor_spec, Z.lxor_spec.
    destruct (Z.eq_dec i 0) as [->|].
    + by rewrite Z.testbit_even_0.
    + rewrite (Z.bits_above_log2 1) by (cbn; lia). by rewrite orb_false_r, xorb_false_r.
  - apply Z.bits_inj'. intros i Hi. rewrite Z.land_spec, Z.bits_0. destruct (Z.eq_dec i 0) as [->|].
    + by rewrite Z.testbit_even_0.
    + rewrite (Z.bits_above_log2 1) by (cbn; lia). apply andb_false_r.
Qed.

Lemma set_low_bit_parts s d :
  int_parts s (set_low_bit s d) =
  match int_parts s d with x :: l => Z.lor x 1 :: l | [] => [] end.
Proof.
  unfold set_low_bit. destruct s; cbn [int_parts part1 part2 part3 part4]; try done. do 1 f_equal.
  unfold part5, with_part5. cbn [part4]. destruct big_endian.
  - by rewrite Z.land_lor_distr_l.
  - by rewrite Z.shiftr_lor.
Qed.

Lemma set_low_bit_holds s d v : holds s d v -> Z.even v = true -> holds s (set_low_bit s d) (v + 1).
Proof.
  intros [Hwf Hcan <-] Hev. split.
  - destruct Hwf as (H1 & H2 & H3 & H4). unfold well_formed, set_low_bit. cbn [part1 part2 part3 part4].
    split; [done|]. split; [done|]. split; [done|]. apply in_u_lor; [lia|done|by destruct s, H].
  - unfold canonical in *. rewrite set_low_bit_parts. transitivity (set_low_bit s (put_parts s (int_parts s d))); [|by rewrite Hcan].
    unfold set_low_bit. destruct s; cbn; try done. f_equal. unfold with_part5. destruct big_endian; [done|]. by rewrite Z.shiftl_lor.
  - unfold uval in *. rewrite set_low_bit_parts. destruct (int_parts s d) as [|x l] eqn:E; [by destruct s|].
    rewrite !digits_value_cons in *. rewrite lor_one; [lia|]. rewrite Z.even_add, Z.even_mul in Hev.
    assert (Z.even (2 ^ part_bits s) = true) as He by (by destruct s). rewrite He in Hev. by destruct (Z.even x).
Qed.

(** After the steps that are left, [n] of them, the accumulator is the quotient
    of [X] by [d] and the dividend the remainder. *)
Record divides (s : int_size) (X d n : Z) (st : divide_state) : Prop := {
  divides_accum : holds s (accum st) (uval s (accum st));
  divides_dividend : holds s (dividend st) (uval s (dividend st));
  divides_divisor : holds s (divisor st) (d * 2 ^ n / 2);
  divides_sum : X = uval s (accum st) * (d * 2 ^ n) + uval s (dividend st);
  divides_less : uval s (dividend st) < d * 2 ^ n;
  (** the difference of the dividend and the divisor fits a signed integer *)
  divides_fits : 2 ^ (int_bits s - 1) < d * 2 ^ n / 2 -> 2 ^ (int_bits s - 1) <= uval s (dividend st)
}.

Lemma one_count s : well_formed (put_parts s [1; 0; 0; 0]) /\ uval s (put_parts s [1; 0; 0; 0]) = 1.
Proof. destruct (put_one s) as (? & ? & _). done. Qed.

Lemma divide_step_ok s X d n st :
  0 < d -> 0 <= n -> X < 2 ^ int_bits s -> divides s X d (n + 1) st ->
  yields (divide_step s (put_parts s [1; 0; 0; 0]) st) (divides s X d n).
Proof.
  intros Hd Hn HX [Ha Hdd Hdv Hsum Hless Hfits]. unfold divide_step. destruct (one_count s) as [Hwf1 Hu1].
  bits_facts s. rewrite Z.pow_add_r, Z.pow_1_r, Z.mul_assoc, Z.div_mul in * by lia.
  set (D := d * 2 ^ n) in *. assert (0 < D) as HD by (unfold D; nia).
  set (a := uval s (accum st)) in *. set (y := uval s (dividend st)) in *.
  assert (0 <= a /\ 0 <= y) as [Ha0 Hy0].
  { pose proof (uval_range s _ (holds_wf _ _ _ Ha)). pose proof (uval_range s _ (holds_wf _ _ _ Hdd)). unfold in_u in *. lia. }
  eapply yields_bind; [apply (ushiftl _ s _ a _ 1); [done|done|done|lia]|]. intros [temp st1] Htemp.
  rewrite Z.pow_1_r, Z.mod_small in Htemp by nia.
  pose proof (usub temp s (dividend st) (divisor st) y D Hdd Hdv) as Hsub.
  destruct (ar_subtract_integer _ _ _ _ _ _) as [[diff fl] st2].
  assert (D < 2 ^ int_bits s) as HDW.
  { pose proof (uval_range s _ (holds_wf _ _ _ Hdv)) as Hr. rewrite (holds_value _ _ _ Hdv) in Hr. apply Hr. }
  assert (y < 2 ^ int_bits s) as HyW by (pose proof (uval_range s _ (holds_wf _ _ _ Hdd)) as Hr; apply Hr).
  assert (int_sign s diff = (y <? D)) as Hsign.
  { rewrite int_sign_uval by apply Hsub. rewrite (holds_value _ _ _ Hsub). destruct (Z.ltb_spec y D).
    - assert ((y - D) mod 2 ^ int_bits s = y - D + 2 ^ int_bits s) as -> by (symmetry; apply (Z.mod_unique_pos _ _ (-1)); lia).
      apply Z.leb_le. destruct (Z.le_gt_cases D (2 ^ (int_bits s - 1))); [lia|]. specialize (Hfits ltac:(lia)). lia.
    - rewrite Z.mod_small by lia. apply Z.leb_gt. destruct (Z.le_gt_cases D (2 ^ (int_bits s - 1))); lia. }
  rewrite Hsign. destruct (Z.ltb_spec y D) as [Hlt|Hge]; cbn [negb].
  - eapply yields_bind; [apply (ushiftr _ s _ D _ 1); [done|done|done|lia]|]. intros [temp' st3] Htemp'.
    rewrite Z.pow_1_r in Htemp'. pose proof (holds_value _ _ _ Htemp) as Hv.
    split; cbn [accum dividend divisor]; fold D y; rewrite ?Hv; [done|done|done|lia|lia|].
    intros H1. assert (D / 2 < 2 ^ (int_bits s - 1)) by (apply Z.div_lt_upper_bound; lia). lia.
  - rewrite Z.mod_small in Hsub by lia. pose proof (holds_value _ _ _ Hsub) as Hdiff.
    eapply yields_bind; [apply (ushiftr _ s _ D _ 1); [done|done|done|lia]|]. intros [temp' st3] Htemp'.
    rewrite Z.pow_1_r in Htemp'. assert (Z.even (a * 2) = true) as Hev by (by rewrite Z.even_mul, orb_true_r).
    pose proof (set_low_bit_holds s temp (a * 2) Htemp Hev) as Hset. pose proof (holds_value _ _ _ Hset) as Hv.
    split; cbn [accum dividend divisor]; fold D; rewrite ?Hv, ?Hdiff; [done|done|done|lia|lia|].
    intros H1. assert (D / 2 < 2 ^ (int_bits s - 1)) by (apply Z.div_lt_upper_bound; lia). lia.
Qed.

Lemma divide_loop_ok s X d n st :
  0 < d -> X < 2 ^ int_bits s -> divides s X d (Z.of_nat n) st ->
  yields (divide_loop s (put_parts s [1; 0; 0; 0]) n st) (divides s X d 0).
Proof.
  intros Hd HX. revert st. induction n as [|n IH]; intros st Hst; cbn [divide_loop]; [done|].
  rewrite Nat2Z.inj_succ in Hst. eapply yields_bind; [apply (divide_step_ok s X d (Z.of_nat n)); (done || lia)|].
  intros st' Hst'. by apply IH.
Qed.

Lemma shiftcount_valid s d :
  well_formed d -> uval s d < int_bits s -> shiftcount_invalid s d = false /\ count_low s d = uval s d.
Proof.
  intros Hd Hlt. pose proof (shift_bound s). pose proof (int_bits_pos s).
  destruct (count_above_value s (int_bits s - 1) d Hd ltac:(lia)) as [Habove Hlow]. split; [|apply Hlow; lia].
  rewrite (proj2 (Z.ltb_ge _ _)) in Habove by lia. specialize (Hlow ltac:(lia)).
  unfold count_above in Habove. apply orb_false_iff in Habove as [Htail _].
  unfold shiftcount_invalid. rewrite Htail. cbn [orb]. unfold count_low in Hlow. rewrite Hlow.
  apply negb_false_iff. pose proof (uval_range s d Hd) as Hu. unfold in_u in Hu.
  assert (forallb (fun v => Z.land (Z.of_nat v) (Z.ones (part_bits s) - (int_bits s - 1)) =? 0)
            (seq 0 (Z.to_nat (int_bits s))) = true) as Hall by (by destruct s).
  rewrite forallb_forall in Hall. specialize (Hall (Z.to_nat (uval s d))). rewrite Z2Nat.id in Hall by lia.
  apply Hall, in_seq. lia.
Qed.

Lemma pow_bit_length u : 0 < u -> 2 ^ bit_length u = 2 * 2 ^ (bit_length u - 1) /\ 1 <= bit_length u.
Proof.
  intros Hu. unfold bit_length. rewrite (proj2 (Z.eqb_neq u 0)) by lia. pose proof (Z.log2_nonneg u).
  split; [|lia]. rewrite <- Z.pow_succ_r by lia. f_equal. lia.
Qed.

(** What the shift of the divisor to the position of the dividend establishes. *)
Lemma divides_start s X d (o1 div : ar_data) :
  0 < d -> 0 < X < 2 ^ int_bits s -> holds s o1 X -> bit_length d <= bit_length X ->
  holds s div (d * 2 ^ (bit_length X - bit_length d)) ->
  divides s X d (bit_length X - bit_length d + 1) (mkDivide zero_data o1 div).
Proof.
  intros Hd HX Ho Hlen Hdiv. bits_facts s. pose proof (holds_value _ _ _ Ho) as Hv.
  destruct (bit_length_bounds d) as (_ & Hd2 & Hd1); [lia|]. destruct (bit_length_bounds X) as (_ & HX2 & HX1); [lia|].
  specialize (Hd1 ltac:(lia)). specialize (HX1 ltac:(lia)).
  destruct (pow_bit_length d Hd) as [Hpd Hd0]. destruct (pow_bit_length X ltac:(lia)) as [HpX HX0].
  set (k := bit_length X - bit_length d) in *.
  assert (uval s zero_data = 0) as Hz by (by destruct s, H).
  assert (2 ^ (bit_length X - 1) = 2 ^ (bit_length d - 1) * 2 ^ k) as Hk.
  { rewrite <- Z.pow_add_r by lia. f_equal. lia. }
  assert (0 < 2 ^ k) by (apply Z.pow_pos_nonneg; lia).
  assert (d * 2 ^ (k + 1) = 2 * (d * 2 ^ k)) as Hk1 by (rewrite Z.pow_add_r by lia; lia).
  split; cbn [accum dividend divisor]; rewrite ?Hv, ?Hz, ?Hk1.
  - split; [done|by destruct s, H|done].
  - by split; [apply Ho|apply Ho|].
  - by rewrite Z.mul_comm, Z.div_mul.
  - lia.
  - assert (2 ^ (bit_length d - 1) * 2 ^ k <= d * 2 ^ k) by (apply Z.mul_le_mono_nonneg_r; lia). lia.
  - rewrite Z.mul_comm, Z.div_mul by lia. intros Hbig.
    assert (d * 2 ^ k < 2 ^ bit_length X) as Hup.
    { rewrite HpX, Hk. assert (d * 2 ^ k < 2 ^ bit_length d * 2 ^ k) by (apply Z.mul_lt_mono_pos_r; lia). lia. }
    assert (~ bit_length X <= int_bits s - 1) as Hlt.
    { intros Hle. pose proof (Z.pow_le_mono_r 2 (bit_length X) (int_bits s - 1)). lia. }
    pose proof (Z.pow_le_mono_r 2 (int_bits s - 1) (bit_length X - 1)). lia.
Qed.

Lemma divide_magnitudes_ok s X d o1 o2 :
  host_ok s = true -> 0 < X -> 0 < d -> holds s o1 X -> holds s o2 d ->
  yields (divide_magnitudes s o1 o2) (fun st => holds s (accum st) (X / d) /\ holds s (dividend st) (X mod d)).
Proof.
  intros Hok HX Hd H1 H2. unfold divide_magnitudes.
  pose proof (unsigned_type_ok s) as [[Hcls Hs] _].
  assert (valid_count_result (unsigned_type s) = true) as Hvc by (unfold valid_count_result; by rewrite Hcls, Hs).
  rewrite (leadz_value _ _ _ s o1), (leadz_value _ _ _ s o2) by (done || exact (holds_wf _ _ _ H1) || exact (holds_wf _ _ _ H2)). cbn [obind].
  rewrite (holds_value _ _ _ H1), (holds_value _ _ _ H2).
  pose proof (uval_range s o1 (holds_wf _ _ _ H1)) as HXr. pose proof (uval_range s o2 (holds_wf _ _ _ H2)) as Hdr.
  rewrite (holds_value _ _ _ H1) in HXr. rewrite (holds_value _ _ _ H2) in Hdr.
  bits_facts s. pose proof (bit_length_le X (int_bits s) HXr ltac:(lia)). pose proof (bit_length_le d (int_bits s) Hdr ltac:(lia)).
  unfold in_u in HXr, Hdr. pose proof (pow_bit_length X HX) as [_ HX0]. pose proof (pow_bit_length d Hd) as [_ Hd0].
  destruct (uval_count s (int_bits s - bit_length X) Hok ltac:(lia)) as [Hcx Hwfx].
  destruct (uval_count s (int_bits s - bit_length d) Hok ltac:(lia)) as [Hcd Hwfd].
  assert (int_bits s < 2 ^ (int_bits s - 1)) as HW2 by (by destruct s).
  pose proof (sub_exact zero_data s (unsigned_type s) _ _ (conj Hcls Hs) Hwfd Hwfx) as Hsub.
  destruct (ar_subtract_integer _ _ _ _ _ _) as [[sc fl] st]. destruct Hsub as ([Hscwf _ _] & _ & _ & Hsc).
  rewrite Hcx, Hcd in Hsc. replace (int_bits s - bit_length d - (int_bits s - bit_length X)) with (bit_length X - bit_length d) in Hsc by lia.
  rewrite int_sign_uval, Hsc by done.
  assert (uval s zero_data = 0) as Hz by (by destruct s, H).
  destruct (Z.le_gt_cases (bit_length d) (bit_length X)) as [Hle|Hgt].
  - rewrite Z.mod_small in * by lia. rewrite (proj2 (Z.leb_gt _ _)) by lia. cbn [negb].
    destruct (shiftcount_valid s sc Hscwf ltac:(lia)) as [-> ->]. rewrite Hsc.
    eapply yields_bind; [apply (ushiftl _ s o2 d _ (bit_length X - bit_length d)); [done|done|done|lia]|].
    intros [temp st'] Htemp.
    destruct (bit_length_bounds d) as (_ & Hd2 & _); [lia|].
    assert (d * 2 ^ (bit_length X - bit_length d) < 2 ^ int_bits s) as Hsmall.
    { apply Z.lt_le_trans with (2 ^ bit_length d * 2 ^ (bit_length X - bit_length d)).
      - apply Z.mul_lt_mono_pos_r; [apply Z.pow_pos_nonneg; lia|done].
      - rewrite <- Z.pow_add_r by lia. apply Z.pow_le_mono_r; lia. }
    assert (0 < 2 ^ (bit_length X - bit_length d)) by (apply Z.pow_pos_nonneg; lia).
    rewrite Z.mod_small in Htemp by nia.
    eapply yields_mono.
    + apply (divide_loop_ok s X d); [done|lia|]. rewrite Z2Nat.id by lia. apply divides_start; (done || lia).
    + intros st0 [Ha Hdd _ Hsum Hless _]. rewrite Z.pow_0_r, Z.mul_1_r in *.
      pose proof (uval_range s _ (holds_wf _ _ _ Hdd)) as Hr. unfold in_u in Hr.
      assert (X / d = uval s (accum st0)) as -> by (symmetry; apply (Z.div_unique_pos _ _ _ (uval s (dividend st0))); lia).
      assert (X mod d = uval s (dividend st0)) as -> by (symmetry; apply (Z.mod_unique_pos _ _ (uval s (accum st0))); lia).
      done.
  - assert ((bit_length X - bit_length d) mod 2 ^ int_bits s = bit_length X - bit_length d + 2 ^ int_bits s) as ->
      by (symmetry; apply (Z.mod_unique_pos _ _ (-1)); lia).
    rewrite (proj2 (Z.leb_le _ _)) by lia. cbn [negb yields accum dividend].
    assert (X < d) as Hlt.
    { destruct (bit_length_bounds d) as (_ & _ & Hd1); [lia|]. destruct (bit_length_bounds X) as (_ & HX2 & _); [lia|].
      pose proof (Z.pow_le_mono_r 2 (bit_length X) (bit_length d - 1)). lia. }
    rewrite Z.div_small, Z.mod_small by lia. split; [|done]. split; [done|by destruct s, H|done].
Qed.

(** * Signs *)
Lemma zero_upper_holds s d : well_formed d -> holds s (zero_upper s d) (uval s d).
Proof.
  intros Hd. unfold zero_upper.
  destruct (put_parts_ok s (int_parts s d) (int_parts_range s d Hd) (int_parts_length s d)) as (Hp & Hwf & Hcan).
  split; [done|done|]. unfold uval. by rewrite Hp.
Qed.

(** The result of a negation does not depend on the type of the result. *)
Lemma negate_result_type result rt t o s s' :
  int_case t = Some s -> int_case rt = Some s' ->
  fst (ar_negate_integer result rt o t) = fst (ar_negate_integer result t o t).
Proof.
  intros Hs Hs'. unfold ar_negate_integer. destruct (AR_CLASS t =? AR_CLASS_INT); [|done]. cbn [negb].
  rewrite Hs, Hs'. unfold ar_add_integer. rewrite Hs. destruct (add_parts _ _ _ _) as [l c]. cbv zeta.
  set (r := put_parts s l).
  destruct (is_signed rt), (is_signed t); cbn [negb]; repeat case_match; done.
Qed.

Lemma negate_holds result rt s s' d v :
  int_case rt = Some s' -> holds s d v ->
  let r := fst (ar_negate_integer result rt d (unsigned_type s)) in
  well_formed r /\ canonical s r /\ exists k, uval s r = - v + k * 2 ^ int_bits s.
Proof.
  intros Hrt [Hwf _ <-]. cbn zeta. pose proof (unsigned_type_ok s) as [Ht _].
  rewrite (negate_result_type result rt (unsigned_type s) d s s' (proj2 Ht) Hrt).
  pose proof (negate_exact result s (unsigned_type s) d Ht Hwf) as Hn. destruct (ar_negate_integer _ _ _ _) as [r st].
  destruct Hn as ([Hrw Hrc _] & _ & Hk). done.
Qed.

(** A magnitude with its sign. *)
Lemma signed_exact (neg : bool) result s t d v :
  int_type s t -> holds s d v ->
  exact s t (if neg then - v else v)
    (if neg then fst (ar_negate_integer result t d (unsigned_type s)) else d).
Proof.
  intros [_ Hs] Hd. destruct neg.
  - destruct (negate_holds result t s s d v Hs Hd) as (Hwf & Hcan & k & Hk).
    split; [done|done|by apply (ival_wrap s t _ _ k)].
  - destruct Hd as [Hwf Hcan Hv]. split; [done|done|]. apply (ival_wrap s t _ _ 0); [done|lia].
Qed.

Lemma zero_exact s t : exact s t 0 zero_data.
Proof. split; [done|by destruct s, H|]. apply (ival_wrap s t _ _ 0); [done|]. by destruct s, H. Qed.

Lemma divide_exact result1 result2 s t o1 o2 :
  host_ok s = true -> int_type s t -> well_formed o1 -> well_formed o2 ->
  yields (ar_divide_integer result1 t result2 t o1 t o2 t) (fun '(r1, r2, st) =>
    let x := ival s t o1 in
    let y := ival s t o2 in
    exact s t (Z.quot x y) r1 /\ exact s t (if y =? 0 then 0 else Z.rem x y) r2 /\
    st = if y =? 0 then AR_STAT_OVERFLOW else if x =? 0 then AR_STAT_ZERO else AR_STAT_OK).
Proof.
  intros Hok Ht H1 H2. pose proof (proj2 Ht) as Hs. unfold ar_divide_integer. rewrite Hs.
  assert (forall o, well_formed o -> int_zero s o = (ival s t o =? 0)) as Hzero.
  { intros o Ho. pose proof (int_status_value s t o Ho) as E. unfold int_status, value_status in E.
    destruct (int_zero s o), (ival s t o =? 0); try done; repeat case_match; done. }
  rewrite !Hzero by done. pose proof (magnitude_value s t o1 Ht H1) as [Hm1 Hv1].
  pose proof (magnitude_value s t o2 Ht H2) as [Hm2 Hv2]. fold (magnitude s t o1) (magnitude s t o2).
  pose proof (sign_ival s t o1 H1) as Hs1. pose proof (sign_ival s t o2 H2) as Hs2.
  set (x := ival s t o1) in *. set (y := ival s t o2) in *. cbv zeta.
  destruct (Z.eqb_spec y 0) as [->|Hy].
  { cbn [yields]. replace (Z.quot x 0) with 0 by (by destruct x). split; [apply zero_exact|]. split; [apply zero_exact|done]. }
  destruct (Z.eqb_spec x 0) as [->|Hx].
  { cbn [yields]. rewrite Z.quot_0_l, Z.rem_0_l by done. split; [apply zero_exact|]. split; [apply zero_exact|done]. }
  pose proof (zero_upper_holds s _ Hm1) as Hu1. pose proof (zero_upper_holds s _ Hm2) as Hu2. rewrite Hv1 in Hu1. rewrite Hv2 in Hu2.
  eapply yields_bind; [apply (divide_magnitudes_ok s (Z.abs x) (Z.abs y)); (done || lia)|].
  intros [acc dd dv] [Hq Hr]. cbn [accum dividend] in *. cbn [yields].
  assert (is_signed t && negb (eqb (int_sign s o1) (int_sign s o2)) = xorb (x <? 0) (y <? 0)) as ->.
  { rewrite <- Hs1, <- Hs2. by destruct (is_signed t), (int_sign s o1), (int_sign s o2). }
  rewrite Hs1. pose proof (signed_exact (xorb (x <? 0) (y <? 0)) result1 s t acc _ Ht Hq) as E1.
  pose proof (signed_exact (x <? 0) result2 s t dd _ Ht Hr) as E2.
  assert (Z.quot x y = if xorb (x <? 0) (y <? 0) then - (Z.abs x / Z.abs y) else Z.abs x / Z.abs y) as ->.
  { rewrite Z.quot_div by done. destruct (Z.ltb_spec x 0), (Z.ltb_spec y 0); cbn [xorb];
      rewrite ?(Z.sgn_neg x), ?(Z.sgn_neg y), ?(Z.sgn_pos x), ?(Z.sgn_pos y) by lia; lia. }
  assert (Z.rem x y = if x <? 0 then - (Z.abs x mod Z.abs y) else Z.abs x mod Z.abs y) as ->.
  { rewrite Z.rem_mod by done. destruct (Z.ltb_spec x 0); rewrite ?(Z.sgn_neg x), ?(Z.sgn_pos x) by lia; lia. }
  done.
Qed.
End Props.
