(* ===== verification/ArFields.v ===== *)
(** Fields of bits: what the bitwise operations, [AR_ishft], [AR_ibits] and
    [AR_ishftc] do to the single bits. *)
From Stdlib Require Import ZArith Lia Bool.
From stdpp Require Import prelude list.
From S2P Require Import Prelude ArData ArInt ArIntProps ArBits ArBitsProps ArDivideProps.

Section Fields.
Context `{Host}.

(** The count that [INTn_TO_HOST_SINT64] reads is the signed value. *)
Lemma host_sint64 s a : well_formed a -> HOST_SINT64 s a = sval s a.
Proof.
  intros Ha. unfold HOST_SINT64. fold (uval s a). rewrite sval_uval by done.
  assert (int_bits Int64 = 64) as H64 by done.
  assert (- Z.land (Z.lnot (uval s a) + 1) (Z.lnot (Z.shiftl (-1) (int_bits s))) =
          - ((- uval s a) mod 2 ^ int_bits s)) as E.
  { bits_facts s. f_equal. rewrite <- Z.land_ones by lia. f_equal; [unfold Z.lnot, Z.pred; lia|].
    rewrite Z.shiftl_mul_pow2, Z.ones_equiv by lia. unfold Z.lnot, Z.pred. lia. }
  assert (int_sign s a = true -> - ((- uval s a) mod 2 ^ int_bits s) = uval s a - 2 ^ int_bits s) as Es.
  { intros Hs. bits_facts s. rewrite int_sign_uval in Hs by done. apply Z.leb_le in Hs.
    pose proof (uval_range s a Ha) as Hu. unfold in_u in Hu.
    assert ((- uval s a) mod 2 ^ int_bits s = 2 ^ int_bits s - uval s a) as ->; [|lia].
    symmetry. apply (Z.mod_unique_pos _ _ (-1)); lia. }
  destruct s; try (destruct (int_sign _ a); [by rewrite E, Es|done]).
  rewrite <- H64. fold (sval Int64 a). by apply sval_uval.
Qed.

(** * Bitwise operations *)
Definition bit_operation (opr : Z -> Z -> Z) (f : bool -> bool -> bool) : Prop :=
  (forall w a b, 0 <= w -> in_u w a -> in_u w b -> in_u w (opr a b)) /\
  (forall a b i, Z.testbit (opr a b) i = f (Z.testbit a i) (Z.testbit b i)) /\ f false false = false.

Lemma bit_operations : bit_operation Z.lor orb /\ bit_operation Z.land andb /\ bit_operation Z.lxor xorb.
Proof.
  split; [|split]; (split; [|split; [|done]]).
  - apply in_u_lor.
  - apply Z.lor_spec.
  - intros w a b Hw Ha Hb. by apply in_u_land_l.
  - apply Z.land_spec.
  - intros w a b Hw Ha Hb. apply in_u_bits; [done|apply Z.lxor_nonneg; split; intros _; [apply Hb|apply Ha]|].
    intros i Hi. rewrite Z.lxor_spec, !(testbit_high w) by (done || lia). done.
  - apply Z.lxor_spec.
Qed.

Lemma bitoper_bits opr f result s t o1 o2 :
  bit_operation opr f -> int_type s t -> well_formed o1 -> well_formed o2 ->
  let '(r, st) := bitoper opr result t o1 t o2 t in
  well_formed r /\ canonical s r /\ st = int_status s t r /\
  forall i, 0 <= i -> Z.testbit (uval s r) i = f (Z.testbit (uval s o1) i) (Z.testbit (uval s o2) i).
Proof.
  intros (Hin & Hspec & Hff) [Hcls Hs] H1 H2. unfold bitoper. rewrite !Z.eqb_refl, Hcls, Hs, Z.eqb_refl. cbn [negb orb].
  pose proof (int_parts_range s o1 H1) as R1. pose proof (int_parts_range s o2 H2) as R2. pose proof (part_bits_pos s).
  set (l := zip_with opr (int_parts s o1) (int_parts s o2)).
  assert (length (int_parts s o1) = length (int_parts s o2)) as Hlen12 by (by destruct s).
  assert (Forall (in_u (part_bits s)) l) as Hl.
  { apply (Forall_zip_with_fst opr (in_u (part_bits s))); [done|].
    eapply Forall_impl; [exact R2|]. intros y Hy x Hx. apply Hin; (done || lia). }
  assert (Z.of_nat (length l) = part_count s) as Hlen.
  { unfold l. rewrite length_zip_with_l_eq by done. apply int_parts_length. }
  destruct (put_parts_ok s l Hl Hlen) as (Hp & Hwf & Hcan). rewrite (AR_status_int_case s) by done.
  split; [done|]. split; [done|]. split; [done|]. intros i Hi. unfold uval. rewrite Hp.
  rewrite !digits_testbit by (done || lia). unfold zlookup.
  destruct (0 <=? i / part_bits s); cbn [default]; [|by rewrite !Z.bits_0].
  unfold l. rewrite lookup_zip_with.
  destruct (int_parts s o1 !! _) eqn:E1, (int_parts s o2 !! _) eqn:E2; cbn; rewrite ?Hspec, ?Z.bits_0; try done.
  - apply lookup_lt_Some in E1. apply lookup_ge_None in E2. lia.
  - apply lookup_lt_Some in E2. apply lookup_ge_None in E1. lia.
Qed.

(** * Double shifts, bit by bit *)
Lemma dblshift_bits result s t o1 o2 k :
  int_case t = Some s -> well_formed o1 -> well_formed o2 -> 0 <= k <= 2 * int_bits s ->
  yields (ar_dblshift result t o1 o2 k) (fun r => well_formed r /\ canonical s r /\
    forall i, 0 <= i < int_bits s ->
    Z.testbit (uval s r) i =
    let j := (i + k) mod (2 * int_bits s) in
    if j <? int_bits s then Z.testbit (uval s o2) j else Z.testbit (uval s o1) (j - int_bits s)).
Proof.
  intros Hs H1 H2 Hk. pose proof (fun i => dblshift_testbit result s t o1 o2 k i Hs H1 H2 Hk) as Hbits. bits_facts s.
  destruct (ar_dblshift result t o1 o2 k) as [r|f]; [|by destruct (Hbits 0 ltac:(lia))].
  cbn [yields] in *. destruct (Hbits 0 ltac:(lia)) as (Hwf & Hcan & _). split; [done|]. split; [done|].
  intros i Hi. destruct (Hbits i Hi) as (_ & _ & ->). cbn zeta.
  pose proof (Z.mod_pos_bound (i + k) (2 * int_bits s) ltac:(lia)).
  unfold double_value. rewrite Z.add_comm, Z.mul_comm. apply concat_testbit; [lia|by apply uval_range|lia].
Qed.

Lemma testbit_outside s d i : well_formed d -> i < 0 \/ int_bits s <= i -> Z.testbit (uval s d) i = false.
Proof.
  intros Hd [Hi|Hi]; [by apply Z.testbit_neg_r|]. apply (testbit_high (int_bits s)); [by apply uval_range|].
  pose proof (int_bits_pos s). lia.
Qed.

Lemma uval_bits s d v :
  well_formed d -> in_u (int_bits s) v ->
  (forall i, 0 <= i < int_bits s -> Z.testbit (uval s d) i = Z.testbit v i) -> uval s d = v.
Proof.
  intros Hd Hv Hb. apply Z.bits_inj'. intros i Hi. destruct (Z.ltb_spec i (int_bits s)); [by apply Hb|].
  rewrite testbit_outside by auto. symmetry. pose proof (int_bits_pos s). apply (testbit_high (int_bits s)); [done|lia].
Qed.

Lemma uval_zero s : uval s zero_data = 0.
Proof. by destruct s, H. Qed.

Lemma not_int_24 s t : int_case t = Some s -> (AR_INT_SIZE t =? AR_INT_SIZE_24) = false.
Proof. intros Hs. apply Z.eqb_neq. intros E. unfold int_case in Hs. by rewrite E in Hs. Qed.

(** * [AR_ishft]: a logical shift *)
Lemma swrap_neg n : - 2 ^ 63 <= n < 0 -> swrap 64 (- n) = if n =? - 2 ^ 63 then n else - n.
Proof.
  intros Hn. destruct (Z.eqb_spec n (- 2 ^ 63)) as [->|]; [done|]. apply swrap_id; unfold in_s; lia.
Qed.

(** [AR_ishft] shifts to the left by a positive count and to the right by a
    negative one, and fills with zeros; larger counts than the width are
    rejected. *)
Theorem ar_ishft_logical result s t o shift sht :
  int_type s t -> AR_CLASS sht = AR_CLASS_INT -> AR_INT_SIZE sht <> AR_INT_SIZE_24 -> well_formed o -> well_formed shift ->
  let n := sval s shift in
  if Z.abs n <=? int_bits s then
    yields (AR_ishft result t o t shift sht) (fun '(r, st) =>
      holds s r (if n <? 0 then uval s o / 2 ^ (- n) else (uval s o * 2 ^ n) mod 2 ^ int_bits s) /\ st = int_status s t r)
  else AR_ishft result t o t shift sht = Ok (zero_data, AR_STAT_UNDEFINED).
Proof.
  intros [Hcls Hs] Hsc Hss Ho Hsh. unfold AR_ishft.
  pose proof (not_int_24 s t Hs) as Hts.
  rewrite !Z.eqb_refl, Hcls, Hsc, Z.eqb_refl, Hts, (proj2 (Z.eqb_neq _ _) Hss), Hs. cbn [negb orb].
  rewrite host_sint64 by done. cbn zeta. set (n := sval s shift) in *. bits_facts s.
  assert (- 2 ^ 63 <= n < 2 ^ 63) as Hn.
  { pose proof (sval_range s shift Hsh) as Hr. fold n in Hr. unfold in_s in Hr.
    pose proof (Z.pow_le_mono_r 2 (int_bits s - 1) 63). lia. }
  assert (uval s zero_data = 0) as Hz by apply uval_zero. pose proof (uval_range s o Ho) as Hu. unfold in_u in Hu.
  assert (forall k, 0 <= k <= 2 * int_bits s ->
    yields (obind (ar_dblshift zero_data t zero_data o k) (fun r => Ok (r, AR_status_int r t)))
      (fun '(r, st) => holds s r ((uval s o / 2 ^ k + 2 ^ (2 * int_bits s - k) * uval s o) mod 2 ^ int_bits s) /\ st = int_status s t r)) as Hd.
  { intros k Hk. eapply yields_bind; [apply (dblshift_value _ s); [done|done|done|lia]|].
    intros r (Hwf & Hcan & Hr). unfold double_value in Hr. rewrite Hz, Z.mul_0_l, Z.add_0_l in Hr.
    cbn [yields]. rewrite (AR_status_int_case s) by done. done. }
  destruct (Z.leb_spec (Z.abs n) (int_bits s)) as [Hle|Hgt]; destruct (Z.ltb_spec n 0).
  - assert (swrap 64 (- n) = - n) as -> by (apply swrap_id; unfold in_s; lia).
    rewrite (proj2 (Z.ltb_ge (- n) 0)), (proj2 (Z.ltb_ge (int_bits s) (- n))) by lia. cbn [orb].
    assert (uval s o / 2 ^ (- n) = (uval s o / 2 ^ (- n) + 2 ^ (2 * int_bits s - - n) * uval s o) mod 2 ^ int_bits s) as ->; [|apply Hd; lia].
    replace (2 * int_bits s - - n) with ((int_bits s + n) + int_bits s) by lia. rewrite Z.pow_add_r by lia.
    replace (2 ^ (int_bits s + n) * 2 ^ int_bits s * uval s o) with (2 ^ (int_bits s + n) * uval s o * 2 ^ int_bits s) by ring.
    rewrite Z.mod_add by lia. symmetry. apply Z.mod_small.
    assert (0 < 2 ^ (- n)) by (apply Z.pow_pos_nonneg; lia). split; [apply Z.div_pos; lia|]. apply Z.div_lt_upper_bound; nia.
  - rewrite (proj2 (Z.ltb_ge n 0)), (proj2 (Z.ltb_ge (int_bits s) n)) by lia. cbn [orb].
    rewrite <- left_rotation by lia. apply Hd. lia.
  - rewrite swrap_neg by lia. destruct (Z.ltb_spec (int_bits s) (if n =? - 2 ^ 63 then n else - n)), (Z.eqb_spec n (- 2 ^ 63));
      cbn [orb]; try done.
    + rewrite (proj2 (Z.ltb_lt n 0)) by lia. done.
    + by rewrite orb_true_r.
    + rewrite (proj2 (Z.ltb_lt n 0)) by lia. done.
    + lia.
  - rewrite (proj2 (Z.ltb_lt (int_bits s) n)) by lia. by rewrite orb_true_r.
Qed.

(** * [AR_ibits]: a field of bits *)
Lemma sval_bounds s d : well_formed d -> - 2 ^ 63 <= sval s d < 2 ^ 63.
Proof.
  intros Hd. pose proof (sval_range s d Hd) as Hr. unfold in_s in Hr. pose proof (int_bits_pos s).
  pose proof (Z.pow_le_mono_r 2 (int_bits s - 1) 63). lia.
Qed.

Lemma swrap_small w n : 0 <= n <= 64 -> 32 <= w -> swrap w n = n.
Proof.
  intros Hn Hw. apply swrap_id; [lia|]. unfold in_s. pose proof (Z.pow_le_mono_r 2 (32 - 1) (w - 1)). lia.
Qed.

Lemma dblshift_low result s t o1 o2 k :
  int_case t = Some s -> well_formed o1 -> well_formed o2 -> 0 <= k <= int_bits s ->
  yields (ar_dblshift result t o1 o2 k) (fun r => well_formed r /\ canonical s r /\
    forall i, 0 <= i < int_bits s ->
    Z.testbit (uval s r) i =
    if i + k <? int_bits s then Z.testbit (uval s o2) (i + k) else Z.testbit (uval s o1) (i + k - int_bits s)).
Proof.
  intros Hs H1 H2 Hk. eapply yields_mono; [apply (dblshift_bits result s t o1 o2 k); (done || lia)|].
  intros r (Hwf & Hcan & Hb). split; [done|]. split; [done|]. intros i Hi. rewrite (Hb i Hi). cbn zeta.
  by rewrite Z.mod_small by lia.
Qed.

(** [AR_ibits] extracts a field of bits and right-justifies it; fields that reach
    outside the integer are rejected. *)
Theorem ar_ibits_extracts result s t o shift sht size szt :
  int_type s t -> AR_CLASS sht = AR_CLASS_INT -> AR_INT_SIZE sht <> AR_INT_SIZE_24 ->
  AR_CLASS szt = AR_CLASS_INT -> AR_INT_SIZE szt <> AR_INT_SIZE_24 ->
  well_formed o -> well_formed shift -> well_formed size ->
  let pos := sval s shift in
  let len := sval s size in
  if (0 <=? pos) && (0 <=? len) && (pos + len <=? int_bits s) then
    yields (AR_ibits result t o t shift sht size szt) (fun '(r, st) =>
      holds s r ((uval s o / 2 ^ pos) mod 2 ^ len) /\ st = int_status s t r)
  else AR_ibits result t o t shift sht size szt = Ok (result, AR_STAT_UNDEFINED).
Proof.
  intros [Hcls Hs] Hsc Hss Hzc Hzs Ho Hsh Hsz. unfold AR_ibits.
  rewrite !Z.eqb_refl, Hcls, Hsc, Hzc, Z.eqb_refl, (not_int_24 s t Hs), (proj2 (Z.eqb_neq _ _) Hss), (proj2 (Z.eqb_neq _ _) Hzs), Hs.
  cbn [negb orb]. rewrite !host_sint64 by done. cbn zeta.
  pose proof (sval_bounds s shift Hsh). pose proof (sval_bounds s size Hsz).
  set (pos := sval s shift) in *. set (len := sval s size) in *. bits_facts s.
  destruct (Z.leb_spec 0 pos), (Z.leb_spec 0 len); cbn [andb].
  2: { by rewrite (proj2 (Z.ltb_lt len 0)). }
  2: { by rewrite (proj2 (Z.ltb_lt pos 0)), orb_true_r. }
  2: { by rewrite (proj2 (Z.ltb_lt len 0)). }
  rewrite (proj2 (Z.ltb_ge len 0)), (proj2 (Z.ltb_ge pos 0)) by lia. cbn [orb].
  assert (swrap 64 (int_bits s - len) = int_bits s - len) as -> by (apply swrap_id; unfold in_s; lia).
  destruct (Z.leb_spec (pos + len) (int_bits s)); [|by rewrite (proj2 (Z.ltb_lt _ _)) by lia].
  rewrite (proj2 (Z.ltb_ge _ _)) by lia. rewrite !swrap_small by lia.
  eapply yields_bind; [apply (dblshift_low _ s); [done|done|done|lia]|]. intros temp (Hwt & _ & Hbt).
  eapply yields_bind; [apply (dblshift_low _ s); [done|done|done|lia]|]. intros r (Hwr & Hcr & Hbr).
  cbn [yields]. rewrite (AR_status_int_case s) by done. split; [|done]. split; [done|done|].
  pose proof (uval_range s o Ho) as Hu. unfold in_u in Hu.
  apply uval_bits; [done| |].
  - assert (0 < 2 ^ len) by (apply Z.pow_pos_nonneg; lia). pose proof (Z.mod_pos_bound (uval s o / 2 ^ pos) (2 ^ len) ltac:(lia)).
    pose proof (Z.pow_le_mono_r 2 len (int_bits s)). unfold in_u. lia.
  - intros i Hi. rewrite Hbr by done. destruct (Z.ltb_spec (i + (int_bits s - len)) (int_bits s)).
    + rewrite Hbt, Z.mod_pow2_bits_low, Z.div_pow2_bits by lia. rewrite uval_zero, Z.bits_0.
      destruct (Z.ltb_spec (i + (int_bits s - len) + (pos + len)) (int_bits s)); [lia|]. f_equal. lia.
    + by rewrite uval_zero, Z.bits_0, Z.mod_pow2_bits_high by lia.
Qed.

(** * [AR_ishftc]: rotate the rightmost bits *)
Lemma ones_bits s : host_ok s = true -> well_formed (ones_data s) /\ uval s (ones_data s) = Z.ones (int_bits s).
Proof.
  intros Hok. split; [by destruct s|]. destruct s; try reflexivity.
  unfold uval, digits_value. cbn [int_parts ones_data foldr]. unfold part5. cbn [host_ok] in Hok. by rewrite Hok.
Qed.

(** The bits below [size] rotated to the left by [count], the others unchanged. *)
Definition rotate_low (u size count i : Z) : bool :=
  Z.testbit u (if i <? size then (i - count) mod size else i).

(** An operation of which only the bits of the result matter. *)
Lemma AR_bitand_bits result s t o1 o2 :
  int_type s t -> well_formed o1 -> well_formed o2 ->
  let '(r, _) := AR_bitand result t o1 t o2 t in
  well_formed r /\ canonical s r /\
  forall i, 0 <= i -> Z.testbit (uval s r) i = Z.testbit (uval s o1) i && Z.testbit (uval s o2) i.
Proof.
  intros Ht H1 H2. pose proof (bitoper_bits Z.land andb result s t o1 o2 (proj1 (proj2 bit_operations)) Ht H1 H2) as Hb.
  unfold AR_bitand. destruct (bitoper _ _ _ _ _ _ _) as [r st]. by destruct Hb as (? & ? & _ & ?).
Qed.

Lemma AR_bitor_bits result s t o1 o2 :
  int_type s t -> well_formed o1 -> well_formed o2 ->
  let '(r, _) := AR_bitor result t o1 t o2 t in
  well_formed r /\ canonical s r /\
  forall i, 0 <= i -> Z.testbit (uval s r) i = Z.testbit (uval s o1) i || Z.testbit (uval s o2) i.
Proof.
  intros Ht H1 H2. pose proof (bitoper_bits Z.lor orb result s t o1 o2 (proj1 bit_operations) Ht H1 H2) as Hb.
  unfold AR_bitor. destruct (bitoper _ _ _ _ _ _ _) as [r st]. by destruct Hb as (? & ? & _ & ?).
Qed.

(** The part of the routine after the checks, for a rotation to the left. *)
Lemma rotate_ok result s t o n c :
  host_ok s = true -> int_type s t -> well_formed o -> 1 <= n <= int_bits s -> 0 <= c <= n ->
  let dbl := fun r => ar_dblshift r t in
  yields
    (let* mask := dbl zero_data (ones_data s) zero_data (int_bits s - n) in
     let '(result, _) := AR_bitand result t o t mask t in
     let '(result, _) := AR_bitand result t result t (ones_data s) t in
     let* mask := dbl mask zero_data (ones_data s) (int_bits s - n) in
     let '(rotatee, _) := AR_bitand zero_data t o t mask t in
     let* temp := dbl zero_data zero_data rotatee (n - c) in
     let '(result, _) := AR_bitor result t result t temp t in
     let* temp := dbl temp rotatee zero_data (n - c) in
     let* temp := dbl temp zero_data temp (int_bits s - n) in
     let '(result, _) := AR_bitor result t result t temp t in
     Ok (result, AR_status_int result t))
    (fun '(r, st) => well_formed r /\ canonical s r /\ st = int_status s t r /\
       forall i, 0 <= i < int_bits s -> Z.testbit (uval s r) i = rotate_low (uval s o) n c i).
Proof.
  intros Hok Ht Ho Hn Hc. cbn zeta. pose proof (proj2 Ht) as Hs. pose proof (int_bits_pos s) as HB.
  destruct (ones_bits s Hok) as [Hones Hones_v]. assert (well_formed zero_data) as Hzero by done.
  assert (forall i, 0 <= i < int_bits s -> Z.testbit (uval s (ones_data s)) i = true) as Hone.
  { intros i Hi. rewrite Hones_v. apply Z.ones_spec_low. lia. }
  assert (forall i, Z.testbit (uval s zero_data) i = false) as Hz by (intros i; by rewrite uval_zero, Z.bits_0).
  eapply yields_bind; [apply (dblshift_low _ s); (done || lia)|]. intros mask (Hmw & _ & Hmb).
  pose proof (AR_bitand_bits result s t o mask Ht Ho Hmw) as H1. destruct (AR_bitand _ _ _ _ mask _) as [r1 s1]. destruct H1 as (H1w & _ & H1b).
  pose proof (AR_bitand_bits r1 s t r1 (ones_data s) Ht H1w Hones) as H2. destruct (AR_bitand _ _ _ _ (ones_data s) _) as [r2 s2]. destruct H2 as (H2w & _ & H2b).
  eapply yields_bind; [apply (dblshift_low _ s); (done || lia)|]. intros mask2 (Hmw2 & _ & Hmb2).
  pose proof (AR_bitand_bits zero_data s t o mask2 Ht Ho Hmw2) as H3. destruct (AR_bitand _ _ _ _ mask2 _) as [rot s3]. destruct H3 as (H3w & _ & H3b).
  eapply yields_bind; [apply (dblshift_low _ s); (done || lia)|]. intros temp (Htw & _ & Htb).
  pose proof (AR_bitor_bits r2 s t r2 temp Ht H2w Htw) as H4. destruct (AR_bitor _ _ _ _ temp _) as [r4 s4]. destruct H4 as (H4w & _ & H4b).
  eapply yields_bind; [apply (dblshift_low _ s); (done || lia)|]. intros temp2 (Htw2 & _ & Htb2).
  eapply yields_bind; [apply (dblshift_low _ s); (done || lia)|]. intros temp3 (Htw3 & _ & Htb3).
  pose proof (AR_bitor_bits r4 s t r4 temp3 Ht H4w Htw3) as H5. destruct (AR_bitor _ _ _ _ temp3 _) as [r s5]. destruct H5 as (H5w & H5c & H5b).
  cbn [yields]. rewrite (AR_status_int_case s) by done. split; [done|]. split; [done|]. split; [done|]. intros i Hi.
  assert (forall j, 0 <= j < int_bits s -> Z.testbit (uval s rot) j = Z.testbit (uval s o) j && (j <? n)) as Hrot.
  { intros j Hj. rewrite H3b, Hmb2 by lia. f_equal. destruct (Z.ltb_spec (j + (int_bits s - n)) (int_bits s)), (Z.ltb_spec j n);
      try lia; rewrite ?Hz; [apply Hone; lia|done]. }
  rewrite H5b, H4b, H2b, H1b, Hone by lia. rewrite andb_true_r.
  assert (Z.testbit (uval s mask) i = negb (i <? n)) as ->.
  { rewrite Hmb by done. destruct (Z.ltb_spec (i + (int_bits s - n)) (int_bits s)), (Z.ltb_spec i n); try lia;
      [by rewrite Hz|apply Hone; lia]. }
  assert (Z.testbit (uval s temp) i = (i <? c) && Z.testbit (uval s o) (i + n - c)) as ->.
  { rewrite Htb by done. destruct (Z.ltb_spec (i + (n - c)) (int_bits s)).
    - rewrite Hrot by lia. replace (i + (n - c)) with (i + n - c) by lia.
      destruct (Z.ltb_spec (i + n - c) n), (Z.ltb_spec i c); try lia; cbn [andb]; by rewrite ?andb_true_r, ?andb_false_r.
    - rewrite Hz. by rewrite (proj2 (Z.ltb_ge i c)) by lia. }
  assert (Z.testbit (uval s temp3) i = (c <=? i) && (i <? n) && Z.testbit (uval s o) (i - c)) as ->.
  { rewrite Htb3 by done. destruct (Z.ltb_spec (i + (int_bits s - n)) (int_bits s)).
    - rewrite Htb2 by lia. rewrite (proj2 (Z.ltb_lt i n)), andb_true_r by lia.
      destruct (Z.ltb_spec (i + (int_bits s - n) + (n - c)) (int_bits s)).
      + by rewrite Hz, (proj2 (Z.leb_gt c i)) by lia.
      + rewrite Hrot by lia. replace (i + (int_bits s - n) + (n - c) - int_bits s) with (i - c) by lia.
        by rewrite (proj2 (Z.leb_le c i)), (proj2 (Z.ltb_lt (i - c) n)), andb_true_r by lia.
    - by rewrite Hz, (proj2 (Z.ltb_ge i n)), andb_false_r by lia. }
  unfold rotate_low. destruct (Z.ltb_spec i n) as [Hin|Hin]; cbn [negb andb].
  - rewrite andb_false_r. cbn [orb]. rewrite andb_true_r. destruct (Z.ltb_spec i c), (Z.leb_spec c i); try lia; cbn [andb orb].
    + rewrite orb_false_r. f_equal. apply (Z.mod_unique_pos _ _ (-1)); lia.
    + f_equal. symmetry. apply Z.mod_small. lia.
  - rewrite (proj2 (Z.ltb_ge i c)) by lia. rewrite andb_true_r, andb_false_r. cbn [andb]. by rewrite !orb_false_r.
Qed.

(** C34. [AR_ishftc] rotates the rightmost [n] bits to the left by [c] (to the right if
    [c] is negative), keeps the other bits, and rejects fields and counts that are
    out of range; 8-bit integers need a big-endian host ([host_ok]; on little-endian ones
    bits are lost).  The count and the field width are given as integers of any size
    but 24 bits. *)
Theorem ar_ishftc_rotates result s t o shift sht size szt :
  host_ok s = true -> int_type s t -> AR_CLASS sht = AR_CLASS_INT -> AR_INT_SIZE sht <> AR_INT_SIZE_24 ->
  AR_CLASS szt = AR_CLASS_INT -> AR_INT_SIZE szt <> AR_INT_SIZE_24 ->
  well_formed o -> well_formed shift -> well_formed size ->
  let c := sval s shift in
  let n := sval s size in
  if (1 <=? n) && (n <=? int_bits s) && (Z.abs c <=? n) then
    yields (AR_ishftc result t o t shift sht size szt) (fun '(r, st) =>
      well_formed r /\ canonical s r /\ st = int_status s t r /\
      forall i, 0 <= i < int_bits s -> Z.testbit (uval s r) i = rotate_low (uval s o) n c i)
  else AR_ishftc result t o t shift sht size szt = Ok (result, AR_STAT_UNDEFINED).
Proof.
  intros Hok Ht Hsc Hss Hzc Hzs Ho Hsh Hsz. pose proof Ht as [Hcls Hs]. unfold AR_ishftc.
  rewrite !Z.eqb_refl, Hcls, Hsc, Hzc, Z.eqb_refl, (not_int_24 s t Hs), (proj2 (Z.eqb_neq _ _) Hss), (proj2 (Z.eqb_neq _ _) Hzs), Hs.
  cbn [negb orb]. rewrite !host_sint64 by done. cbn zeta.
  pose proof (sval_bounds s shift Hsh). pose proof (sval_bounds s size Hsz).
  set (c := sval s shift) in *. set (n := sval s size) in *. pose proof (int_bits_pos s) as HB.
  destruct (Z.leb_spec 1 n); cbn [andb]; [|by rewrite (proj2 (Z.ltb_lt n 1))].
  rewrite (proj2 (Z.ltb_ge n 1)) by lia. cbn [orb].
  destruct (Z.leb_spec n (int_bits s)); cbn [andb]; [|by rewrite (proj2 (Z.ltb_lt (int_bits s) n))].
  rewrite (proj2 (Z.ltb_ge (int_bits s) n)) by lia. cbn [orb].
  assert ((if c <? 0 then swrap 64 (n + c) else c) = if c <? 0 then n + c else c) as ->.
  { destruct (Z.ltb_spec c 0); [|done]. apply swrap_id; unfold in_s; lia. }
  set (c' := if c <? 0 then n + c else c).
  destruct (Z.leb_spec (Z.abs c) n).
  - assert (0 <= c' <= n /\ forall i, (i - c') mod n = (i - c) mod n) as [Hc' Hmod].
    { unfold c'. destruct (Z.ltb_spec c 0); split; try lia; intros i; try done.
      rewrite <- (Z.mod_add _ 1) by lia. f_equal. lia. }
    rewrite (proj2 (Z.ltb_ge c' 0)), (proj2 (Z.ltb_ge n c')) by lia. cbn [orb].
    eapply yields_mono; [apply (rotate_ok result s t o n c'); done|].
    intros [r st] (Hwf & Hcan & Hst & Hb). split; [done|]. split; [done|]. split; [done|]. intros i Hi.
    rewrite Hb by done. unfold rotate_low. by rewrite Hmod.
  - assert (c' < 0 \/ n < c') as Hout by (unfold c'; destruct (Z.ltb_spec c 0); lia).
    destruct (Z.ltb_spec c' 0); [done|]. by rewrite (proj2 (Z.ltb_lt n c')) by lia.
Qed.
End Fields.

Lemma ar_ishftc_rotates_witness :
  let o := mkData 0 0 0 0x1234 in
  let shift := mkData 0 0 0 4 in
  let size := mkData 0 0 0 12 in
  (if (1 <=? @sval little_endian_host Int16 size) && (@sval little_endian_host Int16 size <=? int_bits Int16) &&
      (Z.abs (@sval little_endian_host Int16 shift) <=? @sval little_endian_host Int16 size)
   then
    yields (@AR_ishftc little_endian_host zero_data AR_Int_16_U o AR_Int_16_U shift AR_Int_16_S size AR_Int_16_S) (fun '(r, st) =>
      well_formed r /\ @canonical little_endian_host Int16 r /\ st = @int_status little_endian_host Int16 AR_Int_16_U r /\
      forall i, 0 <= i < int_bits Int16 ->
      Z.testbit (@uval little_endian_host Int16 r) i =
      rotate_low (@uval little_endian_host Int16 o) (@sval little_endian_host Int16 size) (@sval little_endian_host Int16 shift) i)
   else @AR_ishftc little_endian_host zero_data AR_Int_16_U o AR_Int_16_U shift AR_Int_16_S size AR_Int_16_S = Ok (zero_data, AR_STAT_UNDEFINED)) /\
  @AR_ishftc little_endian_host zero_data AR_Int_16_U o AR_Int_16_U shift AR_Int_16_S size AR_Int_16_S =
    Ok (mkData 0 0 0 0x1342, AR_STAT_OK).
Proof.
  split; [|vm_compute; reflexivity].
  apply (@ar_ishftc_rotates little_endian_host zero_data Int16 AR_Int_16_U (mkData 0 0 0 0x1234) (mkData 0 0 0 4) AR_Int_16_S
    (mkData 0 0 0 12) AR_Int_16_S);
    [reflexivity|split; reflexivity|reflexivity|discriminate|reflexivity|discriminate|by apply wf_data|by apply wf_data|by apply wf_data].
Defined.
