(* ===== verification/ArCount.v ===== *)
(** Counting bits: [AR_leadz], [AR_popcnt] and [AR_poppar] count the leading zeros
    and the ones of an integer, and tell the parity of the latter. *)
From Stdlib Require Import ZArith Lia Bool.
From stdpp Require Import prelude list.
From S2P Require Import Prelude ArData ArInt ArIntProps ArBits ArBitsProps.

(** The ones among the lowest [n] bits. *)
Fixpoint ones_count (n : nat) (u : Z) : Z :=
  match n with O => 0 | S n => ones_count n u + Z.b2z (Z.testbit u (Z.of_nat n)) end.

Lemma ones_count_ext n u v : (forall i, 0 <= i < Z.of_nat n -> Z.testbit u i = Z.testbit v i) -> ones_count n u = ones_count n v.
Proof.
  induction n as [|n IH]; intros Hb; cbn [ones_count]; [done|]. rewrite IH by (intros i Hi; apply Hb; lia).
  by rewrite Hb by lia.
Qed.

Lemma ones_count_add n m u : ones_count (n + m) u = ones_count n u + ones_count m (Z.shiftr u (Z.of_nat n)).
Proof.
  induction m as [|m IH]; cbn [ones_count]; [by rewrite Nat.add_0_r, Z.add_0_r|].
  rewrite Nat.add_succ_r. cbn [ones_count]. rewrite IH, Z.shiftr_spec by lia.
  replace (Z.of_nat (n + m)) with (Z.of_nat m + Z.of_nat n) by lia. lia.
Qed.

Lemma ones_count_0 n : ones_count n 0 = 0.
Proof. induction n as [|n IH]; cbn [ones_count]; [done|]. by rewrite IH, Z.bits_0. Qed.

Lemma ones_count_step n u : ones_count (S n) u = Z.land u 1 + ones_count n (Z.shiftr u 1).
Proof.
  change (S n) with (1 + n)%nat. rewrite ones_count_add. f_equal. cbn [ones_count]. rewrite Z.add_0_l.
  change 1 with (Z.ones 1). rewrite Z.land_ones by lia. by rewrite Z.bit0_mod.
Qed.

Lemma ones_count_bounds n u : 0 <= ones_count n u <= Z.of_nat n.
Proof. induction n as [|n IH]; cbn [ones_count]; [lia|]. destruct (Z.testbit u (Z.of_nat n)); cbn [Z.b2z]; lia. Qed.

Lemma popcnt_loop_ok fuel i c : in_u (Z.of_nat fuel) i -> popcnt_loop fuel i c = Ok (c + ones_count fuel i).
Proof.
  revert i c. induction fuel as [|fuel IH]; intros i c Hi; unfold in_u in Hi.
  - assert (i = 0) as -> by lia. cbn. by rewrite Z.add_0_r.
  - cbn [popcnt_loop]. destruct (Z.eqb_spec i 0) as [->|]; [by rewrite ones_count_0, Z.add_0_r|].
    rewrite IH, ones_count_step; [f_equal; lia|]. unfold in_u. rewrite Z.shiftr_div_pow2 by lia.
    rewrite Nat2Z.inj_succ, Z.pow_succ_r in Hi by lia. split; [apply Z.div_pos; lia|apply Z.div_lt_upper_bound; lia].
Qed.

(** The ones of a sequence of fields of [b] bits. *)
Lemma ones_count_digits b l :
  Forall (in_u (Z.of_nat b)) l ->
  ones_count (b * length l) (digits_value (Z.of_nat b) l) = foldr (fun p c => ones_count b p + c) 0 l.
Proof.
  induction 1 as [|p l Hp Hl IH]; cbn [length foldr]; [by rewrite Nat.mul_0_r|].
  rewrite Nat.mul_succ_r, Nat.add_comm, ones_count_add, digits_value_cons, <- IH. f_equal.
  - apply ones_count_ext. intros i Hi. rewrite concat_testbit by (done || lia). by rewrite (proj2 (Z.ltb_lt i _)) by lia.
  - f_equal. unfold in_u in Hp. rewrite Z.shiftr_div_pow2 by lia. rewrite Z.mul_comm, Z.div_add, Z.div_small by lia. lia.
Qed.

Lemma ones_count_wide b n p : (b <= n)%nat -> in_u (Z.of_nat b) p -> ones_count n p = ones_count b p.
Proof.
  intros Hbn Hp. replace n with (b + (n - b))%nat by lia. rewrite ones_count_add.
  unfold in_u in Hp. rewrite Z.shiftr_div_pow2, Z.div_small, ones_count_0 by lia. lia.
Qed.

Lemma popcnt_parts_ok b ms c :
  (b <= 16)%nat -> Forall (in_u (Z.of_nat b)) ms ->
  popcnt_parts ms c = Ok (c + foldr (fun p n => ones_count b p + n) 0 ms).
Proof.
  intros Hb Hms. revert c. induction Hms as [|p ms Hp Hms IH]; intros c; cbn [popcnt_parts foldr]; [by rewrite Z.add_0_r|].
  rewrite popcnt_loop_ok; [|unfold in_u in *; pose proof (Z.pow_le_mono_r 2 (Z.of_nat b) (Z.of_nat 16)); lia].
  cbn [obind]. rewrite IH, (ones_count_wide b 16) by done. f_equal. lia.
Qed.

Lemma foldr_rev_sum {A} (f : A -> Z) l : foldr (fun p n => f p + n) 0 (rev l) = foldr (fun p n => f p + n) 0 l.
Proof.
  assert (forall l z, foldr (fun p n => f p + n) z l = foldr (fun p n => f p + n) 0 l + z) as Hz.
  { clear l. intros l z. induction l as [|x l IH]; cbn [foldr]; [lia|]. rewrite IH. lia. }
  induction l as [|x l IH]; [done|]. cbn [rev]. rewrite foldr_app, Hz, IH. cbn [foldr]. lia.
Qed.

(** * Parity *)
Definition parity (n : nat) (u : Z) : bool := Z.odd (ones_count n u).

Lemma parity_step n u : parity (S n) u = xorb (parity n u) (Z.testbit u (Z.of_nat n)).
Proof. unfold parity. cbn [ones_count]. rewrite Z.odd_add. by destruct (Z.testbit u (Z.of_nat n)). Qed.

Lemma parity_lxor n u v : parity n (Z.lxor u v) = xorb (parity n u) (parity n v).
Proof.
  induction n as [|n IH]; [done|]. rewrite !parity_step, IH, Z.lxor_spec.
  by destruct (parity n u), (parity n v), (Z.testbit u _), (Z.testbit v _).
Qed.

(** Folding the upper half onto the lower one keeps the parity. *)
Lemma parity_fold n u :
  parity (n + n) u = parity n (Z.lxor (Z.land u (Z.ones (Z.of_nat n))) (Z.shiftr u (Z.of_nat n))).
Proof.
  rewrite parity_lxor. unfold parity at 1. rewrite ones_count_add, Z.odd_add. f_equal. unfold parity. f_equal.
  apply ones_count_ext. intros i Hi. rewrite Z.land_spec, Z.ones_spec_low, andb_true_r by lia. done.
Qed.

Lemma fold_range n u :
  in_u (Z.of_nat (n + n)) u -> in_u (Z.of_nat n) (Z.lxor (Z.land u (Z.ones (Z.of_nat n))) (Z.shiftr u (Z.of_nat n))).
Proof.
  intros Hu. apply in_u_bits; [lia| |].
  - apply Z.lxor_nonneg. rewrite Z.land_nonneg, Z.shiftr_nonneg. unfold in_u in Hu. lia.
  - intros i Hi. rewrite Z.lxor_spec, Z.land_spec, Z.ones_spec_high, andb_false_r, Z.shiftr_spec by lia.
    by rewrite (testbit_high (Z.of_nat (n + n)) u) by (done || lia).
Qed.

Lemma poppar_fold u :
  in_u 16 u ->
  let u8 := Z.lxor (Z.land u 0xFF) (Z.shiftr u 8) in
  let u4 := Z.lxor (Z.land u8 0x0F) (Z.shiftr u8 4) in
  let u2 := Z.lxor (Z.land u4 0x03) (Z.shiftr u4 2) in
  Z.lxor (Z.land u2 0x01) (Z.shiftr u2 1) = Z.b2z (parity 16 u).
Proof.
  intros Hu. cbn zeta.
  change (parity 16 u) with (parity (8 + 8) u). rewrite (parity_fold 8 u). pose proof (fold_range 8 u Hu) as Hu8.
  change (Z.ones (Z.of_nat 8)) with 0xFF in *. change (Z.of_nat 8) with 8 in *. set (u8 := Z.lxor _ _) in *. clearbody u8.
  change (parity 8 u8) with (parity (4 + 4) u8). rewrite (parity_fold 4 u8). pose proof (fold_range 4 u8 Hu8) as Hu4.
  change (Z.ones (Z.of_nat 4)) with 0x0F in *. change (Z.of_nat 4) with 4 in *. set (u4 := Z.lxor _ _) in *. clearbody u4.
  change (parity 4 u4) with (parity (2 + 2) u4). rewrite (parity_fold 2 u4). pose proof (fold_range 2 u4 Hu4) as Hu2.
  change (Z.ones (Z.of_nat 2)) with 0x03 in *. change (Z.of_nat 2) with 2 in *. set (u2 := Z.lxor _ _) in *. clearbody u2.
  unfold in_u in Hu2. assert (u2 = 0 \/ u2 = 1 \/ u2 = 2 \/ u2 = 3) as [-> | [-> | [-> | ->]]] by lia; reflexivity.
Qed.

Section Counts.
Context `{Host}.

Lemma int_ones_count s o :
  well_formed o ->
  foldr (fun p n => ones_count (Z.to_nat (part_bits s)) p + n) 0 (int_parts s o) = ones_count (Z.to_nat (int_bits s)) (uval s o).
Proof.
  intros Ho. pose proof (int_parts_range s o Ho) as Hr. unfold uval.
  assert (Z.of_nat (Z.to_nat (part_bits s)) = part_bits s) as E by (by destruct s).
  rewrite <- E in Hr at 1. rewrite <- (ones_count_digits _ _ Hr), E. f_equal. by destruct s.
Qed.

(** The parity of an integer is that of the exclusive or of its fields. *)
Lemma int_parity s o :
  well_formed o -> parity (Z.to_nat (int_bits s)) (uval s o) = parity 16 (foldr Z.lxor 0 (int_parts s o)).
Proof.
  intros Ho. unfold parity at 1. rewrite <- int_ones_count by done. pose proof (int_parts_range s o Ho) as Hr.
  pose proof (part_bits_pos s). induction Hr as [|p l Hp Hl IH]; [done|]. cbn [foldr].
  rewrite Z.odd_add, IH, parity_lxor. f_equal. unfold parity. f_equal. symmetry.
  apply ones_count_wide; [lia|]. by rewrite Z2Nat.id by lia.
Qed.

Lemma int_fold_range s o : well_formed o -> in_u 16 (foldr Z.lxor 0 (int_parts s o)).
Proof.
  intros Ho. pose proof (int_parts_range s o Ho) as Hr. pose proof (part_bits_pos s).
  induction Hr as [|p l Hp Hl IH]; [done|]. cbn [foldr].
  assert (in_u 16 p) as Hp16 by (unfold in_u in *; pose proof (Z.pow_le_mono_r 2 (part_bits s) 16); lia).
  apply in_u_bits; [done|apply Z.lxor_nonneg; unfold in_u in *; lia|].
  intros i Hi. rewrite Z.lxor_spec, !(testbit_high 16) by (done || lia). done.
Qed.

(** The number of leading zeros, of ones, and their parity, of an integer or of
    the bits of a real number. *)
Theorem ar_counts_bits result rt t s o :
  valid_count_result rt = true -> counted_case t = Some s -> well_formed o ->
  let u := uval s o in
  let small n := mkData 0 0 0 n in
  let ones := ones_count (Z.to_nat (int_bits s)) u in
  let lz := int_bits s - bit_length u in
  AR_leadz result rt o t = Ok (small lz, AR_status_int (small lz) rt) /\
  AR_popcnt result rt o t = Ok (small ones, AR_status_int (small ones) rt) /\
  AR_poppar result rt o t = (small (ones mod 2), AR_status_int (small (ones mod 2)) rt).
Proof.
  intros Hrt Hs Ho. cbn zeta. unfold AR_leadz, AR_popcnt, AR_poppar. rewrite Hrt, Hs. cbn [negb].
  pose proof (part_bits_pos s). pose proof (int_parts_range s o Ho) as Hr. split; [|split].
  - rewrite leadz_parts_ok; [|lia|by apply Forall_rev]. rewrite rev_involutive. unfold zlen. by rewrite length_rev, int_parts_length.
  - rewrite (popcnt_parts_ok (Z.to_nat (part_bits s))); [|lia|rewrite Z2Nat.id by lia; by apply Forall_rev].
    rewrite foldr_rev_sum, int_ones_count by done. done.
  - cbv zeta. rewrite poppar_fold by (by apply int_fold_range). rewrite <- int_parity by done.
    unfold parity. by rewrite Zmod_odd; destruct (Z.odd _).
Qed.
End Counts.

Lemma ar_counts_bits_witness :
  let o := mkData 0 0x00F0 0 0x0101 in
  let u := @uval little_endian_host Int64 o in
  let small n := mkData 0 0 0 n in
  let ones := ones_count (Z.to_nat (int_bits Int64)) u in
  let lz := int_bits Int64 - bit_length u in
  (@AR_leadz little_endian_host zero_data AR_Int_32_S o AR_Int_64_U =
     Ok (small lz, @AR_status_int little_endian_host (small lz) AR_Int_32_S) /\
   @AR_popcnt little_endian_host zero_data AR_Int_32_S o AR_Int_64_U =
     Ok (small ones, @AR_status_int little_endian_host (small ones) AR_Int_32_S) /\
   @AR_poppar little_endian_host zero_data AR_Int_32_S o AR_Int_64_U =
     (small (ones mod 2), @AR_status_int little_endian_host (small (ones mod 2)) AR_Int_32_S)) /\
  (lz, ones) = (24, 6).
Proof.
  split; [|vm_compute; reflexivity].
  apply (@ar_counts_bits little_endian_host zero_data AR_Int_32_S AR_Int_64_U Int64 (mkData 0 0x00F0 0 0x0101));
    [reflexivity|reflexivity|by apply wf_data].
Defined.
