(* ===== verification/ArTheorems.v ===== *)
(** The correctness of constant folding on integers: every operation returns the
    mathematical result wrapped to the type, and the status reports its sign and
    whether it did not fit. *)
From Stdlib Require Import ZArith Lia Bool.
From stdpp Require Import prelude list.
From S2P Require Import Prelude ArData ArInt ArIntProps ArMultiply ArBits ArBitsProps ArDivide ArDivideProps.

Section Theorems.
Context `{Host}.

(** The result [r] and the status [st] of an operation on integers of type [t]
    whose exact value is [v]; [ov] is an overflow that is reported whatever [v]
    is. *)
Definition folded (s : int_size) (t : AR_TYPE) (ov : bool) (v : Z) (rst : ar_data * Z) : Prop :=
  exact s t v (fst rst) /\
  snd rst = Z.lor (overflow_status (ov || is_signed t && negb (fits s t v))) (value_status (wrap s t v)).

Lemma drop_overflow b x : Z.land (Z.lor (overflow_status b) (value_status x)) (Z.lnot AR_STAT_OVERFLOW) = value_status x.
Proof. unfold value_status. by destruct b, (x =? 0), (x <? 0). Qed.

Lemma folded_status s t v r st ov :
  exact s t v r -> (is_signed t = false -> ov = false) ->
  st = Z.lor (overflow_status (negb (fits s t v) || ov)) (value_status (wrap s t v)) ->
  folded s t ov v (r, if negb (is_signed t) then Z.land st (Z.lnot AR_STAT_OVERFLOW) else st).
Proof.
  intros Hex Hov ->. split; [done|]. cbn [snd]. destruct (is_signed t); cbn [negb andb].
  - by rewrite orb_comm.
  - rewrite drop_overflow, Hov by done. done.
Qed.

Lemma type_46_signed t : (t =? AR_Int_46_S) = true -> is_signed t = true.
Proof. intros ->%Z.eqb_eq. done. Qed.

(** C38. Addition and subtraction field by field return the sum and the difference
    wrapped to the type; signed results that do not fit are reported. *)
Theorem ar_add_subtract_exact result s t o1 o2 :
  int_type s t -> well_formed o1 -> well_formed o2 ->
  folded s t false (ival s t o1 + ival s t o2) (AR_add_int result t o1 t o2 t) /\
  folded s t false (ival s t o1 - ival s t o2) (AR_subtract_int result t o1 t o2 t).
Proof.
  intros Ht H1 H2. pose proof (proj2 Ht) as Hs. unfold AR_add_int, AR_subtract_int. rewrite !Z.eqb_refl, Hs. cbn [negb orb].
  pose proof (add_exact result s t t t o1 o2 Hs eq_refl H1 H2) as Ha. destruct (ar_add_integer _ _ _ _ _ _) as [r st].
  pose proof (sub_exact result s t o1 o2 Ht H1 H2) as Hb. destruct (ar_subtract_integer _ _ _ _ _ _) as [[r' fl] st'].
  destruct Ha as (Hex & Hst & _). destruct Hb as (Hex' & Hst' & _).
  split; apply folded_status; try done; by rewrite orb_false_r.
Qed.

(** 46-bit integers are kept in 64 bits, but have to fit 46. *)
Definition overflow_46 (s : int_size) (t : AR_TYPE) (x y v : Z) : bool :=
  (t =? AR_Int_46_S) && negb (fits46 x && fits46 y && fits46 (wrap s t v)).

(** C18. Multiplication by partial products of 16 bits returns the product wrapped to
    the type, for every size and signedness.  For signed types the status reports overflow exactly
    when the product does not fit; operands and results of 46 bits also have to fit 46
    bits.  For unsigned types overflow is never reported: [AR_multiply] clears it. *)
Theorem ar_multiply_exact result s t o1 o2 :
  int_type s t -> well_formed o1 -> well_formed o2 ->
  let x := ival s t o1 in
  let y := ival s t o2 in
  folded s t (overflow_46 s t x y (x * y)) (x * y) (AR_multiply_int result t o1 t o2 t).
Proof.
  intros Ht H1 H2. pose proof (proj2 Ht) as Hs. unfold AR_multiply_int. rewrite !Z.eqb_refl, Hs. cbn [negb orb].
  pose proof (multiply_exact result s t o1 o2 Ht H1 H2) as Hm. destruct (ar_multiply_integer _ _ _ _ _ _) as [r st].
  cbn zeta in *. destruct Hm as [Hex Hst]. apply folded_status; [done| |done].
  intros Hu. unfold overflow_46. destruct (t =? AR_Int_46_S) eqn:E; [|done]. by rewrite (type_46_signed t E) in Hu.
Qed.

(** Negation: the least integer is its own negation, which is reported as
    [AR_STAT_SEMIVALID]. *)
Theorem ar_negate_exact result s t o :
  int_type s t -> well_formed o ->
  let v := - ival s t o in
  let '(r, st) := AR_negate_int result t o t in
  exact s t v r /\
  st = Z.lor (semivalid_status (is_signed t && negb (fits s t v))) (value_status (wrap s t v)).
Proof.
  intros Ht Ho. unfold AR_negate_int. rewrite Z.eqb_refl. cbn [negb].
  pose proof (negate_exact result s t o Ht Ho) as Hn. destruct (ar_negate_integer _ _ _ _) as [r st]. cbn zeta in *.
  by destruct Hn as (Hex & Hst & _).
Qed.

(** The sign bit of a quotient is wrong exactly if the quotient does not fit. *)
Lemma quot_sign s t x y r :
  is_signed t = true -> in_s (int_bits s) x -> in_s (int_bits s) y -> exact s t (Z.quot x y) r ->
  negb (int_zero s r) && xorb (xorb (x <? 0) (y <? 0)) (int_sign s r) = negb (fits s t (Z.quot x y)).
Proof.
  intros Hsg Hx Hy Hex. bits_facts s. unfold in_s in *. set (q := Z.quot x y) in *.
  assert (q = 0 \/ (q < 0 /\ xorb (x <? 0) (y <? 0) = true \/ 0 < q /\ xorb (x <? 0) (y <? 0) = false) /\
          - 2 ^ (int_bits s - 1) <= q <= 2 ^ (int_bits s - 1)) as Hq.
  { destruct (Z.eq_dec y 0) as [->|Hy0]; [left; unfold q; by destruct x|].
    assert (q = Z.sgn x * Z.sgn y * (Z.abs x / Z.abs y)) as -> by (by apply Z.quot_div).
    assert (0 <= Z.abs x / Z.abs y) by (apply Z.div_pos; lia).
    assert (Z.abs x / Z.abs y <= Z.abs x) by (apply Z.div_le_upper_bound; nia).
    destruct (Z.eq_dec (Z.abs x / Z.abs y) 0) as [->|]; [left; lia|].
    destruct (Z.eq_dec x 0) as [->|]; [left; lia|]. right.
    destruct (Z.ltb_spec x 0), (Z.ltb_spec y 0); cbn [xorb];
      rewrite ?(Z.sgn_neg x), ?(Z.sgn_neg y), ?(Z.sgn_pos x), ?(Z.sgn_pos y) by lia; lia. }
  pose proof (exact_value _ _ _ _ Hex) as Hv. pose proof (exact_wf _ _ _ _ Hex) as Hwf.
  assert (ival s t r = sval s r) as Hi by (unfold ival; by rewrite Hsg).
  pose proof (int_status_value s t r Hwf) as Hz. rewrite Hi in Hv.
  rewrite int_sign_sval, (int_zero_uval s r) by done.
  assert ((uval s r =? 0) = (sval s r =? 0)) as ->.
  { pose proof (ival_cases s t r Hwf) as [Hu Hc]. rewrite Hi, Hsg in Hc. cbn [andb] in Hc.
    apply eq_true_iff_eq. rewrite !Z.eqb_eq. destruct (Z.leb_spec (2 ^ (int_bits s - 1)) (uval s r)); lia. }
  unfold fits. rewrite <- Hv. pose proof (sval_range s r Hwf) as Hr. unfold in_s in Hr.
  assert (sval s r = q \/ q = 2 ^ (int_bits s - 1) /\ sval s r = - 2 ^ (int_bits s - 1)) as Hcase.
  { rewrite Hv. unfold wrap. rewrite Hsg. destruct (Z.eq_dec q (2 ^ (int_bits s - 1))) as [->|].
    - right. split; [done|]. unfold swrap. replace (2 ^ (int_bits s - 1) + 2 ^ (int_bits s - 1)) with (2 ^ int_bits s) by lia.
      rewrite Z.mod_same by lia. lia.
    - left. apply swrap_id; [lia|]. unfold in_s. destruct Hq as [->|[_ Hq]]; lia. }
  destruct Hcase as [->|[Hq1 ->]].
  - rewrite Z.eqb_refl. destruct (Z.eqb_spec q 0) as [|Hne]; [done|]. cbn [negb andb].
    destruct Hq as [|[[[Hn ->]|[Hp ->]] _]]; [done|..].
    + by rewrite (proj2 (Z.ltb_lt q 0)).
    + by rewrite (proj2 (Z.ltb_ge q 0)) by lia.
  - destruct Hq as [|[[[Hn _]|[_ ->]] _]]; [lia|lia|]. rewrite Hq1.
    rewrite (proj2 (Z.eqb_neq (- _) 0)), (proj2 (Z.ltb_lt (- _) 0)), (proj2 (Z.eqb_neq _ (2 ^ _))) by lia. done.
Qed.

Lemma wrap_0 s t : wrap s t 0 = 0.
Proof. unfold wrap. destruct (is_signed t); by destruct s. Qed.

Lemma signed_range s t d : well_formed d -> is_signed t = true -> in_s (int_bits s) (ival s t d).
Proof. intros Hd Hsg. unfold ival. rewrite Hsg. by apply sval_range. Qed.

(** C7. Division, by shifting and subtracting, ends and truncates towards zero, for 16, 32, 46 and
    64-bit integers on every host, and for 8-bit integers on big-endian hosts
    ([host_ok]; on little-endian ones the loop count is read from the wrong byte).  A division by
    zero is an overflow and gives 0, and a quotient that does not fit the signed type
    (the least integer divided by -1) is an overflow too; operands and results of 46
    bits also have to fit 46 bits. *)
Theorem ar_divide_exact result s t o1 o2 :
  host_ok s = true -> int_type s t -> well_formed o1 -> well_formed o2 ->
  let x := ival s t o1 in
  let y := ival s t o2 in
  yields (AR_divide_int result t o1 t o2 t)
    (folded s t ((y =? 0) || overflow_46 s t x y (Z.quot x y)) (Z.quot x y)).
Proof.
  intros Hok Ht H1 H2. pose proof (proj2 Ht) as Hs. unfold AR_divide_int. rewrite !Z.eqb_refl, Hs. cbn [negb orb].
  eapply yields_bind; [apply (divide_exact result zero_data s t o1 o2 Hok Ht H1 H2)|].
  intros [[r r2] st] (Hex & _ & ->). cbn [yields]. rewrite (AR_status_int_case s) by done.
  rewrite (value_wrap_status s t _ r Hex), !(overflows_46_type s t) by (done || apply (exact_wf _ _ _ _ Hex)).
  rewrite (exact_value _ _ _ _ Hex). set (x := ival s t o1) in *. set (y := ival s t o2) in *. split; [done|]. cbn [snd].
  assert (y = 0 \/ x = 0 -> Z.quot x y = 0) as Hq0.
  { intros [-> | ->]; [by destruct x|]. destruct (Z.eq_dec y 0) as [->|]; [done|by apply Z.quot_0_l]. }
  assert ((t =? AR_Int_46_S) && negb (fits46 x) || (t =? AR_Int_46_S) && negb (fits46 y) ||
          (t =? AR_Int_46_S) && negb (fits46 (wrap s t (Z.quot x y))) = overflow_46 s t x y (Z.quot x y)) as ->.
  { unfold overflow_46. by destruct (t =? AR_Int_46_S), (fits46 x), (fits46 y), (fits46 (wrap s t (Z.quot x y))). }
  assert (is_signed t = false -> overflow_46 s t x y (Z.quot x y) = false) as Hov.
  { unfold overflow_46. destruct (t =? AR_Int_46_S) eqn:E; [|done]. by rewrite (type_46_signed t E). }
  destruct (is_signed t) eqn:Hsg; cbn [andb].
  - rewrite <- (quot_sign s t x y r Hsg) by (done || by apply signed_range).
    pose proof (sign_ival s t o1 H1) as S1. pose proof (sign_ival s t o2 H2) as S2. rewrite Hsg in S1, S2. cbn [andb] in S1, S2.
    rewrite S1, S2. fold x y. set (bs := negb (int_zero s r) && _).
    destruct (Z.eqb_spec y 0) as [Hy|Hy]; [|destruct (Z.eqb_spec x 0) as [Hx|Hx]].
    + rewrite Hq0, wrap_0 by auto. by destruct (overflow_46 s t x y 0), bs.
    + rewrite Hq0, wrap_0 by auto. by destruct (overflow_46 s t x y 0), bs.
    + by destruct (overflow_46 s t x y _), bs.
  - rewrite Hov, orb_false_r by done.
    destruct (Z.eqb_spec y 0) as [Hy|Hy]; [|destruct (Z.eqb_spec x 0) as [Hx|Hx]]; [..|done];
      by rewrite Hq0, wrap_0 by auto.
Qed.

Lemma range_between s t x v : in_range s t x -> 0 <= v <= x \/ x <= v <= 0 -> in_range s t v.
Proof. unfold in_range, in_s, in_u. bits_facts s. destruct (is_signed t); lia. Qed.

Lemma rem_between x y : y <> 0 -> 0 <= Z.rem x y <= x \/ x <= Z.rem x y <= 0.
Proof.
  intros Hy. rewrite Z.rem_mod by done. pose proof (Z.mod_pos_bound (Z.abs x) (Z.abs y) ltac:(lia)).
  pose proof (Z.mod_le (Z.abs x) (Z.abs y) ltac:(lia) ltac:(lia)).
  destruct (Z.le_gt_cases 0 x); [left|right; rewrite Z.sgn_neg by lia; lia].
  destruct (Z.eq_dec x 0) as [->|]; [cbn; lia|]. rewrite Z.sgn_pos by lia. lia.
Qed.

(** The remainder has the sign of the dividend and never overflows; the remainder
    of a division by zero is 0, with an overflow. *)
Theorem ar_mod_exact result s t o1 o2 :
  host_ok s = true -> int_type s t -> well_formed o1 -> well_formed o2 ->
  let x := ival s t o1 in
  let y := ival s t o2 in
  let v := if y =? 0 then 0 else Z.rem x y in
  yields (AR_mod result t o1 t o2 t) (fun '(r, st) =>
    exact s t v r /\ ival s t r = v /\ st = Z.lor (overflow_status (y =? 0)) (value_status v)).
Proof.
  intros Hok Ht H1 H2. pose proof Ht as [Hcls Hs]. unfold AR_mod. rewrite !Z.eqb_refl, Hcls, Hs, Z.eqb_refl. cbn [negb orb].
  eapply yields_bind; [apply (divide_exact zero_data result s t o1 o2 Hok Ht H1 H2)|].
  intros [[q r] st] (_ & Hex & ->). cbn [yields]. rewrite (AR_status_int_case s) by done.
  rewrite (value_wrap_status s t _ r Hex). cbn zeta. pose proof (sign_ival s t o1 H1) as S1.
  pose proof (sign_ival s t r (exact_wf _ _ _ _ Hex)) as Sr. pose proof (exact_value _ _ _ _ Hex) as Hv.
  pose proof (proj1 (fits_range s t _) (ival_fits s t o1 H1)) as B1.
  set (x := ival s t o1) in *. set (y := ival s t o2) in *. set (v := if y =? 0 then 0 else Z.rem x y) in *.
  assert (v = 0 \/ y <> 0 /\ x <> 0 /\ (v <? 0) = (x <? 0)) as Hsign.
  { unfold v. destruct (Z.eqb_spec y 0); [by left|]. destruct (Z.eq_dec (Z.rem x y) 0) as [|Hne]; [by left|right].
    destruct (Z.eq_dec x 0) as [->|]; [by rewrite Z.rem_0_l in Hne|]. split; [done|]. split; [done|].
    pose proof (Z.rem_sign_nz x y ltac:(done) Hne). destruct (Z.ltb_spec x 0), (Z.ltb_spec (Z.rem x y) 0); done || lia. }
  assert (fits s t v = true) as Hfits.
  { apply fits_range, (range_between s t x); [done|]. unfold v. destruct (Z.eqb_spec y 0); [lia|by apply rem_between]. }
  unfold fits in Hfits. apply Z.eqb_eq in Hfits. rewrite Hfits in *. split; [done|]. split; [done|].
  destruct (Z.eqb_spec v 0) as [E|E].
  - rewrite E. clear. destruct (is_signed t), (y =? 0), (x =? 0); reflexivity.
  - destruct Hsign as [|(Hy & Hx & Hsv)]; [done|].
    rewrite (proj2 (Z.eqb_neq y 0) Hy), (proj2 (Z.eqb_neq x 0) Hx).
    destruct (is_signed t) eqn:Hsg; cbn [andb] in *; [|done]. rewrite S1, Sr, Hv, Hsv, xorb_nilpotent.
    by case_match.
Qed.

(** The comparison by the flags of a subtraction decides the order of the values,
    as signed or unsigned integers. *)
Theorem ar_compare_order s t o1 o2 :
  int_type s t -> well_formed o1 -> well_formed o2 ->
  AR_compare_int o1 t o2 t =
  match ival s t o1 ?= ival s t o2 with
  | Lt => AR_Compare_LT
  | Eq => AR_Compare_EQ
  | Gt => AR_Compare_GT
  end.
Proof.
  intros Ht H1 H2. unfold AR_compare_int. rewrite Z.eqb_refl, (proj2 Ht). cbn [negb]. rewrite (compare_exact s) by done.
  destruct (Z.compare_spec (ival s t o1) (ival s t o2)) as [E|E|E].
  - by rewrite E, Z.ltb_irrefl, Z.eqb_refl.
  - by rewrite (proj2 (Z.ltb_lt _ _) E).
  - by rewrite (proj2 (Z.ltb_ge _ _)), (proj2 (Z.eqb_neq _ _)) by lia.
Qed.

(** C31. Shifts multiply and divide by powers of two, rounding down; a count that is
    not below the width is rejected. *)
Theorem ar_shift_exact result s t o count ct :
  int_type s t -> AR_CLASS ct = AR_CLASS_INT -> well_formed o -> well_formed count ->
  let c := uval s count in
  let left_ := AR_shiftl result t o t count ct in
  let right_ := AR_shiftr result t o t count ct in
  if c <? int_bits s then
    yields left_ (fun '(r, st) => exact s t (ival s t o * 2 ^ c) r /\ st = value_status (ival s t r)) /\
    yields right_ (fun '(r, st) => exact s t (ival s t o / 2 ^ c) r /\ st = value_status (ival s t r))
  else
    left_ = Ok (clear_int s result, AR_STAT_UNDEFINED) /\ right_ = Ok (clear_int s result, AR_STAT_UNDEFINED).
Proof.
  intros Ht Hct Ho Hc. cbn zeta. pose proof (shiftl_exact result s t o count ct Ht Hct Ho Hc) as Hl.
  pose proof (shiftr_exact result s t o count ct Ht Hct Ho Hc) as Hr.
  destruct (uval s count <? int_bits s); [|done].
  split; (eapply yields_mono; [eassumption|]); intros [r st] [Hex ->]; by rewrite (exact_value _ _ _ _ Hex).
Qed.

(** ** The results alone, for the composition of operations *)
Lemma divide_int_result result s t o1 o2 :
  host_ok s = true -> int_type s t -> well_formed o1 -> well_formed o2 ->
  yields (AR_divide_int result t o1 t o2 t) (fun '(r, _) => exact s t (Z.quot (ival s t o1) (ival s t o2)) r).
Proof.
  intros Hok Ht H1 H2. unfold AR_divide_int. rewrite !Z.eqb_refl, (proj2 Ht). cbn [negb orb].
  eapply yields_bind; [apply (divide_exact result zero_data s t o1 o2 Hok Ht H1 H2)|].
  by intros [[r r2] st] (Hex & _ & _).
Qed.

Lemma mod_result result s t o1 o2 :
  host_ok s = true -> int_type s t -> well_formed o1 -> well_formed o2 -> ival s t o2 <> 0 ->
  yields (AR_mod result t o1 t o2 t) (fun '(r, _) => exact s t (Z.rem (ival s t o1) (ival s t o2)) r).
Proof.
  intros Hok Ht H1 H2 Hy. pose proof Ht as [Hcls Hs]. unfold AR_mod. rewrite !Z.eqb_refl, Hcls, Hs, Z.eqb_refl. cbn [negb orb].
  eapply yields_bind; [apply (divide_exact zero_data result s t o1 o2 Hok Ht H1 H2)|].
  intros [[q r] st] (_ & Hex & _). by rewrite (proj2 (Z.eqb_neq _ _) Hy) in Hex.
Qed.

Lemma multiply_int_result result s t o1 o2 :
  int_type s t -> well_formed o1 -> well_formed o2 ->
  exact s t (ival s t o1 * ival s t o2) (fst (AR_multiply_int result t o1 t o2 t)).
Proof.
  intros Ht H1 H2. unfold AR_multiply_int. rewrite !Z.eqb_refl, (proj2 Ht). cbn [negb orb].
  pose proof (multiply_exact result s t o1 o2 Ht H1 H2) as Hm. destruct (ar_multiply_integer _ _ _ _ _ _) as [r st]. by destruct Hm.
Qed.

Lemma add_int_result result s t o1 o2 :
  int_type s t -> well_formed o1 -> well_formed o2 ->
  exact s t (ival s t o1 + ival s t o2) (fst (AR_add_int result t o1 t o2 t)).
Proof.
  intros Ht H1 H2. unfold AR_add_int. rewrite !Z.eqb_refl, (proj2 Ht). cbn [negb orb].
  pose proof (add_exact result s t t t o1 o2 (proj2 Ht) eq_refl H1 H2) as Ha. destruct (ar_add_integer _ _ _ _ _ _) as [r st]. by destruct Ha.
Qed.

Lemma wrap_multiple s t v : exists k, wrap s t v = v + k * 2 ^ int_bits s.
Proof.
  unfold wrap, swrap, uwrap. pose proof (int_bits_pos s). destruct (is_signed t).
  - exists (- ((v + 2 ^ (int_bits s - 1)) / 2 ^ int_bits s)). rewrite Z.mod_eq by lia. lia.
  - exists (- (v / 2 ^ int_bits s)). rewrite Z.mod_eq by lia. lia.
Qed.

(** The operations agree with each other: the quotient times the divisor plus the
    remainder is the dividend, whatever overflowed. *)
Theorem ar_division_identity s t o1 o2 :
  host_ok s = true -> int_type s t -> well_formed o1 -> well_formed o2 -> ival s t o2 <> 0 ->
  yields
    (let* '(q, _) := AR_divide_int zero_data t o1 t o2 t in
     let* '(r, _) := AR_mod zero_data t o1 t o2 t in
     let '(p, _) := AR_multiply_int zero_data t q t o2 t in
     let '(d, _) := AR_add_int zero_data t p t r t in
     Ok (AR_compare_int d t o1 t))
    (fun c => c = AR_Compare_EQ).
Proof.
  intros Hok Ht H1 H2 Hy.
  eapply yields_bind; [apply (divide_int_result zero_data s t o1 o2); done|]. intros [q st1] Hq.
  eapply yields_bind; [apply (mod_result zero_data s t o1 o2); done|]. intros [r st2] Hr.
  pose proof (multiply_int_result zero_data s t q o2 Ht (exact_wf _ _ _ _ Hq) H2) as Hp.
  destruct (AR_multiply_int _ _ _ _ _ _) as [p st3]. cbn [fst] in Hp.
  pose proof (add_int_result zero_data s t p r Ht (exact_wf _ _ _ _ Hp) (exact_wf _ _ _ _ Hr)) as Hd.
  destruct (AR_add_int _ _ _ _ _ _) as [d st4]. cbn [fst] in Hd. cbn [yields].
  unfold AR_compare_int. rewrite Z.eqb_refl, (proj2 Ht). cbn [negb]. rewrite (compare_exact s) by (done || apply (exact_wf _ _ _ _ Hd)).
  assert (ival s t d = ival s t o1) as ->; [|by rewrite Z.ltb_irrefl, Z.eqb_refl].
  rewrite (exact_value _ _ _ _ Hd), (exact_value _ _ _ _ Hp), (exact_value _ _ _ _ Hr), (exact_value _ _ _ _ Hq).
  set (x := ival s t o1) in *. set (y := ival s t o2) in *.
  destruct (wrap_multiple s t (Z.quot x y)) as [k1 ->]. destruct (wrap_multiple s t (Z.rem x y)) as [k2 ->].
  destruct (wrap_multiple s t ((Z.quot x y + k1 * 2 ^ int_bits s) * y)) as [k3 ->].
  rewrite (wrap_cong s t x _ (k1 * y + k3 + k2)).
  - apply Z.eqb_eq. apply (ival_fits s t o1 H1).
  - pose proof (Z.quot_rem' x y). lia.
Qed.

(** Operands of different types, of other classes or of unsupported sizes are
    rejected, and the result is left alone. *)
Theorem ar_invalid_type result rt t1 t2 o1 o2 :
  rt <> t1 \/ rt <> t2 \/ int_case rt = None ->
  AR_add_int result rt o1 t1 o2 t2 = (result, AR_STAT_INVALID_TYPE) /\
  AR_subtract_int result rt o1 t1 o2 t2 = (result, AR_STAT_INVALID_TYPE) /\
  AR_multiply_int result rt o1 t1 o2 t2 = (result, AR_STAT_INVALID_TYPE) /\
  AR_divide_int result rt o1 t1 o2 t2 = Ok (result, AR_STAT_INVALID_TYPE) /\
  AR_mod result rt o1 t1 o2 t2 = Ok (result, AR_STAT_INVALID_TYPE) /\
  (forall opr, bitoper opr result rt o1 t1 o2 t2 = (result, AR_STAT_INVALID_TYPE)) /\
  (rt <> t1 \/ int_case rt = None ->
   AR_shiftl result rt o1 t1 o2 t2 = Ok (result, AR_STAT_INVALID_TYPE) /\
   AR_shiftr result rt o1 t1 o2 t2 = Ok (result, AR_STAT_INVALID_TYPE)).
Proof.
  intros Hbad. unfold AR_add_int, AR_subtract_int, ar_subtract_integer, AR_multiply_int, AR_divide_int, AR_mod, bitoper, AR_shiftl, AR_shiftr.
  rewrite !(Z.eqb_sym _ rt).
  assert (forall st, st = AR_STAT_INVALID_TYPE ->
    (if negb (is_signed rt) then Z.land st (Z.lnot AR_STAT_OVERFLOW) else st) = AR_STAT_INVALID_TYPE) as Hst.
  { intros st ->. by destruct (is_signed rt). }
  destruct (Z.eqb_spec rt t1) as [<-|H1]; cbn [negb orb].
  2: { by rewrite Hst. }
  destruct (Z.eqb_spec rt t2) as [<-|H2]; cbn [negb orb].
  - destruct Hbad as [|[|Hn]]; [done|done|]. rewrite Hn.
    split_and!; try done; intros; destruct (_ =? _); cbn [negb]; by rewrite ?Hst.
  - rewrite Hst by done. split_and!; try done. intros [|Hn]; [done|]. rewrite Hn. by destruct (_ || _).
Qed.
End Theorems.

(** * 8-bit division on a little-endian host

    [AR_leadz] stores its count in [ar_i64.part4], of which [ar_i8.part5] is the
    upper half on such a host.  The counts that the 8-bit case reads are 0, the
    loop runs once, and the quotient is 0 or 1: 100 / 7 is 1, with remainder 93. *)
Definition byte (x : Z) : ar_data := @mkData 0 0 0 (@with_part5 little_endian_host x).

Lemma ar_divide_8bit_little_endian :
  @AR_divide_int little_endian_host zero_data AR_Int_8_U (byte 100) AR_Int_8_U (byte 7) AR_Int_8_U = Ok (byte 1, AR_STAT_OK) /\
  @AR_mod little_endian_host zero_data AR_Int_8_U (byte 100) AR_Int_8_U (byte 7) AR_Int_8_U = Ok (byte 93, AR_STAT_OK).
Proof. split; reflexivity. Qed.

(** The masks of [AR_mask] are built from an initialiser in which the 8 ones are
    in the lower half of [ar_i64.part4], outside [ar_i8.part5]. *)
Lemma ar_mask_8bit_little_endian :
  @AR_mask little_endian_host zero_data AR_Int_8_U (byte 3) AR_Int_8_U = Ok (byte 0, AR_STAT_ZERO) /\
  @AR_mask big_endian_host zero_data AR_Int_8_U (mkData 0 0 0 3) AR_Int_8_U = Ok (mkData 0 0 0 0xE0, AR_STAT_OK).
Proof. split; reflexivity. Qed.

(** * Witnesses *)
Module Witness.
#[local] Existing Instance little_endian_host.

(** -1000000 and 7 in 64 bits; -32768 and -1 in 16 bits *)
Definition m1000000 : ar_data := mkData 0xFFFF 0xFFFF 0xFFF0 0xBDC0.
Definition seven : ar_data := mkData 0 0 0 7.
Definition least16 : ar_data := mkData 0 0 0 0x8000.
Definition minus16 : ar_data := mkData 0 0 0 0xFFFF.
End Witness.
Import Witness.
#[local] Existing Instance little_endian_host.

Lemma ar_add_subtract_exact_witness :
  folded Int16 AR_Int_16_S false (ival Int16 AR_Int_16_S least16 + ival Int16 AR_Int_16_S minus16)
    (AR_add_int zero_data AR_Int_16_S least16 AR_Int_16_S minus16 AR_Int_16_S) /\
  AR_add_int zero_data AR_Int_16_S least16 AR_Int_16_S minus16 AR_Int_16_S = (mkData 0 0 0 0x7FFF, AR_STAT_OVERFLOW).
Proof.
  split; [|reflexivity].
  apply (ar_add_subtract_exact zero_data Int16 AR_Int_16_S least16 minus16); [split; reflexivity|by apply wf_data|by apply wf_data].
Defined.

Lemma ar_multiply_exact_witness :
  let x := ival Int64 AR_Int_64_S m1000000 in
  let y := ival Int64 AR_Int_64_S seven in
  folded Int64 AR_Int_64_S (overflow_46 Int64 AR_Int_64_S x y (x * y)) (x * y)
    (AR_multiply_int zero_data AR_Int_64_S m1000000 AR_Int_64_S seven AR_Int_64_S) /\
  (x, y) = (-1000000, 7) /\
  AR_multiply_int zero_data AR_Int_64_S m1000000 AR_Int_64_S seven AR_Int_64_S =
    (mkData 0xFFFF 0xFFFF 0xFF95 0x3040, AR_STAT_NEGATIVE).
Proof.
  split; [|split; vm_compute; reflexivity].
  apply (ar_multiply_exact zero_data Int64 AR_Int_64_S m1000000 seven); [split; reflexivity|by apply wf_data|by apply wf_data].
Defined.

Lemma ar_negate_exact_witness :
  (let v := - ival Int16 AR_Int_16_S least16 in
   let '(r, st) := AR_negate_int zero_data AR_Int_16_S least16 AR_Int_16_S in
   exact Int16 AR_Int_16_S v r /\
   st = Z.lor (semivalid_status (is_signed AR_Int_16_S && negb (fits Int16 AR_Int_16_S v))) (value_status (wrap Int16 AR_Int_16_S v))) /\
  AR_negate_int zero_data AR_Int_16_S least16 AR_Int_16_S = (least16, Z.lor AR_STAT_SEMIVALID AR_STAT_NEGATIVE).
Proof.
  split; [|vm_compute; reflexivity].
  apply (ar_negate_exact zero_data Int16 AR_Int_16_S least16); [split; reflexivity|by apply wf_data].
Defined.

Lemma ar_divide_exact_witness :
  let x := ival Int64 AR_Int_64_S m1000000 in
  let y := ival Int64 AR_Int_64_S seven in
  yields (AR_divide_int zero_data AR_Int_64_S m1000000 AR_Int_64_S seven AR_Int_64_S)
    (folded Int64 AR_Int_64_S ((y =? 0) || overflow_46 Int64 AR_Int_64_S x y (Z.quot x y)) (Z.quot x y)) /\
  Z.quot x y = -142857 /\
  AR_divide_int zero_data AR_Int_16_S least16 AR_Int_16_S minus16 AR_Int_16_S = Ok (least16, Z.lor AR_STAT_OVERFLOW AR_STAT_NEGATIVE).
Proof.
  split; [|split; vm_compute; reflexivity].
  apply (ar_divide_exact zero_data Int64 AR_Int_64_S m1000000 seven); [reflexivity|split; reflexivity|by apply wf_data|by apply wf_data].
Defined.

Lemma ar_mod_exact_witness :
  let x := ival Int64 AR_Int_64_S m1000000 in
  let y := ival Int64 AR_Int_64_S seven in
  let v := if y =? 0 then 0 else Z.rem x y in
  yields (AR_mod zero_data AR_Int_64_S m1000000 AR_Int_64_S seven AR_Int_64_S) (fun '(r, st) =>
    exact Int64 AR_Int_64_S v r /\ ival Int64 AR_Int_64_S r = v /\ st = Z.lor (overflow_status (y =? 0)) (value_status v)) /\
  v = -1.
Proof.
  split; [|vm_compute; reflexivity].
  apply (ar_mod_exact zero_data Int64 AR_Int_64_S m1000000 seven); [reflexivity|split; reflexivity|by apply wf_data|by apply wf_data].
Defined.

Lemma ar_compare_order_witness :
  AR_compare_int m1000000 AR_Int_64_S seven AR_Int_64_S =
    match ival Int64 AR_Int_64_S m1000000 ?= ival Int64 AR_Int_64_S seven with
    | Lt => AR_Compare_LT | Eq => AR_Compare_EQ | Gt => AR_Compare_GT end /\
  AR_compare_int m1000000 AR_Int_64_S seven AR_Int_64_S = AR_Compare_LT /\
  AR_compare_int m1000000 AR_Int_64_U seven AR_Int_64_U = AR_Compare_GT.
Proof.
  split; [|split; vm_compute; reflexivity].
  apply (ar_compare_order Int64 AR_Int_64_S m1000000 seven); [split; reflexivity|by apply wf_data|by apply wf_data].
Defined.

Lemma ar_shift_exact_witness :
  let c := uval Int64 seven in
  let left_ := AR_shiftl zero_data AR_Int_64_S m1000000 AR_Int_64_S seven AR_Int_64_S in
  let right_ := AR_shiftr zero_data AR_Int_64_S m1000000 AR_Int_64_S seven AR_Int_64_S in
  (if c <? int_bits Int64 then
    yields left_ (fun '(r, st) => exact Int64 AR_Int_64_S (ival Int64 AR_Int_64_S m1000000 * 2 ^ c) r /\ st = value_status (ival Int64 AR_Int_64_S r)) /\
    yields right_ (fun '(r, st) => exact Int64 AR_Int_64_S (ival Int64 AR_Int_64_S m1000000 / 2 ^ c) r /\ st = value_status (ival Int64 AR_Int_64_S r))
  else
    left_ = Ok (clear_int Int64 zero_data, AR_STAT_UNDEFINED) /\ right_ = Ok (clear_int Int64 zero_data, AR_STAT_UNDEFINED)) /\
  (c <? int_bits Int64) = true.
Proof.
  split; [|vm_compute; reflexivity].
  apply (ar_shift_exact zero_data Int64 AR_Int_64_S m1000000 seven AR_Int_64_S);
    [split; reflexivity|reflexivity|by apply wf_data|by apply wf_data].
Defined.

Lemma ar_division_identity_witness :
  yields
    (let* '(q, _) := AR_divide_int zero_data AR_Int_16_S least16 AR_Int_16_S minus16 AR_Int_16_S in
     let* '(r, _) := AR_mod zero_data AR_Int_16_S least16 AR_Int_16_S minus16 AR_Int_16_S in
     let '(p, _) := AR_multiply_int zero_data AR_Int_16_S q AR_Int_16_S minus16 AR_Int_16_S in
     let '(d, _) := AR_add_int zero_data AR_Int_16_S p AR_Int_16_S r AR_Int_16_S in
     Ok (AR_compare_int d AR_Int_16_S least16 AR_Int_16_S))
    (fun c => c = AR_Compare_EQ).
Proof.
  apply (ar_division_identity Int16 AR_Int_16_S least16 minus16);
    [reflexivity|split; reflexivity|by apply wf_data|by apply wf_data|discriminate].
Defined.

Lemma ar_invalid_type_witness :
  AR_divide_int seven AR_Int_64_S m1000000 AR_Int_64_S least16 AR_Int_16_S = Ok (seven, AR_STAT_INVALID_TYPE).
Proof.
  apply (ar_invalid_type seven AR_Int_64_S AR_Int_64_S AR_Int_16_S m1000000 least16). right. left. discriminate.
Defined.
