(* ===== verification/IeeeData.v ===== *)
(** Compile-time IEEE arithmetic of [arith/]: the formats, the data and the
    macros of [arith.internal.h] that work on coefficients field by field.

    The three formats differ in the widths of their fields only, and so do the
    three copies of every routine; the model has one definition per routine with
    the format as a parameter.  A coefficient is the list of its fields
    [coeff0; coeff1; ...], the most significant first.  The unused word [zero]
    of [AR_IEEE_32] is left out. *)
From Stdlib Require Import ZArith Lia Bool.
From stdpp Require Import prelude list.
From S2P Require Import Prelude ArData.

(** * Formats *)
Record Format : Type := mkFormat {
  expo_bits : Z;         (* AR_IEEEn_EXPO_BITS *)
  c_bits : list Z;       (* AR_IEEEn_C0_BITS, AR_IEEEn_C1_BITS, ... *)
  min_expo : Z;          (* AR_IEEEn_MIN_EXPO *)
  expo_bias : Z;         (* AR_IEEEn_EXPO_BIAS *)
  max_expo : Z;          (* AR_IEEEn_MAX_EXPO *)
  coeff_bits : Z         (* AR_IEEEn_COEFF_BITS *)
}.

Definition IEEE32 : Format := mkFormat 8 [7; 16] 0 0x7F 0xFE 23.
Definition IEEE64 : Format := mkFormat 11 [4; 16; 16; 16] 0 0x3FF 0x7FE 52.
Definition IEEE128 : Format := mkFormat 15 [16; 16; 16; 16; 16; 16; 16] 0 0x3FFF 0x7FFE 112.

(** AR_IEEEn_ROUND_BITS: guard, round and sticky *)
Definition ROUND_BITS : Z := 3.

Record AR_IEEE : Type := mkIeee { sign : bool; expo : Z; coeff : list Z }.

#[export] Instance AR_IEEE_eq_dec : EqDecision AR_IEEE.
Proof. solve_decision. Defined.

(** * Modes *)
Inductive round_mode : Type :=
  AR_ROUND_NEAREST | AR_ROUND_PLUS_INFINITY | AR_ROUND_MINUS_INFINITY | AR_ROUND_ZERO.

Inductive underflow_mode : Type :=
  AR_UNDERFLOW_TO_DENORM | AR_UNDERFLOW_TO_PLUS_ZERO | AR_UNDERFLOW_TO_SIGNED_ZERO | AR_UNDERFLOW_TO_SIGNED_TINY.

#[export] Instance underflow_mode_eq_dec : EqDecision underflow_mode.
Proof. solve_decision. Defined.

(** The part of [ar_state_register] that the routines read, and [HOST_IS_MIPS]. *)
Class FpState : Type := mkFpState {
  ar_denorms_trap : bool;
  ar_underflow_mode : underflow_mode;
  host_is_mips : bool
}.

(** * Field arithmetic *)
Definition MASKR (bits : Z) : Z := Z.ones bits.

(** [ADDIEEEn (sum, carry, a, b)]: the carry and the fields of the sum *)
Fixpoint ADDIEEE (ws : list Z) (carry : Z) (a b : list Z) : Z * list Z :=
  match ws, a, b with
  | w :: ws, x :: a, y :: b =>
      let '(carry, sum) := ADDIEEE ws carry a b in
      let carry := carry + (x + y) in
      (Z.shiftr carry w, uwrap w carry :: sum)
  | _, _, _ => (carry, [])
  end.

(** [INCIEEEn (sum, carry)] *)
Fixpoint INCIEEE (ws : list Z) (carry : Z) (sum : list Z) : Z * list Z :=
  match ws, sum with
  | w :: ws, x :: sum =>
      let '(carry, sum) := INCIEEE ws carry sum in
      let carry := carry + x in
      (Z.shiftr carry w, uwrap w carry :: sum)
  | _, _ => (carry, [])
  end.

(** [NOTIEEEn (x)] *)
Definition NOTIEEE (ws x : list Z) : list Z := zip_with (fun w c => Z.lxor c (MASKR w)) ws x.

(** [x.coeff0 >> (AR_IEEEn_C0_BITS - 1)], or [low] when there is no field *)
Definition top_bit (ws x : list Z) (low : Z) : Z :=
  match ws, x with w :: _, c :: _ => Z.shiftr c (w - 1) | _, _ => low end.

(** [SHLEFTIEEEn (x)], with [low] shifted in: 0, or the top bit of [y] in
    [SHLEFTIEEEn_2 (x, y)] *)
Fixpoint SHLEFTIEEE (ws x : list Z) (low : Z) : list Z :=
  match ws, x with
  | w :: ws, c :: x => uwrap w (Z.lor (Z.shiftl c 1) (top_bit ws x low)) :: SHLEFTIEEE ws x low
  | _, _ => []
  end.

(** [SHRIGHTIEEEn (x)], with the low bit of [high] shifted in: 0, or the last
    field of [x] for the second operand of [SHRIGHTIEEEn_2 (x, y)] *)
Fixpoint SHRIGHTIEEE (ws x : list Z) (high : Z) : list Z :=
  match ws, x with
  | w :: ws, c :: x => uwrap w (Z.lor (Z.shiftr c 1) (Z.shiftl high (w - 1))) :: SHRIGHTIEEE ws x c
  | _, _ => []
  end.

(** The last field of [x], and [x.coeff_last & 1] *)
Definition last_field (x : list Z) : Z := default 0 (last x).
Definition low_bit (x : list Z) : Z := Z.land (last_field x) 1.

(** [x.coeff0 |= v << (AR_IEEEn_C0_BITS - 1)] *)
Definition or_top (ws x : list Z) (v : Z) : list Z :=
  match ws, x with
  | w :: _, c :: x => uwrap w (Z.lor c (Z.shiftl v (w - 1))) :: x
  | _, _ => x
  end.

(** [x.coeff_last |= v], for [v] of one bit *)
Fixpoint or_low (x : list Z) (v : Z) : list Z :=
  match x with
  | [] => []
  | [c] => [Z.lor c v]
  | c :: x => c :: or_low x v
  end.

Definition zero_coeff (F : Format) : list Z := replicate (length (c_bits F)) 0.

(** [IS_IEEEn_NZ_COEFF (x)] *)
Definition nz_coeff (x : list Z) : bool := negb (forallb (Z.eqb 0) x).

Section Classes.
Context (F : Format) `{FpState}.

Definition IS_NaN (x : AR_IEEE) : bool := (expo x >? max_expo F) && nz_coeff (coeff x).
Definition is_denorm (x : AR_IEEE) : bool := (expo x =? 0) && nz_coeff (coeff x).
Definition is_zero (x : AR_IEEE) : bool := (expo x =? 0) && negb (nz_coeff (coeff x)).
Definition is_inf (x : AR_IEEE) : bool := expo x >? max_expo F.

(** [ZEROIEEEn (x)] and [QNaNIEEEn (x)]; on MIPS the 128-bit routines do not use
    them. *)
Definition ZEROIEEE : AR_IEEE := mkIeee false 0 (zero_coeff F).
Definition QNaNIEEE : AR_IEEE :=
  let c := NOTIEEE (c_bits F) (zero_coeff F) in
  let c := if host_is_mips
           then match c_bits F, c with
                | w :: _, c0 :: c => Z.lxor c0 (Z.shiftl 1 (w - 1)) :: c
                | _, _ => c
                end
           else c in
  mkIeee false (max_expo F + 1) c.

End Classes.

Definition b2z (b : bool) : Z := if b then 1 else 0.

(** * Values of fields *)
Definition sumz (ws : list Z) : Z := foldr Z.add 0 ws.

Fixpoint fval (ws x : list Z) : Z :=
  match ws, x with
  | w :: ws, c :: x => c * 2 ^ sumz ws + fval ws x
  | _, _ => 0
  end.

Definition fields (ws x : list Z) : Prop := Forall2 in_u ws x.

Class GoodFormat (F : Format) : Prop := {
  good_first : exists w ws, c_bits F = w :: ws /\ ROUND_BITS <= w;
  good_bits : Forall (fun w => 0 < w) (c_bits F);
  good_coeff_bits : coeff_bits F = sumz (c_bits F);
  good_max : max_expo F = 2 ^ expo_bits F - 2;
  good_bias : max_expo F = 2 * expo_bias F /\ 1 < expo_bias F;
  good_min : min_expo F = 0
}.

#[export] Instance IEEE32_good : GoodFormat IEEE32.
Proof. split; try done; [by exists 7, [16]|by repeat constructor]. Qed.
#[export] Instance IEEE64_good : GoodFormat IEEE64.
Proof. split; try done; [by exists 4, [16; 16; 16]|by repeat constructor]. Qed.
#[export] Instance IEEE128_good : GoodFormat IEEE128.
Proof. split; try done; [by exists 16, [16; 16; 16; 16; 16; 16]|by repeat constructor]. Qed.
