(* ===== verification/IeeeFields.v ===== *)
(** Field arithmetic computes with the numbers that the fields make up. *)
From Stdlib Require Import ZArith Lia Bool.
From stdpp Require Import prelude list.
From S2P Require Import Prelude ArData IeeeData.

Abbreviation positive_widths := (Forall (fun w => 0 < w)).

Lemma lor_low w a b : 0 <= w -> 0 <= b < 2 ^ w -> Z.lor (a * 2 ^ w) b = a * 2 ^ w + b.
Proof.
  intros Hw Hb. symmetry. rewrite Z.add_nocarry_lxor, Z.lxor_lor; [done| |];
    (apply Z.bits_inj'; intros i Hi; rewrite Z.land_spec, Z.bits_0;
     destruct (Z.lt_ge_cases i w);
     [rewrite Z.mul_pow2_bits_low by lia; done
     |rewrite (testbit_high w b) by (split; lia || lia); apply andb_false_r]).
Qed.

Lemma sumz_nonneg ws : positive_widths ws -> 0 <= sumz ws.
Proof. induction 1; cbn [sumz foldr]; unfold sumz in *; lia. Qed.

Lemma pow_pos w : 0 < w -> 0 < 2 ^ w.
Proof. intros. apply Z.pow_pos_nonneg; lia. Qed.

Lemma sumz_cons w ws : positive_widths (w :: ws) ->
  0 < w /\ positive_widths ws /\ 0 < 2 ^ w /\ 0 < 2 ^ sumz ws /\ 2 ^ sumz (w :: ws) = 2 ^ w * 2 ^ sumz ws.
Proof.
  intros H. inversion H as [|? ? Hw Hws]; subst. pose proof (sumz_nonneg ws Hws).
  split_and!; [done|done|by apply pow_pos|apply Z.pow_pos_nonneg; lia|].
  cbn [sumz foldr]. fold (sumz ws). apply Z.pow_add_r; lia.
Qed.

Lemma fields_nil_inv ws : fields ws [] -> ws = [].
Proof. by inversion 1. Qed.
Lemma fields_cons_inv w ws x : fields (w :: ws) x -> exists c x', x = c :: x' /\ in_u w c /\ fields ws x'.
Proof. inversion 1; subst; eauto. Qed.

Lemma fval_range ws x : positive_widths ws -> fields ws x -> 0 <= fval ws x < 2 ^ sumz ws.
Proof.
  intros Hp Hf. induction Hf as [|w c ws x Hc Hf IH]; [cbn; lia|].
  destruct (sumz_cons w ws Hp) as (? & ? & ? & ? & ->). cbn [fval]. specialize (IH ltac:(done)).
  unfold in_u in Hc. nia.
Qed.

Lemma fval_inj ws x y : positive_widths ws -> fields ws x -> fields ws y -> fval ws x = fval ws y -> x = y.
Proof.
  intros Hp Hx. revert y. induction Hx as [|w c ws x Hc Hx IH]; intros y Hy He.
  { by inversion Hy. }
  destruct (fields_cons_inv _ _ _ Hy) as (d & y' & -> & Hd & Hy').
  destruct (sumz_cons w ws Hp) as (? & ? & ? & ? & _). cbn [fval] in He.
  pose proof (fval_range ws x ltac:(done) Hx). pose proof (fval_range ws y' ltac:(done) Hy').
  assert (c = d) as -> by nia. f_equal. apply IH; [done|done|lia].
Qed.

(** Splitting off a carry *)
Lemma carry_split w z : 0 < w -> in_u w (uwrap w z) /\ Z.shiftr z w * 2 ^ w + uwrap w z = z.
Proof.
  intros Hw. pose proof (pow_pos w Hw). split; [apply uwrap_range; lia|].
  rewrite Z.shiftr_div_pow2 by lia. unfold uwrap. pose proof (Z.div_mod z (2 ^ w)). lia.
Qed.

Lemma ADDIEEE_value ws carry a b :
  positive_widths ws -> fields ws a -> fields ws b ->
  let r := ADDIEEE ws carry a b in
  fields ws (snd r) /\ fst r * 2 ^ sumz ws + fval ws (snd r) = fval ws a + fval ws b + carry.
Proof.
  intros Hp Ha. revert b. induction Ha as [|w x ws a Hx Ha IH]; intros b Hb; cbn zeta.
  { inversion Hb; subst. cbn. split; [constructor|lia]. }
  destruct (fields_cons_inv _ _ _ Hb) as (y & b' & -> & Hy & Hb').
  destruct (sumz_cons w ws Hp) as (? & ? & ? & ? & ->). cbn [ADDIEEE].
  destruct (IH ltac:(done) b' Hb') as [Hf Hv]. destruct (ADDIEEE ws carry a b') as [k s]. cbn [fst snd fval] in *.
  destruct (carry_split w (k + (x + y)) ltac:(done)) as [Hu Hs]. split; [by constructor|]. nia.
Qed.

Lemma INCIEEE_value ws carry a :
  positive_widths ws -> fields ws a ->
  let r := INCIEEE ws carry a in
  fields ws (snd r) /\ fst r * 2 ^ sumz ws + fval ws (snd r) = fval ws a + carry.
Proof.
  intros Hp Ha. induction Ha as [|w x ws a Hx Ha IH]; cbn zeta.
  { cbn. split; [constructor|lia]. }
  destruct (sumz_cons w ws Hp) as (? & ? & ? & ? & ->). cbn [INCIEEE].
  destruct (IH ltac:(done)) as [Hf Hv]. destruct (INCIEEE ws carry a) as [k s]. cbn [fst snd fval] in *.
  destruct (carry_split w (k + x) ltac:(done)) as [Hu Hs]. split; [by constructor|]. nia.
Qed.

Lemma lxor_ones w c : 0 <= w -> in_u w c -> Z.lxor c (MASKR w) = 2 ^ w - 1 - c.
Proof.
  intros Hw Hc. unfold MASKR. transitivity (Z.ldiff (Z.ones w) c).
  - apply Z.bits_inj'. intros i Hi. rewrite Z.lxor_spec, Z.ldiff_spec, ones_bit by lia.
    destruct (Z.ltb_spec i w), (Z.leb_spec 0 i); try lia; cbn; [by destruct (Z.testbit c i)|].
    by rewrite (testbit_high w) by (done || lia).
  - rewrite <- Z.sub_nocarry_ldiff; [rewrite Z.ones_equiv; lia|].
    apply Z.bits_inj'. intros i Hi. rewrite Z.ldiff_spec, ones_bit, Z.bits_0 by lia.
    destruct (Z.ltb_spec i w), (Z.leb_spec 0 i); try lia; cbn;
      rewrite ?andb_false_r; try done.
    by rewrite (testbit_high w) by (done || lia).
Qed.

Lemma NOTIEEE_value ws x :
  positive_widths ws -> fields ws x ->
  fields ws (NOTIEEE ws x) /\ fval ws (NOTIEEE ws x) = 2 ^ sumz ws - 1 - fval ws x.
Proof.
  intros Hp Hx. induction Hx as [|w c ws x Hc Hx IH]; [split; [constructor|done]|].
  destruct (sumz_cons w ws Hp) as (? & ? & ? & ? & ->). destruct IH as [IHf IHv]; [done|].
  unfold NOTIEEE in *. cbn [zip_with fval]. rewrite (lxor_ones w c) by (done || lia). unfold in_u in Hc.
  split; [constructor; [split; lia|done]|]. rewrite IHv. lia.
Qed.

(** Shifts *)
Definition bit (z : Z) : Prop := z = 0 \/ z = 1.

Lemma top_bit_value ws x low :
  positive_widths ws -> fields ws x -> bit low ->
  let t := top_bit ws x low in
  bit t /\ (ws <> [] -> t = fval ws x / 2 ^ (sumz ws - 1)).
Proof.
  intros Hp Hx Hl. destruct Hx as [|w c ws x Hc Hx]; [done|]. cbn [top_bit fval].
  destruct (sumz_cons w ws Hp) as (Hw & Hws & ? & ? & _). pose proof (fval_range ws x Hws Hx).
  pose proof (sumz_nonneg ws Hws). rewrite Z.shiftr_div_pow2 by lia.
  pose proof (pow2_half w Hw). unfold in_u in Hc.
  assert (0 < 2 ^ (w - 1)) by (apply Z.pow_pos_nonneg; lia). split.
  - assert (0 <= c / 2 ^ (w - 1) < 2) as ?; [|unfold bit; lia].
    split; [apply Z.div_pos; lia|apply Z.div_lt_upper_bound; lia].
  - intros _. cbn [sumz foldr]. fold (sumz ws). replace (w + sumz ws - 1) with (sumz ws + (w - 1)) by lia.
    rewrite Z.pow_add_r, <- Z.div_div by lia. f_equal. rewrite Z.add_comm, Z.div_add by lia.
    rewrite Z.div_small by lia. lia.
Qed.

Lemma SHLEFTIEEE_value ws x low :
  positive_widths ws -> fields ws x -> bit low ->
  fields ws (SHLEFTIEEE ws x low) /\
  fval ws (SHLEFTIEEE ws x low) + top_bit ws x low * 2 ^ sumz ws = 2 * fval ws x + low.
Proof.
  intros Hp Hx Hl. induction Hx as [|w c ws x Hc Hx IH]; [split; [constructor|cbn; lia]|].
  destruct (sumz_cons w ws Hp) as (Hw & Hws & ? & ? & ->). destruct (IH Hws) as [IHf IHv].
  destruct (top_bit_value ws x low Hws Hx Hl) as [Ht _]. cbn [SHLEFTIEEE fval].
  set (t := top_bit ws x low) in *. cbn [top_bit].
  rewrite Z.shiftl_mul_pow2 by lia. rewrite lor_low by (unfold bit in Ht; lia).
  change (2 ^ 1) with 2. pose proof (pow2_half w Hw). rewrite Z.shiftr_div_pow2 by lia.
  assert (0 < 2 ^ (w - 1)) by (apply Z.pow_pos_nonneg; lia).
  assert (uwrap w (c * 2 + t) = 2 * (c mod 2 ^ (w - 1)) + t) as ->.
  { unfold uwrap. symmetry. apply (Z.mod_unique _ _ (c / 2 ^ (w - 1))).
    - left. pose proof (Z.mod_pos_bound c (2 ^ (w - 1))). unfold bit in Ht. lia.
    - pose proof (Z.div_mod c (2 ^ (w - 1))). lia. }
  pose proof (Z.mod_pos_bound c (2 ^ (w - 1))). pose proof (Z.div_mod c (2 ^ (w - 1))).
  split; [constructor; [split; unfold bit in Ht; lia|done]|]. nia.
Qed.

Lemma SHRIGHTIEEE_value ws x high :
  positive_widths ws -> fields ws x -> 0 <= high ->
  fields ws (SHRIGHTIEEE ws x high) /\
  2 * fval ws (SHRIGHTIEEE ws x high) + (last_field (high :: x)) mod 2 = fval ws x + (high mod 2) * 2 ^ sumz ws.
Proof.
  intros Hp Hx. revert high. induction Hx as [|w c ws x Hc Hx IH]; intros high Hh.
  { split; [constructor|cbn; lia]. }
  destruct (sumz_cons w ws Hp) as (Hw & Hws & ? & ? & ->). unfold in_u in Hc.
  destruct (IH Hws c ltac:(lia)) as [IHf IHv]. cbn [SHRIGHTIEEE fval].
  replace (last_field (high :: c :: x)) with (last_field (c :: x)) by (destruct x; done).
  pose proof (pow2_half w Hw). assert (0 < 2 ^ (w - 1)) by (apply Z.pow_pos_nonneg; lia).
  assert (uwrap w (Z.lor (Z.shiftr c 1) (Z.shiftl high (w - 1))) = (high mod 2) * 2 ^ (w - 1) + c / 2) as ->.
  { assert (0 <= c / 2 < 2 ^ (w - 1)) by (split; [apply Z.div_pos|apply Z.div_lt_upper_bound]; lia).
    rewrite Z.shiftr_div_pow2, Z.shiftl_mul_pow2, Z.lor_comm by lia. change (2 ^ 1) with 2.
    rewrite lor_low by lia. unfold uwrap. symmetry. apply (Z.mod_unique _ _ (high / 2)).
    - left. pose proof (Z.mod_pos_bound high 2). nia.
    - pose proof (Z.div_mod high 2). nia. }
  pose proof (Z.mod_pos_bound high 2). pose proof (Z.div_mod c 2). pose proof (Z.mod_pos_bound c 2).
  split; [constructor; [split; nia|done]|]. nia.
Qed.

(** The assignments [x.coeff_last |= v] after a shift to the left and
    [x.coeff0 |= v << (C0_BITS - 1)] after a shift to the right put [v] where
    the shift made room. *)
Lemma or_low_SHLEFT ws x v :
  positive_widths ws -> fields ws x -> bit v -> or_low (SHLEFTIEEE ws x 0) v = SHLEFTIEEE ws x v.
Proof.
  intros Hp Hx Hv. induction Hx as [|w c ws x Hc Hx IH]; [done|].
  destruct (sumz_cons w ws Hp) as (Hw & Hws & ? & _). specialize (IH Hws).
  destruct Hx as [|w' c' ws x Hc' Hx].
  - cbn [SHLEFTIEEE top_bit or_low]. f_equal. rewrite Z.lor_0_r, Z.shiftl_mul_pow2 by lia. unfold uwrap.
    rewrite <- !Z.land_ones by lia. rewrite Z.land_lor_distr_l. f_equal. symmetry.
    rewrite Z.land_ones by lia. apply Z.mod_small. pose proof (Z.pow_le_mono_r 2 1 w). unfold bit in Hv. lia.
  - cbn [SHLEFTIEEE top_bit or_low] in *. by f_equal.
Qed.

Lemma or_top_SHRIGHT ws x v :
  positive_widths ws -> fields ws x -> or_top ws (SHRIGHTIEEE ws x 0) v = SHRIGHTIEEE ws x v.
Proof.
  intros Hp Hx. destruct Hx as [|w c ws x Hc Hx]; [done|].
  destruct (sumz_cons w ws Hp) as (Hw & Hws & ? & _). cbn [SHRIGHTIEEE or_top]. f_equal. unfold in_u in Hc.
  rewrite Z.shiftl_0_l, Z.lor_0_r, (uwrap_id w (Z.shiftr c 1)); [done|].
  rewrite Z.shiftr_div_pow2 by lia. change (2 ^ 1) with 2.
  split; [apply Z.div_pos; lia|apply Z.div_lt_upper_bound; lia].
Qed.

Lemma last_field_mod ws x d : positive_widths ws -> fields ws x -> last_field (d :: x) mod 2 = match x with [] => d mod 2 | _ => fval ws x mod 2 end.
Proof.
  intros Hp Hx. revert d. induction Hx as [|w c ws x Hc Hx IH]; intros d; [done|].
  destruct (sumz_cons w ws Hp) as (Hw & Hws & ? & ? & _). specialize (IH Hws c).
  replace (last_field (d :: c :: x)) with (last_field (c :: x)) by (destruct x; done). rewrite IH.
  destruct Hx as [|w' c' ws x Hc' Hx]; [cbn; f_equal; lia|]. cbn [fval].
  assert (0 < sumz (w' :: ws)).
  { inversion Hws; subst. cbn [sumz foldr]. pose proof (sumz_nonneg ws ltac:(done)). unfold sumz in *. lia. }
  rewrite (pow2_half (sumz (w' :: ws))) by lia.
  set (v := c' * 2 ^ sumz ws + fval ws x). set (k := 2 ^ (sumz (w' :: ws) - 1)).
  replace (c * (2 * k) + v) with (v + (c * k) * 2) by lia. by rewrite Z.mod_add by lia.
Qed.

Lemma nz_coeff_value ws x : positive_widths ws -> fields ws x -> nz_coeff x = negb (fval ws x =? 0).
Proof.
  intros Hp Hx. unfold nz_coeff. f_equal. induction Hx as [|w c ws x Hc Hx IH]; [done|].
  destruct (sumz_cons w ws Hp) as (Hw & Hws & ? & ? & _). cbn [forallb fval]. rewrite (IH Hws).
  pose proof (fval_range ws x Hws Hx). unfold in_u in Hc.
  destruct (Z.eqb_spec 0 c) as [<-|], (Z.eqb_spec (fval ws x) 0); cbn [andb]; symmetry; apply Z.eqb_eq || apply Z.eqb_neq; nia.
Qed.

Lemma zeros_value ws : positive_widths ws ->
  fields ws (replicate (length ws) 0) /\ fval ws (replicate (length ws) 0) = 0.
Proof.
  induction 1 as [|w ws Hw Hws [IHf IHv]]; [split; [constructor|done]|]. cbn [length replicate fval].
  split; [constructor; [split; [lia|by apply pow_pos]|done]|lia].
Qed.

(** * Coefficients of a format *)
Section Coefficients.
Context (F : Format) `{!GoodFormat F}.

Definition C : Z := coeff_bits F.
Definition cval (x : list Z) : Z := fval (c_bits F) x.
Definition coefficient (x : list Z) : Prop := fields (c_bits F) x.

Lemma coefficient_nonempty x : coefficient x -> x <> [].
Proof. intros Hx ->. apply fields_nil_inv in Hx. destruct good_first as (w & ws & He & _). congruence. Qed.

Lemma C_large : ROUND_BITS <= C.
Proof.
  unfold C. rewrite good_coeff_bits. destruct good_first as (w & ws & He & Hw). pose proof good_bits as Hb.
  rewrite He in *. inversion Hb; subst. cbn [sumz foldr]. pose proof (sumz_nonneg ws ltac:(done)). unfold sumz in *. lia.
Qed.

Lemma pow_C_pos : 8 <= 2 ^ C.
Proof. pose proof C_large as HC. change 8 with (2 ^ ROUND_BITS). by apply Z.pow_le_mono_r. Qed.

Lemma cval_range x : coefficient x -> 0 <= cval x < 2 ^ C.
Proof. intros Hx. unfold C. rewrite good_coeff_bits. apply fval_range; [apply good_bits|done]. Qed.

Lemma cval_inj x y : coefficient x -> coefficient y -> cval x = cval y -> x = y.
Proof. apply fval_inj, good_bits. Qed.

Lemma zero_coeff_value : coefficient (zero_coeff F) /\ cval (zero_coeff F) = 0.
Proof. apply zeros_value, good_bits. Qed.

Lemma nz_coeff_cval x : coefficient x -> nz_coeff x = negb (cval x =? 0).
Proof. apply nz_coeff_value, good_bits. Qed.

Lemma low_bit_cval x : coefficient x -> low_bit x = cval x mod 2.
Proof.
  intros Hx. unfold low_bit. change 1 with (Z.ones 1). rewrite Z.land_ones by lia. change (2 ^ 1) with 2.
  pose proof (last_field_mod _ x 0 good_bits Hx) as Hl. pose proof (coefficient_nonempty x Hx). destruct x; [done|].
  unfold cval. rewrite <- Hl. by destruct x.
Qed.

Lemma add_cval carry a b :
  coefficient a -> coefficient b ->
  let r := ADDIEEE (c_bits F) carry a b in
  coefficient (snd r) /\ fst r * 2 ^ C + cval (snd r) = cval a + cval b + carry.
Proof. unfold C. rewrite good_coeff_bits. apply ADDIEEE_value, good_bits. Qed.

Lemma inc_cval carry a :
  coefficient a ->
  let r := INCIEEE (c_bits F) carry a in
  coefficient (snd r) /\ fst r * 2 ^ C + cval (snd r) = cval a + carry.
Proof. unfold C. rewrite good_coeff_bits. apply INCIEEE_value, good_bits. Qed.

Lemma not_cval x :
  coefficient x -> coefficient (NOTIEEE (c_bits F) x) /\ cval (NOTIEEE (c_bits F) x) = 2 ^ C - 1 - cval x.
Proof. unfold C. rewrite good_coeff_bits. apply NOTIEEE_value, good_bits. Qed.

Lemma shleft_cval x v :
  coefficient x -> bit v ->
  let t := top_bit (c_bits F) x 0 in
  coefficient (SHLEFTIEEE (c_bits F) x v) /\ bit t /\ t * 2 ^ C + cval (SHLEFTIEEE (c_bits F) x v) = 2 * cval x + v.
Proof.
  intros Hx Hv. pose proof (coefficient_nonempty x Hx). cbn zeta.
  destruct (SHLEFTIEEE_value _ x v good_bits Hx Hv) as [Hf Hvl].
  destruct (top_bit_value _ x 0 good_bits Hx ltac:(by left)) as [Hb _].
  unfold C. rewrite good_coeff_bits. split_and!; [done|done|]. unfold cval. rewrite <- Hvl.
  destruct Hx; [done|]. cbn [top_bit]. lia.
Qed.

Lemma shright_cval x v :
  coefficient x -> 0 <= v ->
  coefficient (SHRIGHTIEEE (c_bits F) x v) /\
  2 * cval (SHRIGHTIEEE (c_bits F) x v) + cval x mod 2 = cval x + (v mod 2) * 2 ^ C.
Proof.
  intros Hx Hv. pose proof (coefficient_nonempty x Hx). destruct (SHRIGHTIEEE_value _ x v good_bits Hx Hv) as [Hf Hvl].
  rewrite (last_field_mod _ x v good_bits Hx) in Hvl. unfold C. rewrite good_coeff_bits. destruct x; done.
Qed.

Lemma or_low_shleft x v : coefficient x -> bit v ->
  or_low (SHLEFTIEEE (c_bits F) x 0) v = SHLEFTIEEE (c_bits F) x v.
Proof. apply or_low_SHLEFT, good_bits. Qed.

Lemma or_top_shright x v : coefficient x ->
  or_top (c_bits F) (SHRIGHTIEEE (c_bits F) x 0) v = SHRIGHTIEEE (c_bits F) x v.
Proof. apply or_top_SHRIGHT, good_bits. Qed.

End Coefficients.
