(* ===== verification/IeeeOps.v ===== *)
(** The operations on IEEE numbers of [arith/]: normalisation and rounding
    ([ieee_norm.c]), addition and subtraction ([ieee_fadd.c]), multiplication
    ([ieee_fmul.c]), division ([ieee_fdiv.c]) and comparison ([compare.c]).

    The C variables [lbits], [rbits] and [carry] are [unsigned long] and hold a
    few bits only, [expo] is an [int] that stays below 2^17: none of them wraps. *)
From Stdlib Require Import ZArith Lia Bool.
From stdpp Require Import prelude list.
From S2P Require Import Prelude ArData IeeeData.

Section Operations.
Context (F : Format) `{FpState}.

(** * Normalisation and rounding *)

(** The variables of [ar_inNnorm]: exponent, bit to the left of the coefficient,
    rounding bits, coefficient. *)
Record norm_state : Type := mkNorm { n_expo : Z; n_lbits : Z; n_rbits : Z; n_coeff : list Z }.

(** [while (expo > 1 && !lbits)]: shift to the left, keep the sticky bit. *)
Fixpoint normalize_left (fuel : nat) (s : norm_state) : outcome norm_state :=
  let '(mkNorm expo lbits rbits c) := s in
  if (expo >? 1) && (lbits =? 0) then
    match fuel with
    | O => Err Timeout
    | S fuel =>
        let lbits := top_bit (c_bits F) c 0 in
        let c := SHLEFTIEEE (c_bits F) c 0 in
        let c := or_low c (Z.shiftr rbits (ROUND_BITS - 1)) in
        let rbits := Z.lor (Z.land (Z.shiftl rbits 1) (MASKR ROUND_BITS)) (Z.land rbits 1) in
        normalize_left fuel (mkNorm (expo - 1) lbits rbits c)
    end
  else Ok s.

(** One shift to the right of the coefficient, with [lbits] shifted in. *)
Definition shift_right (lbits : Z) (c : list Z) : list Z :=
  or_top (c_bits F) (SHRIGHTIEEE (c_bits F) c 0) lbits.

(** [while (lbits > 1 || expo < 0)]: shift to the right, keep the sticky bit. *)
Fixpoint normalize_right (fuel : nat) (s : norm_state) : outcome norm_state :=
  let '(mkNorm expo lbits rbits c) := s in
  if (lbits >? 1) || (expo <? 0) then
    match fuel with
    | O => Err Timeout
    | S fuel =>
        let rbits := Z.lor (Z.lor (Z.shiftr rbits 1) (Z.land rbits 1))
                           (Z.shiftl (low_bit c) (ROUND_BITS - 1)) in
        let c := shift_right lbits c in
        normalize_right fuel (mkNorm (expo + 1) (Z.shiftr lbits 1) rbits c)
    end
  else Ok s.

(** The rounding decision: [true] to round up the coefficient. *)
Definition round_up (roundmode : round_mode) (sign : bool) (rbits : Z) (c : list Z) : bool :=
  match roundmode with
  | AR_ROUND_PLUS_INFINITY => negb (eqb (rbits =? 0) (negb sign))
  | AR_ROUND_MINUS_INFINITY => negb (xorb (rbits =? 0) (negb sign))
  | AR_ROUND_ZERO => false
  | AR_ROUND_NEAREST =>
      if Z.shiftr rbits (ROUND_BITS - 1) =? 0 then false
      else if (Z.land rbits (MASKR (ROUND_BITS - 1)) =? 0) && (low_bit c =? 0) then false
      else true
  end.

(** [/* Round up the coefficient */] to [/* Shift right if necessary */] *)
Definition norm_round (sign : bool) (roundmode : round_mode) (s : norm_state) : norm_state :=
  let '(mkNorm expo lbits rbits c) := s in
  let '(lbits, c) :=
    if round_up roundmode sign rbits c
    then let '(carry, c) := INCIEEE (c_bits F) 1 c in (lbits + carry, c)
    else (lbits, c) in
  if lbits >? 1 then
    mkNorm (expo + 1) (Z.shiftr lbits 1)
           (Z.lor (Z.shiftr rbits 1) (Z.shiftl (low_bit c) (ROUND_BITS - 1))) (shift_right lbits c)
  else if negb (lbits =? 0) then mkNorm (if expo =? 0 then 1 else expo) lbits rbits c
  else mkNorm 0 lbits rbits c.

(** From the test for a zero coefficient to the end of the function. *)
Definition norm_package (res : Z) (sign : bool) (s : norm_state) : Z * AR_IEEE :=
  let '(mkNorm expo lbits rbits c) := s in
  let '(expo, res) :=
    if (lbits =? 0) && negb (nz_coeff c)
    then (0, Z.lor res (Z.lor AR_STAT_ZERO AR_STAT_UNDERFLOW)) else (expo, res) in
  if expo >? max_expo F then
    (Z.lor res AR_STAT_OVERFLOW, mkIeee sign (max_expo F + 1) (zero_coeff F))
  else
    let res := if negb (rbits =? 0) then Z.lor res AR_STAT_INEXACT else res in
    if (expo =? 0) && negb (bool_decide (ar_underflow_mode = AR_UNDERFLOW_TO_DENORM)) && nz_coeff c then
      (Z.lor res (Z.lor AR_STAT_ZERO AR_STAT_UNDERFLOW),
       mkIeee (if bool_decide (ar_underflow_mode = AR_UNDERFLOW_TO_PLUS_ZERO) then false else sign)
              (if bool_decide (ar_underflow_mode = AR_UNDERFLOW_TO_SIGNED_TINY) then min_expo F + 1 else expo)
              (zero_coeff F))
    else (res, mkIeee sign expo c).

Definition ar_inorm (expo lbits rbits : Z) (x : AR_IEEE) (roundmode : round_mode) : outcome (Z * AR_IEEE) :=
  let res := if sign x then Z.lor AR_STAT_OK AR_STAT_NEGATIVE else AR_STAT_OK in
  if (lbits =? 0) && negb (nz_coeff (coeff x)) && (rbits =? 0) then
    Ok (Z.lor res AR_STAT_ZERO, mkIeee (sign x) 0 (coeff x))
  else
    let* '(mkNorm expo lbits rbits c) :=
      normalize_left (Z.to_nat expo) (mkNorm expo lbits rbits (coeff x)) in
    let expo := if (expo =? 1) && (lbits =? 0) then 0
                else if (expo =? 0) && negb (lbits =? 0) then 1 else expo in
    let* s := normalize_right (Z.to_nat (Z.max 0 (- expo) + Z.log2 lbits)) (mkNorm expo lbits rbits c) in
    Ok (norm_package res (sign x) (norm_round (sign x) roundmode s)).

(** The status of the early results, with the sign of the result. *)
Definition signed_status (negative : bool) (status : Z) : Z :=
  Z.lor (if negative then Z.lor AR_STAT_OK AR_STAT_NEGATIVE else AR_STAT_OK) status.

(** [!!expo] *)
Definition implicit_bit (x : AR_IEEE) : Z := b2z (negb (expo x =? 0)).

(** * Multiplication *)

(** The variables of the loop that sums the pyramid: [x_lbits], the product [x]
    and its lower half [x2], the shifted multiplicand [y], [y2], the multiplier [z]. *)
Record mul_state : Type := mkMul { m_lbits : Z; m_x : list Z; m_x2 : list Z; m_y : list Z; m_y2 : list Z; m_z : list Z }.

(** [SHLEFTIEEEn_2 (y, y2); SHRIGHTIEEEn (z)] *)
Definition mul_shift (s : mul_state) : mul_state :=
  let '(mkMul x_lbits x x2 y y2 z) := s in
  mkMul x_lbits x x2 (SHLEFTIEEE (c_bits F) y (top_bit (c_bits F) y2 0)) (SHLEFTIEEE (c_bits F) y2 0)
        (SHRIGHTIEEE (c_bits F) z 0).

Definition mul_step (s : mul_state) : mul_state :=
  let '(mkMul x_lbits x x2 y y2 z) := s in
  mul_shift
    (if negb (low_bit z =? 0) then
       let '(carry, x2) := ADDIEEE (c_bits F) 0 x2 y2 in
       let '(carry, x) := ADDIEEE (c_bits F) carry x y in
       mkMul (x_lbits + carry) x x2 y y2 z
     else s).

(** [x2.coeff0 & MASKR (...) | x2.coeff1 | ...]: whether the low half of the
    product has bits below the rounding bits; [rest] selects the fields after
    the first that are tested. *)
Definition mul_sticky (rest : list Z -> list Z) (x2 : list Z) : bool :=
  match c_bits F, x2 with
  | w :: _, c0 :: x2 => negb (Z.land c0 (MASKR (w - ROUND_BITS)) =? 0) || nz_coeff (rest x2)
  | _, _ => false
  end.

Definition mul_rbits (rest : list Z -> list Z) (x2 : list Z) : Z :=
  match c_bits F, x2 with
  | w :: _, c0 :: _ =>
      let rbits := Z.shiftr c0 (w - ROUND_BITS) in
      if mul_sticky rest x2 then Z.lor rbits 1 else rbits
  | _, _ => 0
  end.

(** [y.coeff_last = v] of a cleared number *)
Definition unit_coeff (v : Z) : list Z := or_low (zero_coeff F) v.

(** [x] is the former contents of the result. *)
Definition ar_ifmul_fields (rest : list Z -> list Z) (x a b : AR_IEEE) (roundmode : round_mode)
    : outcome (Z * AR_IEEE) :=
  if IS_NaN F a then Ok (AR_STAT_UNDEFINED, a)
  else if IS_NaN F b then Ok (AR_STAT_UNDEFINED, b)
  else if is_inf F b then
    if is_zero a then Ok (AR_STAT_UNDEFINED, QNaNIEEE F)
    else let i := xorb (sign a) (sign b) in
         Ok (signed_status i AR_STAT_OVERFLOW, mkIeee i (expo b) (coeff b))
  else if is_inf F a then
    if is_zero b then Ok (AR_STAT_UNDEFINED, QNaNIEEE F)
    else let i := xorb (sign a) (sign b) in
         Ok (signed_status i AR_STAT_OVERFLOW, mkIeee i (expo a) (coeff a))
  else if ar_denorms_trap && (is_denorm a || is_denorm b) then
    Ok (AR_STAT_UNDEFINED, mkIeee (sign x) (max_expo F + 1) (coeff x))
  else
    let y := unit_coeff (implicit_bit a) in
    let y2 := coeff a in
    let z := coeff b in
    let z_lbits := implicit_bit b in
    let x_expo := expo a + expo b + b2z (expo a =? 0) + b2z (expo b =? 0) - expo_bias F in
    let x_expo := if x_expo <=? 0 then x_expo - 1 else x_expo in
    let i := xorb (sign a) (sign b) in
    let '(x, x2) := if negb (low_bit z =? 0) then (y, coeff a) else (zero_coeff F, zero_coeff F) in
    let x_lbits := Z.land z_lbits (last_field y) in
    let '(mkMul x_lbits x x2 y y2 z) := mul_shift (mkMul x_lbits x x2 y y2 z) in
    let z := or_top (c_bits F) z z_lbits in
    let '(mkMul x_lbits x x2 _ _ _) :=
      Nat.iter (Z.to_nat (coeff_bits F)) mul_step (mkMul x_lbits x x2 y y2 z) in
    ar_inorm x_expo x_lbits (mul_rbits rest x2) (mkIeee i 0 x) roundmode.

(** * Addition and subtraction *)

(** The second operand while it is shifted down: [rbits], [y_lbits], [y]. *)
Record align_state : Type := mkAlign { a_rbits : Z; a_lbits : Z; a_coeff : list Z }.

Definition align_step (s : align_state) : align_state :=
  let '(mkAlign rbits y_lbits y) := s in
  mkAlign (Z.lor (Z.lor (Z.land rbits 1) (Z.shiftr rbits 1)) (Z.shiftl (low_bit y) (ROUND_BITS - 1)))
          0 (shift_right y_lbits y).

(** Addition of the coefficients, with [diffsign] as the difference of the
    aligned ones: [rbits], [lbits] and the coefficient of the result, and
    whether its sign is the opposite of [x->sign]. *)
Definition add_coeffs (diffsign : bool) (lbits : Z) (x : list Z) (y : align_state) : norm_state * bool :=
  let '(mkAlign rbits y_lbits y) := y in
  let '(lbits, x) := if diffsign then (Z.lxor lbits (MASKR 2), NOTIEEE (c_bits F) x) else (lbits, x) in
  let '(carry, rbits) :=
    if diffsign then
      let rbits := rbits + MASKR ROUND_BITS in
      (Z.shiftr rbits ROUND_BITS, Z.land rbits (MASKR ROUND_BITS))
    else (0, rbits) in
  let '(carry, x) := ADDIEEE (c_bits F) carry x y in
  let lbits := Z.land (carry + lbits + y_lbits) (MASKR 2) in
  if diffsign then
    if negb (Z.land lbits 2 =? 0) then
      (mkNorm 0 (Z.lxor lbits (MASKR 2)) (Z.lxor rbits (MASKR ROUND_BITS)) (NOTIEEE (c_bits F) x), false)
    else
      let carry := 1 + rbits in
      let rbits := Z.land carry (MASKR ROUND_BITS) in
      let carry := Z.shiftr carry ROUND_BITS in
      let '(carry, x) := INCIEEE (c_bits F) carry x in
      (mkNorm 0 (Z.land (carry + lbits) (MASKR 2)) rbits x, true)
  else (mkNorm 0 lbits rbits x, false).

(** [/* Shift rightward if carry, or if undenormalized */] *)
Definition sum_shift (x_expo : Z) (s : norm_state) : norm_state :=
  let '(mkNorm _ lbits rbits c) := s in
  if negb (Z.land lbits 2 =? 0) || (negb (lbits =? 0) && (x_expo =? 0)) then
    mkNorm (if negb (x_expo =? 0) then x_expo + 1 else 2) (Z.shiftr lbits 1)
           (Z.lor (Z.lor (Z.shiftr rbits 1) (Z.land rbits 1)) (Z.shiftl (low_bit c) (ROUND_BITS - 1)))
           (shift_right lbits c)
  else mkNorm x_expo lbits rbits c.

(** The second operand, shifted down to the exponent of the first one, and its sign. *)
Definition align (x y : AR_IEEE) : bool * align_state :=
  let lbits := implicit_bit x in
  let y_lbits := implicit_bit y in
  let shift := (expo x - lbits) - (expo y - y_lbits) in
  if shift >? coeff_bits F + ROUND_BITS
  then (false, mkAlign (b2z (nz_coeff (coeff y))) 0 (zero_coeff F))
  else (sign y, Nat.iter (Z.to_nat shift) align_step (mkAlign 0 y_lbits (coeff y))).

(** From the computation of [lbits] to the end of the function; [x] has the
    larger exponent. *)
Definition add_finite (x y : AR_IEEE) (roundmode : round_mode) : outcome (Z * AR_IEEE) :=
  let '(y_sign, aligned) := align x y in
  let diffsign := xorb (sign x) y_sign in
  let '(s, opposite) := add_coeffs diffsign (implicit_bit x) (coeff x) aligned in
  let x_sign := xorb (sign x) opposite in
  let '(mkNorm x_expo lbits rbits c) := sum_shift (expo x) s in
  if (lbits =? 0) && negb (nz_coeff c) && (rbits =? 0) then
    let x_sign := x_sign && negb diffsign in
    Ok (signed_status x_sign AR_STAT_ZERO, mkIeee x_sign 0 c)
  else ar_inorm x_expo lbits rbits (mkIeee x_sign x_expo c) roundmode.

Definition ar_ifadd_fields (a b : AR_IEEE) (roundmode : round_mode) : outcome (Z * AR_IEEE) :=
  let '(y, x) := if expo b >? expo a then (a, b) else (b, a) in
  if IS_NaN F x then Ok (AR_STAT_UNDEFINED, x)
  else if IS_NaN F y then Ok (AR_STAT_UNDEFINED, y)
  else if is_inf F x then
    if is_inf F y then
      if eqb (sign x) (sign y) then Ok (signed_status (sign x) AR_STAT_OVERFLOW, x)
      else Ok (AR_STAT_UNDEFINED, QNaNIEEE F)
    else Ok (signed_status (sign x) AR_STAT_OVERFLOW, x)
  else if is_inf F y then Ok (signed_status (sign y) AR_STAT_OVERFLOW, y)
  else if ar_denorms_trap && (is_denorm x || is_denorm y) then
    Ok (AR_STAT_UNDEFINED, mkIeee (sign x) (max_expo F + 1) (coeff x))
  else add_finite x y roundmode.

(** [nb = *b; nb.sign ^= 1] *)
Definition negate_ieee (b : AR_IEEE) : AR_IEEE := mkIeee (negb (sign b)) (expo b) (coeff b).

Definition ar_ifsub_fields (a b : AR_IEEE) (roundmode : round_mode) : outcome (Z * AR_IEEE) :=
  if IS_NaN F a then Ok (AR_STAT_UNDEFINED, a)
  else if IS_NaN F b then Ok (AR_STAT_UNDEFINED, b)
  else ar_ifadd_fields a (negate_ieee b) roundmode.

(** * Division *)

(** The variables of the loop: quotient [x_lbits], [x], [rbits]; remainder
    [y_lbits], [y], [y2]; scaled denominator [z_lbits], [z], [z2]. *)
Record div_state : Type := mkDiv {
  d_lbits : Z; d_x : list Z; d_rbits : Z;
  d_ylbits : Z; d_y : list Z; d_y2 : list Z;
  d_zlbits : Z; d_z : list Z; d_z2 : list Z
}.

(** The comparison of the fields, the most significant first; the last test is [<=]. *)
Fixpoint fields_le (z y : list Z) : bool :=
  match z, y with
  | c :: z, d :: y => (c <? d) || ((c =? d) && fields_le z y)
  | _, _ => true
  end.

Definition div_step (s : div_state) : div_state :=
  let '(mkDiv _ x rbits y_lbits y y2 z_lbits z z2) := s in
  let x_lbits := top_bit (c_bits F) x 0 in
  let x := SHLEFTIEEE (c_bits F) x 0 in
  let x := or_low x (Z.shiftr rbits (ROUND_BITS - 1)) in
  let rbits := Z.land (Z.shiftl rbits 1) (MASKR ROUND_BITS) in
  let '(rbits, y_lbits, y, y2) :=
    if (z_lbits <? y_lbits) || ((z_lbits =? y_lbits) && fields_le (z ++ z2) (y ++ y2)) then
      let '(carry, y2) := ADDIEEE (c_bits F) 1 y2 (NOTIEEE (c_bits F) z2) in
      let '(carry, y) := ADDIEEE (c_bits F) carry y (NOTIEEE (c_bits F) z) in
      (Z.lor rbits 1, Z.land (y_lbits + carry + Z.lxor z_lbits 1) 1, y, y2)
    else (rbits, y_lbits, y, y2) in
  mkDiv x_lbits x rbits y_lbits y y2
        0 (or_top (c_bits F) (SHRIGHTIEEE (c_bits F) z 0) z_lbits) (SHRIGHTIEEE (c_bits F) z2 (last_field z)).

(** [while (!z_lbits)]: normalise a denormalised divisor; the results are
    [z_lbits], [z] and [x_expo]. *)
Fixpoint div_normalize (fuel : nat) (z_lbits : Z) (z : list Z) (x_expo : Z) : outcome (Z * list Z * Z) :=
  if z_lbits =? 0 then
    match fuel with
    | O => Err Timeout
    | S fuel => div_normalize fuel (top_bit (c_bits F) z 0) (SHLEFTIEEE (c_bits F) z 0) (x_expo + 1)
    end
  else Ok (z_lbits, z, x_expo).

Definition ar_ifdiv_fields (x a b : AR_IEEE) (roundmode : round_mode) : outcome (Z * AR_IEEE) :=
  if IS_NaN F a then Ok (AR_STAT_UNDEFINED, a)
  else if IS_NaN F b then Ok (AR_STAT_UNDEFINED, b)
  else
    let s := xorb (sign a) (sign b) in
    if is_inf F b then
      if is_inf F a then Ok (AR_STAT_UNDEFINED, QNaNIEEE F)
      else Ok (Z.lor (signed_status s AR_STAT_UNDERFLOW) AR_STAT_ZERO, mkIeee s 0 (zero_coeff F))
    else if is_inf F a then Ok (signed_status s AR_STAT_OVERFLOW, mkIeee s (expo a) (coeff a))
    else if is_zero b then
      if is_zero a then Ok (AR_STAT_UNDEFINED, QNaNIEEE F)
      else Ok (signed_status s AR_STAT_OVERFLOW, mkIeee s (max_expo F + 1) (zero_coeff F))
    else if ar_denorms_trap && (is_denorm a || is_denorm b) then
      Ok (AR_STAT_UNDEFINED, mkIeee (sign x) (max_expo F + 1) (coeff x))
    else
      let x_expo := expo a - expo b + b2z (expo a =? 0) - b2z (expo b =? 0) + expo_bias F in
      let* '(z_lbits, z, x_expo) :=
        if expo b =? 0 then div_normalize (Z.to_nat (coeff_bits F)) (implicit_bit b) (coeff b) x_expo
        else Ok (implicit_bit b, coeff b, x_expo) in
      let x_expo := if x_expo <=? 0 then x_expo - 1 else x_expo in
      let q := Nat.iter (Z.to_nat (coeff_bits F + ROUND_BITS + 1)) div_step
                 (mkDiv 0 (zero_coeff F) 0 (implicit_bit a) (coeff a) (zero_coeff F) z_lbits z (zero_coeff F)) in
      let rbits := if nz_coeff (d_y2 q) then Z.lor (d_rbits q) 1 else d_rbits q in
      ar_inorm x_expo (d_lbits q) rbits (mkIeee s 0 (d_x q)) roundmode.

(** * Comparison *)

(** [(a->coeff0 ^ b->coeff0) ? (a->coeff0 < b->coeff0) : ...]: [None] if the
    fields are equal. *)
Fixpoint fields_lt (a b : list Z) : option bool :=
  match a, b with
  | c :: a, d :: b => if negb (c =? d) then Some (c <? d) else fields_lt a b
  | _, _ => None
  end.

Definition ar_ifcmp_fields (a b : AR_IEEE) : Z :=
  if IS_NaN F a || IS_NaN F b then AR_STAT_UNDEFINED
  else if is_zero a && is_zero b then AR_STAT_ZERO
  else if xorb (sign a) (sign b) then (if sign a then AR_STAT_NEGATIVE else AR_STAT_OK)
  else
    let ordered (less : bool) :=
      if less then (if sign a then AR_STAT_OK else AR_STAT_NEGATIVE)
      else (if sign a then AR_STAT_NEGATIVE else AR_STAT_OK) in
    if negb (expo a =? expo b) then ordered (expo a <? expo b)
    else match fields_lt (coeff a) (coeff b) with
         | Some less => ordered less
         | None => AR_STAT_ZERO
         end.

End Operations.

(** [ar_ifmul128] tests [x2.coeff3] twice and [x2.coeff4] never; on MIPS it is
    the host's own multiplication, [native]. *)
Definition fields128 (x2 : list Z) : list Z :=
  match x2 with [c1; c2; c3; c4; c5; c6] => [c1; c2; c3; c3; c5; c6] | _ => x2 end.

Section Formats.
Context `{FpState}.

Definition ar_i32norm := ar_inorm IEEE32.
Definition ar_i64norm := ar_inorm IEEE64.
Definition ar_i128norm := ar_inorm IEEE128.

Definition ar_ifmul32 := ar_ifmul_fields IEEE32 (fun rest => rest).
Definition ar_ifmul64 := ar_ifmul_fields IEEE64 (fun rest => rest).
Definition ar_ifmul128 (native : AR_IEEE -> AR_IEEE -> Z * AR_IEEE) (x a b : AR_IEEE) (roundmode : round_mode)
    : outcome (Z * AR_IEEE) :=
  if host_is_mips then Ok (native a b) else ar_ifmul_fields IEEE128 fields128 x a b roundmode.

Definition ar_ifadd32 := ar_ifadd_fields IEEE32.
Definition ar_ifadd64 := ar_ifadd_fields IEEE64.
Definition ar_ifadd128 (native : AR_IEEE -> AR_IEEE -> Z * AR_IEEE) (a b : AR_IEEE) (roundmode : round_mode)
    : outcome (Z * AR_IEEE) :=
  if host_is_mips then Ok (native a b) else ar_ifadd_fields IEEE128 a b roundmode.

Definition ar_ifsub32 := ar_ifsub_fields IEEE32.
Definition ar_ifsub64 := ar_ifsub_fields IEEE64.
Definition ar_ifsub128 (native_add : AR_IEEE -> AR_IEEE -> Z * AR_IEEE) (a b : AR_IEEE) (roundmode : round_mode)
    : outcome (Z * AR_IEEE) :=
  if IS_NaN IEEE128 a then Ok (AR_STAT_UNDEFINED, a)
  else if IS_NaN IEEE128 b then Ok (AR_STAT_UNDEFINED, b)
  else ar_ifadd128 native_add a (negate_ieee b) roundmode.

Definition ar_ifdiv32 := ar_ifdiv_fields IEEE32.
Definition ar_ifdiv64 := ar_ifdiv_fields IEEE64.
Definition ar_ifdiv128 (native : AR_IEEE -> AR_IEEE -> Z * AR_IEEE) (x a b : AR_IEEE) (roundmode : round_mode)
    : outcome (Z * AR_IEEE) :=
  if host_is_mips then Ok (native a b) else ar_ifdiv_fields IEEE128 x a b roundmode.

Definition ar_ifcmp32 := ar_ifcmp_fields IEEE32.
Definition ar_ifcmp64 := ar_ifcmp_fields IEEE64.
Definition ar_ifcmp128 (native : AR_IEEE -> AR_IEEE -> Z) (a b : AR_IEEE) : Z :=
  if host_is_mips then native a b else ar_ifcmp_fields IEEE128 a b.

End Formats.
