(* ===== verification/IeeeRound.v ===== *)
(** Correct rounding, as a reference for the routines of [arith/], and the
    theory of guard, round and sticky bits.

    Magnitudes are fractions [N / D] in units of the least denormal number.  The
    reference [round_packed] picks the exponent from the magnitude itself,
    rounds the quotient at that exponent, and gives the fields [expo] and
    [coeff] of the result as one number: the rounded significand added to the
    exponent, so that a carry out of the significand moves to the next binade.

    A number [V] of eighths of a unit in the last place stands for an exact
    magnitude either exactly or "to the sticky bit"; the three bits that are
    rounded away then decide as the exact magnitude does. *)
From Stdlib Require Import ZArith Lia Bool.
From stdpp Require Import prelude list.
From S2P Require Import Prelude ArData IeeeData.

(** * The reference *)

(** Round [N / D] to an integer. *)
Definition round_div (mode : round_mode) (negative : bool) (N D : Z) : Z :=
  let q := N / D in
  let r := N mod D in
  let up := match mode with
            | AR_ROUND_NEAREST => (D <? 2 * r) || ((2 * r =? D) && Z.odd q)
            | AR_ROUND_ZERO => false
            | AR_ROUND_PLUS_INFINITY => negb negative && negb (r =? 0)
            | AR_ROUND_MINUS_INFINITY => negative && negb (r =? 0)
            end in
  if up then q + 1 else q.

(** The exponent of the unit in the last place of a magnitude. *)
Definition ulp_expo (C N D : Z) : Z := Z.max 0 (Z.log2 (N / D) - C).

Definition round_packed (C : Z) (mode : round_mode) (negative : bool) (N D : Z) : Z :=
  let e := ulp_expo C N D in
  e * 2 ^ C + round_div mode negative N (D * 2 ^ e).

Definition round_inexact (C N D : Z) : bool := negb (N mod (D * 2 ^ ulp_expo C N D) =? 0).

(** Rounding to nearest is within half a unit, and even when halfway. *)
Lemma round_div_nearest neg N D :
  0 < D ->
  let k := round_div AR_ROUND_NEAREST neg N D in
  2 * Z.abs (N - k * D) <= D /\ (2 * Z.abs (N - k * D) = D -> Z.even k = true).
Proof.
  intros HD. unfold round_div. pose proof (Z.mod_pos_bound N D HD). pose proof (Z.div_mod N D ltac:(lia)) as He.
  rewrite <- Z.negb_odd. cbn zeta.
  destruct (Z.ltb_spec D (2 * (N mod D))), (Z.eqb_spec (2 * (N mod D)) D), (Z.odd (N / D)) eqn:Ho; cbn [orb andb]; try lia;
    (split; [lia|]; intros; try lia; rewrite ?Z.odd_add, Ho; done).
Qed.

(** * Sticky bits *)
Definition exact_for (V N D : Z) : Prop := V * D = N.
Definition near2 (V N D : Z) : Prop := exists w, V = 2 * w + 1 /\ 2 * w * D < N < (2 * w + 2) * D.
Definition near4 (V N D : Z) : Prop := exists w, 4 * w < V < 4 * w + 4 /\ 4 * w * D < N < (4 * w + 4) * D.

(** [V] may be shifted once more to the left; [V] decides the rounding. *)
Definition sticky (V N D : Z) : Prop := exact_for V N D \/ near2 V N D.
Definition decides (V N D : Z) : Prop := exact_for V N D \/ near4 V N D.

(** Shifts of [V] with its sticky bit *)
Definition jam_left (V : Z) : Z := 2 * V + V mod 2.
Definition jam_right (V : Z) : Z := if Z.odd V then Z.lor (V / 2) 1 else V / 2.

Lemma sticky_decides V N D : 0 < D -> sticky V N D -> decides V N D.
Proof.
  intros HD [H|(w & -> & H)]; [by left|right]. exists (w / 2). pose proof (Z.div_mod w 2). pose proof (Z.mod_pos_bound w 2). nia.
Qed.

Lemma lor_1 z : Z.lor z 1 = if Z.odd z then z else z + 1.
Proof.
  pose proof (Z.div_mod z 2 ltac:(lia)) as He. rewrite Zmod_odd in He. destruct (Z.odd z) eqn:Ho.
  - apply Z.bits_inj'. intros i Hi. rewrite Z.lor_spec. destruct (decide (i = 0)) as [->|].
    + rewrite !Z.bit0_odd, Ho. done.
    + replace (Z.testbit 1 i) with false; [apply orb_false_r|]. symmetry. apply Z.bits_above_log2; [lia|]. change (Z.log2 1) with 0. lia.
  - replace (Z.lor z 1) with (Z.lor (z / 2 * 2 ^ 1) 1); [|f_equal; lia].
    replace (z + 1) with (z / 2 * 2 ^ 1 + 1) by lia. symmetry. rewrite Z.add_nocarry_lxor, Z.lxor_lor; [done| |];
    apply Z.bits_inj'; intros i Hi; rewrite Z.land_spec, Z.bits_0;
      (destruct (decide (i = 0)) as [->|];
       [by rewrite Z.mul_pow2_bits_low by lia
       |replace (Z.testbit 1 i) with false by (symmetry; apply Z.bits_above_log2; [lia|change (Z.log2 1) with 0; lia]); apply andb_false_r]).
Qed.

Lemma jam_right_cases V :
  exists h, (V = 2 * h /\ jam_right V = h) \/
            (V = 2 * h + 1 /\ Z.odd h = true /\ jam_right V = h) \/
            (V = 2 * h + 1 /\ Z.odd h = false /\ jam_right V = h + 1).
Proof.
  exists (V / 2). unfold jam_right. rewrite lor_1. pose proof (Z.div_mod V 2 ltac:(lia)) as He. rewrite Zmod_odd in He.
  destruct (Z.odd V), (Z.odd (V / 2)); lia.
Qed.

Lemma odd_half h : exists k, h = 2 * k + b2z (Z.odd h).
Proof. exists (h / 2). pose proof (Z.div_mod h 2 ltac:(lia)) as He. rewrite Zmod_odd in He. unfold b2z. lia. Qed.

Lemma decides_right V N D : 0 < D -> decides V N D -> decides (jam_right V) N (2 * D).
Proof.
  intros HD HV. destruct (jam_right_cases V) as (h & Hh). destruct (odd_half h) as (k & Hk).
  pose proof (Z.div_mod k 2). pose proof (Z.mod_pos_bound k 2).
  destruct HV as [HV|(w & Hw & HV)].
  - destruct Hh as [[-> ->]|[(-> & Ho & ->)|(-> & Ho & ->)]]; unfold exact_for in HV; [left; unfold exact_for; lia| |];
      right; exists (k / 2); rewrite Ho in Hk; cbn [b2z] in Hk; subst h N; split; try lia; split; nia.
  - right. exists (w / 2). pose proof (Z.div_mod w 2). pose proof (Z.mod_pos_bound w 2).
    assert (2 * w < jam_right V < 2 * w + 2).
    { destruct Hh as [[-> ->]|[(-> & Ho & ->)|(-> & Ho & ->)]]; rewrite ?Ho in Hk; cbn [b2z] in Hk; lia. }
    split; [lia|]. nia.
Qed.

Lemma decides_left V N D : 0 < D -> sticky V N D -> decides (jam_left V) (2 * N) D.
Proof.
  intros HD HV. unfold jam_left. pose proof (Z.div_mod V 2 ltac:(lia)). pose proof (Z.mod_pos_bound V 2).
  destruct HV as [HV|(w & -> & HV)].
  - unfold exact_for in HV. destruct (decide (V mod 2 = 0)) as [->|].
    + left. unfold exact_for. lia.
    + right. exists (V / 2). split; [lia|]. subst N. nia.
  - right. exists w. nia.
Qed.

Lemma sticky_right V N D : 0 < D -> sticky V N D -> sticky (jam_right V) N (2 * D).
Proof.
  intros HD HV. destruct (jam_right_cases V) as (h & Hh). destruct (odd_half h) as (k & Hk).
  destruct HV as [HV|(w & Hw & HV)].
  - unfold exact_for in HV. destruct Hh as [[-> ->]|[(-> & Ho & ->)|(-> & Ho & ->)]];
      [left; unfold exact_for; lia| |]; right; exists k; rewrite Ho in Hk; cbn [b2z] in Hk; subst h N; split; try lia; split; nia.
  - right. exists k. assert (w = h /\ jam_right V = 2 * k + 1) as [-> ->].
    { destruct Hh as [[-> ->]|[(-> & Ho & ->)|(-> & Ho & ->)]]; rewrite ?Ho in Hk; cbn [b2z] in Hk; lia. }
    split; [done|]. unfold b2z in Hk. destruct (Z.odd h); subst h; split; nia.
Qed.

(** The sum and the difference with a multiple of a unit *)
Lemma sticky_add S v N D : sticky v N D -> sticky (8 * S + v) (8 * S * D + N) D.
Proof.
  intros [Hv|(w & -> & Hv)]; [left; unfold exact_for in *; lia|right]. exists (4 * S + w). split; [lia|]. split; lia.
Qed.

Lemma sticky_sub S v N D : 0 < D -> sticky v N D ->
  sticky (Z.abs (8 * S - v)) (Z.abs (8 * S * D - N)) D /\ (8 * S <? v) = (8 * S * D <? N) /\
  (8 * S - v = 0 <-> 8 * S * D - N = 0).
Proof.
  intros HD [Hv|(w & -> & Hv)].
  - unfold exact_for in Hv. subst N. rewrite <- Z.mul_sub_distr_r, Z.abs_mul, (Z.abs_eq D) by lia. split; [by left|]. split; [|nia].
    apply eq_bool_prop_intro. rewrite !Is_true_true, !Z.ltb_lt. nia.
  - assert (8 * S <= 2 * w /\ 8 * S * D <= 2 * w * D \/ 2 * w + 2 <= 8 * S /\ (2 * w + 2) * D <= 8 * S * D) as Hc.
    { destruct (Z.le_gt_cases (8 * S) (2 * w)); [left|right]; split; try lia; nia. }
    split; [|split; [|lia]].
    + right. destruct Hc; [exists (w - 4 * S)|exists (4 * S - w - 1)]; lia.
    + destruct (Z.ltb_spec (8 * S) (2 * w + 1)), (Z.ltb_spec (8 * S * D) N); lia.
Qed.

Lemma exact_left V N D : V mod 2 = 0 -> exact_for V N D -> jam_left V mod 2 = 0 /\ exact_for (jam_left V) (2 * N) D.
Proof.
  intros Hm HV. unfold jam_left, exact_for in *. rewrite Hm. split; [|lia].
  replace (2 * V + 0) with (V * 2) by lia. apply Z.mod_mul. lia.
Qed.

(** The rounding bits decide as the exact fraction does. *)
Lemma decides_round V N D :
  0 < D -> 0 <= V -> decides V (8 * N) D ->
  N / D = V / 8 /\ (V mod 8 =? 0) = (N mod D =? 0) /\
  (4 <? V mod 8) = (D <? 2 * (N mod D)) /\ (V mod 8 =? 4) = (2 * (N mod D) =? D).
Proof.
  intros HD HV Hd. pose proof (Z.div_mod V 8 ltac:(lia)). pose proof (Z.mod_pos_bound V 8 ltac:(lia)).
  pose proof (Z.div_mod N D ltac:(lia)). pose proof (Z.mod_pos_bound N D HD).
  set (r := V mod 8) in *. set (q := V / 8) in *. set (R := N mod D) in *. set (Q := N / D) in *.
  assert (Q = q /\ ((r = 0 /\ R = 0) \/ (0 < r < 4 /\ 0 < 2 * R < D) \/ (r = 4 /\ 2 * R = D) \/ (4 < r /\ D < 2 * R))) as [-> Hr].
  { destruct Hd as [Hd|(w & Hw & Hd)].
    - unfold exact_for in Hd. assert (Q = q) as -> by nia. split; [done|]. nia.
    - pose proof (Z.div_mod w 2 ltac:(lia)). pose proof (Z.mod_pos_bound w 2 ltac:(lia)).
      assert (w / 2 = q) by lia. assert (Q = q) as -> by nia. split; [done|].
      destruct (decide (w mod 2 = 0)); [right; left|right; right; right]; nia. }
  split_and!; [done|..]; destruct Hr as [?|[?|[?|?]]];
    repeat (match goal with |- context [?a <? ?b] => destruct (Z.ltb_spec a b) | |- context [?a =? ?b] => destruct (Z.eqb_spec a b) end);
    try lia; done.
Qed.
