(* ===== verification/IeeeNorm.v ===== *)
(** Normalisation and rounding are correct: [ar_inorm] returns the reference
    rounding of the magnitude that its arguments stand for. *)
From Stdlib Require Import ZArith Lia Bool.
From stdpp Require Import prelude list.
From S2P Require Import Prelude ArData IeeeData IeeeFields IeeeOps IeeeRound.

Section Norm.
Context (F : Format) `{!GoodFormat F}.

Local Abbreviation C := (C F).
Local Abbreviation cval := (cval F).
Local Abbreviation coefficient := (coefficient F).

(** The significand, and the number of eighths of a unit in the last place *)
Definition sig (s : norm_state) : Z := n_lbits s * 2 ^ C + cval (n_coeff s).
Definition nval (s : norm_state) : Z := sig s * 8 + n_rbits s.
Definition valid (s : norm_state) : Prop :=
  coefficient (n_coeff s) /\ 0 <= n_rbits s < 8 /\ 0 <= n_lbits s.

Lemma rbits_cases r : 0 <= r < 8 -> r = 0 \/ r = 1 \/ r = 2 \/ r = 3 \/ r = 4 \/ r = 5 \/ r = 6 \/ r = 7.
Proof. lia. Qed.

Lemma rbits_left r : 0 <= r < 8 ->
  let b := Z.shiftr r (ROUND_BITS - 1) in
  let r' := Z.lor (Z.land (Z.shiftl r 1) (MASKR ROUND_BITS)) (Z.land r 1) in
  bit b /\ 0 <= r' < 8 /\ 8 * b + r' = 2 * r + r mod 2.
Proof.
  intros Hr.
  destruct (rbits_cases r Hr) as [->|[->|[->|[->|[->|[->|[->| ->]]]]]]];
    (split; [first [left; reflexivity|right; reflexivity]|vm_compute; repeat split; congruence]).
Qed.

Lemma rbits_right r b : 0 <= r < 8 -> bit b ->
  let r' := Z.lor (Z.lor (Z.shiftr r 1) (Z.land r 1)) (Z.shiftl b (ROUND_BITS - 1)) in
  0 <= r' < 8 /\ r' = jam_right (8 * b + r).
Proof.
  intros Hr [-> | ->]; destruct (rbits_cases r Hr) as [->|[->|[->|[->|[->|[->|[->| ->]]]]]]]; vm_compute; repeat split; congruence.
Qed.

Lemma jam_right_add k v : jam_right (16 * k + v) = 8 * k + jam_right v.
Proof.
  destruct (jam_right_cases v) as (h & Hh). destruct (jam_right_cases (16 * k + v)) as (g & Hg).
  destruct (odd_half h) as (i & Hi), (odd_half g) as (j & Hj).
  destruct Hh as [[Hv Hjv]|[(Hv & Ho & Hjv)|(Hv & Ho & Hjv)]], Hg as [[Hw Hjw]|[(Hw & Ho' & Hjw)|(Hw & Ho' & Hjw)]];
    rewrite ?Ho in Hi; rewrite ?Ho' in Hj; cbn [b2z] in *; lia.
Qed.

Lemma jam_left_add k v : jam_left (8 * k + v) = 16 * k + jam_left v.
Proof.
  unfold jam_left. replace (8 * k + v) with (v + (4 * k) * 2) by lia. rewrite Z.mod_add by lia. lia.
Qed.

(** One shift to the left and one to the right *)
Lemma left_step expo rbits c :
  valid (mkNorm expo 0 rbits c) ->
  let s' := mkNorm (expo - 1) (top_bit (c_bits F) c 0)
                   (Z.lor (Z.land (Z.shiftl rbits 1) (MASKR ROUND_BITS)) (Z.land rbits 1))
                   (or_low (SHLEFTIEEE (c_bits F) c 0) (Z.shiftr rbits (ROUND_BITS - 1))) in
  valid s' /\ bit (n_lbits s') /\ nval s' = jam_left (nval (mkNorm expo 0 rbits c)).
Proof.
  intros (Hc & Hr & Hl). cbn [n_coeff n_rbits n_lbits] in *. cbn zeta.
  destruct (rbits_left rbits Hr) as (Hb & Hr' & He). rewrite (or_low_shleft F) by done.
  destruct (shleft_cval F c _ Hc Hb) as (Hc' & Ht & Hv). unfold valid, nval, sig. cbn [n_coeff n_rbits n_lbits].
  split_and!; [done|apply Hr'|apply Hr'|unfold bit in Ht; lia|done|].
  rewrite Z.mul_0_l, Z.add_0_l. replace (cval c * 8 + rbits) with (8 * cval c + rbits) by lia.
  rewrite jam_left_add. unfold jam_left. lia.
Qed.

Lemma shift_right_value lbits c : coefficient c -> 0 <= lbits ->
  coefficient (shift_right F lbits c) /\ low_bit c = (lbits * 2 ^ C + cval c) mod 2 /\
  Z.shiftr lbits 1 * 2 ^ C + cval (shift_right F lbits c) = (lbits * 2 ^ C + cval c) / 2.
Proof.
  intros Hc Hl. unfold shift_right. rewrite (or_top_shright F) by done.
  destruct (shright_cval F c lbits Hc Hl) as [Hc' Hv]. pose proof (pow_C_pos F).
  rewrite (low_bit_cval F) by done. rewrite Z.shiftr_div_pow2 by lia. change (2 ^ 1) with 2.
  pose proof (C_large F) as HC. unfold ROUND_BITS in HC. pose proof (pow2_half C ltac:(lia)) as Hp.
  assert ((lbits * 2 ^ C + cval c) mod 2 = cval c mod 2) as ->.
  { replace (lbits * 2 ^ C + cval c) with (cval c + lbits * 2 ^ (C - 1) * 2) by lia. by rewrite Z.mod_add by lia. }
  split_and!; [done|done|]. apply (Z.div_unique _ _ _ (cval c mod 2)); [left; apply Z.mod_pos_bound; lia|].
  pose proof (Z.div_mod lbits 2 ltac:(lia)). nia.
Qed.

Lemma right_step expo lbits rbits c :
  valid (mkNorm expo lbits rbits c) ->
  let s' := mkNorm (expo + 1) (Z.shiftr lbits 1)
                   (Z.lor (Z.lor (Z.shiftr rbits 1) (Z.land rbits 1)) (Z.shiftl (low_bit c) (ROUND_BITS - 1)))
                   (shift_right F lbits c) in
  valid s' /\ nval s' = jam_right (nval (mkNorm expo lbits rbits c)).
Proof.
  intros (Hc & Hr & Hl). cbn [n_coeff n_rbits n_lbits] in *. cbn zeta.
  destruct (shift_right_value lbits c Hc Hl) as (Hc' & -> & Hv). set (S := lbits * 2 ^ C + cval c) in *.
  pose proof (Z.mod_pos_bound S 2 ltac:(lia)). pose proof (Z.div_mod S 2 ltac:(lia)).
  destruct (rbits_right rbits (S mod 2) Hr ltac:(unfold bit; lia)) as (Hr' & He).
  unfold valid, nval, sig. cbn [n_coeff n_rbits n_lbits]. fold S. rewrite Hv.
  split_and!; [done|apply Hr'|apply Hr'|apply Z.shiftr_nonneg; lia|].
  rewrite He. replace (S * 8 + rbits) with (16 * (S / 2) + (8 * (S mod 2) + rbits)) by lia.
  rewrite jam_right_add. lia.
Qed.

(** ** The magnitude at an exponent: units are [2 ^ (expo - 1)] for a positive
    exponent and [2 ^ expo] for the others. *)
Definition num (E N : Z) : Z := N * 2 ^ Z.max 0 (- E).
Definition den (E D : Z) : Z := D * 2 ^ Z.max 0 (E - 1).

Lemma den_pos E D : 0 < D -> 0 < den E D.
Proof. intros. unfold den. apply Z.mul_pos_pos; [done|apply Z.pow_pos_nonneg; lia]. Qed.

Lemma scale_left E N D : 1 < E -> num E N = num (E - 1) N /\ den E D = 2 * den (E - 1) D.
Proof.
  intros HE. unfold num, den. rewrite !(Z.max_l 0 (- _)), !(Z.max_r 0) by lia. split; [done|].
  rewrite (pow2_half (E - 1)) by lia. lia.
Qed.

Lemma scale_right E N D : E < 0 -> num E N = 2 * num (E + 1) N /\ den E D = den (E + 1) D.
Proof.
  intros HE. unfold num, den. rewrite !(Z.max_r 0 (- _)), !(Z.max_l 0) by lia. split; [|done].
  rewrite (pow2_half (- E)) by lia. replace (- (E + 1)) with (- E - 1) by lia. lia.
Qed.

Lemma decides_scale k V N D : 0 < k -> decides V (k * N) (k * D) -> decides V N D.
Proof.
  intros Hk [HV|(w & Hw & HV)]; [left; unfold exact_for in *; nia|right; exists w; split; [done|nia]].
Qed.

Lemma lbits_sig s : valid s -> n_lbits s = nval s / 2 ^ (C + 3) /\ 0 <= nval s.
Proof.
  intros (Hc & Hr & Hl). unfold nval, sig. pose proof (cval_range F _ Hc). pose proof (pow_C_pos F). pose proof (C_large F) as HC.
  unfold ROUND_BITS in HC. split; [|nia]. rewrite Z.pow_add_r by lia. change (2 ^ 3) with 8.
  apply (Z.div_unique _ _ _ (cval (n_coeff s) * 8 + n_rbits s)); [left; lia|lia].
Qed.

Lemma lbits_le s k : valid s -> (k <= n_lbits s <-> k * 2 ^ (C + 3) <= nval s).
Proof.
  intros Hs. destruct (lbits_sig s Hs) as [-> Hn]. pose proof (C_large F) as HC. unfold ROUND_BITS in HC.
  pose proof (Z.pow_pos_nonneg 2 (C + 3) ltac:(lia) ltac:(lia)). pose proof (Z.div_mod (nval s) (2 ^ (C + 3)) ltac:(lia)).
  pose proof (Z.mod_pos_bound (nval s) (2 ^ (C + 3)) ltac:(lia)). nia.
Qed.

(** ** The loop to the left *)
Definition ready_left (s : norm_state) (N D : Z) : Prop :=
  (n_lbits s = 0 -> 1 < n_expo s ->
   (nval s mod 2 = 0 /\ exact_for (nval s) (8 * num (n_expo s) N) (den (n_expo s) D)) \/
   (sticky (nval s) (8 * num (n_expo s) N) (den (n_expo s) D) /\ (n_expo s <= 2 \/ 2 ^ (C + 2) <= nval s))).

Definition normalized (s : norm_state) : Prop := n_lbits s <> 0 \/ n_expo s <= 1.

Lemma normalize_left_done fuel s : normalized s -> normalize_left F fuel s = Ok s.
Proof.
  destruct s as [E l r c]. intros Hd. unfold normalized in Hd. cbn [n_lbits n_expo] in Hd.
  destruct fuel; cbn [normalize_left]; replace ((E >? 1) && (l =? 0)) with false; try done;
    symmetry; apply andb_false_iff; rewrite Z.gtb_ltb, Z.ltb_ge, Z.eqb_neq; lia.
Qed.

Definition decided (s : norm_state) (N D : Z) : Prop :=
  decides (nval s) (8 * num (n_expo s) N) (den (n_expo s) D).

Lemma exact_left_scaled E V N D :
  1 < E -> V mod 2 = 0 -> exact_for V (8 * num E N) (den E D) ->
  jam_left V mod 2 = 0 /\ exact_for (jam_left V) (8 * num (E - 1) N) (den (E - 1) D).
Proof.
  intros HE Hm HV. destruct (scale_left E N D HE) as [Hn Hd]. rewrite Hn, Hd in HV.
  destruct (exact_left V _ _ Hm HV) as [Hm' HV']. split; [done|]. unfold exact_for in *. lia.
Qed.

Lemma normalize_left_ok fuel s N D :
  0 < D -> valid s -> n_expo s <= Z.of_nat fuel -> ready_left s N D ->
  (normalized s -> decided s N D) ->
  exists s', normalize_left F fuel s = Ok s' /\ valid s' /\ normalized s' /\ decided s' N D /\
    (normalized s -> s' = s) /\ (~ normalized s -> 1 <= n_expo s' /\ n_lbits s' <= 1).
Proof.
  intros HD. revert s. induction fuel as [|fuel IH]; intros s Hs Hf Hr Hdec;
    (destruct (decide (n_lbits s <> 0 \/ n_expo s <= 1)) as [Hd|Hd];
     [exists s; rewrite normalize_left_done by done; split_and!; by auto|]).
  { lia. }
  destruct s as [E l r c]. cbn [n_lbits n_expo] in *. assert (l = 0) as -> by lia.
  cbn [normalize_left]. replace ((E >? 1) && (0 =? 0)) with true by (symmetry; apply andb_true_iff; split; [apply Z.gtb_lt|]; lia).
  destruct (left_step E r c Hs) as (Hs' & Hb & Hv). 
  lazymatch goal with |- context [normalize_left F fuel ?x] => set (s' := x) in * end.
  specialize (Hr ltac:(done) ltac:(cbn [n_expo]; lia)). cbn [n_expo] in Hr.
  assert (HE : n_expo s' = E - 1) by done.
  destruct (IH s' Hs') as (s2 & -> & ? & ? & ? & Heq & Hne).
  - rewrite HE. lia.
  - intros Hl HE1. rewrite HE, Hv in *. destruct Hr as [(Hm & He)|(Hst & [?|Hlarge])]; [left|lia|].
    + apply exact_left_scaled; [lia|done|done].
    + exfalso. assert (1 <= n_lbits s'); [|lia]. apply (lbits_le s' 1 Hs'). rewrite Hv. unfold jam_left.
      pose proof (Z.mod_pos_bound (nval (mkNorm E 0 r c)) 2). replace (C + 3) with (1 + (C + 2)) by lia.
      pose proof (C_large F) as HC. unfold ROUND_BITS in HC. rewrite Z.pow_add_r by lia. lia.
  - intros _. unfold decided. rewrite HE, Hv. destruct Hr as [(Hm & He)|(Hst & _)].
    + left. apply exact_left_scaled; [lia|done|done].
    + destruct (scale_left E N D ltac:(lia)) as [Hn Hdn]. rewrite Hn, Hdn in Hst.
      pose proof (den_pos (E - 1) D HD).
      apply (decides_scale 2); [lia|]. replace (2 * (8 * num (E - 1) N)) with (2 * (8 * num (E - 1) N)) by lia.
      apply decides_left; [lia|done].
  - exists s2. split_and!; try done; intros _; cbn [n_lbits n_expo] in *.
    destruct (decide (n_lbits s' <> 0 \/ n_expo s' <= 1)) as [Hn|Hn]; [|by apply Hne].
    rewrite (Heq Hn), HE. unfold bit in Hb. lia.
Qed.

(** ** The loop to the right *)
Lemma jam_right_div V : 0 <= V -> jam_right V / 8 = V / 16 /\ 0 <= jam_right V.
Proof.
  intros HV. destruct (jam_right_cases V) as (h & Hh). destruct (odd_half h) as (k & Hk).
  replace 16 with (2 * 8) by lia. rewrite <- Z.div_div by lia.
  destruct Hh as [[-> ->]|[(-> & Ho & ->)|(-> & Ho & ->)]]; rewrite ?Ho in Hk; cbn [b2z] in Hk.
  - rewrite (Z.mul_comm 2 h), Z.div_mul by lia. split; lia.
  - replace (2 * h + 1) with (1 + h * 2) by lia. rewrite Z.div_add by lia. split; [done|lia].
  - replace (2 * h + 1) with (1 + h * 2) by lia. rewrite Z.div_add by lia. subst h.
    change (1 / 2) with 0. rewrite Z.add_0_r, Z.add_0_l. replace 8 with (2 * 4) by lia. rewrite <- !Z.div_div by lia.
    replace (2 * k + 1) with (1 + k * 2) by lia. rewrite Z.div_add, (Z.mul_comm 2 k), Z.div_mul by lia. split; [done|lia].
Qed.

(** The magnitude fits: a result that was shifted down to the least exponent
    does not carry out of the significand. *)
Definition in_range_right (s : norm_state) : Prop :=
  (1 <= n_expo s -> 1 <= n_lbits s) /\
  (n_expo s = 0 -> nval s / 8 < 2 ^ (C + 1) - 1) /\
  (n_expo s < 0 -> nval s / 16 < 2 ^ (C + 1) - 1).

Lemma decided_right s s' N D :
  0 < D -> n_expo s <> 0 -> n_expo s' = n_expo s + 1 -> nval s' = jam_right (nval s) ->
  decided s N D -> decided s' N D.
Proof.
  intros HD H0 HE Hv Hd. unfold decided in *. rewrite HE, Hv.
  pose proof (decides_right _ _ _ (den_pos (n_expo s) D HD) Hd) as Hr. destruct (Z.lt_ge_cases (n_expo s) 0).
  - destruct (scale_right (n_expo s) N D ltac:(lia)) as [Hn Hdn]. rewrite Hn, Hdn in Hr.
    apply (decides_scale 2); [lia|]. by replace (2 * (8 * num (n_expo s + 1) N)) with (8 * (2 * num (n_expo s + 1) N)) by lia.
  - destruct (scale_left (n_expo s + 1) N D ltac:(lia)) as [Hn Hdn].
    replace (n_expo s + 1 - 1) with (n_expo s) in * by lia. by rewrite Hn, Hdn.
Qed.

Lemma in_range_right_step s s' :
  valid s -> valid s' -> n_expo s' = n_expo s + 1 -> nval s' = jam_right (nval s) -> n_lbits s' = Z.shiftr (n_lbits s) 1 ->
  n_lbits s > 1 \/ n_expo s < 0 -> in_range_right s -> in_range_right s'.
Proof.
  intros Hs Hs' HE Hv Hl Hcond (H1 & H0 & Hneg). pose proof (C_large F) as HC. unfold ROUND_BITS in HC.
  destruct (lbits_sig s Hs) as [Hls Hn]. destruct (jam_right_div (nval s) Hn) as [Hj Hj0].
  rewrite Z.shiftr_div_pow2 in Hl by lia. change (2 ^ 1) with 2 in Hl. destruct Hs as (_ & _ & Hl0). unfold in_range_right. rewrite HE, Hv, Hl.
  pose proof (Z.div_mod (n_lbits s) 2 ltac:(lia)). pose proof (Z.mod_pos_bound (n_lbits s) 2 ltac:(lia)).
  split_and!; [|lia|].
  - intros. destruct (decide (n_expo s = 0)) as [Hz|]; [|lia]. exfalso.
    specialize (H0 Hz). assert (2 <= n_lbits s) as Hl2 by lia. rewrite Z.pow_add_r in H0 by lia.
    pose proof (Z.div_mod (nval s) 8 ltac:(lia)). pose proof (Z.mod_pos_bound (nval s) 8 ltac:(lia)).
    pose proof (Z.div_mod (nval s) (2 ^ (C + 3)) ltac:(lia)). pose proof (Z.mod_pos_bound (nval s) (2 ^ (C + 3)) ltac:(lia)).
    rewrite Z.pow_add_r in * by lia. nia.
  - intros. specialize (Hneg ltac:(lia)). replace 16 with (8 * 2) by lia. rewrite <- Z.div_div, Hj by lia.
    pose proof (Z.div_pos (nval s) 16 Hn ltac:(lia)). pose proof (Z.div_mod (nval s / 16) 2 ltac:(lia)).
    pose proof (Z.mod_pos_bound (nval s / 16) 2 ltac:(lia)). lia.
Qed.

Lemma normalize_right_ok fuel s N D :
  0 < D -> valid s -> decided s N D -> in_range_right s ->
  Z.max 0 (- n_expo s) + Z.log2 (n_lbits s) <= Z.of_nat fuel ->
  exists s', normalize_right F fuel s = Ok s' /\ valid s' /\ decided s' N D /\ in_range_right s' /\
    n_lbits s' <= 1 /\ 0 <= n_expo s'.
Proof.
  intros HD. revert s. induction fuel as [|fuel IH]; intros s Hs Hd Hr Hf;
    (destruct (decide (n_lbits s > 1 \/ n_expo s < 0)) as [Hc|Hc];
     [|exists s; split_and!; try done; try lia; destruct s as [E l r c]; cbn [n_lbits n_expo normalize_right] in *;
       replace ((l >? 1) || (E <? 0)) with false; [done|]; symmetry; apply orb_false_iff; rewrite Z.gtb_ltb, !Z.ltb_ge; lia]).
  - exfalso. pose proof (Z.log2_nonneg (n_lbits s)). destruct (decide (n_expo s < 0)); [lia|].
    pose proof (Z.log2_le_mono 2 (n_lbits s) ltac:(lia)) as Hl. change (Z.log2 2) with 1 in Hl. lia.
  - destruct s as [E l r c]. cbn [n_lbits n_expo] in *. cbn [normalize_right].
    replace ((l >? 1) || (E <? 0)) with true by (symmetry; apply orb_true_iff; rewrite Z.gtb_lt, Z.ltb_lt; lia).
    destruct (right_step E l r c Hs) as (Hs' & Hv).
    lazymatch goal with |- context [normalize_right F fuel ?x] => set (s' := x) in * end.
    apply IH; [done|..].
    + apply (decided_right (mkNorm E l r c)); try done. cbn [n_expo]. intros ->.
      destruct Hr as (_ & H0 & _). specialize (H0 eq_refl). pose proof (proj1 (lbits_le _ 2 Hs) ltac:(cbn [n_lbits]; lia)).
      pose proof (C_large F) as HC. unfold ROUND_BITS in HC. rewrite !Z.pow_add_r in * by lia.
      pose proof (Z.div_mod (nval (mkNorm 0 l r c)) 8 ltac:(lia)). pose proof (Z.mod_pos_bound (nval (mkNorm 0 l r c)) 8 ltac:(lia)). lia.
    + by apply (in_range_right_step (mkNorm E l r c)).
    + unfold s'. cbn [n_lbits n_expo]. destruct Hs as (_ & _ & Hl0). cbn [n_lbits] in Hl0.
      destruct (decide (l = 0)) as [->|]; [rewrite Z.shiftr_0_l; change (Z.log2 0) with 0 in *; lia|].
      rewrite Z.log2_shiftr by lia. pose proof (Z.log2_nonneg l).
      assert (l > 1 -> 1 <= Z.log2 l) by (intros; change 1 with (Z.log2 2); apply Z.log2_le_mono; lia). lia.
Qed.

End Norm.
