(* ===== verification/IeeeResult.v ===== *)
(** The result of [ar_inorm]: the number and the status of the reference. *)
From Stdlib Require Import ZArith Lia Bool.
From stdpp Require Import prelude list.
From S2P Require Import Prelude ArData IeeeData IeeeFields IeeeOps IeeeRound IeeeNorm.

(** Rounding upwards and downwards is right for magnitudes that are not
    representable, and for representable ones of one sign only. *)
Definition mode_sound (mode : round_mode) (negative inexact : bool) : bool :=
  match mode with
  | AR_ROUND_PLUS_INFINITY => inexact || negb negative
  | AR_ROUND_MINUS_INFINITY => inexact || negative
  | _ => true
  end.

Definition is_nearest_or_zero (mode : round_mode) : bool :=
  match mode with AR_ROUND_NEAREST | AR_ROUND_ZERO => true | _ => false end.

Section Result.
Context (F : Format).

(** [expo] and [coeff] as one number; it orders the magnitudes. *)
Definition packed (x : AR_IEEE) : Z := expo x * 2 ^ coeff_bits F + fval (c_bits F) (coeff x).
Definition inf_packed : Z := (max_expo F + 1) * 2 ^ coeff_bits F.
Definition well_formed_ieee (x : AR_IEEE) : Prop := fields (c_bits F) (coeff x) /\ 0 <= expo x <= max_expo F + 1.

(** The reference for an operation whose exact result has the sign [negative]
    and the magnitude [N / D], in units of the least denormal: a number too
    large for the format is infinity. *)
Definition ref_packed (mode : round_mode) (negative : bool) (N D : Z) : Z :=
  Z.min inf_packed (round_packed (coeff_bits F) mode negative N D).

Definition ref_status (mode : round_mode) (negative : bool) (N D : Z) : Z :=
  let p := round_packed (coeff_bits F) mode negative N D in
  let s := if negative then AR_STAT_NEGATIVE else AR_STAT_OK in
  if N =? 0 then Z.lor s AR_STAT_ZERO
  else
    let s := if p =? 0 then Z.lor s (Z.lor AR_STAT_ZERO AR_STAT_UNDERFLOW) else s in
    if inf_packed <=? p then Z.lor s AR_STAT_OVERFLOW
    else if round_inexact (coeff_bits F) N D then Z.lor s AR_STAT_INEXACT else s.

(** [r] is the result and, if [flags], [s] is the status that the reference gives. *)
Definition rounds_to (flags : bool) (mode : round_mode) (negative : bool) (N D : Z) (s : Z) (r : AR_IEEE) : Prop :=
  well_formed_ieee r /\ sign r = negative /\ packed r = ref_packed mode negative N D /\
  (flags = true -> s = ref_status mode negative N D).

Definition correctly_rounded (mode : round_mode) : bool -> Z -> Z -> Z -> AR_IEEE -> Prop :=
  rounds_to (is_nearest_or_zero mode) mode.

End Result.

Section Proofs.
Context (F : Format) `{!GoodFormat F} `{FpState}.

Local Abbreviation C := (C F).
Local Abbreviation cval := (cval F).
Local Abbreviation coefficient := (coefficient F).
Local Abbreviation sig := (sig F).
Local Abbreviation nval := (nval F).
Local Abbreviation valid := (valid F).
Local Abbreviation decided := (decided F).

Lemma pow_C_split : 2 ^ C = 2 * 2 ^ (C - 1) /\ 0 < 2 ^ (C - 1).
Proof. pose proof (C_large F) as HC. unfold ROUND_BITS in HC. split; [apply pow2_half; lia|apply Z.pow_pos_nonneg; lia]. Qed.

Lemma nval_split s : valid s -> nval s / 8 = sig s /\ nval s mod 8 = n_rbits s.
Proof.
  intros (_ & Hr & _). unfold IeeeNorm.nval. replace (sig s * 8 + n_rbits s) with (n_rbits s + sig s * 8) by lia.
  rewrite Z.div_add, Z.mod_add, Z.div_small, Z.mod_small by lia. lia.
Qed.

Lemma sig_low_bit s : valid s -> low_bit (n_coeff s) = b2z (Z.odd (sig s)).
Proof.
  intros (Hc & _ & _). rewrite (low_bit_cval F) by done. unfold IeeeNorm.sig. destruct pow_C_split as [-> _].
  replace (n_lbits s * (2 * 2 ^ (C - 1)) + cval (n_coeff s)) with (cval (n_coeff s) + 2 * (n_lbits s * 2 ^ (C - 1))) by lia.
  rewrite Z.odd_add_mul_2, Zmod_odd. unfold b2z. by destruct (Z.odd _).
Qed.

(** The decision of the code is the one of the reference. *)
Lemma round_up_ok mode neg s N D :
  valid s -> 0 < D -> decides (nval s) (8 * N) D ->
  mode_sound mode neg (negb (n_rbits s =? 0)) = true ->
  N / D = sig s /\ (n_rbits s =? 0) = (N mod D =? 0) /\
  round_div mode neg N D = sig s + b2z (round_up mode neg (n_rbits s) (n_coeff s)).
Proof.
  intros Hs HD Hd Hm. destruct (lbits_sig F s Hs) as [_ Hn]. destruct (nval_split s Hs) as [Hq Hr].
  destruct (decides_round _ _ _ HD Hn Hd) as (Hdiv & Hz & Hgt & Heq). rewrite Hr in *. rewrite Hq in Hdiv.
  split; [done|]. split; [done|]. unfold round_div. rewrite Hdiv, <- Hz, <- Hgt, <- Heq. unfold round_up.
  pose proof (sig_low_bit s Hs) as Hlow. destruct Hs as (_ & Hrb & _).
  destruct mode; cbn [mode_sound] in Hm.
  - rewrite Hlow. destruct (rbits_cases _ Hrb) as [->|[->|[->|[->|[->|[->|[->| ->]]]]]]]; 
      destruct (Z.odd (sig s));
        lazymatch goal with |- context [b2z (if ?a then ?b else ?c)] =>
          let v := eval vm_compute in (if a then b else c) in change (if a then b else c) with v end; cbn; lia.
  - destruct neg, (n_rbits s =? 0); cbn in *; try done; lia.
  - destruct neg, (n_rbits s =? 0); cbn in *; try done; lia.
  - cbn. lia.
Qed.

Lemma ulp_expo_ok e S N D :
  0 < D -> 0 <= e -> N / (D * 2 ^ e) = S -> (0 < e -> 2 ^ C <= S) -> S < 2 ^ (C + 1) -> ulp_expo C N D = e.
Proof.
  intros HD He HS Hlow Hhigh. unfold ulp_expo. pose proof (C_large F) as HC. unfold ROUND_BITS in HC.
  rewrite <- Z.div_div in HS by lia. assert (0 < 2 ^ e) by (apply Z.pow_pos_nonneg; lia).
  pose proof (Z.div_mod (N / D) (2 ^ e) ltac:(lia)). pose proof (Z.mod_pos_bound (N / D) (2 ^ e) ltac:(lia)).
  destruct (decide (e = 0)) as [->|].
  - change (2 ^ 0) with 1 in *. rewrite Z.div_1_r in HS. destruct (decide (N / D <= 0)).
    + rewrite Z.log2_nonpos by done. lia.
    + assert (Z.log2 (N / D) < C + 1); [|lia]. apply Z.log2_lt_pow2; lia.
  - specialize (Hlow ltac:(lia)). rewrite Z.pow_add_r in Hhigh by lia. change (2 ^ 1) with 2 in Hhigh.
    rewrite (Z.log2_unique' (N / D) (C + e) (N / D - 2 ^ (C + e))); [lia|lia| |lia].
    rewrite Z.pow_add_r by lia. nia.
Qed.

(** A normalised state: the exponent is that of the reference. *)
Lemma normalized_expo s N D :
  0 < D -> valid s -> decided s N D -> in_range_right F s -> n_lbits s <= 1 -> 0 <= n_expo s ->
  ulp_expo C N D = Z.max 0 (n_expo s - 1) /\ num (n_expo s) N = N /\
  den (n_expo s) D = D * 2 ^ ulp_expo C N D /\ 0 <= sig s < 2 ^ (C + 1) /\ (1 <= n_expo s -> 2 ^ C <= sig s).
Proof.
  intros HD Hs Hd Hr Hl HE. destruct (lbits_sig F s Hs) as [_ Hn].
  destruct (decides_round _ _ _ (den_pos (n_expo s) D HD) Hn Hd) as (Hdiv & _). rewrite (proj1 (nval_split s Hs)) in Hdiv.
  destruct Hs as (Hc & _ & Hl0). pose proof (cval_range F _ Hc). pose proof (C_large F) as HC. unfold ROUND_BITS in HC.
  destruct Hr as (H1 & _ & _). assert (num (n_expo s) N = N) as Hnum.
  { unfold num. rewrite Z.max_l by lia. change (2 ^ 0) with 1. lia. }
  rewrite Hnum in Hdiv. assert (0 <= sig s < 2 ^ (C + 1)).
  { unfold IeeeNorm.sig. rewrite Z.pow_add_r by lia. change (2 ^ 1) with 2. nia. }
  assert (1 <= n_expo s -> 2 ^ C <= sig s).
  { intros H1'. specialize (H1 H1'). unfold IeeeNorm.sig. nia. }
  assert (ulp_expo C N D = Z.max 0 (n_expo s - 1)) as ->; [|auto].
  apply (ulp_expo_ok _ (sig s)); [done|lia|done|intros; lia|lia].
Qed.

(** ** Rounding *)
Definition rounded (s : norm_state) (p : Z) : Prop :=
  coefficient (n_coeff s) /\ packed F (mkIeee false (n_expo s) (n_coeff s)) = p /\
  (n_lbits s = 0 /\ n_expo s = 0 \/ n_lbits s = 1 /\ 1 <= n_expo s).

Lemma norm_round_ok mode neg s N D :
  0 < D -> valid s -> decided s N D -> in_range_right F s -> n_lbits s <= 1 -> 0 <= n_expo s ->
  mode_sound mode neg (round_inexact C N D) = true ->
  let s' := norm_round F neg mode s in
  rounded s' (round_packed C mode neg N D) /\
  (is_nearest_or_zero mode = true -> negb (n_rbits s' =? 0) = round_inexact C N D).
Proof.
  intros HD Hs Hd Hr Hl HE Hm. destruct (normalized_expo s N D HD Hs Hd Hr Hl HE) as (He & Hnum & Hden & Hsig & Hsig1).
  unfold IeeeNorm.decided in Hd. rewrite Hnum, Hden in Hd. unfold round_inexact in *.
  assert (0 < D * 2 ^ ulp_expo C N D) as HD' by (rewrite <- Hden; by apply den_pos).
  destruct (lbits_sig F s Hs) as [_ Hn]. destruct (decides_round _ _ _ HD' Hn Hd) as (_ & Hz & _ & _).
  rewrite (proj2 (nval_split s Hs)) in Hz. rewrite <- Hz in Hm |- *.
  destruct (round_up_ok mode neg s _ _ Hs HD' Hd Hm) as (_ & _ & Hround). unfold round_packed. rewrite Hround, He.
  set (up := round_up mode neg (n_rbits s) (n_coeff s)) in *.
  assert (Hup : is_nearest_or_zero mode = true -> up = true -> 4 <= n_rbits s).
  { unfold up, round_up. destruct mode; try done. intros _. destruct Hs as (_ & Hrb & _).
    destruct (rbits_cases _ Hrb) as [->|[->|[->|[->|[->|[->|[->| ->]]]]]]]; try lia; cbv; done. }
  destruct Hr as (_ & H0 & _). rewrite (proj1 (nval_split s Hs)) in H0.
  destruct Hs as (Hc & Hrb & Hl0). destruct s as [E l r c]. cbn [n_expo n_lbits n_rbits n_coeff] in *.
  unfold IeeeNorm.sig in *. cbn [n_lbits n_coeff] in *. cbn [norm_round]. fold up.
  pose proof (C_large F) as HC. unfold ROUND_BITS in HC. rewrite Z.pow_add_r in * by lia. change (2 ^ 1) with 2 in *.
  assert (exists l' c', (if up then let '(carry, c) := INCIEEE (c_bits F) 1 c in (l + carry, c) else (l, c)) = (l', c') /\
            coefficient c' /\ l' * 2 ^ C + cval c' = l * 2 ^ C + cval c + b2z up) as (l' & c' & -> & Hc' & Hv').
  { destruct up; [|exists l, c; cbn [b2z]; split_and!; [done|done|lia]].
    destruct (inc_cval F 1 c Hc) as [Hc' Hv]. destruct (INCIEEE (c_bits F) 1 c) as [k c']. cbn [fst snd] in *.
    exists (l + k), c'. cbn [b2z]. split_and!; [done|done|lia]. }
  assert (0 <= b2z up <= 1) as Hb by (destruct up; cbn; lia). pose proof (cval_range F _ Hc'). pose proof (cval_range F _ Hc).
  unfold rounded, packed. fold C. unfold IeeeFields.cval in *.
  destruct (Z.gtb_spec l' 1) as [Hl'|Hl']; [|destruct (Z.eqb_spec l' 0) as [->|Hl'0]]; cbn [negb n_expo n_lbits n_rbits n_coeff expo coeff].
  - destruct (shift_right_value F l' c' Hc' ltac:(lia)) as (Hc2 & Hlow & Hv2). unfold IeeeFields.cval in *. rewrite Hv' in *.
    assert (l * 2 ^ C + fval (c_bits F) c + b2z up = 2 * 2 ^ C) as Hfull by nia. rewrite Hfull in *.
    rewrite (Z.mul_comm 2), Z.div_mul in Hv2 by lia. rewrite (Z.mul_comm 2), Z.mod_mul in Hlow by lia. rewrite Hlow.
    assert (l' = 2) as -> by nia. change (Z.shiftr 2 1) with 1 in *. cbn [Z.shiftl Z.shiftl Pos.iter]. split.
    + split_and!; [done|nia|right; split; [done|lia]].
    + intros Hmode. assert (up = true) as Hu by (destruct up; [done|cbn [b2z] in *; lia]). specialize (Hup Hmode Hu).
      destruct (rbits_cases _ Hrb) as [->|[->|[->|[->|[->|[->|[->| ->]]]]]]]; done || lia.
  - split; [|done]. split_and!; [done|nia|by left].
  - assert (l' = 1) as -> by nia. split; [|done].
    split_and!; [done| |right; split; [done|destruct (Z.eqb_spec E 0); lia]]. destruct (Z.eqb_spec E 0); nia.
Qed.
Lemma round_packed_0 mode neg D : 0 < D -> round_packed C mode neg 0 D = 0.
Proof.
  intros HD. pose proof (C_large F) as HC. unfold ROUND_BITS in HC. unfold round_packed, ulp_expo, round_div.
  rewrite Z.div_0_l by lia. change (Z.log2 0) with 0. rewrite Z.max_l by lia. change (2 ^ 0) with 1.
  rewrite Z.mul_1_r, Z.div_0_l, Z.mod_0_l, Z.mul_0_r, (proj2 (Z.ltb_ge D 0)), (proj2 (Z.eqb_neq 0 D)) by lia.
  by destruct mode, neg.
Qed.

Lemma inf_packed_pos : 0 < inf_packed F.
Proof. unfold inf_packed. fold C. pose proof (pow_C_pos F). destruct (good_bias (F := F)). nia. Qed.

(** ** Packaging *)
Lemma norm_package_ok mode neg s N D :
  ar_underflow_mode = AR_UNDERFLOW_TO_DENORM -> N <> 0 ->
  rounded s (round_packed C mode neg N D) ->
  (is_nearest_or_zero mode = true -> negb (n_rbits s =? 0) = round_inexact C N D) ->
  let r := norm_package F (if neg then Z.lor AR_STAT_OK AR_STAT_NEGATIVE else AR_STAT_OK) neg s in
  correctly_rounded F mode neg N D (fst r) (snd r).
Proof.
  intros Hu HN (Hc & Hp & Hl) Hi. destruct s as [E l r c]. cbn [n_expo n_lbits n_rbits n_coeff] in *.
  unfold norm_package.
  unfold correctly_rounded, rounds_to, ref_packed, ref_status. fold C. set (p := round_packed C mode neg N D) in *.
  rewrite (proj2 (Z.eqb_neq N 0) HN). unfold packed in Hp. cbn [expo coeff] in Hp. fold C in Hp.
  pose proof (cval_range F c Hc) as Hcv. unfold IeeeFields.cval in Hcv. pose proof (pow_C_pos F).
  rewrite (nz_coeff_cval F) by done. unfold IeeeFields.cval. rewrite negb_involutive.
  assert ((l =? 0) && (fval (c_bits F) c =? 0) = (p =? 0)) as ->.
  { destruct Hl as [(-> & ->)|(-> & HE)]; cbn [andb Z.eqb]; rewrite <- Hp; [f_equal; lia|]. symmetry. apply Z.eqb_neq. nia. }
  assert ((if p =? 0 then (0, Z.lor (if neg then Z.lor AR_STAT_OK AR_STAT_NEGATIVE else AR_STAT_OK) (Z.lor AR_STAT_ZERO AR_STAT_UNDERFLOW))
           else (E, if neg then Z.lor AR_STAT_OK AR_STAT_NEGATIVE else AR_STAT_OK)) =
          (E, let s := if neg then AR_STAT_NEGATIVE else AR_STAT_OK in
              if p =? 0 then Z.lor s (Z.lor AR_STAT_ZERO AR_STAT_UNDERFLOW) else s)) as ->.
  { destruct (Z.eqb_spec p 0); [|by destruct neg]. assert (E = 0) as -> by nia. by destruct neg. }
  assert (inf_packed F <= p <-> max_expo F < E) as Hinf by (unfold inf_packed; fold C; nia).
  destruct (Z.gtb_spec E (max_expo F)) as [Hgt|Hle].
  - cbn [fst snd]. rewrite Z.min_l by (apply Hinf; done). rewrite (proj2 (Z.leb_le _ _) (proj2 Hinf Hgt)).
    destruct (zero_coeff_value F) as [Hz Hzv]. unfold IeeeFields.cval in Hzv. split_and!; try done.
    + split; [done|]. cbn [expo]. destruct (good_bias (F := F)). lia.
    + unfold packed, inf_packed. cbn [expo coeff]. rewrite Hzv. lia.
  - rewrite Hu, (bool_decide_true (_ = _)), andb_false_r by done. cbn [negb andb fst snd sign expo coeff].
    rewrite Z.min_r by (apply Z.lt_le_incl, Z.nle_gt; rewrite Hinf; lia).
    replace (inf_packed F <=? p) with false by (symmetry; apply Z.leb_gt, Z.nle_gt; rewrite Hinf; lia).
    split_and!; [|done|done|].
    + split; [done|]. cbn [expo]. lia.
    + intros Hm. by rewrite (Hi Hm).
Qed.

(** ** [ar_inorm] *)

(** What the callers establish: the arguments stand for the magnitude [N / D],
    closely enough for the shifts to the left that will follow. *)
Definition stands_for (s : norm_state) (N D : Z) : Prop :=
  valid s /\ decided s N D /\ ready_left F s N D /\
  (n_expo s < 0 -> nval s / 16 < 2 ^ (C + 1) - 1).

(** [if (expo == 1 && !lbits) expo = 0; else if (!expo && lbits) expo = 1;] *)
Lemma adjust_expo s N D :
  valid s -> decided s N D -> normalized s -> (n_expo s < 0 -> nval s / 16 < 2 ^ (C + 1) - 1) ->
  let '(mkNorm E l r c) := s in
  let s' := mkNorm (if (E =? 1) && (l =? 0) then 0 else if (E =? 0) && negb (l =? 0) then 1 else E) l r c in
  valid s' /\ decided s' N D /\ in_range_right F s'.
Proof.
  destruct s as [E l r c]. intros Hs Hd Hn H16. cbn zeta. set (E' := if _ && _ then 0 else _).
  assert (valid (mkNorm E' l r c)) as Hs' by done. split; [done|]. cbn [n_lbits n_expo] in *.
  pose proof (C_large F) as HC. unfold ROUND_BITS in HC.
  assert (l = 0 -> nval (mkNorm E l r c) / 8 < 2 ^ (C + 1) - 1) as H0.
  { intros ->. rewrite (proj1 (nval_split _ Hs)). unfold IeeeNorm.sig. cbn [n_lbits n_coeff].
    destruct Hs as (Hc & _ & _). pose proof (cval_range F _ Hc) as Hcv. cbn [n_coeff] in Hcv.
    rewrite Z.pow_add_r by lia. pose proof (pow_C_pos F). lia. }
  unfold IeeeNorm.normalized, IeeeNorm.decided, in_range_right in *. cbn [n_lbits n_expo] in *. unfold IeeeNorm.nval, IeeeNorm.sig in *.
  cbn [n_lbits n_coeff n_rbits] in *. unfold E'.
  destruct (Z.eqb_spec E 1) as [->|], (Z.eqb_spec l 0) as [->|]; cbn [andb negb]; rewrite ?andb_false_r, ?andb_true_r;
    try (destruct (Z.eqb_spec E 0) as [->|]); (split; [done|]); destruct Hs as (_ & _ & Hl0); cbn [n_lbits] in Hl0;
    split_and!; try lia; auto; done.
Qed.

Lemma decides_zero V N D : 0 < D -> decides V N D -> (V = 0 <-> N = 0).
Proof.
  intros HD [HV|(w & Hw & HV)]; [unfold exact_for in HV; split; intros; nia|]. split; intros ->; [lia|].
  assert (w < 0) by nia. assert (0 < w + 1) by nia. lia.
Qed.

Lemma num_zero E N : num E N = 0 <-> N = 0.
Proof. unfold num. pose proof (Z.pow_pos_nonneg 2 (Z.max 0 (- E)) ltac:(lia) ltac:(lia)). nia. Qed.

Lemma zero_result mode neg D c : 0 < D -> coefficient c -> cval c = 0 ->
  correctly_rounded F mode neg 0 D (signed_status neg AR_STAT_ZERO) (mkIeee neg 0 c).
Proof.
  intros HD Hc Hcv. unfold correctly_rounded, rounds_to, ref_packed, ref_status, packed. fold C.
  rewrite (round_packed_0 mode neg D HD). cbn [Z.eqb sign expo coeff]. unfold IeeeFields.cval in Hcv. rewrite Hcv.
  pose proof inf_packed_pos. rewrite Z.min_r by lia.
  split; [split; [done|cbn [expo]; destruct (good_bias (F := F)); lia]|].
  split; [done|]. split; [lia|]. intros _. by destruct neg.
Qed.

Lemma ar_inorm_ok E0 l0 r0 x mode N D :
  ar_underflow_mode = AR_UNDERFLOW_TO_DENORM -> 0 < D ->
  stands_for (mkNorm E0 l0 r0 (coeff x)) N D ->
  mode_sound mode (sign x) (round_inexact C N D) = true ->
  exists s r, ar_inorm F E0 l0 r0 x mode = Ok (s, r) /\ correctly_rounded F mode (sign x) N D s r.
Proof.
  intros Hu HD (Hs & Hd & Hrl & H16) Hm. set (s0 := mkNorm E0 l0 r0 (coeff x)) in *.
  assert (nval s0 = 0 <-> N = 0) as Hzero.
  { rewrite (decides_zero _ _ _ (den_pos _ D HD) Hd). rewrite <- (num_zero (n_expo s0) N). lia. }
  unfold ar_inorm. pose proof Hs as (Hc & Hrb & Hl0). cbn [s0 n_coeff n_rbits n_lbits] in Hc, Hrb, Hl0.
  rewrite (nz_coeff_cval F) by done. rewrite negb_involutive. pose proof (cval_range F _ Hc).
  assert ((l0 =? 0) && (cval (coeff x) =? 0) && (r0 =? 0) = (N =? 0)) as ->.
  { apply eq_bool_prop_intro. rewrite !andb_True, !Is_true_true, !Z.eqb_eq, <- Hzero. unfold IeeeNorm.nval, IeeeNorm.sig.
    cbn [s0 n_lbits n_coeff n_rbits]. pose proof (pow_C_pos F). nia. }
  destruct (Z.eqb_spec N 0) as [->|HN].
  - eexists _, _. split; [done|]. assert (cval (coeff x) = 0) as Hcv.
    { unfold IeeeNorm.nval, IeeeNorm.sig in Hzero. cbn [s0 n_lbits n_coeff n_rbits] in Hzero. pose proof (pow_C_pos F). nia. }
    by apply zero_result.
  - fold s0. destruct (normalize_left_ok F (Z.to_nat E0) s0 N D HD Hs) as (s1 & -> & Hs1 & Hn1 & Hd1 & Heq & Hne);
      [cbn [s0 n_expo]; lia|done|done|].
    assert (n_expo s1 < 0 -> nval s1 / 16 < 2 ^ (C + 1) - 1) as H161.
    { destruct (decide (n_lbits s0 <> 0 \/ n_expo s0 <= 1)) as [Hn|Hn]; [by rewrite (Heq Hn)|]. destruct (Hne Hn). lia. }
    pose proof (adjust_expo s1 N D Hs1 Hd1 Hn1 H161) as Ha. rewrite obind_ok. destruct s1 as [E l r c].
    destruct Ha as (Hs2 & Hd2 & Hr2). set (s2 := mkNorm _ l r c) in Hs2, Hd2, Hr2 |- *.
    destruct (normalize_right_ok F (Z.to_nat (Z.max 0 (- n_expo s2) + Z.log2 l)) s2 N D HD Hs2 Hd2 Hr2)
      as (s3 & He3 & Hs3 & Hd3 & Hr3 & Hl3 & HE3).
    { cbn [s2 n_lbits]. pose proof (Z.log2_nonneg l). lia. }
    cbn [s2 n_expo] in He3. rewrite He3. clear He3. rewrite obind_ok.
    destruct (norm_round_ok mode (sign x) s3 N D HD Hs3 Hd3 Hr3 Hl3 HE3 Hm) as [Hrd Hrb3].
    pose proof (norm_package_ok mode (sign x) _ N D Hu HN Hrd Hrb3) as Hp. cbn zeta in Hp.
    destruct (norm_package F _ (sign x) _) as [st r']. exists st, r'. done.
Qed.

End Proofs.
