(* ===== verification/IeeeMul.v ===== *)
(** Multiplication: the pyramid of shifted multiplicands adds up to the product
    of the significands, and the result is the correctly rounded product. *)
From Stdlib Require Import ZArith Lia Bool.
From stdpp Require Import prelude list.
From S2P Require Import Prelude ArData IeeeData IeeeFields IeeeOps IeeeRound IeeeNorm IeeeResult.

(** A fraction and its sticky bit *)
Lemma sticky_of N D V :
  0 < D -> V = (if N mod D =? 0 then N / D else Z.lor (N / D) 1) -> sticky V N D.
Proof.
  intros HD ->. pose proof (Z.div_mod N D ltac:(lia)). pose proof (Z.mod_pos_bound N D HD).
  destruct (Z.eqb_spec (N mod D) 0) as [He|Hn]; [left; unfold exact_for; lia|right]. rewrite lor_1.
  destruct (odd_half (N / D)) as (k & Hk). destruct (Z.odd (N / D)); cbn [b2z] in Hk; exists k; split; try lia; nia.
Qed.

Lemma sticky_ratio V N D N' D' : 0 < D -> 0 < D' -> N * D' = N' * D -> sticky V N D -> sticky V N' D'.
Proof.
  intros HD HD' He [HV|(w & -> & HV)]; [left; unfold exact_for in *; nia|right]. exists w. split; [done|]. split; nia.
Qed.

(** Appending the rounding bits of the low part [v] of [P] to the high part [k] *)
Lemma sticky_low k v P Q : 0 < Q -> P = v + 8 * k * Q ->
  sticky (k * 8 + (if v mod Q =? 0 then v / Q else Z.lor (v / Q) 1)) P Q.
Proof.
  intros HQ ->. apply sticky_of; [done|]. rewrite Z.div_add, Z.mod_add by lia. destruct (_ =? 0); [lia|].
  replace (v / Q + 8 * k) with (v / Q + 2 * (4 * k)) by lia.
  rewrite !lor_1, Z.odd_add_mul_2. destruct (Z.odd _); lia.
Qed.

(** An even multiple is represented exactly. *)
Lemma sticky_even V P Q k : 0 < Q -> sticky V P Q -> P = 2 * k * Q -> V = 2 * k.
Proof.
  intros HQ [HV|(w & -> & HV)] ->; [by apply Z.mul_reg_r in HV; [|lia]|].
  destruct HV as [H1 H2]. apply Z.mul_lt_mono_pos_r in H1, H2; lia.
Qed.

Section Values.
Context (F : Format).

(** Finite numbers, their significand with the implicit bit, and their
    magnitude in units of the least denormal. *)
Definition finite (x : AR_IEEE) : Prop := fields (c_bits F) (coeff x) /\ 0 <= expo x <= max_expo F.
Definition significand (x : AR_IEEE) : Z := implicit_bit x * 2 ^ coeff_bits F + fval (c_bits F) (coeff x).
Definition magnitude_ieee (x : AR_IEEE) : Z := significand x * 2 ^ (Z.max 1 (expo x) - 1).

(** The bits of the product that normalisation to the left will need are among
    the three rounding bits. *)
Definition product_kept (a b : AR_IEEE) : Prop :=
  (expo a <> 0 /\ expo b <> 0) \/
  Z.max 1 (expo a) + Z.max 1 (expo b) <= expo_bias F + 2 \/
  (significand a * significand b) mod 2 ^ (coeff_bits F - 2) = 0.

End Values.

Section Mul.
Context (F : Format) `{!GoodFormat F} `{FpState}.

Local Abbreviation C := (C F).
Local Abbreviation cval := (cval F).
Local Abbreviation coefficient := (coefficient F).

Lemma implicit_bit_cases x : 0 <= expo x -> (expo x = 0 /\ implicit_bit x = 0) \/ (0 < expo x /\ implicit_bit x = 1).
Proof. intros. unfold implicit_bit. destruct (Z.eqb_spec (expo x) 0); cbn; lia. Qed.

Lemma significand_range x : finite F x ->
  0 <= significand F x < 2 * 2 ^ C /\ (expo x <> 0 -> 2 ^ C <= significand F x) /\ 0 <= cval (coeff x) < 2 ^ C.
Proof.
  intros (Hc & He & _). unfold significand. fold C. pose proof (cval_range F _ Hc) as Hv. unfold IeeeFields.cval in *.
  destruct (implicit_bit_cases x He) as [[? ->]|[? ->]]; lia.
Qed.

(** ** The loop *)
Definition product (s : mul_state) : Z := m_lbits s * 2 ^ (2 * C) + cval (m_x s) * 2 ^ C + cval (m_x2 s).
Definition multiplicand (s : mul_state) : Z := cval (m_y s) * 2 ^ C + cval (m_y2 s).
Definition mul_valid (s : mul_state) : Prop :=
  coefficient (m_x s) /\ coefficient (m_x2 s) /\ coefficient (m_y s) /\ coefficient (m_y2 s) /\ coefficient (m_z s).

Lemma pow_2C : 2 ^ (2 * C) = 2 ^ C * 2 ^ C.
Proof. pose proof (C_large F) as HC. unfold ROUND_BITS in HC. rewrite <- Z.pow_add_r by lia. f_equal. lia. Qed.

Lemma mul_shift_ok s :
  mul_valid s ->
  mul_valid (mul_shift F s) /\ product (mul_shift F s) = product s /\
  multiplicand (mul_shift F s) = (2 * multiplicand s) mod 2 ^ (2 * C) /\ cval (m_z (mul_shift F s)) = cval (m_z s) / 2.
Proof.
  intros (Hx & Hx2 & Hy & Hy2 & Hz). destruct s as [l x x2 y y2 z]. cbn [m_lbits m_x m_x2 m_y m_y2 m_z] in *.
  destruct (shleft_cval F y2 0 Hy2 ltac:(by left)) as (Hy2' & Hb2 & Hv2).
  destruct (shleft_cval F y _ Hy Hb2) as (Hy' & Hb & Hv). destruct (shright_cval F z 0 Hz ltac:(lia)) as (Hz' & Hvz).
  unfold product, multiplicand, mul_valid. cbn [mul_shift m_lbits m_x m_x2 m_y m_y2 m_z].
  pose proof (cval_range F _ Hy2'). pose proof (cval_range F _ Hy'). rewrite Z.mod_0_l in Hvz by lia.
  split_and!; try done.
  - rewrite pow_2C. apply (Z.mod_unique _ _ (top_bit (c_bits F) y 0)); [left; nia|]. nia.
  - apply (Z.div_unique _ _ _ (cval z mod 2)); [left; apply Z.mod_pos_bound; lia|]. lia.
Qed.

Lemma mul_step_ok s :
  mul_valid s ->
  mul_valid (mul_step F s) /\ product (mul_step F s) = product s + (cval (m_z s) mod 2) * multiplicand s /\
  multiplicand (mul_step F s) = (2 * multiplicand s) mod 2 ^ (2 * C) /\ cval (m_z (mul_step F s)) = cval (m_z s) / 2.
Proof.
  intros Hs. pose proof Hs as (Hx & Hx2 & Hy & Hy2 & Hz). destruct s as [l x x2 y y2 z]. cbn [m_lbits m_x m_x2 m_y m_y2 m_z] in *.
  cbn [mul_step]. rewrite (low_bit_cval F) by done. destruct (Z.eqb_spec (cval z mod 2) 0) as [->|Hodd]; cbn [negb].
  - destruct (mul_shift_ok _ Hs) as (? & -> & -> & ->). split_and!; try done. lia.
  - assert (cval z mod 2 = 1) as -> by (pose proof (Z.mod_pos_bound (cval z) 2); lia).
    destruct (add_cval F 0 x2 y2 Hx2 Hy2) as [Hf2 Hv2]. destruct (ADDIEEE (c_bits F) 0 x2 y2) as [k x2'].
    cbn [fst snd] in *. destruct (add_cval F k x y Hx Hy) as [Hf Hv]. destruct (ADDIEEE (c_bits F) k x y) as [k' x'].
    cbn [fst snd] in *. destruct (mul_shift_ok (mkMul (l + k') x' x2' y y2 z)) as (Hs' & -> & -> & ->); [by split_and!|].
    split_and!; try done. unfold product, multiplicand. cbn [m_lbits m_x m_x2 m_y m_y2]. rewrite pow_2C. nia.
Qed.

(** After [i] shifts: [A], [B] are the significands, [t] is the product of the
    implicit bits, which the code adds in advance. *)
Definition pyramid (A B t i : Z) (s : mul_state) : Prop :=
  mul_valid s /\ product s = t * 2 ^ (2 * C) + A * (B mod 2 ^ i) /\
  multiplicand s = (A * 2 ^ i) mod 2 ^ (2 * C) /\ cval (m_z s) = B / 2 ^ i.

Lemma mod_pow_succ B i : 0 <= i -> B mod 2 ^ (i + 1) = B mod 2 ^ i + ((B / 2 ^ i) mod 2) * 2 ^ i.
Proof.
  intros Hi. rewrite Z.pow_add_r by lia. change (2 ^ 1) with 2. assert (0 < 2 ^ i) by (apply Z.pow_pos_nonneg; lia).
  rewrite Z.rem_mul_r by lia. lia.
Qed.

Lemma pyramid_step A B t i s :
  0 <= i < C -> 0 <= A < 2 * 2 ^ C -> pyramid A B t i s -> pyramid A B t (i + 1) (mul_step F s).
Proof.
  intros Hi HA (Hs & Hp & Hm & Hz). destruct (mul_step_ok s Hs) as (Hs' & Hp' & Hm' & Hz').
  assert (A * 2 ^ i < 2 ^ (2 * C) /\ 0 < 2 ^ i) as [HAi Hpi].
  { assert (2 ^ i * 2 <= 2 ^ C /\ 0 < 2 ^ i) as [? ?].
    { split; [|apply Z.pow_pos_nonneg; lia]. change 2 with (2 ^ 1) at 2.
      rewrite <- Z.pow_add_r by lia. apply Z.pow_le_mono_r; lia. }
    rewrite pow_2C. nia. }
  split; [done|]. rewrite Hp', Hm', Hz', Hp, Hm, Hz, mod_pow_succ by lia.
  rewrite (Z.mod_small (A * 2 ^ i)) by nia. rewrite (Z.pow_add_r 2 i 1) by lia. change (2 ^ 1) with 2.
  split_and!; [lia|f_equal; lia|]. by rewrite Z.div_div by lia.
Qed.

Lemma pyramid_loop A B t n s :
  0 <= A < 2 * 2 ^ C -> (Z.of_nat n < C) -> pyramid A B t 1 s -> pyramid A B t (1 + Z.of_nat n) (Nat.iter n (mul_step F) s).
Proof.
  intros HA Hn Hs. induction n as [|n IH]; [done|]. rewrite Nat2Z.inj_succ. replace (1 + Z.succ (Z.of_nat n)) with (1 + Z.of_nat n + 1) by lia.
  cbn [Nat.iter]. apply pyramid_step; [lia|done|]. apply IH. lia.
Qed.

(** The last step adds the product of the implicit bits a second time, modulo
    the width of the product: the two make up for each other. *)
Lemma pyramid_last A B ia ib s :
  bit ia -> bit ib -> ia * 2 ^ C <= A < (ia + 1) * 2 ^ C -> ib * 2 ^ C <= B < (ib + 1) * 2 ^ C ->
  pyramid A B (ia * ib) C s -> mul_valid (mul_step F s) /\ product (mul_step F s) = A * B.
Proof.
  intros Hia Hib HA HB (Hs & Hp & Hm & Hz). destruct (mul_step_ok s Hs) as (Hs' & Hp' & _ & _). split; [done|].
  pose proof (pow_C_pos F). rewrite Hp', Hp, Hm, Hz.
  assert (B / 2 ^ C = ib /\ B mod 2 ^ C = B - ib * 2 ^ C) as [-> ->].
  { split; [symmetry; apply (Z.div_unique _ _ _ (B - ib * 2 ^ C)); [left|]; lia|].
    symmetry; apply (Z.mod_unique _ _ ib); [left|]; lia. }
  assert ((A * 2 ^ C) mod 2 ^ (2 * C) = (A - ia * 2 ^ C) * 2 ^ C) as ->.
  { symmetry. apply (Z.mod_unique _ _ ia); rewrite pow_2C; [left|]; nia. }
  rewrite pow_2C. destruct Hib as [-> | ->]; [change (0 mod 2) with 0|change (1 mod 2) with 1]; nia.
Qed.

(** ** Rounding bits *)
Lemma first_field w ws c x : positive_widths (w :: ws) -> ROUND_BITS <= w -> fields (w :: ws) (c :: x) ->
  Z.shiftr c (w - ROUND_BITS) = fval (w :: ws) (c :: x) / 2 ^ (sumz (w :: ws) - ROUND_BITS) /\
  negb (Z.land c (MASKR (w - ROUND_BITS)) =? 0) || nz_coeff x =
  negb (fval (w :: ws) (c :: x) mod 2 ^ (sumz (w :: ws) - ROUND_BITS) =? 0).
Proof.
  intros Hp Hw Hf. apply Forall2_cons in Hf as [Hc Hx]. destruct (sumz_cons w ws Hp) as (? & Hws & ? & Hps & _).
  pose proof (fval_range ws x Hws Hx) as Hv. pose proof (sumz_nonneg ws Hws). cbn [fval].
  cbn [sumz foldr]. fold (sumz ws). replace (w + sumz ws - ROUND_BITS) with (sumz ws + (w - ROUND_BITS)) by lia.
  rewrite Z.pow_add_r by lia. assert (0 < 2 ^ (w - ROUND_BITS)) by (apply Z.pow_pos_nonneg; lia). split.
  - rewrite Z.shiftr_div_pow2, <- Z.div_div by lia. f_equal. rewrite Z.add_comm, Z.div_add, Z.div_small by lia. lia.
  - rewrite (nz_coeff_value ws) by done. rewrite <- negb_andb. f_equal. unfold MASKR. rewrite Z.land_ones by lia.
    rewrite Z.rem_mul_r by lia. rewrite Z.add_comm at 1.
    replace ((c * 2 ^ sumz ws + fval ws x) / 2 ^ sumz ws) with c by (rewrite Z.add_comm, Z.div_add, Z.div_small by lia; lia).
    replace ((c * 2 ^ sumz ws + fval ws x) mod 2 ^ sumz ws) with (fval ws x) by (rewrite Z.add_comm, Z.mod_add, Z.mod_small by lia; lia).
    pose proof (Z.mod_pos_bound c (2 ^ (w - ROUND_BITS)) ltac:(lia)).
    apply eq_bool_prop_intro. rewrite !andb_True, !Is_true_true, !Z.eqb_eq. nia.
Qed.

Lemma mul_rbits_ok x2 : coefficient x2 ->
  let r := mul_rbits F (fun x => x) x2 in
  let D := 2 ^ (C - ROUND_BITS) in
  0 <= r < 8 /\ r = (if cval x2 mod D =? 0 then cval x2 / D else Z.lor (cval x2 / D) 1).
Proof.
  intros Hx. pose proof (cval_range F x2 Hx) as Hv. pose proof (C_large F) as HC.
  assert (0 < 2 ^ (C - ROUND_BITS)) by (apply Z.pow_pos_nonneg; lia).
  assert (2 ^ C = 8 * 2 ^ (C - ROUND_BITS)) as HC8.
  { change 8 with (2 ^ ROUND_BITS). rewrite <- Z.pow_add_r by (unfold ROUND_BITS in *; lia). f_equal. lia. }
  assert (mul_rbits F (fun x => x) x2 =
          (if cval x2 mod 2 ^ (C - ROUND_BITS) =? 0 then cval x2 / 2 ^ (C - ROUND_BITS) else Z.lor (cval x2 / 2 ^ (C - ROUND_BITS)) 1)) as ->.
  { pose proof good_bits as Hb. destruct good_first as (w & ws & He & Hw). unfold IeeeFields.coefficient, IeeeFields.cval, IeeeFields.C in *.
    rewrite good_coeff_bits in *. unfold mul_rbits, mul_sticky. rewrite He in *.
    destruct (fields_cons_inv _ _ _ Hx) as (c & x & -> & Hc & Hx').
    destruct (first_field w ws c x Hb Hw Hx) as [-> ->]. by destruct (_ =? 0). }
  split; [|done]. assert (0 <= cval x2 / 2 ^ (C - ROUND_BITS) < 8) by (split; [apply Z.div_pos|apply Z.div_lt_upper_bound]; lia).
  rewrite lor_1. destruct (odd_half (cval x2 / 2 ^ (C - ROUND_BITS))) as (k & Hk).
  destruct (_ =? 0), (Z.odd _); cbn [b2z] in Hk; lia.
Qed.

(** ** The product *)
Lemma unit_coeff_value v : bit v ->
  coefficient (unit_coeff F v) /\ cval (unit_coeff F v) = v /\ last_field (unit_coeff F v) = v.
Proof.
  intros Hv. unfold unit_coeff, zero_coeff, IeeeFields.coefficient, IeeeFields.cval. pose proof good_bits as Hb.
  assert (c_bits F <> []) as Hne by (destruct good_first as (w & ws & -> & _); done).
  induction Hb as [|w ws Hw Hws IH]; [done|]. destruct ws as [|w' ws].
  - cbn [length replicate or_low fval sumz foldr]. rewrite Z.lor_0_l. split_and!; [|lia|done].
    constructor; [|constructor]. pose proof (Z.pow_le_mono_r 2 1 w ltac:(lia) ltac:(lia)). unfold bit, in_u in *. lia.
  - destruct (IH ltac:(done)) as (Hf & Hc & Hl).
    change (or_low (replicate (length (w :: w' :: ws)) 0) v) with (0 :: or_low (replicate (length (w' :: ws)) 0) v).
    set (u := or_low (replicate (length (w' :: ws)) 0) v) in *. split_and!.
    + constructor; [apply in_u_0; lia|done].
    + change (fval (w :: w' :: ws) (0 :: u)) with (0 * 2 ^ sumz (w' :: ws) + fval (w' :: ws) u). lia.
    + rewrite <- Hl. destruct (fields_cons_inv _ _ _ Hf) as (? & ? & -> & _). done.
Qed.

Lemma significand_low b : finite F b -> significand F b mod 2 = cval (coeff b) mod 2.
Proof.
  intros Hb. unfold significand. fold C. destruct (pow_C_split F) as [-> _].
  replace (implicit_bit b * (2 * 2 ^ (C - 1)) + fval (c_bits F) (coeff b))
    with (fval (c_bits F) (coeff b) + (implicit_bit b * 2 ^ (C - 1)) * 2) by lia.
  by rewrite Z.mod_add by lia.
Qed.

(** The variables after the loop *)
Definition mul_start (a b : AR_IEEE) : mul_state :=
  let y := unit_coeff F (implicit_bit a) in
  let '(x, x2) := if negb (low_bit (coeff b) =? 0) then (y, coeff a) else (zero_coeff F, zero_coeff F) in
  let s := mul_shift F (mkMul (Z.land (implicit_bit b) (last_field y)) x x2 y (coeff a) (coeff b)) in
  mkMul (m_lbits s) (m_x s) (m_x2 s) (m_y s) (m_y2 s) (or_top (c_bits F) (m_z s) (implicit_bit b)).

Lemma mul_start_ok a b : finite F a -> finite F b ->
  pyramid (significand F a) (significand F b) (implicit_bit a * implicit_bit b) 1 (mul_start a b).
Proof.
  intros Ha Hb. pose proof (significand_low b Hb) as Hlow.
  assert (bit (implicit_bit a) /\ bit (implicit_bit b)) as [Hba Hbb].
  { destruct Ha as (_ & Ha & _), Hb as (_ & Hb & _). unfold bit.
    pose proof (implicit_bit_cases a Ha). pose proof (implicit_bit_cases b Hb). lia. }
  destruct (unit_coeff_value _ Hba) as (Hu & Huv & Hul). unfold mul_start. rewrite Hul.
  destruct Ha as (Hca & _), Hb as (Hcb & _). set (t := Z.land (implicit_bit b) (implicit_bit a)).
  assert (t = implicit_bit a * implicit_bit b) as Ht by (unfold t; destruct Hba as [-> | ->], Hbb as [-> | ->]; done).
  destruct (zero_coeff_value F) as [Hz Hzv].
  lazymatch goal with |- context [if ?c then ?p else ?q] => set (xx := if c then p else q) end.
  assert (coefficient xx.1 /\ coefficient xx.2 /\
          cval xx.1 * 2 ^ C + cval xx.2 = significand F a * (significand F b mod 2)) as (Hx1 & Hx2 & Hxv).
  { unfold xx. rewrite Hlow, (low_bit_cval F) by done. destruct (Z.eqb_spec (cval (coeff b) mod 2) 0) as [->|]; cbn [negb fst snd].
    - split_and!; [done|done|]. rewrite Hzv. lia.
    - split_and!; [done|done|]. rewrite Huv. pose proof (Z.mod_pos_bound (cval (coeff b)) 2 ltac:(lia)).
      replace (cval (coeff b) mod 2) with 1 by lia. unfold significand, IeeeFields.cval. fold C. lia. }
  clearbody xx. destruct xx as [x x2]. cbn [fst snd] in *.
  destruct (mul_shift_ok (mkMul t x x2 (unit_coeff F (implicit_bit a)) (coeff a) (coeff b))) as (Hs & Hp & Hm & _); [by split_and!|].
  cbn [mul_shift m_lbits m_x m_x2 m_y m_y2 m_z] in *. rewrite (or_top_shright F) by done.
  destruct Hs as (? & ? & ? & ? & _). cbn [m_x m_x2 m_y m_y2] in *.
  destruct (shright_cval F (coeff b) (implicit_bit b) Hcb ltac:(unfold bit in *; lia)) as (Hz' & Hzv').
  unfold pyramid, mul_valid, product, multiplicand in *. cbn [m_lbits m_x m_x2 m_y m_y2 m_z] in *. change (2 ^ 1) with 2.
  split_and!; try done.
  - rewrite Ht. lia.
  - rewrite Hm, Huv. f_equal. unfold significand, IeeeFields.cval. fold C. lia.
  - apply (Z.div_unique _ _ _ (cval (coeff b) mod 2)); [left; apply Z.mod_pos_bound; lia|].
    replace (implicit_bit b mod 2) with (implicit_bit b) in Hzv' by (destruct Hbb as [-> | ->]; done).
    unfold significand, IeeeFields.cval in *. fold C. lia.
Qed.

Lemma mul_loop_ok a b : finite F a -> finite F b ->
  let s := Nat.iter (Z.to_nat (coeff_bits F)) (mul_step F) (mul_start a b) in
  mul_valid s /\ product s = significand F a * significand F b.
Proof.
  intros Ha Hb. pose proof (C_large F) as HC. unfold ROUND_BITS in HC. fold C. cbn zeta.
  replace (Z.to_nat C) with (S (Z.to_nat (C - 1))) by lia. cbn [Nat.iter].
  pose proof (significand_range a Ha) as (HA & _ & Hca). pose proof (significand_range b Hb) as (HB & _ & Hcb).
  assert (bit (implicit_bit a) /\ bit (implicit_bit b)) as [Hba Hbb].
  { destruct Ha as (_ & Ha & _), Hb as (_ & Hb & _). unfold bit.
    pose proof (implicit_bit_cases a Ha). pose proof (implicit_bit_cases b Hb). lia. }
  pose proof (pyramid_loop _ _ _ (Z.to_nat (C - 1)) _ HA ltac:(lia) (mul_start_ok a b Ha Hb)) as Hl.
  replace (1 + Z.of_nat (Z.to_nat (C - 1))) with C in Hl by lia.
  apply (pyramid_last _ _ (implicit_bit a) (implicit_bit b)); try done;
    unfold significand, IeeeFields.cval in *; fold C; lia.
Qed.

(** ** Finite operands *)
Lemma finite_tests x : finite F x -> IS_NaN F x = false /\ is_inf F x = false.
Proof.
  intros (_ & _ & He). unfold IS_NaN, is_inf. rewrite !Z.gtb_ltb.
  by rewrite (proj2 (Z.ltb_ge (max_expo F) (expo x))) by done.
Qed.

(** The exponent of the unit of the product's significand *)
Definition mul_expo (a b : AR_IEEE) : Z :=
  let e := Z.max 1 (expo a) + Z.max 1 (expo b) - expo_bias F in if e <=? 0 then e - 1 else e.

Lemma ar_ifmul_finite rest x a b mode :
  finite F a -> finite F b -> ar_denorms_trap && (is_denorm a || is_denorm b) = false ->
  ar_ifmul_fields F rest x a b mode =
  let s := Nat.iter (Z.to_nat (coeff_bits F)) (mul_step F) (mul_start a b) in
  ar_inorm F (mul_expo a b) (m_lbits s) (mul_rbits F rest (m_x2 s)) (mkIeee (xorb (sign a) (sign b)) 0 (m_x s)) mode.
Proof.
  intros Ha Hb Ht. unfold ar_ifmul_fields. destruct (finite_tests a Ha) as [-> ->], (finite_tests b Hb) as [-> ->].
  rewrite Ht. cbn zeta. assert (forall e, 0 <= e -> e + b2z (e =? 0) = Z.max 1 e) as He.
  { intros e ?. destruct (Z.eqb_spec e 0); cbn; lia. }
  destruct Ha as (_ & Ha & _), Hb as (_ & Hb & _).
  replace (expo a + expo b + b2z (expo a =? 0) + b2z (expo b =? 0) - expo_bias F)
    with (Z.max 1 (expo a) + Z.max 1 (expo b) - expo_bias F) by (rewrite <- !He by done; lia).
  fold (mul_expo a b). unfold mul_start. destruct (if negb _ then _ else _) as [x0 x2]. cbn [mul_shift m_lbits m_x m_x2 m_y m_y2 m_z].
  by destruct (Nat.iter _ _ _).
Qed.

Lemma mul_scale a b :
  let E := mul_expo a b in
  let M := magnitude_ieee F a * magnitude_ieee F b in
  num E M * 2 ^ C = significand F a * significand F b * den E (2 ^ (expo_bias F + C - 1)).
Proof.
  cbn zeta. unfold magnitude_ieee, num, den. set (A := significand F a). set (B := significand F b).
  destruct (good_bias (F := F)) as [_ Hbias]. pose proof (C_large F) as HC. unfold ROUND_BITS in HC. unfold mul_expo.
  set (p := Z.max 1 (expo a)). set (q := Z.max 1 (expo b)). assert (1 <= p /\ 1 <= q) as [Hp Hq] by lia.
  replace (A * 2 ^ (p - 1) * (B * 2 ^ (q - 1))) with (A * B * 2 ^ (p - 1 + (q - 1))) by (rewrite Z.pow_add_r by lia; lia).
  rewrite <- !Z.mul_assoc. do 2 f_equal. destruct (Z.leb_spec (p + q - expo_bias F) 0); rewrite <- !Z.pow_add_r by lia; f_equal; lia.
Qed.

Lemma mul_represents a b :
  finite F a -> finite F b -> product_kept F a b ->
  let s := Nat.iter (Z.to_nat (coeff_bits F)) (mul_step F) (mul_start a b) in
  stands_for F (mkNorm (mul_expo a b) (m_lbits s) (mul_rbits F (fun x => x) (m_x2 s)) (m_x s))
             (magnitude_ieee F a * magnitude_ieee F b) (2 ^ (expo_bias F + C - 1)).
Proof.
  intros Ha Hb Hk. cbn zeta. destruct (mul_loop_ok a b Ha Hb) as [(Hx & Hx2 & _) Hp].
  set (s := Nat.iter _ _ _) in *. clearbody s. destruct (mul_rbits_ok (m_x2 s) Hx2) as [Hr Hrv].
  set (r := mul_rbits F (fun x => x) (m_x2 s)) in *. set (P := significand F a * significand F b) in *.
  pose proof (significand_range a Ha) as (HA & HA1 & _). pose proof (significand_range b Hb) as (HB & HB1 & _).
  pose proof (cval_range F _ Hx). pose proof (cval_range F _ Hx2). pose proof (C_large F) as HC. unfold ROUND_BITS in HC.
  pose proof (pow_C_pos F). unfold product in Hp. rewrite pow_2C in Hp.
  assert (0 <= P <= (2 * 2 ^ C - 1) * (2 * 2 ^ C - 1)) as HP by (unfold P; nia).
  assert (0 <= m_lbits s < 4) as Hl by nia.
  set (n := mkNorm (mul_expo a b) (m_lbits s) r (m_x s)).
  assert (valid F n) as Hv by (split; [done|split; [done|cbn [n n_lbits]; lia]]).
  set (Q := 2 ^ (C - ROUND_BITS)) in *. assert (2 ^ C = 8 * Q /\ 0 < Q) as [HQ HQ0].
  { unfold Q, ROUND_BITS. change 8 with (2 ^ 3). rewrite <- Z.pow_add_r by lia. split; [f_equal; lia|apply Z.pow_pos_nonneg; lia]. }
  assert (sticky (nval F n) P Q) as Hst.
  { unfold nval, sig. cbn [n n_lbits n_coeff n_rbits]. rewrite Hrv. apply sticky_low; [done|nia]. }
  pose proof (mul_scale a b) as Hsc. cbn zeta in Hsc. fold P in Hsc.
  set (M := magnitude_ieee F a * magnitude_ieee F b) in *. set (D := 2 ^ (expo_bias F + C - 1)) in *.
  assert (0 < D) as HD by (apply Z.pow_pos_nonneg; destruct (good_bias (F := F)); lia).
  assert (sticky (nval F n) (8 * num (n_expo n) M) (den (n_expo n) D)) as Hstn.
  { apply (sticky_ratio _ P Q); [done|by apply den_pos| |done]. cbn [n n_expo]. nia. }
  split; [done|]. split; [by apply sticky_decides; [apply den_pos|]|]. split.
  - intros Hl0 HE. cbn [n n_lbits n_expo] in Hl0, HE. destruct Hk as [[Hna Hnb]|[Hsmall|Hlow]].
    + exfalso. specialize (HA1 Hna). specialize (HB1 Hnb). nia.
    + right. split; [done|left]. cbn [n n_expo]. unfold mul_expo in *. destruct (Z.leb_spec (Z.max 1 (expo a) + Z.max 1 (expo b) - expo_bias F) 0); lia.
    + left. fold C in Hlow. fold P in Hlow. replace (C - 2) with ((C - ROUND_BITS) + 1) in Hlow by (unfold ROUND_BITS; lia).
      rewrite Z.pow_add_r in Hlow by (unfold ROUND_BITS; lia). fold Q in Hlow. change (2 ^ 1) with 2 in Hlow.
      apply Z.mod_divide in Hlow as [k Hk]; [|lia]. assert (nval F n = 2 * k) as Hnv.
      { apply (sticky_even _ P Q k HQ0 Hst). lia. }
      split; [rewrite Hnv, (Z.mul_comm 2 k); apply Z.mod_mul; lia|]. destruct Hstn as [|(w & Hw & _)]; [done|lia].
  - intros _. assert (nval F n / 16 = P / (16 * Q)) as ->.
    { destruct (nval_split F n Hv) as [Hq _]. replace 16 with (8 * 2) by lia. rewrite <- Z.div_div, Hq by lia.
      replace (8 * 2 * Q) with (2 ^ C * 2) by lia. rewrite <- Z.div_div by lia. f_equal. unfold sig. cbn [n n_lbits n_coeff].
      apply (Z.div_unique _ _ _ (cval (m_x2 s))); [left; lia|]. lia. }
    rewrite Z.pow_add_r by lia. change (2 ^ 1) with 2. replace (16 * Q) with (2 * 2 ^ C) by lia.
    apply Z.div_lt_upper_bound; lia.
Qed.

Lemma mul_ok x a b mode :
  ar_underflow_mode = AR_UNDERFLOW_TO_DENORM ->
  finite F a -> finite F b -> ar_denorms_trap && (is_denorm a || is_denorm b) = false -> product_kept F a b ->
  let N := magnitude_ieee F a * magnitude_ieee F b in
  let D := 2 ^ (expo_bias F + C - 1) in
  let neg := xorb (sign a) (sign b) in
  mode_sound mode neg (round_inexact C N D) = true ->
  exists s r, ar_ifmul_fields F (fun rest => rest) x a b mode = Ok (s, r) /\ correctly_rounded F mode neg N D s r.
Proof.
  intros Hu Ha Hb Ht Hk. cbn zeta. intros Hm. rewrite (ar_ifmul_finite _ _ a b) by done. cbn zeta.
  set (s := Nat.iter _ _ _). pose proof (mul_represents a b Ha Hb Hk) as Hr. cbn zeta in Hr. fold s in Hr.
  apply (ar_inorm_ok F); [done| |done|done].
  apply Z.pow_pos_nonneg; [lia|]. destruct (good_bias (F := F)). pose proof (C_large F) as HC. unfold ROUND_BITS in HC. lia.
Qed.

End Mul.
