(* ===== verification/IeeeAdd.v ===== *)
(** Addition and subtraction: alignment keeps a sticky bit, the ones'
    complement arithmetic computes the difference of the magnitudes, and the
    result is the correctly rounded sum. *)
From Stdlib Require Import ZArith Lia Bool.
From stdpp Require Import prelude list.
From S2P Require Import Prelude ArData IeeeData IeeeFields IeeeOps IeeeRound IeeeNorm IeeeResult IeeeMul.

(** The exact sum, in units of the least denormal; a sum of zero is negative
    when both operands are. *)
Section Sum.
Context (F : Format).

Definition svalue (x : AR_IEEE) : Z := if sign x then - magnitude_ieee F x else magnitude_ieee F x.
Definition sum_magnitude (a b : AR_IEEE) : Z := Z.abs (svalue a + svalue b).
Definition sum_negative (a b : AR_IEEE) : bool :=
  let v := svalue a + svalue b in if v =? 0 then sign a && sign b else v <? 0.

(** The difference of the exponents, and whether the smaller operand is shifted
    down bit by bit. *)
Definition expo_distance (a b : AR_IEEE) : Z := Z.abs (Z.max 1 (expo a) - Z.max 1 (expo b)).
Definition close (a b : AR_IEEE) : bool := expo_distance a b <=? coeff_bits F + ROUND_BITS.

End Sum.

Section Add.
Context (F : Format) `{!GoodFormat F}.

Local Abbreviation C := (C F).
Local Abbreviation cval := (cval F).
Local Abbreviation coefficient := (coefficient F).
Local Abbreviation nval := (nval F).
Local Abbreviation valid := (valid F).

(** ** Alignment *)
Definition aligned (s : align_state) : norm_state := mkNorm 0 (a_lbits s) (a_rbits s) (a_coeff s).

Lemma align_step_ok s : valid (aligned s) -> a_lbits s <= 1 ->
  valid (aligned (align_step F s)) /\ a_lbits (align_step F s) <= 1 /\
  nval (aligned (align_step F s)) = jam_right (nval (aligned s)).
Proof.
  intros Hs Hl. destruct s as [r l c]. unfold aligned in *. cbn [a_rbits a_lbits a_coeff] in *.
  destruct (right_step F 0 l r c Hs) as [Hs' Hv]. destruct Hs as (_ & _ & Hl0). cbn [n_lbits] in Hl0.
  assert (Z.shiftr l 1 = 0) as Hz by (destruct (decide (l = 0)) as [->|]; [done|by replace l with 1 by lia]).
  rewrite Hz in Hs', Hv. cbn [align_step a_rbits a_lbits a_coeff]. rewrite (Z.lor_comm (Z.land r 1)).
  split_and!; [done|lia|done].
Qed.

Lemma align_iter n s N D :
  0 < D -> valid (aligned s) -> a_lbits s <= 1 -> sticky (nval (aligned s)) N D ->
  let s' := Nat.iter n (align_step F) s in
  valid (aligned s') /\ a_lbits s' <= 1 /\ sticky (nval (aligned s')) N (D * 2 ^ Z.of_nat n).
Proof.
  intros HD Hs Hl Hst. induction n as [|n (IHv & IHl & IHs)]; cbn zeta.
  { cbn [Nat.iter]. change (2 ^ Z.of_nat 0) with 1. by rewrite Z.mul_1_r. }
  change (Nat.iter (S n) (align_step F) s) with (align_step F (Nat.iter n (align_step F) s)). destruct (align_step_ok _ IHv IHl) as (Hv & Hl' & He). split; [done|]. split; [done|]. rewrite He.
  rewrite Nat2Z.inj_succ, Z.pow_succ_r by lia. replace (D * (2 * 2 ^ Z.of_nat n)) with (2 * (D * 2 ^ Z.of_nat n)) by lia.
  apply sticky_right; [apply Z.mul_pos_pos; [done|apply Z.pow_pos_nonneg; lia]|done].
Qed.

(** ** The coefficients *)
Lemma lbits_and l : 0 <= l -> Z.land l (MASKR 2) = l mod 4.
Proof. intros. unfold MASKR. by rewrite Z.land_ones by lia. Qed.

Lemma two_bits l : 0 <= l < 4 -> l = 0 \/ l = 1 \/ l = 2 \/ l = 3.
Proof. lia. Qed.

Lemma rbits_and r : 0 <= r -> Z.land r 7 = r mod 8 /\ Z.shiftr r ROUND_BITS = r / 8.
Proof. intros. change 7 with (Z.ones 3). unfold ROUND_BITS. by rewrite Z.land_ones, Z.shiftr_div_pow2 by lia. Qed.

Lemma rbits_not r : 0 <= r < 8 -> Z.lxor r 7 = 7 - r.
Proof. intros Hr. destruct (rbits_cases r Hr) as [->|[->|[->|[->|[->|[->|[->| ->]]]]]]]; done. Qed.

Lemma add_coeffs_same l x y :
  bit l -> coefficient x -> valid (aligned y) -> a_lbits y <= 1 ->
  let r := add_coeffs F false l x y in
  snd r = false /\ valid (fst r) /\ n_lbits (fst r) < 4 /\ nval (fst r) = 8 * (l * 2 ^ C + cval x) + nval (aligned y).
Proof.
  intros Hl Hx (Hy & Hr & Hyl0) Hyl. destruct y as [r yl y]. unfold aligned in *. cbn [a_rbits a_lbits a_coeff n_coeff n_lbits n_rbits] in *.
  cbn [add_coeffs]. destruct (add_cval F 0 x y Hx Hy) as [Hf Hv]. destruct (ADDIEEE (c_bits F) 0 x y) as [k s].
  cbn [fst snd] in *. pose proof (cval_range F _ Hf). pose proof (cval_range F _ Hx). pose proof (cval_range F _ Hy).
  pose proof (pow_C_pos F). assert (bit k) as Hk by (unfold bit; nia). assert (0 <= yl <= 1) as Hyb by lia. clear Hyl Hyl0.
  assert (Z.land (k + l + yl) (MASKR 2) = k + l + yl) as ->.
  { unfold bit in *. rewrite lbits_and by lia. apply Z.mod_small. lia. }
  unfold IeeeNorm.valid, IeeeNorm.nval, sig. cbn [n_coeff n_rbits n_lbits]. unfold bit in *. split_and!; try done; lia.
Qed.

Lemma add_coeffs_diff l x y :
  bit l -> coefficient x -> valid (aligned y) -> a_lbits y <= 1 ->
  let r := add_coeffs F true l x y in
  let d := 8 * (l * 2 ^ C + cval x) - nval (aligned y) in
  snd r = (d <? 0) /\ valid (fst r) /\ n_lbits (fst r) <= 1 /\ nval (fst r) = Z.abs d.
Proof.
  intros Hl Hx (Hy & Hr & Hyl0) Hyl. destruct y as [r yl y]. unfold aligned in *. cbn [a_rbits a_lbits a_coeff n_coeff n_lbits n_rbits] in *.
  cbn [add_coeffs]. destruct (not_cval F x Hx) as [Hnx Hnxv].
  change (MASKR ROUND_BITS) with 7. destruct (rbits_and (r + 7) ltac:(lia)) as [-> ->].
  pose proof (Z.div_mod (r + 7) 8 ltac:(lia)) as Hr7. pose proof (Z.mod_pos_bound (r + 7) 8 ltac:(lia)) as Hr7b.
  set (k0 := (r + 7) / 8) in *. set (r' := (r + 7) mod 8) in *.
  destruct (add_cval F k0 _ y Hnx Hy) as [Hf Hv]. destruct (ADDIEEE (c_bits F) k0 (NOTIEEE (c_bits F) x) y) as [k s].
  cbn [fst snd] in *. pose proof (cval_range F _ Hf) as Hsr. pose proof (cval_range F _ Hx) as Hxr. pose proof (cval_range F _ Hy) as Hyr.
  pose proof (pow_C_pos F). assert (bit k) as Hk by (unfold bit; nia). assert (Z.lxor l (MASKR 2) = 3 - l) as -> by (destruct Hl as [-> | ->]; done).
  unfold bit in Hl, Hk. rewrite lbits_and by lia. set (L := k + (3 - l) + yl).
  unfold IeeeNorm.nval, sig. cbn [n_coeff n_rbits n_lbits].
  set (d := 8 * (l * 2 ^ C + cval x) - ((yl * 2 ^ C + cval y) * 8 + r)).
  assert ((L * 2 ^ C + cval s) * 8 + r' = 32 * 2 ^ C - 1 - d) as HZ by (unfold L, d; lia).
  assert (- 16 * 2 ^ C <= d < 16 * 2 ^ C) as Hd by (unfold d; nia).
  destruct (Z.ltb_spec d 0) as [Hneg|Hpos].
  - assert (L = 4 \/ L = 5) as HL by (unfold L in *; nia). assert (L mod 4 = L - 4) as ->.
    { destruct HL as [-> | ->]; done. }
    replace (negb (Z.land (L - 4) 2 =? 0)) with false by (destruct HL as [-> | ->]; done).
    destruct (rbits_and (1 + r') ltac:(lia)) as [-> ->].
    pose proof (Z.div_mod (1 + r') 8 ltac:(lia)) as Hr8. pose proof (Z.mod_pos_bound (1 + r') 8 ltac:(lia)).
    set (r2 := (1 + r') mod 8) in *. set (k2 := (1 + r') / 8) in *.
    destruct (inc_cval F k2 s Hf) as [Hf2 Hv2]. destruct (INCIEEE (c_bits F) k2 s) as [k3 s2]. cbn [fst snd] in *.
    pose proof (cval_range F _ Hf2). assert (0 <= k3 + (L - 4) <= 1) by nia.
    rewrite lbits_and, Z.mod_small by lia. cbn [n_coeff n_rbits n_lbits].
    split; [done|]. split; [split; [done|cbn [n_rbits n_lbits]; lia]|]. lia.
  - assert (L = 2 \/ L = 3) as HL by (unfold L in *; nia). assert (L mod 4 = L) as ->.
    { destruct HL as [-> | ->]; done. }
    replace (negb (Z.land L 2 =? 0)) with true by (destruct HL as [-> | ->]; done).
    assert (Z.lxor L (MASKR 2) = 3 - L) as -> by (destruct HL as [-> | ->]; done). rewrite rbits_not by lia.
    destruct (not_cval F s Hf) as [Hns Hnsv]. cbn [fst snd n_coeff n_rbits n_lbits].
    split; [done|]. split; [split; [done|cbn [n_rbits n_lbits]; lia]|]. lia.
Qed.

(** ** The shift after the addition *)
Lemma sum_shift_represents E s N D :
  0 <= E -> 0 < D -> valid s -> n_lbits s < 4 -> sticky (nval s) (8 * num E N) (den E D) ->
  (E = 0 -> n_lbits s <= 1) -> (n_lbits s = 0 -> nval s mod 2 = 0 \/ 2 ^ (C + 2) <= nval s) -> (E = 0 -> nval s mod 2 = 0) ->
  stands_for F (sum_shift F E s) N D.
Proof.
  intros HE HD Hs H4 Hst HE0 Hready Heven. destruct s as [E' l r c]. cbn [n_lbits] in *. unfold sum_shift.
  pose proof Hs as (_ & _ & Hl0). cbn [n_lbits] in Hl0.
  assert (valid (mkNorm E l r c)) as HsE by done. change (nval (mkNorm E' l r c)) with (nval (mkNorm E l r c)) in *.
  destruct (right_step F E l r c HsE) as [Hs' Hv]. assert (Z.shiftr l 1 <= 1 /\ (2 <= l -> Z.shiftr l 1 = 1)) as [Hl1 Hl2].
  { destruct (two_bits l ltac:(lia)) as [->|[->|[->| ->]]]; split; done. }
  pose proof (den_pos E D HD).
  destruct (Z.lt_ge_cases 1 l) as [Hbig|Hsmall].
  - replace (negb (Z.land l 2 =? 0)) with true by (destruct (two_bits l ltac:(lia)) as [->|[->|[->| ->]]]; done).
    cbn [orb]. replace (negb (E =? 0)) with true by (symmetry; apply negb_true_iff, Z.eqb_neq; lia).
    split; [done|]. split.
    { apply (decided_right F (mkNorm E l r c)); try done; [cbn [n_expo]; lia|]. by apply sticky_decides. }
    split; [intros Hz; cbn [n_lbits] in Hz; lia|]. cbn [n_lbits n_expo]. lia.
  - replace (negb (Z.land l 2 =? 0)) with false by (destruct (two_bits l ltac:(lia)) as [->|[->|[->| ->]]]; done).
    cbn [orb]. destruct (Z.eqb_spec l 0) as [->|Hl]; cbn [negb andb].
    + split; [done|]. split; [by apply sticky_decides|]. split; [|cbn [n_lbits n_expo]; lia].
      intros _ HE1. cbn [n_expo] in *. destruct (Hready eq_refl) as [He|?]; [left|right; auto].
      split; [done|]. destruct Hst as [|(w & Hw & _)]; [done|]. rewrite Hw, Z.add_comm, Z.mul_comm, Z.mod_add in He by lia. done.
    + destruct (Z.eqb_spec E 0) as [->|HE'].
      * assert (l = 1) as -> by lia. cbn [negb]. set (s' := mkNorm 2 _ _ _).
        assert (valid s') as Hvs by done. assert (nval s' = jam_right (nval (mkNorm 0 1 r c))) as Hnv by done.
        specialize (Heven eq_refl). destruct (jam_right_cases (nval (mkNorm 0 1 r c))) as (h & [[Hh Hj]|[(Hh & _)|(Hh & _)]]);
          [|rewrite Hh, Z.add_comm, Z.mul_comm, Z.mod_add in Heven by lia; done..].
        assert (exact_for (nval s') (8 * num 2 N) (den 2 D)) as Hex.
        { destruct Hst as [Hst|(w & Hw & _)]; [|lia]. rewrite Hnv, Hj. unfold exact_for in *. rewrite Hh in Hst.
          unfold num, den in *. change (2 ^ Z.max 0 (- 0)) with 1 in Hst. change (2 ^ Z.max 0 (0 - 1)) with 1 in Hst.
          change (2 ^ Z.max 0 (- (2))) with 1. change (2 ^ Z.max 0 (2 - 1)) with 2. lia. }
        split; [done|]. split; [by left|]. split; [|cbn [s' n_lbits n_expo]; change (Z.shiftr 1 1) with 0; lia].
        intros _ _. right. split; [by left|]. left. done.
      * split; [done|]. split; [by apply sticky_decides|]. split; [intros Hz; cbn [n_lbits] in Hz; lia|]. cbn [n_lbits n_expo]. lia.
Qed.

(** ** Aligned operands *)
Lemma expo_implicit x : 0 <= expo x -> expo x - implicit_bit x = Z.max 1 (expo x) - 1.
Proof. intros Hx. destruct (implicit_bit_cases x Hx) as [[? ->]|[? ->]]; lia. Qed.

Lemma implicit_bit_bit x : bit (implicit_bit x).
Proof. unfold implicit_bit, bit. destruct (negb _); cbn; lia. Qed.

Lemma align_close x y :
  finite F x -> finite F y -> expo y <= expo x -> close F x y = true ->
  exists s, align F x y = (sign y, s) /\ valid (aligned s) /\ a_lbits s <= 1 /\
    sticky (nval (aligned s)) (8 * significand F y) (2 ^ (Z.max 1 (expo x) - Z.max 1 (expo y))).
Proof.
  intros (Hcx & Hx & _) (Hcy & Hy & _) Hle Hc. unfold close, expo_distance in Hc. apply Z.leb_le in Hc. unfold align.
  rewrite !expo_implicit by done. set (d := Z.max 1 (expo x) - Z.max 1 (expo y)).
  replace (Z.max 1 (expo x) - 1 - (Z.max 1 (expo y) - 1)) with d by lia.
  replace (d >? coeff_bits F + ROUND_BITS) with false by (symmetry; rewrite Z.gtb_ltb; apply Z.ltb_ge; lia).
  eexists. split; [done|]. pose proof (implicit_bit_bit y) as Hb.
  destruct (align_iter (Z.to_nat d) (mkAlign 0 (implicit_bit y) (coeff y)) (8 * significand F y) 1) as (Hv & Hl & Hs).
  - lia.
  - split; [done|]. cbn [aligned a_rbits a_lbits n_rbits n_lbits]. unfold bit in Hb. lia.
  - cbn [a_lbits]. unfold bit in Hb. lia.
  - left. unfold exact_for, IeeeNorm.nval, sig, significand, IeeeFields.cval. cbn [aligned a_rbits a_lbits a_coeff n_rbits n_lbits n_coeff]. fold C. lia.
  - rewrite Z2Nat.id, Z.mul_1_l in Hs by lia. done.
Qed.

Lemma sticky_even_small v S d :
  0 <= d <= 1 -> sticky v (8 * S) (2 ^ d) -> v mod 2 = 0.
Proof.
  intros Hd Hs. assert (exists k, v = k * 2) as [k ->]; [|by apply Z.mod_mul].
  assert (d = 0 \/ d = 1) as [-> | ->] by lia.
  - change (2 ^ 0) with 1 in Hs. exists (4 * S). destruct Hs as [Hs|(w & -> & Hs)]; [unfold exact_for in Hs|]; lia.
  - change (2 ^ 1) with 2 in Hs. exists (2 * S). destruct Hs as [Hs|(w & -> & Hs)]; [unfold exact_for in Hs|]; lia.
Qed.

Lemma sticky_bound v S d B : 2 <= d -> 0 <= S < B -> sticky v (8 * S) (2 ^ d) -> v <= 2 * B.
Proof.
  intros Hd HS Hs. assert (4 <= 2 ^ d) as Hp by (change 4 with (2 ^ 2); apply Z.pow_le_mono_r; lia).
  destruct (Z.le_gt_cases v 0) as [?|Hv]; [lia|]. destruct Hs as [Hs|(w & -> & Hs)]; [unfold exact_for in Hs|]; nia.
Qed.

(** From quarters of the aligned unit to units of the least denormal *)
Lemma unit_scale V K E q d :
  0 <= E -> 1 <= q -> 0 <= d -> Z.max 1 E = q + d -> sticky V (8 * K) (2 ^ d) ->
  sticky V (8 * num E (K * 2 ^ (q - 1))) (den E 1).
Proof.
  intros HE Hq Hd Hqd Hs. assert (den E 1 = 2 ^ d * 2 ^ (q - 1)) as Hden.
  { unfold den. rewrite Z.mul_1_l, <- Z.pow_add_r by lia. f_equal. lia. }
  assert (num E (K * 2 ^ (q - 1)) = K * 2 ^ (q - 1)) as ->.
  { unfold num. rewrite Z.max_l by lia. change (2 ^ 0) with 1. lia. }
  apply (sticky_ratio _ (8 * K) (2 ^ d)); [apply Z.pow_pos_nonneg; lia|by apply den_pos| |done]. rewrite Hden. lia.
Qed.

(** ** The sum of the aligned operands *)

(** The shifted sum of two operands with the exact value [K] in units of the
    last place of the second one *)
Lemma sum_step x y K r :
  finite F x -> finite F y -> expo y <= expo x -> valid r -> n_lbits r < 4 ->
  let d := Z.max 1 (expo x) - Z.max 1 (expo y) in
  sticky (nval r) (8 * K) (2 ^ d) -> (expo x = 0 -> n_lbits r <= 1) ->
  (d <= 1 -> nval r mod 2 = 0) -> (2 <= d -> 4 * 2 ^ C <= nval r) ->
  stands_for F (sum_shift F (expo x) r) (K * 2 ^ (Z.max 1 (expo y) - 1)) 1.
Proof.
  intros (_ & Hex & _) (_ & Hey & _) Hle Hr H4 d Hsr H0 Hr2 Hbig. pose proof (C_large F) as HC. unfold ROUND_BITS in HC.
  apply sum_shift_represents; try done; [|intros _|intros Hz; apply Hr2; unfold d; lia].
  - apply (unit_scale _ _ _ (Z.max 1 (expo y)) d); try done; unfold d; lia.
  - destruct (Z.le_gt_cases d 1); [left; auto|right]. rewrite Z.pow_add_r by lia. change (2 ^ 2) with 4. specialize (Hbig ltac:(lia)). lia.
Qed.

Lemma add_coeffs_ok (diffsign : bool) x y s :
  finite F x -> finite F y -> expo y <= expo x -> valid (aligned s) -> a_lbits s <= 1 ->
  let d := Z.max 1 (expo x) - Z.max 1 (expo y) in
  let K := if diffsign then significand F x * 2 ^ d - significand F y else significand F x * 2 ^ d + significand F y in
  let N := Z.abs K * 2 ^ (Z.max 1 (expo y) - 1) in
  sticky (nval (aligned s)) (8 * significand F y) (2 ^ d) ->
  let r := add_coeffs F diffsign (implicit_bit x) (coeff x) s in
  snd r = (K <? 0) /\ stands_for F (sum_shift F (expo x) (fst r)) N 1.
Proof.
  intros Hx Hy Hle Hs Hl d K N Hst. pose proof (significand_range F x Hx) as (HSX & HSX1 & _).
  pose proof (significand_range F y Hy) as (HSY & _ & _). pose proof Hx as (Hcx & Hex & _). pose proof Hy as (Hcy & Hey & _).
  assert (0 <= d) as Hd by (unfold d; lia). assert (0 < 2 ^ d) as Hpd by (apply Z.pow_pos_nonneg; lia).
  pose proof (C_large F) as HC. unfold ROUND_BITS in HC. pose proof (pow_C_pos F).
  assert (expo x = 0 -> d = 0 /\ significand F x < 2 ^ C /\ significand F y < 2 ^ C) as Hx0.
  { intros Hz. unfold d. split; [lia|]. unfold significand. fold C. pose proof (cval_range F _ Hcx). pose proof (cval_range F _ Hcy).
    unfold IeeeFields.cval in *. unfold implicit_bit. rewrite Hz. replace (expo y) with 0 by lia. cbn. lia. }
  set (v := nval (aligned s)) in *. assert (sig_x : implicit_bit x * 2 ^ C + cval (coeff x) = significand F x) by done.
  assert (Heven : d <= 1 -> v mod 2 = 0) by (intros; apply (sticky_even_small v (significand F y) d); [lia|done]).
  assert (Hmod : forall k, (d <= 1 -> k mod 2 = 0) -> d <= 1 -> (8 * significand F x + k) mod 2 = 0).
  { intros k Hk ?. replace (8 * significand F x + k) with (k + (4 * significand F x) * 2) by lia. rewrite Z.mod_add by lia. auto. }
  pose proof (implicit_bit_bit x) as Hbx. destruct diffsign.
  - destruct (add_coeffs_diff _ _ s Hbx Hcx Hs Hl) as (Hop & Hr & Hrl & Hrv). cbn zeta in *. rewrite sig_x in *. fold v in Hop, Hrv.
    destruct (sticky_sub (significand F x) v _ _ Hpd Hst) as (Hst' & Hneg & _).
    replace (8 * significand F x * 2 ^ d - 8 * significand F y) with (8 * K) in Hst' by (unfold K; lia).
    rewrite Z.abs_mul in Hst'. change (Z.abs 8) with 8 in Hst'. split.
    + rewrite Hop. unfold K.
      destruct (Z.ltb_spec (8 * significand F x) v), (Z.ltb_spec (8 * significand F x * 2 ^ d) (8 * significand F y));
        try discriminate Hneg; symmetry; [transitivity true|transitivity false];
        first [apply Z.ltb_lt; lia|apply Z.ltb_ge; lia|symmetry; apply Z.ltb_lt; lia|symmetry; apply Z.ltb_ge; lia].
    + apply sum_step; try done; rewrite ?Hrv; [lia|done|..].
      * intros Hd1. assert ((8 * significand F x + - v) mod 2 = 0) as Hm.
        { apply Hmod; [|done]. intros Hd'. specialize (Heven Hd'). by apply Z.mod_opp_l_z. }
        replace (8 * significand F x - v) with (8 * significand F x + - v) by lia.
        destruct (Z.abs_spec (8 * significand F x + - v)) as [[_ ->]|[_ ->]]; [done|by apply Z.mod_opp_l_z].
      * intros Hd2. pose proof (sticky_bound v _ d _ Hd2 HSY Hst). specialize (HSX1 ltac:(unfold d in Hd2; lia)). lia.
  - destruct (add_coeffs_same _ _ s Hbx Hcx Hs Hl) as (Hop & Hr & Hrl & Hrv). cbn zeta in *. rewrite sig_x in *. fold v in Hrv.
    assert (0 <= K) as HK by (unfold K; nia). split; [rewrite Hop; symmetry; by apply Z.ltb_ge|].
    pose proof (sticky_add (significand F x) v _ _ Hst) as Hst'.
    replace (8 * significand F x * 2 ^ d + 8 * significand F y) with (8 * Z.abs K) in Hst' by (rewrite Z.abs_eq by done; unfold K; lia).
    apply sum_step; try done; rewrite ?Hrv; [done| |by apply Hmod|].
    + intros Hz. destruct (Hx0 Hz) as (Hd0 & HSX0 & HSY0). assert (~ 2 <= n_lbits (fst (add_coeffs F false (implicit_bit x) (coeff x) s))); [|lia].
      rewrite (lbits_le F _ 2 Hr), Hrv. rewrite Hd0 in Hst. change (2 ^ 0) with 1 in Hst.
      assert (v = 8 * significand F y) as -> by (destruct Hst as [He|(w & Hw & He)]; [unfold exact_for in He|]; lia).
      rewrite Z.pow_add_r by lia. change (2 ^ 3) with 8. lia.
    + intros Hd2. specialize (HSX1 ltac:(unfold d in Hd2; lia)). unfold v. pose proof (proj2 (lbits_sig F _ Hs)). lia.
Qed.

End Add.

Section Finite.
Context (F : Format) `{!GoodFormat F} `{FpState}.

Local Abbreviation C := (C F).

Lemma sum_of x y :
  expo y <= expo x ->
  let d := Z.max 1 (expo x) - Z.max 1 (expo y) in
  let K := if xorb (sign x) (sign y) then significand F x * 2 ^ d - significand F y else significand F x * 2 ^ d + significand F y in
  svalue F x + svalue F y = (if sign x then - K else K) * 2 ^ (Z.max 1 (expo y) - 1).
Proof.
  intros Hle. cbn zeta. unfold svalue, magnitude_ieee.
  replace (Z.max 1 (expo x) - 1) with (Z.max 1 (expo x) - Z.max 1 (expo y) + (Z.max 1 (expo y) - 1)) by lia.
  rewrite Z.pow_add_r by lia. destruct (sign x), (sign y); cbn [xorb]; lia.
Qed.

Lemma add_finite_close x y mode :
  ar_underflow_mode = AR_UNDERFLOW_TO_DENORM ->
  finite F x -> finite F y -> expo y <= expo x -> close F x y = true ->
  mode_sound mode (sum_negative F x y) (round_inexact C (sum_magnitude F x y) 1) = true ->
  exists s r, add_finite F x y mode = Ok (s, r) /\
    correctly_rounded F mode (sum_negative F x y) (sum_magnitude F x y) 1 s r.
Proof.
  intros Hu Hx Hy Hle Hc Hm. destruct (align_close F x y Hx Hy Hle Hc) as (a & Ha & Hav & Hal & Hst).
  unfold add_finite. rewrite Ha. pose proof (sum_of x y Hle) as Hsum. cbn zeta in Hsum.
  destruct (add_coeffs_ok F (xorb (sign x) (sign y)) x y a Hx Hy Hle Hav Hal Hst) as [Hop Hrep]. cbn zeta in Hop, Hrep.
  set (K := if xorb (sign x) (sign y) then _ else _) in *. set (u := 2 ^ (Z.max 1 (expo y) - 1)) in *.
  assert (0 < u) as Hu0 by (apply Z.pow_pos_nonneg; lia).
  assert (sum_magnitude F x y = Z.abs K * u) as HN.
  { unfold sum_magnitude. rewrite Hsum, Z.abs_mul, (Z.abs_eq u) by lia. by destruct (sign x); rewrite ?Z.abs_opp. }
  rewrite <- HN in Hrep. destruct (add_coeffs F _ _ _ a) as [s opp]. cbn [fst snd] in *. subst opp.
  pose proof Hrep as (Hv & Hd & _). destruct (sum_shift F (expo x) s) as [E l r c].
  pose proof (decides_zero _ _ _ (den_pos E 1 ltac:(lia)) Hd) as Hz. cbn [n_expo] in Hz.
  destruct Hv as (Hcf & Hrb & Hl0). cbn [n_coeff n_rbits n_lbits] in *. rewrite (nz_coeff_cval F), negb_involutive by done.
  pose proof (cval_range F c Hcf). pose proof (pow_C_pos F).
  assert ((l =? 0) && (cval F c =? 0) && (r =? 0) = (K =? 0)) as ->.
  { apply eq_bool_prop_intro. rewrite !andb_True, !Is_true_true, !Z.eqb_eq. unfold nval, sig in Hz. cbn [n_lbits n_coeff n_rbits] in Hz.
    pose proof (num_zero E (sum_magnitude F x y)). nia. }
  destruct (Z.eqb_spec K 0) as [HK|HK].
  - eexists _, _. split; [done|]. assert (sum_magnitude F x y = 0) as HN0 by (rewrite HN, HK; lia). rewrite HN0.
    replace (sum_negative F x y) with (xorb (sign x) (K <? 0) && negb (xorb (sign x) (sign y))).
    + apply (zero_result F); [lia|done|]. unfold nval, sig in Hz. cbn [n_lbits n_coeff n_rbits] in Hz.
      pose proof (num_zero E (sum_magnitude F x y)). nia.
    + unfold sum_negative. rewrite Hsum, HK. change (0 <? 0) with false. by destruct (sign x), (sign y).
  - replace (xorb (sign x) (K <? 0)) with (sum_negative F x y); [by apply (ar_inorm_ok F)|].
    unfold sum_negative. rewrite Hsum. replace ((if sign x then - K else K) * u =? 0) with false by (symmetry; apply Z.eqb_neq; destruct (sign x); nia).
    destruct (sign x); cbn [xorb]; [|destruct (Z.ltb_spec K 0); [apply Z.ltb_lt|apply Z.ltb_ge]; nia].
    destruct (Z.ltb_spec K 0); cbn [xorb negb]; [apply Z.ltb_ge|apply Z.ltb_lt]; nia.
Qed.

(** ** A second operand too small to change the first one *)
Lemma round_near neg S g delta :
  2 ^ C <= S < 2 * 2 ^ C -> 2 <= g -> 4 * Z.abs delta < 2 ^ g ->
  round_packed C AR_ROUND_NEAREST neg (S * 2 ^ g + delta) 1 = g * 2 ^ C + S.
Proof.
  intros HS Hg Hd. pose proof (C_large F) as HC. unfold ROUND_BITS in HC. pose proof (pow_C_pos F).
  pose proof (pow2_half g ltac:(lia)) as Hpg. pose proof (Z.pow_pos_nonneg 2 (g - 1) ltac:(lia) ltac:(lia)) as Hpg1.
  unfold round_packed. destruct (decide (delta < 0 /\ S = 2 ^ C)) as [[Hneg ->]|Hc].
  - assert ((2 ^ C * 2 ^ g + delta) / (1 * 2 ^ (g - 1)) = 2 * 2 ^ C - 1 /\
            (2 ^ C * 2 ^ g + delta) mod (1 * 2 ^ (g - 1)) = 2 ^ (g - 1) + delta) as [Hq Hr].
    { rewrite Z.mul_1_l. split; [symmetry; apply (Z.div_unique _ _ _ (2 ^ (g - 1) + delta)); [left; lia|nia]|].
      symmetry. apply (Z.mod_unique _ _ (2 * 2 ^ C - 1)); [left; lia|nia]. }
    rewrite (ulp_expo_ok F (g - 1) (2 * 2 ^ C - 1)); [|lia|lia|done|lia|rewrite Z.pow_add_r by lia; lia].
    unfold round_div. rewrite Hq, Hr. rewrite (proj2 (Z.ltb_lt _ _)) by lia. cbn [orb]. lia.
  - set (q := if delta <? 0 then S - 1 else S). set (rem := if delta <? 0 then 2 ^ g + delta else delta).
    assert ((S * 2 ^ g + delta) / (1 * 2 ^ g) = q /\ (S * 2 ^ g + delta) mod (1 * 2 ^ g) = rem) as [Hq Hr].
    { rewrite Z.mul_1_l. unfold q, rem. split; symmetry.
      - apply (Z.div_unique _ _ _ rem); unfold rem; destruct (Z.ltb_spec delta 0); [left; lia..|lia|lia].
      - apply (Z.mod_unique _ _ q); unfold q; destruct (Z.ltb_spec delta 0); [left; lia..|lia|lia]. }
    assert (2 ^ C <= q < 2 * 2 ^ C) as Hqb by (unfold q; destruct (Z.ltb_spec delta 0); lia).
    rewrite (ulp_expo_ok F g q); [|lia|lia|done|lia|rewrite Z.pow_add_r by lia; lia].
    unfold round_div. rewrite Hq, Hr. unfold q, rem. destruct (Z.ltb_spec delta 0).
    + rewrite (proj2 (Z.ltb_lt _ _)) by lia. cbn [orb]. lia.
    + rewrite (proj2 (Z.ltb_ge _ _)), (proj2 (Z.eqb_neq _ _)) by lia. cbn [orb andb]. lia.
Qed.

Lemma packed_finite x : finite F x -> packed F x < inf_packed F.
Proof.
  intros (Hc & _ & He). unfold packed, inf_packed. fold C. pose proof (cval_range F _ Hc) as Hv. unfold cval in Hv. nia.
Qed.

(** The exact sum is the first operand and a little more or less. *)
Lemma far_sum x y :
  finite F x -> finite F y -> expo y <= expo x -> close F x y = false ->
  let g := expo x - 1 in
  C + 4 <= g /\ 2 ^ C <= significand F x < 2 * 2 ^ C /\ packed F x = g * 2 ^ C + significand F x /\
  sum_negative F x y = sign x /\
  exists delta, sum_magnitude F x y = significand F x * 2 ^ g + delta /\ 4 * Z.abs delta < 2 ^ g.
Proof.
  intros Hx Hy Hle Hc. cbn zeta. pose proof (significand_range F x Hx) as (HSX & HSX1 & _).
  pose proof (significand_range F y Hy) as (HSY & _ & _). destruct Hx as (_ & Hex & _), Hy as (_ & Hey & _).
  unfold close, expo_distance in Hc. apply Z.leb_gt in Hc. fold C in Hc. unfold ROUND_BITS in Hc.
  pose proof (C_large F) as HC. unfold ROUND_BITS in HC. pose proof (pow_C_pos F).
  assert (C + 4 <= expo x - 1) as Hg by lia. specialize (HSX1 ltac:(lia)).
  assert (implicit_bit x = 1) as Hib by (destruct (implicit_bit_cases x Hex); lia).
  split; [done|]. split; [lia|]. split.
  { unfold packed, significand. fold C. rewrite Hib. lia. }
  unfold sum_negative, sum_magnitude, svalue, magnitude_ieee. rewrite (Z.max_r 1 (expo x)) by lia.
  set (my := significand F y * 2 ^ (Z.max 1 (expo y) - 1)). assert (0 <= my /\ 4 * my < 2 ^ (expo x - 1)) as [Hmy0 Hmy].
  { replace (expo x - 1) with (Z.max 1 (expo y) - 1 + (C + 3) + (expo x - Z.max 1 (expo y) - (C + 3))) by lia.
    rewrite !(Z.pow_add_r 2) by lia. change (2 ^ 3) with 8.
    pose proof (Z.pow_pos_nonneg 2 (Z.max 1 (expo y) - 1) ltac:(lia) ltac:(lia)) as Hp1.
    pose proof (Z.pow_pos_nonneg 2 (expo x - Z.max 1 (expo y) - (C + 3)) ltac:(lia) ltac:(lia)) as Hp2. unfold my.
    set (p1 := 2 ^ (Z.max 1 (expo y) - 1)) in *. set (p2 := 2 ^ (expo x - Z.max 1 (expo y) - (C + 3))) in *.
    split; [nia|]. assert (4 * significand F y < 2 ^ C * 8) as Hs by lia. apply (Z.lt_le_trans _ (2 ^ C * 8 * p1)); nia. }
  pose proof (Z.pow_pos_nonneg 2 (expo x - 1) ltac:(lia) ltac:(lia)) as Hp.
  set (mx := significand F x * 2 ^ (expo x - 1)). assert (2 ^ (expo x - 1) <= mx) as Hmx by (unfold mx; nia).
  split.
  - destruct (sign x), (sign y); cbn [andb];
      (lazymatch goal with |- context [?v =? 0] => destruct (Z.eqb_spec v 0); [lia|] end); first [apply Z.ltb_lt; lia|apply Z.ltb_ge; lia].
  - exists (if xorb (sign x) (sign y) then - my else my). split; destruct (sign x), (sign y); cbn [xorb]; lia.
Qed.

Lemma align_far x y :
  finite F x -> finite F y -> expo y <= expo x -> close F x y = false ->
  exists v, align F x y = (false, mkAlign v 0 (zero_coeff F)) /\ (v = 0 \/ v = 1).
Proof.
  intros (_ & Hx & _) (_ & Hy & _) Hle Hc. unfold close, expo_distance in Hc. apply Z.leb_gt in Hc. unfold align.
  rewrite !expo_implicit by done.
  replace (_ >? _) with true by (symmetry; rewrite Z.gtb_ltb; apply Z.ltb_lt; lia).
  eexists. split; [done|]. destruct (nz_coeff (coeff y)); cbn; lia.
Qed.

(** The value that the code rounds, in eighths of a unit *)
Lemma far_coeffs x v :
  finite F x -> 2 ^ C <= significand F x -> v = 0 \/ v = 1 ->
  exists s, add_coeffs F (sign x) (implicit_bit x) (coeff x) (mkAlign v 0 (zero_coeff F)) = (s, false) /\
    valid F s /\ n_lbits s < 4 /\ nval F s = 8 * significand F x + (if sign x then - v else v).
Proof.
  intros Hx HSX Hv. set (a := mkAlign v 0 (zero_coeff F)). destruct (zero_coeff_value F) as [Hzc Hzv]. pose proof (pow_C_pos F).
  assert (Hav : valid F (aligned a)).
  { split; [done|]. cbn [aligned a a_rbits a_lbits n_rbits n_lbits]. lia. }
  assert (Hanv : nval F (aligned a) = v).
  { unfold nval, sig. cbn [aligned a a_rbits a_lbits a_coeff n_rbits n_lbits n_coeff]. rewrite Hzv. lia. }
  assert (Hal : a_lbits a <= 1) by (cbn [a a_lbits]; lia).
  assert (implicit_bit x * 2 ^ C + cval F (coeff x) = significand F x) as Hsx by done. destruct (sign x).
  - destruct (add_coeffs_diff F _ _ a (implicit_bit_bit x) (proj1 Hx) Hav Hal) as (Ho & Hsv & Hl & Hn). cbn zeta in *.
    rewrite Hsx, Hanv in *. destruct (add_coeffs F true _ _ a) as [s opp]. cbn [fst snd] in *. exists s.
    rewrite Ho, (proj2 (Z.ltb_ge _ _)) by lia. split; [done|]. split; [done|]. lia.
  - destruct (add_coeffs_same F _ _ a (implicit_bit_bit x) (proj1 Hx) Hav Hal) as (Ho & Hsv & Hl & Hn). cbn zeta in *.
    rewrite Hsx, Hanv in *. destruct (add_coeffs F false _ _ a) as [s opp]. cbn [fst snd] in *. exists s.
    subst opp. split; [done|]. split; [done|]. lia.
Qed.

Lemma far_represents x v s :
  C + 4 <= expo x - 1 -> 2 ^ C <= significand F x -> v = 0 \/ v = 1 ->
  valid F s -> n_lbits s < 4 -> nval F s = 8 * significand F x + (if sign x then - v else v) ->
  stands_for F (sum_shift F (expo x) s) (significand F x * 2 ^ (expo x - 1) + (if sign x then - v else v)) 1.
Proof.
  intros Hg HSX Hv Hs Hsl Hsv. set (g := expo x - 1) in *. set (w := if sign x then - v else v) in *.
  pose proof (C_large F) as HC. unfold ROUND_BITS in HC. pose proof (pow_C_pos F).
  assert (8 < 2 ^ g) as Hg8 by (change 8 with (2 ^ 3); apply Z.pow_lt_mono_r; lia).
  assert (num (expo x) (significand F x * 2 ^ g + w) = significand F x * 2 ^ g + w /\ den (expo x) 1 = 2 ^ g) as [Hnum Hden].
  { unfold num, den, g. rewrite Z.max_l, Z.max_r by lia. change (2 ^ 0) with 1. lia. }
  apply sum_shift_represents; try done; try lia; rewrite ?Hnum, ?Hden, ?Hsv.
  - unfold w. destruct Hv as [-> | ->], (sign x); unfold sticky, exact_for, near2.
    1,2: left; lia.
    + right. exists (4 * significand F x - 1). split; [lia|]. lia.
    + right. exists (4 * significand F x). split; [lia|]. lia.
  - intros _. right. rewrite Z.pow_add_r by lia. change (2 ^ 2) with 4. unfold w. destruct (sign x); lia.
Qed.

Lemma add_finite_far x y :
  ar_underflow_mode = AR_UNDERFLOW_TO_DENORM ->
  finite F x -> finite F y -> expo y <= expo x -> close F x y = false ->
  exists s r, add_finite F x y AR_ROUND_NEAREST = Ok (s, r) /\
    rounds_to F false AR_ROUND_NEAREST (sum_negative F x y) (sum_magnitude F x y) 1 s r.
Proof.
  intros Hu Hx Hy Hle Hc. destruct (far_sum x y Hx Hy Hle Hc) as (Hg & HSX & Hpx & Hneg & delta & HN & Hdelta).
  destruct (align_far x y Hx Hy Hle Hc) as (v & Ha & Hv). unfold add_finite. rewrite Ha, xorb_false_r.
  pose proof (C_large F) as HC. unfold ROUND_BITS in HC. pose proof (pow_C_pos F).
  destruct (far_coeffs x v Hx (proj1 HSX) Hv) as (s & -> & Hs & Hsl & Hsv). rewrite xorb_false_r.
  pose proof (far_represents x v s Hg (proj1 HSX) Hv Hs Hsl Hsv) as Hrep. set (w := if sign x then - v else v) in *.
  set (g := expo x - 1) in *. pose proof (Z.pow_lt_mono_r 2 3 g ltac:(lia) ltac:(lia) ltac:(lia)) as Hg8. change (2 ^ 3) with 8 in Hg8.
  pose proof Hrep as (Hvs & Hd & _). destruct (sum_shift F (expo x) s) as [E l r c].
  pose proof (decides_zero _ _ _ (den_pos E 1 ltac:(lia)) Hd) as Hz. cbn [n_expo] in Hz.
  destruct Hvs as (Hcf & Hrb & Hl0). cbn [n_coeff n_rbits n_lbits] in *. rewrite (nz_coeff_cval F), negb_involutive by done.
  assert (significand F x * 2 ^ g + w <> 0) as Hnz by (unfold w; destruct (sign x); nia).
  replace ((l =? 0) && (cval F c =? 0) && (r =? 0)) with false.
  2:{ symmetry. apply not_true_is_false. rewrite !andb_true_iff, !Z.eqb_eq. intros [[-> Hc0] ->]. apply Hnz.
      apply (num_zero E). assert (8 * num E (significand F x * 2 ^ g + w) = 0); [|lia]. apply Hz.
      unfold nval, sig. cbn [n_lbits n_coeff n_rbits]. lia. }
  destruct (ar_inorm_ok F E l r (mkIeee (sign x) E c) AR_ROUND_NEAREST _ 1 Hu ltac:(lia) Hrep eq_refl)
    as (st & res & He & Hwf & Hsg & Hp & _).
  exists st, res. split; [done|]. split; [done|]. rewrite Hneg. split; [done|]. split; [|done].
  cbn [sign] in Hp. rewrite Hp. unfold ref_packed. fold C. rewrite HN.
  rewrite !round_near; [done|lia|lia|lia|lia|lia|]. unfold w. destruct (sign x); lia.
Qed.

(** ** Addition and subtraction of finite numbers *)
Lemma sum_comm a b :
  sum_negative F a b = sum_negative F b a /\ sum_magnitude F a b = sum_magnitude F b a /\ close F a b = close F b a.
Proof.
  unfold sum_negative, sum_magnitude, close, expo_distance. rewrite (Z.add_comm (svalue F a)), (andb_comm (sign a)).
  split; [done|]. split; [done|]. f_equal. lia.
Qed.

Definition traps (a b : AR_IEEE) : bool := ar_denorms_trap && (is_denorm a || is_denorm b).

Lemma add_ok a b mode :
  ar_underflow_mode = AR_UNDERFLOW_TO_DENORM ->
  finite F a -> finite F b -> traps a b = false ->
  (close F a b = true \/ mode = AR_ROUND_NEAREST) ->
  mode_sound mode (sum_negative F a b) (round_inexact C (sum_magnitude F a b) 1) = true ->
  exists s r, ar_ifadd_fields F a b mode = Ok (s, r) /\
    rounds_to F (close F a b && is_nearest_or_zero mode) mode (sum_negative F a b) (sum_magnitude F a b) 1 s r.
Proof.
  intros Hu Ha Hb Ht Hc Hm. unfold ar_ifadd_fields.
  assert (exists x y, (if expo b >? expo a then (a, b) else (b, a)) = (y, x) /\ finite F x /\ finite F y /\ expo y <= expo x /\
            sum_negative F a b = sum_negative F x y /\ sum_magnitude F a b = sum_magnitude F x y /\ close F a b = close F x y /\
            traps x y = false) as (x & y & -> & Hx & Hy & Hle & Hn & HN & Hcl & Ht').
  { destruct (sum_comm a b) as (? & ? & ?). destruct (Z.gtb_spec (expo b) (expo a)); [exists b, a|exists a, b]; split_and!; try done; try lia.
    unfold traps in *. by rewrite (orb_comm (is_denorm b)). }
  destruct (finite_tests F x Hx) as [-> ->], (finite_tests F y Hy) as [-> ->]. fold (traps x y). rewrite Ht'.
  rewrite Hn, HN, Hcl in *. destruct (close F x y) eqn:Hcc; cbn [andb].
  - by apply add_finite_close.
  - destruct Hc as [?| ->]; [done|]. by apply add_finite_far.
Qed.

Lemma negate_finite b : finite F b -> finite F (negate_ieee b) /\ is_denorm (negate_ieee b) = is_denorm b /\
  close F b (negate_ieee b) = true /\ svalue F (negate_ieee b) = - svalue F b.
Proof.
  intros Hb. split; [done|]. split; [done|]. split.
  - unfold close, expo_distance. cbn [negate_ieee expo]. rewrite Z.sub_diag. pose proof (C_large F). apply Z.leb_le. fold C. cbn. unfold ROUND_BITS in *. lia.
  - unfold svalue. cbn [negate_ieee sign]. change (magnitude_ieee F (negate_ieee b)) with (magnitude_ieee F b). destruct (sign b); cbn [negb]; lia.
Qed.

End Finite.
