(* ===== verification/IeeeDiv.v ===== *)
(** Division by repeated subtraction.  The scaled divisor is shifted out of its
    two coefficients during the last three steps, so that the loop computes the
    quotient and its sticky bit for divisors whose last three bits are zero. *)
From Stdlib Require Import ZArith Lia Bool.
From stdpp Require Import prelude list.
From S2P Require Import Prelude ArData IeeeData IeeeFields IeeeOps IeeeRound IeeeNorm IeeeResult IeeeMul.

(** ** Comparison of fields *)
Lemma fields_le_value ws z y :
  positive_widths ws -> fields ws z -> fields ws y -> fields_le z y = (fval ws z <=? fval ws y).
Proof.
  intros Hp Hz. revert y. induction Hz as [|w c ws z Hc Hz IH]; intros y Hy; [by inversion Hy|].
  destruct (fields_cons_inv _ _ _ Hy) as (d & y' & -> & Hd & Hy'). destruct (sumz_cons w ws Hp) as (? & Hws & ? & ? & _).
  cbn [fields_le fval]. rewrite (IH Hws y' Hy'). pose proof (fval_range ws z Hws Hz). pose proof (fval_range ws y' Hws Hy').
  destruct (Z.ltb_spec c d), (Z.eqb_spec c d); cbn [orb andb]; subst; symmetry;
    [lia|apply Z.leb_le; nia| |apply Z.leb_gt; nia].
  apply eq_bool_prop_intro. rewrite !Is_true_true, !Z.leb_le. lia.
Qed.

Lemma fields_le_pair ws z z2 y y2 :
  positive_widths ws -> fields ws z -> fields ws z2 -> fields ws y -> fields ws y2 ->
  fields_le (z ++ z2) (y ++ y2) =
  (fval ws z * 2 ^ sumz ws + fval ws z2 <=? fval ws y * 2 ^ sumz ws + fval ws y2).
Proof.
  intros Hp Hz Hz2 Hy Hy2.
  assert (forall vs x x2, positive_widths vs -> fields vs x -> fval (vs ++ ws) (x ++ x2) = fval vs x * 2 ^ sumz ws + fval ws x2) as Happ.
  { intros vs x x2 Hvs Hx. induction Hx as [|w c vs x Hc Hx IH]; [cbn; lia|]. destruct (sumz_cons w vs Hvs) as (? & Hvs' & _).
    cbn [app fval]. rewrite IH by done. assert (sumz (vs ++ ws) = sumz vs + sumz ws) as ->.
    { clear. induction vs as [|v vs IH]; cbn [app sumz foldr]; unfold sumz in *; lia. }
    rewrite Z.pow_add_r by (by apply sumz_nonneg). lia. }
  rewrite (fields_le_value (ws ++ ws)); [|by apply Forall_app|by apply Forall2_app|by apply Forall2_app]. by rewrite !Happ.
Qed.

Lemma small_pair l y y2 c b : 0 < b < c -> 0 <= y -> 0 <= y2 -> l * (c * c) + y * c + y2 < b -> bit l -> l = 0 /\ y = 0.
Proof.
  intros Hb Hy Hy2 Hlt [-> | ->]; split; try done; [|exfalso; nia..]. nia.
Qed.

Lemma land_1 v : Z.land v 1 = v mod 2.
Proof. change 1 with (Z.ones 1) at 1. by rewrite Z.land_ones by lia. Qed.

Section Conditions.
Context (F : Format).

(** The divisor's normalised significand ends in three zero bits. *)
Definition divisor_short (b : AR_IEEE) : Prop :=
  significand F b mod 8 = 0 \/ significand F b < 2 ^ (coeff_bits F - 2).

(** The bits of the quotient that normalisation to the left will need are among
    the three rounding bits. *)
Definition quotient_kept (a b : AR_IEEE) : Prop :=
  expo a <> 0 \/ significand F a = 0 \/ expo_bias F <= expo b + 1.

End Conditions.

Section Div.
Context (F : Format) `{!GoodFormat F} `{FpState}.

Local Abbreviation C := (C F).
Local Abbreviation cval := (cval F).
Local Abbreviation coefficient := (coefficient F).

Definition pair (l : Z) (x x2 : list Z) : Z := l * 2 ^ (2 * C) + cval x * 2 ^ C + cval x2.
Definition remainder (s : div_state) : Z := pair (d_ylbits s) (d_y s) (d_y2 s).
Definition divisor (s : div_state) : Z := pair (d_zlbits s) (d_z s) (d_z2 s).
Definition quotient (s : div_state) : norm_state := mkNorm 0 (d_lbits s) (d_rbits s) (d_x s).

Definition div_valid (s : div_state) : Prop :=
  valid F (quotient s) /\ (coefficient (d_y s) /\ coefficient (d_y2 s)) /\ (coefficient (d_z s) /\ coefficient (d_z2 s)) /\
  bit (d_ylbits s) /\ bit (d_zlbits s).

Lemma rbits_digit r (d : bool) : 0 <= r < 8 ->
  let b := Z.shiftr r (ROUND_BITS - 1) in
  let r' := Z.land (Z.shiftl r 1) (MASKR ROUND_BITS) in
  let r' := if d then Z.lor r' 1 else r' in
  bit b /\ 0 <= r' < 8 /\ 8 * b + r' = 2 * r + b2z d.
Proof.
  intros Hr. destruct (rbits_cases r Hr) as [->|[->|[->|[->|[->|[->|[->| ->]]]]]]], d;
    (split; [first [left; reflexivity|right; reflexivity]|vm_compute; repeat split; congruence]).
Qed.

(** [y, y2] minus [z, z2], by adding the complement *)
Lemma pair_sub yl y y2 zl z z2 :
  bit yl -> bit zl -> coefficient y -> coefficient y2 -> coefficient z -> coefficient z2 -> pair zl z z2 <= pair yl y y2 ->
  let p := ADDIEEE (c_bits F) 1 y2 (NOTIEEE (c_bits F) z2) in
  let q := ADDIEEE (c_bits F) (fst p) y (NOTIEEE (c_bits F) z) in
  let l := Z.land (yl + fst q + Z.lxor zl 1) 1 in
  coefficient (snd p) /\ coefficient (snd q) /\ bit l /\ pair l (snd q) (snd p) = pair yl y y2 - pair zl z z2.
Proof.
  intros Hyl Hzl Hy Hy2 Hz Hz2 Hle. cbn zeta. destruct (not_cval F z2 Hz2) as [Hn2 Hv2]. destruct (not_cval F z Hz) as [Hn Hv].
  destruct (add_cval F 1 y2 _ Hy2 Hn2) as [Hp Hpv]. destruct (ADDIEEE (c_bits F) 1 y2 _) as [k p]. cbn [fst snd] in *.
  destruct (add_cval F k y _ Hy Hn) as [Hq Hqv]. destruct (ADDIEEE (c_bits F) k y _) as [k' q]. cbn [fst snd] in *.
  pose proof (cval_range F _ Hp). pose proof (cval_range F _ Hq). pose proof (cval_range F _ Hy). pose proof (cval_range F _ Hy2).
  pose proof (cval_range F _ Hz). pose proof (cval_range F _ Hz2). pose proof (pow_C_pos F).
  unfold pair in *. rewrite (pow_2C F) in *.
  assert (Z.lxor zl 1 = 1 - zl) as -> by (destruct Hzl as [-> | ->]; done).
  rewrite land_1. unfold bit in *.
  set (t := yl + k' - 1 - zl). assert (t = 0 \/ t = 1) as Ht by (unfold t in *; nia).
  replace (yl + k' + (1 - zl)) with (t + 1 * 2) by (unfold t; lia). rewrite Z.mod_add by lia.
  rewrite (Z.mod_small t) by lia. split; [done|]. split; [done|]. split; [lia|]. unfold t. lia.
Qed.

Lemma pair_half zl z z2 :
  bit zl -> coefficient z -> coefficient z2 ->
  let z' := or_top (c_bits F) (SHRIGHTIEEE (c_bits F) z 0) zl in
  let z2' := SHRIGHTIEEE (c_bits F) z2 (last_field z) in
  coefficient z' /\ coefficient z2' /\ pair 0 z' z2' = pair zl z z2 / 2.
Proof.
  intros Hzl Hz Hz2. cbn zeta. rewrite (or_top_shright F) by done.
  assert (0 <= last_field z) as Hlast.
  { unfold last_field. destruct (last z) as [c|] eqn:Hl; [|cbn; lia]. cbn. apply last_Some_elem_of in Hl.
    apply list_elem_of_lookup in Hl as [i Hi]. destruct (Forall2_lookup_r _ _ _ _ _ Hz Hi) as (w & _ & [? _]). lia. }
  destruct (shright_cval F z zl Hz ltac:(unfold bit in Hzl; lia)) as [Hz' Hv].
  destruct (shright_cval F z2 _ Hz2 Hlast) as [Hz2' Hv2]. split; [done|]. split; [done|].
  assert (last_field z mod 2 = cval z mod 2) as Hlow.
  { rewrite <- (low_bit_cval F) by done. unfold low_bit. by rewrite land_1. }
  rewrite Hlow in Hv2. replace (zl mod 2) with zl in Hv by (destruct Hzl as [-> | ->]; done).
  unfold pair. rewrite (pow_2C F). apply (Z.div_unique _ _ _ (cval z2 mod 2)); [left; apply Z.mod_pos_bound; lia|]. lia.
Qed.

Lemma div_step_ok s : div_valid s -> d_lbits s = 0 ->
  let d := divisor s <=? remainder s in
  let s' := div_step F s in
  div_valid s' /\ n_lbits (quotient s') <= 1 /\ nval F (quotient s') = 2 * nval F (quotient s) + b2z d /\
  remainder s' = remainder s - (if d then divisor s else 0) /\ divisor s' = divisor s / 2.
Proof.
  intros ((Hx & Hr & _) & (Hy & Hy2) & (Hz & Hz2) & Hyl & Hzl) Hl. destruct s as [l x r yl y y2 zl z z2].
  unfold quotient, remainder, divisor in *. cbn [d_lbits d_x d_rbits d_ylbits d_y d_y2 d_zlbits d_z d_z2 n_coeff n_rbits n_lbits] in *. subst l.
  assert ((zl <? yl) || ((zl =? yl) && fields_le (z ++ z2) (y ++ y2)) = (pair zl z z2 <=? pair yl y y2)) as Hcmp.
  { rewrite (fields_le_pair (c_bits F)) by (done || apply good_bits). unfold pair. rewrite (pow_2C F).
    pose proof (cval_range F _ Hy). pose proof (cval_range F _ Hy2). pose proof (cval_range F _ Hz). pose proof (cval_range F _ Hz2).
    rewrite <- good_coeff_bits. change (fval (c_bits F)) with cval. fold C. unfold bit in *. pose proof (pow_C_pos F).
    apply eq_bool_prop_intro. rewrite orb_True, andb_True, !Is_true_true, Z.ltb_lt, Z.eqb_eq, !Z.leb_le. nia. }
  cbn [div_step]. rewrite Hcmp. clear Hcmp. set (d := pair zl z z2 <=? pair yl y y2).
  destruct (rbits_digit r d Hr) as (Hb & Hr' & Hrv). rewrite (or_low_shleft F) by done.
  destruct (shleft_cval F x _ Hx Hb) as (Hx' & Ht & Hxv). destruct (pair_half zl z z2 Hzl Hz Hz2) as (Hz' & Hz2' & Hzv).
  assert (exists yl' y' y2', (if d then
        let '(carry, y2) := ADDIEEE (c_bits F) 1 y2 (NOTIEEE (c_bits F) z2) in
        let '(carry, y) := ADDIEEE (c_bits F) carry y (NOTIEEE (c_bits F) z) in
        (Z.lor (Z.land (Z.shiftl r 1) (MASKR ROUND_BITS)) 1, Z.land (yl + carry + Z.lxor zl 1) 1, y, y2)
      else (Z.land (Z.shiftl r 1) (MASKR ROUND_BITS), yl, y, y2)) =
      (if d then Z.lor (Z.land (Z.shiftl r 1) (MASKR ROUND_BITS)) 1 else Z.land (Z.shiftl r 1) (MASKR ROUND_BITS), yl', y', y2') /\
      coefficient y' /\ coefficient y2' /\ bit yl' /\ pair yl' y' y2' = pair yl y y2 - (if d then pair zl z z2 else 0))
    as (yl' & y' & y2' & -> & Hy' & Hy2' & Hyl' & Hyv).
  { destruct d eqn:Hd; [|exists yl, y, y2; split_and!; done || lia].
    destruct (pair_sub yl y y2 zl z z2 Hyl Hzl Hy Hy2 Hz Hz2) as (H1 & H2 & H3 & H4); [by apply Z.leb_le|].
    destruct (ADDIEEE (c_bits F) 1 y2 _) as [k p]. cbn [fst snd] in *. destruct (ADDIEEE (c_bits F) k y _) as [k' q]. cbn [fst snd] in *.
    eexists _, _, _. split; [done|]. done. }
  cbn [d_lbits d_x d_rbits d_ylbits d_y d_y2 d_zlbits d_z d_z2 n_lbits].
  set (r2 := if d then _ else _) in *. unfold nval, sig. cbn [n_lbits n_coeff n_rbits].
  split; [|unfold bit in Ht; split; [lia|]; split; [nia|done]].
  split; [split; [done|]; unfold bit in Ht; cbn [quotient d_x d_lbits d_rbits n_rbits n_lbits]; lia|].
  split; [done|]. split; [done|]. split; [done|by left].
Qed.

(** ** The loop *)
Definition div_inv (A B i : Z) (s : div_state) : Prop :=
  div_valid s /\ divisor s * 2 ^ i = B * 2 ^ C /\ A * 2 ^ C = nval F (quotient s) * (2 * divisor s) + remainder s /\
  0 <= remainder s < 2 * divisor s /\ 0 <= nval F (quotient s) < 2 ^ i.

Lemma quotient_lbits i s : i <= C + 3 -> div_valid s -> nval F (quotient s) < 2 ^ i -> d_lbits s = 0.
Proof.
  intros Hi (Hv & _) Hn. assert (~ 1 <= n_lbits (quotient s)) as Hnot.
  { rewrite (lbits_le F _ 1 Hv). pose proof (Z.pow_le_mono_r 2 i (C + 3) ltac:(lia) Hi). lia. }
  destruct Hv as (_ & _ & Hl). cbn [quotient n_lbits] in *. lia.
Qed.

Lemma div_inv_step A B i s :
  0 <= i <= C + 2 -> B mod 8 = 0 -> 0 < B -> div_inv A B i s -> div_inv A B (i + 1) (div_step F s).
Proof.
  intros Hi H8 HB (Hs & Hd & HA & Hrem & Hq). pose proof (quotient_lbits i s ltac:(lia) Hs (proj2 Hq)) as Hl.
  destruct (div_step_ok s Hs Hl) as (Hs' & _ & Hqv & Hrv & Hdv). pose proof (Z.pow_pos_nonneg 2 i ltac:(lia) ltac:(lia)) as Hp.
  assert (divisor s = B / 8 * 2 ^ (C + 2 - i) * 2) as He.
  { pose proof (C_large F) as HC. unfold ROUND_BITS in HC. apply (Z.mul_reg_r _ _ (2 ^ i)); [lia|]. rewrite Hd.
    assert (2 ^ (C + 2 - i) * 2 ^ i = 2 ^ C * 4) as Hpow.
    { change 4 with (2 ^ 2). rewrite <- !Z.pow_add_r by lia. f_equal. lia. }
    pose proof (Z.div_mod B 8 ltac:(lia)) as HB8. rewrite H8 in HB8. rewrite HB8 at 1. lia. }
  assert (divisor s mod 2 = 0) as Heven by (rewrite He; apply Z.mod_mul; lia).
  pose proof (Z.div_mod (divisor s) 2 ltac:(lia)) as Hh. rewrite Heven in Hh.
  split; [done|]. rewrite Hqv, Hrv, Hdv. rewrite Z.pow_add_r by lia. change (2 ^ 1) with 2.
  destruct (Z.leb_spec (divisor s) (remainder s)); cbn [b2z]; split_and!; try lia; nia.
Qed.

Lemma div_loop A B n s :
  Z.of_nat n <= C + 3 -> B mod 8 = 0 -> 0 < B -> div_inv A B 0 s -> div_inv A B (Z.of_nat n) (Nat.iter n (div_step F) s).
Proof.
  intros Hn H8 HB Hs. induction n as [|n IH]; [done|].
  change (Nat.iter (S n) (div_step F) s) with (div_step F (Nat.iter n (div_step F) s)).
  rewrite Nat2Z.inj_succ. apply div_inv_step; [lia|done|done|]. apply IH. lia.
Qed.

(** The variables after the loop: the quotient and a remainder in [d_y2] *)
Lemma div_loop_ok A B s :
  B mod 8 = 0 -> 2 ^ C <= B < 2 * 2 ^ C -> div_inv A B 0 s ->
  let q := Nat.iter (Z.to_nat (coeff_bits F + ROUND_BITS + 1)) (div_step F) s in
  valid F (quotient q) /\ n_lbits (quotient q) <= 1 /\ coefficient (d_y2 q) /\
  sticky (nval F (quotient q) + (if nz_coeff (d_y2 q) then b2z (negb (Z.odd (nval F (quotient q)))) else 0)) (8 * A * 2 ^ C) B.
Proof.
  intros H8 HB Hs. pose proof (C_large F) as HC. unfold ROUND_BITS in HC. pose proof (pow_C_pos F). fold C. cbn zeta.
  replace (Z.to_nat (C + ROUND_BITS + 1)) with (S (Z.to_nat (C + 3))) by (unfold ROUND_BITS; lia).
  pose proof (div_loop A B (Z.to_nat (C + 3)) s ltac:(lia) H8 ltac:(lia) Hs) as Hi. rewrite Z2Nat.id in Hi by lia.
  change (Nat.iter (S ?n) (div_step F) s) with (div_step F (Nat.iter n (div_step F) s)).
  set (t := Nat.iter _ _ s) in *. clearbody t. destruct Hi as (Ht & Hd & HA & Hrem & Hq).
  pose proof (quotient_lbits (C + 3) t ltac:(lia) Ht (proj2 Hq)) as Hl.
  destruct (div_step_ok t Ht Hl) as ((Hqv & (Hy & Hy2) & _ & Hyl & _) & Hl' & Hqn & Hrv & _).
  set (u := div_step F t) in *. clearbody u. rewrite Z.pow_add_r in Hd by lia. change (2 ^ 3) with 8 in Hd.
  assert (divisor t = B / 8) as Hdiv by (pose proof (Z.div_mod B 8 ltac:(lia)); nia).
  pose proof (Z.div_mod B 8 ltac:(lia)) as HB8. rewrite H8 in HB8. set (b := B / 8) in *. clearbody b. rewrite Hdiv in *.
  assert (0 < b < 2 ^ C) as Hb by lia.
  assert (0 <= remainder u < b /\ A * 2 ^ C = nval F (quotient u) * b + remainder u) as [Hru HAu].
  { rewrite Hqn, Hrv. destruct (Z.leb_spec b (remainder t)); cbn [b2z]; nia. }
  assert (remainder u = cval (d_y2 u)) as Hy2v.
  { pose proof (cval_range F _ Hy). pose proof (cval_range F _ Hy2). unfold remainder, pair in *. rewrite (pow_2C F) in *.
    destruct (small_pair (d_ylbits u) (cval (d_y u)) (cval (d_y2 u)) (2 ^ C) b) as [-> ->]; [lia..|done|lia]. }
  split; [done|]. split; [done|]. split; [done|]. rewrite (nz_coeff_cval F), <- Hy2v by done. set (Q := nval F (quotient u)) in *.
  apply (sticky_ratio _ (A * 2 ^ C) b); [lia|lia|nia|]. apply sticky_of; [lia|].
  assert ((A * 2 ^ C) / b = Q /\ (A * 2 ^ C) mod b = remainder u) as [-> ->].
  { split; symmetry; [apply (Z.div_unique _ _ _ (remainder u)); [left; lia|lia]|apply (Z.mod_unique _ _ Q); [left; lia|lia]]. }
  destruct (Z.eqb_spec (remainder u) 0); cbn [negb]; [lia|]. rewrite lor_1. destruct (Z.odd Q); cbn; lia.
Qed.

(** ** The divisor *)
Lemma div_normalize_ok n z E :
  coefficient z -> 0 < cval z -> 2 ^ C <= cval z * 2 ^ Z.of_nat n ->
  exists z' k, div_normalize F n 0 z E = Ok (1, z', E + k) /\ 0 < k /\ coefficient z' /\ 2 ^ C + cval z' = cval z * 2 ^ k.
Proof.
  revert z E. induction n as [|n IH]; intros z E Hz Hp Hn; pose proof (cval_range F z Hz).
  { change (2 ^ Z.of_nat 0) with 1 in Hn. lia. }
  cbn [div_normalize Z.eqb]. destruct (shleft_cval F z 0 Hz ltac:(by left)) as (Hz' & Ht & Hv). rewrite Nat2Z.inj_succ, Z.pow_succ_r in Hn by lia.
  set (t := top_bit (c_bits F) z 0) in *. set (z1 := SHLEFTIEEE (c_bits F) z 0) in *. destruct Ht as [-> | ->].
  - destruct (IH z1 (E + 1) Hz' ltac:(lia)) as (z' & k & -> & Hk & Hc & He).
    { assert (cval z1 = 2 * cval z) as -> by lia. lia. }
    exists z', (k + 1). split; [f_equal; f_equal; lia|]. split; [lia|]. split; [done|]. rewrite He, Z.pow_add_r by lia. change (2 ^ 1) with 2. nia.
  - exists z1, 1. split; [by destruct n|]. split; [lia|]. split; [done|]. change (2 ^ 1) with 2. lia.
Qed.

(** The divisor of the loop: a shift [k] makes it normal. *)
Lemma div_divisor b X :
  finite F b -> is_zero b = false ->
  exists z k, (if expo b =? 0 then div_normalize F (Z.to_nat (coeff_bits F)) (implicit_bit b) (coeff b) X
               else Ok (implicit_bit b, coeff b, X)) = Ok (1, z, X + k) /\
    0 <= k /\ coefficient z /\ 2 ^ C + cval z = significand F b * 2 ^ k /\ (0 < expo b -> k = 0).
Proof.
  intros (Hc & He & _) Hz. unfold is_zero in Hz. rewrite (nz_coeff_cval F), negb_involutive in Hz by done.
  unfold significand. fold C. change (fval (c_bits F)) with cval. pose proof (cval_range F _ Hc).
  destruct (implicit_bit_cases b He) as [[Ez ->]|[En ->]].
  - rewrite Ez in *. cbn [Z.eqb andb] in *. apply Z.eqb_neq in Hz. pose proof (C_large F) as HC. unfold ROUND_BITS in HC.
    destruct (div_normalize_ok (Z.to_nat C) (coeff b) X Hc ltac:(lia)) as (z & k & -> & Hk & Hcz & Hv).
    { rewrite Z2Nat.id by lia. nia. }
    exists z, k. split; [done|]. split; [lia|]. split; [done|]. split; [lia|lia].
  - rewrite (proj2 (Z.eqb_neq (expo b) 0)) by lia. exists (coeff b), 0. rewrite Z.add_0_r. split; [done|].
    split; [lia|]. split; [done|]. change (2 ^ 0) with 1. lia.
Qed.

Lemma div_start a z :
  finite F a -> coefficient z ->
  div_inv (significand F a) (2 ^ C + cval z) 0
    (mkDiv 0 (zero_coeff F) 0 (implicit_bit a) (coeff a) (zero_coeff F) 1 z (zero_coeff F)).
Proof.
  intros Ha Hz. pose proof (significand_range F a Ha) as (HA & _ & _). pose proof Ha as (Hca & _). destruct (zero_coeff_value F) as [Hzc Hzv].
  pose proof (cval_range F z Hz). pose proof (pow_C_pos F). unfold div_inv, div_valid, divisor, remainder, quotient, pair, nval, sig.
  cbn [d_lbits d_x d_rbits d_ylbits d_y d_y2 d_zlbits d_z d_z2 n_coeff n_rbits n_lbits]. rewrite Hzv, (pow_2C F). change (2 ^ 0) with 1.
  assert (significand F a = implicit_bit a * 2 ^ C + cval (coeff a)) as HAv by done.
  split; [|split; [lia|split; [rewrite HAv; lia|]]].
  - split; [split; [done|cbn [n_rbits n_lbits]; lia]|]. split; [done|]. split; [done|].
    split; [|by right]. unfold implicit_bit, bit. destruct (negb _); cbn; lia.
  - split; [|lia]. replace (implicit_bit a * (2 ^ C * 2 ^ C) + cval (coeff a) * 2 ^ C + 0) with (significand F a * 2 ^ C) by (rewrite HAv; lia). nia.
Qed.

(** ** The result *)
Definition div_expo (a b : AR_IEEE) (k : Z) : Z :=
  let e := Z.max 1 (expo a) - Z.max 1 (expo b) + expo_bias F + k in if e <=? 0 then e - 1 else e.

Lemma div_scale a b k B :
  0 <= k -> B = significand F b * 2 ^ k ->
  let E := div_expo a b k in
  num E (magnitude_ieee F a * 2 ^ (expo_bias F + C - 1)) * B = significand F a * 2 ^ C * den E (magnitude_ieee F b).
Proof.
  intros Hk ->. cbn zeta. unfold magnitude_ieee, num, den. set (A := significand F a). set (sb := significand F b).
  destruct (good_bias (F := F)) as [_ Hbias]. pose proof (C_large F) as HC. unfold ROUND_BITS in HC. unfold div_expo.
  set (p := Z.max 1 (expo a)). set (q := Z.max 1 (expo b)). assert (1 <= p /\ 1 <= q) as [Hp Hq] by lia.
  set (E := if _ <=? 0 then _ else _).
  replace (A * 2 ^ (p - 1) * 2 ^ (expo_bias F + C - 1) * 2 ^ Z.max 0 (- E) * (sb * 2 ^ k))
    with (A * sb * 2 ^ (p - 1 + (expo_bias F + C - 1) + Z.max 0 (- E) + k)) by (rewrite !Z.pow_add_r by lia; lia).
  replace (A * 2 ^ C * (sb * 2 ^ (q - 1) * 2 ^ Z.max 0 (E - 1)))
    with (A * sb * 2 ^ (C + (q - 1) + Z.max 0 (E - 1))) by (rewrite !Z.pow_add_r by lia; lia).
  do 2 f_equal. unfold E. destruct (Z.leb_spec (p - q + expo_bias F + k) 0); lia.
Qed.

Lemma divisor_mod b k B :
  divisor_short F b -> 0 <= k -> 2 ^ C <= B -> B = significand F b * 2 ^ k -> B mod 8 = 0.
Proof.
  intros [H8|Hs] Hk HB ->.
  - apply Z.mod_divide in H8 as [m ->]; [|lia]. replace (m * 8 * 2 ^ k) with (m * 2 ^ k * 8) by lia. by apply Z.mod_mul.
  - fold C in Hs. assert (~ k <= 2) as Hk3.
    { intros Hk2. pose proof (Z.pow_le_mono_r 2 k 2 ltac:(lia) Hk2) as Hp. change (2 ^ 2) with 4 in Hp.
      pose proof (C_large F) as HC. unfold ROUND_BITS in HC. assert (2 ^ C = 2 ^ (C - 2) * 4) as HC4.
      { change 4 with (2 ^ 2). rewrite <- Z.pow_add_r by lia. f_equal. lia. }
      pose proof (Z.pow_pos_nonneg 2 k ltac:(lia) Hk). nia. }
    replace k with (k - 3 + 3) by lia. rewrite Z.pow_add_r by lia. change (2 ^ 3) with 8. rewrite Z.mul_assoc. by apply Z.mod_mul.
Qed.

(** The arguments of [ar_inorm] represent the quotient. *)
Lemma div_represents a b k B s :
  finite F a -> 0 < significand F b -> divisor_short F b -> quotient_kept F a b ->
  0 <= k -> (0 < expo b -> k = 0) -> 0 <= expo b -> B = significand F b * 2 ^ k -> 2 ^ C <= B < 2 * 2 ^ C -> div_inv (significand F a) B 0 s ->
  let q := Nat.iter (Z.to_nat (coeff_bits F + ROUND_BITS + 1)) (div_step F) s in
  stands_for F (mkNorm (div_expo a b k) (d_lbits q) (if nz_coeff (d_y2 q) then Z.lor (d_rbits q) 1 else d_rbits q) (d_x q))
             (magnitude_ieee F a * 2 ^ (expo_bias F + C - 1)) (magnitude_ieee F b).
Proof.
  intros Ha Hsb Hds Hk Hk0 Hkn Heb HBk HB Hs. cbn zeta.
  destruct (div_loop_ok _ B s (divisor_mod b k B Hds Hk0 (proj1 HB) HBk) HB Hs) as ((Hx & Hr & Hl0) & Hl & Hy2 & Hst). cbn zeta in *.
  set (q := Nat.iter _ _ s) in *. clearbody q. cbn [quotient n_coeff n_rbits n_lbits] in Hx, Hr, Hl0, Hl.
  set (r := if nz_coeff (d_y2 q) then _ else _). set (n := mkNorm (div_expo a b k) (d_lbits q) r (d_x q)).
  pose proof (pow_C_pos F). pose proof (C_large F) as HC. unfold ROUND_BITS in HC. destruct (pow_C_split F) as [HC2 _].
  assert (0 <= r < 8 /\ nval F n = nval F (quotient q) + (if nz_coeff (d_y2 q) then b2z (negb (Z.odd (nval F (quotient q)))) else 0)) as [Hr8 Hn].
  { unfold n, nval, sig, quotient. cbn [n_lbits n_coeff n_rbits]. unfold r. destruct (nz_coeff (d_y2 q)); [|lia]. rewrite lor_1.
    replace ((d_lbits q * 2 ^ C + cval (d_x q)) * 8 + d_rbits q) with (d_rbits q + 2 * (4 * (d_lbits q * 2 ^ C + cval (d_x q)))) by lia.
    rewrite Z.odd_add_mul_2. destruct (odd_half (d_rbits q)) as (m & Hm). destruct (Z.odd (d_rbits q)); cbn [b2z negb] in *; lia. }
  rewrite <- Hn in Hst. assert (valid F n) as Hv by (split; [done|split; [done|cbn [n n_lbits]; lia]]).
  pose proof (div_scale a b k B Hk0 HBk) as Hsc. cbn zeta in Hsc.
  assert (0 < magnitude_ieee F b) as HD by (apply Z.mul_pos_pos; [done|apply Z.pow_pos_nonneg; lia]).
  set (N := magnitude_ieee F a * 2 ^ (expo_bias F + C - 1)) in *. set (D := magnitude_ieee F b) in *.
  assert (sticky (nval F n) (8 * num (n_expo n) N) (den (n_expo n) D)) as Hstn.
  { apply (sticky_ratio _ (8 * significand F a * 2 ^ C) B); [lia|by apply den_pos| |done]. cbn [n n_expo]. lia. }
  split; [done|]. split; [by apply sticky_decides; [apply den_pos|]|]. split.
  - intros _ HE. cbn [n n_expo] in HE. destruct (decide (expo a = 0)) as [Ha0|Hna].
    + destruct Hk as [?|[Hz|Hbig]]; [done|left|right].
      * assert (nval F n = 0) as Hn0.
        { assert (0 < B) as HB0 by lia. apply (decides_zero _ _ B HB0 (sticky_decides _ _ B HB0 Hst)). rewrite Hz. lia. }
        split; [by rewrite Hn0|]. destruct Hstn as [|(w & Hw & _)]; [done|lia].
      * split; [done|left]. cbn [n n_expo]. unfold div_expo in *. rewrite Ha0 in *. change (Z.max 1 0) with 1 in *.
        destruct (good_bias (F := F)) as [_ Hbias]. rewrite (Hkn ltac:(lia)) in *. destruct (Z.leb_spec (1 - Z.max 1 (expo b) + expo_bias F + 0) 0); lia.
    + right. split; [done|right]. destruct (significand_range F a Ha) as (_ & HA1 & _). specialize (HA1 Hna).
      rewrite Z.pow_add_r by lia. change (2 ^ 2) with 4. destruct Hst as [Hst|(w & Hw & Hst)]; [unfold exact_for in Hst|]; nia.
  - intros _. pose proof (cval_range F _ Hx). apply Z.div_lt_upper_bound; [lia|]. unfold nval, sig. cbn [n n_lbits n_coeff n_rbits].
    rewrite Z.pow_add_r by lia. change (2 ^ 1) with 2. nia.
Qed.

Lemma div_ok x a b mode :
  ar_underflow_mode = AR_UNDERFLOW_TO_DENORM ->
  finite F a -> finite F b -> is_zero b = false -> ar_denorms_trap && (is_denorm a || is_denorm b) = false ->
  divisor_short F b -> quotient_kept F a b ->
  let N := magnitude_ieee F a * 2 ^ (expo_bias F + C - 1) in
  let D := magnitude_ieee F b in
  let neg := xorb (sign a) (sign b) in
  mode_sound mode neg (round_inexact C N D) = true ->
  exists s r, ar_ifdiv_fields F x a b mode = Ok (s, r) /\ correctly_rounded F mode neg N D s r.
Proof.
  intros Hu Ha Hb Hz Ht Hds Hk. cbn zeta. intros Hm. unfold ar_ifdiv_fields.
  destruct (finite_tests F a Ha) as [-> ->], (finite_tests F b Hb) as [-> ->]. rewrite Hz, Ht.
  assert (forall e, 0 <= e -> e + b2z (e =? 0) = Z.max 1 e) as He.
  { intros e ?. destruct (Z.eqb_spec e 0); cbn; lia. }
  set (X := expo a - expo b + _ - _ + _). destruct (div_divisor b X Hb Hz) as (z & k & -> & Hk0 & Hcz & Hzv & Hkn). rewrite obind_ok.
  pose proof Ha as (_ & Hea & _). pose proof Hb as (_ & Heb & _). pose proof (He _ Hea). pose proof (He _ Heb).
  assert ((if X + k <=? 0 then X + k - 1 else X + k) = div_expo a b k) as ->.
  { unfold div_expo. replace (Z.max 1 (expo a) - Z.max 1 (expo b) + expo_bias F + k) with (X + k) by (unfold X; lia). done. }
  pose proof (cval_range F z Hcz). pose proof (significand_range F b Hb) as (Hsb & _ & _). pose proof (pow_C_pos F).
  assert (0 < significand F b) as Hsb0 by (pose proof (Z.pow_pos_nonneg 2 k ltac:(lia) Hk0); nia).
  pose proof (div_represents a b k _ _ Ha Hsb0 Hds Hk Hk0 Hkn Heb Hzv ltac:(lia) (div_start a z Ha Hcz)) as Hrep. cbn zeta in *.
  apply (ar_inorm_ok F); [done| |done|done]. apply Z.mul_pos_pos; [done|apply Z.pow_pos_nonneg; lia].
Qed.

End Div.
