(* ===== verification/IeeeCompare.v ===== *)
(** Comparison, special operands, and the treatment of denormalised results. *)
From Stdlib Require Import ZArith Lia Bool.
From stdpp Require Import prelude list.
From S2P Require Import Prelude ArData IeeeData IeeeFields IeeeOps IeeeRound IeeeNorm IeeeResult IeeeMul.

Lemma fields_lt_value ws a b :
  positive_widths ws -> fields ws a -> fields ws b ->
  match fields_lt a b with
  | Some less => fval ws a <> fval ws b /\ less = (fval ws a <? fval ws b)
  | None => fval ws a = fval ws b
  end.
Proof.
  intros Hp Ha. revert b. induction Ha as [|w c ws a Hc Ha IH]; intros b Hb; [by inversion Hb|].
  destruct (fields_cons_inv _ _ _ Hb) as (d & b' & -> & Hd & Hb'). destruct (sumz_cons w ws Hp) as (? & Hws & ? & ? & _).
  cbn [fields_lt fval]. specialize (IH Hws b' Hb'). pose proof (fval_range ws a Hws Ha). pose proof (fval_range ws b' Hws Hb').
  destruct (Z.eqb_spec c d) as [->|Hne]; cbn [negb].
  - destruct (fields_lt a b') as [less|]; [|lia]. destruct IH as [Hn ->]. split; [lia|].
    apply eq_bool_prop_intro. rewrite !Is_true_true, !Z.ltb_lt. lia.
  - split; [nia|]. apply eq_bool_prop_intro. rewrite !Is_true_true, !Z.ltb_lt. nia.
Qed.

Section Compare.
Context (F : Format) `{!GoodFormat F}.

Local Abbreviation C := (C F).

(** Numbers and infinities *)
Definition extended (x : AR_IEEE) : Prop :=
  fields (c_bits F) (coeff x) /\ 0 <= expo x <= max_expo F + 1 /\ IS_NaN F x = false.

(** The value, in units of the least denormal; infinity is above every number. *)
Definition ext_magnitude (x : AR_IEEE) : Z :=
  if is_inf F x then 2 ^ (coeff_bits F + max_expo F) else magnitude_ieee F x.
Definition ext_value (x : AR_IEEE) : Z := if sign x then - ext_magnitude x else ext_magnitude x.

Lemma extended_cases x : extended x ->
  (finite F x /\ is_inf F x = false /\ ext_magnitude x = magnitude_ieee F x) \/
  (expo x = max_expo F + 1 /\ is_inf F x = true /\ cval F (coeff x) = 0 /\ ext_magnitude x = 2 ^ (C + max_expo F)).
Proof.
  intros (Hc & He & Hn). unfold ext_magnitude. fold C. unfold IS_NaN in Hn. fold (is_inf F x) in Hn.
  destruct (is_inf F x) eqn:Hi; unfold is_inf in Hi; rewrite Z.gtb_ltb in Hi.
  - right. apply Z.ltb_lt in Hi. cbn [andb] in Hn. rewrite (nz_coeff_cval F) in Hn by done. apply negb_false_iff, Z.eqb_eq in Hn.
    split_and!; try done. lia.
  - left. apply Z.ltb_ge in Hi. split; [split; [done|lia]|done].
Qed.

Lemma magnitude_bounds x : finite F x ->
  0 <= magnitude_ieee F x < 2 ^ C * 2 ^ Z.max 1 (expo x) /\
  (0 < expo x -> 2 ^ C * 2 ^ (expo x - 1) <= magnitude_ieee F x) /\ (expo x = 0 -> magnitude_ieee F x < 2 ^ C).
Proof.
  intros Hx. destruct (significand_range F x Hx) as (HS & HS1 & HSc). unfold magnitude_ieee.
  pose proof (Z.pow_pos_nonneg 2 (Z.max 1 (expo x) - 1) ltac:(lia) ltac:(lia)). pose proof (pow2_half (Z.max 1 (expo x)) ltac:(lia)).
  split; [nia|]. split.
  - intros He. specialize (HS1 ltac:(lia)). rewrite (Z.max_r 1) in * by lia. nia.
  - intros He. rewrite He. change (2 ^ (Z.max 1 0 - 1)) with 1. unfold significand, implicit_bit. rewrite He. fold C. unfold cval in HSc. cbn. lia.
Qed.

Lemma ext_expo_lt a b : extended a -> extended b -> expo a < expo b -> ext_magnitude a < ext_magnitude b.
Proof.
  intros Ha Hb Hlt. pose proof Ha as (_ & Hea & _). pose proof Hb as (_ & Heb & _). pose proof (pow_C_pos F). pose proof (C_large F) as HC. unfold ROUND_BITS in HC.
  destruct (good_bias (F := F)) as [Hmax Hbias].
  destruct (extended_cases a Ha) as [(Hfa & _ & ->)|(Hea' & _)]; [|lia].
  destruct (magnitude_bounds a Hfa) as (Hba & _ & Hba0).
  assert (expo a = 0 \/ magnitude_ieee F a < 2 ^ C * 2 ^ expo a) as Hma by (destruct (Z.eq_dec (expo a) 0); [by left|right; rewrite Z.max_r in Hba by lia; lia]).
  destruct (extended_cases b Hb) as [(Hfb & _ & ->)|(_ & _ & _ & ->)].
  - destruct (magnitude_bounds b Hfb) as (_ & Hbb & _). specialize (Hbb ltac:(lia)).
    pose proof (Z.pow_pos_nonneg 2 (expo b - 1) ltac:(lia) ltac:(lia)). destruct Hma as [Hz|Hma]; [specialize (Hba0 Hz); nia|].
    pose proof (Z.pow_le_mono_r 2 (expo a) (expo b - 1) ltac:(lia) ltac:(lia)). nia.
  - rewrite Z.pow_add_r by lia. pose proof (Z.pow_le_mono_r 2 (Z.max 1 (expo a)) (max_expo F) ltac:(lia)).
    destruct Hfa as (_ & _ & Hfe). specialize (H0 ltac:(lia)). nia.
Qed.

Lemma ext_expo_eq a b : extended a -> extended b -> expo a = expo b ->
  (ext_magnitude a = ext_magnitude b <-> cval F (coeff a) = cval F (coeff b)) /\
  (cval F (coeff a) < cval F (coeff b) -> ext_magnitude a < ext_magnitude b).
Proof.
  intros Ha Hb He. destruct (extended_cases a Ha) as [(Hfa & _ & ->)|(Hea & Hia & Hca & ->)], (extended_cases b Hb) as [(Hfb & _ & ->)|(Heb & Hib & Hcb & ->)];
    [|destruct Hfa as (_ & ? & ?); lia|destruct Hfb as (_ & ? & ?); lia|rewrite Hca, Hcb; lia].
  unfold magnitude_ieee, significand, implicit_bit. rewrite He. fold C. change (fval (c_bits F)) with (cval F).
  pose proof (Z.pow_pos_nonneg 2 (Z.max 1 (expo b) - 1) ltac:(lia) ltac:(lia)). nia.
Qed.

Lemma ext_zero x : extended x -> (is_zero x = true <-> ext_magnitude x = 0) /\ 0 <= ext_magnitude x.
Proof.
  intros Hx. pose proof (pow_C_pos F). unfold is_zero. rewrite (nz_coeff_cval F), negb_involutive, andb_true_iff, !Z.eqb_eq by apply Hx.
  pose proof (C_large F) as HC. unfold ROUND_BITS in HC. destruct (good_bias (F := F)) as [Hmax Hbias].
  destruct (extended_cases x Hx) as [(Hf & _ & ->)|(He & _ & _ & ->)].
  - destruct (magnitude_bounds x Hf) as (Hb & Hb1 & _). split; [|lia]. destruct Hf as (Hc & He & _). pose proof (cval_range F _ Hc).
    destruct (Z.eq_dec (expo x) 0) as [Hz|Hz].
    + unfold magnitude_ieee, significand, implicit_bit. rewrite Hz. change (2 ^ (Z.max 1 0 - 1)) with 1. unfold cval in *. cbn. lia.
    + specialize (Hb1 ltac:(lia)). pose proof (Z.pow_pos_nonneg 2 (expo x - 1) ltac:(lia) ltac:(lia)). nia.
  - pose proof (Z.pow_pos_nonneg 2 (C + max_expo F) ltac:(lia) ltac:(lia)). lia.
Qed.

Definition compare_status (c : comparison) : Z :=
  match c with Eq => AR_STAT_ZERO | Lt => AR_STAT_NEGATIVE | Gt => AR_STAT_OK end.

Lemma ifcmp_ok a b : extended a -> extended b ->
  ar_ifcmp_fields F a b = compare_status (ext_value a ?= ext_value b).
Proof.
  intros Ha Hb. unfold ar_ifcmp_fields. pose proof Ha as (Hca & _ & ->). pose proof Hb as (Hcb & _ & ->). cbn [orb].
  destruct (ext_zero a Ha) as [Hza Hpa], (ext_zero b Hb) as [Hzb Hpb]. unfold ext_value.
  destruct (is_zero a && is_zero b) eqn:Hz.
  { apply andb_true_iff in Hz as [Ea Eb]. rewrite (proj1 Hza Ea), (proj1 Hzb Eb). by destruct (sign a), (sign b). }
  assert (ext_magnitude a <> 0 \/ ext_magnitude b <> 0) as Hnz.
  { destruct (is_zero a), (is_zero b); try done; [right|left..]; intros Hm; [apply Hzb in Hm|apply Hza in Hm..]; done. }
  assert (forall u v, (u < v -> (u ?= v) = Lt) /\ (v < u -> (u ?= v) = Gt) /\ (u = v -> (u ?= v) = Eq)) as Hcmp.
  { intros u v. rewrite Z.compare_lt_iff, Z.compare_gt_iff, Z.compare_eq_iff. done. }
  destruct (Hcmp (ext_value a) (ext_value b)) as (Hlt & Hgt & Heq). unfold ext_value in *.
  destruct (xorb (sign a) (sign b)) eqn:Hs.
  { destruct (sign a), (sign b); try done; [rewrite Hlt by lia|rewrite Hgt by lia]; done. }
  apply xorb_eq in Hs. rewrite <- Hs in *. destruct (Z.eqb_spec (expo a) (expo b)) as [He|He]; cbn [negb].
  - destruct (ext_expo_eq a b Ha Hb He) as [Heqm Hltm]. destruct (ext_expo_eq b a Hb Ha (eq_sym He)) as [_ Hltm'].
    pose proof (fields_lt_value _ _ _ good_bits Hca Hcb) as Hf. change (fval (c_bits F)) with (cval F) in Hf.
    destruct (fields_lt (coeff a) (coeff b)) as [less|].
    + destruct Hf as [Hne ->]. destruct (Z.ltb_spec (cval F (coeff a)) (cval F (coeff b))) as [Hl|Hl];
        [specialize (Hltm Hl)|specialize (Hltm' ltac:(lia))]; (destruct (sign a); first [rewrite Hlt by lia; done|rewrite Hgt by lia; done]).
    + rewrite Heq; [done|]. apply Heqm in Hf. by rewrite Hf.
  - destruct (Z.ltb_spec (expo a) (expo b)) as [Hl|Hl];
      [pose proof (ext_expo_lt a b Ha Hb Hl)|pose proof (ext_expo_lt b a Hb Ha ltac:(lia))];
      (destruct (sign a); first [rewrite Hlt by lia; done|rewrite Hgt by lia; done]).
Qed.

End Compare.

(** ** Underflow *)

(** What becomes of a denormalised result in the other underflow modes. *)
Definition flush (F : Format) (mode : underflow_mode) (r : Z * AR_IEEE) : Z * AR_IEEE :=
  let '(res, x) := r in
  if is_denorm x then
    (Z.lor res (Z.lor AR_STAT_ZERO AR_STAT_UNDERFLOW),
     match mode with
     | AR_UNDERFLOW_TO_DENORM => x
     | AR_UNDERFLOW_TO_PLUS_ZERO => mkIeee false 0 (zero_coeff F)
     | AR_UNDERFLOW_TO_SIGNED_ZERO => mkIeee (sign x) 0 (zero_coeff F)
     | AR_UNDERFLOW_TO_SIGNED_TINY => mkIeee (sign x) 1 (zero_coeff F)
     end)
  else r.

Definition with_underflow (mode : underflow_mode) (st : FpState) : FpState :=
  mkFpState (@ar_denorms_trap st) mode (@host_is_mips st).

Lemma norm_package_flush F `{!GoodFormat F} st mode res sg s :
  mode <> AR_UNDERFLOW_TO_DENORM ->
  @norm_package F (with_underflow mode st) res sg s =
  flush F mode (@norm_package F (with_underflow AR_UNDERFLOW_TO_DENORM st) res sg s).
Proof.
  intros Hm. destruct s as [E l r c]. unfold norm_package. cbn [ar_underflow_mode with_underflow].
  destruct (if (l =? 0) && negb (nz_coeff c) then _ else _) as [E' res'].
  destruct (Z.gtb_spec E' (max_expo F)) as [Hgt|Hle].
  { unfold flush, is_denorm. cbn [expo coeff]. destruct (good_bias (F := F)). by rewrite (proj2 (Z.eqb_neq (max_expo F + 1) 0)) by lia. }
  rewrite (bool_decide_false (mode = AR_UNDERFLOW_TO_DENORM)), (bool_decide_true (AR_UNDERFLOW_TO_DENORM = _)) by done.
  cbn [negb]. rewrite andb_true_r, andb_false_r. cbn [andb]. unfold flush, is_denorm. cbn [expo coeff sign].
  destruct (Z.eqb_spec E' 0) as [->|]; cbn [andb]; [|done]. destruct (nz_coeff c); [|done].
  rewrite good_min. destruct mode; repeat case_bool_decide; done.
Qed.
