(* ===== verification/IeeeTheorems.v ===== *)
(** What the IEEE routines of [arith/] guarantee, for the formats of 32, 64 and
    128 bits alike: correct rounding of sums, products and quotients, the order
    of comparisons, the results for special operands, and the underflow modes. *)
From Stdlib Require Import ZArith Lia Bool.
From stdpp Require Import prelude list.
From S2P Require Import Prelude ArData IeeeData IeeeFields IeeeOps IeeeRound IeeeNorm IeeeResult IeeeMul IeeeAdd IeeeDiv IeeeCompare.

(** Operands for the witnesses: the single-precision number with the given bits. *)
Definition single (z : Z) : AR_IEEE :=
  mkIeee (Z.testbit z 31) (Z.land (Z.shiftr z 23) 0xFF) [Z.land (Z.shiftr z 16) 0x7F; Z.land z 0xFFFF].
Definition default_state : FpState := mkFpState false AR_UNDERFLOW_TO_DENORM false.

Section Multiply.
Context `{FpState}.

End Multiply.

Section Theorems.
Context (F : Format) `{!GoodFormat F} `{FpState}.



(** The comparison decides the order of the values, infinities included and
    both zeros equal; a NaN is unordered. *)
Theorem ieee_compare_order (a b : AR_IEEE) :
  (IS_NaN F a || IS_NaN F b = true -> ar_ifcmp_fields F a b = AR_STAT_UNDEFINED) /\
  (extended F a -> extended F b -> ar_ifcmp_fields F a b = compare_status (ext_value F a ?= ext_value F b)).
Proof. split; [|apply (ifcmp_ok F)]. intros Hn. unfold ar_ifcmp_fields. by rewrite Hn. Qed.

(** In the other underflow modes the result is that of gradual underflow with
    a denormal number replaced by zero or by the least normal number. *)
Theorem ieee_underflow_modes (st : FpState) (mode : underflow_mode) (Hm : mode <> AR_UNDERFLOW_TO_DENORM)
  (e lbits rbits : Z) (x : AR_IEEE) (roundmode : round_mode) (r : Z * AR_IEEE)
  (Hx : fields (c_bits F) (coeff x))
  (Hr : @ar_inorm F (with_underflow AR_UNDERFLOW_TO_DENORM st) e lbits rbits x roundmode = Ok r) :
  @ar_inorm F (with_underflow mode st) e lbits rbits x roundmode = Ok (flush F mode r).
Proof.
  unfold ar_inorm in *. destruct ((lbits =? 0) && negb (nz_coeff (coeff x)) && (rbits =? 0)) eqn:Hz.
  - injection Hr as <-. unfold flush, is_denorm. cbn [expo coeff Z.eqb].
    apply andb_true_iff in Hz as [[_ ->%negb_true_iff]%andb_true_iff _]. done.
  - destruct (normalize_left F _ _) as [[E l r1 c]|]; [|done]. rewrite !obind_ok in *.
    destruct (normalize_right F _ _) as [s|]; [|done]. rewrite !obind_ok in *. injection Hr as <-.
    by rewrite norm_package_flush.
Qed.

(** Special operands. A NaN is the result; infinity wins over numbers, except
    that the difference of infinities, zero times infinity, and the quotients of
    infinities and of zeros are a quiet NaN; a number divided by infinity is
    zero and by zero infinity; signs are those of the operation. *)
Theorem ieee_special_operands (x a b : AR_IEEE) (mode : round_mode) :
  let i := xorb (sign a) (sign b) in
  (IS_NaN F a = true ->
     ar_ifmul_fields F (fun rest => rest) x a b mode = Ok (AR_STAT_UNDEFINED, a) /\
     ar_ifdiv_fields F x a b mode = Ok (AR_STAT_UNDEFINED, a) /\ ar_ifsub_fields F a b mode = Ok (AR_STAT_UNDEFINED, a)) /\
  (IS_NaN F a = false -> IS_NaN F b = false -> is_inf F b = true -> 0 <= expo a ->
     ar_ifmul_fields F (fun rest => rest) x a b mode =
       (if is_zero a then Ok (AR_STAT_UNDEFINED, QNaNIEEE F)
        else Ok (signed_status i AR_STAT_OVERFLOW, mkIeee i (expo b) (coeff b))) /\
     ar_ifdiv_fields F x a b mode =
       (if is_inf F a then Ok (AR_STAT_UNDEFINED, QNaNIEEE F)
        else Ok (Z.lor (signed_status i AR_STAT_UNDERFLOW) AR_STAT_ZERO, mkIeee i 0 (zero_coeff F))) /\
     (is_inf F a = false -> ar_ifadd_fields F a b mode = Ok (signed_status (sign b) AR_STAT_OVERFLOW, b)) /\
     (is_inf F a = true -> expo a = expo b -> sign a <> sign b ->
        ar_ifadd_fields F a b mode = Ok (AR_STAT_UNDEFINED, QNaNIEEE F))) /\
  (finite F a -> finite F b -> is_zero b = true ->
     ar_ifdiv_fields F x a b mode =
       (if is_zero a then Ok (AR_STAT_UNDEFINED, QNaNIEEE F)
        else Ok (signed_status i AR_STAT_OVERFLOW, mkIeee i (max_expo F + 1) (zero_coeff F)))).
Proof.
  cbn zeta. split; [|split].
  - intros Hn. unfold ar_ifmul_fields, ar_ifdiv_fields, ar_ifsub_fields. by rewrite Hn.
  - intros Hna Hnb Hib Hea. unfold ar_ifmul_fields, ar_ifdiv_fields, ar_ifadd_fields. rewrite Hna, Hnb, Hib. split; [done|]. split; [done|]. split.
    + intros Hia. unfold is_inf in Hia, Hib. rewrite Z.gtb_ltb in Hia, Hib. apply Z.ltb_ge in Hia. apply Z.ltb_lt in Hib.
      replace (expo b >? expo a) with true by (symmetry; rewrite Z.gtb_ltb; apply Z.ltb_lt; lia).
      rewrite Hnb, Hna. unfold is_inf. by rewrite !Z.gtb_ltb, (proj2 (Z.ltb_lt _ _) Hib), (proj2 (Z.ltb_ge _ _) Hia).
    + intros Hia He Hs. rewrite Z.gtb_ltb, He, Z.ltb_irrefl, Hna, Hnb, Hia, Hib. by destruct (sign a), (sign b).
  - intros Ha Hb Hzb. unfold ar_ifdiv_fields.
    destruct (finite_tests F a Ha) as [-> ->], (finite_tests F b Hb) as [-> ->]. by rewrite Hzb.
Qed.

End Theorems.

(** * Witnesses *)
Ltac finite_single := split; [repeat constructor; vm_compute; congruence|split; vm_compute; congruence].




(** minus infinity is less than -1 *)
Lemma ieee_compare_order_witness :
  let a := single 0xFF800000 in
  let b := single 0xBF800000 in
  @ar_ifcmp32 a b = compare_status (ext_value IEEE32 a ?= ext_value IEEE32 b) /\
  @ar_ifcmp32 a b = AR_STAT_NEGATIVE.
Proof.
  cbn zeta. split; [|vm_compute; reflexivity].
  apply (@ieee_compare_order IEEE32 IEEE32_good (single 0xFF800000) (single 0xBF800000));
    (split; [repeat constructor; vm_compute; congruence|split; [split; vm_compute; congruence|reflexivity]]).
Defined.

(** The least normal number, halved *)
Lemma ieee_underflow_modes_witness :
  let x := mkIeee true 0 [0; 0] in
  @ar_inorm IEEE32 (with_underflow AR_UNDERFLOW_TO_SIGNED_ZERO default_state) (-1) 1 0 x AR_ROUND_NEAREST =
  Ok (flush IEEE32 AR_UNDERFLOW_TO_SIGNED_ZERO (AR_STAT_NEGATIVE, mkIeee true 0 [64; 0])) /\
  flush IEEE32 AR_UNDERFLOW_TO_SIGNED_ZERO (AR_STAT_NEGATIVE, mkIeee true 0 [64; 0]) =
  (Z.lor AR_STAT_NEGATIVE (Z.lor AR_STAT_ZERO AR_STAT_UNDERFLOW), mkIeee true 0 [0; 0]).
Proof.
  cbn zeta. split; [|vm_compute; reflexivity].
  apply (@ieee_underflow_modes IEEE32 IEEE32_good default_state AR_UNDERFLOW_TO_SIGNED_ZERO);
    [congruence|repeat constructor; vm_compute; congruence|vm_compute; reflexivity].
Defined.

(** Zero times infinity *)
Lemma ieee_special_operands_witness :
  let a := single 0x80000000 in
  let b := single 0x7F800000 in
  @ar_ifmul_fields IEEE32 default_state (fun rest => rest) a a b AR_ROUND_NEAREST =
    (if is_zero a then Ok (AR_STAT_UNDEFINED, @QNaNIEEE IEEE32 default_state)
     else Ok (signed_status (xorb (sign a) (sign b)) AR_STAT_OVERFLOW, mkIeee (xorb (sign a) (sign b)) (expo b) (coeff b))) /\
  @ar_ifmul32 default_state a a b AR_ROUND_NEAREST = Ok (AR_STAT_UNDEFINED, single 0x7FFFFFFF).
Proof.
  cbn zeta. split; [|vm_compute; reflexivity].
  apply (@ieee_special_operands IEEE32 default_state (single 0x80000000) (single 0x80000000) (single 0x7F800000) AR_ROUND_NEAREST);
    [reflexivity|reflexivity|reflexivity|vm_compute; congruence].
Defined.

(** * Operands for which the routines do not round correctly *)

(** The exact product 1 * 1, rounded downwards, is rounded up. *)
Lemma ieee_directed_exact :
  @ar_ifmul32 default_state (single 0) (single 0x3F800000) (single 0x3F800000) AR_ROUND_MINUS_INFINITY =
  Ok (AR_STAT_OK, single 0x3F800001).
Proof. vm_compute. reflexivity. Qed.

(** 2^-149 times (1 + 2^-23) * 2^127: the significand of the result is 1.25 instead of 1 + 2^-23. *)
Lemma ieee_mul_denormal :
  @ar_ifmul32 default_state (single 0) (single 0x00000001) (single 0x7F000001) AR_ROUND_NEAREST =
  Ok (AR_STAT_INEXACT, single 0x34A00000) /\
  ref_packed IEEE32 AR_ROUND_NEAREST false
    (magnitude_ieee IEEE32 (single 0x00000001) * magnitude_ieee IEEE32 (single 0x7F000001)) (2 ^ 149) = 0x34800001.
Proof. split; vm_compute; reflexivity. Qed.

(** Quadruple precision: a product whose low half is just above one half of a
    unit, because of a bit in [coeff4], is taken for a tie and rounded down. *)
Lemma ieee_mul128_sticky native :
  let a := mkIeee false 0x3FFF [0; 0; 0; 0; 0; 0x30; 0] in
  let b := mkIeee false 0x3FFF [0; 0x2AA; 0xAAAA; 0xAAAA; 0xAAAA; 0xAAB0; 0] in
  let p := significand IEEE128 a * significand IEEE128 b in
  exists s r, @ar_ifmul128 default_state native a a b AR_ROUND_NEAREST = Ok (s, r) /\
    expo r = 0x3FFF /\ significand IEEE128 r = p / 2 ^ 112 /\ 2 ^ 111 < p mod 2 ^ 112.
Proof. cbn zeta. eexists _, _. split; [vm_compute; reflexivity|]. split_and!; vm_compute; reflexivity. Qed.

(** 1 - 2^-30 towards zero: 1 instead of the number below; no inexactness is reported. *)
Lemma ieee_add_far :
  @ar_ifadd32 default_state (single 0x3F800000) (single 0xB0800000) AR_ROUND_ZERO = Ok (AR_STAT_OK, single 0x3F800000) /\
  ref_packed IEEE32 AR_ROUND_ZERO false (sum_magnitude IEEE32 (single 0x3F800000) (single 0xB0800000)) 1 = 0x3F7FFFFF.
Proof. split; vm_compute; reflexivity. Qed.

(** 2 - 2^-23 + 2^-26 upwards carries to 2, and the inexactness is lost. *)
Lemma ieee_carry_inexact :
  @ar_ifadd32 default_state (single 0x3FFFFFFF) (single 0x32800000) AR_ROUND_PLUS_INFINITY = Ok (AR_STAT_OK, single 0x40000000) /\
  round_inexact 23 (sum_magnitude IEEE32 (single 0x3FFFFFFF) (single 0x32800000)) 1 = true.
Proof. split; vm_compute; reflexivity. Qed.

(** A quotient just below one half of a unit is taken for a tie. *)
Lemma ieee_div_tie :
  @ar_ifdiv32 default_state (single 0) (single 0x3FF8F849) (single 0x3FE12E77) AR_ROUND_NEAREST =
  Ok (AR_STAT_INEXACT, single 0x3F8D85A4) /\
  ref_packed IEEE32 AR_ROUND_NEAREST false (magnitude_ieee IEEE32 (single 0x3FF8F849) * 2 ^ 149)
    (magnitude_ieee IEEE32 (single 0x3FE12E77)) = 0x3F8D85A3.
Proof. split; vm_compute; reflexivity. Qed.

(** 3 * 2^-149 divided by 5 * 2^-149 is 0.625. *)
Lemma ieee_div_denormal :
  @ar_ifdiv32 default_state (single 0) (single 3) (single 5) AR_ROUND_NEAREST = Ok (AR_STAT_INEXACT, single 0x3F200000) /\
  ref_packed IEEE32 AR_ROUND_NEAREST false (magnitude_ieee IEEE32 (single 3) * 2 ^ 149)
    (magnitude_ieee IEEE32 (single 5)) = 0x3F19999A.
Proof. split; vm_compute; reflexivity. Qed.
