(* ===== verification/ArInt64.v ===== *)
(** The 64-bit integers of [int64.h] in compile-time arithmetic: the macros that
    shift, increment and negate an [AR_INT_64] field by field, which the
    conversions between integers and floating point are made of, and what they
    compute.

    The macros for four 16-bit fields are those of a coefficient with four
    16-bit fields; the proofs reuse the theory of [IeeeFields]. *)
From Stdlib Require Import ZArith Lia Bool.
From stdpp Require Import prelude list.
From S2P Require Import Prelude ArData IeeeData IeeeFields.

(** * The macros *)
Definition SHLEFT64 (x : ar_data) : ar_data :=
  mkData (uwrap 16 (Z.lor (Z.shiftl (part1 x) 1) (Z.shiftr (part2 x) 15)))
         (uwrap 16 (Z.lor (Z.shiftl (part2 x) 1) (Z.shiftr (part3 x) 15)))
         (uwrap 16 (Z.lor (Z.shiftl (part3 x) 1) (Z.shiftr (part4 x) 15)))
         (uwrap 16 (Z.shiftl (part4 x) 1)).

Definition SHRIGHT64 (x : ar_data) : ar_data :=
  mkData (Z.shiftr (part1 x) 1)
         (uwrap 16 (Z.lor (Z.shiftr (part2 x) 1) (Z.shiftl (Z.land (part1 x) 1) 15)))
         (uwrap 16 (Z.lor (Z.shiftr (part3 x) 1) (Z.shiftl (Z.land (part2 x) 1) 15)))
         (uwrap 16 (Z.lor (Z.shiftr (part4 x) 1) (Z.shiftl (Z.land (part3 x) 1) 15))).

(** The carry [t] is an [unsigned long] and is stored into fields of 16 bits. *)
Definition INC64 (a : ar_data) : ar_data :=
  let t4 := part4 a + 1 in
  let t3 := Z.shiftr t4 16 + part3 a in
  let t2 := Z.shiftr t3 16 + part2 a in
  mkData (uwrap 16 (part1 a + Z.shiftr t2 16)) (uwrap 16 t2) (uwrap 16 t3) (uwrap 16 t4).

Definition DEC64 (a : ar_data) : ar_data :=
  let t4 := part4 a + MASKR 16 in
  let t3 := Z.shiftr t4 16 + part3 a + MASKR 16 in
  let t2 := Z.shiftr t3 16 + part2 a + MASKR 16 in
  mkData (uwrap 16 (part1 a + (Z.shiftr t2 16 + MASKR 16))) (uwrap 16 t2) (uwrap 16 t3) (uwrap 16 t4).

Definition NOT64 (a : ar_data) : ar_data :=
  mkData (Z.lxor (part1 a) (MASKR 16)) (Z.lxor (part2 a) (MASKR 16))
         (Z.lxor (part3 a) (MASKR 16)) (Z.lxor (part4 a) (MASKR 16)).

Definition NEG64 (a : ar_data) : ar_data := INC64 (NOT64 a).

(** [SIGNBIT(x)] *)
Definition SIGNBIT (x : ar_data) : bool := negb (Z.shiftr (part1 x) 15 =? 0).

(** [x.part1 | x.part2 | x.part3 | x.part4] *)
Definition nonzero64 (x : ar_data) : bool :=
  negb (Z.lor (Z.lor (Z.lor (part1 x) (part2 x)) (part3 x)) (part4 x) =? 0).

(** * What they compute *)
Definition val64 (x : ar_data) : Z := part1 x * 2 ^ 48 + part2 x * 2 ^ 32 + part3 x * 2 ^ 16 + part4 x.

Lemma val64_uval `{Host} x : val64 x = uval Int64 x.
Proof. unfold val64, uval, digits_value. cbn [int_parts part_bits foldr]. lia. Qed.

Lemma val64_range x : well_formed x -> 0 <= val64 x < 2 ^ 64.
Proof. intros Hx. destruct Hx as (H1 & H2 & H3 & H4). unfold val64, in_u in *. lia. Qed.

Lemma val64_inj x y : well_formed x -> well_formed y -> val64 x = val64 y -> x = y.
Proof.
  intros (?&?&?&?) (?&?&?&?). destruct x, y. unfold val64, in_u in *. cbn in *. intros. f_equal; lia.
Qed.

(** The fields of the macros *)
Lemma half_field a b : in_u 16 a -> uwrap 16 (Z.lor (Z.shiftr a 1) (Z.shiftl (Z.land b 1) 15)) = a / 2 + (b mod 2) * 2 ^ 15.
Proof.
  intros Ha. change 1 with (Z.ones 1) at 2. rewrite Z.land_ones, Z.shiftr_div_pow2, Z.shiftl_mul_pow2 by lia.
  change (2 ^ 1) with 2. rewrite Z.lor_comm, lor_low by (unfold in_u in Ha; Z.to_euclidean_division_equations; lia).
  rewrite uwrap_id; [lia|]. unfold in_u in *. Z.to_euclidean_division_equations; lia.
Qed.

Lemma double_field a b : in_u 16 b -> uwrap 16 (Z.lor (Z.shiftl a 1) (Z.shiftr b 15)) = 2 * a mod 2 ^ 16 + b / 2 ^ 15.
Proof.
  intros Hb. rewrite Z.shiftr_div_pow2, Z.shiftl_mul_pow2 by lia. rewrite lor_low by (unfold in_u in Hb; Z.to_euclidean_division_equations; lia).
  unfold uwrap, in_u in *. change (2 ^ 1) with 2. Z.to_euclidean_division_equations; lia.
Qed.

Lemma carry_field t : uwrap 16 t = t mod 2 ^ 16 /\ Z.shiftr t 16 = t / 2 ^ 16.
Proof. by rewrite Z.shiftr_div_pow2 by lia. Qed.

Ltac fields_of Hx :=
  let p1 := fresh "p1" in let p2 := fresh "p2" in let p3 := fresh "p3" in let p4 := fresh "p4" in
  pose proof Hx as (p1 & p2 & p3 & p4).

Ltac solve64 := unfold well_formed, val64, in_u in *; cbn [part1 part2 part3 part4] in *; 
  split; [split_and!; Z.to_euclidean_division_equations; lia|Z.to_euclidean_division_equations; lia].

Lemma SHRIGHT64_value x : well_formed x -> well_formed (SHRIGHT64 x) /\ val64 (SHRIGHT64 x) = val64 x / 2.
Proof.
  intros Hx. fields_of Hx. unfold SHRIGHT64. rewrite !half_field by done. rewrite Z.shiftr_div_pow2 by lia. solve64.
Qed.

Lemma SHLEFT64_value x : well_formed x -> well_formed (SHLEFT64 x) /\ val64 (SHLEFT64 x) = uwrap 64 (2 * val64 x).
Proof.
  intros Hx. fields_of Hx. unfold SHLEFT64. rewrite !double_field by done. unfold uwrap.
  rewrite Z.shiftl_mul_pow2 by lia. solve64.
Qed.

Lemma INC64_value x : well_formed x -> well_formed (INC64 x) /\ val64 (INC64 x) = uwrap 64 (val64 x + 1).
Proof.
  intros Hx. fields_of Hx. unfold INC64, uwrap. rewrite !Z.shiftr_div_pow2 by lia. solve64.
Qed.

Lemma DEC64_value x : well_formed x -> well_formed (DEC64 x) /\ val64 (DEC64 x) = uwrap 64 (val64 x - 1).
Proof.
  intros Hx. fields_of Hx. unfold DEC64, uwrap, MASKR. rewrite !Z.shiftr_div_pow2 by lia.
  change (Z.ones 16) with (2 ^ 16 - 1). solve64.
Qed.

Lemma NOT64_value x : well_formed x -> well_formed (NOT64 x) /\ val64 (NOT64 x) = 2 ^ 64 - 1 - val64 x.
Proof. intros Hx. fields_of Hx. unfold NOT64. rewrite !lxor_ones by (lia || done). solve64. Qed.

Lemma NEG64_value x : well_formed x -> well_formed (NEG64 x) /\ val64 (NEG64 x) = uwrap 64 (- val64 x).
Proof.
  intros Hx. destruct (NOT64_value x Hx) as [Hn Hv]. destruct (INC64_value _ Hn) as [Hi Hw]. split; [done|].
  unfold NEG64. rewrite Hw, Hv. apply (uwrap_cong _ _ _ 1); lia.
Qed.

Lemma SIGNBIT_value x : well_formed x -> SIGNBIT x = (2 ^ 63 <=? val64 x).
Proof.
  intros Hx. fields_of Hx. unfold SIGNBIT, val64, in_u in *. rewrite Z.shiftr_div_pow2 by lia.
  destruct (Z.eqb_spec (part1 x / 2 ^ 15) 0), (Z.leb_spec (2 ^ 63) (part1 x * 2 ^ 48 + part2 x * 2 ^ 32 + part3 x * 2 ^ 16 + part4 x)); Z.to_euclidean_division_equations; lia.
Qed.

Lemma nonzero64_value x : well_formed x -> nonzero64 x = negb (val64 x =? 0).
Proof.
  intros Hx. fields_of Hx. unfold nonzero64. f_equal. apply eq_bool_prop_intro. rewrite !Is_true_true, !Z.eqb_eq, !Z.lor_eq_0_iff.
  unfold val64, in_u in *. lia.
Qed.

Lemma low_bit64 x : well_formed x -> Z.land (part4 x) 1 = val64 x mod 2.
Proof.
  intros Hx. change 1 with (Z.ones 1). rewrite Z.land_ones by lia. change (2 ^ 1) with 2. unfold val64.
  Z.to_euclidean_division_equations; lia.
Qed.
