(* ===== verification/IeeeConvert.v ===== *)
(** Conversions of compile-time arithmetic, [arith/convert.c]: IEEE numbers to
    and from 64-bit integers ([ar_ifixN], [ar_ifltN]) and from one IEEE format to
    another ([ar_i64to32], [ar_i32to64], [ar_i128to64], [ar_i64to128]).

    [AR_INT_64] is the record of [ArData]; [unsigned long] holds a few bits only.
    A coefficient has the fields of its format; for other lists, which no
    structure of the sources has, the functions are [Err Bounds].  On MIPS the
    128-bit conversions are the host's own, [native]. *)
From Stdlib Require Import ZArith Lia Bool.
From stdpp Require Import prelude list.
From S2P Require Import Prelude ArData ArInt64 IeeeData IeeeOps.

Section Convert.
Context `{FpState}.

(** * IEEE numbers to integers *)

(** [rbits = rbits & 1 | (rbits >> 1) | ((fix->part4 & 1) << (ROUND_BITS - 1)); SHRIGHT64 (fix);] *)
Definition fix_shift (s : Z * ar_data) : Z * ar_data :=
  let '(rbits, fix_) := s in
  (Z.lor (Z.lor (Z.land rbits 1) (Z.shiftr rbits 1)) (Z.shiftl (Z.land (part4 fix_) 1) (ROUND_BITS - 1)),
   SHRIGHT64 fix_).

(** [switch (roundmode)]; [sign] is [a.sign]. *)
Definition fix_round (roundmode : round_mode) (sign : bool) (rbits : Z) (fix_ : ar_data) : ar_data :=
  match roundmode with
  | AR_ROUND_PLUS_INFINITY => if negb sign && negb (rbits =? 0) then INC64 fix_ else fix_
  | AR_ROUND_MINUS_INFINITY => if sign && negb (rbits =? 0) then DEC64 fix_ else fix_
  | AR_ROUND_ZERO => fix_
  | AR_ROUND_NEAREST =>
      if negb (Z.shiftr rbits (ROUND_BITS - 1) =? 0) &&
         (negb (Z.land rbits (MASKR (ROUND_BITS - 1)) =? 0) || negb (Z.land (part4 fix_) 1 =? 0))
      then INC64 fix_ else fix_
  end.

(** From [if (neg)] to the end of the function *)
Definition fix_finish (neg : bool) (res : Z) (fix_ : ar_data) : Z * ar_data :=
  let fix_ := if neg then INC64 (NOT64 fix_) else fix_ in
  (if negb (nonzero64 fix_) then Z.lor res AR_STAT_ZERO
   else if neg then Z.lor res AR_STAT_NEGATIVE else res, fix_).

(** [IEEE32TOINT64 (i, f)] and [IEEE64TOINT64 (i, f)] *)
Definition IEEE32TOINT64 (f : AR_IEEE) : outcome ar_data :=
  match coeff f with
  | [c0; c1] => Ok (mkData 0 0 (uwrap 16 (Z.lor (Z.lor (Z.shiftl (b2z (sign f)) 15) (Z.shiftl (expo f) 7)) c0)) c1)
  | _ => Err Bounds
  end.
Definition IEEE64TOINT64 (f : AR_IEEE) : outcome ar_data :=
  match coeff f with
  | [c0; c1; c2; c3] =>
      Ok (mkData (uwrap 16 (Z.lor (Z.lor (Z.shiftl (b2z (sign f)) 15) (Z.shiftl (expo f) 4)) c0)) c1 c2 c3)
  | _ => Err Bounds
  end.

(** [ar_ifix32] and [ar_ifix64] *)
Definition ar_ifix_fields (F : Format) (TOINT64 : AR_IEEE -> outcome ar_data) (flt : AR_IEEE) (bitsize : Z)
    (roundmode : round_mode) : outcome (Z * ar_data) :=
  let shift := expo_bias F + coeff_bits F - expo flt in
  if is_zero flt then Ok (AR_STAT_ZERO, zero_data)
  else
    let shift := if shift >? coeff_bits F + ROUND_BITS then coeff_bits F + ROUND_BITS else shift in
    let res := if shift <? coeff_bits F + 1 - bitsize then Z.lor AR_STAT_OK AR_STAT_OVERFLOW else AR_STAT_OK in
    let neg := sign flt in
    let a := mkIeee false (implicit_bit flt) (coeff flt) in
    let* fix_ := TOINT64 a in
    let fix_ := Nat.iter (Z.to_nat (- shift)) SHLEFT64 fix_ in
    let '(rbits, fix_) := Nat.iter (Z.to_nat shift) fix_shift (0, fix_) in
    let res := if negb (rbits =? 0) then Z.lor res AR_STAT_INEXACT else res in
    let fix_ := fix_round roundmode (sign a) rbits fix_ in
    let res := if negb (Z.land (part1 fix_) 0x8000 =? 0)
               then Z.lor res (Z.lor AR_STAT_OVERFLOW AR_STAT_SEMIVALID) else res in
    Ok (fix_finish neg res fix_).

Definition ar_ifix32 := ar_ifix_fields IEEE32 IEEE32TOINT64.
Definition ar_ifix64 := ar_ifix_fields IEEE64 IEEE64TOINT64.

Definition ar_ifix128 (native : AR_IEEE -> Z * ar_data) (flt : AR_IEEE) (bitsize : Z) (roundmode : round_mode)
    : outcome (Z * ar_data) :=
  let F := IEEE128 in
  let shift := expo_bias F + coeff_bits F - 64 + 15 - expo flt in
  if host_is_mips then Ok (native flt)
  else if is_zero flt then Ok (AR_STAT_ZERO, zero_data)
  else
    let shift := if shift >? coeff_bits F - 64 + 15 + ROUND_BITS then coeff_bits F - 64 + 15 + ROUND_BITS else shift in
    let '(shift, res) :=
      if shift <=? 0 then
        let res := if shift =? 0 then Z.lor AR_STAT_OK AR_STAT_SEMIVALID else AR_STAT_OK in
        (0, Z.lor res AR_STAT_OVERFLOW)
      else (shift, AR_STAT_OK) in
    let neg := sign flt in
    match coeff flt with
    | [c0; c1; c2; c3; c4; c5; c6] =>
        let fix_ := mkData (uwrap 16 (Z.lor (Z.shiftl (implicit_bit flt) 15) (Z.shiftr c0 1)))
                           (uwrap 16 (Z.lor (Z.shiftl c0 15) (Z.shiftr c1 1)))
                           (uwrap 16 (Z.lor (Z.shiftl c1 15) (Z.shiftr c2 1)))
                           (uwrap 16 (Z.lor (Z.shiftl c2 15) (Z.shiftr c3 1))) in
        let '(rbits, fix_) := Nat.iter (Z.to_nat shift) fix_shift (0, fix_) in
        let res := if negb (rbits =? 0) then Z.lor res AR_STAT_INEXACT else res in
        Ok (fix_finish neg res (fix_round roundmode (sign flt) rbits fix_))
    | _ => Err Bounds
    end.

(** * Integers to IEEE numbers *)

(** [if (SIGNBIT (val) && !is_unsigned) { NEG64 (val); neg = 1; }] *)
Definition flt_magnitude (fix_ : ar_data) (is_unsigned : bool) : bool * ar_data :=
  if SIGNBIT fix_ && negb is_unsigned then (true, NEG64 fix_) else (false, fix_).

(** [while (val.part1 | val.part2)] *)
Fixpoint flt_shift (fuel : nat) (s : Z * ar_data) : outcome (Z * ar_data) :=
  if negb (Z.lor (part1 (snd s)) (part2 (snd s)) =? 0) then
    match fuel with O => Err Timeout | S fuel => flt_shift fuel (fix_shift s) end
  else Ok s.

(** The fields [coeffN] of [INT64TOIEEEn (f, i)]; the sign and the exponent that
    it stores are overwritten. *)
Definition INT64TOIEEE32 (i : ar_data) : list Z := [uwrap 7 (part3 i); part4 i].
Definition INT64TOIEEE64 (i : ar_data) : list Z := [uwrap 4 (part1 i); part2 i; part3 i; part4 i].
Definition INT64TOIEEE128 (i : ar_data) : list Z := [part2 i; part3 i; part4 i].

Definition ar_iflt32 (fix_ : ar_data) (is_unsigned : bool) (roundmode : round_mode) : outcome (Z * AR_IEEE) :=
  let '(neg, val) := flt_magnitude fix_ is_unsigned in
  let* '(rbits, val) := flt_shift 32 (0, val) in
  let lbits := Z.shiftr (part3 val) (16 - (expo_bits IEEE32 + 1)) in
  ar_inorm IEEE32 (expo_bias IEEE32 + coeff_bits IEEE32) lbits rbits (mkIeee neg 0 (INT64TOIEEE32 val)) roundmode.

Definition ar_iflt64 (fix_ : ar_data) (is_unsigned : bool) (roundmode : round_mode) : outcome (Z * AR_IEEE) :=
  let '(neg, val) := flt_magnitude fix_ is_unsigned in
  let lbits := Z.shiftr (part1 val) (16 - (expo_bits IEEE64 + 1)) in
  ar_inorm IEEE64 (expo_bias IEEE64 + coeff_bits IEEE64) lbits 0 (mkIeee neg 0 (INT64TOIEEE64 val)) roundmode.

Definition ar_iflt128 (native : ar_data -> Z * AR_IEEE) (fix_ : ar_data) (is_unsigned : bool) (roundmode : round_mode)
    : outcome (Z * AR_IEEE) :=
  if host_is_mips then Ok (native fix_)
  else
    let '(neg, val) := flt_magnitude fix_ is_unsigned in
    let lbits := Z.shiftr (part1 val) (16 - (expo_bits IEEE128 + 1)) in
    ar_inorm IEEE128 (expo_bias IEEE128 + coeff_bits IEEE128 - 64) lbits 0
             (mkIeee neg 0 (INT64TOIEEE128 val ++ [0; 0; 0; 0])) roundmode.

(** * One IEEE format to another *)

(** The result is a number of the format [F], unless an operand that is not a
    normal number has its own. *)
Definition infinite (F : Format) (negative : bool) : Z * AR_IEEE :=
  (Z.lor (if negative then Z.lor AR_STAT_OK AR_STAT_NEGATIVE else AR_STAT_OK) AR_STAT_OVERFLOW,
   mkIeee negative (max_expo F + 1) (zero_coeff F)).

(** The coefficient of a NaN: not zero; [last] is the last field then. *)
Definition nan_coeff (F : Format) (c : list Z) : list Z := if nz_coeff c then c else or_low c 1.

(** [/* Incoming denorm must underflow to zero. */] *)
Definition flush_denorm (F : Format) (x : AR_IEEE) : Z * AR_IEEE :=
  let res := if sign x then Z.lor AR_STAT_OK AR_STAT_NEGATIVE else AR_STAT_OK in
  let res := Z.lor res AR_STAT_ZERO in
  (if nz_coeff (coeff x) then Z.lor res (if ar_denorms_trap then AR_STAT_UNDERFLOW else AR_STAT_UNDEFINED) else res,
   mkIeee (sign x) 0 (zero_coeff F)).

(** The conversions to a shorter format [F] and to a longer format [G]; they differ
    in the fields [c] of the new coefficient and in the rounding bits only. *)
Definition ar_narrow (F G : Format) (c : list Z) (rbits : Z) (x : AR_IEEE) (roundmode : round_mode) : outcome (Z * AR_IEEE) :=
  if expo x >? max_expo G then
    if nz_coeff (coeff x) then Ok (AR_STAT_UNDEFINED, mkIeee (sign x) (max_expo F + 1) (nan_coeff F c))
    else Ok (infinite F (sign x))
  else if expo x =? 0 then Ok (flush_denorm F x)
  else
    let expo := expo x - expo_bias G + expo_bias F in
    let expo := if expo <=? 0 then expo - 1 else expo in
    ar_inorm F expo 1 rbits (mkIeee (sign x) 0 c) roundmode.

Definition ar_widen (F G : Format) (c : list Z) (x : AR_IEEE) : outcome (Z * AR_IEEE) :=
  if expo x >? max_expo F then
    if nz_coeff (coeff x) then Ok (AR_STAT_UNDEFINED, mkIeee (sign x) (max_expo G + 1) (nan_coeff G c))
    else Ok (infinite G (sign x))
  else
    let expo' := if negb (expo x =? 0) then expo x - expo_bias F + expo_bias G else 0 in
    ar_inorm G expo' (implicit_bit x) 0 (mkIeee (sign x) 0 c) AR_ROUND_NEAREST.

Definition COEFF_BIT_OFF_32_64 : Z := 7 - 4.       (* AR_IEEE32_C0_BITS - AR_IEEE64_C0_BITS *)
Definition COEFF_BIT_OFF_128_64 : Z := 16 - 4.     (* AR_IEEE128_C0_BITS - AR_IEEE64_C0_BITS *)

Definition ar_i64to32 (d : AR_IEEE) (roundmode : round_mode) : outcome (Z * AR_IEEE) :=
  let off := COEFF_BIT_OFF_32_64 in
  match coeff d with
  | [d0; d1; d2; d3] =>
      let c := [uwrap 7 (Z.lor (Z.shiftr d1 (16 - off)) (Z.shiftl d0 off));
                uwrap 16 (Z.lor (Z.shiftr d2 (16 - off)) (Z.shiftl d1 off))] in
      let rbits := Z.lor (Z.land (Z.shiftr d2 10) 7) (b2z (negb (Z.lor (Z.land d2 (MASKR 10)) d3 =? 0))) in
      ar_narrow IEEE32 IEEE64 c rbits d roundmode
  | _ => Err Bounds
  end.

Definition ar_i32to64 (s : AR_IEEE) : outcome (Z * AR_IEEE) :=
  let off := COEFF_BIT_OFF_32_64 in
  match coeff s with
  | [s0; s1] =>
      let c := [uwrap 4 (Z.shiftr s0 off);
                uwrap 16 (Z.lor (Z.shiftl s0 (16 - off)) (Z.shiftr s1 off));
                uwrap 16 (Z.shiftl s1 (16 - off)); 0] in
      ar_widen IEEE32 IEEE64 c s
  | _ => Err Bounds
  end.

Definition ar_i128to64 (native : AR_IEEE -> Z * AR_IEEE) (q : AR_IEEE) (roundmode : round_mode) : outcome (Z * AR_IEEE) :=
  let off := COEFF_BIT_OFF_128_64 in
  if host_is_mips then Ok (native q)
  else
    match coeff q with
    | [q0; q1; q2; q3; q4; q5; q6] =>
        let c := [uwrap 4 (Z.shiftr q0 off);
                  uwrap 16 (Z.lor (Z.shiftr q1 off) (Z.shiftl q0 4));
                  uwrap 16 (Z.lor (Z.shiftr q2 off) (Z.shiftl q1 4));
                  uwrap 16 (Z.lor (Z.shiftr q3 off) (Z.shiftl q2 4))] in
        let rbits := Z.lor (Z.land (Z.shiftr q3 9) 7)
                           (b2z (negb (Z.lor (Z.lor (Z.lor (Z.land q3 (MASKR 9)) q4) q5) q6 =? 0))) in
        ar_narrow IEEE64 IEEE128 c rbits q roundmode
    | _ => Err Bounds
    end.

Definition ar_i64to128 (native : AR_IEEE -> Z * AR_IEEE) (d : AR_IEEE) : outcome (Z * AR_IEEE) :=
  let off := COEFF_BIT_OFF_128_64 in
  if host_is_mips then Ok (native d)
  else
    match coeff d with
    | [d0; d1; d2; d3] =>
        let c := [uwrap 16 (Z.lor (Z.shiftl d0 off) (Z.shiftr d1 4));
                  uwrap 16 (Z.lor (Z.shiftl d1 off) (Z.shiftr d2 4));
                  uwrap 16 (Z.lor (Z.shiftl d2 off) (Z.shiftr d3 4));
                  uwrap 16 (Z.shiftl d3 off); 0; 0; 0] in
        ar_widen IEEE64 IEEE128 c d
    | _ => Err Bounds
    end.

End Convert.
