(* ===== verification/IeeeFix.v ===== *)
(** IEEE numbers to integers: [ar_ifix32] and [ar_ifix64] round the value of the
    number to an integer and reduce it to 64 bits. *)
From Stdlib Require Import ZArith Lia Bool.
From stdpp Require Import prelude list.
From S2P Require Import Prelude ArData ArInt64 IeeeData IeeeFields IeeeOps IeeeRound IeeeNorm IeeeResult IeeeMul IeeeConvert.

(** * The reference *)
Section Reference.
Context (F : Format).

(** The value of a number is [magnitude_ieee F a] divided by [fix_unit]. *)
Definition fix_unit : Z := 2 ^ (expo_bias F + coeff_bits F - 1).

(** The magnitude, rounded to an integer as for a positive number *)
Definition fix_magnitude (mode : round_mode) (a : AR_IEEE) : Z := round_div mode false (magnitude_ieee F a) fix_unit.
Definition with_sign (negative : bool) (m : Z) : Z := if negative then - m else m.

Definition fix_status (bitsize : Z) (mode : round_mode) (a : AR_IEEE) : Z :=
  let m := uwrap 64 (fix_magnitude mode a) in
  let res := if 2 ^ bitsize <=? magnitude_ieee F a / fix_unit then AR_STAT_OVERFLOW else AR_STAT_OK in
  let res := if magnitude_ieee F a mod fix_unit =? 0 then res else Z.lor res AR_STAT_INEXACT in
  let res := if 2 ^ 63 <=? m then Z.lor res (Z.lor AR_STAT_OVERFLOW AR_STAT_SEMIVALID) else res in
  if m =? 0 then Z.lor res AR_STAT_ZERO else if sign a then Z.lor res AR_STAT_NEGATIVE else res.

(** [r] is the integer for [a]. *)
Definition fixed (bitsize : Z) (mode : round_mode) (a : AR_IEEE) (s : Z) (r : ar_data) : Prop :=
  well_formed r /\ val64 r = uwrap 64 (with_sign (sign a) (fix_magnitude mode a)) /\ s = fix_status bitsize mode a.
End Reference.

(** * Rounding to an integer *)
Lemma round_div_scale mode neg N D k : 0 < k -> 0 < D ->
  round_div mode neg (N * k) (D * k) = round_div mode neg N D /\ (N * k) / (D * k) = N / D /\
  ((N * k) mod (D * k) =? 0) = (N mod D =? 0).
Proof.
  intros Hk HD. unfold round_div. rewrite Z.div_mul_cancel_r, Z.mul_mod_distr_r by lia.
  assert ((N mod D * k =? 0) = (N mod D =? 0)) as ->.
  { apply eq_bool_prop_intro. rewrite !Is_true_true, !Z.eqb_eq. nia. }
  split_and!; [|done|done]. assert ((D * k <? 2 * (N mod D * k)) = (D <? 2 * (N mod D))) as ->.
  { apply eq_bool_prop_intro. rewrite !Is_true_true, !Z.ltb_lt. nia. }
  assert ((2 * (N mod D * k) =? D * k) = (2 * (N mod D) =? D)) as ->; [|done].
  apply eq_bool_prop_intro. rewrite !Is_true_true, !Z.eqb_eq. nia.
Qed.

(** Magnitudes below a half *)
Lemma round_div_small mode N D : 0 <= N -> 2 * N < D ->
  round_div mode false N D = (if mode is AR_ROUND_PLUS_INFINITY then b2z (negb (N =? 0)) else 0) /\ N / D = 0 /\ N mod D = N.
Proof.
  intros HN HD. unfold round_div. rewrite Z.div_small, Z.mod_small by lia. split_and!; [|done|done].
  rewrite (proj2 (Z.ltb_ge _ _)), (proj2 (Z.eqb_neq _ _)) by lia. by destruct mode.
Qed.

Lemma round_div_unit mode N : round_div mode false N 1 = N /\ N / 1 = N /\ N mod 1 = 0.
Proof.
  unfold round_div. rewrite Z.div_1_r, Z.mod_1_r. split_and!; [|done|done]. destruct mode; done.
Qed.

(** * The loops *)
Definition eighths (s : Z * ar_data) : Z := 8 * val64 (snd s) + fst s.
Definition fix_valid (s : Z * ar_data) : Prop := well_formed (snd s) /\ 0 <= fst s < 8.

Lemma fix_shift_ok s : fix_valid s -> fix_valid (fix_shift s) /\ eighths (fix_shift s) = jam_right (eighths s).
Proof.
  destruct s as [r x]. intros [Hx Hr]. cbn [fst snd] in *. unfold fix_shift, eighths, fix_valid. cbn [fst snd].
  destruct (SHRIGHT64_value x Hx) as [Hw Hv]. rewrite (low_bit64 x Hx), Hv.
  pose proof (Z.mod_pos_bound (val64 x) 2 ltac:(lia)). pose proof (Z.div_mod (val64 x) 2 ltac:(lia)).
  rewrite (Z.lor_comm (Z.land r 1)). destruct (rbits_right r (val64 x mod 2) Hr ltac:(unfold bit; lia)) as [Hr' He].
  split; [split; [done|lia]|]. rewrite He.
  replace (8 * val64 x + r) with (16 * (val64 x / 2) + (8 * (val64 x mod 2) + r)) by lia. by rewrite jam_right_add.
Qed.

Lemma fix_shifts_ok n s N D : 0 < D -> fix_valid s -> decides (eighths s) N D ->
  fix_valid (Nat.iter n fix_shift s) /\ decides (eighths (Nat.iter n fix_shift s)) N (2 ^ Z.of_nat n * D).
Proof.
  intros HD Hs Hd. induction n as [|n [IH1 IH2]]; [by rewrite Z.mul_1_l|]. cbn [Nat.iter nat_rect].
  destruct (fix_shift_ok _ IH1) as [Hv He]. split; [done|]. change (fix_shift (nat_rect _ _ _ n)) with (fix_shift (Nat.iter n fix_shift s)) in *.
  rewrite He, Nat2Z.inj_succ, Z.pow_succ_r, <- Z.mul_assoc by lia. apply decides_right; [|done].
  apply Z.mul_pos_pos; [apply Z.pow_pos_nonneg|]; lia.
Qed.

Lemma shift_left_ok n x : well_formed x -> 
  well_formed (Nat.iter n SHLEFT64 x) /\ val64 (Nat.iter n SHLEFT64 x) = uwrap 64 (val64 x * 2 ^ Z.of_nat n).
Proof.
  intros Hx. induction n as [|n [IH1 IH2]].
  { split; [done|]. cbn [Nat.iter nat_rect Z.of_nat]. rewrite Z.mul_1_r. symmetry. by apply uwrap_id, val64_range. }
  cbn [Nat.iter nat_rect]. destruct (SHLEFT64_value _ IH1) as [Hw Hv]. split; [done|].
  change (SHLEFT64 (nat_rect _ _ _ n)) with (SHLEFT64 (Nat.iter n SHLEFT64 x)) in *. rewrite Hv, IH2. unfold uwrap.
  rewrite Zmult_mod_idemp_r. f_equal. rewrite Nat2Z.inj_succ, Z.pow_succ_r by lia. lia.
Qed.

Lemma nearest_bits r odd : 0 <= r < 8 ->
  negb (Z.shiftr r (ROUND_BITS - 1) =? 0) && (negb (Z.land r (MASKR (ROUND_BITS - 1)) =? 0) || odd) =
  (4 <? r) || ((r =? 4) && odd).
Proof. intros Hr. destruct (rbits_cases r Hr) as [->|[->|[->|[->|[->|[->|[->| ->]]]]]]]; by destruct odd. Qed.

Definition down_negative (mode : round_mode) (sign : bool) : bool :=
  match mode with AR_ROUND_MINUS_INFINITY => sign | _ => false end.

(** The decision of the code is the one of the reference, except that downwards
    a negative magnitude is decremented. *)
Lemma fix_round_ok mode sign s M D :
  fix_valid s -> 0 < D -> decides (eighths s) (8 * M) D -> down_negative mode sign = false ->
  let r := fix_round mode sign (fst s) (snd s) in
  well_formed r /\ val64 r = uwrap 64 (round_div mode sign M D) /\ (fst s =? 0) = (M mod D =? 0).
Proof.
  destruct s as [r x]. intros [Hx Hr] HD Hd Hsm. cbn [fst snd] in *. cbn zeta. unfold eighths in Hd. cbn [fst snd] in Hd.
  pose proof (val64_range x Hx) as Hvr. destruct (decides_round (8 * val64 x + r) M D HD ltac:(lia) Hd) as (Hdiv & Hz & Hgt & Heq).
  rewrite (Z.add_comm (8 * val64 x)), (Z.mul_comm 8 (val64 x)) in Hdiv, Hz, Hgt, Heq.
  rewrite Z.mod_add, (Z.mod_small r) in Hz, Hgt, Heq by lia. rewrite Z.div_add, (Z.div_small r), Z.add_0_l in Hdiv by lia.
  destruct (INC64_value x Hx) as [Hi Hiv]. pose proof (uwrap_id 64 (val64 x) Hvr) as Hid.
  assert (fix_round mode sign r x = if (round_div mode sign M D =? val64 x) then x else INC64 x) as ->.
  { unfold fix_round, round_div. rewrite Hdiv, <- Hz, <- Hgt, <- Heq. rewrite (low_bit64 x Hx), Zmod_odd.
    destruct mode; cbn [down_negative] in Hsm.
    - replace (negb ((if Z.odd (val64 x) then 1 else 0) =? 0)) with (Z.odd (val64 x)) by (by destruct (Z.odd _)).
      rewrite nearest_bits by done.
      destruct (_ || _); rewrite ?Z.eqb_refl, ?(proj2 (Z.eqb_neq (val64 x + 1) (val64 x))) by lia; done.
    - destruct sign, (r =? 0); cbn [negb andb]; rewrite ?Z.eqb_refl, ?(proj2 (Z.eqb_neq (val64 x + 1) (val64 x))) by lia; done.
    - subst sign. cbn [andb]. by rewrite Z.eqb_refl.
    - by rewrite Z.eqb_refl. }
  assert (round_div mode sign M D = val64 x \/ round_div mode sign M D = val64 x + 1) as Hcase.
  { unfold round_div. rewrite Hdiv. by case_match; [right|left]. }
  destruct (Z.eqb_spec (round_div mode sign M D) (val64 x)) as [He|He]; [rewrite He|destruct Hcase as [?|He']; [done|rewrite He']];
    split_and!; done.
Qed.

Lemma part1_top x : well_formed x -> negb (Z.land (part1 x) 0x8000 =? 0) = (2 ^ 63 <=? val64 x).
Proof.
  intros Hx. pose proof Hx as (H1 & H2 & H3 & H4). change 0x8000 with (Z.shiftl 1 (16 - 1)). rewrite land_top_bit by (lia || done).
  apply eq_bool_prop_intro. rewrite !Is_true_true, !Z.leb_le. unfold val64, in_u in *. lia.
Qed.

Lemma fix_finish_ok neg res x m :
  well_formed x -> val64 x = uwrap 64 m ->
  let r := fix_finish neg res x in
  well_formed (snd r) /\ val64 (snd r) = uwrap 64 (with_sign neg m) /\
  fst r = (if uwrap 64 m =? 0 then Z.lor res AR_STAT_ZERO else if neg then Z.lor res AR_STAT_NEGATIVE else res).
Proof.
  intros Hx Hv. unfold fix_finish, with_sign. cbn [fst snd]. rewrite <- Hv. destruct neg.
  - change (INC64 (NOT64 x)) with (NEG64 x). destruct (NEG64_value x Hx) as [Hw Hn].
    rewrite nonzero64_value by done. rewrite negb_involutive, Hn. split; [done|].
    split; [rewrite Hv; unfold uwrap; rewrite <- (Z.sub_0_l (m mod 2 ^ 64)), Zminus_mod_idemp_r; done|].
    pose proof (val64_range x Hx). assert ((uwrap 64 (- val64 x) =? 0) = (val64 x =? 0)) as ->; [|done].
    apply eq_bool_prop_intro. rewrite !Is_true_true, !Z.eqb_eq. unfold uwrap. Z.to_euclidean_division_equations; lia.
  - rewrite nonzero64_value by done. by rewrite negb_involutive.
Qed.

(** * [ar_ifix32] and [ar_ifix64] *)
Section Fix.
Context (F : Format) `{!GoodFormat F} `{FpState}.
Context (TOINT64 : AR_IEEE -> outcome ar_data).

Local Abbreviation C := (C F).

(** The format leaves room in 64 bits, and the macro puts the coefficient and the
    exponent next to each other. *)
Context (HC62 : C <= 62) (Hbias : 4 <= expo_bias F).
Context (TOINT64_ok : forall f, fields (c_bits F) (coeff f) -> sign f = false -> bit (expo f) ->
  exists d, TOINT64 f = Ok d /\ well_formed d /\ val64 d = expo f * 2 ^ C + cval F (coeff f)).

Lemma is_zero_significand a : finite F a -> is_zero a = (significand F a =? 0).
Proof.
  intros Ha. destruct (significand_range F a Ha) as (_ & HS1 & Hc). destruct Ha as (Hf & He & _). unfold is_zero, significand.
  rewrite (nz_coeff_cval F) by done. rewrite negb_involutive. fold C. pose proof (pow_C_pos F). unfold cval in *.
  destruct (implicit_bit_cases a He) as [[He0 ->]|[He0 ->]].
  - rewrite He0. by rewrite Z.mul_0_l, Z.add_0_l.
  - rewrite (proj2 (Z.eqb_neq (expo a) 0)) by lia. symmetry. apply Z.eqb_neq. unfold cval. lia.
Qed.

Lemma fix_unit_scale a : finite F a ->
  0 < fix_unit F /\
  (expo a = 0 -> 2 * magnitude_ieee F a < fix_unit F) /\
  (forall k, k = expo_bias F + C - expo a -> 0 < expo a ->
    (0 <= k -> fix_unit F = 2 ^ k * 2 ^ (expo a - 1) /\ magnitude_ieee F a = significand F a * 2 ^ (expo a - 1)) /\
    (k <= 0 -> magnitude_ieee F a = significand F a * 2 ^ (- k) * fix_unit F)).
Proof.
  intros Ha. destruct (significand_range F a Ha) as (HS & _ & Hcv). destruct Ha as (_ & He & _).
  pose proof (C_large F) as HC. unfold ROUND_BITS in HC. pose proof (pow_C_pos F). unfold fix_unit, magnitude_ieee. fold C.
  split; [apply Z.pow_pos_nonneg; lia|]. split.
  - intros He0. unfold significand, implicit_bit. rewrite He0. cbn [Z.eqb b2z negb]. change (Z.max 1 0 - 1) with 0.
    change (2 ^ 0) with 1. fold (cval F (coeff a)). replace (expo_bias F + C - 1) with (C + (expo_bias F - 1)) by lia.
    rewrite Z.pow_add_r by lia. pose proof (Z.pow_le_mono_r 2 2 (expo_bias F - 1) ltac:(lia) ltac:(lia)). change (2 ^ 2) with 4 in *. nia.
  - intros k -> Hpos. rewrite (Z.max_r 1) by lia. split; intros Hk.
    + split; [|done]. rewrite <- Z.pow_add_r by lia. f_equal. lia.
    + rewrite <- Z.mul_assoc, <- Z.pow_add_r by lia. do 2 f_equal. lia.
Qed.

(** The two loops, from the significand on; [shift] is limited to the bits that
    matter. *)
Definition fix_loops (shift : Z) (d : ar_data) : Z * ar_data :=
  Nat.iter (Z.to_nat shift) fix_shift (0, Nat.iter (Z.to_nat (- shift)) SHLEFT64 d).

Definition fix_steps (shift : Z) : Z := if shift >? C + ROUND_BITS then C + ROUND_BITS else shift.

Lemma fix_loops_ok a mode d :
  finite F a -> well_formed d -> val64 d = significand F a ->
  let shift := fix_steps (expo_bias F + C - expo a) in
  let s := fix_loops shift d in
  let r := fix_round mode false (fst s) (snd s) in
  well_formed r /\ val64 r = uwrap 64 (fix_magnitude F mode a) /\
  (fst s =? 0) = (magnitude_ieee F a mod fix_unit F =? 0).
Proof.
  intros Ha Hd Hv. cbn zeta. destruct (significand_range F a Ha) as (HS & HS1 & _).
  destruct (fix_unit_scale a Ha) as (HU & HU0 & HU1). pose proof Ha as (_ & He & _).
  pose proof (C_large F) as HC. unfold ROUND_BITS in HC. pose proof (pow_C_pos F).
  assert (forall s, fix_valid s -> forall N D, 0 < D -> decides (eighths s) (8 * N) D ->
            let r := fix_round mode false (fst s) (snd s) in
            well_formed r /\ val64 r = uwrap 64 (round_div mode false N D) /\ (fst s =? 0) = (N mod D =? 0)) as Hround.
  { intros s Hs N D HD Hdec. apply fix_round_ok; try done. by destruct mode. }
  set (k := expo_bias F + C - expo a) in *. unfold fix_loops, fix_steps, fix_magnitude.
  destruct (Z.lt_ge_cases k 0) as [Hk|Hk].
  - destruct (HU1 k eq_refl ltac:(lia)) as [_ Hm]. rewrite (Hm ltac:(lia)).
    assert ((k >? C + ROUND_BITS) = false) as -> by (rewrite Z.gtb_ltb; apply Z.ltb_ge; unfold ROUND_BITS; lia).
    rewrite (Z2Nat.nonpos k) by lia. cbn [Nat.iter nat_rect fst snd].
    destruct (shift_left_ok (Z.to_nat (- k)) d Hd) as [Hw Hvl]. rewrite Z2Nat.id, Hv in Hvl by lia.
    set (x := Nat.iter _ SHLEFT64 d) in *. set (V := significand F a * 2 ^ (- k)) in *.
    destruct (round_div_scale mode false V 1 (fix_unit F) HU ltac:(lia)) as (Hrd & _ & Hz).
    rewrite Z.mul_1_l in Hrd, Hz. rewrite Hrd, Hz. clear Hrd Hz.
    destruct (round_div_unit mode V) as (-> & _ & ->).
    assert (fix_round mode false 0 x = x) as -> by (by destruct mode). done.
  - set (n := if k >? C + ROUND_BITS then C + ROUND_BITS else k).
    assert (0 <= n /\ n <= k /\ (n < k -> n = C + 3)) as (Hn0 & Hnk & Hn).
    { unfold n. destruct (Z.gtb_spec k (C + ROUND_BITS)); unfold ROUND_BITS in *; lia. }
    rewrite (Z2Nat.nonpos (- n)) by lia. change (Nat.iter 0 SHLEFT64 d) with d.
    assert (fix_valid (0, d) /\ decides (eighths (0, d)) (8 * significand F a) 1) as [Hf0 Hd0].
    { split; [split; [done|cbn; lia]|]. left. unfold exact_for, eighths. cbn [fst snd]. lia. }
    destruct (fix_shifts_ok (Z.to_nat n) _ _ 1 ltac:(lia) Hf0 Hd0) as [Hf Hdec]. rewrite Z2Nat.id, Z.mul_1_r in Hdec by lia.
    set (s := Nat.iter _ fix_shift _) in *.
    destruct (Hround s Hf _ (2 ^ n) ltac:(apply Z.pow_pos_nonneg; lia) Hdec) as (Hw & Hvr & Hz). split; [done|].
    rewrite Hvr, Hz. clear Hvr Hz Hround Hdec Hf Hw. clearbody s.
    assert (round_div mode false (significand F a) (2 ^ n) = round_div mode false (magnitude_ieee F a) (fix_unit F) /\
            (significand F a mod 2 ^ n =? 0) = (magnitude_ieee F a mod fix_unit F =? 0)) as [-> ->]; [|done].
    destruct (decide (n = k /\ 0 < expo a)) as [[-> Hpos]|Hc].
    + destruct (HU1 k eq_refl Hpos) as [Hk' _]. destruct (Hk' Hk) as [-> ->].
      destruct (round_div_scale mode false (significand F a) (2 ^ k) (2 ^ (expo a - 1))) as (-> & _ & ->);
        [apply Z.pow_pos_nonneg; lia..|done].
    + assert (n = C + 3) as ->.
      { destruct (decide (n = k)) as [Hnk'|]; [|apply Hn; lia]. unfold n. destruct (Z.gtb_spec k (C + ROUND_BITS)); [done|]. unfold ROUND_BITS in *. lia. }
      assert (2 * significand F a < 2 ^ (C + 3)) as Hsmall by (rewrite Z.pow_add_r by lia; lia).
      assert (0 <= magnitude_ieee F a /\ 2 * magnitude_ieee F a < fix_unit F /\ (magnitude_ieee F a = 0 <-> significand F a = 0)) as (Hm0 & Hm & Hmz).
      { assert (0 < 2 ^ (Z.max 1 (expo a) - 1)) by (apply Z.pow_pos_nonneg; lia). 
        split; [unfold magnitude_ieee; nia|]. split; [|unfold magnitude_ieee; nia].
        destruct (decide (expo a = 0)) as [He0|]; [by apply HU0|]. destruct (HU1 k eq_refl ltac:(lia)) as [Hk' _]. destruct (Hk' Hk) as [-> ->].
        assert (0 < 2 ^ (expo a - 1)) by (apply Z.pow_pos_nonneg; lia).
        assert (2 ^ (C + 3) <= 2 ^ k) by (apply Z.pow_le_mono_r; lia). nia. }
      destruct (round_div_small mode _ _ (proj1 HS) Hsmall) as (-> & _ & ->).
      destruct (round_div_small mode _ _ Hm0 Hm) as (-> & _ & ->).
      assert ((significand F a =? 0) = (magnitude_ieee F a =? 0)) as ->; [|done].
      apply eq_bool_prop_intro. rewrite !Is_true_true, !Z.eqb_eq. lia.
Qed.

(** [if (shift < AR_IEEEn_COEFF_BITS + 1 - bitsize)] *)
Lemma fix_too_large a bitsize : finite F a -> 0 <= bitsize ->
  (fix_steps (expo_bias F + C - expo a) <? C + 1 - bitsize) = (2 ^ bitsize <=? magnitude_ieee F a / fix_unit F).
Proof.
  intros Ha Hb. destruct (significand_range F a Ha) as (HS & HS1 & _).
  destruct (fix_unit_scale a Ha) as (HU & HU0 & HU1). pose proof Ha as (_ & He & _).
  pose proof (C_large F) as HC. unfold ROUND_BITS in HC. pose proof (pow_C_pos F).
  set (k := expo_bias F + C - expo a) in *. unfold fix_steps, ROUND_BITS.
  apply eq_bool_prop_intro. rewrite !Is_true_true, Z.ltb_lt, Z.leb_le.
  assert ((if k >? C + 3 then C + 3 else k) < C + 1 - bitsize <-> bitsize <= expo a - expo_bias F) as ->.
  { unfold k. destruct (Z.gtb_spec (expo_bias F + C - expo a) (C + 3)); lia. }
  pose proof (Z.pow_pos_nonneg 2 bitsize ltac:(lia) Hb). destruct (decide (expo a = 0)) as [He0|He0].
  { specialize (HU0 He0). rewrite (Z.div_small _ (fix_unit F)); [lia|]. split; [|lia].
    unfold magnitude_ieee. apply Z.mul_nonneg_nonneg; [lia|apply Z.pow_nonneg; lia]. }
  specialize (HS1 He0).
  assert (2 ^ bitsize <= magnitude_ieee F a / fix_unit F <-> 2 ^ bitsize * fix_unit F <= magnitude_ieee F a) as ->.
  { split; intros Hle.
    - pose proof (Z.mul_div_le (magnitude_ieee F a) (fix_unit F) HU). nia.
    - apply Z.div_le_lower_bound; lia. }
  assert (2 ^ C * 2 ^ (expo a - 1) <= magnitude_ieee F a < 2 ^ (C + 1) * 2 ^ (expo a - 1)) as Hm.
  { unfold magnitude_ieee. rewrite (Z.max_r 1) by lia. pose proof (Z.pow_pos_nonneg 2 (expo a - 1) ltac:(lia) ltac:(lia)).
    rewrite (Z.pow_add_r 2 C 1) by lia. nia. }
  unfold fix_unit. fold C. rewrite <- !Z.pow_add_r in * by lia. split; intros Hle.
  - transitivity (2 ^ (C + (expo a - 1))); [apply Z.pow_le_mono_r; lia|lia].
  - assert (2 ^ (bitsize + (expo_bias F + C - 1)) < 2 ^ (C + 1 + (expo a - 1))) as Hlt by lia.
    apply Z.pow_lt_mono_r_iff in Hlt; lia.
Qed.

Lemma ifix_ok a bitsize mode :
  finite F a -> 0 <= bitsize ->
  exists s r, ar_ifix_fields F TOINT64 a bitsize mode = Ok (s, r) /\ fixed F bitsize mode a s r.
Proof.
  intros Ha Hb. destruct (significand_range F a Ha) as (HS & _ & _). unfold ar_ifix_fields. fold C.
  rewrite (is_zero_significand a Ha). pose proof Ha as (Hf & He & _). destruct (fix_unit_scale a Ha) as (HU & _).
  destruct (Z.eqb_spec (significand F a) 0) as [HS0|HS0].
  - eexists _, _. split; [done|]. unfold fixed, fix_status, fix_magnitude, magnitude_ieee. rewrite HS0, Z.mul_0_l.
    destruct (round_div_small mode 0 (fix_unit F) ltac:(lia) ltac:(lia)) as (-> & -> & ->).
    assert ((if mode is AR_ROUND_PLUS_INFINITY then b2z (negb (0 =? 0)) else 0) = 0) as -> by (by destruct mode).
    rewrite (proj2 (Z.leb_gt (2 ^ bitsize) 0)) by (apply Z.pow_pos_nonneg; lia).
    split; [unfold well_formed, in_u; cbn; lia|]. by destruct (sign a).
  - destruct (TOINT64_ok (mkIeee false (implicit_bit a) (coeff a))) as (d & -> & Hd & Hv).
    { done. } { done. } { destruct (implicit_bit_cases a He) as [[_ ->]|[_ ->]]; [by left|by right]. }
    rewrite obind_ok. cbn [sign].
    change (if expo_bias F + C - expo a >? C + ROUND_BITS then C + ROUND_BITS else expo_bias F + C - expo a)
      with (fix_steps (expo_bias F + C - expo a)).
    pose proof (fix_loops_ok a mode d Ha Hd Hv) as Hl. cbn zeta in Hl. unfold fix_loops in Hl.
    rewrite (fix_too_large a bitsize Ha Hb). destruct (Nat.iter _ fix_shift _) as [rb x]. cbn [fst snd] in Hl.
    destruct Hl as (Hw & Hvr & Hz). rewrite Hz, (part1_top _ Hw).
    lazymatch goal with |- context [fix_finish ?n ?r ?y] => destruct (fix_finish_ok n r y _ Hw Hvr) as (Hw' & Hv' & Hs');
      destruct (fix_finish n r y) as [st r'] end. cbn [fst snd] in *.
    exists st, r'. split; [done|]. split; [done|]. split; [done|]. rewrite Hs'. unfold fix_status. rewrite Hvr.
    by destruct (_ mod _ =? 0).
Qed.
End Fix.

(** * The formats *)
Lemma cval32 c0 c1 : cval IEEE32 [c0; c1] = c0 * 2 ^ 16 + c1.
Proof. unfold cval. cbn [c_bits IEEE32 fval]. change (sumz [16]) with 16. change (sumz []) with 0. lia. Qed.

Lemma cval64 c0 c1 c2 c3 : cval IEEE64 [c0; c1; c2; c3] = c0 * 2 ^ 48 + c1 * 2 ^ 32 + c2 * 2 ^ 16 + c3.
Proof.
  unfold cval. cbn [c_bits IEEE64 fval]. change (sumz [16; 16; 16]) with 48. change (sumz [16; 16]) with 32.
  change (sumz [16]) with 16. change (sumz []) with 0. lia.
Qed.

Lemma cval128 c0 c1 c2 c3 c4 c5 c6 :
  cval IEEE128 [c0; c1; c2; c3; c4; c5; c6] =
  c0 * 2 ^ 96 + c1 * 2 ^ 80 + c2 * 2 ^ 64 + c3 * 2 ^ 48 + c4 * 2 ^ 32 + c5 * 2 ^ 16 + c6.
Proof.
  unfold cval. cbn [c_bits IEEE128 fval]. change (sumz [16; 16; 16; 16; 16; 16]) with 96. change (sumz [16; 16; 16; 16; 16]) with 80.
  change (sumz [16; 16; 16; 16]) with 64. change (sumz [16; 16; 16]) with 48. change (sumz [16; 16]) with 32.
  change (sumz [16]) with 16. change (sumz []) with 0. lia.
Qed.

Lemma coefficient32 x : fields (c_bits IEEE32) x -> exists c0 c1, x = [c0; c1] /\ in_u 7 c0 /\ in_u 16 c1.
Proof.
  intros H. destruct (fields_cons_inv _ _ _ H) as (c0 & x1 & -> & H0 & H').
  destruct (fields_cons_inv _ _ _ H') as (c1 & x2 & -> & H1 & H''). inversion H''. eauto.
Qed.

Lemma coefficient64 x : fields (c_bits IEEE64) x ->
  exists c0 c1 c2 c3, x = [c0; c1; c2; c3] /\ in_u 4 c0 /\ in_u 16 c1 /\ in_u 16 c2 /\ in_u 16 c3.
Proof.
  intros H. destruct (fields_cons_inv _ _ _ H) as (c0 & x1 & -> & H0 & H').
  destruct (fields_cons_inv _ _ _ H') as (c1 & x2 & -> & H1 & H'').
  destruct (fields_cons_inv _ _ _ H'') as (c2 & x3 & -> & H2 & H3).
  destruct (fields_cons_inv _ _ _ H3) as (c3 & x4 & -> & H4 & H5). inversion H5. by exists c0, c1, c2, c3.
Qed.

Lemma fields_cons w ws c x : in_u w c -> fields ws x -> fields (w :: ws) (c :: x).
Proof. by constructor. Qed.

(** A packed field: sign, exponent and the first field of a coefficient *)
Lemma pack_field e w c : bit e -> in_u w c -> 0 < w < 16 ->
  uwrap 16 (Z.lor (Z.lor (Z.shiftl (b2z false) 15) (Z.shiftl e w)) c) = e * 2 ^ w + c.
Proof.
  intros He Hc Hw. change (Z.shiftl (b2z false) 15) with 0. rewrite Z.lor_0_l, Z.shiftl_mul_pow2, lor_low by (lia || done).
  apply uwrap_id. unfold in_u, bit in *. pose proof (Z.pow_le_mono_r 2 w 15 ltac:(lia) ltac:(lia)).
  change (2 ^ 16) with (2 * 2 ^ 15). nia.
Qed.

Lemma IEEE32TOINT64_ok f : fields (c_bits IEEE32) (coeff f) -> sign f = false -> bit (expo f) ->
  exists d, IEEE32TOINT64 f = Ok d /\ well_formed d /\ val64 d = expo f * 2 ^ C IEEE32 + cval IEEE32 (coeff f).
Proof.
  intros Hf Hs He. destruct (coefficient32 _ Hf) as (c0 & c1 & Hc & H0 & H1). unfold IEEE32TOINT64. rewrite Hc, Hs, cval32.
  rewrite (pack_field (expo f) 7 c0) by (lia || done). eexists. split; [done|].
  change (C IEEE32) with 23. unfold well_formed, val64, in_u, bit in *. cbn [part1 part2 part3 part4]. lia.
Qed.

Lemma IEEE64TOINT64_ok f : fields (c_bits IEEE64) (coeff f) -> sign f = false -> bit (expo f) ->
  exists d, IEEE64TOINT64 f = Ok d /\ well_formed d /\ val64 d = expo f * 2 ^ C IEEE64 + cval IEEE64 (coeff f).
Proof.
  intros Hf Hs He. destruct (coefficient64 _ Hf) as (c0 & c1 & c2 & c3 & Hc & H0 & H1 & H2 & H3).
  unfold IEEE64TOINT64. rewrite Hc, Hs, cval64. rewrite (pack_field (expo f) 4 c0) by (lia || done). eexists. split; [done|].
  change (C IEEE64) with 52. unfold well_formed, val64, in_u, bit in *. cbn [part1 part2 part3 part4]. lia.
Qed.

Lemma ar_ifix32_ok a bitsize mode : finite IEEE32 a -> 0 <= bitsize ->
  exists s r, ar_ifix32 a bitsize mode = Ok (s, r) /\ fixed IEEE32 bitsize mode a s r.
Proof. apply (ifix_ok IEEE32 IEEE32TOINT64); [done..|apply IEEE32TOINT64_ok]. Qed.

Lemma ar_ifix64_ok a bitsize mode : finite IEEE64 a -> 0 <= bitsize ->
  exists s r, ar_ifix64 a bitsize mode = Ok (s, r) /\ fixed IEEE64 bitsize mode a s r.
Proof. apply (ifix_ok IEEE64 IEEE64TOINT64); [done..|apply IEEE64TOINT64_ok]. Qed.
