(* ===== verification/IeeeFloat.v ===== *)
(** Integers to IEEE numbers: [ar_iflt32], [ar_iflt64] and [ar_iflt128] round
    correctly, the first one for magnitudes below [2 ^ 32]. *)
From Stdlib Require Import ZArith Lia Bool.
From stdpp Require Import prelude list.
From S2P Require Import Prelude ArData ArInt64 IeeeData IeeeFields IeeeOps IeeeRound IeeeNorm IeeeResult IeeeMul IeeeConvert IeeeFix.

(** The value of a 64-bit integer, the sign and the magnitude that the code takes from it *)
Definition int64_value (is_unsigned : bool) (x : ar_data) : Z := if is_unsigned then val64 x else swrap 64 (val64 x).

Lemma flt_magnitude_ok is_unsigned x : well_formed x ->
  let r := flt_magnitude x is_unsigned in
  well_formed (snd r) /\ fst r = (int64_value is_unsigned x <? 0) /\ val64 (snd r) = Z.abs (int64_value is_unsigned x).
Proof.
  intros Hx. pose proof (val64_range x Hx) as Hv. unfold flt_magnitude, int64_value. rewrite (SIGNBIT_value x Hx).
  destruct is_unsigned; cbn [negb]; [rewrite andb_false_r|rewrite andb_true_r, swrap_uval by done]; cbn [fst snd].
  - split; [done|]. rewrite (proj2 (Z.ltb_ge _ _)), Z.abs_eq by lia. done.
  - change (2 ^ (64 - 1)) with (2 ^ 63). destruct (Z.leb_spec (2 ^ 63) (val64 x)); cbn [fst snd].
    + destruct (NEG64_value x Hx) as [Hw ->]. split; [done|]. rewrite (proj2 (Z.ltb_lt _ _)), Z.abs_neq by lia. split; [done|].
      symmetry. apply (Z.mod_unique _ _ (-1)); lia.
    + split; [done|]. rewrite (proj2 (Z.ltb_ge _ _)), Z.abs_eq by lia. done.
Qed.

Section Float.
Context (F : Format) `{!GoodFormat F} `{FpState}.

Local Abbreviation C := (C F).

(** An integer [M] in the significand, [lost] bits below the last place of the
    coefficient being zero *)
Lemma flt_represents M lost lbits c mode neg :
  ar_underflow_mode = AR_UNDERFLOW_TO_DENORM -> fields (c_bits F) c -> 0 <= lbits -> 0 <= lost < C ->
  lbits * 2 ^ C + cval F c = M * 2 ^ lost ->
  let N := M * fix_unit F in
  mode_sound mode neg (round_inexact (coeff_bits F) N 1) = true ->
  exists s r, ar_inorm F (expo_bias F + coeff_bits F - lost) lbits 0 (mkIeee neg 0 c) mode = Ok (s, r) /\
    correctly_rounded F mode neg N 1 s r.
Proof.
  intros Hu Hc Hl Hlost HM. cbn zeta. intros Hm. fold C in Hm |- *. destruct (good_bias (F := F)) as [_ Hbias].
  apply (ar_inorm_ok F _ _ _ (mkIeee neg 0 c)); [done|lia| |done]. cbn [coeff].
  set (s := mkNorm _ _ _ _). assert (valid F s) as Hv by (split; [done|cbn [s n_rbits n_lbits]; lia]).
  assert (exact_for (nval F s) (8 * num (n_expo s) (M * fix_unit F)) (den (n_expo s) 1)) as He.
  { unfold exact_for, nval, sig, num, den, fix_unit. cbn [s n_rbits n_lbits n_coeff n_expo]. fold C. rewrite HM.
    rewrite (Z.max_l 0 (- _)), (Z.max_r 0 (_ - 1)) by lia. change (2 ^ 0) with 1. rewrite !Z.mul_1_r, Z.mul_1_l, Z.add_0_r.
    replace (expo_bias F + C - 1) with (lost + (expo_bias F + C - lost - 1)) by lia. rewrite Z.pow_add_r by lia. lia. }
  split; [done|]. split; [by left|]. split.
  - intros _ _. left. split; [|done]. unfold nval. cbn [s n_rbits]. rewrite Z.add_0_r. replace 8 with (4 * 2) by lia. rewrite Z.mul_assoc. apply Z.mod_mul. lia.
  - cbn [s n_expo]. lia.
Qed.
End Float.

(** The shift of [ar_iflt32] does nothing below [2 ^ 32]. *)
Lemma flt_shift_done x r fuel : well_formed x -> val64 x < 2 ^ 32 -> flt_shift fuel (r, x) = Ok (r, x) /\ part1 x = 0 /\ part2 x = 0.
Proof.
  intros (H1 & H2 & H3 & H4) Hx. unfold val64, in_u in *. assert (part1 x = 0 /\ part2 x = 0) as [He1 He2] by lia.
  split; [|done]. destruct fuel; cbn [flt_shift snd]; rewrite He1, He2; done.
Qed.

(** It ends in any case. *)
Lemma flt_shift_ends n fuel s : fix_valid s -> val64 (snd s) < 2 ^ (32 + Z.of_nat n) -> (n <= fuel)%nat ->
  exists s', flt_shift fuel s = Ok s' /\ fix_valid s' /\ val64 (snd s') < 2 ^ 32.
Proof.
  revert n s. induction fuel as [|fuel IH]; intros n s Hs Hv Hn; pose proof Hs as [Hx Hr].
  - assert (n = 0%nat) as -> by lia. rewrite Z.add_0_r in Hv. destruct s as [r x]. cbn [snd] in *.
    destruct (flt_shift_done x r 0 Hx Hv) as [-> _]. eauto.
  - destruct (decide (val64 (snd s) < 2 ^ 32)) as [Hlt|Hge].
    { destruct s as [r x]. cbn [snd] in *. destruct (flt_shift_done x r (S fuel) Hx Hlt) as [-> _]. eauto. }
    destruct n as [|n]; [rewrite Z.add_0_r in Hv; lia|]. cbn [flt_shift]. case_match; [|eexists; split; [done|]; split; [done|]].
    + destruct (fix_shift_ok s Hs) as [Hs' He]. apply (IH n); [done| |lia].
      destruct (SHRIGHT64_value _ Hx) as [_ Hhalf]. destruct s as [r x]. cbn [fix_shift snd] in *. rewrite Hhalf.
      apply Z.div_lt_upper_bound; [lia|]. rewrite <- Z.pow_succ_r by lia. by replace (Z.succ (32 + Z.of_nat n)) with (32 + Z.of_nat (S n)) by lia.
    + exfalso. lazymatch goal with Hb : negb _ = false |- _ => apply negb_false_iff, Z.eqb_eq, Z.lor_eq_0_iff in Hb as [H1 H2] end.
      destruct Hx as (_ & _ & H3 & H4). unfold val64, in_u in *. lia.
Qed.

Section Formats.
Context `{FpState}.

Lemma ar_iflt64_ok x is_unsigned mode :
  ar_underflow_mode = AR_UNDERFLOW_TO_DENORM -> well_formed x ->
  let v := int64_value is_unsigned x in
  let N := Z.abs v * fix_unit IEEE64 in
  mode_sound mode (v <? 0) (round_inexact (coeff_bits IEEE64) N 1) = true ->
  exists s r, ar_iflt64 x is_unsigned mode = Ok (s, r) /\ correctly_rounded IEEE64 mode (v <? 0) N 1 s r.
Proof.
  intros Hu Hx. cbn zeta. intros Hm. unfold ar_iflt64. destruct (flt_magnitude_ok is_unsigned x Hx) as (Hw & Hn & Hv).
  destruct (flt_magnitude x is_unsigned) as [neg val]. cbn [fst snd] in *. subst neg. rewrite <- Hv in *.
  destruct Hw as (H1 & H2 & H3 & H4). change (16 - (expo_bits IEEE64 + 1)) with 4. rewrite Z.shiftr_div_pow2 by lia.
  assert (forall E, E = expo_bias IEEE64 + coeff_bits IEEE64 - 0 -> exists s r, ar_inorm IEEE64 E (part1 val / 2 ^ 4) 0
    (mkIeee (int64_value is_unsigned x <? 0) 0 (INT64TOIEEE64 val)) mode = Ok (s, r) /\
    correctly_rounded IEEE64 mode (int64_value is_unsigned x <? 0) (val64 val * fix_unit IEEE64) 1 s r) as Hf; [|by apply Hf].
  intros E ->. apply (flt_represents IEEE64); try done.
  - apply fields_cons; [by apply uwrap_range|]. repeat (apply fields_cons; [done|]); constructor.
  - unfold in_u in *. apply Z.div_pos; lia.
  - unfold INT64TOIEEE64. rewrite cval64. change (C IEEE64) with 52. unfold val64, uwrap, in_u in *. Z.to_euclidean_division_equations; lia.
Qed.

Lemma ar_iflt128_ok native x is_unsigned mode :
  host_is_mips = false -> ar_underflow_mode = AR_UNDERFLOW_TO_DENORM -> well_formed x ->
  let v := int64_value is_unsigned x in
  let N := Z.abs v * fix_unit IEEE128 in
  mode_sound mode (v <? 0) (round_inexact (coeff_bits IEEE128) N 1) = true ->
  exists s r, ar_iflt128 native x is_unsigned mode = Ok (s, r) /\ correctly_rounded IEEE128 mode (v <? 0) N 1 s r.
Proof.
  intros Hmips Hu Hx. cbn zeta. intros Hm. unfold ar_iflt128. rewrite Hmips. destruct (flt_magnitude_ok is_unsigned x Hx) as (Hw & Hn & Hv).
  destruct (flt_magnitude x is_unsigned) as [neg val]. cbn [fst snd] in *. subst neg. rewrite <- Hv in *.
  destruct Hw as (H1 & H2 & H3 & H4). change (16 - (expo_bits IEEE128 + 1)) with 0. rewrite Z.shiftr_0_r.
  apply (flt_represents IEEE128); try done.
  - repeat (apply fields_cons; [done|]). constructor.
  - by destruct H1.
  - unfold INT64TOIEEE128. cbn [app]. rewrite cval128. change (C IEEE128) with 112. unfold val64. lia.
Qed.

Lemma ar_iflt32_ok x is_unsigned mode :
  ar_underflow_mode = AR_UNDERFLOW_TO_DENORM -> well_formed x ->
  let v := int64_value is_unsigned x in
  let N := Z.abs v * fix_unit IEEE32 in
  Z.abs v < 2 ^ 32 -> mode_sound mode (v <? 0) (round_inexact (coeff_bits IEEE32) N 1) = true ->
  exists s r, ar_iflt32 x is_unsigned mode = Ok (s, r) /\ correctly_rounded IEEE32 mode (v <? 0) N 1 s r.
Proof.
  intros Hu Hx. cbn zeta. intros H32 Hm. unfold ar_iflt32. destruct (flt_magnitude_ok is_unsigned x Hx) as (Hw & Hn & Hv).
  destruct (flt_magnitude x is_unsigned) as [neg val]. cbn [fst snd] in *. subst neg. rewrite <- Hv in *.
  destruct (flt_shift_done val 0 32 Hw H32) as (-> & Hz1 & Hz2). rewrite obind_ok.
  destruct Hw as (H1 & H2 & H3 & H4). change (16 - (expo_bits IEEE32 + 1)) with 7. rewrite Z.shiftr_div_pow2 by lia.
  assert (forall E, E = expo_bias IEEE32 + coeff_bits IEEE32 - 0 -> exists s r, ar_inorm IEEE32 E (part3 val / 2 ^ 7) 0
    (mkIeee (int64_value is_unsigned x <? 0) 0 (INT64TOIEEE32 val)) mode = Ok (s, r) /\
    correctly_rounded IEEE32 mode (int64_value is_unsigned x <? 0) (val64 val * fix_unit IEEE32) 1 s r) as Hf; [|by apply Hf].
  intros E ->. apply (flt_represents IEEE32); try done.
  - apply fields_cons; [by apply uwrap_range|]. repeat (apply fields_cons; [done|]); constructor.
  - unfold in_u in *. apply Z.div_pos; lia.
  - unfold INT64TOIEEE32. rewrite cval32. change (C IEEE32) with 23. unfold val64, uwrap, in_u in *. rewrite Hz1, Hz2. Z.to_euclidean_division_equations; lia.
Qed.
End Formats.
