(* ===== verification/IeeeFormats.v ===== *)
(** One IEEE format to another: narrowing rounds correctly, widening is exact,
    and narrowing what was widened gives the number back, for all numbers,
    infinities and NaNs but the denormal ones. *)
From Stdlib Require Import ZArith Lia Bool.
From stdpp Require Import prelude list.
From S2P Require Import Prelude ArData ArInt64 IeeeData IeeeFields IeeeOps IeeeRound IeeeNorm IeeeResult IeeeMul IeeeConvert IeeeFix.

(** The rounding bits of the low part of a coefficient *)
Definition jam_low (v Q : Z) : Z := if v mod Q =? 0 then v / Q else Z.lor (v / Q) 1.

Section Narrow.
Context (F G : Format) `{!GoodFormat F} `{!GoodFormat G} `{FpState}.

Local Abbreviation C := (C F).

(** The ratio of the least denormal numbers of [F] and [G] *)
Definition format_ratio : Z := 2 ^ (expo_bias G + coeff_bits G - expo_bias F - coeff_bits F).

(** [c] has the upper bits of the coefficient of [x] and [v] the lower [k] ones. *)
Lemma narrow_ok x c v k mode :
  ar_underflow_mode = AR_UNDERFLOW_TO_DENORM -> finite G x -> expo x <> 0 -> fields (c_bits F) c ->
  coeff_bits G = coeff_bits F + k -> ROUND_BITS <= k -> expo_bias F <= expo_bias G ->
  cval G (coeff x) = cval F c * 2 ^ k + v -> 0 <= v < 2 ^ k ->
  mode_sound mode (sign x) (round_inexact (coeff_bits F) (magnitude_ieee G x) format_ratio) = true ->
  let E := expo x - expo_bias G + expo_bias F in
  exists s r, ar_inorm F (if E <=? 0 then E - 1 else E) 1 (jam_low v (2 ^ (k - ROUND_BITS))) (mkIeee (sign x) 0 c) mode = Ok (s, r) /\
    correctly_rounded F mode (sign x) (magnitude_ieee G x) format_ratio s r.
Proof.
  intros Hu Hx Hnz Hc Hk Hk3 Hb Hcv Hv Hm. cbn zeta. pose proof Hx as (_ & He & _). unfold ROUND_BITS in *.
  assert (0 < 2 ^ (k - 3)) as HQ by (apply Z.pow_pos_nonneg; lia).
  assert (2 ^ k = 8 * 2 ^ (k - 3)) as Hk8 by (change 8 with (2 ^ 3); rewrite <- Z.pow_add_r by lia; f_equal; lia).
  set (Q := 2 ^ (k - 3)) in *. set (E' := if _ <=? 0 then _ else _).
  assert (0 < format_ratio) as HD by (apply Z.pow_pos_nonneg; lia).
  assert (0 <= v / Q < 8) as Hvq by (split; [apply Z.div_pos; lia|apply Z.div_lt_upper_bound; lia]).
  assert (0 <= jam_low v Q < 8) as Hr.
  { unfold jam_low. rewrite lor_1. destruct (odd_half (v / Q)) as (h & Hh). destruct (_ =? 0), (Z.odd _); cbn [b2z] in Hh; lia. }
  apply (ar_inorm_ok F _ _ _ (mkIeee (sign x) 0 c)); [done|done| |done]. cbn [coeff]. set (s := mkNorm _ _ _ _).
  assert (valid F s) as Hvs by (split; [done|cbn [s n_rbits n_lbits]; lia]). split; [done|].
  assert (implicit_bit x = 1) as Hib by (destruct (implicit_bit_cases x ltac:(lia)); lia).
  split; [|split; [intros Hl; cbn [s n_lbits] in Hl; lia|]].
  - apply sticky_decides; [by apply den_pos|]. apply (sticky_ratio _ (significand G x) Q); [done|by apply den_pos| |].
    + unfold magnitude_ieee. rewrite (Z.max_r 1) by lia. unfold num, den, format_ratio. cbn [s n_expo]. unfold Q. change 8 with (2 ^ 3).
      rewrite Hk. unfold E'. destruct (Z.leb_spec (expo x - expo_bias G + expo_bias F) 0).
      * rewrite (Z.max_r 0 (- _)), (Z.max_l 0 (_ - 1)) by lia. rewrite <- !(Z.mul_assoc), <- !Z.pow_add_r by lia.
        rewrite (Z.mul_comm (2 ^ 3)), <- !Z.mul_assoc, <- !Z.pow_add_r by lia. do 2 f_equal. lia.
      * rewrite (Z.max_l 0 (- _)), (Z.max_r 0 (_ - 1)) by lia. rewrite <- !(Z.mul_assoc), <- !Z.pow_add_r by lia.
        rewrite (Z.mul_comm (2 ^ 3)), <- !Z.mul_assoc, <- !Z.pow_add_r by lia. do 2 f_equal. lia.
    + unfold nval, sig. cbn [s n_lbits n_coeff n_rbits]. unfold jam_low. apply sticky_low; [done|].
      unfold significand. rewrite Hib. fold (cval G (coeff x)). rewrite Hcv, Hk, Z.pow_add_r by (unfold C; pose proof (C_large F); unfold ROUND_BITS, IeeeFields.C in *; lia).
      rewrite Hk8. unfold IeeeFields.C. lia.
  - intros _. destruct (nval_split F s Hvs) as [Hq _]. replace 16 with (8 * 2) by lia. rewrite <- Z.div_div, Hq by lia.
    unfold sig. cbn [s n_lbits n_coeff]. pose proof (cval_range F c Hc). pose proof (C_large F) as HC. unfold ROUND_BITS in HC.
    rewrite Z.pow_add_r by lia. apply Z.div_lt_upper_bound; lia.
Qed.
End Narrow.

Section Widen.
Context (F : Format) `{!GoodFormat F} `{FpState}.

(** A normalised number without rounding bits is the result. *)
Lemma inorm_exact E neg c mode :
  fields (c_bits F) c -> 1 <= E <= max_expo F -> is_nearest_or_zero mode = true ->
  ar_inorm F E 1 0 (mkIeee neg 0 c) mode =
  Ok (if neg then Z.lor AR_STAT_OK AR_STAT_NEGATIVE else AR_STAT_OK, mkIeee neg E c).
Proof.
  intros Hc HE Hmode. unfold ar_inorm. cbn [Z.eqb andb coeff sign].
  rewrite normalize_left_done by (left; cbn; lia). rewrite obind_ok. cbn [Z.eqb andb negb]. rewrite andb_false_r, andb_true_r.
  rewrite (proj2 (Z.eqb_neq E 0)) by lia. rewrite Z.max_l by lia. change (Z.to_nat (0 + Z.log2 1)) with 0%nat. cbn [normalize_right].
  change (1 >? 1) with false. rewrite (proj2 (Z.ltb_ge E 0)) by lia. cbn [orb]. rewrite obind_ok.
  assert (norm_round F neg mode (mkNorm E 1 0 c) = mkNorm E 1 0 c) as ->.
  { unfold norm_round. assert (round_up mode neg 0 c = false) as -> by (by destruct mode). cbn [Z.gtb Z.compare Pos.compare Pos.compare_cont Z.eqb negb].
    by rewrite (proj2 (Z.eqb_neq E 0)) by lia. }
  unfold norm_package. cbn [Z.eqb andb negb]. rewrite Z.gtb_ltb, (proj2 (Z.ltb_ge (max_expo F) E)) by lia.
  by rewrite (proj2 (Z.eqb_neq E 0)) by lia.
Qed.

Lemma inorm_zero E neg c mode :
  fields (c_bits F) c -> nz_coeff c = false ->
  ar_inorm F E 0 0 (mkIeee neg 0 c) mode =
  Ok (Z.lor (if neg then Z.lor AR_STAT_OK AR_STAT_NEGATIVE else AR_STAT_OK) AR_STAT_ZERO, mkIeee neg 0 c).
Proof. intros Hc Hz. unfold ar_inorm. cbn [coeff sign Z.eqb andb]. by rewrite Hz. Qed.
End Widen.

(** * Coefficients *)
Lemma nz_scaled (F G : Format) `{!GoodFormat F} `{!GoodFormat G} c d k :
  fields (c_bits F) c -> fields (c_bits G) d -> 0 < k -> cval G d = cval F c * k -> nz_coeff d = nz_coeff c.
Proof.
  intros Hc Hd Hk He. rewrite (nz_coeff_cval F c Hc), (nz_coeff_cval G d Hd), He. f_equal.
  apply eq_bool_prop_intro. rewrite !Is_true_true, !Z.eqb_eq. nia.
Qed.

Lemma lor_fields w a b : 0 <= w -> in_u w b -> Z.lor b (a * 2 ^ w) = a * 2 ^ w + b.
Proof. intros Hw Hb. rewrite Z.lor_comm. by apply lor_low. Qed.

(** [x->coeff_i >> n | x->coeff_j << (w - n)], in the order of the sources and the other one *)
Lemma join_fields a b n : 0 <= n -> in_u 16 b -> n <= 16 ->
  Z.lor (Z.shiftr b (16 - n)) (Z.shiftl a n) = a * 2 ^ n + b / 2 ^ (16 - n).
Proof.
  intros Hn Hb Hn16. rewrite Z.shiftr_div_pow2, Z.shiftl_mul_pow2 by lia. apply lor_fields; [done|].
  unfold in_u in *. split; [apply Z.div_pos; [lia|apply Z.pow_pos_nonneg; lia]|].
  apply Z.div_lt_upper_bound; [apply Z.pow_pos_nonneg; lia|]. rewrite <- Z.pow_add_r by lia. replace (16 - n + n) with 16 by lia. lia.
Qed.

Ltac by_fields := unfold uwrap, in_u in *; Z.to_euclidean_division_equations; lia.
Ltac coefficient_fields := repeat (apply fields_cons; [by apply uwrap_range|]).

Lemma land_mod z k : 0 <= k -> Z.land z (Z.ones k) = z mod 2 ^ k.
Proof. apply Z.land_ones. Qed.

(** A field [x >> k] of three bits, and the sticky bit of the rest *)
Lemma jam_low_bits v Q g (b : bool) : 0 < Q -> v / Q = g -> (v mod Q =? 0) = negb b -> jam_low v Q = Z.lor g (b2z b).
Proof. intros HQ <- He. unfold jam_low. rewrite He. destruct b; [done|]. by rewrite Z.lor_0_r. Qed.

Lemma narrow_fields_64_32 d0 d1 d2 d3 :
  in_u 4 d0 -> in_u 16 d1 -> in_u 16 d2 -> in_u 16 d3 ->
  let c := [uwrap 7 (Z.lor (Z.shiftr d1 (16 - COEFF_BIT_OFF_32_64)) (Z.shiftl d0 COEFF_BIT_OFF_32_64));
            uwrap 16 (Z.lor (Z.shiftr d2 (16 - COEFF_BIT_OFF_32_64)) (Z.shiftl d1 COEFF_BIT_OFF_32_64))] in
  let v := (d2 mod 2 ^ 13) * 2 ^ 16 + d3 in
  fields (c_bits IEEE32) c /\ cval IEEE64 [d0; d1; d2; d3] = cval IEEE32 c * 2 ^ 29 + v /\ 0 <= v < 2 ^ 29 /\
  Z.lor (Z.land (Z.shiftr d2 10) 7) (b2z (negb (Z.lor (Z.land d2 (MASKR 10)) d3 =? 0))) = jam_low v (2 ^ 26).
Proof.
  intros H0 H1 H2 H3. cbn zeta. change COEFF_BIT_OFF_32_64 with 3. rewrite !join_fields by (lia || done).
  change (16 - 3) with 13. unfold MASKR. split; [coefficient_fields; constructor|]. split; [rewrite cval64, cval32; by_fields|].
  split; [by_fields|]. symmetry. apply jam_low_bits; [done|..].
  - change 7 with (Z.ones 3). rewrite land_mod, Z.shiftr_div_pow2 by lia. by_fields.
  - rewrite negb_involutive, land_mod by lia. apply eq_bool_prop_intro. rewrite !Is_true_true, !Z.eqb_eq, Z.lor_eq_0_iff. by_fields.
Qed.

Lemma widen_fields_32_64 s0 s1 :
  in_u 7 s0 -> in_u 16 s1 ->
  let c := [uwrap 4 (Z.shiftr s0 COEFF_BIT_OFF_32_64);
            uwrap 16 (Z.lor (Z.shiftl s0 (16 - COEFF_BIT_OFF_32_64)) (Z.shiftr s1 COEFF_BIT_OFF_32_64));
            uwrap 16 (Z.shiftl s1 (16 - COEFF_BIT_OFF_32_64)); 0] in
  fields (c_bits IEEE64) c /\ cval IEEE64 c = cval IEEE32 [s0; s1] * 2 ^ 29.
Proof.
  intros H0 H1. cbn zeta. change COEFF_BIT_OFF_32_64 with 3. change (16 - 3) with 13. rewrite (Z.lor_comm (Z.shiftl s0 13)).
  change (Z.shiftr s1 3) with (Z.shiftr s1 (16 - 13)). rewrite join_fields by (lia || done). change (16 - 13) with 3.
  split; [coefficient_fields; repeat (apply fields_cons; [unfold in_u; lia|]); constructor|].
  rewrite cval64, cval32, Z.shiftr_div_pow2, Z.shiftl_mul_pow2 by lia. by_fields.
Qed.

Lemma coefficient128 x : fields (c_bits IEEE128) x ->
  exists c0 c1 c2 c3 c4 c5 c6, x = [c0; c1; c2; c3; c4; c5; c6] /\
    in_u 16 c0 /\ in_u 16 c1 /\ in_u 16 c2 /\ in_u 16 c3 /\ in_u 16 c4 /\ in_u 16 c5 /\ in_u 16 c6.
Proof.
  intros H. destruct (fields_cons_inv _ _ _ H) as (c0 & x1 & -> & H0 & H').
  destruct (fields_cons_inv _ _ _ H') as (c1 & x2 & -> & H1 & H1').
  destruct (fields_cons_inv _ _ _ H1') as (c2 & x3 & -> & H2 & H2').
  destruct (fields_cons_inv _ _ _ H2') as (c3 & x4 & -> & H3 & H3').
  destruct (fields_cons_inv _ _ _ H3') as (c4 & x5 & -> & H4 & H4').
  destruct (fields_cons_inv _ _ _ H4') as (c5 & x6 & -> & H5 & H5').
  destruct (fields_cons_inv _ _ _ H5') as (c6 & x7 & -> & H6 & H7). inversion H7. by exists c0, c1, c2, c3, c4, c5, c6.
Qed.

Lemma narrow_fields_128_64 q0 q1 q2 q3 q4 q5 q6 :
  in_u 16 q0 -> in_u 16 q1 -> in_u 16 q2 -> in_u 16 q3 -> in_u 16 q4 -> in_u 16 q5 -> in_u 16 q6 ->
  let c := [uwrap 4 (Z.shiftr q0 COEFF_BIT_OFF_128_64);
            uwrap 16 (Z.lor (Z.shiftr q1 COEFF_BIT_OFF_128_64) (Z.shiftl q0 4));
            uwrap 16 (Z.lor (Z.shiftr q2 COEFF_BIT_OFF_128_64) (Z.shiftl q1 4));
            uwrap 16 (Z.lor (Z.shiftr q3 COEFF_BIT_OFF_128_64) (Z.shiftl q2 4))] in
  let v := (q3 mod 2 ^ 12) * 2 ^ 48 + q4 * 2 ^ 32 + q5 * 2 ^ 16 + q6 in
  fields (c_bits IEEE64) c /\ cval IEEE128 [q0; q1; q2; q3; q4; q5; q6] = cval IEEE64 c * 2 ^ 60 + v /\ 0 <= v < 2 ^ 60 /\
  Z.lor (Z.land (Z.shiftr q3 9) 7)
        (b2z (negb (Z.lor (Z.lor (Z.lor (Z.land q3 (MASKR 9)) q4) q5) q6 =? 0))) = jam_low v (2 ^ 57).
Proof.
  intros H0 H1 H2 H3 H4 H5 H6. cbn zeta. change COEFF_BIT_OFF_128_64 with (16 - 4). rewrite !join_fields by (lia || done).
  change (16 - 4) with 12. unfold MASKR. rewrite (Z.shiftr_div_pow2 q0) by lia.
  split; [coefficient_fields; constructor|]. split; [rewrite cval128, cval64; by_fields|].
  split; [by_fields|]. symmetry. apply jam_low_bits; [done|..].
  - change 7 with (Z.ones 3). rewrite land_mod, Z.shiftr_div_pow2 by lia. by_fields.
  - rewrite negb_involutive, land_mod by lia. apply eq_bool_prop_intro. rewrite !Is_true_true, !Z.eqb_eq, !Z.lor_eq_0_iff. by_fields.
Qed.

Lemma widen_fields_64_128 d0 d1 d2 d3 :
  in_u 4 d0 -> in_u 16 d1 -> in_u 16 d2 -> in_u 16 d3 ->
  let c := [uwrap 16 (Z.lor (Z.shiftl d0 COEFF_BIT_OFF_128_64) (Z.shiftr d1 4));
            uwrap 16 (Z.lor (Z.shiftl d1 COEFF_BIT_OFF_128_64) (Z.shiftr d2 4));
            uwrap 16 (Z.lor (Z.shiftl d2 COEFF_BIT_OFF_128_64) (Z.shiftr d3 4));
            uwrap 16 (Z.shiftl d3 COEFF_BIT_OFF_128_64); 0; 0; 0] in
  fields (c_bits IEEE128) c /\ cval IEEE128 c = cval IEEE64 [d0; d1; d2; d3] * 2 ^ 60.
Proof.
  intros H0 H1 H2 H3. cbn zeta. change COEFF_BIT_OFF_128_64 with 12. rewrite !(Z.lor_comm (Z.shiftl _ 12)).
  change 4 with (16 - 12). rewrite !join_fields by (lia || done). change (16 - 12) with 4.
  split; [coefficient_fields; repeat (apply fields_cons; [unfold in_u; lia|]); constructor|].
  rewrite cval128, cval64, Z.shiftl_mul_pow2 by lia. by_fields.
Qed.

(** * The conversions *)

(** What a number keeps in a longer format *)
Definition widen_status (F : Format) (x : AR_IEEE) : Z :=
  let s := if sign x then AR_STAT_NEGATIVE else AR_STAT_OK in
  if IS_NaN F x then AR_STAT_UNDEFINED
  else if is_inf F x then Z.lor s AR_STAT_OVERFLOW
  else if is_zero x then Z.lor s AR_STAT_ZERO else s.

Definition widened (F G : Format) (x y : AR_IEEE) : Prop :=
  sign y = sign x /\ fields (c_bits G) (coeff y) /\
  fval (c_bits G) (coeff y) = fval (c_bits F) (coeff x) * 2 ^ (coeff_bits G - coeff_bits F) /\
  expo y = (if expo x >? max_expo F then max_expo G + 1
            else if expo x =? 0 then 0 else expo x - expo_bias F + expo_bias G).

(** The lower bits of a widened coefficient are zero, and leave no rounding bits. *)
Lemma widened_low (F G : Format) k x y c v q :
  coeff_bits G - coeff_bits F = k -> 0 <= q <= k ->
  fval (c_bits G) (coeff y) = fval (c_bits F) (coeff x) * 2 ^ (coeff_bits G - coeff_bits F) ->
  cval G (coeff y) = cval F c * 2 ^ k + v -> 0 <= v < 2 ^ k -> jam_low v (2 ^ q) = 0.
Proof.
  intros Hk Hq Hv Hcv Hr. rewrite Hk in Hv. unfold cval in Hcv. assert (v = 0) as ->.
  { rewrite Hcv in Hv. assert (v = (fval (c_bits F) (coeff x) - fval (c_bits F) c) * 2 ^ k) as Hm by lia.
    rewrite <- (Z.mod_small v (2 ^ k)) by done. rewrite Hm. apply Z.mod_mul. lia. }
  unfold jam_low. by rewrite Z.mod_0_l, Z.div_0_l by (apply Z.pow_nonzero; lia).
Qed.

Section Pair.
Context (F G : Format) `{!GoodFormat F} `{!GoodFormat G} `{FpState}.
Context (Hbits : coeff_bits F < coeff_bits G) (Hbias : expo_bias F < expo_bias G).

Local Abbreviation k := (coeff_bits G - coeff_bits F).

Lemma widen_ok x c :
  well_formed_ieee F x -> is_denorm x = false ->
  fields (c_bits G) c -> cval G c = cval F (coeff x) * 2 ^ k ->
  exists y, ar_widen F G c x = Ok (widen_status F x, y) /\ widened F G x y.
Proof.
  intros [Hx He] Hd Hc Hv. unfold ar_widen, widen_status, widened, IS_NaN, is_inf.
  assert (nz_coeff c = nz_coeff (coeff x)) as Hnz by (apply (nz_scaled F G _ _ (2 ^ k)); [done|done|apply Z.pow_pos_nonneg; lia|done]).
  unfold is_denorm in Hd. unfold is_zero. destruct (Z.gtb_spec (expo x) (max_expo F)) as [Hgt|Hle].
  - destruct (nz_coeff (coeff x)) eqn:Hz; cbn [andb]; eexists; (split; [reflexivity|]); cbn [sign coeff expo].
    + unfold nan_coeff. by rewrite Hnz.
    + destruct (zero_coeff_value G) as [Hzc Hzv]. split_and!; [done|done| |done]. unfold cval in Hzv. rewrite Hzv.
      rewrite (nz_coeff_cval F) in Hz by done. apply negb_false_iff, Z.eqb_eq in Hz. unfold cval in Hz. by rewrite Hz.
  - destruct (Z.eqb_spec (expo x) 0) as [He0|He0]; cbn [andb negb] in *.
    + unfold implicit_bit. rewrite He0. cbn [Z.eqb negb b2z]. rewrite (inorm_zero G) by (done || by rewrite Hnz).
      rewrite Hd. eexists. split; [reflexivity|]. by cbn [sign coeff expo].
    + destruct (good_bias (F := F)) as [HmF _], (good_bias (F := G)) as [HmG _].
      assert (implicit_bit x = 1) as -> by (destruct (implicit_bit_cases x ltac:(lia)); lia).
      rewrite (inorm_exact G) by (done || lia). eexists. split; [reflexivity|]. by cbn [sign coeff expo].
Qed.

Lemma widen_magnitude x y : finite F x -> expo x <> 0 -> widened F G x y ->
  magnitude_ieee G y = magnitude_ieee F x * format_ratio F G.
Proof.
  intros (Hx & He & Hm) Hnz (Hs & Hc & Hv & Hey). rewrite Z.gtb_ltb, (proj2 (Z.ltb_ge _ _)), (proj2 (Z.eqb_neq _ 0)) in Hey by done.
  unfold magnitude_ieee, significand, format_ratio. destruct (implicit_bit_cases x He) as [[? _]|[Hp ->]]; [lia|].
  destruct (implicit_bit_cases y ltac:(lia)) as [[? _]|[Hp' ->]]; [lia|]. rewrite Hv, Hey, !(Z.max_r 1) by lia.
  pose proof (C_large F) as HCF. unfold ROUND_BITS, C in HCF.
  replace (2 ^ coeff_bits G) with (2 ^ coeff_bits F * 2 ^ k) by (rewrite <- Z.pow_add_r by lia; f_equal; lia).
  rewrite !Z.mul_1_l, <- Z.mul_add_distr_r, <- !Z.mul_assoc, <- !Z.pow_add_r by lia. do 2 f_equal. lia.
Qed.

Lemma narrow_widened x y c mode :
  well_formed_ieee F x -> is_denorm x = false -> widened F G x y -> is_nearest_or_zero mode = true ->
  fields (c_bits F) c -> (exists v, cval G (coeff y) = cval F c * 2 ^ k + v /\ 0 <= v < 2 ^ k) ->
  ar_narrow F G c 0 y mode = Ok (widen_status F x, x).
Proof.
  intros [Hx He] Hd (Hs & Hc & Hv & Hey) Hmode Hcf (v & Hcv & Hvr).
  assert (c = coeff x) as ->.
  { apply (cval_inj F); [done|done|]. unfold cval in *. rewrite Hcv in Hv. assert (0 < 2 ^ k) by (apply Z.pow_pos_nonneg; lia). nia. }
  assert (nz_coeff (coeff y) = nz_coeff (coeff x)) as Hnz by (apply (nz_scaled F G _ _ (2 ^ k)); [done|done|apply Z.pow_pos_nonneg; lia|done]).
  assert (nz_coeff (coeff x) = false -> coeff x = zero_coeff F) as Hzero.
  { intros Hz. destruct (zero_coeff_value F) as [Hzc Hzv]. apply (cval_inj F); [done|done|]. rewrite Hzv.
    rewrite (nz_coeff_cval F) in Hz by done. by apply negb_false_iff, Z.eqb_eq in Hz. }
  destruct (good_bias (F := F)) as [HmF HbF], (good_bias (F := G)) as [HmG _].
  unfold ar_narrow, widen_status, IS_NaN, is_inf. rewrite Hnz, Hs. unfold is_denorm in Hd. unfold is_zero.
  destruct x as [sx ex cx]. cbn [sign expo coeff] in *. destruct (Z.gtb_spec ex (max_expo F)) as [Hgt|Hle].
  - rewrite Hey, Z.gtb_ltb, (proj2 (Z.ltb_lt _ _)) by lia. replace (max_expo F + 1) with ex by lia. destruct (nz_coeff cx) eqn:Hz; cbn [andb].
    + unfold nan_coeff. by rewrite Hz.
    + unfold infinite. rewrite <- (Hzero eq_refl). replace (max_expo F + 1) with ex by lia. by destruct sx.
  - destruct (Z.eqb_spec ex 0) as [->|He0]; cbn [andb negb] in *.
    + rewrite Hey, Z.gtb_ltb, (proj2 (Z.ltb_ge _ _)) by lia. unfold flush_denorm. rewrite Hnz, Hs, Hd. cbn [Z.eqb]. rewrite <- (Hzero Hd). by destruct sx.
    + rewrite Z.gtb_ltb, (proj2 (Z.ltb_ge (max_expo G) _)), (proj2 (Z.eqb_neq (expo y) 0)) by lia.
      replace (expo y - expo_bias G + expo_bias F) with ex by lia. rewrite (proj2 (Z.leb_gt ex 0)) by lia.
      rewrite (inorm_exact F) by (done || lia). by destruct sx.
Qed.
End Pair.
