(* ===== verification/IeeeConvertTheorems.v ===== *)
(** What the conversions of [arith/convert.c] guarantee: rounding from one format
    to another and between integers and IEEE numbers, the round trips, and the
    operands for which they are wrong. *)
From Stdlib Require Import ZArith Lia Bool.
From stdpp Require Import prelude list.
From S2P Require Import Prelude ArData ArInt64 IeeeData IeeeFields IeeeOps IeeeRound IeeeNorm IeeeResult IeeeMul IeeeConvert IeeeFix.
From S2P Require Import IeeeFloat IeeeFormats IeeeTheorems.

(** * Integers that a format represents *)
Section Exact.
Context (F : Format) `{!GoodFormat F}.

Local Abbreviation C := (C F).

Lemma round_packed_exact mode neg S e :
  2 ^ C <= S < 2 * 2 ^ C -> 0 <= e -> round_packed C mode neg (S * 2 ^ e) 1 = e * 2 ^ C + S.
Proof.
  intros HS He. pose proof (C_large F) as HC. unfold ROUND_BITS in HC. assert (0 < 2 ^ e) by (apply Z.pow_pos_nonneg; lia).
  assert (S * 2 ^ e / (1 * 2 ^ e) = S) as Hq by (rewrite Z.mul_1_l; apply Z.div_mul; lia).
  unfold round_packed. rewrite (ulp_expo_ok F e S); [|lia|done|done|lia|rewrite Z.pow_add_r by lia; lia].
  unfold round_div. rewrite Hq. rewrite Z.mul_1_l, Z.mod_mul, Z.mul_0_r by lia.
  rewrite (proj2 (Z.ltb_ge (2 ^ e) 0)) by lia. rewrite (proj2 (Z.eqb_neq 0 (2 ^ e))) by lia. cbn [orb andb Z.eqb negb].
  rewrite !andb_false_r. by destruct mode.
Qed.

Lemma unpack r S e :
  well_formed_ieee F r -> packed F r = e * 2 ^ C + S -> 2 ^ C <= S < 2 * 2 ^ C -> 0 <= e -> e + 1 <= max_expo F ->
  finite F r /\ magnitude_ieee F r = S * 2 ^ e.
Proof.
  intros [Hf He] Hp HS He0 Hm. unfold packed in Hp. fold C in Hp. pose proof (cval_range F _ Hf) as Hv. unfold cval in Hv.
  assert (expo r = e + 1) as Hex by (destruct (Z.lt_trichotomy (expo r) (e + 1)) as [?|[?|?]]; [nia|done|nia]).
  rewrite Hex in Hp. assert (fval (c_bits F) (coeff r) = S - 2 ^ C) as Hfv by lia. split; [split; [done|lia]|].
  unfold magnitude_ieee, significand. destruct (implicit_bit_cases r ltac:(lia)) as [[? _]|[_ ->]]; [lia|]. fold C.
  rewrite Hex, Hfv, Z.max_r by lia. f_equal; [lia|f_equal; lia].
Qed.

(** An integer of at most [C + 1] bits becomes a number of exactly this value. *)
Lemma exact_integer mode M neg s r :
  0 <= M < 2 ^ (C + 1) -> C + 1 <= expo_bias F -> correctly_rounded F mode neg (M * fix_unit F) 1 s r ->
  finite F r /\ sign r = neg /\ magnitude_ieee F r = M * fix_unit F.
Proof.
  intros HM Hb (Hw & Hs & Hp & _). pose proof (C_large F) as HC. unfold ROUND_BITS in HC. pose proof (pow_C_pos F).
  destruct (good_bias (F := F)) as [Hmb _]. destruct (decide (M = 0)) as [->|HM0].
  - unfold ref_packed in Hp. rewrite Z.mul_0_l in *. fold C in Hp. rewrite (round_packed_0 F) in Hp by lia.
    pose proof (inf_packed_pos F). rewrite Z.min_r in Hp by lia.
    destruct Hw as [Hf He]. pose proof (cval_range F _ Hf) as Hv. unfold packed in Hp. fold C in Hp. unfold cval in Hv.
    assert (expo r = 0) as Hex by nia. rewrite Hex in Hp. assert (fval (c_bits F) (coeff r) = 0) as Hfv by lia. split; [split; [done|lia]|]. split; [done|].
    unfold magnitude_ieee, significand, implicit_bit. by rewrite Hex, Hfv.
  - pose proof (Z.log2_spec M ltac:(lia)) as Hl. set (l := Z.log2 M) in *. assert (0 <= l) by apply Z.log2_nonneg.
    assert (l <= C). { assert (l < C + 1); [|lia]. apply (Z.pow_lt_mono_r_iff 2); lia. }
    set (S := M * 2 ^ (C - l)). set (e := l + expo_bias F - 1).
    assert (0 < 2 ^ (C - l)) by (apply Z.pow_pos_nonneg; lia).
    assert (2 ^ C = 2 ^ l * 2 ^ (C - l)) as HCl by (rewrite <- Z.pow_add_r by lia; f_equal; lia).
    rewrite Z.pow_succ_r in Hl by lia. assert (2 ^ C <= S < 2 * 2 ^ C) as HS by (unfold S; nia).
    assert (M * fix_unit F = S * 2 ^ e) as HN.
    { unfold S, e, fix_unit. fold C. rewrite <- Z.mul_assoc, <- Z.pow_add_r by lia. do 2 f_equal. lia. }
    unfold ref_packed in Hp. fold C in Hp. rewrite HN in *. rewrite (round_packed_exact mode neg S e HS) in Hp by lia.
    assert (e * 2 ^ C + S < inf_packed F) by (unfold inf_packed; fold C; nia). rewrite Z.min_r in Hp by lia.
    destruct (unpack r S e Hw Hp HS ltac:(lia) ltac:(lia)) as [Hf Hmag]. by rewrite Hmag.
Qed.

Lemma fix_unit_pos : 0 < fix_unit F.
Proof.
  apply Z.pow_pos_nonneg; [lia|]. fold C. pose proof (C_large F). destruct (good_bias (F := F)). unfold ROUND_BITS in *. lia.
Qed.

Lemma fix_magnitude_nonneg mode a : finite F a -> 0 <= fix_magnitude F mode a.
Proof.
  intros Ha. pose proof fix_unit_pos. destruct (significand_range F a Ha) as (HS & _). assert (0 <= magnitude_ieee F a / fix_unit F).
  { apply Z.div_pos; [|done]. apply Z.mul_nonneg_nonneg; [lia|apply Z.pow_nonneg; lia]. }
  unfold fix_magnitude, round_div. case_match; lia.
Qed.

(** Below [2 ^ 63] neither overflow nor a semi-valid result is reported. *)
Lemma fix_status_small mode a : finite F a -> fix_magnitude F mode a < 2 ^ 63 ->
  Z.testbit (fix_status F 64 mode a) 0 = false /\ Z.land (fix_status F 64 mode a) AR_STAT_SEMIVALID = 0.
Proof.
  intros Ha Hm. pose proof (fix_magnitude_nonneg mode a Ha) as Hm0. unfold fix_status. rewrite (uwrap_id 64) by (unfold in_u; lia).
  rewrite (proj2 (Z.leb_gt (2 ^ 63) _)) by lia.
  assert (magnitude_ieee F a / fix_unit F <= fix_magnitude F mode a) by (unfold fix_magnitude, round_div; case_match; lia).
  rewrite (proj2 (Z.leb_gt (2 ^ 64) _)) by lia. destruct (_ mod _ =? 0), (fix_magnitude F mode a =? 0), (sign a); done.
Qed.

Lemma fixed_signed bitsize mode a s r :
  finite F a -> fixed F bitsize mode a s r -> fix_magnitude F mode a < 2 ^ 63 ->
  swrap 64 (val64 r) = with_sign (sign a) (fix_magnitude F mode a).
Proof.
  intros Ha (_ & Hv & _) Hm. pose proof (fix_magnitude_nonneg mode a Ha) as H0.
  rewrite Hv. set (z := with_sign _ _). assert (in_s 64 z) as Hz by (unfold z, with_sign, in_s; case_match; lia).
  rewrite <- (swrap_id 64 z) by (lia || done). apply (swrap_cong _ _ _ (- (z / 2 ^ 64))); [lia|]. rewrite (swrap_id 64 z) by (lia || done).
  unfold uwrap. pose proof (Z.div_mod z (2 ^ 64) ltac:(lia)). lia.
Qed.

Lemma fixed_integer bitsize mode M a s r :
  0 <= M -> magnitude_ieee F a = M * fix_unit F -> fixed F bitsize mode a s r ->
  val64 r = uwrap 64 (with_sign (sign a) M).
Proof.
  intros HM Hm (_ & Hv & _). pose proof fix_unit_pos as HU.
  rewrite Hv. unfold fix_magnitude. rewrite Hm. destruct (round_div_scale mode false M 1 (fix_unit F) HU ltac:(lia)) as (Hr & _).
  rewrite Z.mul_1_l in Hr. rewrite Hr. by destruct (round_div_unit mode M) as (-> & _).
Qed.

(** The integer that an exact number comes from *)
Lemma int_back is_unsigned x bitsize mode a s y :
  well_formed x -> sign a = (int64_value is_unsigned x <? 0) ->
  magnitude_ieee F a = Z.abs (int64_value is_unsigned x) * fix_unit F -> fixed F bitsize mode a s y -> y = x.
Proof.
  intros Hx Hs Hm Hy. pose proof (fixed_integer bitsize mode _ _ _ _ (Z.abs_nonneg _) Hm Hy) as Hv.
  apply val64_inj; [by destruct Hy|done|]. rewrite Hv, Hs. pose proof (val64_range x Hx) as Hr.
  assert (with_sign (int64_value is_unsigned x <? 0) (Z.abs (int64_value is_unsigned x)) = int64_value is_unsigned x) as ->.
  { unfold with_sign. destruct (Z.ltb_spec (int64_value is_unsigned x) 0); lia. }
  unfold int64_value. destruct is_unsigned; [by apply uwrap_id|]. rewrite swrap_uval by (lia || done). case_match; [|by apply uwrap_id].
  rewrite (uwrap_cong 64 (val64 x) _ (-1)) by lia. by apply uwrap_id.
Qed.
End Exact.

Section Theorems.
Context `{FpState}.


(** C27. Widening loses nothing: every 32-bit and every 64-bit number, infinity and
    NaN that is not denormal is given back by narrowing its widened form to nearest or towards
    zero, with the same status both times, and a normal number keeps its value.  In the directed
    modes narrowing changes exact values of one sign.  The host is not MIPS. *)
Theorem conv_widen_roundtrip (native_widen native_narrow : AR_IEEE -> Z * AR_IEEE) (mode : round_mode)
  (Hmode : is_nearest_or_zero mode = true) (Hmips : host_is_mips = false) :
  (forall x, well_formed_ieee IEEE32 x -> is_denorm x = false ->
     exists y, ar_i32to64 x = Ok (widen_status IEEE32 x, y) /\ ar_i64to32 y mode = Ok (widen_status IEEE32 x, x) /\
       (1 <= expo x <= max_expo IEEE32 -> magnitude_ieee IEEE64 y = magnitude_ieee IEEE32 x * 2 ^ (1023 + 52 - 127 - 23))) /\
  (forall x, well_formed_ieee IEEE64 x -> is_denorm x = false ->
     exists y, ar_i64to128 native_widen x = Ok (widen_status IEEE64 x, y) /\
       ar_i128to64 native_narrow y mode = Ok (widen_status IEEE64 x, x) /\
       (1 <= expo x <= max_expo IEEE64 -> magnitude_ieee IEEE128 y = magnitude_ieee IEEE64 x * 2 ^ (16383 + 112 - 1023 - 52))).
Proof.
  split; intros x Hx Hd; pose proof Hx as [Hf He]; unfold ar_i32to64, ar_i64to128; rewrite ?Hmips.
  - destruct (coefficient32 _ Hf) as (s0 & s1 & Hc & H0 & H1). rewrite Hc.
    destruct (widen_fields_32_64 s0 s1 H0 H1) as [Hfc Hcv]. rewrite <- Hc in Hcv.
    destruct (widen_ok IEEE32 IEEE64 ltac:(done) ltac:(done) x _ Hx Hd Hfc Hcv) as (y & -> & Hw).
    exists y. split; [done|]. split.
    + pose proof Hw as (_ & Hfy & Hvy & _). destruct (coefficient64 _ Hfy) as (d0 & d1 & d2 & d3 & Hcy & D0 & D1 & D2 & D3).
      unfold ar_i64to32. rewrite Hcy. destruct (narrow_fields_64_32 d0 d1 d2 d3 D0 D1 D2 D3) as (Hfc' & Hcv' & Hv' & ->).
      rewrite <- Hcy in Hcv'. rewrite (widened_low IEEE32 IEEE64 29 x y _ _ 26 ltac:(done) ltac:(done) Hvy Hcv' Hv').
      apply (narrow_widened IEEE32 IEEE64); try done. by eexists.
    + intros Hn. apply (widen_magnitude IEEE32 IEEE64); try done; [split; [done|lia]|lia].
  - destruct (coefficient64 _ Hf) as (d0 & d1 & d2 & d3 & Hc & H0 & H1 & H2 & H3). rewrite Hc.
    destruct (widen_fields_64_128 d0 d1 d2 d3 H0 H1 H2 H3) as [Hfc Hcv]. rewrite <- Hc in Hcv.
    destruct (widen_ok IEEE64 IEEE128 ltac:(done) ltac:(done) x _ Hx Hd Hfc Hcv) as (y & -> & Hw).
    exists y. split; [done|]. split.
    + pose proof Hw as (_ & Hfy & Hvy & _).
      destruct (coefficient128 _ Hfy) as (q0 & q1 & q2 & q3 & q4 & q5 & q6 & Hcy & Q0 & Q1 & Q2 & Q3 & Q4 & Q5 & Q6).
      unfold ar_i128to64. rewrite Hmips, Hcy. destruct (narrow_fields_128_64 q0 q1 q2 q3 q4 q5 q6 Q0 Q1 Q2 Q3 Q4 Q5 Q6) as (Hfc' & Hcv' & Hv' & ->).
      rewrite <- Hcy in Hcv'. rewrite (widened_low IEEE64 IEEE128 60 x y _ _ 57 ltac:(done) ltac:(done) Hvy Hcv' Hv').
      apply (narrow_widened IEEE64 IEEE128); try done. by eexists.
    + intros Hn. apply (widen_magnitude IEEE64 IEEE128); try done; [split; [done|lia]|lia].
Qed.

(** C25. An integer becomes the number nearest to its value, or the one that the
    rounding mode selects, with the sign of the integer: signed and unsigned 64-bit integers to
    64 and to 128 bits, and to 32 bits when the magnitude is below [2 ^ 32].  To nearest
    and towards zero the status is that of the reference; in the directed modes it is not
    specified.  Upward and downward rounding must be of a value that is not representable, or of
    one with the right sign ([mode_sound]): the code turns the integer 1 rounded downward into a
    number above 1.  Underflow is gradual and the host is not MIPS (which has its own 128-bit
    numbers). *)
Theorem conv_int_to_float (native : ar_data -> Z * AR_IEEE) (x : ar_data) (is_unsigned : bool) (mode : round_mode)
  (Hu : ar_underflow_mode = AR_UNDERFLOW_TO_DENORM) (Hmips : host_is_mips = false) (Hx : well_formed x) :
  let v := int64_value is_unsigned x in
  let sound F := mode_sound mode (v <? 0) (round_inexact (coeff_bits F) (Z.abs v * fix_unit F) 1) in
  let rounded F c := exists s r, c = Ok (s, r) /\ correctly_rounded F mode (v <? 0) (Z.abs v * fix_unit F) 1 s r in
  (sound IEEE64 = true -> rounded IEEE64 (ar_iflt64 x is_unsigned mode)) /\
  (sound IEEE128 = true -> rounded IEEE128 (ar_iflt128 native x is_unsigned mode)) /\
  (sound IEEE32 = true -> Z.abs v < 2 ^ 32 -> rounded IEEE32 (ar_iflt32 x is_unsigned mode)).
Proof.
  cbn zeta. split_and!; intros; [by apply ar_iflt64_ok|by apply ar_iflt128_ok|by apply ar_iflt32_ok].
Qed.

(** C24. A number becomes an integer: its magnitude is rounded as a positive number
    is in the given mode, the sign is applied, and the result is reduced to 64
    bits; magnitudes below [2 ^ 63] give exactly the rounded value. The status
    tells inexactness, zero, sign, and overflow of the given number of bits and
    of 64-bit signed integers. *)
Theorem conv_float_to_int (a : AR_IEEE) (bitsize : Z) (mode : round_mode) (Hb : 0 <= bitsize) :
  let correct F c := exists s r, c = Ok (s, r) /\ fixed F bitsize mode a s r /\
    (fix_magnitude F mode a < 2 ^ 63 -> swrap 64 (val64 r) = with_sign (sign a) (fix_magnitude F mode a)) in
  (finite IEEE32 a -> correct IEEE32 (ar_ifix32 a bitsize mode)) /\
  (finite IEEE64 a -> correct IEEE64 (ar_ifix64 a bitsize mode)).
Proof.
  cbn zeta. split; intros Ha.
  - destruct (ar_ifix32_ok a bitsize mode Ha Hb) as (s & r & -> & Hr). exists s, r. split; [done|]. split; [done|].
    intros Hm. by apply (fixed_signed IEEE32 bitsize mode a s r).
  - destruct (ar_ifix64_ok a bitsize mode Ha Hb) as (s & r & -> & Hr). exists s, r. split; [done|]. split; [done|].
    intros Hm. by apply (fixed_signed IEEE64 bitsize mode a s r).
Qed.

(** Integers survive the conversion to a number and back: those of at most 53
    bits with 64-bit numbers and those of at most 24 bits with 32-bit numbers,
    signed or unsigned, whatever the rounding mode of the conversion back. *)
Theorem conv_int_roundtrip (x : ar_data) (is_unsigned : bool) (mode mode' : round_mode) (bitsize : Z)
  (Hu : ar_underflow_mode = AR_UNDERFLOW_TO_DENORM) (Hmode : is_nearest_or_zero mode = true)
  (Hx : well_formed x) (Hb : 0 <= bitsize) :
  (Z.abs (int64_value is_unsigned x) < 2 ^ 53 ->
     exists s s' r, ar_iflt64 x is_unsigned mode = Ok (s, r) /\ ar_ifix64 r bitsize mode' = Ok (s', x)) /\
  (Z.abs (int64_value is_unsigned x) < 2 ^ 24 ->
     exists s s' r, ar_iflt32 x is_unsigned mode = Ok (s, r) /\ ar_ifix32 r bitsize mode' = Ok (s', x)).
Proof.
  split; intros Hv.
  - destruct (ar_iflt64_ok x is_unsigned mode Hu Hx) as (s & r & Hf & Hr); [by destruct mode|].
    destruct (exact_integer IEEE64 _ _ _ _ _ (conj (Z.abs_nonneg _) Hv) ltac:(done) Hr) as (Hfin & Hs & Hm).
    destruct (ar_ifix64_ok r bitsize mode' Hfin Hb) as (s' & y & He & Hy). exists s, s', r. split; [done|].
    by rewrite He, (int_back IEEE64 _ _ _ _ _ _ _ Hx Hs Hm Hy).
  - destruct (ar_iflt32_ok x is_unsigned mode Hu Hx) as (s & r & Hf & Hr); [lia|by destruct mode|].
    destruct (exact_integer IEEE32 _ _ _ _ _ (conj (Z.abs_nonneg _) Hv) ltac:(done) Hr) as (Hfin & Hs & Hm).
    destruct (ar_ifix32_ok r bitsize mode' Hfin Hb) as (s' & y & He & Hy). exists s, s', r. split; [done|].
    by rewrite He, (int_back IEEE32 _ _ _ _ _ _ _ Hx Hs Hm Hy).
Qed.
End Theorems.

(** * Witnesses *)

(** The 64-bit number with the given bits *)
Definition double (z : Z) : AR_IEEE :=
  mkIeee (Z.testbit z 63) (Z.land (Z.shiftr z 52) 0x7FF)
    [Z.land (Z.shiftr z 48) 0xF; Z.land (Z.shiftr z 32) 0xFFFF; Z.land (Z.shiftr z 16) 0xFFFF; Z.land z 0xFFFF].
Definition no_native {A B : Type} (b : B) (_ : A) : Z * B := (AR_STAT_INVALID_TYPE, b).


(** 1/10, a NaN and minus infinity, to double precision and back *)
Lemma conv_widen_roundtrip_witness :
  let check x := exists y, @ar_i32to64 default_state x = Ok (widen_status IEEE32 x, y) /\
    @ar_i64to32 default_state y AR_ROUND_NEAREST = Ok (widen_status IEEE32 x, x) in
  check (single 0x3DCCCCCD) /\ check (single 0x7FC00001) /\ check (single 0xFF800000) /\
  @ar_i32to64 default_state (single 0x3DCCCCCD) = Ok (AR_STAT_OK, double 0x3FB99999A0000000).
Proof.
  cbn zeta.
  destruct (@conv_widen_roundtrip default_state (no_native (single 0)) (no_native (single 0)) AR_ROUND_NEAREST eq_refl eq_refl) as [Hs _].
  split_and!; [| | |vm_compute; reflexivity];
    (lazymatch goal with |- context [@ar_i32to64 _ (single ?z)] =>
       destruct (Hs (single z)) as (y & H1 & H2 & _);
         [split; [repeat constructor; vm_compute; congruence|split; vm_compute; congruence]|reflexivity|by exists y] end).
Defined.

(** 2^63 - 1 rounds to 2^63. *)
Lemma conv_int_to_float_witness :
  let x := mkData 0x7FFF 0xFFFF 0xFFFF 0xFFFF in
  (exists s r, @ar_iflt64 default_state x false AR_ROUND_NEAREST = Ok (s, r) /\
     correctly_rounded IEEE64 AR_ROUND_NEAREST (int64_value false x <? 0) (Z.abs (int64_value false x) * fix_unit IEEE64) 1 s r) /\
  @ar_iflt64 default_state x false AR_ROUND_NEAREST = Ok (AR_STAT_INEXACT, double 0x43E0000000000000).
Proof.
  cbn zeta. split; [|vm_compute; reflexivity].
  destruct (@conv_int_to_float default_state (no_native (single 0)) (mkData 0x7FFF 0xFFFF 0xFFFF 0xFFFF) false AR_ROUND_NEAREST) as [Hd _];
    [reflexivity|reflexivity|unfold well_formed, in_u; cbn; lia|]. by apply Hd.
Defined.

(** -2.5 to nearest *)
Lemma conv_float_to_int_witness :
  let a := double 0xC004000000000000 in
  (exists s r, ar_ifix64 a 64 AR_ROUND_NEAREST = Ok (s, r) /\ fixed IEEE64 64 AR_ROUND_NEAREST a s r /\
     (fix_magnitude IEEE64 AR_ROUND_NEAREST a < 2 ^ 63 ->
      swrap 64 (val64 r) = with_sign (sign a) (fix_magnitude IEEE64 AR_ROUND_NEAREST a))) /\
  ar_ifix64 a 64 AR_ROUND_NEAREST = Ok (Z.lor AR_STAT_INEXACT AR_STAT_NEGATIVE, mkData 0xFFFF 0xFFFF 0xFFFF 0xFFFE).
Proof.
  cbn zeta. split; [|vm_compute; reflexivity].
  destruct (conv_float_to_int (double 0xC004000000000000) 64 AR_ROUND_NEAREST) as [_ Hd]; [lia|]. apply Hd. finite_single.
Defined.

(** -12345678901 *)
Lemma conv_int_roundtrip_witness :
  let x := mkData 0xFFFF 0xFFFD 0x2023 0xE3CB in
  (exists s s' r, @ar_iflt64 default_state x false AR_ROUND_NEAREST = Ok (s, r) /\ ar_ifix64 r 64 AR_ROUND_ZERO = Ok (s', x)) /\
  @ar_iflt64 default_state x false AR_ROUND_NEAREST = Ok (AR_STAT_NEGATIVE, double 0xC206FEE0E1A80000).
Proof.
  cbn zeta. split; [|vm_compute; reflexivity].
  destruct (@conv_int_roundtrip default_state (mkData 0xFFFF 0xFFFD 0x2023 0xE3CB) false AR_ROUND_NEAREST AR_ROUND_ZERO 64) as [Hd _];
    [reflexivity|reflexivity|unfold well_formed, in_u; cbn; lia|lia|]. apply Hd. vm_compute. reflexivity.
Defined.

(** * Operands for which the conversions are wrong *)

(** [a.sign] is cleared before the rounding mode is tested: -1.5 upwards is -2 and
    downwards is -1. *)
Lemma conv_fix_directed_negative :
  ar_ifix64 (double 0xBFF8000000000000) 64 AR_ROUND_PLUS_INFINITY =
    Ok (Z.lor AR_STAT_INEXACT AR_STAT_NEGATIVE, mkData 0xFFFF 0xFFFF 0xFFFF 0xFFFE) /\
  ar_ifix64 (double 0xBFF8000000000000) 64 AR_ROUND_MINUS_INFINITY =
    Ok (Z.lor AR_STAT_INEXACT AR_STAT_NEGATIVE, mkData 0xFFFF 0xFFFF 0xFFFF 0xFFFF).
Proof. split; vm_compute; reflexivity. Qed.

(** [ar_ifix128] decrements the magnitude of a negative number: -1.5 downwards is 0. *)
Lemma conv_fix128_minus_infinity native :
  @ar_ifix128 default_state native (mkIeee true 0x3FFF [0x8000; 0; 0; 0; 0; 0; 0]) 64 AR_ROUND_MINUS_INFINITY =
  Ok (Z.lor AR_STAT_INEXACT AR_STAT_ZERO, zero_data).
Proof. vm_compute. reflexivity. Qed.

(** It ignores the coefficient below its 63 upper bits: 1/2 + 2^-113 is rounded to 0
    like 1/2, and so is a tiny increment above an integer upwards. *)
Lemma conv_fix128_sticky native :
  @ar_ifix128 default_state native (mkIeee false 0x3FFE [0; 0; 0; 0; 0; 0; 1]) 64 AR_ROUND_NEAREST =
    Ok (Z.lor AR_STAT_INEXACT AR_STAT_ZERO, zero_data) /\
  @ar_ifix128 default_state native (mkIeee false 0x3FFF [0; 0; 0; 0; 0; 0; 1]) 64 AR_ROUND_PLUS_INFINITY =
    Ok (AR_STAT_OK, mkData 0 0 0 1).
Proof. split; vm_compute; reflexivity. Qed.

(** [ar_iflt32] shifts an integer of more than 32 bits to the right and does not
    count the shifts in the exponent: 2^32 becomes 2^31, and 2^40 becomes 2^31 too. *)
Lemma conv_flt32_large :
  @ar_iflt32 default_state (mkData 0 1 0 0) false AR_ROUND_NEAREST = Ok (AR_STAT_OK, single 0x4F000000) /\
  @ar_iflt32 default_state (mkData 0 0x100 0 0) false AR_ROUND_NEAREST = Ok (AR_STAT_OK, single 0x4F000000) /\
  val64 (mkData 0 0x100 0 0) = 2 ^ 40 /\ magnitude_ieee IEEE32 (single 0x4F000000) = 2 ^ 31 * fix_unit IEEE32.
Proof. split_and!; vm_compute; reflexivity. Qed.

(** A denormal 32-bit number is widened to a denormal 64-bit number with the same
    upper bits of the coefficient: 2^-149 becomes 2^-1045. *)
Lemma conv_widen_denormal :
  @ar_i32to64 default_state (single 1) = Ok (AR_STAT_OK, double 0x20000000) /\
  magnitude_ieee IEEE64 (double 0x20000000) = 2 ^ 29 /\ magnitude_ieee IEEE32 (single 1) = 1.
Proof. split_and!; vm_compute; reflexivity. Qed.

(** A denormal operand that underflows to zero is reported as undefined, or as an
    underflow if denormal numbers trap. *)
Lemma conv_narrow_denormal_status :
  @ar_i64to32 default_state (double 1) AR_ROUND_NEAREST = Ok (Z.lor AR_STAT_ZERO AR_STAT_UNDEFINED, single 0) /\
  @ar_i64to32 (mkFpState true AR_UNDERFLOW_TO_DENORM false) (double 1) AR_ROUND_NEAREST =
    Ok (Z.lor AR_STAT_ZERO AR_STAT_UNDERFLOW, single 0).
Proof. split; vm_compute; reflexivity. Qed.
