(* ===== verification/IeeeTyped.v ===== *)
(** The IEEE routines are total and typed: for all well-formed operands, the
    denormal ones, infinities and NaNs included, in every mode and state, they
    end and return a number of their format.  Correct rounding, which holds for
    fewer operands, is not used here. *)
From Stdlib Require Import ZArith Lia Bool.
From stdpp Require Import prelude list.
From S2P Require Import Prelude ArData ArInt64 IeeeData IeeeFields IeeeOps IeeeRound IeeeNorm IeeeResult IeeeMul IeeeAdd IeeeDiv.
From S2P Require Import IeeeConvert IeeeFix IeeeFloat IeeeFormats IeeeTheorems IeeeConvertTheorems.

Section Typed.
Context (F : Format) `{!GoodFormat F} `{FpState}.

Local Abbreviation C := (C F).
Local Abbreviation coefficient := (coefficient F).
Local Abbreviation valid := (valid F).

(** The outcome of an operation: a status and a number *)
Definition returns_number (o : outcome (Z * AR_IEEE)) : Prop := exists s r, o = Ok (s, r) /\ well_formed_ieee F r.

Lemma returns s r : well_formed_ieee F r -> returns_number (Ok (s, r)).
Proof. by exists s, r. Qed.

Lemma well_formed_inf neg c : coefficient c -> well_formed_ieee F (mkIeee neg (max_expo F + 1) c).
Proof. intros Hc. split; [done|]. cbn [expo]. destruct (good_bias (F := F)). lia. Qed.

Lemma well_formed_low neg e c : coefficient c -> 0 <= e <= 1 -> well_formed_ieee F (mkIeee neg e c).
Proof. intros Hc He. split; [done|]. cbn [expo]. destruct (good_bias (F := F)). lia. Qed.

(** ** Normalisation and rounding *)
Lemma normalize_left_typed fuel s : valid s -> n_expo s <= Z.of_nat fuel ->
  exists s', normalize_left F fuel s = Ok s' /\ valid s'.
Proof.
  revert s. induction fuel as [|fuel IH]; intros [E l r c] Hs Hf; cbn [n_expo normalize_left] in *.
  - rewrite Z.gtb_ltb, (proj2 (Z.ltb_ge 1 E)) by lia. eauto.
  - destruct (Z.gtb_spec E 1); [|eauto]. destruct (Z.eqb_spec l 0) as [->|]; [|eauto]. cbn [andb].
    destruct (left_step F E r c Hs) as (Hs' & _). apply IH; [done|]. cbn [n_expo]. lia.
Qed.

Lemma normalize_right_typed fuel s : valid s -> Z.max 0 (- n_expo s) + Z.log2 (n_lbits s) <= Z.of_nat fuel ->
  exists s', normalize_right F fuel s = Ok s' /\ valid s' /\ 0 <= n_expo s'.
Proof.
  revert s. induction fuel as [|fuel IH]; intros [E l r c] Hs Hf; cbn [n_expo n_lbits normalize_right] in *;
    pose proof (Z.log2_nonneg l); pose proof Hs as (_ & _ & Hl0); cbn [n_lbits] in Hl0;
    assert (l > 1 -> 1 <= Z.log2 l) by (intros; change 1 with (Z.log2 2); apply Z.log2_le_mono; lia);
    destruct (Z.gtb_spec l 1), (Z.ltb_spec E 0); cbn [orb]; try lia; try (by exists (mkNorm E l r c));
    destruct (right_step F E l r c Hs) as (Hs' & _); (apply IH; [done|]); cbn [n_expo n_lbits];
    (destruct (decide (l = 0)) as [->|]; [rewrite Z.shiftr_0_l; change (Z.log2 0) with 0 in *; lia|rewrite Z.log2_shiftr by lia; lia]).
Qed.

Lemma norm_round_typed neg mode s : valid s -> 0 <= n_expo s ->
  coefficient (n_coeff (norm_round F neg mode s)) /\ 0 <= n_expo (norm_round F neg mode s).
Proof.
  destruct s as [E l r c]. intros (Hc & _ & Hl) HE. cbn [n_coeff n_lbits n_expo] in *. cbn [norm_round].
  assert (forall l' c', coefficient c' -> 0 <= l' -> let s := if l' >? 1 then
      mkNorm (E + 1) (Z.shiftr l' 1) (Z.lor (Z.shiftr r 1) (Z.shiftl (low_bit c') (ROUND_BITS - 1))) (shift_right F l' c')
    else if negb (l' =? 0) then mkNorm (if E =? 0 then 1 else E) l' r c' else mkNorm 0 l' r c' in
    coefficient (n_coeff s) /\ 0 <= n_expo s) as Hdone.
  { intros l' c' Hc' Hl'. cbn zeta. destruct (l' >? 1), (l' =? 0); cbn [negb n_coeff n_expo]; try (split; [done|lia]);
      [| |split; [done|]; destruct (E =? 0); lia];
      destruct (shift_right_value F l' c' Hc' Hl') as (? & _); (split; [done|lia]). }
  destruct (round_up mode neg r c); [|by apply Hdone]. destruct (inc_cval F 1 c Hc) as [Hc' Hv].
  destruct (INCIEEE (c_bits F) 1 c) as [k c']. cbn [fst snd] in *. apply Hdone; [done|].
  pose proof (cval_range F _ Hc). pose proof (cval_range F _ Hc'). nia.
Qed.

Lemma norm_package_typed res neg s : coefficient (n_coeff s) -> 0 <= n_expo s ->
  well_formed_ieee F (snd (norm_package F res neg s)).
Proof.
  destruct s as [E l r c]. cbn [n_coeff n_expo]. intros Hc HE. destruct (zero_coeff_value F) as [Hz _]. unfold norm_package.
  set (p := if (l =? 0) && negb (nz_coeff c) then _ else _). assert (0 <= p.1) as Hp by (unfold p; case_match; cbn; lia).
  destruct p as [E' res']. cbn [fst] in Hp. destruct (Z.gtb_spec E' (max_expo F)); [by apply well_formed_inf|].
  destruct (Z.eqb_spec E' 0) as [->|]; cbn [andb]; [|split; [done|cbn; lia]].
  destruct (negb (bool_decide _) && nz_coeff c); cbn [snd]; apply well_formed_low; try done.
  rewrite (good_min (F := F)). destruct (bool_decide _); lia.
Qed.

Lemma inorm_typed E l r x mode : valid (mkNorm E l r (coeff x)) -> returns_number (ar_inorm F E l r x mode).
Proof.
  intros Hs. unfold ar_inorm. pose proof Hs as (Hc & _). cbn [n_coeff] in Hc.
  case_match; [apply returns, well_formed_low; done || lia|].
  destruct (normalize_left_typed (Z.to_nat E) _ Hs) as ([E1 l1 r1 c1] & -> & Hs1); [cbn; lia|]. rewrite obind_ok.
  set (E2 := if _ && _ then 0 else _). pose proof Hs1 as (_ & _ & Hl1). cbn [n_lbits] in Hl1. pose proof (Z.log2_nonneg l1).
  destruct (normalize_right_typed (Z.to_nat (Z.max 0 (- E2) + Z.log2 l1)) (mkNorm E2 l1 r1 c1) Hs1) as (s & -> & Hs' & HE').
  { cbn [n_expo n_lbits]. lia. }
  rewrite obind_ok. destruct (norm_round_typed (sign x) mode s Hs' HE') as [Hc' HE].
  pose proof (norm_package_typed (if sign x then Z.lor AR_STAT_OK AR_STAT_NEGATIVE else AR_STAT_OK) (sign x) _ Hc' HE) as Hw.
  destruct (norm_package F _ _ _) as [st res]. by apply returns.
Qed.

(** ** The cases that all operations have *)
Lemma QNaN_typed : well_formed_ieee F (QNaNIEEE F).
Proof.
  unfold QNaNIEEE. apply well_formed_inf. destruct (zero_coeff_value F) as [Hz _]. destruct (not_cval F _ Hz) as [Hn _].
  destruct host_is_mips; [|done]. destruct good_first as (w & ws & He & Hw). pose proof good_bits as Hb. unfold IeeeFields.coefficient in *. rewrite He in *.
  destruct (fields_cons_inv _ _ _ Hn) as (c & x & -> & Hc & Hx). destruct (sumz_cons w ws Hb) as (Hw0 & _).
  assert (0 <= Z.lxor c (Z.shiftl 1 (w - 1))) as Hnn by (apply Z.lxor_nonneg; split; intros _; [apply Z.shiftl_nonneg; lia|apply Hc]).
  apply Forall2_cons. split; [split; [done|]|done]. destruct (Z.eq_dec (Z.lxor c (Z.shiftl 1 (w - 1))) 0) as [->|]; [by apply pow_pos|].
  apply Z.log2_lt_pow2; [lia|]. eapply Z.le_lt_trans; [apply Z.log2_lxor; [apply Hc|apply Z.shiftl_nonneg; lia]|].
  apply Z.max_lub_lt; [|rewrite Z.shiftl_1_l, Z.log2_pow2 by lia; lia].
  destruct Hc as [Hc0 Hc1]. destruct (decide (c = 0)) as [->|]; [done|]. apply Z.log2_lt_pow2; lia.
Qed.

(** An operand that is neither NaN nor infinite *)
Lemma finite_operand x : well_formed_ieee F x -> is_inf F x = false -> finite F x.
Proof. intros [Hc He] Hi. unfold is_inf in Hi. rewrite Z.gtb_ltb in Hi. apply Z.ltb_ge in Hi. split; [done|lia]. Qed.

(** ** Multiplication *)
Lemma mul_rbits_range rest x2 : coefficient x2 -> 0 <= mul_rbits F rest x2 < 8.
Proof.
  intros Hx. unfold mul_rbits. pose proof good_bits as Hb. destruct good_first as (w & ws & He & Hw). unfold IeeeFields.coefficient in *.
  rewrite He in *. destruct (fields_cons_inv _ _ _ Hx) as (c & x & -> & [Hc0 Hc] & _). unfold ROUND_BITS in *.
  assert (0 <= Z.shiftr c (w - 3) < 8) as Hr.
  { rewrite Z.shiftr_div_pow2 by lia. assert (0 < 2 ^ (w - 3)) by (apply Z.pow_pos_nonneg; lia). split; [apply Z.div_pos; lia|].
    apply Z.div_lt_upper_bound; [done|]. change 8 with (2 ^ 3). rewrite <- Z.pow_add_r by lia. by replace (w - 3 + 3) with w by lia. }
  destruct (mul_sticky F rest _); [|done]. destruct (rbits_cases _ Hr) as [->|[->|[->|[->|[->|[->|[->| ->]]]]]]]; done.
Qed.

Lemma mul_typed rest x a b mode :
  well_formed_ieee F x -> well_formed_ieee F a -> well_formed_ieee F b -> returns_number (ar_ifmul_fields F rest x a b mode).
Proof.
  intros Hx Ha Hb. destruct (is_inf F a || is_inf F b) eqn:Hi.
  - unfold ar_ifmul_fields. destruct (IS_NaN F a); [by apply returns|]. destruct (IS_NaN F b); [by apply returns|].
    destruct (is_inf F b); [destruct (is_zero a); apply returns; done || apply QNaN_typed|]. rewrite orb_false_r in Hi. rewrite Hi.
    destruct (is_zero b); apply returns; done || apply QNaN_typed.
  - apply orb_false_iff in Hi as [Hia Hib]. pose proof (finite_operand a Ha Hia) as Hfa. pose proof (finite_operand b Hb Hib) as Hfb.
    destruct (ar_denorms_trap && (is_denorm a || is_denorm b)) eqn:Ht.
    { unfold ar_ifmul_fields. destruct (finite_tests F a Hfa) as [-> ->], (finite_tests F b Hfb) as [-> ->]. rewrite Ht.
      apply returns, well_formed_inf, Hx. }
    rewrite (ar_ifmul_finite F rest x a b mode Hfa Hfb Ht). cbn zeta. destruct (mul_loop_ok F a b Hfa Hfb) as [(Hcx & Hx2 & _) Hp].
    apply inorm_typed. split; [done|]. split; [by apply mul_rbits_range|]. cbn [n_lbits].
    set (s := Nat.iter _ _ _) in *. clearbody s. unfold product in Hp. rewrite (pow_2C F) in Hp.
    pose proof (significand_range F a Hfa) as (HA & _). pose proof (significand_range F b Hfb) as (HB & _).
    pose proof (cval_range F _ Hcx). pose proof (cval_range F _ Hx2). pose proof (pow_C_pos F). nia.
Qed.

(** ** Addition *)
Lemma align_typed x y : finite F x -> finite F y ->
  exists sy a, align F x y = (sy, a) /\ valid (aligned a) /\ a_lbits a <= 1.
Proof.
  intros Hx Hy. unfold align. destruct (_ >? _).
  - eexists _, _. split; [done|]. destruct (zero_coeff_value F) as [Hz _]. destruct (nz_coeff (coeff y)); (split; [split; [done|]|]; cbn; lia).
  - eexists _, _. split; [done|]. induction (Z.to_nat _) as [|n [IHv IHl]].
    + destruct Hy as (Hc & He & _). destruct (implicit_bit_cases y He) as [[_ Hb]|[_ Hb]];
        (split; [split; [done|]|]; cbn [Nat.iter nat_rect aligned a_rbits a_lbits n_rbits n_lbits]; lia).
    + destruct (align_step_ok F _ IHv IHl) as (? & ? & _). done.
Qed.

Lemma sum_shift_typed E s : valid s -> valid (sum_shift F E s).
Proof.
  destruct s as [e l r c]. intros Hs. unfold sum_shift. destruct (_ || _); [|done]. destruct (right_step F e l r c Hs) as [Hs' _]. done.
Qed.

Lemma add_finite_typed x y mode : finite F x -> finite F y -> returns_number (add_finite F x y mode).
Proof.
  intros Hx Hy. unfold add_finite. destruct (align_typed x y Hx Hy) as (sy & a & -> & Hav & Hal).
  assert (bit (implicit_bit x)) as Hb by apply implicit_bit_bit.
  assert (valid (add_coeffs F (xorb (sign x) sy) (implicit_bit x) (coeff x) a).1) as Hv.
  { destruct (xorb (sign x) sy); [apply (add_coeffs_diff F)|apply (add_coeffs_same F)]; done || apply Hx. }
  destruct (add_coeffs F _ _ _ a) as [s opp]. cbn [fst] in Hv. pose proof (sum_shift_typed (expo x) s Hv) as Hs.
  destruct (sum_shift F (expo x) s) as [E l r c]. case_match; [|by apply inorm_typed].
  apply returns, well_formed_low; [apply Hs|lia].
Qed.

Lemma add_typed a b mode : well_formed_ieee F a -> well_formed_ieee F b -> returns_number (ar_ifadd_fields F a b mode).
Proof.
  intros Ha Hb. unfold ar_ifadd_fields.
  assert (exists x y, (if expo b >? expo a then (a, b) else (b, a)) = (y, x) /\ well_formed_ieee F x /\ well_formed_ieee F y)
    as (x & y & -> & Hx & Hy) by (destruct (expo b >? expo a); eauto).
  destruct (IS_NaN F x); [by apply returns|]. destruct (IS_NaN F y); [by apply returns|].
  destruct (is_inf F x) eqn:Hix; [destruct (is_inf F y), (eqb (sign x) (sign y)); apply returns; done || apply QNaN_typed|].
  destruct (is_inf F y) eqn:Hiy; [by apply returns|].
  destruct (_ && _); [apply returns, well_formed_inf, Hx|]. apply add_finite_typed; by apply finite_operand.
Qed.

Lemma sub_typed a b mode : well_formed_ieee F a -> well_formed_ieee F b -> returns_number (ar_ifsub_fields F a b mode).
Proof.
  intros Ha Hb. unfold ar_ifsub_fields. destruct (IS_NaN F a); [by apply returns|]. destruct (IS_NaN F b); [by apply returns|].
  by apply add_typed.
Qed.

(** ** Division *)

(** A step does not read the bit that it shifts out. *)
Lemma div_step_typed s : div_valid F s -> div_valid F (div_step F s).
Proof.
  intros ((Hx & Hr & Hl) & Hs). destruct s as [l x r yl y y2 zl z z2]. change (div_step F (mkDiv l x r yl y y2 zl z z2)) with
    (div_step F (mkDiv 0 x r yl y y2 zl z z2)). apply (div_step_ok F); [|done]. split; [|done]. split; [done|]. cbn in *. lia.
Qed.

Lemma div_typed x a b mode :
  well_formed_ieee F x -> well_formed_ieee F a -> well_formed_ieee F b -> returns_number (ar_ifdiv_fields F x a b mode).
Proof.
  intros Hx Ha Hb. destruct (zero_coeff_value F) as [Hz _]. unfold ar_ifdiv_fields.
  destruct (IS_NaN F a); [by apply returns|]. destruct (IS_NaN F b); [by apply returns|].
  destruct (is_inf F b) eqn:Hib.
  { destruct (is_inf F a); apply returns; [apply QNaN_typed|apply well_formed_low; done || lia]. }
  destruct (is_inf F a) eqn:Hia; [by apply returns|]. destruct (is_zero b) eqn:Hzb.
  { destruct (is_zero a); apply returns; [apply QNaN_typed|by apply well_formed_inf]. }
  destruct (_ && _); [apply returns, well_formed_inf, Hx|].
  pose proof (finite_operand a Ha Hia) as Hfa. pose proof (finite_operand b Hb Hib) as Hfb.
  lazymatch goal with |- context [div_normalize F _ _ _ ?X] => destruct (div_divisor F b X Hfb Hzb) as (z & k & -> & _ & Hcz & _) end.
  rewrite obind_ok. destruct (div_start F a z Hfa Hcz) as [Hs0 _]. set (s0 := mkDiv _ _ _ _ _ _ _ _ _) in *.
  assert (div_valid F (Nat.iter (Z.to_nat (coeff_bits F + ROUND_BITS + 1)) (div_step F) s0)) as ((Hq & Hr & Hl) & _).
  { induction (Z.to_nat _) as [|n IH]; [done|]. by apply div_step_typed. }
  set (q := Nat.iter _ _ s0) in *. clearbody q. cbn [quotient n_coeff n_rbits n_lbits] in *.
  apply inorm_typed. split; [done|]. split; [|done]. cbn [n_rbits].
  destruct (nz_coeff (d_y2 q)); [|done]. destruct (rbits_cases _ Hr) as [->|[->|[->|[->|[->|[->|[->| ->]]]]]]]; done.
Qed.

(** ** One format to another *)
Lemma nan_coeff_typed c : coefficient c -> coefficient (nan_coeff F c).
Proof.
  intros Hc. unfold nan_coeff. destruct (nz_coeff c) eqn:Hn; [done|].
  rewrite (nz_coeff_cval F) in Hn by done. apply negb_false_iff, Z.eqb_eq in Hn. destruct (zero_coeff_value F) as [Hz Hzv].
  rewrite (cval_inj F c (zero_coeff F)) by (done || by rewrite Hzv). apply (unit_coeff_value F 1). by right.
Qed.

Lemma infinite_typed neg : returns_number (Ok (infinite F neg)).
Proof. apply returns, well_formed_inf, zero_coeff_value, _. Qed.

Lemma narrow_typed G c r x mode : coefficient c -> 0 <= r < 8 -> returns_number (ar_narrow F G c r x mode).
Proof.
  intros Hc Hr. unfold ar_narrow. destruct (_ >? _).
  - destruct (nz_coeff _); [apply returns, well_formed_inf, nan_coeff_typed, Hc|apply infinite_typed].
  - destruct (_ =? 0); [apply returns, well_formed_low; [apply zero_coeff_value, _|lia]|].
    apply inorm_typed. split; [done|]. split; [done|]. cbn. lia.
Qed.

Lemma widen_typed G c x : coefficient c -> returns_number (ar_widen G F c x).
Proof.
  intros Hc. unfold ar_widen. destruct (_ >? _).
  - destruct (nz_coeff _); [apply returns, well_formed_inf, nan_coeff_typed, Hc|apply infinite_typed].
  - apply inorm_typed. split; [done|]. cbn [n_rbits n_lbits]. split; [lia|]. unfold implicit_bit. destruct (negb _); cbn; lia.
Qed.

(** ** Numbers to integers *)
Definition returns_integer (o : outcome (Z * ar_data)) : Prop := exists s r, o = Ok (s, r) /\ well_formed r.

Lemma fix_round_typed mode neg r d : well_formed d -> well_formed (fix_round mode neg r d).
Proof.
  intros Hd. pose proof (proj1 (INC64_value d Hd)). pose proof (proj1 (DEC64_value d Hd)). unfold fix_round. by repeat case_match.
Qed.

Lemma fix_finish_typed neg res d : well_formed d -> returns_integer (Ok (fix_finish neg res d)).
Proof.
  intros Hd. eexists _, _. split; [reflexivity|]. destruct neg; [|done]. apply (NEG64_value d Hd).
Qed.

Lemma fix_loop_typed n d : well_formed d -> fix_valid (Nat.iter n fix_shift (0, d)).
Proof.
  intros Hd. induction n as [|n IH]; [done|]. by apply fix_shift_ok.
Qed.

Lemma ifix_typed TOINT64 a bitsize mode :
  (forall f, fields (c_bits F) (coeff f) -> sign f = false -> bit (expo f) -> exists d, TOINT64 f = Ok d /\ well_formed d) ->
  well_formed_ieee F a -> returns_integer (ar_ifix_fields F TOINT64 a bitsize mode).
Proof.
  intros HT [Hc He]. unfold ar_ifix_fields. destruct (is_zero a); [eexists _, _; split; [done|]; unfold well_formed, in_u; cbn; lia|].
  destruct (HT (mkIeee false (implicit_bit a) (coeff a))) as (d & -> & Hd); [done|done|apply implicit_bit_bit|]. rewrite obind_ok.
  set (n := if _ >? _ then _ else _). destruct (shift_left_ok (Z.to_nat (- n)) d Hd) as [Hd' _].
  pose proof (fix_loop_typed (Z.to_nat n) _ Hd') as Hl. destruct (Nat.iter (Z.to_nat n) fix_shift _) as [rb x]. destruct Hl as [Hx _].
  by apply fix_finish_typed, fix_round_typed.
Qed.
End Typed.

Section Formats.
Context `{FpState}.

Lemma ifix128_typed native a bitsize mode :
  host_is_mips = false -> well_formed_ieee IEEE128 a -> returns_integer (ar_ifix128 native a bitsize mode).
Proof.
  intros Hmips [Hc _]. unfold ar_ifix128. rewrite Hmips. destruct (is_zero a); [eexists _, _; split; [done|]; unfold well_formed, in_u; cbn; lia|].
  lazymatch goal with |- context [if ?b <=? 0 then ?p else ?q] => destruct (if b <=? 0 then p else q) as [n res] end.
  destruct (coefficient128 _ Hc) as (c0 & c1 & c2 & c3 & c4 & c5 & c6 & -> & _).
  lazymatch goal with |- context [Nat.iter _ fix_shift (0, ?d)] => assert (well_formed d) as Hd by (repeat split; by apply uwrap_range) end.
  pose proof (fix_loop_typed (Z.to_nat n) _ Hd) as Hl. destruct (Nat.iter (Z.to_nat n) fix_shift _) as [rb x]. destruct Hl as [Hx _].
  by apply fix_finish_typed, fix_round_typed.
Qed.

(** ** Integers to numbers *)
Lemma iflt_typed F `{!GoodFormat F} E l r neg c mode :
  fields (c_bits F) c -> 0 <= r < 8 -> 0 <= l -> returns_number F (ar_inorm F E l r (mkIeee neg 0 c) mode).
Proof. intros Hc Hr Hl. apply inorm_typed; [done|]. by split. Qed.

Lemma iflt32_typed x is_unsigned mode : well_formed x -> returns_number IEEE32 (ar_iflt32 x is_unsigned mode).
Proof.
  intros Hx. unfold ar_iflt32. destruct (flt_magnitude_ok is_unsigned x Hx) as (Hw & _).
  destruct (flt_magnitude x is_unsigned) as [neg d]. cbn [snd] in Hw. pose proof (val64_range d Hw).
  destruct (flt_shift_ends 32 32 (0, d)) as ([r y] & -> & [Hy Hr] & _); [split; [done|cbn; lia]|cbn [snd]; lia|lia|]. rewrite obind_ok.
  destruct Hy as (_ & _ & H3 & H4). apply iflt_typed; [apply _| |done|apply Z.shiftr_nonneg, H3].
  apply fields_cons; [by apply uwrap_range|]. apply fields_cons; [done|constructor].
Qed.

Lemma iflt64_typed x is_unsigned mode : well_formed x -> returns_number IEEE64 (ar_iflt64 x is_unsigned mode).
Proof.
  intros Hx. unfold ar_iflt64. destruct (flt_magnitude_ok is_unsigned x Hx) as ((H1 & H2 & H3 & H4) & _).
  destruct (flt_magnitude x is_unsigned) as [neg d]. cbn [snd] in *. apply iflt_typed; [apply _| |lia|apply Z.shiftr_nonneg, H1].
  apply fields_cons; [by apply uwrap_range|]. repeat (apply fields_cons; [done|]); constructor.
Qed.

Lemma iflt128_typed native x is_unsigned mode :
  host_is_mips = false -> well_formed x -> returns_number IEEE128 (ar_iflt128 native x is_unsigned mode).
Proof.
  intros Hmips Hx. unfold ar_iflt128. rewrite Hmips. destruct (flt_magnitude_ok is_unsigned x Hx) as ((H1 & H2 & H3 & H4) & _).
  destruct (flt_magnitude x is_unsigned) as [neg d]. cbn [snd] in *. apply iflt_typed; [apply _| |lia|apply Z.shiftr_nonneg, H1].
  repeat (apply fields_cons; [done|]); constructor.
Qed.

(** * The properties *)

(** C29. The arithmetic is total and typed: whatever the well-formed operands (zeros,
    denormal numbers, infinities and NaNs too), the rounding mode, the underflow
    mode and the trap for denormal numbers, each operation ends and returns a
    status and a well-formed number of the format: every field fits its bits and
    the exponent is between 0 and that of infinity. [x] is the former contents of
    the result; [rest] are the fields of the low half that the multiplication
    tests. *)
Theorem ieee_results_typed (F : Format) `{!GoodFormat F} (rest : list Z -> list Z) (x a b : AR_IEEE) (mode : round_mode)
  (Hx : well_formed_ieee F x) (Ha : well_formed_ieee F a) (Hb : well_formed_ieee F b) :
  returns_number F (ar_ifmul_fields F rest x a b mode) /\ returns_number F (ar_ifdiv_fields F x a b mode) /\
  returns_number F (ar_ifadd_fields F a b mode) /\ returns_number F (ar_ifsub_fields F a b mode).
Proof. split_and!; [by apply mul_typed|by apply div_typed|by apply add_typed|by apply sub_typed]. Qed.

(** C30. The conversions are total and typed: every well-formed number, NaNs and
    infinities included, has a well-formed number of the other format and a
    well-formed 64-bit integer as results, and every 64-bit integer has a
    well-formed number; the shifts of [ar_iflt32] end within 32 steps. *)
Theorem conv_results_typed (native64 native128 : AR_IEEE -> Z * AR_IEEE) (native_fix : AR_IEEE -> Z * ar_data)
  (native_flt : ar_data -> Z * AR_IEEE) (mode : round_mode) (bitsize : Z) (is_unsigned : bool) (Hmips : host_is_mips = false) :
  (forall s, well_formed_ieee IEEE32 s ->
     returns_number IEEE64 (ar_i32to64 s) /\ returns_integer (ar_ifix32 s bitsize mode)) /\
  (forall d, well_formed_ieee IEEE64 d ->
     returns_number IEEE32 (ar_i64to32 d mode) /\ returns_number IEEE128 (ar_i64to128 native128 d) /\
    returns_integer (ar_ifix64 d bitsize mode)) /\
  (forall q, well_formed_ieee IEEE128 q ->
     returns_number IEEE64 (ar_i128to64 native64 q mode) /\ returns_integer (ar_ifix128 native_fix q bitsize mode)) /\
  (forall x, well_formed x ->
     returns_number IEEE32 (ar_iflt32 x is_unsigned mode) /\ returns_number IEEE64 (ar_iflt64 x is_unsigned mode) /\
    returns_number IEEE128 (ar_iflt128 native_flt x is_unsigned mode)).
Proof.
  assert (forall v k q, 0 <= v < 2 ^ k -> k = q + 3 -> 0 < q -> 0 <= jam_low v (2 ^ q) < 8) as Hjam.
  { intros v k q Hv -> Hq. rewrite Z.pow_add_r in Hv by lia. change (2 ^ 3) with 8 in Hv. unfold jam_low.
    assert (0 <= v / 2 ^ q < 8) as Hr by (split; [apply Z.div_pos|apply Z.div_lt_upper_bound]; lia).
    destruct (_ =? 0); [done|]. destruct (rbits_cases _ Hr) as [->|[->|[->|[->|[->|[->|[->| ->]]]]]]]; done. }
  split; [|split; [|split]]; intros x Hx; unfold ar_i32to64, ar_i64to32, ar_i64to128, ar_i128to64; rewrite ?Hmips.
  - split.
    + destruct (coefficient32 _ (proj1 Hx)) as (s0 & s1 & -> & H0 & H1). apply widen_typed; [apply _|by apply widen_fields_32_64].
    + apply (ifix_typed IEEE32); [|done]. intros f Hf Hs He. destruct (IEEE32TOINT64_ok f Hf Hs He) as (d & -> & Hd & _). eauto.
  - destruct (coefficient64 _ (proj1 Hx)) as (d0 & d1 & d2 & d3 & -> & H0 & H1 & H2 & H3).
    destruct (narrow_fields_64_32 d0 d1 d2 d3 H0 H1 H2 H3) as (Hfc & _ & Hv & ->). split_and!.
    + apply narrow_typed; [apply _|done|by eapply Hjam].
    + apply widen_typed; [apply _|by apply widen_fields_64_128].
    + apply (ifix_typed IEEE64); [|done]. intros f Hf Hs He. destruct (IEEE64TOINT64_ok f Hf Hs He) as (d & -> & Hd & _). eauto.
  - split; [|by apply ifix128_typed]. destruct (coefficient128 _ (proj1 Hx)) as (q0 & q1 & q2 & q3 & q4 & q5 & q6 & -> & H0 & H1 & H2 & H3 & H4 & H5 & H6).
    destruct (narrow_fields_128_64 q0 q1 q2 q3 q4 q5 q6 H0 H1 H2 H3 H4 H5 H6) as (Hfc & _ & Hv & ->).
    apply narrow_typed; [apply _|done|by eapply Hjam].
  - split_and!; [by apply iflt32_typed|by apply iflt64_typed|by apply iflt128_typed].
Qed.
End Formats.

(** A product of two denormal numbers, and infinity minus infinity *)
Lemma ieee_results_typed_witness :
  let a := single 0x00000003 in
  let b := single 0x807FFFFF in
  returns_number IEEE32 (@ar_ifmul_fields IEEE32 default_state (fun rest => rest) a a b AR_ROUND_MINUS_INFINITY) /\
  @ar_ifsub_fields IEEE32 default_state (single 0x7F800000) (single 0x7F800000) AR_ROUND_ZERO =
    Ok (AR_STAT_UNDEFINED, single 0x7FFFFFFF).
Proof.
  cbn zeta. split; [|vm_compute; reflexivity].
  assert (well_formed_ieee IEEE32 (single 3) /\ well_formed_ieee IEEE32 (single 0x807FFFFF)) as [Ha Hb]
    by (split; (split; [repeat constructor; vm_compute; congruence|split; vm_compute; congruence])).
  exact (proj1 (@ieee_results_typed default_state IEEE32 IEEE32_good (fun rest => rest) _ _ _ AR_ROUND_MINUS_INFINITY Ha Ha Hb)).
Defined.

(** A NaN with bits that the shorter format has no room for, narrowed *)
Lemma conv_results_typed_witness :
  let nan := double 0x7FF0000000000001 in
  returns_number IEEE32 (@ar_i64to32 default_state nan AR_ROUND_NEAREST) /\
  @ar_i64to32 default_state nan AR_ROUND_NEAREST = Ok (AR_STAT_UNDEFINED, single 0x7F800001).
Proof.
  cbn zeta. split; [|vm_compute; reflexivity].
  assert (well_formed_ieee IEEE64 (double 0x7FF0000000000001)) as Hd
    by (split; [repeat constructor; vm_compute; congruence|split; vm_compute; congruence]).
  exact (proj1 (proj1 (proj2 (@conv_results_typed default_state (no_native (double 0)) (no_native (double 0)) (no_native zero_data)
    (no_native (double 0)) AR_ROUND_NEAREST 64 false eq_refl)) _ Hd)).
Defined.
