(* ===== verification/ArConvert.v ===== *)
(** Conversions to integer types, [ar_convert_to_integral] of [arith/cvt.c], for
    integer, pointer and IEEE operands.

    The operand is brought to 64 bits first ([convert_int], or [ar_ifixN] for a
    number), then the range of the result type is checked and the unused bits are
    cleared ([convert_range]).  A complex operand is converted like its real part. *)
From Stdlib Require Import ZArith Lia Bool.
From stdpp Require Import prelude list.
From S2P Require Import Prelude ArData ArInt ArInt64 IeeeData IeeeOps IeeeConvert.

Definition AR_Int_24_S : AR_TYPE := Z.lor (Z.lor AR_CLASS_INT AR_INT_SIZE_24) AR_SIGNED.
Definition AR_Int_24_U : AR_TYPE := Z.lor (Z.lor AR_CLASS_INT AR_INT_SIZE_24) AR_UNSIGNED.

(** [ROUND_MODE(t)] *)
Definition ROUND_MODE (t : AR_TYPE) : round_mode :=
  let r := Z.land (Z.shiftr t 3) 3 in
  if r =? 0 then AR_ROUND_NEAREST else if r =? 1 then AR_ROUND_PLUS_INFINITY
  else if r =? 2 then AR_ROUND_MINUS_INFINITY else AR_ROUND_ZERO.

Section Convert.
Context `{Host}.

(** [ar_i8.part4], and [ar_i64.part4] with the given [ar_i8.part4] and [ar_i8.part5] *)
Definition i8_part4 (d : ar_data) : Z := if big_endian then Z.shiftr (part4 d) 8 else Z.land (part4 d) 0xFF.
Definition i8_parts (p4 p5 : Z) : Z := if big_endian then Z.lor (Z.shiftl p4 8) p5 else Z.lor (Z.shiftl p5 8) p4.

Definition INT8_SIGN (d : ar_data) : Z := Z.land (part5 d) 0x80.
Definition INT16_SIGN (d : ar_data) : Z := Z.land (part4 d) 0x8000.
Definition INT24_SIGN (d : ar_data) : Z := Z.land (part3 d) 0x80.
Definition INT32_SIGN (d : ar_data) : Z := Z.land (part3 d) 0x8000.
Definition INT64_SIGN (d : ar_data) : Z := Z.land (part1 d) 0x8000.

Definition IS_INT8_UPPER_ZERO (d : ar_data) : bool :=
  (part1 d =? 0) && (part2 d =? 0) && (part3 d =? 0) && (i8_part4 d =? 0).
Definition IS_INT16_UPPER_ZERO (d : ar_data) : bool := (part1 d =? 0) && (part2 d =? 0) && (part3 d =? 0).
Definition IS_INT24_UPPER_ZERO (d : ar_data) : bool :=
  (part1 d =? 0) && (part2 d =? 0) && (Z.land (part3 d) 0xFF00 =? 0).
Definition IS_INT32_UPPER_ZERO (d : ar_data) : bool := (part1 d =? 0) && (part2 d =? 0).
Definition IS_INT64_ZERO (d : ar_data) : bool :=
  (part1 d =? 0) && (part2 d =? 0) && (part3 d =? 0) && (part4 d =? 0).

Definition set (z : Z) : bool := negb (z =? 0).

(** [if (opndsz == AR_INT_SIZE_46) opndsz = AR_INT_SIZE_64;] *)
Definition size46 (t : AR_TYPE) : Z :=
  if AR_INT_SIZE t =? AR_INT_SIZE_46 then AR_INT_SIZE_64 else AR_INT_SIZE t.

(** The operand with its sign extended, and [maxnegint] *)
Definition sign_extend (opnd : ar_data) (opndsz : Z) : ar_data * bool :=
  if (opndsz =? AR_INT_SIZE_8) && set (INT8_SIGN opnd) then
    (mkData 0xFFFF 0xFFFF 0xFFFF (i8_parts 0xFF (part5 opnd)), IS_INT8_UPPER_ZERO opnd && (part5 opnd =? 0x80))
  else if (opndsz =? AR_INT_SIZE_16) && set (INT16_SIGN opnd) then
    (mkData 0xFFFF 0xFFFF 0xFFFF (part4 opnd), IS_INT16_UPPER_ZERO opnd && (part4 opnd =? 0x8000))
  else if (opndsz =? AR_INT_SIZE_24) && set (INT24_SIGN opnd) then
    (mkData 0xFFFF 0xFFFF (Z.lor (part3 opnd) 0xFF00) (part4 opnd),
     IS_INT24_UPPER_ZERO opnd && (part3 opnd =? 0x80) && (part4 opnd =? 0))
  else if (opndsz =? AR_INT_SIZE_32) && set (INT32_SIGN opnd) then
    (mkData 0xFFFF 0xFFFF (part3 opnd) (part4 opnd),
     IS_INT32_UPPER_ZERO opnd && (part3 opnd =? 0x8000) && (part4 opnd =? 0))
  else (opnd, (part1 opnd =? 0x8000) && (part2 opnd =? 0) && (part3 opnd =? 0) && (part4 opnd =? 0)).

(** An unsigned operand and a signed result of the same size: whether the sign bit
    is set, and whether it is the only bit; [None] for a size that the routine
    does not know. *)
Definition unsigned_sign (opnd : ar_data) (opndtype : AR_TYPE) : option (bool * bool) :=
  let sz := AR_INT_SIZE opndtype in
  if sz =? AR_INT_SIZE_8 then Some (set (INT8_SIGN opnd), part5 opnd =? 0x80)
  else if sz =? AR_INT_SIZE_16 then Some (set (INT16_SIGN opnd), part4 opnd =? 0x8000)
  else if sz =? AR_INT_SIZE_24 then Some (set (INT24_SIGN opnd), (part3 opnd =? 0x80) && (part4 opnd =? 0))
  else if sz =? AR_INT_SIZE_32 then Some (set (INT32_SIGN opnd), (part3 opnd =? 0x8000) && (part4 opnd =? 0))
  else if (sz =? AR_INT_SIZE_46) || (sz =? AR_INT_SIZE_64) then
    Some (set (INT64_SIGN opnd), (part1 opnd =? 0x8000) && (part2 opnd =? 0) && (part3 opnd =? 0) && (part4 opnd =? 0))
  else None.

(** An integer operand: the 64-bit result and the status, [None] for an invalid type. *)
Definition convert_int (resulttype : AR_TYPE) (opnd : ar_data) (opndtype : AR_TYPE) : ar_data * option Z :=
  let status := AR_STAT_OK in
  let opndsz := size46 opndtype in
  let rsltsz := size46 resulttype in
  if is_signed opndtype then
    let '(result, maxnegint) := sign_extend opnd opndsz in
    if set (INT64_SIGN result) && negb (is_signed resulttype) then
      let status := if opndsz =? rsltsz then Z.lor status AR_STAT_SEMIVALID else status in
      let status := if negb (opndsz =? rsltsz) || negb maxnegint then Z.lor status AR_STAT_OVERFLOW else status in
      (result, Some status)
    else (result, Some status)
  else if is_signed resulttype && (rsltsz =? opndsz) then
    match unsigned_sign opnd opndtype with
    | None => (opnd, None)
    | Some (negative, least) =>
        let status := if negative then
                        let status := Z.lor status AR_STAT_SEMIVALID in
                        if negb least then Z.lor status AR_STAT_OVERFLOW else status
                      else status in
        let status := if set (Z.land status (Z.lor AR_STAT_SEMIVALID AR_STAT_OVERFLOW))
                      then Z.lor status AR_STAT_NEGATIVE else status in
        (opnd, Some status)
    end
  else
    (opnd, Some (if set (INT64_SIGN opnd) && is_signed resulttype then Z.lor status AR_STAT_OVERFLOW else status)).

(** [switch ( *resulttype)]: overflow and sign of a 64-bit integer for the type *)
Definition range_status (resulttype : AR_TYPE) (r : ar_data) (status : Z) : Z :=
  let overflow_if (b : bool) := if b then Z.lor status AR_STAT_OVERFLOW else status in
  let negative_if (b : bool) (status : Z) := if b then Z.lor status AR_STAT_NEGATIVE else status in
  if resulttype =? AR_Int_8_S then
    negative_if (set (INT8_SIGN r))
      (overflow_if (negb ((part1 r =? 0xFFFF) && (part2 r =? 0xFFFF) && (part3 r =? 0xFFFF) && (i8_part4 r =? 0xFF) &&
                          (INT8_SIGN r =? 0x80)) &&
                    negb (IS_INT8_UPPER_ZERO r && (INT8_SIGN r =? 0))))
  else if resulttype =? AR_Int_8_U then overflow_if (negb (IS_INT8_UPPER_ZERO r))
  else if resulttype =? AR_Int_16_S then
    negative_if (set (INT16_SIGN r))
      (overflow_if (negb ((part1 r =? 0xFFFF) && (part2 r =? 0xFFFF) && (part3 r =? 0xFFFF) && (INT16_SIGN r =? 0x8000)) &&
                    negb (IS_INT16_UPPER_ZERO r && (INT16_SIGN r =? 0))))
  else if resulttype =? AR_Int_16_U then overflow_if (negb (IS_INT16_UPPER_ZERO r))
  else if resulttype =? AR_Int_24_S then
    negative_if (set (INT24_SIGN r))
      (overflow_if (negb ((part1 r =? 0xFFFF) && (part2 r =? 0xFFFF) && (Z.land (part3 r) 0xFF00 =? 0xFF00) &&
                          (INT24_SIGN r =? 0x80)) &&
                    negb (IS_INT24_UPPER_ZERO r && (INT24_SIGN r =? 0))))
  else if resulttype =? AR_Int_24_U then overflow_if (negb (IS_INT24_UPPER_ZERO r))
  else if resulttype =? AR_Int_32_S then
    negative_if (set (INT32_SIGN r))
      (overflow_if (negb ((part1 r =? 0xFFFF) && (part2 r =? 0xFFFF) && (INT32_SIGN r =? 0x8000)) &&
                    negb (IS_INT32_UPPER_ZERO r && (INT32_SIGN r =? 0))))
  else if resulttype =? AR_Int_32_U then overflow_if (negb (IS_INT32_UPPER_ZERO r))
  else if resulttype =? AR_Int_46_S then
    negative_if (set (INT64_SIGN r)) (overflow_if (INT_OVERFLOWS_46_BITS r))
  else if resulttype =? AR_Int_64_S then negative_if (set (INT64_SIGN r)) status
  else status.

(** [ar_clear_unused_bits] of an integer type *)
Definition ar_clear_unused_bits (opnd : ar_data) (opndtype : AR_TYPE) : ar_data :=
  let sz := AR_INT_SIZE opndtype in
  if sz =? AR_INT_SIZE_8 then mkData 0 0 0 (i8_parts 0 (part5 opnd))
  else if sz =? AR_INT_SIZE_16 then mkData 0 0 0 (part4 opnd)
  else if sz =? AR_INT_SIZE_24 then mkData 0 0 (Z.land (part3 opnd) 0xFF) (part4 opnd)
  else if sz =? AR_INT_SIZE_32 then mkData 0 0 (part3 opnd) (part4 opnd)
  else opnd.

(** From [if (!(status & AR_STAT_SEMIVALID))] to the end of the function *)
Definition convert_range (resulttype : AR_TYPE) (result : ar_data) (status : Z) : ar_data * Z :=
  let status := if set (Z.land status AR_STAT_SEMIVALID) then status else range_status resulttype result status in
  let result := ar_clear_unused_bits result resulttype in
  (result, if IS_INT64_ZERO result then Z.lor status AR_STAT_ZERO else status).

(** The operands, with the member of the union that their type selects *)
Inductive operand : Type :=
| IntOpnd (d : ar_data) (t : AR_TYPE)
| PointerOpnd (d : ar_data)
| Ieee32Opnd (x : AR_IEEE) (t : AR_TYPE)
| Ieee64Opnd (x : AR_IEEE) (t : AR_TYPE)
| Ieee128Opnd (x : AR_IEEE) (t : AR_TYPE).

Definition ar_convert_to_integral `{FpState} (native : AR_IEEE -> Z * ar_data) (resulttype : AR_TYPE) (opnd : operand)
    : outcome (ar_data * Z) :=
  match opnd with
  | IntOpnd d t =>
      match convert_int resulttype d t with
      | (result, None) => Ok (result, AR_STAT_INVALID_TYPE)
      | (result, Some status) => Ok (convert_range resulttype result status)
      end
  | PointerOpnd d => Ok (convert_range resulttype d AR_STAT_OK)
  | Ieee32Opnd x t =>
      let* '(status, result) := ar_ifix32 x 64 (ROUND_MODE t) in Ok (convert_range resulttype result status)
  | Ieee64Opnd x t =>
      let* '(status, result) := ar_ifix64 x 64 (ROUND_MODE t) in Ok (convert_range resulttype result status)
  | Ieee128Opnd x t =>
      let* '(status, result) := ar_ifix128 native x 64 (ROUND_MODE t) in Ok (convert_range resulttype result status)
  end.
End Convert.
