(* ===== verification/ArConvertProps.v ===== *)
(** Conversions to integer types are exact: the value modulo the type's size, with
    the status that tells whether the value fits; and the composition with the
    conversions from IEEE numbers. *)
From Stdlib Require Import ZArith Lia Bool.
From stdpp Require Import prelude list.
From S2P Require Import Prelude ArData ArInt ArIntProps ArDivideProps ArInt64 IeeeData IeeeFields IeeeOps IeeeMul IeeeRound IeeeResult.
From S2P Require Import IeeeConvert IeeeFix ArConvert IeeeTheorems IeeeConvertTheorems.

(** The integer types by size and sign *)
Definition AR_Int (s : int_size) (sg : bool) : AR_TYPE :=
  match s with
  | Int8 => if sg then AR_Int_8_S else AR_Int_8_U
  | Int16 => if sg then AR_Int_16_S else AR_Int_16_U
  | Int32 => if sg then AR_Int_32_S else AR_Int_32_U
  | Int64 => if sg then AR_Int_64_S else AR_Int_64_U
  end.

Lemma AR_Int_signed s sg : is_signed (AR_Int s sg) = sg.
Proof. by destruct s, sg. Qed.

Section Props.
Context `{Host}.

(** Evaluate the comparisons of types and of sizes. *)
Ltac eval_eqb a b :=
  let v := eval vm_compute in (a =? b) in
  lazymatch v with true => change (a =? b) with true | false => change (a =? b) with false end.
Ltac eval_sizes :=
  repeat match goal with
  | |- context [size46 ?t =? ?b] => eval_eqb (size46 t) b
  | |- context [AR_INT_SIZE ?t =? ?b] => eval_eqb (AR_INT_SIZE t) b
  | |- context [AR_Int ?s ?g =? ?b] => eval_eqb (AR_Int s g) b
  end; cbn [andb orb negb].

(** The operand in 64 bits *)
Lemma canonical_val64 s d : host_ok s = true -> well_formed d -> canonical s d -> val64 d = uval s d.
Proof.
  intros Hok Hd Hc. destruct s; [| | |apply val64_uval]; unfold canonical in Hc; destruct d as [p1 p2 p3 p4];
    cbn [put_parts int_parts] in Hc; unfold uval, digits_value, val64; cbn [int_parts part_bits foldr part1 part2 part3 part4].
  - cbn in Hc. unfold with_part5 in Hc. cbn [host_ok] in Hok. rewrite Hok in Hc. injection Hc as <- <- <- Hp. lia.
  - cbn in Hc. injection Hc as <- <- <-. lia.
  - cbn in Hc. injection Hc as <- <-. lia.
Qed.

Lemma low_bits s d : host_ok s = true -> well_formed d -> uval s d = val64 d mod 2 ^ int_bits s.
Proof.
  intros Hok Hd. destruct s; [| | |rewrite <- val64_uval; symmetry; by apply Z.mod_small, val64_range];
    destruct Hd as (H1 & H2 & H3 & H4); unfold uval, digits_value, val64, in_u in *; cbn [int_parts part_bits foldr].
  - cbn [host_ok] in Hok. unfold part5. rewrite Hok. change 0xFF with (Z.ones 8). rewrite Z.land_ones by lia.
    change (int_bits Int8) with 8. Z.to_euclidean_division_equations; lia.
  - change (int_bits Int16) with 16. Z.to_euclidean_division_equations; lia.
  - change (int_bits Int32) with 32. Z.to_euclidean_division_equations; lia.
Qed.

Lemma land_bit_top w x k : 0 < w -> in_u w x -> k = Z.shiftl 1 (w - 1) -> Z.land x k = if 2 ^ (w - 1) <=? x then k else 0.
Proof.
  intros Hw Hx ->. pose proof (land_top_bit w x Hw Hx) as Hl. rewrite Z.shiftl_1_l in *.
  destruct (Z.leb_spec (2 ^ (w - 1)) x) as [Hge|Hlt].
  - unfold in_u in Hx. pose proof (pow2_half w Hw). apply Z.bits_inj'. intros i Hi. rewrite Z.land_spec, Z.pow2_bits_eqb by lia.
    destruct (Z.eqb_spec (w - 1) i) as [<-|Hne]; [|by rewrite andb_false_r]. rewrite andb_true_r, Z.testbit_eqb by lia.
    assert (x / 2 ^ (w - 1) = 1) as ->; [|done]. symmetry. apply (Z.div_unique_pos _ _ _ (x - 2 ^ (w - 1))); lia.
  - by apply negb_false_iff, Z.eqb_eq in Hl.
Qed.

(** The sign bits of the macros *)
Definition sign_word (s : int_size) (d : ar_data) : Z :=
  match s with Int8 => INT8_SIGN d | Int16 => INT16_SIGN d | Int32 => INT32_SIGN d | Int64 => INT64_SIGN d end.

Lemma sign_word_ok s d : well_formed d -> set (sign_word s d) = (2 ^ (int_bits s - 1) <=? uval s d).
Proof.
  intros Hd. rewrite <- int_sign_uval by done. by destruct s.
Qed.

(** The integer in its fields *)
Definition int_fields (s : int_size) (d : ar_data) : Z :=
  match s with
  | Int8 => part5 d
  | Int16 => part4 d
  | Int32 => part3 d * 2 ^ 16 + part4 d
  | Int64 => val64 d
  end.

Lemma uval_fields s d : uval s d = int_fields s d.
Proof. destruct s; [..|symmetry; apply val64_uval]; unfold uval, digits_value; cbn [int_parts part_bits foldr int_fields]; lia. Qed.

Lemma i8_parts_ok p4 p5 : host_ok Int8 = true -> in_u 8 p4 -> in_u 8 p5 -> i8_parts p4 p5 = p4 * 2 ^ 8 + p5.
Proof. cbn [host_ok]. intros Hok H4 H5. unfold i8_parts. rewrite Hok, Z.shiftl_mul_pow2 by lia. by apply lor_low. Qed.

Lemma i8_part4_ok d : host_ok Int8 = true -> in_u 16 (part4 d) ->
  in_u 8 (i8_part4 d) /\ in_u 8 (part5 d) /\ part4 d = i8_part4 d * 2 ^ 8 + part5 d.
Proof.
  cbn [host_ok]. intros Hok Hd. unfold i8_part4, part5, in_u in *. rewrite Hok. change 0xFF with (Z.ones 8).
  rewrite Z.land_ones, Z.shiftr_div_pow2 by lia. Z.to_euclidean_division_equations; lia.
Qed.

(** ** Sign extension *)
Ltac eqb_lia := apply eq_bool_prop_intro; rewrite ?negb_True, ?andb_True, ?orb_True, ?andb_True, ?Is_true_true, ?Z.eqb_eq; lia.

(** A negative operand with its sign extended, and whether it is the least integer *)
Definition extended (s : int_size) (d : ar_data) : ar_data :=
  match s with
  | Int8 => mkData 0xFFFF 0xFFFF 0xFFFF (i8_parts 0xFF (part5 d))
  | Int16 => mkData 0xFFFF 0xFFFF 0xFFFF (part4 d)
  | Int32 => mkData 0xFFFF 0xFFFF (part3 d) (part4 d)
  | Int64 => d
  end.

Ltac int_numbers s := let v := eval vm_compute in (int_bits s) in change (int_bits s) with v in *.

Lemma extended_ok s d :
  host_ok s = true -> well_formed d -> canonical s d ->
  well_formed (extended s d) /\ val64 (extended s d) = 2 ^ 64 - 2 ^ int_bits s + uval s d.
Proof.
  intros Hok Hd Hc. rewrite uval_fields. pose proof Hd as (H1 & H2 & H3 & H4).
  destruct s; cbn [extended int_fields]; [|int_numbers Int16|int_numbers Int32|int_numbers Int64; split; [done|lia]];
    [|unfold well_formed, val64, in_u in *; cbn [part1 part2 part3 part4] in *; lia..].
  int_numbers Int8. destruct (i8_part4_ok d Hok H4) as (_ & H5 & _). rewrite i8_parts_ok by done.
  unfold well_formed, val64, in_u in *. cbn [part1 part2 part3 part4] in *. lia.
Qed.

Lemma least64_ok d : well_formed d ->
  (part1 d =? 0x8000) && (part2 d =? 0) && (part3 d =? 0) && (part4 d =? 0) = (val64 d =? 2 ^ 63).
Proof. intros (H1 & H2 & H3 & H4). unfold val64, in_u in *. eqb_lia. Qed.

Lemma sign_extend_case s d :
  host_ok s = true -> well_formed d -> canonical s d ->
  sign_extend d (size46 (AR_Int s true)) =
  if 2 ^ (int_bits s - 1) <=? uval s d then (extended s d, uval s d =? 2 ^ (int_bits s - 1)) else (d, val64 d =? 2 ^ 63).
Proof.
  intros Hok Hd Hc. pose proof (sign_word_ok s d Hd) as Hs. pose proof (canonical_val64 s d Hok Hd Hc) as Hv.
  unfold sign_extend. rewrite (least64_ok d Hd). rewrite uval_fields in *. pose proof Hd as (H1 & H2 & H3 & H4).
  destruct s; cbn [sign_word int_fields extended] in *; eval_sizes; rewrite ?Hs; [| | |by case_match].
  - case_match; [f_equal|done]. pose proof (i8_part4_ok d Hok H4) as (H5 & H6 & He). int_numbers Int8.
    unfold IS_INT8_UPPER_ZERO, val64, in_u in *. eqb_lia.
  - case_match; [f_equal|done]. int_numbers Int16. unfold IS_INT16_UPPER_ZERO, val64, in_u in *. eqb_lia.
  - case_match; [f_equal|done]. int_numbers Int32. unfold IS_INT32_UPPER_ZERO, val64, in_u in *. eqb_lia.
Qed.

Lemma int_bits_64 s : 8 <= int_bits s <= 64 /\ 0 < 2 ^ (int_bits s - 1) <= 2 ^ 63 /\ 2 ^ int_bits s = 2 * 2 ^ (int_bits s - 1).
Proof. by destruct s. Qed.

Lemma sign_extend_ok s d :
  host_ok s = true -> well_formed d -> canonical s d ->
  let r := sign_extend d (size46 (AR_Int s true)) in
  well_formed (fst r) /\ val64 (fst r) = uwrap 64 (sval s d) /\ (sval s d < 0 -> snd r = (sval s d =? - 2 ^ (int_bits s - 1))).
Proof.
  intros Hok Hd Hc. pose proof (canonical_val64 s d Hok Hd Hc) as Hv. pose proof (uval_range s d Hd) as Hu.
  destruct (int_bits_64 s) as (Hb & Hp & Hpp). unfold sval. rewrite swrap_uval by (lia || done). cbn zeta.
  rewrite (sign_extend_case s d Hok Hd Hc). unfold in_u in Hu. destruct (Z.leb_spec (2 ^ (int_bits s - 1)) (uval s d)); cbn [fst snd].
  - destruct (extended_ok s d Hok Hd Hc) as [Hw ->]. split; [done|]. split.
    + apply (Z.mod_unique _ _ (-1)); lia.
    + intros _. eqb_lia.
  - split; [done|]. split; [|lia]. rewrite Hv. symmetry. apply uwrap_id. unfold in_u. lia.
Qed.

(** ** The range of the result type *)
Lemma upper_zero_ok d : well_formed d ->
  (host_ok Int8 = true -> IS_INT8_UPPER_ZERO d = (val64 d <? 2 ^ 8)) /\
  IS_INT16_UPPER_ZERO d = (val64 d <? 2 ^ 16) /\ IS_INT32_UPPER_ZERO d = (val64 d <? 2 ^ 32) /\
  IS_INT64_ZERO d = (val64 d =? 0).
Proof.
  intros (H1 & H2 & H3 & H4). split_and!.
  - intros Hok. pose proof (i8_part4_ok d Hok H4) as (H5 & H6 & He). unfold IS_INT8_UPPER_ZERO, val64, in_u in *.
    apply eq_bool_prop_intro. rewrite !andb_True, !Is_true_true, !Z.eqb_eq, Z.ltb_lt. lia.
  - unfold IS_INT16_UPPER_ZERO, val64, in_u in *. apply eq_bool_prop_intro. rewrite !andb_True, !Is_true_true, !Z.eqb_eq, Z.ltb_lt. lia.
  - unfold IS_INT32_UPPER_ZERO, val64, in_u in *. apply eq_bool_prop_intro. rewrite !andb_True, !Is_true_true, !Z.eqb_eq, Z.ltb_lt. lia.
  - unfold IS_INT64_ZERO, val64, in_u in *. eqb_lia.
Qed.

(** A 64-bit integer fits the type of the given size and sign. *)
Definition fits64 (s : int_size) (sg : bool) (u : Z) : bool :=
  if sg then (u <? 2 ^ (int_bits s - 1)) || (2 ^ 64 - 2 ^ (int_bits s - 1) <=? u) else u <? 2 ^ int_bits s.

(** The tests of a sign bit [k] *)
Lemma sign_tests s d : well_formed d ->
  let k := match s with Int8 => 0x80 | _ => 0x8000 end in
  (sign_word s d =? k) = (2 ^ (int_bits s - 1) <=? int_fields s d) /\
  (sign_word s d =? 0) = (int_fields s d <? 2 ^ (int_bits s - 1)).
Proof.
  intros Hd. pose proof (sign_word_ok s d Hd) as Hs. rewrite uval_fields in Hs. pose proof Hd as (H1 & H2 & H3 & H4).
  assert (sign_word s d = 0 \/ sign_word s d = match s with Int8 => 0x80 | _ => 0x8000 end) as Hcase.
  { destruct s; cbn [sign_word]; unfold INT8_SIGN, INT16_SIGN, INT32_SIGN, INT64_SIGN;
      [rewrite (land_bit_top 8) by (done || by apply part5_range)|rewrite (land_bit_top 16) by done..]; case_match; auto. }
  cbn zeta. rewrite Z.ltb_antisym, <- Hs. unfold set. rewrite negb_involutive. split; [|done].
  destruct Hcase as [->| ->]; destruct s; done.
Qed.

Ltac unless_fits d :=
  lazymatch goal with |- context [if negb ?a && negb ?b then _ else _] =>
    lazymatch goal with |- context [(val64 d <? ?m) || ?c] =>
      replace (negb a && negb b) with (negb ((val64 d <? m) || c)); [by destruct ((val64 d <? m) || c)|] end end;
  rewrite <- negb_orb; f_equal; apply eq_bool_prop_intro;
  rewrite !orb_True, !andb_True, !Is_true_true, ?Z.eqb_eq, !Z.leb_le, !Z.ltb_lt; unfold val64, in_u in *; 
  Z.to_euclidean_division_equations; lia.

Lemma range_status_ok s sg d st :
  host_ok s = true -> well_formed d ->
  range_status (AR_Int s sg) d st =
  let st := if fits64 s sg (val64 d) then st else Z.lor st AR_STAT_OVERFLOW in
  if sg && (2 ^ (int_bits s - 1) <=? uval s d) then Z.lor st AR_STAT_NEGATIVE else st.
Proof.
  intros Hok Hd. destruct (upper_zero_ok d Hd) as (Z8 & Z16 & Z32 & _). pose proof (sign_word_ok s d Hd) as Hs.
  destruct (sign_tests s d Hd) as [Ht Hf]. pose proof (low_bits s d Hok Hd) as Hlow. pose proof (val64_range d Hd) as Hr.
  rewrite uval_fields in *. pose proof Hd as (H1 & H2 & H3 & H4). unfold range_status, fits64.
  destruct s; cbn [sign_word int_fields] in *; destruct sg; eval_sizes; rewrite ?Hs; cbn zeta.
  - rewrite Ht, Hf, (Z8 Hok). pose proof (i8_part4_ok d Hok H4) as (H5 & H6 & He). int_numbers Int8. unless_fits d.
  - rewrite (Z8 Hok). int_numbers Int8. destruct (val64 d <? 2 ^ 8); reflexivity.
  - rewrite Ht, Hf, Z16. int_numbers Int16. unless_fits d.
  - rewrite Z16. int_numbers Int16. destruct (val64 d <? 2 ^ 16); reflexivity.
  - rewrite Ht, Hf, Z32. int_numbers Int32. unless_fits d.
  - rewrite Z32. int_numbers Int32. destruct (val64 d <? 2 ^ 32); reflexivity.
  - int_numbers Int64. replace ((val64 d <? 2 ^ (64 - 1)) || (2 ^ 64 - 2 ^ (64 - 1) <=? val64 d)) with true; [done|].
    symmetry. apply Is_true_true. rewrite orb_True, !Is_true_true, Z.ltb_lt, Z.leb_le. lia.
  - int_numbers Int64. by rewrite (proj2 (Z.ltb_lt _ _)) by lia.
Qed.

Lemma clear_unused_ok s sg d :
  host_ok s = true -> well_formed d ->
  let r := ar_clear_unused_bits d (AR_Int s sg) in
  well_formed r /\ canonical s r /\ uval s r = uval s d /\ val64 r = uval s d.
Proof.
  intros Hok Hd. cbn zeta. pose proof (int_parts_range s d Hd) as Hr.
  assert (ar_clear_unused_bits d (AR_Int s sg) = put_parts s (int_parts s d)) as ->.
  { pose proof Hd as (H1 & H2 & H3 & H4). unfold ar_clear_unused_bits. destruct s, sg; eval_sizes; cbn [put_parts int_parts]; try (by destruct d);
      (rewrite i8_parts_ok by (done || by apply part5_range); cbn [host_ok] in Hok; unfold with_part5; by rewrite Hok). }
  destruct (put_parts_ok s _ Hr (int_parts_length s d)) as (Hp & Hw & Hc). split; [done|]. split; [done|].
  assert (uval s (put_parts s (int_parts s d)) = uval s d) as Hu by (unfold uval; by rewrite Hp).
  split; [done|]. by rewrite (canonical_val64 s) by done.
Qed.

(** * Conversion *)

(** The status of converting the value [v] of a type to another type: whether it
    fits, and the sign of the result. A value of the same size that does not fit
    is semi-valid, and no overflow if it is plus or minus the least integer. *)
Definition unfit_status (s s' : int_size) (sg' : bool) (v : Z) : Z :=
  if fits s' (AR_Int s' sg') v then AR_STAT_OK
  else if bool_decide (s = s') then
    (if Z.abs v =? 2 ^ (int_bits s - 1) then AR_STAT_SEMIVALID else Z.lor AR_STAT_SEMIVALID AR_STAT_OVERFLOW)
  else AR_STAT_OVERFLOW.
Definition integral_status (s s' : int_size) (sg' : bool) (v : Z) : Z :=
  Z.lor (unfit_status s s' sg' v) (value_status (wrap s' (AR_Int s' sg') v)).

Lemma wrap_int s sg v : wrap s (AR_Int s sg) v = if sg then swrap (int_bits s) v else uwrap (int_bits s) v.
Proof. unfold wrap. by rewrite AR_Int_signed. Qed.

Lemma fits_int s sg v :
  fits s (AR_Int s sg) v = if sg then (- 2 ^ (int_bits s - 1) <=? v) && (v <? 2 ^ (int_bits s - 1)) else (0 <=? v) && (v <? 2 ^ int_bits s).
Proof.
  apply eq_bool_prop_intro. rewrite Is_true_true, fits_range. unfold in_range, in_s, in_u. rewrite AR_Int_signed.
  destruct sg; rewrite andb_True, !Is_true_true, Z.leb_le, Z.ltb_lt; done.
Qed.

Lemma ival_int s (sg : bool) d : well_formed d ->
  (if sg then - 2 ^ (int_bits s - 1) <= ival s (AR_Int s sg) d < 2 ^ (int_bits s - 1) else 0 <= ival s (AR_Int s sg) d < 2 ^ int_bits s) /\
  uval s d = uwrap (int_bits s) (ival s (AR_Int s sg) d).
Proof.
  intros Hd. pose proof (uval_range s d Hd) as Hu. destruct (int_bits_64 s) as (Hb & _ & Hpp). unfold ival. rewrite AR_Int_signed.
  unfold in_u in Hu. destruct sg; [|split; [done|symmetry; by apply uwrap_id]]. unfold sval. rewrite swrap_uval by (lia || done).
  split; [case_match; lia|]. case_match; [|symmetry; by apply uwrap_id]. apply (Z.mod_unique _ _ (-1)); lia.
Qed.

(** The second half of the routine *)
Lemma convert_range_ok s sg W st v :
  host_ok s = true -> well_formed W -> val64 W = uwrap 64 v ->
  let r := convert_range (AR_Int s sg) W st in
  exact s (AR_Int s sg) v (fst r) /\ uval s (fst r) = uwrap (int_bits s) v /\
  snd r = (let st := if set (Z.land st AR_STAT_SEMIVALID) then st
                     else let st := if fits64 s sg (uwrap 64 v) then st else Z.lor st AR_STAT_OVERFLOW in
                          if sg && (2 ^ (int_bits s - 1) <=? uwrap (int_bits s) v) then Z.lor st AR_STAT_NEGATIVE else st in
           if uwrap (int_bits s) v =? 0 then Z.lor st AR_STAT_ZERO else st).
Proof.
  intros Hok HW Hv. destruct (clear_unused_ok s sg W Hok HW) as (Hw & Hc & Hu & H64).
  assert (uval s W = uwrap (int_bits s) v) as Hval.
  { rewrite (low_bits s W Hok HW), Hv. unfold uwrap. destruct (int_bits_64 s) as (Hb & _). 
    replace 64 with (int_bits s + (64 - int_bits s)) by lia. rewrite Z.pow_add_r by lia.
    rewrite Z.rem_mul_r by (first [apply Z.pow_nonzero | apply Z.pow_pos_nonneg]; lia).
    rewrite Z.mul_comm, Z.mod_add, Z.mod_mod by (apply Z.pow_nonzero; lia). done. }
  unfold convert_range. cbn [fst snd]. rewrite range_status_ok by done. rewrite Hv, Hval.
  destruct (upper_zero_ok _ Hw) as (_ & _ & _ & ->). rewrite H64, Hval. split; [|split; [by rewrite Hu|done]].
  split; [done|done|]. apply (ival_wrap s _ _ v (- (v / 2 ^ int_bits s)) Hw). rewrite Hu, Hval. unfold uwrap.
  destruct (int_bits_64 s) as (Hb & Hp & Hpp). pose proof (Z.div_mod v (2 ^ int_bits s)). lia.
Qed.

(** The first half: the status before the range check *)
Definition early_status (s : int_size) (sg : bool) (s' : int_size) (sg' : bool) (v : Z) : Z :=
  if bool_decide (s = s') && negb (fits s' (AR_Int s' sg') v) then
    Z.lor (unfit_status s s' sg' v) (if sg' then AR_STAT_NEGATIVE else AR_STAT_OK)
  else if sg && negb sg' && (v <? 0) || negb sg && sg' && (2 ^ 63 <=? v) then AR_STAT_OVERFLOW else AR_STAT_OK.

Lemma size46_eqb s sg s' sg' : (size46 (AR_Int s sg) =? size46 (AR_Int s' sg')) = bool_decide (s = s').
Proof. by destruct s, sg, s', sg'. Qed.

Lemma least_ok s d : host_ok s = true -> well_formed d -> canonical s d ->
  unsigned_sign d (AR_Int s false) = Some (2 ^ (int_bits s - 1) <=? uval s d, uval s d =? 2 ^ (int_bits s - 1)).
Proof.
  intros Hok Hd Hc. pose proof (sign_word_ok s d Hd) as Hs. rewrite uval_fields in *. pose proof Hd as (H1 & H2 & H3 & H4).
  unfold unsigned_sign. destruct s; cbn [sign_word int_fields] in *; eval_sizes; rewrite Hs; do 2 f_equal.
  - int_numbers Int32. unfold in_u in *. eqb_lia.
  - by rewrite (least64_ok d Hd).
Qed.

Lemma sign64 W : well_formed W -> set (INT64_SIGN W) = (2 ^ 63 <=? val64 W).
Proof. apply part1_top. Qed.

Lemma convert_int_ok s sg s' sg' d :
  host_ok s = true -> well_formed d -> canonical s d ->
  let v := ival s (AR_Int s sg) d in
  exists W, convert_int (AR_Int s' sg') d (AR_Int s sg) = (W, Some (early_status s sg s' sg' v)) /\
    well_formed W /\ val64 W = uwrap 64 v.
Proof.
  intros Hok Hd Hc. cbn zeta. destruct (int_bits_64 s) as (Hb & Hp & Hpp). destruct (ival_int s sg d Hd) as [Hv Hu].
  assert (2 ^ int_bits s <= 2 ^ 64) as H64 by (apply Z.pow_le_mono_r; lia).
  unfold convert_int. rewrite !size46_eqb, !AR_Int_signed. unfold early_status, unfit_status. rewrite !fits_int.
  set (v := ival s (AR_Int s sg) d) in *. destruct sg.
  - destruct (sign_extend_ok s d Hok Hd Hc) as (Hw & Hval & Hm). cbn zeta in *.
    destruct (sign_extend d (size46 (AR_Int s true))) as [W m]. cbn [fst snd] in *. exists W.
    assert (sval s d = v) as Hsv by (unfold v, ival; by rewrite AR_Int_signed). rewrite Hsv in *.
    split; [|by split]. rewrite sign64, Hval by done. assert ((2 ^ 63 <=? uwrap 64 v) = (v <? 0)) as ->.
    { apply eq_bool_prop_intro. rewrite !Is_true_true, Z.leb_le, Z.ltb_lt. unfold uwrap. Z.to_euclidean_division_equations; lia. }
    destruct (bool_decide_reflect (s = s')) as [<-|Hne].
    + destruct (Z.ltb_spec v 0) as [Hneg|Hpos], sg'; cbn [andb orb negb].
      * by rewrite (proj2 (Z.leb_le _ _)), (proj2 (Z.ltb_lt _ _)) by lia.
      * rewrite (proj2 (Z.leb_gt 0 v)) by done. cbn [andb negb]. rewrite (Hm Hneg), Z.abs_neq by lia.
        destruct (Z.eqb_spec v (- 2 ^ (int_bits s - 1))), (Z.eqb_spec (- v) (2 ^ (int_bits s - 1))); try lia; done.
      * by rewrite (proj2 (Z.leb_le _ _)), (proj2 (Z.ltb_lt _ _)) by lia.
      * by rewrite (proj2 (Z.leb_le _ _)), (proj2 (Z.ltb_lt _ _)) by lia.
    + cbn [andb negb]. destruct (v <? 0), sg'; done.
  - assert (val64 d = uwrap 64 v) as Hval.
    { rewrite (canonical_val64 s d Hok Hd Hc), Hu, (uwrap_id (int_bits s)), uwrap_id; unfold in_u; lia. }
    assert (uwrap 64 v = v) as Hid by (apply uwrap_id; unfold in_u; lia). exists d.
    split; [|by split]. rewrite sign64, Hval, Hid by done. cbn [andb negb orb].
    assert (bool_decide (s' = s) = bool_decide (s = s')) as -> by (apply bool_decide_ext; done).
    destruct (bool_decide_reflect (s = s')) as [<-|Hne], sg'; cbn [andb negb].
    + rewrite (least_ok s d Hok Hd Hc). rewrite (uwrap_id (int_bits s)) in Hu by done. rewrite Hu, Z.abs_eq by lia.
      destruct (Z.leb_spec (2 ^ (int_bits s - 1)) v), (Z.ltb_spec v (2 ^ (int_bits s - 1))); try lia;
        rewrite (proj2 (Z.leb_le (- _) v)) by lia; cbn [andb negb].
      * by destruct (v =? 2 ^ (int_bits s - 1)).
      * by rewrite (proj2 (Z.leb_gt (2 ^ 63) v)) by lia.
    + rewrite andb_false_r. by rewrite (proj2 (Z.leb_le 0 v)), (proj2 (Z.ltb_lt v _)) by lia.
    + by rewrite andb_true_r.
    + by rewrite andb_false_r.
Qed.

(** The status of the result, from the fields of the result *)
Lemma value_status_wrap s sg v :
  value_status (wrap s (AR_Int s sg) v) =
  if uwrap (int_bits s) v =? 0 then AR_STAT_ZERO
  else if sg && (2 ^ (int_bits s - 1) <=? uwrap (int_bits s) v) then AR_STAT_NEGATIVE else AR_STAT_OK.
Proof.
  destruct (int_bits_64 s) as (Hb & Hp & Hpp). pose proof (uwrap_range (int_bits s) v ltac:(lia)) as Hu.
  rewrite wrap_int. unfold value_status. destruct sg; cbn [andb].
  - rewrite <- (swrap_cong (int_bits s) v (uwrap (int_bits s) v) (- (v / 2 ^ int_bits s)));
      [|lia|unfold uwrap; pose proof (Z.div_mod v (2 ^ int_bits s)); lia].
    rewrite swrap_uval by (lia || done). unfold in_u in Hu. set (u := uwrap (int_bits s) v) in *. clearbody u.
    destruct (Z.leb_spec (2 ^ (int_bits s - 1)) u), (Z.eqb_spec u 0); try lia.
    + rewrite (proj2 (Z.eqb_neq _ 0)), (proj2 (Z.ltb_lt _ 0)) by lia. done.
    + by rewrite (proj2 (Z.ltb_ge _ 0)) by lia.
  - unfold in_u in Hu. by rewrite (proj2 (Z.ltb_ge _ 0)) by lia.
Qed.

Lemma fits64_ok s sg v : - 2 ^ 63 <= v < 2 ^ 64 -> (0 <= v < 2 ^ 63 \/ (v < 0 /\ sg = true) \/ (0 <= v /\ sg = false) \/ fits s (AR_Int s sg) v = true) ->
  fits64 s sg (uwrap 64 v) = fits s (AR_Int s sg) v.
Proof.
  intros Hv Hc. rewrite fits_int in *. destruct (int_bits_64 s) as (Hb & Hp & Hpp). unfold fits64.
  assert (0 <= v -> uwrap 64 v = v) as Hpos by (intros; apply uwrap_id; unfold in_u; lia).
  assert (v < 0 -> uwrap 64 v = v + 2 ^ 64) as Hneg by (intros; symmetry; apply (Z.mod_unique _ _ (-1)); lia).
  assert (2 ^ int_bits s <= 2 ^ 64) by (apply Z.pow_le_mono_r; lia).
  apply eq_bool_prop_intro. destruct (Z.lt_ge_cases v 0) as [Hn|Hn]; [rewrite Hneg by done|rewrite Hpos by done];
    destruct sg; rewrite ?orb_True, ?andb_True, ?Is_true_true, ?Z.leb_le, ?Z.ltb_lt in *;
    try (destruct Hc as [?|[[? ?]|[[? ?]|[? ?]%andb_true_iff]]]; rewrite ?Z.leb_le, ?Z.ltb_lt in *; lia || done).
Qed.

Lemma status_agrees s (sg : bool) s' (sg' : bool) v :
  (if sg then - 2 ^ (int_bits s - 1) <= v < 2 ^ (int_bits s - 1) else 0 <= v < 2 ^ int_bits s) ->
  (let st := early_status s sg s' sg' v in
   let st := if set (Z.land st AR_STAT_SEMIVALID) then st
             else let st := if fits64 s' sg' (uwrap 64 v) then st else Z.lor st AR_STAT_OVERFLOW in
                  if sg' && (2 ^ (int_bits s' - 1) <=? uwrap (int_bits s') v) then Z.lor st AR_STAT_NEGATIVE else st in
   if uwrap (int_bits s') v =? 0 then Z.lor st AR_STAT_ZERO else st) =
  integral_status s s' sg' v.
Proof.
  intros Hv. unfold integral_status. rewrite value_status_wrap. cbn zeta. unfold early_status.
  destruct (int_bits_64 s) as (Hb & Hp & Hpp), (int_bits_64 s') as (Hb' & Hp' & Hpp').
  assert (2 ^ int_bits s <= 2 ^ 64) by (apply Z.pow_le_mono_r; lia).
  assert (- 2 ^ 63 <= v < 2 ^ 64) as Hv64 by (destruct sg; lia).
  destruct (bool_decide_reflect (s = s')) as [<-|Hne]; cbn [andb].
  - destruct (fits s (AR_Int s sg') v) eqn:Hf; cbn [negb].
    + assert (sg && negb sg' && (v <? 0) || negb sg && sg' && (2 ^ 63 <=? v) = false) as ->.
      { rewrite fits_int in Hf. destruct sg, sg'; cbn [andb negb orb]; try done; apply andb_true_iff in Hf as [H1 H2];
          rewrite ?Z.leb_le, ?Z.ltb_lt in *; [rewrite orb_false_r; apply Z.ltb_ge; lia|apply Z.leb_gt; lia]. }
      rewrite (fits64_ok s sg' v), Hf by auto. unfold unfit_status. rewrite Hf.
      destruct (Z.eqb_spec (uwrap (int_bits s) v) 0) as [->|]; [|destruct (sg' && _); reflexivity].
      rewrite (proj2 (Z.leb_gt _ 0)), andb_false_r by lia. done.
    + unfold unfit_status. rewrite Hf, bool_decide_true by done. rewrite fits_int in Hf.
      assert (uwrap (int_bits s) v <> 0 /\ sg' && (2 ^ (int_bits s - 1) <=? uwrap (int_bits s) v) = sg') as [Hu ->].
      { destruct sg, sg'; apply andb_false_iff in Hf; rewrite ?Z.leb_gt, ?Z.ltb_ge in Hf; cbn [andb]; try lia.
        - assert (uwrap (int_bits s) v = v + 2 ^ int_bits s) as -> by (symmetry; apply (Z.mod_unique _ _ (-1)); lia). split; [lia|done].
        - rewrite uwrap_id by (unfold in_u; lia). split; [lia|apply Z.leb_le; lia]. }
      rewrite (proj2 (Z.eqb_neq _ 0) Hu). by destruct sg', (_ =? 2 ^ _).
  - unfold unfit_status. rewrite bool_decide_false by done.
    destruct (sg && negb sg' && (v <? 0) || negb sg && sg' && (2 ^ 63 <=? v)) eqn:He.
    + assert (fits s' (AR_Int s' sg') v = false) as ->.
      { rewrite fits_int. destruct sg, sg'; cbn [andb negb orb] in He; rewrite ?orb_false_r, ?orb_false_l in He; try done;
          apply andb_false_iff; rewrite ?Z.leb_gt, ?Z.ltb_ge; rewrite ?Z.ltb_lt, ?Z.leb_le in He; lia. }
      change (set (Z.land AR_STAT_OVERFLOW AR_STAT_SEMIVALID)) with false. cbn iota.
      assert ((if fits64 s' sg' (uwrap 64 v) then AR_STAT_OVERFLOW else Z.lor AR_STAT_OVERFLOW AR_STAT_OVERFLOW) = AR_STAT_OVERFLOW) as -> by (destruct (fits64 _ _ _); reflexivity).
      destruct (Z.eqb_spec (uwrap (int_bits s') v) 0) as [->|]; [|destruct (sg' && _); reflexivity].
      rewrite (proj2 (Z.leb_gt _ 0)), andb_false_r by lia. done.
    + change (set (Z.land AR_STAT_OK AR_STAT_SEMIVALID)) with false. cbn iota.
      rewrite (fits64_ok s' sg' v); [|done|].
      * destruct (Z.eqb_spec (uwrap (int_bits s') v) 0) as [->|]; [|destruct (fits _ _ _), (sg' && _); reflexivity].
        rewrite (proj2 (Z.leb_gt _ 0)), andb_false_r by lia. destruct (fits _ _ _); reflexivity.
      * apply orb_false_iff in He as [He1 He2]. destruct (Z.lt_ge_cases v 0) as [Hn|Hn].
        { right; left. split; [done|]. destruct sg; [|lia]. destruct sg'; [done|]. cbn in He1. apply Z.ltb_ge in He1. lia. }
        { destruct (Z.lt_ge_cases v (2 ^ 63)); [by left|]. destruct sg, sg'; cbn in He1, He2; try (destruct (int_bits_64 s); lia).
          all: first [apply Z.leb_gt in He2; lia|by right; right; left]. }
Qed.

(** A rounded number in the range of the result type *)
Lemma range_of_fixed (F : Format) `{!GoodFormat F} s sg mode x st W :
  host_ok s = true -> finite F x -> fixed F 64 mode x st W ->
  let v := with_sign (sign x) (fix_magnitude F mode x) in
  exists r st', Ok (convert_range (AR_Int s sg) W st) = Ok (r, st') /\ exact s (AR_Int s sg) v r /\
    (fix_magnitude F mode x < 2 ^ 63 ->
     (fits s (AR_Int s sg) v = true -> Z.testbit st' 0 = false) /\
     (sg = true -> Z.testbit st' 0 = negb (fits s (AR_Int s sg) v))).
Proof.
  intros Hs Hx (Hw & Hv & Hst). cbn zeta. set (v := with_sign _ _) in *.
  destruct (convert_range_ok s sg W st v Hs Hw Hv) as (He & _ & Hs2). cbn zeta in Hs2.
  destruct (convert_range (AR_Int s sg) W st) as [r st']. cbn [fst snd] in *. exists r, st'. split; [done|]. split; [done|].
  intros Hm. pose proof (fix_magnitude_nonneg F mode x Hx) as Hm0. assert (- 2 ^ 63 < v < 2 ^ 63) as Hvr by (unfold v, with_sign; destruct (sign x); lia).
  destruct (fix_status_small F mode x Hx Hm) as [Hst0 Hst1]. rewrite <- Hst in Hst0, Hst1.
  unfold set in Hs2. rewrite Hst1 in Hs2. cbn [Z.eqb negb] in Hs2.
  assert (Z.testbit st' 0 = negb (fits64 s sg (uwrap 64 v))) as Hb.
  { rewrite Hs2. destruct (fits64 s sg (uwrap 64 v)), (sg && _), (_ =? 0); rewrite ?Z.lor_spec, Hst0; done. }
  split.
  - intros Hf. rewrite Hb, (fits64_ok s sg v), Hf by (lia || auto). done.
  - intros ->. rewrite Hb, (fits64_ok s true v); [done|lia|]. destruct (Z.lt_ge_cases v 0); [auto|left; lia].
Qed.

(** C28. Conversion between integer types is exact, on hosts that suit both of their sizes:
    an 8-bit operand or result needs a big-endian host ([host_ok]; on little-endian ones the value is
    read from, or put into, the wrong byte).  The result has the value of the
    operand reduced to the size of the result type, its unused bits are clear, and
    the status tells zero, sign and overflow; a value of the same size that the
    other signedness cannot hold is semi-valid, and plus or minus the least
    integer is not counted as an overflow.  The operand's unused bits are clear. *)
Theorem conv_integral_exact `{FpState} (native : AR_IEEE -> Z * ar_data) (s s' : int_size) (sg sg' : bool) (d : ar_data)
  (Hs : host_ok s = true) (Hs' : host_ok s' = true) (Hd : well_formed d) (Hc : canonical s d) :
  let v := ival s (AR_Int s sg) d in
  exists r, ar_convert_to_integral native (AR_Int s' sg') (IntOpnd d (AR_Int s sg)) = Ok (r, integral_status s s' sg' v) /\
    exact s' (AR_Int s' sg') v r.
Proof.
  cbn zeta. destruct (convert_int_ok s sg s' sg' d Hs Hd Hc) as (W & He & Hw & Hv). cbn zeta in *.
  set (v := ival s (AR_Int s sg) d) in *. unfold ar_convert_to_integral. rewrite He.
  destruct (convert_range_ok s' sg' W (early_status s sg s' sg' v) v Hs' Hw Hv) as (Hx & _ & Hst).
  exists (fst (convert_range (AR_Int s' sg') W (early_status s sg s' sg' v))). split; [|done].
  pose proof (status_agrees s sg s' sg' v (proj1 (ival_int s sg d Hd))) as Ha. cbn zeta in Ha, Hst.
  rewrite Ha in Hst. rewrite <- Hst. by rewrite <- surjective_pairing.
Qed.

(** C36. Conversion of a finite IEEE number of 32 or 64 bits to an integer type: the value, with its
    magnitude rounded to an integer in the mode of the operand's type, is reduced to the size
    of the result type.  If the rounded magnitude is below [2 ^ 63] then, for signed types, the
    status tells overflow exactly when the value does not fit, and for unsigned types no
    overflow is reported for a value that fits; nothing is said about the status of larger magnitudes,
    nor of values that do not fit an unsigned type: the code reports no overflow for -1 in
    64 bits.  8-bit results need a big-endian host ([host_ok]). *)
Theorem conv_float_to_integral `{FpState} (native : AR_IEEE -> Z * ar_data) (s : int_size) (sg : bool) (t : AR_TYPE) (x : AR_IEEE)
  (Hs : host_ok s = true) :
  let v F := with_sign (sign x) (fix_magnitude F (ROUND_MODE t) x) in
  let correct F c := exists r st, c = Ok (r, st) /\ exact s (AR_Int s sg) (v F) r /\
    (fix_magnitude F (ROUND_MODE t) x < 2 ^ 63 ->
     (fits s (AR_Int s sg) (v F) = true -> Z.testbit st 0 = false) /\
     (sg = true -> Z.testbit st 0 = negb (fits s (AR_Int s sg) (v F)))) in
  (finite IEEE32 x -> correct IEEE32 (ar_convert_to_integral native (AR_Int s sg) (Ieee32Opnd x t))) /\
  (finite IEEE64 x -> correct IEEE64 (ar_convert_to_integral native (AR_Int s sg) (Ieee64Opnd x t))).
Proof.
  cbn zeta. split; intros Hx; cbn [ar_convert_to_integral].
  - destruct (ar_ifix32_ok x 64 (ROUND_MODE t) Hx ltac:(lia)) as (st & r & -> & Hf). rewrite obind_ok.
    by apply (range_of_fixed IEEE32).
  - destruct (ar_ifix64_ok x 64 (ROUND_MODE t) Hx ltac:(lia)) as (st & r & -> & Hf). rewrite obind_ok.
    by apply (range_of_fixed IEEE64).
Qed.
End Props.

(** * Witnesses *)

(** The 16-bit integer -5 does not fit an unsigned 32-bit type. *)
Lemma conv_integral_exact_witness :
  let d := mkData 0 0 0 0xFFFB in
  (exists r, @ar_convert_to_integral little_endian_host default_state (no_native zero_data) (AR_Int Int32 false)
       (IntOpnd d (AR_Int Int16 true)) =
     Ok (r, integral_status Int16 Int32 false (@ival little_endian_host Int16 (AR_Int Int16 true) d)) /\
     @exact little_endian_host Int32 (AR_Int Int32 false) (@ival little_endian_host Int16 (AR_Int Int16 true) d) r) /\
  @ar_convert_to_integral little_endian_host default_state (no_native zero_data) (AR_Int Int32 false) (IntOpnd d (AR_Int Int16 true)) =
    Ok (mkData 0 0 0xFFFF 0xFFFB, AR_STAT_OVERFLOW).
Proof.
  cbn zeta. split; [|vm_compute; reflexivity].
  apply (@conv_integral_exact little_endian_host default_state (no_native zero_data) Int16 Int32 true false (mkData 0 0 0 0xFFFB));
    [reflexivity|reflexivity|unfold well_formed, in_u; cbn; lia|reflexivity].
Defined.

(** AR_Float_IEEE_NR_64, whose mode is to nearest *)
Definition AR_Float_IEEE_NR_64 : AR_TYPE := Z.lor (Z.lor AR_CLASS_FLOAT (Z.shiftl 0 5)) (Z.shiftl 1 1).

(** 40000.5 does not fit a signed 16-bit type. *)
Lemma conv_float_to_integral_witness :
  let x := double 0x40E3881000000000 in
  let c := @ar_convert_to_integral little_endian_host default_state (no_native zero_data) (AR_Int Int16 true)
             (Ieee64Opnd x AR_Float_IEEE_NR_64) in
  let v := with_sign (sign x) (fix_magnitude IEEE64 (ROUND_MODE AR_Float_IEEE_NR_64) x) in
  (exists r st, c = Ok (r, st) /\ @exact little_endian_host Int16 (AR_Int Int16 true) v r /\
     (fix_magnitude IEEE64 (ROUND_MODE AR_Float_IEEE_NR_64) x < 2 ^ 63 ->
      (fits Int16 (AR_Int Int16 true) v = true -> Z.testbit st 0 = false) /\
      (true = true -> Z.testbit st 0 = negb (fits Int16 (AR_Int Int16 true) v)))) /\
  c = Ok (mkData 0 0 0 0x9C40, Z.lor (Z.lor AR_STAT_INEXACT AR_STAT_OVERFLOW) AR_STAT_NEGATIVE).
Proof.
  cbn zeta. split; [|vm_compute; reflexivity].
  destruct (@conv_float_to_integral little_endian_host default_state (no_native zero_data) Int16 true AR_Float_IEEE_NR_64
    (double 0x40E3881000000000) eq_refl) as [_ Hd]. apply Hd. finite_single.
Defined.

(** * Operands for which the conversion or its status is wrong *)

(** On a little-endian host the 8-bit member is the upper byte of the last field:
    the unsigned 8-bit integer 5 becomes the 16-bit integer 1280. *)
Lemma conv_8bit_little_endian :
  let d := @put_parts little_endian_host Int8 [5] in
  @ival little_endian_host Int8 AR_Int_8_U d = 5 /\
  @ar_convert_to_integral little_endian_host default_state (no_native zero_data) AR_Int_16_S (IntOpnd d AR_Int_8_U) =
    Ok (mkData 0 0 0 1280, AR_STAT_OK).
Proof. split; vm_compute; reflexivity. Qed.

(** Numbers and 64-bit types: -1 to an unsigned type is not reported as an overflow
    (to a shorter unsigned type it is), 2^63 to an unsigned type and -2^63 to a
    signed one are, though they fit. *)
Lemma conv_float_to_64bit_status :
  let convert t x := @ar_convert_to_integral little_endian_host default_state (no_native zero_data) t (Ieee64Opnd x AR_Float_IEEE_NR_64) in
  convert AR_Int_64_U (double 0xBFF0000000000000) = Ok (mkData 0xFFFF 0xFFFF 0xFFFF 0xFFFF, AR_STAT_NEGATIVE) /\
  convert AR_Int_32_U (double 0xBFF0000000000000) = Ok (mkData 0 0 0xFFFF 0xFFFF, Z.lor AR_STAT_OVERFLOW AR_STAT_NEGATIVE) /\
  convert AR_Int_64_U (double 0x43E0000000000000) = Ok (mkData 0x8000 0 0 0, Z.lor AR_STAT_OVERFLOW AR_STAT_SEMIVALID) /\
  convert AR_Int_64_S (double 0xC3E0000000000000) =
    Ok (mkData 0x8000 0 0 0, Z.lor (Z.lor AR_STAT_OVERFLOW AR_STAT_SEMIVALID) AR_STAT_NEGATIVE).
Proof. split_and!; vm_compute; reflexivity. Qed.
