(* ===== verification/IdSet.v ===== *)
(** Sets of small integers, as the clients of [bitset.h] see them: the
    operations they call, what they may rely on, and the loop over the
    elements.  Bit sets provide it. *)
From Stdlib Require Import ZArith Lia Bool.
From stdpp Require Import prelude list gmap.
From S2P Require Import Prelude BitSet BitSetFacts BitSetOps BitSetChoose BitSetProps BitSetEnum.

Class IdSet (S : Type) : Type := {
  set_create_empty : Z -> MEM_POOL -> outcome S;
  set_memberP : S -> Z -> outcome bool;
  set_union1D : S -> Z -> MEM_POOL -> outcome S;
  set_choose : S -> outcome Z;
  set_choose_next : S -> Z -> outcome Z
}.

Class IdSetLaws (S : Type) `{IdSet S} : Type := {
  set_ok : S -> Prop;
  set_elems : S -> gset Z;
  set_range : forall s x, set_ok s -> x ∈ set_elems s -> 0 <= x < BS_LIMIT;
  set_create_law : forall n pool, usable pool -> 0 <= n <= BS_LIMIT ->
    yields (set_create_empty n pool) (fun s => set_ok s /\ set_elems s = ∅);
  set_member_law : forall s x, set_ok s -> 0 <= x < BS_LIMIT ->
    set_memberP s x = Ok (bool_decide (x ∈ set_elems s));
  set_union1_law : forall s x pool, set_ok s -> 0 <= x < BS_LIMIT -> usable pool ->
    yields (set_union1D s x pool) (fun t => set_ok t /\ set_elems t = {[x]} ∪ set_elems s);
  set_choose_law : forall s, set_ok s -> yields (set_choose s) (is_least (set_elems s));
  set_choose_next_law : forall s b, set_ok s -> 0 <= b < BS_LIMIT ->
    yields (set_choose_next s b) (is_least (filter (fun x => b < x) (set_elems s)))
}.

(** * Bit sets *)
#[export] Instance BS_IdSet `{BSMachine} : IdSet BS := {|
  set_create_empty := BS_Create_Empty;
  set_memberP := BS_MemberP;
  set_union1D := BS_Union1D;
  set_choose := BS_Choose;
  set_choose_next := BS_Choose_Next
|}.

Lemma mem_range `{BSMachine} s x : wf s -> mem s x = true -> 0 <= x < BS_LIMIT.
Proof. intros (_ & _ & Hl) Hx%mem_bounds. lia. Qed.

Lemma bs_least `{BSMachine} s lo v (P : Z -> Prop) `{!forall x, Decision (P x)} :
  (forall x, mem s x = true -> P x <-> lo <= x) ->
  choice (mem s) lo (BS_word_count s * BITS_PER_BS_WORD) v -> is_least (filter P (to_set s)) v.
Proof.
  intros HP. apply choice_is_least. intros x. rewrite elem_of_filter, elem_of_to_set. split.
  - intros [Hx Hm]. pose proof (mem_bounds s x Hm). rewrite HP in Hx by done. split; [lia|done].
  - intros [Hx Hm]. split; [apply HP; [done|lia]|done].
Qed.

#[export] Program Instance BS_IdSetLaws `{BSMachine} : IdSetLaws BS := {|
  set_ok := wf;
  set_elems := to_set
|}.
Next Obligation. intros M s x Hs Hx%elem_of_to_set. by eapply mem_range. Qed.
Next Obligation.
  intros M n pool Hp Hn. eapply yields_mono; [by apply create_empty_ok|]. intros s (Hw & _ & Hm).
  split; [done|]. apply to_set_ext. intros x. rewrite Hm. split; [done|by intros ?%not_elem_of_empty].
Qed.
Next Obligation. intros M s x Hs Hx. by apply memberP_ok. Qed.
Next Obligation.
  intros M s x pool Hs Hx Hp. eapply yields_mono; [by apply union1D_ok|]. intros t (Hw & _ & _ & Hm).
  split; [done|]. apply to_set_ext. intros y. rewrite Hm, orb_true_iff, Z.eqb_eq, elem_of_union, elem_of_singleton, elem_of_to_set.
  tauto.
Qed.
Next Obligation.
  intros M s Hs. eapply yields_mono; [by apply choose_ok|]. intros v Hv.
  replace (to_set s) with (filter (fun x => 0 <= x) (to_set s)).
  - eapply bs_least; [|exact Hv]. done.
  - apply set_eq. intros x. rewrite elem_of_filter. split; [tauto|]. intros Hx. split; [|done].
    apply elem_of_to_set in Hx. by apply (mem_range s x Hs).
Qed.
Next Obligation.
  intros M s b Hs Hb. eapply yields_mono; [apply choose_next_set_ok; [done|unfold BS_LIMIT, INT32_MAX in *; lia]|].
  intros v Hv. eapply bs_least; [|exact Hv]. intros x _. lia.
Qed.

Lemma difference_all (X D : gset Z) : D ⊆ X -> X ∖ D = ∅ -> X = D.
Proof.
  intros HD He. apply set_eq. intros x. split; [|set_solver]. intros Hx. destruct (decide (x ∈ D)); [done|].
  assert (x ∈ X ∖ D) as Hd by set_solver. rewrite He in Hd. set_solver.
Qed.

(** * The loop over the elements *)
Section Loop.
Context {S A : Type} `{IdSetLaws S}.

(** [for (id = choose(s); id != FAILURE; id = choose_next(s, id)) body] *)
Fixpoint for_each_from (fuel : nat) (s : S) (id : Z) (body : Z -> A -> outcome A) (a : A) : outcome A :=
  if id =? BS_CHOOSE_FAILURE then Ok a
  else match fuel with
       | O => Err Timeout
       | Datatypes.S f =>
           let* a := body id a in
           let* next := set_choose_next s id in
           for_each_from f s next body a
       end.

Definition for_each (fuel : nat) (s : S) (body : Z -> A -> outcome A) (a : A) : outcome A :=
  let* id := set_choose s in for_each_from fuel s id body a.

(** The loop runs the body once for every element, in ascending order; one unit
    of fuel for each is enough. *)
Lemma for_each_from_ok (I : gset Z -> A -> Prop) s body fuel id a D :
  set_ok s -> D ⊆ set_elems s -> is_least (set_elems s ∖ D) id ->
  (forall x, x ∈ D -> forall y, y ∈ set_elems s ∖ D -> x < y) ->
  I D a -> (size (set_elems s ∖ D) <= fuel)%nat ->
  (forall x D a, x ∈ set_elems s -> x ∉ D -> D ⊆ set_elems s -> I D a -> yields (body x a) (I ({[x]} ∪ D))) ->
  yields (for_each_from fuel s id body a) (I (set_elems s)).
Proof.
  intros Hs HD Hl Hord HI Hf Hb. revert id a D HD Hl Hord HI Hf.
  induction fuel as [|fuel IH]; intros id a D HD Hl Hord HI Hf; cbn [for_each_from].
  - destruct Hl as [[He ->]|[Hin _]].
    + simpl. by rewrite (difference_all _ D HD He).
    + assert (size (set_elems s ∖ D) = 0%nat) as Hz%size_empty_inv by lia. set_solver.
  - destruct Hl as [[He ->]|[Hin Hmin]]; [simpl; by rewrite (difference_all _ D HD He)|].
    apply elem_of_difference in Hin as [Hx HnD]. pose proof (set_range s id Hs Hx).
    destruct (Z.eqb_spec id BS_CHOOSE_FAILURE) as [->|_]; [unfold BS_CHOOSE_FAILURE in *; lia|].
    eapply yields_bind; [by apply Hb|]. intros a' HI'.
    eapply yields_bind; [by apply set_choose_next_law|]. intros next Hnext.
    assert (set_elems s ∖ ({[id]} ∪ D) = filter (fun x => id < x) (set_elems s)) as Heq.
    { apply set_eq. intros y. rewrite elem_of_filter. split.
      - intros Hy. split; [|set_solver]. assert (y ∈ set_elems s ∖ D) as Hy' by set_solver.
        pose proof (Hmin y Hy'). assert (y <> id) by set_solver. lia.
      - intros [Hlt Hy]. apply elem_of_difference. split; [done|]. intros [->%elem_of_singleton|HyD]%elem_of_union; [lia|].
        pose proof (Hord y HyD id ltac:(set_solver)). lia. }
    apply (IH next a' ({[id]} ∪ D)); [set_solver|by rewrite Heq| |done|].
    + intros x Hx' y Hy. rewrite Heq, elem_of_filter in Hy. destruct Hy as [Hlt Hy].
      apply elem_of_union in Hx' as [->%elem_of_singleton|HxD]; [done|].
      pose proof (Hord x HxD id ltac:(set_solver)). lia.
    + assert (size (set_elems s ∖ ({[id]} ∪ D)) < size (set_elems s ∖ D))%nat; [|lia].
      apply subset_size. set_solver.
Qed.

Lemma for_each_ok (I : gset Z -> A -> Prop) s body fuel a :
  set_ok s -> I ∅ a -> (size (set_elems s) <= fuel)%nat ->
  (forall x D a, x ∈ set_elems s -> x ∉ D -> D ⊆ set_elems s -> I D a -> yields (body x a) (I ({[x]} ∪ D))) ->
  yields (for_each fuel s body a) (I (set_elems s)).
Proof.
  intros Hs HI Hf Hb. unfold for_each. eapply yields_bind; [by apply set_choose_law|]. intros id Hid.
  apply (for_each_from_ok I s body fuel id a ∅); try done; try set_solver.
  - by rewrite difference_empty_L.
  - by rewrite difference_empty_L.
Qed.
End Loop.
