(* ===== verification/SiGen.v ===== *)
(** Resource words: the encoding that [targ_info/generate/si_gen.cxx] gives to
    the resources of a processor, and why its check is exact.

    Every resource has a field in a 64 bit word.  The field counts from an
    initial value, so that its top bit is set as soon as more members are
    reserved than there are; one addition and one mask then check all
    resources of a cycle at once. *)
From Stdlib Require Import ZArith Lia Bool.
From stdpp Require Import prelude list.
From S2P Require Import Prelude.

(** * The generator *)

(** [RES::Calculate_Field_Width]: the highest set bit of [count], plus 2. *)
Fixpoint field_width_loop (i : nat) (count : Z) : Z :=
  if Z.testbit count (Z.of_nat i) then Z.of_nat i + 2
  else match i with O => 0 | S i' => field_width_loop i' count end.

Definition Calculate_Field_Width (count : Z) : outcome Z :=
  assert* (0 <? count) in Ok (field_width_loop 31 count).

(** [RES_WORD], of which there may only be one. *)
Record RES_WORD : Type := mkResWord { bit_inx : Z; initializer : Z; overuse_mask : Z }.

Definition bits_per_long_long : Z := 64.

(** [RES_WORD::Allocate_Field]: the word and the position of the new field, or
    [None] if it does not fit. *)
Definition Allocate_Field (w : RES_WORD) (width count : Z) : option (RES_WORD * Z) :=
  let new_inx := bit_inx w + width in
  if bits_per_long_long <=? new_inx then None
  else Some (mkResWord new_inx
               (Z.lor (initializer w) (Z.shiftl (Z.shiftl 1 (width - 1) - (count + 1)) (bit_inx w)))
               (Z.lor (overuse_mask w) (Z.shiftl (Z.shiftl 1 (width - 1)) (bit_inx w))),
             bit_inx w).

(** [RES::Calculate_Fields] for the resources with the given counts, in the
    order of their ids: the word and the shift counts.  A second word is
    refused by [RES_WORD::Output_All]. *)
Fixpoint Calculate_Fields (w : RES_WORD) (counts : list Z) : outcome (RES_WORD * list Z) :=
  match counts with
  | [] => Ok (w, [])
  | count :: counts =>
      let* width := Calculate_Field_Width count in
      let* ' (w, shift) := of_option Fatal (Allocate_Field w width count) in
      let* ' (w, shifts) := Calculate_Fields w counts in
      Ok (w, shift :: shifts)
  end.

Definition empty_word : RES_WORD := mkResWord 0 0 0.

(** [RES_REQ::Output] for one cycle: [use] gives the count of each resource. *)
Fixpoint res_vec (shifts use : list Z) : Z :=
  match shifts, use with
  | shift :: shifts, u :: use => Z.shiftl u shift + res_vec shifts use
  | _, _ => 0
  end.

(** The set of resource ids used in one cycle, from id [id] on. *)
Fixpoint res_used_set (id : Z) (use : list Z) : Z :=
  match use with
  | [] => 0
  | u :: use => Z.lor (if 0 <? u then Z.shiftl 1 id else 0) (res_used_set (id + 1) use)
  end.

(** * Fields *)

Lemma field_width_loop_ok i count :
  0 < count < 2 ^ Z.of_nat (S i) -> 2 ^ (field_width_loop i count - 2) <= count < 2 ^ (field_width_loop i count - 1).
Proof.
  revert count. induction i as [|i IH]; intros count Hc; cbn [field_width_loop].
  - assert (count = 1) as -> by lia. done.
  - destruct (Z.testbit count (Z.of_nat (S i))) eqn:Eb.
    + replace (Z.of_nat (S i) + 2 - 2) with (Z.of_nat (S i)) by lia.
      replace (Z.of_nat (S i) + 2 - 1) with (Z.of_nat (S (S i))) by lia. split; [|lia].
      apply Z.nlt_ge. intros Hlt. rewrite (testbit_high (Z.of_nat (S i))) in Eb; [done|split; lia|lia].
    + apply IH. split; [lia|]. apply Z.nle_gt. intros Hle.
      assert (Z.log2 count = Z.of_nat (S i)) as Hl.
      { apply Z.log2_unique; [lia|]. replace (Z.succ (Z.of_nat (S i))) with (Z.of_nat (S (S i))) by lia. lia. }
      rewrite <- Hl, Z.bit_log2 in Eb by lia. done.
Qed.

(** The width that a resource gets: one bit more than its count needs. *)
Definition width_of (count : Z) : Z := field_width_loop 31 count.

Lemma width_of_ok count : 0 < count < 2 ^ 31 -> 2 <= width_of count /\ count < 2 ^ (width_of count - 1).
Proof.
  intros Hc. pose proof (field_width_loop_ok 31 count) as H. change (Z.of_nat 32) with 32 in H.
  specialize (H ltac:(lia)). unfold width_of. set (w := field_width_loop 31 count) in *. split; [|lia].
  destruct (Z.lt_ge_cases w 2); [|done]. pose proof (Z.pow_le_mono_r 2 (w - 1) 0 ltac:(lia) ltac:(lia)) as Hp.
  change (2 ^ 0) with 1 in Hp. lia.
Qed.

(** A word as a number with one digit per field. *)
Fixpoint digits (widths xs : list Z) : Z :=
  match widths, xs with
  | w :: widths, x :: xs => x + 2 ^ w * digits widths xs
  | _, _ => 0
  end.

(** Bits of [a + 2 ^ w * b]. *)
Lemma split_bit w a b i :
  0 <= w -> 0 <= a < 2 ^ w -> 0 <= i -> Z.testbit (a + 2 ^ w * b) i = if i <? w then Z.testbit a i else Z.testbit b (i - w).
Proof.
  intros Hw Ha Hi. destruct (Z.ltb_spec i w).
  - rewrite <- (Z.mod_pow2_bits_low _ w) by lia. rewrite Z.mul_comm, Z.mod_add by lia. by rewrite Z.mod_small.
  - replace i with (i - w + w) at 1 by lia. rewrite <- Z.div_pow2_bits by lia.
    rewrite Z.mul_comm, Z.div_add by lia. rewrite Z.div_small by done. done.
Qed.

Lemma split_land w a b c d :
  0 <= w -> 0 <= a < 2 ^ w -> 0 <= c < 2 ^ w ->
  Z.land (a + 2 ^ w * b) (c + 2 ^ w * d) = Z.land a c + 2 ^ w * Z.land b d.
Proof.
  intros Hw Ha Hc. apply Z.bits_inj'. intros i Hi. rewrite Z.land_spec, !split_bit by lia.
  assert (0 <= Z.land a c < 2 ^ w) by (apply in_u_land_l; [done|split; lia]).
  rewrite split_bit by done. destruct (i <? w); by rewrite Z.land_spec.
Qed.

(** A field added above the others. *)
Lemma lor_shiftl_add w a b : 0 <= w -> 0 <= a < 2 ^ w -> Z.lor a (Z.shiftl b w) = a + 2 ^ w * b.
Proof.
  intros Hw Ha. apply Z.bits_inj'. intros i Hi. rewrite Z.lor_spec, split_bit by done.
  destruct (Z.ltb_spec i w); [by rewrite Z.shiftl_spec_low, orb_false_r|].
  rewrite (testbit_high w a) by (done || lia). by rewrite Z.shiftl_spec.
Qed.

Definition widths (counts : list Z) : list Z := width_of <$> counts.
Definition init_fields (counts : list Z) : list Z := (fun c => 2 ^ (width_of c - 1) - (c + 1)) <$> counts.
Definition mask_fields (counts : list Z) : list Z := (fun c => 2 ^ (width_of c - 1)) <$> counts.
Definition total_width (counts : list Z) : Z := foldr (fun c s => width_of c + s) 0 counts.

Definition good_counts (counts : list Z) : Prop := Forall (fun c => 0 < c < 2 ^ 31) counts.

Lemma total_width_nonneg counts : good_counts counts -> 0 <= total_width counts.
Proof. induction 1 as [|c counts Hc _ IH]; simpl; [lia|]. pose proof (width_of_ok c Hc). lia. Qed.

Lemma field_bounds c : 0 < c < 2 ^ 31 ->
  0 <= 2 ^ (width_of c - 1) - (c + 1) < 2 ^ width_of c /\ 0 <= 2 ^ (width_of c - 1) < 2 ^ width_of c /\
  2 ^ width_of c = 2 * 2 ^ (width_of c - 1).
Proof. intros Hc. destruct (width_of_ok c Hc) as [Hw Hlt]. pose proof (pow2_half (width_of c)). lia. Qed.

(** What the fields contribute to a word whose first [b] bits are taken. *)
Lemma above_bound b w x y : 0 <= b -> 0 <= w -> 0 <= x < 2 ^ b -> 0 <= y < 2 ^ w -> 0 <= x + 2 ^ b * y < 2 ^ (b + w).
Proof. intros Hb Hw Hx Hy. rewrite Z.pow_add_r by done. nia. Qed.

Lemma Calculate_Fields_ok counts w w' shifts :
  good_counts counts -> 0 <= bit_inx w -> 0 <= initializer w < 2 ^ bit_inx w -> 0 <= overuse_mask w < 2 ^ bit_inx w ->
  Calculate_Fields w counts = Ok (w', shifts) ->
  bit_inx w' = bit_inx w + total_width counts /\
  initializer w' = initializer w + 2 ^ bit_inx w * digits (widths counts) (init_fields counts) /\
  overuse_mask w' = overuse_mask w + 2 ^ bit_inx w * digits (widths counts) (mask_fields counts) /\
  (forall use, res_vec shifts use = 2 ^ bit_inx w * digits (widths counts) use).
Proof.
  intros Hg. revert w shifts. induction Hg as [|c counts Hc Hg IH]; intros w shifts Hb Hi Hm Hcf; cbn [Calculate_Fields] in Hcf.
  { injection Hcf as <- <-. simpl. repeat split; lia. }
  apply obind_inv in Hcf as (width & Hw & Hcf). unfold Calculate_Field_Width in Hw. rewrite assert_true in Hw by lia.
  assert (width = width_of c) as -> by (unfold width_of; rewrite obind_ok in Hw; congruence).
  destruct (Allocate_Field w (width_of c) c) as [[w1 shift]|] eqn:Ea; [|done].
  unfold of_option in Hcf. rewrite obind_ok in Hcf. apply obind_inv in Hcf as ([w2 shifts'] & Hr & [= -> <-]).
  unfold Allocate_Field in Ea. destruct (_ <=? _); [done|]. injection Ea as <- <-.
  destruct (field_bounds c Hc) as (Hf & Hmf & Hp). destruct (width_of_ok c Hc) as [Hw2 _].
  rewrite Z.shiftl_1_l, !lor_shiftl_add in Hr by done.
  pose proof (above_bound (bit_inx w) (width_of c) _ _ Hb ltac:(lia) Hi Hf) as Hi'.
  pose proof (above_bound (bit_inx w) (width_of c) _ _ Hb ltac:(lia) Hm Hmf) as Hm'.
  assert (0 <= bit_inx w + width_of c) as Hb' by lia.
  destruct (IH (mkResWord (bit_inx w + width_of c) _ _) _ Hb' Hi' Hm' Hr) as (E1 & E2 & E3 & E4). cbn [bit_inx initializer overuse_mask] in *.
  cbn [total_width foldr widths init_fields mask_fields fmap list_fmap digits].
  rewrite Z.pow_add_r in * by lia. split; [rewrite E1; unfold total_width; lia|].
  split; [rewrite E2; fold (widths counts) (init_fields counts); lia|].
  split; [rewrite E3; fold (widths counts) (mask_fields counts); lia|].
  intros [|u use]; cbn [res_vec digits]; [lia|]. rewrite E4, Z.shiftl_mul_pow2 by done.
  fold (widths counts). lia.
Qed.

(** * The check is exact *)

(** No field overflows while at most twice the count is reserved. *)
Definition at_most (m : Z) : list Z -> list Z -> Prop := Forall2 (fun c u => 0 <= u <= m * c).

Lemma digits_add ws xs ys :
  length xs = length ys -> digits ws (zip_with Z.add xs ys) = digits ws xs + digits ws ys.
Proof.
  revert xs ys. induction ws as [|w ws IH]; intros [|x xs] [|y ys] Hl; simplify_eq/=; try lia.
  rewrite IH by done. lia.
Qed.

Lemma digits_range counts us :
  good_counts counts -> at_most 2 counts us ->
  0 <= digits (widths counts) (zip_with Z.add (init_fields counts) us) < 2 ^ total_width counts.
Proof.
  intros Hg Hu. induction Hu as [|c u counts us Hu Hus IH]; [done|]. apply Forall_cons in Hg as [Hc Hg].
  specialize (IH Hg). destruct (field_bounds c Hc) as (Hf & _ & Hp). destruct (width_of_ok c Hc) as [Hw _].
  pose proof (total_width_nonneg counts Hg). unfold widths, init_fields in *. cbn [fmap list_fmap zip_with digits total_width foldr].
  apply above_bound; [lia|done|lia|done].
Qed.

Lemma mask_range counts :
  good_counts counts -> 0 <= digits (widths counts) (mask_fields counts) < 2 ^ total_width counts.
Proof.
  intros Hg. induction Hg as [|c counts Hc Hg IH]; [done|].
  destruct (field_bounds c Hc) as (_ & Hf & _). destruct (width_of_ok c Hc) as [Hw _].
  pose proof (total_width_nonneg counts Hg). unfold widths, mask_fields in *. cbn [fmap list_fmap digits total_width foldr].
  apply above_bound; [lia|done|lia|done].
Qed.

Lemma top_bit w x : 1 <= w -> 0 <= x < 2 ^ w -> Z.land x (2 ^ (w - 1)) = 0 <-> x < 2 ^ (w - 1).
Proof.
  intros Hw Hx. pose proof (pow2_half w ltac:(lia)) as Hp. split.
  - intros Hl. destruct (Z.lt_ge_cases x (2 ^ (w - 1))); [done|]. exfalso.
    assert (Z.testbit x (w - 1) = true) as Hb.
    { rewrite Z.testbit_true by lia. assert (x / 2 ^ (w - 1) = 1) as ->; [|done].
      symmetry. apply (Z.div_unique _ _ _ (x - 2 ^ (w - 1))); lia. }
    assert (Z.testbit (Z.land x (2 ^ (w - 1))) (w - 1) = true) as Ht
      by (rewrite Z.land_spec, Hb, Z.pow2_bits_true by lia; done).
    by rewrite Hl, Z.testbit_0_l in Ht.
  - intros Hlt. apply Z.bits_inj'. intros i Hi. rewrite Z.land_spec, Z.testbit_0_l, Z.pow2_bits_eqb by lia.
    destruct (Z.eqb_spec (w - 1) i); [|by rewrite andb_false_r]. subst i.
    by rewrite (testbit_high (w - 1)) by (split; lia).
Qed.

Lemma check_exact counts us :
  good_counts counts -> at_most 2 counts us ->
  Z.land (digits (widths counts) (zip_with Z.add (init_fields counts) us)) (digits (widths counts) (mask_fields counts)) = 0
  <-> at_most 1 counts us.
Proof.
  intros Hg Hu. induction Hu as [|c u counts us Hu Hus IH]; [split; [constructor|done]|].
  apply Forall_cons in Hg as [Hc Hg]. destruct (field_bounds c Hc) as (Hf & Hm & Hp). destruct (width_of_ok c Hc) as [Hw _].
  specialize (IH Hg). pose proof (digits_range counts us Hg Hus). pose proof (mask_range counts Hg).
  unfold widths, init_fields, mask_fields in *. cbn [fmap list_fmap zip_with digits].
  rewrite split_land by lia. unfold at_most. rewrite Forall2_cons. fold (at_most 1 counts us). rewrite <- IH.
  set (x := 2 ^ (width_of c - 1) - (c + 1) + u) in *.
  pose proof (top_bit (width_of c) x ltac:(lia) ltac:(lia)) as Ht.
  assert (0 <= Z.land x (2 ^ (width_of c - 1))) by (apply Z.land_nonneg; lia).
  assert (0 <= Z.land (digits (width_of <$> counts) (zip_with Z.add ((fun c => 2 ^ (width_of c - 1) - (c + 1)) <$> counts) us))
     (digits (width_of <$> counts) ((fun c => 2 ^ (width_of c - 1)) <$> counts))) by (apply Z.land_nonneg; lia).
  split.
  - intros Hz. assert (Z.land x (2 ^ (width_of c - 1)) = 0) as Hx by nia. split; [apply Ht in Hx; lia|nia].
  - intros [Hu1 ->]. assert (x < 2 ^ (width_of c - 1)) as Hx%Ht by lia. rewrite Hx. lia.
Qed.

(** The fields of one word stay below its sign bit. *)
Lemma Calculate_Fields_fits counts w w' shifts :
  bit_inx w < 64 -> Calculate_Fields w counts = Ok (w', shifts) -> bit_inx w' < 64.
Proof.
  revert w shifts. induction counts as [|c counts IH]; intros w shifts Hw; cbn [Calculate_Fields]; [by intros [= <- <-]|].
  intros (width & _ & Hcf)%obind_inv. unfold Allocate_Field, bits_per_long_long in Hcf.
  destruct (Z.leb_spec 64 (bit_inx w + width)); [done|]. unfold of_option in Hcf. rewrite obind_ok in Hcf.
  apply obind_inv in Hcf as ([w2 shifts'] & Hr & [= -> <-]). by apply IH in Hr.
Qed.

(** * Vectors of counts *)
Definition vadd : list Z -> list Z -> list Z := zip_with Z.add.
Definition vzero (counts : list Z) : list Z := (fun _ => 0) <$> counts.

Lemma at_most_length m counts u : at_most m counts u -> length u = length counts.
Proof. intros H. symmetry. by eapply Forall2_length. Qed.

Lemma at_most_add m m' counts u v :
  at_most m counts u -> at_most m' counts v -> at_most (m + m') counts (vadd u v).
Proof.
  intros Hu. revert v. induction Hu as [|c x counts u Hx _ IH]; intros v Hv.
  - apply Forall2_nil_inv_l in Hv as ->. constructor.
  - apply Forall2_cons_inv_l in Hv as (y & v' & Hy & Hv & ->). constructor; [lia|]. by apply IH.
Qed.

Lemma at_most_nonneg m counts u : at_most m counts u -> Forall (fun x => 0 <= x) u.
Proof. induction 1 as [|c x counts u Hx _ IH]; constructor; [lia|done]. Qed.

(** Taking something away keeps the limit. *)
Lemma at_most_sub m counts u v :
  length u = length counts -> Forall (fun x => 0 <= x) u -> Forall (fun x => 0 <= x) v -> length v = length counts ->
  at_most m counts (vadd v u) -> at_most m counts u.
Proof.
  revert u v. induction counts as [|c counts IH]; intros [|x u] [|y v] Hl Hu Hv Hlv H; simplify_eq/=; [constructor|].
  apply Forall_cons in Hu as [Hx Hu], Hv as [Hy Hv]. apply Forall2_cons_1 in H as [Hc H].
  constructor; [lia|]. by apply (IH u v).
Qed.

Lemma vzero_length counts : length (vzero counts) = length counts.
Proof. apply length_fmap. Qed.

Lemma vzero_at_most counts : good_counts counts -> at_most 1 counts (vzero counts).
Proof. induction 1 as [|c counts Hc _ IH]; constructor; [lia|done]. Qed.

Lemma vadd_zero u counts : length u = length counts -> vadd (vzero counts) u = u.
Proof. revert u. induction counts as [|c counts IH]; intros [|x u] Hl; simplify_eq/=; [done|]. f_equal. by apply IH. Qed.

Lemma vadd_comm u v : vadd u v = vadd v u.
Proof. unfold vadd. revert v. induction u as [|x u IH]; intros [|y v]; simpl; [done..|]. f_equal; [lia|apply IH]. Qed.

Lemma vadd_assoc u v w : vadd u (vadd v w) = vadd (vadd u v) w.
Proof.
  unfold vadd. revert v w. induction u as [|x u IH]; intros [|y v] [|z w]; simpl; try done. f_equal; [lia|apply IH].
Qed.

Lemma vadd_length u v n : length u = n -> length v = n -> length (vadd u v) = n.
Proof. intros Hu Hv. unfold vadd. rewrite length_zip_with. lia. Qed.

Lemma digits_zero ws counts : digits ws (vzero counts) = 0.
Proof. revert counts. induction ws as [|w ws IH]; intros [|c counts]; simpl; try done. change ((fun _ => 0) <$> counts) with (vzero counts). rewrite IH. lia. Qed.
