(* ===== verification/TiSi.v ===== *)
(** Scheduling information: the model of [targ_info/access/ti_si.h] and
    [ti_si_types.h].

    The tables are generated for each processor, so they are a parameter
    ([target]).  A pointer into them is an [option], [None] being NULL; an
    access through NULL or outside a table is [Err Bounds]. *)
From Stdlib Require Import ZArith Lia Bool.
From stdpp Require Import prelude list.
From S2P Require Import Prelude.

(** * Types *)
Definition SI_BAD_II_SET : Type := Z * Z.
Definition SI_BAD_II_SET_MAX : Z := 127.

(** A resource requirement is an array: its length and one word per cycle. *)
Record SI_RR_array : Type := mkRR { rr_address : Z; rr_words : list Z }.
Definition SI_RR : Type := option SI_RR_array.

(** The fields of [SI] that resource reservation uses. *)
Record SI : Type := mkSI {
  si_id : Z;
  si_rr : SI_RR;
  si_resources_used : option (list Z);
  si_ii_info_size : Z;
  si_ii_rr : list SI_RR;
  si_ii_resources_used : list (option (list Z));
  si_bad_iis : SI_BAD_II_SET
}.

(** What the generated library of a processor exports. *)
Record target : Type := mkTarget {
  SI_resource_count : Z;
  SI_RRW_initializer : Z;
  SI_RRW_overuse_mask : Z;
  SI_top_si : list SI;
  SI_ID_count : Z;
  SI_ID_si : list SI
}.

(** * Sets of impossible IIs *)
Definition SI_BAD_II_SET_Union (s1 s2 : SI_BAD_II_SET) : SI_BAD_II_SET :=
  (Z.lor (fst s1) (fst s2), Z.lor (snd s1) (snd s2)).

Definition SI_BAD_II_SET_MemberP (s : SI_BAD_II_SET) (i : Z) : bool :=
  let bitnum := uwrap 32 (i - 1) in
  if SI_BAD_II_SET_MAX <? bitnum then false
  else negb (Z.land (if bitnum / 64 =? 0 then fst s else snd s) (Z.shiftl 1 (bitnum mod 64)) =? 0).

Definition SI_BAD_II_SET_Empty : SI_BAD_II_SET := (0, 0).

Section Target.
Context (tgt : target).

(** * Sets of resources *)
Definition SI_RESOURCE_ID_SET_Universe : Z := Z.shiftr (Z.ones 64) (64 - SI_resource_count tgt).
Definition SI_RESOURCE_ID_SET_Empty : Z := 0.
Definition SI_RESOURCE_ID_SET_Intersection (s0 s1 : Z) : Z := Z.land s0 s1.
Definition SI_RESOURCE_ID_SET_Intersection_Non_Empty (s0 s1 : Z) : bool := negb (Z.land s0 s1 =? 0).
Definition SI_RESOURCE_ID_SET_Intersection4_Non_Empty (s0 s1 s2 s3 : Z) : bool :=
  negb (Z.land (Z.land (Z.land s0 s1) s2) s3 =? 0).
Definition SI_RESOURCE_ID_SET_Complement (s : Z) : Z :=
  Z.land (Z.land (Z.lnot s) (Z.ones 64)) SI_RESOURCE_ID_SET_Universe.

(** * Reservation words *)
Definition SI_RRW_Initial : Z := SI_RRW_initializer tgt.
Definition SI_RRW_Reserve (table requirement : Z) : Z := uwrap 64 (table + requirement).
Definition SI_RRW_Has_Overuse (word : Z) : bool := negb (Z.land word (SI_RRW_overuse_mask tgt) =? 0).
Definition SI_RRW_Unreserve (table requirement : Z) : Z := uwrap 64 (table - requirement).

(** * Requirements *)
Definition SI_RR_Length (req : SI_RR) : outcome Z :=
  let* a := of_option Bounds req in let* w := rd (rr_words a) 0 in Ok (uwrap 32 w).
Definition SI_RR_Cycle_RRW (req : SI_RR) (cycle : Z) : outcome Z :=
  let* a := of_option Bounds req in rd (rr_words a) (uwrap 32 (cycle + 1)).

(** [rr1 == rr2] on pointers. *)
Definition SI_RR_eq (r1 r2 : SI_RR) : bool :=
  match r1, r2 with
  | None, None => true
  | Some a, Some b => rr_address a =? rr_address b
  | _, _ => false
  end.

(** * Information by opcode and by scheduling group *)
Definition TSI_info (top : Z) : outcome SI := rd (SI_top_si tgt) top.
Definition TSI_Id (top : Z) : outcome Z := let* i := TSI_info top in Ok (si_id i).
Definition TSI_Resource_Requirement (top : Z) : outcome SI_RR := let* i := TSI_info top in Ok (si_rr i).
Definition TSI_Bad_IIs (top : Z) : outcome SI_BAD_II_SET := let* i := TSI_info top in Ok (si_bad_iis i).

Definition TSI_II_Resource_Requirement (top ii : Z) : outcome SI_RR :=
  let* info := TSI_info top in
  if si_ii_info_size info <? uwrap 32 ii then Ok (si_rr info) else rd (si_ii_rr info) (ii - 1).

Definition TSI_II_Cycle_Resource_Ids_Used (opcode ii : Z) : outcome (option (list Z)) :=
  let* info := TSI_info opcode in
  if si_ii_info_size info <? uwrap 32 ii then Ok (si_resources_used info) else rd (si_ii_resources_used info) (ii - 1).

Definition SI_ID_Count : Z := SI_ID_count tgt.

Definition SI_ID_II_Cycle_Resource_Ids_Used (id ii : Z) : outcome (option (list Z)) :=
  let* info := rd (SI_ID_si tgt) id in
  if si_ii_info_size info <? uwrap 32 ii then Ok (si_resources_used info) else rd (si_ii_resources_used info) (ii - 1).
End Target.

(** [p[i]] through a pointer. *)
Definition ptr_rd (p : option (list Z)) (i : Z) : outcome Z := let* a := of_option Bounds p in rd a i.
