(* ===== verification/TiResRes.v ===== *)
(** Resource reservation for scheduling: the model of
    [targ_info/access/ti_res_res.c].

    A context holds a table with one reservation word per cycle of the
    schedule.  In a cyclic schedule (a software pipelined loop with [length]
    cycles) the cycles wrap around. *)
From Stdlib Require Import ZArith Lia Bool.
From stdpp Require Import prelude list.
From S2P Require Import Prelude BitSet BitSetEnum IdSet TiSi.

Definition UINT_MAX : Z := 4294967295.

(** Fresh memory holds what the pool left there. *)
Definition alloc_words (pool : MEM_POOL) (n : Z) : list Z :=
  (fun i => if MEM_POOL_Zeroed pool then 0 else uwrap 64 (mp_junk pool i)) <$> seqZ 0 n.

(** * Cycles modulo the II *)
Fixpoint mod_up (fuel : nat) (cyc ii : Z) : outcome Z :=
  match fuel with
  | O => Err Timeout
  | S f => let cyc := cyc + ii in if cyc <? 0 then mod_up f cyc ii else Ok cyc
  end.
Fixpoint mod_down (fuel : nat) (cyc ii : Z) : outcome Z :=
  match fuel with
  | O => Err Timeout
  | S f => let cyc := cyc - ii in if ii <=? cyc then mod_down f cyc ii else Ok cyc
  end.

Definition Cycle_Mod_II (cyc ii : Z) : outcome Z :=
  assert* negb (ii =? 0) in
  if cyc <? 0 then mod_up (S (Z.to_nat (- cyc))) cyc ii
  else if ii <=? cyc then mod_down (S (Z.to_nat cyc)) cyc ii
  else Ok cyc.

Section ResRes.
Context (tgt : target) {S : Type} `{IdSet S}.

(** [struct ti_res_res]; the set exists in cyclic contexts only. *)
Record TI_RES_RES : Type := mkRes {
  res_pool : MEM_POOL;
  rrtab : list Z;
  res_length : Z;
  alloc_size : Z;
  cyclic : bool;
  si_ids : option S;
  min_rr_length : Z;
  uncommon_res_ids : list Z;
  bad_iis : SI_BAD_II_SET
}.

Definition with_rrtab (r : TI_RES_RES) (t : list Z) : TI_RES_RES :=
  mkRes (res_pool r) t (res_length r) (alloc_size r) (cyclic r) (si_ids r) (min_rr_length r)
    (uncommon_res_ids r) (bad_iis r).
Definition with_uncommon (r : TI_RES_RES) (u : list Z) : TI_RES_RES :=
  mkRes (res_pool r) (rrtab r) (res_length r) (alloc_size r) (cyclic r) (si_ids r) (min_rr_length r)
    u (bad_iis r).
Definition with_length (r : TI_RES_RES) (n : Z) : TI_RES_RES :=
  mkRes (res_pool r) (rrtab r) n (alloc_size r) (cyclic r) (si_ids r) (min_rr_length r)
    (uncommon_res_ids r) (bad_iis r).

Definition TI_RES_RES_Alloc (cyc : bool) (pool : MEM_POOL) : outcome TI_RES_RES :=
  let* ids := (if cyc then let* s := set_create_empty (SI_ID_Count tgt) pool in Ok (Some s) else Ok None) in
  Ok (mkRes pool [] 0 0 cyc ids UINT_MAX [] SI_BAD_II_SET_Empty).

Definition TI_RES_RES_Has_TOP (res : TI_RES_RES) (opcode : Z) : outcome TI_RES_RES :=
  let* ids := of_option Bounds (si_ids res) in
  let* id := TSI_Id tgt opcode in
  let* m := set_memberP ids id in
  if negb m then
    let* ids := set_union1D ids id (res_pool res) in
    let* bad := TSI_Bad_IIs tgt opcode in
    let* rr := TSI_Resource_Requirement tgt opcode in
    let* rr_length := SI_RR_Length rr in
    Ok (mkRes (res_pool res) (rrtab res) (res_length res) (alloc_size res) (cyclic res) (Some ids)
          (if rr_length <? min_rr_length res then rr_length else min_rr_length res)
          (uncommon_res_ids res) (SI_BAD_II_SET_Union (bad_iis res) bad))
  else Ok res.

(** The resources common to all scheduled opcodes, then those that are not. *)
Definition compute_uncommon (res : TI_RES_RES) (ids : S) (length : Z) : outcome (list Z) :=
  let common_length := Z.min (min_rr_length res) length in
  let* u := for_ 0 length (fun i u => wr u i (SI_RESOURCE_ID_SET_Universe tgt)) (uncommon_res_ids res) in
  let* u := for_each (Z.to_nat (SI_ID_Count tgt)) ids (fun id u =>
              let* used := SI_ID_II_Cycle_Resource_Ids_Used tgt id length in
              for_ 0 common_length (fun i u =>
                let* a := rd u i in
                let* b := ptr_rd used i in
                wr u i (SI_RESOURCE_ID_SET_Intersection a b)) u) u in
  for_ 0 common_length (fun i u => let* a := rd u i in wr u i (SI_RESOURCE_ID_SET_Complement tgt a)) u.

Definition TI_RES_RES_Set_BB_Cycle_Count (res : TI_RES_RES) (length : Z) : outcome TI_RES_RES :=
  let res :=
    if alloc_size res <? length then
      let new_alloc_size := length * 2 in
      mkRes (res_pool res) (alloc_words (res_pool res) new_alloc_size) (res_length res) new_alloc_size
        (cyclic res) (si_ids res) (min_rr_length res)
        (if cyclic res then alloc_words (res_pool res) new_alloc_size else uncommon_res_ids res) (bad_iis res)
    else res in
  let res := with_length res length in
  let* t := for_ 0 length (fun i t => wr t i (SI_RRW_Initial tgt)) (rrtab res) in
  let res := with_rrtab res t in
  if cyclic res then
    let* ids := of_option Bounds (si_ids res) in
    let* u := compute_uncommon res ids length in
    Ok (with_uncommon res u)
  else Ok res.

(** [rr], [length1], [length2] and [cycle_mod_ii] *)
Definition Check_Reserve_Loop_Control (res : TI_RES_RES) (opcode cycle : Z) : outcome (SI_RR * Z * Z * Z) :=
  let length := res_length res in
  let* rr := (if cyclic res then TSI_II_Resource_Requirement tgt opcode length
              else TSI_Resource_Requirement tgt opcode) in
  let* cycle_mod_ii := Cycle_Mod_II cycle length in
  let* rr_length := SI_RR_Length rr in
  let rr_length := swrap 32 rr_length in
  if cycle_mod_ii + rr_length <=? length then Ok (rr, rr_length, 0, cycle_mod_ii)
  else
    let length1 := length - cycle_mod_ii in
    Ok (rr, length1, rr_length - length1, cycle_mod_ii).

Definition TI_RES_RES_Resources_Available (res : TI_RES_RES) (opcode cycle : Z) : outcome bool :=
  let tab := rrtab res in
  let* ' (rr, length1, length2, cycle_mod_ii) := Check_Reserve_Loop_Control res opcode cycle in
  let* r := search_ 0 length1 (fun i =>
              let* t := rd tab (cycle_mod_ii + i) in
              let* w := SI_RR_Cycle_RRW rr i in
              if SI_RRW_Has_Overuse tgt (SI_RRW_Reserve t w) then Ok (Some false) else Ok None) in
  match r with
  | Some b => Ok b
  | None =>
      let* r := search_ 0 length2 (fun i =>
                  let* t := rd tab i in
                  let* w := SI_RR_Cycle_RRW rr (i + length1) in
                  if SI_RRW_Has_Overuse tgt (SI_RRW_Reserve t w) then Ok (Some false) else Ok None) in
      match r with Some b => Ok b | None => Ok true end
  end.

(** The loops of [Reserve_Resources] and [Unreserve_Resources], which differ in
    the operation on a word. *)
Definition update_cells (op : Z -> Z -> Z) (res : TI_RES_RES) (opcode cycle : Z) : outcome TI_RES_RES :=
  let* ' (rr, length1, length2, cycle_mod_ii) := Check_Reserve_Loop_Control res opcode cycle in
  let* t := for_ 0 length1 (fun i t =>
              let* c := rd t (cycle_mod_ii + i) in
              let* w := SI_RR_Cycle_RRW rr i in
              wr t (cycle_mod_ii + i) (op c w)) (rrtab res) in
  let* t := for_ 0 length2 (fun i t =>
              let* c := rd t i in
              let* w := SI_RR_Cycle_RRW rr (i + length1) in
              wr t i (op c w)) t in
  Ok (with_rrtab res t).

Definition TI_RES_RES_Reserve_Resources := update_cells SI_RRW_Reserve.
Definition TI_RES_RES_Unreserve_Resources := update_cells SI_RRW_Unreserve.

Definition TI_RES_RES_Is_Bad_II (res : TI_RES_RES) (ii : Z) : bool := SI_BAD_II_SET_MemberP (bad_iis res) ii.

Definition TI_RES_RES_Resources_Relevant (res : TI_RES_RES) (opcode1 opcode2 offset : Z) : outcome bool :=
  let length := res_length res in
  let* res_ids1 := TSI_II_Cycle_Resource_Ids_Used tgt opcode1 length in
  let* res_ids2 := TSI_II_Cycle_Resource_Ids_Used tgt opcode2 length in
  let* rr1 := TSI_II_Resource_Requirement tgt opcode1 length in
  let* rr1_length := SI_RR_Length rr1 in
  let rr1_length := swrap 32 rr1_length in
  let* rr2 := TSI_II_Resource_Requirement tgt opcode2 length in
  let* rr2_length := SI_RR_Length rr2 in
  let rr2_length := swrap 32 rr2_length in
  let* offset_mod_ii := Cycle_Mod_II offset length in
  let u := uncommon_res_ids res in
  assert* (cyclic res) in
  let length1 := rr1_length - offset_mod_ii in
  let length1 := if rr2_length <? length1 then rr2_length else length1 in
  let* r := search_ 0 length1 (fun i =>
              let* a := ptr_rd res_ids1 (i + offset_mod_ii) in
              let* b := rd u (i + offset_mod_ii) in
              let* c := ptr_rd res_ids2 i in
              let* d := rd u i in
              if SI_RESOURCE_ID_SET_Intersection4_Non_Empty a b c d then Ok (Some true) else Ok None) in
  match r with
  | Some b => Ok b
  | None =>
      let length2 := rr2_length + offset_mod_ii - length in
      if 0 <? length then
        let length2 := if rr1_length <? length2 then rr1_length else length2 in
        let* r := search_ 0 length2 (fun i =>
                    let* a := ptr_rd res_ids1 i in
                    let* b := rd u i in
                    let* c := ptr_rd res_ids2 (i + length - offset_mod_ii) in
                    let* d := rd u (i + length - offset_mod_ii) in
                    if SI_RESOURCE_ID_SET_Intersection4_Non_Empty a b c d then Ok (Some true) else Ok None) in
        match r with Some b => Ok b | None => Ok false end
      else Ok false
  end.

Definition TI_RES_RES_Resources_Equivalent (res : TI_RES_RES) (opcode1 opcode2 : Z) : outcome bool :=
  let length := res_length res in
  let* rr1 := TSI_II_Resource_Requirement tgt opcode1 length in
  let* rr2 := TSI_II_Resource_Requirement tgt opcode2 length in
  if SI_RR_eq rr1 rr2 then Ok true
  else
    let* n1 := SI_RR_Length rr1 in
    let* n2 := SI_RR_Length rr2 in
    if negb (n1 =? n2) then Ok false
    else
      let* r := search_ 0 n1 (fun i =>
                  let* a := SI_RR_Cycle_RRW rr1 i in
                  let* b := SI_RR_Cycle_RRW rr2 i in
                  if negb (a =? b) then Ok (Some false) else Ok None) in
      match r with Some b => Ok b | None => Ok true end.

Definition TI_RES_RES_Resources_Grainy (res : TI_RES_RES) (opcode : Z) : outcome bool :=
  let length := res_length res in
  let* res_used := TSI_II_Cycle_Resource_Ids_Used tgt opcode length in
  let* rr := TSI_II_Resource_Requirement tgt opcode length in
  let* res_used_length := SI_RR_Length rr in
  if min_rr_length res <? res_used_length then Ok true
  else
    let* r := search_ 0 (min_rr_length res) (fun i =>
                let* a := ptr_rd res_used i in
                let* b := rd (uncommon_res_ids res) i in
                if SI_RESOURCE_ID_SET_Intersection_Non_Empty a b then Ok (Some true) else Ok None) in
    match r with Some b => Ok b | None => Ok false end.

Definition TI_RES_RES_Resources_Length (opcode : Z) : outcome Z :=
  let* rr := TSI_Resource_Requirement tgt opcode in SI_RR_Length rr.

Definition TI_RES_RES_Equal (res1 res2 : TI_RES_RES) : outcome bool :=
  if negb (res_length res1 =? res_length res2) then Ok false
  else
    let* r := search_ 0 (res_length res1) (fun i =>
                let* a := rd (rrtab res1) i in
                let* b := rd (rrtab res2) i in
                if negb (a =? b) then Ok (Some false) else Ok None) in
    match r with Some b => Ok b | None => Ok true end.
End ResRes.

Arguments TI_RES_RES S : clear implicits.
