(* ===== verification/TiSample.v ===== *)
(** A small processor for the examples: two members of one resource, one of
    another, and three opcodes. *)
From Stdlib Require Import ZArith Lia Bool.
From stdpp Require Import prelude list gmap.
From S2P Require Import Prelude BitSet BitSetFacts BitSetOps IdSet SiGen TiSi TiResRes.

Definition sample_counts : list Z := [2; 1].
Definition sample_shifts : list Z := [0; 3].

(** Opcode 0 takes two cycles, opcode 1 one, opcode 2 three. *)
Definition sample_uses (op : Z) : list (list Z) :=
  if op =? 0 then [[1; 0]; [0; 1]] else if op =? 1 then [[1; 1]] else [[1; 0]; [1; 0]; [1; 0]].

Definition sample_info (op : Z) : SI :=
  if op =? 0 then
    mkSI 0 (Some (mkRR 100 [2; 1; 8])) (Some [1; 2]) 1 [Some (mkRR 101 [1; 9])] [Some [3]] (0, 0)
  else if op =? 1 then mkSI 1 (Some (mkRR 102 [1; 9])) (Some [3]) 0 [] [] (2, 0)
  else mkSI 2 (Some (mkRR 103 [3; 1; 1; 1])) (Some [1; 1; 1]) 2 [None; Some (mkRR 104 [2; 2; 1])]
         [None; Some [1; 1]] (1, 0).

Definition sample_target : target :=
  mkTarget 2 1 20 (sample_info <$> [0; 1; 2]) 3 (sample_info <$> [0; 1; 2]).

#[export] Instance sample_machine : BSMachine := x86_machine.

Definition sample_mem : MEM_POOL := mkPool false false (fun i => 7 + 1000 * i).

(** The context of a loop with opcodes 0 and 1, before and after it is given two
    cycles, and of a loop with opcode 2 alone. *)
Definition sample_fresh : TI_RES_RES BS := mkRes sample_mem [] 0 0 true (Some (mkBS 1 [3])) 1 [] (2, 0).
Definition sample_loop : TI_RES_RES BS :=
  mkRes sample_mem [1; 1; 2007; 3007] 2 4 true (Some (mkBS 1 [3])) 1 [2; 3; 2007; 3007] (2, 0).
Definition sample_loop2 : TI_RES_RES BS :=
  mkRes sample_mem [1; 1; 2007; 3007] 2 4 true (Some (mkBS 1 [4])) 3 [2; 2; 2007; 3007] (1, 0).

Example sample_fresh_eq :
  (let* r := TI_RES_RES_Alloc sample_target true sample_mem in
   let* r := TI_RES_RES_Has_TOP sample_target r 0 in TI_RES_RES_Has_TOP sample_target r 1) = Ok sample_fresh.
Proof. by vm_compute. Qed.

Example sample_loop_eq : TI_RES_RES_Set_BB_Cycle_Count sample_target sample_fresh 2 = Ok sample_loop.
Proof. by vm_compute. Qed.

Example sample_loop2_eq :
  (let* r := TI_RES_RES_Alloc sample_target true sample_mem in
   let* r := TI_RES_RES_Has_TOP sample_target r 2 in TI_RES_RES_Set_BB_Cycle_Count sample_target r 2) = Ok sample_loop2.
Proof. by vm_compute. Qed.
