(* ===== verification/TiResResProps.v ===== *)
(** What resource reservation does to the table: which cells a requirement
    touches, and that the operations undo each other. *)
From Stdlib Require Import ZArith Lia Bool.
From stdpp Require Import prelude list gmap.
From S2P Require Import Prelude BitSet BitSetFacts BitSetOps BitSetEnum IdSet SiGen TiSi TiResRes TiSample.

(** * [Cycle_Mod_II] *)
Lemma mod_up_ok fuel cyc ii :
  0 < ii -> cyc < 0 -> - cyc < Z.of_nat fuel -> mod_up fuel cyc ii = Ok (cyc mod ii).
Proof.
  intros Hii. revert cyc. induction fuel as [|fuel IH]; intros cyc Hc Hf; [lia|]. cbn [mod_up]. cbv zeta.
  assert ((cyc + ii) mod ii = cyc mod ii) as Hm by (rewrite <- (Z.mul_1_l ii) at 1; by rewrite Z.mod_add by lia).
  destruct (Z.ltb_spec (cyc + ii) 0); [rewrite IH by lia; by rewrite Hm|].
  rewrite <- Hm. by rewrite Z.mod_small by lia.
Qed.

Lemma mod_down_ok fuel cyc ii :
  0 < ii -> ii <= cyc -> cyc < Z.of_nat fuel -> mod_down fuel cyc ii = Ok (cyc mod ii).
Proof.
  intros Hii. revert cyc. induction fuel as [|fuel IH]; intros cyc Hc Hf; [lia|]. cbn [mod_down]. cbv zeta.
  assert ((cyc - ii) mod ii = cyc mod ii) as Hm.
  { replace (cyc - ii) with (cyc + (-1) * ii) by lia. by rewrite Z.mod_add by lia. }
  destruct (Z.leb_spec ii (cyc - ii)); [rewrite IH by lia; by rewrite Hm|].
  rewrite <- Hm. by rewrite Z.mod_small by lia.
Qed.

Lemma Cycle_Mod_II_ok cyc ii : 0 < ii -> Cycle_Mod_II cyc ii = Ok (cyc mod ii).
Proof.
  intros Hii. unfold Cycle_Mod_II. rewrite assert_true by lia. rewrite obind_ok.
  destruct (Z.ltb_spec cyc 0); [apply mod_up_ok; lia|].
  destruct (Z.leb_spec ii cyc); [apply mod_down_ok; lia|]. by rewrite Z.mod_small by lia.
Qed.

(** * Cells of the table *)

(** The request of a requirement [ws] issued at [cycle] for cell [j] of a table
    with [len] cells. *)
Definition request (len : Z) (ws : list Z) (cycle j : Z) : option Z :=
  if (0 <=? j) && (j <? len) then zlookup ws ((j - cycle) mod len) else None.

Definition update_cell (op : Z -> Z -> Z) (r : option Z) (c : Z) : Z :=
  match r with Some w => op c w | None => c end.

Lemma zlookup_nonneg {A} (l : list A) i : ~ 0 <= i -> zlookup l i = None.
Proof. intros Hi. apply zlookup_None. lia. Qed.

Lemma update_loop_ok (op : Z -> Z -> Z) (word : Z -> outcome Z) (w : Z -> Z) b n t :
  (forall i, 0 <= i < n -> word i = Ok (w i)) -> 0 <= b -> 0 <= n -> b + n <= zlen t ->
  yields (for_ 0 n (fun i t => let* c := rd t (b + i) in let* x := word i in wr t (b + i) (op c x)) t)
    (fun t' => zlen t' = zlen t /\ forall j,
       zlookup t' j = if (b <=? j) && (j <? b + n) then (fun c => op c (w (j - b))) <$> zlookup t j else zlookup t j).
Proof.
  intros Hw Hb Hn Hlen.
  apply (yields_for (fun k t' => zlen t' = zlen t /\ forall j,
    zlookup t' j = if (b <=? j) && (j <? b + k) then (fun c => op c (w (j - b))) <$> zlookup t j else zlookup t j)).
  - done.
  - split; [done|]. intros j. by replace ((b <=? j) && (j <? b + 0)) with false by lia.
  - intros i t' Hi [Hl Ht']. destruct (zlookup_is_Some t (b + i) ltac:(lia)) as [c Hc].
    assert (zlookup t' (b + i) = Some c) as Hc'.
    { rewrite Ht', Hc. by replace ((b <=? b + i) && (b + i <? b + i)) with false by lia. }
    rewrite (rd_ok _ _ _ Hc'), obind_ok, Hw, obind_ok by done. rewrite wr_ok by lia. simpl.
    split; [by rewrite zlen_zinsert|]. intros j. rewrite zlookup_zinsert, Ht'.
    destruct (Z.eqb_spec j (b + i)) as [->|Hne].
    + cbn [andb]. replace ((0 <=? b + i) && (b + i <? zlen t')) with true by lia.
      replace ((b <=? b + i) && (b + i <? b + (i + 1))) with true by lia. rewrite Hc.
      replace (b + i - b) with i by lia. reflexivity.
    + cbn [andb]. by replace ((b <=? j) && (j <? b + (i + 1))) with ((b <=? j) && (j <? b + i)) by lia.
Qed.

Lemma check_loop_ok (bad : Z -> Z -> bool) (word : Z -> outcome Z) (w : Z -> Z) b n t :
  (forall i, 0 <= i < n -> word i = Ok (w i)) -> 0 <= b -> b + n <= zlen t ->
  yields (search_ 0 n (fun i => let* c := rd t (b + i) in let* x := word i in
                                if bad c x then Ok (Some false) else Ok None))
    (fun r => match r with
              | Some v => v = false /\ exists j c, b <= j < b + n /\ zlookup t j = Some c /\ bad c (w (j - b)) = true
              | None => forall j c, b <= j < b + n -> zlookup t j = Some c -> bad c (w (j - b)) = false
              end).
Proof.
  intros Hw Hb Hlen. eapply yields_mono.
  - apply (yields_search (fun i => forall c, zlookup t (b + i) = Some c -> bad c (w i) = false)
      (fun i v => v = false /\ exists c, zlookup t (b + i) = Some c /\ bad c (w i) = true)).
    intros i Hi. destruct (zlookup_is_Some t (b + i) ltac:(lia)) as [c Hc]. rewrite (rd_ok _ _ _ Hc), obind_ok, Hw, obind_ok by done.
    destruct (bad c (w i)) eqn:Eb; simpl; [eauto|]. intros c' Hc'. congruence.
  - intros [v|].
    + intros (i & Hi & (-> & c & Hc & Hbad) & _). split; [done|]. exists (b + i), c.
      replace (b + i - b) with i by lia. split; [lia|done].
    + intros Hall j c Hj Hc. specialize (Hall (j - b) ltac:(lia) c). replace (b + (j - b)) with j in Hall by lia. auto.
Qed.

Section Cells.
Context (tgt : target) {S : Type} `{IdSet S}.
Implicit Types (res : TI_RES_RES S).

(** The table is in use: at least one cycle, allocated. *)
Definition table_ok res : Prop := 1 <= res_length res < 2 ^ 31 /\ res_length res <= zlen (rrtab res).

(** Opcode [op] requires the words [ws], at most one for each cycle. *)
Definition requires res (opcode : Z) (ws : list Z) : Prop :=
  zlen ws <= res_length res /\
  exists a, rr_words a = zlen ws :: ws /\
    (if cyclic res then TSI_II_Resource_Requirement tgt opcode (res_length res)
     else TSI_Resource_Requirement tgt opcode) = Ok (Some a).

Lemma rr_length_ok a ws : rr_words a = zlen ws :: ws -> zlen ws < 2 ^ 31 -> SI_RR_Length (Some a) = Ok (zlen ws).
Proof.
  intros Ha Hl. unfold SI_RR_Length, of_option. rewrite obind_ok, Ha. simpl.
  rewrite uwrap_id; [done|]. pose proof (zlen_nonneg ws). split; lia.
Qed.

Lemma rr_word_ok a ws i :
  rr_words a = zlen ws :: ws -> zlen ws < 2 ^ 31 -> 0 <= i < zlen ws ->
  SI_RR_Cycle_RRW (Some a) i = Ok (default 0 (zlookup ws i)).
Proof.
  intros Ha Hl Hi. unfold SI_RR_Cycle_RRW, of_option. rewrite obind_ok, Ha.
  rewrite uwrap_id by (split; lia). destruct (zlookup_is_Some ws i Hi) as [w Hw]. rewrite Hw. apply rd_ok.
  change (zlen ws :: ws) with ([zlen ws] ++ ws). rewrite zlookup_app. change (zlen [zlen ws]) with 1.
  replace (i + 1 <? 1) with false by lia. by replace (i + 1 - 1) with i by lia.
Qed.

Lemma control_ok res opcode cycle ws :
  table_ok res -> requires res opcode ws ->
  let cm := cycle mod res_length res in
  let l1 := Z.min (zlen ws) (res_length res - cm) in
  exists a, rr_words a = zlen ws :: ws /\
    Check_Reserve_Loop_Control tgt res opcode cycle = Ok (Some a, l1, zlen ws - l1, cm).
Proof.
  intros [Hl Ht] (Hws & a & Ha & Hreq). cbv zeta. exists a. split; [done|]. unfold Check_Reserve_Loop_Control.
  rewrite Hreq, obind_ok, Cycle_Mod_II_ok, obind_ok by lia. pose proof (zlen_nonneg ws).
  rewrite (rr_length_ok a ws), obind_ok by (done || lia). rewrite swrap_id by (unfold in_s; lia).
  destruct (Z.leb_spec (cycle mod res_length res + zlen ws) (res_length res)).
  - rewrite Z.min_l by lia. by rewrite Z.sub_diag.
  - by rewrite Z.min_r by lia.
Qed.

(** Which request a cell gets: the two segments of the loops. *)
Lemma request_segments res ws cycle j :
  1 <= res_length res -> zlen ws <= res_length res ->
  let cm := cycle mod res_length res in
  let l1 := Z.min (zlen ws) (res_length res - cm) in
  request (res_length res) ws cycle j =
    if (cm <=? j) && (j <? cm + l1) then zlookup ws (j - cm)
    else if (0 <=? j) && (j <? zlen ws - l1) then zlookup ws (j + l1) else None.
Proof.
  intros Hl Hws. cbv zeta. set (len := res_length res) in *. pose proof (Z.mod_pos_bound cycle len ltac:(lia)) as Hcm.
  set (cm := cycle mod len) in *. unfold request. pose proof (zlen_nonneg ws).
  assert (forall x, (x - cycle) mod len = (x - cm) mod len) as Hmod.
  { intros x. unfold cm. by rewrite Zminus_mod_idemp_r. }
  rewrite Hmod. destruct (Z.leb_spec 0 j), (Z.ltb_spec j len); cbn [andb].
  - destruct (Z.leb_spec cm j).
    + rewrite Z.mod_small by lia. destruct (Z.ltb_spec j (cm + Z.min (zlen ws) (len - cm))); cbn [andb]; [done|].
      rewrite zlookup_None by lia. by replace (j <? zlen ws - _) with false by lia.
    + cbn [andb]. replace (j - cm) with (j - cm + len + (-1) * len) by lia. rewrite Z.mod_add, Z.mod_small by lia.
      destruct (Z.ltb_spec j (zlen ws - Z.min (zlen ws) (len - cm))); cbn [andb].
      * f_equal. lia.
      * apply zlookup_None. lia.
  - replace (_ && _) with false by lia. by replace (j <? zlen ws - _) with false by lia.
  - by replace (_ && _) with false by lia.
  - by replace (_ && _) with false by lia.
Qed.

(** The table after an update. *)
Definition updated (op : Z -> Z -> Z) res (ws : list Z) (cycle : Z) (t : list Z) : Prop :=
  zlen t = zlen (rrtab res) /\
  forall j, zlookup t j = update_cell op (request (res_length res) ws cycle j) <$> zlookup (rrtab res) j.

Lemma update_cells_ok op res opcode cycle ws :
  table_ok res -> requires res opcode ws ->
  yields (update_cells tgt op res opcode cycle) (fun r => exists t, r = with_rrtab res t /\ updated op res ws cycle t).
Proof.
  intros Hok Hreq. destruct (control_ok res opcode cycle ws Hok Hreq) as (a & Ha & Hc).
  destruct Hok as [Hl Ht]. destruct Hreq as [Hws _]. unfold update_cells. rewrite Hc, obind_ok. clear Hc.
  pose proof (Z.mod_pos_bound cycle (res_length res) ltac:(lia)) as Hcm. set (cm := cycle mod res_length res) in *.
  set (l1 := Z.min (zlen ws) (res_length res - cm)). pose proof (zlen_nonneg ws).
  eapply yields_bind.
  { apply (update_loop_ok op (SI_RR_Cycle_RRW (Some a)) (fun i => default 0 (zlookup ws i))); [|lia|lia|lia].
    intros i Hi. apply rr_word_ok; [done|lia|lia]. }
  intros t1 [Hz1 Ht1]. eapply yields_bind.
  { apply (update_loop_ok op (fun i => SI_RR_Cycle_RRW (Some a) (i + l1)) (fun i => default 0 (zlookup ws (i + l1))) 0);
      [|lia|lia|lia]. intros i Hi. apply rr_word_ok; [done|lia|lia]. }
  intros t2 [Hz2 Ht2]. apply yields_ok. exists t2. split; [done|]. split; [lia|]. intros j.
  rewrite Ht2, Ht1, request_segments by lia. fold cm. fold l1. rewrite Z.sub_0_r, Z.add_0_l.
  destruct (Z.leb_spec cm j), (Z.ltb_spec j (cm + l1)), (Z.leb_spec 0 j), (Z.ltb_spec j (zlen ws - l1)); cbn [andb]; try lia;
    try (destruct (zlookup_is_Some ws (j - cm) ltac:(lia)) as [w ->]; reflexivity);
    try (destruct (zlookup_is_Some ws (j + l1) ltac:(lia)) as [w ->]; reflexivity);
    cbn [update_cell]; by destruct (zlookup (rrtab res) j).
Qed.

(** No cell is overused when the request is added. *)
Definition no_overuse res (ws : list Z) (cycle : Z) : Prop :=
  forall j c w, zlookup (rrtab res) j = Some c -> request (res_length res) ws cycle j = Some w ->
    SI_RRW_Has_Overuse tgt (SI_RRW_Reserve c w) = false.

Lemma available_ok res opcode cycle ws :
  table_ok res -> requires res opcode ws ->
  yields (TI_RES_RES_Resources_Available tgt res opcode cycle) (fun b => b = true <-> no_overuse res ws cycle).
Proof.
  intros Hok Hreq. destruct (control_ok res opcode cycle ws Hok Hreq) as (a & Ha & Hc).
  destruct Hok as [Hl Ht]. destruct Hreq as [Hws _]. unfold TI_RES_RES_Resources_Available. rewrite Hc, obind_ok. clear Hc.
  pose proof (Z.mod_pos_bound cycle (res_length res) ltac:(lia)) as Hcm. pose proof (zlen_nonneg ws).
  pose proof (fun j => request_segments res ws cycle j ltac:(lia) Hws) as Hseg. cbv zeta in Hseg.
  set (cm := cycle mod res_length res) in *. set (l1 := Z.min (zlen ws) (res_length res - cm)) in *.
  set (bad := fun c w => SI_RRW_Has_Overuse tgt (SI_RRW_Reserve c w)).
  eapply yields_bind.
  { apply (check_loop_ok bad (SI_RR_Cycle_RRW (Some a)) (fun i => default 0 (zlookup ws i))); [|lia|lia].
    intros i Hi. apply rr_word_ok; [done|lia|lia]. }
  intros [v|] H1.
  { destruct H1 as (-> & j & c & Hj & Hjc & Hbad). split; [done|]. intros Hno. exfalso.
    destruct (zlookup_is_Some ws (j - cm) ltac:(lia)) as [w Hw]. rewrite Hw in Hbad. simpl in Hbad.
    assert (bad c w = false) by (apply (Hno j); [done|rewrite Hseg; by replace (_ && _) with true by lia]). congruence. }
  eapply yields_bind.
  { apply (check_loop_ok bad (fun i => SI_RR_Cycle_RRW (Some a) (i + l1)) (fun i => default 0 (zlookup ws (i + l1))) 0); [|lia|lia].
    intros i Hi. apply rr_word_ok; [done|lia|lia]. }
  intros [v|] H2.
  { destruct H2 as (-> & j & c & Hj & Hjc & Hbad). split; [done|]. intros Hno. exfalso. rewrite Z.sub_0_r in Hbad.
    destruct (zlookup_is_Some ws (j + l1) ltac:(lia)) as [w Hw]. rewrite Hw in Hbad. simpl in Hbad.
    assert (bad c w = false); [|congruence]. apply (Hno j); [done|]. rewrite Hseg.
    replace ((cm <=? j) && _) with false by lia. by replace (_ && _) with true by lia. }
  split; [|done]. intros _ j c w Hjc Hw. rewrite Hseg in Hw.
  destruct (Z.leb_spec cm j), (Z.ltb_spec j (cm + l1)); cbn [andb] in Hw.
  2-4: destruct (Z.leb_spec 0 j), (Z.ltb_spec j (zlen ws - l1)); try done; cbn [andb] in Hw.
  - specialize (H1 j c ltac:(lia) Hjc). by rewrite Hw in H1.
  - specialize (H2 j c ltac:(lia) Hjc). rewrite Z.sub_0_r, Hw in H2. done.
  - specialize (H2 j c ltac:(lia) Hjc). rewrite Z.sub_0_r, Hw in H2. done.
  - specialize (H2 j c ltac:(lia) Hjc). rewrite Z.sub_0_r, Hw in H2. done.
Qed.

Lemma requires_with res opcode ws t : requires res opcode ws -> requires (with_rrtab res t) opcode ws.
Proof. done. Qed.

Lemma table_ok_with res t : table_ok res -> zlen t = zlen (rrtab res) -> table_ok (with_rrtab res t).
Proof. intros [Hl Ht] Hz. split; [done|]. simpl. by rewrite Hz. Qed.

(** C33. [TI_RES_RES_Reserve_Resources] and [..._Unreserve_Resources] add or
    subtract each word of the requirement at exactly one cell, the one that
    its cycle falls on modulo the length of the schedule, and change nothing
    else; [TI_RES_RES_Resources_Available] says whether adding them would
    overuse a cell.  This holds for every cycle, negative ones too. *)
Theorem ti_reservation_cells res opcode cycle ws (Hok : table_ok res) (Hreq : requires res opcode ws) :
  yields (TI_RES_RES_Reserve_Resources tgt res opcode cycle)
    (fun r => exists t, r = with_rrtab res t /\ updated SI_RRW_Reserve res ws cycle t) /\
  yields (TI_RES_RES_Unreserve_Resources tgt res opcode cycle)
    (fun r => exists t, r = with_rrtab res t /\ updated SI_RRW_Unreserve res ws cycle t) /\
  yields (TI_RES_RES_Resources_Available tgt res opcode cycle) (fun b => b = true <-> no_overuse res ws cycle).
Proof.
  split; [by apply update_cells_ok|]. split; [by apply update_cells_ok|by apply available_ok].
Qed.

Lemma update_twice op1 op2 res o1 c1 ws1 o2 c2 ws2 :
  table_ok res -> requires res o1 ws1 -> requires res o2 ws2 ->
  yields (let* r := update_cells tgt op1 res o1 c1 in update_cells tgt op2 r o2 c2) (fun r =>
    exists t, r = with_rrtab res t /\ zlen t = zlen (rrtab res) /\
      forall j, zlookup t j = (fun c => update_cell op2 (request (res_length res) ws2 c2 j)
                                      (update_cell op1 (request (res_length res) ws1 c1 j) c)) <$> zlookup (rrtab res) j).
Proof.
  intros Hok H1 H2. eapply yields_bind; [by apply update_cells_ok|]. intros r (t1 & -> & Hz1 & Ht1).
  eapply yields_mono; [apply (update_cells_ok op2 (with_rrtab res t1) o2 c2 ws2); [by apply table_ok_with|done]|].
  intros r (t2 & -> & Hz2 & Ht2). exists t2. simpl in *. split; [done|]. split; [lia|]. intros j.
  rewrite Ht2, Ht1. by destruct (zlookup (rrtab res) j).
Qed.

Lemma uwrap_cancel c w : in_u 64 c -> uwrap 64 (uwrap 64 (c + w) - w) = c.
Proof.
  intros Hc. unfold uwrap. rewrite Zminus_mod_idemp_l. replace (c + w - w) with c by lia. by apply uwrap_id.
Qed.

Lemma uwrap_add2 c v w : uwrap 64 (uwrap 64 (c + v) + w) = uwrap 64 (c + (v + w)).
Proof. unfold uwrap. rewrite Zplus_mod_idemp_l. by rewrite Z.add_assoc. Qed.

(** [TI_RES_RES_Unreserve_Resources] undoes a reservation exactly, and the
    order of two reservations does not matter. *)
Theorem ti_reservation_undo res o1 c1 ws1 o2 c2 ws2
    (Hok : table_ok res) (Hwords : Forall (in_u 64) (rrtab res))
    (H1 : requires res o1 ws1) (H2 : requires res o2 ws2) :
  (let* r := TI_RES_RES_Reserve_Resources tgt res o1 c1 in TI_RES_RES_Unreserve_Resources tgt r o1 c1) = Ok res /\
  (let* r := TI_RES_RES_Reserve_Resources tgt res o1 c1 in TI_RES_RES_Reserve_Resources tgt r o2 c2) =
  (let* r := TI_RES_RES_Reserve_Resources tgt res o2 c2 in TI_RES_RES_Reserve_Resources tgt r o1 c1).
Proof.
  split.
  - apply yields_eq. eapply yields_mono; [by apply (update_twice _ _ res o1 c1 ws1 o1 c1 ws1)|].
    intros r (t & -> & Hz & Ht). assert (t = rrtab res) as ->; [|by destruct res].
    apply zlist_eq; [done|]. intros j Hj. rewrite Ht. destruct (zlookup (rrtab res) j) as [c|] eqn:Ec; [|done].
    simpl. f_equal. destruct (request _ _ _ _); simpl; [|done]. apply uwrap_cancel.
    eapply Forall_forall; [done|]. unfold zlookup in Ec. destruct (0 <=? j); [|done]. by eapply list_elem_of_lookup_2.
  - pose proof (update_twice SI_RRW_Reserve SI_RRW_Reserve res o1 c1 ws1 o2 c2 ws2 Hok H1 H2) as Ha.
    pose proof (update_twice SI_RRW_Reserve SI_RRW_Reserve res o2 c2 ws2 o1 c1 ws1 Hok H2 H1) as Hb.
    unfold TI_RES_RES_Reserve_Resources in *.
    apply yields_exists in Ha as (ra & -> & ta & -> & Hza & Hta). apply yields_exists in Hb as (rb & -> & tb & -> & Hzb & Htb).
    do 2 f_equal. apply zlist_eq; [lia|]. intros j Hj. rewrite Hta, Htb.
    destruct (zlookup (rrtab res) j) as [c|]; [|done]. simpl. f_equal.
    destruct (request (res_length res) ws1 c1 j), (request (res_length res) ws2 c2 j); simpl; try done.
    unfold SI_RRW_Reserve. rewrite !uwrap_add2. f_equal. lia.
Qed.
End Cells.

Lemma sample_requires :
  table_ok sample_loop /\ requires sample_target sample_loop 0 [1; 8] /\ requires sample_target sample_loop 1 [9].
Proof.
  split; [split; [split|]; by vm_compute|].
  split; (split; [by vm_compute|]); eexists; (split; [|by vm_compute]); done.
Qed.

Lemma ti_reservation_cells_witness :
  yields (TI_RES_RES_Reserve_Resources sample_target sample_loop 0 (-1))
    (fun r => exists t, r = with_rrtab sample_loop t /\ updated SI_RRW_Reserve sample_loop [1; 8] (-1) t) /\
  TI_RES_RES_Reserve_Resources sample_target sample_loop 0 (-1) = Ok (with_rrtab sample_loop [9; 2; 2007; 3007]).
Proof.
  split; [|by vm_compute]. destruct sample_requires as (Hok & H0 & _).
  exact (proj1 (ti_reservation_cells sample_target sample_loop 0 (-1) [1; 8] Hok H0)).
Defined.

Lemma ti_reservation_undo_witness :
  (let* r := TI_RES_RES_Reserve_Resources sample_target sample_loop 0 3 in
   TI_RES_RES_Unreserve_Resources sample_target r 0 3) = Ok sample_loop.
Proof.
  destruct sample_requires as (Hok & H0 & H1).
  refine (proj1 (ti_reservation_undo sample_target sample_loop 0 3 [1; 8] 1 2 [9] Hok _ H0 H1)).
  repeat constructor; cbn; lia.
Defined.
