(* ===== verification/TiUsage.v ===== *)
(** Resource reservation against its specification: with tables generated by
    [si_gen.cxx], the words of [ti_res_res.c] count the resources that are in
    use, and its check is exact. *)
From Stdlib Require Import ZArith Lia Bool.
From stdpp Require Import prelude list gmap.
From S2P Require Import Prelude BitSet BitSetFacts BitSetOps BitSetEnum IdSet SiGen TiSi TiResRes TiSample TiResResProps.

(** * The specification

    [uses op] gives, for each cycle of [op], how many members of each resource
    it needs; a schedule is the list of placed operations. *)
Section Spec.
Context (counts : list Z) (uses : Z -> list (list Z)) (len : Z).

Definition use_at (x : Z * Z) (j : Z) : list Z :=
  default (vzero counts) (zlookup (uses (fst x)) ((j - snd x) mod len)).

(** The resources in use in cycle [j]. *)
Definition usage (placed : list (Z * Z)) (j : Z) : list Z :=
  foldr (fun x u => vadd (use_at x j) u) (vzero counts) placed.

Definition within (u : list Z) : bool := forallb (fun p => snd p <=? fst p) (zip counts u).

(** The operation can be added without using more than there is. *)
Definition spec_available (placed : list (Z * Z)) (x : Z * Z) : bool :=
  forallb (fun j => within (usage (x :: placed) j)) (seqZ 0 len).
End Spec.

Lemma within_ok counts u : at_most 2 counts u -> within counts u = true <-> at_most 1 counts u.
Proof.
  induction 1 as [|c x counts u Hx Hu IH]; [split; [constructor|done]|]. unfold within in *. simpl.
  rewrite andb_true_iff, IH. unfold at_most. rewrite Forall2_cons. split; intros [? ?]; (split; [lia|done]).
Qed.

Section Refinement.
Context (tgt : target) {S : Type} `{IdSet S}.
Context (counts shifts : list Z) (uses : Z -> list (list Z)).

(** The tables come from the generator. *)
Definition generated : Prop :=
  good_counts counts /\
  exists w, Calculate_Fields empty_word counts = Ok (w, shifts) /\
    SI_RRW_initializer tgt = initializer w /\ SI_RRW_overuse_mask tgt = overuse_mask w.

(** The requirement of [op] in the tables is the packed form of [uses op]. *)
Definition op_ok (res : TI_RES_RES S) (op : Z) : Prop :=
  requires tgt res op (res_vec shifts <$> uses op) /\ Forall (at_most 1 counts) (uses op).

Context (Hgen : generated).
Abbreviation ws := (widths counts).
Abbreviation usage := (usage counts uses).
Abbreviation use_at := (use_at counts uses).

(** The word for a cycle in which [u] is in use. *)
Definition cell (u : list Z) : Z := digits ws (vadd (init_fields counts) u).

Lemma init_length : length (init_fields counts) = length counts.
Proof. apply length_fmap. Qed.

Lemma generated_words :
  SI_RRW_initializer tgt = digits ws (init_fields counts) /\
  SI_RRW_overuse_mask tgt = digits ws (mask_fields counts) /\
  (forall use, res_vec shifts use = digits ws use) /\ total_width counts < 64.
Proof.
  destruct Hgen as (Hg & w & Hcf & -> & ->).
  destruct (Calculate_Fields_ok counts empty_word w shifts Hg) as (E1 & E2 & E3 & E4); [done|done|done|done|].
  pose proof (Calculate_Fields_fits counts empty_word w shifts) as Hf. cbn [empty_word bit_inx initializer overuse_mask] in *.
  specialize (Hf ltac:(lia) Hcf). rewrite Z.pow_0_r, Z.mul_1_l, Z.add_0_l in *. split; [done|]. split; [done|].
  split; [|lia]. intros use. specialize (E4 use). lia.
Qed.

Lemma cell_add u v : length u = length counts -> length v = length counts -> cell (vadd v u) = cell u + digits ws v.
Proof.
  intros Hu Hv. unfold cell. rewrite (vadd_comm v u), vadd_assoc. unfold vadd.
  rewrite digits_add; [done|]. rewrite length_zip_with, init_length. lia.
Qed.

Lemma cell_range u : at_most 2 counts u -> in_u 64 (cell u).
Proof.
  intros Hu. destruct Hgen as [Hg _]. destruct generated_words as (_ & _ & _ & Hw).
  pose proof (digits_range counts u Hg Hu) as Hr. pose proof (total_width_nonneg counts Hg).
  pose proof (Z.pow_le_mono_r 2 (total_width counts) 64 ltac:(lia) ltac:(lia)). unfold cell, vadd. split; lia.
Qed.

Lemma at_most_mono u : at_most 1 counts u -> at_most 2 counts u.
Proof. intros Hu. eapply Forall2_impl; [exact Hu|]. intros c x ?. simpl in *. lia. Qed.

(** The check of one word is exact. *)
Lemma overuse_exact u : at_most 2 counts u -> SI_RRW_Has_Overuse tgt (cell u) = false <-> at_most 1 counts u.
Proof.
  intros Hu. destruct Hgen as [Hg _]. destruct generated_words as (_ & Hm & _ & _).
  unfold SI_RRW_Has_Overuse. rewrite Hm, negb_false_iff, Z.eqb_eq. by apply check_exact.
Qed.


Section Table.
Context (res : TI_RES_RES S) (Hok : table_ok res).
Abbreviation len := (res_length res).

Lemma use_at_ok x j : op_ok res (fst x) -> at_most 1 counts (use_at len x j).
Proof.
  intros [_ Hu]. unfold TiUsage.use_at. destruct (zlookup _ _) as [u|] eqn:E; simpl; [|apply vzero_at_most, Hgen].
  eapply Forall_forall; [exact Hu|]. unfold zlookup in E. destruct (0 <=? _); [|done]. by eapply list_elem_of_lookup_2.
Qed.

Lemma usage_nonneg placed j :
  Forall (fun x => op_ok res (fst x)) placed ->
  Forall (fun x => 0 <= x) (usage len placed j) /\ length (usage len placed j) = length counts.
Proof.
  induction 1 as [|x placed Hx _ [IH1 IH2]]; simpl.
  - split; [|apply vzero_length]. apply Forall_fmap, Forall_true. intros; simpl; lia.
  - pose proof (use_at_ok x j Hx) as Hu. split; [|apply vadd_length; [by apply at_most_length in Hu|done]].
    apply at_most_nonneg in Hu. unfold vadd. clear -Hu IH1. revert Hu IH1.
    generalize (use_at len x j) (usage len placed j). intros u v Hu. revert v.
    induction Hu as [|a u Ha _ IH]; intros v Hv; [by destruct v|]. destruct Hv as [|b v Hb Hv]; [constructor|].
    simpl. constructor; [lia|]. by apply IH.
Qed.

(** What a cell is asked to add. *)
Lemma request_word x j :
  0 <= j < len ->
  update_cell SI_RRW_Reserve (request len (res_vec shifts <$> uses (fst x)) (snd x) j) =
  update_cell SI_RRW_Reserve (res_vec shifts <$> zlookup (uses (fst x)) ((j - snd x) mod len)).
Proof. intros Hj. unfold request. replace (_ && _) with true by lia. by rewrite zlookup_fmap. Qed.

Lemma use_at_digits x j :
  default 0 (res_vec shifts <$> zlookup (uses (fst x)) ((j - snd x) mod len)) = digits ws (use_at len x j).
Proof.
  destruct generated_words as (_ & _ & Hv & _). unfold TiUsage.use_at. destruct (zlookup _ _) as [u|]; simpl; [apply Hv|].
  by rewrite digits_zero.
Qed.

(** Adding a request to a cell, and taking it away. *)
Lemma reserve_cell x j u :
  op_ok res (fst x) -> 0 <= j < len -> at_most 1 counts u ->
  update_cell SI_RRW_Reserve (request len (res_vec shifts <$> uses (fst x)) (snd x) j) (cell u) =
    cell (vadd (use_at len x j) u) /\
  (forall w, request len (res_vec shifts <$> uses (fst x)) (snd x) j = Some w ->
     SI_RRW_Reserve (cell u) w = cell (vadd (use_at len x j) u)).
Proof.
  intros Hop Hj Hu. pose proof (use_at_ok x j Hop) as Hx. pose proof (at_most_length _ _ _ Hu) as Hlu.
  pose proof (at_most_length _ _ _ Hx) as Hlx. pose proof (at_most_add _ _ _ _ _ Hx Hu) as Hxu.
  pose proof (cell_range _ Hxu) as Hr. rewrite cell_add in * by done.
  pose proof (use_at_digits x j) as Hd. pose proof (cell_range _ (at_most_mono _ Hu)) as Hr'.
  unfold request. replace (_ && _) with true by lia. rewrite zlookup_fmap.
  destruct (zlookup (uses (fst x)) ((j - snd x) mod len)) as [v|]; simpl in *; rewrite <- Hd in *.
  - split; [|intros w [= <-]]; by apply uwrap_id.
  - split; [lia|done].
Qed.

Lemma unreserve_cell x j u :
  op_ok res (fst x) -> 0 <= j < len -> at_most 1 counts u ->
  update_cell SI_RRW_Unreserve (request len (res_vec shifts <$> uses (fst x)) (snd x) j) (cell (vadd (use_at len x j) u)) = cell u.
Proof.
  intros Hop Hj Hu. pose proof (use_at_ok x j Hop) as Hx. rewrite cell_add by (by apply at_most_length in Hx, Hu).
  pose proof (use_at_digits x j) as Hd. pose proof (cell_range _ (at_most_mono _ Hu)) as Hr'.
  unfold request. replace (_ && _) with true by lia. rewrite zlookup_fmap.
  destruct (zlookup (uses (fst x)) ((j - snd x) mod len)) as [v|]; simpl in *; rewrite <- Hd; [|lia].
  unfold SI_RRW_Unreserve. replace (cell u + res_vec shifts v - res_vec shifts v) with (cell u) by lia. by apply uwrap_id.
Qed.
End Table.

(** The table counts what the placed operations use. *)
Record represents (res : TI_RES_RES S) (placed : list (Z * Z)) : Prop := {
  rep_table : table_ok res;
  rep_ops : Forall (fun x => op_ok res (fst x)) placed;
  rep_cells : forall j, 0 <= j < res_length res ->
    zlookup (rrtab res) j = Some (cell (usage (res_length res) placed j)) /\
    at_most 1 counts (usage (res_length res) placed j)
}.

Lemma available_refines res placed x :
  represents res placed -> op_ok res (fst x) ->
  TI_RES_RES_Resources_Available tgt res (fst x) (snd x) = Ok (spec_available counts uses (res_length res) placed x).
Proof.
  intros [Hok Hops Hcells] Hop. apply yields_eq. eapply yields_mono; [apply available_ok; [done|apply Hop]|].
  intros b Hb. apply eq_true_iff_eq. rewrite Hb. unfold spec_available. rewrite forallb_forall.
  assert (forall j, 0 <= j < res_length res -> at_most 2 counts (usage (res_length res) (x :: placed) j)) as H2.
  { intros j Hj. apply (at_most_add 1 1); [by apply use_at_ok|by apply Hcells]. }
  split.
  - intros Hno j Hj%list_elem_of_In%elem_of_seqZ. apply within_ok; [apply H2; lia|]. apply overuse_exact; [apply H2; lia|].
    destruct (Hcells j ltac:(lia)) as [Hc Hu]. destruct (reserve_cell res x j _ Hop ltac:(lia) Hu) as [_ Hw].
    destruct (request (res_length res) (res_vec shifts <$> uses (fst x)) (snd x) j) as [w|] eqn:Er.
    + specialize (Hno j _ w Hc Er). by rewrite (Hw w eq_refl) in Hno.
    + apply overuse_exact; [apply H2; lia|]. unfold request in Er. replace (_ && _) with true in Er by lia.
      rewrite zlookup_fmap in Er. simpl. unfold TiUsage.use_at. destruct (zlookup (uses (fst x)) _); [done|]. simpl.
      rewrite vadd_zero; [done|by apply at_most_length in Hu].
  - intros Hall j c w Hc Hr. assert (0 <= j < res_length res) as Hj.
    { unfold request in Hr. destruct (_ && _) eqn:E; [lia|done]. }
    destruct (Hcells j Hj) as [Hc' Hu]. destruct (reserve_cell res x j _ Hop Hj Hu) as [_ Hw].
    assert (c = cell (usage (res_length res) placed j)) as -> by congruence. rewrite (Hw w Hr).
    apply overuse_exact; [by apply (H2 j)|]. apply within_ok; [by apply (H2 j)|]. apply (Hall j).
    apply list_elem_of_In, elem_of_seqZ. lia.
Qed.

Lemma reserve_refines res placed x :
  represents res placed -> op_ok res (fst x) -> spec_available counts uses (res_length res) placed x = true ->
  yields (TI_RES_RES_Reserve_Resources tgt res (fst x) (snd x)) (fun r =>
    represents r (x :: placed) /\ res_length r = res_length res /\ forall op, op_ok res op -> op_ok r op).
Proof.
  intros [Hok Hops Hcells] Hop Hav. eapply yields_mono; [apply update_cells_ok; [done|apply Hop]|].
  intros r (t & -> & Hz & Ht). split; [|done]. split; [by apply table_ok_with|by constructor|]. cbn [res_length with_rrtab rrtab].
  intros j Hj. destruct (Hcells j Hj) as [Hc Hu]. split.
  - rewrite Ht, Hc. simpl. f_equal. by apply reserve_cell.
  - apply within_ok; [by apply (at_most_add 1 1); [apply use_at_ok|]|].
    unfold spec_available in Hav. rewrite forallb_forall in Hav. apply Hav, list_elem_of_In, elem_of_seqZ. lia.
Qed.

Lemma usage_perm len placed placed' j : placed ≡ₚ placed' -> usage len placed j = usage len placed' j.
Proof.
  induction 1 as [|x l l' _ IH|x y l|l1 l2 l3 _ IH1 _ IH2]; simpl; [done|by rewrite IH| |by rewrite IH1].
  by rewrite !vadd_assoc, (vadd_comm (use_at len y j)).
Qed.

Lemma unreserve_refines res placed x rest :
  represents res placed -> placed ≡ₚ x :: rest ->
  yields (TI_RES_RES_Unreserve_Resources tgt res (fst x) (snd x)) (fun r =>
    represents r rest /\ res_length r = res_length res /\ forall op, op_ok res op -> op_ok r op).
Proof.
  intros [Hok Hops Hcells] Hp. rewrite Hp in Hops. apply Forall_cons in Hops as [Hop Hops].
  eapply yields_mono; [apply update_cells_ok; [done|apply Hop]|].
  intros r (t & -> & Hz & Ht). split; [|done]. split; [by apply table_ok_with|done|]. cbn [res_length with_rrtab rrtab].
  intros j Hj. destruct (Hcells j Hj) as [Hc Hu]. rewrite (usage_perm _ _ _ _ Hp) in Hc, Hu. simpl in Hc, Hu.
  destruct (usage_nonneg res rest j Hops) as [Hn Hl]. pose proof (use_at_ok res x j Hop) as Hx.
  assert (at_most 1 counts (usage (res_length res) rest j)) as Hr.
  { eapply at_most_sub; [done|done|by eapply at_most_nonneg|by eapply at_most_length|exact Hu]. }
  split; [|done]. rewrite Ht, Hc. simpl. f_equal. by apply unreserve_cell.
Qed.
End Refinement.

(** * Histories

    A scheduler tries to place operations and takes placed ones back. *)
Inductive command : Type :=
| Place (x : Z * Z)
| Remove (x : Z * Z).

Definition subject (c : command) : Z * Z := match c with Place x | Remove x => x end.

Section Histories.
Context (tgt : target) {S : Type} `{IdSet S}.
Context (counts shifts : list Z) (uses : Z -> list (list Z)).

(** The implementation: the answers of [Resources_Available]. *)
Fixpoint run_table (res : TI_RES_RES S) (cs : list command) : outcome (list bool) :=
  match cs with
  | [] => Ok []
  | Place x :: cs =>
      let* b := TI_RES_RES_Resources_Available tgt res (fst x) (snd x) in
      let* res := (if b then TI_RES_RES_Reserve_Resources tgt res (fst x) (snd x) else Ok res) in
      let* bs := run_table res cs in Ok (b :: bs)
  | Remove x :: cs =>
      let* res := TI_RES_RES_Unreserve_Resources tgt res (fst x) (snd x) in run_table res cs
  end.

Fixpoint remove_one (x : Z * Z) (placed : list (Z * Z)) : option (list (Z * Z)) :=
  match placed with
  | [] => None
  | y :: placed => if decide (x = y) then Some placed else cons y <$> remove_one x placed
  end.

(** The specification; [None] if something is removed that is not placed. *)
Fixpoint run_spec (len : Z) (placed : list (Z * Z)) (cs : list command) : option (list bool) :=
  match cs with
  | [] => Some []
  | Place x :: cs =>
      let b := spec_available counts uses len placed x in
      cons b <$> run_spec len (if b then x :: placed else placed) cs
  | Remove x :: cs => placed ← remove_one x placed; run_spec len placed cs
  end.

Lemma remove_one_perm x placed rest : remove_one x placed = Some rest -> placed ≡ₚ x :: rest.
Proof.
  revert rest. induction placed as [|y placed IH]; intros rest Hr; simpl in Hr; [done|].
  destruct (decide (x = y)) as [->|]; [by injection Hr as ->|].
  destruct (remove_one x placed) as [r|]; simplify_eq/=. rewrite (IH r eq_refl). apply Permutation_swap.
Qed.

(** C2. Resource reservation implements counting: with tables as [si_gen]
    generates them, for every history of attempts to place operations and of
    removals of placed ones, the packed words of [ti_res_res.c] give the same
    answers as counting, for every cycle and every resource, the members in
    use against the members there are. *)
Theorem ti_history_refines res len placed cs answers
    (Hgen : generated tgt counts shifts) (Hrep : represents tgt counts shifts uses res placed)
    (Hlen : res_length res = len)
    (Hops : Forall (fun c => op_ok tgt counts shifts uses res (fst (subject c))) cs)
    (Hspec : run_spec len placed cs = Some answers) :
  run_table res cs = Ok answers.
Proof.
  revert res placed answers Hrep Hlen Hops Hspec. induction cs as [|[x|x] cs IH]; intros res placed answers Hrep Hlen Hops Hspec.
  - by injection Hspec as <-.
  - cbn [run_spec run_table] in *. apply Forall_cons in Hops as [Hop Hops].
    rewrite (available_refines tgt counts shifts uses Hgen res placed x Hrep Hop), Hlen, obind_ok.
    destruct (spec_available counts uses len placed x) eqn:Ea.
    + assert (spec_available counts uses (res_length res) placed x = true) as Ea' by by rewrite Hlen.
      pose proof (reserve_refines tgt counts shifts uses Hgen res placed x Hrep Hop Ea') as Hres.
      apply yields_exists in Hres as (r & -> & Hrep' & Hlen' & Hops'). rewrite obind_ok.
      destruct (run_spec len (x :: placed) cs) as [bs|] eqn:Er; [|done]. injection Hspec as <-.
      rewrite (IH r (x :: placed) bs); [done|done|congruence| |done]. eapply Forall_impl; [exact Hops|]. auto.
    + rewrite obind_ok. destruct (run_spec len placed cs) as [bs|] eqn:Er; [|done]. injection Hspec as <-.
      by rewrite (IH res placed bs).
  - cbn [run_spec run_table] in *. apply Forall_cons in Hops as [Hop Hops].
    destruct (remove_one x placed) as [rest|] eqn:Ex; [|done]. simpl in Hspec.
    pose proof (unreserve_refines tgt counts shifts uses Hgen res placed x rest Hrep (remove_one_perm _ _ _ Ex)) as Hres.
    apply yields_exists in Hres as (r & -> & Hrep' & Hlen' & Hops'). rewrite obind_ok.
    apply (IH r rest); [done|congruence| |done]. eapply Forall_impl; [exact Hops|]. auto.
Qed.
End Histories.

Ltac at_most_tac :=
  unfold at_most; repeat first [apply Forall_cons_2 | apply Forall_nil_2 | apply Forall2_cons_2 | apply Forall2_nil_2]; lia.

Lemma sample_generated : generated sample_target sample_counts sample_shifts.
Proof.
  split; [repeat constructor; lia|]. exists (mkResWord 5 1 20). by vm_compute.
Qed.

Lemma sample_op_ok op :
  0 <= op <= 1 -> op_ok sample_target sample_counts sample_shifts sample_uses sample_loop op.
Proof.
  intros Hop. assert (op = 0 \/ op = 1) as [-> | ->] by lia; destruct sample_requires as (_ & H0 & H1).
  - split; [exact H0|]. at_most_tac.
  - split; [exact H1|]. at_most_tac.
Qed.

Lemma sample_represents : represents sample_target sample_counts sample_shifts sample_uses sample_loop [].
Proof.
  split; [apply sample_requires|constructor|]. intros j Hj. cbn in Hj.
  assert (j = 0 \/ j = 1) as [-> | ->] by lia; (split; [by vm_compute|]); at_most_tac.
Qed.

(** Opcode 0 at cycle 0 and opcode 1 at cycle 2 fit, opcode 1 at cycle 1 does not
    until opcode 0 is removed. *)
Lemma ti_history_refines_witness :
  run_table sample_target sample_loop
    [Place (0, 0); Place (1, 1); Place (1, 2); Remove (0, 0); Place (1, 1)] = Ok [true; false; true; true].
Proof.
  apply (ti_history_refines sample_target sample_counts sample_shifts sample_uses sample_loop 2 []);
    [exact sample_generated|exact sample_represents|done| |by vm_compute].
  repeat (apply Forall_cons_2; [apply sample_op_ok; cbn; lia|]). apply Forall_nil_2.
Defined.
