(* ===== verification/TiCycles.v ===== *)
(** Setting up a schedule: the set of opcodes, the bad IIs, the reset of the
    table, and the resources that not all opcodes of a loop have in common. *)
From Stdlib Require Import ZArith Lia Bool.
From stdpp Require Import prelude list gmap.
From S2P Require Import Prelude BitSet BitSetFacts BitSetOps BitSetEnum IdSet SiGen TiSi TiResRes TiSample TiResResProps TiUsage.

(** * Loops that fill an array *)
Lemma fill_loop_ok (x : Z) n (t : list Z) :
  0 <= n <= zlen t ->
  yields (for_ 0 n (fun i t => wr t i x) t)
    (fun t' => zlen t' = zlen t /\ forall j, zlookup t' j = if (0 <=? j) && (j <? n) then Some x else zlookup t j).
Proof.
  intros Hn. apply (yields_for (fun k t' => zlen t' = zlen t /\ forall j,
    zlookup t' j = if (0 <=? j) && (j <? k) then Some x else zlookup t j)); [lia| |].
  - split; [done|]. intros j. by replace ((0 <=? j) && (j <? 0)) with false by lia.
  - intros i t' Hi [Hl Ht']. rewrite wr_ok by lia. split; [by rewrite zlen_zinsert|]. intros j.
    rewrite zlookup_zinsert, Ht'. destruct (Z.eqb_spec j i) as [->|Hne]; cbn [andb].
    + replace ((0 <=? i) && (i <? zlen t')) with true by lia. by replace ((0 <=? i) && (i <? i + 1)) with true by lia.
    + by replace ((0 <=? j) && (j <? i + 1)) with ((0 <=? j) && (j <? i)) by lia.
Qed.

Lemma map_loop_ok (f : Z -> Z) n (t : list Z) :
  0 <= n <= zlen t ->
  yields (for_ 0 n (fun i t => let* a := rd t i in wr t i (f a)) t)
    (fun t' => zlen t' = zlen t /\ forall j, zlookup t' j = if (0 <=? j) && (j <? n) then f <$> zlookup t j else zlookup t j).
Proof.
  intros Hn. exact (update_loop_ok (fun a _ => f a) (fun _ => Ok 0) (fun _ => 0) 0 n t (fun _ _ => eq_refl) ltac:(lia) ltac:(lia) ltac:(lia)).
Qed.

Lemma all_or_one (X : gset Z) (b : Z -> bool) :
  (forall x, x ∈ X -> b x = true) \/ exists x, x ∈ X /\ b x = false.
Proof.
  destruct (decide (set_Exists (fun x => b x = false) X)) as [(x & Hx & Hb)|Hno]; [right; eauto|left].
  intros x Hx. destruct (b x) eqn:E; [done|]. destruct Hno. by exists x.
Qed.

Section Setup.
Context (tgt : target) {S : Type} `{IdSetLaws S}.
Context (Hcount : 0 <= SI_resource_count tgt <= 64).

Lemma universe_bit k : 0 <= k -> Z.testbit (SI_RESOURCE_ID_SET_Universe tgt) k = (k <? SI_resource_count tgt).
Proof.
  intros Hk. unfold SI_RESOURCE_ID_SET_Universe. rewrite Z.shiftr_spec, ones_bit by lia. lia.
Qed.

Lemma complement_bit s k :
  0 <= k -> Z.testbit (SI_RESOURCE_ID_SET_Complement tgt s) k = (k <? SI_resource_count tgt) && negb (Z.testbit s k).
Proof.
  intros Hk. unfold SI_RESOURCE_ID_SET_Complement. rewrite !Z.land_spec, universe_bit, Z.lnot_spec, ones_bit by lia.
  destruct (Z.ltb_spec k (SI_resource_count tgt)); [|by rewrite andb_false_r].
  replace ((0 <=? k) && (k <? 64)) with true by lia. by rewrite !andb_true_r.
Qed.

(** In the first [common] cycles: the resources that every opcode of [D] uses. *)
Definition common_to (used : Z -> list Z) (common length : Z) (D : gset Z) (u : list Z) : Prop :=
  forall i, 0 <= i < length -> exists x, zlookup u i = Some x /\
    forall k, 0 <= k -> Z.testbit x k = true <->
      k < SI_resource_count tgt /\
      (i < common -> forall id, id ∈ D -> Z.testbit (default 0 (zlookup (used id) i)) k = true).

Lemma common_step used common length D id u p :
  p = Some (used id) -> 0 <= common <= length -> length <= zlen u -> common <= zlen (used id) ->
  common_to used common length D u ->
  yields (for_ 0 common (fun i u => let* a := rd u i in let* b := ptr_rd p i in
            wr u i (SI_RESOURCE_ID_SET_Intersection a b)) u)
    (fun u' => zlen u' = zlen u /\ common_to used common length ({[id]} ∪ D) u').
Proof.
  intros -> Hc Hu Hused Hcom. eapply yields_mono.
  { apply (update_loop_ok SI_RESOURCE_ID_SET_Intersection (ptr_rd (Some (used id))) (fun i => default 0 (zlookup (used id) i)) 0); [|lia|lia|lia].
    intros i Hi. unfold ptr_rd, of_option. rewrite obind_ok. destruct (zlookup_is_Some (used id) i ltac:(lia)) as [x Hx].
    rewrite Hx. by apply rd_ok. }
  intros u' [Hz Hu']. split; [done|]. intros i Hi. destruct (Hcom i Hi) as (x & Hx & Hbits).
  rewrite Hu', Hx, Z.sub_0_r, Z.add_0_l. destruct (Z.ltb_spec i common).
  - replace ((0 <=? i) && true) with true by lia. eexists. split; [done|]. intros k Hk.
    unfold SI_RESOURCE_ID_SET_Intersection. rewrite Z.land_spec, andb_true_iff, Hbits by done. split.
    + intros [[Hk' Hall] Hid]. split; [done|]. intros _ id' [->%elem_of_singleton|Hin]%elem_of_union; [done|by apply Hall].
    + intros [Hk' Hall]. split; [split; [done|]; intros _ id' Hin; apply Hall; [done|by apply elem_of_union_r]|].
      apply Hall; [done|]. by apply elem_of_union_l, elem_of_singleton.
  - rewrite andb_false_r. exists x. split; [done|]. intros k Hk. rewrite Hbits by done. split; intros [? ?]; (split; [done|lia]).
Qed.

(** The sets of resource ids used, for the opcodes of the loop. *)
Definition uses_ids (ids : S) (length common : Z) (used : Z -> list Z) : Prop :=
  forall id, id ∈ set_elems ids ->
    SI_ID_II_Cycle_Resource_Ids_Used tgt id length = Ok (Some (used id)) /\ common <= zlen (used id).

Lemma compute_uncommon_ok res ids length used :
  set_ok ids -> (forall id, id ∈ set_elems ids -> 0 <= id < SI_ID_Count tgt) ->
  0 <= min_rr_length res -> 0 <= length <= zlen (uncommon_res_ids res) ->
  uses_ids ids length (Z.min (min_rr_length res) length) used ->
  yields (compute_uncommon tgt res ids length) (fun u =>
    zlen u = zlen (uncommon_res_ids res) /\
    forall i, 0 <= i < length -> exists x, zlookup u i = Some x /\ forall k, 0 <= k ->
      Z.testbit x k = true <-> k < SI_resource_count tgt /\
        (i < min_rr_length res -> exists id, id ∈ set_elems ids /\ Z.testbit (default 0 (zlookup (used id) i)) k = false)).
Proof.
  intros Hids Hrange Hmin Hlen Hused. unfold compute_uncommon.
  set (common := Z.min (min_rr_length res) length) in *.
  eapply yields_bind; [by apply fill_loop_ok|]. intros u0 [Hz0 Hu0].
  eapply yields_bind.
  { apply (for_each_ok (fun D u => zlen u = zlen u0 /\ common_to used common length D u)); [done| | |].
    - split; [done|]. intros i Hi. rewrite Hu0. replace ((0 <=? i) && (i <? length)) with true by lia.
      eexists. split; [done|]. intros k Hk. rewrite universe_bit by done. split; [intros ?; split; [lia|set_solver]|lia].
    - assert (set_elems ids ⊆ list_to_set (seqZ 0 (SI_ID_Count tgt))) as Hsub%subseteq_size.
      { intros id Hid. apply elem_of_list_to_set, elem_of_seqZ. specialize (Hrange id Hid). lia. }
      rewrite size_list_to_set, length_seqZ in Hsub by apply NoDup_seqZ. done.
    - intros id D u Hid _ _ [Hzu Hcom]. destruct (Hused id Hid) as [-> Hl]. rewrite obind_ok.
      eapply yields_mono; [apply (common_step used common length D id u (Some (used id))); done || lia|].
      intros u' [Hz Hc]. split; [lia|done]. }
  intros u1 [Hz1 Hcom]. eapply yields_mono; [apply map_loop_ok; lia|]. intros u2 [Hz2 Hu2]. split; [lia|].
  intros i Hi. destruct (Hcom i Hi) as (x & Hx & Hbits). rewrite Hu2, Hx. destruct (Z.ltb_spec i common).
  - replace ((0 <=? i) && true) with true by lia. eexists. split; [done|]. intros k Hk. rewrite complement_bit by done.
    specialize (Hbits k Hk). rewrite andb_true_iff, negb_true_iff, Z.ltb_lt.
    destruct (all_or_one (set_elems ids) (fun id => Z.testbit (default 0 (zlookup (used id) i)) k)) as [Hall|(id & Hid & Hb)].
    + split; [intros [Hk' Hf]|intros [Hk' Hex]].
      * rewrite (proj2 Hbits) in Hf; [done|]. split; [done|]. auto.
      * destruct Hex as (id & Hid & Hb); [lia|]. specialize (Hall id Hid). simpl in Hall. congruence.
    + split; [intros [Hk' _]; split; [done|eauto]|]. intros [Hk' _]. split; [done|].
      destruct (Z.testbit x k); [|done]. destruct (proj1 Hbits eq_refl) as [_ Hall].
      specialize (Hall ltac:(lia) id Hid). simpl in Hb. congruence.
  - rewrite andb_false_r. exists x. split; [done|]. intros k Hk. rewrite Hbits by done.
    split; intros [? ?]; (split; [done|lia]).
Qed.

(** A context between its operations. *)
Record context_ok (res : TI_RES_RES S) : Prop := {
  ctx_alloc : 0 <= alloc_size res /\ zlen (rrtab res) = alloc_size res;
  ctx_min : 0 <= min_rr_length res;
  ctx_cyclic : cyclic res = true -> zlen (uncommon_res_ids res) = alloc_size res /\
    exists ids, si_ids res = Some ids /\ set_ok ids /\ forall id, id ∈ set_elems ids -> 0 <= id < SI_ID_Count tgt
}.

(** The resource sets of the cycles, as the interface describes them. *)
Definition uncommon_ok (res : TI_RES_RES S) (used : Z -> list Z) : Prop :=
  forall ids, si_ids res = Some ids -> forall i, 0 <= i < res_length res ->
    exists x, zlookup (uncommon_res_ids res) i = Some x /\ forall k, 0 <= k ->
      Z.testbit x k = true <-> k < SI_resource_count tgt /\
        (i < min_rr_length res -> exists id, id ∈ set_elems ids /\ Z.testbit (default 0 (zlookup (used id) i)) k = false).

Lemma zlen_alloc_words pool n : 0 <= n -> zlen (alloc_words pool n) = n.
Proof. intros Hn. unfold alloc_words. rewrite zlen_fmap, zlen_seqZ. lia. Qed.

(** The storage for [length] cycles. *)
Definition grown (res : TI_RES_RES S) (length : Z) : TI_RES_RES S :=
  if alloc_size res <? length then
    mkRes (res_pool res) (alloc_words (res_pool res) (length * 2)) (res_length res) (length * 2)
      (cyclic res) (si_ids res) (min_rr_length res)
      (if cyclic res then alloc_words (res_pool res) (length * 2) else uncommon_res_ids res) (bad_iis res)
  else res.

Lemma grown_ok res length : context_ok res -> 1 <= length ->
  context_ok (grown res length) /\ length <= alloc_size (grown res length).
Proof.
  intros [[Ha Hr] Hm Hc] Hl. unfold grown. destruct (Z.ltb_spec (alloc_size res) length); [|done].
  cbn [alloc_size]. split; [|lia]. split; cbn [alloc_size rrtab min_rr_length cyclic uncommon_res_ids si_ids].
  - rewrite zlen_alloc_words by lia. lia.
  - done.
  - intros Hcy. rewrite Hcy, zlen_alloc_words by lia. split; [done|]. by apply Hc.
Qed.

Lemma represents_start counts shifts uses (r : TI_RES_RES S) :
  generated tgt counts shifts -> table_ok r ->
  (forall j, 0 <= j < res_length r -> zlookup (rrtab r) j = Some (SI_RRW_initializer tgt)) ->
  represents tgt counts shifts uses r [].
Proof.
  intros Hgen Hok Hcells. split; [done|constructor|]. intros j Hj. rewrite Hcells by done. simpl.
  split; [|apply vzero_at_most, Hgen]. f_equal. destruct (generated_words tgt counts shifts Hgen) as (-> & _).
  unfold cell. rewrite vadd_comm, vadd_zero; [done|]. apply init_length.
Qed.

(** [TI_RES_RES_Set_BB_Cycle_Count] leaves a table of [length] cycles in
    which nothing is reserved, whatever the storage held before, and, for a
    loop, computes for each cycle the set of the resources that not every
    opcode of the loop uses in that cycle (all resources in the cycles that
    some requirement does not reach). *)
Theorem ti_set_cycle_count res length used
    (Hctx : context_ok res) (Hlen : 1 <= length < 2 ^ 30)
    (Hused : forall ids, cyclic res = true -> si_ids res = Some ids ->
       uses_ids ids length (Z.min (min_rr_length res) length) used) :
  yields (TI_RES_RES_Set_BB_Cycle_Count tgt res length) (fun r =>
    context_ok r /\ res_length r = length /\ cyclic r = cyclic res /\ si_ids r = si_ids res /\
    min_rr_length r = min_rr_length res /\ bad_iis r = bad_iis res /\ table_ok r /\
    (forall counts shifts uses, generated tgt counts shifts -> represents tgt counts shifts uses r []) /\
    (cyclic r = true -> uncommon_ok r used)).
Proof.
  destruct (grown_ok res length Hctx ltac:(lia)) as [[[Ha Hr] Hm Hc] Hg].
  unfold TI_RES_RES_Set_BB_Cycle_Count. fold (grown res length). cbv zeta.
  assert (cyclic (grown res length) = cyclic res /\ si_ids (grown res length) = si_ids res /\
    min_rr_length (grown res length) = min_rr_length res /\ bad_iis (grown res length) = bad_iis res) as (Ec & Es & Em & Eb).
  { unfold grown. by destruct (_ <? _). }
  rewrite <- Ec in Hused |- *. rewrite <- Es in Hused |- *. rewrite <- Em in Hused |- *. rewrite <- Eb.
  clear Ec Es Em Eb Hctx. set (g := grown res length) in *. cbn [rrtab with_length].
  eapply yields_bind; [apply fill_loop_ok; lia|]. intros t [Hz Ht]. cbn [cyclic with_rrtab with_length si_ids].
  assert (table_ok (with_rrtab (with_length g length) t)) as Hok by (split; cbn; lia).
  assert (forall j, 0 <= j < length -> zlookup t j = Some (SI_RRW_initializer tgt)) as Hcells.
  { intros j Hj. rewrite Ht. by replace ((0 <=? j) && (j <? length)) with true by lia. }
  destruct (cyclic g) eqn:Ecy.
  - destruct (Hc eq_refl) as (Hu & ids & Hids & Hset & Hrange). rewrite Hids. unfold of_option. rewrite obind_ok.
    eapply yields_bind.
    { apply (compute_uncommon_ok (with_rrtab (with_length g length) t) ids length used); cbn; try done; [lia|]. by apply Hused. }
    intros u [Hzu Hubits]. cbn in Hzu, Hubits. apply yields_ok.
    split; [split; cbn; [lia|done|]|]. { intros _. split; [lia|]. exists ids. done. }
    repeat (split; [done|]). split; [intros counts shifts uses Hgen; by apply represents_start|].
    intros _ ids' Hids' i Hi. cbn in *. assert (ids' = ids) as -> by congruence. by apply Hubits.
  - apply yields_ok. split; [split; cbn; [lia|done|congruence]|].
    repeat (split; [done|]). split; [intros counts shifts uses Hgen; by apply represents_start|]. cbn. congruence.
Qed.
End Setup.

Lemma sample_ids : to_set (mkBS 1 [3]) = {[0; 1]}.
Proof. apply (bool_decide_eq_true_1 (to_set (mkBS 1 [3]) = {[0; 1]})). by vm_compute. Qed.

Definition sample_used (id : Z) : list Z := if id =? 0 then [1; 2] else [3].

Lemma ti_set_cycle_count_witness :
  yields (TI_RES_RES_Set_BB_Cycle_Count sample_target sample_fresh 2) (fun r =>
    represents sample_target sample_counts sample_shifts sample_uses r [] /\ uncommon_ok sample_target r sample_used).
Proof.
  assert (context_ok sample_target sample_fresh) as Hctx.
  { split; [done|done|]. intros _. split; [done|]. exists (mkBS 1 [3]). split; [done|]. split.
    - split; [done|]. split; [apply Forall_singleton; by vm_compute|by vm_compute].
    - intros id Hid. change (id ∈ to_set (mkBS 1 [3])) in Hid. rewrite sample_ids in Hid. assert (id = 0 \/ id = 1) as [-> | ->] by set_solver; by vm_compute. }
  pose proof (ti_set_cycle_count sample_target ltac:(by vm_compute) sample_fresh 2 sample_used Hctx ltac:(lia)) as H.
  eapply yields_mono; [apply H|].
  - intros ids _ [= <-] id Hid. change (id ∈ to_set (mkBS 1 [3])) in Hid. rewrite sample_ids in Hid.
    assert (id = 0 \/ id = 1) as [-> | ->] by set_solver; by vm_compute.
  - intros r (_ & _ & Hc & _ & _ & _ & _ & Hrep & Hun). split; [apply Hrep, sample_generated|apply Hun, Hc].
Defined.
