(* ===== verification/TiTops.v ===== *)
(** The opcodes of a loop: [TI_RES_RES_Has_TOP] and the impossible IIs. *)
From Stdlib Require Import ZArith Lia Bool.
From stdpp Require Import prelude list gmap.
From S2P Require Import Prelude BitSet BitSetFacts BitSetOps BitSetEnum IdSet SiGen TiSi TiResRes TiSample TiResResProps TiUsage TiCycles.

(** * Sets of IIs *)
Lemma land_bit x k : 0 <= k -> negb (Z.land x (Z.shiftl 1 k) =? 0) = Z.testbit x k.
Proof.
  intros Hk. rewrite Z.shiftl_1_l. destruct (Z.testbit x k) eqn:E.
  - apply negb_true_iff, Z.eqb_neq. intros H0. assert (Z.testbit (Z.land x (2 ^ k)) k = true) as Ht
      by (rewrite Z.land_spec, E, Z.pow2_bits_true by lia; done). by rewrite H0, Z.testbit_0_l in Ht.
  - apply negb_false_iff, Z.eqb_eq, Z.bits_inj'. intros i Hi. rewrite Z.land_spec, Z.testbit_0_l, Z.pow2_bits_eqb by lia.
    destruct (Z.eqb_spec k i) as [<-|]; [by rewrite E|by rewrite andb_false_r].
Qed.

(** IIs are numbered from 1. *)
Definition bad_ii_bit (s : SI_BAD_II_SET) (ii : Z) : bool :=
  Z.testbit (if ii <=? 64 then fst s else snd s) ((ii - 1) mod 64).

Lemma bad_member s ii :
  1 <= ii < 2 ^ 32 -> SI_BAD_II_SET_MemberP s ii = (ii <=? 128) && bad_ii_bit s ii.
Proof.
  intros Hii. unfold SI_BAD_II_SET_MemberP, SI_BAD_II_SET_MAX. rewrite uwrap_id by (split; lia).
  destruct (Z.ltb_spec 127 (ii - 1)); [by replace (ii <=? 128) with false by lia|].
  replace (ii <=? 128) with true by lia. pose proof (Z.mod_pos_bound (ii - 1) 64 ltac:(lia)).
  rewrite land_bit by lia. unfold bad_ii_bit. cbn [andb]. f_equal.
  destruct (Z.leb_spec ii 64).
  - by rewrite Z.div_small by lia.
  - destruct (Z.eqb_spec ((ii - 1) / 64) 0) as [Hz|]; [|done]. exfalso.
    pose proof (Z_div_mod_eq_full (ii - 1) 64). lia.
Qed.

Lemma bad_union s1 s2 ii :
  1 <= ii < 2 ^ 32 ->
  SI_BAD_II_SET_MemberP (SI_BAD_II_SET_Union s1 s2) ii = SI_BAD_II_SET_MemberP s1 ii || SI_BAD_II_SET_MemberP s2 ii.
Proof.
  intros Hii. rewrite !bad_member by done. destruct (ii <=? 128); [|done]. cbn [andb].
  unfold bad_ii_bit, SI_BAD_II_SET_Union. cbn [fst snd]. destruct (ii <=? 64); apply Z.lor_spec.
Qed.

Section Tops.
Context (tgt : target) {S : Type} `{IdSetLaws S}.

(** The opcodes of the target, their scheduling groups and the lengths of their
    requirements. *)
Context (info : Z -> SI) (rr_len : Z -> Z).

Record known (op : Z) : Prop := {
  known_info : TSI_info tgt op = Ok (info op);
  known_length : SI_RR_Length (si_rr (info op)) = Ok (rr_len op);
  known_pos : 0 <= rr_len op < UINT_MAX;
  known_id : 0 <= si_id (info op) < SI_ID_Count tgt
}.

(** Opcodes with the same id share their scheduling information. *)
Definition grouped : Prop := forall o1 o2, known o1 -> known o2 -> si_id (info o1) = si_id (info o2) -> info o1 = info o2.

Fixpoint has_tops (res : TI_RES_RES S) (ops : list Z) : outcome (TI_RES_RES S) :=
  match ops with
  | [] => Ok res
  | op :: ops => let* res := TI_RES_RES_Has_TOP tgt res op in has_tops res ops
  end.

(** What the context knows about the opcodes. *)
Record summary (ops : list Z) (res : TI_RES_RES S) : Prop := {
  sum_pool : usable (res_pool res);
  sum_ids : exists ids, si_ids res = Some ids /\ set_ok ids /\ set_elems ids = list_to_set ((fun op => si_id (info op)) <$> ops);
  sum_bad : forall ii, 1 <= ii < 2 ^ 32 ->
    TI_RES_RES_Is_Bad_II res ii = existsb (fun op => SI_BAD_II_SET_MemberP (si_bad_iis (info op)) ii) ops;
  sum_min : min_rr_length res = foldr Z.min UINT_MAX (rr_len <$> ops)
}.

Lemma min_le ops op : op ∈ ops -> foldr Z.min UINT_MAX (rr_len <$> ops) <= rr_len op.
Proof.
  induction ops as [|o ops IH]; intros Hin; [by apply not_elem_of_nil in Hin|]. rewrite fmap_cons. cbn [foldr].
  apply elem_of_cons in Hin as [->|Hin]; [lia|]. specialize (IH Hin). lia.
Qed.

Lemma min_reached ops : Forall known ops -> ops <> [] -> exists op, op ∈ ops /\ foldr Z.min UINT_MAX (rr_len <$> ops) = rr_len op.
Proof.
  induction 1 as [|o ops Ho _ IH]; intros Hne; [done|]. rewrite fmap_cons. cbn [foldr]. destruct (decide (ops = [])) as [->|Hne'].
  - exists o. split; [apply list_elem_of_here|]. destruct Ho as [_ _ Hp _]. cbn. lia.
  - destruct (IH Hne') as (op & Hin & Heq). destruct (Z.le_gt_cases (rr_len o) (rr_len op)).
    + exists o. split; [apply list_elem_of_here|]. lia.
    + exists op. split; [by apply list_elem_of_further|]. lia.
Qed.

Lemma rev_elem (ops : list Z) op : op ∈ rev ops <-> op ∈ ops.
Proof. rewrite !list_elem_of_In. symmetry. apply in_rev. Qed.

Lemma existsb_in (f : Z -> bool) ops op : op ∈ ops -> f op = true -> existsb f ops = true.
Proof. intros Hin Hf. apply existsb_exists. exists op. split; [by apply list_elem_of_In|done]. Qed.

Lemma has_top_ok ops res op :
  grouped -> SI_ID_Count tgt <= BS_LIMIT -> Forall known ops -> known op -> summary ops res ->
  yields (TI_RES_RES_Has_TOP tgt res op) (summary (op :: ops)).
Proof.
  intros Hgr Hlim Hops Hop [Hp (ids & Hids & Hset & Hel) Hbad Hmin].
  destruct (Hop) as [Hinfo Hlen Hpos Hid]. unfold TI_RES_RES_Has_TOP, TSI_Id, TSI_Bad_IIs, TSI_Resource_Requirement.
  rewrite Hids. unfold of_option. rewrite Hinfo, !obind_ok. rewrite set_member_law, obind_ok by (done || lia).
  case_bool_decide as Hin; cbn [negb].
  - apply yields_ok. rewrite Hel in Hin. apply elem_of_list_to_set, list_elem_of_fmap in Hin as (op' & Heq & Hin).
    assert (known op') as Hop' by (by eapply Forall_forall in Hops). pose proof (Hgr op op' Hop Hop' Heq) as Hsame.
    assert (rr_len op = rr_len op') as Hl by (destruct Hop' as [_ Hl' _ _]; rewrite <- Hsame in Hl'; congruence).
    split; [done| | |].
    + exists ids. split; [done|]. split; [done|]. rewrite Hel. simpl. apply set_eq. intros x.
      rewrite elem_of_union, elem_of_singleton, !elem_of_list_to_set. split; [tauto|]. intros [->|]; [|done].
      rewrite Heq. apply list_elem_of_fmap. eauto.
    + intros ii Hii. rewrite Hbad by done. simpl. destruct (SI_BAD_II_SET_MemberP (si_bad_iis (info op)) ii) eqn:Eb; [|done].
      apply (existsb_in _ ops op' Hin). by rewrite <- Hsame.
    + rewrite Hmin, fmap_cons. cbn [foldr]. pose proof (min_le ops op' Hin). lia.
  - eapply yields_bind; [apply set_union1_law; done || lia|]. intros ids' [Hset' Hel'].
    rewrite !obind_ok, Hlen, obind_ok. apply yields_ok. split; [done| | |].
    + exists ids'. split; [done|]. split; [done|]. rewrite Hel', Hel. done.
    + intros ii Hii. unfold TI_RES_RES_Is_Bad_II in *. cbn [bad_iis]. rewrite bad_union, Hbad by done. simpl. apply orb_comm.
    + cbn [min_rr_length]. rewrite Hmin, fmap_cons. cbn [foldr]. destruct (Z.ltb_spec (rr_len op) (foldr Z.min UINT_MAX (rr_len <$> ops))); lia.
Qed.

Lemma has_tops_ok done_ ops res :
  grouped -> SI_ID_Count tgt <= BS_LIMIT -> Forall known done_ -> Forall known ops -> summary done_ res ->
  yields (has_tops res ops) (summary (rev ops ++ done_)).
Proof.
  intros Hgr Hlim Hd Hops. revert done_ res Hd. induction Hops as [|op ops Hop _ IH]; intros done_ res Hd Hs; [done|].
  cbn [has_tops]. eapply yields_bind; [by apply has_top_ok|]. intros res' Hs'.
  eapply yields_mono; [by apply (IH (op :: done_)); [constructor|]|]. intros r. simpl. by rewrite <- app_assoc.
Qed.

(** After a loop context is allocated and [TI_RES_RES_Has_TOP] is called for
    the opcodes of the loop, in any order and with repetitions,
    [TI_RES_RES_Is_Bad_II] answers whether some opcode cannot be scheduled in
    that II, the id set holds the ids of the opcodes, and [min_rr_length] is the
    length of the shortest requirement. *)
Theorem ti_has_tops pool ops
    (Hgr : grouped) (Hlim : 0 <= SI_ID_Count tgt <= BS_LIMIT) (Hpool : usable pool) (Hops : Forall known ops) :
  yields (let* res := TI_RES_RES_Alloc tgt true pool in has_tops res ops) (fun r =>
    (forall ii, 1 <= ii < 2 ^ 32 ->
       TI_RES_RES_Is_Bad_II r ii = true <-> exists op, op ∈ ops /\ SI_BAD_II_SET_MemberP (si_bad_iis (info op)) ii = true) /\
    (forall op, op ∈ ops -> min_rr_length r <= rr_len op) /\
    (ops <> [] -> exists op, op ∈ ops /\ min_rr_length r = rr_len op) /\
    exists ids, si_ids r = Some ids /\ set_ok ids /\
      forall id, id ∈ set_elems ids <-> exists op, op ∈ ops /\ id = si_id (info op)).
Proof.
  unfold TI_RES_RES_Alloc. pose proof (set_create_law (SI_ID_Count tgt) pool Hpool Hlim) as Hc.
  apply yields_exists in Hc as (s & -> & Hs & He). rewrite !obind_ok.
  eapply yields_mono.
  { apply (has_tops_ok [] ops); try done; [lia|]. split; [done| | |done].
    - exists s. done.
    - intros ii Hii. unfold TI_RES_RES_Is_Bad_II. cbn [bad_iis]. rewrite bad_member by done.
      unfold bad_ii_bit, SI_BAD_II_SET_Empty. cbn [fst snd existsb].
      destruct (ii <=? 64); by rewrite Z.testbit_0_l, andb_false_r. }
  intros r [_ (ids & Hids & Hset & Hel) Hbad Hmin]. rewrite app_nil_r in *. split; [|split; [|split]].
  - intros ii Hii. rewrite Hbad, existsb_exists by done.
    split; intros (op & Hin & Hb); exists op; (split; [|done]).
    + by apply rev_elem, list_elem_of_In.
    + by apply list_elem_of_In, rev_elem.
  - intros op Hop. rewrite Hmin. apply min_le. by apply rev_elem.
  - intros Hne. rewrite Hmin. destruct (min_reached (rev ops)) as (op & Hin & Heq).
    + apply Forall_forall. intros op Hin. rewrite Forall_forall in Hops. by apply Hops, (rev_elem ops).
    + intros Hr. apply Hne. rewrite <- (rev_involutive ops), Hr. done.
    + exists op. split; [by apply rev_elem|done].
  - exists ids. split; [done|]. split; [done|]. intros id. rewrite Hel, elem_of_list_to_set, list_elem_of_fmap.
    split.
    + intros (op & -> & Hin). exists op. split; [by apply rev_elem|done].
    + intros (op & Hin & ->). exists op. split; [done|by apply rev_elem].
Qed.
End Tops.

Definition sample_len (op : Z) : Z := if op =? 0 then 2 else if op =? 1 then 1 else 3.

Lemma sample_known op : 0 <= op <= 2 -> known sample_target sample_info sample_len op.
Proof. intros Hop. assert (op = 0 \/ op = 1 \/ op = 2) as [-> | [-> | ->]] by lia; split; by vm_compute. Qed.

Lemma sample_grouped : grouped sample_target sample_info sample_len.
Proof.
  assert (forall o, known sample_target sample_info sample_len o -> o = 0 \/ o = 1 \/ o = 2) as Hcase.
  { intros o [Ho _ _ _]. unfold TSI_info in Ho. apply rd_inv, zlookup_lt in Ho.
    change (zlen (SI_top_si sample_target)) with 3 in Ho. lia. }
  intros o1 o2 H1%Hcase H2%Hcase. destruct H1 as [-> | [-> | ->]], H2 as [-> | [-> | ->]]; done.
Qed.

Lemma ti_has_tops_witness :
  yields (let* res := TI_RES_RES_Alloc sample_target true sample_mem in has_tops sample_target res [0; 1; 0]) (fun r =>
    TI_RES_RES_Is_Bad_II r 2 = true).
Proof.
  eapply yields_mono; [apply (ti_has_tops sample_target sample_info sample_len sample_mem [0; 1; 0] sample_grouped);
    [by vm_compute|done|]|].
  - repeat (apply Forall_cons_2; [apply sample_known; lia|]). apply Forall_nil_2.
  - intros r [Hbad _]. apply Hbad; [lia|]. exists 1. split; [set_solver|by vm_compute].
Defined.
