(* ===== verification/TiQueries.v ===== *)
(** The questions that the software pipeliner asks: relevance, equivalence and
    graininess of resource requirements. *)
From Stdlib Require Import ZArith Lia Bool.
From stdpp Require Import prelude list gmap.
From S2P Require Import Prelude BitSet BitSetFacts BitSetOps IdSet SiGen TiSi TiResRes TiSample TiResResProps.

(** A loop that returns [v] as soon as its test holds. *)
Lemma search_test (v : bool) (test : Z -> bool) lo n (body : Z -> outcome (option bool)) :
  (forall i, lo <= i < n -> body i = Ok (if test i then Some v else None)) ->
  yields (search_ lo n body) (fun r =>
    (r = Some v /\ exists i, lo <= i < n /\ test i = true) \/ (r = None /\ forall i, lo <= i < n -> test i = false)).
Proof.
  intros Hb. eapply yields_mono.
  - apply (yields_search (fun i => test i = false) (fun i w => w = v /\ test i = true)).
    intros i Hi. rewrite Hb by done. simpl. by destruct (test i).
  - intros [w|]; [|by right]. intros (i & Hi & [-> Ht] & _). left. eauto.
Qed.

(** A loop whose body fails at [k]. *)
Lemma search_overrun {R} k n (body : Z -> outcome (option R)) f :
  0 <= k < n -> (forall i, 0 <= i < k -> body i = Ok None) -> body k = Err f -> search_ 0 n body = Err f.
Proof.
  intros Hk Hb Hf. unfold search_. rewrite Z.sub_0_r.
  assert (forall m j, 0 <= j <= k -> k < j + Z.of_nat m -> search_nat m j body = Err f) as Hgo.
  { induction m as [|m IH]; intros j Hj Hm; [lia|]. cbn [search_nat].
    destruct (decide (j = k)) as [->|]; [by rewrite Hf|]. rewrite Hb by lia. rewrite obind_ok. apply IH; lia. }
  apply Hgo; lia.
Qed.

Section Queries.
Context (tgt : target) {S : Type} `{IdSet S} (res : TI_RES_RES S).
Abbreviation len := (res_length res).

(** Opcode [op] at this II: the words of its requirement and the resources it
    uses, one of each for a cycle. *)
Record at_ii (op : Z) (a : SI_RR_array) (ws used : list Z) : Prop := {
  ii_rr : TSI_II_Resource_Requirement tgt op len = Ok (Some a);
  ii_words : rr_words a = zlen ws :: ws;
  ii_used : TSI_II_Cycle_Resource_Ids_Used tgt op len = Ok (Some used);
  ii_same : zlen used = zlen ws;
  ii_len : zlen ws <= len
}.

Definition cyc (l : list Z) (i : Z) : Z := default 0 (zlookup l i).

Lemma rd_cyc l i : 0 <= i < zlen l -> rd l i = Ok (cyc l i).
Proof. intros Hi. destruct (zlookup_is_Some l i Hi) as [x Hx]. unfold cyc. rewrite Hx. by apply rd_ok. Qed.

Lemma ptr_cyc l i : 0 <= i < zlen l -> ptr_rd (Some l) i = Ok (cyc l i).
Proof. intros Hi. unfold ptr_rd, of_option. rewrite obind_ok. by apply rd_cyc. Qed.

(** In cycle [i1] of the first and [i2] of the second requirement there is a
    resource that both use and that counts in both cycles. *)
Definition meet (used1 used2 : list Z) (i1 i2 : Z) : bool :=
  SI_RESOURCE_ID_SET_Intersection4_Non_Empty (cyc used1 i1) (cyc (uncommon_res_ids res) i1)
    (cyc used2 i2) (cyc (uncommon_res_ids res) i2).

Lemma relevant_body used1 used2 i1 i2 :
  0 <= i1 < zlen used1 -> 0 <= i2 < zlen used2 -> i1 < zlen (uncommon_res_ids res) -> i2 < zlen (uncommon_res_ids res) ->
  (let* a := ptr_rd (Some used1) i1 in let* b := rd (uncommon_res_ids res) i1 in
   let* c := ptr_rd (Some used2) i2 in let* d := rd (uncommon_res_ids res) i2 in
   if SI_RESOURCE_ID_SET_Intersection4_Non_Empty a b c d then Ok (Some true) else Ok None) =
  Ok (if meet used1 used2 i1 i2 then Some true else None).
Proof.
  intros H1 H2 H3 H4. rewrite ptr_cyc, obind_ok, rd_cyc, obind_ok, ptr_cyc, obind_ok, rd_cyc, obind_ok by lia.
  unfold meet. by destruct (SI_RESOURCE_ID_SET_Intersection4_Non_Empty _ _ _ _).
Qed.

(** [TI_RES_RES_Resources_Relevant]: in a loop, the requirements of two
    opcodes issued [offset] cycles apart are relevant to each other exactly
    when some cycle of the second falls, modulo the II, on a cycle of the first
    in which both use a resource that is not common to all opcodes. *)
Theorem ti_relevant op1 a1 ws1 used1 op2 a2 ws2 used2 offset
    (Hcyc : cyclic res = true) (Hlen : 1 <= len < 2 ^ 31) (Hu : len <= zlen (uncommon_res_ids res))
    (H1 : at_ii op1 a1 ws1 used1) (H2 : at_ii op2 a2 ws2 used2) :
  yields (TI_RES_RES_Resources_Relevant tgt res op1 op2 offset) (fun b => b = true <->
    exists i, 0 <= i < zlen ws2 /\ (i + offset) mod len < zlen ws1 /\ meet used1 used2 ((i + offset) mod len) i = true).
Proof.
  destruct H1 as [R1 W1 U1 S1 L1], H2 as [R2 W2 U2 S2 L2]. pose proof (zlen_nonneg ws1). pose proof (zlen_nonneg ws2).
  unfold TI_RES_RES_Resources_Relevant. rewrite U1, obind_ok, U2, obind_ok, R1, obind_ok.
  rewrite (rr_length_ok a1 ws1), obind_ok by (done || lia). cbv zeta. rewrite R2, obind_ok.
  rewrite (rr_length_ok a2 ws2), obind_ok by (done || lia). rewrite Cycle_Mod_II_ok, obind_ok by lia.
  rewrite !swrap_id by (unfold in_s; lia). rewrite assert_true, obind_ok by done.
  pose proof (Z.mod_pos_bound offset len ltac:(lia)) as Ho. set (om := offset mod len) in *.
  assert (forall i, 0 <= i < len -> (i + offset) mod len = if i + om <? len then i + om else i + om - len) as Hmod.
  { intros i Hi. rewrite <- Zplus_mod_idemp_r. fold om. destruct (Z.ltb_spec (i + om) len); [by rewrite Z.mod_small by lia|].
    replace (i + om) with (i + om - len + 1 * len) at 1 by lia. by rewrite Z.mod_add, Z.mod_small by lia. }
  set (n1 := if zlen ws2 <? zlen ws1 - om then zlen ws2 else zlen ws1 - om).
  assert (n1 = Z.min (zlen ws2) (zlen ws1 - om)) as Hn1 by (unfold n1; destruct (Z.ltb_spec (zlen ws2) (zlen ws1 - om)); lia).
  eapply yields_bind.
  { apply (search_test true (fun i => meet used1 used2 (i + om) i)). intros i Hi. apply relevant_body; lia. }
  intros r [[-> (i & Hi & Hm)]|[-> Hno1]].
  { split; [|done]. intros _. exists i. rewrite Hmod by lia. replace (i + om <? len) with true by lia. split; [lia|]. split; [lia|done]. }
  destruct (Z.ltb_spec 0 len); [|lia].
  set (n2 := if zlen ws1 <? zlen ws2 + om - len then zlen ws1 else zlen ws2 + om - len).
  assert (n2 = Z.min (zlen ws1) (zlen ws2 + om - len)) as Hn2
    by (unfold n2; destruct (Z.ltb_spec (zlen ws1) (zlen ws2 + om - len)); lia).
  eapply yields_bind.
  { apply (search_test true (fun i => meet used1 used2 i (i + len - om))). intros i Hi. apply relevant_body; lia. }
  intros r [[-> (i & Hi & Hm)]|[-> Hno2]].
  { split; [|done]. intros _. exists (i + len - om). rewrite Hmod by lia. replace (i + len - om + om <? len) with false by lia.
    replace (i + len - om + om - len) with i by lia. split; [lia|]. split; [lia|done]. }
  split; [done|]. intros (i & Hi & Hlt & Hm). exfalso. rewrite Hmod in Hlt, Hm by lia.
  destruct (Z.ltb_spec (i + om) len).
  - rewrite Hno1 in Hm; [done|lia].
  - specialize (Hno2 (i + om - len) ltac:(lia)). replace (i + om - len + len - om) with i in Hno2 by lia. congruence.
Qed.

Lemma equal_words (ws1 ws2 : list Z) :
  zlen ws1 = zlen ws2 -> ws1 = ws2 <-> forall i, 0 <= i < zlen ws1 -> cyc ws1 i = cyc ws2 i.
Proof.
  intros Hz. split; [by intros ->|]. intros Hall. apply zlist_eq; [done|]. intros i Hi. specialize (Hall i Hi). unfold cyc in Hall.
  destruct (zlookup_is_Some ws1 i Hi) as [x Hx]. destruct (zlookup_is_Some ws2 i ltac:(lia)) as [y Hy].
  rewrite Hx, Hy in *. simpl in Hall. by subst.
Qed.

Lemma equivalent_ok op1 a1 ws1 used1 op2 a2 ws2 used2 :
  1 <= len < 2 ^ 31 -> at_ii op1 a1 ws1 used1 -> at_ii op2 a2 ws2 used2 ->
  (rr_address a1 = rr_address a2 -> rr_words a1 = rr_words a2) ->
  yields (TI_RES_RES_Resources_Equivalent tgt res op1 op2) (fun b => b = true <-> ws1 = ws2).
Proof.
  intros Hlen [R1 W1 U1 S1 L1] [R2 W2 U2 S2 L2] Haddr. unfold TI_RES_RES_Resources_Equivalent.
  rewrite R1, obind_ok, R2, obind_ok. cbn [SI_RR_eq]. destruct (Z.eqb_spec (rr_address a1) (rr_address a2)) as [He|_].
  { apply yields_ok. split; [|done]. intros _. specialize (Haddr He). rewrite W1, W2 in Haddr. congruence. }
  rewrite (rr_length_ok a1 ws1), obind_ok, (rr_length_ok a2 ws2), obind_ok by (done || lia).
  destruct (Z.eqb_spec (zlen ws1) (zlen ws2)) as [Hz|Hne]; cbn [negb]; [|apply yields_ok; split; congruence].
  eapply yields_bind.
  { apply (search_test false (fun i => negb (cyc ws1 i =? cyc ws2 i))). intros i Hi.
    rewrite (rr_word_ok a1 ws1), obind_ok, (rr_word_ok a2 ws2), obind_ok by (done || lia).
    change (default 0 (zlookup ws1 i)) with (cyc ws1 i). change (default 0 (zlookup ws2 i)) with (cyc ws2 i).
    by destruct (cyc ws1 i =? cyc ws2 i). }
  intros r [[-> (i & Hi & Ht)]|[-> Hno]]; apply yields_ok; rewrite (equal_words _ _ Hz).
  - split; [done|]. intros Hall. rewrite Hall in Ht by lia. lia.
  - split; [|done]. intros _ i Hi. specialize (Hno i Hi). lia.
Qed.

(** [op] uses, in one of the first [n] cycles, a resource that is not common. *)
Definition grainy_in (used : list Z) (n : Z) : Prop :=
  exists i, 0 <= i < n /\ SI_RESOURCE_ID_SET_Intersection_Non_Empty (cyc used i) (cyc (uncommon_res_ids res) i) = true.

Lemma grainy_body used i :
  0 <= i < zlen used -> i < zlen (uncommon_res_ids res) ->
  (let* a := ptr_rd (Some used) i in let* b := rd (uncommon_res_ids res) i in
   if SI_RESOURCE_ID_SET_Intersection_Non_Empty a b then Ok (Some true) else Ok None) =
  Ok (if SI_RESOURCE_ID_SET_Intersection_Non_Empty (cyc used i) (cyc (uncommon_res_ids res) i) then Some true else None).
Proof.
  intros H1 H2. rewrite ptr_cyc, obind_ok, rd_cyc, obind_ok by lia.
  by destruct (SI_RESOURCE_ID_SET_Intersection_Non_Empty _ _).
Qed.

(** [TI_RES_RES_Resources_Equivalent] answers whether two opcodes have the
    same requirement; [TI_RES_RES_Resources_Grainy], for an opcode whose
    requirement at this II is not shorter than [min_rr_length], answers whether the opcode has cycles beyond
    the shortest requirement or uses an uncommon resource in some cycle. *)
Theorem ti_equivalent_grainy op1 a1 ws1 used1 op2 a2 ws2 used2
    (Hlen : 1 <= len < 2 ^ 31) (Hu : len <= zlen (uncommon_res_ids res))
    (H1 : at_ii op1 a1 ws1 used1) (H2 : at_ii op2 a2 ws2 used2)
    (Haddr : rr_address a1 = rr_address a2 -> rr_words a1 = rr_words a2)
    (Hmin : 0 <= min_rr_length res <= zlen ws1) :
  yields (TI_RES_RES_Resources_Equivalent tgt res op1 op2) (fun b => b = true <-> ws1 = ws2) /\
  yields (TI_RES_RES_Resources_Grainy tgt res op1) (fun b => b = true <->
    min_rr_length res < zlen ws1 \/ grainy_in used1 (min_rr_length res)).
Proof.
  split; [by eapply equivalent_ok|]. destruct H1 as [R1 W1 U1 S1 L1]. unfold TI_RES_RES_Resources_Grainy.
  rewrite U1, obind_ok, R1, obind_ok. rewrite (rr_length_ok a1 ws1), obind_ok by (done || lia).
  destruct (Z.ltb_spec (min_rr_length res) (zlen ws1)); [apply yields_ok; tauto|].
  eapply yields_bind.
  { apply (search_test true (fun i => SI_RESOURCE_ID_SET_Intersection_Non_Empty (cyc used1 i) (cyc (uncommon_res_ids res) i))).
    intros i Hi. apply grainy_body; lia. }
  intros r [[-> Hex]|[-> Hno]]; apply yields_ok; [tauto|]. split; [done|].
  intros [?|(i & Hi & Ht)]; [lia|]. by rewrite Hno in Ht.
Qed.

(** The defect of [TI_RES_RES_Resources_Grainy]: it runs over
    [min_rr_length] cycles, which is computed from the requirements before they
    are wrapped around the II.  When the II is shorter, and nothing is found
    within the wrapped requirement, the loop reads past the end of the table of
    resource sets. *)
Theorem ti_grainy_overrun op a ws used
    (Hlen : 1 <= len < 2 ^ 31) (Hu : len <= zlen (uncommon_res_ids res)) (H1 : at_ii op a ws used)
    (Hmin : zlen ws < min_rr_length res)
    (Hno : forall i, 0 <= i < zlen ws ->
       SI_RESOURCE_ID_SET_Intersection_Non_Empty (cyc used i) (cyc (uncommon_res_ids res) i) = false) :
  TI_RES_RES_Resources_Grainy tgt res op = Err Bounds.
Proof.
  destruct H1 as [R1 W1 U1 S1 L1]. unfold TI_RES_RES_Resources_Grainy. pose proof (zlen_nonneg ws).
  rewrite U1, obind_ok, R1, obind_ok. rewrite (rr_length_ok a ws), obind_ok by (done || lia).
  destruct (Z.ltb_spec (min_rr_length res) (zlen ws)); [lia|].
  rewrite (search_overrun (zlen ws) _ _ Bounds); [done|lia| |].
  - intros i Hi. rewrite grainy_body by lia. by rewrite Hno.
  - unfold ptr_rd, of_option. rewrite obind_ok, rd_bounds by lia. done.
Qed.
End Queries.

Lemma sample_at_ii :
  at_ii sample_target sample_loop 0 (mkRR 100 [2; 1; 8]) [1; 8] [1; 2] /\
  at_ii sample_target sample_loop 1 (mkRR 102 [1; 9]) [9] [3] /\
  at_ii sample_target sample_loop2 2 (mkRR 104 [2; 2; 1]) [2; 1] [1; 1].
Proof. repeat split; by vm_compute. Qed.

Lemma ti_relevant_witness :
  yields (TI_RES_RES_Resources_Relevant sample_target sample_loop 0 1 1) (fun b => b = true <->
    exists i, 0 <= i < 1 /\ (i + 1) mod 2 < 2 /\ meet sample_loop [1; 2] [3] ((i + 1) mod 2) i = true) /\
  TI_RES_RES_Resources_Relevant sample_target sample_loop 0 1 1 = Ok true.
Proof.
  split; [|by vm_compute]. destruct sample_at_ii as (H0 & H1 & _).
  refine (ti_relevant sample_target sample_loop 0 (mkRR 100 [2; 1; 8]) [1; 8] [1; 2] 1 (mkRR 102 [1; 9]) [9] [3] 1 eq_refl _ _ H0 H1);
    by vm_compute.
Defined.

Lemma ti_equivalent_grainy_witness :
  yields (TI_RES_RES_Resources_Equivalent sample_target sample_loop 0 1) (fun b => b = true <-> [1; 8] = [9]) /\
  TI_RES_RES_Resources_Grainy sample_target sample_loop 0 = Ok true.
Proof.
  split; [|by vm_compute]. destruct sample_at_ii as (H0 & H1 & _).
  refine (proj1 (ti_equivalent_grainy sample_target sample_loop 0 (mkRR 100 [2; 1; 8]) [1; 8] [1; 2]
    1 (mkRR 102 [1; 9]) [9] [3] _ _ H0 H1 _ _)); by vm_compute.
Defined.

Lemma ti_grainy_overrun_witness : TI_RES_RES_Resources_Grainy sample_target sample_loop2 2 = Err Bounds.
Proof.
  destruct sample_at_ii as (_ & _ & H2).
  apply (ti_grainy_overrun sample_target sample_loop2 2 (mkRR 104 [2; 2; 1]) [2; 1] [1; 1]); [by vm_compute|by vm_compute|exact H2|by vm_compute|].
  intros i Hi. change (zlen [2; 1]) with 2 in Hi. assert (i = 0 \/ i = 1) as [-> | ->] by lia; by vm_compute.
Defined.
