(* ===== verification/MemHeap.v ===== *)
(** Memory as C code with raw pointers sees it, for the model of the memory pools:
    scalars at their addresses, the regions that [malloc] has handed out, and the
    functions of the C library on them.

    A cell is a scalar at an address or the size of a region at its address.  An
    access to an address without a cell fails with [Bounds].  [malloc] and
    [realloc] are not code of the repository: where they put a region, whether they find
    room, and what a fresh region contains are parameters of the model ([Allocator]), and
    [AllocatorLaws] is what the C standard promises. *)
From Stdlib Require Import ZArith Lia Bool.
From stdpp Require Import prelude gmap list.
From S2P Require Import Prelude.

Definition cell : Type := Z + Z.
Abbreviation Word := (inl : Z -> cell) (only parsing).
Abbreviation Region := (inr : Z -> cell) (only parsing).
Abbreviation cells := (@gmap cell (@sum_eq_dec Z Z.eq_dec Z Z.eq_dec) (@sum_countable Z Z.eq_dec Z_countable Z Z.eq_dec Z_countable) Z).

(** A computation reads and changes the cells. *)
Definition mem (A : Type) : Type := cells -> outcome (A * cells).

Definition ret {A} (a : A) : mem A := fun m => Ok (a, m).
Definition bind {A B} (c : mem A) (k : A -> mem B) : mem B :=
  fun m => let* '(a, m) := c m in k a m.
Definition fail {A} (f : failure) : mem A := fun _ => Err f.

Declare Scope mem_scope.
Delimit Scope mem_scope with mem.
Notation "'do*' x ':=' c 'in' k" := (bind c (fun x => k))
  (at level 10, x name, c at level 100, k at level 200) : mem_scope.
Notation "'run*' c 'in' k" := (bind c (fun _ => k))
  (at level 10, c at level 100, k at level 200) : mem_scope.
#[global] Open Scope mem_scope.

(** * Loads and stores *)
Definition load (a : Z) : mem Z :=
  fun m => match m !! Word a with Some v => Ok (v, m) | None => Err Bounds end.
Definition store (a v : Z) : mem unit :=
  fun m => match m !! Word a with Some _ => Ok (tt, <[Word a := v]> m) | None => Err Bounds end.

(** The 8-byte words of a region: [bzero] and [bcopy] of whole words. *)
Fixpoint load_words (a : Z) (n : nat) : mem (list Z) :=
  match n with
  | O => ret []
  | S n => do* w := load a in do* ws := load_words (a + 8) n in ret (w :: ws)
  end.
Fixpoint store_words (a : Z) (ws : list Z) : mem unit :=
  match ws with
  | [] => ret tt
  | w :: ws => run* store a w in store_words (a + 8) ws
  end.
Fixpoint zero_words (a : Z) (n : nat) : mem unit :=
  match n with
  | O => ret tt
  | S n => run* store a 0 in zero_words (a + 8) n
  end.

Definition bzero (a n : Z) : mem unit := zero_words a (Z.to_nat (n / 8)).
Definition bcopy (src dst n : Z) : mem unit :=
  do* ws := load_words src (Z.to_nat (n / 8)) in store_words dst ws.

(** * Regions *)
Class Allocator := {
  place : cells -> Z -> option Z;          (* where [malloc] puts a region *)
  resize : cells -> Z -> Z -> option Z;    (* where [realloc] puts it *)
  junk : cells -> Z -> Z                   (* what fresh memory contains *)
}.

(** The words of [[a, a + n)]. *)
Definition in_words (a n : Z) (c : cell) : bool :=
  match c with inl x => (a <=? x) && (x <? a + n) && ((x - a) mod 8 =? 0) | inr _ => false end.
Definition released (m : cells) (a n : Z) : cells :=
  filter (fun kv => in_words a n kv.1 = false) (delete (Region a) m).
Fixpoint word_map (a : Z) (ws : list Z) : cells :=
  match ws with [] => ∅ | w :: ws => <[Word a := w]> (word_map (a + 8) ws) end.

(** The region [[a, a + n)] is aligned, lies in the address space and is free. *)
Record fits (m : cells) (a n : Z) : Prop := {
  fits_pos : 0 < a;
  fits_align : a mod 8 = 0;
  fits_end : a + n < 2 ^ 64;
  fits_region : m !! Region a = None;
  fits_words x : a <= x < a + n -> m !! Word x = None
}.

Class AllocatorLaws `{Allocator} : Prop := {
  place_fits m n a : 0 <= n -> place m n = Some a -> fits m a n;
  resize_fits m p old n a :
    m !! Region p = Some old -> 0 <= n -> resize m p n = Some a -> fits (released m p old) a n
}.

Definition words_of (n : Z) : nat := Z.to_nat (n / 8).
Definition fresh_words (f : Z -> Z) (a : Z) (n : nat) : list Z := (fun i => f (a + 8 * Z.of_nat i)) <$> seq 0 n.

Section library.
Context `{Allocator}.

(** [size] is a [size_t] *)
Definition malloc (size : Z) : mem Z := fun m =>
  match place m size with
  | None => Ok (0, m)
  | Some a => Ok (a, <[Region a := size]> (word_map a (fresh_words (junk m) a (words_of size)) ∪ m))
  end.

Definition free (p : Z) : mem unit := fun m =>
  if p =? 0 then Ok (tt, m) else
  match m !! Region p with
  | None => Err Bounds
  | Some n => Ok (tt, released m p n)
  end.

(** The words that fit are kept, also when the region moves; when there is no room
    the region stays as it is. *)
Definition realloc (p size : Z) : mem Z := fun m =>
  if p =? 0 then malloc size m else
  match m !! Region p with
  | None => Err Bounds
  | Some old =>
      match resize m p size with
      | None => Ok (0, m)
      | Some a =>
          let* '(kept, _) := load_words p (words_of (Z.min old size)) m in
          let more := fresh_words (junk m) (a + 8 * zlen kept) (words_of size - length kept) in
          Ok (a, <[Region a := size]> (word_map a (kept ++ more) ∪ released m p old))
      end
  end.
End library.

(** * The maps of words and regions *)
Lemma word_map_lookup_region a ws x : word_map a ws !! Region x = None.
Proof.
  revert a. induction ws as [|w ws IH]; intros a; cbn [word_map]; [done|].
  rewrite lookup_insert_ne; [apply IH|done].
Qed.

Lemma word_map_lookup_out a ws x : in_words a (8 * zlen ws) (Word x) = false -> word_map a ws !! Word x = None.
Proof.
  revert a. induction ws as [|w ws IH]; intros a Hx; cbn [word_map]; [done|].
  unfold in_words, zlen in *. cbn [length] in Hx.
  rewrite lookup_insert_ne.
  - apply IH. destruct (Z.leb_spec (a + 8) x), (Z.ltb_spec x (a + 8 + 8 * Z.of_nat (length ws)));
      cbn [andb]; try done. apply Z.eqb_neq. intros Hm. rewrite !andb_false_iff in Hx.
    destruct Hx as [[Hx|Hx]|Hx]; [apply Z.leb_gt in Hx; lia|apply Z.ltb_ge in Hx; lia|].
    apply Z.eqb_neq in Hx. apply Hx. replace (x - a) with (x - (a + 8) + 1 * 8) by lia. by rewrite Z.mod_add.
  - intros [= <-]. rewrite !andb_false_iff in Hx. rewrite Z.sub_diag in Hx.
    destruct Hx as [[Hx|Hx]|Hx]; [apply Z.leb_gt in Hx; lia|apply Z.ltb_ge in Hx; lia|done].
Qed.

Lemma word_map_in a ws c v : word_map a ws !! c = Some v -> in_words a (8 * zlen ws) c = true.
Proof.
  intros Hc. destruct (in_words a (8 * zlen ws) c) eqn:Hi; [done|].
  destruct c as [x|x]; [by rewrite word_map_lookup_out in Hc|by rewrite word_map_lookup_region in Hc].
Qed.

Lemma in_words_range a n x : in_words a n (Word x) = true -> a <= x < a + n.
Proof. unfold in_words. rewrite !andb_true_iff. lia. Qed.

Lemma word_map_fits m a n ws : fits m a n -> 8 * zlen ws <= n -> word_map a ws ##ₘ m.
Proof.
  intros Hf Hn. apply map_disjoint_spec. intros [x|x] v w Hv Hw; [|by rewrite word_map_lookup_region in Hv].
  apply word_map_in, in_words_range in Hv.
  rewrite (fits_words m a n) in Hw; [done|done|lia].
Qed.

(** Releasing a region that is described by [h] leaves the rest. *)
Lemma released_frame a ws f :
  <[Region a := 8 * zlen ws]> (word_map a ws) ##ₘ f ->
  released (<[Region a := 8 * zlen ws]> (word_map a ws) ∪ f) a (8 * zlen ws) = f.
Proof.
  intros Hd. apply map_disjoint_insert_l in Hd as [Hr Hd]. unfold released.
  rewrite <- insert_union_l, delete_insert_id by (rewrite lookup_union, word_map_lookup_region; by rewrite Hr).
  rewrite map_filter_union by done.
  replace (filter _ (word_map a ws)) with (∅ : cells).
  - rewrite (map_empty_union (M:=gmap cell)). apply map_filter_id. intros [x|x] v Hv; cbn [fst]; [|done].
    destruct (in_words a (8 * zlen ws) (Word x)) eqn:Hi; [|done].
    exfalso. revert Hi Hd Hv. clear Hr. revert a.
    induction ws as [|w ws IH]; intros a Hi Hd Hv; [apply in_words_range in Hi; unfold zlen in Hi; cbn in Hi; lia|].
    cbn [word_map] in Hd. apply map_disjoint_insert_l in Hd as [Ha Hd].
    destruct (decide (x = a)) as [->|Hne]; [congruence|]. apply (IH (a + 8)); [|done|done].
    revert Hi. unfold in_words, zlen. cbn [length]. rewrite !andb_true_iff, !Z.eqb_eq, !Z.leb_le, !Z.ltb_lt.
    intros [[H1 H2] H3].
    assert (Hm : (x - (a + 8)) mod 8 = 0)
      by (replace (x - (a + 8)) with (x - a + -1 * 8) by lia; by rewrite Z.mod_add).
    split; [|done]. apply Z.mod_divide in H3 as [k Hk]; [|done]. lia.
  - symmetry. apply map_empty_filter_2. intros c v Hv. cbn [fst].
    rewrite (word_map_in a ws c v) by done. done.
Qed.

Lemma fresh_words_length f a n : length (fresh_words f a n) = n.
Proof. unfold fresh_words. by rewrite length_fmap, length_seq. Qed.

Lemma load_words_take a n ws m :
  word_map a ws ⊆ m -> (n <= length ws)%nat -> load_words a n m = Ok (take n ws, m).
Proof.
  revert a ws. induction n as [|n IH]; intros a [|w ws] Hm Hn; cbn [length] in Hn; [done|done|lia|].
  cbn [load_words take word_map] in *. unfold bind, load.
  rewrite (lookup_weaken _ m (Word a) w) by (done || apply lookup_insert_eq). cbn [obind].
  rewrite (IH (a + 8) ws); [done| |lia].
  etrans; [|exact Hm]. apply insert_subseteq, word_map_lookup_out.
  unfold in_words. destruct (Z.leb_spec (a + 8) a); [lia|done].
Qed.
