(* ===== verification/MemLogic.v ===== *)
(** Separation logic for memory that is divided into cells: a cell is a word of
    eight bytes at an address, or the fact that [malloc] has handed out a region of
    some size.  Assertions describe cells exactly ([emp] is the empty memory), so
    that memory that is not given back shows.

    The weakest preconditions of computations on memory ([MemHeap]) have the frame built
    in: a computation may only run out of memory ([Fatal]); every other failure is
    excluded. *)
From Stdlib Require Import ZArith Lia Bool.
From stdpp Require Import prelude gmap list.
From iris.proofmode Require Import proofmode.
From S2P Require Import Prelude.
From S2P Require Import MemHeap.

Record hprop : Type := HProp { holds : cells -> Prop }.
#[global] Arguments holds : simpl never.
Bind Scope bi_scope with hprop.

(** * The connectives *)
Inductive hequiv' (P Q : hprop) : Prop := Hequiv { hequiv_holds : forall m, holds P m <-> holds Q m }.
#[local] Instance hequiv : Equiv hprop := hequiv'.
#[local] Instance hequiv_equivalence : Equivalence (≡@{hprop}).
Proof.
  split.
  - intros P. by split.
  - intros P Q [H]. split. intros m. by rw H.
  - intros P Q R [H1] [H2]. split. intros m. by rw H1.
Qed.
Canonical Structure hpropO := discreteO hprop.

Inductive hentails (P Q : hprop) : Prop := Hentails { hentails_holds : forall m, holds P m -> holds Q m }.

Definition hemp : hprop := HProp (fun m => m = ∅).
Definition hpure (φ : Prop) : hprop := HProp (fun _ => φ).
Definition hand (P Q : hprop) : hprop := HProp (fun m => holds P m /\ holds Q m).
Definition hor (P Q : hprop) : hprop := HProp (fun m => holds P m \/ holds Q m).
Definition himpl (P Q : hprop) : hprop := HProp (fun m => holds P m -> holds Q m).
Definition hforall {A} (Φ : A -> hprop) : hprop := HProp (fun m => forall a, holds (Φ a) m).
Definition hexist {A} (Φ : A -> hprop) : hprop := HProp (fun m => exists a, holds (Φ a) m).
Definition hsep (P Q : hprop) : hprop :=
  HProp (fun m => exists m1 m2, m = m1 ∪ m2 /\ m1 ##ₘ m2 /\ holds P m1 /\ holds Q m2).
Definition hwand (P Q : hprop) : hprop :=
  HProp (fun m => forall m', m ##ₘ m' -> holds P m' -> holds Q (m ∪ m')).
Definition hpersistently (P : hprop) : hprop := HProp (fun _ => holds P ∅).
Definition hlater (P : hprop) : hprop := P.

(** * The laws *)
(** A statement about the connectives as one about memories; the parameters stay folded. *)
Lemma holds_HProp (φ : cells -> Prop) m : holds (HProp φ) m = φ m.
Proof. done. Qed.

Ltac hsimpl := unfold hemp, hpure, hand, hor, himpl, hforall, hexist, hsep, hwand, hpersistently, hlater in *;
  repeat setoid_rewrite holds_HProp.
Ltac hintro := intros; apply Hentails; hsimpl; intros.

Lemma hprop_bi_mixin : BiMixin hentails hemp hpure hand hor himpl (@hforall) (@hexist) hsep hwand.
Proof.
  split.
  - split; [by intros P|]. intros P Q R [H1] [H2]. split. eauto.
  - intros P Q. split; [intros [H]; split; split; intros m; apply H|intros [[H1] [H2]]; split; intros m; split; auto].
  - intros n φ1 φ2 Hφ. by split.
  - intros n P P' [HP] Q Q' [HQ]. split. intros m. specialize (HP m). specialize (HQ m). hsimpl. tauto.
  - intros n P P' [HP] Q Q' [HQ]. split. intros m. specialize (HP m). specialize (HQ m). hsimpl. tauto.
  - intros n P P' [HP] Q Q' [HQ]. split. intros m. specialize (HP m). specialize (HQ m). hsimpl. tauto.
  - intros A n Φ Ψ H. split. intros m. hsimpl. split; intros Ha a; by apply (H a).
  - intros A n Φ Ψ H. split. intros m. hsimpl. split; intros [a Ha]; exists a; by apply (H a).
  - intros n P P' [HP] Q Q' [HQ]. split. intros m. hsimpl.
    split; intros (m1 & m2 & ? & ? & ? & ?); exists m1, m2; split_and!; try done; by (apply HP || apply HQ).
  - intros n P P' [HP] Q Q' [HQ]. split. intros m. hsimpl.
    split; intros Hw m' Hd Hm; apply HQ, Hw; [done|by apply HP|done|by apply HP].
  - by hintro.
  - hintro. destruct (H H0) as [He]. by apply He.
  - hintro. naive_solver.
  - hintro. naive_solver.
  - intros P Q R [H1] [H2]. split. intros m Hm. split; auto.
  - hintro. naive_solver.
  - hintro. naive_solver.
  - intros P Q R [H1] [H2]. split. intros m [?|?]; auto.
  - intros P Q R [H]. split. intros m HP HQ. by apply H.
  - intros P Q R [H]. split. intros m [HP HQ]. by apply H.
  - intros A P Ψ H. split. intros m HP a. by apply (H a).
  - hintro. naive_solver.
  - hintro. naive_solver.
  - intros A Φ Q H. split. intros m [a Ha]. by apply (H a).
  - intros P P' Q Q' [HP] [HQ]. split. intros m (m1 & m2 & ? & ? & ? & ?). exists m1, m2. auto.
  - hintro. exists ∅, m. rw left_id. split_and!; [done|apply map_disjoint_empty_l|done|done].
  - hintro. destruct H as (m1 & m2 & -> & _ & -> & Hm). by rw left_id.
  - hintro. destruct H as (m1 & m2 & -> & Hd & ? & ?). exists m2, m1. rw (map_union_comm m1 m2); auto.
  - hintro. destruct H as (m1 & m2 & -> & Hd & (m3 & m4 & -> & Hd' & ? & ?) & HR).
    apply map_disjoint_union_l in Hd as [Hd1 Hd2]. exists m3, (m4 ∪ m2).
    split; [by rw assoc|]. split; [by apply map_disjoint_union_r_2|]. split; [done|]. by exists m4, m2.
  - intros P Q R [H]. split. intros m HP m' Hd HQ. apply H. by exists m, m'.
  - intros P Q R [H]. split. intros m (m1 & m2 & -> & Hd & HP & HQ). by apply (H m1).
Qed.

Lemma hprop_persistently_mixin : BiPersistentlyMixin hentails hemp hand (@hexist) hsep hpersistently.
Proof.
  split.
  - intros n P Q [HP]. split. intros m. apply HP.
  - intros P Q [HP]. hintro. by apply HP.
  - by hintro.
  - by hintro.
  - by hintro.
  - by hintro.
  - hintro. by destruct H as (m1 & m2 & _ & _ & HP & _).
  - hintro. destruct H as [HP HQ]. exists ∅, m. rw left_id. split_and!; [done|apply map_disjoint_empty_l|done|done].
Qed.

Lemma hprop_later_mixin : BiLaterMixin hentails hpure hor himpl (@hforall) (@hexist) hsep hpersistently hlater.
Proof. eapply bi_later_mixin_id, hprop_bi_mixin. done. Qed.

Canonical Structure hpropI : bi :=
  {| bi_ofe_mixin := ofe_mixin_of hprop; bi_bi_mixin := hprop_bi_mixin;
     bi_bi_persistently_mixin := hprop_persistently_mixin; bi_bi_later_mixin := hprop_later_mixin |}.

#[global] Instance hprop_pure_forall : BiPureForall hpropI.
Proof. intros A φ. apply Hentails. intros m Ha a. exact (Ha a). Qed.

(** Pure facts own no memory. *)
Notation "⌈ φ ⌉" := (<affine> ⌜φ⌝)%I (format "⌈ φ ⌉") : bi_scope.

Lemma holds_pure_sep (φ : Prop) (P : hprop) m : φ -> holds P m -> holds (⌈φ⌉ ∗ P)%I m.
Proof.
  intros Hφ HP. exists ∅, m. rewrite left_id_L. split; [done|]. split; [apply map_disjoint_empty_l|].
  by split; [split|].
Qed.

Lemma holds_pure (φ : Prop) : φ -> holds ⌈φ⌉%I ∅.
Proof. by split. Qed.

(** * Assertions about memory *)
Definition pt (c : cell) (v : Z) : hprop := HProp (fun m => m = {[c := v]}).
Notation "a ↦ v" := (pt (Word a) v) (at level 20, format "a  ↦  v") : bi_scope.

(** The words [ws] from [a], and a region without its contents. *)
Fixpoint words (a : Z) (ws : list Z) : hprop :=
  match ws with [] => emp%I | w :: ws => (a ↦ w ∗ words (a + 8) ws)%I end.
Definition area (a : Z) (n : nat) : hprop := (∃ ws, ⌈length ws = n⌉ ∗ words a ws)%I.
Definition region (a n : Z) : hprop := pt (Region a) n.

Lemma holds_words a (ws : list Z) m : holds (words a ws) m <-> m = word_map a ws.
Proof.
  revert a m. induction ws as [|w ws IH]; intros a m; cbn [words word_map]; [done|]. split.
  - intros (m1 & m2 & -> & _ & -> & H2). apply IH in H2 as ->. by rw insert_union_singleton_l.
  - intros ->. exists {[Word a := w]}, (word_map (a + 8) ws). rw insert_union_singleton_l.
    split; [done|]. split; [|split; [done|by apply IH]]. apply map_disjoint_singleton_l.
    apply word_map_lookup_out. unfold in_words. destruct (Z.leb_spec (a + 8) a); [lia|done].
Qed.

Lemma words_app a (ws vs : list Z) : words a (ws ++ vs) ⊣⊢ words a ws ∗ words (a + 8 * zlen ws) vs.
Proof.
  revert a. induction ws as [|w ws IH]; intros a; cbn [app words].
  - rw left_id. unfold zlen. cbn. by rw Z.add_0_r.
  - rw IH assoc. do 2 f_equiv. unfold zlen. cbn [length]. lia.
Qed.

(** * Weakest preconditions *)
Definition wp {A} (c : mem A) (Q : A -> hprop) : hprop := HProp (fun h => forall f, h ##ₘ f ->
  match c (h ∪ f) with
  | Ok (a, m) => exists h', m = h' ∪ f /\ h' ##ₘ f /\ holds (Q a) h'
  | Err Fatal => True
  | Err _ => False
  end).

Lemma wp_ret {A} (a : A) (Q : A -> hprop) : Q a ⊢ wp (ret a) Q.
Proof. split. intros h HQ f Hd. cbn. eauto. Qed.

Lemma wp_bind {A B} (c : mem A) (k : A -> mem B) Q : wp c (fun a => wp (k a) Q) ⊢ wp (bind c k) Q.
Proof.
  split. intros h Hc f Hd. unfold bind. specialize (Hc f Hd).
  destruct (c (h ∪ f)) as [[a m]|[]]; cbn [obind]; try done.
  destruct Hc as (h' & -> & Hd' & HQ). exact (HQ f Hd').
Qed.

Lemma wp_wand {A} (c : mem A) (Q R : A -> hprop) : wp c Q -∗ (∀ a, Q a -∗ R a) -∗ wp c R.
Proof.
  apply bi.entails_wand, bi.wand_intro_r. split.
  intros h (h1 & h2 & -> & Hd & Hc & HR) f Hf.
  apply map_disjoint_union_l in Hf as [Hf1 Hf2].
  specialize (Hc (h2 ∪ f)). rw -(assoc_L (∪)).
  assert (Hd' : h1 ##ₘ h2 ∪ f) by by apply map_disjoint_union_r_2.
  specialize (Hc Hd'). destruct (c _) as [[a m]|[]]; try done.
  destruct Hc as (h' & -> & Hd2 & HQ). apply map_disjoint_union_r in Hd2 as [Hd2 Hd3].
  exists (h2 ∪ h'). split; [by rw (map_union_comm h2 h') ?assoc_L|].
  split; [by apply map_disjoint_union_l_2|]. by apply (HR a).
Qed.

(** A rule as it is used: the precondition is taken from the context and the rest is
    proved of what it leaves. *)
Lemma wp_use {A} (P : hprop) (c : mem A) (Q R : A -> hprop) :
  (P ⊢ wp c Q) -> P -∗ (∀ a, Q a -∗ R a) -∗ wp c R.
Proof. iIntros (H) "HP HR". iApply (wp_wand with "[HP] HR"). by iApply H. Qed.

Lemma wp_fatal {A} (P : hprop) (Q : A -> hprop) : P ⊢ wp (fail Fatal) Q.
Proof. split. done. Qed.

(** ** Loads and stores *)
Lemma lookup_own (c : cell) (v : Z) (f : cells) : ({[c := v]} ∪ f) !! c = Some v.
Proof. apply lookup_union_Some_l, lookup_singleton_eq. Qed.

Lemma load_word a v (R : Z -> hprop) : a ↦ v -∗ (a ↦ v -∗ R v) -∗ wp (load a) R.
Proof.
  iIntros "H HR". iApply (wp_use (a ↦ v) _ (fun r => ⌈r = v⌉ ∗ a ↦ v)%I with "H").
  - split. intros h -> f Hd. unfold load. rw lookup_own. exists {[Word a := v]}.
    do 2 (split; [done|]). by apply holds_pure_sep.
  - iIntros (r) "[-> H]". by iApply "HR".
Qed.

Lemma store_word a v w (R : unit -> hprop) : a ↦ v -∗ (a ↦ w -∗ R tt) -∗ wp (store a w) R.
Proof.
  iIntros "H HR". iApply (wp_use (a ↦ v) _ (fun _ => a ↦ w)%I with "H").
  - split. intros h -> f Hd. unfold store. rw lookup_own. exists {[Word a := w]}.
    rw insert_union_l insert_singleton_eq. split; [done|]. split; [|done].
    apply map_disjoint_singleton_l in Hd. by apply map_disjoint_singleton_l.
  - iIntros ([]) "H". by iApply "HR".
Qed.

Lemma pt_excl c v w : pt c v -∗ pt c w -∗ False.
Proof.
  apply bi.entails_wand, bi.wand_intro_r. split. intros m (m1 & m2 & -> & Hd & -> & ->).
  exfalso. apply map_disjoint_singleton_l in Hd. by rw lookup_singleton_eq in Hd.
Qed.

Lemma pt_ne c v c' w : pt c v -∗ pt c' w -∗ pt c v ∗ pt c' w ∗ ⌈c <> c'⌉.
Proof.
  iIntros "H H'". destruct (decide (c = c')) as [->|Hne].
  - iDestruct (pt_excl with "H H'") as "[]".
  - iFrame. by iPureIntro.
Qed.

(** ** Arrays of words *)
Lemma load_words_ok a ws (R : list Z -> hprop) :
  words a ws -∗ (words a ws -∗ R ws) -∗ wp (load_words a (length ws)) R.
Proof.
  revert a R. induction ws as [|w ws IH]; intros a R; cbn [words length load_words]; iIntros "H HR".
  - iApply wp_ret. by iApply "HR".
  - iDestruct "H" as "[Hw H]". iApply wp_bind. iApply (load_word with "Hw"). iIntros "Hw".
    iApply wp_bind. iApply (IH with "H"). iIntros "H". iApply wp_ret. iApply "HR". iFrame.
Qed.

Lemma store_words_ok a vs ws (R : unit -> hprop) : length vs = length ws ->
  words a vs -∗ (words a ws -∗ R tt) -∗ wp (store_words a ws) R.
Proof.
  revert a vs R. induction ws as [|w ws IH]; intros a [|v vs] R; cbn [words length store_words]; try done;
    intros Hl; iIntros "H HR".
  - iApply wp_ret. by iApply "HR".
  - iDestruct "H" as "[Hw H]". iApply wp_bind. iApply (store_word with "Hw"). iIntros "Hw".
    iApply (IH with "H"); [by injection Hl|]. iIntros "H". iApply "HR". iFrame.
Qed.

Lemma zero_words_ok a vs (R : unit -> hprop) :
  words a vs -∗ (words a (replicate (length vs) 0) -∗ R tt) -∗ wp (zero_words a (length vs)) R.
Proof.
  revert a R. induction vs as [|v vs IH]; intros a R; cbn [words length zero_words replicate]; iIntros "H HR".
  - iApply wp_ret. by iApply "HR".
  - iDestruct "H" as "[Hw H]". iApply wp_bind. iApply (store_word with "Hw"). iIntros "Hw".
    iApply (IH with "H"). iIntros "H". iApply "HR". iFrame.
Qed.

(** ** The C library *)
Section library.
Context `{AllocatorLaws}.

Definition room (a n : Z) : Prop := 0 < a /\ a mod 8 = 0 /\ a + n < 2 ^ 64.

Lemma own_placed a n (ws : list Z) (f : cells) :
  fits f a n -> 8 * zlen ws <= n -> <[Region a := n]> (word_map a ws) ##ₘ f.
Proof.
  intros Hf Hn. apply map_disjoint_insert_l_2; [apply Hf|by apply (word_map_fits f a n)].
Qed.

Lemma holds_placed a n (ws : list Z) : holds (region a n ∗ words a ws)%I (<[Region a := n]> (word_map a ws)).
Proof.
  exists {[Region a := n]}, (word_map a ws). split; [by rw insert_union_singleton_l|].
  split; [|by split; [|apply holds_words]]. apply map_disjoint_singleton_l, word_map_lookup_region.
Qed.

Lemma words_area a ws : words a ws ⊢ area a (length ws).
Proof. iIntros "H". iExists ws. by iFrame. Qed.

Lemma words_of_zlen n : 0 <= n -> 8 * Z.of_nat (words_of n) <= n.
Proof. unfold words_of. intros Hn. rw Z2Nat.id; [apply Z.mul_div_le; lia|apply Z.div_pos; lia]. Qed.

Lemma libc_malloc_ok size (R : Z -> hprop) : 0 <= size ->
  (∀ a, ⌈a = 0⌉ ∨ ⌈room a size⌉ ∗ region a size ∗ area a (words_of size) -∗ R a) -∗ wp (malloc size) R.
Proof.
  iIntros (Hs) "HR".
  iApply (wp_use emp _ (fun a => ⌈a = 0⌉ ∨ ⌈room a size⌉ ∗ region a size ∗ area a (words_of size))%I with "[//] HR").
  split. intros h -> f Hd. unfold malloc. rw left_id_L. destruct (place f size) as [a|] eqn:Hp.
  - apply place_fits in Hp; [|done].
    set (ws := fresh_words (junk f) a (words_of size)).
    assert (Hl : length ws = words_of size) by apply fresh_words_length.
    exists (<[Region a := size]> (word_map a ws)). rw insert_union_l. split; [done|].
    split; [apply own_placed; [done|]; unfold zlen; rw Hl; by apply words_of_zlen|].
    right. apply holds_pure_sep; [destruct Hp; unfold room; split_and!; [done..|lia]|].
    eapply (hentails_holds (region a size ∗ words a ws)%I); [|apply holds_placed].
    rw -Hl. apply bi.sep_mono; [done|apply words_area].
  - exists ∅. rw left_id_L. split; [done|]. split; [done|]. left. by apply holds_pure.
Qed.

Lemma free_ok p ws (R : unit -> hprop) : p <> 0 ->
  region p (8 * zlen ws) -∗ words p ws -∗ R tt -∗ wp (free p) R.
Proof.
  iIntros (Hp) "Hr Hw HR".
  iApply (wp_use (region p (8 * zlen ws) ∗ words p ws) _ (fun _ => emp)%I with "[$Hr $Hw]").
  - split. intros h (h1 & h2 & -> & _ & -> & ->%holds_words) f Hf.
    rw -insert_union_singleton_l in Hf *. unfold free. rw (proj2 (Z.eqb_neq p 0)) //.
    rw (lookup_union_Some_l _ _ _ (8 * zlen ws)); [|by rw lookup_insert_eq].
    exists ∅. rw left_id_L released_frame //. split; [done|]. split; [apply map_disjoint_empty_l|done].
  - by iIntros ([]) "_".
Qed.

Lemma libc_realloc_ok p ws n (R : Z -> hprop) : p <> 0 ->
  region p (8 * zlen ws) -∗ words p ws -∗
  (∀ a, (⌈a = 0⌉ ∗ region p (8 * zlen ws) ∗ words p ws) ∨
        (∃ more, ⌈room a (8 * Z.of_nat n) /\ (length (take n ws ++ more) = n)%nat⌉ ∗
           region a (8 * Z.of_nat n) ∗ words a (take n ws ++ more)) -∗ R a) -∗
  wp (realloc p (8 * Z.of_nat n)) R.
Proof.
  iIntros (Hp) "Hr Hw HR".
  iApply (wp_use (region p (8 * zlen ws) ∗ words p ws) with "[$Hr $Hw] HR").
  split. intros h (h1 & h2 & -> & _ & -> & ->%holds_words) f Hf.
  rw -insert_union_singleton_l in Hf *. unfold realloc. rw (proj2 (Z.eqb_neq p 0)) //.
  rw (lookup_union_Some_l _ _ _ (8 * zlen ws)); [|by rw lookup_insert_eq].
  assert (Hm : words_of (8 * Z.of_nat n) = n) by (unfold words_of; rw (Z.mul_comm 8) Z.div_mul //; lia).
  destruct (resize _ p _) as [a|] eqn:Ha.
  - apply (resize_fits _ p (8 * zlen ws)) in Ha; [|apply lookup_union_Some_l, lookup_insert_eq|lia].
    rw released_frame // in Ha *.
    assert (Hk : words_of (Z.min (8 * zlen ws) (8 * Z.of_nat n)) = (length ws `min` n)%nat)
      by (unfold words_of, zlen; rw Z.mul_min_distr_nonneg_l // (Z.mul_comm 8) Z.div_mul //; lia).
    rw (load_words_take _ _ ws); [cbn [obind]| |rw Hk; lia].
    + rw Hk Hm (_ : take (length ws `min` n) ws = take n ws); [|by rw Nat.min_comm -take_take (firstn_all2 ws)].
      set (more := fresh_words _ _ _). exists (<[Region a := 8 * Z.of_nat n]> (word_map a (take n ws ++ more))).
      assert (Hl : length (take n ws ++ more) = n) by (rw length_app /more fresh_words_length length_take; lia).
      rw insert_union_l. split; [done|]. split; [apply own_placed; [done|unfold zlen; lia]|].
      right. exists more. apply holds_pure_sep; [|by apply holds_placed].
      split; [destruct Ha; by split_and!|done].
    + etrans; [|apply map_union_subseteq_l]. apply insert_subseteq, word_map_lookup_region.
  - exists (<[Region p := 8 * zlen ws]> (word_map p ws)). split; [done|]. split; [done|].
    left. apply holds_pure_sep; [done|]. apply holds_placed.
Qed.
End library.

(** * Tactics: a statement of the code for each step *)
Ltac wp_step := lazymatch goal with
  | |- environments.envs_entails _ (wp (bind _ _) _) => iApply wp_bind
  | |- environments.envs_entails _ (wp ((_ : mem _)) _) => idtac
  end.
Tactic Notation "wret" := wp_step; iApply wp_ret.
Tactic Notation "wload" constr(H) := wp_step; iApply (load_word with H); iIntros H.
Tactic Notation "wstore" constr(H) := wp_step; iApply (store_word with H); iIntros H.

Lemma words_fields3 a x y z : words a [x; y; z] ⊣⊢ a ↦ x ∗ (a + 8) ↦ y ∗ (a + 16) ↦ z.
Proof. cbn [words]. by rw -!Z.add_assoc right_id. Qed.
Lemma words_fields4 a x y z t : words a [x; y; z; t] ⊣⊢ a ↦ x ∗ (a + 8) ↦ y ∗ (a + 16) ↦ z ∗ (a + 24) ↦ t.
Proof. cbn [words]. by rw -!Z.add_assoc right_id. Qed.
Lemma words_fields6 a x y z t u v :
  words a [x; y; z; t; u; v] ⊣⊢
  a ↦ x ∗ (a + 8) ↦ y ∗ (a + 16) ↦ z ∗ (a + 24) ↦ t ∗ (a + 32) ↦ u ∗ (a + 40) ↦ v.
Proof. cbn [words]. by rw -!Z.add_assoc right_id. Qed.
