(* ===== verification/MemPool.v ===== *)
(** Memory pools, [common/util/memory.c] and [mempool.h]: the allocator of the
    compiler.  A pool is a stack of levels; [MEM_POOL_Push] opens a level and
    [MEM_POOL_Pop] gives back everything that was allocated since.  Small objects are
    cut from blocks of [BLOCK_SIZE] bytes that a level continues where the level below
    stopped; large ones are regions of their own in a doubly linked list.

    The functions are translated with the structures at their LP64 offsets, for the
    release build ([Is_True] and the statistics are compiled out), without the
    purify mode and outside Valgrind (red zones of size 0). *)
From Stdlib Require Import ZArith Lia Bool.
From stdpp Require Import prelude gmap list.
From S2P Require Import Prelude.
From S2P Require Import MemHeap.

(** The variables of [memory.c]: their addresses. *)
Class Image := {
  mem_overhead_pool : Z;
  free_mem_pool_blocks_list : Z;
  The_Default_Mem_Pool : Z
}.

(** * Constants and structures *)
Definition BLOCK_SIZE : Z := 0x2000.
Definition MIN_LARGE_BLOCK_SIZE : Z := 0x800.
Definition MAGIC_NUM : Z := 0xabcd.
Definition Default_Mem_Pool : Z := 0.
Definition Malloc_Mem_Pool : Z := 1.

(** [~0U << 3] is an [unsigned int], the sum a [size_t] *)
Definition PAD_TO_ALIGN (size : Z) : Z :=
  Z.land (uwrap 64 (size + 7)) (uwrap 32 (Z.shiftl (Z.ones 32) 3)).

Definition MEM_BLOCK_avail (x : Z) : Z := x.
Definition MEM_BLOCK_ptr (x : Z) : Z := x + 8.
Definition MEM_BLOCK_rest (x : Z) : Z := x + 16.
Definition sizeof_MEM_BLOCK : Z := 24.
Definition MEM_BLOCK_first_ptr (x : Z) : Z := x + PAD_TO_ALIGN sizeof_MEM_BLOCK.

Definition MEM_LARGE_BLOCK_next (x : Z) : Z := x.
Definition MEM_LARGE_BLOCK_prev (x : Z) : Z := x + 8.
Definition MEM_LARGE_BLOCK_base (x : Z) : Z := x + 16.
Definition MEM_LARGE_BLOCK_ptr (x : Z) : Z := x + 24.
Definition sizeof_MEM_LARGE_BLOCK : Z := 32.
Definition MEM_LARGE_BLOCK_OVERHEAD : Z := PAD_TO_ALIGN sizeof_MEM_LARGE_BLOCK.

Definition MEM_POOL_BLOCKS_block (x : Z) : Z := x.
Definition MEM_POOL_BLOCKS_large_block (x : Z) : Z := x + 8.
Definition MEM_POOL_BLOCKS_base_block (x : Z) : Z := x + 16.
Definition MEM_POOL_BLOCKS_base_ptr (x : Z) : Z := x + 24.
Definition MEM_POOL_BLOCKS_base_avail (x : Z) : Z := x + 32.
Definition MEM_POOL_BLOCKS_rest (x : Z) : Z := x + 40.
Definition sizeof_MEM_POOL_BLOCKS : Z := 48.

Definition MEM_POOL_name (x : Z) : Z := x.
Definition MEM_POOL_blocks (x : Z) : Z := x + 8.
Definition MEM_POOL_rest (x : Z) : Z := x + 16.
Definition MEM_POOL_pure_stack (x : Z) : Z := x + 24.
Definition MEM_POOL_bz (x : Z) : Z := x + 32.
Definition MEM_POOL_frozen (x : Z) : Z := x + 33.
Definition MEM_POOL_magic_num (x : Z) : Z := x + 34.
Definition MEM_POOL_alloc_site_list (x : Z) : Z := x + 40.

(** [FmtAssert], [MEM_POOL_block] and [MEM_POOL_large_block] as lvalues *)
Definition FmtAssert (b : bool) : mem unit := if b then ret tt else fail Assertion.
Definition MEM_POOL_block (pool : Z) : mem Z :=
  do* pb := load (MEM_POOL_blocks pool) in ret (MEM_POOL_BLOCKS_block pb).
Definition MEM_POOL_large_block (pool : Z) : mem Z :=
  do* pb := load (MEM_POOL_blocks pool) in ret (MEM_POOL_BLOCKS_large_block pb).

Section pools.
Context `{Allocator} `{Image}.

(** [malloc] or the error [EC_No_Mem], which ends the compiler *)
Definition malloc_or_die (size : Z) : mem Z :=
  do* p := malloc size in
  if p =? 0 then fail Fatal else ret p.

(** [if (pool == Default_Mem_Pool) pool = The_Default_Mem_Pool;] *)
Definition default_pool (pool : Z) : mem Z :=
  if pool =? Default_Mem_Pool then load The_Default_Mem_Pool else ret pool.

(** * Large blocks *)
Definition MEM_LARGE_BLOCK_zap (block : Z) : mem unit :=
  run* store (MEM_LARGE_BLOCK_base block) 0 in
  store (MEM_LARGE_BLOCK_ptr block) 0.

Definition MEM_LARGE_BLOCK_free (block : Z) : mem unit :=
  run* MEM_LARGE_BLOCK_zap block in free block.

Definition MEM_LARGE_BLOCK_realloc (old_block new_size : Z) : mem Z :=
  do* base := load (MEM_LARGE_BLOCK_base old_block) in
  do* ptr := load (MEM_LARGE_BLOCK_ptr old_block) in
  run* MEM_LARGE_BLOCK_zap old_block in
  do* new_block := realloc old_block (uwrap 64 new_size) in
  run* (if new_block =? 0 then ret tt else
    run* store (MEM_LARGE_BLOCK_base new_block) base in
    store (MEM_LARGE_BLOCK_ptr new_block) ptr) in
  ret new_block.

(** * Allocation *)
Definition Allocate_Block (pool : Z) : mem Z :=
  let size := BLOCK_SIZE + PAD_TO_ALIGN sizeof_MEM_BLOCK in
  do* block := malloc_or_die size in
  do* bz := load (MEM_POOL_bz pool) in
  run* (if bz =? 0 then ret tt else bzero block size) in
  run* store (MEM_BLOCK_avail block) BLOCK_SIZE in
  run* store (MEM_BLOCK_ptr block) (MEM_BLOCK_first_ptr block) in
  do* head := MEM_POOL_block pool in
  do* rest := load head in
  run* store (MEM_BLOCK_rest block) rest in
  run* store head block in
  ret block.

(** [size] is an [INT32] that [malloc] and [bzero] take as a [size_t] *)
Definition Allocate_Large_Block (pool size : Z) : mem Z :=
  let size := swrap 32 (size + MEM_LARGE_BLOCK_OVERHEAD) in
  do* block := malloc_or_die (uwrap 64 size) in
  do* bz := load (MEM_POOL_bz pool) in
  run* (if bz =? 0 then ret tt else bzero block (uwrap 64 size)) in
  run* store (MEM_LARGE_BLOCK_ptr block) (block + MEM_LARGE_BLOCK_OVERHEAD) in
  do* base := load (MEM_POOL_blocks pool) in
  run* store (MEM_LARGE_BLOCK_base block) base in
  do* head := MEM_POOL_large_block pool in
  do* next := load head in
  run* store (MEM_LARGE_BLOCK_next block) next in
  run* store (MEM_LARGE_BLOCK_prev block) 0 in
  run* (if next =? 0 then ret tt else store (MEM_LARGE_BLOCK_prev next) block) in
  run* store head block in
  load (MEM_LARGE_BLOCK_ptr block).

Definition Raw_Allocate (pool size : Z) : mem Z :=
  if size <=? MIN_LARGE_BLOCK_SIZE then
    do* head := MEM_POOL_block pool in
    do* b := load head in
    do* full := (if b =? 0 then ret true else
                 do* avail := load (MEM_BLOCK_avail b) in ret (avail <? uwrap 64 size)) in
    do* b := (if full : bool then Allocate_Block pool else ret b) in
    do* result := load (MEM_BLOCK_ptr b) in
    run* store (MEM_BLOCK_ptr b) (result + size) in
    do* avail := load (MEM_BLOCK_avail b) in
    run* store (MEM_BLOCK_avail b) (uwrap 64 (avail - size)) in
    ret result
  else Allocate_Large_Block pool size.

Definition MEM_POOL_Alloc_P (pool size : Z) : mem Z :=
  do* pool := default_pool pool in
  if pool =? Malloc_Mem_Pool then malloc_or_die size else
  Raw_Allocate pool (swrap 32 (PAD_TO_ALIGN size)).

(** * Freeing and reallocating *)
Definition MEM_POOL_FREE (pool data : Z) : mem unit :=
  if data =? 0 then ret tt else
  do* pool := default_pool pool in
  if pool =? Malloc_Mem_Pool then free data else
  let large_block := data - MEM_LARGE_BLOCK_OVERHEAD in
  do* ptr := load (MEM_LARGE_BLOCK_ptr large_block) in
  if negb (ptr =? data) then ret tt else
  do* base := load (MEM_LARGE_BLOCK_base large_block) in
  do* blocks := load (MEM_POOL_blocks pool) in
  if negb (base =? blocks) then ret tt else
  do* prev := load (MEM_LARGE_BLOCK_prev large_block) in
  do* next := load (MEM_LARGE_BLOCK_next large_block) in
  run* (if prev =? 0 then
          do* head := MEM_POOL_large_block pool in store head next
        else store (MEM_LARGE_BLOCK_next prev) next) in
  run* (if next =? 0 then ret tt else store (MEM_LARGE_BLOCK_prev next) prev) in
  MEM_LARGE_BLOCK_free large_block.

(** [Raw_Allocate] and a copy of [size] bytes *)
Definition allocate_copy (pool new_size old_block size : Z) : mem Z :=
  do* result := Raw_Allocate pool (swrap 32 new_size) in
  run* bcopy old_block result size in
  ret result.

(** A large block of the current level that stays large *)
Definition realloc_large (pool old_block old_size new_size : Z) : mem Z :=
  let p := old_block - MEM_LARGE_BLOCK_OVERHEAD in
  do* large_block := MEM_LARGE_BLOCK_realloc p (new_size + MEM_LARGE_BLOCK_OVERHEAD) in
  if large_block =? 0 then fail Fatal else
  let ptr := large_block + MEM_LARGE_BLOCK_OVERHEAD in
  run* store (MEM_LARGE_BLOCK_ptr large_block) ptr in
  do* bz := load (MEM_POOL_bz pool) in
  run* (if bz =? 0 then ret tt else bzero (ptr + old_size) (uwrap 64 (new_size - old_size))) in
  do* prev := load (MEM_LARGE_BLOCK_prev large_block) in
  run* (if prev =? 0 then
          do* head := MEM_POOL_large_block pool in store head large_block
        else store (MEM_LARGE_BLOCK_next prev) large_block) in
  do* next := load (MEM_LARGE_BLOCK_next large_block) in
  run* (if next =? 0 then ret tt else store (MEM_LARGE_BLOCK_prev next) large_block) in
  load (MEM_LARGE_BLOCK_ptr large_block).

(** The test for "a valid large block that we can reallocate" *)
Definition valid_large_block (pool old_block : Z) : mem bool :=
  let large_block := old_block - MEM_LARGE_BLOCK_OVERHEAD in
  do* ptr := load (MEM_LARGE_BLOCK_ptr large_block) in
  if ptr =? old_block then
    do* base := load (MEM_LARGE_BLOCK_base large_block) in
    do* blocks := load (MEM_POOL_blocks pool) in
    ret (base =? blocks)
  else ret false.

Definition MEM_POOL_Realloc_P (pool old_block old_size new_size : Z) : mem Z :=
  do* pool := default_pool pool in
  if pool =? Malloc_Mem_Pool then
    do* p := realloc old_block new_size in
    if p =? 0 then fail Fatal else ret p
  else
  let old_size := PAD_TO_ALIGN old_size in
  let new_size := PAD_TO_ALIGN new_size in
  if new_size =? old_size then ret old_block else
  if old_size <=? MIN_LARGE_BLOCK_SIZE then
    if new_size <? old_size then ret old_block else
    allocate_copy pool new_size old_block old_size
  else
  do* valid := valid_large_block pool old_block in
  if valid : bool then
    if new_size <=? MIN_LARGE_BLOCK_SIZE then
      do* result := allocate_copy pool new_size old_block new_size in
      run* MEM_POOL_FREE pool old_block in
      ret result
    else realloc_large pool old_block old_size new_size
  else
    allocate_copy pool new_size old_block (if old_size <? new_size then old_size else new_size).

(** * Levels *)
Definition MEM_POOL_Push_P (pool : Z) : mem unit :=
  do* frozen := load (MEM_POOL_frozen pool) in
  run* FmtAssert (frozen =? 0) in
  do* pool := default_pool pool in
  if pool =? Malloc_Mem_Pool then ret tt else
  do* free_list := load free_mem_pool_blocks_list in
  do* pb := (if free_list =? 0 then MEM_POOL_Alloc_P mem_overhead_pool sizeof_MEM_POOL_BLOCKS else
             do* rest := load (MEM_POOL_BLOCKS_rest free_list) in
             run* store free_mem_pool_blocks_list rest in
             ret free_list) in
  do* p := load (MEM_POOL_blocks pool) in
  run* store (MEM_POOL_BLOCKS_rest pb) p in
  run* store (MEM_POOL_BLOCKS_large_block pb) 0 in
  run* (if p =? 0 then
          run* store (MEM_POOL_BLOCKS_block pb) 0 in
          run* store (MEM_POOL_BLOCKS_base_block pb) 0 in
          run* store (MEM_POOL_BLOCKS_base_ptr pb) 0 in
          store (MEM_POOL_BLOCKS_base_avail pb) 0
        else
          do* b := load (MEM_POOL_BLOCKS_block p) in
          run* store (MEM_POOL_BLOCKS_block pb) b in
          run* store (MEM_POOL_BLOCKS_base_block pb) b in
          if b =? 0 then
            run* store (MEM_POOL_BLOCKS_base_ptr pb) 0 in
            store (MEM_POOL_BLOCKS_base_avail pb) 0
          else
            do* ptr := load (MEM_BLOCK_ptr b) in
            run* store (MEM_POOL_BLOCKS_base_ptr pb) ptr in
            do* avail := load (MEM_BLOCK_avail b) in
            store (MEM_POOL_BLOCKS_base_avail pb) avail) in
  store (MEM_POOL_blocks pool) pb.

Definition MEM_POOL_Push_Freeze_P (pool : Z) : mem unit :=
  do* frozen := load (MEM_POOL_frozen pool) in
  run* FmtAssert (frozen =? 0) in
  run* MEM_POOL_Push_P pool in
  store (MEM_POOL_frozen pool) 1.

(** The loop of [MEM_POOL_Pop] over the blocks of the level [bsp] *)
Fixpoint pop_blocks (fuel : nat) (pool bsp bp : Z) : mem unit :=
  match fuel with
  | O => fail Timeout
  | S fuel =>
      if bp =? 0 then ret tt else
      do* next_bp := load (MEM_BLOCK_rest bp) in
      do* base := load (MEM_POOL_BLOCKS_base_block bsp) in
      if bp =? base then
        do* base_ptr := load (MEM_POOL_BLOCKS_base_ptr bsp) in
        run* store (MEM_BLOCK_ptr bp) base_ptr in
        do* base_avail := load (MEM_POOL_BLOCKS_base_avail bsp) in
        run* store (MEM_BLOCK_avail bp) base_avail in
        do* bz := load (MEM_POOL_bz pool) in
        if bz =? 0 then ret tt else bzero base_ptr base_avail
      else
        run* free bp in
        pop_blocks fuel pool bsp next_bp
  end.

(** The loop over its large blocks *)
Fixpoint pop_large_blocks (fuel : nat) (lbp : Z) : mem unit :=
  match fuel with
  | O => fail Timeout
  | S fuel =>
      if lbp =? 0 then ret tt else
      do* next_lbp := load (MEM_LARGE_BLOCK_next lbp) in
      run* MEM_LARGE_BLOCK_free lbp in
      pop_large_blocks fuel next_lbp
  end.

Definition MEM_POOL_Pop_P (fuel : nat) (pool : Z) : mem unit :=
  do* frozen := load (MEM_POOL_frozen pool) in
  run* FmtAssert (frozen =? 0) in
  do* pool := default_pool pool in
  if pool =? Malloc_Mem_Pool then ret tt else
  do* bsp := load (MEM_POOL_blocks pool) in
  run* FmtAssert (negb (bsp =? 0)) in
  do* block := load (MEM_POOL_BLOCKS_block bsp) in
  run* pop_blocks fuel pool bsp block in
  do* large_block := load (MEM_POOL_BLOCKS_large_block bsp) in
  run* pop_large_blocks fuel large_block in
  do* rest := load (MEM_POOL_BLOCKS_rest bsp) in
  if rest =? 0 then bzero bsp sizeof_MEM_POOL_BLOCKS else
  run* store (MEM_POOL_blocks pool) rest in
  do* free_list := load free_mem_pool_blocks_list in
  run* store (MEM_POOL_BLOCKS_rest bsp) free_list in
  store free_mem_pool_blocks_list bsp.

Definition MEM_POOL_Pop_Unfreeze_P (fuel : nat) (pool : Z) : mem unit :=
  do* frozen := load (MEM_POOL_frozen pool) in
  run* FmtAssert (frozen =? 1) in
  run* store (MEM_POOL_frozen pool) 0 in
  MEM_POOL_Pop_P fuel pool.

Definition MEM_POOL_Set_Default (pool : Z) : mem unit := store The_Default_Mem_Pool pool.

(** * Creating and deleting pools *)
Definition MEM_POOL_Initialize_P (pool name bz : Z) : mem unit :=
  do* pool := default_pool pool in
  if pool =? Malloc_Mem_Pool then ret tt else
  run* store (MEM_POOL_name pool) name in
  run* store (MEM_POOL_bz pool) (uwrap 8 bz) in
  run* store (MEM_POOL_blocks pool) 0 in
  run* store (MEM_POOL_frozen pool) 0 in
  run* store (MEM_POOL_pure_stack pool) 0 in
  run* store (MEM_POOL_magic_num pool) MAGIC_NUM in
  MEM_POOL_Push_P pool.

Definition pool_fields : list (Z -> Z) :=
  [MEM_POOL_name; MEM_POOL_blocks; MEM_POOL_rest; MEM_POOL_pure_stack; MEM_POOL_bz;
   MEM_POOL_frozen; MEM_POOL_magic_num; MEM_POOL_alloc_site_list].
(** [bzero (pool, sizeof(MEM_POOL))] *)
Definition bzero_pool (pool : Z) : mem unit :=
  foldr (fun field k => run* store (field pool) 0 in k) (ret tt) pool_fields.

(** [while (MEM_POOL_BLOCKS_rest(MEM_POOL_blocks(pool)) != NULL) MEM_POOL_Pop(pool);] *)
Fixpoint pop_levels (fuel : nat) (inner : nat) (pool : Z) : mem unit :=
  match fuel with
  | O => fail Timeout
  | S fuel =>
      do* bsp := load (MEM_POOL_blocks pool) in
      do* rest := load (MEM_POOL_BLOCKS_rest bsp) in
      if rest =? 0 then ret tt else
      run* MEM_POOL_Pop_P inner pool in
      pop_levels fuel inner pool
  end.

Definition MEM_POOL_Delete (fuel : nat) (pool : Z) : mem unit :=
  do* pool := default_pool pool in
  if pool =? Malloc_Mem_Pool then ret tt else
  run* pop_levels fuel fuel pool in
  run* MEM_POOL_Pop_P fuel pool in
  do* bsp := load (MEM_POOL_blocks pool) in
  do* free_list := load free_mem_pool_blocks_list in
  run* store (MEM_POOL_BLOCKS_rest bsp) free_list in
  run* store free_mem_pool_blocks_list bsp in
  run* bzero_pool pool in
  store (MEM_POOL_magic_num pool) 0.
End pools.
