(* ===== verification/MemPoolRep.v ===== *)
(** What the memory of a pool looks like, as separation logic assertions: the blocks with
    their free ends, the levels, and the large objects.  The objects themselves belong to
    the client.  Sizes are in words of eight bytes. *)
From Stdlib Require Import ZArith Lia Bool.
From stdpp Require Import prelude gmap list.
From iris.proofmode Require Import proofmode.
From S2P Require Import Prelude.
From S2P Require Import MemHeap.
From S2P Require Import MemLogic.
From S2P Require Import MemPool.

(** * Free and fresh memory: zero if the pool clears its memory *)
Definition free_words (bz : bool) (a : Z) (n : nat) : hprop :=
  if bz then words a (replicate n 0) else area a n.

Lemma area_app a n m : area a (n + m) ⊣⊢ area a n ∗ area (a + 8 * Z.of_nat n) m.
Proof.
  iSplit.
  - iIntros "(%ws & %Hl & H)". rw -(take_drop n ws) words_app. iDestruct "H" as "[H1 H2]".
    assert (Hn : length (take n ws) = n) by (rw length_take; lia).
    rw /zlen Hn. iSplitL "H1"; [iExists (take n ws)|iExists (drop n ws)]; iFrame; iPureIntro; [done|].
    rw length_drop. lia.
  - iIntros "[(%ws & %Hl & H1) (%vs & %Hm & H2)]". iExists (ws ++ vs). rw words_app /zlen Hl. iFrame.
    iPureIntro. rw length_app. lia.
Qed.

Lemma area_0 a : area a 0 ⊣⊢ emp.
Proof.
  iSplit; [|iIntros "_"; iExists []; by iSplit].
  iIntros "(%ws & %Hl & H)". by destruct ws.
Qed.

Lemma free_words_app bz a n m : free_words bz a (n + m) ⊣⊢ free_words bz a n ∗ free_words bz (a + 8 * Z.of_nat n) m.
Proof.
  destruct bz; cbn [free_words]; [|apply area_app].
  by rw replicate_add words_app /zlen length_replicate.
Qed.

Lemma free_words_area bz a n : free_words bz a n ⊢ area a n.
Proof.
  destruct bz; cbn [free_words]; [|done]. iIntros "H". iExists (replicate n 0). iFrame. by rw length_replicate.
Qed.

(** * Blocks of small objects: the address and the number of words in use *)
Definition block_words : nat := 1024.
Definition in_use (b : Z) (k : nat) : Z := b + 24 + 8 * Z.of_nat k.
Definition free_bytes (k : nat) : Z := 0x2000 - 8 * Z.of_nat k.

Definition head_block (bs : list (Z * nat)) : Z := match bs with [] => 0 | (b, _) :: _ => b end.

Definition block_own (bz : bool) (b : Z) (k : nat) (next : Z) : hprop :=
  (⌈room b 0x2018 /\ (k <= block_words)%nat⌉ ∗ region b 0x2018 ∗
   MEM_BLOCK_avail b ↦ free_bytes k ∗ MEM_BLOCK_ptr b ↦ in_use b k ∗ MEM_BLOCK_rest b ↦ next ∗
   free_words bz (in_use b k) (block_words - k))%I.

Fixpoint blocks_own (bz : bool) (bs : list (Z * nat)) : hprop :=
  match bs with
  | [] => emp
  | (b, k) :: bs => block_own bz b k (head_block bs) ∗ blocks_own bz bs
  end%I.

(** * Large blocks: the address of the header and the number of words of the object *)
Definition head_large (ls : list (Z * nat)) : Z := match ls with [] => 0 | (h, _) :: _ => h end.
Definition large_header (base prev next h : Z) (n : nat) : hprop :=
  (⌈room h (32 + 8 * Z.of_nat n)⌉ ∗ region h (32 + 8 * Z.of_nat n) ∗
   MEM_LARGE_BLOCK_next h ↦ next ∗ MEM_LARGE_BLOCK_prev h ↦ prev ∗
   MEM_LARGE_BLOCK_base h ↦ base ∗ MEM_LARGE_BLOCK_ptr h ↦ (h + 32))%I.

(** A segment of the list between [prev] and [next] *)
Fixpoint large_own (base prev : Z) (ls : list (Z * nat)) (next : Z) : hprop :=
  match ls with
  | [] => emp
  | (h, n) :: ls =>
      large_header base prev (match ls with [] => next | (h', _) :: _ => h' end) h n ∗ large_own base h ls next
  end%I.

(** * Levels *)
Record level := Level {
  l_pb : Z;                     (* its [MEM_POOL_BLOCKS] *)
  l_news : list (Z * nat);      (* the blocks it has added *)
  l_cur : nat;                  (* how many words of the block below it are in use *)
  l_small : list (Z * nat);     (* its small objects *)
  l_large : list (Z * nat)      (* its large ones: headers and words *)
}.

(** All blocks of the pool, the current one first *)
Fixpoint blocks_of (lvs : list level) : list (Z * nat) :=
  match lvs with
  | [] => []
  | l :: lvs => l_news l ++ match blocks_of lvs with [] => [] | (b, _) :: bs => (b, l_cur l) :: bs end
  end.

Definition head_pb (lvs : list level) : Z := match lvs with [] => 0 | l :: _ => l_pb l end.

(** What [MEM_POOL_Push] records about the block [bs] starts with *)
Definition pb_own (l : level) (lvs : list level) : hprop :=
  words (l_pb l)
    [head_block (blocks_of (l :: lvs)); head_large (l_large l); head_block (blocks_of lvs);
     match blocks_of lvs with [] => 0 | (b, k) :: _ => in_use b k end;
     match blocks_of lvs with [] => 0 | (b, k) :: _ => free_bytes k end;
     head_pb lvs].

(** The objects of a level are the memory it has taken from the blocks. *)
Definition objects_own (objs : list (Z * nat)) : hprop := ([∗ list] o ∈ objs, area o.1 o.2)%I.
Definition taken (l : level) (bs : list (Z * nat)) : hprop :=
  (([∗ list] bk ∈ l_news l, area (bk.1 + 24) bk.2) ∗
   match bs with [] => emp | (b, k) :: _ => area (in_use b k) (l_cur l - k) end)%I.

(** The small objects of the pool, and the places where one can begin: at the start of a
    block or where another one ends. *)
Definition smalls (lvs : list level) : list (Z * nat) := lvs ≫= l_small.
Definition boundary (lvs : list level) (a : Z) : Prop :=
  (exists b k, (b, k) ∈ blocks_of lvs /\ a = in_use b 0) \/
  (exists o, o ∈ smalls lvs /\ (0 < o.2)%nat /\ o.1 + 8 * Z.of_nat o.2 = a).

Record level_ok (l : level) (lvs : list level) : Prop := {
  ok_pb : 0 < l_pb l;
  ok_cur b k bs : blocks_of lvs = (b, k) :: bs -> (k <= l_cur l)%nat;
  ok_taken : objects_own (l_small l) ⊢ taken l (blocks_of lvs);
  ok_news : (length (l_news l) <= length (l_small l))%nat;
  ok_ends b k : (b, k) ∈ blocks_of (l :: lvs) -> boundary (l :: lvs) (in_use b k);
  ok_small o : o ∈ l_small l -> boundary (l :: lvs) o.1
}.

Fixpoint levels_own (lvs : list level) : hprop :=
  match lvs with
  | [] => emp
  | l :: lvs =>
      ⌈level_ok l lvs⌉ ∗ pb_own l lvs ∗ large_own (l_pb l) 0 (l_large l) 0 ∗ levels_own lvs
  end%I.

(** * Pools *)
Definition pool_own (pool : Z) (bz : bool) (lvs : list level) : hprop :=
  (⌈1 < pool⌉ ∗ MEM_POOL_blocks pool ↦ head_pb lvs ∗ MEM_POOL_bz pool ↦ Z.b2z bz ∗
   levels_own lvs ∗ blocks_own bz (blocks_of lvs))%I.

(** * Adding a small object to a level *)
Definition set_small (l : level) (news : list (Z * nat)) (cur : nat) (o : Z * nat) : level :=
  Level (l_pb l) news cur (o :: l_small l) (l_large l).

Definition grown (l l' : level) (o : Z * nat) : Prop :=
  l_pb l' = l_pb l /\ l_large l' = l_large l /\ l_small l' = o :: l_small l.

Lemma elem_smalls o l lvs : o ∈ smalls (l :: lvs) <-> o ∈ l_small l \/ o ∈ smalls lvs.
Proof. unfold smalls. cbn [mbind list_bind]. apply elem_of_app. Qed.

(** The boundaries stay, and the end of the new object is one more. *)
Lemma boundary_mono lvs lvs' a :
  (forall b k, (b, k) ∈ blocks_of lvs -> exists k', (b, k') ∈ blocks_of lvs') ->
  (forall o, o ∈ smalls lvs -> o ∈ smalls lvs') -> boundary lvs a -> boundary lvs' a.
Proof.
  intros Hb Ho [(b & k & Hin & ->)|(o & Hin & Hr)]; [left|right; eauto].
  destruct (Hb b k Hin) as [k' Hk']. eauto.
Qed.

(** [o] was cut from the block [b], the first one or a new one. *)
Record cut_from (l l' : level) (lvs : list level) (b : Z) (k n : nat) (bs : list (Z * nat)) : Prop := {
  cut_grown : grown l l' (in_use b k, n);
  cut_blocks : blocks_of (l' :: lvs) = (b, k + n)%nat :: bs;
  cut_old : blocks_of (l :: lvs) = (b, k) :: bs \/ blocks_of (l :: lvs) = bs /\ k = 0%nat
}.

Lemma in_use_add b k n : in_use b k + 8 * Z.of_nat n = in_use b (k + n).
Proof. unfold in_use. lia. Qed.

Section cut.
Context {l l' : level} {lvs : list level} {b : Z} {k n : nat} {bs : list (Z * nat)}.
Context (Hcut : cut_from l l' lvs b k n bs).

Lemma cut_boundary a : boundary (l :: lvs) a -> boundary (l' :: lvs) a.
Proof.
  pose proof Hcut as [(_ & _ & Hs) Hb Ho]. apply boundary_mono.
  - rw Hb. intros b' k' Hin. destruct Ho as [Ho|[Ho _]]; rw Ho in Hin.
    + apply elem_of_cons in Hin as [[= <- <-]|Hin]; [exists (k' + n)%nat; left|exists k'; by right].
    + exists k'. by right.
  - intros o. rw !elem_smalls Hs. intros [Hin|Hin]; [left; by right|by right].
Qed.

(** The object begins at a boundary, and it ends at one. *)
Lemma cut_begin : (k <> 0%nat -> boundary (l :: lvs) (in_use b k)) -> boundary (l' :: lvs) (in_use b k).
Proof.
  intros Hk. destruct (decide (k = 0%nat)) as [E|Hne]; [|by apply cut_boundary, Hk].
  left. exists b, (k + n)%nat. split; [|by rw E]. rw (cut_blocks _ _ _ _ _ _ _ Hcut). left.
Qed.

Lemma cut_end : (k <> 0%nat -> boundary (l :: lvs) (in_use b k)) -> boundary (l' :: lvs) (in_use b (k + n)).
Proof.
  intros Hk. destruct (decide (n = 0%nat)) as [Hn|Hn]; [rw Hn Nat.add_0_r; by apply cut_begin|].
  right. exists (in_use b k, n). pose proof Hcut as [(_ & _ & Hs) _ _].
  rw elem_smalls Hs. split; [left; left|]. cbn [fst snd]. split; [lia|]. by rw in_use_add.
Qed.

Lemma cut_level_ok : level_ok l lvs ->
  (forall b' k' bs', blocks_of lvs = (b', k') :: bs' -> (l_cur l <= l_cur l')%nat) ->
  (taken l (blocks_of lvs) ∗ area (in_use b k) n ⊢ taken l' (blocks_of lvs)) ->
  (length (l_news l') <= S (length (l_news l)))%nat -> level_ok l' lvs.
Proof.
  intros Hok Hcur Htaken Hnews. pose proof Hcut as [(Hpb & Hl & Hs) Hb Ho].
  assert (Hk : k <> 0%nat -> boundary (l :: lvs) (in_use b k)).
  { intros Hne. destruct Ho as [Ho|[_ ?]]; [|done]. apply (ok_ends _ _ Hok). rw Ho. left. }
  destruct Hok as [Hp Hc Ht Hn He Hsm]. split.
  - by rw Hpb.
  - intros b' k' bs' Hbs. etrans; [by eapply Hc|by eapply Hcur].
  - rw Hs -Htaken. unfold objects_own. cbn [big_opL fst snd]. unfold objects_own in Ht. rw Ht. by rw comm.
  - rw Hs. cbn [length]. lia.
  - intros b' k'. rw Hb. intros [[= -> ->]|Hin]%elem_of_cons; [by apply cut_end|].
    apply cut_boundary, He. destruct Ho as [Ho|[Ho _]]; rw Ho; [by right|done].
  - intros o. rw Hs. intros [->|Hin]%elem_of_cons; [by apply cut_begin|by apply cut_boundary, Hsm].
Qed.
End cut.

(** The level after the object [(in_use b k, n)] is cut from the first block or from a new one *)
Definition advance (l : level) (b : Z) (k n : nat) : level :=
  match l_news l with
  | (_, _) :: news => set_small l ((b, k + n)%nat :: news) (l_cur l) (in_use b k, n)
  | [] => set_small l [] (l_cur l + n) (in_use b k, n)
  end.
Definition add_block (l : level) (b : Z) (n : nat) : level :=
  set_small l ((b, n) :: l_news l) (l_cur l) (in_use b 0, n).

Lemma in_use_0 b : in_use b 0 = b + 24.
Proof. unfold in_use. lia. Qed.

Lemma add_block_ok l lvs b n : level_ok l lvs ->
  cut_from l (add_block l b n) lvs b 0 n (blocks_of (l :: lvs)) /\ level_ok (add_block l b n) lvs.
Proof.
  intros Hok. assert (Hcut : cut_from l (add_block l b n) lvs b 0 n (blocks_of (l :: lvs))).
  { split; [done|done|by right]. }
  split; [done|]. apply (cut_level_ok Hcut); [done|done| |done].
  unfold taken, add_block, set_small. cbn [l_news l_cur big_opL fst snd]. rw in_use_0.
  iIntros "[[H1 H2] H3]". iFrame.
Qed.

Lemma advance_ok l lvs b k n bs : level_ok l lvs -> blocks_of (l :: lvs) = (b, k) :: bs ->
  cut_from l (advance l b k n) lvs b k n bs /\ level_ok (advance l b k n) lvs.
Proof.
  intros Hok Hbs. assert (Hcut : cut_from l (advance l b k n) lvs b k n bs).
  { split; [unfold advance; by destruct (l_news l) as [|[]]| |by left].
    revert Hbs. unfold advance. cbn [blocks_of]. destruct (l_news l) as [|[b' k'] news].
    - destruct (blocks_of lvs) as [|[b' k'] bs']; [done|]. cbn. by intros [= -> -> ->].
    - cbn. by intros [= -> -> ->]. }
  split; [done|]. apply (cut_level_ok Hcut); [done| | |].
  - intros _ _ _ _. unfold advance. destruct (l_news l) as [|[]]; cbn; lia.
  - pose proof (ok_cur _ _ Hok) as Hcur. revert Hbs. unfold advance, taken. cbn [blocks_of].
    destruct (l_news l) as [|[b' k'] news].
    + destruct (blocks_of lvs) as [|[b' k'] bs']; [done|]. specialize (Hcur _ _ _ eq_refl).
      cbn [app l_news l_cur set_small big_opL]. intros [= -> <- _].
      rw (_ : l_cur l + n - k' = (l_cur l - k') + n)%nat; [|lia]. rw area_app in_use_add.
      rw (_ : k' + (l_cur l - k') = l_cur l)%nat; [|lia]. by rw assoc.
    + cbn [app l_news l_cur set_small big_opL fst snd]. intros [= -> -> _]. rw area_app.
      iIntros "[[[H1 H2] H3] H4]". iFrame.
  - unfold advance. destruct (l_news l) as [|[]]; cbn; lia.
Qed.

(** * The top level, open *)
Definition base_own (pb : Z) (lvs : list level) : hprop :=
  (MEM_POOL_BLOCKS_base_block pb ↦ head_block (blocks_of lvs) ∗
   MEM_POOL_BLOCKS_base_ptr pb ↦ match blocks_of lvs with [] => 0 | (b, k) :: _ => in_use b k end ∗
   MEM_POOL_BLOCKS_base_avail pb ↦ match blocks_of lvs with [] => 0 | (b, k) :: _ => free_bytes k end ∗
   MEM_POOL_BLOCKS_rest pb ↦ head_pb lvs)%I.

Lemma pb_own_fields l lvs :
  pb_own l lvs ⊣⊢ MEM_POOL_BLOCKS_block (l_pb l) ↦ head_block (blocks_of (l :: lvs)) ∗
    MEM_POOL_BLOCKS_large_block (l_pb l) ↦ head_large (l_large l) ∗ base_own (l_pb l) lvs.
Proof. unfold pb_own. by rw words_fields6. Qed.

Lemma pool_open pool bz l lvs :
  pool_own pool bz (l :: lvs) ⊣⊢
    ⌈1 < pool⌉ ∗ ⌈level_ok l lvs⌉ ∗ MEM_POOL_blocks pool ↦ l_pb l ∗ MEM_POOL_bz pool ↦ Z.b2z bz ∗
    MEM_POOL_BLOCKS_block (l_pb l) ↦ head_block (blocks_of (l :: lvs)) ∗
    MEM_POOL_BLOCKS_large_block (l_pb l) ↦ head_large (l_large l) ∗
    base_own (l_pb l) lvs ∗ large_own (l_pb l) 0 (l_large l) 0 ∗
    levels_own lvs ∗ blocks_own bz (blocks_of (l :: lvs)).
Proof.
  unfold pool_own. cbn [levels_own head_pb]. rw pb_own_fields.
  iSplit; [iIntros "(%Hp & Hb & Hbz & (%Hok & (? & ? & ?) & ? & ?) & ?)"
          |iIntros "(%Hp & %Hok & Hb & Hbz & ? & ? & ? & ? & ? & ?)"]; iFrame; by iPureIntro.
Qed.

(** With other large objects *)
Definition with_large (l : level) (large : list (Z * nat)) : level :=
  Level (l_pb l) (l_news l) (l_cur l) (l_small l) large.

Lemma with_large_ok l lvs large : level_ok l lvs -> level_ok (with_large l large) lvs.
Proof. intros [H1 H2 H3 H4 H5 H6]. by split. Qed.
