(* ===== verification/MemPoolAlloc.v ===== *)
(** Allocation from a pool ([MEM_POOL_Alloc]): what [Raw_Allocate] does to the memory
    of the pool. *)
From Stdlib Require Import ZArith Lia Bool.
From stdpp Require Import prelude gmap list.
From iris.proofmode Require Import proofmode.
From S2P Require Import Prelude.
From S2P Require Import MemHeap.
From S2P Require Import MemLogic.
From S2P Require Import MemPool.
From S2P Require Import MemPoolRep.

(** * Sizes *)
Lemma PAD_TO_ALIGN_low size : PAD_TO_ALIGN size = 8 * (uwrap 32 (size + 7) / 8).
Proof.
  unfold PAD_TO_ALIGN.
  change (uwrap 32 (Z.shiftl (Z.ones 32) 3)) with (Z.land (Z.ones 32) (Z.lnot (Z.ones 3))).
  rw Z.land_assoc Z.land_ones // -Z.ldiff_land Z.ldiff_ones_r // Z.shiftr_div_pow2 // Z.shiftl_mul_pow2 //.
  unfold uwrap. rw Z.mod_mod_divide; [by apply Z.mul_comm|]. exists (2 ^ 32). done.
Qed.

Definition padded (size : Z) : nat := Z.to_nat ((size + 7) / 8).

Lemma PAD_TO_ALIGN_spec size : 0 <= size < 2 ^ 32 - 7 -> PAD_TO_ALIGN size = 8 * Z.of_nat (padded size).
Proof.
  intros Hs. rw PAD_TO_ALIGN_low uwrap_id; [|unfold in_u; lia]. unfold padded.
  rw Z2Nat.id //. apply Z.div_pos; lia.
Qed.

Section alloc.
Context `{AllocatorLaws} `{Image}.

Lemma malloc_or_die_ok size (R : Z -> hprop) : 0 <= size ->
  (∀ a, ⌈room a size⌉ ∗ region a size ∗ area a (words_of size) -∗ R a) -∗ wp (malloc_or_die size) R.
Proof.
  iIntros (Hs) "HR". unfold malloc_or_die. wp_step. iApply (libc_malloc_ok with "[HR]"); [done|].
  iIntros (a) "[->|(%Hr & Hreg & Ha)]"; [iApply (wp_fatal with "HR")|].
  rw (proj2 (Z.eqb_neq a 0)); [|destruct Hr; lia]. wret. iApply "HR". by iFrame.
Qed.

Lemma bzero_ok a n (R : unit -> hprop) :
  area a n -∗ (words a (replicate n 0) -∗ R tt) -∗ wp (bzero a (8 * Z.of_nat n)) R.
Proof.
  iIntros "(%ws & %Hl & H) HR". unfold bzero. rw (Z.mul_comm 8) Z.div_mul // Nat2Z.id -Hl.
  iApply (zero_words_ok with "H HR").
Qed.

(** [if (MEM_POOL_bz(pool)) bzero (...)] *)
Lemma bzero_if_ok (bz : bool) a n size (R : unit -> hprop) : size = 8 * Z.of_nat n ->
  area a n -∗ (free_words bz a n -∗ R tt) -∗ wp (if Z.b2z bz =? 0 then ret tt else bzero a size) R.
Proof.
  iIntros (->) "H HR". destruct bz; cbn [Z.b2z Z.eqb free_words].
  - iApply (bzero_ok with "H HR").
  - wret. by iApply "HR".
Qed.

Lemma area_3 a : area a 3 ⊢ ∃ x y z, a ↦ x ∗ (a + 8) ↦ y ∗ (a + 16) ↦ z.
Proof.
  iIntros "(%ws & %Hl & H)". destruct ws as [|x [|y [|z [|? ?]]]]; try done. rw words_fields3.
  iExists x, y, z. iExact "H".
Qed.

Lemma area_4 a : area a 4 ⊢ ∃ x y z t, a ↦ x ∗ (a + 8) ↦ y ∗ (a + 16) ↦ z ∗ (a + 24) ↦ t.
Proof.
  iIntros "(%ws & %Hl & H)". destruct ws as [|x [|y [|z [|t [|? ?]]]]]; try done. rw words_fields4.
  iExists x, y, z, t. iExact "H".
Qed.

Lemma MEM_POOL_block_ok pool pb (R : Z -> hprop) :
  MEM_POOL_blocks pool ↦ pb -∗ (MEM_POOL_blocks pool ↦ pb -∗ R (MEM_POOL_BLOCKS_block pb)) -∗
  wp (MEM_POOL_block pool) R.
Proof. iIntros "H HR". unfold MEM_POOL_block. wload "H". wret. by iApply "HR". Qed.

Lemma MEM_POOL_large_block_ok pool pb (R : Z -> hprop) :
  MEM_POOL_blocks pool ↦ pb -∗ (MEM_POOL_blocks pool ↦ pb -∗ R (MEM_POOL_BLOCKS_large_block pb)) -∗
  wp (MEM_POOL_large_block pool) R.
Proof. iIntros "H HR". unfold MEM_POOL_large_block. wload "H". wret. by iApply "HR". Qed.

Lemma Allocate_Block_ok pool pb bz bs (R : Z -> hprop) :
  MEM_POOL_blocks pool ↦ pb -∗ MEM_POOL_bz pool ↦ Z.b2z bz -∗
  MEM_POOL_BLOCKS_block pb ↦ head_block bs -∗ blocks_own bz bs -∗
  (∀ b, MEM_POOL_blocks pool ↦ pb -∗ MEM_POOL_bz pool ↦ Z.b2z bz -∗
        MEM_POOL_BLOCKS_block pb ↦ b -∗ blocks_own bz ((b, 0%nat) :: bs) -∗ R b) -∗
  wp (Allocate_Block pool) R.
Proof.
  iIntros "Hpb Hbz Hblk Hbs HR". unfold Allocate_Block. change (BLOCK_SIZE + _) with 8216.
  wp_step. iApply malloc_or_die_ok; [done|]. iIntros (b) "(%Hroom & Hreg & Ha)".
  change (words_of 8216) with (3 + block_words)%nat.
  wload "Hbz". wp_step. iApply (bzero_if_ok with "Ha"); [done|]. iIntros "Ha".
  iDestruct (free_words_app with "Ha") as "[Hh Ha]".
  iDestruct (free_words_area with "Hh") as "Hh". iDestruct (area_3 with "Hh") as (x y z) "(Hav & Hptr & Hrest)".
  wstore "Hav". wstore "Hptr". wp_step. iApply (MEM_POOL_block_ok with "Hpb"). iIntros "Hpb".
  wload "Hblk". wstore "Hrest". wstore "Hblk". wret.
  iApply ("HR" with "Hpb Hbz Hblk"). iFrame "Hbs". unfold block_own, in_use, free_bytes.
  rw Z.add_0_r Nat.sub_0_r. iFrame. iPureIntro. split; [done|unfold block_words; lia].
Qed.

(** Cutting [n] words from the current block *)
Lemma carve bz b k n : (k + n <= block_words)%nat ->
  free_words bz (in_use b k) (block_words - k) ⊣⊢
  free_words bz (in_use b k) n ∗ free_words bz (in_use b (k + n)) (block_words - (k + n)).
Proof.
  intros Hn. rw (_ : block_words - k = n + (block_words - (k + n)))%nat; [|lia].
  rw free_words_app. unfold in_use. by rw Nat2Z.inj_add Z.mul_add_distr_l Z.add_assoc.
Qed.

Lemma cut_ok bz b k next n (R : Z -> hprop) : (k + n <= block_words)%nat ->
  block_own bz b k next -∗
  (block_own bz b (k + n) next -∗ free_words bz (in_use b k) n -∗ R (in_use b k)) -∗
  wp (do* result := load (MEM_BLOCK_ptr b) in
      run* store (MEM_BLOCK_ptr b) (result + 8 * Z.of_nat n) in
      do* avail := load (MEM_BLOCK_avail b) in
      run* store (MEM_BLOCK_avail b) (uwrap 64 (avail - 8 * Z.of_nat n)) in
      ret result) R.
Proof.
  iIntros (Hk) "((%Hroom & %Hb) & Hreg & Hav & Hptr & Hrest & Hfree) HR".
  wload "Hptr". wstore "Hptr". wload "Hav". wstore "Hav". wret.
  rw (carve bz b k n) //. iDestruct "Hfree" as "[Hobj Hfree]".
  iApply ("HR" with "[-Hobj] Hobj"). unfold block_own.
  rw (_ : uwrap 64 (free_bytes k - 8 * Z.of_nat n) = free_bytes (k + n));
    [|unfold free_bytes, block_words in *; rw uwrap_id; [lia|unfold in_u; lia]].
  rw (_ : in_use b k + 8 * Z.of_nat n = in_use b (k + n)); [|unfold in_use; lia].
  iFrame. by iPureIntro.
Qed.

(** [Raw_Allocate] on the blocks: the object is cut from the first block, which is new when
    there is no room. *)
Lemma Raw_Allocate_small_ok pool pb bz bs n (R : Z -> hprop) : 8 * Z.of_nat n <= MIN_LARGE_BLOCK_SIZE ->
  MEM_POOL_blocks pool ↦ pb -∗ MEM_POOL_bz pool ↦ Z.b2z bz -∗
  MEM_POOL_BLOCKS_block pb ↦ head_block bs -∗ blocks_own bz bs -∗
  (∀ b k bs', ⌈bs = (b, k) :: bs' \/ bs = bs' /\ k = 0%nat⌉ -∗
      MEM_POOL_blocks pool ↦ pb -∗ MEM_POOL_bz pool ↦ Z.b2z bz -∗
      MEM_POOL_BLOCKS_block pb ↦ b -∗ blocks_own bz ((b, k + n)%nat :: bs') -∗
      free_words bz (in_use b k) n -∗ R (in_use b k)) -∗
  wp (Raw_Allocate pool (8 * Z.of_nat n)) R.
Proof.
  iIntros (Hn) "Hpb Hbz Hblk Hbs HR". unfold Raw_Allocate. rw (proj2 (Z.leb_le _ _)) //.
  unfold MIN_LARGE_BLOCK_SIZE in Hn.
  wp_step. iApply (MEM_POOL_block_ok with "Hpb"). iIntros "Hpb". wload "Hblk". wp_step.
  iAssert (∀ R', (∀ full, blocks_own bz bs -∗
      ⌈full = false -> exists b k bs', bs = (b, k) :: bs' /\ (k + n <= block_words)%nat⌉ -∗ R' full) -∗
    wp (if head_block bs =? 0 then ret true else
        do* avail := load (MEM_BLOCK_avail (head_block bs)) in ret (avail <? uwrap 64 (8 * Z.of_nat n))) R')%I
    with "[Hbs]" as "Hfull".
  { iIntros (R') "HR'". destruct bs as [|[b k] bs]; cbn [head_block blocks_own].
    - wret. by iApply ("HR'" with "Hbs").
    - iDestruct "Hbs" as "[((%Hroom & %Hb) & Hreg & Hav & Hown) Hbs]".
      rw (proj2 (Z.eqb_neq b 0)); [|destruct Hroom; lia]. wload "Hav". wret.
      iApply ("HR'" with "[-]"); [by iFrame; iPureIntro|]. iPureIntro. intros Hf.
      exists b, k, bs. split; [done|]. apply Z.ltb_ge in Hf. rw uwrap_id in Hf; [|unfold in_u; lia].
      unfold free_bytes, block_words in *. lia. }
  iApply "Hfull". iIntros (full) "Hbs %Hfull". wp_step. destruct full.
  - iApply (Allocate_Block_ok with "Hpb Hbz Hblk Hbs"). iIntros (b) "Hpb Hbz Hblk [Hb Hbs]".
    iApply (cut_ok with "Hb"); [unfold block_words; lia|]. iIntros "Hb Hobj".
    iApply ("HR" with "[] Hpb Hbz Hblk [Hb Hbs] Hobj"); [iPureIntro; by right|]. cbn [blocks_own]. iFrame.
  - destruct Hfull as (b & k & bs' & -> & Hk); [done|]. cbn [head_block blocks_own].
    iDestruct "Hbs" as "[Hb Hbs]". wret.
    iApply (cut_ok with "Hb"); [done|]. iIntros "Hb Hobj".
    iApply ("HR" with "[] Hpb Hbz Hblk [Hb Hbs] Hobj"); [iPureIntro; by left|]. cbn [blocks_own]. iFrame.
Qed.

(** Objects are aligned, and their address is not [NULL]. *)
Definition valid_ptr (r : Z) : Prop := 0 < r /\ r mod 8 = 0.

Lemma valid_ptr_add b i size : room b size -> valid_ptr (b + 8 * Z.of_nat i).
Proof. intros (Hp & Ha & _). split; [lia|]. by rw Z.mul_comm Z.mod_add. Qed.

Lemma pool_alloc_small pool bz l lvs n (R : Z -> hprop) : 8 * Z.of_nat n <= MIN_LARGE_BLOCK_SIZE ->
  pool_own pool bz (l :: lvs) -∗
  (∀ r l', ⌈valid_ptr r /\ grown l l' (r, n)⌉ -∗ pool_own pool bz (l' :: lvs) -∗ free_words bz r n -∗ R r) -∗
  wp (Raw_Allocate pool (8 * Z.of_nat n)) R.
Proof.
  iIntros (Hn) "Hp HR". rw pool_open.
  iDestruct "Hp" as "(%Hp & %Hok & Hpb & Hbz & Hblk & Hlarge & Hbase & Hll & Hlvs & Hbs)".
  iApply (Raw_Allocate_small_ok with "Hpb Hbz Hblk Hbs"); [done|].
  iIntros (b k bs) "%Hbs Hpb Hbz Hblk Hbs Hobj".
  assert (exists l', cut_from l l' lvs b k n bs /\ level_ok l' lvs) as (l' & [Hg Hb _] & Hok').
  { destruct Hbs as [Hbs|[<- ->]]; eexists; [by apply advance_ok|by apply add_block_ok]. }
  pose proof Hg as (Hpb & Hl & _).
  iAssert (⌈valid_ptr (in_use b k)⌉ ∗ blocks_own bz ((b, (k + n)%nat) :: bs))%I with "[Hbs]" as "[%Hr Hbs]".
  { iDestruct "Hbs" as "[((%Hroom & %Hk) & Hb) Hbs]". iSplit; [|iFrame; by iPureIntro].
    iPureIntro. unfold in_use. rw (_ : b + 24 + 8 * Z.of_nat k = b + 8 * Z.of_nat (3 + k)); [|lia].
    by eapply valid_ptr_add. }
  iApply ("HR" $! _ l' with "[//] [-Hobj] Hobj"). rw pool_open Hpb Hl Hb. cbn [head_block]. iFrame.
  by iPureIntro.
Qed.

(** [if (next) MEM_LARGE_BLOCK_prev(next) = ...] *)
Lemma set_prev_ok base prev v ls (R : unit -> hprop) :
  large_own base prev ls 0 -∗ (large_own base v ls 0 -∗ R tt) -∗
  wp (if head_large ls =? 0 then ret tt else store (MEM_LARGE_BLOCK_prev (head_large ls)) v) R.
Proof.
  iIntros "Hls HR". destruct ls as [|[h n] ls]; cbn [head_large large_own].
  - wret. by iApply "HR".
  - iDestruct "Hls" as "[(%Hroom & Hreg & Hnext & Hprev & Hown) Hls]".
    rw (proj2 (Z.eqb_neq h 0)); [|destruct Hroom; lia]. wstore "Hprev".
    iApply "HR". iFrame. by iPureIntro.
Qed.

Lemma words_of_bytes n : words_of (8 * Z.of_nat n) = n.
Proof. unfold words_of. by rw (Z.mul_comm 8) Z.div_mul // Nat2Z.id. Qed.

Lemma large_own_cons base prev h n ls :
  large_own base prev ((h, n) :: ls) 0 = (large_header base prev (head_large ls) h n ∗ large_own base h ls 0)%I.
Proof. by destruct ls as [|[]]. Qed.

(** A large object is a region of its own. *)
Lemma Allocate_Large_Block_ok pool pb bz ls n (R : Z -> hprop) : 8 * Z.of_nat n + 32 < 2 ^ 31 ->
  MEM_POOL_blocks pool ↦ pb -∗ MEM_POOL_bz pool ↦ Z.b2z bz -∗
  MEM_POOL_BLOCKS_large_block pb ↦ head_large ls -∗ large_own pb 0 ls 0 -∗
  (∀ h, MEM_POOL_blocks pool ↦ pb -∗ MEM_POOL_bz pool ↦ Z.b2z bz -∗
        MEM_POOL_BLOCKS_large_block pb ↦ h -∗ large_own pb 0 ((h, n) :: ls) 0 -∗
        free_words bz (h + 32) n -∗ R (h + 32)) -∗
  wp (Allocate_Large_Block pool (8 * Z.of_nat n)) R.
Proof.
  iIntros (Hn) "Hpb Hbz Hlarge Hls HR". unfold Allocate_Large_Block. change MEM_LARGE_BLOCK_OVERHEAD with 32.
  rw swrap_id //; [|unfold in_s; lia]. rw uwrap_id; [|unfold in_u; lia].
  wp_step. iApply malloc_or_die_ok; [lia|]. iIntros (h) "(%Hroom & Hreg & Ha)".
  rw (_ : 8 * Z.of_nat n + 32 = 8 * Z.of_nat (4 + n)) in Hroom *; [|lia]. rw words_of_bytes.
  wload "Hbz". wp_step. iApply (bzero_if_ok with "Ha"); [lia|]. iIntros "Ha".
  iDestruct (free_words_app with "Ha") as "[Hh Ha]".
  iDestruct (free_words_area with "Hh") as "Hh". iDestruct (area_4 with "Hh") as (x y z t) "(Hx & Hy & Hz & Ht)".
  wstore "Ht". wload "Hpb". wstore "Hz". wp_step. iApply (MEM_POOL_large_block_ok with "Hpb"). iIntros "Hpb".
  wload "Hlarge". wstore "Hx". wstore "Hy". wp_step. iApply (set_prev_ok with "Hls"). iIntros "Hls".
  wstore "Hlarge". wload "Ht". iApply ("HR" with "Hpb Hbz Hlarge [-Ha] Ha").
  rw large_own_cons. unfold large_header. rw (_ : 32 + 8 * Z.of_nat n = 8 * Z.of_nat (4 + n)); [|lia].
  iFrame. by iPureIntro.
Qed.

Lemma pool_alloc_large pool bz l lvs n (R : Z -> hprop) : 8 * Z.of_nat n + 32 < 2 ^ 31 ->
  pool_own pool bz (l :: lvs) -∗
  (∀ h, ⌈valid_ptr (h + 32)⌉ -∗ pool_own pool bz (with_large l ((h, n) :: l_large l) :: lvs) -∗
        free_words bz (h + 32) n -∗ R (h + 32)) -∗
  wp (Allocate_Large_Block pool (8 * Z.of_nat n)) R.
Proof.
  iIntros (Hn) "Hp HR". rw pool_open.
  iDestruct "Hp" as "(%Hp & %Hok & Hpb & Hbz & Hblk & Hlarge & Hbase & Hll & Hlvs & Hbs)".
  iApply (Allocate_Large_Block_ok with "Hpb Hbz Hlarge Hll"); [done|].
  iIntros (h) "Hpb Hbz Hlarge Hll Hobj".
  iAssert (⌈valid_ptr (h + 32)⌉ ∗ large_own (l_pb l) 0 ((h, n) :: l_large l) 0)%I with "[Hll]" as "[%Hr Hll]".
  { rw large_own_cons. iDestruct "Hll" as "[(%Hroom & Hh) Hll]". iSplit; [|iFrame; by iPureIntro].
    iPureIntro. apply (valid_ptr_add h 4 _ Hroom). }
  iApply ("HR" with "[//] [-Hobj] Hobj"). rw pool_open. iFrame.
  iPureIntro. split; [done|]. by apply with_large_ok.
Qed.
End alloc.
