(* ===== verification/MemPoolLarge.v ===== *)
(** The doubly linked list of the large objects of a level: taking one out
    ([MEM_POOL_FREE]) and moving one ([MEM_POOL_Realloc]). *)
From Stdlib Require Import ZArith Lia Bool.
From stdpp Require Import prelude gmap list.
From iris.proofmode Require Import proofmode.
From S2P Require Import Prelude.
From S2P Require Import MemHeap.
From S2P Require Import MemLogic.
From S2P Require Import MemPool.
From S2P Require Import MemPoolRep.
From S2P Require Import MemPoolAlloc.

(** * Segments *)
Definition first_large (next : Z) (ls : list (Z * nat)) : Z := match ls with [] => next | (h, _) :: _ => h end.
Fixpoint last_large (prev : Z) (ls : list (Z * nat)) : Z :=
  match ls with [] => prev | (h, _) :: ls => last_large h ls end.

Lemma large_own_app base prev l1 l2 next :
  large_own base prev (l1 ++ l2) next ⊣⊢
  large_own base prev l1 (first_large next l2) ∗ large_own base (last_large prev l1) l2 next.
Proof.
  revert prev. induction l1 as [|[h n] l1 IH]; intros prev; cbn [app large_own last_large]; [by rw left_id|].
  rw IH assoc. by destruct l1 as [|[] ?], l2 as [|[] ?].
Qed.

Lemma large_own_snoc base prev l1 h n next :
  large_own base prev (l1 ++ [(h, n)]) next ⊣⊢
  large_own base prev l1 h ∗ large_header base (last_large prev l1) next h n.
Proof. rw large_own_app. cbn [large_own first_large]. by rw right_id. Qed.

Lemma last_large_snoc prev l1 h n : last_large prev (l1 ++ [(h, n)]) = h.
Proof. revert prev. induction l1 as [|[] l1 IH]; intros prev; [done|apply IH]. Qed.

Section large.
Context `{AllocatorLaws} `{Image}.

(** The head of the list or the previous block is made to point to [v]. *)
Lemma set_next_ok pool pb base l1 x next v (R : unit -> hprop) :
  MEM_POOL_blocks pool ↦ pb -∗ MEM_POOL_BLOCKS_large_block pb ↦ first_large x l1 -∗ large_own base 0 l1 next -∗
  (MEM_POOL_blocks pool ↦ pb -∗ MEM_POOL_BLOCKS_large_block pb ↦ first_large v l1 -∗
   large_own base 0 l1 v -∗ R tt) -∗
  wp (if last_large 0 l1 =? 0 then do* head := MEM_POOL_large_block pool in store head v
      else store (MEM_LARGE_BLOCK_next (last_large 0 l1)) v) R.
Proof.
  iIntros "Hpb Hlarge Hls HR". destruct l1 as [|[h n] l1 _] using rev_ind.
  - cbn [last_large first_large Z.eqb]. wp_step. iApply (MEM_POOL_large_block_ok with "Hpb"). iIntros "Hpb".
    wstore "Hlarge". iApply ("HR" with "Hpb Hlarge Hls").
  - rw last_large_snoc !large_own_snoc. iDestruct "Hls" as "[Hls (%Hroom & Hreg & Hnext & Hown)]".
    rw (proj2 (Z.eqb_neq h 0)); [|destruct Hroom; lia]. wstore "Hnext".
    iApply ("HR" with "Hpb [Hlarge] [-]"); [by destruct l1 as [|[] ?]|]. iFrame. by iPureIntro.
Qed.

(** The words of a large block, for [free] and [realloc] *)
Lemma header_words h next prev base ptr ws :
  MEM_LARGE_BLOCK_next h ↦ next ∗ MEM_LARGE_BLOCK_prev h ↦ prev ∗ MEM_LARGE_BLOCK_base h ↦ base ∗
  MEM_LARGE_BLOCK_ptr h ↦ ptr ∗ words (h + 32) ws ⊣⊢ words h ([next; prev; base; ptr] ++ ws).
Proof. by rw words_app words_fields4 !assoc. Qed.

Lemma header_bytes (x y z t : Z) ws n :
  length ws = n -> 32 + 8 * Z.of_nat n = 8 * zlen ([x; y; z; t] ++ ws).
Proof. intros <-. unfold zlen. rw length_app. cbn [length]. lia. Qed.

Lemma MEM_LARGE_BLOCK_free_ok base prev next h n (R : unit -> hprop) :
  large_header base prev next h n -∗ area (h + 32) n -∗ R tt -∗ wp (MEM_LARGE_BLOCK_free h) R.
Proof.
  iIntros "(%Hroom & Hreg & Hnext & Hprev & Hbase & Hptr) (%ws & %Hl & Hws) HR".
  unfold MEM_LARGE_BLOCK_free, MEM_LARGE_BLOCK_zap. wp_step. wstore "Hbase". wstore "Hptr".
  iApply (free_ok with "[Hreg] [-HR] HR"); [destruct Hroom; lia| |iApply (header_words _ next prev 0 0); iFrame].
  by rw (header_bytes next prev 0 0 ws).
Qed.

(** [MEM_POOL_FREE] of a large object of the current level *)
Lemma pool_free_large pool bz l lvs l1 h n l2 (R : unit -> hprop) :
  l_large l = l1 ++ (h, n) :: l2 ->
  pool_own pool bz (l :: lvs) -∗ area (h + 32) n -∗
  (pool_own pool bz (with_large l (l1 ++ l2) :: lvs) -∗ R tt) -∗
  wp (MEM_POOL_FREE pool (h + 32)) R.
Proof.
  iIntros (Hl) "Hp Ha HR". rw pool_open Hl large_own_app large_own_cons.
  iDestruct "Hp" as "(%Hp & %Hok & Hpb & Hbz & Hblk & Hlarge & Hbase & (Hl1 & (%Hroom & Hreg & Hnext & Hprev & Hb & Hptr) & Hl2) & Hown)".
  unfold MEM_POOL_FREE, default_pool, Default_Mem_Pool, Malloc_Mem_Pool. change MEM_LARGE_BLOCK_OVERHEAD with 32.
  rw (proj2 (Z.eqb_neq (h + 32) 0)); [|destruct Hroom; lia].
  rw (proj2 (Z.eqb_neq pool 0)); [|lia]. wret. rw (proj2 (Z.eqb_neq pool 1)); [|lia].
  rw (_ : h + 32 - 32 = h); [|lia]. wload "Hptr". rw Z.eqb_refl. cbn [negb].
  wload "Hb". wload "Hpb". rw Z.eqb_refl. cbn [negb]. wload "Hprev". wload "Hnext". wp_step.
  iApply (set_next_ok _ _ _ l1 h with "Hpb [Hlarge] Hl1"); [by destruct l1 as [|[]]|].
  iIntros "Hpb Hlarge Hl1". wp_step. iApply (set_prev_ok with "Hl2"). iIntros "Hl2".
  iApply (MEM_LARGE_BLOCK_free_ok with "[Hreg Hnext Hprev Hb Hptr] Ha"); [iFrame; by iPureIntro|].
  iApply "HR". rw pool_open large_own_app. cbn [with_large l_pb l_large]. iFrame.
  iSplit; [done|]. iSplit; [iPureIntro; by apply with_large_ok|]. by destruct l1 as [|[]].
Qed.

(** ** Moving a large object *)
Lemma MEM_LARGE_BLOCK_realloc_ok base prev next h ws m (R : Z -> hprop) : 8 * Z.of_nat (4 + m) < 2 ^ 64 ->
  large_header base prev next h (length ws) -∗ words (h + 32) ws -∗
  (∀ a, (⌈a = 0⌉ ∗ True) ∨
        (∃ more, ⌈room a (32 + 8 * Z.of_nat m) /\ (length (take m ws ++ more) = m)%nat⌉ ∗
           region a (32 + 8 * Z.of_nat m) ∗
           MEM_LARGE_BLOCK_next a ↦ next ∗ MEM_LARGE_BLOCK_prev a ↦ prev ∗
           MEM_LARGE_BLOCK_base a ↦ base ∗ MEM_LARGE_BLOCK_ptr a ↦ (h + 32) ∗
           words (a + 32) (take m ws ++ more)) -∗ R a) -∗
  wp (MEM_LARGE_BLOCK_realloc h (8 * Z.of_nat (4 + m))) R.
Proof.
  iIntros (Hm) "(%Hroom & Hreg & Hnext & Hprev & Hb & Hptr) Hws HR".
  unfold MEM_LARGE_BLOCK_realloc, MEM_LARGE_BLOCK_zap. wload "Hb". wload "Hptr".
  wp_step. wstore "Hb". wstore "Hptr". rw uwrap_id; [|unfold in_u; lia]. wp_step.
  iApply (libc_realloc_ok h ([next; prev; 0; 0] ++ ws) with "[Hreg] [-HR]"); [destruct Hroom; lia| | |].
  { by rw (header_bytes next prev 0 0 ws). }
  { iApply (header_words _ next prev 0 0). iFrame. }
  iIntros (a) "[(-> & H)|(%more & (%Hr & %Hl) & Hreg & Hws)]".
  - wp_step. cbn [Z.eqb]. wret. wret. iApply "HR". iLeft. by iFrame.
  - rw (proj2 (Z.eqb_neq a 0)); [|destruct Hr; lia].
    change (4 + m)%nat with (S (S (S (S m)))). cbn [plus app take length] in Hl. cbn [app take].
    rw -(header_words a next prev 0 0 (take m ws ++ more)).
    iDestruct "Hws" as "(Hnext & Hprev & Hb & Hptr & Hws)".
    wp_step. wstore "Hb". wstore "Hptr". wret. iApply "HR". iRight. iExists more.
    rw (_ : 32 + 8 * Z.of_nat m = 8 * Z.of_nat (4 + m)); [|lia]. iFrame. iPureIntro. split; [done|lia].
Qed.

(** What a new or moved object contains: the old words that fit, then anything, or zeros in
    a pool that clears its memory. *)
Definition copied (bz : bool) (a : Z) (ws : list Z) (m : nat) : hprop :=
  (words a (take m ws) ∗ free_words bz (a + 8 * Z.of_nat (length (take m ws))) (m - length ws))%I.

(** [if (MEM_POOL_bz(pool)) bzero (...)] on the bytes that are new *)
Lemma clear_rest_ok (bz : bool) a ws more m (R : unit -> hprop) :
  length (take m ws ++ more) = m -> (bz = true -> (length ws <= m)%nat) -> 8 * Z.of_nat m < 2 ^ 64 ->
  words a (take m ws ++ more) -∗ (copied bz a ws m -∗ R tt) -∗
  wp (if Z.b2z bz =? 0 then ret tt else
      bzero (a + 8 * Z.of_nat (length ws)) (uwrap 64 (8 * Z.of_nat m - 8 * Z.of_nat (length ws)))) R.
Proof.
  iIntros (Hl Hbz Hm) "H HR". rw words_app. iDestruct "H" as "[H1 H2]".
  assert (Hmore : length more = (m - length ws)%nat) by (rw length_app length_take in Hl; lia).
  unfold copied. destruct bz; cbn [Z.b2z Z.eqb free_words].
  - specialize (Hbz eq_refl). rw (take_ge ws) //. rw uwrap_id; [|unfold in_u; lia].
    rw (_ : 8 * Z.of_nat m - 8 * Z.of_nat (length ws) = 8 * Z.of_nat (m - length ws)); [|lia].
    iApply (bzero_ok with "[H2]"); [iExists more; by iFrame|]. iIntros "H2". iApply "HR". iFrame.
  - wret. iApply "HR". iFrame "H1". iExists more. by iFrame.
Qed.

Lemma realloc_large_ok pool bz l lvs l1 h ws l2 m (R : Z -> hprop) :
  l_large l = l1 ++ (h, length ws) :: l2 -> (bz = true -> (length ws <= m)%nat) -> 8 * Z.of_nat m + 32 < 2 ^ 64 ->
  pool_own pool bz (l :: lvs) -∗ words (h + 32) ws -∗
  (∀ h', ⌈valid_ptr (h' + 32)⌉ -∗ pool_own pool bz (with_large l (l1 ++ (h', m) :: l2) :: lvs) -∗
        copied bz (h' + 32) ws m -∗ R (h' + 32)) -∗
  wp (realloc_large pool (h + 32) (8 * Z.of_nat (length ws)) (8 * Z.of_nat m)) R.
Proof.
  iIntros (Hl Hbz Hm) "Hp Hws HR". rw pool_open Hl large_own_app large_own_cons.
  iDestruct "Hp" as "(%Hp & %Hok & Hpb & Hbz & Hblk & Hlarge & Hbase & (Hl1 & Hh & Hl2) & Hown)".
  unfold realloc_large. change MEM_LARGE_BLOCK_OVERHEAD with 32. rw (_ : h + 32 - 32 = h); [|lia].
  rw (_ : 8 * Z.of_nat m + 32 = 8 * Z.of_nat (4 + m)); [|lia]. wp_step.
  iApply (MEM_LARGE_BLOCK_realloc_ok with "Hh Hws"); [lia|].
  iIntros (h') "[[-> H]|(%more & (%Hroom & %Hlen) & Hreg & Hnext & Hprev & Hb & Hptr & Hws)]".
  { iApply (wp_fatal with "[-]"). iAccu. }
  rw (proj2 (Z.eqb_neq h' 0)); [|destruct Hroom; lia]. wstore "Hptr". wload "Hbz".
  wp_step. iApply (clear_rest_ok with "Hws"); [done..|lia|]. iIntros "Hws". wload "Hprev". wp_step.
  iApply (set_next_ok _ _ _ l1 h with "Hpb [Hlarge] Hl1"); [by destruct l1 as [|[]]|].
  iIntros "Hpb Hlarge Hl1". wload "Hnext". wp_step. iApply (set_prev_ok with "Hl2"). iIntros "Hl2".
  wload "Hptr". iApply ("HR" with "[] [-Hws] Hws"); [iPureIntro; by apply (valid_ptr_add h' 4 _ Hroom)|].
  rw pool_open large_own_app large_own_cons. cbn [with_large l_pb l_large first_large]. iFrame.
  iSplit; [done|]. iSplit; [iPureIntro; by apply with_large_ok|]. iSplit; [by destruct l1 as [|[]]|done].
Qed.
End large.
