(* ===== verification/MemPoolRealloc.v ===== *)
(** Reallocation ([MEM_POOL_Realloc]) and the cases in which [MEM_POOL_FREE] does nothing. *)
From Stdlib Require Import ZArith Lia Bool.
From stdpp Require Import prelude gmap list.
From iris.proofmode Require Import proofmode.
From S2P Require Import Prelude.
From S2P Require Import MemHeap.
From S2P Require Import MemLogic.
From S2P Require Import MemPool.
From S2P Require Import MemPoolRep.
From S2P Require Import MemPoolAlloc.
From S2P Require Import MemPoolLarge.

(** Small and large objects, by the number of words *)
Definition is_small (n : nat) : bool := 8 * Z.of_nat n <=? MIN_LARGE_BLOCK_SIZE.

(** The level after an object of [n] words at [r] is allocated *)
Definition added (l l' : level) (r : Z) (n : nat) : Prop :=
  valid_ptr r /\
  if is_small n then grown l l' (r, n) else l' = with_large l ((r - 32, n) :: l_large l).

(** Sizes the 32-bit computations of the allocator cope with *)
Definition size_ok (n : nat) : Prop := 8 * Z.of_nat n + 32 < 2 ^ 31.

Section realloc.
Context `{AllocatorLaws} `{Image}.

Lemma raw_allocate_ok pool bz l lvs n (R : Z -> hprop) : size_ok n ->
  pool_own pool bz (l :: lvs) -∗
  (∀ r l', ⌈added l l' r n⌉ -∗ pool_own pool bz (l' :: lvs) -∗ free_words bz r n -∗ R r) -∗
  wp (Raw_Allocate pool (swrap 32 (8 * Z.of_nat n))) R.
Proof.
  iIntros (Hn) "Hp HR". unfold size_ok in Hn. rw swrap_id //; [|unfold in_s; lia]. unfold added, is_small.
  destruct (8 * Z.of_nat n <=? MIN_LARGE_BLOCK_SIZE) eqn:Hs.
  - apply Z.leb_le in Hs. by iApply (pool_alloc_small with "Hp").
  - unfold Raw_Allocate. rw Hs. iApply (pool_alloc_large with "Hp"); [done|].
    iIntros (h) "%Hv Hp Hobj". iApply ("HR" with "[] Hp Hobj"). iPureIntro. split; [done|]. do 3 f_equal. lia.
Qed.

(** [bcopy] of the first [k] words *)
Lemma bcopy_ok src ws dst k (R : unit -> hprop) : (k <= length ws)%nat ->
  words src ws -∗ area dst k -∗ (words src ws -∗ words dst (take k ws) -∗ R tt) -∗
  wp (bcopy src dst (8 * Z.of_nat k)) R.
Proof.
  iIntros (Hk) "Hs (%vs & %Hl & Hd) HR". unfold bcopy. rw (Z.mul_comm 8) Z.div_mul // Nat2Z.id. wp_step.
  assert (Ht : length (take k ws) = k) by (rw length_take; lia).
  assert (Hsplit : words src ws ⊣⊢ words src (take k ws) ∗ words (src + 8 * zlen (take k ws)) (drop k ws))
    by by rw -words_app take_drop.
  rw Hsplit. iDestruct "Hs" as "[Hs Hrest]". rw (_ : load_words src k = load_words src (length (take k ws))); [|by rw Ht].
  iApply (load_words_ok with "Hs"). iIntros "Hs". iApply (store_words_ok with "Hd"); [lia|].
  iIntros "Hd". iApply ("HR" with "[$Hs $Hrest] Hd").
Qed.

(** The object is copied to a new one and stays. *)
Lemma allocate_copy_ok pool bz l lvs r ws m (R : Z -> hprop) : size_ok m ->
  pool_own pool bz (l :: lvs) -∗ words r ws -∗
  (∀ r' l', ⌈added l l' r' m⌉ -∗ pool_own pool bz (l' :: lvs) -∗ words r ws -∗ copied bz r' ws m -∗ R r') -∗
  wp (allocate_copy pool (8 * Z.of_nat m) r (8 * Z.of_nat (length ws `min` m))) R.
Proof.
  iIntros (Hm) "Hp Hws HR". unfold allocate_copy. wp_step. iApply (raw_allocate_ok with "Hp"); [done|].
  iIntros (r' l') "%Hl' Hp Hobj". wp_step.
  assert (Hsplit : free_words bz r' m ⊣⊢ free_words bz r' (length ws `min` m) ∗
      free_words bz (r' + 8 * Z.of_nat (length ws `min` m)) (m - length ws))
    by (rw -free_words_app (_ : (length ws `min` m + (m - length ws))%nat = m); [done|lia]).
  rw Hsplit. iDestruct "Hobj" as "[Hobj Hrest]". iDestruct (free_words_area with "Hobj") as "Hobj".
  iApply (bcopy_ok with "Hws Hobj"); [lia|]. iIntros "Hws Hobj". wret.
  iApply ("HR" with "[//] Hp Hws"). unfold copied. rw length_take (Nat.min_comm m).
  rw (_ : take (length ws `min` m) ws = take m ws); [|by rw Nat.min_comm -take_take (take_ge ws)]. iFrame.
Qed.

Lemma default_pool_ok pool (R : Z -> hprop) : 1 < pool -> R pool -∗ wp (default_pool pool) R.
Proof.
  iIntros (Hp) "HR". unfold default_pool, Default_Mem_Pool. destruct (Z.eqb_spec pool 0); [lia|]. by wret.
Qed.

(** ** Finding the header of a large object *)
Lemma large_own_acc base prev ls next h n : (h, n) ∈ ls ->
  large_own base prev ls next ⊢
  ∃ pv nx, large_header base pv nx h n ∗ (large_header base pv nx h n -∗ large_own base prev ls next).
Proof.
  intros (l1 & l2 & ->)%list_elem_of_split. iIntros "H".
  iDestruct (large_own_app with "H") as "[H1 [H2 H3]]". iExists _, _. iFrame "H2". iIntros "H2".
  iApply large_own_app. cbn [large_own]. iFrame.
Qed.

Lemma levels_own_acc l lvs h n : l ∈ lvs -> (h, n) ∈ l_large l ->
  levels_own lvs ⊢
  ∃ pv nx v, large_header (l_pb l) pv nx h n ∗ l_pb l ↦ v ∗
    (large_header (l_pb l) pv nx h n -∗ l_pb l ↦ v -∗ levels_own lvs).
Proof.
  intros Hl Hh. induction lvs as [|l' lvs IH]; [by apply not_elem_of_nil in Hl|].
  cbn [levels_own]. iIntros "(%Hok & Hpb & Hlarge & Hlvs)".
  apply elem_of_cons in Hl as [->|Hl].
  - iDestruct (large_own_acc with "Hlarge") as (pv nx) "[Hh Hclose]"; [done|].
    iDestruct (pb_own_fields with "Hpb") as "[Hv Hpb]". iExists _, _, _. iFrame "Hh Hv". iIntros "Hh Hv".
    iSplit; [done|]. iDestruct ("Hclose" with "Hh") as "Hlarge". iFrame "Hlarge Hlvs". iApply pb_own_fields. iFrame.
  - iDestruct (IH with "Hlvs") as (pv nx v) "(Hh & Hv & Hclose)"; [done|].
    iExists _, _, _. iFrame "Hh Hv". iIntros "Hh Hv". iSplit; [done|]. iFrame. iApply ("Hclose" with "Hh Hv").
Qed.

(** The header of a large object of the current level, and of one below *)
Lemma pool_header_current pool bz l lvs h n : (h, n) ∈ l_large l ->
  pool_own pool bz (l :: lvs) ⊢
  ∃ pv nx, large_header (l_pb l) pv nx h n ∗ MEM_POOL_blocks pool ↦ l_pb l ∗
    (large_header (l_pb l) pv nx h n -∗ MEM_POOL_blocks pool ↦ l_pb l -∗ pool_own pool bz (l :: lvs)).
Proof.
  intros Hh. iIntros "H". iDestruct (pool_open with "H") as "(%Hp & %Hok & Hpb & Hbz & Hblk & Hlarge & Hbase & Hll & Hown)".
  iDestruct (large_own_acc with "Hll") as (pv nx) "[Hh Hclose]"; [done|].
  iExists _, _. iFrame "Hh Hpb". iIntros "Hh Hpb". iDestruct ("Hclose" with "Hh") as "Hll". iApply pool_open. iFrame. by iPureIntro.
Qed.

Lemma pool_header_outer pool bz l lvs l' h n : l' ∈ lvs -> (h, n) ∈ l_large l' ->
  pool_own pool bz (l :: lvs) ⊢
  ∃ base pv nx, ⌈base <> l_pb l⌉ ∗ large_header base pv nx h n ∗ MEM_POOL_blocks pool ↦ l_pb l ∗
    (large_header base pv nx h n -∗ MEM_POOL_blocks pool ↦ l_pb l -∗ pool_own pool bz (l :: lvs)).
Proof.
  intros Hl Hh. iIntros "H". iDestruct (pool_open with "H") as "(%Hp & %Hok & Hpb & Hbz & Hblk & Hlarge & Hbase & Hll & Hlvs & Hbs)".
  iDestruct (levels_own_acc with "Hlvs") as (pv nx v) "(Hh & Hv & Hclose)"; [done..|].
  iDestruct (pt_ne with "Hv Hblk") as "(Hv & Hblk & %Hne)".
  iExists _, _, _. iFrame "Hh Hpb". iSplit; [iPureIntro; intros E; apply Hne; by rw E|].
  iIntros "Hh Hpb". iDestruct ("Hclose" with "Hh Hv") as "Hlvs". iApply pool_open. iFrame. by iPureIntro.
Qed.

Lemma valid_large_block_ok pool pb base pv nx h n (R : bool -> hprop) :
  large_header base pv nx h n -∗ MEM_POOL_blocks pool ↦ pb -∗
  (large_header base pv nx h n -∗ MEM_POOL_blocks pool ↦ pb -∗ R (base =? pb)) -∗
  wp (valid_large_block pool (h + 32)) R.
Proof.
  iIntros "(%Hroom & Hreg & Hnext & Hprev & Hb & Hptr) Hpb HR". unfold valid_large_block.
  change MEM_LARGE_BLOCK_OVERHEAD with 32. rw (_ : h + 32 - 32 = h); [|lia].
  wload "Hptr". rw Z.eqb_refl. wload "Hb". wload "Hpb". wret. iApply ("HR" with "[-Hpb] Hpb"). iFrame. by iPureIntro.
Qed.

(** ** Freeing *)
(** An object of a level below is not freed. *)
Lemma pool_free_outer pool bz l lvs l' h n (R : unit -> hprop) : l' ∈ lvs -> (h, n) ∈ l_large l' ->
  pool_own pool bz (l :: lvs) -∗ (pool_own pool bz (l :: lvs) -∗ R tt) -∗ wp (MEM_POOL_FREE pool (h + 32)) R.
Proof.
  iIntros (Hl Hh) "Hp HR". iAssert (⌈1 < pool⌉ ∗ pool_own pool bz (l :: lvs))%I with "[Hp]" as "[%Hp Hp]".
  { iDestruct "Hp" as "(%Hp & Hp)". iSplit; [done|]. by iFrame. }
  iDestruct (pool_header_outer with "Hp") as (base pv nx) "(%Hne & (%Hroom & Hreg & Hnext & Hprev & Hb & Hptr) & Hpb & Hclose)"; [done..|].
  unfold MEM_POOL_FREE. change MEM_LARGE_BLOCK_OVERHEAD with 32. destruct (Z.eqb_spec (h + 32) 0); [destruct Hroom; lia|].
  wp_step. iApply default_pool_ok; [done|]. unfold Malloc_Mem_Pool. destruct (Z.eqb_spec pool 1); [lia|].
  rw (_ : h + 32 - 32 = h); [|lia]. wload "Hptr". rw Z.eqb_refl. cbn [negb].
  wload "Hb". wload "Hpb". rw (proj2 (Z.eqb_neq base (l_pb l))) //. cbn [negb]. wret.
  iApply "HR". iApply ("Hclose" with "[-Hpb] Hpb"). iFrame. by iPureIntro.
Qed.

(** Nothing happens when the word before the object is not its address. *)
Lemma free_no_header pool r v (R : unit -> hprop) : 1 < pool -> v <> r ->
  (r - 8) ↦ v -∗ ((r - 8) ↦ v -∗ R tt) -∗ wp (MEM_POOL_FREE pool r) R.
Proof.
  iIntros (Hp Hv) "H HR". unfold MEM_POOL_FREE. change MEM_LARGE_BLOCK_OVERHEAD with 32.
  destruct (Z.eqb_spec r 0); [wret; by iApply "HR"|].
  wp_step. iApply default_pool_ok; [done|]. unfold Malloc_Mem_Pool. destruct (Z.eqb_spec pool 1); [lia|].
  unfold MEM_LARGE_BLOCK_ptr. rw (_ : r - 32 + 24 = r - 8); [|lia].
  wload "H". rw (proj2 (Z.eqb_neq v r)) //. cbn [negb]. wret. by iApply "HR".
Qed.

Lemma pool_own_pos pool bz lvs : pool_own pool bz lvs ⊢ ⌈1 < pool⌉ ∗ pool_own pool bz lvs.
Proof. iIntros "(%Hp & H)". iSplit; [done|]. iFrame. by iPureIntro. Qed.

(** The word before the first object of a block is the link to the next block. *)
Lemma blocks_rest_acc bz bs b k (v : Z) : (b, k) ∈ bs ->
  blocks_own bz bs -∗ (b + 24) ↦ v -∗
  ∃ next, ⌈next <> (b + 24)%Z⌉ ∗ (b + 16) ↦ next ∗ ((b + 16) ↦ next -∗ blocks_own bz bs) ∗ (b + 24) ↦ v.
Proof.
  intros Hin. induction bs as [|[b' k'] bs IH]; [by apply not_elem_of_nil in Hin|]. cbn [blocks_own].
  iIntros "[Hb Hbs] Hv". apply elem_of_cons in Hin as [[= <- <-]|Hin].
  - iDestruct "Hb" as "((%Hroom & %Hk) & Hreg & Hav & Hptr & Hrest & Hfree)". iExists (head_block bs).
    iAssert (⌈head_block bs <> (b + 24)%Z⌉ ∗ blocks_own bz bs ∗ (b + 24) ↦ v)%I with "[Hbs Hv]" as "(%Hne & Hbs & Hv)".
    { destruct bs as [|[b' k'] bs]; cbn [head_block blocks_own].
      - iFrame. iPureIntro. destruct Hroom. lia.
      - iDestruct "Hbs" as "[(% & Hreg & Hav & Hown) Hbs]".
        iDestruct (pt_ne with "Hav Hv") as "(Hav & Hv & %Hne)". iFrame. iPureIntro.
        split; [intros E; apply Hne; by rw E|done]. }
    iSplit; [done|]. iFrame "Hrest Hv". iIntros "Hrest". iFrame. by iPureIntro.
  - iDestruct (IH with "Hbs Hv") as (next) "(%Hne & Hrest & Hclose & Hv)"; [done|].
    iExists next. iSplit; [done|]. iFrame "Hrest Hv". iIntros "Hrest". iFrame. by iApply "Hclose".
Qed.

Lemma pool_free_first pool bz l lvs b k v (R : unit -> hprop) : (b, k) ∈ blocks_of (l :: lvs) ->
  pool_own pool bz (l :: lvs) -∗ (b + 24) ↦ v -∗
  (pool_own pool bz (l :: lvs) -∗ (b + 24) ↦ v -∗ R tt) -∗ wp (MEM_POOL_FREE pool (b + 24)) R.
Proof.
  iIntros (Hin) "Hp Hv HR". iDestruct (pool_own_pos with "Hp") as "[%Hp Hpool]".
  iDestruct "Hpool" as "(% & Hpb & Hbz & Hlvs & Hbs)".
  iDestruct (blocks_rest_acc with "Hbs Hv") as (next) "(%Hne & Hrest & Hclose & Hv)"; [done|].
  iApply (free_no_header pool (b + 24) next with "[Hrest]"); [done..| |].
  { by rw (_ : b + 24 - 8 = b + 16); [|lia]. }
  rw (_ : b + 24 - 8 = b + 16); [|lia].
  iIntros "Hrest". iApply ("HR" with "[-Hv] Hv"). iFrame. iSplit; [done|]. by iApply "Hclose".
Qed.

(** ** The cases of [MEM_POOL_Realloc] *)
Section cases.
Context {pool : Z} {bz : bool} {l : level} {lvs : list level}.
Context {r : Z} {ws : list Z} {m : nat} {old_size new_size : Z}.
Context (Hold : PAD_TO_ALIGN old_size = 8 * Z.of_nat (length ws)).
Context (Hnew : PAD_TO_ALIGN new_size = 8 * Z.of_nat m).

Ltac enter Hp := unfold MEM_POOL_Realloc_P; wp_step; iApply default_pool_ok; [exact Hp|];
  unfold Malloc_Mem_Pool; destruct (Z.eqb_spec pool 1); [lia|]; rw Hold Hnew.

(** A size that needs as many words, and a small object that shrinks, stay where they are. *)
Lemma realloc_stays_ok (R : Z -> hprop) :
  m = length ws \/ is_small (length ws) = true /\ (m < length ws)%nat -> 1 < pool ->
  R r -∗ wp (MEM_POOL_Realloc_P pool r old_size new_size) R.
Proof.
  iIntros (Hm Hp) "HR". enter Hp. destruct Hm as [->|[Hs Hm]].
  - rw Z.eqb_refl. by wret.
  - rw (proj2 (Z.eqb_neq _ _)); [|lia]. unfold is_small in Hs. rw Hs.
    rw (proj2 (Z.ltb_lt _ _)); [by wret|lia].
Qed.

(** A small object that grows is copied. *)
Lemma realloc_grows_ok (R : Z -> hprop) :
  is_small (length ws) = true -> (length ws < m)%nat -> size_ok m ->
  pool_own pool bz (l :: lvs) -∗ words r ws -∗
  (∀ r' l', ⌈added l l' r' m⌉ -∗ pool_own pool bz (l' :: lvs) -∗ words r ws -∗ copied bz r' ws m -∗ R r') -∗
  wp (MEM_POOL_Realloc_P pool r old_size new_size) R.
Proof.
  iIntros (Hs Hm Hok) "Hpool Hws HR". iDestruct (pool_own_pos with "Hpool") as "[%Hp Hpool]". enter Hp.
  rw (proj2 (Z.eqb_neq _ _)); [|lia]. unfold is_small in Hs. rw Hs (proj2 (Z.ltb_ge _ _)); [|lia].
  rw {1}(_ : length ws = length ws `min` m)%nat; [|lia].
  by iApply (allocate_copy_ok with "Hpool Hws").
Qed.

(** A large object of a level below is copied. *)
Lemma realloc_outer_ok l' h (R : Z -> hprop) :
  r = h + 32 -> is_small (length ws) = false -> m <> length ws -> size_ok m ->
  l' ∈ lvs -> (h, length ws) ∈ l_large l' ->
  pool_own pool bz (l :: lvs) -∗ words r ws -∗
  (∀ r' l', ⌈added l l' r' m⌉ -∗ pool_own pool bz (l' :: lvs) -∗ words r ws -∗ copied bz r' ws m -∗ R r') -∗
  wp (MEM_POOL_Realloc_P pool r old_size new_size) R.
Proof.
  iIntros (-> Hs Hm Hok Hl Hh) "Hpool Hws HR". iDestruct (pool_own_pos with "Hpool") as "[%Hp Hpool]". enter Hp.
  rw (proj2 (Z.eqb_neq _ _)); [|lia]. unfold is_small in Hs. rw Hs.
  iDestruct (pool_header_outer with "Hpool") as (base pv nx) "(%Hne & Hhd & Hpb & Hclose)"; [done..|].
  wp_step. iApply (valid_large_block_ok with "Hhd Hpb"). iIntros "Hhd Hpb". rw (proj2 (Z.eqb_neq base (l_pb l))) //.
  iDestruct ("Hclose" with "Hhd Hpb") as "Hpool".
  rw (_ : (if 8 * Z.of_nat (length ws) <? 8 * Z.of_nat m then 8 * Z.of_nat (length ws) else 8 * Z.of_nat m)
          = 8 * Z.of_nat (length ws `min` m)); [|destruct (Z.ltb_spec (8 * Z.of_nat (length ws)) (8 * Z.of_nat m)); lia].
  by iApply (allocate_copy_ok with "Hpool Hws").
Qed.

(** A large object of the current level that becomes small is copied and freed. *)
Lemma realloc_shrinks_ok l1 h l2 (R : Z -> hprop) :
  r = h + 32 -> is_small (length ws) = false -> is_small m = true -> l_large l = l1 ++ (h, length ws) :: l2 ->
  pool_own pool bz (l :: lvs) -∗ words r ws -∗
  (∀ r' l', ⌈valid_ptr r' /\ grown l l' (r', m)⌉ -∗ pool_own pool bz (with_large l' (l1 ++ l2) :: lvs) -∗ copied bz r' ws m -∗ R r') -∗
  wp (MEM_POOL_Realloc_P pool r old_size new_size) R.
Proof.
  iIntros (-> Hs Hm Hl) "Hpool Hws HR". iDestruct (pool_own_pos with "Hpool") as "[%Hp Hpool]". enter Hp.
  unfold is_small in Hs, Hm. rw (proj2 (Z.eqb_neq _ _)); [|intros E; rw E in Hm; congruence]. rw Hs.
  iDestruct (pool_header_current with "Hpool") as (pv nx) "(Hhd & Hpb & Hclose)"; [rw Hl; apply elem_of_app; right; left|].
  wp_step. iApply (valid_large_block_ok with "Hhd Hpb"). iIntros "Hhd Hpb". rw Z.eqb_refl Hm.
  iDestruct ("Hclose" with "Hhd Hpb") as "Hpool".
  apply Z.leb_gt in Hs. apply Z.leb_le in Hm. unfold MIN_LARGE_BLOCK_SIZE in Hs, Hm.
  rw (_ : allocate_copy pool (8 * Z.of_nat m) (h + 32) (8 * Z.of_nat m) =
          allocate_copy pool (8 * Z.of_nat m) (h + 32) (8 * Z.of_nat (length ws `min` m))); [|do 3 f_equal; lia].
  wp_step. iApply (allocate_copy_ok with "Hpool Hws"); [unfold size_ok; lia|].
  iIntros (r' l') "%Hl' Hpool Hws Hobj". destruct Hl' as [Hv Hl']. unfold is_small in Hl'.
  rw (proj2 (Z.leb_le _ _)) in Hl'; [|done]. pose proof Hl' as (Hpb & Hlarge & Hsmall).
  wp_step. iApply (pool_free_large with "Hpool [Hws]"); [by rw Hlarge|by iApply words_area|].
  iIntros "Hpool". wret. iApply ("HR" with "[//] Hpool Hobj").
Qed.

(** A large object of the current level that stays large moves; a pool that clears its memory
    must not shrink it ([bzero] gets a negative size). *)
Lemma realloc_moves_ok l1 h l2 (R : Z -> hprop) :
  r = h + 32 -> is_small (length ws) = false -> is_small m = false -> m <> length ws ->
  (bz = true -> (length ws <= m)%nat) -> 8 * Z.of_nat m + 32 < 2 ^ 64 -> l_large l = l1 ++ (h, length ws) :: l2 ->
  pool_own pool bz (l :: lvs) -∗ words r ws -∗
  (∀ h', ⌈valid_ptr (h' + 32)⌉ -∗ pool_own pool bz (with_large l (l1 ++ (h', m) :: l2) :: lvs) -∗
        copied bz (h' + 32) ws m -∗ R (h' + 32)) -∗
  wp (MEM_POOL_Realloc_P pool r old_size new_size) R.
Proof.
  iIntros (-> Hs Hm Hne Hbz Hlt Hl) "Hpool Hws HR". iDestruct (pool_own_pos with "Hpool") as "[%Hp Hpool]". enter Hp.
  unfold is_small in Hs, Hm. rw (proj2 (Z.eqb_neq _ _)); [|lia]. rw Hs.
  iDestruct (pool_header_current with "Hpool") as (pv nx) "(Hhd & Hpb & Hclose)"; [rw Hl; apply elem_of_app; right; left|].
  wp_step. iApply (valid_large_block_ok with "Hhd Hpb"). iIntros "Hhd Hpb". rw Z.eqb_refl Hm.
  iDestruct ("Hclose" with "Hhd Hpb") as "Hpool". by iApply (realloc_large_ok with "Hpool Hws").
Qed.
End cases.
End realloc.
