(* ===== verification/MemPoolLevels.v ===== *)
(** Opening and closing levels ([MEM_POOL_Push], [MEM_POOL_Pop]), creating and deleting pools. *)
From Stdlib Require Import ZArith Lia Bool.
From stdpp Require Import prelude gmap list.
From iris.proofmode Require Import proofmode.
From S2P Require Import Prelude.
From S2P Require Import MemHeap.
From S2P Require Import MemLogic.
From S2P Require Import MemPool.
From S2P Require Import MemPoolRep.
From S2P Require Import MemPoolAlloc.
From S2P Require Import MemPoolLarge.
From S2P Require Import MemPoolRealloc.

(** * The variables of the package: the unused [MEM_POOL_BLOCKS] and the pool they come from *)
Definition head_free (fs : list Z) : Z := match fs with [] => 0 | pb :: _ => pb end.
Fixpoint frees_own (fs : list Z) : hprop :=
  match fs with
  | [] => emp
  | pb :: fs => ⌈0 < pb⌉ ∗ area pb 5 ∗ MEM_POOL_BLOCKS_rest pb ↦ head_free fs ∗ frees_own fs
  end%I.

Section levels.
Context `{AllocatorLaws} `{Image}.

Definition overhead_own : hprop := (∃ ov, pool_own mem_overhead_pool true [ov])%I.
Definition globals_own : hprop :=
  (overhead_own ∗ ∃ fs, free_mem_pool_blocks_list ↦ head_free fs ∗ frees_own fs)%I.

Lemma area_6 a :
  area a 6 ⊣⊢ ∃ x y z t u v, a ↦ x ∗ (a + 8) ↦ y ∗ (a + 16) ↦ z ∗ (a + 24) ↦ t ∗ (a + 32) ↦ u ∗ (a + 40) ↦ v.
Proof.
  iSplit.
  - iIntros "(%ws & %Hl & H)". destruct ws as [|x [|y [|z [|t [|u [|v [|? ?]]]]]]]; try done. rw words_fields6.
    iExists x, y, z, t, u, v. iExact "H".
  - iIntros "(%x & %y & %z & %t & %u & %v & H)". iExists [x; y; z; t; u; v]. rw words_fields6. by iFrame.
Qed.

Lemma area_5_1 a v : area a 5 -∗ (a + 40) ↦ v -∗ area a 6.
Proof.
  iIntros "H Hv". change 6%nat with (5 + 1)%nat. iApply area_app. iFrame. iExists [v]. cbn [words]. by iFrame.
Qed.

(** Where [MEM_POOL_Push] gets its [MEM_POOL_BLOCKS] *)
Lemma take_pb_ok fs (R : Z -> hprop) :
  overhead_own -∗ free_mem_pool_blocks_list ↦ head_free fs -∗ frees_own fs -∗
  (∀ pb, ⌈0 < pb⌉ -∗ area pb 6 -∗ globals_own -∗ R pb) -∗
  wp (if head_free fs =? 0 then MEM_POOL_Alloc_P mem_overhead_pool sizeof_MEM_POOL_BLOCKS else
      do* rest := load (MEM_POOL_BLOCKS_rest (head_free fs)) in
      run* store free_mem_pool_blocks_list rest in
      ret (head_free fs)) R.
Proof.
  iIntros "Hov Hfl Hfs HR". destruct fs as [|pb fs]; cbn [head_free frees_own].
  - iDestruct "Hov" as (ov) "Hov". iDestruct (pool_own_pos with "Hov") as "[%Hp Hov]".
    cbn [Z.eqb]. unfold MEM_POOL_Alloc_P. wp_step. iApply default_pool_ok; [done|].
    unfold Malloc_Mem_Pool. destruct (Z.eqb_spec mem_overhead_pool 1); [lia|].
    change (PAD_TO_ALIGN sizeof_MEM_POOL_BLOCKS) with (8 * Z.of_nat 6).
    iApply (raw_allocate_ok with "Hov"); [done|]. iIntros (r l') "%Hadd Hov Hobj".
    iApply ("HR" with "[] [Hobj]"); [iPureIntro; apply Hadd|by iApply (free_words_area true)|].
    iSplitL "Hov"; [iExists l'; iFrame|]. iExists []. iFrame.
  - iDestruct "Hfs" as "(%Hpb & H5 & Hrest & Hfs)". destruct (Z.eqb_spec pb 0); [lia|].
    wload "Hrest". wp_step. wstore "Hfl". wret.
    iApply ("HR" with "[//] [H5 Hrest]"); [iApply (area_5_1 with "H5 Hrest")|].
    iFrame "Hov". iExists fs. iFrame.
Qed.

(** ** [MEM_POOL_Push] *)
Definition new_level (pb : Z) (lvs : list level) : level :=
  Level pb [] (match blocks_of lvs with [] => 0%nat | (_, k) :: _ => k end) [] [].

Lemma blocks_of_new pb lvs : blocks_of (new_level pb lvs :: lvs) = blocks_of lvs.
Proof. cbn. by destruct (blocks_of lvs) as [|[]]. Qed.

Lemma new_level_ok pb lvs : 0 < pb -> (forall l lvs', lvs = l :: lvs' -> level_ok l lvs') ->
  level_ok (new_level pb lvs) lvs.
Proof.
  intros Hpb Hok. split; cbn [new_level l_pb l_news l_cur l_small l_large]; [done| | |done| |].
  - intros b k bs ->. done.
  - unfold taken, objects_own. cbn [new_level l_news l_cur big_opL]. rw left_id.
    destruct (blocks_of lvs) as [|[b k] bs]; [done|]. by rw Nat.sub_diag area_0.
  - intros b k. rw blocks_of_new. intros Hin. destruct lvs as [|l lvs']; [by apply not_elem_of_nil in Hin|].
    eapply boundary_mono; [| |by eapply ok_ends; [apply Hok|]].
    + intros b' k' Hin'. exists k'. by rw blocks_of_new.
    + intros o Ho. apply elem_smalls. by right.
  - by intros o ?%not_elem_of_nil.
Qed.

Lemma levels_own_ok lvs : levels_own lvs ⊢ levels_own lvs ∗ ⌈forall l lvs', lvs = l :: lvs' -> level_ok l lvs'⌉.
Proof.
  destruct lvs as [|l lvs]; cbn [levels_own]; [iIntros "_"; iSplit; [done|by iPureIntro]|].
  iIntros "(%Hok & H)". iFrame. iPureIntro. split; [done|]. by intros ? ? [= <- <-].
Qed.

Lemma push_ok pool bz lvs (R : unit -> hprop) :
  pool_own pool bz lvs -∗ MEM_POOL_frozen pool ↦ 0 -∗ globals_own -∗
  (∀ pb, pool_own pool bz (new_level pb lvs :: lvs) -∗ MEM_POOL_frozen pool ↦ 0 -∗ globals_own -∗ R tt) -∗
  wp (MEM_POOL_Push_P pool) R.
Proof.
  iIntros "(%Hp & Hpb & Hbz & Hlvs & Hbs) Hfr (Hov & %fs & Hfl & Hfs) HR". unfold MEM_POOL_Push_P.
  wload "Hfr". cbn [Z.eqb FmtAssert]. wret. wp_step. iApply default_pool_ok; [done|].
  unfold Malloc_Mem_Pool. destruct (Z.eqb_spec pool 1); [lia|].
  wload "Hfl". wp_step. iApply (take_pb_ok with "Hov Hfl Hfs"). iIntros (pb) "%Hpos H Hg".
  iDestruct (area_6 with "H") as (x y z t u v) "(Hblk & Hlarge & Hbb & Hbp & Hba & Hrest)".
  iDestruct (levels_own_ok with "Hlvs") as "[Hlvs %Hok]".
  wload "Hpb". wstore "Hrest". wstore "Hlarge". wp_step.
  iAssert (∀ R', blocks_own bz (blocks_of lvs) -∗ levels_own lvs -∗
     (MEM_POOL_BLOCKS_block pb ↦ head_block (blocks_of lvs) -∗ base_own pb lvs -∗
      blocks_own bz (blocks_of lvs) -∗ levels_own lvs -∗ R' tt) -∗ wp _ R')%I
    with "[Hblk Hbb Hbp Hba Hrest]" as "Hfill"; last first.
  { iApply ("Hfill" with "Hbs Hlvs"). iIntros "Hblk Hbase Hbs Hlvs". wstore "Hpb".
    iApply ("HR" with "[-Hfr Hg] Hfr Hg"). rw pool_open blocks_of_new. iFrame.
    iPureIntro. split; [done|by apply new_level_ok]. }
  iIntros (R') "Hbs Hlvs HR". destruct lvs as [|l lvs]; cbn [head_pb Z.eqb].
  - wstore "Hblk". wstore "Hbb". wstore "Hbp". wstore "Hba". iApply ("HR" with "Hblk [-Hbs Hlvs] Hbs Hlvs"). iFrame.
  - specialize (Hok _ _ eq_refl). destruct (Z.eqb_spec (l_pb l) 0) as [E|_]; [pose proof (ok_pb _ _ Hok); lia|].
    cbn [levels_own]. iDestruct "Hlvs" as "(_ & Hpbo & Hlvs)".
    iDestruct (pb_own_fields with "Hpbo") as "[Hpblk Hpbo]". wload "Hpblk".
    iDestruct (pb_own_fields with "[$Hpblk $Hpbo]") as "Hpbo". wstore "Hblk". wstore "Hbb".
    unfold base_own.
    destruct (blocks_of (l :: lvs)) as [|[b k] bs] eqn:Hbs; cbn [head_block blocks_own Z.eqb].
    + wstore "Hbp". wstore "Hba". iApply ("HR" with "Hblk [Hbb Hbp Hba Hrest] Hbs"); [iFrame|]. iFrame. by iPureIntro.
    + iDestruct "Hbs" as "[((%Hroom & %Hk) & Hreg & Hav & Hptr & Hlink) Hbs]".
      destruct (Z.eqb_spec b 0); [destruct Hroom; lia|]. wload "Hptr". wstore "Hbp". wload "Hav". wstore "Hba".
      iApply ("HR" with "Hblk [Hbb Hbp Hba Hrest] [Hreg Hav Hptr Hlink Hbs]"); [iFrame|iFrame; by iPureIntro|].
      iFrame. by iPureIntro.
Qed.

(** ** [MEM_POOL_Pop] *)
Lemma free_area_ok p n size (R : unit -> hprop) : p <> 0 -> size = 8 * Z.of_nat n ->
  region p size -∗ area p n -∗ R tt -∗ wp (free p) R.
Proof.
  iIntros (Hp ->) "Hreg (%ws & %Hl & Hws) HR". iApply (free_ok with "[Hreg] Hws HR"); [done|].
  by rw /zlen Hl.
Qed.

Lemma block_area bz b k next :
  block_own bz b k next -∗ area (b + 24) k -∗ region b 0x2018 ∗ area b (3 + block_words) ∗ ⌈b <> 0⌉.
Proof.
  iIntros "((%Hroom & %Hk) & Hreg & Hav & Hptr & Hrest & Hfree) Ha". iFrame "Hreg".
  iSplit; [|iPureIntro; destruct Hroom; lia].
  iApply area_app. iSplitL "Hav Hptr Hrest".
  - iExists [free_bytes k; in_use b k; next]. rw words_fields3. by iFrame.
  - rw (_ : block_words = k + (block_words - k))%nat; [|lia]. iApply area_app. iFrame "Ha".
    iDestruct (free_words_area with "Hfree") as "Hfree". unfold in_use.
    rw (_ : (k + (block_words - k) - k = block_words - k)%nat); [done|lia].
Qed.

(** The blocks of [lvs] as a level above that has filled the first one up to [cur] leaves them *)
Definition filled (cur : nat) (bs : list (Z * nat)) : list (Z * nat) :=
  match bs with [] => [] | (b, _) :: bs => (b, cur) :: bs end.

Lemma head_filled cur bs : head_block (filled cur bs) = head_block bs.
Proof. by destruct bs as [|[]]. Qed.

Lemma blocks_own_ne bz bs b v b' k' : (b', k') ∈ bs ->
  blocks_own bz bs -∗ MEM_BLOCK_avail b ↦ v -∗ blocks_own bz bs ∗ MEM_BLOCK_avail b ↦ v ∗ ⌈b <> b'⌉.
Proof.
  intros Hin. induction bs as [|[b1 k1] bs IH]; [by apply not_elem_of_nil in Hin|]. cbn [blocks_own].
  iIntros "[(%Hroom & Hreg & Hav & Hb) Hbs] Hv". apply elem_of_cons in Hin as [[= <- <-]|Hin].
  - iDestruct (pt_ne with "Hv Hav") as "(Hv & Hav & %Hne)". iFrame. iPureIntro.
    split; [done|]. intros E. apply Hne. by rw E.
  - iDestruct (IH with "Hbs Hv") as "(Hbs & Hv & %Hne)"; [done|]. iFrame. by iPureIntro.
Qed.

Lemma area_merge bz b k cur : (k <= cur <= block_words)%nat ->
  area (in_use b k) (cur - k) -∗ free_words bz (in_use b cur) (block_words - cur) -∗
  area (in_use b k) (block_words - k).
Proof.
  iIntros (Hk) "H1 H2". iDestruct (free_words_area with "H2") as "H2".
  rw (_ : block_words - k = (cur - k) + (block_words - cur))%nat; [|lia]. iApply area_app. iFrame "H1".
  rw in_use_add. by rw (_ : k + (cur - k) = cur)%nat; [|lia].
Qed.

Lemma pop_blocks_ok fuel pool pb bz cur bs news (R : unit -> hprop) : (length news < fuel)%nat ->
  (forall b k bs', bs = (b, k) :: bs' -> (k <= cur)%nat) ->
  MEM_POOL_bz pool ↦ Z.b2z bz -∗
  MEM_POOL_BLOCKS_base_block pb ↦ head_block bs -∗
  MEM_POOL_BLOCKS_base_ptr pb ↦ match bs with [] => 0 | (b, k) :: _ => in_use b k end -∗
  MEM_POOL_BLOCKS_base_avail pb ↦ match bs with [] => 0 | (b, k) :: _ => free_bytes k end -∗
  blocks_own bz (news ++ filled cur bs) -∗
  ([∗ list] bk ∈ news, area (bk.1 + 24) bk.2) -∗
  match bs with [] => emp | (b, k) :: _ => area (in_use b k) (cur - k) end -∗
  (MEM_POOL_bz pool ↦ Z.b2z bz -∗ MEM_POOL_BLOCKS_base_block pb ↦ head_block bs -∗
   MEM_POOL_BLOCKS_base_ptr pb ↦ match bs with [] => 0 | (b, k) :: _ => in_use b k end -∗
   MEM_POOL_BLOCKS_base_avail pb ↦ match bs with [] => 0 | (b, k) :: _ => free_bytes k end -∗
   blocks_own bz bs -∗ R tt) -∗
  wp (pop_blocks fuel pool pb (head_block (news ++ filled cur bs))) R.
Proof.
  iIntros (Hfuel Hcur) "Hbz Hbb Hbp Hba Hbs Hnews Hbase HR".
  iInduction news as [|[b k] news] "IH" forall (fuel Hfuel); (destruct fuel as [|fuel]; [cbn in Hfuel; lia|]);
    cbn [app pop_blocks head_block blocks_own big_opL fst snd].
  - rw head_filled. destruct bs as [|[b k] bs]; cbn [filled head_block blocks_own Z.eqb].
    { wret. iApply ("HR" with "Hbz Hbb Hbp Hba Hbs"). }
    specialize (Hcur _ _ _ eq_refl).
    iDestruct "Hbs" as "[((%Hroom & %Hk) & Hreg & Hav & Hptr & Hrest & Hfree) Hbs]".
    destruct (Z.eqb_spec b 0); [destruct Hroom; lia|]. wload "Hrest". wload "Hbb". rw Z.eqb_refl.
    wload "Hbp". wstore "Hptr". wload "Hba". wstore "Hav". wload "Hbz".
    iDestruct (area_merge with "Hbase Hfree") as "Hfree"; [lia|].
    iApply (bzero_if_ok bz with "Hfree"); [unfold free_bytes, block_words in *; lia|]. iIntros "Hfree".
    iApply ("HR" with "Hbz Hbb Hbp Hba"). iFrame. iPureIntro. split; [done|lia].
  - iDestruct "Hbs" as "[Hb Hbs]". iDestruct "Hnews" as "[Ha Hnews]".
    iDestruct "Hb" as "((%Hroom & %Hk) & Hreg & Hav & Hptr & Hrest & Hfree)".
    iAssert (⌈b <> head_block bs⌉ ∗ blocks_own bz (news ++ filled cur bs) ∗ MEM_BLOCK_avail b ↦ free_bytes k)%I
      with "[Hbs Hav]" as "(%Hne & Hbs & Hav)".
    { destruct bs as [|[b' k'] bs]; cbn [head_block]; [iFrame; iPureIntro; destruct Hroom; lia|].
      iDestruct (blocks_own_ne _ _ _ _ b' cur with "Hbs Hav") as "(Hbs & Hav & %Hne)"; [|by iFrame].
      apply elem_of_app. right. left. }
    destruct (Z.eqb_spec b 0); [destruct Hroom; lia|]. wload "Hrest". wload "Hbb".
    rw (proj2 (Z.eqb_neq b _)) //. wp_step.
    iDestruct (block_area bz b k with "[Hreg Hav Hptr Hrest Hfree] Ha") as "(Hreg & Ha & _)"; [iFrame; by iPureIntro|].
    iApply (free_area_ok with "Hreg Ha"); [done|done|].
    iApply ("IH" with "[] Hbz Hbb Hbp Hba Hbs Hnews Hbase HR"). iPureIntro. cbn in Hfuel. lia.
Qed.

Definition large_objects (ls : list (Z * nat)) : hprop := ([∗ list] hn ∈ ls, area (hn.1 + 32) hn.2)%I.

Lemma pop_large_blocks_ok fuel base prev ls (R : unit -> hprop) : (length ls < fuel)%nat ->
  large_own base prev ls 0 -∗ large_objects ls -∗ R tt -∗ wp (pop_large_blocks fuel (head_large ls)) R.
Proof.
  iIntros (Hfuel) "Hls Hobj HR". unfold large_objects.
  iInduction ls as [|[h n] ls] "IH" forall (fuel prev Hfuel); (destruct fuel as [|fuel]; [cbn in Hfuel; lia|]);
    cbn [pop_large_blocks head_large Z.eqb big_opL fst snd].
  - by wret.
  - rw large_own_cons. iDestruct "Hls" as "[(%Hroom & Hreg & Hnext & Hown) Hls]". iDestruct "Hobj" as "[Ha Hobj]".
    destruct (Z.eqb_spec h 0); [destruct Hroom; lia|]. wload "Hnext". wp_step.
    iApply (MEM_LARGE_BLOCK_free_ok with "[Hreg Hnext Hown] Ha"); [iFrame; by iPureIntro|].
    iApply ("IH" with "[] Hls Hobj HR"). iPureIntro. cbn in Hfuel. lia.
Qed.

(** The level below, or an empty one if it was the last *)
Definition popped (l : level) (lvs : list level) : list level :=
  match lvs with [] => [new_level (l_pb l) []] | _ => lvs end.

Lemma pop_ok fuel pool bz l lvs (R : unit -> hprop) :
  (length (l_small l) < fuel)%nat -> (length (l_large l) < fuel)%nat ->
  pool_own pool bz (l :: lvs) -∗ MEM_POOL_frozen pool ↦ 0 -∗ globals_own -∗
  objects_own (l_small l) -∗ large_objects (l_large l) -∗
  (pool_own pool bz (popped l lvs) -∗ MEM_POOL_frozen pool ↦ 0 -∗ globals_own -∗ R tt) -∗
  wp (MEM_POOL_Pop_P fuel pool) R.
Proof.
  iIntros (Hf1 Hf2) "Hpool Hfr Hg Hsmall Hobj HR". rw pool_open.
  iDestruct "Hpool" as "(%Hp & %Hok & Hpb & Hbz & Hblk & Hlarge & (Hbb & Hbp & Hba & Hrest) & Hll & Hlvs & Hbs)".
  pose proof Hok as [Hpos Hcur Htaken Hnews _ _].
  iDestruct (Htaken with "Hsmall") as "[Hnw Hbase]". unfold MEM_POOL_Pop_P.
  wload "Hfr". cbn [Z.eqb FmtAssert]. wret. wp_step. iApply default_pool_ok; [done|].
  unfold Malloc_Mem_Pool. destruct (Z.eqb_spec pool 1); [lia|]. wload "Hpb".
  rw (proj2 (Z.eqb_neq (l_pb l) 0)); [|lia]. cbn [negb FmtAssert]. wret. wload "Hblk". wp_step.
  iApply (pop_blocks_ok _ _ _ _ (l_cur l) (blocks_of lvs) (l_news l)
    with "Hbz Hbb Hbp Hba Hbs Hnw Hbase"); [lia|done|]. iIntros "Hbz Hbb Hbp Hba Hbs".
  wload "Hlarge". wp_step. iApply (pop_large_blocks_ok with "Hll Hobj"); [lia|].
  wload "Hrest". destruct lvs as [|l2 lvs]; cbn [head_pb popped Z.eqb].
  - iApply (bzero_ok _ 6 with "[Hblk Hlarge Hbb Hbp Hba Hrest]").
    { iApply area_6. iExists _, _, _, _, _, _. iFrame. }
    iIntros "Hw". iApply ("HR" with "[-Hfr Hg] Hfr Hg"). rw pool_open. cbn [replicate].
    rw words_fields6. iDestruct "Hw" as "(? & ? & ? & ? & ? & ?)". iFrame.
    iSplit; [done|]. iPureIntro. by apply new_level_ok.
  - iDestruct (levels_own_ok with "Hlvs") as "[Hlvs %Hok2]". specialize (Hok2 _ _ eq_refl).
    pose proof (ok_pb _ _ Hok2). destruct (Z.eqb_spec (l_pb l2) 0); [lia|]. wstore "Hpb".
    iDestruct "Hg" as "(Hov & %fs & Hfl & Hfs)". wload "Hfl". wstore "Hrest". wstore "Hfl".
    iApply ("HR" with "[Hpb Hbz Hlvs Hbs] Hfr [-]"); [iFrame; by iPureIntro|].
    iFrame "Hov". iExists (l_pb l :: fs). cbn [head_free frees_own]. iFrame "Hfl Hfs Hrest".
    iSplit; [done|]. iExists [_; _; _; _; _]. cbn [words]. rw -!Z.add_assoc. iFrame. by iPureIntro.
Qed.

(** ** [MEM_POOL_Initialize] and [MEM_POOL_Delete] *)
Definition any (a : Z) : hprop := (∃ v, a ↦ v)%I.
Definition others_own (pool : Z) : hprop :=
  (any (MEM_POOL_name pool) ∗ any (MEM_POOL_rest pool) ∗ any (MEM_POOL_pure_stack pool) ∗
   any (MEM_POOL_magic_num pool) ∗ any (MEM_POOL_alloc_site_list pool))%I.
Definition blank_pool (pool : Z) : hprop :=
  (⌈1 < pool⌉ ∗ any (MEM_POOL_blocks pool) ∗ any (MEM_POOL_bz pool) ∗ any (MEM_POOL_frozen pool) ∗ others_own pool)%I.

Lemma initialize_ok pool name (bz : bool) (R : unit -> hprop) :
  blank_pool pool -∗ globals_own -∗
  (∀ pb, pool_own pool bz [new_level pb []] -∗ MEM_POOL_frozen pool ↦ 0 -∗ others_own pool -∗ globals_own -∗ R tt) -∗
  wp (MEM_POOL_Initialize_P pool name (Z.b2z bz)) R.
Proof.
  iIntros "(%Hp & [%v1 Hpb] & [%v2 Hbz] & [%v3 Hfr] & ([%v4 Hname] & Hrest & [%v5 Hpure] & [%v6 Hmagic] & Hlist)) Hg HR".
  unfold MEM_POOL_Initialize_P. wp_step. iApply default_pool_ok; [done|].
  unfold Malloc_Mem_Pool. destruct (Z.eqb_spec pool 1); [lia|]. rw (uwrap_id 8 (Z.b2z bz)); [|by destruct bz].
  wstore "Hname". wstore "Hbz". wstore "Hpb". wstore "Hfr". wstore "Hpure". wstore "Hmagic".
  iApply (push_ok _ _ [] with "[Hpb Hbz] Hfr Hg"); [unfold pool_own; cbn [head_pb levels_own blocks_own blocks_of]; iFrame; by iPureIntro|].
  iIntros (pb) "Hpool Hfr Hg". iApply ("HR" with "Hpool Hfr [-Hg] Hg"). unfold others_own, any. iFrame.
Qed.

Definition all_objects (lvs : list level) : hprop :=
  ([∗ list] l ∈ lvs, objects_own (l_small l) ∗ large_objects (l_large l))%I.
Definition fuel_for (fuel : nat) (lvs : list level) : Prop :=
  Forall (fun l => (length (l_small l) < fuel)%nat /\ (length (l_large l) < fuel)%nat) lvs.

Lemma pop_levels_ok fuel inner pool bz l lvs (R : unit -> hprop) :
  (length lvs < fuel)%nat -> fuel_for inner (l :: lvs) ->
  pool_own pool bz (l :: lvs) -∗ MEM_POOL_frozen pool ↦ 0 -∗ globals_own -∗ all_objects (l :: lvs) -∗
  (∀ l', ⌈fuel_for inner [l']⌉ -∗ pool_own pool bz [l'] -∗ MEM_POOL_frozen pool ↦ 0 -∗ globals_own -∗
         all_objects [l'] -∗ R tt) -∗
  wp (pop_levels fuel inner pool) R.
Proof.
  iIntros (Hfuel Hin) "Hpool Hfr Hg Hobj HR".
  iInduction lvs as [|l2 lvs] "IH" forall (fuel l Hfuel Hin); (destruct fuel as [|fuel]; [cbn in Hfuel; lia|]); cbn [pop_levels].
  - iDestruct (pool_open with "Hpool") as "(%Hp & %Hok & Hpb & Hbz & Hblk & Hlarge & (Hbb & Hbp & Hba & Hrest) & Hown)".
    wload "Hpb". wload "Hrest". cbn [head_pb Z.eqb]. wret.
    iApply ("HR" with "[//] [-Hfr Hg Hobj] Hfr Hg Hobj"). iApply pool_open. iFrame. by iPureIntro.
  - iAssert (⌈0 < l_pb l2⌉ ∗ pool_own pool bz (l :: l2 :: lvs))%I with "[Hpool]" as "[%Hpos Hpool]".
    { iDestruct "Hpool" as "(%Hp & Hpb & Hbz & (%Hok & Hpbo & Hll & (%Hok2 & Hlvs)) & Hbs)".
      iSplit; [iPureIntro; apply Hok2|]. iFrame. by iPureIntro. }
    iDestruct (pool_open with "Hpool") as "(%Hp & %Hok & Hpb & Hbz & Hblk & Hlarge & (Hbb & Hbp & Hba & Hrest) & Hown)".
    wload "Hpb". wload "Hrest". cbn [head_pb]. destruct (Z.eqb_spec (l_pb l2) 0); [lia|]. wp_step.
    iDestruct (pool_open with "[Hpb Hbz Hblk Hlarge Hbb Hbp Hba Hrest Hown]") as "Hpool"; [iFrame; by iPureIntro|].
    apply Forall_cons in Hin as [[Hf1 Hf2] Hin]. cbn [all_objects big_opL]. iDestruct "Hobj" as "[[Hs Hl] Hobj]".
    iApply (pop_ok with "Hpool Hfr Hg Hs Hl"); [done..|]. iIntros "Hpool Hfr Hg". cbn [popped].
    iApply ("IH" with "[] [] Hpool Hfr Hg Hobj HR"); iPureIntro; [cbn in Hfuel; lia|done].
Qed.

Lemma delete_ok fuel pool bz l lvs (R : unit -> hprop) :
  (length lvs < fuel)%nat -> fuel_for fuel (l :: lvs) ->
  pool_own pool bz (l :: lvs) -∗ MEM_POOL_frozen pool ↦ 0 -∗ others_own pool -∗ globals_own -∗
  all_objects (l :: lvs) -∗ (blank_pool pool -∗ globals_own -∗ R tt) -∗
  wp (MEM_POOL_Delete fuel pool) R.
Proof.
  iIntros (Hfuel Hin) "Hpool Hfr Ho Hg Hobj HR". iDestruct (pool_own_pos with "Hpool") as "[%Hp Hpool]".
  unfold MEM_POOL_Delete. wp_step. iApply default_pool_ok; [done|].
  unfold Malloc_Mem_Pool. destruct (Z.eqb_spec pool 1); [lia|]. wp_step.
  iApply (pop_levels_ok with "Hpool Hfr Hg Hobj"); [done..|].
  iIntros (l') "%Hin' Hpool Hfr Hg [[Hs Hl] _]". apply Forall_cons in Hin' as [[Hf1 Hf2] _]. wp_step.
  iApply (pop_ok with "Hpool Hfr Hg Hs Hl"); [done..|]. iIntros "Hpool Hfr (Hov & %fs & Hfl & Hfs)". cbn [popped].
  iDestruct (pool_open with "Hpool") as "(_ & %Hok & Hpb & Hbz & Hblk & Hlarge & (Hbb & Hbp & Hba & Hrest) & _)".
  wload "Hpb". wload "Hfl". wstore "Hrest". wstore "Hfl".
  iDestruct "Ho" as "([%v1 Hname] & [%v2 Hr] & [%v3 Hpure] & [%v4 Hmagic] & [%v5 Hlist])".
  wp_step. unfold bzero_pool, pool_fields. cbn [foldr].
  wstore "Hname". wstore "Hpb". wstore "Hr". wstore "Hpure". wstore "Hbz". wstore "Hfr". wstore "Hmagic".
  wstore "Hlist". wret. wstore "Hmagic".
  iApply ("HR" with "[Hname Hpb Hr Hpure Hbz Hfr Hmagic Hlist]"); [unfold blank_pool, others_own, any; iFrame; by iPureIntro|].
  iFrame "Hov". iExists (l_pb l' :: fs). cbn [head_free frees_own]. iFrame "Hfl Hfs Hrest".
  iSplit; [iPureIntro; apply (ok_pb _ _ Hok)|]. iExists [_; _; _; _; _]. cbn [words new_level l_pb]. rw -!Z.add_assoc. iFrame.
  by iPureIntro.
Qed.
End levels.
