(* ===== verification/MemPoolSpec.v ===== *)
(** What memory pools promise: a pool is a stack of levels, a level a list of objects with
    contents.  The specification says nothing of blocks, free ends and lists. *)
From Stdlib Require Import ZArith Lia Bool.
From stdpp Require Import prelude gmap list.
From iris.proofmode Require Import proofmode.
From S2P Require Import Prelude.
From S2P Require Import MemHeap.
From S2P Require Import MemLogic.
From S2P Require Import MemPool.
From S2P Require Import MemPoolRep.
From S2P Require Import MemPoolAlloc.
From S2P Require Import MemPoolLarge.
From S2P Require Import MemPoolRealloc.
From S2P Require Import MemPoolLevels.

(** * Objects and pools *)
Definition obj : Type := Z * list Z.
Record apool := APool { ap_bz : bool; ap_frozen : bool; ap_levels : list (list obj) }.
Definition with_levels (ap : apool) (lvs : list (list obj)) : apool := APool (ap_bz ap) (ap_frozen ap) lvs.

Record spec := Spec { pools : gmap Z apool; blanks : gset Z }.
Definition set_pool (s : spec) (p : Z) (ap : apool) : spec := Spec (<[p := ap]> (pools s)) (blanks s).
Definition set_levels (s : spec) (p : Z) (ap : apool) (lvs : list (list obj)) : spec :=
  set_pool s p (with_levels ap lvs).

(** Fresh words, zero in a pool that clears its memory *)
Definition fresh (bz : bool) (n : nat) (ws : list Z) : Prop :=
  length ws = n /\ (bz = true -> ws = replicate n 0).

(** The contents of an object that is reallocated with [m] words *)
Definition resized (bz : bool) (ws : list Z) (m : nat) (ws' : list Z) : Prop :=
  exists more, ws' = take m ws ++ more /\ fresh bz (m - length ws) more.

(** * Operations of a client *)
Inductive op :=
| Op_initialize (pool name : Z) (bz : bool)
| Op_delete (pool : Z)
| Op_push (pool : Z)
| Op_pop (pool : Z)
| Op_push_freeze (pool : Z)
| Op_pop_unfreeze (pool : Z)
| Op_alloc (pool size : Z)
| Op_realloc (pool r old_size new_size : Z)
| Op_free (pool r : Z)
| Op_load (a : Z)
| Op_store (a v : Z).

(** Where a word is: pool, level, object, index *)
Record place_of (s : spec) (a : Z) (p : Z) (ap : apool) (j : nat) (objs : list obj) (i : nat) (r : Z) (ws : list Z)
    (k : nat) (v : Z) : Prop := {
  pl_pool : pools s !! p = Some ap;
  pl_level : ap_levels ap !! j = Some objs;
  pl_obj : objs !! i = Some (r, ws);
  pl_word : ws !! k = Some v;
  pl_addr : a = r + 8 * Z.of_nat k
}.

(** A size the 32-bit computations of the allocator cope with *)
Definition legal_size (size : Z) : Prop := 0 <= size /\ size_ok (padded size).

(** The levels with the object at the front of the current one *)
Definition add_obj (o : obj) (lvs : list (list obj)) : list (list obj) :=
  match lvs with objs :: lvs => (o :: objs) :: lvs | [] => [] end.

(** [Pop] of the last level leaves an empty one. *)
Definition pop_levels_of (lvs : list (list obj)) : list (list obj) :=
  match lvs with _ :: (_ :: _) as rest => rest | _ => [[]] end.

(** ** Reallocation *)
Inductive realloc_result (ap : apool) (j : nat) (r : Z) (ws : list Z) (m : nat) : list (list obj) -> Z -> list (list obj) -> Prop :=
| Stays lvs :
    m = length ws \/ (is_small (length ws) = true /\ (m < length ws)%nat) ->
    realloc_result ap j r ws m lvs r lvs
| Copied lvs r' ws' :
    (is_small (length ws) = true /\ (length ws < m)%nat) \/
    (is_small (length ws) = false /\ m <> length ws /\ j <> 0%nat) ->
    resized (ap_bz ap) ws m ws' -> valid_ptr r' ->
    realloc_result ap j r ws m lvs r' (add_obj (r', ws') lvs)
| Shrunk o1 o2 lvs r' ws' :
    j = 0%nat ->
    is_small (length ws) = false -> is_small m = true ->
    resized (ap_bz ap) ws m ws' -> valid_ptr r' ->
    realloc_result ap j r ws m ((o1 ++ (r, ws) :: o2) :: lvs) r' (((r', ws') :: o1 ++ o2) :: lvs)
| Moved o1 o2 lvs r' ws' :
    j = 0%nat ->
    is_small (length ws) = false -> is_small m = false -> m <> length ws ->
    resized (ap_bz ap) ws m ws' -> valid_ptr r' ->
    realloc_result ap j r ws m ((o1 ++ (r, ws) :: o2) :: lvs) r' ((o1 ++ (r', ws') :: o2) :: lvs).

(** A pool that clears its memory may not shrink a large object of its current level to
    another large one. *)
Definition realloc_allowed (ap : apool) (j : nat) (n m : nat) : Prop :=
  ap_bz ap = true -> j = 0%nat -> is_small n = false -> is_small m = false -> (n <= m)%nat.

(** The last word of the object before a small one must not be the address of the small one:
    [MEM_POOL_FREE] looks there to find out whether the object is large. *)
Definition free_allowed (ap : apool) (r : Z) (ws : list Z) : Prop :=
  is_small (length ws) = true -> ws <> [] /\
  forall objs o, objs ∈ ap_levels ap -> o ∈ objs -> o.1 + 8 * Z.of_nat (length o.2) = r -> last o.2 <> Some r.

Definition pre (s : spec) (o : op) : Prop :=
  match o with
  | Op_initialize p _ _ => p ∈ blanks s
  | Op_delete p | Op_push p | Op_pop p | Op_push_freeze p => exists ap, pools s !! p = Some ap /\ ap_frozen ap = false
  | Op_pop_unfreeze p => exists ap, pools s !! p = Some ap /\ ap_frozen ap = true
  | Op_alloc p size => is_Some (pools s !! p) /\ legal_size size
  | Op_realloc p r old_size new_size =>
      exists ap j objs ws, pools s !! p = Some ap /\ ap_levels ap !! j = Some objs /\ (r, ws) ∈ objs /\
        legal_size old_size /\ padded old_size = length ws /\
        legal_size new_size /\ realloc_allowed ap j (length ws) (padded new_size)
  | Op_free p r =>
      exists ap objs ws, pools s !! p = Some ap /\ objs ∈ ap_levels ap /\ (r, ws) ∈ objs /\ free_allowed ap r ws
  | Op_load a | Op_store a _ => exists p ap j objs i r ws k v, place_of s a p ap j objs i r ws k v
  end.

(** The result and the new state; [m] and [ws'] of an allocation are the allocator's choice. *)
Definition post (s : spec) (o : op) (r : Z) (s' : spec) : Prop :=
  match o with
  | Op_initialize p _ bz => r = 0 /\ s' = Spec (<[p := APool bz false [[]]]> (pools s)) (blanks s ∖ {[p]})
  | Op_delete p => r = 0 /\ s' = Spec (delete p (pools s)) ({[p]} ∪ blanks s)
  | Op_push p => r = 0 /\ exists ap, pools s !! p = Some ap /\ s' = set_levels s p ap ([] :: ap_levels ap)
  | Op_pop p => r = 0 /\ exists ap, pools s !! p = Some ap /\ s' = set_levels s p ap (pop_levels_of (ap_levels ap))
  | Op_push_freeze p =>
      r = 0 /\ exists ap, pools s !! p = Some ap /\ s' = set_pool s p (APool (ap_bz ap) true ([] :: ap_levels ap))
  | Op_pop_unfreeze p =>
      r = 0 /\ exists ap, pools s !! p = Some ap /\
        s' = set_pool s p (APool (ap_bz ap) false (pop_levels_of (ap_levels ap)))
  | Op_alloc p size =>
      exists ap ws, pools s !! p = Some ap /\ fresh (ap_bz ap) (padded size) ws /\ valid_ptr r /\
        s' = set_levels s p ap (add_obj (r, ws) (ap_levels ap))
  | Op_realloc p r0 _ new_size =>
      exists ap j objs ws lvs', pools s !! p = Some ap /\ ap_levels ap !! j = Some objs /\ (r0, ws) ∈ objs /\
        realloc_result ap j r0 ws (padded new_size) (ap_levels ap) r lvs' /\
        s' = set_levels s p ap lvs'
  | Op_free p r0 =>
      r = 0 /\ exists ap, pools s !! p = Some ap /\
        ((exists o1 ws o2 lvs, ap_levels ap = (o1 ++ (r0, ws) :: o2) :: lvs /\ is_small (length ws) = false /\
            s' = set_levels s p ap ((o1 ++ o2) :: lvs)) \/
         (exists j objs ws, ap_levels ap !! j = Some objs /\ (r0, ws) ∈ objs /\
            (is_small (length ws) = true \/ j <> 0%nat) /\ s' = s))
  | Op_load a => s' = s /\ exists p ap j objs i r0 ws k, place_of s a p ap j objs i r0 ws k r
  | Op_store a v =>
      r = 0 /\ exists p ap j objs i r0 ws k v0, place_of s a p ap j objs i r0 ws k v0 /\
        s' = set_levels s p ap (<[j := <[i := (r0, <[k := v]> ws)]> objs]> (ap_levels ap))
  end.

(** * The implementation of the operations *)
Section run.
Context `{Allocator} `{Image}.

Definition done_ (c : mem unit) : mem Z := run* c in ret 0.

Definition run_op (fuel : nat) (o : op) : mem Z :=
  match o with
  | Op_initialize p name bz => done_ (MEM_POOL_Initialize_P p name (Z.b2z bz))
  | Op_delete p => done_ (MEM_POOL_Delete fuel p)
  | Op_push p => done_ (MEM_POOL_Push_P p)
  | Op_pop p => done_ (MEM_POOL_Pop_P fuel p)
  | Op_push_freeze p => done_ (MEM_POOL_Push_Freeze_P p)
  | Op_pop_unfreeze p => done_ (MEM_POOL_Pop_Unfreeze_P fuel p)
  | Op_alloc p size => MEM_POOL_Alloc_P p size
  | Op_realloc p r old_size new_size => MEM_POOL_Realloc_P p r old_size new_size
  | Op_free p r => done_ (MEM_POOL_FREE p r)
  | Op_load a => load a
  | Op_store a v => done_ (store a v)
  end.
End run.
