(* ===== verification/MemPoolRefine.v ===== *)
(** The pools of [MemPoolSpec] in memory, and that each operation does what the
    specification says. *)
From Stdlib Require Import ZArith Lia Bool.
From stdpp Require Import prelude gmap list.
From iris.proofmode Require Import proofmode.
From S2P Require Import Prelude.
From S2P Require Import MemHeap.
From S2P Require Import MemLogic.
From S2P Require Import MemPool.
From S2P Require Import MemPoolRep.
From S2P Require Import MemPoolAlloc.
From S2P Require Import MemPoolLarge.
From S2P Require Import MemPoolRealloc.
From S2P Require Import MemPoolLevels.
From S2P Require Import MemPoolSpec.

(** * Levels *)
Definition size_of (o : obj) : Z * nat := (o.1, length o.2).
Definition small_sizes (objs : list obj) : list (Z * nat) :=
  filter (fun o => is_small o.2 = true) (size_of <$> objs).
Definition large_sizes (objs : list obj) : list (Z * nat) :=
  filter (fun o => is_small o.2 = false) (size_of <$> objs).
Definition user (hn : Z * nat) : Z * nat := (hn.1 + 32, hn.2).

Record level_abs (l : level) (objs : list obj) : Prop := {
  abs_small : l_small l = small_sizes objs;
  abs_large : user <$> l_large l = large_sizes objs
}.

Definition contents (lvs : list (list obj)) : hprop := ([∗ list] objs ∈ lvs, [∗ list] o ∈ objs, words o.1 o.2)%I.

Lemma filter_size (P : Z * nat -> Prop) `{!forall x, Decision (P x)} o1 o o2 :
  filter P (size_of <$> o1 ++ o :: o2) =
  filter P (size_of <$> o1) ++ filter P [size_of o] ++ filter P (size_of <$> o2).
Proof. rw fmap_app fmap_cons filter_app (filter_app _ [_]). done. Qed.

Lemma small_sizes_small o1 o o2 : is_small (length o.2) = true ->
  small_sizes (o1 ++ o :: o2) = small_sizes o1 ++ size_of o :: small_sizes o2 /\
  large_sizes (o1 ++ o :: o2) = large_sizes (o1 ++ o2).
Proof.
  intros Hs. unfold small_sizes, large_sizes. rw !filter_size fmap_app filter_app. split.
  - by rw filter_cons_True.
  - rw filter_cons_False; [done|]. cbn. by rw Hs.
Qed.

Lemma large_sizes_large o1 o o2 : is_small (length o.2) = false ->
  large_sizes (o1 ++ o :: o2) = large_sizes o1 ++ size_of o :: large_sizes o2 /\
  small_sizes (o1 ++ o :: o2) = small_sizes (o1 ++ o2).
Proof.
  intros Hs. unfold small_sizes, large_sizes. rw !filter_size fmap_app filter_app. split.
  - by rw filter_cons_True.
  - rw filter_cons_False; [done|]. cbn. by rw Hs.
Qed.

Lemma large_app o1 o2 : large_sizes (o1 ++ o2) = large_sizes o1 ++ large_sizes o2.
Proof. unfold large_sizes. by rw fmap_app filter_app. Qed.

(** ** The effect of the operations on the levels *)
Lemma abs_add l l' objs r ws : level_abs l objs -> added l l' r (length ws) -> level_abs l' ((r, ws) :: objs).
Proof.
  intros [Hs Hl] [_ Ha]. destruct (is_small (length ws)) eqn:E.
  - destruct Ha as (_ & HL & HS). destruct (small_sizes_small [] (r, ws) objs E) as [H1 H2].
    split; [by rw HS Hs; symmetry|]. rw HL Hl. by symmetry.
  - subst l'. destruct (large_sizes_large [] (r, ws) objs E) as [H1 H2].
    split; [cbn; rw Hs; by symmetry|]. cbn [with_large l_large]. rw fmap_cons Hl.
    cbn [app] in H1. rw H1. unfold user, size_of. cbn. do 2 f_equal. lia.
Qed.

Lemma abs_split l o1 r ws o2 : level_abs l (o1 ++ (r, ws) :: o2) -> is_small (length ws) = false ->
  exists l1 h l2, r = h + 32 /\ l_large l = l1 ++ (h, length ws) :: l2 /\
    user <$> l1 = large_sizes o1 /\ user <$> l2 = large_sizes o2.
Proof.
  intros [_ Hl] Hs. rw (proj1 (large_sizes_large o1 (r, ws) o2 Hs)) in Hl.
  apply fmap_app_inv in Hl as (l1 & l2' & H1 & H2 & E). destruct l2' as [|[h n] l2]; [done|].
  rw fmap_cons in H2. injection H2 as Hr Hn H2. exists l1, h, l2. by subst.
Qed.

Lemma abs_remove l o1 r ws o2 l1 l2 : level_abs l (o1 ++ (r, ws) :: o2) -> is_small (length ws) = false ->
  user <$> l1 = large_sizes o1 -> user <$> l2 = large_sizes o2 ->
  level_abs (with_large l (l1 ++ l2)) (o1 ++ o2).
Proof.
  intros [Hs _] E H1 H2. destruct (large_sizes_large o1 (r, ws) o2 E) as [_ E2]. split; cbn.
  - by rw Hs E2.
  - by rw fmap_app large_app H1 H2.
Qed.

Lemma abs_replace l o1 r ws o2 l1 l2 h ws' : level_abs l (o1 ++ (r, ws) :: o2) ->
  is_small (length ws) = false -> is_small (length ws') = false ->
  user <$> l1 = large_sizes o1 -> user <$> l2 = large_sizes o2 ->
  level_abs (with_large l (l1 ++ (h, length ws') :: l2)) (o1 ++ (h + 32, ws') :: o2).
Proof.
  intros [Hs _] E E' H1 H2. destruct (large_sizes_large o1 (r, ws) o2 E) as [_ E2].
  destruct (large_sizes_large o1 (h + 32, ws') o2 E') as [E3 E4]. split; cbn.
  - by rw Hs E2 E4.
  - by rw fmap_app fmap_cons E3 H1 H2.
Qed.

Lemma abs_contents l objs : level_abs l objs ->
  ([∗ list] o ∈ objs, words o.1 o.2) ⊢ objects_own (l_small l) ∗ large_objects (l_large l).
Proof.
  intros [Hs Hl]. unfold large_objects.
  assert (Hlarge : ([∗ list] hn ∈ l_large l, area (hn.1 + 32) hn.2) ⊣⊢ objects_own (large_sizes objs)).
  { rw -Hl. unfold objects_own. by rw big_sepL_fmap. }
  rw Hlarge Hs. clear Hs Hl Hlarge. unfold objects_own. induction objs as [|[r ws] objs IH].
  - cbn. iIntros "_". by iSplit.
  - cbn [big_opL fst snd]. iIntros "[Hw H]". iDestruct (words_area with "Hw") as "Hw".
    iDestruct (IH with "H") as "[H1 H2]". destruct (is_small (length ws)) eqn:E.
    + destruct (small_sizes_small [] (r, ws) objs E) as [E1 E2]. cbn [app] in E1, E2. rw E1 E2. cbn. iFrame.
    + destruct (large_sizes_large [] (r, ws) objs E) as [E1 E2]. cbn [app] in E1, E2. rw E1 E2. cbn. iFrame.
Qed.

Lemma abs_lengths l objs : level_abs l objs ->
  (length (l_small l) <= length objs)%nat /\ (length (l_large l) <= length objs)%nat.
Proof.
  intros [Hs Hl]. rw Hs -(length_fmap user (l_large l)) Hl. unfold small_sizes, large_sizes.
  rw -(length_fmap size_of objs). split; apply length_filter.
Qed.

(** A store changes no size. *)
Lemma abs_store l objs i r ws ws' : level_abs l objs -> objs !! i = Some (r, ws) -> length ws' = length ws ->
  level_abs l (<[i := (r, ws')]> objs).
Proof.
  intros [Hs Hl] Hi Hlen.
  assert (Hsz : size_of <$> <[i := (r, ws')]> objs = size_of <$> objs).
  { rw list_fmap_insert list_insert_id //. rw list_lookup_fmap Hi. unfold size_of. cbn. by rw Hlen. }
  split; unfold small_sizes, large_sizes; by rw Hsz.
Qed.

(** * Pools *)
Section refine.
Context `{AllocatorLaws} `{Image}.

Definition pool_rep (p : Z) (ap : apool) : hprop :=
  (∃ lvs, ⌈Forall2 level_abs lvs (ap_levels ap) /\ ap_levels ap <> []⌉ ∗ pool_own p (ap_bz ap) lvs ∗
     MEM_POOL_frozen p ↦ Z.b2z (ap_frozen ap) ∗ others_own p ∗ contents (ap_levels ap))%I.

Lemma legal_size_pad size : legal_size size -> PAD_TO_ALIGN size = 8 * Z.of_nat (padded size).
Proof.
  intros [Hp Hs]. apply PAD_TO_ALIGN_spec. unfold size_ok, padded in Hs.
  rw Z2Nat.id in Hs; [|apply Z.div_pos; lia]. pose proof (Z.mod_pos_bound (size + 7) 8).
  pose proof (Z.div_mod (size + 7) 8). lia.
Qed.

Lemma free_words_fresh bz r n : free_words bz r n ⊢ ∃ ws, ⌈fresh bz n ws⌉ ∗ words r ws.
Proof.
  unfold fresh. destruct bz; cbn [free_words].
  - iIntros "H". iExists (replicate n 0). iFrame. iPureIntro. by rw length_replicate.
  - iIntros "(%ws & %Hl & H)". iExists ws. by iFrame.
Qed.

Lemma copied_resized bz r ws m :
  copied bz r ws m ⊢ ∃ ws', ⌈resized bz ws m ws' /\ length ws' = m⌉ ∗ words r ws'.
Proof.
  iIntros "[H1 H2]". iDestruct (free_words_fresh with "H2") as (more) "[%Hf H2]".
  iExists (take m ws ++ more). rw words_app. iFrame. iPureIntro. split; [by exists more|].
  destruct Hf as [Hl _]. rw length_app length_take Hl. lia.
Qed.

Lemma contents_acc lvs j objs r ws : lvs !! j = Some objs -> (r, ws) ∈ objs ->
  contents lvs ⊢ words r ws ∗ (words r ws -∗ contents lvs).
Proof.
  iIntros (Hj Hin) "H". apply list_elem_of_lookup in Hin as [i Hi]. unfold contents.
  iDestruct (big_sepL_lookup_acc with "H") as "[H Hclose]"; [done|].
  iDestruct (big_sepL_lookup_acc with "H") as "[H Hclose2]"; [exact Hi|].
  iFrame "H". iIntros "H". iApply "Hclose". by iApply "Hclose2".
Qed.

Lemma alloc_rep p ap size (R : Z -> hprop) : legal_size size ->
  pool_rep p ap -∗
  (∀ r ws, ⌈fresh (ap_bz ap) (padded size) ws /\ valid_ptr r⌉ -∗
     pool_rep p (with_levels ap (add_obj (r, ws) (ap_levels ap))) -∗ R r) -∗
  wp (MEM_POOL_Alloc_P p size) R.
Proof.
  iIntros (Hs) "(%lvs & (%Habs & %Hne) & Hpool & Hfr & Ho & Hc) HR". destruct ap as [bz fr als].
  cbn [ap_bz ap_frozen ap_levels with_levels] in *. destruct Habs as [|l objs lvs als Hl Habs]; [done|].
  iDestruct (pool_own_pos with "Hpool") as "[%Hp Hpool]".
  unfold MEM_POOL_Alloc_P. wp_step. iApply default_pool_ok; [done|].
  unfold Malloc_Mem_Pool. destruct (Z.eqb_spec p 1); [lia|]. rw legal_size_pad //.
  iApply (raw_allocate_ok with "Hpool"); [apply Hs|]. iIntros (r l') "%Hadd Hpool Hobj".
  iDestruct (free_words_fresh with "Hobj") as (ws) "[%Hf Hobj]".
  iApply ("HR" $! r ws with "[]"); [iPureIntro; split; [done|apply Hadd]|].
  iExists (l' :: lvs). cbn [ap_bz ap_frozen ap_levels add_obj contents big_opL fst snd]. iFrame. iPureIntro.
  split; [|done]. constructor; [|done]. destruct Hf as [Hlen _]. rw -Hlen in Hadd. by eapply abs_add.
Qed.

(** [pool_rep] with an object more in the current level *)
Lemma pool_rep_add p bz fr l l' lvs als objs r ws : level_abs l objs -> Forall2 level_abs lvs als ->
  added l l' r (length ws) ->
  pool_own p bz (l' :: lvs) -∗ MEM_POOL_frozen p ↦ Z.b2z fr -∗ others_own p -∗ contents (objs :: als) -∗ words r ws -∗
  pool_rep p (APool bz fr (((r, ws) :: objs) :: als)).
Proof.
  iIntros (Hl Habs Hadd) "Hpool Hfr Ho Hc Hw". iExists (l' :: lvs).
  cbn [ap_bz ap_frozen ap_levels contents big_opL fst snd]. iFrame. iPureIntro.
  split; [|done]. constructor; [by eapply abs_add|done].
Qed.

(** An object of the current level: the object is taken out of its contents. *)
Lemma contents_split o1 r ws o2 als :
  contents ((o1 ++ (r, ws) :: o2) :: als) ⊣⊢
  words r ws ∗ ([∗ list] o ∈ o1, words o.1 o.2) ∗ ([∗ list] o ∈ o2, words o.1 o.2) ∗ contents als.
Proof.
  unfold contents. cbn [big_opL]. rw big_sepL_app. cbn [big_opL fst snd].
  iSplit; [iIntros "[(? & ? & ?) ?]"|iIntros "(? & ? & ? & ?)"]; iFrame.
Qed.

(** The cases of [MEM_POOL_Realloc] *)
Section realloc_cases.
Context {p : Z} {bz fr : bool} {l : level} {lvs : list level} {objs : list obj} {als : list (list obj)}.
Context {j : nat} {r : Z} {ws : list Z} {m : nat} {old_size new_size : Z}.
Context (Hl : level_abs l objs) (Habs : Forall2 level_abs lvs als).
Context (Hold : PAD_TO_ALIGN old_size = 8 * Z.of_nat (length ws)).
Context (Hnew : PAD_TO_ALIGN new_size = 8 * Z.of_nat m) (Hok : size_ok m).
Let ap := APool bz fr (objs :: als).

Lemma rep_grows objs' (R : Z -> hprop) :
  is_small (length ws) = true -> (length ws < m)%nat -> (objs :: als) !! j = Some objs' -> (r, ws) ∈ objs' ->
  pool_own p bz (l :: lvs) -∗ MEM_POOL_frozen p ↦ Z.b2z fr -∗ others_own p -∗ contents (objs :: als) -∗
  (∀ r' lvs', ⌈realloc_result ap j r ws m (objs :: als) r' lvs'⌉ -∗ pool_rep p (with_levels ap lvs') -∗ R r') -∗
  wp (MEM_POOL_Realloc_P p r old_size new_size) R.
Proof.
  iIntros (Hs Hm Hj Hin) "Hpool Hfr Ho Hc HR". iDestruct (contents_acc with "Hc") as "[Hw Hc]"; [done..|].
  iApply (realloc_grows_ok Hold Hnew with "Hpool Hw"); [done..|]. iIntros (r' l') "%Hadd Hpool Hw Hobj".
  iDestruct (copied_resized with "Hobj") as (ws') "[(%Hres & %Hlen) Hobj]".
  iApply ("HR" with "[]"); [iPureIntro; apply (Copied _ _ _ _ _ _ r' ws'); [by left|done|apply Hadd]|].
  rw -Hlen in Hadd. iApply (pool_rep_add with "Hpool Hfr Ho [Hc Hw] Hobj"); [done..|]. by iApply "Hc".
Qed.

Lemma rep_outer j' objs' (R : Z -> hprop) :
  is_small (length ws) = false -> m <> length ws -> j = S j' -> als !! j' = Some objs' -> (r, ws) ∈ objs' ->
  pool_own p bz (l :: lvs) -∗ MEM_POOL_frozen p ↦ Z.b2z fr -∗ others_own p -∗ contents (objs :: als) -∗
  (∀ r' lvs', ⌈realloc_result ap j r ws m (objs :: als) r' lvs'⌉ -∗ pool_rep p (with_levels ap lvs') -∗ R r') -∗
  wp (MEM_POOL_Realloc_P p r old_size new_size) R.
Proof.
  iIntros (Hs Hm Ej Hj Hin) "Hpool Hfr Ho Hc HR".
  iDestruct (contents_acc _ (S j') with "Hc") as "[Hw Hc]"; [done..|].
  destruct (Forall2_lookup_r _ _ _ _ _ Habs Hj) as (l2 & Hj2 & Hl2).
  apply list_elem_of_split in Hin as (o1 & o2 & ->).
  destruct (abs_split _ _ _ _ _ Hl2 Hs) as (l1 & h & l3 & Hr & Hlarge & _).
  iApply (realloc_outer_ok Hold Hnew l2 h with "Hpool Hw"); [done..| | |].
  { by eapply list_elem_of_lookup_2. }
  { rw Hlarge. apply elem_of_app. right. left. }
  iIntros (r' l') "%Hadd Hpool Hw Hobj".
  iDestruct (copied_resized with "Hobj") as (ws') "[(%Hres & %Hlen) Hobj]".
  iApply ("HR" with "[]"); [iPureIntro; apply (Copied _ _ _ _ _ _ r' ws'); [right; by rw Ej|done|apply Hadd]|].
  rw -Hlen in Hadd. iApply (pool_rep_add with "Hpool Hfr Ho [Hc Hw] Hobj"); [done..|]. by iApply "Hc".
Qed.

Lemma rep_shrinks o1 o2 (R : Z -> hprop) :
  is_small (length ws) = false -> is_small m = true -> j = 0%nat -> objs = o1 ++ (r, ws) :: o2 ->
  pool_own p bz (l :: lvs) -∗ MEM_POOL_frozen p ↦ Z.b2z fr -∗ others_own p -∗ contents (objs :: als) -∗
  (∀ r' lvs', ⌈realloc_result ap j r ws m (objs :: als) r' lvs'⌉ -∗ pool_rep p (with_levels ap lvs') -∗ R r') -∗
  wp (MEM_POOL_Realloc_P p r old_size new_size) R.
Proof.
  iIntros (Hs Hm Ej Ho) "Hpool Hfr Hot Hc HR". rw {1}Ho contents_split. iDestruct "Hc" as "(Hw & Hc1 & Hc2 & Hc)".
  pose proof Hl as Hl'. rw Ho in Hl'. destruct (abs_split _ _ _ _ _ Hl' Hs) as (l1 & h & l2 & Hr & Hlarge & H1' & H2').
  iApply (realloc_shrinks_ok Hold Hnew with "Hpool Hw"); [done..|]. iIntros (r' l') "(%Hv & %Hg) Hpool Hobj".
  iDestruct (copied_resized with "Hobj") as (ws') "[(%Hres & %Hlen) Hobj]".
  iApply ("HR" with "[]"); [iPureIntro; rw Ho; by apply (Shrunk _ _ _ _ _ _ _ _ r' ws')|].
  iExists (with_large l' (l1 ++ l2) :: lvs). cbn [ap with_levels ap_bz ap_frozen ap_levels contents big_opL fst snd].
  rw big_sepL_app. iFrame. iPureIntro. split; [|done]. constructor; [|done].
  pose proof (abs_remove _ _ _ _ _ _ _ Hl' Hs H1' H2') as Hrem. destruct Hg as (Hpb & _ & Hsm).
  eapply (abs_add (with_large l (l1 ++ l2))); [done|]. split; [done|]. rw Hlen Hm.
  unfold grown. cbn. by rw Hpb Hsm.
Qed.

Lemma rep_moves o1 o2 (R : Z -> hprop) :
  is_small (length ws) = false -> is_small m = false -> m <> length ws -> (bz = true -> (length ws <= m)%nat) ->
  j = 0%nat -> objs = o1 ++ (r, ws) :: o2 ->
  pool_own p bz (l :: lvs) -∗ MEM_POOL_frozen p ↦ Z.b2z fr -∗ others_own p -∗ contents (objs :: als) -∗
  (∀ r' lvs', ⌈realloc_result ap j r ws m (objs :: als) r' lvs'⌉ -∗ pool_rep p (with_levels ap lvs') -∗ R r') -∗
  wp (MEM_POOL_Realloc_P p r old_size new_size) R.
Proof.
  iIntros (Hs Hm Hne Hbz Ej Ho) "Hpool Hfr Hot Hc HR". rw {1}Ho contents_split. iDestruct "Hc" as "(Hw & Hc1 & Hc2 & Hc)".
  pose proof Hl as Hl'. rw Ho in Hl'. destruct (abs_split _ _ _ _ _ Hl' Hs) as (l1 & h & l2 & Hr & Hlarge & H1' & H2').
  iApply (realloc_moves_ok Hold Hnew with "Hpool Hw"); [try done..|].
  { unfold size_ok in Hok. lia. }
  iIntros (h') "%Hv Hpool Hobj".
  iDestruct (copied_resized with "Hobj") as (ws') "[(%Hres & %Hlen) Hobj]".
  iApply ("HR" with "[]"); [iPureIntro; rw Ho; by apply (Moved _ _ _ _ _ _ _ _ (h' + 32) ws')|].
  iExists (with_large l (l1 ++ (h', m) :: l2) :: lvs).
  cbn [ap with_levels ap_bz ap_frozen ap_levels contents big_opL fst snd]. rw big_sepL_app. cbn [big_opL fst snd].
  iFrame. iPureIntro. split; [|by destruct o1]. constructor; [|done]. rw -Hlen in Hm *.
  by apply (abs_replace l o1 r ws o2).
Qed.
End realloc_cases.

Lemma realloc_rep p ap j objs r ws old_size new_size (R : Z -> hprop) :
  ap_levels ap !! j = Some objs -> (r, ws) ∈ objs -> legal_size old_size -> padded old_size = length ws ->
  legal_size new_size -> realloc_allowed ap j (length ws) (padded new_size) ->
  pool_rep p ap -∗
  (∀ r' lvs', ⌈realloc_result ap j r ws (padded new_size) (ap_levels ap) r' lvs'⌉ -∗
     pool_rep p (with_levels ap lvs') -∗ R r') -∗
  wp (MEM_POOL_Realloc_P p r old_size new_size) R.
Proof.
  iIntros (Hj Hin Hold Hlen Hnew Hallow) "(%lvs & (%Habs & %Hne) & Hpool & Hfr & Ho & Hc) HR".
  destruct ap as [bz fr als]. unfold realloc_allowed in Hallow.
  cbn [ap_bz ap_frozen ap_levels] in *. destruct Habs as [|l objs0 lvs als Hl Habs]; [done|].
  pose proof (legal_size_pad _ Hold) as Hpo. pose proof (legal_size_pad _ Hnew) as Hpn. rw Hlen in Hpo.
  destruct Hnew as [_ Hok]. revert Hok Hpn Hallow. generalize (padded new_size). intros m Hok Hpn Hallow.
  destruct (decide (m = length ws \/ is_small (length ws) = true /\ (m < length ws)%nat)) as [Hst|Hst].
  { iDestruct (pool_own_pos with "Hpool") as "[%Hp Hpool]". iApply (realloc_stays_ok Hpo Hpn); [done..|].
    iApply "HR"; [iPureIntro; by apply Stays|]. iExists (l :: lvs). iFrame. iPureIntro. split; [by constructor|done]. }
  destruct (is_small (length ws)) eqn:Hs.
  { by iApply (rep_grows Hl Habs Hpo Hpn Hok with "Hpool Hfr Ho Hc HR"); [|assert (m <> length ws) by tauto; lia| |]. }
  assert (Hm : m <> length ws) by tauto. destruct j as [|j].
  - cbn in Hj. injection Hj as ->. apply list_elem_of_split in Hin as (o1 & o2 & Ho). destruct (is_small m) eqn:Hsm.
    + by iApply (rep_shrinks Hl Habs Hpo Hpn o1 o2 with "Hpool Hfr Ho Hc HR").
    + iApply (rep_moves Hl Habs Hpo Hpn Hok o1 o2 with "Hpool Hfr Ho Hc HR"); [done..| |done|done].
      intros Hbz. by apply Hallow.
  - by iApply (rep_outer Hl Habs Hpo Hpn Hok j objs with "Hpool Hfr Ho Hc HR").
Qed.

(** ** [MEM_POOL_FREE] *)
Lemma levels_boundary lvs : levels_own lvs ⊢ levels_own lvs ∗ ⌈forall o, o ∈ smalls lvs -> boundary lvs o.1⌉.
Proof.
  induction lvs as [|l lvs IH]; [iIntros "_"; iSplit; [done|]; iPureIntro; by intros o ?%not_elem_of_nil|].
  cbn [levels_own]. iIntros "(%Hok & Hpb & Hll & Hlvs)". iDestruct (IH with "Hlvs") as "[Hlvs %Hb]".
  iFrame. iPureIntro. split; [done|]. intros o [Ho|Ho]%elem_smalls; [by apply Hok|].
  eapply boundary_mono; [| |by apply Hb].
  - intros b k Hin. cbn [blocks_of]. destruct (blocks_of lvs) as [|[b' k'] bs]; [by apply not_elem_of_nil in Hin|].
    apply elem_of_cons in Hin as [[= -> ->]|Hin]; eexists; apply elem_of_app; right; [left|right; exact Hin].
  - intros o' Ho'. apply elem_smalls. by right.
Qed.

Lemma smalls_objs lvs als o : Forall2 level_abs lvs als -> o ∈ smalls lvs ->
  exists j objs o', als !! j = Some objs /\ o' ∈ objs /\ size_of o' = o.
Proof.
  intros Habs Ho. unfold smalls in Ho. apply list_elem_of_bind in Ho as (l & Ho & Hl).
  apply list_elem_of_lookup in Hl as [j Hj]. destruct (Forall2_lookup_l _ _ _ _ _ Habs Hj) as (objs & Hj' & Hab).
  rw (abs_small _ _ Hab) in Ho. apply list_elem_of_filter in Ho as [_ Ho].
  apply list_elem_of_fmap in Ho as (o' & -> & Ho'). by exists j, objs, o'.
Qed.

Lemma free_small_rep p ap j objs r ws (R : unit -> hprop) :
  ap_levels ap !! j = Some objs -> (r, ws) ∈ objs -> is_small (length ws) = true -> free_allowed ap r ws ->
  pool_rep p ap -∗ (pool_rep p ap -∗ R tt) -∗ wp (MEM_POOL_FREE p r) R.
Proof.
  iIntros (Hj Hin Hs Hfree) "(%lvs & (%Habs & %Hne) & Hpool & Hfr & Ho & Hc) HR".
  destruct (Hfree Hs) as [Hws Hlast]. destruct (Forall2_lookup_r _ _ _ _ _ Habs Hj) as (l & Hjl & Hl).
  iDestruct "Hpool" as "(%Hp & Hpb & Hbz & Hlvs & Hbs)". iDestruct (levels_boundary with "Hlvs") as "[Hlvs %Hb]".
  assert (Hsm : (r, length ws) ∈ smalls lvs).
  { apply list_elem_of_bind. exists l. split; [|by eapply list_elem_of_lookup_2]. rw (abs_small _ _ Hl).
    apply list_elem_of_filter. split; [done|]. by apply (list_elem_of_fmap_2 size_of _ (r, ws)). }
  destruct (Hb _ Hsm) as [(b & k & Hbk & Hr)|(o & Ho & Hpos & Hend)]; cbn [fst] in *.
  - iDestruct (contents_acc with "Hc") as "[Hw Hc]"; [done..|]. destruct ws as [|v ws]; [done|].
    iDestruct "Hw" as "[Hv Hw]". rw in_use_0 in Hr. subst r.
    destruct lvs as [|l0 lvs]; [by apply not_elem_of_nil in Hbk|].
    iApply (pool_free_first p (ap_bz ap) l0 lvs b k v with "[Hpb Hbz Hlvs Hbs] Hv"); [done|iFrame; by iPureIntro|].
    iIntros "Hpool Hv". iApply "HR". iExists (l0 :: lvs). iFrame. iSplit; [by iPureIntro|]. iApply "Hc". iFrame.
  - destruct (smalls_objs _ _ _ Habs Ho) as (j' & objs' & [r' ws'] & Hj' & Hin' & <-). unfold size_of in Hpos, Hend.
    cbn [fst snd] in Hpos, Hend. iDestruct (contents_acc _ _ _ r' ws' with "Hc") as "[Hw Hc]"; [done..|].
    destruct ws' as [|v vs _] using rev_ind; [cbn in Hpos; lia|].
    iDestruct (words_app with "Hw") as "[Hvs [Hv Hnil]]". rw length_app in Hend. cbn [length] in Hend.
    assert (Hne' : v <> r).
    { intros ->. apply (Hlast objs' (r', vs ++ [r])); [by eapply list_elem_of_lookup_2|done| |].
      - cbn [fst snd]. rw length_app. cbn [length]. lia.
      - cbn [snd]. by rw last_snoc. }
    rw (_ : r' + 8 * zlen vs = r - 8); [|unfold zlen; lia].
    iApply (free_no_header with "Hv"); [done..|]. iIntros "Hv". iApply "HR". iExists lvs. iFrame.
    iSplit; [by iPureIntro|]. iSplit; [by iPureIntro|]. iApply "Hc". iApply words_app.
    rw (_ : r' + 8 * zlen vs = r - 8); [|unfold zlen; lia]. iFrame.
Qed.

Lemma free_outer_rep p ap j objs r ws (R : unit -> hprop) :
  ap_levels ap !! S j = Some objs -> (r, ws) ∈ objs -> is_small (length ws) = false ->
  pool_rep p ap -∗ (pool_rep p ap -∗ R tt) -∗ wp (MEM_POOL_FREE p r) R.
Proof.
  iIntros (Hj Hin Hs) "(%lvs & (%Habs & %Hne) & Hpool & Hfr & Ho & Hc) HR".
  destruct ap as [bz fr als]. cbn [ap_bz ap_frozen ap_levels] in *.
  pose proof Habs as Habs0. destruct Habs0 as [|l objs0 lvs als Hl Habs0]; [done|].
  destruct (Forall2_lookup_r _ _ _ _ _ Habs0 Hj) as (l2 & Hj2 & Hl2).
  apply list_elem_of_split in Hin as (o1 & o2 & ->).
  destruct (abs_split _ _ _ _ _ Hl2 Hs) as (l1 & h & l3 & -> & Hlarge & _).
  iApply (pool_free_outer _ _ _ _ l2 h (length ws) with "Hpool").
  { by eapply list_elem_of_lookup_2. }
  { rw Hlarge. apply elem_of_app. right. left. }
  iIntros "Hpool". iApply "HR". iExists (l :: lvs). iFrame. by iPureIntro.
Qed.

Lemma free_large_rep p bz fr o1 r ws o2 als (R : unit -> hprop) : is_small (length ws) = false ->
  pool_rep p (APool bz fr ((o1 ++ (r, ws) :: o2) :: als)) -∗
  (pool_rep p (APool bz fr ((o1 ++ o2) :: als)) -∗ R tt) -∗ wp (MEM_POOL_FREE p r) R.
Proof.
  iIntros (Hs) "(%lvs & (%Habs & %Hne) & Hpool & Hfr & Ho & Hc) HR". cbn [ap_bz ap_frozen ap_levels] in *.
  apply Forall2_cons_inv_r in Habs as (l & lvs' & Hl & Habs & ->).
  destruct (abs_split _ _ _ _ _ Hl Hs) as (l1 & h & l2 & -> & Hlarge & H1' & H2').
  rw contents_split. iDestruct "Hc" as "(Hw & Hc1 & Hc2 & Hc)". iDestruct (words_area with "Hw") as "Hw".
  iApply (pool_free_large with "Hpool Hw"); [done|]. iIntros "Hpool". iApply "HR".
  iExists (with_large l (l1 ++ l2) :: lvs'). cbn [ap_bz ap_frozen ap_levels contents big_opL]. rw big_sepL_app. iFrame.
  iPureIntro. split; [|done]. constructor; [by eapply abs_remove|done].
Qed.

(** ** Levels *)
(** Fuel for the loops over the levels, the blocks and the large objects of a pool *)
Definition enough (fuel : nat) (lvs : list (list obj)) : Prop :=
  (length lvs <= fuel)%nat /\ Forall (fun objs => (length objs < fuel)%nat) lvs.

Lemma push_rep p bz als (R : unit -> hprop) :
  pool_rep p (APool bz false als) -∗ globals_own -∗
  (pool_rep p (APool bz false ([] :: als)) -∗ globals_own -∗ R tt) -∗ wp (MEM_POOL_Push_P p) R.
Proof.
  iIntros "(%lvs & (%Habs & %Hne) & Hpool & Hfr & Ho & Hc) Hg HR". cbn [ap_bz ap_frozen ap_levels] in *.
  iApply (push_ok with "Hpool Hfr Hg"). iIntros (pb) "Hpool Hfr Hg". iApply ("HR" with "[-Hg] Hg").
  iExists (new_level pb lvs :: lvs). cbn [ap_bz ap_frozen ap_levels contents big_opL]. iFrame. iPureIntro.
  split; [by constructor|done].
Qed.

Lemma pop_rep fuel p bz als (R : unit -> hprop) : enough fuel als ->
  pool_rep p (APool bz false als) -∗ globals_own -∗
  (pool_rep p (APool bz false (pop_levels_of als)) -∗ globals_own -∗ R tt) -∗ wp (MEM_POOL_Pop_P fuel p) R.
Proof.
  iIntros ([_ Hfuel]) "(%lvs & (%Habs & %Hne) & Hpool & Hfr & Ho & Hc) Hg HR". cbn [ap_bz ap_frozen ap_levels] in *.
  destruct Habs as [|l objs lvs als Hl Habs]; [done|]. apply Forall_cons in Hfuel as [Hfuel _].
  unfold contents. cbn [big_opL]. iDestruct "Hc" as "[Hobj Hc]".
  iDestruct (abs_contents _ _ Hl with "Hobj") as "[Hs Hlg]". destruct (abs_lengths _ _ Hl).
  iApply (pop_ok with "Hpool Hfr Hg Hs Hlg"); [lia|lia|]. iIntros "Hpool Hfr Hg". iApply ("HR" with "[-Hg] Hg").
  iExists (popped l lvs). cbn [ap_bz ap_frozen ap_levels]. iFrame "Hpool Hfr Ho".
  destruct Habs as [|l2 objs2 lvs als Hl2 Habs]; cbn [popped pop_levels_of].
  - iSplit; [iPureIntro; split; [by repeat constructor|done]|]. unfold contents. cbn [big_opL]. by rw right_id.
  - iFrame. iPureIntro. split; [by constructor|done].
Qed.

Lemma freeze_rep p bz als (R : unit -> hprop) :
  pool_rep p (APool bz false als) -∗ globals_own -∗
  (pool_rep p (APool bz true ([] :: als)) -∗ globals_own -∗ R tt) -∗ wp (MEM_POOL_Push_Freeze_P p) R.
Proof.
  iIntros "(%lvs & Hab & Hpool & Hfr & Ho) Hg HR". cbn [ap_frozen Z.b2z]. unfold MEM_POOL_Push_Freeze_P.
  wload "Hfr". cbn [Z.eqb FmtAssert]. wret. wp_step.
  iApply (push_rep p bz als with "[Hab Hpool Hfr Ho] Hg"); [iExists lvs; iFrame|].
  iIntros "(%lvs' & Hab & Hpool & Hfr & Ho) Hg". cbn [ap_frozen Z.b2z]. wstore "Hfr".
  iApply ("HR" with "[-Hg] Hg"). iExists lvs'. iFrame.
Qed.

Lemma unfreeze_rep fuel p bz als (R : unit -> hprop) : enough fuel als ->
  pool_rep p (APool bz true als) -∗ globals_own -∗
  (pool_rep p (APool bz false (pop_levels_of als)) -∗ globals_own -∗ R tt) -∗ wp (MEM_POOL_Pop_Unfreeze_P fuel p) R.
Proof.
  iIntros (Hfuel) "(%lvs & Hab & Hpool & Hfr & Ho) Hg HR". cbn [ap_frozen Z.b2z]. unfold MEM_POOL_Pop_Unfreeze_P.
  wload "Hfr". cbn [Z.eqb Pos.eqb FmtAssert]. wret. wstore "Hfr".
  iApply (pop_rep with "[Hab Hpool Hfr Ho] Hg HR"); [done|]. iExists lvs. iFrame.
Qed.

Lemma initialize_rep p name bz (R : unit -> hprop) :
  blank_pool p -∗ globals_own -∗ (pool_rep p (APool bz false [[]]) -∗ globals_own -∗ R tt) -∗
  wp (MEM_POOL_Initialize_P p name (Z.b2z bz)) R.
Proof.
  iIntros "Hb Hg HR". iApply (initialize_ok with "Hb Hg"). iIntros (pb) "Hpool Hfr Ho Hg".
  iApply ("HR" with "[-Hg] Hg"). iExists [new_level pb []]. cbn [ap_bz ap_frozen ap_levels]. iFrame.
  unfold contents. cbn [big_opL]. rw right_id. iSplit; [|done]. iPureIntro. split; [by repeat constructor|done].
Qed.

Lemma delete_rep fuel p bz als (R : unit -> hprop) : enough fuel als ->
  pool_rep p (APool bz false als) -∗ globals_own -∗ (blank_pool p -∗ globals_own -∗ R tt) -∗
  wp (MEM_POOL_Delete fuel p) R.
Proof.
  iIntros ([Hn Hfuel]) "(%lvs & (%Habs & %Hne) & Hpool & Hfr & Ho & Hc) Hg HR". cbn [ap_bz ap_frozen ap_levels] in *.
  iAssert (all_objects lvs) with "[Hc]" as "Hobj".
  { clear Hn Hfuel Hne. iInduction Habs as [|l objs lvs als Hl Habs] "IH"; unfold contents, all_objects; cbn [big_opL]; [done|].
    iDestruct "Hc" as "[H Hc]". iDestruct (abs_contents _ _ Hl with "H") as "$". by iApply "IH". }
  assert (Hfor : fuel_for fuel lvs).
  { clear Hn Hne. revert Hfuel. induction Habs as [|l objs lvs als Hl Habs IH]; intros Hf; [constructor|].
    apply Forall_cons in Hf as [Hf1 Hf2]. destruct (abs_lengths _ _ Hl). constructor; [lia|]. by apply IH. }
  pose proof (Forall2_length _ _ _ Habs) as Hlen. destruct Habs as [|l objs lvs als Hl Habs]; [done|].
  iApply (delete_ok with "Hpool Hfr Ho Hg Hobj HR"); [cbn in *; lia|done].
Qed.
End refine.
