(* ===== verification/MemPoolClient.v ===== *)
(** Clients of memory pools: every client that keeps to the rules of [MemPoolSpec] behaves as
    the specification says and never fails, unless the memory runs out. *)
From Stdlib Require Import ZArith Lia Bool.
From stdpp Require Import prelude gmap list.
From iris.proofmode Require Import proofmode.
From S2P Require Import Prelude.
From S2P Require Import MemHeap.
From S2P Require Import MemLogic.
From S2P Require Import MemPool.
From S2P Require Import MemPoolRep.
From S2P Require Import MemPoolAlloc.
From S2P Require Import MemPoolLarge.
From S2P Require Import MemPoolRealloc.
From S2P Require Import MemPoolLevels.
From S2P Require Import MemPoolSpec.
From S2P Require Import MemPoolRefine.

(** * Clients: programs that do an operation and go on with its result *)
Inductive client :=
| Return (v : Z)
| Do (o : op) (k : Z -> client).

(** The client keeps to the rules, whatever the results are. *)
Fixpoint legal (s : spec) (c : client) : Prop :=
  match c with
  | Return _ => True
  | Do o k => pre s o /\ forall r s', post s o r s' -> legal s' (k r)
  end.

(** [v] is a result, and [s'] a final state, that the specification allows. *)
Fixpoint behaves (s : spec) (c : client) (v : Z) (s' : spec) : Prop :=
  match c with
  | Return w => v = w /\ s' = s
  | Do o k => exists r s1, post s o r s1 /\ behaves s1 (k r) v s'
  end.

Definition enough_spec (fuel : nat) (s : spec) : Prop :=
  forall p ap, pools s !! p = Some ap -> enough fuel (ap_levels ap).

(** ** An operation adds at most one level and one object. *)
Lemma enough_S n lvs : enough n lvs -> enough (S n) lvs.
Proof. intros [H1 H2]. split; [lia|]. eapply Forall_impl; [done|]. cbn. lia. Qed.

Lemma enough_cons n objs lvs : enough n (objs :: lvs) <-> (S (length lvs) <= n)%nat /\ (length objs < n)%nat /\
  Forall (fun objs => (length objs < n)%nat) lvs.
Proof. unfold enough. rw Forall_cons. cbn [length]. tauto. Qed.

Lemma enough_push n lvs : enough n lvs -> enough (S n) ([] :: lvs).
Proof. intros He. destruct (enough_S _ _ He) as [H1 H2]. destruct He as [H3 _]. apply enough_cons. cbn. split_and!; [lia|lia|done]. Qed.

Lemma enough_pop n lvs : enough n lvs -> enough (S n) (pop_levels_of lvs).
Proof.
  intros [H1 H2]%enough_S. destruct lvs as [|objs [|objs' lvs]]; cbn [pop_levels_of].
  - apply enough_cons. cbn. split_and!; [lia|lia|constructor].
  - apply enough_cons. cbn. split_and!; [lia|lia|constructor].
  - apply Forall_cons in H2 as [_ H2]. split; [cbn in *; lia|done].
Qed.

Lemma enough_add n o lvs : enough n lvs -> enough (S n) (add_obj o lvs).
Proof.
  destruct lvs as [|objs lvs]; cbn [add_obj]; [apply enough_S|]. intros He. destruct (enough_S _ _ He) as [H1 H2].
  apply enough_cons in He as (_ & H3 & _). apply Forall_cons in H2 as [_ H2]. apply enough_cons. cbn in *.
  split_and!; [lia|lia|done].
Qed.

Lemma enough_top n objs objs' lvs : (length objs' <= length objs)%nat -> enough n (objs :: lvs) -> enough (S n) (objs' :: lvs).
Proof.
  intros Hl He%enough_S. apply enough_cons in He as (H1 & H2 & H3). apply enough_cons. split_and!; [lia|lia|done].
Qed.

Lemma enough_realloc n ap j r ws m lvs r' lvs' : realloc_result ap j r ws m lvs r' lvs' -> enough n lvs -> enough (S n) lvs'.
Proof.
  intros [| | |] He; [by apply enough_S|by apply enough_add| |]; eapply enough_top; [|done| |done];
    rw !length_app; cbn [length]; rw ?length_app; lia.
Qed.

Lemma enough_store n lvs j objs objs' : lvs !! j = Some objs -> length objs' = length objs ->
  enough n lvs -> enough (S n) (<[j := objs']> lvs).
Proof.
  intros Hj Hl [H1 H2]%enough_S. split; [by rw length_insert|]. apply Forall_insert; [done|].
  rw Hl. by eapply Forall_lookup_1 in H2; [|done].
Qed.

Lemma enough_set n s p ap : enough_spec n s -> enough (S n) (ap_levels ap) -> enough_spec (S n) (set_pool s p ap).
Proof.
  intros Hs Hap q aq. cbn [set_pool pools]. intros [[<- <-]|[_ Hq]]%lookup_insert_Some; [done|]. by eapply enough_S, Hs.
Qed.

Lemma enough_post n s o r s' : post s o r s' -> enough_spec n s -> enough_spec (S n) s'.
Proof.
  intros Hpost Hs. assert (HS : enough_spec (S n) s) by (intros p ap Hp; by eapply enough_S, Hs).
  destruct o; cbn [post] in Hpost.
  - destruct Hpost as [_ ->]. apply (enough_set n s pool (APool bz false [[]])); [done|]. cbn [ap_levels].
    apply enough_cons. cbn. split_and!; [lia|lia|constructor].
  - destruct Hpost as [_ ->]. intros p ap. cbn [pools]. intros [_ Hp]%lookup_delete_Some. by eapply HS.
  - destruct Hpost as (_ & ap & Hp & ->). apply enough_set; [done|]. by eapply enough_push, Hs.
  - destruct Hpost as (_ & ap & Hp & ->). apply enough_set; [done|]. by eapply enough_pop, Hs.
  - destruct Hpost as (_ & ap & Hp & ->). apply enough_set; [done|]. by eapply enough_push, Hs.
  - destruct Hpost as (_ & ap & Hp & ->). apply enough_set; [done|]. by eapply enough_pop, Hs.
  - destruct Hpost as (ap & ws & Hp & _ & _ & ->). apply enough_set; [done|]. by eapply enough_add, Hs.
  - destruct Hpost as (ap & j & objs & ws & lvs' & Hp & _ & _ & Hres & ->). apply enough_set; [done|].
    eapply enough_realloc; [done|]. by eapply Hs.
  - destruct Hpost as (_ & ap & Hp & [(o1 & ws & o2 & lvs & Hl & _ & ->)|(j & objs & ws & _ & _ & _ & ->)]); [|done].
    apply enough_set; [done|]. apply (enough_top _ (o1 ++ (r0, ws) :: o2)); [rw !length_app; cbn [length]; lia|].
    rw -Hl. by eapply Hs.
  - by destruct Hpost as [-> _].
  - destruct Hpost as (_ & p & ap & j & objs & i & r0 & ws & k & v0 & [Hp Hj Hi _ _] & ->). apply enough_set; [done|].
    eapply enough_store; [done|by rw length_insert|]. by eapply Hs.
Qed.

Section client.
Context `{AllocatorLaws} `{Image}.

(** The operation after [n] others has fuel [n]: there cannot be more levels and objects. *)
Fixpoint run (n : nat) (c : client) : mem Z :=
  match c with
  | Return v => ret v
  | Do o k => do* r := run_op n o in run (S n) (k r)
  end.

Definition spec_own (s : spec) : hprop :=
  (globals_own ∗ ([∗ map] p ↦ ap ∈ pools s, pool_rep p ap) ∗ ([∗ set] p ∈ blanks s, blank_pool p))%I.

(** The memory consists of the pools and the variables of the package, and nothing else. *)
Definition represents (s : spec) (m : cells) : Prop := holds (spec_own s) m.

(** ** An operation on a pool *)
Lemma pools_acc s p ap : pools s !! p = Some ap ->
  spec_own s ⊢ pool_rep p ap ∗ globals_own ∗ (∀ ap', pool_rep p ap' -∗ globals_own -∗ spec_own (set_pool s p ap')).
Proof.
  iIntros (Hp) "(Hg & Hpools & Hblanks)".
  iDestruct (big_sepM_insert_acc with "Hpools") as "[Hpool Hclose]"; [done|]. iFrame "Hpool Hg".
  iIntros (ap') "Hpool Hg". iFrame "Hg Hblanks". by iApply "Hclose".
Qed.

Lemma pools_same s p ap : pools s !! p = Some ap -> set_pool s p ap = s.
Proof. intros Hp. destruct s. unfold set_pool. cbn in *. by rw insert_id. Qed.

Lemma done_ok (c : mem unit) (Q : Z -> hprop) : wp c (fun _ => Q 0) ⊢ wp (done_ c) Q.
Proof. iIntros "Hc". unfold done_. wp_step. iApply (wp_wand with "Hc"). iIntros ([]) "HQ". by wret. Qed.

Definition op_spec (s : spec) (o : op) (r : Z) : hprop := (∃ s', ⌈post s o r s'⌉ ∗ spec_own s')%I.

Lemma levels_op_ok fuel s o p : enough_spec fuel s -> pre s o ->
  o = Op_push p \/ o = Op_pop p \/ o = Op_push_freeze p \/ o = Op_pop_unfreeze p ->
  spec_own s ⊢ wp (run_op fuel o) (op_spec s o).
Proof.
  iIntros (Hfuel Hpre Ho) "Hs".
  assert (exists bz fr als, pools s !! p = Some (APool bz fr als) /\
    (fr = false /\ o <> Op_pop_unfreeze p \/ fr = true /\ o = Op_pop_unfreeze p)) as (bz & fr & als & Hp & Hfr).
  { destruct Ho as [->|[->|[->| ->]]]; cbn in Hpre; destruct Hpre as ([bz fr als] & Hp & Hf); cbn in Hf; subst;
      eexists _, _, _; (split; [exact Hp|]); auto. }
  pose proof (Hfuel _ _ Hp) as Hen. iDestruct (pools_acc with "Hs") as "(Hpool & Hg & Hclose)"; [done|].
  destruct Ho as [->|[->|[->| ->]]]; destruct Hfr as [[-> Hno]|[-> Hno]]; try done; cbn [run_op]; iApply done_ok;
    [iApply (push_rep with "Hpool Hg")|iApply (pop_rep with "Hpool Hg"); [done|]
    |iApply (freeze_rep with "Hpool Hg")|iApply (unfreeze_rep with "Hpool Hg"); [done|]];
    iIntros "Hpool Hg"; iDestruct ("Hclose" with "Hpool Hg") as "Hs"; iExists _; iFrame; iPureIntro; (split; [done|]);
    by eexists.
Qed.

Lemma blank_pool_excl p ap : blank_pool p -∗ pool_rep p ap -∗ False.
Proof.
  iIntros "(_ & [%v Hpb] & _) (%lvs & _ & (_ & Hpb' & _) & _)". iDestruct (pt_excl with "Hpb Hpb'") as "[]".
Qed.

Lemma initialize_op_ok fuel s p name bz : p ∈ blanks s ->
  spec_own s ⊢ wp (run_op fuel (Op_initialize p name bz)) (op_spec s (Op_initialize p name bz)).
Proof.
  iIntros (Hp) "(Hg & Hpools & Hb)". iDestruct (big_sepS_delete _ _ p with "Hb") as "[Hp Hb]"; [done|].
  destruct (pools s !! p) as [ap|] eqn:Hap.
  { iDestruct (big_sepM_lookup_acc with "Hpools") as "[Hpool Hclose]"; [done|].
    iDestruct (blank_pool_excl with "Hp Hpool") as "[]". }
  cbn [run_op]. iApply done_ok. iApply (initialize_rep with "Hp Hg"). iIntros "Hp Hg". iExists _.
  iSplit; [iPureIntro; by split|]. iFrame "Hg". cbn [pools blanks]. iFrame "Hb". iApply big_sepM_insert; [done|]. iFrame.
Qed.

Lemma delete_op_ok fuel s p : enough_spec fuel s -> pre s (Op_delete p) ->
  spec_own s ⊢ wp (run_op fuel (Op_delete p)) (op_spec s (Op_delete p)).
Proof.
  iIntros (Hfuel ([bz fr als] & Hp & Hf)) "(Hg & Hpools & Hb)". cbn in Hf. subst fr.
  pose proof (Hfuel _ _ Hp) as Hen. iDestruct (big_sepM_delete with "Hpools") as "[Hpool Hpools]"; [done|].
  destruct (decide (p ∈ blanks s)) as [Hin|Hin].
  { iDestruct (big_sepS_delete _ _ p with "Hb") as "[Hblank Hb]"; [done|].
    iDestruct (blank_pool_excl with "Hblank Hpool") as "[]". }
  cbn [run_op]. iApply done_ok. iApply (delete_rep with "Hpool Hg"); [done|]. iIntros "Hp Hg". iExists _.
  iSplit; [iPureIntro; by split|]. iFrame "Hg Hpools". cbn [blanks]. iApply big_sepS_insert; [done|]. iFrame.
Qed.

Lemma alloc_op_ok fuel s p size : pre s (Op_alloc p size) ->
  spec_own s ⊢ wp (run_op fuel (Op_alloc p size)) (op_spec s (Op_alloc p size)).
Proof.
  iIntros ([[ap Hp] Hsize]) "Hs". iDestruct (pools_acc with "Hs") as "(Hpool & Hg & Hclose)"; [done|].
  cbn [run_op]. iApply (alloc_rep with "Hpool"); [done|]. iIntros (r ws) "(%Hf & %Hv) Hpool".
  iDestruct ("Hclose" with "Hpool Hg") as "Hs". iExists _. iFrame. iPureIntro. by exists ap, ws.
Qed.

Lemma realloc_op_ok fuel s p r old_size new_size : pre s (Op_realloc p r old_size new_size) ->
  spec_own s ⊢ wp (run_op fuel (Op_realloc p r old_size new_size)) (op_spec s (Op_realloc p r old_size new_size)).
Proof.
  iIntros ((ap & j & objs & ws & Hp & Hj & Hin & Hold & Hlen & Hnew & Hallow)) "Hs".
  iDestruct (pools_acc with "Hs") as "(Hpool & Hg & Hclose)"; [done|].
  cbn [run_op]. iApply (realloc_rep with "Hpool"); [done..|]. iIntros (r' lvs') "%Hres Hpool".
  iDestruct ("Hclose" with "Hpool Hg") as "Hs". iExists _. iFrame. iPureIntro. by exists ap, j, objs, ws, lvs'.
Qed.

Lemma free_op_ok fuel s p r : pre s (Op_free p r) ->
  spec_own s ⊢ wp (run_op fuel (Op_free p r)) (op_spec s (Op_free p r)).
Proof.
  iIntros ((ap & objs & ws & Hp & Hobjs & Hin & Hfree)) "Hs".
  apply list_elem_of_lookup in Hobjs as [j Hj].
  iDestruct (pools_acc with "Hs") as "(Hpool & Hg & Hclose)"; [done|]. cbn [run_op]. iApply done_ok.
  iAssert (∀ ap', pool_rep p ap' -∗ ⌈post s (Op_free p r) 0 (set_pool s p ap')⌉ -∗ op_spec s (Op_free p r) 0)%I
    with "[Hg Hclose]" as "Hdone".
  { iIntros (ap') "Hpool %Hpost". iExists _. iSplit; [done|]. iApply ("Hclose" with "Hpool Hg"). }
  assert (Hstay : is_small (length ws) = true \/ j <> 0%nat -> post s (Op_free p r) 0 (set_pool s p ap)).
  { intros Hc. split; [done|]. exists ap. split; [done|]. right. exists j, objs, ws. rw pools_same //. }
  destruct (is_small (length ws)) eqn:Hs; [|destruct j as [|j]].
  - iApply (free_small_rep with "Hpool"); [done..|]. iIntros "Hpool". iApply ("Hdone" with "Hpool"). iPureIntro.
    apply Hstay. by left.
  - apply list_elem_of_split in Hin as (o1 & o2 & ->). destruct ap as [bz fr als].
    destruct als as [|objs als]; [done|]. injection Hj as ->.
    iApply (free_large_rep with "Hpool"); [done|]. iIntros "Hpool". iApply ("Hdone" with "Hpool"). iPureIntro.
    split; [done|]. eexists. split; [done|]. left. by exists o1, ws, o2, als.
  - iApply (free_outer_rep with "Hpool"); [done..|]. iIntros "Hpool". iApply ("Hdone" with "Hpool"). iPureIntro.
    apply Hstay. by right.
Qed.

(** ** Loads and stores *)
Lemma word_acc r ws k v : ws !! k = Some v ->
  words r ws ⊢ (r + 8 * Z.of_nat k) ↦ v ∗ (∀ w, (r + 8 * Z.of_nat k) ↦ w -∗ words r (<[k := w]> ws)).
Proof.
  revert r k. induction ws as [|x ws IH]; intros r [|k] Hk; try done; cbn [words insert list_insert].
  - injection Hk as ->. rw Z.add_0_r. iIntros "[Hv Hw]". iFrame. iIntros (w) "Hv". iFrame.
  - iIntros "[Hv Hw]". iDestruct (IH (r + 8) k with "Hw") as "[Hk Hw]"; [done|].
    rw (_ : r + 8 + 8 * Z.of_nat k = r + 8 * Z.of_nat (S k)); [|lia]. iFrame "Hk". iIntros (w) "Hk".
    iFrame. by iApply "Hw".
Qed.

Lemma place_acc s a p ap j objs i r ws k v : place_of s a p ap j objs i r ws k v ->
  spec_own s ⊢ a ↦ v ∗
    (∀ w, a ↦ w -∗ spec_own (set_levels s p ap (<[j := <[i := (r, <[k := w]> ws)]> objs]> (ap_levels ap)))).
Proof.
  intros [Hp Hj Hi Hk ->]. iIntros "Hs". iDestruct (pools_acc with "Hs") as "(Hpool & Hg & Hclose)"; [done|].
  iDestruct "Hpool" as "(%lvs & (%Habs & %Hne) & Hpool & Hfr & Ho & Hc)". unfold contents.
  iDestruct (big_sepL_insert_acc with "Hc") as "[Hobjs Hc]"; [done|].
  iDestruct (big_sepL_insert_acc with "Hobjs") as "[Hobj Hobjs]"; [exact Hi|]. cbn [fst snd].
  iDestruct (word_acc with "Hobj") as "[Hv Hobj]"; [done|]. iFrame "Hv". iIntros (w) "Hv".
  iApply ("Hclose" with "[-Hg] Hg"). iExists lvs. cbn [with_levels ap_bz ap_frozen ap_levels]. iFrame "Hpool Hfr Ho".
  iSplit; [|iApply "Hc"; iApply ("Hobjs" $! (r, _)); by iApply "Hobj"]. iPureIntro. split.
  - destruct (Forall2_lookup_r _ _ _ _ _ Habs Hj) as (l & Hl & Hab). rw -(list_insert_id lvs j l) //.
    apply Forall2_insert; [done|]. eapply abs_store; [done|done|apply length_insert].
  - by destruct (ap_levels ap), j.
Qed.

Lemma load_op_ok fuel s a : pre s (Op_load a) -> spec_own s ⊢ wp (run_op fuel (Op_load a)) (op_spec s (Op_load a)).
Proof.
  iIntros ((p & ap & j & objs & i & r & ws & k & v & Hpl)) "Hs".
  iDestruct (place_acc with "Hs") as "[Hv Hs]"; [done|]. cbn [run_op]. wload "Hv".
  iDestruct ("Hs" with "Hv") as "Hs". iExists s. iSplit; [iPureIntro; split; [done|by repeat eexists; apply Hpl]|].
  destruct Hpl as [Hp Hj Hi Hk _]. rw (list_insert_id ws) // (list_insert_id objs) // (list_insert_id (ap_levels ap)) //.
  unfold set_levels, with_levels. by destruct ap; rw pools_same.
Qed.

Lemma store_op_ok fuel s a v : pre s (Op_store a v) ->
  spec_own s ⊢ wp (run_op fuel (Op_store a v)) (op_spec s (Op_store a v)).
Proof.
  iIntros ((p & ap & j & objs & i & r & ws & k & v0 & Hpl)) "Hs".
  iDestruct (place_acc with "Hs") as "[Hv Hs]"; [done|]. cbn [run_op]. iApply done_ok. wstore "Hv".
  iDestruct ("Hs" with "Hv") as "Hs". iExists _. iFrame "Hs". iPureIntro. split; [done|].
  by exists p, ap, j, objs, i, r, ws, k, v0.
Qed.

Lemma op_ok fuel s o : pre s o -> enough_spec fuel s -> spec_own s ⊢ wp (run_op fuel o) (op_spec s o).
Proof.
  intros Hpre Hfuel. destruct o.
  - by apply initialize_op_ok.
  - by apply delete_op_ok.
  - eapply levels_op_ok; eauto.
  - eapply levels_op_ok; eauto.
  - eapply levels_op_ok; eauto 6.
  - eapply levels_op_ok; eauto 6.
  - by apply alloc_op_ok.
  - by apply realloc_op_ok.
  - by apply free_op_ok.
  - by apply load_op_ok.
  - by apply store_op_ok.
Qed.

(** ** Programs *)
Lemma run_ok n s c : enough_spec n s -> legal s c ->
  spec_own s ⊢ wp (run n c) (fun v => ∃ s', ⌈behaves s c v s'⌉ ∗ spec_own s')%I.
Proof.
  revert n s. induction c as [v|o k IH]; intros n s Hn Hlegal; cbn [run].
  - iIntros "Hs". wret. iExists s. iFrame. by iPureIntro.
  - destruct Hlegal as [Hpre Hlegal]. iIntros "Hs". wp_step.
    iApply (wp_wand with "[Hs]"); [by iApply (op_ok n s o)|]. iIntros (r) "(%s1 & %Hpost & Hs)".
    iApply (wp_wand with "[Hs]"); [iApply (IH r (S n) s1); [by eapply enough_post|by apply Hlegal|done]|].
    iIntros (v) "(%s' & %Hb & Hs)". iExists s'. iFrame. iPureIntro. by exists r, s1.
Qed.
End client.
