(* ===== verification/MemPoolTheorems.v ===== *)
(** The theorems about memory pools, a memory in which they apply, and where the code fails. *)
From Stdlib Require Import ZArith Lia Bool.
From stdpp Require Import prelude gmap list.
From iris.proofmode Require Import proofmode.
From S2P Require Import Prelude.
From S2P Require Import MemHeap.
From S2P Require Import MemLogic.
From S2P Require Import MemPool.
From S2P Require Import MemPoolRep.
From S2P Require Import MemPoolAlloc.
From S2P Require Import MemPoolLarge.
From S2P Require Import MemPoolRealloc.
From S2P Require Import MemPoolLevels.
From S2P Require Import MemPoolSpec.
From S2P Require Import MemPoolRefine.
From S2P Require Import MemPoolClient.

(** * An allocator: regions are put after everything else *)
Module Bump.
Definition address (c : cell) : Z := match c with inl x => x | inr x => x end.
Definition top (m : cells) : Z := foldr (fun kv t => Z.max (address kv.1 + 8) t) 8 (map_to_list m).
Definition place (m : cells) (n : Z) : option Z :=
  let a := 8 * ((top m + 7) / 8) in if a + n <? 2 ^ 64 then Some a else None.

#[export] Instance allocator : Allocator :=
  { place := place; resize := fun m _ n => place m n; junk := fun _ _ => 0xa5a5 }.

Lemma top_above (m : cells) c v : m !! c = Some v -> address c < top m.
Proof.
  intros Hc%elem_of_map_to_list. unfold top. induction (map_to_list m) as [|kv l IH]; [by apply not_elem_of_nil in Hc|].
  apply elem_of_cons in Hc as [<-|Hc]; cbn [foldr fst]; [lia|]. specialize (IH Hc). lia.
Qed.

Lemma top_pos (m : cells) : 8 <= top m.
Proof. unfold top. induction (map_to_list m) as [|kv l IH]; cbn [foldr]; lia. Qed.

Lemma place_fits m n a : place m n = Some a -> fits m a n.
Proof.
  unfold place. destruct (Z.ltb_spec (8 * ((top m + 7) / 8) + n) (2 ^ 64)) as [Hlt|]; [|done]. intros [= <-].
  pose proof (top_pos m). pose proof (Z.div_mod (top m + 7) 8). pose proof (Z.mod_pos_bound (top m + 7) 8).
  assert (Hnone : forall c, top m <= address c -> m !! c = None).
  { intros c Hc. destruct (m !! c) as [v|] eqn:E; [|done]. apply top_above in E. lia. }
  split; [lia|by rw Z.mul_comm Z.mod_mul|done|apply Hnone; cbn; lia|intros x Hx; apply Hnone; cbn; lia].
Qed.

Lemma fits_released m p old a n : fits m a n -> fits (released m p old) a n.
Proof.
  assert (Hsub : forall c, m !! c = None -> released m p old !! c = None).
  { intros c Hc. unfold released. apply map_lookup_filter_None_2. left. apply lookup_delete_None. by right. }
  intros [H1 H2 H3 H4 H5]. split; auto.
Qed.

#[export] Instance laws : AllocatorLaws.
Proof. split; [intros m n a _; apply place_fits|intros m p old n a _ _ Hp; by apply fits_released, place_fits]. Qed.
End Bump.

(** * The memory when the program starts *)
Module Start.
#[export] Instance image : Image :=
  { mem_overhead_pool := 0x1000; free_mem_pool_blocks_list := 0x1100; The_Default_Mem_Pool := 0x1108 }.
Definition overhead_blocks : Z := 0x1200.

(** The overhead pool with its [MEM_POOL_BLOCKS], the empty free list and a pool that is not
    initialised *)
Definition words_at (pool : Z) : list (cell * Z) :=
  [(Word (MEM_POOL_blocks mem_overhead_pool), overhead_blocks); (Word (MEM_POOL_bz mem_overhead_pool), 1)] ++
  ((fun f => (Word (f overhead_blocks), 0)) <$>
    [MEM_POOL_BLOCKS_block; MEM_POOL_BLOCKS_large_block; MEM_POOL_BLOCKS_base_block; MEM_POOL_BLOCKS_base_ptr;
     MEM_POOL_BLOCKS_base_avail; MEM_POOL_BLOCKS_rest]) ++
  [(Word free_mem_pool_blocks_list, 0)] ++ ((fun f => (Word (f pool), 0)) <$> pool_fields).
Definition memory (pool : Z) : cells := list_to_map (words_at pool).
Definition state (pool : Z) : spec := Spec ∅ {[pool]}.

Lemma holds_pts (l : list (cell * Z)) : NoDup (l.*1) -> holds ([∗ list] cv ∈ l, pt cv.1 cv.2)%I (list_to_map l).
Proof.
  induction l as [|[c v] l IH]; cbn [fmap list_fmap fst]; [done|]. intros [Hc Hl]%NoDup_cons.
  cbn [list_to_map foldr uncurry big_opL fst snd]. exists {[c := v]}, (list_to_map l).
  rw insert_union_singleton_l. split; [done|]. split; [|split; [done|by apply IH]].
  apply map_disjoint_singleton_l. by apply not_elem_of_list_to_map_1.
Qed.

Lemma represented pool : 1 < pool -> NoDup ((words_at pool).*1) -> represents (state pool) (memory pool).
Proof.
  intros Hpool Hnd. eapply hentails_holds; [|by apply holds_pts]. unfold words_at, pool_fields. cbn.
  unfold spec_own, state, globals_own. cbn [pools blanks]. rw big_sepM_empty big_sepS_singleton left_id.
  iIntros "(Hob & Hobz & H1 & H2 & H3 & H4 & H5 & H6 & Hfl & Hp1 & Hp2 & Hp3 & Hp4 & Hp5 & Hp6 & Hp7 & Hp8 & _)".
  iSplitR "Hp1 Hp2 Hp3 Hp4 Hp5 Hp6 Hp7 Hp8".
  - iSplitR "Hfl"; [|iExists []; by iFrame]. iExists (new_level overhead_blocks []). rw pool_open. cbn. iFrame.
    iPureIntro. split_and!; try done. by apply new_level_ok.
  - unfold blank_pool, others_own, any. iFrame. by iPureIntro.
Qed.
End Start.

(** * Computations that cannot return *)
(** No cell of the memory is above the 64-bit addresses. *)
Definition in_space (m : cells) : Prop := forall a, 2 ^ 64 <= a -> m !! Word a = None.

(** The computation allocates within the address space. *)
Definition keeps_space {A} (c : mem A) : Prop :=
  forall m a m', in_space m -> c m = Ok (a, m') -> in_space m'.

(** From the heap, with any other memory beside it, the computation accesses memory that does not
    exist, or the memory runs out. *)
Definition crashes {A} (c : mem A) : hprop := HProp (fun h => forall f, h ##ₘ f -> in_space (h ∪ f) ->
  c (h ∪ f) = Err Bounds \/ c (h ∪ f) = Err Fatal).

Lemma crashes_bind {A B} (c : mem A) (k : A -> mem B) :
  keeps_space c -> wp c (fun a => crashes (k a)) ⊢ crashes (bind c k).
Proof.
  intros Hk. split. intros h Hc f Hd Hs. specialize (Hc f Hd). unfold bind.
  destruct (c (h ∪ f)) as [[a m]|[]] eqn:E; cbn [obind]; try done; [|by right].
  destruct Hc as (h' & -> & Hd' & HQ). apply (HQ f Hd'). exact (Hk _ _ _ Hs E).
Qed.

Lemma crashes_frame {A} (c : mem A) (P : hprop) : crashes c -∗ P -∗ crashes c.
Proof.
  apply bi.entails_wand, bi.wand_intro_r. split. intros h (h1 & h2 & -> & Hd & Hc & _) f Hf.
  apply map_disjoint_union_l in Hf as [Hf1 Hf2]. rw -(assoc_L (∪)). apply Hc. by apply map_disjoint_union_r_2.
Qed.

Lemma crashes_fatal {A} (P : hprop) : P ⊢ crashes (fail Fatal : mem A).
Proof. split. intros h _ f _ _. by right. Qed.

Section crash.
Context `{AllocatorLaws} `{Image}.

Lemma keeps_ret {A} (a : A) : keeps_space (ret a).
Proof. intros m b m' Hs [= _ <-]. done. Qed.

Lemma keeps_bind {A B} (c : mem A) (k : A -> mem B) :
  keeps_space c -> (forall a, keeps_space (k a)) -> keeps_space (bind c k).
Proof.
  intros Hc Hk m b m' Hs Hb. unfold bind in Hb. destruct (c m) as [[a m1]|] eqn:E; [|done]. cbn [obind] in Hb.
  exact (Hk a _ _ _ (Hc _ _ _ Hs E) Hb).
Qed.

Lemma keeps_load a : keeps_space (load a).
Proof. intros m v m' Hs Hl. unfold load in Hl. destruct (m !! Word a); [|done]. by injection Hl as _ <-. Qed.

Lemma keeps_store a v : keeps_space (store a v).
Proof.
  intros m u m' Hs Hl x Hx. unfold store in Hl. destruct (m !! Word a) eqn:E; [|done]. injection Hl as _ <-.
  rw lookup_insert_ne; [by apply Hs|]. intros [= ->]. by rw Hs in E.
Qed.

Lemma space_placed m a ws n : in_space m -> a + n < 2 ^ 64 -> 8 * zlen ws <= n ->
  in_space (<[Region a := n]> (word_map a ws ∪ m)).
Proof.
  intros Hs Ha Hw x Hx. rw lookup_insert_ne //. apply lookup_union_None_2; [|by apply Hs].
  apply word_map_lookup_out. unfold in_words. rw (proj2 (Z.ltb_ge x (a + 8 * zlen ws))); [|lia]. by rw andb_false_r.
Qed.

Lemma words_of_size n : 0 <= n -> 8 * Z.of_nat (words_of n) <= n.
Proof. intros Hn. unfold words_of. pose proof (Z.mul_div_le n 8). pose proof (Z.div_pos n 8). lia. Qed.

Lemma keeps_malloc size : 0 <= size -> keeps_space (malloc size).
Proof.
  intros Hn m a m' Hs Hm. unfold malloc in Hm. destruct (place m size) as [b|] eqn:E; injection Hm as _ <-; [|done].
  apply space_placed; [done|by eapply fits_end, place_fits|].
  unfold fresh_words, zlen. rw length_fmap length_seq. by apply words_of_size.
Qed.

Lemma load_words_length a n m ws m' : load_words a n m = Ok (ws, m') -> length ws = n.
Proof.
  revert a m ws m'. induction n as [|n IH]; intros a m ws m'; cbn [load_words]; [by intros [= <- _]|].
  unfold bind. destruct (load a m) as [[w m1]|]; [|done]. cbn [obind].
  destruct (load_words (a + 8) n m1) as [[ws1 m2]|] eqn:E; [|done]. cbn [obind]. intros [= <- _]. cbn [length].
  by rw (IH _ _ _ _ E).
Qed.

Lemma keeps_realloc p size : 0 <= size -> keeps_space (realloc p size).
Proof.
  intros Hn m a m' Hs Hm. unfold realloc in Hm. destruct (Z.eqb_spec p 0); [by eapply keeps_malloc|].
  destruct (m !! Region p) as [old|] eqn:Ep; [|done].
  destruct (resize m p size) as [b|] eqn:E; [|by injection Hm as _ <-].
  destruct (load_words p _ m) as [[kept m1]|] eqn:El; [|done]. cbn [obind] in Hm. injection Hm as _ <-.
  apply load_words_length in El. apply space_placed.
  - intros x Hx. unfold released. apply map_lookup_filter_None_2. left. rw lookup_delete_ne //. by apply Hs.
  - by eapply fits_end, resize_fits.
  - pose proof (words_of_size size Hn). assert (words_of (Z.min old size) <= words_of size)%nat.
    { unfold words_of. pose proof (Z.div_le_mono (Z.min old size) size 8). lia. }
    unfold fresh_words, zlen. rw length_app length_fmap length_seq. lia.
Qed.

Lemma keeps_default_pool pool : keeps_space (default_pool pool).
Proof. unfold default_pool. destruct (pool =? Default_Mem_Pool); [apply keeps_load|apply keeps_ret]. Qed.

Lemma keeps_valid_large_block pool r : keeps_space (valid_large_block pool r).
Proof.
  apply keeps_bind; [apply keeps_load|]. intros ptr. destruct (ptr =? r); [|apply keeps_ret].
  repeat (apply keeps_bind; [apply keeps_load|intros]). apply keeps_ret.
Qed.

Lemma keeps_large_realloc b size : keeps_space (MEM_LARGE_BLOCK_realloc b size).
Proof.
  repeat (apply keeps_bind; [apply keeps_load|intros]).
  apply keeps_bind; [apply keeps_bind; [apply keeps_store|intros; apply keeps_store]|intros _].
  apply keeps_bind; [apply keeps_realloc, Z.mod_pos_bound; lia|]. intros nb. apply keeps_bind; [|intros; apply keeps_ret].
  destruct (nb =? 0); [apply keeps_ret|]. apply keeps_bind; [apply keeps_store|intros; apply keeps_store].
Qed.

(** [bzero] past the end of the address space *)
Lemma zero_words_crash a n m j : (j < n)%nat -> m !! Word (a + 8 * Z.of_nat j) = None -> zero_words a n m = Err Bounds.
Proof.
  revert a n m. induction j as [|j IH]; intros a n m Hj Hm; (destruct n as [|n]; [lia|]); cbn [zero_words]; unfold bind, store.
  - rw Z.add_0_r in Hm. by rw Hm.
  - destruct (m !! Word a) eqn:E; [|done]. cbn [obind]. apply IH; [lia|].
    rw (_ : a + 8 + 8 * Z.of_nat j = a + 8 * Z.of_nat (S j)); [|lia]. rw lookup_insert_ne //. intros [= Ha]. lia.
Qed.

Lemma bzero_crashes {B} (P : hprop) a n (k : mem B) : 2 ^ 64 + 16 <= a + n -> 8 <= n -> P ⊢ crashes (run* bzero a n in k).
Proof.
  intros Ha Hn. split. intros h _ f _ Hs. left. unfold bind. set (j := Z.to_nat ((2 ^ 64 - a + 7) / 8)).
  unfold bzero. rw (zero_words_crash a _ _ j) //.
  - pose proof (Z.div_le_mono (2 ^ 64 - a + 7 + 1 * 8) n 8) as Hle. rw Z.div_add // in Hle.
    pose proof (Z.div_le_lower_bound n 8 1). unfold j. lia.
  - apply Hs. pose proof (Z.mul_div_le (2 ^ 64 - a + 7) 8). pose proof (Z.mul_succ_div_gt (2 ^ 64 - a + 7) 8).
    unfold j. lia.
Qed.

(** [MEM_POOL_Realloc] of a large object of the current level to a smaller large size, in a pool that clears its memory *)
Lemma realloc_shrink_crashes pool l lvs l1 h ws l2 m old_size new_size :
  PAD_TO_ALIGN old_size = 8 * Z.of_nat (length ws) -> PAD_TO_ALIGN new_size = 8 * Z.of_nat m ->
  is_small (length ws) = false -> is_small m = false -> (m < length ws)%nat -> size_ok (length ws) ->
  l_large l = l1 ++ (h, length ws) :: l2 ->
  pool_own pool true (l :: lvs) -∗ words (h + 32) ws -∗ crashes (MEM_POOL_Realloc_P pool (h + 32) old_size new_size).
Proof.
  iIntros (Hold Hnew Hs Hm Hlt Hok Hl) "Hpool Hws". iDestruct (pool_own_pos with "Hpool") as "[%Hp Hpool]".
  unfold MEM_POOL_Realloc_P. iApply crashes_bind; [apply keeps_default_pool|]. iApply default_pool_ok; [done|].
  unfold Malloc_Mem_Pool. destruct (Z.eqb_spec pool 1); [lia|]. rw Hold Hnew. unfold is_small, size_ok in *.
  rw (proj2 (Z.eqb_neq _ _)); [|lia]. rw Hs.
  iDestruct (pool_header_current with "Hpool") as (pv nx) "(Hhd & Hpb & Hclose)"; [rw Hl; apply elem_of_app; right; left|].
  iApply crashes_bind; [apply keeps_valid_large_block|]. iApply (valid_large_block_ok with "Hhd Hpb"). iIntros "Hhd Hpb".
  rw Z.eqb_refl Hm. iDestruct ("Hclose" with "Hhd Hpb") as "Hpool". rw pool_open Hl large_own_app large_own_cons.
  iDestruct "Hpool" as "(_ & _ & Hpb & Hbz & Hblk & Hlarge & Hbase & (Hl1 & Hh & Hl2) & Hown)".
  unfold realloc_large. change MEM_LARGE_BLOCK_OVERHEAD with 32. rw (_ : h + 32 - 32 = h); [|lia].
  rw (_ : 8 * Z.of_nat m + 32 = 8 * Z.of_nat (4 + m)); [|lia].
  iApply crashes_bind; [apply keeps_large_realloc|]. iApply (MEM_LARGE_BLOCK_realloc_ok with "Hh Hws"); [lia|].
  iIntros (h') "[[-> H]|(%more & (%Hroom & %Hlen) & Hrest & Hnext & Hprev & Hb & Hptr & Hws)]"; [iApply (crashes_fatal with "[-]"); iAccu|].
  destruct Hroom. rw (proj2 (Z.eqb_neq h' 0)); [|lia].
  iApply crashes_bind; [apply keeps_store|]. iApply (store_word with "Hptr"). iIntros "Hptr".
  iApply crashes_bind; [apply keeps_load|]. iApply (load_word with "Hbz"). iIntros "Hbz". cbn [Z.b2z Z.eqb].
  assert (uwrap 64 (8 * Z.of_nat m - 8 * Z.of_nat (length ws)) = 2 ^ 64 + (8 * Z.of_nat m - 8 * Z.of_nat (length ws))) as ->.
  { unfold uwrap. rw -(Z.mod_small (2 ^ 64 + _) (2 ^ 64)); [|lia]. by rw -(Z.mod_add _ 1) // Z.mul_1_l Z.add_comm. }
  iApply (bzero_crashes with "[-]"); [..|iAccu]; lia.
Qed.

Lemma realloc_forbidden ap j n m :
  ~ realloc_allowed ap j n m -> ap_bz ap = true /\ j = 0%nat /\ is_small n = false /\ is_small m = false /\ (m < n)%nat.
Proof.
  unfold realloc_allowed. intros Hno.
  destruct (ap_bz ap), (decide (j = 0%nat)), (is_small n), (is_small m), (decide (m < n)%nat); try done;
    exfalso; apply Hno; intros; done || lia.
Qed.

Lemma forbidden_realloc_crashes s p ap j objs r ws old_size new_size :
  pools s !! p = Some ap -> ap_levels ap !! j = Some objs -> (r, ws) ∈ objs -> legal_size old_size ->
  padded old_size = length ws -> legal_size new_size -> ~ realloc_allowed ap j (length ws) (padded new_size) ->
  spec_own s ⊢ crashes (MEM_POOL_Realloc_P p r old_size new_size).
Proof.
  iIntros (Hp Hj Hin Hold Hlen Hnew (Hbz & -> & Hs & Hm & Hlt)%realloc_forbidden) "Hs".
  iDestruct (pools_acc with "Hs") as "(Hpool & Hg & Hclose)"; [done|].
  iDestruct "Hpool" as "(%lvs & (%Habs & %Hne) & Hpool & Hfr & Ho & Hc)".
  destruct ap as [bz fr als]. cbn [ap_bz ap_frozen ap_levels] in *. subst bz.
  destruct Habs as [|l objs0 lvs als Hl Habs]; [done|]. cbn in Hj. injection Hj as ->.
  apply list_elem_of_split in Hin as (o1 & o2 & ->). iDestruct (contents_split with "Hc") as "(Hw & Hc1 & Hc2 & Hc)".
  destruct (abs_split _ _ _ _ _ Hl Hs) as (l1 & h & l2 & -> & Hlarge & _ & _).
  pose proof (legal_size_pad _ Hold) as Hpo. rw Hlen in Hpo. destruct Hold as [_ Hok]. rw Hlen in Hok.
  iApply (crashes_frame with "[Hpool Hw] [-]").
  - by iApply (realloc_shrink_crashes with "Hpool Hw"); [|apply legal_size_pad|..].
  - iAccu.
Qed.
End crash.

(** * The theorems *)
Section theorems.
Context `{AllocatorLaws} `{Image}.

(** C1. Memory pools are correct.  Whatever a client does with its pools within the rules
    (creating and deleting them, opening and closing levels, allocating, reallocating and freeing
    objects, loading and storing their words, with each step depending on the results of
    the steps before), it sees only what the specification allows, in which a pool is a
    stack of levels of objects with contents.  It fails in no other way than by
    running out of memory.  The memory outside the pools, [f], is not touched, and all of the
    memory of the pools is accounted for in the end. *)
Theorem mem_pool_refines n s c h f :
  represents s h -> enough_spec n s -> legal s c -> h ##ₘ f ->
  match run n c (h ∪ f) with
  | Ok (v, m) => exists s' h', behaves s c v s' /\ represents s' h' /\ m = h' ∪ f /\ h' ##ₘ f
  | Err e => e = Fatal
  end.
Proof.
  intros Hrep Hn Hlegal Hd. pose proof (hentails_holds _ _ (run_ok n s c Hn Hlegal) _ Hrep f Hd) as Hrun.
  destruct (run n c (h ∪ f)) as [[v m]|[]]; try done.
  destruct Hrun as (h' & -> & Hd' & s' & h1 & h2 & -> & _ & [He Hb] & Hs). assert (h1 = ∅) as -> by exact He.
  rw left_id_L in Hd' *.
  exists s', h2. by split_and!.
Qed.

(** The word at a place, and what the rest says when another word is put there *)
Lemma represents_place s h a p ap j objs i r ws k v :
  represents s h -> place_of s a p ap j objs i r ws k v ->
  h !! Word a = Some v /\ forall w,
    represents (set_levels s p ap (<[j := <[i := (r, <[k := w]> ws)]> objs]> (ap_levels ap))) (<[Word a := w]> h).
Proof.
  intros Hrep Hpl. destruct (hentails_holds _ _ (place_acc _ _ _ _ _ _ _ _ _ _ _ Hpl) _ Hrep)
    as (h1 & h2 & -> & Hd & Hpt & Hw). assert (h1 = {[Word a := v]}) as -> by exact Hpt.
  split; [by rw lookup_own|]. intros w. specialize (Hw w). apply map_disjoint_singleton_l in Hd.
  rw insert_union_l insert_singleton_eq map_union_comm; [|by apply map_disjoint_singleton_l].
  apply Hw; [by apply map_disjoint_singleton_r|done].
Qed.

(** An address belongs to one word of one object of one level of one pool. *)
Lemma places_disjoint s h a p ap j objs i r ws k v p' ap' j' objs' i' r' ws' k' v' :
  represents s h -> place_of s a p ap j objs i r ws k v -> place_of s a p' ap' j' objs' i' r' ws' k' v' ->
  h !! Word a = Some v /\ (p', j', i', k') = (p, j, i, k).
Proof.
  intros Hrep Hpl Hpl'. destruct (represents_place _ _ _ _ _ _ _ _ _ _ _ _ Hrep Hpl) as [Hv Hset]. split; [done|].
  destruct (represents_place _ _ _ _ _ _ _ _ _ _ _ _ Hrep Hpl') as [Hv' _].
  assert (v' = v) as -> by congruence. destruct (decide ((p', j', i', k') = (p, j, i, k))) as [|Hne]; [done|exfalso].
  specialize (Hset (v + 1)). destruct Hpl as [Hp Hj Hi Hk Ha], Hpl' as [Hp' Hj' Hi' Hk' Ha'].
  assert (exists ap2 objs2, place_of (set_levels s p ap (<[j := <[i := (r, <[k := v + 1]> ws)]> objs]> (ap_levels ap)))
    a p' ap2 j' objs2 i' r' ws' k' v) as (ap2 & objs2 & Hpl2).
  { destruct (decide (p' = p)) as [->|Hpn]; [|eexists ap', objs'; split; [by apply lookup_insert_Some; right|done..]].
    assert (ap' = ap) as -> by congruence. destruct (decide (j' = j)) as [->|Hjn].
    - assert (objs' = objs) as -> by congruence.
      assert (i' <> i) as Hin.
      { intros ->. apply Hne. rw Hi in Hi'. injection Hi' as -> ->. by replace k' with k by lia. }
      eexists _, _. split; [apply lookup_insert_eq| | |exact Hk'|exact Ha'].
      + apply list_lookup_insert_eq. by eapply lookup_lt_Some.
      + by rw list_lookup_insert_ne.
    - eexists _, _. split; [apply lookup_insert_eq| |exact Hi'|exact Hk'|exact Ha'].
      cbn [with_levels ap_levels]. by rw list_lookup_insert_ne. }
  destruct (represents_place _ _ _ _ _ _ _ _ _ _ _ _ Hset Hpl2) as [Hv2 _]. rw lookup_insert_eq in Hv2.
  injection Hv2. lia.
Qed.

(** C15. Objects never overlap.  After any client that keeps to the rules, the memory holds the contents of
    every object of every pool, and an address belongs to one word of one object of one
    level of one pool. *)
Theorem mem_pool_isolated n s c h f v m :
  represents s h -> enough_spec n s -> legal s c -> h ##ₘ f -> run n c (h ∪ f) = Ok (v, m) ->
  exists s', behaves s c v s' /\
    forall a p ap j objs i r ws k x, place_of s' a p ap j objs i r ws k x ->
      m !! Word a = Some x /\
      forall p' ap' j' objs' i' r' ws' k' x', place_of s' a p' ap' j' objs' i' r' ws' k' x' ->
        (p', j', i', k') = (p, j, i, k).
Proof.
  intros Hrep Hn Hlegal Hd E. pose proof (hentails_holds _ _ (run_ok n s c Hn Hlegal) _ Hrep f Hd) as Hrun.
  rw E in Hrun. destruct Hrun as (h' & -> & Hd' & s' & h1 & h2 & -> & _ & [He Hb] & Hs).
  assert (h1 = ∅) as -> by exact He. rw left_id_L. exists s'. split; [done|].
  intros a p ap j objs i r ws k x Hpl. split.
  - apply lookup_union_Some_l. by apply (represents_place _ _ _ _ _ _ _ _ _ _ _ _ Hs Hpl).
  - intros p' ap' j' objs' i' r' ws' k' x' Hpl'. eapply places_disjoint; [exact Hs|exact Hpl|exact Hpl'].
Qed.


(** C37. A pool that clears its memory cannot shrink a large object of its current level to
    another large size: [MEM_POOL_Realloc] passes the negative difference of the sizes to [bzero].
    After any history of pools (any memory [h] that represents a specification state), with
    anything else in the memory within 64-bit addresses: a reallocation that keeps to all
    rules but [realloc_allowed] never returns; it accesses memory that does not exist, or
    the memory has run out before.  The rule is thus as weak as it can be. *)
Theorem mem_realloc_shrink_crashes n s p ap j objs r ws old_size new_size k h f :
  represents s h -> h ##ₘ f -> in_space (h ∪ f) ->
  pools s !! p = Some ap -> ap_levels ap !! j = Some objs -> (r, ws) ∈ objs ->
  legal_size old_size -> padded old_size = length ws -> legal_size new_size ->
  ~ realloc_allowed ap j (length ws) (padded new_size) ->
  run n (Do (Op_realloc p r old_size new_size) k) (h ∪ f) = Err Bounds \/
  run n (Do (Op_realloc p r old_size new_size) k) (h ∪ f) = Err Fatal.
Proof.
  intros Hrep Hd Hs Hp Hj Hin Hold Hlen Hnew Hno. cbn [run run_op].
  pose proof (forbidden_realloc_crashes s p ap j objs r ws old_size new_size Hp Hj Hin Hold Hlen Hnew Hno) as Hc.
  destruct (hentails_holds _ _ Hc h Hrep f Hd Hs) as [E|E]; [left|right]; unfold bind; by rw E.
Qed.
End theorems.

(** * Witnesses and failures *)
Lemma bind_error {A B} (c : mem A) (k : A -> mem B) m e : c m = Err e -> bind c k m = Err e.
Proof. unfold bind. by intros ->. Qed.

Section examples.
#[local] Existing Instances Bump.allocator Bump.laws Start.image.

(** A client: an object in a pool that clears its memory, a level above it with a large object that
    is freed, and the contents of the object afterwards *)
Definition pool : Z := 0x2000.
Definition example : client :=
  Do (Op_initialize pool 0 true) (fun _ =>
  Do (Op_alloc pool 12) (fun r =>
  Do (Op_store r 7) (fun _ =>
  Do (Op_push pool) (fun _ =>
  Do (Op_alloc pool 4000) (fun q =>
  Do (Op_free pool q) (fun _ =>
  Do (Op_pop pool) (fun _ =>
  Do (Op_load r) Return))))))).

Example example_runs : fst <$> (match run 0 example (Start.memory pool) with Ok r => Some r | Err _ => None end) = Some 7.
Proof. vm_compute. reflexivity. Qed.

(** ** The rules are kept by the example. *)
Definition one_pool (lvs : list (list obj)) : spec := Spec {[pool := APool true false lvs]} ∅.

Lemma set_one lvs lvs' : set_levels (one_pool lvs) pool (APool true false lvs) lvs' = one_pool lvs'.
Proof. unfold set_levels, set_pool, one_pool. cbn [pools blanks]. by rw insert_singleton_eq. Qed.

Lemma one_pool_lookup lvs p ap : pools (one_pool lvs) !! p = Some ap -> p = pool /\ ap = APool true false lvs.
Proof. cbn [one_pool pools]. by intros [<- <-]%lookup_singleton_Some. Qed.

Lemma one_pool_here lvs : pools (one_pool lvs) !! pool = Some (APool true false lvs).
Proof. apply lookup_singleton_eq. Qed.

(** The only word at the address of the only object *)
Lemma one_place r v w p ap j objs i r0 ws k v0 :
  place_of (one_pool [[(r, [v; w])]]) r p ap j objs i r0 ws k v0 ->
  set_levels (one_pool [[(r, [v; w])]]) p ap (<[j := <[i := (r0, <[k := 7]> ws)]> objs]> (ap_levels ap)) =
  one_pool [[(r, [7; w])]].
Proof.
  intros [Hp Hj Hi Hk Ha]. apply one_pool_lookup in Hp as [-> ->]. cbn [ap_levels] in *.
  destruct j as [|[|j]]; try done. injection Hj as <-. destruct i as [|[|i]]; try done. injection Hi as <- <-.
  assert (k = 0%nat) as -> by lia. by rw set_one.
Qed.

Lemma place_one r v w lvs : place_of (one_pool ([(r, [v; w])] :: lvs)) r pool (APool true false ([(r, [v; w])] :: lvs)) 0
  [(r, [v; w])] 0 r [v; w] 0 v.
Proof. split; [apply one_pool_here|done|done|done|lia]. Qed.

Lemma example_end r : legal (one_pool [[(r, [7; 0])]]) (Do (Op_load r) Return).
Proof. split; [do 9 eexists; apply place_one|done]. Qed.

Lemma example_pop objs r :
  legal (one_pool [objs; [(r, [7; 0])]]) (Do (Op_pop pool) (fun _ => Do (Op_load r) Return)).
Proof.
  split; [eexists; split; [apply one_pool_here|done]|].
  intros x s' (-> & ap & [_ ->]%one_pool_lookup & ->). rw set_one. apply example_end.
Qed.

Lemma example_level r :
  legal (one_pool [[]; [(r, [7; 0])]])
    (Do (Op_alloc pool 4000) (fun q => Do (Op_free pool q) (fun _ => Do (Op_pop pool) (fun _ => Do (Op_load r) Return)))).
Proof.
  split; [split; [eexists; apply one_pool_here|by split]|].
  intros q s' (ap & ws & [_ ->]%one_pool_lookup & [Hl _] & _ & ->). rw set_one. cbn [ap_levels add_obj].
  split.
  - exists (APool true false [[(q, ws)]; [(r, [7; 0])]]), [(q, ws)], ws. split_and!; [apply one_pool_here|left|left|].
    unfold free_allowed. rw Hl. done.
  - intros x s' (-> & ap & [_ ->]%one_pool_lookup & [(o1 & ws' & o2 & lvs & Hlv & _ & ->)|(j & objs & ws' & _ & _ & _ & ->)]).
    + cbn [ap_levels] in Hlv. injection Hlv as Ho <-. rw set_one. apply example_pop.
    + apply example_pop.
Qed.

Lemma example_legal : legal (Start.state pool) example.
Proof.
  split; [set_solver|]. intros x s' [-> ->]. cbn [pools blanks Start.state].
  rw (_ : Spec _ _ = one_pool [[]]); [|unfold one_pool; f_equal; set_solver].
  split; [split; [eexists; apply one_pool_here|by split]|].
  intros r s' (ap & ws & [_ ->]%one_pool_lookup & [_ Hz] & _ & ->).
  assert (ws = [0; 0]) as -> by exact (Hz eq_refl). rw set_one.
  split; [do 9 eexists; apply place_one|].
  intros x s' (-> & p & ap & j & objs & i & r0 & ws & k & v0 & Hpl & ->). rw (one_place _ _ _ _ _ _ _ _ _ _ _ _ Hpl).
  split; [eexists; split; [apply one_pool_here|done]|].
  intros y s' (-> & aq & [_ ->]%one_pool_lookup & ->). rw set_one. apply example_level.
Qed.

Lemma start_represented : represents (Start.state pool) (Start.memory pool).
Proof. apply Start.represented; [done|]. apply (bool_decide_unpack _). vm_compute. exact I. Qed.

Lemma example_ends e : run 0 example (Start.memory pool ∪ ∅) <> Err e.
Proof.
  rw (map_union_empty (M := gmap cell)). intros E.
  assert (Hok : match run 0 example (Start.memory pool) with Ok _ => true | Err _ => false end = true)
    by (vm_compute; reflexivity).
  by rw E in Hok.
Qed.

Lemma mem_pool_refines_witness :
  represents (Start.state pool) (Start.memory pool) /\ legal (Start.state pool) example /\
  match run 0 example (Start.memory pool ∪ ∅) with
  | Ok (v, m) => exists s' h', behaves (Start.state pool) example v s' /\ represents s' h' /\ m = h' ∪ ∅ /\ h' ##ₘ ∅
  | Err e => e = Fatal
  end.
Proof.
  split; [exact start_represented|]. split; [exact example_legal|].
  apply (mem_pool_refines 0 (Start.state pool) example (Start.memory pool) ∅).
  - exact start_represented.
  - intros p ap Hp. discriminate Hp.
  - exact example_legal.
  - apply map_disjoint_empty_r.
Defined.

Lemma mem_pool_isolated_witness :
  exists v m, run 0 example (Start.memory pool ∪ ∅) = Ok (v, m) /\
    exists s', behaves (Start.state pool) example v s' /\
      forall a p ap j objs i r ws k x, place_of s' a p ap j objs i r ws k x ->
        m !! Word a = Some x /\
        forall p' ap' j' objs' i' r' ws' k' x', place_of s' a p' ap' j' objs' i' r' ws' k' x' ->
          (p', j', i', k') = (p, j, i, k).
Proof.
  destruct (run 0 example (Start.memory pool ∪ ∅)) as [[v m]|e] eqn:E.
  - exists v, m. split; [reflexivity|]. apply (mem_pool_isolated 0 (Start.state pool) example (Start.memory pool) ∅ v m).
    + exact start_represented.
    + intros p ap Hp. discriminate Hp.
    + exact example_legal.
    + apply map_disjoint_empty_r.
    + exact E.
  - exfalso. revert E. apply example_ends.
Defined.

(** A large object of a pool that clears its memory *)
Definition large_client : client := Do (Op_initialize pool 0 true) (fun _ => Do (Op_alloc pool 2064) Return).

Lemma large_client_legal : legal (Start.state pool) large_client.
Proof.
  split; [set_solver|]. intros x s' [-> ->]. cbn [pools blanks Start.state].
  rw (_ : Spec _ _ = one_pool [[]]); [|unfold one_pool; f_equal; set_solver].
  split; [split; [eexists; apply one_pool_here|by split]|]. done.
Qed.

Lemma large_client_behaves r s' : behaves (Start.state pool) large_client r s' ->
  exists ws, length ws = 258%nat /\ s' = one_pool [[(r, ws)]].
Proof.
  intros (x & s1 & [-> ->] & y & s2 & (ap & ws & Hap & [Hl _] & _ & ->) & [-> ->]). cbn [pools blanks Start.state] in *.
  rw (_ : Spec _ _ = one_pool [[]]) in Hap *; [|unfold one_pool; f_equal; set_solver].
  apply one_pool_lookup in Hap as [_ ->]. exists ws. by rw set_one.
Qed.

Lemma large_client_space r m : run 0 large_client (Start.memory pool ∪ ∅) = Ok (r, m) -> in_space m.
Proof.
  rw (map_union_empty (M := gmap cell)). intros E a Ha. destruct (m !! Word a) as [v|] eqn:Hm; [|done].
  assert (Hok : match run 0 large_client (Start.memory pool) with
    | Ok (_, m) => forallb (fun kv => Bump.address kv.1 <? 2 ^ 64) (map_to_list m) | Err _ => false end = true)
    by (vm_compute; reflexivity).
  rw E in Hok. pose proof (proj1 (forallb_forall _ _) Hok (Word a, v)) as Ha'. cbn in Ha'.
  specialize (Ha' ltac:(by apply list_elem_of_In, elem_of_map_to_list)). lia.
Qed.

Lemma large_client_ends e : run 0 large_client (Start.memory pool ∪ ∅) <> Err e.
Proof.
  rw (map_union_empty (M := gmap cell)). intros E.
  assert (Hok : match run 0 large_client (Start.memory pool) with Ok _ => true | Err _ => false end = true)
    by (vm_compute; reflexivity).
  by rw E in Hok.
Qed.

Lemma large_client_reaches : exists r ws h,
  run 0 large_client (Start.memory pool ∪ ∅) = Ok (r, h ∪ ∅) /\ represents (one_pool [[(r, ws)]]) h /\
  length ws = 258%nat /\ in_space (h ∪ ∅).
Proof.
  assert (Hen : enough_spec 0 (Start.state pool)) by (intros p ap Hp; discriminate Hp).
  pose proof (hentails_holds _ _ (run_ok 0 _ _ Hen large_client_legal) _ start_represented ∅) as Hrun.
  destruct (run 0 large_client (Start.memory pool ∪ ∅)) as [[r m]|e] eqn:E; [|by apply large_client_ends in E].
  destruct Hrun as (h' & -> & Hd' & s' & h1 & h2 & -> & _ & [He Hb] & Hs); [apply map_disjoint_empty_r|].
  assert (h1 = ∅) as -> by exact He. rw left_id_L in E *. apply large_client_behaves in Hb as (ws & Hl & ->).
  exists r, ws, h2. split_and!; [done|done|done|by eapply large_client_space].
Qed.

Lemma mem_realloc_shrink_crashes_witness : exists r m,
  run 0 large_client (Start.memory pool ∪ ∅) = Ok (r, m) /\
  (run 2 (Do (Op_realloc pool r 2064 2056) Return) m = Err Bounds \/
   run 2 (Do (Op_realloc pool r 2064 2056) Return) m = Err Fatal).
Proof.
  destruct large_client_reaches as (r & ws & h & E & Hrep & Hl & Hs). exists r, (h ∪ ∅). split; [exact E|].
  apply (mem_realloc_shrink_crashes 2 (one_pool [[(r, ws)]]) pool (APool true false [[(r, ws)]]) 0 [(r, ws)] r ws).
  - exact Hrep.
  - apply map_disjoint_empty_r.
  - exact Hs.
  - apply one_pool_here.
  - reflexivity.
  - left.
  - by split.
  - rw Hl. reflexivity.
  - by split.
  - rw Hl. unfold realloc_allowed. intros Hno. specialize (Hno eq_refl eq_refl eq_refl eq_refl).
    vm_compute in Hno. lia.
Defined.

End examples.

(** [MEM_POOL_Push] and [MEM_POOL_Pop] read the pool before they look whether it is one of the two special ones,
    whose addresses are 0 and 1. *)
Lemma mem_push_special_crashes `{Allocator} `{Image} pool m fuel :
  pool = Default_Mem_Pool \/ pool = Malloc_Mem_Pool -> m !! Word (MEM_POOL_frozen pool) = None ->
  MEM_POOL_Push_P pool m = Err Bounds /\ MEM_POOL_Pop_P fuel pool m = Err Bounds.
Proof.
  intros _ Hm. unfold MEM_POOL_Push_P, MEM_POOL_Pop_P. split; apply bind_error; unfold load; by rw Hm.
Qed.
